(* ===== verification/_CoqProject ===== *)
-Q . S2P
Prelude.v
Types.v
ParseFloat.v
Decimal.v
Contract.v
Leadership.v
RobotId.v
Conc.v
Along.v
Par.v
Tde.v
TdeEngine.v
TdeSafety.v
TdeResources.v
TdeRuns.v
TdeRecovery.v
Flow.v
FlowProps.v
EstopScope.v
EstopGuard.v
Command.v
Dispatch.v
DispatchInv.v
DispatchProps.v
ExecutorGuard.v
FencingStore.v
AuditLog.v
Scheduler.v
FleetTask.v
FleetTaskProps.v
FlowDriver.v
FlowDriverProps.v
ZoneGeometry.v
ZoneRestrictions.v
ZoneRestrictionProps.v
ExecutorGate.v
AdmissionGuards.v
SafetyData.v
Safety.v
SafetyInv.v
SafetyProps.v
SafetyTheorems.v
SafetyScenario.v
ActionData.v
ZoneProjection.v
ActionController.v
ActionTable.v
ActionProps.v
ActionPass.v
ActionTheorems.v
ActionScenario.v
ActionReports.v
ActionReportProps.v
ActionWorld.v
ActionRuns.v
EstopControl.v
EstopControlProps.v
EstopControlTheorems.v
DispatchFilters.v
DispatchFilterProps.v
DispatchFilterScenario.v
