(* ===== verification/Prelude.v ===== *)
(** * Swarmada, verified

    Swarmada is a Kubernetes-native orchestrator of robot fleets, written in Go. This library is a
    shallow embedding of the core of its control plane: the data and the decision code of the Go
    packages below are Rocq functions on the same data, and the theorems are about those functions.

    ** The program's parts, and how they meet

    - The Traffic Deconfliction Engine (src/internal/tde) hands out slots in zones and units of the
      shared resources in them. Controllers call it when an action starts, a robot enters or leaves a
      zone, an action changes phase; robot adapters reserve and release resources through it. It keeps
      its own state, mirrors it to FleetZone.status and recovers it from there after a restart.
    - The flow evaluator (src/internal/flow) turns a FleetTask's spec.flow tree and the state of its
      children into the children to create and to cancel; ValidateStructure is its admission check.
    - The stop scope (src/internal/estopscope) answers which robots an emergency stop covers, which
      stops a robot is under, and whether an edit or a move would take a robot out of a stop. The safety
      dispatcher, the clears and the admission webhooks ask it.
    - The scheduler (src/internal/scheduler) filters and ranks robots for an action.
    - Leadership (src/internal/leadership) gives each acquisition of leadership a new term, which fences
      the commands of a stale leader; contract (src/internal/contract) decides which adapters' contract
      versions are served.
    - robotid (src/internal/robotid) translates a robot's wire name to its Robot.
    - The FleetTask controller (src/internal/controller/fleettask_controller.go) runs a composite task
      without a flow: it creates member actions in dependency order, fans the desired state out,
      applies the completion and failure policies and drives the compensation saga. A task with a flow
      is driven by reconcileFlow (fleettask_flow.go), which asks the evaluator, resolves the parameter
      bindings (fleettask_params.go) and keeps the iteration counters.
    - The FleetAction controller (src/internal/controller/fleetaction_controller.go) drives one action
      from Pending to a terminal phase: it dispatches, pauses, resumes, retries, reassigns, revokes and
      cancels it, keeps the executor lease, and asks the scheduler, the engine, the executor gate and the
      command dispatcher on the way. The report ingestor (actionstatus_ingestor.go, actionstatus_retained.go) folds what robots say
      about their actions into the same status, from another process.
    - The stop controllers (zoneestop, namespaceestop and robotestop_controller.go, estop_fanout.go) turn
      the EStop resources and annotations into triggers and clears of the stop dispatcher, one goroutine
      per robot, and answer requests to resume.
    - The command dispatcher (src/internal/command) sends Commands to robots over adapter streams. It
      stamps the leader term and a fencing generation, holds motion back while a stop is in force, fences
      a new stream before it carries an assignment, and matches results to the Commands that wait.
    - The stop dispatcher (src/internal/safety) sends emergency stops over the adapters' SafetyStreams,
      writes what they answer to Robot.status.estopState, records every stop in Robot.status.stops, clears
      a robot to Resuming and releases it to Normal on an operator's confirmation. It re-sends stops on a
      new stream and after a takeover, and hands the command dispatcher the fence of each stop.
    - The executor guard (src/internal/executorguard) decides when a robot that records an action is
      provably off it; the executor gate (src/internal/controller/executor_gate.go) asks such robots to
      cancel, reads the stops over them and clears their records; the generation store (src/internal/controller/fencing_store.go) issues the fencing
      generations that the dispatcher sends.
    - The stop guards among the admission webhooks (src/internal/webhook) refuse the requests that would
      take a robot out of a stop or move work a stop holds: zone edits, robot moves, deletes, and writes of
      robots/status.
    - The audit log (src/internal/audit) chains the records of operator actions by hash.
    - Zone geometry (src/internal/zone, src/internal/zonegeometry) derives a robot's zone from its
      position; the robot controller gives the answer to the engine and to the stop scope.

    ** Files

    - Prelude: scope and notations, Go's strings, integers, time and (value, error) pairs, list lemmas,
      tactics and the hint database. ParseFloat is Go's strconv.ParseFloat, which the flow's range
      predicates call. Types has the records and enums of src/api/v1, with the fields the modelled code
      touches.
    - Decimal: Go's decimal conversions and strings.Split, with their round trips. Contract: Supports,
      Negotiate, Below. Leadership: Floor.Next as an automaton of one API call per step, State, the
      runnable, and a system that interleaves any number of processes.
    - RobotId: Wire, Lookup.
    - Tde: the engine's data and pure helpers (counts, preempt, insertByPolicy, releaseHolder, ...).
      TdeEngine: the Engine record and every handler as a function of engine, world and clock that
      returns both; the API server is the class ApiServer, its promises the class ApiServerLaws, with an
      in-memory instance. TdeSafety, TdeResources: one handler at a time, against a slot book per zone and
      the holders of each resource. TdeRuns: runs with restarts and with recoveries from what earlier
      engines mirrored. TdeRecovery: what a recovery keeps, the leader's Start as a step relation and the
      lock-acquisition order.
    - Flow: the node type (one inductive record, nil pointers as options), Evaluate with an accumulator
      for what it asks, ValidateStructure. FlowProps: the theorems.
    - EstopScope: the tree and every operation of the package. EstopGuard: the theorems.
    - Scheduler: SelectRobot, ExcludedBy and the rest of the package, with its theorems.
    - FleetTask: one reconcile pass as a function of the answers to its calls: cached reads of the children,
      creates, patches that answer with what the API server then stores. FleetTaskProps: the theorems.
      FlowDriver: a pass of a task with a flow, with its cache of reads, creates, cancels, bindings,
      counters and retention. FlowDriverProps: the theorems.
    - Conc: programs as trees of atomic sections, lock operations and calls, and the step relation that
      interleaves any number of them, with a rely-guarantee logic; the dispatchers' files use it.
    - Command: the dispatcher's data (Commands, results, streams, held stops). Dispatch: every entry
      point as such a program. DispatchInv: the invariants of the shared state. DispatchProps: the
      theorems.
    - ExecutorGuard, FencingStore, AuditLog, ZoneGeometry: one package or file each, with its theorems.
    - ExecutorGate: the gate as a program of Conc in a cluster that may change between any two calls, with
      a logic over what a call has seen so far.
    - SafetyData: the stop dispatcher's Robot, its records, its pure checks and one function per section of
      its mutex. Safety: its operations as programs of Conc, with a store of Robots that has versions,
      conflicts and lost answers, and other writers. SafetyInv: what the history of a run says, and the
      invariant of every step. SafetyProps: a triple per operation. SafetyTheorems: the theorems.
      SafetyScenario: runs evaluated, and the theorems applied to them.
    - AdmissionGuards: each guard as a function of the request and
      of its reader's answers; it calls EstopScope and ExecutorGuard and is proved from their lemmas.

    - Along: a logic for programs whose calls are events, over what a run has seen so far; Par: goroutines
      joined by a WaitGroup, as programs a scheduler event interleaves, with the rule that composes them.
    - ActionData: the controller's FleetAction and its pure helpers. ActionController: one reconcile pass as
      a program of events, every read, write and call to another part one event with any answer.
      ActionTable: the transitions the API documents, per phase. ActionProps, ActionPass: each step of the
      pass keeps to the table. ActionTheorems: the theorems. ActionScenario: passes evaluated.
    - ActionReports: the report ingestor, with the retention of what could not be stored yet.
      ActionReportProps: its theorems.
    - ActionWorld: one stored action with versions, changed by any number of passes, report handlers and
      users between any two calls of each other. ActionRuns: such runs evaluated.
    - ZoneRestrictions: the fold of the restrictions of a zone chain and the union over containing zones.
      ZoneRestrictionProps: what the published rules permit. ZoneProjection: the Zone Controller's chain,
      memo and status patch, with a cache that may lag behind the API server, and its theorems.
    - DispatchFilters: filterDispatchEligible and the no-candidate message as functions of their reads.
      DispatchFilterProps: the theorems, and the promise that a pass of ActionController takes of its filter
      event (filter_discharges). DispatchFilterScenario: filters evaluated.
    - EstopControl: the three stop controllers with their finalizer, hold record, status projection and
      watch mappings. EstopControlProps: triples of their steps. EstopControlTheorems: the theorems.

    A Go error is a constructor of an error type, an early return a branch, a map a gmap, a loop a
    Fixpoint or a fold in the code's order; where Go ranges over a map, the order is an input of the model or
    one order is taken and the theorems hold for it. A call to the API server that can fail is an input: the ApiServer class,
    an Api record of answers, or the value read. Handlers of the engine run under zone locks, so a run
    is a sequence of whole handlers; TdeRecovery proves the locks are taken in an order that cannot
    deadlock.

    ** What is proved

    - Zones (TdeSafety, TdeRuns): the engine refines a book of slots per zone; over any run whose declared
      capacities stay, restarts and recoveries included, no zone is overbooked; grants are sound, preemption
      takes the least entitled victim, and the engine fails closed before recovery or when a zone cannot be
      read. The condition that no expired entry is preempted is needed: expired_victim_overgrants.
    - Resources (TdeResources, TdeRuns, Tde): over such a run no shared resource is held beyond its capacity;
      reserve is idempotent; releases backfill the queue from its head and forget the released action;
      queues keep policy order.
    - Recovery (TdeRecovery): the grant gate is open exactly while the leader serves; recovery keeps
      only validated reservations; no deadlock.
    - Flows (FlowProps): the validator is exact against rules stated apart from it (nodeRules); an evaluation asks only for members of the tree that
      are due and cancels only what runs; an admitted flow never hangs silently; a parallel node settles
      after its branches and its verdict is stable; loops stay within their bound.
    - Stops (EstopGuard): fan-out misses no robot, even on a cyclic tree, in doubt it includes; the
      coverage answer misses no stop; the readers of the tree agree; the edit and move guards lose
      nothing.
    - Leadership: no term is used twice and terms only grow, whatever the interleaving, the lost answers
      and the failed calls. Contract: exactly the advertised range is accepted, and a negotiated version
      is supported, stable and never above this build's.
    - Scheduling (Scheduler) and identity (RobotId): the robot chosen is eligible and ranked first; the
      two capability checks agree without a pin; a lookup finds the one robot of a name or refuses.
    - Tasks (FleetTaskProps): the graph check and the blocked-member walk are exact and end; a pass
      creates a child only when its member is ready on what it read, a compensation only in reverse
      dependency order, and patches only the desired state of the task's own unsettled children;
      Compensated means undone.

    - Commands (DispatchProps): in every interleaving no assignment goes to a robot a stop holds, none
      goes on a stream before its fences, motion waits for the release, every Command carries the leader's
      term, a result resolves the Command it answers, the send locks cannot deadlock, and sendMotion
      ends.
    - Safety (SafetyTheorems): in every interleaving with any other writers, a robot reads Stopped only
      after its adapter confirmed that very stop on the stream it was bound to; Resuming is written only by
      a ClearEstop call whose own arguments end everything in force on the robot, Normal only over Resuming by
      a ConfirmResume call that read a fit phase and heard the robot in the open window; no write loses a stop in force, status.stops stays within its bound with one entry per
      ID; a clear ends the fences only when no later trigger was issued; a trigger sends before it waits
      for anything; the resume check is exact; and the memory of removed stops is bounded.
    - Executors (ExecutorGuard, FencingStore): the decision is exact and unblocks once the lease is dead;
      generations rise whatever the interleaving and the failed writes. The gate (ExecutorGate) clears a
      record only after it has seen proof, an action is dispatchable only when every other robot that
      records it is off it, and the record of a deleted action is kept for the longest lease.
    - Admission (AdmissionGuards): an admitted status write frees no robot, an admitted edit or move takes
      nobody out of a stop, an admitted robot delete loses no stop and no executor record, and held work is
      deleted only with estop-clear on every stop over it.
    - Actions (ActionTheorems, ActionReportProps, ActionWorld): every status the controller or the ingestor
      writes follows the transition table from the one it read; in any interleaving of passes, reports and
      user edits each stored change follows the union of the tables, a terminal phase is final, and Paused
      is left only as the table allows. An assignment is sent only after the gate, the engine and the
      generation store have agreed; a retained report is acknowledged once it is decided.
    - Dispatch candidates (DispatchFilterProps, ZoneRestrictionProps, ZoneProjection): a robot left for an
      action is under no stop, permitted by every zone that contains it and fit; each robot is judged on its
      own; what could not be read withholds and does not fail the action. The rules resolved for a chain, and
      their union, lose no constraint; over any run of passes, edits and restarts whose patches are accepted
      and seen, the published projection is the fold of the chain.
    - Stop controllers (EstopControlTheorems): a trigger is marked answered only when the dispatcher was asked
      for every robot in scope and the hold recorded, an in-force stop is put to all of them, a robot is cleared only when nothing else holds
      it, the finalizer leaves after the clear, a resume request is evaluated once whoever claims it, and
      the status a zone shows agrees with the admission guard.
    - Audit (AuditLog): what Record and Resume leave verifies; a log that verifies cannot be altered
      without a hash collision, except at its end.
    - Flow passes (FlowDriverProps): the evaluator sees what one read of each child answers; a pass
      writes only to children it controls; children follow the iteration counter; a cancelled child is
      never set running again; pruning keeps the newest; the records stay bounded; bindings are pinned.
    - Geometry (ZoneGeometry): the derived zone contains the robot, an exclusion wins over the zone around
      it, and the answer does not depend on the order of the zones, all over IEEE binary64.

    Theorems named after a surprising behaviour (double_request_survives_release,
    first_join_reports_lowest_branch, nested_loops_share_counter, pinned_robot_checks_differ,
    saga_waits_for_ungenerated_member, running_relay_member_counted_lost, member_read_as_compensation,
    invalid_append_leaves_children_running, signed_version_supported, mint_wraps_at_max,
    settled_iteration_counted_again, member_read_as_iteration, stop_after_check_is_not_seen,
    older_failed_over_newer_stopped, trigger_between_check_and_write, frame_before_clear_releases,
    lookup_failure_marks_trigger, stale_clear_drops_record, failed_patch_is_not_retried,
    recreated_parent_is_not_read, stale_status_is_kept, required_publishes_empty_list and others) evaluate the code on a concrete input.

    ** Fuel

    FleetTask's depth-first searches take one unit per member and one or two more (graphFuel, the
    argument of blockedForever): each call colours or marks a new name, and validateGraph_exact and
    dependencyPermanentlyFailed_exact show the fuel is never spent. EstopScope's walk to the root takes
    the code's own cap, MaxAncestors, and its subtree queue one unit per zone (subtreeFuel). The climb of
    ZoneProjection and the leaf walk of DispatchFilters take two units more than there are zones (chainFuel,
    leafWalk): each call marks a new zone; and the trim of white space takes one per byte (trimSpaces). Every other
    recursion is structural: the evaluator recurses on the tree. A uint64 is printed with twenty digits
    (Decimal.FormatUint), as many as it can have; Next tries maxFloorAttempts times, as the code does. The dispatcher's loops
    keep the code's own caps (maxReread, four reads of a Robot); its heartbeat is a list of ticks. The stop dispatcher's waits and its
    endless record retries (awaitConfirmation, awaitHeld, writeStopRecord) take a fuel that the theorems
    quantify over: a run that ends is a run under some fuel, and one that has not ended is a prefix.

    ** Not modelled

    Log lines, metrics, Kubernetes conditions, events and message texts; the gRPC streams, the CLI and
    the network clients; generated code. SHA-256, the JSON encoding and the API server are parameters.
    The stop dispatcher's metrics, audit records and Events are events of its model without effect.
    In a pass of the FleetAction controller the candidate filters are one event, whose answer is bound only by
    what filter_discharges proves of DispatchFilters; the gate on sensor streams is an event with any answer.
    Of the Zone Controller only the restrictions are modelled. The robot, rollout, maintenance and probe
    controllers, the position and containment paths of the Zone Controller, the
    validators and defaulters of the other webhooks, the control stream and its authorisation, the edge
    agent, telemetry, registrar, artifact signing and the CLI are listed in the manifest as not modelled:
    they are mostly calls to services and projections of status. *)

From Stdlib Require Export ZArith Lia.
From stdpp Require Export base tactics option list sorting strings gmap.

(** ** Scope and notations *)

Declare Scope go_scope.
Delimit Scope go_scope with go.

(** Go's [==] on strings (and on the API's string-typed enums). *)
Notation "a =s b" := (String.eqb a b) (at level 70, no associativity) : go_scope.
Notation "a <>s b" := (negb (String.eqb a b)) (at level 70, no associativity) : go_scope.
(** Go's [<] on strings: bytewise lexicographic. *)
Notation "a <s b" := (String.ltb a b) (at level 70, no associativity) : go_scope.

#[global] Open Scope go_scope.
#[global] Open Scope Z_scope.

(** ** Fallible results: Go's [(T, error)] pairs *)

Inductive result (E A : Type) : Type :=
| Ok (a : A)
| Err (e : E).
Arguments Ok {E A} a.
Arguments Err {E A} e.

Definition result_bind {E A B} (r : result E A) (k : A -> result E B) : result E B :=
  match r with Ok a => k a | Err e => Err e end.

Notation "'let?' x := r 'in' k" := (result_bind r (fun x => k))
  (at level 10, x pattern, r at level 100, k at level 200) : go_scope.

Definition is_ok {E A} (r : result E A) : bool :=
  match r with Ok _ => true | Err _ => false end.

(** ** Machine integers *)

Definition MaxInt32 : Z := 2 ^ 31 - 1.
Definition MaxUint32 : Z := 2 ^ 32 - 1.
Definition MaxInt64 : Z := 2 ^ 63 - 1.
Definition MinInt64 : Z := - 2 ^ 63.
Definition MaxUint64 : Z := 2 ^ 64 - 1.

(** Go's conversion to [int32]: keep the low 32 bits, read as two's complement. *)
Definition int32_of (z : Z) : Z := (z + 2 ^ 31) mod 2 ^ 32 - 2 ^ 31.

Lemma int32_of_id z : - 2 ^ 31 <= z <= MaxInt32 -> int32_of z = z.
Proof. unfold int32_of, MaxInt32. intros H. rewrite Z.mod_small; lia. Qed.

(** Go's int64 arithmetic wraps. *)
Definition int64_of (z : Z) : Z := (z + 2 ^ 63) mod 2 ^ 64 - 2 ^ 63.

Lemma int64_of_id z : MinInt64 <= z <= MaxInt64 -> int64_of z = z.
Proof. unfold int64_of, MinInt64, MaxInt64. intros H. rewrite Z.mod_small; lia. Qed.

(** ** Time: [time.Time] as nanoseconds since Go's zero time, [time.Duration] in nanoseconds *)

Definition Time : Type := Z.
Definition Duration : Type := Z.
Definition Second : Duration := 1000000000.
Definition Millisecond : Duration := 1000000.

(** [t.Truncate(time.Second)]; a metav1.Time reaches the API server in the same way, to the second. *)
Definition toSecond (t : Time) : Time := t - t mod Second.

(** [t.IsZero()]. *)
Definition time_IsZero (t : Time) : bool := (t =? 0)%Z.

(** [t.Sub(u)]: the difference, saturated to the range of a [Duration]. *)
Definition time_Sub (t u : Time) : Duration := Z.max MinInt64 (Z.min MaxInt64 (t - u)).

(** ** Strings *)

(** Go's [sort.Strings]. *)
Definition sort_Strings (l : list string) : list string := merge_sort String.le l.

Lemma sort_Strings_perm l : sort_Strings l ≡ₚ l.
Proof. apply merge_sort_Permutation. Qed.

Lemma sort_Strings_sorted l : StronglySorted String.le (sort_Strings l).
Proof. apply StronglySorted_merge_sort; apply _. Qed.

Lemma elem_of_sort_Strings x l : x ∈ sort_Strings l <-> x ∈ l.
Proof. by rewrite sort_Strings_perm. Qed.

Lemma sort_Strings_unique l k : l ≡ₚ k -> sort_Strings l = sort_Strings k.
Proof.
  intros Hp. apply (StronglySorted_unique String.le); try apply sort_Strings_sorted.
  by rewrite !sort_Strings_perm.
Qed.

Lemma eqb_s_true a b : (a =s b) = true <-> a = b.
Proof. apply String.eqb_eq. Qed.

Lemma eqb_s_false a b : (a =s b) = false <-> a <> b.
Proof. apply String.eqb_neq. Qed.

Lemma eqb_s_refl a : (a =s a) = true.
Proof. apply String.eqb_refl. Qed.

(** The order Go compares strings with is a strict total order. *)
Lemma string_compare_trans_lt a b c :
  String.compare a b = Lt -> String.compare b c = Lt -> String.compare a c = Lt.
Proof.
  revert b c. induction a as [|x a IH]; intros [|y b] [|z c]; simpl; try done.
  destruct (Ascii.compare x y) eqn:Exy; try done;
  destruct (Ascii.compare y z) eqn:Eyz; try done; intros H1 H2;
    unfold Ascii.compare in *;
    rewrite ?N.compare_eq_iff, ?N.compare_lt_iff in *.
  - replace (Ascii.N_of_ascii x) with (Ascii.N_of_ascii z) by congruence.
    rewrite N.compare_refl. eauto.
  - rewrite Exy. by apply N.compare_lt_iff in Eyz as ->.
  - rewrite <- Eyz. by apply N.compare_lt_iff in Exy as ->.
  - assert (Hlt : (Ascii.N_of_ascii x < Ascii.N_of_ascii z)%N) by lia.
    by apply N.compare_lt_iff in Hlt as ->.
Qed.

Lemma string_ltb_lt a b : (a <s b) = true <-> String.compare a b = Lt.
Proof. unfold String.ltb. destruct (String.compare a b); naive_solver. Qed.

Lemma string_ltb_trans a b c : (a <s b) = true -> (b <s c) = true -> (a <s c) = true.
Proof. rewrite !string_ltb_lt. apply string_compare_trans_lt. Qed.

Lemma string_ltb_irrefl a : (a <s a) = false.
Proof.
  destruct (a <s a) eqn:E; [|done].
  apply string_ltb_lt in E. pose proof (String.compare_antisym a a) as H.
  rewrite E in H. simpl in H. congruence.
Qed.

Lemma string_ltb_total a b : (a <s b) = false -> (b <s a) = false -> a = b.
Proof.
  unfold String.ltb. rewrite (String.compare_antisym b a).
  destruct (String.compare a b) eqn:E; simpl; try done.
  intros _ _. by apply String.compare_eq_iff.
Qed.

(** Appending the same prefix is injective: the shape of every derived key. *)
Lemma string_app_inj_l (p a b : string) : (p +:+ a) = (p +:+ b) -> a = b.
Proof. induction p as [|x p IH]; intros H; [exact H|]. apply IH. by injection H. Qed.

Lemma string_app_cons c (a b : string) : String c a +:+ b = String c (a +:+ b).
Proof. reflexivity. Qed.

Lemma string_app_assoc (a b c : string) : (a +:+ b) +:+ c = a +:+ (b +:+ c).
Proof. induction a as [|x a IH]; [done|]. by rewrite !string_app_cons, IH. Qed.

Lemma string_app_nil (a : string) : a +:+ "" = a.
Proof. induction a as [|x a IH]; [done|]. by rewrite string_app_cons, IH. Qed.

(** Go's [s[len(p):]] when [s] starts with [p]. *)
Fixpoint string_drop (n : nat) (s : string) : string :=
  match n, s with
  | O, _ => s
  | S n, String _ s => string_drop n s
  | S _, EmptyString => EmptyString
  end.

Lemma string_drop_app (p a : string) : string_drop (String.length p) (p +:+ a) = a.
Proof. induction p as [|x p IH]; [done|exact IH]. Qed.

(** ** Lists *)

(** [for _, x := range l { if p x { return f x } }]. *)
Fixpoint first_match {A B} (f : A -> option B) (l : list A) : option B :=
  match l with
  | [] => None
  | x :: l => match f x with Some y => Some y | None => first_match f l end
  end.

Lemma first_match_None {A B} (f : A -> option B) l : first_match f l = None <-> forall x, x ∈ l -> f x = None.
Proof.
  induction l as [|x l IH]; simpl.
  - split; [intros _ y Hy; by apply not_elem_of_nil in Hy|done].
  - destruct (f x) eqn:E.
    + split; [done|]. intros H. specialize (H x ltac:(by left)). congruence.
    + rewrite IH. split; [intros H y [-> |Hy]%elem_of_cons; eauto|intros H y Hy; apply H; by right].
Qed.

(** The index of the first element satisfying [p], as the early-exit loops compute it. *)
Fixpoint find_index {A} (p : A -> bool) (l : list A) : option nat :=
  match l with
  | [] => None
  | x :: l => if p x then Some O else S <$> find_index p l
  end.

Lemma existsb_elem {A} (p : A -> bool) l : existsb p l = true <-> exists x, x ∈ l /\ p x = true.
Proof. rewrite existsb_exists. setoid_rewrite list_elem_of_In. done. Qed.

Lemma existsb_false {A} (p : A -> bool) l : existsb p l = false <-> forall x, x ∈ l -> p x = false.
Proof.
  split.
  - intros H x Hx. destruct (p x) eqn:E; [|done].
    assert (existsb p l = true) by (apply existsb_elem; eauto). congruence.
  - intros H. destruct (existsb p l) eqn:E; [|done].
    apply existsb_elem in E as (x & Hx & Hp). rewrite H in Hp; done.
Qed.

Lemma find_index_Some {A} (p : A -> bool) l i :
  find_index p l = Some i ->
  exists x, l !! i = Some x /\ p x = true /\ forall j y, (j < i)%nat -> l !! j = Some y -> p y = false.
Proof.
  revert i. induction l as [|x l IH]; intros i; simpl; [done|].
  destruct (p x) eqn:Ex; intros H.
  - simplify_eq. exists x. split_and!; [done|done|]. intros j y Hj. lia.
  - apply fmap_Some in H as (k & Hk & ->). destruct (IH k Hk) as (y & Hy & Hp & Hmin).
    exists y. split_and!; [done|done|]. intros [|j] z Hj Hz; simplify_eq/=; [done|].
    eapply Hmin; [|done]. lia.
Qed.

Lemma find_index_None {A} (p : A -> bool) l :
  find_index p l = None <-> forall x, x ∈ l -> p x = false.
Proof.
  induction l as [|x l IH]; simpl.
  - split; [intros _ y Hy; by apply not_elem_of_nil in Hy|done].
  - destruct (p x) eqn:Ex.
    + split; [done|]. intros H. rewrite H in Ex; [done|]. by left.
    + rewrite fmap_None, IH. split.
      * intros H y [->|Hy]%elem_of_cons; eauto.
      * intros H y Hy. apply H. by right.
Qed.

Lemma sorted_lookup_lt {A} (R : relation A) l i j a b :
  StronglySorted R l -> l !! i = Some a -> l !! j = Some b -> (i < j)%nat -> R a b.
Proof.
  intros Hs Ha Hb Hij. rewrite <- (take_drop (S i) l) in Hs.
  eapply (StronglySorted_app_1_elem_of R _ _ a b Hs).
  - apply list_elem_of_lookup. exists i. apply lookup_take_Some. split; [done|lia].
  - apply list_elem_of_lookup. exists (j - S i)%nat. rewrite lookup_drop. by replace (S i + (j - S i))%nat with j by lia.
Qed.

Lemma size_list_to_set_le (l : list string) : (size (list_to_set l : gset string) <= length l)%nat.
Proof.
  induction l as [|x l IH]; [done|]. rewrite list_to_set_cons, size_union_alt, size_singleton. simpl.
  assert (size ((list_to_set l : gset string) ∖ {[x]}) <= size (list_to_set l : gset string))%nat; [|lia].
  apply subseteq_size. set_solver.
Qed.

(** ** Automation *)

Create HintDb swarm.
#[export] Hint Resolve eqb_s_refl string_ltb_irrefl : swarm.

(** Turn boolean string tests in the context into (in)equalities. *)
Ltac str_bool :=
  repeat match goal with
  | H : (_ =s _) = true |- _ => apply eqb_s_true in H
  | H : (_ =s _) = false |- _ => apply eqb_s_false in H
  | H : negb _ = true |- _ => apply negb_true_iff in H
  | H : negb _ = false |- _ => apply negb_false_iff in H
  | H : _ && _ = true |- _ => apply andb_true_iff in H as [? ?]
  | H : _ || _ = false |- _ => apply orb_false_iff in H as [? ?]
  end.

(** Case on the innermost [if] or [match] scrutinee of the goal, keeping its equation. *)
Ltac case_if_eqn :=
  match goal with
  | |- context [if ?b then _ else _] => let E := fresh "E" in destruct b eqn:E
  end.

Ltac z_bool :=
  repeat match goal with
  | H : (_ <? _) = true |- _ => apply Z.ltb_lt in H
  | H : (_ <? _) = false |- _ => apply Z.ltb_ge in H
  | H : (_ <=? _) = true |- _ => apply Z.leb_le in H
  | H : (_ <=? _) = false |- _ => apply Z.leb_gt in H
  | H : (_ =? _) = true |- _ => apply Z.eqb_eq in H
  | H : (_ =? _) = false |- _ => apply Z.eqb_neq in H
  end.
