(* ===== verification/Types.v ===== *)
(** The API objects (src/api/v1) the modelled components read and write.

    Each record carries the fields the modelled code touches, under the Go field's name with the
    type's initials in front. A pointer is an [option], a slice a [list], a map a [gmap], a
    string-typed enum a [string] (so a value outside the enum is representable, as it is in Go), an
    [int32] a [Z], a [float64] an IEEE [spec_float]. *)

From Stdlib Require Export SpecFloat.
From S2P Require Import Prelude.

(** ** float64 *)

Definition float64 : Type := spec_float.

(** ** FleetAction (fleetaction_types.go) *)

Definition ActionPhase : Type := string.
Definition ActionPhasePending : ActionPhase := "Pending".
Definition ActionPhaseAssigned : ActionPhase := "Assigned".
Definition ActionPhaseInProgress : ActionPhase := "InProgress".
Definition ActionPhaseSucceeded : ActionPhase := "Succeeded".
Definition ActionPhaseFailed : ActionPhase := "Failed".
Definition ActionPhaseCancelled : ActionPhase := "Cancelled".
Definition ActionPhasePaused : ActionPhase := "Paused".
Definition ActionPhaseRevoking : ActionPhase := "Revoking".
Definition ActionPhasePreempted : ActionPhase := "Preempted".

Definition ActionPriority : Type := string.
Definition ActionPriorityCritical : ActionPriority := "Critical".
Definition ActionPriorityHigh : ActionPriority := "High".
Definition ActionPriorityNormal : ActionPriority := "Normal".
Definition ActionPriorityLow : ActionPriority := "Low".

Definition CanPreempt (p : ActionPriority) : bool :=
  (p =s ActionPriorityCritical) || (p =s ActionPriorityHigh).

Definition DesiredState : Type := string.
Definition DesiredStateRunning : DesiredState := "Running".
Definition DesiredStateCancelled : DesiredState := "Cancelled".

Record FleetActionSpec := mkFleetActionSpec {
  fas_Type : string;
  fas_Executor : option string;                  (* *ExecutorRef; only its presence is read *)
  fas_RobotSelector : string;
  fas_RequiredCapabilities : list string;
  fas_Constraints : gmap string float64;
  fas_AcceptDegradedCapabilities : option bool;
  fas_PreferredManufacturer : string;
  fas_PreferredRobot : string;
  fas_DesiredState : DesiredState
}.

(** ** Robot (robot_types.go) *)

Definition RobotPhase : Type := string.
Definition RobotPhaseIdle : RobotPhase := "Idle".
Definition RobotPhaseError : RobotPhase := "Error".
Definition RobotPhaseOffline : RobotPhase := "Offline".

Definition CapabilityStatus : Type := string.
Definition CapabilityStatusActive : CapabilityStatus := "Active".
Definition CapabilityStatusDegraded : CapabilityStatus := "Degraded".

Record CapabilityStatusEntry := mkCapability {
  cse_Name : string;
  cse_Status : CapabilityStatus;
  cse_ResolvedParameters : gmap string float64;
  cse_DegradedSchedulable : bool;
  cse_Paused : bool
}.

(** The fields of a hardware entry that no modelled code reads by name are one opaque text. *)
Record HardwareComponentStatus := mkHardware { hw_Name : string; hw_Status : string; hw_Rest : string }.

Definition HardwareFailed : string := "Failed".

Record SensorStreamEntry := mkSensorStream {
  sse_StreamID : string;
  sse_RequiredCapabilities : list string
}.

Definition EstopHoldKind : Type := string.
Definition EstopHoldFleetZone : EstopHoldKind := "FleetZone".
Definition EstopHoldSwarmadaConfig : EstopHoldKind := "SwarmadaConfig".

Record EstopHold := mkEstopHold {
  eh_Kind : EstopHoldKind;
  eh_Name : string;
  eh_UID : string;
  eh_Since : Time
}.

Definition RobotEstopState : Type := string.
Definition RobotEstopNormal : RobotEstopState := "Normal".
Definition RobotEstopStopping : RobotEstopState := "Stopping".
Definition RobotEstopStopped : RobotEstopState := "Stopped".
Definition RobotEstopResuming : RobotEstopState := "Resuming".
Definition RobotEstopFailed : RobotEstopState := "Failed".

Definition StopScope : Type := string.
Definition StopScopeRobot : StopScope := "Robot".
Definition StopScopeZone : StopScope := "Zone".
Definition StopScopeNamespace : StopScope := "Namespace".
Definition StopScopeReported : StopScope := "Reported".
Definition StopScopeEndState : StopScope := "EndState".

Definition StopCarrierKind : Type := string.
Definition StopCarrierRobot : StopCarrierKind := "Robot".

Record StopCarrier := mkStopCarrier { car_Kind : StopCarrierKind; car_Name : string; car_UID : string }.

(** A stop recorded on the robot (status.stops). *)
Record RobotStop := mkRobotStop {
  rs_ID : string;
  rs_Scope : StopScope;
  rs_Carrier : option StopCarrier;
  rs_SentAt : Time;
  rs_AcknowledgedAt : option Time;
  rs_ClearedAt : option Time
}.

Definition RobotIDAnnotation : string := "swarmada.io/robot-id".

Record Robot := mkRobot {
  r_Name : string;
  r_Namespace : string;
  r_UID : string;
  r_Annotations : gmap string string;
  r_DeletionTimestamp : option Time;
  r_Zone : string;                               (* spec.zone *)
  r_Manufacturer : string;                       (* spec.manufacturer *)
  r_Phase : RobotPhase;                          (* status.phase, and so on below *)
  r_CurrentZone : string;
  r_BatteryPercent : option Z;
  r_Capabilities : list CapabilityStatusEntry;
  r_SensorStreams : list SensorStreamEntry;
  r_EstopHeldBy : list EstopHold;
  r_Adapter : string;                            (* spec.adapter.name *)
  r_EstopState : RobotEstopState;
  r_Stops : list RobotStop
}.

(** ** FleetZone (fleetzone_types.go) *)

Definition ReservationState : Type := string.
Definition ReservationReserved : ReservationState := "Reserved".
Definition ReservationOccupied : ReservationState := "Occupied".

Record ZoneReservation := mkZoneReservation {
  zr_RobotID : string;
  zr_ActionID : string;
  zr_Priority : ActionPriority;
  zr_State : ReservationState;
  zr_GrantedAt : Time;
  zr_ExpiresAt : option Time;
  zr_EnteredAt : option Time
}.

Record ResourceHolder := mkResourceHolder {
  rh_RobotID : string;
  rh_ActionID : string;
  rh_Priority : ActionPriority;
  rh_HeldSince : Time
}.

Record WaitQueueEntry := mkWaitQueueEntry {
  wq_RobotID : string;
  wq_ActionID : string;
  wq_Priority : ActionPriority;
  wq_RequestedAt : Time;
  wq_EstimatedDurationSeconds : option Z
}.

Record SharedResourceQueue := mkSharedResourceQueue {
  srq_ResourceName : string;
  srq_CurrentHolders : list ResourceHolder;
  srq_WaitQueue : list WaitQueueEntry
}.

Definition ReservationPolicy : Type := string.
Definition ReservationFIFO : ReservationPolicy := "FIFO".
Definition ReservationPriority : ReservationPolicy := "Priority".
Definition ReservationPriorityWithDuration : ReservationPolicy := "PriorityWithDuration".
Definition ReservationManual : ReservationPolicy := "Manual".

Record SharedResource := mkSharedResource {
  sr_Name : string;
  sr_Capacity : Z;
  sr_ReservationPolicy : ReservationPolicy
}.


Record ZoneEstopPolicy := mkZoneEstopPolicy { zep_PropagateToChildren : option bool; zep_PropagateToParent : bool }.

Definition PropagatesToChildren (p : ZoneEstopPolicy) : bool :=
  match zep_PropagateToChildren p with None => true | Some b => b end.

Record FleetZoneSpec := mkFleetZoneSpec {
  fzs_MaxConcurrentRobots : Z;
  fzs_SharedResources : list SharedResource;
  fzs_ParentZone : string;
  fzs_EstopPolicy : option ZoneEstopPolicy
}.

Record FleetZoneStatus := mkFleetZoneStatus {
  fzt_Reservations : list ZoneReservation;
  fzt_SharedResourceQueues : list SharedResourceQueue;
  fzt_CurrentConcurrentRobots : Z
}.

Record FleetZone := mkFleetZone {
  fz_Name : string;
  fz_Namespace : string;
  fz_UID : string;
  fz_Annotations : gmap string string;
  fz_Spec : FleetZoneSpec;
  fz_Status : FleetZoneStatus
}.

(** ** SwarmadaConfig: what the stop scope reads of it *)

Record SwarmadaConfig := mkSwarmadaConfig {
  sc_Name : string;
  sc_UID : string;
  sc_Annotations : gmap string string
}.

(** ** The identity a stream's peer proved (src/internal/controlstream) *)

Record TLSIdentity := mkIdentity { ti_Verified : bool; ti_Namespace : string; ti_AdapterName : string }.

(** ** Decidable equality *)

#[export] Instance HardwareComponentStatus_eq_dec : EqDecision HardwareComponentStatus.
Proof. solve_decision. Defined.
#[export] Instance EstopHold_eq_dec : EqDecision EstopHold.
Proof. solve_decision. Defined.
#[export] Instance StopCarrier_eq_dec : EqDecision StopCarrier.
Proof. solve_decision. Defined.
#[export] Instance RobotStop_eq_dec : EqDecision RobotStop.
Proof. solve_decision. Defined.

#[export] Instance ResourceHolder_eq_dec : EqDecision ResourceHolder.
Proof. solve_decision. Defined.
#[export] Instance WaitQueueEntry_eq_dec : EqDecision WaitQueueEntry.
Proof. solve_decision. Defined.
#[export] Instance ZoneReservation_eq_dec : EqDecision ZoneReservation.
Proof. solve_decision. Defined.
#[export] Instance SharedResourceQueue_eq_dec : EqDecision SharedResourceQueue.
Proof. solve_decision. Defined.
