(* ===== verification/ParseFloat.v ===== *)
(** Go's [strconv.ParseFloat(s, 64)], as the flow evaluator's range cases use it: the decimal and
    hexadecimal literals of the Go syntax (underscores between digits, or after the base prefix),
    the signed words inf and infinity and the word nan in any letter case; a syntax error or an
    overflow is an error. The value is the exactly represented literal rounded once, to nearest
    even, to a binary64. *)

From S2P Require Import Prelude.
From S2P Require Import Types.

(** ** Characters *)

Definition byteZ (c : Ascii.ascii) : Z := Z.of_nat (Ascii.nat_of_ascii c).
(** Go's [lower]: set bit 0x20. *)
Definition lower (c : Ascii.ascii) : Z := Z.lor (byteZ c) 32.
Definition isDecDigit (c : Ascii.ascii) : bool := (48 <=? byteZ c) && (byteZ c <=? 57).
Definition hexLetter (c : Ascii.ascii) : bool := (97 <=? lower c) && (lower c <=? 102).
Definition isChar (z : Z) (c : Ascii.ascii) : bool := byteZ c =? z.

(** The ASCII lower-casing commonPrefixLenIgnoreCase compares with. *)
Definition toLower (c : Ascii.ascii) : Ascii.ascii :=
  if (65 <=? byteZ c) && (byteZ c <=? 90) then Ascii.ascii_of_nat (Z.to_nat (byteZ c + 32)) else c.

(** ** Rounding *)

Definition prec64 : Z := 53.
Definition emax64 : Z := 1024.
Definition normalize (m e : Z) : float64 := binary_normalize prec64 emax64 m e false.

(** [m / d * 2^e] to 64 bits, with a sticky bit for what the division leaves. *)
Definition divRound (m d e : Z) : float64 :=
  let s := Z.max 0 (66 + Z.log2 d - Z.log2 m) in
  let n := Z.shiftl m s in
  normalize (2 * (n / d) + (if n mod d =? 0 then 0 else 1)) (e - s - 1).

(** The mantissa digits read as [m], scaled by [base10^e]. *)
Definition decValue (m e : Z) : float64 :=
  if m =? 0 then S754_zero false
  else if 0 <=? e then normalize (m * 10 ^ e) 0 else divRound m (10 ^ (- e)) 0.

Definition withSign (neg : bool) (f : float64) : float64 := if neg then SFopp f else f.

(** ** Reading the literal *)

Record mantissa := mkMantissa {
  mt_value : Z;                                  (* the digits, without the point *)
  mt_frac : Z;                                   (* how many of them follow the point *)
  mt_digits : bool;                              (* saw a digit *)
  mt_dot : bool;                                 (* saw the point *)
  mt_rest : string
}.

(** The mantissa loop of readFloat: digits, underscores and one point. *)
Fixpoint readMantissa (base : Z) (m : mantissa) (s : string) : mantissa :=
  let stop := mkMantissa (mt_value m) (mt_frac m) (mt_digits m) (mt_dot m) s in
  match s with
  | EmptyString => stop
  | String c s' =>
      let digit d := mkMantissa (mt_value m * base + d) (if mt_dot m then mt_frac m + 1 else mt_frac m) true (mt_dot m) s' in
      if isChar 95 c then readMantissa base m s'
      else if isChar 46 c then
        if mt_dot m then stop
        else readMantissa base (mkMantissa (mt_value m) (mt_frac m) (mt_digits m) true s') s'
      else if isDecDigit c then readMantissa base (digit (byteZ c - 48)) s'
      else if (base =? 16) && hexLetter c then readMantissa base (digit (lower c - 97 + 10)) s'
      else stop
  end.

(** The exponent digits; past 10000 further digits are read but not counted. *)
Fixpoint readExponent (e : Z) (s : string) : Z * string :=
  match s with
  | EmptyString => (e, s)
  | String c s' =>
      if isChar 95 c then readExponent e s'
      else if isDecDigit c then readExponent (if e <? 10000 then e * 10 + (byteZ c - 48) else e) s'
      else (e, s)
  end.

(** underscoreOK over the text: an underscore only between digits, or after a base prefix. *)
Inductive underState := USStart | USDigit | USUnder | USOther.

Fixpoint underscoreLoop (hex : bool) (i : underState) (s : string) : bool :=
  match s with
  | EmptyString => match i with USUnder => false | _ => true end
  | String c s' =>
      if isDecDigit c || (hex && hexLetter c) then underscoreLoop hex USDigit s'
      else if isChar 95 c then match i with USDigit => underscoreLoop hex USUnder s' | _ => false end
      else match i with USUnder => false | _ => underscoreLoop hex USOther s' end
  end.

Definition dropSign (s : string) : bool * string :=
  match s with
  | String c s' => if isChar 43 c then (false, s') else if isChar 45 c then (true, s') else (false, s)
  | EmptyString => (false, s)
  end.

Definition hexPrefix (s : string) : option string :=
  match s with
  | String c0 (String c1 s') => if isChar 48 c0 && (lower c1 =? 120) then Some s' else None
  | _ => None
  end.

Definition underscoreOK (s : string) : bool :=
  let '(_, s) := dropSign s in
  match s with
  | String c0 (String c1 s') =>
      if isChar 48 c0 && ((lower c1 =? 98) || (lower c1 =? 111) || (lower c1 =? 120))
      then underscoreLoop (lower c1 =? 120) USDigit s'
      else underscoreLoop false USStart s
  | _ => underscoreLoop false USStart s
  end.

Fixpoint hasUnderscore (s : string) : bool :=
  match s with EmptyString => false | String c s' => isChar 95 c || hasUnderscore s' end.

Fixpoint lowerString (s : string) : string :=
  match s with EmptyString => EmptyString | String c s' => String (toLower c) (lowerString s') end.

(** The special words. *)
Definition special (s : string) : option float64 :=
  let '(neg, t) := dropSign s in
  let t := lowerString t in
  if (t =s "inf") || (t =s "infinity") then Some (S754_infinity neg)
  else if lowerString s =s "nan" then Some S754_nan
  else None.

(** The exponent part, after its letter: a sign and at least one digit (or underscore). *)
Definition exponentPart (s : string) : option (Z * string) :=
  let '(neg, t) := dropSign s in
  match t with
  | String c _ =>
      if isDecDigit c then let '(e, rest) := readExponent 0 t in Some (if neg then - e else e, rest) else None
  | EmptyString => None
  end.

Definition readLiteral (s : string) : option float64 :=
  let '(neg, t) := dropSign s in
  let '(base, t) := match hexPrefix t with
                    | Some ((String _ _) as t') => (16, t')
                    | _ => (10, t)
                    end in
  let m := readMantissa base (mkMantissa 0 0 false false t) t in
  let expChar := if base =? 16 then 112 else 101 in
  let tail := match mt_rest m with
              | String c rest => if lower c =? expChar then exponentPart rest
                                 else Some (0, mt_rest m)
              | EmptyString => if base =? 16 then None else Some (0, EmptyString)
              end in
  if negb (mt_digits m) then None
  else match tail with
       | Some (e, EmptyString) =>
           if hasUnderscore s && negb (underscoreOK s) then None
           else Some (withSign neg (if base =? 16 then normalize (mt_value m) (e - 4 * mt_frac m)
                                    else decValue (mt_value m) (e - mt_frac m)))
       | _ => None
       end.

(** [strconv.ParseFloat(s, 64)]: [None] is a non-nil error (syntax or range). *)
Definition ParseFloat (s : string) : option float64 :=
  match special s with
  | Some f => Some f
  | None => match readLiteral s with
            | Some (S754_infinity _) => None
            | r => r
            end
  end.

(** ** Checks against literals *)

Example parse_half : ParseFloat "0.5" = Some (S754_finite false 4503599627370496 (-53)).
Proof. reflexivity. Qed.
Example parse_tenth : ParseFloat "0.1" = Some (S754_finite false 7205759403792794 (-56)).
Proof. reflexivity. Qed.
Example parse_sci : ParseFloat "-1_5e-1" = ParseFloat "-1.5".
Proof. vm_compute. reflexivity. Qed.
Example parse_hex : ParseFloat "0x1p-2" = ParseFloat ".25".
Proof. vm_compute. reflexivity. Qed.
Example parse_bad : (ParseFloat "", ParseFloat "1e", ParseFloat "1..2", ParseFloat "_1", ParseFloat "1e999", ParseFloat "0x1")
  = (None, None, None, None, None, None).
Proof. vm_compute. reflexivity. Qed.
Example parse_words : (ParseFloat "Inf", ParseFloat "-infinity", ParseFloat "NaN", ParseFloat "-nan")
  = (Some (S754_infinity false), Some (S754_infinity true), Some S754_nan, None).
Proof. vm_compute. reflexivity. Qed.
