(* ===== verification/Decimal.v ===== *)
(** Go's decimal conversions, as the leader-term floor and the contract version use them:
    strconv.FormatUint, strconv.ParseUint (base 10, 64 bits), strconv.Atoi and strings.Split, with
    their round trips. *)

From S2P Require Import Prelude.

Definition digitChar (d : Z) : Ascii.ascii := Ascii.ascii_of_N (Z.to_N (48 + d)).
Definition charCode (c : Ascii.ascii) : Z := Z.of_N (Ascii.N_of_ascii c).
Definition isDigit (c : Ascii.ascii) : bool := (48 <=? charCode c) && (charCode c <=? 57).

(** The digits of [n] in front of [acc]; [fuel] is the most digits written. *)
Fixpoint formatDigits (fuel : nat) (n : Z) (acc : string) : string :=
  match fuel with
  | O => acc
  | S fuel =>
      let acc := String (digitChar (n mod 10)) acc in
      if n <? 10 then acc else formatDigits fuel (n / 10) acc
  end.

(** A uint64 has at most twenty digits. *)
Definition FormatUint (n : Z) : string := formatDigits 20 n "".

(** [a], then the digits of [s]; no answer when a character is not a digit. *)
Fixpoint parseDigits (a : Z) (s : string) : option Z :=
  match s with
  | EmptyString => Some a
  | String c s => if isDigit c then parseDigits (a * 10 + (charCode c - 48)) s else None
  end.

Definition ParseUint (s : string) : option Z :=
  if s =s "" then None
  else match parseDigits 0 s with Some n => if n <=? MaxUint64 then Some n else None | None => None end.

(** One optional sign, then at least one digit, within int64. *)
Definition Atoi (s : string) : option Z :=
  match s with
  | EmptyString => None
  | String c r =>
      let neg := charCode c =? 45 in
      let body := if (charCode c =? 43) || neg then r else s in
      if body =s "" then None
      else match parseDigits 0 body with
           | None => None
           | Some n => let v := if neg then - n else n in
                       if (MinInt64 <=? v) && (v <=? MaxInt64) then Some v else None
           end
  end.

(** strings.Split(s, "."). *)
Fixpoint splitDot (s : string) : list string :=
  match s with
  | EmptyString => [""]
  | String c s =>
      if charCode c =? 46 then "" :: splitDot s
      else match splitDot s with p :: ps => String c p :: ps | [] => [String c ""] end
  end.

(** strings.SplitN(s, ".", n): at most [n] parts, the last one unsplit. *)
Fixpoint splitDotN (n : nat) (s : string) : list string :=
  match n with
  | O => []
  | S O => [s]
  | S n => (fix go (t : string) : list string :=
      match t with
      | EmptyString => [""]
      | String c t => if charCode c =? 46 then "" :: splitDotN n t
                      else match go t with p :: ps => String c p :: ps | [] => [String c ""] end
      end) s
  end.

(** ** Round trips *)

Lemma digitChar_code d : 0 <= d < 10 -> charCode (digitChar d) = 48 + d.
Proof. intros H. unfold charCode, digitChar. rewrite Ascii.N_ascii_embedding by lia. lia. Qed.

Lemma digitChar_isDigit d : 0 <= d < 10 -> isDigit (digitChar d) = true.
Proof. intros H. unfold isDigit. rewrite digitChar_code by done. lia. Qed.

Lemma parseDigits_digit a d s : 0 <= d < 10 -> parseDigits a (String (digitChar d) s) = parseDigits (a * 10 + d) s.
Proof. intros H. simpl. rewrite digitChar_isDigit, digitChar_code by done. f_equal. lia. Qed.

Lemma parse_formatDigits fuel n acc :
  0 <= n < 10 ^ Z.of_nat fuel -> (0 < fuel)%nat -> parseDigits 0 (formatDigits fuel n acc) = parseDigits n acc.
Proof.
  revert n acc. induction fuel as [|fuel IH]; intros n acc Hn Hf; [lia|]. cbn [formatDigits].
  assert (Hm : 0 <= n mod 10 < 10) by (apply Z.mod_pos_bound; lia).
  destruct (Z.ltb_spec n 10) as [Hlt|Hge].
  - rewrite parseDigits_digit by done. f_equal. rewrite Z.mod_small; lia.
  - rewrite Nat2Z.inj_succ, Z.pow_succ_r in Hn by lia.
    assert (Hfuel : (0 < fuel)%nat) by (destruct fuel; [simpl in Hn; lia|lia]).
    rewrite IH; [|split; [apply Z.div_pos; lia|apply Z.div_lt_upper_bound; lia]|done].
    rewrite parseDigits_digit by done. f_equal. pose proof (Z.div_mod n 10). lia.
Qed.

Lemma formatDigits_nonempty fuel n acc : (0 < fuel)%nat -> formatDigits fuel n acc <> "".
Proof.
  revert n acc. induction fuel as [|fuel IH]; intros n acc H; [lia|]. cbn [formatDigits].
  destruct (n <? 10); [done|]. destruct fuel; [done|]. apply IH. lia.
Qed.

Lemma uint64_twenty_digits n : 0 <= n <= MaxUint64 -> 0 <= n < 10 ^ Z.of_nat 20.
Proof. unfold MaxUint64. intros H. split; [lia|]. eapply Z.le_lt_trans; [apply H|]. vm_compute. reflexivity. Qed.

Lemma parse_FormatUint n : 0 <= n <= MaxUint64 -> parseDigits 0 (FormatUint n) = Some n.
Proof. intros H. unfold FormatUint. rewrite parse_formatDigits; [done|by apply uint64_twenty_digits|lia]. Qed.

Lemma ParseUint_FormatUint n : 0 <= n <= MaxUint64 -> ParseUint (FormatUint n) = Some n.
Proof.
  intros H. unfold ParseUint. rewrite (proj2 (eqb_s_false _ _)) by (apply formatDigits_nonempty; lia).
  rewrite parse_FormatUint by done. by rewrite (proj2 (Z.leb_le _ _)) by lia.
Qed.

Lemma parseDigits_nonneg a s n : 0 <= a -> parseDigits a s = Some n -> 0 <= n.
Proof.
  revert a. induction s as [|c s IH]; intros a Ha; simpl; [by intros [= <-]|].
  unfold isDigit. destruct (_ && _) eqn:E; [|done]. apply andb_true_iff in E as [E1 E2]. z_bool. apply IH. lia.
Qed.

Lemma ParseUint_range s n : ParseUint s = Some n -> 0 <= n <= MaxUint64.
Proof.
  unfold ParseUint. destruct (s =s ""); [done|]. destruct (parseDigits 0 s) as [m|] eqn:E; [|done].
  destruct (m <=? MaxUint64) eqn:El; [|done]. intros [= <-]. z_bool. split; [|done]. by eapply parseDigits_nonneg in E.
Qed.

(** Digits hold no sign and no dot. *)
Fixpoint allDigits (s : string) : bool := match s with EmptyString => true | String c s => isDigit c && allDigits s end.

Lemma formatDigits_digits fuel n acc : 0 <= n -> allDigits acc = true -> allDigits (formatDigits fuel n acc) = true.
Proof.
  revert n acc. induction fuel as [|fuel IH]; intros n acc Hn Ha; [done|]. cbn [formatDigits].
  assert (Hd : allDigits (String (digitChar (n mod 10)) acc) = true).
  { simpl. rewrite digitChar_isDigit by (apply Z.mod_pos_bound; lia). done. }
  destruct (n <? 10); [done|]. apply IH; [|done]. apply Z.div_pos; lia.
Qed.

Lemma FormatUint_digits n : 0 <= n -> allDigits (FormatUint n) = true.
Proof. intros H. by apply formatDigits_digits. Qed.

Lemma Atoi_digits s n : allDigits s = true -> s <> "" -> parseDigits 0 s = Some n -> n <= MaxInt64 -> Atoi s = Some n.
Proof.
  intros Ha Hs Hp Hn. destruct s as [|c r]; [done|]. unfold Atoi.
  assert (Hc : (charCode c =? 45) = false /\ (charCode c =? 43) = false).
  { simpl in Ha. unfold isDigit in Ha. apply andb_true_iff in Ha as [[H1 H2]%andb_true_iff _]. z_bool. lia. }
  destruct Hc as [-> ->]. cbv [orb]. cbn [String.eqb]. rewrite Hp.
  pose proof (parseDigits_nonneg 0 _ _ ltac:(lia) Hp). unfold MinInt64.
  rewrite (proj2 (Z.leb_le _ _)), (proj2 (Z.leb_le _ _)) by lia. done.
Qed.

Lemma Atoi_FormatUint n : 0 <= n <= MaxInt64 -> Atoi (FormatUint n) = Some n.
Proof.
  intros H. assert (MaxInt64 <= MaxUint64) by (vm_compute; discriminate).
  apply Atoi_digits; [apply FormatUint_digits; lia|apply formatDigits_nonempty; lia|apply parse_FormatUint; lia|lia].
Qed.

Lemma splitDot_digits s : allDigits s = true -> splitDot s = [s].
Proof.
  induction s as [|c s IH]; simpl; [done|]. intros [Hc Hs]%andb_true_iff. rewrite (IH Hs).
  unfold isDigit in Hc. apply andb_true_iff in Hc as [H1 H2]. z_bool. by rewrite (proj2 (Z.eqb_neq _ _)) by lia.
Qed.

Lemma splitDot_join s t : allDigits s = true -> splitDot (s +:+ "." +:+ t) = s :: splitDot t.
Proof.
  induction s as [|c s IH]; [done|]. simpl. intros [Hc Hs]%andb_true_iff.
  unfold isDigit in Hc. apply andb_true_iff in Hc as [H1 H2]. z_bool. rewrite (proj2 (Z.eqb_neq _ _)) by lia.
  simpl in IH. by rewrite (IH Hs).
Qed.

Example atoi_signs : (Atoi "+7", Atoi "-7", Atoi "07", Atoi "7a", Atoi "", Atoi "9223372036854775808") =
  (Some 7, Some (-7), Some 7, None, None, None).
Proof. reflexivity. Qed.
Example split_three : splitDotN 3 "1.4.0-rc.1" = ["1"; "4"; "0-rc.1"] /\ splitDot "1..2" = ["1"; ""; "2"].
Proof. split; reflexivity. Qed.
