(* ===== verification/Contract.v ===== *)
(** The adapter contract version (src/internal/contract/version.go): what this build accepts from an
    adapter's handshake, and the version a connection agrees on. Reasons are values, not texts. *)

From S2P Require Import Prelude.
From S2P Require Import Decimal.

Definition Version : string := "1.4.0".

(** No answer: the panic of a malformed constant. *)
Definition mustParse (v : string) : option (Z * Z) :=
  match splitDotN 3 v with
  | major :: minor :: _ :: _ => match Atoi major, Atoi minor with Some a, Some b => Some (a, b) | _, _ => None end
  | _ => None
  end.

Definition ourVersion : Z * Z := default (0, 0) (mustParse Version).

(** [fmt.Sprintf("%d", n)]. *)
Definition showInt (n : Z) : string := if n <? 0 then "-" +:+ FormatUint (- n) else FormatUint n.

Definition SupportedRange : string :=
  let '(major, minor) := ourVersion in
  let low := if minor - 1 <? 0 then 0 else minor - 1 in
  ">=" +:+ showInt major +:+ "." +:+ showInt low +:+ ".0 <" +:+ showInt major +:+ "." +:+ showInt (minor + 1) +:+ ".0".

Definition component (p : string) : option Z :=
  match Atoi p with Some n => if n <? 0 then None else Some n | None => None end.

Definition parseFull (v : string) : option (Z * Z * Z) :=
  match splitDot v with
  | [a; b; c] => match component a, component b, component c with
                 | Some a, Some b, Some c => Some (a, b, c)
                 | _, _, _ => None
                 end
  | _ => None
  end.

Definition parseStrict (v : string) : option (Z * Z) := fst <$> parseFull v.

Inductive refusal := NoVersion | NotPlain | OtherMajor (major : Z) | OutOfRange.

(** [None]: supported. *)
Definition Supports (reported : string) : option refusal :=
  if reported =s "" then Some NoVersion
  else match parseStrict reported with
       | None => Some NotPlain
       | Some (major, minor) =>
           let '(ourMajor, ourMinor) := ourVersion in
           if negb (major =? ourMajor) then Some (OtherMajor major)
           else
             let low := if ourMinor - 1 <? 0 then 0 else ourMinor - 1 in
             if (minor <? low) || (ourMinor <? minor) then Some OutOfRange else None
       end.

Definition plain (a b c : Z) : string := showInt a +:+ "." +:+ showInt b +:+ "." +:+ showInt c.

Definition Negotiate (reported : string) : option string :=
  match Supports reported with
  | Some _ => None
  | None =>
      match parseFull reported with
      | None => None
      | Some (a, b, c) =>
          let '(ourMajor, ourMinor) := ourVersion in
          if (a =? ourMajor) && (b =? ourMinor) then Some Version else Some (plain a b c)
      end
  end.

(** [None]: one of the two could not be read. *)
Definition Below (reported version : string) : option bool :=
  match parseFull reported, parseFull version with
  | Some (r0, r1, r2), Some (v0, v1, v2) =>
      Some (if negb (r0 =? v0) then r0 <? v0 else if negb (r1 =? v1) then r1 <? v1 else if negb (r2 =? v2) then r2 <? v2 else false)
  | _, _ => None
  end.

(** ** Properties *)

(** The compiled-in constant parses, so no call panics. *)
Lemma Version_parses : mustParse Version = Some (1, 4) /\ SupportedRange = ">=1.3.0 <1.5.0".
Proof. split; vm_compute; reflexivity. Qed.

Lemma showInt_nonneg n : 0 <= n -> showInt n = FormatUint n.
Proof. intros H. unfold showInt. by rewrite (proj2 (Z.ltb_ge _ _)) by lia. Qed.

Lemma component_showInt n : 0 <= n <= MaxInt64 -> component (FormatUint n) = Some n.
Proof. intros H. unfold component. rewrite Atoi_FormatUint by done. by rewrite (proj2 (Z.ltb_ge _ _)) by lia. Qed.

Lemma parseFull_plain a b c :
  0 <= a <= MaxInt64 -> 0 <= b <= MaxInt64 -> 0 <= c <= MaxInt64 -> parseFull (plain a b c) = Some (a, b, c).
Proof.
  intros Ha Hb Hc. unfold parseFull, plain. rewrite !showInt_nonneg by lia.
  rewrite splitDot_join, splitDot_join, splitDot_digits by (apply FormatUint_digits; lia).
  by rewrite !component_showInt by done.
Qed.

Lemma component_range p n : component p = Some n -> 0 <= n <= MaxInt64.
Proof.
  unfold component, Atoi. destruct p as [|c r]; [done|]. destruct (_ =s ""); [done|].
  destruct (parseDigits 0 _) as [m|]; [|done]. cbv zeta. destruct (_ && _) eqn:E; [|done]. 
  apply andb_true_iff in E as [_ E]. z_bool. destruct (_ <? 0) eqn:El; [done|]. intros [= <-]. z_bool. lia.
Qed.

Lemma parseFull_range v a b c :
  parseFull v = Some (a, b, c) -> 0 <= a <= MaxInt64 /\ 0 <= b <= MaxInt64 /\ 0 <= c <= MaxInt64.
Proof.
  unfold parseFull. destruct (splitDot v) as [|x [|y [|z [|]]]]; try done.
  destruct (component x) eqn:E1, (component y) eqn:E2, (component z) eqn:E3; try done.
  intros [= <- <- <-]. split_and!; by eapply component_range.
Qed.

Lemma Supports_parse reported :
  Supports reported = None <-> exists minor patch, parseFull reported = Some (1, minor, patch) /\ 3 <= minor <= 4.
Proof.
  unfold Supports, parseStrict. change ourVersion with (1, 4). destruct (reported =s "") eqn:E0.
  { apply eqb_s_true in E0 as ->. split; [done|]. by intros (m & p & H & _). }
  destruct (parseFull reported) as [[[a b] c]|]; simpl; [|split; [done|by intros (m & p & H & _)]].
  destruct (Z.eqb_spec a 1) as [-> |Hne]; simpl; [|split; [done|intros (m & p & [= -> _ _] & _); done]].
  destruct (_ || _) eqn:Er.
  - split; [done|]. intros (m & p & [= -> ->] & Hm). apply orb_true_iff in Er as [Er|Er]; z_bool; lia.
  - apply orb_false_iff in Er as [E1 E2]. z_bool. split; [intros _|done]. exists b, c. split; [done|lia].
Qed.

(** The handshake accepts exactly the contract's two minors: a released version M.m.p, written
    plainly, is supported if and only if it is 1.3.p or 1.4.p, the range the control plane
    advertises; an empty or unreadable report is refused. *)
Theorem Supports_exact a b c :
  0 <= a <= MaxInt64 -> 0 <= b <= MaxInt64 -> 0 <= c <= MaxInt64 ->
  (Supports (plain a b c) = None <-> a = 1 /\ 3 <= b <= 4) /\
  (forall reported, parseFull reported = None -> Supports reported <> None) /\ SupportedRange = ">=1.3.0 <1.5.0".
Proof.
  intros Ha Hb Hc. split; [|split].
  - rewrite Supports_parse, parseFull_plain by done. split.
    + intros (m & p & [= -> -> ->] & Hm). done.
    + intros [-> Hm]. eauto.
  - intros r Hr H%Supports_parse. destruct H as (m & p & H & _). congruence.
  - apply Version_parses.
Qed.

(** A negotiated version holds on both sides: it has the major and minor the adapter reported, this
    build supports it, it is not above this build's own, negotiating it again agrees on the same one,
    and it is this build's own whenever the adapter is on that minor. *)
Theorem Negotiate_agrees reported v :
  Negotiate reported = Some v ->
  Supports v = None /\ Negotiate v = Some v /\ Below Version v = Some false /\ (v = Version \/ Below v Version = Some true) /\
  exists minor patch patch', parseFull reported = Some (1, minor, patch) /\ parseFull v = Some (1, minor, patch') /\
    (minor = 4 -> v = Version).
Proof.
  unfold Negotiate at 1. destruct (Supports reported) eqn:Es; [done|].
  apply Supports_parse in Es as (minor & patch & Hp & Hm). rewrite Hp.
  destruct (parseFull_range _ _ _ _ Hp) as (_ & _ & Hc). change ourVersion with (1, 4). cbv beta iota zeta.
  change (1 =? 1) with true. cbn [andb]. destruct (Z.eqb_spec minor 4) as [-> |Hne]; intros [= <-].
  - split_and!; try (vm_compute; reflexivity); [by left|]. exists 4, patch, 0. split_and!; [done|vm_compute; reflexivity|done].
  - assert (minor = 3) as -> by lia. assert (Hf : parseFull (plain 1 3 patch) = Some (1, 3, patch)).
    { apply parseFull_plain; [split; [lia|vm_compute; discriminate]..|done]. }
    assert (Hs : Supports (plain 1 3 patch) = None) by (apply Supports_parse; exists 3, patch; split; [done|lia]).
    unfold Negotiate, Below. rewrite Hs, Hf. change (parseFull Version) with (Some (1, 4, 0)).
    split_and!; [done|reflexivity|reflexivity|by right|]. exists 3, patch, patch. done.
Qed.

Lemma Supports_exact_witness :
  (Supports (plain 1 3 7) = None <-> 1 = 1 /\ 3 <= 3 <= 4) /\
  (forall reported, parseFull reported = None -> Supports reported <> None) /\ SupportedRange = ">=1.3.0 <1.5.0".
Proof. apply (Supports_exact 1 3 7); vm_compute; split; discriminate. Defined.

Lemma Negotiate_agrees_witness :
  Negotiate "1.3.7" = Some "1.3.7" /\ Supports "1.3.7" = None /\ Negotiate "1.3.7" = Some "1.3.7" /\
  Below Version "1.3.7" = Some false /\ ("1.3.7" = Version \/ Below "1.3.7" Version = Some true) /\
  exists minor patch patch', parseFull "1.3.7" = Some (1, minor, patch) /\ parseFull "1.3.7" = Some (1, minor, patch') /\
    (minor = 4 -> "1.3.7" = Version).
Proof. split; [vm_compute; reflexivity|]. apply (Negotiate_agrees "1.3.7"). vm_compute. reflexivity. Defined.

(** The comment on parseStrict says a component with a sign is refused; Atoi reads one. *)
Theorem signed_version_supported : Supports "+1.+4.-0" = None /\ Negotiate "+1.+3.2" = Some "1.3.2".
Proof. split; vm_compute; reflexivity. Qed.
