(* ===== verification/Leadership.v ===== *)
(** Leader terms (src/internal/leadership): the persisted term floor, a process's hold on leadership,
    and the runnable that joins them. Processes race: [Next] is an automaton that makes one API call
    per step, and a system of processes interleaves these steps with faults and elections. *)

From S2P Require Import Prelude.
From S2P Require Import Decimal.

(** ** The floor (floor.go) *)

Definition maxFloorAttempts : nat := 8.

(** The floor Lease: its resourceVersion and its term-floor annotation. *)
Record Lease := mkLease { l_rv : Z; l_floor : option string }.

(** What the API server holds: the floor Lease, the election Lease's leaseTransitions, and the last
    resourceVersion given out. *)
Record World := mkWorld { w_floor : option Lease; w_election : option (option Z); w_rv : Z }.

Inductive floorError := ErrNotATerm | ErrReadElection | ErrReadFloor | ErrWriteFloor | ErrKeptChanging.

Definition floorOf (lease : option Lease) : result floorError Z :=
  match lease ≫= l_floor with
  | None => Ok 0
  | Some v => match ParseUint v with Some n => Ok n | None => Err ErrNotATerm end
  end.

Definition transitions (electionOn : bool) (w : World) : Z :=
  if negb electionOn then 0
  else match w_election w with
       | Some (Some n) => if 0 <? n then n else 0
       | _ => 0
       end.

(** [max(floor, transitions) + 1] on uint64. *)
Definition nextTerm (floor transitions : Z) : Z := (Z.max floor transitions + 1) mod 2 ^ 64.

(** How a call ends: answered, failed without effect, or applied with its answer lost. *)
Inductive fault := Answered | Failed | ReplyLost.
#[export] Instance fault_eq_dec : EqDecision fault.
Proof. solve_decision. Defined.

(** Create or update the floor Lease with [term]; a fresh resourceVersion. *)
Definition putFloor (w : World) (term : Z) : World :=
  mkWorld (Some (mkLease (w_rv w + 1) (Some (FormatUint term)))) (w_election w) (w_rv w + 1).

(** Where [Next] is: before its read of the election Lease, before its read of the floor, before its
    write, or done. [base] is the resourceVersion read, or none when there was no Lease. *)
Inductive nextPc :=
| AtTransitions (attempt : nat)
| AtRead (attempt : nat) (transitions : Z)
| AtWrite (attempt : nat) (base : option Z) (term : Z)
| Finished (r : result floorError Z).

Definition writeFloor (f : fault) (w : World) (attempt : nat) (term : Z) : nextPc * World :=
  match f with
  | Answered => (Finished (Ok term), putFloor w term)
  | Failed => (Finished (Err ErrWriteFloor), w)
  | ReplyLost => (Finished (Err ErrWriteFloor), putFloor w term)
  end.

(** One API call of [Next]. *)
Definition nextStep (electionOn : bool) (f : fault) (w : World) (pc : nextPc) : nextPc * World :=
  match pc with
  | AtTransitions n =>
      if Nat.eqb n maxFloorAttempts then (Finished (Err ErrKeptChanging), w)
      else if electionOn && negb (bool_decide (f = Answered)) then (Finished (Err ErrReadElection), w)
      else (AtRead n (transitions electionOn w), w)
  | AtRead n tr =>
      match f with
      | Answered => match floorOf (w_floor w) with
                    | Err e => (Finished (Err e), w)
                    | Ok floor => (AtWrite n (l_rv <$> w_floor w) (nextTerm floor tr), w)
                    end
      | _ => (Finished (Err ErrReadFloor), w)
      end
  | AtWrite n None term =>
      match w_floor w with
      | Some _ => match f with Answered => (AtTransitions (S n), w) | _ => (Finished (Err ErrWriteFloor), w) end
      | None => writeFloor f w n term
      end
  | AtWrite n (Some rv) term =>
      match w_floor w with
      | None => (Finished (Err ErrWriteFloor), w)
      | Some l => if l_rv l =? rv then writeFloor f w n term
                  else match f with Answered => (AtTransitions (S n), w) | _ => (Finished (Err ErrWriteFloor), w) end
      end
  | Finished r => (Finished r, w)
  end.

(** ** A process's hold (leadership.go) *)

Record State := mkState { s_leading : bool; s_term : Z }.
Definition zeroState : State := mkState false 0.

Definition Term (s : State) : Z * bool := (s_term s, s_leading s).

Definition Acquire (s : State) (term : Z) : bool * State :=
  if s_leading s || (term =? 0) || (term <=? s_term s) then (false, s) else (true, mkState true term).

Definition Release (s : State) : State := if negb (s_leading s) then s else mkState false (s_term s).

(** ** The runnable (runnable.go) *)

Inductive startPc := Issuing (n : nextPc) | Leads | Stopped.
Record Proc := mkProc { p_pc : startPc; p_state : State }.

Definition startProc : Proc := mkProc (Issuing (AtTransitions 0)) zeroState.

(** One step of [Start]: an API call of Next, or what Start does with Next's answer. *)
Definition runStep (electionOn : bool) (f : fault) (w : World) (p : Proc) : Proc * World :=
  match p_pc p with
  | Issuing (Finished (Ok t)) =>
      let '(ok, s) := Acquire (p_state p) t in
      (mkProc (if ok then Leads else Issuing (AtTransitions 0)) s, w)
  | Issuing (Finished (Err _)) => (mkProc (Issuing (AtTransitions 0)) (p_state p), w)
  | Issuing n => let '(n', w') := nextStep electionOn f w n in (mkProc (Issuing n') (p_state p), w')
  | _ => (p, w)
  end.

(** The context is cancelled. *)
Definition cancelled (p : Proc) : Proc :=
  match p_pc p with Leads => mkProc Stopped (Release (p_state p)) | _ => mkProc Stopped (p_state p) end.

(** ** The system *)

(** The API server, the processes, and the terms issued, newest first. *)
Record System := mkSystem { y_w : World; y_procs : gmap nat Proc; y_issued : list Z }.

(** The term a step has just issued. *)
Definition issuedBy (p p' : Proc) : list Z :=
  match p_pc p, p_pc p' with
  | Issuing (AtWrite _ _ _), Issuing (Finished (Ok t)) => [t]
  | _, _ => []
  end.

Inductive sysStep (electionOn : bool) : System -> System -> Prop :=
| sys_spawn y id :
    y_procs y !! id = None -> sysStep electionOn y (mkSystem (y_w y) (<[id := startProc]> (y_procs y)) (y_issued y))
| sys_step y id p f p' w' :
    y_procs y !! id = Some p -> runStep electionOn f (y_w y) p = (p', w') ->
    sysStep electionOn y (mkSystem w' (<[id := p']> (y_procs y)) (issuedBy p p' ++ y_issued y))
| sys_cancel y id p :
    y_procs y !! id = Some p -> sysStep electionOn y (mkSystem (y_w y) (<[id := cancelled p]> (y_procs y)) (y_issued y))
| sys_restart y id p :                           (* the manager starts a stopped runnable again *)
    y_procs y !! id = Some p -> p_pc p = Stopped ->
    sysStep electionOn y (mkSystem (y_w y) (<[id := mkProc (Issuing (AtTransitions 0)) (p_state p)]> (y_procs y)) (y_issued y))
| sys_election y e :                             (* leaseTransitions is an int32 *)
    match e with Some (Some n) => n <= MaxInt32 | _ => True end ->
    sysStep electionOn y (mkSystem (mkWorld (w_floor (y_w y)) e (w_rv (y_w y))) (y_procs y) (y_issued y)).

(** ** The invariant *)

(** [p] has been given [t]: Next answered it, or its State holds it or held it last. *)
Definition holdsTerm (p : Proc) (t : Z) : Prop :=
  p_pc p = Issuing (Finished (Ok t)) \/ (s_term (p_state p) = t /\ t <> 0).

Section Invariant.
Variable electionOn : bool.
(** A bound on the floor at the start and on the election's count. *)
Variable B : Z.
Hypothesis B_large : MaxInt32 <= B.

(** Terms fit a uint64 with room to spare. *)
Definition room (w : World) : Prop := B + w_rv w < MaxUint64.

Definition floorOk (w : World) (issued : list Z) : Prop :=
  match w_floor w with
  | None => issued = []
  | Some l => l_rv l <= w_rv w /\
      match floorOf (Some l) with
      | Ok f => f <= B + w_rv w /\ Forall (fun t => t <= f) issued
      | Err _ => issued = []
      end
  end.

Definition worldOk (w : World) : Prop :=
  0 <= w_rv w /\ match w_election w with Some (Some n) => n <= MaxInt32 | _ => True end.

(** A pending write is above the floor it read, as long as that floor stands. *)
Definition writeOk (w : World) (base : option Z) (term : Z) : Prop :=
  0 < term <= B + w_rv w + 1 /\
  match base with
  | None => True
  | Some rv => rv <= w_rv w /\
      forall l, w_floor w = Some l -> l_rv l = rv -> exists f, floorOf (Some l) = Ok f /\ f < term
  end.

Definition procOk (w : World) (p : Proc) : Prop :=
  (s_leading (p_state p) = true -> s_term (p_state p) <> 0) /\
  match p_pc p with
  | Issuing (AtRead _ tr) => 0 <= tr <= MaxInt32
  | Issuing (AtWrite _ base term) => writeOk w base term
  | _ => True
  end.

Record Inv (y : System) : Prop := {
  i_floor : floorOk (y_w y) (y_issued y);
  i_world : worldOk (y_w y);
  i_procs : forall id p, y_procs y !! id = Some p -> procOk (y_w y) p;
  i_held : forall id p t, y_procs y !! id = Some p -> holdsTerm p t -> t ∈ y_issued y;
  i_unique : forall i j p q t, i <> j -> y_procs y !! i = Some p -> y_procs y !! j = Some q ->
    holdsTerm p t -> holdsTerm q t -> False;
  i_sorted : StronglySorted (fun a b => b < a) (y_issued y)
}.

Lemma floorOf_range l f : floorOf l = Ok f -> 0 <= f.
Proof.
  unfold floorOf. destruct (l ≫= l_floor) as [v|]; [|by intros [= <-]].
  destruct (ParseUint v) as [n|] eqn:E; [|done]. intros [= <-]. apply ParseUint_range in E. lia.
Qed.

(** A step that leaves the API server alone and gives the process no new term. *)
Lemma inv_quiet y id p' :
  Inv y -> procOk (y_w y) p' ->
  (forall t, holdsTerm p' t -> exists p, y_procs y !! id = Some p /\ holdsTerm p t) ->
  Inv (mkSystem (y_w y) (<[id := p']> (y_procs y)) (y_issued y)).
Proof.
  intros [Hf Hw Hp Hh Hu Hs] Hok Hk. split; simpl; [done..| | | |done].
  - intros i q. destruct (decide (i = id)) as [-> |]; [rewrite lookup_insert_eq; by intros [= <-]|].
    rewrite lookup_insert_ne by done. apply Hp.
  - intros i q t. destruct (decide (i = id)) as [-> |]; [|rewrite lookup_insert_ne by done; apply Hh].
    rewrite lookup_insert_eq. intros [= <-] Ht. destruct (Hk t Ht) as (p & Hpp & Hpt). by eapply Hh.
  - assert (Hone : forall j q t, j <> id -> y_procs y !! j = Some q -> holdsTerm p' t -> holdsTerm q t -> False).
    { intros j q t Hne Hq Ht Hqt. destruct (Hk t Ht) as (p & Hpp & Hpt). by eapply (Hu j id). }
    intros i j p q t Hij. destruct (decide (i = id)) as [-> |Hi], (decide (j = id)) as [-> |Hj]; [done|..].
    + rewrite lookup_insert_eq, lookup_insert_ne by done. intros [= <-] Hq Ht Hqt. by eapply Hone.
    + rewrite lookup_insert_ne, lookup_insert_eq by done. intros Hq [= <-] Ht Hqt. by eapply Hone.
    + rewrite !lookup_insert_ne by done. by apply Hu.
Qed.

(** A write of the floor, issued or with its answer lost. *)
Lemma inv_put y id p p' term new :
  Inv y -> y_procs y !! id = Some p -> room (putFloor (y_w y) term) ->
  0 < term <= B + w_rv (y_w y) + 1 -> Forall (fun t => t < term) (y_issued y) ->
  procOk (putFloor (y_w y) term) p' -> (new = [] \/ new = [term]) ->
  (forall t, holdsTerm p' t -> holdsTerm p t \/ (t = term /\ new = [term])) ->
  Inv (mkSystem (putFloor (y_w y) term) (<[id := p']> (y_procs y)) (new ++ y_issued y)).
Proof.
  intros [Hf Hw Hp Hh Hu Hs] Hid Hroom Hterm Hlt Hok Hnew Hk.
  assert (Hin : forall t, t ∈ new ++ y_issued y -> t <= term).
  { intros t [Ht|Ht]%elem_of_app.
    - destruct Hnew as [-> | ->]; [by apply not_elem_of_nil in Ht|apply list_elem_of_singleton in Ht; lia].
    - rewrite Forall_forall in Hlt. apply Hlt in Ht. lia. }
  unfold room in Hroom. simpl in Hroom. split; simpl.
  - unfold floorOk. simpl. split; [lia|]. unfold floorOf. simpl.
    rewrite ParseUint_FormatUint by lia. split; [lia|]. by apply Forall_forall.
  - unfold worldOk in *. simpl. split; [lia|apply Hw].
  - intros i q. destruct (decide (i = id)) as [-> |]; [rewrite lookup_insert_eq; by intros [= <-]|].
    rewrite lookup_insert_ne by done. intros Hq. destruct (Hp _ _ Hq) as [Hl Hpc]. split; [done|].
    destruct (p_pc q) as [[]| |]; try done. destruct Hpc as [Ht Hb]. split; simpl; [lia|].
    destruct base as [rv|]; [|done]. destruct Hb as [Hrv _]. split; [lia|]. intros l [= <-]. simpl. lia.
  - intros i q t. destruct (decide (i = id)) as [-> |].
    + rewrite lookup_insert_eq. intros [= <-] Ht. apply elem_of_app.
      destruct (Hk t Ht) as [Hpt|[-> ->]]; [right; by eapply Hh|left; by left].
    + rewrite lookup_insert_ne by done. intros Hq Ht. apply elem_of_app. right. by eapply Hh.
  - assert (Hone : forall j q t, j <> id -> y_procs y !! j = Some q -> holdsTerm p' t -> holdsTerm q t -> False).
    { intros j q t Hne Hq Ht Hqt. destruct (Hk t Ht) as [Hpt|[-> _]]; [by eapply (Hu j id)|].
      apply (Hh j q) in Hqt; [|done]. rewrite Forall_forall in Hlt. apply Hlt in Hqt. lia. }
    intros i j p1 q t Hij. destruct (decide (i = id)) as [-> |Hi], (decide (j = id)) as [-> |Hj]; [done|..].
    + rewrite lookup_insert_eq, lookup_insert_ne by done. intros [= <-] Hq Ht Hqt. by eapply Hone.
    + rewrite lookup_insert_ne, lookup_insert_eq by done. intros Hq [= <-] Ht Hqt. by eapply Hone.
    + rewrite !lookup_insert_ne by done. by apply Hu.
  - destruct Hnew as [-> | ->]; [done|]. simpl. by constructor.
Qed.

(** Nothing issued is above a floor read before the write. *)
Lemma issued_below y base term :
  floorOk (y_w y) (y_issued y) -> writeOk (y_w y) base term ->
  match base, w_floor (y_w y) with
  | None, None => True
  | Some rv, Some l => l_rv l = rv
  | _, _ => False
  end -> Forall (fun t => t < term) (y_issued y).
Proof.
  unfold floorOk. intros Hf [_ Hb] Hm. destruct base as [rv|], (w_floor (y_w y)) as [l|]; try done; [|by rewrite Hf].
  destruct Hb as [_ Hb]. destruct (Hb l eq_refl Hm) as (f & Ef & Hlt). rewrite Ef in Hf.
  eapply Forall_impl; [apply Hf|]. simpl. lia.
Qed.

Lemma inv_write y id n base term f p' w' s :
  Inv y -> y_procs y !! id = Some (mkProc (Issuing (AtWrite n base term)) s) -> room w' ->
  writeFloor f (y_w y) n term = (p', w') ->
  match base, w_floor (y_w y) with None, None => True | Some rv, Some l => l_rv l = rv | _, _ => False end ->
  Inv (mkSystem w' (<[id := mkProc (Issuing p') s]> (y_procs y))
        (issuedBy (mkProc (Issuing (AtWrite n base term)) s) (mkProc (Issuing p') s) ++ y_issued y)).
Proof.
  intros Hi Hid Hroom Hwr Hm. destruct (i_procs y Hi _ _ Hid) as [Hl Hwo].
  assert (Hbelow := issued_below y base term (i_floor y Hi) Hwo Hm).
  destruct f; simpl in Hwr; simplify_eq; simpl.
  - apply (inv_put y id _ _ term [term] Hi Hid Hroom (proj1 Hwo) Hbelow); [by split|by right|].
    intros t [[= <-]|Ht]; [by right|left; by right].
  - apply inv_quiet; [done|by split|]. intros t [|Ht]; [done|]. eexists. split; [done|]. by right.
  - apply (inv_put y id _ _ term [] Hi Hid Hroom (proj1 Hwo) Hbelow); [by split|by left|].
    intros t [|Ht]; [done|left; by right].
Qed.

(** The election's count is an int32, so a read of it is in range. *)
Lemma transitions_range w : worldOk w -> 0 <= transitions electionOn w <= MaxInt32.
Proof.
  intros [_ H]. assert (0 <= MaxInt32) by (unfold MaxInt32; lia).
  unfold transitions. destruct electionOn; simpl; [|lia].
  destruct (w_election w) as [[n|]|]; [|lia|lia]. destruct (Z.ltb_spec 0 n); lia.
Qed.

Lemma read_writeOk y tr floor :
  Inv y -> room (y_w y) -> 0 <= tr <= MaxInt32 -> floorOf (w_floor (y_w y)) = Ok floor ->
  writeOk (y_w y) (l_rv <$> w_floor (y_w y)) (nextTerm floor tr).
Proof.
  intros Hi Hr Htr Hfl. assert (H0 := floorOf_range _ _ Hfl). assert (Hf := i_floor y Hi). assert (Hrv := proj1 (i_world y Hi)).
  assert (Hle : floor <= B + w_rv (y_w y)).
  { unfold floorOk in Hf. destruct (w_floor (y_w y)) as [l|]; [rewrite Hfl in Hf; apply Hf|].
    unfold floorOf in Hfl. simpl in Hfl. injection Hfl as <-. unfold MaxInt32 in *. lia. }
  assert (Hn : nextTerm floor tr = Z.max floor tr + 1).
  { unfold nextTerm. apply Z.mod_small. unfold room, MaxUint64 in *. lia. }
  rewrite Hn. split; [lia|]. destruct (w_floor (y_w y)) as [l|] eqn:El; simpl; [|done].
  unfold floorOk in Hf. rewrite El in Hf. split; [apply Hf|]. intros l' [= <-] _. exists floor. split; [done|lia].
Qed.

Lemma Acquire_spec s t ok s' :
  Acquire s t = (ok, s') ->
  if ok then s' = mkState true t /\ t <> 0 /\ s_term s < t else s' = s.
Proof.
  unfold Acquire. destruct (_ || _ || _) eqn:E; intros [= <- <-]; [done|].
  apply orb_false_iff in E as [[_ E1]%orb_false_iff E2]. z_bool. done.
Qed.

Lemma inv_quiet_step y id p n' :
  Inv y -> y_procs y !! id = Some p -> procOk (y_w y) (mkProc (Issuing n') (p_state p)) ->
  (forall t, n' <> Finished (Ok t)) ->
  Inv (mkSystem (y_w y) (<[id := mkProc (Issuing n') (p_state p)]> (y_procs y)) (y_issued y)).
Proof.
  intros Hi Hid Hok Hn. apply inv_quiet; [done|done|]. intros t [[= H]|Ht]; [by apply Hn in H|].
  exists p. split; [done|]. by right.
Qed.

Lemma next_inv y id n s f n' w' :
  Inv y -> y_procs y !! id = Some (mkProc (Issuing n) s) -> room w' -> (forall r, n <> Finished r) ->
  nextStep electionOn f (y_w y) n = (n', w') ->
  Inv (mkSystem w' (<[id := mkProc (Issuing n') s]> (y_procs y))
        (issuedBy (mkProc (Issuing n) s) (mkProc (Issuing n') s) ++ y_issued y)).
Proof.
  intros Hi Hid Hroom Hn Hst. destruct (i_procs y Hi _ _ Hid) as [Hl Hpc]. simpl in Hl.
  destruct n as [k|k tr|k base term|r]; [..|by destruct (Hn r)]; cbn [nextStep] in Hst.
  - simpl. destruct (Nat.eqb k maxFloorAttempts); [|destruct (electionOn && _)]; simplify_eq;
      (eapply (inv_quiet_step y id _ _ Hi Hid); [split; [exact Hl|simpl]|done]); [done|done|apply transitions_range, Hi].
  - simpl. destruct f; [destruct (floorOf (w_floor (y_w y))) as [floor|e] eqn:Ef| |]; simplify_eq;
      (eapply (inv_quiet_step y id _ _ Hi Hid); [split; [exact Hl|simpl]|done]); try done.
    by apply read_writeOk.
  - destruct base as [rv|]; (destruct (w_floor (y_w y)) as [l|] eqn:El; [|]).
    + destruct (Z.eqb_spec (l_rv l) rv) as [Hrv|Hne].
      * eapply inv_write; try done. by rewrite El.
      * destruct f; simplify_eq; simpl; (eapply (inv_quiet_step y id _ _ Hi Hid); [by split|done]).
    + simplify_eq. simpl. eapply (inv_quiet_step y id _ _ Hi Hid); [by split|done].
    + destruct f; simplify_eq; simpl; (eapply (inv_quiet_step y id _ _ Hi Hid); [by split|done]).
    + eapply inv_write; try done. by rewrite El.
Qed.

Lemma run_inv y id p f p' w' :
  Inv y -> y_procs y !! id = Some p -> room w' -> runStep electionOn f (y_w y) p = (p', w') ->
  Inv (mkSystem w' (<[id := p']> (y_procs y)) (issuedBy p p' ++ y_issued y)).
Proof.
  intros Hi Hid Hroom. destruct p as [[n| |] s]; unfold runStep; simpl.
  2: { intros [= <- <-]. apply inv_quiet; [done|by apply (i_procs y Hi id)|eauto]. }
  2: { intros [= <- <-]. apply inv_quiet; [done|by apply (i_procs y Hi id)|eauto]. }
  destruct (i_procs y Hi _ _ Hid) as [Hl _]. simpl in Hl.
  destruct n as [k|k tr|k base term|[t|e]]; try
    (destruct (nextStep electionOn f (y_w y) _) as [n' w1] eqn:En; intros [= <- <-]; by eapply next_inv in En).
  - destruct (Acquire s t) as [ok s'] eqn:Ea. apply Acquire_spec in Ea. intros [= <- <-]. destruct ok.
    + destruct Ea as (-> & Hne & _). apply inv_quiet; [done|by split|]. intros t' [|[<- _]]; [done|].
      eexists. split; [done|]. by left.
    + subst s'. by eapply (inv_quiet_step y id _ _ Hi Hid).
  - intros [= <- <-]. by eapply (inv_quiet_step y id _ _ Hi Hid).
Qed.

Lemma nextStep_rv f w n : w_rv w <= w_rv (snd (nextStep electionOn f w n)).
Proof.
  unfold nextStep, writeFloor. repeat (case_match; simpl; try lia).
Qed.

Lemma runStep_rv f w p : w_rv w <= w_rv (snd (runStep electionOn f w p)).
Proof.
  unfold runStep. destruct (p_pc p) as [n| |]; simpl; try lia.
  pose proof (nextStep_rv f w n). destruct n as [| | |[]]; repeat case_match; simpl in *; try lia.
Qed.

Lemma sysStep_inv y y' : sysStep electionOn y y' -> room (y_w y') -> (room (y_w y) -> Inv y) -> Inv y'.
Proof.
  intros Hs Hr Hi. destruct Hs as [y id Hid|y id p f p' w' Hid Hst|y id p Hid|y id p Hid Hpc|y e He]; simpl in *.
  - apply inv_quiet; [by apply Hi|by split|]. intros t [|[<- ?]]; done.
  - eapply run_inv; try done. apply Hi. pose proof (runStep_rv f (y_w y) p) as H. rewrite Hst in H. simpl in H.
    unfold room in *. lia.
  - specialize (Hi Hr). destruct (i_procs y Hi _ _ Hid) as [Hl _].
    assert (Hterm : s_term (p_state (cancelled p)) = s_term (p_state p)).
    { unfold cancelled, Release. destruct (p_pc p); simpl; try done. by destruct (s_leading (p_state p)). }
    apply inv_quiet; [done| |].
    + split; [|by unfold cancelled; destruct (p_pc p)]. unfold cancelled, Release. destruct (p_pc p); simpl; try done.
      destruct (s_leading (p_state p)) eqn:El; simpl; [done|by rewrite El].
    + intros t [Ht|Ht]; [unfold cancelled in Ht; by destruct (p_pc p)|]. exists p. split; [done|]. right. by rewrite Hterm in Ht.
  - specialize (Hi Hr). destruct (i_procs y Hi _ _ Hid) as [Hl _].
    apply (inv_quiet_step y id p (AtTransitions 0) Hi Hid); [by split|done].
  - specialize (Hi Hr). destruct Hi as [Hf [Hrv _] Hp Hh Hu Hso]. by split.
Qed.
End Invariant.

(** ** Executing a schedule *)

Definition startSystem (w : World) : System := mkSystem w ∅ [].

(** Process [id] takes one step, its call ending as [f] says; a new id starts a process. *)
Definition stepOf (electionOn : bool) (y : System) (idf : nat * fault) : System :=
  match y_procs y !! fst idf with
  | None => mkSystem (y_w y) (<[fst idf := startProc]> (y_procs y)) (y_issued y)
  | Some p => let '(p', w') := runStep electionOn (snd idf) (y_w y) p in
              mkSystem w' (<[fst idf := p']> (y_procs y)) (issuedBy p p' ++ y_issued y)
  end.

Definition schedule (electionOn : bool) (w : World) (l : list (nat * fault)) : System :=
  fold_left (stepOf electionOn) l (startSystem w).

Lemma stepOf_sysStep e y idf : sysStep e y (stepOf e y idf).
Proof.
  unfold stepOf. destruct (y_procs y !! fst idf) as [p|] eqn:E; [|by apply sys_spawn].
  destruct (runStep _ _ _ _) as [p' w'] eqn:Er. by eapply sys_step.
Qed.

Lemma schedule_reachable e w l : rtc (sysStep e) (startSystem w) (schedule e w l).
Proof.
  unfold schedule. generalize (startSystem w). induction l as [|x l IH]; intros y; simpl; [apply rtc_refl|].
  eapply rtc_l; [apply stepOf_sysStep|apply IH].
Qed.

(** Two processes read the same floor; the slower one's write conflicts and it starts over. *)
Definition exElection : World := mkWorld None (Some (Some 4)) 0.
Definition exRace : list (nat * fault) :=
  (fun id => (id, Answered)) <$> [0; 1; 0; 0; 1; 1; 0; 1; 1; 1; 1; 0; 1]%nat.

Example race_terms :
  let y := schedule true exElection exRace in
  (p_state <$> y_procs y !! 0%nat, p_state <$> y_procs y !! 1%nat, y_issued y) =
  (Some (mkState true 5), Some (mkState true 6), [6; 5]).
Proof. vm_compute. reflexivity. Qed.

(** ** Claims *)

(** What may stand at the start: a floor no higher than [B], an election count that is an int32. *)
Definition startOk (B : Z) (w : World) : Prop :=
  MaxInt32 <= B /\ worldOk w /\
  match w_floor w with
  | None => True
  | Some l => l_rv l <= w_rv w /\ match floorOf (Some l) with Ok f => f <= B + w_rv w | Err _ => True end
  end.

Lemma start_inv B w : startOk B w -> Inv B (startSystem w).
Proof.
  intros (HB & Hw & Hf). split; simpl; [|done|..].
  - unfold floorOk. destruct (w_floor w) as [l|]; [|done]. destruct Hf as [Hrv Hf]. split; [done|].
    destruct (floorOf (Some l)); [by split|done].
  - intros id p. by rewrite lookup_empty.
  - intros id p t. by rewrite lookup_empty.
  - intros i j p q t _. by rewrite lookup_empty.
  - constructor.
Qed.

Lemma reachable_inv e B w y :
  startOk B w -> rtc (sysStep e) (startSystem w) y -> room B (y_w y) -> Inv B y.
Proof.
  intros Hs. revert y. apply (rtc_ind_r (fun y => room B (y_w y) -> Inv B y)); [intros _; by apply start_inv|].
  intros y z _ Hst IH Hroom. by eapply (sysStep_inv e B (proj1 Hs)).
Qed.

(** C31 A leader term is never used twice. Over any interleaving of any processes that take, lose and
    retake leadership, with calls that fail and writes whose answer is lost, the terms issued increase
    strictly, every process that leads does so under a term that was issued and is not 0, and two
    processes that lead at once, one of them stale, have different terms; as long as the terms fit
    a uint64. *)
Theorem leader_terms_unique e B w y :
  startOk B w -> rtc (sysStep e) (startSystem w) y -> B + w_rv (y_w y) < MaxUint64 ->
  StronglySorted (fun a b => b < a) (y_issued y) /\
  (forall i p, y_procs y !! i = Some p -> s_leading (p_state p) = true -> s_term (p_state p) <> 0 /\ s_term (p_state p) ∈ y_issued y) /\
  (forall i j p q, i <> j -> y_procs y !! i = Some p -> y_procs y !! j = Some q ->
     s_leading (p_state p) = true -> s_leading (p_state q) = true -> s_term (p_state p) <> s_term (p_state q)).
Proof.
  intros Hs Hr Hroom. destruct (reachable_inv e B w y Hs Hr Hroom) as [_ _ Hp Hh Hu Hso]. split; [done|].
  assert (Hlead : forall i p, y_procs y !! i = Some p -> s_leading (p_state p) = true -> s_term (p_state p) <> 0).
  { intros i p Hi Hl. by apply (Hp i p Hi). }
  split.
  - intros i p Hi Hl. assert (Hne := Hlead i p Hi Hl). split; [done|]. eapply (Hh i p); [done|]. by right.
  - intros i j p q Hij Hi Hj Hl Hl' Heq. apply (Hu i j p q (s_term (p_state p)) Hij Hi Hj); right; [by eauto|].
    split; [done|]. by eapply Hlead.
Qed.

Lemma leader_terms_unique_witness :
  let y := schedule true exElection exRace in
  StronglySorted (fun a b => b < a) (y_issued y) /\
  (forall i p, y_procs y !! i = Some p -> s_leading (p_state p) = true -> s_term (p_state p) <> 0 /\ s_term (p_state p) ∈ y_issued y) /\
  (forall i j p q, i <> j -> y_procs y !! i = Some p -> y_procs y !! j = Some q ->
     s_leading (p_state p) = true -> s_leading (p_state q) = true -> s_term (p_state p) <> s_term (p_state q)).
Proof.
  apply (leader_terms_unique true MaxInt32 exElection);
    [split; [lia|split; [split; vm_compute; discriminate|done]]|apply schedule_reachable|vm_compute; reflexivity].
Defined.

(** Alone and unhindered, Next answers in one attempt, one above the floor and the election count. *)
Theorem Next_alone e w f :
  floorOf (w_floor w) = Ok f ->
  let step x := nextStep e Answered (snd x) (fst x) in
  step (step (step (AtTransitions 0, w))) =
    (Finished (Ok (nextTerm f (transitions e w))), putFloor w (nextTerm f (transitions e w))).
Proof.
  intros Hf step. unfold step. cbn [fst snd nextStep Nat.eqb maxFloorAttempts].
  rewrite bool_decide_eq_true_2, andb_false_r by done. cbn [fst snd nextStep]. rewrite Hf. cbn [fst snd nextStep].
  destruct (w_floor w) as [l|]; simpl; [by rewrite Z.eqb_refl|done].
Qed.

(** The floor is a uint64 and the sum wraps: from the largest floor, Next issues term 0, which Acquire
    refuses, and leaves the floor at 0, so the terms that follow repeat old ones. *)
Theorem term_floor_wraps :
  let w := mkWorld (Some (mkLease 1 (Some (FormatUint MaxUint64)))) None 1 in
  let y := schedule true w ((fun id => (id, Answered)) <$> [0; 0; 0; 0; 0; 0; 0; 0; 0]%nat) in
  (p_state <$> y_procs y !! 0%nat, y_issued y) = (Some (mkState true 1), [1; 0]).
Proof. vm_compute. reflexivity. Qed.
