(* ===== verification/RobotId.v ===== *)
(** src/internal/robotid: the mapping between a Robot object and the robot_id its adapter knows it
    by, and the lookup of a wire robot_id among a namespace's Robots. *)

From S2P Require Import Prelude.
From S2P Require Import Types.

Definition Wire (robot : Robot) : string :=
  match r_Annotations robot !! RobotIDAnnotation with
  | Some id => if id <>s "" then id else r_Name robot
  | None => r_Name robot
  end.

(** The errors of [Lookup]: the Robots could not be read, or the id names two of them. *)
Inductive LookupError := ErrUnreadable | ErrAmbiguous (first second : string).

(** The scan of [Lookup]: [match_] is the Robot found so far. *)
Fixpoint lookupLoop (robotID : string) (robots : list Robot) (match_ : option Robot)
    : result LookupError (option Robot) :=
  match robots with
  | [] => Ok match_
  | r :: robots =>
      if Wire r <>s robotID then lookupLoop robotID robots match_
      else match match_ with
           | Some m => Err (ErrAmbiguous (r_Name m) (r_Name r))
           | None => lookupLoop robotID robots (Some r)
           end
  end.

(** [listed] is what listing the namespace's Robots returned ([None] for an error). *)
Definition Lookup (listed : option (list Robot)) (robotID : string) : result LookupError (option Robot) :=
  match listed with
  | None => Err ErrUnreadable
  | Some robots => lookupLoop robotID robots None
  end.

(** The Robots of a list that answer to a wire id. *)
Definition answering (robotID : string) (robots : list Robot) : list Robot :=
  List.filter (fun r => Wire r =s robotID) robots.

Definition seen (m : option Robot) : nat := match m with Some _ => 1 | None => 0 end.

Lemma lookupLoop_spec robotID robots : forall m,
  match lookupLoop robotID robots m with
  | Ok r => r = match m with Some x => Some x | None => head (answering robotID robots) end /\
            (length (answering robotID robots) + seen m <= 1)%nat
  | Err ErrUnreadable => False
  | Err (ErrAmbiguous _ _) => (2 <= length (answering robotID robots) + seen m)%nat
  end.
Proof.
  induction robots as [|r robots IH]; intros m; simpl.
  - destruct m; (split; [done|simpl; lia]).
  - destruct (Wire r =s robotID) eqn:E; simpl; [|apply IH].
    destruct m as [x|]; simpl; [lia|].
    specialize (IH (Some r)). simpl in IH.
    destruct (lookupLoop robotID robots (Some r)) as [?|[]]; [destruct IH as [-> Hl]; split; [done|lia]|done|lia].
Qed.

(** The Robot a lookup finds was read, and answers to the id. *)
Lemma Lookup_found listed robotID r :
  Lookup listed robotID = Ok (Some r) -> exists robots, listed = Some robots /\ r ∈ robots /\ Wire r = robotID.
Proof.
  destruct listed as [robots|]; simpl; [|done]. intros Hl.
  pose proof (lookupLoop_spec robotID robots None) as H. rewrite Hl in H. simpl in H. destruct H as [Hr _].
  exists robots. assert (Hin : r ∈ answering robotID robots) by (destruct (answering robotID robots); simplify_eq/=; by left).
  unfold answering in Hin. apply list_elem_of_In, filter_In in Hin as [Hin Hw].
  split_and!; [done|by apply list_elem_of_In|by apply eqb_s_true].
Qed.

(** Looking up a wire robot_id over the Robots read finds exactly the one Robot that answers to
    it, finds nothing when none does, and is an error, never a guess, when two do or when the
    Robots could not be read. *)
Theorem Lookup_exact listed robotID :
  match Lookup listed robotID with
  | Ok (Some r) => exists robots, listed = Some robots /\ answering robotID robots = [r]
  | Ok None => exists robots, listed = Some robots /\ answering robotID robots = []
  | Err ErrUnreadable => listed = None
  | Err (ErrAmbiguous _ _) => exists robots, listed = Some robots /\ (2 <= length (answering robotID robots))%nat
  end.
Proof.
  destruct listed as [robots|]; simpl; [|done].
  pose proof (lookupLoop_spec robotID robots None) as H. simpl in H.
  destruct (lookupLoop robotID robots None) as [r|[|a b]].
  - destruct H as [-> Hl]. destruct (answering robotID robots) as [|a [|b l]] eqn:Ea; simpl in *; eauto; lia.
  - done.
  - exists robots. split; [done|lia].
Qed.
