(* ===== verification/Conc.v ===== *)
(** Goroutines that share a state and a family of mutexes: programs, the scheduler that interleaves them
    one mutex section at a time, and a rely-guarantee logic whose soundness theorem says that in every
    interleaving each event happens only when its precondition holds. The command dispatcher
    (Dispatch) is written and verified in it. *)

From S2P Require Import Prelude.

Section Conc.
(** An event is one access to the shared state or the outside world, with its own type of answers. *)
Context {Ev : Type} (resp : Ev -> Type).

(** A program: return, an event and what follows its answer, the lock and unlock of a named mutex, and
    Go's [go] statement. *)
Inductive prog (A : Type) : Type :=
| Ret (a : A)
| Vis (e : Ev) (k : resp e -> prog A)
| Lock (key : string) (k : prog A)
| Unlock (key : string) (k : prog A)
| Fork (p : prog unit) (k : prog A).
Arguments Ret {A} a.
Arguments Vis {A} e k.
Arguments Lock {A} key k.
Arguments Unlock {A} key k.
Arguments Fork {A} p k.

Fixpoint pbind {A B : Type} (p : prog A) (f : A -> prog B) : prog B :=
  match p with
  | Ret a => f a
  | Vis e k => Vis e (fun x => pbind (k x) f)
  | Lock key k => Lock key (pbind k f)
  | Unlock key k => Unlock key (pbind k f)
  | Fork q k => Fork q (pbind k f)
  end.

Definition trigger (e : Ev) : prog (resp e) := Vis e Ret.

(** ** The scheduler *)

Context {W Input : Type}.
(** One event of thread [tid]: the state after it and its answer, both determined by the state and the
    input the outside world gives; [None] while the event must wait. *)
Variable perform : nat -> forall e : Ev, Input -> W -> option (W * resp e).

Record Sys := mkSys {
  sy_world : W;
  sy_locks : gmap string nat;
  sy_threads : gmap nat (prog unit);
  sy_next : nat
}.

Definition addThread (s : Sys) (p : prog unit) : Sys :=
  mkSys (sy_world s) (sy_locks s) (<[sy_next s := p]> (sy_threads s)) (S (sy_next s)).

Definition setThread (s : Sys) (tid : nat) (p : prog unit) : Sys :=
  mkSys (sy_world s) (sy_locks s) (<[tid := p]> (sy_threads s)) (sy_next s).

(** Run thread [tid] for one step; a thread that must wait does not move. *)
Definition runThread (tid : nat) (x : Input) (s : Sys) : Sys :=
  match sy_threads s !! tid with
  | None => s
  | Some (Ret _) => mkSys (sy_world s) (sy_locks s) (delete tid (sy_threads s)) (sy_next s)
  | Some (Vis e k) =>
      match perform tid e x (sy_world s) with
      | None => s
      | Some (w, a) => mkSys w (sy_locks s) (<[tid := k a]> (sy_threads s)) (sy_next s)
      end
  | Some (Lock key k) =>
      match sy_locks s !! key with
      | Some _ => s
      | None => mkSys (sy_world s) (<[key := tid]> (sy_locks s)) (<[tid := k]> (sy_threads s)) (sy_next s)
      end
  | Some (Unlock key k) => mkSys (sy_world s) (delete key (sy_locks s)) (<[tid := k]> (sy_threads s)) (sy_next s)
  | Some (Fork p k) => addThread (setThread s tid k) p
  end.

(** ** The logic *)

(** [pre tid lk e w]: thread [tid], holding the mutex [lk], may perform [e] in [w]. [rely tid lk]: what
    the other threads may do to the state meanwhile. [inv]: what every step keeps. *)
Variable pre : nat -> option string -> Ev -> W -> Prop.
Variable rely : nat -> option string -> W -> W -> Prop.
Variable inv : W -> Prop.

Definition post (tid : nat) (lk : option string) (e : Ev) (a : resp e) (P : W -> Prop) (w' : W) : Prop :=
  exists w x w1, inv w /\ P w /\ perform tid e x w = Some (w1, a) /\ rely tid lk w1 w'.

Definition relaxed (tid : nat) (P : W -> Prop) (w' : W) : Prop := exists w, P w /\ rely tid None w w'.

(** [triple tid lk P p lk' Q]: from a state where [P] holds, thread [tid] holding [lk] runs [p] respecting
    every precondition, and ends holding [lk'] in a state where [Q] holds of its result. *)
Fixpoint triple {A : Type} (tid : nat) (lk : option string) (P : W -> Prop) (p : prog A) (lk' : option string)
    (Q : A -> W -> Prop) : Prop :=
  match p with
  | Ret a => lk = lk' /\ forall w, P w -> Q a w
  | Vis e k =>
      (forall w, inv w -> P w -> pre tid lk e w) /\ forall a, triple tid lk (post tid lk e a P) (k a) lk' Q
  | Lock key k => lk = None /\ triple tid (Some key) P k lk' Q
  | Unlock key k => lk = Some key /\ triple tid None (relaxed tid P) k lk' Q
  | Fork q k =>
      (forall tid, triple tid None (fun _ => True) q None (fun _ _ => True)) /\ triple tid lk P k lk' Q
  end.

Lemma triple_weaken {A : Type} tid lk (P P' : W -> Prop) (p : prog A) lk' Q :
  (forall w, P' w -> P w) -> triple tid lk P p lk' Q -> triple tid lk P' p lk' Q.
Proof.
  revert lk P P'. induction p as [A a|A e k IH|A key k IH|A key k IH|A q _ k IH]; simpl; intros lk P P' HP.
  - intros [-> Hq]. eauto.
  - intros [Hpre Hk]. split; [eauto|]. intros a. eapply IH; [|apply Hk].
    intros w (w0 & x & w1 & ? & ? & ? & ?). exists w0, x, w1. eauto.
  - intros [-> Hk]. eauto.
  - intros [-> Hk]. split; [done|]. eapply IH; [|exact Hk]. intros w (w0 & ? & ?). exists w0. eauto.
  - intros [Hq Hk]. eauto.
Qed.

Lemma triple_conseq {A : Type} tid lk P (p : prog A) lk' (Q Q' : A -> W -> Prop) :
  (forall a w, Q a w -> Q' a w) -> triple tid lk P p lk' Q -> triple tid lk P p lk' Q'.
Proof.
  intros HQ. revert lk P. induction p as [A a|A e k IH|A key k IH|A key k IH|A q _ k IH]; simpl; intros lk P.
  - intros [-> Hq]. eauto.
  - intros [Hpre Hk]. split; [done|]. eauto.
  - intros [-> Hk]. eauto.
  - intros [-> Hk]. eauto.
  - intros [Hq Hk]. eauto.
Qed.

Lemma triple_bind {A B : Type} tid lk P (p : prog A) (f : A -> prog B) lk1 Q lk2 R :
  triple tid lk P p lk1 Q -> (forall a, triple tid lk1 (Q a) (f a) lk2 R) -> triple tid lk P (pbind p f) lk2 R.
Proof.
  revert lk P f Q. induction p as [A a|A e k IH|A key k IH|A key k IH|A q _ k IH]; simpl; intros lk P f Q.
  - intros [-> HQ] Hf. eapply triple_weaken; [|apply Hf]. done.
  - intros [Hpre Hk] Hf. split; [done|]. intros a. eauto.
  - intros [-> Hk] Hf. eauto.
  - intros [-> Hk] Hf. eauto.
  - intros [Hq Hk] Hf. eauto.
Qed.

(** ** Soundness *)

Definition apart (lk lk' : option string) : Prop := forall key, lk = Some key -> lk' <> Some key.

Hypothesis rely_refl : forall tid lk w, rely tid lk w w.
Hypothesis rely_trans : forall tid lk w1 w2 w3, rely tid lk w1 w2 -> rely tid lk w2 w3 -> rely tid lk w1 w3.
(** Holding a mutex only narrows what the others may do. *)
Hypothesis rely_lock : forall tid lk w w', rely tid lk w w' -> rely tid None w w'.
Hypothesis perform_rely : forall tid lk e x w w' a tid' lk',
  inv w -> pre tid lk e w -> perform tid e x w = Some (w', a) -> tid <> tid' -> apart lk lk' -> rely tid' lk' w w'.
Hypothesis perform_inv : forall tid lk e x w w' a,
  inv w -> pre tid lk e w -> perform tid e x w = Some (w', a) -> inv w'.

Definition stable (tid : nat) (lk : option string) (P : W -> Prop) : Prop :=
  forall w w', P w -> rely tid lk w w' -> P w'.

(** A thread of the system, with the mutex it holds and what it knows. *)
Definition threadOk (s : Sys) (tid : nat) (p : prog unit) : Prop :=
  exists lk P, stable tid lk P /\ P (sy_world s) /\ triple tid lk P p None (fun _ _ => True) /\
    (forall key, lk = Some key <-> sy_locks s !! key = Some tid).

Record sysOk (s : Sys) : Prop := {
  ok_inv : inv (sy_world s);
  ok_threads : forall tid p, sy_threads s !! tid = Some p -> threadOk s tid p;
  ok_fresh : forall tid, (sy_next s <= tid)%nat -> sy_threads s !! tid = None;
  ok_owned : forall key tid, sy_locks s !! key = Some tid -> is_Some (sy_threads s !! tid)
}.

Lemma threadOk_locks s s' tid p :
  sy_world s = sy_world s' -> (forall key, sy_locks s !! key = Some tid <-> sy_locks s' !! key = Some tid) ->
  threadOk s tid p -> threadOk s' tid p.
Proof.
  intros Hw Hl (lk & P & ? & HP & ? & Hlk). exists lk, P. rewrite <- Hw. split_and!; [done..|].
  intros key. by rewrite Hlk.
Qed.

Lemma sysOk_addNext s p :
  sysOk s -> triple (sy_next s) None (fun _ => True) p None (fun _ _ => True) -> sysOk (addThread s p).
Proof.
  intros [Hi Ht Hf Ho] Hp. split; simpl; [done| | |].
  - intros tid q [[<- <-]|[Hne Hq]]%lookup_insert_Some.
    + exists None, (fun _ => True). split_and!; [done|done|apply Hp|]. intros key. simpl. split; [done|].
      intros Hk. destruct (Ho _ _ Hk) as [q Hq]. rewrite Hf in Hq; [done|lia].
    + by apply (threadOk_locks s); [| |apply Ht, Hq].
  - intros tid Htid. rewrite lookup_insert_ne by lia. apply Hf. lia.
  - intros key tid Hk. destruct (decide (sy_next s = tid)) as [->|Hne].
    + rewrite lookup_insert_eq. eauto.
    + rewrite lookup_insert_ne by done. eauto.
Qed.

Lemma sysOk_addThread s p :
  sysOk s -> (forall tid, triple tid None (fun _ => True) p None (fun _ _ => True)) -> sysOk (addThread s p).
Proof. intros Hs Hp. by apply sysOk_addNext. Qed.

(** Two threads of a system hold different mutexes. *)
Lemma held_apart locks tid tid' lk lk' :
  tid <> tid' -> (forall key, lk = Some key <-> locks !! key = Some tid) ->
  (forall key, lk' = Some key <-> (locks : gmap string nat) !! key = Some tid') -> apart lk lk'.
Proof. intros Hne H H' key Hk Hk'. apply H in Hk. apply H' in Hk'. congruence. Qed.

Lemma sysOk_vis s tid e k lk P x w a :
  sysOk s -> sy_threads s !! tid = Some (Vis e k) ->
  stable tid lk P -> P (sy_world s) -> triple tid lk P (Vis e k) None (fun _ _ => True) ->
  (forall key, lk = Some key <-> sy_locks s !! key = Some tid) ->
  perform tid e x (sy_world s) = Some (w, a) ->
  sysOk (mkSys w (sy_locks s) (<[tid := k a]> (sy_threads s)) (sy_next s)).
Proof.
  intros [Hi Ht Hf Ho] Htid Hst HP [Hpre Hk] Hlk Hperf. split; simpl.
  - eauto.
  - intros tid' q [[<- <-]|[Hne Hq]]%lookup_insert_Some.
    + exists lk, (post tid lk e a P). split_and!; [| |apply Hk|done].
      * intros w1 w2 (w0 & x0 & w3 & ? & ? & ? & ?) ?. exists w0, x0, w3. eauto.
      * exists (sy_world s), x, w. eauto.
    + destruct (Ht _ _ Hq) as (lk' & P' & Hst' & HP' & Htr' & Hlk').
      exists lk', P'. split_and!; [done| |done|done].
      eapply Hst'; [exact HP'|]. eapply perform_rely; eauto using held_apart.
  - intros tid' Hn. rewrite lookup_insert_ne; [auto|]. intros <-. rewrite Hf in Htid; done.
  - intros key t' Hkey. destruct (decide (tid = t')) as [->|]; [rewrite lookup_insert_eq|rewrite lookup_insert_ne by done]; eauto.
Qed.

Lemma sysOk_lock s tid key k :
  sysOk s -> sy_threads s !! tid = Some (Lock key k) -> sy_locks s !! key = None ->
  sysOk (mkSys (sy_world s) (<[key := tid]> (sy_locks s)) (<[tid := k]> (sy_threads s)) (sy_next s)).
Proof.
  intros [Hi Ht Hf Ho] Htid Hfree.
  destruct (Ht _ _ Htid) as (lk & P & Hst & HP & [-> Hk] & Hlk). split; simpl; [done| | |].
  - intros tid' q [[<- <-]|[Hne Hq]]%lookup_insert_Some.
    + exists (Some key), P. split_and!; [|done|done|].
      * intros w1 w2 H1 H2. eauto.
      * intros key'. simpl. split; [intros [= <-]; by rewrite lookup_insert_eq|].
        intros [[<- ?]|[? Hk']]%lookup_insert_Some; [done|]. by apply Hlk in Hk'.
    + apply (threadOk_locks s); [done| |apply Ht, Hq]. intros key'. simpl. rewrite lookup_insert_Some. split; [|intros [[??]|[??]]; [by subst|done]].
      intros Hl. right. split; [|done]. intros <-. congruence.
  - intros tid' Hn. rewrite lookup_insert_ne; [auto|]. intros <-. rewrite Hf in Htid; done.
  - intros key' t' Hl. destruct (decide (tid = t')) as [->|Hne]; [rewrite lookup_insert_eq; eauto|].
    rewrite lookup_insert_ne by done. apply lookup_insert_Some in Hl as [[? ?]|[? ?]]; [done|eauto].
Qed.

Lemma sysOk_unlock s tid key k :
  sysOk s -> sy_threads s !! tid = Some (Unlock key k) ->
  sysOk (mkSys (sy_world s) (delete key (sy_locks s)) (<[tid := k]> (sy_threads s)) (sy_next s)).
Proof.
  intros [Hi Ht Hf Ho] Htid.
  destruct (Ht _ _ Htid) as (lk & P & Hst & HP & [-> Hk] & Hlk). split; simpl; [done| | |].
  - intros tid' q [[<- <-]|[Hne Hq]]%lookup_insert_Some.
    + exists None, (relaxed tid P). split_and!; [| |done|].
      * intros w1 w2 (w0 & ? & ?) ?. exists w0. eauto.
      * exists (sy_world s). eauto.
      * intros key'. split; [done|]. simpl. intros [Hd Hl]%lookup_delete_Some. apply Hlk in Hl. congruence.
    + apply (threadOk_locks s); [done| |apply Ht, Hq]. intros key'. simpl. rewrite lookup_delete_Some. split; [|by intros [? ?]].
      intros Hl. split; [|done]. intros <-. assert (sy_locks s !! key = Some tid) by (by apply Hlk). congruence.
  - intros tid' Hn. rewrite lookup_insert_ne; [auto|]. intros <-. rewrite Hf in Htid; done.
  - intros key' t' [_ Hl]%lookup_delete_Some.
    destruct (decide (tid = t')) as [->|Hne]; [rewrite lookup_insert_eq|rewrite lookup_insert_ne by done]; eauto.
Qed.

Lemma sysOk_setThread s tid p q :
  sysOk s -> sy_threads s !! tid = Some p -> threadOk s tid q -> sysOk (setThread s tid q).
Proof.
  intros [Hi Ht Hf Ho] Htid Hq. split; simpl; [done| | |].
  - intros tid' r [[<- <-]|[Hne Hr]]%lookup_insert_Some; by apply (threadOk_locks s); [| |eauto].
  - intros tid' Hn. rewrite lookup_insert_ne; [auto|]. intros <-. rewrite Hf in Htid; done.
  - intros key t' Hl. destruct (decide (tid = t')) as [->|Hne]; [rewrite lookup_insert_eq|rewrite lookup_insert_ne by done]; eauto.
Qed.

Lemma sysOk_runThread tid x s : sysOk s -> sysOk (runThread tid x s).
Proof.
  intros Hs. unfold runThread. destruct (sy_threads s !! tid) as [p|] eqn:Htid; [|done].
  destruct (ok_threads _ Hs _ _ Htid) as (lk & P & Hst & HP & Htr & Hlk).
  destruct p as [[]|e k|key k|key k|q k].
  - destruct Hs as [Hi Ht Hf Ho]. split; simpl; [done| | |].
    + intros tid' q [Hne Hq]%lookup_delete_Some. by apply (threadOk_locks s); [| |eauto].
    + intros tid' Hn. rewrite lookup_delete_None. auto.
    + intros key t' Hl. rewrite lookup_delete_ne; [eauto|]. intros <-. apply Hlk in Hl.
      destruct Htr as [-> _]. done.
  - destruct (perform tid e x (sy_world s)) as [[w a]|] eqn:Hperf; [|done]. eauto using sysOk_vis.
  - destruct (sy_locks s !! key) eqn:Hkey; [done|]. by apply sysOk_lock.
  - by apply sysOk_unlock.
  - destruct Htr as [Hq Hk]. apply sysOk_addThread; [|done].
    eapply sysOk_setThread; [done..|]. exists lk, P. eauto.
Qed.

(** In a sound system, a thread about to perform an event satisfies its precondition. *)
Lemma sysOk_pre s tid e k :
  sysOk s -> sy_threads s !! tid = Some (Vis e k) ->
  exists lk, pre tid lk e (sy_world s) /\ forall key, lk = Some key -> sy_locks s !! key = Some tid.
Proof.
  intros Hs Htid. destruct (ok_threads _ Hs _ _ Htid) as (lk & P & Hst & HP & [Hpre _] & Hlk).
  exists lk. split; [apply Hpre; [apply (ok_inv _ Hs)|done]|]. intros key. apply Hlk.
Qed.

End Conc.

Arguments Ret {Ev resp A} a.
Arguments Vis {Ev resp A} e k.
Arguments Lock {Ev resp A} key k.
Arguments Unlock {Ev resp A} key k.
Arguments Fork {Ev resp A} p k.
Arguments pbind {Ev resp A B} p f.
Arguments trigger {Ev resp} e.
Arguments mkSys {Ev resp W} _ _ _ _.
Arguments sy_world {Ev resp W} _.
Arguments sy_locks {Ev resp W} _.
Arguments sy_threads {Ev resp W} _.
Arguments sy_next {Ev resp W} _.
Arguments addThread {Ev resp W} s p.
Arguments runThread {Ev resp W Input} perform tid x s.

#[global] Arguments triple : simpl never.

Notation "'let*' x := p 'in' k" := (pbind p (fun x => k))
  (at level 10, x pattern, p at level 100, k at level 200) : go_scope.
Notation "p ';*' k" := (pbind p (fun _ => k)) (at level 100, k at level 200, right associativity) : go_scope.
