(* ===== verification/Along.v ===== *)
(** Reasoning about one sequential program of Conc, whatever the outside world answers: the events it has
    seen with their answers, the events it can reach, and a logic that shows that each event it reaches is
    allowed by what it has seen before it. The executor gate and the FleetAction controller use it. *)

From S2P Require Import Prelude.
From S2P Require Import Conc.

Section Along.
Context {Ev : Type} {resp : Ev -> Type}.
Notation P := (prog resp).

(** An event with its answer. *)
Inductive Obs := Seen (e : Ev) (a : resp e).

(** [ans e a]: [a] may be an answer to [e]. [J h e]: after [h] the event [e] is allowed. *)
Context (ans : forall e : Ev, resp e -> Prop) (J : list Obs -> Ev -> Prop).

(** Every event of [p] is allowed, and [Q] holds of what it has seen and returns. *)
Fixpoint along {A : Type} (p : P A) (h : list Obs) (Q : list Obs -> A -> Prop) : Prop :=
  match p with
  | Ret a => Q h a
  | Vis e k => J h e /\ forall a, ans e a -> along (k a) (h ++ [Seen e a]) Q
  | Lock _ k | Unlock _ k => along k h Q
  | Fork _ _ => False
  end.

Lemma along_conseq {A : Type} (p : P A) h (Q Q' : list Obs -> A -> Prop) :
  (forall h' a, Q h' a -> Q' h' a) -> along p h Q -> along p h Q'.
Proof.
  intros HQ. revert h. induction p as [A a|A e k IH|A key k IH|A key k IH|A q _ k IH]; simpl; intros h; eauto.
  intros [HJ Hk]. split; [done|]. intros a Ha. eauto.
Qed.

Lemma along_bind {A B : Type} (p : P A) (f : A -> P B) h Q R :
  along p h Q -> (forall h' a, Q h' a -> along (f a) h' R) -> along (pbind p f) h R.
Proof.
  revert h f Q. induction p as [A a|A e k IH|A key k IH|A key k IH|A q _ k IH]; simpl; intros h f Q; eauto.
  intros [HJ Hk] Hf. split; [done|]. intros a Ha. eauto.
Qed.

Lemma along_event {A : Type} e (f : resp e -> P A) h R :
  J h e -> (forall a, ans e a -> along (f a) (h ++ [Seen e a]) R) -> along (pbind (trigger e) f) h R.
Proof. intros HJ Hf. split; [done|]. exact Hf. Qed.

(** What is seen only grows. *)
Definition seenMore (h h' : list Obs) : Prop := exists l, h' = h ++ l.

Lemma along_grows {A : Type} (p : P A) h Q : along p h Q -> along p h (fun h' a => seenMore h h' /\ Q h' a).
Proof.
  revert h. induction p as [A a|A e k IH|A key k IH|A key k IH|A q _ k IH]; simpl; intros h; eauto.
  - intros HQ. split; [exists []; by rewrite app_nil_r|done].
  - intros [HJ Hk]. split; [done|]. intros a Ha. eapply along_conseq; [|exact (IH _ _ _ (Hk a Ha))].
    intros h' x [[l ->] Hx]. split; [|done]. exists (Seen e a :: l). by rewrite <- app_assoc.
Qed.

(** ** What a program can reach *)

(** [reaches p h h' e]: run from [h], with answers of the world, [p] comes to the event [e] having seen [h']. *)
Inductive reaches {A : Type} : P A -> list Obs -> list Obs -> Ev -> Prop :=
| reaches_here e k h : reaches (Vis e k) h h e
| reaches_next e k h a h' e' : ans e a -> reaches (k a) (h ++ [Seen e a]) h' e' -> reaches (Vis e k) h h' e'
| reaches_lock key k h h' e' : reaches k h h' e' -> reaches (Lock key k) h h' e'
| reaches_unlock key k h h' e' : reaches k h h' e' -> reaches (Unlock key k) h h' e'.

(** The logic is sound: what the program comes to is allowed. *)
Lemma along_reaches {A : Type} (p : P A) h Q h' e : along p h Q -> reaches p h h' e -> J h' e.
Proof. intros Ha Hr. induction Hr as [e k h|e k h a h' e' Hans _ IH|? ? ? ? ? _ IH|? ? ? ? ? _ IH]; [apply Ha|apply IH, Ha, Hans|by apply IH..]. Qed.

Lemma reaches_seen {A : Type} (p : P A) h h' e : reaches p h h' e -> seenMore h h'.
Proof.
  intros Hr. induction Hr as [e k h|e k h a h' e' Hans _ [l ->]|? ? ? ? ? _ IH|? ? ? ? ? _ IH]; [exists []; by rewrite app_nil_r| |done..].
  exists (Seen e a :: l). by rewrite <- app_assoc.
Qed.

(** What was seen on the way was come to. *)
Lemma reaches_asked {A : Type} (p : P A) h h' e' e a : reaches p h h' e' -> Seen e a ∈ h' ->
  Seen e a ∈ h \/ exists h1, reaches p h h1 e /\ seenMore h1 h'.
Proof.
  intros Hr Hin. induction Hr as [e0 k h|e0 k h a0 h' e' Hans Hr IH|? ? ? ? ? _ IH|? ? ? ? ? _ IH]; [by left| | |].
  - destruct (IH Hin) as [Hs|(h1 & H1 & H2)].
    + apply elem_of_app in Hs as [Hs|Hs%list_elem_of_singleton]; [by left|right]. injection Hs as -> _.
      exists h. split; [constructor|]. destruct (reaches_seen _ _ _ _ Hr) as [l ->]. exists ([Seen e0 a0] ++ l). by rewrite app_assoc.
    + right. exists h1. split; [by econstructor|done].
  - destruct (IH Hin) as [Hs|(h1 & H1 & H2)]; [by left|right]. exists h1. split; [by constructor|done].
  - destruct (IH Hin) as [Hs|(h1 & H1 & H2)]; [by left|right]. exists h1. split; [by constructor|done].
Qed.


Lemma reaches_answered {A : Type} (p : P A) h h' e' e a : reaches p h h' e' -> Seen e a ∈ h' -> Seen e a ∈ h \/ ans e a.
Proof.
  intros Hr Hin. induction Hr as [e0 k h|e0 k h a0 h' e' Hans Hr IH|? ? ? ? ? _ IH|? ? ? ? ? _ IH]; [by left| |by apply IH..].
  destruct (IH Hin) as [Hs|Hs]; [|by right]. apply elem_of_app in Hs as [Hs|Hs%list_elem_of_singleton]; [by left|right].
  change (match Seen e a with Seen e a => ans e a end). by rewrite Hs.
Qed.

(** Run [p] with the answers of an oracle, and stop at the event of which [stop] holds: what was seen, and
    the event. *)
Fixpoint runUntil {A : Type} (oracle : list Obs -> forall e, resp e) (stop : list Obs -> Ev -> bool) (p : P A) (h : list Obs)
    : option (list Obs * Ev) :=
  match p with
  | Ret _ => None
  | Vis e k => if stop h e then Some (h, e) else let a := oracle h e in runUntil oracle stop (k a) (h ++ [Seen e a])
  | Lock _ k | Unlock _ k => runUntil oracle stop k h
  | Fork _ _ => None
  end.

Lemma runUntil_reaches {A : Type} oracle stop (p : P A) h h' e :
  (forall h e, ans e (oracle h e)) -> runUntil oracle stop p h = Some (h', e) -> reaches p h h' e.
Proof.
  intros Ho. revert h. induction p as [A a|A e0 k IH|A key k IH|A key k IH|A q _ k IH]; intros h; simpl; try done.
  - destruct (stop h e0); [intros [= <- <-]; constructor|]. intros Hr. eapply reaches_next; [apply Ho|by apply IH].
  - intros Hr. constructor. by apply IH.
  - intros Hr. constructor. by apply IH.
Qed.

(** Run with the answers of an oracle, [p] comes to a first event of which [stop] holds, and then [Q] holds,
    or ends, and then [R] holds. *)
Fixpoint finds {A : Type} (oracle : list Obs -> forall e, resp e) (stop : Ev -> bool) (p : P A) (h : list Obs)
    (Q : list Obs -> Ev -> Prop) (R : list Obs -> A -> Prop) : Prop :=
  match p with
  | Ret a => R h a
  | Vis e k => if stop e then Q h e else let a := oracle h e in finds oracle stop (k a) (h ++ [Seen e a]) Q R
  | Lock _ k | Unlock _ k => finds oracle stop k h Q R
  | Fork _ _ => False
  end.

Lemma finds_bind {A B : Type} oracle stop (p : P A) (f : A -> P B) h Q R S :
  finds oracle stop p h Q R -> (forall h' a, R h' a -> finds oracle stop (f a) h' Q S) -> finds oracle stop (pbind p f) h Q S.
Proof.
  revert h f R. induction p as [A a|A e k IH|A key k IH|A key k IH|A q _ k IH]; simpl; intros h f R; eauto.
  destruct (stop e); [done|]. intros Hk Hf. eauto.
Qed.

Lemma finds_event {A : Type} oracle stop e (f : resp e -> P A) h Q R :
  stop e = false -> finds oracle stop (f (oracle h e)) (h ++ [Seen e (oracle h e)]) Q R -> finds oracle stop (pbind (trigger e) f) h Q R.
Proof. intros Hs Hf. simpl. by rewrite Hs. Qed.

Lemma finds_runUntil {A : Type} oracle stop (p : P A) h Q : finds oracle stop p h Q (fun _ _ => False) ->
  exists h' e, runUntil oracle (fun _ => stop) p h = Some (h', e) /\ stop e = true /\ Q h' e.
Proof.
  revert h. induction p as [A a|A e k IH|A key k IH|A key k IH|A q _ k IH]; intros h; simpl; try done; [|apply IH..].
  destruct (stop e) eqn:E; [|apply IH]. by exists h, e.
Qed.

(** [returns p h h' a]: run from [h], with answers of the world, [p] ends with [a], having seen [h']. *)
Inductive returns {A : Type} : P A -> list Obs -> list Obs -> A -> Prop :=
| returns_ret a h : returns (Ret a) h h a
| returns_event e k h a h' x : ans e a -> returns (k a) (h ++ [Seen e a]) h' x -> returns (Vis e k) h h' x
| returns_lock key k h h' x : returns k h h' x -> returns (Lock key k) h h' x
| returns_unlock key k h h' x : returns k h h' x -> returns (Unlock key k) h h' x.

Lemma along_returns {A : Type} (p : P A) h Q h' a : along p h Q -> returns p h h' a -> Q h' a.
Proof. intros Ha Hr. induction Hr as [a h|e k h a h' x Hans _ IH|? ? ? ? ? _ IH|? ? ? ? ? _ IH]; [done|apply IH, Ha, Hans|by apply IH..]. Qed.

(** Run [p] to its end with the answers of an oracle. *)
Fixpoint runEnd {A : Type} (oracle : list Obs -> forall e, resp e) (p : P A) (h : list Obs) : option (list Obs * A) :=
  match p with
  | Ret a => Some (h, a)
  | Vis e k => let a := oracle h e in runEnd oracle (k a) (h ++ [Seen e a])
  | Lock _ k | Unlock _ k => runEnd oracle k h
  | Fork _ _ => None
  end.

Lemma runEnd_returns {A : Type} oracle (p : P A) h h' x : (forall h e, ans e (oracle h e)) -> runEnd oracle p h = Some (h', x) -> returns p h h' x.
Proof.
  intros Ho. revert h. induction p as [A a|A e0 k IH|A key k IH|A key k IH|A q _ k IH]; intros h; simpl; try done.
  - intros [= <- <-]. constructor.
  - intros Hr. eapply returns_event; [apply Ho|by apply IH].
  - intros Hr. constructor. by apply IH.
  - intros Hr. constructor. by apply IH.
Qed.

Lemma seen_refl h : seenMore h h.
Proof. exists []. by rewrite app_nil_r. Qed.

Lemma seen_app h l : seenMore h (h ++ l).
Proof. by exists l. Qed.

Lemma seen_trans h1 h2 h3 : seenMore h1 h2 -> seenMore h2 h3 -> seenMore h1 h3.
Proof. intros [l ->] [l' ->]. exists (l ++ l'). by rewrite app_assoc. Qed.

Lemma seen_elem h h' o : seenMore h h' -> o ∈ h -> o ∈ h'.
Proof. intros [l ->] Ho. apply elem_of_app. by left. Qed.

Lemma seen_last (h : list Obs) o : o ∈ h ++ [o].
Proof. apply elem_of_app. right. by left. Qed.
End Along.

Arguments Obs {Ev} resp.
Arguments Seen {Ev resp} e a.
Arguments reaches {Ev resp} ans {A}.
Arguments runUntil {Ev resp A}.
Arguments returns {Ev resp} ans {A}.
Arguments runEnd {Ev resp A}.
Arguments finds {Ev resp A}.

Lemma along_weaken {Ev : Type} {resp : Ev -> Type} {A : Type} ans (J J' : list (Obs resp) -> Ev -> Prop) (p : prog resp A) h Q :
  (forall h e, J h e -> J' h e) -> along ans J p h Q -> along ans J' p h Q.
Proof.
  intros HJ. revert h. induction p as [A a|A e k IH|A key k IH|A key k IH|A q _ k IH]; simpl; intros h; eauto.
  intros [He Hk]. split; [auto|]. intros a Ha. eauto.
Qed.
