(* ===== verification/Par.v ===== *)
(** Goroutines that are joined: programs of Conc run call by call in an order the scheduler chooses. What
    holds of each on its own holds of all of them together, when what they are allowed and what they
    promise depends on what was seen, and not on when. *)

From S2P Require Import Prelude.
From S2P Require Import Conc.
From S2P Require Import Along.

Section Par.
Context {Ev : Type} {resp : Ev -> Type} (pick : Ev) (left : resp pick -> bool).
Notation P := (prog resp).

(** [pick]: the scheduler says which of the two makes its next call. *)
Fixpoint par {A B : Type} (p : P A) : P B -> P (A * B) :=
  match p with
  | Ret a => fun q => pbind q (fun b => Ret (a, b))
  | Vis e k =>
      fix inner (q : P B) : P (A * B) :=
        match q with
        | Ret b => pbind (Vis e k) (fun a => Ret (a, b))
        | Vis e' k' => Vis pick (fun c => if left c then Vis e (fun x => par (k x) (Vis e' k')) else Vis e' (fun y => inner (k' y)))
        | Lock key q => Lock key (inner q)
        | Unlock key q => Unlock key (inner q)
        | Fork r q => Fork r (inner q)
        end
  | Lock key p => fun q => Lock key (par p q)
  | Unlock key p => fun q => Unlock key (par p q)
  | Fork r p => fun q => Fork r (par p q)
  end.

(** One goroutine per program; the results in the order of the programs. *)
Fixpoint parAll {A : Type} (ps : list (P A)) : P (list A) :=
  match ps with
  | [] => Ret []
  | p :: ps => pbind (par p (parAll ps)) (fun x => Ret (x.1 :: x.2))
  end.

(** ** The logic *)

Context (ans : forall e : Ev, resp e -> Prop) (J : list (Obs resp) -> Ev -> Prop).
Notation run := (along ans J).

(** What was seen in any order. *)
Definition stable (Q : list (Obs resp) -> Prop) : Prop := forall h h', h ⊆ h' -> Q h -> Q h'.

Context (Jstable : forall e, stable (fun h => J h e)) (Jpick : forall h, J h pick).

Lemma sees_app (h h' : list (Obs resp)) o : h ⊆ h' -> h ++ [o] ⊆ h' ++ [o].
Proof. intros Hs x [Hx|Hx]%elem_of_app; apply elem_of_app; [left; by apply Hs|by right]. Qed.

Lemma sees_more (h h' : list (Obs resp)) l : h ⊆ h' -> h ⊆ h' ++ l.
Proof. intros Hs x Hx. apply elem_of_app. left. by apply Hs. Qed.

(** A program among others: it has seen [h] of its own, and all of them [h']. *)
Lemma along_among {A : Type} (p : P A) h h' (Q : list (Obs resp) -> A -> Prop) :
  (forall a, stable (fun h => Q h a)) -> h ⊆ h' -> run p h Q -> run p h' Q.
Proof.
  intros HQ. revert h h'. induction p as [A a|A e k IH|A key k IH|A key k IH|A q _ k IH]; simpl; intros h h' Hs; eauto.
  - by apply HQ.
  - intros [HJ Hk]. split; [by eapply Jstable|]. intros a Ha. apply (IH a Q HQ (h ++ [Seen e a])); [by apply sees_app|by apply Hk].
Qed.

Lemma along_pair {A B : Type} (q : P B) h (Q : list (Obs resp) -> A -> Prop) (R : list (Obs resp) -> B -> Prop) a :
  (forall a, stable (fun h => Q h a)) -> run q h R -> Q h a -> run (pbind q (fun b => Ret (a, b))) h (fun h' x => Q h' x.1 /\ R h' x.2).
Proof.
  intros HQ Hq Ha. eapply along_bind; [exact (along_grows _ _ _ _ _ Hq)|]. intros h' b [[l ->] Hb]. split; [|done]. eapply HQ; [|exact Ha]. by apply sees_more.
Qed.

Lemma along_pair' {A B : Type} (p : P A) h (Q : list (Obs resp) -> A -> Prop) (R : list (Obs resp) -> B -> Prop) b :
  (forall b, stable (fun h => R h b)) -> run p h Q -> R h b -> run (pbind p (fun a => Ret (a, b))) h (fun h' x => Q h' x.1 /\ R h' x.2).
Proof.
  intros HR Hp Hb. eapply along_bind; [exact (along_grows _ _ _ _ _ Hp)|]. intros h' a [[l ->] Ha]. split; [done|]. eapply HR; [|exact Hb]. by apply sees_more.
Qed.

Lemma along_par {A B : Type} (p : P A) (q : P B) h (Q : list (Obs resp) -> A -> Prop) (R : list (Obs resp) -> B -> Prop) :
  (forall a, stable (fun h => Q h a)) -> (forall b, stable (fun h => R h b)) -> run p h Q -> run q h R ->
  run (par p q) h (fun h' x => Q h' x.1 /\ R h' x.2).
Proof.
  intros HQ HR. revert B R HR q h. induction p as [A a|A e k IH|A key k IH|A key k IH|A r _ k IH]; intros B R HR q h Hp Hq.
  - by apply along_pair.
  - revert h Hp Hq. induction q as [B b|B e' k' IHq|B key k' IHq|B key k' IHq|B r _ k' IHq]; intros h Hp Hq.
    + by apply along_pair'.
    + simpl. split; [apply Jpick|]. intros c Hc. set (h1 := h ++ _). assert (Hs : h ⊆ h1) by (by apply sees_more).
      assert (Hp1 : run (Vis e k) h1 Q) by (by eapply along_among). assert (Hq1 : run (Vis e' k') h1 R) by (by eapply along_among).
      destruct (left c).
      * destruct Hp1 as [HJ Hk]. split; [done|]. intros x Hx. apply IH; [done|done|by apply Hk|]. eapply along_among; [done| |exact Hq1]. by apply sees_more.
      * destruct Hq1 as [HJ Hk]. split; [done|]. intros x Hx. apply IHq; [done| |by apply Hk]. eapply along_among; [done| |exact Hp1]. by apply sees_more.
    + by apply IHq.
    + by apply IHq.
    + done.
  - by apply IH.
  - by apply IH.
  - done.
Qed.

Lemma stable_Forall {A : Type} (R : A -> list (Obs resp) -> Prop) (xs : list A) : (forall a, stable (R a)) -> stable (fun h => Forall (fun x => R x h) xs).
Proof. intros HR h h' Hs Hx. eapply Forall_impl; [exact Hx|]. intros a. by apply HR. Qed.

(** [Q x h a]: of the goroutine for [x], that it promises [a] on what was seen. *)
Lemma along_parAll {X A : Type} (f : X -> P A) (Q : X -> list (Obs resp) -> A -> Prop) (xs : list X) h :
  (forall x a, stable (fun h => Q x h a)) -> (forall x, x ∈ xs -> run (f x) h (Q x)) ->
  run (parAll (map f xs)) h (fun h' l => Forall2 (fun x a => Q x h' a) xs l).
Proof.
  intros HQ. induction xs as [|x xs IH]; intros Hx; [constructor|]. simpl.
  eapply along_bind; [apply along_par with (Q := Q x) (R := fun h' l => Forall2 (fun x a => Q x h' a) xs l)|].
  - by apply HQ.
  - intros l h1 h2 Hs Hl. eapply Forall2_impl; [exact Hl|]. intros y a. by apply HQ.
  - apply Hx. by left.
  - apply IH. intros y Hy. apply Hx. by right.
  - intros h' [a l] [Ha Hl]. by constructor.
Qed.
End Par.
