(* ===== verification/Tde.v ===== *)
(** The Traffic Deconfliction Engine's per-zone state (src/internal/tde): the reservation list with
    its capacity count and preemption choice, and the shared-resource queues with their policy
    order, release and backfill. The engine's handlers over the whole zone map are in TdeEngine. *)

From S2P Require Import Prelude.
From S2P Require Import Types.

(** ** Results, requests and configuration (tde.go) *)

Definition ReservationStatus : Type := string.
Definition Granted : ReservationStatus := "Granted".
Definition Denied : ReservationStatus := "Denied".
Definition PreemptedGranted : ReservationStatus := "PreemptedGranted".

Definition DeniedZoneCapacity : string := "zone_capacity".
Definition DeniedResourceUnavailable : string := "resource_unavailable".
Definition DeniedTDEUnavailable : string := "tde_unavailable".

Record ResourceRequest := mkResourceRequest {
  rr_ResourceName : string;
  rr_ZoneName : string;
  rr_EstimatedDurationSeconds : option Z
}.

Record ReservationRequest := mkReservationRequest {
  rq_ActionID : string;
  rq_RobotID : string;
  rq_Namespace : string;
  rq_TargetZone : string;
  rq_Priority : ActionPriority;
  rq_Resources : list ResourceRequest;
  rq_MayEvict : option (string -> bool)
}.

Record ReservationResult := mkReservationResult {
  rs_Status : ReservationStatus;
  rs_ExpiresAt : Time;
  rs_DeniedReason : string;
  rs_RetryAfter : Duration;
  rs_PreemptedActionIDs : list string
}.

Record ZoneReservationStatus := mkZoneReservationStatus {
  zrs_Occupied : Z;
  zrs_Reserved : Z;
  zrs_Max : Z
}.

Record Config := mkConfig {
  ReservationTTL : Duration;
  DisconnectedReservationTTL : Duration;
  ClockSkew : Duration
}.

Definition DefaultConfig : Config := mkConfig (120 * Second) (360 * Second) (2 * Second).

Definition ConfigFromTDE (reservationTTLSeconds disconnectedReservationTTLSeconds : Z) : Config :=
  let cfg := DefaultConfig in
  let cfg := if 0 <? reservationTTLSeconds
             then mkConfig (reservationTTLSeconds * Second) (DisconnectedReservationTTL cfg) (ClockSkew cfg)
             else cfg in
  if 0 <? disconnectedReservationTTLSeconds
  then mkConfig (ReservationTTL cfg) (disconnectedReservationTTLSeconds * Second) (ClockSkew cfg)
  else cfg.

Definition isPreemptibleBand (p : ActionPriority) : bool :=
  (p =s ActionPriorityNormal) || (p =s ActionPriorityLow).

Definition priorityRank (p : ActionPriority) : Z :=
  if p =s ActionPriorityCritical then 1
  else if p =s ActionPriorityHigh then 2
  else if p =s ActionPriorityLow then 4
  else 3.

(** ** Reservations (engine.go) *)

Record zoneState := mkZoneState {
  zs_reservations : list ZoneReservation;
  zs_resources : gmap string SharedResourceQueue
}.

Definition emptyZoneState : zoneState := mkZoneState [] ∅.

(** A Reserved entry still counts while it has no expiry or its expiry is after [now]. *)
Definition notExpired (r : ZoneReservation) (now : Time) : bool :=
  match zr_ExpiresAt r with None => true | Some exp => now <? exp end.

Definition countStep (now : Time) (acc : Z * Z) (r : ZoneReservation) : Z * Z :=
  let '(occupied, reserved) := acc in
  if zr_State r =s ReservationOccupied then (occupied + 1, reserved)
  else if zr_State r =s ReservationReserved then
    if notExpired r now then (occupied, reserved + 1) else (occupied, reserved)
  else (occupied, reserved).

Definition counts (zs : zoneState) (now : Time) : Z * Z :=
  fold_left (countStep now) (zs_reservations zs) (0, 0).

Definition lessPreemptible (a b : ZoneReservation) : bool :=
  if negb (Bool.eqb (zr_State a =s ReservationReserved) (zr_State b =s ReservationReserved)) then
    zr_State a =s ReservationReserved
  else if negb (priorityRank (zr_Priority a) =? priorityRank (zr_Priority b)) then
    priorityRank (zr_Priority b) <? priorityRank (zr_Priority a)
  else if negb (zr_GrantedAt a =? zr_GrantedAt b) then
    zr_GrantedAt b <? zr_GrantedAt a
  else zr_ActionID a <s zr_ActionID b.

(** The two [continue]s of preempt's loop: the band rule and the caller's victim condition. *)
Definition preemptCandidate (mayEvict : option (string -> bool)) (r : ZoneReservation) : bool :=
  if negb (isPreemptibleBand (zr_Priority r)) then false
  else match mayEvict with None => true | Some f => f (zr_ActionID r) end.

(** The loop: [best] is the index of the best victim so far with its entry ([None] for -1). *)
Fixpoint preemptLoop (mayEvict : option (string -> bool)) (i : nat) (rs : list ZoneReservation)
    (best : option (nat * ZoneReservation)) : option (nat * ZoneReservation) :=
  match rs with
  | [] => best
  | r :: rs =>
      let best' :=
        if preemptCandidate mayEvict r then
          match best with
          | None => Some (i, r)
          | Some (_, b) => if lessPreemptible r b then Some (i, r) else best
          end
        else best in
      preemptLoop mayEvict (S i) rs best'
  end.

Definition preempt (zs : zoneState) (mayEvict : option (string -> bool)) : option (ZoneReservation * zoneState) :=
  match preemptLoop mayEvict 0 (zs_reservations zs) None with
  | None => None
  | Some (best, victim) =>
      Some (victim, mkZoneState (take best (zs_reservations zs) ++ drop (S best) (zs_reservations zs))
                                (zs_resources zs))
  end.

Definition appendReservation (zs : zoneState) (req : ReservationRequest) (now : Time) (cfg : Config) : zoneState :=
  mkZoneState (zs_reservations zs ++
    [ mkZoneReservation (rq_RobotID req) (rq_ActionID req) (rq_Priority req) ReservationReserved now
        (Some (now + ReservationTTL cfg)) None ]) (zs_resources zs).

Definition earliestStep (earliest : Time) (r : ZoneReservation) : Time :=
  match zr_ExpiresAt r with
  | None => earliest
  | Some exp => if time_IsZero earliest || (exp <? earliest) then exp else earliest
  end.

Definition earliestExpiry (zs : zoneState) (now : Time) (cfg : Config) : Duration :=
  let earliest := fold_left earliestStep (zs_reservations zs) 0 in
  if time_IsZero earliest then ReservationTTL cfg
  else let d := time_Sub earliest now in
       if 0 <? d then d else Second.

Definition removeByAction (rs : list ZoneReservation) (actionID : string) : list ZoneReservation :=
  List.filter (fun r => zr_ActionID r <>s actionID) rs.

(** ** Shared-resource queues (engine.go, release.go, recovery.go) *)

Definition durationOrMax (d : option Z) : Z :=
  match d with None => MaxInt32 | Some d => d end.

Definition orderBefore (a b : WaitQueueEntry) (policy : ReservationPolicy) : bool :=
  let ra := priorityRank (wq_Priority a) in
  let rb := priorityRank (wq_Priority b) in
  if negb (ra =? rb) then ra <? rb
  else
    let da := durationOrMax (wq_EstimatedDurationSeconds a) in
    let db := durationOrMax (wq_EstimatedDurationSeconds b) in
    if (policy =s ReservationPriorityWithDuration) && negb (da =? db) then da <? db
    else wq_RequestedAt a <? wq_RequestedAt b.

Definition insertByPolicy (q : SharedResourceQueue) (entry : WaitQueueEntry) (policy : ReservationPolicy) : SharedResourceQueue :=
  let wq := srq_WaitQueue q in
  let wq' :=
    if (policy =s ReservationFIFO) || (policy =s "") then wq ++ [entry]
    else
      let idx := default (length wq) (find_index (fun w => orderBefore entry w policy) wq) in
      take idx wq ++ entry :: drop idx wq in
  mkSharedResourceQueue (srq_ResourceName q) (srq_CurrentHolders q) wq'.

Definition queueHasAction (q : SharedResourceQueue) (actionID : string) : bool :=
  existsb (fun h => rh_ActionID h =s actionID) (srq_CurrentHolders q) ||
  existsb (fun w => wq_ActionID w =s actionID) (srq_WaitQueue q).

Definition queueActionIDs (q : SharedResourceQueue) : list string :=
  (rh_ActionID <$> srq_CurrentHolders q) ++ (wq_ActionID <$> srq_WaitQueue q).

Definition removeQueued (wq : list WaitQueueEntry) (actionID : string) : list WaitQueueEntry :=
  List.filter (fun w => wq_ActionID w <>s actionID) wq.

(** The holder a promoted waiter becomes. *)
Definition holderOf (now : Time) (w : WaitQueueEntry) : ResourceHolder :=
  mkResourceHolder (wq_RobotID w) (wq_ActionID w) (wq_Priority w) now.

(** The backfill loop: [for len(q.WaitQueue) > 0 && int32(len(q.CurrentHolders)) < capacity]. *)
Fixpoint backfill (now : Time) (capacity : Z) (holders : list ResourceHolder) (wq : list WaitQueueEntry)
    : list ResourceHolder * list WaitQueueEntry :=
  match wq with
  | [] => (holders, [])
  | next :: wq' =>
      if int32_of (Z.of_nat (length holders)) <? capacity
      then backfill now capacity (holders ++ [holderOf now next]) wq'
      else (holders, wq)
  end.

Definition releaseHolder (q : SharedResourceQueue) (actionID : string) (now : Time) (capacity : Z) : SharedResourceQueue :=
  let held := existsb (fun h => rh_ActionID h =s actionID) (srq_CurrentHolders q) in
  let kept := List.filter (fun h => rh_ActionID h <>s actionID) (srq_CurrentHolders q) in
  if negb held then
    mkSharedResourceQueue (srq_ResourceName q) kept (removeQueued (srq_WaitQueue q) actionID)
  else
    let '(holders, wq) := backfill now capacity kept (srq_WaitQueue q) in
    mkSharedResourceQueue (srq_ResourceName q) holders wq.

Record promotion := mkPromotion { pr_namespace : string; pr_robotID : string; pr_resource : string }.

Definition adapterHolders (q : SharedResourceQueue) : gset string :=
  list_to_set (rh_RobotID <$> List.filter (fun h => rh_ActionID h =s rh_RobotID h) (srq_CurrentHolders q)).

Definition promotedSince (namespace : string) (q : SharedResourceQueue) (before : gset string) : list promotion :=
  (fun h => mkPromotion namespace (rh_RobotID h) (srq_ResourceName q)) <$>
    List.filter (fun h => (rh_ActionID h =s rh_RobotID h) && negb (bool_decide (rh_RobotID h ∈ before)))
      (srq_CurrentHolders q).

Definition adapterEntryRobot (q : SharedResourceQueue) (id : string) : string * bool :=
  match List.find (fun h => rh_ActionID h =s id) (srq_CurrentHolders q) with
  | Some h => (rh_RobotID h, rh_RobotID h =s id)
  | None =>
      match List.find (fun w => wq_ActionID w =s id) (srq_WaitQueue q) with
      | Some w => (wq_RobotID w, wq_RobotID w =s id)
      | None => ("", false)
      end
  end.

(** [queuesSlice]: the queues in resource-name order, as FleetZone.status lists them. *)
Definition sortedResourceNames (m : gmap string SharedResourceQueue) : list string :=
  sort_Strings (elements (dom m)).

Definition queuesSlice (m : gmap string SharedResourceQueue) : list SharedResourceQueue :=
  omap (fun n => m !! n) (sortedResourceNames m).

Definition queuesFromStatus (qs : list SharedResourceQueue) : gmap string SharedResourceQueue :=
  fold_left (fun m q => <[srq_ResourceName q := q]> m) qs ∅.

(** ** Capacity count *)

Definition isOccupied (r : ZoneReservation) : bool := zr_State r =s ReservationOccupied.
Definition isLiveReserved (now : Time) (r : ZoneReservation) : bool :=
  negb (isOccupied r) && (zr_State r =s ReservationReserved) && notExpired r now.

(** An entry takes a slot at [now] when it is Occupied or a Reserved entry that has not expired. *)
Definition takesSlot (now : Time) (r : ZoneReservation) : bool := isOccupied r || isLiveReserved now r.

(** The zone's load: how many slots its entries take. *)
Definition load (now : Time) (rs : list ZoneReservation) : Z :=
  Z.of_nat (length (List.filter (takesSlot now) rs)).

Lemma counts_sum zs now :
  fst (counts zs now) + snd (counts zs now) = load now (zs_reservations zs).
Proof.
  unfold counts, load.
  assert (Hgen : forall rs o v,
    fst (fold_left (countStep now) rs (o, v)) + snd (fold_left (countStep now) rs (o, v))
    = o + v + Z.of_nat (length (List.filter (takesSlot now) rs))).
  { induction rs as [|r rs IH]; intros o v; simpl; [lia|].
    unfold takesSlot at 1, isLiveReserved, isOccupied.
    destruct (zr_State r =s ReservationOccupied), (zr_State r =s ReservationReserved),
      (notExpired r now); simpl; rewrite IH; lia. }
  rewrite Hgen. lia.
Qed.

Lemma load_app now rs1 rs2 : load now (rs1 ++ rs2) = load now rs1 + load now rs2.
Proof. unfold load. rewrite List.filter_app, length_app. lia. Qed.

Lemma load_perm now rs1 rs2 : rs1 ≡ₚ rs2 -> load now rs1 = load now rs2.
Proof.
  unfold load. intros Hp. f_equal. induction Hp; simpl; repeat case_match; simpl; lia.
Qed.

Lemma load_cons now r rs : load now (r :: rs) = Z.b2z (takesSlot now r) + load now rs.
Proof. unfold load. simpl. destruct (takesSlot now r); simpl; lia. Qed.

Lemma load_nonneg now rs : 0 <= load now rs.
Proof. unfold load. lia. Qed.

(** Dropping entries never raises the load. *)
Lemma load_filter now (p : ZoneReservation -> bool) rs : load now (List.filter p rs) <= load now rs.
Proof.
  induction rs as [|r rs IH]; [done|].
  simpl. destruct (p r); rewrite !load_cons; destruct (takesSlot now r); simpl; lia.
Qed.

(** Time only frees slots: a Reserved entry expires, an Occupied one stays. *)
Lemma load_later now now' rs : now <= now' -> load now' rs <= load now rs.
Proof.
  intros Hle. induction rs as [|r rs IH]; [done|]. rewrite !load_cons.
  assert (Z.b2z (takesSlot now' r) <= Z.b2z (takesSlot now r)); [|lia].
  unfold takesSlot, isLiveReserved, notExpired.
  destruct (isOccupied r), (zr_State r =s ReservationReserved), (zr_ExpiresAt r) as [e|]; simpl; try lia.
  destruct (now' <? e) eqn:E1, (now <? e) eqn:E2; z_bool; simpl; lia.
Qed.

Lemma fresh_takesSlot now now0 exp id rb p :
  now < exp -> takesSlot now (mkZoneReservation rb id p ReservationReserved now0 (Some exp) None) = true.
Proof. intros H. unfold takesSlot, isLiveReserved, notExpired. simpl. by apply Z.ltb_lt in H as ->. Qed.

(** ** Preemption choice *)

Lemma lessPreemptible_irrefl a : lessPreemptible a a = false.
Proof.
  unfold lessPreemptible. rewrite eqb_reflx, !Z.eqb_refl. simpl. apply string_ltb_irrefl.
Qed.

Lemma lessPreemptible_trans a b c :
  lessPreemptible a b = true -> lessPreemptible b c = true -> lessPreemptible a c = true.
Proof.
  unfold lessPreemptible.
  generalize (zr_State a =s ReservationReserved) (zr_State b =s ReservationReserved)
    (zr_State c =s ReservationReserved); intros sa sb sc.
  generalize (priorityRank (zr_Priority a)) (priorityRank (zr_Priority b)) (priorityRank (zr_Priority c));
    intros pa pb pc.
  generalize (zr_GrantedAt a) (zr_GrantedAt b) (zr_GrantedAt c); intros ga gb gc.
  destruct sa, sb, sc; simpl; try done;
  destruct (pa =? pb) eqn:?, (pb =? pc) eqn:?, (pa =? pc) eqn:?; simpl; z_bool; subst; try lia;
  destruct (ga =? gb) eqn:?, (gb =? gc) eqn:?, (ga =? gc) eqn:?; simpl; z_bool; subst; try lia;
    try apply string_ltb_trans; rewrite ?Z.ltb_lt; lia || done.
Qed.

Lemma lessPreemptible_asym a b : lessPreemptible a b = true -> lessPreemptible b a = false.
Proof.
  intros Hab. destruct (lessPreemptible b a) eqn:Hba; [|done].
  rewrite <- (lessPreemptible_irrefl a). symmetry. by eapply lessPreemptible_trans.
Qed.

(** One round of preempt's loop. *)
Definition preemptStep (me : option (string -> bool)) (i : nat) (r : ZoneReservation)
    (best : option (nat * ZoneReservation)) : option (nat * ZoneReservation) :=
  if preemptCandidate me r then
    match best with
    | None => Some (i, r)
    | Some (_, b) => if lessPreemptible r b then Some (i, r) else best
    end
  else best.

(** The loop's result improves on the best victim it started with and on every candidate it saw. *)
Definition improves (v b : ZoneReservation) : Prop := v = b \/ lessPreemptible v b = true.

Lemma improves_not_beaten v b : improves v b -> lessPreemptible b v = false.
Proof. intros [->|H]; [apply lessPreemptible_irrefl|by apply lessPreemptible_asym]. Qed.

Lemma improves_trans v b c : improves v b -> improves b c -> improves v c.
Proof. intros [->|H1] [->|H2]; unfold improves; eauto using lessPreemptible_trans. Qed.

Lemma preemptLoop_spec me (all rs : list ZoneReservation) : forall i best,
  (forall k r, rs !! k = Some r -> all !! (i + k)%nat = Some r) ->
  (forall j v, best = Some (j, v) -> all !! j = Some v /\ preemptCandidate me v = true) ->
  match preemptLoop me i rs best with
  | None => best = None /\ forall r, r ∈ rs -> preemptCandidate me r = false
  | Some (j, v) =>
      all !! j = Some v /\ preemptCandidate me v = true /\
      (forall k b, best = Some (k, b) -> improves v b) /\
      (forall r, r ∈ rs -> preemptCandidate me r = true -> lessPreemptible r v = false)
  end.
Proof.
  induction rs as [|r rs IH]; intros i best Hall Hb; simpl.
  - destruct best as [[j v]|]; [|by split; [done|intros r Hr%not_elem_of_nil]].
    destruct (Hb j v eq_refl). split_and!; [done|done| |by intros r Hr%not_elem_of_nil].
    intros k b [= -> ->]. by left.
  - assert (Hr : all !! i = Some r) by (rewrite <- (Hall O r eq_refl); f_equal; lia).
    change (if preemptCandidate me r then _ else best) with (preemptStep me i r best).
    assert (Hstep : forall j v, preemptStep me i r best = Some (j, v) ->
              all !! j = Some v /\ preemptCandidate me v = true).
    { intros j v. unfold preemptStep. destruct (preemptCandidate me r) eqn:Hc; [|apply Hb].
      destruct best as [[k b]|]; [destruct (lessPreemptible r b)|]; intros ?; simplify_eq; eauto. }
    assert (Hrs : forall k r0, rs !! k = Some r0 -> all !! (S i + k)%nat = Some r0).
    { intros k r0 Hk. rewrite <- (Hall (S k) r0 Hk). f_equal; lia. }
    specialize (IH (S i) (preemptStep me i r best) Hrs Hstep).
    destruct (preemptLoop me (S i) rs (preemptStep me i r best)) as [[j v]|].
    + destruct IH as (Hj & Hc & Himp & Hrest). unfold preemptStep in Himp.
      split_and!; [done|done| |].
      * intros k b ->. destruct (preemptCandidate me r); [|by eapply Himp].
        destruct (lessPreemptible r b) eqn:Hlt; [|by eapply Himp].
        eapply improves_trans; [by eapply Himp|by right].
      * intros r' [->|Hin]%elem_of_cons Hcr; [|by apply Hrest]. rewrite Hcr in Himp.
        destruct best as [[k b]|]; [|by eapply improves_not_beaten, Himp].
        destruct (lessPreemptible r b) eqn:Hlt; [by eapply improves_not_beaten, Himp|].
        destruct (lessPreemptible r v) eqn:Hrv; [|done]. rewrite <- Hlt.
        destruct (Himp k b eq_refl) as [->|Hvb]; [done|]. symmetry. by eapply lessPreemptible_trans.
    + destruct IH as (Hn & Hc). unfold preemptStep in Hn.
      destruct (preemptCandidate me r) eqn:Hcr; [repeat case_match; done|].
      split; [done|]. intros r' [->|Hin]%elem_of_cons; [done|]. by apply Hc.
Qed.

Lemma preempt_spec zs me :
  match preempt zs me with
  | None => forall r, r ∈ zs_reservations zs -> preemptCandidate me r = false
  | Some (v, zs') =>
      preemptCandidate me v = true /\
      zs_reservations zs ≡ₚ v :: zs_reservations zs' /\
      zs_resources zs' = zs_resources zs /\
      (forall r, r ∈ zs_reservations zs -> preemptCandidate me r = true -> lessPreemptible r v = false)
  end.
Proof.
  unfold preempt.
  pose proof (preemptLoop_spec me (zs_reservations zs) (zs_reservations zs) 0 None
    (fun _ _ H => H) (fun _ _ H => ltac:(discriminate H))) as H.
  destruct (preemptLoop _ _ _ _) as [[j v]|]; [|by apply H].
  destruct H as (Hj & Hc & _ & Hall). simpl. split_and!; [done| |done|done].
  rewrite <- (take_drop_middle _ _ _ Hj) at 1. by rewrite Permutation_middle.
Qed.

(** The eviction frees exactly the slot its victim took. *)
Lemma preempt_load zs me v zs' now :
  preempt zs me = Some (v, zs') ->
  load now (zs_reservations zs) = Z.b2z (takesSlot now v) + load now (zs_reservations zs').
Proof.
  intros H. pose proof (preempt_spec zs me) as Hs. rewrite H in Hs.
  destruct Hs as (_ & Hp & _). rewrite (load_perm now _ _ Hp). apply load_cons.
Qed.

(** ** Queue order *)

(** [a] may stand ahead of [b]: the policy does not put [b] before [a]. *)
Definition aheadOk (policy : ReservationPolicy) (a b : WaitQueueEntry) : Prop :=
  orderBefore b a policy = false.

#[export] Instance aheadOk_trans policy : Transitive (aheadOk policy).
Proof.
  intros a b c. unfold aheadOk, orderBefore.
  generalize (priorityRank (wq_Priority a)) (priorityRank (wq_Priority b)) (priorityRank (wq_Priority c)).
  generalize (durationOrMax (wq_EstimatedDurationSeconds a)) (durationOrMax (wq_EstimatedDurationSeconds b))
    (durationOrMax (wq_EstimatedDurationSeconds c)).
  intros da db dc pa pb pc.
  destruct (pb =? pa) eqn:?, (pc =? pb) eqn:?, (pc =? pa) eqn:?; simpl; z_bool; subst; try lia;
  destruct (policy =s _); simpl; try lia;
  destruct (db =? da) eqn:?, (dc =? db) eqn:?, (dc =? da) eqn:?; simpl; z_bool; subst; rewrite ?Z.ltb_ge; lia.
Qed.

Lemma orderBefore_aheadOk policy a b : orderBefore a b policy = true -> aheadOk policy a b.
Proof.
  unfold aheadOk, orderBefore.
  destruct (Z.eqb_spec (priorityRank (wq_Priority a)) (priorityRank (wq_Priority b))),
    (Z.eqb_spec (priorityRank (wq_Priority b)) (priorityRank (wq_Priority a))); simpl; try lia.
  destruct (policy =s _); simpl; [|lia].
  destruct (Z.eqb_spec (durationOrMax (wq_EstimatedDurationSeconds a)) (durationOrMax (wq_EstimatedDurationSeconds b))),
    (Z.eqb_spec (durationOrMax (wq_EstimatedDurationSeconds b)) (durationOrMax (wq_EstimatedDurationSeconds a)));
    simpl; lia.
Qed.

Lemma insertByPolicy_perm q e policy :
  srq_WaitQueue (insertByPolicy q e policy) ≡ₚ e :: srq_WaitQueue q.
Proof.
  unfold insertByPolicy. simpl. case_match.
  - by rewrite Permutation_app_comm.
  - etrans; [symmetry; apply Permutation_middle|]. by rewrite take_drop.
Qed.

(** Where the insertion point falls: everything in front may stay ahead of the entry, and what
    follows may stay behind it. *)
Lemma insert_point policy e wq :
  StronglySorted (aheadOk policy) wq ->
  let idx := default (length wq) (find_index (fun w => orderBefore e w policy) wq) in
  (forall w, w ∈ take idx wq -> aheadOk policy w e) /\ (forall w, w ∈ drop idx wq -> aheadOk policy e w).
Proof.
  intros Hs idx. unfold idx. destruct (find_index _ wq) as [i|] eqn:Hf; simpl.
  - apply find_index_Some in Hf as (x & Hx & Hbx & Hmin). split.
    + intros w (j & Hj)%list_elem_of_lookup. apply lookup_take_Some in Hj as [Hj Hlt].
      by eapply Hmin.
    + intros w Hw. rewrite (drop_S _ _ _ Hx) in Hw.
      assert (Hex : aheadOk policy e x) by by apply orderBefore_aheadOk.
      apply elem_of_cons in Hw as [->|Hw]; [done|]. etrans; [exact Hex|].
      rewrite <- (take_drop_middle _ _ _ Hx) in Hs.
      apply StronglySorted_app_1_r, StronglySorted_inv in Hs as [_ Hall].
      rewrite Forall_forall in Hall. by apply Hall.
  - apply find_index_None in Hf || rewrite find_index_None in Hf.
    rewrite firstn_all, drop_all. split; [|by intros w Hw%not_elem_of_nil].
    intros w Hw. by apply Hf.
Qed.

Lemma insert_sorted_gen policy e l1 l2 :
  StronglySorted (aheadOk policy) (l1 ++ l2) ->
  (forall w, w ∈ l1 -> aheadOk policy w e) -> (forall w, w ∈ l2 -> aheadOk policy e w) ->
  StronglySorted (aheadOk policy) (l1 ++ e :: l2).
Proof.
  intros Hs H1 H2. apply StronglySorted_app. split_and!.
  - intros x1 x2 Hx1 [->|Hx2]%elem_of_cons; [by apply H1|].
    eapply StronglySorted_app_1_elem_of; eauto.
  - by eapply StronglySorted_app_1_l.
  - constructor; [by eapply StronglySorted_app_1_r|]. apply Forall_forall. intros w Hw. by apply H2.
Qed.

(** ** Queue capacity *)

(** A resource's queue under a capacity: never more holders than the capacity, and nobody waits
    while a unit is free. *)
Definition queueWf (capacity : Z) (q : SharedResourceQueue) : Prop :=
  Z.of_nat (length (srq_CurrentHolders q)) <= capacity /\
  (srq_WaitQueue q <> [] -> Z.of_nat (length (srq_CurrentHolders q)) = capacity).

Lemma backfill_spec now capacity : capacity <= MaxInt32 -> forall wq holders,
  Z.of_nat (length holders) <= capacity ->
  exists promoted wq',
    backfill now capacity holders wq = (holders ++ (holderOf now <$> promoted), wq') /\
    wq = promoted ++ wq' /\
    Z.of_nat (length holders + length promoted) <= capacity /\
    (wq' <> [] -> Z.of_nat (length holders + length promoted) = capacity).
Proof.
  intros Hc. induction wq as [|w wq IH]; intros holders Hle; simpl.
  - exists [], []. rewrite app_nil_r. split_and!; simpl; [done|done|lia|done].
  - rewrite int32_of_id by (unfold MaxInt32 in *; lia).
    destruct (Z.ltb_spec (Z.of_nat (length holders)) capacity) as [Hlt|Hge].
    + destruct (IH (holders ++ [holderOf now w])) as (pr & wq' & Hb & -> & Hl & Hfull).
      { rewrite length_app. simpl. lia. }
      exists (w :: pr), wq'. rewrite Hb. rewrite length_app in *. simpl in *.
      split_and!; [by rewrite <- app_assoc|done|lia|intros H; specialize (Hfull H); lia].
    + exists [], (w :: wq). rewrite app_nil_r. simpl. split_and!; [done|done|lia|intros _; lia].
Qed.

Lemma filter_length_le {A} (p : A -> bool) l : (length (List.filter p l) <= length l)%nat.
Proof. induction l as [|x l IH]; simpl; [lia|]. destruct (p x); simpl; lia. Qed.

(** ** Properties *)

(** The wait queue of a Priority, PriorityWithDuration or Manual resource stays in policy order:
    inserting a request into an ordered queue leaves an ordered queue (so a lower band is never
    ahead of a higher one), and adds exactly that request. *)
Theorem insertByPolicy_keeps_order policy q e
  (Hpol : (policy =s ReservationFIFO) || (policy =s "") = false)
  (Hsorted : StronglySorted (aheadOk policy) (srq_WaitQueue q)) :
  StronglySorted (aheadOk policy) (srq_WaitQueue (insertByPolicy q e policy)) /\
  srq_WaitQueue (insertByPolicy q e policy) ≡ₚ e :: srq_WaitQueue q /\
  srq_CurrentHolders (insertByPolicy q e policy) = srq_CurrentHolders q.
Proof.
  split_and!; [|apply insertByPolicy_perm|done].
  unfold insertByPolicy. simpl. rewrite Hpol.
  destruct (insert_point policy e _ Hsorted) as [H1 H2].
  apply insert_sorted_gen; [by rewrite take_drop|done|done].
Qed.

(** A corridor of two units held by two actions, with three more waiting. *)
Definition exQueue : SharedResourceQueue :=
  mkSharedResourceQueue "corridor"
    [mkResourceHolder "r1" "a1" ActionPriorityNormal 10; mkResourceHolder "r2" "a2" ActionPriorityHigh 11]
    [mkWaitQueueEntry "r3" "a3" ActionPriorityCritical 12 (Some 40);
     mkWaitQueueEntry "r4" "a4" ActionPriorityNormal 13 (Some 30);
     mkWaitQueueEntry "r5" "a5" ActionPriorityNormal 14 None].

Lemma exQueue_wf : queueWf 2 exQueue.
Proof. split; [done|]. intros _. reflexivity. Qed.

Lemma insertByPolicy_keeps_order_witness :
  let e := mkWaitQueueEntry "r6" "a6" ActionPriorityNormal 15 (Some 35) in
  let q' := insertByPolicy exQueue e ReservationPriorityWithDuration in
  map wq_RobotID (srq_WaitQueue q') = ["r3"; "r4"; "r6"; "r5"] /\
  StronglySorted (aheadOk ReservationPriorityWithDuration) (srq_WaitQueue q').
Proof.
  intros e q'. split; [vm_compute; reflexivity|].
  refine (proj1 (insertByPolicy_keeps_order ReservationPriorityWithDuration exQueue e _ _)); [reflexivity|].
  repeat (constructor; [|repeat constructor]). constructor.
Defined.

Lemma kept_fits q actionID capacity :
  Z.of_nat (length (srq_CurrentHolders q)) <= capacity ->
  Z.of_nat (length (List.filter (fun h => rh_ActionID h <>s actionID) (srq_CurrentHolders q))) <= capacity.
Proof.
  pose proof (filter_length_le (fun h => rh_ActionID h <>s actionID) (srq_CurrentHolders q)). lia.
Qed.

Lemma releaseHolder_held q actionID now capacity :
  capacity <= MaxInt32 ->
  Z.of_nat (length (srq_CurrentHolders q)) <= capacity ->
  existsb (fun h => rh_ActionID h =s actionID) (srq_CurrentHolders q) = true ->
  exists promoted rest,
    srq_WaitQueue q = promoted ++ rest /\
    releaseHolder q actionID now capacity =
      mkSharedResourceQueue (srq_ResourceName q)
        (List.filter (fun h => rh_ActionID h <>s actionID) (srq_CurrentHolders q) ++ (holderOf now <$> promoted))
        rest /\
    Z.of_nat (length (srq_CurrentHolders (releaseHolder q actionID now capacity))) <= capacity /\
    (rest <> [] -> Z.of_nat (length (srq_CurrentHolders (releaseHolder q actionID now capacity))) = capacity).
Proof.
  intros Hcap Hfit Hheld. unfold releaseHolder. rewrite Hheld. simpl.
  destruct (backfill_spec now capacity Hcap (srq_WaitQueue q) _ (kept_fits q actionID capacity Hfit))
    as (pr & rest & Hb & Hw & Hl & Hfull).
  exists pr, rest. rewrite Hb. simpl. rewrite length_app, length_fmap. by split_and!.
Qed.

(** An action that holds nothing is dropped from the wait queue and from nowhere else. *)
Lemma releaseHolder_not_held q actionID now capacity :
  existsb (fun h => rh_ActionID h =s actionID) (srq_CurrentHolders q) = false ->
  releaseHolder q actionID now capacity =
    mkSharedResourceQueue (srq_ResourceName q) (srq_CurrentHolders q) (removeQueued (srq_WaitQueue q) actionID).
Proof.
  intros Hheld. unfold releaseHolder. rewrite Hheld. simpl. f_equal.
  apply List.forallb_filter_id, forallb_forall. intros h Hin. apply negb_true_iff.
  rewrite existsb_false in Hheld. by apply Hheld, list_elem_of_In.
Qed.

Lemma releaseHolder_queueWf capacity q actionID now :
  capacity <= MaxInt32 -> queueWf capacity q -> queueWf capacity (releaseHolder q actionID now capacity).
Proof.
  intros Hcap [Hle Hwait].
  destruct (existsb (fun h => rh_ActionID h =s actionID) (srq_CurrentHolders q)) eqn:Hheld.
  - destruct (releaseHolder_held q actionID now capacity Hcap Hle Hheld) as (pr & rest & _ & Heq & Hl & Hfull).
    split; [done|]. intros Hne. apply Hfull. intros ->. apply Hne. by rewrite Heq.
  - rewrite releaseHolder_not_held by done. split; [done|]. simpl. intros Hne. apply Hwait.
    intros Heq. apply Hne. by rewrite Heq.
Qed.

Lemma filter_ne_none {A} (f : A -> string) id l :
  existsb (fun x => f x =s id) (List.filter (fun x => f x <>s id) l) = false.
Proof.
  apply existsb_false. intros x Hx%list_elem_of_In. apply filter_In in Hx as [_ Hx].
  by apply negb_true_iff in Hx.
Qed.

(** Releasing a holder backfills the freed units from the head of the wait queue: the holders
    kept are the others in order, followed by the promoted prefix of the queue; the rest of the
    queue is untouched; and it stops only when the queue is empty or the resource is full. *)
Theorem releaseHolder_backfills q actionID now capacity
  (Hcap : capacity <= MaxInt32)
  (Hwf : queueWf capacity q)
  (Hheld : existsb (fun h => rh_ActionID h =s actionID) (srq_CurrentHolders q) = true) :
  (exists promoted rest,
    srq_WaitQueue q = promoted ++ rest /\
    releaseHolder q actionID now capacity =
      mkSharedResourceQueue (srq_ResourceName q)
        (List.filter (fun h => rh_ActionID h <>s actionID) (srq_CurrentHolders q) ++ (holderOf now <$> promoted))
        rest) /\
  queueWf capacity (releaseHolder q actionID now capacity).
Proof.
  split; [|by apply releaseHolder_queueWf].
  destruct (releaseHolder_held q actionID now capacity Hcap (proj1 Hwf) Hheld) as (pr & rest & ? & ? & _). eauto.
Qed.

Lemma releaseHolder_backfills_witness :
  releaseHolder exQueue "a1" 20 2 =
    mkSharedResourceQueue "corridor"
      [mkResourceHolder "r2" "a2" ActionPriorityHigh 11; mkResourceHolder "r3" "a3" ActionPriorityCritical 20]
      (drop 1 (srq_WaitQueue exQueue)) /\
  queueWf 2 (releaseHolder exQueue "a1" 20 2).
Proof.
  split; [vm_compute; reflexivity|].
  refine (proj2 (releaseHolder_backfills exQueue "a1" 20 2 _ exQueue_wf _)); [vm_compute; discriminate|reflexivity].
Defined.

(** Releasing an action leaves no trace of it in a queue it was not both holding and waiting for:
    neither a hold nor a place in the wait queue (no leaked lift or corridor). *)
Theorem releaseHolder_forgets q actionID now capacity
  (Hcap : capacity <= MaxInt32)
  (Hfit : Z.of_nat (length (srq_CurrentHolders q)) <= capacity)
  (Honce : existsb (fun h => rh_ActionID h =s actionID) (srq_CurrentHolders q) = true ->
           existsb (fun w => wq_ActionID w =s actionID) (srq_WaitQueue q) = false) :
  queueHasAction (releaseHolder q actionID now capacity) actionID = false.
Proof.
  unfold queueHasAction. apply orb_false_iff.
  destruct (existsb (fun h => rh_ActionID h =s actionID) (srq_CurrentHolders q)) eqn:Hheld.
  - destruct (releaseHolder_held q actionID now capacity Hcap Hfit Hheld) as (pr & rest & Hw & -> & _). simpl.
    specialize (Honce eq_refl). rewrite Hw, existsb_app in Honce.
    apply orb_false_iff in Honce as [Hpr Hrest]. split; [|done].
    rewrite existsb_app, filter_ne_none. simpl.
    apply existsb_false. intros h (w & -> & Hw')%list_elem_of_fmap.
    rewrite existsb_false in Hpr. by apply Hpr.
  - rewrite releaseHolder_not_held by done. split; [done|]. apply (filter_ne_none wq_ActionID).
Qed.

Lemma releaseHolder_forgets_witness :
  queueHasAction exQueue "a2" = true /\ queueHasAction (releaseHolder exQueue "a2" 20 2) "a2" = false.
Proof.
  split; [reflexivity|].
  apply (releaseHolder_forgets exQueue "a2" 20 2); [vm_compute; discriminate|vm_compute; discriminate|reflexivity].
Defined.
