(* ===== verification/TdeEngine.v ===== *)
(** The Traffic Deconfliction Engine's handlers (src/internal/tde/engine.go, resource.go,
    release.go) over the whole zone map, against an API-server interface.

    A handler runs under the locks of the zones it involves, so it is one step on the engine's
    state. [states] is the Go map of locked zone states; the writes through its pointers are the
    [unlock] that puts the map back into [e.zones]. The clock is read once per handler. A handler
    that dereferences a nil zone state (an empty zone name, which is never locked) has no result. *)

From S2P Require Import Prelude.
From S2P Require Import Types.
From S2P Require Import RobotId.
From S2P Require Import Tde.

(** ** The API server, as the engine's client sees it *)

(** [None] is a failed call. A read answers for one moment of the server's state [W]. *)
Class ApiServer (W : Type) := {
  getFleetZone : W -> string -> string -> option FleetZone;
  listFleetZones : W -> string -> option (list FleetZone);
  listAllFleetZones : W -> option (list FleetZone);
  patchFleetZoneStatus : W -> FleetZone -> option W;
  getRobot : W -> string -> string -> option Robot;
  listRobots : W -> string -> option (list Robot)
}.

Definition withStatus (z : FleetZone) (st : FleetZoneStatus) : FleetZone :=
  mkFleetZone (fz_Name z) (fz_Namespace z) (fz_UID z) (fz_Annotations z) (fz_Spec z) st.

(** What the engine relies on of a status patch: the patched object's status is what was written,
    and no other object changes. *)
Class ApiServerLaws (W : Type) `{ApiServer W} := {
  get_named : forall w ns n z, getFleetZone w ns n = Some z -> fz_Namespace z = ns /\ fz_Name z = n;
  patch_get : forall w z w',
    patchFleetZoneStatus w z = Some w' ->
    getFleetZone w' (fz_Namespace z) (fz_Name z) =
      (fun z0 => withStatus z0 (fz_Status z)) <$> getFleetZone w (fz_Namespace z) (fz_Name z);
  patch_get_other : forall w z w' ns n,
    patchFleetZoneStatus w z = Some w' ->
    (fz_Namespace z, fz_Name z) <> (ns, n) ->
    getFleetZone w' ns n = getFleetZone w ns n;
  patch_getRobot : forall w z w' ns n,
    patchFleetZoneStatus w z = Some w' -> getRobot w' ns n = getRobot w ns n
}.

(** An in-memory server: what the concrete runs below are evaluated against. Reads of a namespace
    listed in [st_unreadable] fail. *)
Record store := mkStore {
  st_zones : gmap (string * string) FleetZone;
  st_robots : list Robot;
  st_unreadable : list string
}.

Definition storeOf (zones : list FleetZone) (robots : list Robot) : store :=
  mkStore (list_to_map ((fun z => ((fz_Namespace z, fz_Name z), z)) <$> zones)) robots [].

Definition readable (s : store) (ns : string) : bool := negb (existsb (String.eqb ns) (st_unreadable s)).

#[export] Instance store_ApiServer : ApiServer store := {|
  getFleetZone s ns n :=
    if readable s ns then
      z ← st_zones s !! (ns, n);
      if (fz_Namespace z =s ns) && (fz_Name z =s n) then Some z else None
    else None;
  listFleetZones s ns :=
    if readable s ns
    then Some (List.filter (fun z => fz_Namespace z =s ns) (map_to_list (st_zones s)).*2) else None;
  listAllFleetZones s := Some (map_to_list (st_zones s)).*2;
  patchFleetZoneStatus s z :=
    z0 ← st_zones s !! (fz_Namespace z, fz_Name z);
    Some (mkStore (<[(fz_Namespace z, fz_Name z) := withStatus z0 (fz_Status z)]> (st_zones s))
            (st_robots s) (st_unreadable s));
  getRobot s ns n :=
    if readable s ns
    then List.find (fun r => (r_Namespace r =s ns) && (r_Name r =s n)) (st_robots s) else None;
  listRobots s ns :=
    if readable s ns then Some (List.filter (fun r => r_Namespace r =s ns) (st_robots s)) else None
|}.

#[export] Instance store_ApiServerLaws : ApiServerLaws store.
Proof.
  split; simpl.
  - intros w ns n z. destruct (readable w ns); [|done].
    destruct (st_zones w !! (ns, n)) as [z'|]; [|done]. simpl.
    destruct ((fz_Namespace z' =s ns) && (fz_Name z' =s n)) eqn:E; [|done]. intros [= <-]. by str_bool.
  - intros w z w'. destruct (st_zones w !! (fz_Namespace z, fz_Name z)) as [z1|] eqn:Hz; [|done].
    simpl. intros [= <-]. unfold readable. simpl. destruct (negb _); [|done]. rewrite lookup_insert_eq. simpl.
    by destruct ((fz_Namespace z1 =s fz_Namespace z) && (fz_Name z1 =s fz_Name z)).
  - intros w z w' ns n. destruct (st_zones w !! (fz_Namespace z, fz_Name z)) as [z1|] eqn:Hz; [|done].
    simpl. intros [= <-] Hne. unfold readable. simpl. by rewrite lookup_insert_ne.
  - intros w z w' ns n. destruct (st_zones w !! (fz_Namespace z, fz_Name z)); [|done]. simpl. by intros [= <-].
Qed.

(** ** The engine *)

Record Engine := mkEngine {
  e_cfg : Config;
  e_resolver : option (string -> Config);
  e_recovered : bool;
  e_notify : bool;                               (* a GrantNotifier is installed *)
  e_zones : gmap string zoneState
}.

Definition New (cfg : Config) : Engine := mkEngine cfg None false false ∅.

Definition SetRecovered (e : Engine) (v : bool) : Engine :=
  mkEngine (e_cfg e) (e_resolver e) v (e_notify e) (e_zones e).

Definition configFor (e : Engine) (namespace : string) : Config :=
  match e_resolver e with None => e_cfg e | Some f => f namespace end.

Definition withZones (e : Engine) (m : gmap string zoneState) : Engine :=
  mkEngine (e_cfg e) (e_resolver e) (e_recovered e) (e_notify e) m.

Definition zoneKey (namespace zone : string) : string := namespace +:+ "/" +:+ zone.

(** [key[len(namespace)+1:]]. *)
Definition keyZone (namespace key : string) : string := string_drop (S (String.length namespace)) key.

Definition stateFor (e : Engine) (key : string) : Engine :=
  match e_zones e !! key with
  | Some _ => e
  | None => withZones e (<[key := emptyZoneState]> (e_zones e))
  end.

(** The keys [lockZones] locks, in the order it locks them. *)
Definition lockOrder (namespace : string) (zones : list string) : list string :=
  sort_Strings (remove_dups (zoneKey namespace <$> List.filter (fun z => z <>s "") zones)).

Definition lockZones (e : Engine) (namespace : string) (zones : list string)
    : gmap string zoneState * Engine :=
  let keys := lockOrder namespace zones in
  let e := fold_left stateFor keys e in
  (list_to_map (omap (fun k => (fun zs => (k, zs)) <$> e_zones e !! k) keys), e).

Definition unlock (e : Engine) (states : gmap string zoneState) : Engine :=
  withZones e (states ∪ e_zones e).

Section handlers.
Context {W : Type} `{ApiServer W}.

(** ** Resource declarations *)

Definition resourcePolicy (w : W) (namespace zone resourceName : string) : ReservationPolicy :=
  match getFleetZone w namespace zone with
  | None => ReservationFIFO
  | Some z =>
      default ReservationFIFO
        (first_match (fun sr => if (sr_Name sr =s resourceName) && (sr_ReservationPolicy sr <>s "")
                                then Some (sr_ReservationPolicy sr) else None)
           (fzs_SharedResources (fz_Spec z)))
  end.

Definition resourceCapacity (w : W) (namespace zone resourceName : string) : Z :=
  match getFleetZone w namespace zone with
  | None => 1
  | Some z =>
      default 1
        (first_match (fun sr => if (sr_Name sr =s resourceName) && (0 <? sr_Capacity sr)
                                then Some (sr_Capacity sr) else None)
           (fzs_SharedResources (fz_Spec z)))
  end.

Definition namespaceZones (w : W) (namespace : string) : list string :=
  match listFleetZones w namespace with None => [] | Some zl => fz_Name <$> zl end.

(** ** Mirroring to FleetZone.status *)

Definition mirroredStatus (zs : zoneState) (now : Time) : FleetZoneStatus :=
  mkFleetZoneStatus (zs_reservations zs) (queuesSlice (zs_resources zs)) (int32_of (fst (counts zs now))).

Definition mirror (w : W) (namespace zone : string) (zs : zoneState) (now : Time) : W :=
  match getFleetZone w namespace zone with
  | None => w
  | Some fz => default w (patchFleetZoneStatus w (withStatus fz (mirroredStatus zs now)))
  end.

(** The map's zones, one after the other (Go's order over a map is unspecified: by key here). *)
Definition mirrorAll (w : W) (namespace : string) (states : gmap string zoneState) (now : Time) : W :=
  fold_left (fun w key => match states !! key with
                          | None => w
                          | Some zs => mirror w namespace (keyZone namespace key) zs now
                          end)
    (sort_Strings (elements (dom states))) w.

(** ** Releasing an action's holds *)

Definition zoneHasAction (zs : zoneState) (actionID : string) : bool :=
  existsb (fun q => queueHasAction q actionID) (map_to_list (zs_resources zs)).*2.

Definition releaseZoneHolds (w : W) (namespace zoneName actionID : string) (now : Time) (zs : zoneState) : zoneState :=
  mkZoneState (zs_reservations zs)
    ((fun q => if queueHasAction q actionID
               then releaseHolder q actionID now (resourceCapacity w namespace zoneName (srq_ResourceName q))
               else q) <$> zs_resources zs).

(** The zone states after the release, and the keys of those it changed. *)
Definition releaseActionHolds (w : W) (namespace actionID : string) (states : gmap string zoneState) (now : Time)
    : gmap string zoneState * gset string :=
  (map_imap (fun key zs => Some (releaseZoneHolds w namespace (keyZone namespace key) actionID now zs)) states,
   dom (filter (fun kzs : string * zoneState => zoneHasAction kzs.2 actionID = true) states)).

(** ** Granting or queueing shared resources *)

(** Grant one unit if one is free, queue otherwise. *)
Definition grantOrQueue (q : SharedResourceQueue) (w : WaitQueueEntry) (now : Time) (capacity : Z)
    (policy : ReservationPolicy) : SharedResourceQueue :=
  if int32_of (Z.of_nat (length (srq_CurrentHolders q))) <? capacity
  then mkSharedResourceQueue (srq_ResourceName q) (srq_CurrentHolders q ++ [holderOf now w]) (srq_WaitQueue q)
  else insertByPolicy q w policy.

Definition queueOrEmpty (zs : zoneState) (resourceName : string) : SharedResourceQueue :=
  default (mkSharedResourceQueue resourceName [] []) (zs_resources zs !! resourceName).

Definition withQueue (zs : zoneState) (resourceName : string) (q : SharedResourceQueue) : zoneState :=
  mkZoneState (zs_reservations zs) (<[resourceName := q]> (zs_resources zs)).

Definition grantResource (w : W) (req : ReservationRequest) (now : Time)
    (states : gmap string zoneState) (r : ResourceRequest) : gmap string zoneState :=
  let key := zoneKey (rq_Namespace req) (rr_ZoneName r) in
  match states !! key with
  | None => states
  | Some zs =>
      let policy := resourcePolicy w (rq_Namespace req) (rr_ZoneName r) (rr_ResourceName r) in
      let capacity := resourceCapacity w (rq_Namespace req) (rr_ZoneName r) (rr_ResourceName r) in
      let entry := mkWaitQueueEntry (rq_RobotID req) (rq_ActionID req) (rq_Priority req) now
                     (rr_EstimatedDurationSeconds r) in
      let q := grantOrQueue (queueOrEmpty zs (rr_ResourceName r)) entry now capacity policy in
      <[key := withQueue zs (rr_ResourceName r) q]> states
  end.

Definition grantResources (w : W) (req : ReservationRequest) (states : gmap string zoneState) (now : Time)
    : gmap string zoneState :=
  fold_left (grantResource w req now) (rq_Resources req) states.

(** ** RequestReservation *)

Definition denied (reason : string) (retryAfter : Duration) : ReservationResult :=
  mkReservationResult Denied 0 reason retryAfter [].

(** Append the reservation to the target zone, if there is one. *)
Definition reserveTarget (req : ReservationRequest) (now : Time) (cfg : Config)
    (states : gmap string zoneState) : gmap string zoneState :=
  if rq_TargetZone req <>s "" then
    alter (fun zs => appendReservation zs req now cfg) (zoneKey (rq_Namespace req) (rq_TargetZone req)) states
  else states.

(** The tail every grant runs: append, grant or queue the resources, mirror. *)
Definition commitGrant (w : W) (e : Engine) (req : ReservationRequest) (now : Time) (cfg : Config)
    (states : gmap string zoneState) : Engine * W :=
  let states := grantResources w req (reserveTarget req now cfg states) now in
  (unlock e states, mirrorAll w (rq_Namespace req) states now).

Definition RequestReservation (w : W) (e : Engine) (req : ReservationRequest) (now : Time)
    : (ReservationResult * bool (* an error is returned beside it *)) * (Engine * W) :=
  if negb (e_recovered e) then ((denied DeniedTDEUnavailable 0, false), (e, w))
  else
    let cfg := configFor e (rq_Namespace req) in
    let zoneNames := rq_TargetZone req :: (rr_ZoneName <$> rq_Resources req) in
    let '(states, e) := lockZones e (rq_Namespace req) zoneNames in
    let granted := ((mkReservationResult Granted (now + ReservationTTL cfg) "" 0 [], false),
                    commitGrant w e req now cfg states) in
    if rq_TargetZone req =s "" then granted
    else
      let key := zoneKey (rq_Namespace req) (rq_TargetZone req) in
      match getFleetZone w (rq_Namespace req) (rq_TargetZone req), states !! key with
      | None, _ => ((denied DeniedTDEUnavailable 0, true), (e, w))
      | Some _, None => granted
      | Some zone, Some zs =>
          let '(occupied, reserved) := counts zs now in
          let maxC := fzs_MaxConcurrentRobots (fz_Spec zone) in
          if negb (maxC =? 0) && (maxC <=? occupied + reserved) then
            match (if CanPreempt (rq_Priority req) then preempt zs (rq_MayEvict req) else None) with
            | Some (victim, zs') =>
                let '(states, _) :=
                  releaseActionHolds w (rq_Namespace req) (zr_ActionID victim) (<[key := zs']> states) now in
                ((mkReservationResult PreemptedGranted (now + ReservationTTL cfg) "" 0 [zr_ActionID victim], false),
                 commitGrant w e req now cfg states)
            | None => ((denied DeniedZoneCapacity (earliestExpiry zs now cfg), false), (e, w))
            end
          else granted
      end.

(** ** ReleaseReservation and the reservation lifecycle *)

Definition ReleaseReservation (w : W) (e : Engine) (namespace zone actionID : string) (now : Time) : Engine * W :=
  let '(states, e) := lockZones e namespace (zone :: namespaceZones w namespace) in
  let key := zoneKey namespace zone in
  let states := alter (fun zs => mkZoneState (removeByAction (zs_reservations zs) actionID) (zs_resources zs)) key states in
  let '(states, touched) := releaseActionHolds w namespace actionID states now in
  let touched := match states !! key with Some _ => {[key]} ∪ touched | None => touched end in
  (unlock e states, mirrorAll w namespace (filter (fun kzs => kzs.1 ∈ touched) states) now).

Definition occupyEntry (now : Time) (r : ZoneReservation) : ZoneReservation :=
  mkZoneReservation (zr_RobotID r) (zr_ActionID r) (zr_Priority r) ReservationOccupied (zr_GrantedAt r) None (Some now).

(** The first Reserved entry of the robot becomes Occupied; the loop stops there. *)
Fixpoint enterFirst (robotID : string) (now : Time) (rs : list ZoneReservation) : list ZoneReservation :=
  match rs with
  | [] => []
  | r :: rs =>
      if (zr_RobotID r =s robotID) && (zr_State r =s ReservationReserved)
      then occupyEntry now r :: rs
      else r :: enterFirst robotID now rs
  end.

Definition exitEntries (robotID : string) (rs : list ZoneReservation) : list ZoneReservation :=
  List.filter (fun r => (zr_RobotID r <>s robotID) || (zr_State r <>s ReservationOccupied)) rs.

Definition extendEntries (actionID : string) (exp : Time) (rs : list ZoneReservation) : list ZoneReservation :=
  (fun r => if (zr_ActionID r =s actionID) && (zr_State r =s ReservationReserved)
            then mkZoneReservation (zr_RobotID r) (zr_ActionID r) (zr_Priority r) (zr_State r) (zr_GrantedAt r)
                   (Some exp) (zr_EnteredAt r)
            else r) <$> rs.

(** A handler that rewrites the reservations of one zone and mirrors it. *)
Definition updateZone (w : W) (e : Engine) (namespace zone : string) (now : Time)
    (f : list ZoneReservation -> list ZoneReservation) : option (Engine * W) :=
  let '(states, e) := lockZones e namespace [zone] in
  let key := zoneKey namespace zone in
  match states !! key with
  | None => None
  | Some zs =>
      let states := <[key := mkZoneState (f (zs_reservations zs)) (zs_resources zs)]> states in
      Some (unlock e states, mirrorAll w namespace states now)
  end.

Definition OnRobotEnteredZone (w : W) (e : Engine) (namespace zone robotID : string) (now : Time) : option (Engine * W) :=
  updateZone w e namespace zone now (enterFirst robotID now).

Definition OnRobotExitedZone (w : W) (e : Engine) (namespace zone robotID : string) (now : Time) : option (Engine * W) :=
  updateZone w e namespace zone now (exitEntries robotID).

Definition OnActionPhaseChanged (w : W) (e : Engine) (namespace zone actionID : string) (phase : ActionPhase) (now : Time)
    : option (Engine * W) :=
  if (phase =s ActionPhaseSucceeded) || (phase =s ActionPhaseFailed) || (phase =s ActionPhaseCancelled) then
    Some (ReleaseReservation w e namespace zone actionID now)
  else if phase =s ActionPhaseRevoking then
    let cfg := configFor e namespace in
    updateZone w e namespace zone now (extendEntries actionID (now + DisconnectedReservationTTL cfg))
  else Some (e, w).

Definition ZoneStatus (w : W) (e : Engine) (namespace zone : string) (now : Time)
    : option (ZoneReservationStatus * Engine) :=
  let '(states, e) := lockZones e namespace [zone] in
  zs ← states !! zoneKey namespace zone;
  let '(occ, res) := counts zs now in
  let maxC := match getFleetZone w namespace zone with
              | Some z => fzs_MaxConcurrentRobots (fz_Spec z) | None => 0 end in
  Some (mkZoneReservationStatus occ res maxC, e).

(** ** Adapter-initiated resources (resource.go) *)

(** [resourceZone]: the lowest-named zone of the namespace that declares the resource. *)
Definition resourceZone (w : W) (namespace resourceName : string) : option string :=
  match listFleetZones w namespace with
  | None => None
  | Some zones =>
      let owner :=
        fold_left (fun owner z =>
            fold_left (fun owner sr =>
                if (sr_Name sr =s resourceName) && ((owner =s "") || (fz_Name z <s owner))
                then fz_Name z else owner)
              (fzs_SharedResources (fz_Spec z)) owner)
          zones "" in
      if owner <>s "" then Some owner else None
  end.

Inductive ResourceState := ResourceGranted | ResourceQueued | ResourceDenied.

(** [ro_State] is [None] where the code leaves the field empty (a release). *)
Record ResourceOutcome := mkResourceOutcome {
  ro_State : option ResourceState;
  ro_QueuePosition : Z;
  ro_Message : string;
  ro_Released : bool;
  ro_PromotedRobotID : string
}.

Definition outcome (st : ResourceState) (pos : Z) (msg : string) : ResourceOutcome :=
  mkResourceOutcome (Some st) pos msg false "".

Definition robotHolds (q : SharedResourceQueue) (robotID : string) : bool :=
  existsb (fun h => rh_RobotID h =s robotID) (srq_CurrentHolders q).

(** The robot's 1-based rank in the wait queue, [None] when it does not wait. *)
Definition queueRank (q : SharedResourceQueue) (robotID : string) : option Z :=
  (fun i => Z.of_nat i + 1) <$> find_index (fun x => wq_RobotID x =s robotID) (srq_WaitQueue q).

(** The entry an adapter's request queues: keyed by the robot, in the Normal band. *)
Definition adapterEntry (robotID : string) (now : Time) : WaitQueueEntry :=
  mkWaitQueueEntry robotID robotID ActionPriorityNormal now None.

Definition ReserveResource (w : W) (e : Engine) (namespace resourceName robotID : string) (now : Time)
    : option (ResourceOutcome * (Engine * W)) :=
  if negb (e_recovered e) then Some (outcome ResourceDenied 0 "TDE recovering", (e, w))
  else
    match resourceZone w namespace resourceName with
    | None => Some (outcome ResourceDenied 0 ("unknown shared resource: " +:+ resourceName), (e, w))
    | Some zone =>
        let '(states, e) := lockZones e namespace [zone] in
        zs ← states !! zoneKey namespace zone;
        let q := queueOrEmpty zs resourceName in
        let zs := withQueue zs resourceName q in
        let e := unlock e (<[zoneKey namespace zone := zs]> states) in
        if robotHolds q robotID then Some (outcome ResourceGranted 0 "", (e, w))
        else
          match queueRank q robotID with
          | Some pos => Some (outcome ResourceQueued pos "", (e, w))
          | None =>
              let capacity := resourceCapacity w namespace zone resourceName in
              let policy := resourcePolicy w namespace zone resourceName in
              let q' := grantOrQueue q (adapterEntry robotID now) now capacity policy in
              let zs' := withQueue zs resourceName q' in
              let e' := unlock e (<[zoneKey namespace zone := zs']> states) in
              let w' := mirror w namespace zone zs' now in
              if int32_of (Z.of_nat (length (srq_CurrentHolders q))) <? capacity
              then Some (outcome ResourceGranted 0 "", (e', w'))
              else Some (outcome ResourceQueued (default 0 (queueRank q' robotID)) "", (e', w'))
          end
    end.

Definition ReleaseResource (w : W) (e : Engine) (namespace resourceName robotID : string) (now : Time)
    : option (ResourceOutcome * (Engine * W)) :=
  match resourceZone w namespace resourceName with
  | None => Some (outcome ResourceDenied 0 ("unknown shared resource: " +:+ resourceName), (e, w))
  | Some zone =>
      let '(states, e) := lockZones e namespace [zone] in
      zs ← states !! zoneKey namespace zone;
      match zs_resources zs !! resourceName with
      | None => Some (mkResourceOutcome None 0 "" false "", (e, w))
      | Some q =>
          let wasHolder := robotHolds q robotID in
          let present := wasHolder || existsb (fun x => wq_RobotID x =s robotID) (srq_WaitQueue q) in
          let promoted := match srq_WaitQueue q with
                          | next :: _ => if wasHolder then wq_RobotID next else ""
                          | [] => ""
                          end in
          let capacity := resourceCapacity w namespace zone resourceName in
          let zs' := withQueue zs resourceName (releaseHolder q robotID now capacity) in
          Some (mkResourceOutcome None 0 "" present promoted,
                (unlock e (<[zoneKey namespace zone := zs']> states), mirror w namespace zone zs' now))
      end
  end.

(** ** Holds of Robots that no longer exist (release.go) *)

Definition keepAdapterEntry (w : W) (namespace : string) (q : SharedResourceQueue) (id : string)
    : result LookupError bool :=
  let '(robotID, ok) := adapterEntryRobot q id in
  if negb ok then Ok false
  else let? robot := Lookup (listRobots w namespace) robotID in
       Ok (match robot with Some _ => true | None => false end).

(** The state of a release pass over one queue: the queue, the promotions it made, whether it
    changed, and the lookup error that ended it. Once an error is met nothing more happens. *)
Record queuePass := mkQueuePass {
  qp_queue : SharedResourceQueue;
  qp_promoted : list promotion;
  qp_changed : bool;
  qp_err : option LookupError
}.

(** Release the entry [id] of the queue, noting the adapter-initiated waiters it promotes. *)
Definition releaseEntry (namespace : string) (now : Time) (capacity : Z) (p : queuePass) (id : string) : queuePass :=
  let q := qp_queue p in
  let q' := releaseHolder q id now capacity in
  mkQueuePass q' (qp_promoted p ++ promotedSince namespace q' (adapterHolders q)) true (qp_err p).

Definition absentStep (w : W) (namespace zone rname : string) (now : Time) (p : queuePass) (id : string) : queuePass :=
  match qp_err p with
  | Some _ => p
  | None =>
      if negb (snd (adapterEntryRobot (qp_queue p) id)) then p
      else match keepAdapterEntry w namespace (qp_queue p) id with
           | Err err => mkQueuePass (qp_queue p) (qp_promoted p) (qp_changed p) (Some err)
           | Ok true => p
           | Ok false => releaseEntry namespace now (resourceCapacity w namespace zone rname) p id
           end
  end.

Definition absentQueue (w : W) (namespace zone : string) (now : Time) (rname : string) (q : SharedResourceQueue) : queuePass :=
  fold_left (absentStep w namespace zone rname now) (queueActionIDs q) (mkQueuePass q [] false None).

(** A pass over a zone's queues in name order; [zp_err] ends it. *)
Record zonePass := mkZonePass {
  zp_zone : zoneState;
  zp_promoted : list promotion;
  zp_changed : bool;
  zp_err : option LookupError
}.

Definition zonePassStep (f : string -> SharedResourceQueue -> queuePass) (p : zonePass) (rname : string) : zonePass :=
  match zp_err p, zs_resources (zp_zone p) !! rname with
  | None, Some q =>
      let r := f rname q in
      mkZonePass (withQueue (zp_zone p) rname (qp_queue r)) (zp_promoted p ++ qp_promoted r)
        (zp_changed p || qp_changed r) (qp_err r)
  | _, _ => p
  end.

Definition zonePassOver (f : string -> SharedResourceQueue -> queuePass) (zs : zoneState) : zonePass :=
  fold_left (zonePassStep f) (sortedResourceNames (zs_resources zs)) (mkZonePass zs [] false None).

(** The pass over the namespace's zones: the locked states, the server, the promotions so far. *)
Record absentPass := mkAbsentPass {
  ap_states : gmap string zoneState;
  ap_world : W;
  ap_promoted : list promotion;
  ap_err : option LookupError
}.

Definition absentZone (namespace : string) (now : Time) (p : absentPass) (zone : string) : absentPass :=
  match ap_err p, ap_states p !! zoneKey namespace zone with
  | None, Some zs =>
      let r := zonePassOver (absentQueue (ap_world p) namespace zone now) zs in
      let states := <[zoneKey namespace zone := zp_zone r]> (ap_states p) in
      let promoted := ap_promoted p ++ zp_promoted r in
      match zp_err r with
      | Some err => mkAbsentPass states (ap_world p) promoted (Some err)
      | None => mkAbsentPass states
                  (if zp_changed r then mirror (ap_world p) namespace zone (zp_zone r) now else ap_world p)
                  promoted None
      end
  | _, _ => p
  end.

(** What the notifier is told of: every promotion, when one is installed. *)
Definition tell (e : Engine) (ps : list promotion) : list promotion := if e_notify e then ps else [].

Inductive releaseError := ErrListZones | ErrRobotLookup (e : LookupError).

Definition ReleaseAbsentRobots (w : W) (e : Engine) (namespace : string) (now : Time)
    : (option releaseError * list promotion) * (Engine * W) :=
  if negb (e_recovered e) then ((None, []), (e, w))
  else
    match listFleetZones w namespace with
    | None => ((Some ErrListZones, []), (e, w))
    | Some zl =>
        let names := fz_Name <$> List.filter (fun z => match fzs_SharedResources (fz_Spec z) with [] => false | _ => true end) zl in
        match names with
        | [] => ((None, []), (e, w))
        | _ =>
            let names := sort_Strings names in
            let '(states, e) := lockZones e namespace names in
            let p := fold_left (absentZone namespace now) names (mkAbsentPass states w [] None) in
            let e := unlock e (ap_states p) in
            match ap_err p with
            | Some err => ((Some (ErrRobotLookup err), []), (e, ap_world p))
            | None => ((None, tell e (ap_promoted p)), (e, ap_world p))
            end
        end
    end.

(** ** Restart recovery (recovery.go) *)

Definition RecoveryMode : Type := string.
Definition RecoverValidate : RecoveryMode := "Validate".
Definition RecoverReleaseAll : RecoveryMode := "ReleaseAll".
Definition RecoverReleaseReservedOnly : RecoveryMode := "ReleaseReservedOnly".

Definition keepOnRecovery (w : W) (z : FleetZone) (r : ZoneReservation) (mode : RecoveryMode) : bool :=
  if mode =s RecoverReleaseAll then false
  else if mode =s RecoverReleaseReservedOnly then zr_State r =s ReservationOccupied
  else if zr_State r <>s ReservationOccupied then false
  else match getRobot w (fz_Namespace z) (zr_RobotID r) with
       | None => false
       | Some robot => r_CurrentZone robot =s fz_Name z
       end.

Definition recoverStep (w : W) (z : FleetZone) (keptIDs : gset string) (now : Time) (p : queuePass) (id : string) : queuePass :=
  match qp_err p with
  | Some _ => p
  | None =>
      if bool_decide (id ∈ keptIDs) then p
      else match keepAdapterEntry w (fz_Namespace z) (qp_queue p) id with
           | Err err => mkQueuePass (qp_queue p) (qp_promoted p) (qp_changed p) (Some err)
           | Ok true => p
           | Ok false =>
               releaseEntry (fz_Namespace z) now
                 (resourceCapacity w (fz_Namespace z) (fz_Name z) (srq_ResourceName (qp_queue p))) p id
           end
  end.

Definition recoverQueue (w : W) (z : FleetZone) (keptIDs : gset string) (now : Time) (_ : string) (q : SharedResourceQueue) : queuePass :=
  fold_left (recoverStep w z keptIDs now) (queueActionIDs q) (mkQueuePass q [] false None).

Inductive recoverError := ErrRecoverLookup (e : LookupError) | ErrRecoverPatch | ErrRecoverList.

Definition recoverZone (w : W) (e : Engine) (z : FleetZone) (mode : RecoveryMode) (now : Time)
    : result recoverError (list promotion) * (Engine * W) :=
  let '(states, e) := lockZones e (fz_Namespace z) [fz_Name z] in
  let kept := List.filter (fun r => keepOnRecovery w z r mode) (fzt_Reservations (fz_Status z)) in
  let keptIDs := list_to_set (zr_ActionID <$> kept) in
  let zs := mkZoneState kept (queuesFromStatus (fzt_SharedResourceQueues (fz_Status z))) in
  let p := zonePassOver (recoverQueue w z keptIDs now) zs in
  let e := unlock e (<[zoneKey (fz_Namespace z) (fz_Name z) := zp_zone p]> states) in
  match zp_err p with
  | Some err => (Err (ErrRecoverLookup err), (e, w))
  | None =>
      match patchFleetZoneStatus w (withStatus z (mirroredStatus (zp_zone p) now)) with
      | None => (Err ErrRecoverPatch, (e, w))
      | Some w => (Ok (zp_promoted p), (e, w))
      end
  end.

(** The loop of [Recover]: the first zone that fails ends it, with the gate left as it was. *)
Fixpoint recoverZones (w : W) (e : Engine) (zones : list FleetZone) (mode : RecoveryMode) (now : Time)
    (promoted : list promotion) : result recoverError (list promotion) * (Engine * W) :=
  match zones with
  | [] => (Ok promoted, (e, w))
  | z :: zones =>
      match recoverZone w e z mode now with
      | (Err err, ew) => (Err err, ew)
      | (Ok ps, (e, w)) => recoverZones w e zones mode now (promoted ++ ps)
      end
  end.

Definition Recover (w : W) (e : Engine) (mode : RecoveryMode) (now : Time)
    : (option recoverError * list promotion) * (Engine * W) :=
  match listAllFleetZones w with
  | None => ((Some ErrRecoverList, []), (e, w))
  | Some zones =>
      match recoverZones w e zones mode now [] with
      | (Err err, ew) => ((Some err, []), ew)
      | (Ok promoted, (e, w)) => ((None, tell e promoted), (SetRecovered e true, w))
      end
  end.

(** ** The zone map under the locks *)

(** The zone's state, empty before the engine first touches it. *)
Definition zoneAt (e : Engine) (key : string) : zoneState := default emptyZoneState (e_zones e !! key).

End handlers.

Lemma stateFor_zones e key k :
  e_zones (stateFor e key) !! k = if decide (k = key) then Some (zoneAt e k) else e_zones e !! k.
Proof.
  unfold stateFor, zoneAt. destruct (e_zones e !! key) eqn:Hk; case_decide; subst; simpl.
  - by rewrite Hk.
  - done.
  - by rewrite lookup_insert_eq, Hk.
  - by rewrite lookup_insert_ne by done.
Qed.

Lemma stateFor_zoneAt e key k : zoneAt (stateFor e key) k = zoneAt e k.
Proof. unfold zoneAt at 1. rewrite stateFor_zones. by case_decide. Qed.

Lemma fold_stateFor_zones keys : forall e k,
  e_zones (fold_left stateFor keys e) !! k =
    if decide (k ∈ keys) then Some (zoneAt e k) else e_zones e !! k.
Proof.
  induction keys as [|key keys IH]; intros e k; cbn [fold_left].
  - case_decide as H; [by apply not_elem_of_nil in H|done].
  - rewrite IH, stateFor_zoneAt, stateFor_zones.
    repeat case_decide; set_unfold; naive_solver.
Qed.

Lemma fold_stateFor_frame keys : forall e,
  let e' := fold_left stateFor keys e in
  e_cfg e' = e_cfg e /\ e_resolver e' = e_resolver e /\ e_recovered e' = e_recovered e /\ e_notify e' = e_notify e.
Proof.
  induction keys as [|key keys IH]; intros e; simpl; [done|].
  destruct (IH (stateFor e key)) as (-> & -> & -> & ->). unfold stateFor. by destruct (e_zones e !! key).
Qed.

Lemma list_to_map_omap (f : string -> option zoneState) keys k :
  (list_to_map (omap (fun k => (fun zs => (k, zs)) <$> f k) keys) : gmap string zoneState) !! k =
    if decide (k ∈ keys) then f k else None.
Proof.
  induction keys as [|key keys IH]; cbn [omap list_omap].
  - case_decide as H; [by apply not_elem_of_nil in H|done].
  - destruct (f key) as [zs|] eqn:Hf; cbn.
    + destruct (decide (k = key)) as [->|Hne].
      * rewrite lookup_insert_eq, decide_True by (by left). done.
      * rewrite lookup_insert_ne by done. rewrite IH. repeat case_decide; set_unfold; naive_solver.
    + rewrite IH. repeat case_decide; set_unfold; naive_solver.
Qed.

(** What [lockZones] hands out: the state of every key it locks, and nothing else. *)
Lemma lockZones_spec e ns zones :
  let '(states, e') := lockZones e ns zones in
  (forall k, states !! k = if decide (k ∈ lockOrder ns zones) then Some (zoneAt e k) else None) /\
  (forall k, zoneAt e' k = zoneAt e k) /\
  e_recovered e' = e_recovered e /\ e_notify e' = e_notify e /\
  (forall n, configFor e' n = configFor e n).
Proof.
  unfold lockZones. destruct (fold_stateFor_frame (lockOrder ns zones) e) as (Hc & Hr & Hrec & Hn).
  split_and!; [| |done|done|].
  - intros k. rewrite list_to_map_omap. case_decide; [|done]. rewrite fold_stateFor_zones. by rewrite decide_True.
  - intros k. unfold zoneAt. rewrite fold_stateFor_zones. by case_decide.
  - intros n. unfold configFor. by rewrite Hc, Hr.
Qed.

Lemma elem_of_lockOrder k ns zones :
  k ∈ lockOrder ns zones <-> exists z, k = zoneKey ns z /\ z ∈ zones /\ z <> "".
Proof.
  unfold lockOrder. rewrite elem_of_sort_Strings, elem_of_remove_dups, list_elem_of_fmap.
  setoid_rewrite list_elem_of_In. setoid_rewrite filter_In. setoid_rewrite negb_true_iff.
  setoid_rewrite eqb_s_false. naive_solver.
Qed.

Lemma unlock_zoneAt e states k : zoneAt (unlock e states) k = default (zoneAt e k) (states !! k).
Proof.
  unfold zoneAt, unlock. simpl. destruct (states !! k) eqn:Hk.
  - by rewrite (lookup_union_Some_l _ _ _ _ Hk).
  - by rewrite lookup_union_r.
Qed.

Lemma zoneKey_inj ns z1 z2 : zoneKey ns z1 = zoneKey ns z2 -> z1 = z2.
Proof. unfold zoneKey. intros H%string_app_inj_l. by apply string_app_inj_l in H. Qed.

Lemma keyZone_zoneKey ns z : keyZone ns (zoneKey ns z) = z.
Proof.
  unfold keyZone, zoneKey. induction ns as [|c ns IH]; [done|exact IH].
Qed.

(** ** A concrete site, for the runs the properties are evaluated on *)

Lemma storeOf_get zones robots ns n z :
  getFleetZone (storeOf zones robots) ns n = Some z -> z ∈ zones /\ fz_Namespace z = ns /\ fz_Name z = n.
Proof.
  intros Hg. pose proof (get_named _ _ _ _ Hg) as Hn. split; [|done]. simpl in Hg.
  destruct (list_to_map _ !! (ns, n)) as [z'|] eqn:Hl; [|done]. simpl in Hg.
  case_match; [|done]. simplify_eq. apply elem_of_list_to_map_2, list_elem_of_fmap in Hl as (z' & Heq & Hin).
  by simplify_eq.
Qed.

Lemma storeOf_list zones robots zl z :
  listAllFleetZones (storeOf zones robots) = Some zl -> z ∈ zl -> z ∈ zones.
Proof.
  unfold listAllFleetZones. simpl. intros [= <-] ([k z'] & -> & Hin)%list_elem_of_fmap. simpl.
  apply elem_of_map_to_list, elem_of_list_to_map_2, list_elem_of_fmap in Hin as (z0 & Heq & Hz). by simplify_eq.
Qed.

Definition exZone (name : string) (max : Z) (resources : list SharedResource) : FleetZone :=
  mkFleetZone name "site" ("uid-" +:+ name) ∅ (mkFleetZoneSpec max resources "" None) (mkFleetZoneStatus [] [] 0).

(** A dock for one robot with a two-car lift, and a hall without limit. *)
Definition exZones : list FleetZone :=
  [exZone "dock" 1 [mkSharedResource "lift" 2 ReservationFIFO]; exZone "hall" 0 []].
Definition exStore : store := storeOf exZones [].
Definition exEngine : Engine := SetRecovered (New DefaultConfig) true.
Definition exRequest (action robot zone : string) (p : ActionPriority) : ReservationRequest :=
  mkReservationRequest action robot "site" zone p [] None.

Lemma exStore_get ns n z : getFleetZone exStore ns n = Some z ->
  ns = "site" /\ (n = "dock" /\ z = exZone "dock" 1 [mkSharedResource "lift" 2 ReservationFIFO] \/
                  n = "hall" /\ z = exZone "hall" 0 []).
Proof.
  intros (Hin & Hns & Hn)%storeOf_get. set_unfold in Hin. destruct Hin as [->|[->|[]]]; simpl in *; subst; auto.
Qed.

(** The capacities that site declares. *)
Definition exCap (key r : string) : Z := if (key =s "site/dock") && (r =s "lift") then 2 else 1.

Lemma zoneKey_dock ns zone : zoneKey ns zone = "site/dock" -> ns = "site" /\ zone = "dock".
Proof.
  unfold zoneKey. intros H.
  do 9 (destruct ns as [|? ns]; lazy [String.append] in H; [first [discriminate H|injection H as ->; by subst]|];
        injection H as ? H).
  by destruct ns.
Qed.
