(* ===== verification/TdeSafety.v ===== *)
(** The Traffic Deconfliction Engine is a slot book: every handler of TdeEngine, seen at one zone,
    is a step of an abstract book of [M] slots, which keeps a zone's load within its capacity, and what a
    grant, a preemption and a refusal say. TdeRuns takes it to whole runs. *)

From S2P Require Import Prelude.
From S2P Require Import Types.
From S2P Require Import RobotId.
From S2P Require Import Tde.
From S2P Require Import TdeEngine.

(** ** Events: every handler that changes the engine *)

Inductive event :=
| EvRequest (req : ReservationRequest)
| EvRelease (ns zone actionID : string)
| EvEnter (ns zone robotID : string)
| EvExit (ns zone robotID : string)
| EvPhase (ns zone actionID : string) (phase : ActionPhase)
| EvStatus (ns zone : string)
| EvReserveResource (ns resource robotID : string)
| EvReleaseResource (ns resource robotID : string)
| EvReleaseAbsent (ns : string)
| EvRecover (mode : RecoveryMode)
| EvSetRecovered (v : bool).

(** One handler run against the server as it stands then. *)
Definition runEvent {W} `{ApiServer W} (w : W) (now : Time) (ev : event) (e : Engine) : option Engine :=
  match ev with
  | EvRequest req => Some (fst (snd (RequestReservation w e req now)))
  | EvRelease ns zone a => Some (fst (ReleaseReservation w e ns zone a now))
  | EvEnter ns zone r => fst <$> OnRobotEnteredZone w e ns zone r now
  | EvExit ns zone r => fst <$> OnRobotExitedZone w e ns zone r now
  | EvPhase ns zone a ph => fst <$> OnActionPhaseChanged w e ns zone a ph now
  | EvStatus ns zone => snd <$> ZoneStatus w e ns zone now
  | EvReserveResource ns r robot => (fun x => fst (snd x)) <$> ReserveResource w e ns r robot now
  | EvReleaseResource ns r robot => (fun x => fst (snd x)) <$> ReleaseResource w e ns r robot now
  | EvReleaseAbsent ns => Some (fst (snd (ReleaseAbsentRobots w e ns now)))
  | EvRecover mode => Some (fst (snd (Recover w e mode now)))
  | EvSetRecovered v => Some (SetRecovered e v)
  end.

(** ** The abstract slot book *)

Inductive slotStep (M : Z) : Z -> Z -> Prop :=
| slot_take n : n < M -> slotStep M n (n + 1)
| slot_free n m : 0 <= m <= n -> slotStep M n m
| slot_rebuild n m : 0 <= m <= M -> slotStep M n m.

(** ** The engine's book at one zone *)

Definition resAt (e : Engine) (key : string) : list ZoneReservation := zs_reservations (zoneAt e key).

Section book.
Context {W : Type} `{ApiServer W}.
Implicit Types (w : W) (e : Engine) (states : gmap string zoneState).

Lemma grantResource_reservations w req now states r k :
  zs_reservations <$> grantResource w req now states r !! k = zs_reservations <$> states !! k.
Proof.
  unfold grantResource. destruct (states !! zoneKey _ _) as [zs|] eqn:Hz; [|done].
  destruct (decide (k = zoneKey (rq_Namespace req) (rr_ZoneName r))) as [->|Hne].
  - by rewrite lookup_insert_eq, Hz.
  - by rewrite lookup_insert_ne by done.
Qed.

Lemma grantResources_reservations w req now states k :
  zs_reservations <$> grantResources w req states now !! k = zs_reservations <$> states !! k.
Proof.
  unfold grantResources. revert states. induction (rq_Resources req) as [|r rs IH]; intros states; [done|].
  cbn [fold_left]. rewrite IH. apply grantResource_reservations.
Qed.

Lemma releaseActionHolds_reservations w ns a states now k :
  zs_reservations <$> fst (releaseActionHolds w ns a states now) !! k = zs_reservations <$> states !! k.
Proof.
  unfold releaseActionHolds. cbn [fst]. rewrite map_lookup_imap. by destruct (states !! k).
Qed.

Lemma unlock_resAt e states k : resAt (unlock e states) k = default (resAt e k) (zs_reservations <$> states !! k).
Proof. unfold resAt. rewrite unlock_zoneAt. by destruct (states !! k). Qed.

(** The entry a grant appends. *)
Definition grantedEntry (req : ReservationRequest) (now : Time) (cfg : Config) : ZoneReservation :=
  mkZoneReservation (rq_RobotID req) (rq_ActionID req) (rq_Priority req) ReservationReserved now
    (Some (now + ReservationTTL cfg)) None.

Lemma commitGrant_resAt w e req now cfg states k :
  resAt (fst (commitGrant w e req now cfg states)) k =
    match zs_reservations <$> states !! k with
    | None => resAt e k
    | Some rs => if (rq_TargetZone req <>s "") && bool_decide (k = zoneKey (rq_Namespace req) (rq_TargetZone req))
                 then rs ++ [grantedEntry req now cfg] else rs
    end.
Proof.
  unfold commitGrant. cbn [fst]. rewrite unlock_resAt, grantResources_reservations. unfold reserveTarget.
  destruct (rq_TargetZone req =s ""); simpl; [by destruct (states !! k)|].
  rewrite lookup_alter. case_decide as Hk.
  - rewrite Hk, bool_decide_true by done. by destruct (states !! k).
  - rewrite bool_decide_false by done. by destruct (states !! k).
Qed.

Definition targetKey (req : ReservationRequest) : string := zoneKey (rq_Namespace req) (rq_TargetZone req).

Definition cfgFor (e : Engine) (req : ReservationRequest) : Config := configFor e (rq_Namespace req).

(** Everything RequestReservation does to the reservation lists, branch by branch. *)
Lemma RequestReservation_cases w e req now :
  let '((res, err), (e', w')) := RequestReservation w e req now in
  (rs_Status res = Denied /\ (forall k, zoneAt e' k = zoneAt e k) /\ w' = w) \/
  (rs_Status res = Granted /\ rs_PreemptedActionIDs res = [] /\ e_recovered e = true /\ err = false /\
   (rq_TargetZone req <> "" -> exists z, getFleetZone w (rq_Namespace req) (rq_TargetZone req) = Some z /\
      (fzs_MaxConcurrentRobots (fz_Spec z) = 0 \/ load now (resAt e (targetKey req)) < fzs_MaxConcurrentRobots (fz_Spec z))) /\
   forall k, resAt e' k = if (rq_TargetZone req <>s "") && bool_decide (k = targetKey req)
                          then resAt e k ++ [grantedEntry req now (cfgFor e req)] else resAt e k) \/
  (exists z v zs', rs_Status res = PreemptedGranted /\ rs_PreemptedActionIDs res = [zr_ActionID v] /\
   e_recovered e = true /\ err = false /\ rq_TargetZone req <> "" /\ CanPreempt (rq_Priority req) = true /\
   getFleetZone w (rq_Namespace req) (rq_TargetZone req) = Some z /\
   fzs_MaxConcurrentRobots (fz_Spec z) <= load now (resAt e (targetKey req)) /\
   preempt (zoneAt e (targetKey req)) (rq_MayEvict req) = Some (v, zs') /\
   forall k, resAt e' k = if bool_decide (k = targetKey req)
                          then zs_reservations zs' ++ [grantedEntry req now (cfgFor e req)] else resAt e k).
Proof.
  unfold RequestReservation. destruct (e_recovered e) eqn:Hrec; cbn [negb]; [|by left].
  pose proof (lockZones_spec e (rq_Namespace req) (rq_TargetZone req :: (rr_ZoneName <$> rq_Resources req))) as Hl.
  destruct (lockZones _ _ _) as [states e1]. destruct Hl as (Hst & Hz & _ & _ & _).
  assert (Hlock : forall k zs, states !! k = Some zs -> zs = zoneAt e k).
  { intros k zs Hk. rewrite Hst in Hk. case_decide; by simplify_eq. }
  assert (Hgrant : forall k, resAt (fst (commitGrant w e1 req now (cfgFor e req) states)) k =
      if (rq_TargetZone req <>s "") && bool_decide (k = targetKey req)
      then resAt e k ++ [grantedEntry req now (cfgFor e req)] else resAt e k).
  { intros k. rewrite commitGrant_resAt. destruct (states !! k) as [zs|] eqn:Hk; simpl.
    - apply Hlock in Hk as ->. done.
    - destruct (rq_TargetZone req =s "") eqn:Ht; simpl; [unfold resAt; by rewrite Hz|].
      case_bool_decide as Hkey; [|unfold resAt; by rewrite Hz]. exfalso. rewrite Hst, decide_True in Hk; [done|].
      apply elem_of_lockOrder. exists (rq_TargetZone req). str_bool. split_and!; [done|by left|done]. }
  destruct (commitGrant w e1 req now (configFor e (rq_Namespace req)) states) as [eg wg] eqn:Hcg.
  fold (cfgFor e req) in Hcg. rewrite Hcg in Hgrant. cbn [fst] in Hgrant.
  destruct (rq_TargetZone req =s "") eqn:Ht.
  { right; left. str_bool. split_and!; try done. }
  destruct (getFleetZone w (rq_Namespace req) (rq_TargetZone req)) as [z|] eqn:Hg; [|by left].
  destruct (states !! zoneKey _ _) as [zs|] eqn:Hkey.
  2:{ exfalso. rewrite Hst, decide_True in Hkey; [done|]. apply elem_of_lockOrder.
      exists (rq_TargetZone req). str_bool. split_and!; [done|by left|done]. }
  apply Hlock in Hkey as ->. fold (targetKey req).
  pose proof (counts_sum (zoneAt e (targetKey req)) now) as Hc. fold (resAt e (targetKey req)) in Hc.
  destruct (counts _ now) as [occ res]. cbn [fst snd] in Hc.
  destruct (negb (_ =? 0) && (_ <=? occ + res)) eqn:Hfull.
  - destruct (if CanPreempt (rq_Priority req) then _ else None) as [[v zs']|] eqn:Hp; [|by left].
    destruct (CanPreempt (rq_Priority req)) eqn:Hcp; [|done]. str_bool. z_bool.
    destruct (releaseActionHolds w (rq_Namespace req) (zr_ActionID v) (<[targetKey req:=zs']> states) now)
      as [states' touched] eqn:Hrel.
    destruct (commitGrant w e1 req now (configFor e (rq_Namespace req)) states') as [ep wp] eqn:Hcp'.
    right; right. exists z, v, zs'. split_and!; try done; [lia|]. intros k.
    replace ep with (fst (commitGrant w e1 req now (cfgFor e req) states')) by (unfold cfgFor; by rewrite Hcp').
    rewrite commitGrant_resAt.
    pose proof (releaseActionHolds_reservations w (rq_Namespace req) (zr_ActionID v) (<[targetKey req:=zs']> states) now k) as Hk.
    rewrite Hrel in Hk. cbn [fst] in Hk. rewrite Hk.
    apply eqb_s_false in Ht as ->. simpl. fold (targetKey req). fold (cfgFor e req).
    case_bool_decide as Hkk; [subst k; by rewrite lookup_insert_eq|].
    rewrite lookup_insert_ne by done. destruct (states !! k) as [zk|] eqn:Hkk'; simpl.
    + by apply Hlock in Hkk' as ->.
    + unfold resAt. by rewrite Hz.
  - right; left. split_and!; try done. intros _. exists z. split; [done|].
    apply andb_false_iff in Hfull as [Hf|Hf]; str_bool; z_bool; [by left|right; lia].
Qed.

(** A map of locked states whose reservation lists are those of the engine. *)
Definition sameBook (e : Engine) (states : gmap string zoneState) : Prop :=
  forall k zs, states !! k = Some zs -> zs_reservations zs = resAt e k.

Lemma lockZones_book e ns zones states e1 :
  lockZones e ns zones = (states, e1) -> sameBook e states /\ (forall k, resAt e1 k = resAt e k).
Proof.
  intros Hl. pose proof (lockZones_spec e ns zones) as Hs. rewrite Hl in Hs.
  destruct Hs as (Hst & Hz & _). split.
  - intros k zs Hk. rewrite Hst in Hk. case_decide; by simplify_eq.
  - intros k. unfold resAt. by rewrite Hz.
Qed.

Lemma unlock_book e e1 states k :
  sameBook e states -> (forall k, resAt e1 k = resAt e k) -> resAt (unlock e1 states) k = resAt e k.
Proof.
  intros Hb He. rewrite unlock_resAt, He. destruct (states !! k) as [zs|] eqn:Hk; [by apply Hb|done].
Qed.

Lemma sameBook_insert e states k zs :
  sameBook e states -> zs_reservations zs = resAt e k -> sameBook e (<[k := zs]> states).
Proof.
  intros Hb Hz k' zs' Hk. destruct (decide (k = k')) as [->|Hne]; simplify_map_eq; [done|by apply Hb].
Qed.

Lemma lock_single e ns zone states e1 zs :
  lockZones e ns [zone] = (states, e1) -> states !! zoneKey ns zone = Some zs -> zs = zoneAt e (zoneKey ns zone).
Proof.
  intros Hl Hk. pose proof (lockZones_spec e ns [zone]) as Hs. rewrite Hl in Hs.
  destruct Hs as (Hst & _). rewrite Hst in Hk. case_decide; by simplify_eq.
Qed.

Lemma updateZone_resAt w e ns zone now f e' w' k :
  updateZone w e ns zone now f = Some (e', w') ->
  resAt e' k = if bool_decide (k = zoneKey ns zone) then f (resAt e k) else resAt e k.
Proof.
  unfold updateZone. destruct (lockZones e ns [zone]) as [states e1] eqn:Hl.
  destruct (states !! zoneKey ns zone) as [zs|] eqn:Hk; [|done]. intros [= <- <-].
  destruct (lockZones_book _ _ _ _ _ Hl) as [Hb He]. rewrite unlock_resAt. case_bool_decide as Hkk.
  - subst k. rewrite lookup_insert_eq. simpl. by rewrite (Hb _ _ Hk).
  - rewrite lookup_insert_ne, He by done. destruct (states !! k) eqn:Hk'; [by apply Hb|done].
Qed.

Lemma ReleaseReservation_resAt w e ns zone a now k :
  resAt (fst (ReleaseReservation w e ns zone a now)) k =
    if bool_decide (k = zoneKey ns zone) && (zone <>s "") then removeByAction (resAt e k) a else resAt e k.
Proof.
  unfold ReleaseReservation. destruct (lockZones e ns _) as [states e1] eqn:Hl.
  destruct (releaseActionHolds _ _ _ _ _) as [states' touched] eqn:Hr. cbn [fst].
  rewrite unlock_resAt. pose proof (releaseActionHolds_reservations w ns a
    (alter (fun zs => mkZoneState (removeByAction (zs_reservations zs) a) (zs_resources zs)) (zoneKey ns zone) states) now k) as Hk.
  rewrite Hr in Hk. cbn [fst] in Hk. rewrite Hk.
  pose proof (lockZones_spec e ns (zone :: namespaceZones w ns)) as Hs. rewrite Hl in Hs.
  destruct Hs as (Hst & Hz & _). unfold resAt. rewrite Hz.
  destruct (decide (k = zoneKey ns zone)) as [->|Hne].
  - rewrite lookup_alter_eq, bool_decide_true, Hst by done. case_decide as Hin; simpl.
    + apply elem_of_lockOrder in Hin as (z & Heq & _ & Hz0). apply zoneKey_inj in Heq as ->.
      by apply eqb_s_false in Hz0 as ->.
    + destruct (zone =s "") eqn:Hz0; simpl; [done|]. exfalso. apply Hin, elem_of_lockOrder. str_bool.
      exists zone. split_and!; [done|by left|done].
  - rewrite lookup_alter_ne, bool_decide_false, Hst by done. by case_decide.
Qed.

Lemma zonePassOver_reservations f zs : zs_reservations (zp_zone (zonePassOver f zs)) = zs_reservations zs.
Proof.
  unfold zonePassOver.
  assert (Hg : forall names p, zs_reservations (zp_zone (fold_left (zonePassStep f) names p)) = zs_reservations (zp_zone p)).
  { induction names as [|n names IH]; intros p; [done|]. cbn [fold_left]. rewrite IH.
    unfold zonePassStep. destruct (zp_err p); [done|]. by destruct (zs_resources (zp_zone p) !! n). }
  by rewrite Hg.
Qed.

Lemma ReserveResource_resAt w e ns r robot now o e' w' k :
  ReserveResource w e ns r robot now = Some (o, (e', w')) -> resAt e' k = resAt e k.
Proof.
  unfold ReserveResource. destruct (e_recovered e); cbn [negb]; [|by intros [= <- <- <-]].
  destruct (resourceZone w ns r) as [zone|]; [|by intros [= <- <- <-]].
  destruct (lockZones e ns [zone]) as [states e1] eqn:Hl.
  destruct (lockZones_book _ _ _ _ _ Hl) as [Hb He].
  destruct (states !! zoneKey ns zone) as [zs|] eqn:Hk; [|done]. cbn [mbind option_bind].
  pose proof (Hb _ _ Hk) as Hz.
  assert (H1 : forall q k, resAt (unlock e1 (<[zoneKey ns zone := withQueue zs r q]> states)) k = resAt e k).
  { intros. apply unlock_book; [by apply sameBook_insert|done]. }
  assert (H2 : forall q q' k, resAt (unlock (unlock e1 (<[zoneKey ns zone := withQueue zs r q]> states))
     (<[zoneKey ns zone := withQueue (withQueue zs r q) r q']> states)) k = resAt e k).
  { intros. apply unlock_book; [by apply sameBook_insert|apply H1]. }
  destruct (robotHolds _ _); [intros [= <- <- <-]; apply H1|].
  destruct (queueRank (queueOrEmpty zs r) robot); [intros [= <- <- <-]; apply H1|].
  case_match; intros [= <- <- <-]; apply H2.
Qed.

Lemma ReleaseResource_resAt w e ns r robot now o e' w' k :
  ReleaseResource w e ns r robot now = Some (o, (e', w')) -> resAt e' k = resAt e k.
Proof.
  unfold ReleaseResource. destruct (resourceZone w ns r) as [zone|]; [|by intros [= <- <- <-]].
  destruct (lockZones e ns [zone]) as [states e1] eqn:Hl.
  destruct (lockZones_book _ _ _ _ _ Hl) as [Hb He].
  destruct (states !! zoneKey ns zone) as [zs|] eqn:Hk; [|done]. cbn [mbind option_bind].
  destruct (zs_resources zs !! r) as [q|]; intros [= <- <- <-]; [|apply He].
  apply unlock_book; [apply sameBook_insert; [done|exact (Hb _ _ Hk)]|done].
Qed.

Lemma absentZone_book e ns now p zone :
  sameBook e (ap_states p) -> sameBook e (ap_states (absentZone ns now p zone)).
Proof.
  intros Hb. unfold absentZone. destruct (ap_err p); [done|].
  destruct (ap_states p !! zoneKey ns zone) as [zs|] eqn:Hk; [|done].
  assert (Hi : sameBook e (<[zoneKey ns zone := zp_zone (zonePassOver (absentQueue (ap_world p) ns zone now) zs)]> (ap_states p))).
  { apply sameBook_insert; [done|]. rewrite zonePassOver_reservations. by apply Hb. }
  destruct (zp_err _); exact Hi.
Qed.

Lemma ReleaseAbsentRobots_resAt w e ns now k :
  resAt (fst (snd (ReleaseAbsentRobots w e ns now))) k = resAt e k.
Proof.
  unfold ReleaseAbsentRobots. destruct (e_recovered e); cbn [negb]; [|done].
  destruct (listFleetZones w ns) as [zl|]; [|done]. destruct (fz_Name <$> _) as [|n names]; [done|].
  destruct (lockZones e ns _) as [states e1] eqn:Hl. destruct (lockZones_book _ _ _ _ _ Hl) as [Hb He].
  set (p := fold_left _ _ _).
  assert (Hp : sameBook e (ap_states p)).
  { unfold p. clear Hl. generalize (sort_Strings (n :: names)). intros l.
    assert (Hg : forall l q, sameBook e (ap_states q) -> sameBook e (ap_states (fold_left (absentZone ns now) l q))).
    { induction l0 as [|z l0 IH]; intros q Hq; [done|]. apply IH. by apply absentZone_book. }
    by apply Hg. }
  destruct (ap_err p); apply unlock_book; done.
Qed.

Lemma recoverZone_resAt w e z mode now k :
  let '(_, (e', _)) := recoverZone w e z mode now in
  resAt e' k = if bool_decide (k = zoneKey (fz_Namespace z) (fz_Name z))
               then List.filter (fun r => keepOnRecovery w z r mode) (fzt_Reservations (fz_Status z)) else resAt e k.
Proof.
  unfold recoverZone. destruct (lockZones e _ _) as [states e1] eqn:Hl.
  destruct (lockZones_book _ _ _ _ _ Hl) as [Hb He]. set (p := zonePassOver _ _).
  assert (Hp : resAt (unlock e1 (<[zoneKey (fz_Namespace z) (fz_Name z) := zp_zone p]> states)) k =
    if bool_decide (k = zoneKey (fz_Namespace z) (fz_Name z))
    then List.filter (fun r => keepOnRecovery w z r mode) (fzt_Reservations (fz_Status z)) else resAt e k).
  { rewrite unlock_resAt. case_bool_decide as Hk.
    - subst k. rewrite lookup_insert_eq. simpl. unfold p. by rewrite zonePassOver_reservations.
    - rewrite lookup_insert_ne, He by done. destruct (states !! k) eqn:Hk'; [by apply Hb|done]. }
  destruct (zp_err p); [exact Hp|]. destruct (patchFleetZoneStatus _ _); exact Hp.
Qed.

Lemma Recover_resAt w e mode now k :
  resAt (fst (snd (Recover w e mode now))) k = resAt e k \/
  exists zones z keep, listAllFleetZones w = Some zones /\ z ∈ zones /\ k = zoneKey (fz_Namespace z) (fz_Name z) /\
    resAt (fst (snd (Recover w e mode now))) k = List.filter keep (fzt_Reservations (fz_Status z)).
Proof.
  unfold Recover. destruct (listAllFleetZones w) as [zones|]; [|by left].
  assert (Hg : forall zs w e ps, let '(_, (e', _)) := recoverZones w e zs mode now ps in
    resAt e' k = resAt e k \/ exists z keep, z ∈ zs /\ k = zoneKey (fz_Namespace z) (fz_Name z) /\
      resAt e' k = List.filter keep (fzt_Reservations (fz_Status z))).
  { induction zs as [|z zs IH]; intros w0 e0 ps; [by left|]. cbn [recoverZones].
    pose proof (recoverZone_resAt w0 e0 z mode now k) as Hz. destruct (recoverZone w0 e0 z mode now) as [[ps'|err] [e1 w1]].
    - specialize (IH w1 e1 (ps ++ ps')). destruct (recoverZones _ _ _ _ _ _) as [? [e' ?]].
      destruct IH as [->|(z' & keep & Hin & ? & ?)]; [|right; exists z', keep; split_and!; [by right|done|done]].
      rewrite Hz. case_bool_decide; [right|by left]. eexists z, _. split_and!; [by left|done|done].
    - rewrite Hz. case_bool_decide; [right|by left]. eexists z, _. split_and!; [by left|done|done]. }
  specialize (Hg zones w e []). destruct (recoverZones w e zones mode now []) as [[ps|err] [e' w']]; cbn [fst snd];
    (destruct Hg as [Hg|(z & keep & ? & ? & ?)]; [left; exact Hg|right; by exists zones, z, keep]).
Qed.

(** ** What each list operation does to the load *)

(** The entries a robot's entry, or an action's revocation, touches. *)
Definition reservedBy (p : ZoneReservation -> bool) (r : ZoneReservation) : bool :=
  p r && (zr_State r =s ReservationReserved).

(** Every such entry still holds its slot. *)
Definition allLive (now : Time) (p : ZoneReservation -> bool) (rs : list ZoneReservation) : Prop :=
  forall r, r ∈ rs -> reservedBy p r = true -> notExpired r now = true.

Lemma reserved_live_takesSlot now r :
  zr_State r = ReservationReserved -> notExpired r now = true -> takesSlot now r = true.
Proof. intros Hs Hn. unfold takesSlot, isLiveReserved, isOccupied. rewrite Hs, Hn. done. Qed.

Lemma enterFirst_load now robotID rs :
  allLive now (fun r => zr_RobotID r =s robotID) rs -> load now (enterFirst robotID now rs) = load now rs.
Proof.
  induction rs as [|r rs IH]; intros Hl; [done|]. cbn [enterFirst].
  destruct ((zr_RobotID r =s robotID) && (zr_State r =s ReservationReserved)) eqn:Hm.
  - rewrite !load_cons. f_equal. f_equal. rewrite (reserved_live_takesSlot now r); [done|by str_bool|].
    apply Hl; [by left|done].
  - rewrite !load_cons, IH; [done|]. intros r' Hr'. apply Hl. by right.
Qed.

Lemma extendEntries_load now exp actionID rs :
  allLive now (fun r => zr_ActionID r =s actionID) rs ->
  load now (extendEntries actionID exp rs) <= load now rs.
Proof.
  induction rs as [|r rs IH]; intros Hl; [done|]. cbn [extendEntries fmap list_fmap].
  rewrite !load_cons. apply Z.add_le_mono; [|apply IH; intros r' Hr'; apply Hl; by right].
  destruct ((zr_ActionID r =s actionID) && (zr_State r =s ReservationReserved)) eqn:Hm; [|done].
  rewrite (reserved_live_takesSlot now r); [by destruct (takesSlot _ _)|by str_bool|apply Hl; [by left|done]].
Qed.

(** The step touches no stale entry: a preemption evicts an entry that holds a slot, and a robot's
    entry or a revocation finds the reservation unexpired. *)
Definition touchesNoStale (now : Time) (ev : event) (e : Engine) : Prop :=
  match ev with
  | EvRequest req => forall v zs', preempt (zoneAt e (targetKey req)) (rq_MayEvict req) = Some (v, zs') -> takesSlot now v = true
  | EvEnter ns zone robotID => allLive now (fun r => zr_RobotID r =s robotID) (resAt e (zoneKey ns zone))
  | EvPhase ns zone actionID _ => allLive now (fun r => zr_ActionID r =s actionID) (resAt e (zoneKey ns zone))
  | _ => True
  end.

(** The zone, when it can be read, declares a limit, and one of at most [M]. *)
Definition limitWithin (ns zone : string) (M : Z) (w : W) : Prop :=
  forall ns' zone' z, zoneKey ns' zone' = zoneKey ns zone -> getFleetZone w ns' zone' = Some z ->
    0 < fzs_MaxConcurrentRobots (fz_Spec z) <= M.

(** The zone's limit is within [M], and a recovery reads a persisted book within it. *)
Definition zoneConfig (ns zone : string) (M : Z) (w : W) (now : Time) (ev : event) (e : Engine) : Prop :=
  limitWithin ns zone M w /\
  (forall mode zones z, ev = EvRecover mode -> listAllFleetZones w = Some zones -> z ∈ zones ->
     zoneKey (fz_Namespace z) (fz_Name z) = zoneKey ns zone -> load now (fzt_Reservations (fz_Status z)) <= M).

Lemma slot_keep M n : 0 <= n -> slotStep M n n.
Proof. intros. apply slot_free. lia. Qed.

Lemma load_le_slot M now rs rs' : load now rs' <= load now rs -> slotStep M (load now rs) (load now rs').
Proof. intros. apply slot_free. split; [apply load_nonneg|done]. Qed.

End book.

#[export] Hint Resolve load_nonneg slot_keep load_le_slot load_filter : swarm.

Section refinement.
Context {W : Type} `{ApiServer W}.
Implicit Types (w : W) (e : Engine).

(** A granted entry takes at most one slot, and none when its lifetime is not positive. *)
Lemma granted_load now req cfg rs :
  load now (rs ++ [grantedEntry req now cfg]) = load now rs + Z.b2z (takesSlot now (grantedEntry req now cfg)).
Proof. rewrite load_app, load_cons. change (load now []) with 0. lia. Qed.

Lemma request_slotStep ns zone M w now req e :
  touchesNoStale now (EvRequest req) e -> limitWithin ns zone M w ->
  slotStep M (load now (resAt e (zoneKey ns zone)))
    (load now (resAt (fst (snd (RequestReservation w e req now))) (zoneKey ns zone))).
Proof.
  intros Hstale Hmax. pose proof (RequestReservation_cases w e req now) as Hc.
  destruct (RequestReservation w e req now) as [[res err] [e' w']]. cbn [fst snd].
  destruct Hc as [(_ & Hz & _)|[(_ & _ & _ & _ & Hroom & Hk)|Hp]].
  - unfold resAt. rewrite Hz. eauto with swarm.
  - rewrite Hk. destruct (rq_TargetZone req =s "") eqn:Ht; simpl; [eauto with swarm|].
    case_bool_decide as Hkey; [|eauto with swarm]. rewrite granted_load.
    destruct (takesSlot now (grantedEntry _ _ _)); simpl; [|rewrite Z.add_0_r; eauto with swarm]. apply slot_take.
    str_bool. destruct (Hroom Ht) as (z & Hg & Hroom'). unfold targetKey in Hkey.
    pose proof (Hmax _ _ z (eq_sym Hkey) Hg). fold (targetKey req) in Hkey. rewrite Hkey. lia.
  - destruct Hp as (z & v & zs' & _ & _ & _ & _ & _ & _ & _ & _ & Hpre & Hk). rewrite Hk.
    case_bool_decide as Hkey; [|eauto with swarm]. rewrite granted_load.
    pose proof (preempt_load _ _ _ _ now Hpre) as Hl. rewrite (Hstale _ _ Hpre) in Hl. simpl in Hl.
    rewrite Hkey. unfold resAt. apply slot_free. pose proof (load_nonneg now (zs_reservations zs')).
    destruct (takesSlot now (grantedEntry _ _ _)); simpl; lia.
Qed.

(** Every handler is a step of the slot book. *)
Lemma event_slotStep ns zone M w now ev e e' :
  runEvent w now ev e = Some e' -> touchesNoStale now ev e -> zoneConfig ns zone M w now ev e ->
  slotStep M (load now (resAt e (zoneKey ns zone))) (load now (resAt e' (zoneKey ns zone))).
Proof.
  intros Hrun Hstale [Hmax Hrec].
  destruct ev as [req|ns' z' a|ns' z' r|ns' z' r|ns' z' a ph|ns' z'|ns' r' robot|ns' r' robot|ns'|mode|v];
    cbn [runEvent] in Hrun.
  - simplify_eq. by apply request_slotStep.
  - simplify_eq. rewrite ReleaseReservation_resAt. case_match; eauto with swarm.
  - destruct (OnRobotEnteredZone w e ns' z' r now) as [[e1 w1]|] eqn:He; simplify_eq/=.
    rewrite (updateZone_resAt _ _ _ _ _ _ _ _ _ He). case_bool_decide as Hk; [|eauto with swarm].
    rewrite enterFirst_load; [eauto with swarm|]. by rewrite Hk.
  - destruct (OnRobotExitedZone w e ns' z' r now) as [[e1 w1]|] eqn:He; simplify_eq/=.
    rewrite (updateZone_resAt _ _ _ _ _ _ _ _ _ He). case_bool_decide; eauto with swarm.
  - destruct (OnActionPhaseChanged w e ns' z' a ph now) as [[e1 w1]|] eqn:He; simplify_eq/=.
    unfold OnActionPhaseChanged in He. destruct (_ || _); [|destruct (ph =s _)].
    + pose proof (ReleaseReservation_resAt w e ns' z' a now (zoneKey ns zone)) as Hr.
      destruct (ReleaseReservation w e ns' z' a now). simplify_eq. cbn [fst] in Hr. rewrite Hr.
      case_match; eauto with swarm.
    + rewrite (updateZone_resAt _ _ _ _ _ _ _ _ _ He). case_bool_decide as Hk; [|eauto with swarm].
      apply load_le_slot, extendEntries_load. by rewrite Hk.
    + simplify_eq. eauto with swarm.
  - unfold ZoneStatus in Hrun. destruct (lockZones e ns' [z']) as [states e1] eqn:Hl.
    destruct (lockZones_book _ _ _ _ _ Hl) as [_ He].
    destruct (states !! zoneKey ns' z') as [zs|]; simplify_eq/=. destruct (counts zs now). simplify_eq/=.
    rewrite He. eauto with swarm.
  - destruct (ReserveResource w e ns' r' robot now) as [[o [e1 w1]]|] eqn:He; simplify_eq/=.
    rewrite (ReserveResource_resAt _ _ _ _ _ _ _ _ _ _ He). eauto with swarm.
  - destruct (ReleaseResource w e ns' r' robot now) as [[o [e1 w1]]|] eqn:He; simplify_eq/=.
    rewrite (ReleaseResource_resAt _ _ _ _ _ _ _ _ _ _ He). eauto with swarm.
  - simplify_eq. rewrite ReleaseAbsentRobots_resAt. eauto with swarm.
  - simplify_eq. destruct (Recover_resAt w e mode now (zoneKey ns zone)) as [->|(zones & z & keep & Hz & Hin & Hk & ->)];
      [eauto with swarm|]. apply slot_rebuild. split; [apply load_nonneg|].
    etrans; [apply load_filter|]. by eapply Hrec.
  - simplify_eq. unfold resAt, zoneAt. simpl. eauto with swarm.
Qed.

End refinement.

(** ** Properties of the slot book *)

Lemma slotStep_bound M n m : n <= M -> slotStep M n m -> m <= M.
Proof. intros Hn Hs. destruct Hs; lia. Qed.

Lemma slotStep_bound' M n n' m : n <= M -> n' <= n -> slotStep M n' m -> m <= M.
Proof. intros Hn Hle. apply slotStep_bound. lia. Qed.


(** A dock of one slot: a Low request is granted, and a Critical one then preempts it. *)
Definition exLow : event := EvRequest (exRequest "a1" "r1" "dock" ActionPriorityLow).
Definition exCritical : event := EvRequest (exRequest "a2" "r2" "dock" ActionPriorityCritical).
Definition runOr {W} `{ApiServer W} (w : W) (now : Time) (ev : event) (e : Engine) : Engine := default e (runEvent w now ev e).
Definition exAfterLow : Engine := runOr exStore 100 exLow exEngine.
Definition exAfterCritical : Engine := runOr exStore 200 exCritical exAfterLow.

Lemma exConfig now ev e :
  (forall m, ev <> EvRecover m) -> zoneConfig "site" "dock" 1 exStore now ev e.
Proof.
  intros Hev. split.
  - intros ns' zone' z [-> ->]%zoneKey_dock [_ [[_ ->]|[? _]]]%exStore_get; done.
  - intros mode zones z ->. by destruct (Hev mode).
Qed.


(** ** Properties of RequestReservation *)

(** A plain grant is sound: it is given only by a recovered engine, for a zone whose FleetZone was
    read and had a free slot (or no limit); it appends exactly one Reserved entry for the request,
    with the configured TTL, to the target zone; and it evicts nobody and changes no other zone's
    reservations. *)
Theorem RequestReservation_grant_sound {W} `{ApiServer W} (w : W) e req now res err e' w'
  (Hreq : RequestReservation w e req now = ((res, err), (e', w')))
  (Hok : rs_Status res = Granted) :
  e_recovered e = true /\ err = false /\ rs_PreemptedActionIDs res = [] /\
  (rq_TargetZone req <> "" -> exists z, getFleetZone w (rq_Namespace req) (rq_TargetZone req) = Some z /\
     (fzs_MaxConcurrentRobots (fz_Spec z) = 0 \/ load now (resAt e (targetKey req)) < fzs_MaxConcurrentRobots (fz_Spec z))) /\
  forall k, resAt e' k = if (rq_TargetZone req <>s "") && bool_decide (k = targetKey req)
                         then resAt e k ++ [grantedEntry req now (cfgFor e req)] else resAt e k.
Proof.
  pose proof (RequestReservation_cases w e req now) as Hc. rewrite Hreq in Hc.
  destruct Hc as [(Hd & _)|[(_ & Hp & Hr & He & Hz & Hk)|(z & v & zs' & Hp & _)]]; [by rewrite Hok in Hd|done|by rewrite Hok in Hp].
Qed.

Lemma RequestReservation_grant_sound_witness :
  resAt exAfterLow "site/dock" = [mkZoneReservation "r1" "a1" ActionPriorityLow ReservationReserved 100 (Some (100 + 120 * Second)) None] /\
  e_recovered exEngine = true.
Proof.
  split; [vm_compute; reflexivity|].
  assert (Hok : rs_Status (fst (fst (RequestReservation exStore exEngine (exRequest "a1" "r1" "dock" ActionPriorityLow) 100))) = Granted)
    by (vm_compute; reflexivity).
  destruct (RequestReservation exStore exEngine _ 100) as [[res err] [e' w']] eqn:E.
  exact (proj1 (RequestReservation_grant_sound _ _ _ _ _ _ _ _ E Hok)).
Defined.

(** Preemption is disciplined: only a Critical or High request may evict, only from a zone that is
    full, only an entry of a Normal or Low action the caller's condition lets go, and always one no
    other candidate should have gone before (a Reserved entry before an Occupied one, then the lower
    band, then the later grant, then the smaller action id); exactly that entry leaves and exactly
    the request's entry joins. *)
Theorem RequestReservation_preempts_in_order {W} `{ApiServer W} (w : W) e req now res err e' w'
  (Hreq : RequestReservation w e req now = ((res, err), (e', w')))
  (Hok : rs_Status res = PreemptedGranted) :
  (rq_Priority req = ActionPriorityCritical \/ rq_Priority req = ActionPriorityHigh) /\
  exists z v rest,
    getFleetZone w (rq_Namespace req) (rq_TargetZone req) = Some z /\
    fzs_MaxConcurrentRobots (fz_Spec z) <= load now (resAt e (targetKey req)) /\
    rs_PreemptedActionIDs res = [zr_ActionID v] /\
    (zr_Priority v = ActionPriorityNormal \/ zr_Priority v = ActionPriorityLow) /\
    (forall f, rq_MayEvict req = Some f -> f (zr_ActionID v) = true) /\
    (forall r, r ∈ resAt e (targetKey req) -> preemptCandidate (rq_MayEvict req) r = true -> lessPreemptible r v = false) /\
    resAt e (targetKey req) ≡ₚ v :: rest /\
    resAt e' (targetKey req) = rest ++ [grantedEntry req now (cfgFor e req)] /\
    forall k, k <> targetKey req -> resAt e' k = resAt e k.
Proof.
  pose proof (RequestReservation_cases w e req now) as Hc. rewrite Hreq in Hc.
  destruct Hc as [(Hd & _)|[(Hp & _)|(z & v & zs' & _ & Hpre & _ & _ & _ & Hcan & Hg & Hfull & Hpr & Hk)]];
    [by rewrite Hok in Hd|by rewrite Hok in Hp|].
  pose proof (preempt_spec (zoneAt e (targetKey req)) (rq_MayEvict req)) as Hs. rewrite Hpr in Hs.
  destruct Hs as (Hcand & Hperm & _ & Hmin). unfold preemptCandidate, isPreemptibleBand in Hcand.
  split. { unfold CanPreempt in Hcan. apply orb_true_iff in Hcan as [?|?]; str_bool; auto. }
  exists z, v, (zs_reservations zs'). split_and!; try done.
  - case_match eqn:Hb; [done|]. apply negb_false_iff, orb_true_iff in Hb as [?|?]; str_bool; auto.
  - intros f Hf. rewrite Hf in Hcand. by case_match.
  - by rewrite Hk, bool_decide_true.
  - intros k Hne. by rewrite Hk, bool_decide_false.
Qed.

Lemma RequestReservation_preempts_in_order_witness :
  map zr_ActionID (resAt exAfterCritical "site/dock") = ["a2"] /\
  exists z v rest, resAt exAfterLow "site/dock" ≡ₚ v :: rest /\
    getFleetZone exStore "site" "dock" = Some z /\ zr_ActionID v = "a1".
Proof.
  split; [vm_compute; reflexivity|].
  assert (Hok : rs_Status (fst (fst (RequestReservation exStore exAfterLow (exRequest "a2" "r2" "dock" ActionPriorityCritical) 200))) = PreemptedGranted)
    by (vm_compute; reflexivity).
  assert (Hids : rs_PreemptedActionIDs (fst (fst (RequestReservation exStore exAfterLow (exRequest "a2" "r2" "dock" ActionPriorityCritical) 200))) = ["a1"])
    by (vm_compute; reflexivity).
  destruct (RequestReservation exStore exAfterLow _ 200) as [[res err] [e' w']] eqn:E.
  destruct (RequestReservation_preempts_in_order _ _ _ _ _ _ _ _ E Hok) as (_ & z & v & rest & Hg & _ & Hid & _ & _ & _ & Hp & _).
  exists z, v, rest. split_and!; [exact Hp|exact Hg|]. cbn [fst] in Hids. rewrite Hid in Hids. by injection Hids.
Defined.

(** The engine fails closed: before recovery completes, and whenever the target FleetZone cannot
    be read, a request is Denied as tde_unavailable; and a Denied request, for whatever reason,
    changes no zone's state and writes nothing to the API server. *)
Theorem RequestReservation_fails_closed {W} `{ApiServer W} (w : W) e req now :
  let '((res, err), (e', w')) := RequestReservation w e req now in
  (e_recovered e = false \/ (rq_TargetZone req <> "" /\ getFleetZone w (rq_Namespace req) (rq_TargetZone req) = None) ->
     rs_Status res = Denied /\ rs_DeniedReason res = DeniedTDEUnavailable) /\
  (rs_Status res = Denied -> (forall k, zoneAt e' k = zoneAt e k) /\ w' = w).
Proof.
  pose proof (RequestReservation_cases w e req now) as Hc.
  destruct (RequestReservation w e req now) as [[res err] [e' w']] eqn:E. split.
  - unfold RequestReservation in E. intros [Hrec|[Ht Hz]].
    + rewrite Hrec in E. by simplify_eq/=.
    + destruct (e_recovered e); cbn [negb] in E; [|by simplify_eq/=].
      destruct (lockZones _ _ _). apply eqb_s_false in Ht. rewrite Ht, Hz in E. by simplify_eq/=.
  - intros Hd. destruct Hc as [(_ & ? & ?)|[(Hg & _)|(z & v & zs' & Hg & _)]]; [done| |]; by rewrite Hd in Hg.
Qed.

(** ** An expired entry is still evicted *)

(** A bay of two slots. [a0]'s robot enters; [a1]'s reservation is granted and expires unused, and
    [a2] is granted the slot it no longer counts for. *)
Definition exBayStore : store := storeOf [exZone "bay" 2 []] [].
Definition exBayRun : list (Time * event) :=
  [(1 * Second, EvRequest (exRequest "a0" "r0" "bay" ActionPriorityHigh));
   (2 * Second, EvEnter "site" "bay" "r0");
   (3 * Second, EvRequest (exRequest "a1" "r1" "bay" ActionPriorityLow));
   (200 * Second, EvRequest (exRequest "a2" "r2" "bay" ActionPriorityHigh))].
Definition exBayEngine : Engine := fold_left (fun e ev => runOr exBayStore (fst ev) (snd ev) e) exBayRun exEngine.

(** The condition on expired entries is needed: in a run from a fresh engine, a zone of two slots
    has both taken by live entries while the expired entry of a Low action is still listed; a
    Critical request then evicts the expired entry, which frees nothing, and is PreemptedGranted,
    so three live entries share two slots. *)
Theorem expired_victim_overgrants :
  let now := 201 * Second in
  let r := RequestReservation exBayStore exBayEngine (exRequest "a3" "r3" "bay" ActionPriorityCritical) now in
  load now (resAt exBayEngine "site/bay") = 2 /\
  rs_Status (fst (fst r)) = PreemptedGranted /\
  rs_PreemptedActionIDs (fst (fst r)) = ["a1"] /\
  load now (resAt (fst (snd r)) "site/bay") = 3.
Proof. vm_compute. split_and!; reflexivity. Qed.
