(* ===== verification/TdeResources.v ===== *)
(** Shared resources in one handler of the engine: none leaves a resource with more holders than
    its capacity, or with a robot waiting while a unit is free; reserving is idempotent; and what a
    release tells the promoted robot. *)

From S2P Require Import Prelude.
From S2P Require Import Types.
From S2P Require Import RobotId.
From S2P Require Import Tde.
From S2P Require Import TdeEngine.
From S2P Require Import TdeSafety.

(** Capacities by zone key and resource name. *)
Definition capacities : Type := string -> string -> Z.

Definition wfState (cap : capacities) (key : string) (zs : zoneState) : Prop :=
  forall r q, zs_resources zs !! r = Some q -> srq_ResourceName q = r /\ queueWf (cap key r) q.

Definition mapWf (cap : capacities) (states : gmap string zoneState) : Prop :=
  forall k zs, states !! k = Some zs -> wfState cap k zs.

(** Every queue of the engine is named by its key and within its capacity. *)
Definition engineWf (cap : capacities) (e : Engine) : Prop := forall k, wfState cap k (zoneAt e k).

Definition capOk (cap : capacities) : Prop := forall k r, 0 < cap k r <= MaxInt32.

(** The server declares those capacities. *)
Definition declares {W} `{ApiServer W} (cap : capacities) (w : W) : Prop :=
  forall ns zone r, resourceCapacity w ns zone r = cap (zoneKey ns zone) r.

(** A recovery reads persisted queues that are within them. *)
Definition persistedWf {W} `{ApiServer W} (cap : capacities) (w : W) : Prop :=
  forall zones z q, listAllFleetZones w = Some zones -> z ∈ zones ->
    q ∈ fzt_SharedResourceQueues (fz_Status z) ->
    queueWf (cap (zoneKey (fz_Namespace z) (fz_Name z)) (srq_ResourceName q)) q.

Section wf.
Context {W : Type} `{ApiServer W} (cap : capacities) (Hcap : capOk cap).
Implicit Types (w : W) (e : Engine) (states : gmap string zoneState).

Lemma wfState_empty k : wfState cap k emptyZoneState.
Proof. intros r q Hq. cbn [zs_resources emptyZoneState] in Hq. by rewrite lookup_empty in Hq. Qed.

Lemma lockZones_wf e ns zones states e1 :
  engineWf cap e -> lockZones e ns zones = (states, e1) ->
  mapWf cap states /\ engineWf cap e1 /\ (forall k, k ∈ dom states -> exists z, k = zoneKey ns z).
Proof.
  intros Hw Hl. pose proof (lockZones_spec e ns zones) as Hs. rewrite Hl in Hs. destruct Hs as (Hst & Hz & _).
  split_and!.
  - intros k zs Hk. rewrite Hst in Hk. case_decide; simplify_eq. apply Hw.
  - intros k. rewrite Hz. apply Hw.
  - intros k [zs Hk]%elem_of_dom. rewrite Hst in Hk. case_decide as Hin; simplify_eq.
    apply elem_of_lockOrder in Hin as (z & -> & _). eauto.
Qed.

Lemma unlock_wf e1 states : mapWf cap states -> engineWf cap e1 -> engineWf cap (unlock e1 states).
Proof.
  intros Hm He k. rewrite unlock_zoneAt. destruct (states !! k) eqn:Hk; simpl; [by apply Hm|apply He].
Qed.

Lemma mapWf_insert states k zs : mapWf cap states -> wfState cap k zs -> mapWf cap (<[k := zs]> states).
Proof. intros Hm Hz k' zs' Hk. destruct (decide (k = k')) as [->|]; simplify_map_eq; eauto. Qed.

(** A change of the reservation list alone. *)
Lemma wfState_reservations k zs zs' :
  wfState cap k zs -> zs_resources zs' = zs_resources zs -> wfState cap k zs'.
Proof. intros Hz Heq r q. rewrite Heq. apply Hz. Qed.

Lemma mapWf_alter states k (f : zoneState -> zoneState) :
  mapWf cap states -> (forall zs, zs_resources (f zs) = zs_resources zs) -> mapWf cap (alter f k states).
Proof.
  intros Hm Hf k' zs'. rewrite lookup_alter. case_decide as Hk; [subst k'|by apply Hm].
  destruct (states !! k) as [zs|] eqn:Hs; simpl; [|done]. intros [= <-].
  eapply wfState_reservations; [by apply Hm|apply Hf].
Qed.

Lemma queueOrEmpty_wf k zs r : wfState cap k zs ->
  srq_ResourceName (queueOrEmpty zs r) = r /\ queueWf (cap k r) (queueOrEmpty zs r).
Proof.
  intros Hz. unfold queueOrEmpty. destruct (zs_resources zs !! r) as [q|] eqn:Hq; simpl; [by apply Hz|].
  split; [done|]. split; simpl; [|done]. specialize (Hcap k r). lia.
Qed.

Lemma withQueue_wf k zs r q :
  wfState cap k zs -> srq_ResourceName q = r -> queueWf (cap k r) q -> wfState cap k (withQueue zs r q).
Proof.
  intros Hz Hn Hq r' q'. unfold withQueue. simpl. intros Hl.
  destruct (decide (r = r')) as [->|]; simplify_map_eq; eauto.
Qed.

Lemma grantOrQueue_wf c q en now p : 0 < c <= MaxInt32 -> queueWf c q ->
  srq_ResourceName (grantOrQueue q en now c p) = srq_ResourceName q /\ queueWf c (grantOrQueue q en now c p).
Proof.
  intros Hc [Hle Hwait]. unfold grantOrQueue. rewrite int32_of_id by (unfold MaxInt32 in *; lia).
  destruct (Z.ltb_spec (Z.of_nat (length (srq_CurrentHolders q))) c) as [Hlt|Hge].
  - split; [done|]. split; simpl; rewrite length_app; simpl; [lia|]. intros Hne. apply Hwait in Hne. lia.
  - split; [done|]. split; simpl; [done|]. intros _. lia.
Qed.

Lemma releaseHolder_name q a now c : srq_ResourceName (releaseHolder q a now c) = srq_ResourceName q.
Proof. unfold releaseHolder. case_match; [done|]. by destruct (backfill _ _ _ _). Qed.

Lemma grantResource_wf w req now states r :
  declares cap w -> mapWf cap states -> mapWf cap (grantResource w req now states r).
Proof.
  intros Hd Hm. unfold grantResource. set (key := zoneKey _ _).
  destruct (states !! key) as [zs|] eqn:Hk; [|done]. pose proof (Hm _ _ Hk) as Hz.
  apply mapWf_insert; [done|]. rewrite Hd. fold key.
  destruct (queueOrEmpty_wf key zs (rr_ResourceName r) Hz) as [Hn Hq].
  destruct (grantOrQueue_wf (cap key (rr_ResourceName r)) (queueOrEmpty zs (rr_ResourceName r))
    (mkWaitQueueEntry (rq_RobotID req) (rq_ActionID req) (rq_Priority req) now (rr_EstimatedDurationSeconds r))
    now (resourcePolicy w (rq_Namespace req) (rr_ZoneName r) (rr_ResourceName r)) (Hcap _ _) Hq) as [Hn' Hq'].
  apply withQueue_wf; [done|by rewrite Hn'|done].
Qed.

Lemma grantResources_wf w req now states :
  declares cap w -> mapWf cap states -> mapWf cap (grantResources w req states now).
Proof.
  intros Hd. unfold grantResources. revert states. induction (rq_Resources req) as [|r rs IH]; intros states Hm; [done|].
  cbn [fold_left]. apply IH. by apply grantResource_wf.
Qed.

Lemma releaseActionHolds_wf w ns a states now :
  declares cap w -> mapWf cap states -> (forall k, k ∈ dom states -> exists z, k = zoneKey ns z) ->
  mapWf cap (fst (releaseActionHolds w ns a states now)).
Proof.
  intros Hd Hm Hkeys k zs. unfold releaseActionHolds. cbn [fst]. rewrite map_lookup_imap.
  destruct (states !! k) as [zs0|] eqn:Hk; [|done]. cbn [mbind option_bind]. intros [= <-] r q.
  unfold releaseZoneHolds. cbn [zs_resources]. rewrite lookup_fmap.
  destruct (zs_resources zs0 !! r) as [q0|] eqn:Hq0; [|done]. cbn [fmap option_fmap option_map].
  destruct (Hm _ _ Hk _ _ Hq0) as [Hn Hw0]. destruct (queueHasAction q0 a); intros [= <-]; [|done].
  destruct (Hkeys k) as [z ->]; [by apply elem_of_dom|]. rewrite keyZone_zoneKey, Hn, Hd.
  split; [by rewrite releaseHolder_name|]. apply releaseHolder_queueWf; [apply Hcap|done].
Qed.

Lemma commitGrant_wf w e req now cfg states :
  declares cap w -> mapWf cap states -> engineWf cap e -> engineWf cap (fst (commitGrant w e req now cfg states)).
Proof.
  intros Hd Hm He. unfold commitGrant. cbn [fst]. apply unlock_wf; [|done]. apply grantResources_wf; [done|].
  unfold reserveTarget. case_match; [|done]. by apply mapWf_alter.
Qed.

Lemma updateZone_wf w e ns zone now f e' w' :
  engineWf cap e -> updateZone w e ns zone now f = Some (e', w') -> engineWf cap e'.
Proof.
  intros He. unfold updateZone. destruct (lockZones e ns [zone]) as [states e1] eqn:Hl.
  destruct (lockZones_wf _ _ _ _ _ He Hl) as (Hm & He1 & _).
  destruct (states !! zoneKey ns zone) as [zs|] eqn:Hk; [|done]. intros [= <- <-].
  apply unlock_wf; [|done]. apply mapWf_insert; [done|]. eapply wfState_reservations; [by apply Hm|done].
Qed.

(** A pass over the queues of a zone keeps them well-formed when each step does. *)
Definition passOk (k : string) (f : string -> SharedResourceQueue -> queuePass) : Prop :=
  forall r q, srq_ResourceName q = r -> queueWf (cap k r) q ->
    srq_ResourceName (qp_queue (f r q)) = r /\ queueWf (cap k r) (qp_queue (f r q)).

Lemma zonePassOver_wf k f zs : passOk k f -> wfState cap k zs -> wfState cap k (zp_zone (zonePassOver f zs)).
Proof.
  intros Hf Hz. unfold zonePassOver.
  assert (Hg : forall names p, wfState cap k (zp_zone p) -> wfState cap k (zp_zone (fold_left (zonePassStep f) names p))).
  { induction names as [|n names IH]; intros p Hp; [done|]. apply IH. unfold zonePassStep.
    destruct (zp_err p); [done|]. destruct (zs_resources (zp_zone p) !! n) as [q|] eqn:Hq; [|done]. simpl.
    destruct (Hp _ _ Hq) as [Hn Hw]. destruct (Hf n q Hn Hw). by apply withQueue_wf. }
  by apply Hg.
Qed.

(** The two release passes are folds of steps that keep the queue or release one entry of it. *)
Lemma foldPass_wf k r (step : queuePass -> string -> queuePass) ids : forall p,
  (forall p id, step p id = p \/ qp_queue (step p id) = qp_queue p \/
     exists now, qp_queue (step p id) = releaseHolder (qp_queue p) id now (cap k r)) ->
  srq_ResourceName (qp_queue p) = r -> queueWf (cap k r) (qp_queue p) ->
  srq_ResourceName (qp_queue (fold_left step ids p)) = r /\ queueWf (cap k r) (qp_queue (fold_left step ids p)).
Proof.
  induction ids as [|id ids IH]; intros p Hstep Hn Hw; [done|]. cbn [fold_left]. apply IH; [done|..].
  - destruct (Hstep p id) as [->|[->|[now ->]]]; [done|done|]. by rewrite releaseHolder_name.
  - destruct (Hstep p id) as [->|[->|[now ->]]]; [done|done|]. apply releaseHolder_queueWf; [apply Hcap|done].
Qed.

Lemma absentQueue_ok w ns zone now : declares cap w -> passOk (zoneKey ns zone) (absentQueue w ns zone now).
Proof.
  intros Hd r q Hn Hw. unfold absentQueue. apply foldPass_wf; [|done|done].
  intros p id. unfold absentStep. destruct (qp_err p); [by left|]. case_match; [by left|].
  destruct (keepAdapterEntry w ns (qp_queue p) id) as [[]|]; [by left| |by right; left].
  right; right. exists now. unfold releaseEntry. simpl. by rewrite Hd.
Qed.

Lemma recoverQueue_ok w z kept now :
  declares cap w -> passOk (zoneKey (fz_Namespace z) (fz_Name z)) (recoverQueue w z kept now).
Proof.
  intros Hd r q Hn Hw. unfold recoverQueue.
  assert (Hnames : forall ids p, srq_ResourceName (qp_queue p) = r ->
    srq_ResourceName (qp_queue (fold_left (recoverStep w z kept now) ids p)) = r /\
    (queueWf (cap (zoneKey (fz_Namespace z) (fz_Name z)) r) (qp_queue p) ->
     queueWf (cap (zoneKey (fz_Namespace z) (fz_Name z)) r) (qp_queue (fold_left (recoverStep w z kept now) ids p)))).
  { induction ids as [|id ids IH]; intros p Hp; [done|]. cbn [fold_left].
    assert (Hone : srq_ResourceName (qp_queue (recoverStep w z kept now p id)) = r /\
      (queueWf (cap (zoneKey (fz_Namespace z) (fz_Name z)) r) (qp_queue p) ->
       queueWf (cap (zoneKey (fz_Namespace z) (fz_Name z)) r) (qp_queue (recoverStep w z kept now p id)))).
    { unfold recoverStep. destruct (qp_err p); [done|]. case_bool_decide; [done|].
      destruct (keepAdapterEntry w (fz_Namespace z) (qp_queue p) id) as [[]|]; [done| |done].
      unfold releaseEntry. simpl. rewrite releaseHolder_name, Hp, Hd. split; [done|].
      apply releaseHolder_queueWf, Hcap. }
    destruct Hone as [Hn1 Hw1]. destruct (IH _ Hn1) as [? Hw2]. eauto. }
  destruct (Hnames (queueActionIDs q) (mkQueuePass q [] false None) Hn). eauto.
Qed.

Lemma queuesFromStatus_wf k qs res :
  (forall q, q ∈ qs -> queueWf (cap k (srq_ResourceName q)) q) -> wfState cap k (mkZoneState res (queuesFromStatus qs)).
Proof.
  intros Hq. unfold queuesFromStatus.
  assert (Hg : forall qs m, (forall q, q ∈ qs -> queueWf (cap k (srq_ResourceName q)) q) ->
    wfState cap k (mkZoneState res m) ->
    wfState cap k (mkZoneState res (fold_left (fun m q => <[srq_ResourceName q := q]> m) qs m))).
  { induction qs0 as [|q qs0 IH]; intros m Hqs Hm; [done|]. cbn [fold_left]. apply IH; [set_solver|].
    apply (withQueue_wf k (mkZoneState res m)); [done|done|]. apply Hqs. by left. }
  apply Hg; [done|]. intros r q Hr. cbn [zs_resources] in Hr. by rewrite lookup_empty in Hr.
Qed.

Lemma recoverZone_wf w e z mode now :
  declares cap w -> engineWf cap e ->
  (forall q, q ∈ fzt_SharedResourceQueues (fz_Status z) ->
     queueWf (cap (zoneKey (fz_Namespace z) (fz_Name z)) (srq_ResourceName q)) q) ->
  engineWf cap (fst (snd (recoverZone w e z mode now))).
Proof.
  intros Hd He Hq. unfold recoverZone. destruct (lockZones e _ _) as [states e1] eqn:Hl.
  destruct (lockZones_wf _ _ _ _ _ He Hl) as (Hm & He1 & _).
  match goal with |- context [zonePassOver ?f ?zs] => set (p := zonePassOver f zs) end.
  assert (Hp : engineWf cap (unlock e1 (<[zoneKey (fz_Namespace z) (fz_Name z) := zp_zone p]> states))).
  { apply unlock_wf; [|done]. apply mapWf_insert; [done|]. apply zonePassOver_wf; [by apply recoverQueue_ok|].
    by apply queuesFromStatus_wf. }
  destruct (zp_err p); [exact Hp|]. destruct (patchFleetZoneStatus _ _); exact Hp.
Qed.

End wf.

Section events.
Context {W : Type} `{ApiServerLaws W} (cap : capacities) (Hcap : capOk cap).
Implicit Types (w : W) (e : Engine).

(** A status patch does not change what the server declares. *)
Lemma patch_declares w z w' : patchFleetZoneStatus w z = Some w' -> declares cap w -> declares cap w'.
Proof.
  intros Hp Hd ns zone r. rewrite <- Hd. unfold resourceCapacity.
  destruct (decide ((fz_Namespace z, fz_Name z) = (ns, zone))) as [Heq|Hne].
  - simplify_eq. rewrite (patch_get _ _ _ Hp). by destruct (getFleetZone w _ _).
  - by rewrite (patch_get_other _ _ _ _ _ Hp Hne).
Qed.

Lemma mirror_declares w ns zone zs now : declares cap w -> declares cap (mirror w ns zone zs now).
Proof.
  intros Hd. unfold mirror. destruct (getFleetZone w ns zone) as [z|]; [|done].
  destruct (patchFleetZoneStatus _ _) eqn:Hp; simpl; [by eapply patch_declares|done].
Qed.

Lemma absentZones_wf e1 ns now names : forall p,
  declares cap (ap_world p) -> mapWf cap (ap_states p) -> engineWf cap e1 ->
  engineWf cap (unlock e1 (ap_states (fold_left (absentZone ns now) names p))).
Proof.
  induction names as [|z names IH]; intros p Hd Hm He; [by apply unlock_wf|].
  cbn [fold_left]. unfold absentZone at 2. destruct (ap_err p); [by apply IH|].
  destruct (ap_states p !! zoneKey ns z) as [zs|] eqn:Hz; [|by apply IH].
  assert (Hm' : mapWf cap (<[zoneKey ns z := zp_zone (zonePassOver (absentQueue (ap_world p) ns z now) zs)]> (ap_states p))).
  { apply mapWf_insert; [done|]. apply zonePassOver_wf; [by apply absentQueue_ok|by apply Hm]. }
  destruct (zp_err _); apply IH; cbn [ap_states ap_world]; try done.
  case_match; [by apply mirror_declares|done].
Qed.

Lemma recoverZones_wf mode now zones : forall w e ps,
  declares cap w -> engineWf cap e ->
  (forall z q, z ∈ zones -> q ∈ fzt_SharedResourceQueues (fz_Status z) ->
     queueWf (cap (zoneKey (fz_Namespace z) (fz_Name z)) (srq_ResourceName q)) q) ->
  engineWf cap (fst (snd (recoverZones w e zones mode now ps))).
Proof.
  induction zones as [|z zones IH]; intros w e ps Hd He Hq; [done|]. cbn [recoverZones].
  pose proof (recoverZone_wf cap Hcap w e z mode now Hd He) as Hz.
  assert (Hd' : forall ps e1 w1, recoverZone w e z mode now = (Ok ps, (e1, w1)) -> declares cap w1).
  { unfold recoverZone. destruct (lockZones e _ _). intros ps' e1 w1. destruct (zp_err _); [done|].
    destruct (patchFleetZoneStatus _ _) eqn:Hp; [|done]. intros [= _ _ <-]. by eapply patch_declares. }
  destruct (recoverZone w e z mode now) as [[ps'|err] [e1 w1]]; cbn [fst snd] in *.
  - apply IH; [by eapply Hd'| |set_solver]. apply Hz. intros q Hq'. eapply Hq; [by left|done].
  - apply Hz. intros q Hq'. eapply Hq; [by left|done].
Qed.

Lemma ReleaseReservation_wf w e ns z a now :
  declares cap w -> engineWf cap e -> engineWf cap (fst (ReleaseReservation w e ns z a now)).
Proof.
  intros Hd He. unfold ReleaseReservation. destruct (lockZones e ns _) as [states e1] eqn:Hl.
  destruct (lockZones_wf cap _ _ _ _ _ He Hl) as (Hm & He1 & Hkeys).
  pose proof (releaseActionHolds_wf cap Hcap w ns a (alter (fun zs => mkZoneState (removeByAction (zs_reservations zs) a)
    (zs_resources zs)) (zoneKey ns z) states) now Hd) as Hr.
  destruct (releaseActionHolds _ _ _ _ _) as [states' touched]. cbn [fst] in *. apply unlock_wf; [|done].
  apply Hr; [by apply mapWf_alter|]. intros k. rewrite dom_alter_L. apply Hkeys.
Qed.

Lemma RequestReservation_wf w e req now :
  declares cap w -> engineWf cap e -> engineWf cap (fst (snd (RequestReservation w e req now))).
Proof.
  intros Hd He. unfold RequestReservation. destruct (e_recovered e); cbn [negb]; [|done].
  destruct (lockZones e _ _) as [states e1] eqn:Hl. destruct (lockZones_wf cap _ _ _ _ _ He Hl) as (Hm & He1 & Hkeys).
  assert (Hg : engineWf cap (fst (commitGrant w e1 req now (configFor e (rq_Namespace req)) states)))
    by by apply commitGrant_wf.
  case_match; [exact Hg|]. destruct (getFleetZone _ _ _); [|done].
  destruct (states !! _) as [zs|] eqn:Hs; [|exact Hg]. destruct (counts zs now). case_match; [|exact Hg].
  destruct (if CanPreempt _ then _ else None) as [[v zs']|] eqn:Hp; [|done].
  pose proof (releaseActionHolds_wf cap Hcap w (rq_Namespace req) (zr_ActionID v)
    (<[zoneKey (rq_Namespace req) (rq_TargetZone req) := zs']> states) now Hd) as Hr.
  destruct (releaseActionHolds _ _ _ _ _) as [states' touched]. cbn [fst snd] in *. apply commitGrant_wf; [done|done| |done].
  apply Hr.
  - apply mapWf_insert; [done|]. eapply wfState_reservations; [by apply (Hm _ _ Hs)|].
    destruct (CanPreempt _); [|done]. pose proof (preempt_spec zs (rq_MayEvict req)) as Hps.
    rewrite Hp in Hps. apply Hps.
  - intros k. rewrite dom_insert_L. intros [->%elem_of_singleton|Hin]%elem_of_union; eauto.
Qed.

Lemma ReserveResource_wf w e ns r robot now o ew :
  declares cap w -> engineWf cap e -> ReserveResource w e ns r robot now = Some (o, ew) -> engineWf cap (fst ew).
Proof.
  intros Hd He. unfold ReserveResource. destruct (e_recovered e); cbn [negb]; [|by intros [= <- <-]].
  destruct (resourceZone w ns r) as [zone|]; [|by intros [= <- <-]].
  destruct (lockZones e ns [zone]) as [states e1] eqn:Hl. destruct (lockZones_wf cap _ _ _ _ _ He Hl) as (Hm & He1 & _).
  destruct (states !! zoneKey ns zone) as [zs|] eqn:Hk; [|done]. cbn [mbind option_bind].
  pose proof (Hm _ _ Hk) as Hz. destruct (queueOrEmpty_wf cap Hcap (zoneKey ns zone) zs r Hz) as [Hn Hq].
  assert (Hz' : wfState cap (zoneKey ns zone) (withQueue zs r (queueOrEmpty zs r))) by by apply withQueue_wf.
  assert (H1 : engineWf cap (unlock e1 (<[zoneKey ns zone := withQueue zs r (queueOrEmpty zs r)]> states)))
    by (apply unlock_wf; [by apply mapWf_insert|done]).
  destruct (robotHolds _ _); [intros [= <- <-]; exact H1|].
  destruct (queueRank (queueOrEmpty zs r) robot); [intros [= <- <-]; exact H1|].
  destruct (grantOrQueue_wf (cap (zoneKey ns zone) r) (queueOrEmpty zs r) (adapterEntry robot now) now
    (resourcePolicy w ns zone r) (Hcap _ _) Hq) as [Hn' Hq'].
  cbv zeta. rewrite !Hd. revert Hn' Hq'. generalize (grantOrQueue (queueOrEmpty zs r) (adapterEntry robot now) now
    (cap (zoneKey ns zone) r) (resourcePolicy w ns zone r)). intros q' Hn' Hq'.
  case_match; intros [= <- <-]; apply unlock_wf; try exact H1;
    (apply mapWf_insert; [done|]; apply withQueue_wf; [done|by rewrite Hn'|done]).
Qed.

Lemma ReleaseResource_wf w e ns r robot now o ew :
  declares cap w -> engineWf cap e -> ReleaseResource w e ns r robot now = Some (o, ew) -> engineWf cap (fst ew).
Proof.
  intros Hd He. unfold ReleaseResource. destruct (resourceZone w ns r) as [zone|]; [|by intros [= <- <-]].
  destruct (lockZones e ns [zone]) as [states e1] eqn:Hl. destruct (lockZones_wf cap _ _ _ _ _ He Hl) as (Hm & He1 & _).
  destruct (states !! zoneKey ns zone) as [zs|] eqn:Hk; [|done]. cbn [mbind option_bind].
  destruct (zs_resources zs !! r) as [q|] eqn:Hq; intros [= <- <-]; [|exact He1].
  destruct (Hm _ _ Hk _ _ Hq) as [Hn Hw]. apply unlock_wf; [|done]. apply mapWf_insert; [done|]. rewrite Hd.
  apply withQueue_wf; [by apply Hm|by rewrite releaseHolder_name|]. apply releaseHolder_queueWf; [apply Hcap|done].
Qed.

Lemma ReleaseAbsentRobots_wf w e ns now :
  declares cap w -> engineWf cap e -> engineWf cap (fst (snd (ReleaseAbsentRobots w e ns now))).
Proof.
  intros Hd He. unfold ReleaseAbsentRobots. destruct (e_recovered e); cbn [negb]; [|done].
  destruct (listFleetZones w ns) as [zl|]; [|done]. destruct (fz_Name <$> _) as [|n names]; [done|].
  destruct (lockZones e ns _) as [states e1] eqn:Hl. destruct (lockZones_wf cap _ _ _ _ _ He Hl) as (Hm & He1 & _).
  pose proof (absentZones_wf e1 ns now (sort_Strings (n :: names)) (mkAbsentPass states w [] None) Hd Hm He1) as Hp.
  destruct (ap_err _); exact Hp.
Qed.

Lemma Recover_wf w e mode now :
  declares cap w -> persistedWf cap w -> engineWf cap e -> engineWf cap (fst (snd (Recover w e mode now))).
Proof.
  intros Hd Hper He. unfold Recover. destruct (listAllFleetZones w) as [zones|] eqn:Hl; [|done].
  pose proof (recoverZones_wf mode now zones w e [] Hd He (fun z q => Hper zones z q Hl)) as Hz.
  destruct (recoverZones w e zones mode now []) as [[ps|err] [e' w']]; exact Hz.
Qed.

Lemma event_wf w now ev e e' :
  declares cap w -> persistedWf cap w -> engineWf cap e -> runEvent w now ev e = Some e' -> engineWf cap e'.
Proof.
  intros Hd Hper He Hrun.
  destruct ev as [req|ns z a|ns z r|ns z r|ns z a ph|ns z|ns r robot|ns r robot|ns|mode|v]; cbn [runEvent] in Hrun.
  - simplify_eq. by apply RequestReservation_wf.
  - simplify_eq. by apply ReleaseReservation_wf.
  - destruct (OnRobotEnteredZone w e ns z r now) as [[]|] eqn:Hx; simplify_eq/=. by eapply updateZone_wf.
  - destruct (OnRobotExitedZone w e ns z r now) as [[]|] eqn:Hx; simplify_eq/=. by eapply updateZone_wf.
  - unfold OnActionPhaseChanged in Hrun. case_match; [simplify_eq/=; by apply ReleaseReservation_wf|].
    case_match; [|by simplify_eq/=]. destruct (updateZone _ _ _ _ _ _) as [[]|] eqn:Hx; simplify_eq/=. by eapply updateZone_wf.
  - unfold ZoneStatus in Hrun. destruct (lockZones e ns [z]) as [states e1] eqn:Hl.
    destruct (lockZones_wf cap _ _ _ _ _ He Hl) as (_ & He1 & _).
    destruct (states !! zoneKey ns z) as [zs|]; simplify_eq/=. destruct (counts zs now). by simplify_eq/=.
  - destruct (ReserveResource w e ns r robot now) as [[o ew]|] eqn:Hx; simplify_eq/=. by eapply ReserveResource_wf.
  - destruct (ReleaseResource w e ns r robot now) as [[o ew]|] eqn:Hx; simplify_eq/=. by eapply ReleaseResource_wf.
  - simplify_eq. by apply ReleaseAbsentRobots_wf.
  - simplify_eq. by apply Recover_wf.
  - simplify_eq. exact He.
Qed.
End events.

(** ** Properties *)

Lemma New_wf cap cfg : engineWf cap (New cfg).
Proof. intros k. unfold zoneAt, New. simpl. rewrite lookup_empty. apply wfState_empty. Qed.

Lemma exCap_ok : capOk exCap.
Proof. intros k r. unfold exCap, MaxInt32. case_match; lia. Qed.

(** Three robots ask for the two cars of the lift. *)
Lemma exStore_declares : declares exCap exStore.
Proof.
  intros ns zone r. unfold resourceCapacity, exCap. destruct (zoneKey ns zone =s "site/dock") eqn:Hk.
  - apply eqb_s_true, zoneKey_dock in Hk as [-> ->].
    assert (Hz : getFleetZone exStore "site" "dock" = Some (exZone "dock" 1 [mkSharedResource "lift" 2 ReservationFIFO]))
      by (vm_compute; reflexivity).
    rewrite Hz. unfold exZone, first_match. cbn [fz_Spec fzs_SharedResources sr_Name sr_Capacity andb].
    rewrite (String.eqb_sym "lift" r). by destruct (r =s "lift").
  - cbn [andb]. destruct (getFleetZone exStore ns zone) as [z|] eqn:Hg; [|done].
    apply exStore_get in Hg as [-> [[-> _]|[_ ->]]]; [by vm_compute in Hk|done].
Qed.

Lemma exStore_persisted : persistedWf exCap exStore.
Proof.
  intros zones z q Hl Hz. apply (storeOf_list exZones [] zones z Hl) in Hz. clear Hl. unfold exZones in Hz.
  set_unfold in Hz. intros Hq. exfalso. destruct Hz as [->|[->|[]]]; by apply not_elem_of_nil in Hq.
Qed.

Definition exLift (robot : string) : event := EvReserveResource "site" "lift" robot.
Definition exLift1 : Engine := runOr exStore 10 (exLift "r1") exEngine.
Definition exLift2 : Engine := runOr exStore 20 (exLift "r2") exLift1.
Definition exLift3 : Engine := runOr exStore 30 (exLift "r3") exLift2.

Lemma exLift3_wf : engineWf exCap exLift3.
Proof.
  pose proof (event_wf exCap exCap_ok exStore) as Hev. specialize Hev with (1 := exStore_declares) (2 := exStore_persisted).
  apply (Hev 30 (exLift "r3") exLift2); [|by vm_compute]. apply (Hev 20 (exLift "r2") exLift1); [|by vm_compute].
  apply (Hev 10 (exLift "r1") exEngine); [|by vm_compute]. exact (New_wf exCap DefaultConfig).
Qed.

Definition exLiftQueue : SharedResourceQueue :=
  mkSharedResourceQueue "lift"
    [mkResourceHolder "r1" "r1" ActionPriorityNormal 10; mkResourceHolder "r2" "r2" ActionPriorityNormal 20]
    [mkWaitQueueEntry "r3" "r3" ActionPriorityNormal 30 None].

(** ** Reserving and releasing on an adapter's behalf *)

Lemma queueRank_None q robot : queueRank q robot = None <-> existsb (fun x => wq_RobotID x =s robot) (srq_WaitQueue q) = false.
Proof. unfold queueRank. rewrite fmap_None, find_index_None, existsb_false. done. Qed.

Lemma grantOrQueue_grants q robot now c p :
  (int32_of (Z.of_nat (length (srq_CurrentHolders q))) <? c) = true ->
  robotHolds (grantOrQueue q (adapterEntry robot now) now c p) robot = true.
Proof.
  intros Hc. unfold grantOrQueue, robotHolds. rewrite Hc. simpl. rewrite existsb_app. simpl.
  by rewrite eqb_s_refl, orb_true_r.
Qed.

Lemma grantOrQueue_queues q robot now c p :
  (int32_of (Z.of_nat (length (srq_CurrentHolders q))) <? c) = false ->
  robotHolds (grantOrQueue q (adapterEntry robot now) now c p) robot = robotHolds q robot /\
  is_Some (queueRank (grantOrQueue q (adapterEntry robot now) now c p) robot).
Proof.
  intros Hc. unfold grantOrQueue. rewrite Hc. split; [done|].
  destruct (queueRank _ robot) eqn:Hr; [eauto|]. exfalso. apply queueRank_None in Hr.
  rewrite existsb_false in Hr.
  assert (Hin : adapterEntry robot now ∈ srq_WaitQueue (insertByPolicy q (adapterEntry robot now) p))
    by (rewrite insertByPolicy_perm; by left).
  apply Hr in Hin. simpl in Hin. by rewrite eqb_s_refl in Hin.
Qed.

(** Reserving a resource the robot already holds or waits for reports that, and changes nothing. *)
Lemma ReserveResource_again {W} `{ApiServer W} (w : W) e ns r robot now zone :
  e_recovered e = true -> resourceZone w ns r = Some zone -> zone <> "" ->
  let q := queueOrEmpty (zoneAt e (zoneKey ns zone)) r in
  (robotHolds q robot = true \/ is_Some (queueRank q robot)) ->
  is_Some (zs_resources (zoneAt e (zoneKey ns zone)) !! r) ->
  exists e2, ReserveResource w e ns r robot now =
    Some ((if robotHolds q robot then outcome ResourceGranted 0 ""
           else outcome ResourceQueued (default 0 (queueRank q robot)) ""), (e2, w)) /\
    forall k, zoneAt e2 k = zoneAt e k.
Proof.
  intros Hrec Hz Hne q Hin [q0 Hq0]. unfold ReserveResource. rewrite Hrec, Hz. cbn [negb].
  destruct (lockZones e ns [zone]) as [states e1] eqn:Hl.
  pose proof (lockZones_spec e ns [zone]) as Hs. rewrite Hl in Hs. destruct Hs as (Hst & Hz1 & _).
  assert (Hk : states !! zoneKey ns zone = Some (zoneAt e (zoneKey ns zone))).
  { rewrite Hst, decide_True; [done|]. apply elem_of_lockOrder. exists zone. split_and!; [done|by left|done]. }
  rewrite Hk. cbn [mbind option_bind]. fold q.
  set (e2 := unlock e1 _).
  assert (He2 : forall k, zoneAt e2 k = zoneAt e k).
  { intros k. unfold e2. rewrite unlock_zoneAt, Hz1. destruct (decide (k = zoneKey ns zone)) as [->|Hkk].
    - rewrite lookup_insert_eq. simpl. unfold q, queueOrEmpty. rewrite Hq0. simpl.
      unfold withQueue. rewrite insert_id by done. by destruct (zoneAt e (zoneKey ns zone)).
    - rewrite lookup_insert_ne by done. rewrite Hst. by case_decide. }
  destruct (robotHolds q robot) eqn:Hh; [by exists e2|].
  destruct Hin as [?|[pos Hpos]]; [done|]. rewrite Hpos. simpl. by exists e2.
Qed.

Lemma resourceZone_nonempty {W} `{ApiServer W} (w : W) ns r zone : resourceZone w ns r = Some zone -> zone <> "".
Proof.
  unfold resourceZone. destruct (listFleetZones w ns); [|done]. case_match eqn:E; [|done].
  intros [= <-]. by str_bool.
Qed.

(** The answer to a reserve is what the queue then holds for the robot. *)
Lemma ReserveResource_answer {W} `{ApiServer W} (w : W) e ns r robot now o e' w' :
  ReserveResource w e ns r robot now = Some (o, (e', w')) -> ro_State o <> Some ResourceDenied ->
  e_recovered e' = true /\
  exists zone, resourceZone w ns r = Some zone /\ zone <> "" /\
    is_Some (zs_resources (zoneAt e' (zoneKey ns zone)) !! r) /\
    let q := queueOrEmpty (zoneAt e' (zoneKey ns zone)) r in
    (robotHolds q robot = true \/ is_Some (queueRank q robot)) /\
    o = (if robotHolds q robot then outcome ResourceGranted 0 ""
         else outcome ResourceQueued (default 0 (queueRank q robot)) "").
Proof.
  unfold ReserveResource. destruct (e_recovered e) eqn:Hrec; cbn [negb]; [|by intros [= <- _ _] []].
  destruct (resourceZone w ns r) as [zone|] eqn:Hz; [|by intros [= <- _ _] []].
  destruct (lockZones e ns [zone]) as [states e1] eqn:Hl.
  pose proof (lockZones_spec e ns [zone]) as Hs. rewrite Hl in Hs. destruct Hs as (_ & _ & Hrec1 & _).
  destruct (states !! zoneKey ns zone) as [zs|]; [|done]. cbn [mbind option_bind].
  set (q := queueOrEmpty zs r). intros Hres _.
  assert (Hread : forall e1 q0, zoneAt (unlock e1 (<[zoneKey ns zone := withQueue (withQueue zs r q) r q0]> states)) (zoneKey ns zone)
      = withQueue (withQueue zs r q) r q0) by (intros; by rewrite unlock_zoneAt, lookup_insert_eq).
  assert (Hread1 : zoneAt (unlock e1 (<[zoneKey ns zone := withQueue zs r q]> states)) (zoneKey ns zone)
      = withQueue zs r q) by by rewrite unlock_zoneAt, lookup_insert_eq.
  assert (Hqe : forall zs0 q0, queueOrEmpty (withQueue zs0 r q0) r = q0)
    by (intros; unfold queueOrEmpty, withQueue; simpl; by rewrite lookup_insert_eq).
  assert (Hsome : forall zs0 q0, is_Some (zs_resources (withQueue zs0 r q0) !! r))
    by (intros; simpl; rewrite lookup_insert_eq; eauto).
  pose proof (resourceZone_nonempty _ _ _ _ Hz) as Hne.
  destruct (robotHolds q robot) eqn:Hh.
  { simplify_eq. split; [simpl; congruence|]. exists zone. rewrite Hread1, Hqe, Hh. split_and!; try done; try apply Hsome; by left. }
  destruct (queueRank q robot) as [pos|] eqn:Hp.
  { simplify_eq. split; [simpl; congruence|]. exists zone. rewrite Hread1, Hqe, Hh, Hp. split_and!; try done; try apply Hsome; right; eauto. }
  destruct (int32_of _ <? _) eqn:Hc; simplify_eq; (split; [simpl; congruence|]; exists zone; rewrite Hread, Hqe).
  - rewrite (grantOrQueue_grants q robot now _ _ Hc). split_and!; try done; try apply Hsome; by left.
  - destruct (grantOrQueue_queues q robot now _ (resourcePolicy w ns zone r) Hc) as [-> Hsm]. rewrite Hh.
    split_and!; try done; try apply Hsome; by right.
Qed.

(** Reserving a shared resource is idempotent: after a reserve that was not denied, reserving it
    again for the same robot gives the same answer (Granted, or Queued at the same position),
    changes no zone's state and writes nothing. *)
Theorem ReserveResource_idempotent {W} `{ApiServer W} (w w2 : W) e ns r robot now now2 o e' w'
  (Hfirst : ReserveResource w e ns r robot now = Some (o, (e', w')))
  (Hnot : ro_State o <> Some ResourceDenied)
  (Hsame : resourceZone w2 ns r = resourceZone w ns r) :
  exists e2, ReserveResource w2 e' ns r robot now2 = Some (o, (e2, w2)) /\ forall k, zoneAt e2 k = zoneAt e' k.
Proof.
  destruct (ReserveResource_answer _ _ _ _ _ _ _ _ _ Hfirst Hnot) as (Hrec & zone & Hz & Hne & Hsome & Hin & ->).
  rewrite Hz in Hsame. by eapply ReserveResource_again.
Qed.

Lemma ReserveResource_idempotent_witness :
  exists e2, ReserveResource exStore exLift3 "site" "lift" "r3" 99 = Some (outcome ResourceQueued 1 "", (e2, exStore)) /\
    forall k, zoneAt e2 k = zoneAt exLift3 k.
Proof.
  assert (Ho : fst <$> ReserveResource exStore exLift2 "site" "lift" "r3" 30 = Some (outcome ResourceQueued 1 ""))
    by (vm_compute; reflexivity).
  destruct (ReserveResource exStore exLift2 "site" "lift" "r3" 30) as [[o [e' w']]|] eqn:E; [|discriminate Ho].
  injection Ho as ->.
  assert (He : e' = exLift3) by (unfold exLift3, runOr, exLift; cbn [runEvent]; by rewrite E). subst e'.
  exact (ReserveResource_idempotent exStore exStore exLift2 "site" "lift" "r3" 30 99 _ _ _ E ltac:(discriminate) eq_refl).
Defined.

(** The first promoted waiter is a holder afterwards. *)
Lemma releaseHolder_promotes_head q robot now c next wq :
  c <= MaxInt32 -> queueWf c q -> srq_WaitQueue q = next :: wq ->
  existsb (fun h => rh_ActionID h =s robot) (srq_CurrentHolders q) = true ->
  robotHolds (releaseHolder q robot now c) (wq_RobotID next) = true.
Proof.
  intros Hc [Hle Hwait] Hwq Hheld.
  destruct (releaseHolder_held q robot now c Hc Hle Hheld) as (pr & rest & Hsplit & -> & _ & Hfull). simpl in *.
  unfold robotHolds. simpl. rewrite existsb_app. apply orb_true_iff. right.
  destruct pr as [|p pr].
  - exfalso. rewrite Hwq in Hsplit. simpl in Hsplit. subst rest.
    assert (Hlen : Z.of_nat (length (srq_CurrentHolders q)) = c) by (apply Hwait; rewrite Hwq; done).
    assert (Hlt : (length (List.filter (fun h => rh_ActionID h <>s robot) (srq_CurrentHolders q)) < length (srq_CurrentHolders q))%nat).
    { clear -Hheld. induction (srq_CurrentHolders q) as [|h hs IH]; [done|]. simpl in *.
      destruct (rh_ActionID h =s robot); simpl; [pose proof (filter_length_le (fun h => rh_ActionID h <>s robot) hs); lia|].
      specialize (IH Hheld). lia. }
    rewrite app_nil_r in Hfull. specialize (Hfull ltac:(done)). lia.
  - rewrite Hwq in Hsplit. injection Hsplit as -> _. simpl. by rewrite eqb_s_refl.
Qed.

(** A release tells the truth: when the resource's queue is within its declared capacity and the
    robot's own holds are adapter-initiated, the robot a release names as promoted does hold the
    resource afterwards. *)
Theorem ReleaseResource_promoted_holds {W} `{ApiServer W} cap (w : W) e ns r robot now o e' w'
  (Hcap : capOk cap) (Hdecl : declares cap w) (Hwf : engineWf cap e)
  (Hadapter : forall zone q h, zs_resources (zoneAt e (zoneKey ns zone)) !! r = Some q ->
     h ∈ srq_CurrentHolders q -> rh_RobotID h = robot -> rh_ActionID h = robot)
  (Hrel : ReleaseResource w e ns r robot now = Some (o, (e', w')))
  (Hprom : ro_PromotedRobotID o <> "") :
  exists zone q, resourceZone w ns r = Some zone /\
    zs_resources (zoneAt e' (zoneKey ns zone)) !! r = Some q /\
    robotHolds q (ro_PromotedRobotID o) = true.
Proof.
  unfold ReleaseResource in Hrel. destruct (resourceZone w ns r) as [zone|] eqn:Hz; [|by simplify_eq].
  destruct (lockZones e ns [zone]) as [states e1] eqn:Hl.
  destruct (states !! zoneKey ns zone) as [zs|] eqn:Hk; [|done]. cbn [mbind option_bind] in Hrel.
  rewrite (lock_single _ _ _ _ _ _ Hl Hk) in Hrel.
  destruct (zs_resources (zoneAt e (zoneKey ns zone)) !! r) as [q|] eqn:Hq; [|by simplify_eq].
  injection Hrel as <- <- <-. simpl in Hprom. exists zone.
  eexists. split; [done|]. rewrite unlock_zoneAt, lookup_insert_eq. simpl. rewrite lookup_insert_eq.
  split; [done|]. destruct (srq_WaitQueue q) as [|next wq] eqn:Hwq; [done|].
  destruct (robotHolds q robot) eqn:Hh; [|done]. rewrite Hdecl.
  apply (releaseHolder_promotes_head _ _ _ _ _ wq); [apply Hcap|by apply Hwf|done|].
  apply existsb_elem in Hh as (h & Hin & Hr). apply existsb_elem. exists h. split; [done|].
  apply eqb_s_true. apply (Hadapter zone q); [done|done|by apply eqb_s_true].
Qed.

Lemma exLift3_adapter zone q h :
  zs_resources (zoneAt exLift3 (zoneKey "site" zone)) !! "lift" = Some q -> h ∈ srq_CurrentHolders q ->
  rh_RobotID h = "r1" -> rh_ActionID h = "r1".
Proof.
  destruct (decide (zone = "dock")) as [->|Hz].
  - vm_compute (zs_resources _ !! _). intros [= <-] Hh. set_unfold in Hh. naive_solver.
  - intros Hq. exfalso. unfold zoneAt in Hq.
    destruct (e_zones exLift3 !! zoneKey "site" zone) as [zs|] eqn:Hl; [|discriminate Hq].
    assert (Hd : zoneKey "site" zone ∈ dom (e_zones exLift3)) by (apply elem_of_dom; eauto).
    assert (Hdom : dom (e_zones exLift3) = {["site/dock"]}) by (vm_compute; reflexivity).
    clear Hl Hq. rewrite Hdom, elem_of_singleton in Hd. apply Hz. by apply zoneKey_dock in Hd as [_ ->].
Qed.

Lemma ReleaseResource_promoted_holds_witness :
  exists o e' w', ReleaseResource exStore exLift3 "site" "lift" "r1" 40 = Some (o, (e', w')) /\
    ro_PromotedRobotID o = "r3" /\
    exists zone q, resourceZone exStore "site" "lift" = Some zone /\
      zs_resources (zoneAt e' (zoneKey "site" zone)) !! "lift" = Some q /\ robotHolds q "r3" = true.
Proof.
  assert (Ho : (fun x => ro_PromotedRobotID (fst x)) <$> ReleaseResource exStore exLift3 "site" "lift" "r1" 40 = Some "r3")
    by (vm_compute; reflexivity).
  destruct (ReleaseResource exStore exLift3 "site" "lift" "r1" 40) as [[o [e' w']]|] eqn:E; [|discriminate Ho].
  injection Ho as Ho.
  exists o, e', w'. split_and!; [done|done|]. rewrite <- Ho.
  apply (ReleaseResource_promoted_holds exCap exStore exLift3 "site" "lift" "r1" 40 o e' w');
    [exact exCap_ok|exact exStore_declares| |exact exLift3_adapter|exact E|by rewrite Ho].
  exact exLift3_wf.
Defined.

(** ** Where those conditions end *)

(** The lift after its declared capacity was lowered to one car. *)
Definition exLoweredStore : store := storeOf [exZone "dock" 1 [mkSharedResource "lift" 1 ReservationFIFO]] [].

(** The release's answer is only true while the queue is within capacity: when the declared
    capacity of a full resource with a waiter has since been lowered, a holder's release reports
    the head of the queue as promoted although that robot still waits. *)
Theorem ReleaseResource_reports_unpromoted :
  match ReleaseResource exLoweredStore exLift3 "site" "lift" "r1" 40 with
  | Some (o, (e', _)) =>
      ro_Released o = true /\ ro_PromotedRobotID o = "r3" /\
      (q ← zs_resources (zoneAt e' "site/dock") !! "lift"; Some (robotHolds q "r3", queueRank q "r3")) = Some (false, Some 1)
  | None => False
  end.
Proof. vm_compute. split_and!; reflexivity. Qed.

(** An action that asks for the same full resource twice is promoted by its own release: the
    release drops its hold, then backfills the freed unit with the same action's waiting entry, so
    the resource stays held by an action that is gone. *)
Theorem double_request_survives_release :
  let req := mkReservationRequest "a1" "r1" "site" "" ActionPriorityNormal
               [mkResourceRequest "lift" "dock" None; mkResourceRequest "lift" "dock" None] None in
  let e1 := fst (snd (RequestReservation exLoweredStore exEngine req 10)) in
  let e2 := fst (ReleaseReservation exLoweredStore e1 "site" "" "a1" 20) in
  (q ← zs_resources (zoneAt e2 "site/dock") !! "lift"; Some (srq_CurrentHolders q)) =
    Some [mkResourceHolder "r1" "a1" ActionPriorityNormal 20].
Proof. vm_compute. reflexivity. Qed.
