(* ===== verification/TdeRuns.v ===== *)
(** Runs of the Traffic Deconfliction Engine across restarts: handlers at non-decreasing times, a new
    process in place of the old one at any point, and recoveries that read back what earlier engines
    of the run mirrored to FleetZone.status, however stale, at the second precision the API server
    keeps. *)

From S2P Require Import Prelude.
From S2P Require Import Types.
From S2P Require Import RobotId.
From S2P Require Import Tde.
From S2P Require Import TdeEngine.
From S2P Require Import TdeSafety.
From S2P Require Import TdeResources.

(** ** What the API server keeps of a zone's state *)

Definition encodeReservation (r : ZoneReservation) : ZoneReservation :=
  mkZoneReservation (zr_RobotID r) (zr_ActionID r) (zr_Priority r) (zr_State r) (toSecond (zr_GrantedAt r))
    (toSecond <$> zr_ExpiresAt r) (toSecond <$> zr_EnteredAt r).
Definition encodeHolder (h : ResourceHolder) : ResourceHolder :=
  mkResourceHolder (rh_RobotID h) (rh_ActionID h) (rh_Priority h) (toSecond (rh_HeldSince h)).
Definition encodeWaiter (x : WaitQueueEntry) : WaitQueueEntry :=
  mkWaitQueueEntry (wq_RobotID x) (wq_ActionID x) (wq_Priority x) (toSecond (wq_RequestedAt x)) (wq_EstimatedDurationSeconds x).
Definition encodeQueue (q : SharedResourceQueue) : SharedResourceQueue :=
  mkSharedResourceQueue (srq_ResourceName q) (encodeHolder <$> srq_CurrentHolders q) (encodeWaiter <$> srq_WaitQueue q).

(** The status of zone [key] is the one [e] mirrors. *)
Definition mirrors (key : string) (e : Engine) (st : FleetZoneStatus) : Prop :=
  fzt_Reservations st = encodeReservation <$> resAt e key /\
  fzt_SharedResourceQueues st = encodeQueue <$> queuesSlice (zs_resources (zoneAt e key)).

(** The listed zones carry no TDE status yet, or one that some engine of [past] mirrored. *)
Definition mirroredBy {W} `{ApiServer W} (past : list Engine) (w : W) : Prop :=
  forall zones z, listAllFleetZones w = Some zones -> z ∈ zones ->
    (fzt_Reservations (fz_Status z) = [] /\ fzt_SharedResourceQueues (fz_Status z) = []) \/
    exists e, e ∈ past /\ mirrors (zoneKey (fz_Namespace z) (fz_Name z)) e (fz_Status z).

(** A run, with the engines it went through: it starts with an engine that holds no zone, a new
    process may replace the engine at any point, and a handler runs against a server that satisfies
    [ok] and whose statuses earlier engines mirrored. *)
Inductive engineRun {W} `{ApiServer W} (ok : W -> Time -> event -> Engine -> Prop) : list Engine -> Engine -> Time -> Prop :=
| run_start e t : e_zones e = ∅ -> engineRun ok [] e t
| run_restart past e t e' : engineRun ok past e t -> e_zones e' = ∅ -> engineRun ok past e' t
| run_handler past e t w now ev e' :
    engineRun ok past e t -> t <= now -> mirroredBy past w -> ok w now ev e ->
    runEvent w now ev e = Some e' -> engineRun ok (e' :: past) e' now.

(** What the zone [ns/zone] needs of a step: a limit of at most [M] where it can be read, and no
    handler that acts on an expired entry. *)
Definition zoneOk {W} `{ApiServer W} (ns zone : string) (M : Z) (w : W) (now : Time) (ev : event) (e : Engine) : Prop :=
  limitWithin ns zone M w /\ touchesNoStale now ev e.

(** What the shared resources need: every zone is read and declares the capacities. *)
Definition capsOk {W} `{ApiServer W} (cap : capacities) (w : W) (_ : Time) (_ : event) (_ : Engine) : Prop := declares cap w.

(** ** The encoding frees slots and keeps the counts of a queue *)

Lemma toSecond_le t : toSecond t <= t.
Proof. unfold toSecond. pose proof (Z.mod_pos_bound t Second). unfold Second in *. lia. Qed.

Lemma encode_load now rs : load now (encodeReservation <$> rs) <= load now rs.
Proof.
  induction rs as [|r rs IH]; [done|]. rewrite fmap_cons, !load_cons. apply Z.add_le_mono; [|done].
  unfold takesSlot, isLiveReserved, isOccupied, notExpired. cbn [encodeReservation zr_State zr_ExpiresAt].
  destruct (zr_State r =s ReservationOccupied), (zr_State r =s ReservationReserved), (zr_ExpiresAt r) as [t|]; simpl; try done.
  pose proof (toSecond_le t). destruct (now <? toSecond t) eqn:E1, (now <? t) eqn:E2; z_bool; simpl; lia.
Qed.

Lemma encodeQueue_wf c q : queueWf c q -> queueWf c (encodeQueue q).
Proof.
  intros [Hl Hw]. split; cbn [encodeQueue srq_CurrentHolders srq_WaitQueue]; rewrite length_fmap; [done|].
  intros Hne. apply Hw. by destruct (srq_WaitQueue q).
Qed.

Lemma resAt_fresh e key : e_zones e = ∅ -> resAt e key = [].
Proof. intros He. unfold resAt, zoneAt. by rewrite He, lookup_empty. Qed.

Section zone.
Context {W : Type} `{ApiServer W} (ns zone : string) (M : Z) (HM : 0 <= M).
Notation key := (zoneKey ns zone).

(** The engine's book and every book mirrored so far are within [M]. *)
Lemma run_within past e t : engineRun (W:=W) (zoneOk ns zone M) past e t ->
  load t (resAt e key) <= M /\ forall e0, e0 ∈ past -> load t (resAt e0 key) <= M.
Proof.
  intros Hrun. induction Hrun as [e t He|past e t e' Hr [IH IHp] He|past e t w now ev e' Hr [IH IHp] Ht Hm [Hlim Hst] Hev].
  - rewrite resAt_fresh by done. split; [done|]. intros e0 Hin. by apply not_elem_of_nil in Hin.
  - rewrite resAt_fresh by done. by split.
  - assert (Hlater : forall e0, load t (resAt e0 key) <= M -> load now (resAt e0 key) <= M)
      by (intros e0 H0; etrans; [by apply (load_later t now)|done]).
    assert (Hcfg : zoneConfig ns zone M w now ev e).
    { split; [done|]. intros mode zones z -> Hl Hz Hk. destruct (Hm zones z Hl Hz) as [[-> _]|(e0 & Hin & -> & _)]; [done|].
      etrans; [apply encode_load|]. rewrite Hk. by apply Hlater, IHp. }
    assert (Hnew : load now (resAt e' key) <= M).
    { eapply slotStep_bound; [by apply Hlater|]. by eapply event_slotStep. }
    split; [done|]. intros e0 [->|Hin]%elem_of_cons; [done|]. by apply Hlater, IHp.
Qed.
End zone.

Section resources.
Context {W : Type} `{ApiServerLaws W} (cap : capacities) (Hcap : capOk cap).

Lemma fresh_wf e : e_zones e = ∅ -> engineWf cap e.
Proof. intros He k. unfold zoneAt. rewrite He, lookup_empty. apply wfState_empty. Qed.

Lemma mirrored_persistedWf past w :
  mirroredBy past w -> (forall e0, e0 ∈ past -> engineWf cap e0) -> persistedWf cap w.
Proof.
  intros Hm Hw zones z q Hl Hz Hq. destruct (Hm zones z Hl Hz) as [[_ Hn]|(e0 & Hin & _ & Hn)]; rewrite Hn in Hq.
  - by apply not_elem_of_nil in Hq.
  - apply list_elem_of_fmap in Hq as (q0 & -> & Hq0). apply encodeQueue_wf. cbn [encodeQueue srq_ResourceName].
    unfold queuesSlice in Hq0. apply list_elem_of_omap in Hq0 as (n & _ & Hn0).
    destruct (Hw e0 Hin _ _ _ Hn0) as [-> Hwf]. exact Hwf.
Qed.

Lemma run_wf past e t : engineRun (W:=W) (capsOk cap) past e t ->
  engineWf cap e /\ forall e0, e0 ∈ past -> engineWf cap e0.
Proof.
  intros Hrun. induction Hrun as [e t He|past e t e' Hr [IH IHp] He|past e t w now ev e' Hr [IH IHp] Ht Hm Hd Hev].
  - split; [by apply fresh_wf|]. intros e0 Hin. by apply not_elem_of_nil in Hin.
  - split; [by apply fresh_wf|done].
  - assert (Hnew : engineWf cap e') by (eapply event_wf; [done|exact Hd|by eapply mirrored_persistedWf|done|done]).
    split; [done|]. intros e0 [->|Hin]%elem_of_cons; [done|by apply IHp].
Qed.
End resources.

(** ** Properties *)

(** C1 No over-grant over any run: for [M] at least 0, from an engine that holds nothing, a zone's load (Occupied
    entries and unexpired Reserved ones) never exceeds [M], through any sequence of handlers
    (requests, preemptions, releases, entries, exits, phase changes, resource calls, recoveries) at
    non-decreasing times and any number of restarts, provided that: the zone's declared limit, each
    time it can be read, is set and at most [M] (it may change); FleetZone.status carries nothing or
    what some engine of the run mirrored, however stale, to the second; and no handler acts on an
    expired entry (a preemption's victim, and the entry a robot's arrival or a revocation finds, is
    unexpired). *)
Theorem zone_never_overbooked {W} `{ApiServer W} ns zone M past e t
  (HM : 0 <= M)
  (Hrun : engineRun (W:=W) (zoneOk ns zone M) past e t) :
  load t (resAt e (zoneKey ns zone)) <= M.
Proof. exact (proj1 (run_within ns zone M HM past e t Hrun)). Qed.

(** C34 Mutual exclusion on shared resources: over any sequence of handlers from an engine that
    holds nothing, with any number of restarts, no resource of any zone ever has more holders than
    its capacity, and no robot waits for it while a unit is free, provided that every handler reads
    the same capacities (each between 1 and the int32 maximum; a zone that cannot be read counts as
    capacity 1) and that FleetZone.status carries nothing or what some engine of the run mirrored,
    however stale. *)
Theorem resource_never_over_capacity {W} `{ApiServerLaws W} cap past e t key r q
  (Hcap : capOk cap)
  (Hrun : engineRun (W:=W) (capsOk cap) past e t)
  (Hq : zs_resources (zoneAt e key) !! r = Some q) :
  Z.of_nat (length (srq_CurrentHolders q)) <= cap key r /\
  (srq_WaitQueue q <> [] -> Z.of_nat (length (srq_CurrentHolders q)) = cap key r).
Proof. by destruct (proj1 (run_wf cap Hcap past e t Hrun) key r q Hq) as [_ Hw]. Qed.

(** ** A run with a restart *)

(** The Critical robot of the dock drives in, the process restarts, and a recovery reads the dock's
    mirrored status back. *)
Definition exEnter : event := EvEnter "site" "dock" "r2".
Definition exEntered : Engine := runOr exStore 300 exEnter exAfterCritical.
Definition exMirroredDock : FleetZone :=
  mkFleetZone "dock" "site" "uid-dock" ∅ (mkFleetZoneSpec 1 [mkSharedResource "lift" 2 ReservationFIFO] "" None)
    (mkFleetZoneStatus (encodeReservation <$> resAt exEntered "site/dock")
       (encodeQueue <$> queuesSlice (zs_resources (zoneAt exEntered "site/dock"))) 1).
Definition exMirrored : store := storeOf [exMirroredDock; exZone "hall" 0 []] [].
Definition exRecover : event := EvRecover RecoverReleaseReservedOnly.
Definition exRestarted : Engine := runOr exMirrored (5 * Second) exRecover (New DefaultConfig).

Lemma exStore_mirrored past : mirroredBy past exStore.
Proof.
  intros zones z Hl Hz. apply (storeOf_list exZones [] zones z Hl) in Hz. clear Hl. left. unfold exZones in Hz.
  set_unfold in Hz. by destruct Hz as [->|[->|[]]].
Qed.

Lemma exMirrored_mirrored past : exEntered ∈ past -> mirroredBy past exMirrored.
Proof.
  intros Hin zones z Hl Hz. apply (storeOf_list [exMirroredDock; exZone "hall" 0 []] [] zones z Hl) in Hz. clear Hl.
  set_unfold in Hz. destruct Hz as [->|[->|[]]]; [right; exists exEntered; by split_and!|by left].
Qed.

Lemma exLimit : limitWithin "site" "dock" 1 exStore.
Proof. intros ns' zone' z [-> ->]%zoneKey_dock [_ [[_ ->]|[? _]]]%exStore_get; done. Qed.

Lemma exMirrored_limit : limitWithin "site" "dock" 1 exMirrored.
Proof.
  intros ns' zone' z [-> ->]%zoneKey_dock (Hin & _ & Hn)%storeOf_get. set_unfold in Hin.
  destruct Hin as [->|[->|[]]]; [done|discriminate Hn].
Qed.

(** The run: a recovered engine, the Low grant, the preemption, the arrival, the restart, the recovery. *)
Lemma exRun : exists past, engineRun (zoneOk "site" "dock" 1) past exRestarted (5 * Second).
Proof.
  pose proof exLimit as Hlim. eexists.
  eapply (run_handler _ _ (New DefaultConfig) 300 exMirrored (5 * Second) exRecover);
    [|done|apply exMirrored_mirrored|split; [exact exMirrored_limit|done]|by vm_compute].
  - eapply (run_restart _ _ exEntered); [|done].
    eapply (run_handler _ _ exAfterCritical 200 exStore 300 exEnter); [|done|apply exStore_mirrored| |by vm_compute].
    + eapply (run_handler _ _ exAfterLow 100 exStore 200 exCritical); [|done|apply exStore_mirrored| |by vm_compute].
      * eapply (run_handler _ _ exEngine 0 exStore 100 exLow); [by apply run_start|done|apply exStore_mirrored| |by vm_compute].
        split; [done|]. intros v zs'. vm_compute. discriminate.
      * split; [done|]. intros v zs'. vm_compute. by intros [= <- _].
    + split; [done|]. intros r Hr. vm_compute in Hr. apply list_elem_of_singleton in Hr as ->. by vm_compute.
  - by left.
Qed.

Lemma zone_never_overbooked_witness :
  map zr_ActionID (resAt exRestarted "site/dock") = ["a2"] /\ load (5 * Second) (resAt exRestarted (zoneKey "site" "dock")) <= 1.
Proof.
  split; [by vm_compute|]. destruct exRun as [past Hrun].
  exact (zone_never_overbooked "site" "dock" 1 past exRestarted (5 * Second) ltac:(lia) Hrun).
Defined.

Lemma exLift3_run : exists past, engineRun (capsOk exCap) past exLift3 30.
Proof.
  pose proof exStore_declares as Hd. eexists.
  eapply (run_handler _ _ exLift2 20 exStore 30 (exLift "r3")); [|done|apply exStore_mirrored|exact Hd|by vm_compute].
  eapply (run_handler _ _ exLift1 10 exStore 20 (exLift "r2")); [|done|apply exStore_mirrored|exact Hd|by vm_compute].
  eapply (run_handler _ _ exEngine 0 exStore 10 (exLift "r1")); [|done|apply exStore_mirrored|exact Hd|by vm_compute].
  by apply run_start.
Qed.

Lemma resource_never_over_capacity_witness :
  zs_resources (zoneAt exLift3 "site/dock") !! "lift" = Some exLiftQueue /\
  Z.of_nat (length (srq_CurrentHolders exLiftQueue)) <= exCap "site/dock" "lift".
Proof.
  assert (Hq : zs_resources (zoneAt exLift3 "site/dock") !! "lift" = Some exLiftQueue) by (vm_compute; reflexivity).
  split; [exact Hq|]. destruct exLift3_run as [past Hrun].
  exact (proj1 (resource_never_over_capacity exCap past exLift3 30 "site/dock" "lift" exLiftQueue exCap_ok Hrun Hq)).
Defined.
