(* ===== verification/TdeRecovery.v ===== *)
(** Restart and leader failover of the Traffic Deconfliction Engine (src/internal/tde/recovery.go,
    runnable.go): what a recovery rebuilds from FleetZone.status, the RecoveryRunnable that opens
    and closes the grant gate around it, and the order in which handlers take zone locks. *)

From S2P Require Import Prelude.
From S2P Require Import Types.
From S2P Require Import RobotId.
From S2P Require Import Tde.
From S2P Require Import TdeEngine.
From S2P Require Import TdeSafety.
From S2P Require Import TdeResources.

(** ** RecoveryRunnable (runnable.go) *)

(** [rn_Gated] is whether the [Ready] callback is set. *)
Record RecoveryRunnable := mkRecoveryRunnable {
  rn_Mode : RecoveryMode;
  rn_Gated : bool;
  rn_ReadyTimeout : Duration;
  rn_Fallback : RecoveryMode;
  rn_ConfigNamespace : string
}.

(** spec.trafficDeconfliction.recovery of the SwarmadaConfig singleton. *)
Record RecoverySpec := mkRecoverySpec {
  ZoneControllerWaitTimeoutSeconds : Z;
  ConservativeRecoveryFallback : string
}.

(** [getConfig] is the read of the singleton in a namespace, [None] when it fails. *)
Definition resolveRecoveryConfig (r : RecoveryRunnable) (getConfig : string -> option RecoverySpec)
    : Duration * RecoveryMode :=
  let timeout := if rn_ReadyTimeout r <=? 0 then 30 * Second else rn_ReadyTimeout r in
  let fallback := if rn_Fallback r =s "" then RecoverReleaseAll else rn_Fallback r in
  if rn_ConfigNamespace r =s "" then (timeout, fallback)
  else match getConfig (rn_ConfigNamespace r) with
       | None => (timeout, fallback)
       | Some rec =>
           (if 0 <? ZoneControllerWaitTimeoutSeconds rec
            then ZoneControllerWaitTimeoutSeconds rec * Second else timeout,
            if ConservativeRecoveryFallback rec <>s "" then ConservativeRecoveryFallback rec else fallback)
       end.

(** What wakes waitReady's select: the context, the timer, or a tick at which Ready() answers. *)
Inductive wake := WakeDone | WakeTimer | WakeTick (ready : bool).

(** [None] while it still waits. *)
Fixpoint waitLoop (wakes : list wake) : option bool :=
  match wakes with
  | [] => None
  | WakeDone :: _ | WakeTimer :: _ => Some false
  | WakeTick true :: _ => Some true
  | WakeTick false :: wakes => waitLoop wakes
  end.

Definition waitReady (readyNow : bool) (wakes : list wake) : option bool :=
  if readyNow then Some true else waitLoop wakes.

Definition recoveryMode (r : RecoveryRunnable) (fallback : RecoveryMode) (readyNow : bool) (wakes : list wake)
    (ctxErr : bool) : option RecoveryMode :=
  if negb (rn_Gated r) then Some (rn_Mode r)
  else match waitReady readyNow wakes with
       | None => None
       | Some ready => if ready || ctxErr then Some (rn_Mode r) else Some fallback
       end.

(** Where [Start] is: waiting for the mode, in the retry loop, blocked on the context, returned. *)
Inductive phase :=
| Waiting
| Retrying (mode : RecoveryMode)
| Serving (mode : RecoveryMode)
| Returned.

(** The handlers of the engine run beside [Start], on the same engine; none is a recovery. *)
Definition isHandler (ev : event) : bool :=
  match ev with EvRecover _ | EvSetRecovered _ => false | _ => true end.

Inductive startStep {W} `{ApiServer W} (r : RecoveryRunnable) : phase * Engine -> phase * Engine -> Prop :=
| start_mode e fallback readyNow wakes ctxErr mode :
    recoveryMode r fallback readyNow wakes ctxErr = Some mode ->
    startStep r (Waiting, e) (Retrying mode, e)
| start_recovered e mode w now ps e' w' :
    Recover w e mode now = ((None, ps), (e', w')) ->
    startStep r (Retrying mode, e) (Serving mode, e')
| start_retry e mode w now err ps e' w' :
    Recover w e mode now = ((Some err, ps), (e', w')) ->
    startStep r (Retrying mode, e) (Retrying mode, e')
| start_lost_recovering e mode w now err ps e' w' :
    Recover w e mode now = ((Some err, ps), (e', w')) ->
    startStep r (Retrying mode, e) (Returned, e')
| start_lost_serving e mode : startStep r (Serving mode, e) (Returned, SetRecovered e false)
| start_handler p e w now ev e' :
    isHandler ev = true -> runEvent w now ev e = Some e' -> startStep r (p, e) (p, e').

(** [Start]'s first act is to close the gate. *)
Definition startInit (e : Engine) : phase * Engine := (Waiting, SetRecovered e false).

Inductive started {W} `{ApiServer W} (r : RecoveryRunnable) (e0 : Engine) : phase * Engine -> Prop :=
| started_init : started r e0 (startInit e0)
| started_step s s' : started r e0 s -> startStep r s s' -> started r e0 s'.

(** ** The gate *)

Section gate.
Context {W : Type} `{ApiServer W}.
Implicit Types (w : W) (e : Engine).

Lemma lockZones_recovered e ns zones states e1 :
  lockZones e ns zones = (states, e1) -> e_recovered e1 = e_recovered e.
Proof. intros Hl. pose proof (lockZones_spec e ns zones) as Hs. rewrite Hl in Hs. tauto. Qed.

Lemma updateZone_recovered w e ns zone now f e' w' :
  updateZone w e ns zone now f = Some (e', w') -> e_recovered e' = e_recovered e.
Proof.
  unfold updateZone. destruct (lockZones e ns [zone]) as [states e1] eqn:Hl.
  destruct (states !! _); [|done]. intros [= <- <-]. exact (lockZones_recovered _ _ _ _ _ Hl).
Qed.

Lemma recoverZone_recovered w e z mode now :
  e_recovered (fst (snd (recoverZone w e z mode now))) = e_recovered e.
Proof.
  unfold recoverZone. destruct (lockZones e _ _) as [states e1] eqn:Hl.
  apply lockZones_recovered in Hl. destruct (zp_err _); [done|]. by destruct (patchFleetZoneStatus _ _).
Qed.

Lemma recoverZones_recovered mode now zones : forall w e ps,
  e_recovered (fst (snd (recoverZones w e zones mode now ps))) = e_recovered e.
Proof.
  induction zones as [|z zones IH]; intros w e ps; [done|]. cbn [recoverZones].
  pose proof (recoverZone_recovered w e z mode now) as Hz.
  destruct (recoverZone w e z mode now) as [[ps'|err] [e1 w1]]; [by rewrite IH|exact Hz].
Qed.

Lemma Recover_recovered w e mode now err ps e' w' :
  Recover w e mode now = ((err, ps), (e', w')) ->
  match err with
  | None => e_recovered e' = true
  | Some _ => e_recovered e' = e_recovered e /\ ps = []
  end.
Proof.
  unfold Recover. destruct (listAllFleetZones w) as [zones|]; [|by intros [= <- <- <- _]].
  pose proof (recoverZones_recovered mode now zones w e []) as Hz.
  destruct (recoverZones w e zones mode now []) as [[ps'|err'] [e1 w1]]; by intros [= <- <- <- _].
Qed.

(** Run the handler's [lockZones], keeping that it leaves the gate alone. *)
Ltac run_lock :=
  match goal with
  | H : context [lockZones ?e ?ns ?zs] |- _ => let Hl := fresh "Hl" in destruct (lockZones e ns zs) eqn:Hl; apply lockZones_recovered in Hl
  | |- context [lockZones ?e ?ns ?zs] => let Hl := fresh "Hl" in destruct (lockZones e ns zs) eqn:Hl; apply lockZones_recovered in Hl
  end.

(** Case on every branch of a handler that answers in [option]. *)
Ltac case_handler H :=
  unfold mbind, option_bind in H; repeat (case_match; simplify_eq/=; try done).

Lemma ReleaseReservation_recovered w e ns z a now :
  e_recovered (fst (ReleaseReservation w e ns z a now)) = e_recovered e.
Proof. unfold ReleaseReservation. run_lock. by destruct (releaseActionHolds _ _ _ _ _). Qed.

(** No handler moves the gate. *)
Lemma handler_recovered w now ev e e' :
  isHandler ev = true -> runEvent w now ev e = Some e' -> e_recovered e' = e_recovered e.
Proof.
  destruct ev as [req|ns z a|ns z r|ns z r|ns z a ph|ns z|ns r robot|ns r robot|ns|mode|v]; intros Hh Hrun;
    cbn [runEvent] in Hrun; try discriminate Hh.
  - simplify_eq. unfold RequestReservation. destruct (e_recovered e) eqn:Hr; cbn [negb]; [|done].
    run_lock. rewrite Hr in Hl.
    repeat (case_match; try done).
  - simplify_eq. apply ReleaseReservation_recovered.
  - destruct (OnRobotEnteredZone w e ns z r now) as [[]|] eqn:Hx; simplify_eq/=. by eapply updateZone_recovered.
  - destruct (OnRobotExitedZone w e ns z r now) as [[]|] eqn:Hx; simplify_eq/=. by eapply updateZone_recovered.
  - unfold OnActionPhaseChanged in Hrun. case_match; [|case_match]; [| |by simplify_eq/=].
    + injection Hrun as <-. apply ReleaseReservation_recovered.
    + destruct (updateZone _ _ _ _ _ _) as [[]|] eqn:Hx; simplify_eq/=. by eapply updateZone_recovered.
  - unfold ZoneStatus in Hrun. run_lock. case_handler Hrun.
  - unfold ReserveResource in Hrun. destruct (e_recovered e) eqn:Hr; cbn [negb] in Hrun; [|by simplify_eq/=].
    destruct (resourceZone w ns r); [|by simplify_eq/=]. run_lock. rewrite Hr in Hl. case_handler Hrun.
  - unfold ReleaseResource in Hrun. destruct (resourceZone w ns r); [|by simplify_eq/=].
    run_lock.
    case_handler Hrun.
  - simplify_eq. unfold ReleaseAbsentRobots. destruct (e_recovered e) eqn:Hr; cbn [negb]; [|done].
    destruct (listFleetZones w ns); [|done]. destruct (fz_Name <$> _); [done|].
    run_lock. rewrite Hr in Hl.
    by case_match.
Qed.

Lemma started_gate r e0 s : started (W:=W) r e0 s ->
  e_recovered (snd s) = match fst s with Serving _ => true | _ => false end.
Proof.
  intros Hs. induction Hs as [|s s' Hs IH Hst]; [done|].
  destruct Hst as [e fb rn wk ce mode Hm|e mode w now ps e' w' Hr|e mode w now err ps e' w' Hr
    |e mode w now err ps e' w' Hr|e mode|p e w now ev e' Hh Hrun]; cbn [fst snd] in *; try done.
  - by apply Recover_recovered in Hr.
  - apply Recover_recovered in Hr as [-> _]. done.
  - apply Recover_recovered in Hr as [-> _]. done.
  - by rewrite (handler_recovered _ _ _ _ _ Hh Hrun).
Qed.

End gate.

(** ** What recovery keeps *)

Section kept.
Context {W : Type} `{ApiServerLaws W}.
Implicit Types (w : W) (e : Engine).

(** The persisted reservation [r] of zone [z] is one recovery may keep. *)
Definition recoverable w (mode : RecoveryMode) (z : FleetZone) (r : ZoneReservation) : Prop :=
  r ∈ fzt_Reservations (fz_Status z) /\ zr_State r = ReservationOccupied /\ mode <> RecoverReleaseAll /\
  (mode <> RecoverReleaseReservedOnly ->
   exists robot, getRobot w (fz_Namespace z) (zr_RobotID r) = Some robot /\ r_CurrentZone robot = fz_Name z).

Lemma keepOnRecovery_recoverable w mode z r :
  r ∈ List.filter (fun r => keepOnRecovery w z r mode) (fzt_Reservations (fz_Status z)) -> recoverable w mode z r.
Proof.
  intros [Hin Hk]%list_elem_of_In%filter_In. apply list_elem_of_In in Hin. unfold keepOnRecovery in Hk.
  destruct (mode =s RecoverReleaseAll) eqn:Ha; [done|]. destruct (mode =s RecoverReleaseReservedOnly) eqn:Hr.
  - str_bool. by repeat split.
  - destruct (zr_State r =s ReservationOccupied) eqn:Ho; simpl in Hk; [|done].
    destruct (getRobot w _ _) as [robot|] eqn:Hg; [|done]. str_bool. repeat split; eauto.
Qed.

Lemma recoverZone_world w e z mode now ps e' w' :
  recoverZone w e z mode now = (Ok ps, (e', w')) -> forall ns n, getRobot w' ns n = getRobot w ns n.
Proof.
  unfold recoverZone. destruct (lockZones e _ _). destruct (zp_err _); [done|].
  destruct (patchFleetZoneStatus _ _) eqn:Hp; [|done]. intros [= _ _ <-] ns n. by eapply patch_getRobot.
Qed.

(** Every reservation of the rebuilt engine was there before or is a recoverable persisted one. *)
Lemma recoverZones_kept mode now w0 zones : forall w e ps,
  (forall ns n, getRobot w ns n = getRobot w0 ns n) ->
  forall k r, r ∈ resAt (fst (snd (recoverZones w e zones mode now ps))) k ->
  r ∈ resAt e k \/ exists z, z ∈ zones /\ k = zoneKey (fz_Namespace z) (fz_Name z) /\ recoverable w0 mode z r.
Proof.
  induction zones as [|z zones IH]; intros w e ps Hw k r Hin; [by left|]. cbn [recoverZones] in Hin.
  pose proof (recoverZone_resAt w e z mode now k) as Hz.
  assert (Hkeep : forall z, recoverable w mode z r -> recoverable w0 mode z r).
  { intros z0. unfold recoverable. by setoid_rewrite Hw. }
  assert (Hone : forall e1, resAt e1 k = (if bool_decide (k = zoneKey (fz_Namespace z) (fz_Name z))
      then List.filter (fun r => keepOnRecovery w z r mode) (fzt_Reservations (fz_Status z)) else resAt e k) ->
      r ∈ resAt e1 k -> r ∈ resAt e k \/ exists z', z' ∈ z :: zones /\ k = zoneKey (fz_Namespace z') (fz_Name z') /\ recoverable w0 mode z' r).
  { intros e1 -> Hr. case_bool_decide as Hk; [|by left]. right. exists z. split_and!; [by left|done|].
    by apply Hkeep, keepOnRecovery_recoverable. }
  destruct (recoverZone w e z mode now) as [[ps'|err] [e1 w1]] eqn:Hrz; [|by apply (Hone e1)].
  destruct (IH w1 e1 (ps ++ ps') (fun ns n => eq_trans (recoverZone_world _ _ _ _ _ _ _ _ Hrz ns n) (Hw ns n)) k r Hin)
    as [Hr|(z' & Hz' & ? & ?)]; [by apply (Hone e1)|right; exists z'; split_and!; [by right|done|done]].
Qed.

End kept.

(** ** Status round trip *)

Lemma queuesFromStatus_lookup qs : forall (m : gmap string SharedResourceQueue) n,
  NoDup (srq_ResourceName <$> qs) ->
  fold_left (fun m q => <[srq_ResourceName q := q]> m) qs m !! n =
    match List.find (fun q => srq_ResourceName q =s n) qs with Some q => Some q | None => m !! n end.
Proof.
  induction qs as [|q qs IH]; intros m n Hnd; [done|]. cbn [fold_left List.find]. rewrite fmap_cons in Hnd.
  apply NoDup_cons in Hnd as [Hq Hnd]. rewrite IH by done.
  destruct (srq_ResourceName q =s n) eqn:Hn; str_bool.
  - destruct (List.find _ qs) as [q'|] eqn:Hf; [|by subst; rewrite lookup_insert_eq].
    exfalso. apply find_some in Hf as [Hin Hq']. str_bool. apply Hq. rewrite Hn, <- Hq'.
    apply list_elem_of_fmap. exists q'. split; [done|]. by apply list_elem_of_In.
  - case_match; [done|]. by rewrite lookup_insert_ne.
Qed.

Lemma omap_names (m : gmap string SharedResourceQueue) (names : list string) :
  (forall r q, m !! r = Some q -> srq_ResourceName q = r) -> (forall n, n ∈ names -> is_Some (m !! n)) ->
  srq_ResourceName <$> omap (fun n => m !! n) names = names.
Proof.
  intros Hm. induction names as [|n names IH]; intros Hn; [done|]. cbn [omap list_omap].
  destruct (Hn n ltac:(by left)) as [q Hq]. rewrite Hq. rewrite fmap_cons, (Hm _ _ Hq), IH; [done|].
  intros n' Hn'. apply Hn. by right.
Qed.

(** ** Lock order *)

(** A thread inside [lockZones]: the keys it wants, in order, and how many it has. *)
Record locker := mkLocker { lk_keys : list string; lk_have : nat }.

Definition holds (t : locker) (k : string) : Prop := k ∈ take (lk_have t) (lk_keys t).
Definition wants (t : locker) : option string := lk_keys t !! lk_have t.

(** Sorting and deduplicating makes every thread's keys strictly increasing. *)
Lemma lockOrder_increasing ns zones i j a b :
  lockOrder ns zones !! i = Some a -> lockOrder ns zones !! j = Some b -> (i < j)%nat -> (a <s b) = true.
Proof.
  intros Ha Hb Hij. pose proof (sort_Strings_sorted (remove_dups (zoneKey ns <$> List.filter (fun z => z <>s "") zones))) as Hs.
  assert (Hnd : NoDup (lockOrder ns zones)) by (unfold lockOrder; rewrite sort_Strings_perm; apply NoDup_remove_dups).
  fold (lockOrder ns zones) in Hs.
  assert (Hle : String.le a b) by by eapply sorted_lookup_lt.
  assert (Hne : a <> b) by (intros ->; pose proof (NoDup_lookup _ _ _ _ Hnd Ha Hb); lia).
  destruct (a <s b) eqn:Hlt; [done|]. exfalso. apply Hne.
  destruct (b <s a) eqn:Hba; [|by apply string_ltb_total].
  exfalso. apply string_ltb_lt in Hba. unfold String.le, String.leb in Hle.
  rewrite String.compare_antisym, Hba in Hle. done.
Qed.

Definition waiting (t : locker) : bool := match wants t with Some _ => true | None => false end.

(** Among finitely many waiting threads one wants a largest key. *)
Lemma max_wanted (ts : list locker) :
  (exists t, t ∈ ts /\ is_Some (wants t)) ->
  exists t k, t ∈ ts /\ wants t = Some k /\ forall t' k', t' ∈ ts -> wants t' = Some k' -> (k <s k') = false.
Proof.
  induction ts as [|t0 ts IH]; [intros (t & Ht & _); by apply not_elem_of_nil in Ht|].
  intros (t & Hin & Hw). destruct (existsb waiting ts) eqn:Hex.
  - apply existsb_elem in Hex as (t2 & Hin2 & Hw2). unfold waiting in Hw2.
    destruct (wants t2) as [k2|] eqn:Ht2; [|done].
    destruct IH as (t1 & k1 & Hin1 & Hw1 & Hmax); [exists t2; eauto|]. clear dependent t2. clear k2.
    destruct (wants t0) as [k0|] eqn:H0.
    + destruct (k1 <s k0) eqn:Hlt.
      * exists t0, k0. split_and!; [by left|done|]. intros t' k' [->|Ht']%elem_of_cons Hk'.
        -- rewrite H0 in Hk'. simplify_eq. apply string_ltb_irrefl.
        -- destruct (k0 <s k') eqn:Hc; [|done]. rewrite <- (Hmax t' k' Ht' Hk'). symmetry. by eapply string_ltb_trans.
      * exists t1, k1. split_and!; [by right|done|]. intros t' k' [->|Ht']%elem_of_cons Hk'; [by simplify_eq|eauto].
    + exists t1, k1. split_and!; [by right|done|]. intros t' k' [->|Ht']%elem_of_cons Hk'; [by simplify_eq|eauto].
  - rewrite existsb_false in Hex. unfold waiting in Hex.
    apply elem_of_cons in Hin as [->|Hin]; [|apply Hex in Hin; destruct Hw as [k Hk]; by rewrite Hk in Hin].
    destruct Hw as [k Hk].
    exists t0, k. split_and!; [by left|done|]. intros t' k' [->|Ht']%elem_of_cons Hk'.
    + rewrite Hk in Hk'. simplify_eq. apply string_ltb_irrefl.
    + apply Hex in Ht'. by rewrite Hk' in Ht'.
Qed.

(** ** Properties *)

(** The grant gate is open exactly while this leader is serving: at every point of Start, whatever
    handlers run beside it and however recovery attempts fail, the engine is marked recovered if
    and only if Start is past a successful recovery and leadership has not been lost. *)
Theorem gate_open_iff_serving {W} `{ApiServer W} (r : RecoveryRunnable) e0 p e
  (Hstart : started (W:=W) r e0 (p, e)) :
  e_recovered e = true <-> exists mode, p = Serving mode.
Proof.
  rewrite (started_gate r e0 _ Hstart : e_recovered e = _). destruct p; cbn [fst]; naive_solver.
Qed.

Definition exRunnable : RecoveryRunnable := mkRecoveryRunnable RecoverValidate false 0 "" "".

Lemma gate_open_iff_serving_witness :
  exists e, started (W:=store) exRunnable (New DefaultConfig) (Serving RecoverValidate, e) /\ e_recovered e = true.
Proof.
  destruct (Recover exStore (SetRecovered (New DefaultConfig) false) RecoverValidate 7) as [[err ps] [e w]] eqn:Hr.
  assert (He : err = None).
  { change err with (fst (fst ((err, ps), (e, w)))). rewrite <- Hr. vm_compute. reflexivity. }
  subst err. exists e.
  assert (Hs : started (W:=store) exRunnable (New DefaultConfig) (Serving RecoverValidate, e)).
  { eapply started_step; [eapply started_step; [apply started_init|]|].
    - by apply (start_mode _ _ "" false [] false).
    - by eapply start_recovered. }
  split; [done|]. apply (gate_open_iff_serving exRunnable (New DefaultConfig) (Serving RecoverValidate) e Hs). eauto.
Defined.

(** Recovery trusts only what it can validate: after Recover from an engine with no reservations,
    whether it succeeds or fails, every reservation held is a persisted Occupied one of a listed
    zone (no Reserved entry survives a restart); none survives ReleaseAll; and in Validate mode its
    robot can be read and still reports that zone as its current zone. *)
Theorem Recover_keeps_only_validated {W} `{ApiServerLaws W} (w : W) cfg mode now zones k r
  (Hzones : listAllFleetZones w = Some zones)
  (Hin : r ∈ resAt (fst (snd (Recover w (New cfg) mode now))) k) :
  exists z, z ∈ zones /\ k = zoneKey (fz_Namespace z) (fz_Name z) /\
    r ∈ fzt_Reservations (fz_Status z) /\ zr_State r = ReservationOccupied /\ mode <> RecoverReleaseAll /\
    (mode <> RecoverReleaseReservedOnly ->
     exists robot, getRobot w (fz_Namespace z) (zr_RobotID r) = Some robot /\ r_CurrentZone robot = fz_Name z).
Proof.
  unfold Recover in Hin. rewrite Hzones in Hin.
  pose proof (recoverZones_kept mode now w zones w (New cfg) [] (fun _ _ => eq_refl) k r) as Hk.
  assert (Hin' : r ∈ resAt (fst (snd (recoverZones w (New cfg) zones mode now []))) k).
  { destruct (recoverZones w (New cfg) zones mode now []) as [[ps|err] [e' w']]; exact Hin. }
  destruct (Hk Hin') as [Hnew|(z & Hz & -> & Hr & ? & ? & ?)]; [|by exists z; repeat split].
  by apply not_elem_of_nil in Hnew.
Qed.

(** Rebuilding the queues from the list mirrored to FleetZone.status gives back the engine's queue map. *)
Lemma mirrored_queues_roundtrip m
  (Hnamed : forall r q, m !! r = Some q -> srq_ResourceName q = r) :
  queuesFromStatus (queuesSlice m) = m.
Proof.
  apply map_eq. intros n. unfold queuesFromStatus.
  assert (Hnames : forall x, x ∈ sortedResourceNames m <-> is_Some (m !! x)).
  { intros x. unfold sortedResourceNames. by rewrite elem_of_sort_Strings, elem_of_elements, elem_of_dom. }
  assert (Heq : srq_ResourceName <$> queuesSlice m = sortedResourceNames m).
  { apply omap_names; [done|]. intros x. apply Hnames. }
  rewrite queuesFromStatus_lookup, lookup_empty.
  2:{ rewrite Heq. unfold sortedResourceNames. rewrite sort_Strings_perm. apply NoDup_elements. }
  destruct (List.find _ _) as [q|] eqn:Hf.
  - apply find_some in Hf as [Hin Hq]. str_bool. apply list_elem_of_In in Hin.
    unfold queuesSlice in Hin. apply list_elem_of_omap in Hin as (n' & _ & Hn'). by rewrite <- (Hnamed _ _ Hn'), Hq in Hn'.
  - destruct (m !! n) as [q|] eqn:Hq; [|done]. exfalso.
    assert (Hin : q ∈ queuesSlice m) by (apply list_elem_of_omap; exists n; split; [apply Hnames; eauto|done]).
    apply list_elem_of_In in Hin. pose proof (find_none _ _ Hf _ Hin) as Hne. simpl in Hne. str_bool.
    by apply Hne, Hnamed.
Qed.

(** Handlers never deadlock on zone locks: among any threads inside lockZones, each holding some
    first locks of its own sorted order, some thread has all its locks or waits for one that nobody
    holds; so a set of threads can never block one another. *)
Theorem lockZones_deadlock_free (ts : list locker)
  (Horders : forall t, t ∈ ts -> exists ns zones, lk_keys t = lockOrder ns zones)
  (Hsome : ts <> []) :
  exists t, t ∈ ts /\ (wants t = None \/ exists k, wants t = Some k /\ forall t', t' ∈ ts -> ~ holds t' k).
Proof.
  destruct (existsb (fun t => negb (waiting t)) ts) eqn:Hall.
  { apply existsb_elem in Hall as (t & Hin & Hn). unfold waiting in Hn. exists t. split; [done|]. left. by destruct (wants t). }
  assert (Hw : forall t, t ∈ ts -> is_Some (wants t)).
  { intros t Ht. rewrite existsb_false in Hall. specialize (Hall t Ht). unfold waiting in Hall. destruct (wants t); [eauto|done]. }
  destruct (max_wanted ts) as (t & k & Hin & Hk & Hmax).
  { destruct ts as [|t ts]; [done|]. exists t. split; [by left|]. apply Hw. by left. }
  exists t. split; [done|]. right. exists k. split; [done|]. intros t' Ht' Hh.
  destruct (Hw t' Ht') as [k' Hk']. destruct (Horders t' Ht') as (ns & zones & Ho).
  unfold holds, wants in *. apply list_elem_of_lookup in Hh as [i Hi]. apply lookup_take_Some in Hi as [Hi Hlt].
  rewrite Ho in *. pose proof (lockOrder_increasing ns zones _ _ _ _ Hi Hk' Hlt) as Hlt'.
  by rewrite (Hmax t' k' Ht') in Hlt' by (unfold wants; by rewrite Ho).
Qed.

Lemma lockZones_deadlock_free_witness :
  let ts := [mkLocker (lockOrder "site" ["hall"; "dock"]) 1; mkLocker (lockOrder "site" ["dock"; "hall"; "dock"]) 0] in
  exists t, t ∈ ts /\ (wants t = None \/ exists k, wants t = Some k /\ forall t', t' ∈ ts -> ~ holds t' k).
Proof.
  intros ts. apply (lockZones_deadlock_free ts); [|done]. intros t Ht. unfold ts in Ht. set_unfold in Ht.
  destruct Ht as [->|[->|[]]]; simpl; eauto.
Defined.

(** ** Holds of a kept action in another zone *)

(** One action is Occupied in the dock and holds the hall's door; the TDE restarts. *)
Definition exRestartZones : list FleetZone :=
  [mkFleetZone "dock" "site" "u1" ∅ (mkFleetZoneSpec 1 [] "" None)
     (mkFleetZoneStatus [mkZoneReservation "r1" "a1" ActionPriorityNormal ReservationOccupied 5 None (Some 6)] [] 1);
   mkFleetZone "hall" "site" "u2" ∅ (mkFleetZoneSpec 0 [mkSharedResource "door" 1 ReservationFIFO] "" None)
     (mkFleetZoneStatus [] [mkSharedResourceQueue "door" [mkResourceHolder "r1" "a1" ActionPriorityNormal 5] []] 0)].
Definition exRobotIn (name zone : string) : Robot :=
  mkRobot name "site" ("uid-" +:+ name) ∅ None "" "" RobotPhaseIdle zone None [] [] [] "" RobotEstopNormal [].
Definition exRestartStore : store := storeOf exRestartZones [exRobotIn "r1" "dock"].

(** Recovery releases the holds of an action it keeps, when they are in another zone: an action
    whose Occupied entry in one zone is validated and kept loses the shared resource it holds in a
    second zone, because the kept action ids are collected zone by zone. *)
Theorem recovery_drops_kept_actions_remote_hold :
  let r := Recover exRestartStore (New DefaultConfig) RecoverValidate 100 in
  fst (fst r) = None /\
  map zr_ActionID (resAt (fst (snd r)) "site/dock") = ["a1"] /\
  srq_CurrentHolders <$> zs_resources (zoneAt (fst (snd r)) "site/hall") !! "door" = Some [].
Proof. vm_compute. split_and!; reflexivity. Qed.

Lemma Recover_keeps_only_validated_witness :
  exists zones z, listAllFleetZones exRestartStore = Some zones /\ z ∈ zones /\
    "site/dock" = zoneKey (fz_Namespace z) (fz_Name z).
Proof.
  destruct (listAllFleetZones exRestartStore) as [zones|] eqn:Hz; [|discriminate Hz].
  destruct (Recover_keeps_only_validated exRestartStore DefaultConfig RecoverValidate 100 zones "site/dock"
    (mkZoneReservation "r1" "a1" ActionPriorityNormal ReservationOccupied 5 None (Some 6)) Hz) as (z & Hin & Hk & _).
  - assert (Heq : resAt (fst (snd (Recover exRestartStore (New DefaultConfig) RecoverValidate 100))) "site/dock" =
      [mkZoneReservation "r1" "a1" ActionPriorityNormal ReservationOccupied 5 None (Some 6)]) by (vm_compute; reflexivity).
    rewrite Heq. by left.
  - exists zones, z. by split_and!.
Defined.
