(* ===== verification/Flow.v ===== *)
(** The task flow tree (src/api/v1/fleettask_flow_types.go) and its evaluator and structural
    validator (src/internal/flow): definitions. The properties are in FlowProps.

    A struct with optional kinds stays one record per node, so a node with several kinds set is
    representable and the dispatch order of the code is visible. The evaluator's [out] parameter,
    which Go mutates, is threaded as [Eval]. *)

From S2P Require Import Prelude.
From S2P Require Import Types.
From S2P Require Import ParseFloat.

(** ** The tree *)

Definition JoinModeAll : string := "All".
Definition JoinModeAny : string := "Any".
Definition JoinModeQuorum : string := "Quorum".
Definition JoinModeFirst : string := "First".
Record JoinSpec := mkJoinSpec { j_Mode : string; j_Quorum : option Z }.

Definition OnJoinCancelSiblings : string := "CancelSiblings".
Definition OnJoinLetRunToCompletion : string := "LetRunToCompletion".
Definition OnBranchFailureFailNode : string := "FailNode".
Definition OnBranchFailureIgnore : string := "Ignore".

Definition LoopModeOnce : string := "Once".
Definition LoopModeTimes : string := "Times".
Definition LoopModeForever : string := "Forever".

Record UntilEventCondition := mkUntilEvent { ue_Type : string; ue_From : string }.
Record UntilResultCondition := mkUntilResult { ur_Member : string; ur_Field : string; ur_Equals : string }.
Record UntilCondition := mkUntil { u_Event : option UntilEventCondition; u_Result : option UntilResultCondition }.
Definition UntilSpec : Type := list UntilCondition.        (* AnyOf *)

Record FlowRetention := mkRetention {
  KeepIterationRecords : Z; KeepChildren : Z; KeepFailedChildren : Z }.

Record SelectSubject := mkSubject { s_Member : string; s_Event : option string; s_From : string; s_Field : string }.
Definition Producer (s : SelectSubject) : string :=
  match s_Event s with Some _ => s_From s | None => s_Member s end.

Record SelectRange := mkRange {
  rg_Field : string; rg_Lt : option float64; rg_Lte : option float64; rg_Gt : option float64; rg_Gte : option float64 }.

Inductive FlowNode : Type :=
| mkFlowNode (Run : option string) (Sequence : list FlowNode) (Parallel : option ParallelNode)
    (Loop : option LoopNode) (Select : option SelectNode)
with ParallelNode : Type :=
| mkParallelNode (Branches : list FlowNode) (Join : option JoinSpec) (OnJoin OnBranchFailure : string)
with LoopNode : Type :=
| mkLoopNode (Mode : string) (Times : option Z) (Body : FlowNode) (Until : option UntilSpec)
    (InterruptRunning : bool) (MaxIterations MaxDurationSeconds : option Z) (Retention : option FlowRetention)
with SelectNode : Type :=
| mkSelectNode (Subject : SelectSubject) (Cases : list SelectCase) (Default : FlowNode)
with SelectCase : Type :=
| mkSelectCase (Equals : option string) (In : list string) (Range : option SelectRange)
    (Present : option bool) (When : option string) (Then : FlowNode).

Definition l_Mode (l : LoopNode) : string := let '(mkLoopNode m _ _ _ _ _ _ _) := l in m.
Definition l_Times (l : LoopNode) : option Z := let '(mkLoopNode _ t _ _ _ _ _ _) := l in t.
Definition l_Body (l : LoopNode) : FlowNode := let '(mkLoopNode _ _ b _ _ _ _ _) := l in b.
Definition l_Until (l : LoopNode) : option UntilSpec := let '(mkLoopNode _ _ _ u _ _ _ _) := l in u.
Definition l_InterruptRunning (l : LoopNode) : bool := let '(mkLoopNode _ _ _ _ i _ _ _) := l in i.
Definition l_MaxIterations (l : LoopNode) : option Z := let '(mkLoopNode _ _ _ _ _ m _ _) := l in m.
Definition l_MaxDurationSeconds (l : LoopNode) : option Z := let '(mkLoopNode _ _ _ _ _ _ m _) := l in m.
Definition p_Branches (p : ParallelNode) : list FlowNode := let '(mkParallelNode b _ _ _) := p in b.
Definition c_Then (c : SelectCase) : FlowNode := let '(mkSelectCase _ _ _ _ _ t) := c in t.
Definition c_When (c : SelectCase) : option string := let '(mkSelectCase _ _ _ _ w _) := c in w.

(** ** Outcomes, children and progress (evaluator.go) *)

Inductive Outcome := OutcomeInProgress | OutcomeSucceeded | OutcomeFailed | OutcomeCancelled.

#[export] Instance Outcome_eq_dec : EqDecision Outcome.
Proof. solve_decision. Defined.

Definition outcome_eqb (a b : Outcome) : bool := bool_decide (a = b).

Definition Settled (o : Outcome) : bool :=
  match o with OutcomeInProgress => false | _ => true end.

Record Ref := mkRef { ref_Member : string; ref_Iteration : Z }.

Record ActionEvent := mkActionEvent { ae_Type : string; ae_Seq : Z; ae_Payload : gmap string string }.

(** [cs_Result] is the result's values map, [None] for a nil result. *)
Record ChildState := mkChildState {
  cs_Exists : bool;
  cs_Phase : ActionPhase;
  cs_Result : option (gmap string string);
  cs_Events : list ActionEvent;
  cs_EventsDropped : Z
}.

Definition latestStep (eventType : string) (best : option ActionEvent) (e : ActionEvent) : option ActionEvent :=
  if ae_Type e <>s eventType then best
  else match best with
       | None => Some e
       | Some b => if ae_Seq b <? ae_Seq e then Some e else best
       end.

Definition LatestEvent (c : ChildState) (eventType : string) : option ActionEvent :=
  fold_left (latestStep eventType) (cs_Events c) None.

Definition child_outcome (c : ChildState) : Outcome :=
  if negb (cs_Exists c) then OutcomeInProgress
  else if cs_Phase c =s ActionPhaseSucceeded then OutcomeSucceeded
  else if cs_Phase c =s ActionPhaseFailed then OutcomeFailed
  else if cs_Phase c =s ActionPhaseCancelled then OutcomeCancelled
  else OutcomeInProgress.

Definition nonTerminal (c : ChildState) : bool := cs_Exists c && negb (Settled (child_outcome c)).

Record LoopProgress := mkLoopProgress { lp_Iteration : Z; lp_StartedAt : option Time }.

Record Context := mkContext {
  cx_Now : Time;
  cx_Child : string -> Z -> ChildState;
  cx_LoopProgress : string -> LoopProgress
}.

Record IterationSettlement := mkSettlement { is_AnchorMember : string; is_Iteration : Z; is_Outcome : Outcome }.

(** The diagnostics the evaluator writes, with the values it formats into them. *)
Inductive Diagnostic :=
| NoDiagnostic
| EventNeverReadable (event from : string) (o : Outcome) (eventsDropped : Z)
| UnevaluableWhen (i : nat) (when : string).

Record Eval := mkEval {
  ev_Ensure : list Ref;
  ev_Cancel : list Ref;
  ev_Settled : list IterationSettlement;
  ev_StartIteration : gmap string Z;
  ev_Diagnostic : Diagnostic
}.

Definition emptyEval : Eval := mkEval [] [] [] ∅ NoDiagnostic.

Definition ensure (m : string) (it : Z) (out : Eval) : Eval :=
  mkEval (ev_Ensure out ++ [mkRef m it]) (ev_Cancel out) (ev_Settled out) (ev_StartIteration out) (ev_Diagnostic out).
Definition cancel (m : string) (it : Z) (out : Eval) : Eval :=
  mkEval (ev_Ensure out) (ev_Cancel out ++ [mkRef m it]) (ev_Settled out) (ev_StartIteration out) (ev_Diagnostic out).
Definition settle (s : IterationSettlement) (out : Eval) : Eval :=
  mkEval (ev_Ensure out) (ev_Cancel out) (ev_Settled out ++ [s]) (ev_StartIteration out) (ev_Diagnostic out).
Definition startIteration (anchor : string) (it : Z) (out : Eval) : Eval :=
  mkEval (ev_Ensure out) (ev_Cancel out) (ev_Settled out) (<[anchor := it]> (ev_StartIteration out)) (ev_Diagnostic out).
Definition diagnose (d : Diagnostic) (out : Eval) : Eval :=
  mkEval (ev_Ensure out) (ev_Cancel out) (ev_Settled out) (ev_StartIteration out) d.

(** ** Anchors and cancellation *)

(** The first non-empty answer of a walk over a list. *)
Definition firstNonEmpty {A} (f : A -> string) : list A -> string :=
  fix go l := match l with [] => "" | x :: l => if f x <>s "" then f x else go l end.

Fixpoint anchorMember (node : FlowNode) : string :=
  match node with
  | mkFlowNode (Some m) _ _ _ _ => m
  | mkFlowNode None ((_ :: _) as seq) _ _ _ => firstNonEmpty anchorMember seq
  | mkFlowNode None [] (Some (mkParallelNode branches _ _ _)) _ _ => firstNonEmpty anchorMember branches
  | mkFlowNode None [] None (Some (mkLoopNode _ _ body _ _ _ _ _)) _ => anchorMember body
  | mkFlowNode None [] None None (Some (mkSelectNode _ cases dflt)) =>
      let m := firstNonEmpty (fun c => let '(mkSelectCase _ _ _ _ _ t) := c in anchorMember t) cases in
      if m <>s "" then m else anchorMember dflt
  | mkFlowNode None [] None None None => ""
  end.

(** A walk over a list that threads [out]. *)
Definition walk {A} (f : A -> Eval -> Eval) : list A -> Eval -> Eval :=
  fix go l out := match l with [] => out | x :: l => go l (f x out) end.

Section evaluator.
Variable ctx : Context.

Fixpoint collectCancel (node : FlowNode) (iter : Z) (out : Eval) {struct node} : Eval :=
  match node with
  | mkFlowNode (Some m) _ _ _ _ => if nonTerminal (cx_Child ctx m iter) then cancel m iter out else out
  | mkFlowNode None ((_ :: _) as seq) _ _ _ => walk (fun n => collectCancel n iter) seq out
  | mkFlowNode None [] (Some (mkParallelNode branches _ _ _)) _ _ => walk (fun n => collectCancel n iter) branches out
  | mkFlowNode None [] None (Some (mkLoopNode _ _ body _ _ _ _ _)) _ =>
      if anchorMember body =s "" then out
      else let lp := cx_LoopProgress ctx (anchorMember body) in
           if 0 <? lp_Iteration lp then collectCancel body (lp_Iteration lp) out else out
  | mkFlowNode None [] None None (Some (mkSelectNode _ cases dflt)) =>
      collectCancel dflt iter (walk (fun c => let '(mkSelectCase _ _ _ _ _ t) := c in collectCancel t iter) cases out)
  | mkFlowNode None [] None None None => out
  end.

(** ** Loop bounds *)

Definition hasEvent (member : string) (iteration : Z) (eventType : string) : bool :=
  let st := cx_Child ctx member iteration in
  cs_Exists st && match LatestEvent st eventType with Some _ => true | None => false end.

Definition resolveUntilEvent (e : UntilEventCondition) (iteration : Z) : bool :=
  hasEvent (ue_From e) iteration (ue_Type e) ||
  (negb (iteration =? 0) && hasEvent (ue_From e) 0 (ue_Type e)).

Definition resultField (member : string) (iteration : Z) (field : string) : option string :=
  let st := cx_Child ctx member iteration in
  if cs_Exists st then cs_Result st ≫= (fun values => values !! field) else None.

Definition resolveUntilResult (r : UntilResultCondition) (iteration : Z) : option string :=
  match resultField (ur_Member r) iteration (ur_Field r) with
  | Some v => Some v
  | None => resultField (ur_Member r) 0 (ur_Field r)
  end.

Definition untilHolds (iteration : Z) (c : UntilCondition) : bool :=
  match u_Event c, u_Result c with
  | Some e, _ => resolveUntilEvent e iteration
  | None, Some r => match resolveUntilResult r iteration with Some v => v =s ur_Equals r | None => false end
  | None, None => false
  end.

Definition loopBoundSatisfied (l : LoopNode) (lp : LoopProgress) : bool :=
  match l_Until l with Some anyOf => existsb (untilHolds (lp_Iteration lp)) anyOf | None => false end ||
  match l_MaxIterations l with Some m => m <=? lp_Iteration lp | None => false end ||
  match l_MaxDurationSeconds l, lp_StartedAt lp with
  | Some d, Some t0 => negb (cx_Now ctx <? t0 + d * Second)
  | _, _ => false
  end.

(** ** Select cases *)

Definition optTest (f : float64 -> bool) (bound : option float64) : bool :=
  match bound with Some b => f b | None => true end.

Definition rangeMatches (r : SelectRange) (f : float64) : bool :=
  optTest (fun b => SFltb f b) (rg_Lt r) && optTest (fun b => SFleb f b) (rg_Lte r) &&
  optTest (fun b => SFltb b f) (rg_Gt r) && optTest (fun b => SFleb b f) (rg_Gte r).

Definition caseMatches (c : SelectCase) (subjectField : string) (values : gmap string string) : bool :=
  let '(mkSelectCase equals ins range present when _) := c in
  match present, equals, ins, range with
  | Some b, _, _, _ => Bool.eqb (match values !! subjectField with Some _ => true | None => false end) b
  | None, Some x, _, _ => match values !! subjectField with Some v => v =s x | None => false end
  | None, None, ((_ :: _) as ins), _ =>
      match values !! subjectField with Some v => existsb (fun x => x =s v) ins | None => false end
  | None, None, [], Some r =>
      match values !! (if rg_Field r <>s "" then rg_Field r else subjectField) with
      | None => false
      | Some v => match ParseFloat v with None => false | Some f => rangeMatches r f end
      end
  | None, None, [], None => false
  end.

Definition resultValues (r : option (gmap string string)) : gmap string string := default ∅ r.

(** The cases in order: a [when] fails the node, the first match runs its [then], else the default. *)
Definition runCases (run : FlowNode -> Eval -> Outcome * Eval) (field : string) (values : gmap string string)
    (dflt : FlowNode) : nat -> list SelectCase -> Eval -> Outcome * Eval :=
  fix go i cases out :=
    match cases with
    | [] => run dflt out
    | ((mkSelectCase _ _ _ _ when t) as c) :: cases =>
        match when with
        | Some w => (OutcomeFailed, diagnose (UnevaluableWhen i w) out)
        | None => if caseMatches c field values then run t out else go (S i) cases out
        end
    end.

(** ** Joins *)

Definition joinMode (j : option JoinSpec) : string :=
  match j with Some s => if j_Mode s <>s "" then j_Mode s else JoinModeAll | None => JoinModeAll end.
Definition joinQuorum (j : option JoinSpec) (branches : nat) : Z :=
  match j with
  | Some s => default (int32_of (Z.of_nat branches)) (j_Quorum s)
  | None => int32_of (Z.of_nat branches)
  end.
Definition orDefault (s dflt : string) : string := if s <>s "" then s else dflt.

Definition countOutcomes (p : Outcome -> bool) (os : list Outcome) : Z := Z.of_nat (length (List.filter p os)).

(** The join switch: the node's outcome once the join is satisfied. *)
Definition joinOutcome (mode : string) (quorum : Z) (onBranchFailure : string) (os : list Outcome) : option Outcome :=
  let succeeded := countOutcomes (outcome_eqb OutcomeSucceeded) os in
  let settled := countOutcomes Settled os in
  let total := Z.of_nat (length os) in
  if mode =s JoinModeFirst then List.find Settled os
  else if mode =s JoinModeAny then
    if 1 <=? succeeded then Some OutcomeSucceeded
    else if settled =? total then Some OutcomeFailed else None
  else if mode =s JoinModeQuorum then
    let remainingPossible := succeeded + (total - settled) in
    if quorum <=? int32_of succeeded then Some OutcomeSucceeded
    else if int32_of remainingPossible <? quorum then Some OutcomeFailed else None
  else
    let anyFailedNow := existsb (fun o => (outcome_eqb o OutcomeFailed && (onBranchFailure =s OnBranchFailureFailNode))
                                          || outcome_eqb o OutcomeCancelled) os in
    if anyFailedNow then Some OutcomeFailed
    else if settled =? total then Some OutcomeSucceeded else None.

(** Ask for the cancellation of every branch that has not settled. *)
Fixpoint cancelUnsettled (branches : list FlowNode) (os : list Outcome) (iter : Z) (out : Eval) : Eval :=
  match branches, os with
  | b :: branches, o :: os =>
      cancelUnsettled branches os iter (if Settled o then out else collectCancel b iter out)
  | _, _ => out
  end.

(** What a parallel node answers once its branches' outcomes are known. *)
Definition joinBranches (join : option JoinSpec) (onJoin onBranchFailure : string) (branches : list FlowNode)
    (os : list Outcome) (iter : Z) (out : Eval) : Outcome * Eval :=
  match joinOutcome (joinMode join) (joinQuorum join (length branches)) (orDefault onBranchFailure OnBranchFailureFailNode) os with
  | None => (OutcomeInProgress, out)
  | Some nodeOutcome =>
      let out := if orDefault onJoin OnJoinCancelSiblings =s OnJoinCancelSiblings
                 then cancelUnsettled branches os iter out else out in
      if countOutcomes Settled os <? Z.of_nat (length os) then (OutcomeInProgress, out) else (nodeOutcome, out)
  end.

(** ** Evaluation *)

Definition evalRun (member : string) (iter : Z) (out : Eval) : Outcome * Eval :=
  let st := cx_Child ctx member iter in
  (child_outcome st, if cs_Exists st then out else ensure member iter out).

Definition evalSequence (run : FlowNode -> Eval -> Outcome * Eval) : list FlowNode -> Eval -> Outcome * Eval :=
  fix go nodes out :=
    match nodes with
    | [] => (OutcomeSucceeded, out)
    | n :: nodes => match run n out with
                    | (OutcomeSucceeded, out) => go nodes out
                    | r => r
                    end
    end.

Definition evalBranches (run : FlowNode -> Eval -> Outcome * Eval) : list FlowNode -> Eval -> list Outcome * Eval :=
  fix go nodes out :=
    match nodes with
    | [] => ([], out)
    | n :: nodes => let '(o, out) := run n out in
                    let '(os, out) := go nodes out in (o :: os, out)
    end.

(** The part of evalLoop after the body: what a settled iteration leads to. *)
Definition afterIteration (l : LoopNode) (anchor : string) (lp : LoopProgress) (exitReady : bool)
    (bodyOutcome : Outcome) (out : Eval) : Outcome * Eval :=
  let next := (OutcomeInProgress, startIteration anchor (int32_of (lp_Iteration lp + 1)) out) in
  if outcome_eqb bodyOutcome OutcomeFailed then (OutcomeFailed, out)
  else if outcome_eqb bodyOutcome OutcomeCancelled && negb exitReady then (OutcomeCancelled, out)
  else if l_Mode l =s LoopModeOnce then (OutcomeSucceeded, out)
  else if l_Mode l =s LoopModeTimes then
    if default 1 (l_Times l) <=? lp_Iteration lp then (OutcomeSucceeded, out) else next
  else if l_Mode l =s LoopModeForever then
    if exitReady then (OutcomeSucceeded, out) else next
  else (OutcomeFailed, out).

Definition evalLoop (run : FlowNode -> Z -> Eval -> Outcome * Eval) (l : LoopNode) (out : Eval) : Outcome * Eval :=
  let '(mkLoopNode _ _ body _ _ _ _ _) := l in
  let anchor := anchorMember body in
  if anchor =s "" then (OutcomeSucceeded, out)
  else
    let lp := cx_LoopProgress ctx anchor in
    if lp_Iteration lp =? 0 then (OutcomeInProgress, startIteration anchor 1 out)
    else
      let exitReady := loopBoundSatisfied l lp in
      let out := if l_InterruptRunning l && exitReady then collectCancel body (lp_Iteration lp) out else out in
      let '(bodyOutcome, out) := run body (lp_Iteration lp) out in
      if negb (Settled bodyOutcome) then (OutcomeInProgress, out)
      else
        let out := settle (mkSettlement anchor (lp_Iteration lp) bodyOutcome) out in
        afterIteration l anchor lp exitReady bodyOutcome out.

Definition evalSelect (run : FlowNode -> Eval -> Outcome * Eval) (s : SelectNode) (iter : Z) (out : Eval) : Outcome * Eval :=
  let '(mkSelectNode subject cases dflt) := s in
  match s_Event subject with
  | Some event =>
      let st := cx_Child ctx (s_From subject) iter in
      if negb (cs_Exists st) then (OutcomeInProgress, ensure (s_From subject) iter out)
      else match LatestEvent st event with
           | None =>
               let o := child_outcome st in
               if negb (Settled o) then (OutcomeInProgress, out)
               else (OutcomeFailed, diagnose (EventNeverReadable event (s_From subject) o (cs_EventsDropped st)) out)
           | Some ev => runCases run (s_Field subject) (ae_Payload ev) dflt 0 cases out
           end
  | None =>
      let st := cx_Child ctx (s_Member subject) iter in
      if negb (cs_Exists st) then (OutcomeInProgress, ensure (s_Member subject) iter out)
      else
        let o := child_outcome st in
        if negb (Settled o) then (OutcomeInProgress, out)
        else if negb (outcome_eqb o OutcomeSucceeded) then (o, out)
        else runCases run (s_Field subject) (resultValues (cs_Result st)) dflt 0 cases out
  end.

Fixpoint evalNode (node : FlowNode) (iter : Z) (out : Eval) {struct node} : Outcome * Eval :=
  match node with
  | mkFlowNode (Some m) _ _ _ _ => evalRun m iter out
  | mkFlowNode None ((_ :: _) as seq) _ _ _ => evalSequence (fun n => evalNode n iter) seq out
  | mkFlowNode None [] (Some (mkParallelNode branches join onJoin onBranchFailure)) _ _ =>
      let '(os, out) := evalBranches (fun n => evalNode n iter) branches out in
      joinBranches join onJoin onBranchFailure branches os iter out
  | mkFlowNode None [] None (Some l) _ => evalLoop evalNode l out
  | mkFlowNode None [] None None (Some s) => evalSelect (fun n => evalNode n iter) s iter out
  | mkFlowNode None [] None None None => (OutcomeSucceeded, out)
  end.

Definition Evaluate (root : FlowNode) : Outcome * Eval := evalNode root 0 emptyEval.

End evaluator.

(** ** Structural validation (validate.go) *)

Definition MaxDepth : Z := 32.
Definition MaxNodes : Z := 1024.

(** One constructor per refusal message, with the values it formats. *)
Inductive FlowError :=
| ErrTooDeep
| ErrTooManyNodes
| ErrSeveralKinds
| ErrUnknownMember (m : string)
| ErrNoBranches
| ErrOnJoin (v : string)
| ErrOnBranchFailure (v : string)
| ErrJoinMode (v : string)
| ErrQuorumRequired
| ErrQuorumMinimum
| ErrLoopMode (v : string)
| ErrTimesRequired
| ErrTimesMinimum
| ErrUnboundedForever
| ErrMaxIterations
| ErrMaxDuration
| ErrKeepIterationRecords
| ErrKeepChildren
| ErrKeepFailedChildren
| ErrUntilResultMember (i : nat) (m : string)
| ErrUntilEventMember (i : nat) (m : string)
| ErrSubjectProducer
| ErrSubjectMember (m : string)
| ErrCasePredicates (i : nat).

(** A check that walks the node counter; [Ok] carries the counter on. *)
Definition checked : Type := result FlowError Z.

Definition require (b : bool) (e : FlowError) : result FlowError () := if b then Ok () else Err e.

Definition isSome {A} (o : option A) : bool := match o with Some _ => true | None => false end.
Definition nonNil {A} (l : list A) : bool := match l with [] => false | _ :: _ => true end.
Definition atLeast (n : Z) (o : option Z) : bool := match o with Some v => n <=? v | None => true end.
Definition oneOf (v : string) (l : list string) : bool := existsb (fun x => x =s v) l.

Definition validateRetention (r : option FlowRetention) : result FlowError () :=
  match r with
  | None => Ok ()
  | Some r =>
      let? _ := require (negb ((KeepIterationRecords r <? 0) || (100 <? KeepIterationRecords r))) ErrKeepIterationRecords in
      let? _ := require (negb (KeepChildren r <? 0)) ErrKeepChildren in
      require (negb (KeepFailedChildren r <? 0)) ErrKeepFailedChildren
  end.

Definition validateUntil (members : gset string) : nat -> list UntilCondition -> result FlowError () :=
  fix go i conds :=
    match conds with
    | [] => Ok ()
    | c :: conds =>
        let? _ := match u_Result c with
                  | Some r => require (bool_decide (ur_Member r ∈ members)) (ErrUntilResultMember i (ur_Member r))
                  | None => Ok ()
                  end in
        let? _ := match u_Event c with
                  | Some e => require (bool_decide (ue_From e ∈ members)) (ErrUntilEventMember i (ue_From e))
                  | None => Ok ()
                  end in
        go (S i) conds
    end.

Definition validateJoin (join : option JoinSpec) : result FlowError () :=
  match join with
  | None => Ok ()
  | Some j =>
      let? _ := require (oneOf (j_Mode j) [""; JoinModeAll; JoinModeAny; JoinModeQuorum; JoinModeFirst]) (ErrJoinMode (j_Mode j)) in
      let? _ := require (negb ((j_Mode j =s JoinModeQuorum) && negb (isSome (j_Quorum j)))) ErrQuorumRequired in
      require (atLeast 1 (j_Quorum j)) ErrQuorumMinimum
  end.

(** The checks on a parallel node before its branches are walked. *)
Definition validateParallel (branches : list FlowNode) (join : option JoinSpec) (onJoin onBranchFailure : string)
    : result FlowError () :=
  let? _ := require (nonNil branches) ErrNoBranches in
  let? _ := require (oneOf onJoin [""; OnJoinCancelSiblings; OnJoinLetRunToCompletion]) (ErrOnJoin onJoin) in
  let? _ := require (oneOf onBranchFailure [""; OnBranchFailureFailNode; OnBranchFailureIgnore]) (ErrOnBranchFailure onBranchFailure) in
  validateJoin join.

(** The checks on a loop before its body is walked. *)
Definition validateLoop (members : gset string) (l : LoopNode) : result FlowError () :=
  let '(mkLoopNode mode times _ until _ maxIterations maxDurationSeconds retention) := l in
  let? _ := require (oneOf mode [LoopModeOnce; LoopModeTimes; LoopModeForever]) (ErrLoopMode mode) in
  let? _ := require (negb ((mode =s LoopModeTimes) && negb (isSome times))) ErrTimesRequired in
  let? _ := require (atLeast 1 times) ErrTimesMinimum in
  let? _ := require (negb ((mode =s LoopModeForever) && negb (isSome until) && negb (isSome maxIterations)
                           && negb (isSome maxDurationSeconds))) ErrUnboundedForever in
  let? _ := require (atLeast 1 maxIterations) ErrMaxIterations in
  let? _ := require (atLeast 1 maxDurationSeconds) ErrMaxDuration in
  let? _ := validateRetention retention in
  match until with Some anyOf => validateUntil members 0 anyOf | None => Ok () end.

Definition validateSubject (members : gset string) (subject : SelectSubject) : result FlowError () :=
  let? _ := require (Producer subject <>s "") ErrSubjectProducer in
  require (bool_decide (Producer subject ∈ members)) (ErrSubjectMember (Producer subject)).

Definition casePredicates (c : SelectCase) : Z :=
  let '(mkSelectCase equals ins range present when _) := c in
  Z.b2z (isSome equals) + Z.b2z (nonNil ins) + Z.b2z (isSome range) + Z.b2z (isSome present) + Z.b2z (isSome when).

Definition nodeKinds (node : FlowNode) : Z :=
  let '(mkFlowNode run seq par loop sel) := node in
  Z.b2z (isSome run) + Z.b2z (nonNil seq) + Z.b2z (isSome par) + Z.b2z (isSome loop) + Z.b2z (isSome sel).

(** Walk a list with the counter; the first refusal ends it. *)
Definition walkChecked {A} (f : A -> Z -> checked) : list A -> Z -> checked :=
  fix go l nodes := match l with [] => Ok nodes | x :: l => let? nodes := f x nodes in go l nodes end.

(** The cases of a select: each one's predicate count, then its [then]. *)
Definition walkCases (f : FlowNode -> Z -> checked) : nat -> list SelectCase -> Z -> checked :=
  fix go i cases nodes :=
    match cases with
    | [] => Ok nodes
    | ((mkSelectCase _ _ _ _ _ t) as c) :: cases =>
        let? _ := require (casePredicates c =? 1) (ErrCasePredicates i) in
        let? nodes := f t nodes in
        go (S i) cases nodes
    end.

(** Pointers to nodes are never nil here: a Go slice element or embedded struct. *)
Fixpoint validateNode (members : gset string) (node : FlowNode) (depth nodes : Z) {struct node} : checked :=
  let? _ := require (depth <=? MaxDepth) ErrTooDeep in
  let nodes := nodes + 1 in
  let? _ := require (nodes <=? MaxNodes) ErrTooManyNodes in
  let? _ := require (nodeKinds node <=? 1) ErrSeveralKinds in
  match node with
  | mkFlowNode (Some m) _ _ _ _ =>
      let? _ := require (bool_decide (m ∈ members)) (ErrUnknownMember m) in Ok nodes
  | mkFlowNode None ((_ :: _) as seq) _ _ _ => walkChecked (fun n => validateNode members n (depth + 1)) seq nodes
  | mkFlowNode None [] (Some (mkParallelNode branches join onJoin onBranchFailure)) _ _ =>
      let? _ := validateParallel branches join onJoin onBranchFailure in
      walkChecked (fun n => validateNode members n (depth + 1)) branches nodes
  | mkFlowNode None [] None (Some ((mkLoopNode _ _ body _ _ _ _ _) as l)) _ =>
      let? _ := validateLoop members l in
      validateNode members body (depth + 1) nodes
  | mkFlowNode None [] None None (Some (mkSelectNode subject cases dflt)) =>
      let? _ := validateSubject members subject in
      let? nodes := walkCases (fun n => validateNode members n (depth + 1)) 0 cases nodes in
      validateNode members dflt (depth + 1) nodes
  | mkFlowNode None [] None None None => Ok nodes
  end.

(** [None] is "no message, true". *)
Definition ValidateStructure (node : FlowNode) (members : gset string) : option FlowError :=
  match validateNode members node 1 0 with Ok _ => None | Err e => Some e end.

Definition MemberNames (actions : list string) : gset string := list_to_set actions.
