(* ===== verification/FlowProps.v ===== *)
(** Properties of the flow evaluator and validator of Flow: what the validator admits, what a pass
    may ask for, when a parallel node settles, how far a loop goes, and that a pass over an
    admitted tree always leaves something to wait for. *)

From S2P Require Import Prelude.
From S2P Require Import Types.
From S2P Require Import Flow.

(** ** Induction over the nodes the code walks *)

(** The children of the one kind the code dispatches to. *)
Definition kids (n : FlowNode) : list FlowNode :=
  match n with
  | mkFlowNode (Some _) _ _ _ _ => []
  | mkFlowNode None ((_ :: _) as seq) _ _ _ => seq
  | mkFlowNode None [] (Some (mkParallelNode branches _ _ _)) _ _ => branches
  | mkFlowNode None [] None (Some (mkLoopNode _ _ body _ _ _ _ _)) _ => [body]
  | mkFlowNode None [] None None (Some (mkSelectNode _ cases dflt)) => (c_Then <$> cases) ++ [dflt]
  | mkFlowNode None [] None None None => []
  end.

Lemma flow_ind (P : FlowNode -> Prop) : (forall n, (forall c, c ∈ kids n -> P c) -> P n) -> forall n, P n.
Proof.
  intros H. fix IH 1. intros n. apply H. destruct n as [run seq par loop sel]. simpl.
  destruct run as [m|]; [intros c Hc; exfalso; exact (not_elem_of_nil _ Hc)|].
  assert (Hseq : forall c, c ∈ seq -> P c).
  { induction seq as [|x seq IHs]; intros c Hc; [exfalso; exact (not_elem_of_nil _ Hc)|].
    apply elem_of_cons in Hc as [->|Hc]; [exact (IH _)|exact (IHs _ Hc)]. }
  destruct seq as [|x seq]; [|exact Hseq]. clear Hseq.
  destruct par as [[branches join onJoin obf]|].
  { induction branches as [|x bs IHs]; intros c Hc; [exfalso; exact (not_elem_of_nil _ Hc)|].
    apply elem_of_cons in Hc as [->|Hc]; [exact (IH _)|exact (IHs _ Hc)]. }
  destruct loop as [[mode times body until ir mi md ret]|].
  { intros c Hc. apply list_elem_of_singleton in Hc as ->. apply IH. }
  destruct sel as [[subject cases dflt]|]; [|intros c Hc; exfalso; exact (not_elem_of_nil _ Hc)].
  intros c [Hc|Hc]%elem_of_app; [|apply list_elem_of_singleton in Hc as ->; apply IH].
  induction cases as [|[eq ins rg pr wh t] cs IHs]; [exfalso; exact (not_elem_of_nil _ Hc)|].
  rewrite fmap_cons in Hc. apply elem_of_cons in Hc as [->|Hc]; [exact (IH t)|exact (IHs Hc)].
Qed.

(** The nodes of the tree, in the order the code walks them. *)
Fixpoint nodesOf (n : FlowNode) : list FlowNode :=
  n :: match n with
       | mkFlowNode (Some _) _ _ _ _ => []
       | mkFlowNode None ((_ :: _) as seq) _ _ _ => flat_map nodesOf seq
       | mkFlowNode None [] (Some (mkParallelNode branches _ _ _)) _ _ => flat_map nodesOf branches
       | mkFlowNode None [] None (Some (mkLoopNode _ _ body _ _ _ _ _)) _ => nodesOf body
       | mkFlowNode None [] None None (Some (mkSelectNode _ cases dflt)) =>
           flat_map (fun c => let '(mkSelectCase _ _ _ _ _ t) := c in nodesOf t) cases ++ nodesOf dflt
       | mkFlowNode None [] None None None => []
       end.

(** The nesting depth, the root counting as one. *)
Fixpoint depthOf (n : FlowNode) : Z :=
  1 + match n with
      | mkFlowNode (Some _) _ _ _ _ => 0
      | mkFlowNode None ((_ :: _) as seq) _ _ _ => foldr Z.max 0 (map depthOf seq)
      | mkFlowNode None [] (Some (mkParallelNode branches _ _ _)) _ _ => foldr Z.max 0 (map depthOf branches)
      | mkFlowNode None [] None (Some (mkLoopNode _ _ body _ _ _ _ _)) _ => depthOf body
      | mkFlowNode None [] None None (Some (mkSelectNode _ cases dflt)) =>
          Z.max (foldr Z.max 0 (map (fun c => let '(mkSelectCase _ _ _ _ _ t) := c in depthOf t) cases)) (depthOf dflt)
      | mkFlowNode None [] None None None => 0
      end.

Lemma nodesOf_kids n : nodesOf n = n :: flat_map nodesOf (kids n).
Proof.
  destruct n as [[m|] [|x seq] [[b j oj ob]|] [[mo ti body un ir mi md re]|] [[su cases dflt]|]]; try done;
    simpl; f_equal; rewrite ?app_nil_r; try done.
  rewrite flat_map_app. f_equal; [|simpl; by rewrite app_nil_r].
  induction cases as [|[eq ins rg pr wh t] cs IH]; [done|]. simpl. by rewrite IH.
Qed.

Lemma depthOf_pos n : 1 <= depthOf n.
Proof.
  induction n as [n IH] using flow_ind.
  assert (Hf : forall l, 0 <= foldr Z.max 0 l) by (induction l; simpl; lia).
  destruct n as [[m|] [|x seq] [[b j oj ob]|] [[mo ti body un ir mi md re]|] [[su cases dflt]|]];
    cbn [depthOf]; try lia; try (pose proof (Hf (map depthOf (x :: seq))); lia); try (pose proof (Hf (map depthOf b)); lia);
    try (specialize (IH body ltac:(by left)); lia).
  pose proof (Hf (map (fun c => let '(mkSelectCase _ _ _ _ _ t) := c in depthOf t) cases)). lia.
Qed.

Definition maxDepth (l : list FlowNode) : Z := foldr Z.max 0 (map depthOf l).

Lemma maxDepth_app l k : maxDepth (l ++ k) = Z.max (maxDepth l) (maxDepth k).
Proof.
  assert (H0 : forall l, 0 <= maxDepth l) by (induction l0; unfold maxDepth in *; simpl; lia).
  induction l as [|x l IH]; unfold maxDepth in *; simpl; [specialize (H0 k); unfold maxDepth in H0; lia|lia].
Qed.

Lemma depthOf_kids n : depthOf n = 1 + maxDepth (kids n).
Proof.
  destruct n as [[m|] [|x seq] [[b j oj ob]|] [[mo ti body un ir mi md re]|] [[su cases dflt]|]]; try done;
    cbn [depthOf kids]; try (unfold maxDepth; simpl; pose proof (depthOf_pos body); lia).
  rewrite maxDepth_app. unfold maxDepth.
  assert (Hm : map depthOf (c_Then <$> cases) = map (fun c => let '(mkSelectCase _ _ _ _ _ t) := c in depthOf t) cases)
    by (induction cases as [|[] cs IH]; simpl; by f_equal).
  rewrite Hm. cbn [map foldr]. pose proof (depthOf_pos dflt). lia.
Qed.

Definition size (n : FlowNode) : Z := Z.of_nat (length (nodesOf n)).
Definition sizes (l : list FlowNode) : Z := Z.of_nat (length (flat_map nodesOf l)).

Lemma size_kids n : size n = 1 + sizes (kids n).
Proof. unfold size, sizes. rewrite nodesOf_kids. simpl. lia. Qed.

Lemma sizes_cons x l : sizes (x :: l) = size x + sizes l.
Proof. unfold size, sizes. simpl. rewrite length_app. lia. Qed.

Lemma sizes_nonneg l : 0 <= sizes l.
Proof. unfold sizes. lia. Qed.

Lemma size_pos n : 1 <= size n.
Proof. rewrite size_kids. pose proof (sizes_nonneg (kids n)). lia. Qed.

Lemma length_sizes l : Z.of_nat (length l) <= sizes l.
Proof. induction l as [|x l IH]; [done|]. rewrite sizes_cons. simpl. pose proof (size_pos x). lia. Qed.

(** ** What a valid node is *)

(** A node on its own, its children aside, obeys every rule. *)
Definition localOk (members : gset string) (n : FlowNode) : bool :=
  (nodeKinds n <=? 1) &&
  match n with
  | mkFlowNode (Some m) _ _ _ _ => bool_decide (m ∈ members)
  | mkFlowNode None (_ :: _) _ _ _ => true
  | mkFlowNode None [] (Some (mkParallelNode branches join onJoin obf)) _ _ => is_ok (validateParallel branches join onJoin obf)
  | mkFlowNode None [] None (Some l) _ => is_ok (validateLoop members l)
  | mkFlowNode None [] None None (Some (mkSelectNode subject cases _)) =>
      is_ok (validateSubject members subject) && forallb (fun c => casePredicates c =? 1) cases
  | mkFlowNode None [] None None None => true
  end.

(** The tree below [n], entered at [depth] with [nodes] nodes already counted, is admissible. *)
Definition good (members : gset string) (n : FlowNode) (depth nodes : Z) : Prop :=
  Forall (fun m => localOk members m = true) (nodesOf n) /\
  depth - 1 + depthOf n <= MaxDepth /\ nodes + size n <= MaxNodes.

Definition goodList (members : gset string) (l : list FlowNode) (depth nodes : Z) : Prop :=
  Forall (fun m => localOk members m = true) (flat_map nodesOf l) /\
  (l <> [] -> depth - 1 + maxDepth l <= MaxDepth) /\ nodes + sizes l <= MaxNodes.

(** A check that succeeds exactly on [P], and then returns [v]. *)
Definition accepts (c : checked) (P : Prop) (v : Z) : Prop :=
  match c with Ok k => P /\ k = v | Err _ => ~ P end.

#[export] Instance accepts_proper : Proper (eq ==> iff ==> eq ==> iff) accepts.
Proof. intros c c' <- P P' HP v v' <-. unfold accepts. destruct c; by rewrite HP. Qed.

Lemma goodList_cons members x l d c :
  c + size x <= MaxNodes -> goodList members (x :: l) d c <-> good members x d c /\ goodList members l d (c + size x).
Proof.
  intros Hc. unfold goodList, good. simpl. rewrite Forall_app, sizes_cons. unfold maxDepth. simpl.
  destruct l as [|y l]; simpl.
  - split; [intros (H1 & H2 & H3)|intros ((H1 & H2 & H3) & (H4 & H5 & H6))].
    + specialize (H2 ltac:(done)). destruct H1. unfold sizes in *. simpl in *. pose proof (depthOf_pos x).
      repeat split; try done; lia.
    + unfold sizes in *. simpl in *. repeat split; try done; [|lia]. pose proof (depthOf_pos x). lia.
  - split; [intros ((H1a & H1b) & H2 & H3)|intros ((H1 & H2 & H3) & (H4 & H5 & H6))].
    + specialize (H2 ltac:(done)). repeat split; try done; lia.
    + specialize (H5 ltac:(done)). repeat split; try done; lia.
Qed.

Lemma walkChecked_accepts members (f : FlowNode -> Z -> checked) l d : forall c,
  (forall x c, x ∈ l -> c <= MaxNodes -> accepts (f x c) (good members x d c) (c + size x)) ->
  c <= MaxNodes -> accepts (walkChecked f l c) (goodList members l d c) (c + sizes l).
Proof.
  induction l as [|x l IH]; intros c Hf Hc.
  - simpl. unfold goodList, sizes. simpl. split; [|lia]. repeat split; try done. lia.
  - cbn [walkChecked]. pose proof (Hf x c ltac:(by left) Hc) as Hx. destruct (f x c) as [k|e]; simpl.
    + destruct Hx as [Hg ->]. assert (Hle : c + size x <= MaxNodes) by apply Hg.
      specialize (IH (c + size x) ltac:(intros; apply Hf; [by right|done]) Hle).
      rewrite sizes_cons, Z.add_assoc. destruct (walkChecked f l (c + size x)) as [k|e]; simpl in *.
      * destruct IH as [IH ->]. split; [|done]. by apply goodList_cons.
      * rewrite goodList_cons by done. tauto.
    + intros Hg. apply Hx. destruct (decide (c + size x <= MaxNodes)) as [Hle|Hgt].
      * by apply goodList_cons in Hg as [? _].
      * destruct Hg as (_ & _ & Hs). rewrite sizes_cons in Hs. pose proof (sizes_nonneg l). lia.
Qed.

Lemma walkCases_accepts members (f : FlowNode -> Z -> checked) cases d : forall i c,
  (forall x c, x ∈ c_Then <$> cases -> c <= MaxNodes -> accepts (f x c) (good members x d c) (c + size x)) ->
  c <= MaxNodes ->
  accepts (walkCases f i cases c)
    (forallb (fun c => casePredicates c =? 1) cases = true /\ goodList members (c_Then <$> cases) d c)
    (c + sizes (c_Then <$> cases)).
Proof.
  induction cases as [|cs cases IH]; intros i c Hf Hc.
  - simpl. unfold goodList, sizes. simpl. split; [|lia]. repeat split; try done. lia.
  - destruct cs as [eq ins rg pr wh t]. cbn [walkCases forallb]. rewrite fmap_cons in *. cbn [c_Then] in *.
    destruct (casePredicates _ =? 1) eqn:Hp; simpl; [|by intros [? _]].
    pose proof (Hf t c ltac:(by left) Hc) as Hx. destruct (f t c) as [k|e]; simpl.
    + destruct Hx as [Hg ->]. assert (Hle : c + size t <= MaxNodes) by apply Hg.
      specialize (IH (S i) (c + size t) ltac:(intros; apply Hf; [by right|done]) Hle).
      rewrite sizes_cons, Z.add_assoc. destruct (walkCases f (S i) cases (c + size t)) as [k|e]; simpl in *.
      * destruct IH as [[? ?] ->]. split; [|done]. split; [done|]. by apply goodList_cons.
      * rewrite goodList_cons by done. tauto.
    + intros [_ Hg]. apply Hx. destruct (decide (c + size t <= MaxNodes)) as [Hle|Hgt].
      * by apply goodList_cons in Hg as [? _].
      * destruct Hg as (_ & _ & Hs). rewrite sizes_cons in Hs. pose proof (sizes_nonneg (c_Then <$> cases)). lia.
Qed.

(** A node is good exactly when it obeys the rules and fits, and its children are good. *)
Lemma good_kids members n d c :
  good members n d c <->
  d <= MaxDepth /\ c + 1 <= MaxNodes /\ localOk members n = true /\ goodList members (kids n) (d + 1) (c + 1).
Proof.
  unfold good, goodList. rewrite nodesOf_kids, Forall_cons, depthOf_kids, size_kids.
  pose proof (sizes_nonneg (kids n)).
  assert (Hz : kids n = [] -> maxDepth (kids n) = 0) by by intros ->.
  assert (Hp : 0 <= maxDepth (kids n)).
  { unfold maxDepth. generalize (map depthOf (kids n)). intros l. induction l; simpl; lia. }
  destruct (kids n) as [|x l] eqn:Hk.
  - rewrite Hz by done. split; [intros ([? ?] & ? & ?)|intros (? & ? & ? & ? & _ & ?)]; repeat split; try done; lia.
  - split.
    + intros ([? ?] & ? & ?). repeat split; try done; lia.
    + intros (? & ? & ? & ? & Hd & ?). specialize (Hd ltac:(done)). repeat split; try done; lia.
Qed.

Lemma goodList_app members l k d c :
  goodList members (l ++ k) d c <-> goodList members l d c /\ goodList members k d (c + sizes l).
Proof.
  unfold goodList. rewrite flat_map_app, Forall_app, maxDepth_app. unfold sizes. rewrite flat_map_app, length_app.
  assert (Hp : forall l, 0 <= maxDepth l).
  { intros l0. unfold maxDepth. generalize (map depthOf l0). intros l1. induction l1; simpl; lia. }
  pose proof (Hp l). pose proof (Hp k).
  destruct l as [|x l], k as [|y k]; simpl; split; intros; destruct_and!; repeat split; try done; try lia;
    intros _; try (assert (depth_fact : x :: l <> []) by done);
    repeat match goal with Hq : _ <> [] -> _ |- _ => specialize (Hq ltac:(done)) end;
    unfold maxDepth in *; simpl in *; lia.
Qed.

(** The validator, seen through what it accepts. *)
Lemma validateNode_accepts members n : forall d c,
  c <= MaxNodes -> accepts (validateNode members n d c) (good members n d c) (c + size n).
Proof.
  induction n as [n IH] using flow_ind. intros d c Hc.
  assert (IH' : forall x c0, x ∈ kids n -> c0 <= MaxNodes ->
    accepts (validateNode members x (d + 1) c0) (good members x (d + 1) c0) (c0 + size x)) by auto. clear IH.
  rewrite size_kids.
  assert (Hhead : accepts (validateNode members n d c) (good members n d c) (c + (1 + sizes (kids n))) <->
    (d <= MaxDepth -> c + 1 <= MaxNodes -> nodeKinds n <= 1 ->
     accepts (validateNode members n d c) (good members n d c) (c + (1 + sizes (kids n))))).
  { split; [tauto|]. intros Hgo. destruct n as [run seq par loop sel]. cbn [validateNode] in *.
    unfold require in *. destruct (Z.leb_spec d MaxDepth); cbn [result_bind] in *;
      [|rewrite good_kids; simpl; intros (? & _); lia].
    destruct (Z.leb_spec (c + 1) MaxNodes); cbn [result_bind] in *; [|rewrite good_kids; simpl; intros (_ & ? & _); lia].
    destruct (Z.leb_spec (nodeKinds (mkFlowNode run seq par loop sel)) 1) as [Hk|Hk]; cbn [result_bind] in *; [by apply Hgo|].
    rewrite good_kids. simpl. intros (_ & _ & Hl & _). unfold localOk in Hl. str_bool. z_bool. lia. }
  apply Hhead. clear Hhead. intros Hd Hc1 Hk. rewrite good_kids.
  destruct n as [run seq par loop sel]. unfold localOk. cbn [validateNode].
  unfold require at 1 2 3. rewrite (proj2 (Z.leb_le _ _) Hd), (proj2 (Z.leb_le _ _) Hc1), (proj2 (Z.leb_le _ _) Hk).
  cbn [result_bind andb]. rewrite Z.add_assoc.
  destruct run as [m|].
  { cbn [kids]. unfold require. case_bool_decide; simpl; [|naive_solver]. unfold goodList, sizes. simpl.
    repeat split; try done; lia. }
  destruct seq as [|x seq].
  2:{ cbn [kids] in *. pose proof (walkChecked_accepts members _ (x :: seq) (d + 1) (c + 1) IH' Hc1) as Hw.
      destruct (walkChecked _ _ _); simpl in *; tauto. }
  destruct par as [[branches join onJoin obf]|].
  { cbn [kids] in *. destruct (validateParallel branches join onJoin obf) as [?|e]; simpl; [|naive_solver].
    pose proof (walkChecked_accepts members _ branches (d + 1) (c + 1) IH' Hc1) as Hw.
    destruct (walkChecked _ _ _); simpl in *; tauto. }
  destruct loop as [[mode times body until ir mi md ret]|].
  { cbn [kids] in *. destruct (validateLoop members _) as [?|e]; simpl; [|naive_solver].
    pose proof (walkChecked_accepts members _ [body] (d + 1) (c + 1) IH' Hc1) as Hw. cbn [walkChecked] in Hw.
    destruct (validateNode members body (d + 1) (c + 1)); simpl in *; tauto. }
  destruct sel as [[subject cases dflt]|].
  2:{ cbn [kids]. simpl. unfold goodList, sizes. simpl. repeat split; try done; lia. }
  cbn [kids] in *. destruct (validateSubject members subject) as [?|e]; cbn [result_bind is_ok andb]; [|simpl; naive_solver].
  rewrite goodList_app.
  pose proof (walkCases_accepts members (fun n => validateNode members n (d + 1)) cases (d + 1) 0 (c + 1)) as Hw.
  specialize (Hw ltac:(intros; apply IH'; [apply elem_of_app; by left|done]) Hc1).
  destruct (walkCases _ 0 cases (c + 1)) as [k|e]; simpl in Hw; cbn [result_bind]; [|simpl; tauto].
  destruct Hw as [[Hp Hg] ->].
  assert (Hle : c + 1 + sizes (c_Then <$> cases) <= MaxNodes) by apply Hg.
  pose proof (walkChecked_accepts members (fun n => validateNode members n (d + 1)) [dflt] (d + 1) _
    ltac:(intros; apply IH'; [apply elem_of_app; by right|done]) Hle) as Hw. cbn [walkChecked] in Hw.
  assert (Hs : sizes ((c_Then <$> cases) ++ [dflt]) = sizes (c_Then <$> cases) + sizes [dflt])
    by (unfold sizes; rewrite flat_map_app, length_app; lia).
  rewrite Hs, Z.add_assoc. destruct (validateNode members dflt (d + 1) _); simpl in *; tauto.
Qed.

(** ** Invariants of a pass *)

(** Whatever the evaluator's own writes keep, a whole pass keeps. *)
Section preserve.
Context (ctx : Context) (Q : Z -> Prop) (I : Eval -> Prop).
(** [Q] holds of the iterations a node may be evaluated at. *)
Hypothesis Q_loop : forall a, Q (lp_Iteration (cx_LoopProgress ctx a)).
Hypothesis I_ensure : forall m it out, Q it -> cs_Exists (cx_Child ctx m it) = false -> I out -> I (ensure m it out).
Hypothesis I_cancel : forall m it out, nonTerminal (cx_Child ctx m it) = true -> I out -> I (cancel m it out).
Hypothesis I_settle : forall s out, I out -> I (settle s out).
Hypothesis I_start : forall a it out, I out -> I (startIteration a it out).
Hypothesis I_diagnose : forall d out, I out -> I (diagnose d out).

Lemma walk_keeps {A} (f : A -> Eval -> Eval) l : (forall x out, x ∈ l -> I out -> I (f x out)) ->
  forall out, I out -> I (walk f l out).
Proof.
  induction l as [|x l IH]; intros Hf out Ho; [done|]. cbn [walk]. apply IH; [|by apply Hf; [left|]].
  intros y o Hy. apply Hf. by right.
Qed.

Lemma collectCancel_keeps n : forall iter out, I out -> I (collectCancel ctx n iter out).
Proof.
  induction n as [n IH] using flow_ind. intros iter out Ho.
  destruct n as [[m|] [|x seq] [[b j oj ob]|] [[mo ti body un ir mi md re]|] [[su cases dflt]|]];
    cbn [collectCancel kids] in *; try done;
    try (case_match; [by apply I_cancel|done]);
    try (apply walk_keeps; [intros; by apply IH|done]);
    try (case_match; [done|]; case_match; [apply IH; [by left|done]|done]).
  apply IH; [apply elem_of_app; right; by left|]. apply walk_keeps; [|done].
  intros [eq ins rg pr wh t] o Hc Ho'. apply IH; [|done]. apply elem_of_app. left. by apply (list_elem_of_fmap_2 c_Then _ _ Hc).
Qed.

Definition keepsRun (run : FlowNode -> Eval -> Outcome * Eval) (l : list FlowNode) : Prop :=
  forall x out, x ∈ l -> I out -> I (snd (run x out)).

Lemma evalSequence_keeps run l : keepsRun run l -> forall out, I out -> I (snd (evalSequence run l out)).
Proof.
  induction l as [|x l IH]; intros Hr out Ho; [done|]. cbn [evalSequence].
  pose proof (Hr x out ltac:(by left) Ho) as Hx. destruct (run x out) as [[] out'] eqn:E; simpl in *; try done.
  apply IH; [|done]. intros y o Hy. apply Hr. by right.
Qed.

Lemma evalBranches_keeps run l : keepsRun run l -> forall out, I out -> I (snd (evalBranches run l out)).
Proof.
  induction l as [|x l IH]; intros Hr out Ho; [done|]. cbn [evalBranches].
  pose proof (Hr x out ltac:(by left) Ho) as Hx. destruct (run x out) as [o out'].
  pose proof (IH ltac:(intros y o' Hy; apply Hr; by right) out' Hx) as Hl. by destruct (evalBranches run l out').
Qed.

Lemma runCases_keeps run field values dflt cases : keepsRun run ((c_Then <$> cases) ++ [dflt]) ->
  forall i out, I out -> I (snd (runCases run field values dflt i cases out)).
Proof.
  induction cases as [|[eq ins rg pr wh t] cs IH]; intros Hr i out Ho; cbn [runCases].
  - by apply Hr; [left|].
  - destruct wh; [by apply I_diagnose|]. case_match; [by apply Hr; [left|]|].
    apply IH; [|done]. intros y o Hy. apply Hr. by right.
Qed.

Lemma cancelUnsettled_keeps branches : forall os iter out, I out -> I (cancelUnsettled ctx branches os iter out).
Proof.
  induction branches as [|b bs IH]; intros [|o os] iter out Ho; try done. cbn [cancelUnsettled].
  apply IH. case_match; [done|]. by apply collectCancel_keeps.
Qed.

Lemma joinBranches_keeps j oj ob bs os iter out : I out -> I (snd (joinBranches ctx j oj ob bs os iter out)).
Proof.
  intros Ho. unfold joinBranches. destruct (joinOutcome _ _ _ _); [|done].
  assert (Hc : I (if orDefault oj OnJoinCancelSiblings =s OnJoinCancelSiblings then cancelUnsettled ctx bs os iter out else out))
    by (case_match; [by apply cancelUnsettled_keeps|done]).
  destruct (countOutcomes Settled os <? Z.of_nat (length os)); exact Hc.
Qed.

Lemma evalLoop_keeps run l : (forall iter, Q iter -> keepsRun (fun n => run n iter) [l_Body l]) ->
  forall out, I out -> I (snd (evalLoop ctx run l out)).
Proof.
  destruct l as [mo ti body un ir mi md re]. cbn [l_Body evalLoop]. intros Hr out Ho.
  set (l := mkLoopNode _ _ _ _ _ _ _ _). set (lp := cx_LoopProgress ctx (anchorMember body)).
  destruct (_ =s ""); [done|]. destruct (_ =? 0); [by apply I_start|].
  assert (H1 : I (if l_InterruptRunning l && loopBoundSatisfied ctx l lp then collectCancel ctx body (lp_Iteration lp) out else out))
    by (case_match; [by apply collectCancel_keeps|done]).
  pose proof (Hr (lp_Iteration lp) (Q_loop _) body _ ltac:(by left) H1) as H2. simpl in H2.
  destruct (run body (lp_Iteration lp) _) as [o out']. simpl in H2. destruct (negb (Settled o)); [done|].
  unfold afterIteration.
  repeat (case_match; try by apply I_settle); by apply I_start, I_settle.
Qed.

Lemma evalSelect_keeps run subject cases dflt iter : Q iter -> keepsRun run ((c_Then <$> cases) ++ [dflt]) ->
  forall out, I out -> I (snd (evalSelect ctx run (mkSelectNode subject cases dflt) iter out)).
Proof.
  intros HQ Hr out Ho. cbn [evalSelect]. destruct (s_Event subject) as [event|].
  - destruct (cs_Exists _) eqn:Hex; cbn [negb]; [|by apply I_ensure].
    destruct (LatestEvent _ event); [by apply runCases_keeps|]. case_match; [done|by apply I_diagnose].
  - destruct (cs_Exists _) eqn:Hex; cbn [negb]; [|by apply I_ensure].
    case_match; [done|]. case_match; [done|]. by apply runCases_keeps.
Qed.

Lemma evalNode_keeps n : forall iter out, Q iter -> I out -> I (snd (evalNode ctx n iter out)).
Proof.
  induction n as [n IH] using flow_ind. intros iter out HQ Ho.
  destruct n as [[m|] [|x seq] [[b j oj ob]|] [l|] [[su cases dflt]|]]; cbn [evalNode kids] in *;
    try (unfold evalRun; simpl; case_match; [done|by apply I_ensure]);
    try (apply evalSequence_keeps; [intros y o Hy; by apply IH|done]);
    try (pose proof (evalBranches_keeps (fun n => evalNode ctx n iter) b ltac:(intros y o Hy; by apply IH) out Ho) as Hb;
         destruct (evalBranches _ b out); by apply joinBranches_keeps);
    try (apply evalLoop_keeps; [|done]; destruct l; intros it Hit y o Hy; by apply IH);
    try (apply evalSelect_keeps; [done|intros y o Hy; by apply IH|done]); done.
Qed.

End preserve.

(** ** Joins *)

(** [os'] is a later view of the branches [os]: settled outcomes stay, running ones may settle. *)
Definition laterOutcomes : list Outcome -> list Outcome -> Prop :=
  Forall2 (fun o o' => o = OutcomeInProgress \/ o = o').

Lemma count_later (p : Outcome -> bool) os os' :
  p OutcomeInProgress = false -> laterOutcomes os os' -> countOutcomes p os <= countOutcomes p os'.
Proof.
  intros Hp Hl. unfold countOutcomes. induction Hl as [|o o' os os' [->|<-] _ IH]; simpl; [lia| |].
  - rewrite Hp. destruct (p o'); simpl; lia.
  - destruct (p o); simpl; lia.
Qed.

Lemma count_le_length (p : Outcome -> bool) os : countOutcomes p os <= Z.of_nat (length os).
Proof. unfold countOutcomes. induction os as [|o os IH]; simpl; [lia|]. destruct (p o); simpl; lia. Qed.

Lemma count_nonneg (p : Outcome -> bool) os : 0 <= countOutcomes p os.
Proof. unfold countOutcomes. lia. Qed.

Lemma all_settled os : countOutcomes Settled os = Z.of_nat (length os) <-> Forall (fun o => Settled o = true) os.
Proof.
  unfold countOutcomes. induction os as [|o os IH]; simpl; [done|].
  rewrite Forall_cons, <- IH. pose proof (count_le_length Settled os) as Hle. unfold countOutcomes in Hle.
  destruct (Settled o); simpl; [|split; [lia|by intros [? _]]]. split; [intros; split; [done|lia]|intros [_ ?]; lia].
Qed.

Lemma settled_later os os' : Forall (fun o => Settled o = true) os -> laterOutcomes os os' -> os' = os.
Proof. intros Hs Hl. induction Hl as [|o o' os os' [->|<-] _ IH]; inversion Hs; subst; [done|done|]. f_equal; auto. Qed.

(** The successes still possible only shrink as branches settle. *)
Lemma possible_later os os' : laterOutcomes os os' ->
  countOutcomes (outcome_eqb OutcomeSucceeded) os' - countOutcomes Settled os' <=
  countOutcomes (outcome_eqb OutcomeSucceeded) os - countOutcomes Settled os.
Proof.
  intros Hl. unfold countOutcomes. induction Hl as [|o o' os os' [->|<-] _ IH]; simpl; [lia| |].
  - destruct o'; simpl; lia.
  - destruct o; simpl; lia.
Qed.

Lemma existsb_later (p : Outcome -> bool) os os' :
  p OutcomeInProgress = false -> laterOutcomes os os' -> existsb p os = true -> existsb p os' = true.
Proof.
  intros Hp Hl. induction Hl as [|o o' os os' [->|<-] _ IH]; simpl; [done| |].
  - rewrite Hp. intros ->%IH. apply orb_true_r.
  - intros [->|H]%orb_true_iff; [done|]. by rewrite IH, orb_true_r.
Qed.

Lemma succeeded_settled os : countOutcomes (outcome_eqb OutcomeSucceeded) os <= countOutcomes Settled os.
Proof. unfold countOutcomes. induction os as [|[] os IH]; simpl; lia. Qed.

(** ** Waiting for something *)

(** The pass asked the caller to do something. *)
Definition asks (out : Eval) : Prop := ev_Ensure out <> [] \/ ev_StartIteration out <> ∅.

Lemma asks_ensure m it out : asks (ensure m it out).
Proof. left. simpl. by destruct (ev_Ensure out). Qed.

Lemma asks_start a it out : asks (startIteration a it out).
Proof. right. simpl. apply insert_non_empty. Qed.

Section waiting.
Context (ctx : Context) (members : gset string).

(** Some child is running. *)
Definition running : Prop := exists m it, nonTerminal (cx_Child ctx m it) = true.

Definition waitsFor (r : Outcome * Eval) : Prop := fst r = OutcomeInProgress -> asks (snd r) \/ running.

Lemma asks_keeps n iter out : asks out -> asks (snd (evalNode ctx n iter out)).
Proof.
  apply (evalNode_keeps ctx (fun _ => True)); [done|intros; apply asks_ensure|done|done|intros; apply asks_start|done|done].
Qed.

Lemma child_waits m it : cs_Exists (cx_Child ctx m it) = true -> child_outcome (cx_Child ctx m it) = OutcomeInProgress -> running.
Proof. intros He Ho. exists m, it. unfold nonTerminal. by rewrite He, Ho. Qed.

Definition waitsRun (run : FlowNode -> Eval -> Outcome * Eval) (l : list FlowNode) : Prop :=
  forall x out, x ∈ l -> waitsFor (run x out).

Lemma evalSequence_waits run l : waitsRun run l -> forall out, waitsFor (evalSequence run l out).
Proof.
  induction l as [|x l IH]; intros Hr out; [done|]. cbn [evalSequence].
  pose proof (Hr x out ltac:(by left)) as Hx. destruct (run x out) as [[] out']; try done.
  apply IH. intros y o Hy. apply Hr. by right.
Qed.

Lemma runCases_waits run field values dflt cases : waitsRun run ((c_Then <$> cases) ++ [dflt]) ->
  forall i out, waitsFor (runCases run field values dflt i cases out).
Proof.
  induction cases as [|[eq ins rg pr wh t] cs IH]; intros Hr i out; cbn [runCases]; [by apply Hr; left|].
  destruct wh; [done|]. case_match; [by apply Hr; left|].
  apply IH. intros y o Hy. apply Hr. by right.
Qed.

(** If a branch still runs, the branches together wait for something. *)
Lemma evalBranches_waits iter l : waitsRun (fun n => evalNode ctx n iter) l -> forall out,
  let '(os, out') := evalBranches (fun n => evalNode ctx n iter) l out in
  length os = length l /\ (asks out -> asks out') /\ (OutcomeInProgress ∈ os -> asks out' \/ running).
Proof.
  induction l as [|x l IH]; intros Hr out; cbn [evalBranches].
  { split_and!; [done|done|]. intros H. by apply not_elem_of_nil in H. }
  pose proof (Hr x out ltac:(by left)) as Hx. pose proof (asks_keeps x iter out) as Ha.
  destruct (evalNode ctx x iter out) as [o out1]. specialize (IH ltac:(intros y o' Hy; apply Hr; by right) out1).
  destruct (evalBranches _ l out1) as [os out2]. destruct IH as (Hlen & Hask & Hin). simpl in *.
  split_and!; [by rewrite Hlen|tauto|]. intros [<-|Hos]%elem_of_cons; [|by apply Hin].
  destruct (Hx eq_refl); [left; by apply Hask|by right].
Qed.

Lemma joinOutcome_settled mode quorum obf os o : joinOutcome mode quorum obf os = Some o -> Settled o = true.
Proof.
  unfold joinOutcome. repeat (case_match; try (by intros [= <-]); try done). intros [_ Ho]%find_some. done.
Qed.

(** A join that is not satisfied, or not settled, has a running branch. *)
Lemma join_unsettled mode quorum obf os :
  os <> [] -> Z.of_nat (length os) <= MaxInt32 ->
  joinOutcome mode quorum obf os = None \/ countOutcomes Settled os < Z.of_nat (length os) -> OutcomeInProgress ∈ os.
Proof.
  intros Hne Hlen Hu. destruct (decide (OutcomeInProgress ∈ os)) as [|Hno]; [done|]. exfalso.
  assert (Hall : Forall (fun o => Settled o = true) os).
  { apply Forall_forall. intros o Ho. by destruct o. }
  pose proof (proj2 (all_settled os) Hall) as Hc.
  destruct Hu as [Hj|Hlt]; [|lia]. unfold joinOutcome in Hj. rewrite Hc in Hj.
  pose proof (count_nonneg (outcome_eqb OutcomeSucceeded) os). pose proof (count_le_length (outcome_eqb OutcomeSucceeded) os).
  rewrite Z.eqb_refl, !int32_of_id in Hj by (unfold MaxInt32 in *; lia).
  repeat (case_match; try done); z_bool; [|lia].
  destruct os as [|o os]; [done|]. inversion Hall as [|? ? Ho _]; subst. simpl in Hj. by rewrite Ho in Hj.
Qed.

Lemma evalRun_waits m iter out : waitsFor (evalRun ctx m iter out).
Proof.
  unfold evalRun, waitsFor. simpl. destruct (cs_Exists (cx_Child ctx m iter)) eqn:Hex; intros Ho.
  - right. by eapply child_waits.
  - left. apply asks_ensure.
Qed.

Lemma joinBranches_waits iter b j oj ob out :
  waitsRun (fun n => evalNode ctx n iter) b -> b <> [] -> Z.of_nat (length b) <= MaxInt32 ->
  waitsFor (let '(os, out) := evalBranches (fun n => evalNode ctx n iter) b out in joinBranches ctx j oj ob b os iter out).
Proof.
  intros Hr Hne Hlen. pose proof (evalBranches_waits iter b Hr out) as Hb. destruct (evalBranches _ b out) as [os out1].
  destruct Hb as (Hl & _ & Hin). assert (Hos : os <> []) by (intros ->; by destruct b).
  assert (Hkeep : asks out1 -> asks (snd (joinBranches ctx j oj ob b os iter out1))).
  { by apply joinBranches_keeps. }
  unfold waitsFor. intros Ho. enough (Hp : OutcomeInProgress ∈ os) by (destruct (Hin Hp); [left; auto|by right]).
  unfold joinBranches in Ho. destruct (joinOutcome _ _ _ os) as [o|] eqn:Hj; [|by eapply join_unsettled; [| |left]; rewrite ?Hl].
  destruct (Z.ltb_spec (countOutcomes Settled os) (Z.of_nat (length os))) as [Hlt|Hge].
  - eapply (join_unsettled "" 0 ""); [done|by rewrite Hl|by right].
  - simpl in Ho. subst o. by apply joinOutcome_settled in Hj.
Qed.

Lemma evalLoop_waits l out : (forall iter, waitsRun (fun n => evalNode ctx n iter) [l_Body l]) ->
  waitsFor (evalLoop ctx (evalNode ctx) l out).
Proof.
  destruct l as [mo ti body un ir mi md re]. cbn [l_Body evalLoop]. intros Hr. unfold waitsFor.
  set (l := mkLoopNode _ _ _ _ _ _ _ _). set (lp := cx_LoopProgress ctx (anchorMember body)).
  destruct (_ =s ""); [done|]. destruct (_ =? 0); [intros _; left; apply asks_start|].
  set (out1 := if _ && _ then _ else out).
  pose proof (Hr (lp_Iteration lp) body out1 ltac:(by left)) as Hb. unfold waitsFor in Hb. simpl in Hb.
  destruct (evalNode ctx body (lp_Iteration lp) out1) as [o out2]. simpl in Hb.
  destruct (Settled o) eqn:Hs; simpl; [|intros _; apply Hb; by destruct o].
  unfold afterIteration. repeat (case_match; try done); intros _; left; apply asks_start.
Qed.

Lemma evalSelect_waits su cases dflt iter out : waitsRun (fun n => evalNode ctx n iter) ((c_Then <$> cases) ++ [dflt]) ->
  waitsFor (evalSelect ctx (fun n => evalNode ctx n iter) (mkSelectNode su cases dflt) iter out).
Proof.
  intros Hr. cbn [evalSelect]. destruct (s_Event su) as [event|].
  - destruct (cs_Exists (cx_Child ctx (s_From su) iter)) eqn:Hex; cbn [negb]; [|intros _; left; apply asks_ensure].
    destruct (LatestEvent _ event); [by apply runCases_waits|].
    destruct (child_outcome _) eqn:Ho; simpl; try done. intros _. right. by eapply child_waits.
  - destruct (cs_Exists (cx_Child ctx (s_Member su) iter)) eqn:Hex; cbn [negb]; [|intros _; left; apply asks_ensure].
    destruct (child_outcome _) eqn:Ho; simpl; try done; [|by apply runCases_waits].
    intros _. right. by eapply child_waits.
Qed.

Lemma evalNode_waits n : forall iter out,
  Forall (fun m => localOk members m = true) (nodesOf n) -> size n <= MaxNodes -> waitsFor (evalNode ctx n iter out).
Proof.
  induction n as [n IH] using flow_ind. intros iter out Hok Hsz.
  rewrite nodesOf_kids in Hok. apply Forall_cons in Hok as [Hl Hks]. rewrite size_kids in Hsz.
  assert (Hrun : forall iter, waitsRun (fun n => evalNode ctx n iter) (kids n)).
  { intros it x o Hx. apply IH; [done| |].
    - eapply Forall_forall; intros y Hy. rewrite Forall_forall in Hks. apply Hks. apply list_elem_of_In, in_flat_map.
      exists x. by rewrite <- !list_elem_of_In.
    - assert (Hle : size x <= sizes (kids n)); [|lia]. clear -Hx. induction (kids n) as [|y l IHl]; [by apply not_elem_of_nil in Hx|].
      rewrite sizes_cons. pose proof (size_pos y). pose proof (sizes_nonneg l). apply elem_of_cons in Hx as [->|Hx]; [lia|].
      specialize (IHl Hx). lia. }
  assert (Hkids : Z.of_nat (length (kids n)) <= MaxInt32).
  { pose proof (length_sizes (kids n)). unfold MaxNodes, MaxInt32 in *. lia. }
  clear IH Hks Hsz. unfold localOk in Hl. apply andb_true_iff in Hl as [_ Hl].
  destruct n as [[m|] seq par loop sel]; cbn [evalNode kids] in *; [by apply evalRun_waits|].
  destruct seq as [|x seq]; [|by apply evalSequence_waits].
  destruct par as [[b j oj ob]|]; [apply joinBranches_waits; [apply Hrun|by intros ->|done]|].
  destruct loop as [[mo ti body un ir mi md re]|]; [by apply evalLoop_waits|].
  destruct sel as [[su cases dflt]|]; [by apply evalSelect_waits|done].
Qed.

End waiting.

(** ** Properties *)

(** ** The rules of a flow *)

(** A case has exactly one predicate. *)
Inductive onePredicate : SelectCase -> Prop :=
| one_equals v t : onePredicate (mkSelectCase (Some v) [] None None None t)
| one_in v l t : onePredicate (mkSelectCase None (v :: l) None None None t)
| one_range r t : onePredicate (mkSelectCase None [] (Some r) None None t)
| one_present b t : onePredicate (mkSelectCase None [] None (Some b) None t)
| one_when w t : onePredicate (mkSelectCase None [] None None (Some w) t).

Definition joinRules (j : JoinSpec) : Prop :=
  j_Mode j ∈ [""; "All"; "Any"; "Quorum"; "First"] /\ (j_Mode j = "Quorum" -> j_Quorum j <> None) /\ forall q, j_Quorum j = Some q -> 1 <= q.

Definition retentionRules (r : FlowRetention) : Prop :=
  0 <= KeepIterationRecords r <= 100 /\ 0 <= KeepChildren r /\ 0 <= KeepFailedChildren r.

Definition untilRules (members : gset string) (c : UntilCondition) : Prop :=
  (forall r, u_Result c = Some r -> ur_Member r ∈ members) /\ (forall e, u_Event c = Some e -> ue_From e ∈ members).

(** A node on its own: it has at most one kind, and obeys the rules of that kind. *)
Inductive nodeRules (members : gset string) : FlowNode -> Prop :=
| rules_empty : nodeRules members (mkFlowNode None [] None None None)
| rules_run m : m ∈ members -> nodeRules members (mkFlowNode (Some m) [] None None None)
| rules_sequence x seq : nodeRules members (mkFlowNode None (x :: seq) None None None)
| rules_parallel branches join onJoin onBranchFailure :
    branches <> [] -> onJoin ∈ [""; "CancelSiblings"; "LetRunToCompletion"] -> onBranchFailure ∈ [""; "FailNode"; "Ignore"] ->
    (forall j, join = Some j -> joinRules j) ->
    nodeRules members (mkFlowNode None [] (Some (mkParallelNode branches join onJoin onBranchFailure)) None None)
| rules_loop mode times body until interrupt maxIterations maxDurationSeconds retention :
    mode ∈ ["Once"; "Times"; "Forever"] -> (mode = "Times" -> times <> None) -> (forall n, times = Some n -> 1 <= n) ->
    (mode = "Forever" -> until <> None \/ maxIterations <> None \/ maxDurationSeconds <> None) ->
    (forall n, maxIterations = Some n -> 1 <= n) -> (forall n, maxDurationSeconds = Some n -> 1 <= n) ->
    (forall r, retention = Some r -> retentionRules r) -> (forall l c, until = Some l -> c ∈ l -> untilRules members c) ->
    nodeRules members (mkFlowNode None [] None (Some (mkLoopNode mode times body until interrupt maxIterations maxDurationSeconds retention)) None)
| rules_select subject cases dflt producer :
    producer = match s_Event subject with Some _ => s_From subject | None => s_Member subject end -> producer <> "" -> producer ∈ members ->
    (forall c, c ∈ cases -> onePredicate c) -> nodeRules members (mkFlowNode None [] None None (Some (mkSelectNode subject cases dflt))).

Lemma casePredicates_one c : casePredicates c = 1 <-> onePredicate c.
Proof.
  destruct c as [[v|] [|x l] [r|] [b|] [w|] t]; simpl; split; intros H; try done; try constructor; try (by inversion H).
Qed.

Lemma oneOf_elem v l : oneOf v l = true <-> v ∈ l.
Proof.
  unfold oneOf. rewrite existsb_exists. split.
  - intros (x & Hx%list_elem_of_In & He). apply eqb_s_true in He. by subst.
  - intros H. exists v. split; [by apply list_elem_of_In|apply eqb_s_refl].
Qed.

Lemma require_ok b e {A} (r : result FlowError A) : is_ok (result_bind (require b e) (fun _ => r)) = b && is_ok r.
Proof. by destruct b. Qed.

Lemma atLeast_all n o : atLeast n o = true <-> forall v, o = Some v -> n <= v.
Proof.
  destruct o as [v|]; simpl; [|done]. rewrite Z.leb_le. split; [by intros ? ? [= <-]|auto].
Qed.
Lemma isSome_iff {A} (o : option A) : isSome o = true <-> o <> None.
Proof. by destruct o. Qed.

Lemma is_ok_require b e : is_ok (require b e) = b.
Proof. by destruct b. Qed.

Lemma validateJoin_rules join : is_ok (validateJoin join) = true <-> forall j, join = Some j -> joinRules j.
Proof.
  destruct join as [j|]; [|done]. unfold validateJoin, joinRules. rewrite !require_ok, is_ok_require, !andb_true_iff, oneOf_elem, atLeast_all, negb_true_iff.
  assert (H : (j_Mode j =s JoinModeQuorum) && negb (isSome (j_Quorum j)) = false <-> (j_Mode j = "Quorum" -> j_Quorum j <> None)).
  { rewrite andb_false_iff, negb_false_iff, isSome_iff, eqb_s_false. unfold JoinModeQuorum. destruct (decide (j_Mode j = "Quorum")); tauto. }
  rewrite H. split; [by intros (? & ? & ?) ? [= <-]|]. intros Hj. by destruct (Hj j eq_refl) as (? & ? & ?).
Qed.

Lemma validateRetention_rules r : is_ok (validateRetention r) = true <-> forall x, r = Some x -> retentionRules x.
Proof.
  destruct r as [r|]; [|done]. unfold validateRetention, retentionRules. rewrite !require_ok, is_ok_require, !andb_true_iff, !negb_true_iff, orb_false_iff, !Z.ltb_ge. split.
  - intros ([? ?] & ? & ?) x [= <-]. lia.
  - intros Hr. specialize (Hr r eq_refl). lia.
Qed.

Lemma validateUntil_rules members l : forall i, is_ok (validateUntil members i l) = true <-> forall c, c ∈ l -> untilRules members c.
Proof.
  induction l as [|c l IH]; intros i; cbn [validateUntil]; [split; [by intros _ c ?%elem_of_nil|done]|].
  assert (Hc : forall (r : result FlowError ()),
    is_ok (let? _ := match u_Result c with Some r => require (bool_decide (ur_Member r ∈ members)) (ErrUntilResultMember i (ur_Member r)) | None => Ok () end in
           let? _ := match u_Event c with Some e => require (bool_decide (ue_From e ∈ members)) (ErrUntilEventMember i (ue_From e)) | None => Ok () end in r) = true <->
    untilRules members c /\ is_ok r = true).
  { intros r. unfold untilRules. destruct (u_Result c) as [x|], (u_Event c) as [y|]; rewrite ?require_ok, ?andb_true_iff, ?bool_decide_eq_true; cbn [result_bind];
      rewrite ?require_ok, ?andb_true_iff, ?bool_decide_eq_true; naive_solver. }
  rewrite Hc. fold (validateUntil members). rewrite IH. setoid_rewrite elem_of_cons. naive_solver.
Qed.

Lemma validateParallel_rules branches join onJoin obf : is_ok (validateParallel branches join onJoin obf) = true <->
  branches <> [] /\ onJoin ∈ [""; "CancelSiblings"; "LetRunToCompletion"] /\ obf ∈ [""; "FailNode"; "Ignore"] /\ forall j, join = Some j -> joinRules j.
Proof.
  unfold validateParallel. rewrite !require_ok, !andb_true_iff, !oneOf_elem, validateJoin_rules. destruct branches; simpl; unfold OnJoinCancelSiblings, OnJoinLetRunToCompletion, OnBranchFailureFailNode, OnBranchFailureIgnore; naive_solver.
Qed.

Lemma validateLoop_rules members mode times body until ir mi md ret :
  is_ok (validateLoop members (mkLoopNode mode times body until ir mi md ret)) = true <->
  mode ∈ ["Once"; "Times"; "Forever"] /\ (mode = "Times" -> times <> None) /\ (forall n, times = Some n -> 1 <= n) /\
  (mode = "Forever" -> until <> None \/ mi <> None \/ md <> None) /\ (forall n, mi = Some n -> 1 <= n) /\ (forall n, md = Some n -> 1 <= n) /\
  (forall r, ret = Some r -> retentionRules r) /\ (forall l c, until = Some l -> c ∈ l -> untilRules members c).
Proof.
  unfold validateLoop. rewrite !require_ok, !andb_true_iff, oneOf_elem, !atLeast_all, !negb_true_iff.
  assert (H1 : (mode =s LoopModeTimes) && negb (isSome times) = false <-> (mode = "Times" -> times <> None)).
  { rewrite andb_false_iff, negb_false_iff, isSome_iff, eqb_s_false. unfold LoopModeTimes. destruct (decide (mode = "Times")); tauto. }
  assert (H2 : (mode =s LoopModeForever) && negb (isSome until) && negb (isSome mi) && negb (isSome md) = false <-> (mode = "Forever" -> until <> None \/ mi <> None \/ md <> None)).
  { rewrite !andb_false_iff, !negb_false_iff, !isSome_iff, eqb_s_false. unfold LoopModeForever. destruct (decide (mode = "Forever")); tauto. }
  assert (H3 : is_ok (let? _ := validateRetention ret in match until with Some anyOf => validateUntil members 0 anyOf | None => Ok () end) = true <->
    (forall r, ret = Some r -> retentionRules r) /\ (forall l c, until = Some l -> c ∈ l -> untilRules members c)).
  { rewrite <- validateRetention_rules. destruct (validateRetention ret) as [[]|]; [|simpl; naive_solver]. cbn [result_bind is_ok]. destruct until as [l|]; [|naive_solver].
    rewrite validateUntil_rules. naive_solver. }
  rewrite H1, H2, H3. tauto.
Qed.

Lemma validateSubject_rules members subject : is_ok (validateSubject members subject) = true <-> Producer subject <> "" /\ Producer subject ∈ members.
Proof. unfold validateSubject. rewrite require_ok, is_ok_require, andb_true_iff, negb_true_iff, eqb_s_false, bool_decide_eq_true. done. Qed.

(** A node obeys the rules exactly when its checks pass. *)
Lemma localOk_rules members n : localOk members n = true <-> nodeRules members n.
Proof.
  unfold localOk. rewrite andb_true_iff, Z.leb_le. split.
  - intros [Hk Hl]. destruct n as [[m|] [|x seq] [[b j oj ob]|] [[mo ti body un ir mi md re]|] [[su cases dflt]|]]; simpl in Hk; try lia.
    + apply rules_run. by apply bool_decide_eq_true in Hl.
    + apply validateParallel_rules in Hl as (? & ? & ? & ?). by apply rules_parallel.
    + apply validateLoop_rules in Hl as (? & ? & ? & ? & ? & ? & ? & ?). by apply rules_loop.
    + apply andb_true_iff in Hl as [Hs Hc]. apply validateSubject_rules in Hs as [? ?]. eapply rules_select; [done..|].
      intros c Hin. apply casePredicates_one, Z.eqb_eq. rewrite forallb_forall in Hc. by apply Hc, list_elem_of_In.
    + apply rules_empty.
    + apply rules_sequence.
  - intros [|m Hm|x seq|b j oj ob H1 H2 H3 H4|mo ti body un ir mi md re H1 H2 H3 H4 H5 H6 H7 H8|su cases dflt p -> H1 H2 H3]; (split; [simpl; lia|]); try done.
    + by apply bool_decide_eq_true.
    + by apply validateParallel_rules.
    + by apply validateLoop_rules.
    + apply andb_true_iff. split; [by apply validateSubject_rules|]. apply forallb_forall. intros c Hc%list_elem_of_In. apply Z.eqb_eq, casePredicates_one. auto.
Qed.


Definition requestsSound (ctx : Context) (out : Eval) : Prop :=
  Forall (fun r => cs_Exists (cx_Child ctx (ref_Member r) (ref_Iteration r)) = false) (ev_Ensure out) /\
  Forall (fun r => nonTerminal (cx_Child ctx (ref_Member r) (ref_Iteration r)) = true) (ev_Cancel out).

(** A pass asks only for what makes sense: over any tree and any cluster state, every member it
    asks to be started has no child at that iteration, and every child it asks to be cancelled
    exists and is not in a terminal phase. *)
Theorem Evaluate_requests_sound ctx root :
  let out := snd (Evaluate ctx root) in
  Forall (fun r => cs_Exists (cx_Child ctx (ref_Member r) (ref_Iteration r)) = false) (ev_Ensure out) /\
  Forall (fun r => nonTerminal (cx_Child ctx (ref_Member r) (ref_Iteration r)) = true) (ev_Cancel out).
Proof.
  unfold Evaluate. apply (evalNode_keeps ctx (fun _ => True) (requestsSound ctx)); try done.
  - intros m it out _ He [H1 H2]. split; [|done]. simpl. apply Forall_app. by repeat constructor.
  - intros m it out Hn [H1 H2]. split; [done|]. simpl. apply Forall_app. by repeat constructor.
Qed.

(** C38 No silent hang: a pass over an admitted tree that leaves the task in progress has asked for a
    child or for a loop iteration, or some child is still running; so there is always an event
    that makes the next pass differ. *)
Theorem Evaluate_never_stuck ctx root members
  (Hvalid : ValidateStructure root members = None)
  (Hprogress : fst (Evaluate ctx root) = OutcomeInProgress) :
  ev_Ensure (snd (Evaluate ctx root)) <> [] \/ ev_StartIteration (snd (Evaluate ctx root)) <> ∅ \/
  exists m it, nonTerminal (cx_Child ctx m it) = true.
Proof.
  unfold ValidateStructure in Hvalid. pose proof (validateNode_accepts members root 1 0 ltac:(done)) as Ha.
  destruct (validateNode members root 1 0); [|done]. destruct Ha as [(Hok & _ & Hsz) _].
  destruct (evalNode_waits ctx members root 0 emptyEval Hok ltac:(lia) Hprogress) as [[?|?]|?]; auto.
Qed.

(** The shapes the examples below are built of. *)
Definition runNode (m : string) : FlowNode := mkFlowNode (Some m) [] None None None.
Definition loopNode (l : LoopNode) : FlowNode := mkFlowNode None [] None (Some l) None.
Definition parallelNode (mode : string) (branches : list FlowNode) : FlowNode :=
  mkFlowNode None [] (Some (mkParallelNode branches (Some (mkJoinSpec mode None)) "" "")) None None.
Definition timesLoop (n : Z) (body : FlowNode) : FlowNode :=
  loopNode (mkLoopNode LoopModeTimes (Some n) body None false None None None).

Definition childIn (phase : ActionPhase) : ChildState := mkChildState true phase None [] 0.
Definition noChild : ChildState := mkChildState false "" None [] 0.

(** A cluster where each member's child at each iteration is as listed, and loops are at [it]. *)
Definition exContext (children : list (string * Z * ActionPhase)) (it : Z) : Context :=
  mkContext 1000 (fun m i => match List.find (fun c => (c.1.1 =s m) && (c.1.2 =? i)) children with
                             | Some c => childIn c.2 | None => noChild end)
    (fun _ => mkLoopProgress it (Some 0)).

Lemma Evaluate_never_stuck_witness :
  let root := mkFlowNode None [runNode "a"; parallelNode JoinModeAny [runNode "b"; timesLoop 3 (runNode "c")]] None None None in
  let ctx := exContext [("a", 0, ActionPhaseSucceeded); ("b", 0, ActionPhaseInProgress)] 0 in
  ev_Ensure (snd (Evaluate ctx root)) <> [] \/ ev_StartIteration (snd (Evaluate ctx root)) <> ∅ \/
  exists m it, nonTerminal (cx_Child ctx m it) = true.
Proof.
  intros root ctx.
  apply (Evaluate_never_stuck ctx root (MemberNames ["a"; "b"; "c"])); vm_compute; reflexivity.
Defined.

(** Nothing is reported finished while a robot still moves: a parallel node answers InProgress
    until every one of its branches has settled, and then answers what its join table says of the
    settled outcomes (InProgress when the table has no verdict). *)
Theorem parallel_settles_last ctx branches join onJoin onBranchFailure loop sel iter out :
  let os := fst (evalBranches (fun n => evalNode ctx n iter) branches out) in
  fst (evalNode ctx (mkFlowNode None [] (Some (mkParallelNode branches join onJoin onBranchFailure)) loop sel) iter out) =
  if forallb Settled os
  then default OutcomeInProgress (joinOutcome (joinMode join) (joinQuorum join (length branches))
         (orDefault onBranchFailure OnBranchFailureFailNode) os)
  else OutcomeInProgress.
Proof.
  simpl. destruct (evalBranches _ branches out) as [os out1]. simpl. unfold joinBranches.
  destruct (forallb Settled os) eqn:Hall; simpl.
  - assert (Hs : countOutcomes Settled os = Z.of_nat (length os)).
    { apply all_settled, Forall_forall. rewrite forallb_forall in Hall. intros o Ho. by apply Hall, list_elem_of_In. }
    destruct (joinOutcome _ _ _ os); [|done]. by rewrite Hs, Z.ltb_irrefl.
  - destruct (joinOutcome _ _ _ os); [|done].
    destruct (Z.ltb_spec (countOutcomes Settled os) (Z.of_nat (length os))) as [|Hge]; [done|]. exfalso.
    assert (Hs : countOutcomes Settled os = Z.of_nat (length os)) by (pose proof (count_le_length Settled os); lia).
    apply all_settled in Hs. rewrite Forall_forall in Hs.
    assert (forallb Settled os = true) by (apply forallb_forall; intros x Hx; by apply Hs, list_elem_of_In). congruence.
Qed.

(** The join verdict does not change while siblings wind down: for All, Any and Quorum joins, once
    the branches seen so far decide the node's outcome, every later view of them (running branches
    settled in any way, for instance Cancelled by the join itself) decides the same outcome. *)
Theorem join_verdict_stable mode quorum onBranchFailure os os' o
  (Hmode : mode <> JoinModeFirst)
  (Hlen : Z.of_nat (length os) <= MaxInt32)
  (Hjoin : joinOutcome mode quorum onBranchFailure os = Some o)
  (Hlater : laterOutcomes os os') :
  joinOutcome mode quorum onBranchFailure os' = Some o.
Proof.
  pose proof (Forall2_length _ _ _ Hlater) as Hl.
  pose proof (count_later (outcome_eqb OutcomeSucceeded) os os' eq_refl Hlater) as Hs.
  pose proof (possible_later os os' Hlater) as Hp.
  pose proof (count_nonneg (outcome_eqb OutcomeSucceeded) os). pose proof (count_le_length (outcome_eqb OutcomeSucceeded) os').
  pose proof (count_le_length Settled os). pose proof (count_le_length Settled os').
  pose proof (succeeded_settled os). pose proof (succeeded_settled os').
  assert (Hsame : countOutcomes Settled os = Z.of_nat (length os) -> os' = os)
    by (intros Hc; eapply settled_later; [by apply all_settled|done]).
  revert Hjoin. unfold joinOutcome. apply eqb_s_false in Hmode as ->. rewrite !int32_of_id by (unfold MaxInt32 in *; lia).
  destruct (mode =s JoinModeAny); [|destruct (mode =s JoinModeQuorum)].
  - repeat case_match; z_bool; try done; try lia; rewrite (Hsame ltac:(done)) in *; lia.
  - repeat case_match; z_bool; try done; lia.
  - destruct (existsb _ os) eqn:He.
    + by rewrite (existsb_later _ os os' eq_refl Hlater He).
    + destruct (Z.eqb_spec (countOutcomes Settled os) (Z.of_nat (length os))) as [Hc|]; [|done].
      rewrite (Hsame Hc), He. by rewrite Hc, Z.eqb_refl.
Qed.

Lemma join_verdict_stable_witness :
  joinOutcome JoinModeQuorum 2 "" [OutcomeSucceeded; OutcomeInProgress; OutcomeSucceeded] = Some OutcomeSucceeded /\
  joinOutcome JoinModeQuorum 2 "" [OutcomeSucceeded; OutcomeCancelled; OutcomeSucceeded] = Some OutcomeSucceeded.
Proof.
  split; [reflexivity|].
  apply (join_verdict_stable JoinModeQuorum 2 "" [OutcomeSucceeded; OutcomeInProgress; OutcomeSucceeded]);
    [done|done|reflexivity|].
  constructor; [by right|constructor; [by left|constructor; [by right|constructor]]].
Defined.

(** A First join reports the wrong branch: branch 1 Succeeds while branch 0 still runs, so the join
    is satisfied and branch 0 is cancelled; once branch 0 has settled Cancelled the node reports
    Cancelled, the outcome of the lowest-numbered branch and not of the first to settle. *)
Theorem first_join_reports_lowest_branch :
  let node := parallelNode JoinModeFirst [runNode "a"; runNode "b"] in
  let during := Evaluate (exContext [("a", 0, ActionPhaseInProgress); ("b", 0, ActionPhaseSucceeded)] 0) node in
  let after := Evaluate (exContext [("a", 0, ActionPhaseCancelled); ("b", 0, ActionPhaseSucceeded)] 0) node in
  fst during = OutcomeInProgress /\ ev_Cancel (snd during) = [mkRef "a" 0] /\ fst after = OutcomeCancelled.
Proof. vm_compute. split_and!; reflexivity. Qed.

(** The most iterations a loop may start: its times, or its maxIterations when it is Forever. *)
Definition iterationBound (l : LoopNode) : option Z :=
  if l_Mode l =s LoopModeOnce then Some 1
  else if l_Mode l =s LoopModeTimes then Some (default 1 (l_Times l))
  else if l_Mode l =s LoopModeForever then l_MaxIterations l
  else Some 1.

(** A bounded loop stops at its bound: when a loop's current iteration has settled and the loop goes
    on, it asks for exactly the next iteration and that one is within the loop's bound (Times, or
    maxIterations of a Forever loop; a mode outside the enum never goes on). *)
Theorem loop_stays_within_bound ctx l bound out out'
  (Hbound : iterationBound l = Some bound)
  (Hsmall : bound <= MaxInt32)
  (Hstarted : 0 < lp_Iteration (cx_LoopProgress ctx (anchorMember (l_Body l))))
  (Hsettled : forall out0, Settled (fst (evalNode ctx (l_Body l) (lp_Iteration (cx_LoopProgress ctx (anchorMember (l_Body l)))) out0)) = true)
  (Hgoes : evalNode ctx (loopNode l) 0 out = (OutcomeInProgress, out')) :
  let i := lp_Iteration (cx_LoopProgress ctx (anchorMember (l_Body l))) in
  ev_StartIteration out' !! anchorMember (l_Body l) = Some (i + 1) /\ i + 1 <= bound.
Proof.
  destruct l as [mo ti body un ir mi md re] eqn:Hl. unfold loopNode in Hgoes. cbn [evalNode evalLoop l_Body] in *.
  rewrite <- Hl in *. set (lp := cx_LoopProgress ctx (anchorMember body)) in *.
  destruct (anchorMember body =s ""); [done|]. destruct (lp_Iteration lp =? 0) eqn:Hz; [z_bool; lia|].
  set (out1 := if _ && _ then _ else out) in Hgoes. specialize (Hsettled out1).
  destruct (evalNode ctx body (lp_Iteration lp) out1) as [o out2]. simpl in Hsettled. rewrite Hsettled in Hgoes. simpl in Hgoes.
  assert (Hnext : forall p, p -> lp_Iteration lp < bound ->
     (OutcomeInProgress, startIteration (anchorMember body) (int32_of (lp_Iteration lp + 1)) (settle (mkSettlement (anchorMember body) (lp_Iteration lp) o) out2)) = (OutcomeInProgress, out') ->
     ev_StartIteration out' !! anchorMember body = Some (lp_Iteration lp + 1) /\ lp_Iteration lp + 1 <= bound).
  { intros p _ Hlt [= <-]. simpl. rewrite lookup_insert_eq, int32_of_id by (unfold MaxInt32 in *; lia). split; [done|lia]. }
  unfold afterIteration, iterationBound in *. repeat (case_match; simplify_eq; try done); z_bool.
  - apply (Hnext True); [done|lia|done].
  - apply (Hnext True); [done| |done]. destruct (Z.lt_ge_cases (lp_Iteration lp) bound) as [|Hge]; [done|]. exfalso.
    assert (Hsat : loopBoundSatisfied ctx (mkLoopNode mo ti body un ir mi md re) lp = true); [|congruence].
    unfold loopBoundSatisfied. cbn [l_Until l_MaxIterations l_MaxDurationSeconds] in *. rewrite Hbound.
    assert (Hm : (bound <=? lp_Iteration lp) = true) by (apply Z.leb_le; lia). rewrite Hm. by rewrite orb_true_r.
Qed.

Lemma loop_stays_within_bound_witness :
  let l := mkLoopNode LoopModeTimes (Some 3) (runNode "a") None false None None None in
  let ctx := exContext [("a", 2, ActionPhaseSucceeded)] 2 in
  ev_StartIteration (snd (evalNode ctx (loopNode l) 0 emptyEval)) !! "a" = Some 3 /\ 2 + 1 <= 3.
Proof.
  intros l ctx.
  refine (loop_stays_within_bound ctx l 3 emptyEval (snd (evalNode ctx (loopNode l) 0 emptyEval)) _ _ _ _ _);
    [reflexivity|done|done|done|vm_compute; reflexivity].
Defined.

(** Nested loops share one counter: a loop of 2 times around a loop of 3 times around one member
    finishes Succeeded when the member has run 3 times, not 6, because both loops are anchored on
    the same member and read the same iteration. *)
Theorem nested_loops_share_counter :
  let root := timesLoop 2 (timesLoop 3 (runNode "a")) in
  ValidateStructure root (MemberNames ["a"]) = None /\
  fst (Evaluate (exContext [("a", 3, ActionPhaseSucceeded)] 3) root) = OutcomeSucceeded.
Proof. vm_compute. split; reflexivity. Qed.

(** Admission does not bound a Forever loop: a Forever loop whose only bound is an until with no
    condition that can match is admitted, and whatever the iteration (below the int32 ceiling) and
    the time, a succeeded iteration is followed by a request for the next one. *)
Theorem forever_until_is_unbounded i now
  (Hi : 0 < i < MaxInt32) :
  let root := loopNode (mkLoopNode LoopModeForever None (runNode "a") (Some []) false None None None) in
  let ctx := mkContext now (fun _ _ => childIn ActionPhaseSucceeded) (fun _ => mkLoopProgress i (Some 0)) in
  ValidateStructure root (MemberNames ["a"]) = None /\
  fst (Evaluate ctx root) = OutcomeInProgress /\
  ev_StartIteration (snd (Evaluate ctx root)) !! "a" = Some (i + 1).
Proof.
  intros root ctx. split; [vm_compute; reflexivity|].
  unfold Evaluate, root, loopNode, runNode. cbn [evalNode evalLoop anchorMember cx_LoopProgress ctx lp_Iteration].
  assert (Hz : (i =? 0) = false) by (apply Z.eqb_neq; lia).
  change ("a" =s "") with false. cbn iota. rewrite Hz. simpl.
  rewrite lookup_insert_eq, int32_of_id by lia. done.
Qed.

Lemma forever_until_is_unbounded_witness :
  let root := loopNode (mkLoopNode LoopModeForever None (runNode "a") (Some []) false None None None) in
  let ctx := mkContext (10 ^ 18) (fun _ _ => childIn ActionPhaseSucceeded) (fun _ => mkLoopProgress 1000000 (Some 0)) in
  fst (Evaluate ctx root) = OutcomeInProgress.
Proof. exact (proj1 (proj2 (forever_until_is_unbounded 1000000 (10 ^ 18) ltac:(done)))). Defined.
