(* ===== verification/EstopScope.v ===== *)
(** Which emergency stops hold a robot (src/internal/estopscope): the zone tree and its bounded,
    fail-closed ancestor walk, the recorded and standing holds, the stop guard's coverage, and the
    checks an edit of the tree or a move of a robot is put to. The properties are in EstopGuard.

    A [*FleetZone] into a list that is only read is the zone itself. The operator-facing message
    texts are not modelled. *)

From S2P Require Import Prelude.
From S2P Require Import Types.

(** ** Annotations and holders (estopscope.go) *)

Definition ProcessedAnnotation : string := "swarmada.io/estop-processed".
Definition TriggerAnnotation : string := "swarmada.io/estop-triggered".
Definition walkCap : nat := 64.

Inductive Kind := KindRobot | KindZone | KindNamespace.

#[export] Instance Kind_eq_dec : EqDecision Kind.
Proof. solve_decision. Defined.

Record Holder := mkHolder {
  h_Kind : Kind;
  h_Name : string;
  h_Value : string;
  h_Recorded : bool;
  h_Clearing : bool;
  h_Orphaned : bool;
  h_Pending : bool
}.

Definition HoldKind (k : EstopHoldKind) : Kind :=
  if k =s EstopHoldSwarmadaConfig then KindNamespace else KindZone.

Definition has (annotations : gmap string string) (key : string) : bool :=
  match annotations !! key with Some _ => true | None => false end.
(** Go's [m[key]]: the zero value when the key is absent. *)
Definition valueOf (annotations : gmap string string) (key : string) : string := default "" (annotations !! key).

Definition HeldOnRecord (robot : Robot) : option Holder :=
  match r_Annotations robot !! TriggerAnnotation with
  | Some v => Some (mkHolder KindRobot (r_Name robot) v false false false false)
  | None =>
      match r_EstopHeldBy robot with
      | e :: _ => Some (mkHolder (HoldKind (eh_Kind e)) (eh_Name e) "" true false false false)
      | [] => None
      end
  end.

Definition InForce (annotations : gmap string string) : bool :=
  has annotations TriggerAnnotation || has annotations ProcessedAnnotation.

Definition pendingOn (annotations : gmap string string) : bool :=
  has annotations TriggerAnnotation && negb (has annotations ProcessedAnnotation).

(** [propagatesDown]: the policy's answer, true when there is no policy. *)
Definition propagatesDown (z : FleetZone) : bool :=
  match fzs_EstopPolicy (fz_Spec z) with None => true | Some p => PropagatesToChildren p end.

Definition Pending (z : FleetZone) : bool := pendingOn (fz_Annotations z).
Definition Carries (z : FleetZone) : bool := InForce (fz_Annotations z).

Definition parentOf (z : FleetZone) : string := fzs_ParentZone (fz_Spec z).

(** Same stop: the kind and the carrier's name. *)
Definition sameStop (a b : Holder) : bool := bool_decide (h_Kind a = h_Kind b) && (h_Name a =s h_Name b).

(** The [add] closure: a stop already listed is not listed again. *)
Definition addHolder (out : list Holder) (h : Holder) : list Holder :=
  if existsb (fun x => sameStop x h) out then out else out ++ [h].

Definition addAll (out hs : list Holder) : list Holder := fold_left addHolder hs out.

(** ** The zone tree (coverage.go) *)

Definition MaxAncestors : nat := walkCap.

Notation Tree := (gmap string FleetZone).

Definition TreeOf (zones : list FleetZone) : Tree := fold_left (fun t z => <[fz_Name z := z]> t) zones ∅.
Definition Names (t : Tree) : list string := sort_Strings (elements (dom t)).
Definition With (t : Tree) (z : FleetZone) : Tree := <[fz_Name z := z]> t.
Definition Without (t : Tree) (name : string) : Tree := delete name t.

Definition StopCarrier (t : Tree) : string :=
  default "" (List.find (fun n => match t !! n with Some z => Carries z | None => false end) (Names t)).

Record TooDeepError := mkTooDeep { td_Zone : string; td_Depth : nat }.

(** The climb from [name] with [more] ancestors still allowed. *)
Fixpoint climb (t : Tree) (zone : string) (more : nat) (seen : gset string) (name : string)
    : result TooDeepError (list FleetZone) :=
  if name =s "" then Ok []
  else match more with
       | O => Err (mkTooDeep zone MaxAncestors)
       | S more' =>
           if bool_decide (name ∈ seen) then Err (mkTooDeep zone (MaxAncestors - more))
           else match t !! name with
                | None => Ok []
                | Some p => let? out := climb t zone more' ({[name]} ∪ seen) (parentOf p) in Ok (p :: out)
                end
       end.

Definition Ancestors (t : Tree) (zone : string) : result TooDeepError (list FleetZone) :=
  match t !! zone with
  | None => Ok []
  | Some z => climb t zone MaxAncestors {[zone]} (parentOf z)
  end.

Definition Depth (t : Tree) (zone : string) : result TooDeepError nat :=
  let? a := Ancestors t zone in Ok (length a).

Definition Reaching (t : Tree) (zone : string) (stopped : FleetZone -> bool) : result TooDeepError (list string) :=
  match t !! zone with
  | None => Ok []
  | Some z =>
      let own := if stopped z then [fz_Name z] else [] in
      let? ancestors := Ancestors t zone in
      Ok (own ++ (fz_Name <$> List.filter (fun a => stopped a && propagatesDown a) ancestors))
  end.

Definition Covers (t : Tree) (carrier zone : string) (toChildren : bool) : result TooDeepError bool :=
  if zone =s "" then Ok false
  else if zone =s carrier then Ok true
  else if negb toChildren then Ok false
  else let? ancestors := Ancestors t zone in Ok (existsb (fun a => fz_Name a =s carrier) ancestors).

(** For each zone: in scope, and whether that could not be decided. *)
Definition fanOutOne (t : Tree) (carrier : string) (toChildren : bool) (zone : string) : bool * bool :=
  match Covers t carrier zone toChildren with Ok b => (b, false) | Err _ => (true, true) end.

(** The indexes, from [i], of the entries that hold. *)
Fixpoint indexesOf (i : nat) (l : list bool) : list nat :=
  match l with [] => [] | b :: l => if b then i :: indexesOf (S i) l else indexesOf (S i) l end.

Definition FanOutScope (t : Tree) (carrier : string) (zones : list string) (toChildren : bool) : list bool * list nat :=
  let answers := fanOutOne t carrier toChildren <$> zones in
  (fst <$> answers, indexesOf 0 (snd <$> answers)).

(** *** Subtree *)

Definition childrenOf (t : Tree) (zone : string) : list string :=
  List.filter (fun n => match t !! n with Some z => (parentOf z <>s "") && (parentOf z =s zone) | None => false end) (Names t).

(** The inner loop over one zone's children: each new one joins the queue. *)
Fixpoint enqueue (children : list string) (seen : gset string) (queue : list string)
    : result TooDeepError (gset string * list string) :=
  match children with
  | [] => Ok (seen, queue)
  | c :: children =>
      if bool_decide (c ∈ seen) then Err (mkTooDeep c MaxAncestors)
      else enqueue children ({[c]} ∪ seen) (queue ++ [c])
  end.

(** The loop over [out] by index: [done] is out[:i], [queue] is out[i:]. No answer: out of fuel. *)
Fixpoint subtreeLoop (fuel : nat) (t : Tree) (root : string) (done queue : list string) (seen : gset string)
    : option (result TooDeepError (list string)) :=
  match fuel with
  | O => None
  | S fuel =>
      match queue with
      | [] => Some (Ok done)
      | x :: queue =>
          match enqueue (childrenOf t x) seen queue with
          | Err e => Some (Err e)
          | Ok (seen, queue) =>
              if (size t + 1 <? length (done ++ x :: queue))%nat
              then Some (Err (mkTooDeep root MaxAncestors))
              else subtreeLoop fuel t root (done ++ [x]) queue seen
          end
      end
  end.

(** Enough for every zone of the tree and the root (subtree_fuel below). *)
Definition subtreeFuel (t : Tree) : nat := S (S (size t)).

Definition Subtree (t : Tree) (root : string) : result TooDeepError (list string) :=
  default (Err (mkTooDeep root MaxAncestors)) (subtreeLoop (subtreeFuel t) t root [] [root] {[root]}).

Fixpoint deepest (t : Tree) (zones : list string) (best : Z * string) : result TooDeepError (Z * string) :=
  match zones with
  | [] => Ok best
  | z :: zones =>
      let? d := Depth t z in
      deepest t zones (if fst best <? Z.of_nat d then (Z.of_nat d, z) else best)
  end.

Definition DeepestBelow (t : Tree) (root : string) : result TooDeepError (Z * string) :=
  let? sub := Subtree t root in deepest t sub (-1, root).

(** ** Holders (estopscope.go) *)

(** The carrier a recorded entry names: its UID and annotations. *)
Definition carrierOf (t : Tree) (configs : list SwarmadaConfig) (e : EstopHold) : option (string * gmap string string) :=
  if eh_Kind e =s EstopHoldSwarmadaConfig then
    (fun c => (sc_UID c, sc_Annotations c)) <$>
      (fold_left (fun m c => <[sc_Name c := c]> m) configs ∅ : gmap string SwarmadaConfig) !! eh_Name e
  else (fun z => (fz_UID z, fz_Annotations z)) <$> t !! eh_Name e.

Definition orphanedBy (e : EstopHold) (meta : option (string * gmap string string)) : bool :=
  match meta with
  | None => true
  | Some (uid, _) => (eh_UID e <>s "") && (uid <>s "") && (eh_UID e <>s uid)
  end.

(** The recorded entries: the holders in force, and the orphaned ones. *)
Definition recordedInForce (t : Tree) (configs : list SwarmadaConfig) (e : EstopHold) : option Holder :=
  match carrierOf t configs e with
  | Some (uid, ann) =>
      if orphanedBy e (Some (uid, ann)) then None
      else if InForce ann
           then Some (mkHolder (HoldKind (eh_Kind e)) (eh_Name e) (valueOf ann TriggerAnnotation) true
                        (negb (has ann TriggerAnnotation)) false false)
           else None
  | None => None
  end.

Definition recordedOrphan (t : Tree) (configs : list SwarmadaConfig) (e : EstopHold) : option Holder :=
  if orphanedBy e (carrierOf t configs e)
  then Some (mkHolder (HoldKind (eh_Kind e)) (eh_Name e) "" true false true false) else None.

(** The zone walk of Holders: [more] more zones from [name], [own] for the robot's own zone. *)
Fixpoint standingZones (t : Tree) (more : nat) (own : bool) (name : string) : list Holder :=
  match more with
  | O => []
  | S more =>
      if name =s "" then []
      else match t !! name with
           | None => []
           | Some z =>
               (if has (fz_Annotations z) TriggerAnnotation && (own || propagatesDown z)
                then [mkHolder KindZone (fz_Name z) (valueOf (fz_Annotations z) TriggerAnnotation) false false false false] else [])
               ++ standingZones t more false (parentOf z)
           end
  end.

(** The robot's zone as the fan-out reads it. *)
Definition zoneOf (robot : Robot) : string := if r_CurrentZone robot =s "" then r_Zone robot else r_CurrentZone robot.

Definition ownTrigger (robot : Robot) (pending : bool) : list Holder :=
  match r_Annotations robot !! TriggerAnnotation with
  | Some v => [mkHolder KindRobot (r_Name robot) v false false false pending]
  | None => []
  end.

Definition standingConfigs (configs : list SwarmadaConfig) : list Holder :=
  omap (fun c => (fun v => mkHolder KindNamespace (sc_Name c) v false false false false)
                 <$> sc_Annotations c !! TriggerAnnotation) configs.

Definition Holders (robot : Robot) (zones : list FleetZone) (configs : list SwarmadaConfig) : list Holder :=
  let t := TreeOf zones in
  addAll [] (ownTrigger robot false ++ omap (recordedInForce t configs) (r_EstopHeldBy robot) ++
             standingZones t (S walkCap) true (zoneOf robot) ++ standingConfigs configs ++
             omap (recordedOrphan t configs) (r_EstopHeldBy robot)).

Definition StandingStop (robot : Robot) (zones : list FleetZone) (configs : list SwarmadaConfig) : option Holder :=
  match Holders robot zones configs with [] => None | h :: _ => Some h end.

(** ** Coverage: the stop guard (coverage.go) *)

Definition zoneStop (t : Tree) (n : string) : Holder :=
  match t !! n with
  | Some z => mkHolder KindZone n (valueOf (fz_Annotations z) TriggerAnnotation) false false false (Pending z)
  | None => mkHolder KindZone n "" false false false false
  end.

Definition namespaceStops (configs : list SwarmadaConfig) : list Holder :=
  (fun c => mkHolder KindNamespace (sc_Name c) (valueOf (sc_Annotations c) TriggerAnnotation) false false false
              (pendingOn (sc_Annotations c))) <$> List.filter (fun c => InForce (sc_Annotations c)) configs.

Definition CoveringAt (t : Tree) (configs : list SwarmadaConfig) (zone : string) : result TooDeepError (list Holder) :=
  let? zs := (if zone <>s "" then let? names := Reaching t zone Carries in Ok (zoneStop t <$> names) else Ok []) in
  Ok (zs ++ namespaceStops configs).

Definition Coverage : Type := list Holder.

Definition Covered (c : Coverage) : bool := match c with [] => false | _ :: _ => true end.
Definition coveragePending (c : Coverage) : bool := existsb h_Pending c.
Definition Has (c : Coverage) (kind : Kind) (name : string) : bool :=
  existsb (fun s => bool_decide (h_Kind s = kind) && (h_Name s =s name)) c.

Definition Lost (before after : Coverage) : list Holder :=
  List.filter (fun s => negb (Has after (h_Kind s) (h_Name s))) before.

(** A recorded entry as the guard counts it. *)
Definition recordedHold (t : Tree) (configs : list SwarmadaConfig) (e : EstopHold) : option Holder :=
  let h := mkHolder (HoldKind (eh_Kind e)) (eh_Name e) in
  let meta := carrierOf t configs e in
  if orphanedBy e meta then Some (h "" true false true false)
  else match meta with
       | Some (_, ann) => if InForce ann then Some (h (valueOf ann TriggerAnnotation) true false false false) else None
       | None => None
       end.

Definition CoverageOf (t : Tree) (configs : list SwarmadaConfig) (robot : Robot) : result TooDeepError Coverage :=
  let? recorded := CoveringAt t [] (r_CurrentZone robot) in
  let? declared := CoveringAt t [] (r_Zone robot) in
  Ok (addAll [] (ownTrigger robot (pendingOn (r_Annotations robot)) ++ recorded ++ declared ++ namespaceStops configs ++
                 omap (recordedHold t configs) (r_EstopHeldBy robot))).

Definition withZone (robot : Robot) (zone : string) : Robot :=
  mkRobot (r_Name robot) (r_Namespace robot) (r_UID robot) (r_Annotations robot) (r_DeletionTimestamp robot) zone
    (r_Manufacturer robot) (r_Phase robot) (r_CurrentZone robot) (r_BatteryPercent robot) (r_Capabilities robot)
    (r_SensorStreams robot) (r_EstopHeldBy robot) (r_Adapter robot) (r_EstopState robot) (r_Stops robot).

Definition FanOutCoverageOf (t : Tree) (configs : list SwarmadaConfig) (robot : Robot) : result TooDeepError Coverage :=
  CoverageOf t configs (if r_CurrentZone robot <>s "" then withZone robot (r_CurrentZone robot) else robot).

Definition MoveLoses (t : Tree) (configs : list SwarmadaConfig) (before after : Robot) : result TooDeepError (list Holder) :=
  let? was1 := CoverageOf t configs before in
  let? now1 := CoverageOf t configs after in
  let? was2 := FanOutCoverageOf t configs before in
  let? now2 := FanOutCoverageOf t configs after in
  Ok (addAll [] (Lost was1 now1 ++ Lost was2 now2)).

(** *** Edits *)

Record EditLoss := mkEditLoss { el_Pending : list string; el_InForce : list string }.

Definition Any (l : EditLoss) : bool := negb (length (el_Pending l) + length (el_InForce l) =? 0)%nat.

Definition noteLost (acc : EditLoss * gset string) (lost : Holder) : EditLoss * gset string :=
  let '(loss, seen) := acc in
  if bool_decide (h_Name lost ∈ seen) then acc
  else (if h_Pending lost then mkEditLoss (el_Pending loss ++ [h_Name lost]) (el_InForce loss)
        else mkEditLoss (el_Pending loss) (el_InForce loss ++ [h_Name lost]),
        {[h_Name lost]} ∪ seen).

Fixpoint editWalk (before after : Tree) (sub : list string) (acc : EditLoss * gset string) : result TooDeepError EditLoss :=
  match sub with
  | [] => Ok (fst acc)
  | d :: sub =>
      let? was := CoveringAt before [] d in
      let? now := CoveringAt after [] d in
      editWalk before after sub (fold_left noteLost (Lost was now) acc)
  end.

Definition EditUncovers (before : Tree) (newZone : FleetZone) : result TooDeepError EditLoss :=
  let? sub := Subtree before (fz_Name newZone) in
  editWalk before (With before newZone) sub (mkEditLoss [] [], ∅).

Definition PendingStopsOverTree (t : Tree) (zone : string) : result TooDeepError (list string) := Reaching t zone Pending.

(** ** Reads through the API server (pending.go) *)

(** What [rd.Get] answers for a zone name. *)
Inductive zoneRead := ZoneFound (z : FleetZone) | ZoneNotFound | ZoneReadError.

Inductive stopsError := ErrNoReader | ErrChainTooDeep (start : string) | ErrZoneRead (zone : string) | ErrListConfigs.

(** The climb with [more] reads still allowed; [own] at the start with [self]. *)
Fixpoint stopsLoop (get : string -> zoneRead) (start : string) (stopped : FleetZone -> bool) (more : nat) (own : bool)
    (name : string) : result stopsError (list string) :=
  if name =s "" then Ok []
  else match more with
       | O => Err (ErrChainTooDeep start)
       | S more =>
           match get name with
           | ZoneNotFound => Ok []
           | ZoneReadError => Err (ErrZoneRead name)
           | ZoneFound z =>
               let? out := stopsLoop get start stopped more false (parentOf z) in
               Ok ((if stopped z && (own || propagatesDown z) then [fz_Name z] else []) ++ out)
           end
       end.

Definition StopsOver (rd : option (string -> zoneRead)) (start : string) (self : bool) (stopped : FleetZone -> bool)
    : result stopsError (list string) :=
  match rd with
  | None => Err ErrNoReader
  | Some get => stopsLoop get start stopped (S walkCap) self start
  end.

Definition PendingStopsOver (rd : option (string -> zoneRead)) (start : string) (self : bool) : result stopsError (list string) :=
  StopsOver rd start self Pending.

Definition Missing (before after : list string) : list string :=
  List.filter (fun n => negb (existsb (String.eqb n) after)) before.

Definition PendingStopsLeft (rd : option (string -> zoneRead)) (from to : string) : result stopsError (list string) :=
  if (from =s "") || (from =s to) then Ok []
  else
    let? before := PendingStopsOver rd from true in
    match before with
    | [] => Ok []
    | _ => let? after := PendingStopsOver rd to true in Ok (Missing before after)
    end.

Definition PendingNamespaceStops (rd : option (option (list SwarmadaConfig))) : result stopsError (list string) :=
  match rd with
  | None => Err ErrNoReader
  | Some None => Err ErrListConfigs
  | Some (Some configs) => Ok (sc_Name <$> List.filter (fun c => pendingOn (sc_Annotations c)) configs)
  end.
