(* ===== verification/EstopGuard.v ===== *)
(** Properties of the emergency-stop scope of EstopScope: the fan-out never misses a robot, the guard
    never misses a stop, every reader agrees with every other, and an admitted edit or move takes
    nothing out of a stop's reach. *)

From S2P Require Import Prelude.
From S2P Require Import Types.
From S2P Require Import EstopScope.

(** ** The parent chain, without a bound *)

(** The zones from [n] upwards, to a zone without parent or one the tree does not hold. *)
Inductive chain (t : Tree) : string -> list FleetZone -> Prop :=
| chain_top : chain t "" []
| chain_gone n : n <> "" -> t !! n = None -> chain t n []
| chain_up n p l : n <> "" -> t !! n = Some p -> chain t (parentOf p) l -> chain t n (p :: l).

(** [carrier] is [n] or an ancestor of [n], however far. *)
Inductive upTo (t : Tree) (carrier : string) : string -> Prop :=
| up_here c : carrier <> "" -> t !! carrier = Some c -> upTo t carrier carrier
| up_step n p : n <> "" -> t !! n = Some p -> upTo t carrier (parentOf p) -> upTo t carrier n.

(** [n] is reached from [s] by one or more parent links. *)
Inductive leads (t : Tree) : string -> string -> Prop :=
| leads_one s p : s <> "" -> t !! s = Some p -> leads t s (parentOf p)
| leads_more s n p : leads t s n -> n <> "" -> t !! n = Some p -> leads t s (parentOf p).

(** Zones are stored under their own names, and no zone is nameless. *)
Definition treeWf (t : Tree) : Prop := t !! "" = None /\ forall n z, t !! n = Some z -> fz_Name z = n.

Lemma TreeOf_lookup zones : forall (t : Tree) n z,
  fold_left (fun t z => <[fz_Name z := z]> t) zones t !! n = Some z -> z ∈ zones /\ fz_Name z = n \/ t !! n = Some z.
Proof.
  induction zones as [|x zones IH]; intros t n z; [by right|]. cbn [fold_left]. intros [[? ?]|Hx]%IH.
  - left. split; [by right|done].
  - apply lookup_insert_Some in Hx as [[<- <-]|[_ ?]]; [left; split; [by left|done]|by right].
Qed.

Lemma TreeOf_wf zones : (forall z, z ∈ zones -> fz_Name z <> "") -> treeWf (TreeOf zones).
Proof.
  intros Hne. assert (Hn : forall n z, TreeOf zones !! n = Some z -> fz_Name z = n /\ n <> "").
  { intros n z Hz. apply (TreeOf_lookup zones ∅) in Hz as [[Hin <-]|Hz]; [eauto|]. by rewrite lookup_empty in Hz. }
  split; [|naive_solver]. destruct (TreeOf zones !! "") eqn:E; [|done]. by apply Hn in E as [_ []].
Qed.

Section walk.
Context (t : Tree) (Hwf : treeWf t).

Lemma treeWf_name n z : t !! n = Some z -> fz_Name z = n.
Proof. apply Hwf. Qed.

Lemma climb_chain zone k : forall seen name l, climb t zone k seen name = Ok l -> chain t name l.
Proof.
  induction k as [|k IH]; intros seen name l; simpl; (destruct (name =s "") eqn:Hn; str_bool; [intros [= <-]; subst; constructor|]); [done|].
  case_bool_decide; [done|]. destruct (t !! name) as [p|] eqn:Hp; [|intros [= <-]; by constructor].
  destruct (climb _ _ _ _ _) as [l'|] eqn:Hc; simpl; [|done]. intros [= <-]. econstructor; eauto.
Qed.

Lemma chain_upTo name l carrier : chain t name l -> upTo t carrier name -> exists c, t !! carrier = Some c /\ c ∈ l.
Proof.
  intros Hc. induction Hc as [|n Hn Hg|n p l Hn Hp Hc IH]; intros Hu; inversion Hu; subst; try done; try congruence.
  - exists c. split; [done|]. replace c with p by congruence. by left.
  - replace p0 with p in * by congruence. destruct IH as (c & ? & ?); [done|]. exists c. split; [done|by right].
Qed.

Lemma leads_chain s n l : leads t s n -> chain t s l -> exists l', chain t n l' /\ (length l' < length l)%nat.
Proof.
  intros Hl. revert l. induction Hl as [s p Hs Hp|s n p Hl IH Hn Hp]; intros l Hc.
  - inversion Hc; subst; try done; try congruence. replace p0 with p in * by congruence. eexists; split; [done|]. simpl. lia.
  - destruct (IH l Hc) as (l' & Hc' & Hlt). inversion Hc'; subst; try done; try congruence.
    replace p0 with p in * by congruence. eexists; split; [done|]. simpl in *. lia.
Qed.

Lemma no_loop n l : leads t n n -> chain t n l -> False.
Proof.
  intros Hl. revert l. assert (Hk : forall k l, (length l <= k)%nat -> chain t n l -> False); [|intros l; by apply (Hk (length l))].
  induction k as [|k IH]; intros l Hle Hc; destruct (leads_chain n n l Hl Hc) as (l' & Hc' & Hlt); [lia|].
  apply (IH l'); [lia|done].
Qed.

(** The fan-out's reader over the same tree. *)
Definition readFrom (n : string) : zoneRead := match t !! n with Some z => ZoneFound z | None => ZoneNotFound end.

Lemma stopsLoop_chain start stopped k : forall own name,
  match stopsLoop readFrom start stopped k own name with
  | Ok _ => exists l, chain t name l
  | Err e => e = ErrChainTooDeep start
  end.
Proof.
  induction k as [|k IH]; intros own name; simpl; (destruct (name =s "") eqn:Hn; str_bool; [subst; eexists; constructor|]); [done|].
  unfold readFrom at 1. destruct (t !! name) as [p|] eqn:Hp; [|eexists; by apply chain_gone].
  specialize (IH false (parentOf p)). destruct (stopsLoop _ _ _ _ _ _); simpl; [|done].
  destruct IH as [l Hl]. eexists. by eapply chain_up.
Qed.

(** The two climbs agree: the same zones, or neither ends. *)
Lemma climb_stops zone start stopped k : forall seen name,
  (forall s, s ∈ seen -> leads t s name) ->
  match climb t zone k seen name with
  | Ok l => stopsLoop readFrom start stopped k false name =
              Ok (fz_Name <$> List.filter (fun a => stopped a && propagatesDown a) l)
  | Err _ => stopsLoop readFrom start stopped k false name = Err (ErrChainTooDeep start)
  end.
Proof.
  induction k as [|k IH]; intros seen name Hseen; cbn [climb stopsLoop]; (destruct (name =s "") eqn:Hn; [done|]); [done|].
  str_bool. case_bool_decide as Hin.
  - pose proof (stopsLoop_chain start stopped (S k) false name) as Hs. cbn [stopsLoop] in Hs.
    apply eqb_s_false in Hn. rewrite Hn in Hs.
    destruct (match readFrom name with ZoneFound _ => _ | _ => _ end) as [out|e]; [|by subst].
    destruct Hs as [l Hl]. exfalso. eapply no_loop; [by apply Hseen|done].
  - unfold readFrom at 1 3. destruct (t !! name) as [p|] eqn:Hp; [|done].
    assert (Hs : forall s, s ∈ {[name]} ∪ seen -> leads t s (parentOf p)).
    { intros s [->%elem_of_singleton|Hs]%elem_of_union; [by apply leads_one|by eapply leads_more; eauto]. }
    specialize (IH _ _ Hs). destruct (climb t zone k ({[name]} ∪ seen) (parentOf p)) as [l|e]; cbn [result_bind]; rewrite IH; [|done].
    simpl. by destruct (stopped p && propagatesDown p).
Qed.

Lemma Ancestors_chain zone z l : t !! zone = Some z -> Ancestors t zone = Ok l -> chain t (parentOf z) l.
Proof. intros Hz. unfold Ancestors. rewrite Hz. apply climb_chain. Qed.

(** Reaching lists every stop the unbounded relation reaches. *)
Lemma Reaching_complete zone stopped names carrier c :
  Reaching t zone stopped = Ok names -> upTo t carrier zone -> t !! carrier = Some c -> stopped c = true ->
  carrier = zone \/ propagatesDown c = true -> carrier ∈ names.
Proof.
  unfold Reaching. intros Hr Hu Hc Hst Hprop. destruct (t !! zone) as [z|] eqn:Hz; [|inversion Hu; congruence].
  destruct (Ancestors t zone) as [l|] eqn:Ha; [|done]. simpl in Hr. injection Hr as <-.
  destruct (decide (carrier = zone)) as [->|Hne].
  - simplify_eq. rewrite Hst. apply elem_of_app. left. apply list_elem_of_singleton. by rewrite (treeWf_name _ _ Hz).
  - destruct Hprop as [|Hprop]; [done|]. apply elem_of_app. right.
    inversion Hu as [|n p Hn Hp Hu']; subst; [done|]. replace p with z in * by congruence.
    destruct (chain_upTo _ _ _ (Ancestors_chain _ _ _ Hz Ha) Hu') as (c' & Hc' & Hin). simplify_eq.
    apply list_elem_of_fmap. exists c. split; [by rewrite (treeWf_name _ _ Hc)|].
    apply list_elem_of_In, filter_In. split; [by apply list_elem_of_In|]. by rewrite Hst, Hprop.
Qed.

End walk.

(** ** Lists of holders *)

Lemma Has_spec c kind name : Has c kind name = true <-> exists h, h ∈ c /\ h_Kind h = kind /\ h_Name h = name.
Proof.
  unfold Has. rewrite existsb_elem. split; intros (h & Hin & Hh); exists h.
  - str_bool. by apply bool_decide_eq_true in H.
  - destruct Hh as [<- <-]. split; [done|]. by rewrite bool_decide_true, eqb_s_refl.
Qed.

Lemma sameStop_spec a b : sameStop a b = true <-> h_Kind a = h_Kind b /\ h_Name a = h_Name b.
Proof. unfold sameStop. rewrite andb_true_iff, bool_decide_eq_true, eqb_s_true. done. Qed.

(** Deduplicating loses no stop and invents none. *)
Lemma addAll_Has hs : forall out kind name, Has (addAll out hs) kind name = Has (out ++ hs) kind name.
Proof.
  induction hs as [|h hs IH]; intros out kind name; unfold addAll; cbn [fold_left]; [by rewrite app_nil_r|].
  fold (addAll (addHolder out h) hs). rewrite IH. unfold addHolder.
  destruct (existsb _ out) eqn:He; [|by rewrite <- app_assoc].
  unfold Has. rewrite !existsb_app. simpl. apply existsb_elem in He as (x & Hx & [Hk Hn]%sameStop_spec).
  destruct (bool_decide (h_Kind h = kind) && (h_Name h =s name)) eqn:Hh; [|done]. simpl.
  assert (Ht : existsb (fun s => bool_decide (h_Kind s = kind) && (h_Name s =s name)) out = true).
  { apply existsb_elem. exists x. split; [done|]. by rewrite Hk, Hn. }
  by rewrite Ht.
Qed.

Lemma addAll_elem hs : forall out h, h ∈ addAll out hs -> h ∈ out ++ hs.
Proof.
  induction hs as [|x hs IH]; intros out h; unfold addAll; cbn [fold_left]; [by rewrite app_nil_r|].
  fold (addAll (addHolder out x) hs). intros Hh%IH. unfold addHolder in Hh. destruct (existsb _ out); set_solver.
Qed.

Lemma Has_app a b kind name : Has (a ++ b) kind name = Has a kind name || Has b kind name.
Proof. apply existsb_app. Qed.

(** ** Subtree *)

(** [n] hangs below [root] by parent links, or is it. *)
Inductive linked (t : Tree) (root : string) : string -> Prop :=
| linked_root : linked t root root
| linked_child n z : t !! n = Some z -> parentOf z <> "" -> linked t root (parentOf z) -> linked t root n.

Lemma elem_of_childrenOf t x n :
  n ∈ childrenOf t x <-> exists z, t !! n = Some z /\ parentOf z <> "" /\ parentOf z = x.
Proof.
  unfold childrenOf. rewrite list_elem_of_In, filter_In, <- list_elem_of_In.
  unfold Names. rewrite elem_of_sort_Strings, elem_of_elements, elem_of_dom. split.
  - intros [[z Hz] Hc]. rewrite Hz in Hc. str_bool. eauto.
  - intros (z & Hz & Hne & <-). rewrite Hz. split; [eauto|]. apply eqb_s_false in Hne. by rewrite Hne, eqb_s_refl.
Qed.

Lemma enqueue_spec cs : forall seen q seen' q', enqueue cs seen q = Ok (seen', q') ->
  q' = q ++ cs /\ forall c, c ∈ cs -> c ∈ q'.
Proof.
  induction cs as [|c cs IH]; intros seen q seen' q'; cbn [enqueue].
  - intros [= <- <-]. rewrite app_nil_r. split; [done|]. intros x Hx. by apply not_elem_of_nil in Hx.
  - case_bool_decide; [done|]. intros [-> Hin]%IH. rewrite <- app_assoc. split; [done|].
    intros x Hx. apply elem_of_app. by right.
Qed.

(** What the loop has processed, its children included, stays in the answer. *)
Lemma subtreeLoop_closed t root fuel : forall dn queue seen out,
  subtreeLoop fuel t root dn queue seen = Some (Ok out) ->
  (forall x c, x ∈ dn -> c ∈ childrenOf t x -> c ∈ dn ++ queue) ->
  (forall x, x ∈ dn ++ queue -> x ∈ out) /\ (forall x c, x ∈ out -> c ∈ childrenOf t x -> c ∈ out).
Proof.
  induction fuel as [|fuel IH]; intros dn queue seen out Hrun Hinv; [done|]. cbn [subtreeLoop] in Hrun.
  destruct queue as [|x queue].
  { simplify_eq. rewrite app_nil_r in *. split; [done|]. exact Hinv. }
  destruct (enqueue _ seen queue) as [[seen' queue']|] eqn:He; [|done].
  apply enqueue_spec in He as [-> Hcs]. destruct (_ <? _)%nat; [done|].
  destruct (IH _ _ _ _ Hrun) as [Hin Hcl].
  - intros y c [Hy| ->%list_elem_of_singleton]%elem_of_app Hc.
    + specialize (Hinv y c Hy Hc). rewrite !elem_of_app, ?elem_of_cons, ?elem_of_nil in *. tauto.
    + specialize (Hcs c Hc). rewrite !elem_of_app in *. tauto.
  - split; [|done]. intros y Hy. apply Hin. rewrite !elem_of_app, ?elem_of_cons, ?elem_of_nil in *. tauto.
Qed.

(** The fuel is enough: the loop always answers. *)
Lemma subtreeLoop_answers t root fuel : forall dn queue seen,
  (length (dn ++ queue) <= size t + 1)%nat -> (size t + 2 <= fuel + length dn)%nat ->
  subtreeLoop fuel t root dn queue seen <> None.
Proof.
  induction fuel as [|fuel IH]; intros dn queue seen Hlen Hfuel; [rewrite length_app in Hlen; lia|].
  cbn [subtreeLoop]. destruct queue as [|x queue]; [done|].
  destruct (enqueue _ _ _) as [[seen' queue']|]; [|done]. destruct (Nat.ltb_spec (size t + 1) (length (dn ++ x :: queue'))); [done|].
  apply IH; rewrite !length_app in *; simpl in *; lia.
Qed.

Lemma subtree_fuel t root : subtreeLoop (subtreeFuel t) t root [] [root] {[root]} <> None.
Proof. apply subtreeLoop_answers; unfold subtreeFuel; simpl; lia. Qed.

(** Subtree leaves out no zone that hangs below the root. *)
Lemma Subtree_complete t root sub d : Subtree t root = Ok sub -> linked t root d -> d ∈ sub.
Proof.
  unfold Subtree. intros Hs Hl. pose proof (subtree_fuel t root) as Hf.
  destruct (subtreeLoop _ _ _ _ _ _) as [r|] eqn:Hr; [|done]. simpl in Hs. subst r.
  destruct (subtreeLoop_closed _ _ _ _ _ _ _ Hr) as [Hin Hcl]; [intros x c Hx; by apply not_elem_of_nil in Hx|].
  induction Hl as [|n z Hz Hne Hl IH]; [apply Hin; by left|].
  apply (Hcl _ _ IH), elem_of_childrenOf. eauto.
Qed.

(** ** What an edit leaves alone *)

Lemma With_climb t z zone k : forall seen name,
  ~ linked t (fz_Name z) name -> climb (With t z) zone k seen name = climb t zone k seen name.
Proof.
  induction k as [|k IH]; intros seen name Hnl; cbn [climb]; [done|]. destruct (name =s ""); [done|].
  case_bool_decide; [done|]. unfold With at 1. rewrite lookup_insert_ne by (intros <-; apply Hnl; constructor).
  destruct (t !! name) as [p|] eqn:Hp; [|done].
  destruct (parentOf p =s "") eqn:Hn.
  - destruct k; cbn [climb]; by rewrite Hn.
  - str_bool. rewrite IH; [done|]. intros Hl. apply Hnl. by eapply linked_child.
Qed.

Lemma With_Reaching t z zone stopped : ~ linked t (fz_Name z) zone -> Reaching (With t z) zone stopped = Reaching t zone stopped.
Proof.
  intros Hnl. unfold Reaching, Ancestors.
  assert (Hz : With t z !! zone = t !! zone) by (apply lookup_insert_ne; intros <-; apply Hnl; constructor).
  rewrite Hz. destruct (t !! zone) as [p|] eqn:Hp; [|done].
  destruct (parentOf p =s "") eqn:Hn.
  - unfold MaxAncestors, walkCap. cbn [climb]. by rewrite Hn.
  - str_bool. rewrite With_climb; [done|]. intros Hl. apply Hnl. by eapply linked_child.
Qed.

Lemma zoneStop_stop t n : h_Kind (zoneStop t n) = KindZone /\ h_Name (zoneStop t n) = n.
Proof. unfold zoneStop. by destruct (t !! n). Qed.

(** At a zone, the guard without configs is the list of stops that reach it. *)
Lemma CoveringAt_zones t zone :
  match CoveringAt t [] zone with
  | Ok c => exists names, (if zone =s "" then Ok [] else Reaching t zone Carries) = Ok names /\ c = zoneStop t <$> names
  | Err _ => zone <> "" /\ is_ok (Reaching t zone Carries) = false
  end.
Proof.
  unfold CoveringAt. destruct (zone =s "") eqn:Hz; cbn [negb result_bind]; [by exists []|]. str_bool.
  destruct (Reaching t zone Carries) as [names|e]; simpl; [|done]. exists names. by rewrite app_nil_r.
Qed.

Lemma Has_zoneStops t names n : Has (zoneStop t <$> names) KindZone n = true <-> n ∈ names.
Proof.
  rewrite Has_spec. split.
  - intros (h & (x & -> & Hx)%list_elem_of_fmap & _ & Hn). destruct (zoneStop_stop t x) as [_ Hn']. congruence.
  - intros Hn. exists (zoneStop t n). destruct (zoneStop_stop t n). split_and!; [apply list_elem_of_fmap; eauto|done|done].
Qed.

Lemma noteLost_any lost : forall acc, Any (fst acc) = true -> Any (fst (fold_left noteLost lost acc)) = true.
Proof.
  induction lost as [|h lost IH]; intros [loss seen] Ha; [done|]. cbn [fold_left]. apply IH. unfold noteLost.
  case_bool_decide; [done|]. unfold Any in *. simpl in *. destruct (h_Pending h); simpl; rewrite length_app; simpl;
    apply negb_true_iff, Nat.eqb_neq; lia.
Qed.

(** Every name noted as seen is listed. *)
Definition noted (acc : EditLoss * gset string) : Prop := snd acc <> ∅ -> Any (fst acc) = true.

Lemma noteLost_noted lost : forall acc, noted acc -> noted (fold_left noteLost lost acc) /\
  (lost <> [] -> Any (fst (fold_left noteLost lost acc)) = true).
Proof.
  induction lost as [|h lost IH]; intros acc Hn; [done|]. cbn [fold_left].
  assert (Hany : Any (fst (noteLost acc h)) = true).
  { destruct acc as [loss seen]. unfold noteLost, noted in *. simpl in *. case_bool_decide as Hin.
    - simpl. apply Hn. set_solver.
    - simpl. unfold Any. destruct (h_Pending h); simpl; rewrite length_app; simpl; apply negb_true_iff, Nat.eqb_neq; lia. }
  destruct (IH (noteLost acc h)) as [Hn' _]; [by intros _|]. split; [done|]. intros _. by apply noteLost_any.
Qed.

(** A walk that loses nothing has compared every zone and found every stop again. *)
Lemma editWalk_no_loss before after sub : forall acc loss,
  noted acc -> editWalk before after sub acc = Ok loss -> Any loss = false ->
  Any (fst acc) = false /\
  forall d, d ∈ sub -> exists was now, CoveringAt before [] d = Ok was /\ CoveringAt after [] d = Ok now /\ Lost was now = [].
Proof.
  induction sub as [|x sub IH]; intros acc loss Hn; cbn [editWalk].
  - intros [= <-] Ha. split; [done|]. intros d Hd. by apply not_elem_of_nil in Hd.
  - destruct (CoveringAt before [] x) as [was|] eqn:Hw; [|done]. destruct (CoveringAt after [] x) as [now|] eqn:Hnow; [|done].
    cbn [result_bind]. intros Hrun Ha. destruct (noteLost_noted (Lost was now) acc Hn) as [Hn' Hl].
    destruct (IH _ _ Hn' Hrun Ha) as [Hacc Hrest].
    assert (Hnil : Lost was now = []).
    { destruct (Lost was now) as [|h l] eqn:He; [done|]. rewrite Hl in Hacc; done. }
    split; [by rewrite Hnil in Hacc|]. intros d [->|Hd]%elem_of_cons; [|by apply Hrest]. exists was, now. done.
Qed.

Lemma Lost_nil was now h : Lost was now = [] -> h ∈ was -> Has now (h_Kind h) (h_Name h) = true.
Proof.
  intros Hl Hin. destruct (Has now (h_Kind h) (h_Name h)) eqn:He; [done|]. exfalso.
  assert (Hx : h ∈ Lost was now) by (unfold Lost; rewrite list_elem_of_In, filter_In, <- list_elem_of_In, He; done).
  rewrite Hl in Hx. by apply not_elem_of_nil in Hx.
Qed.

(** ** Coverage of one robot *)

Lemma Has_elem c h : h ∈ c -> Has c (h_Kind h) (h_Name h) = true.
Proof. intros Hh. apply Has_spec. eauto. Qed.

Lemma CoverageOf_parts t configs robot cov : CoverageOf t configs robot = Ok cov ->
  exists c1 c2, CoveringAt t [] (r_CurrentZone robot) = Ok c1 /\ CoveringAt t [] (r_Zone robot) = Ok c2 /\
  forall kind name, Has cov kind name =
    Has (ownTrigger robot false) kind name || Has c1 kind name || Has c2 kind name || Has (namespaceStops configs) kind name ||
    Has (omap (recordedHold t configs) (r_EstopHeldBy robot)) kind name.
Proof.
  unfold CoverageOf. destruct (CoveringAt t [] (r_CurrentZone robot)) as [c1|]; [|done].
  destruct (CoveringAt t [] (r_Zone robot)) as [c2|]; [|done]. cbn [result_bind]. intros [= <-]. exists c1, c2.
  split_and!; [done|done|]. intros kind name. rewrite addAll_Has, !Has_app, !orb_assoc. do 4 f_equal.
  unfold ownTrigger. by destruct (r_Annotations robot !! TriggerAnnotation).
Qed.

(** The guard covers the robot at its recorded and at its declared zone. *)
Lemma CoverageOf_zone t configs robot cov zone names n :
  CoverageOf t configs robot = Ok cov -> zone = r_CurrentZone robot \/ zone = r_Zone robot -> zone <> "" ->
  Reaching t zone Carries = Ok names -> n ∈ names -> Has cov KindZone n = true.
Proof.
  intros (c1 & c2 & H1 & H2 & Hhas)%CoverageOf_parts Hz Hne Hr Hn. rewrite Hhas.
  assert (Hat : forall c, CoveringAt t [] zone = Ok c -> Has c KindZone n = true).
  { intros c Hc. pose proof (CoveringAt_zones t zone) as Hs. rewrite Hc in Hs. destruct Hs as (names' & Hn' & ->).
    apply eqb_s_false in Hne. rewrite Hne, Hr in Hn'. injection Hn' as <-. by apply Has_zoneStops. }
  destruct Hz as [-> | ->]; [rewrite (Hat c1 H1)|rewrite (Hat c2 H2)]; rewrite orb_true_r; reflexivity.
Qed.

Lemma CoverageOf_reads t configs robot cov zone :
  CoverageOf t configs robot = Ok cov -> zone = r_CurrentZone robot \/ zone = r_Zone robot -> zone <> "" ->
  exists names, Reaching t zone Carries = Ok names.
Proof.
  intros (c1 & c2 & H1 & H2 & _)%CoverageOf_parts Hz Hne.
  pose proof (CoveringAt_zones t zone) as Hs. destruct Hz as [-> | ->]; rewrite ?H1, ?H2 in Hs; destruct Hs as (names & Hn & _);
    apply eqb_s_false in Hne; rewrite Hne in Hn; eauto.
Qed.

(** The zones Holders lists are zones the stop reaches. *)
Lemma standingZones_up t h k : forall own name, treeWf t -> h ∈ standingZones t k own name ->
  exists c, h_Kind h = KindZone /\ t !! h_Name h = Some c /\ Carries c = true /\ upTo t (h_Name h) name /\
    ((own = true /\ h_Name h = name) \/ propagatesDown c = true).
Proof.
  induction k as [|k IH]; intros own name Hwf Hin; cbn [standingZones] in Hin; [by apply not_elem_of_nil in Hin|].
  destruct (name =s "") eqn:Hn; [by apply not_elem_of_nil in Hin|]. str_bool.
  destruct (t !! name) as [z|] eqn:Hz; [|by apply not_elem_of_nil in Hin].
  apply elem_of_app in Hin as [Hin|Hin].
  - destruct (has _ _ && _) eqn:Hh; [|by apply not_elem_of_nil in Hin]. apply list_elem_of_singleton in Hin as ->. simpl.
    rewrite (proj2 Hwf _ _ Hz). str_bool. exists z. split_and!; try done.
    + unfold Carries, InForce. by rewrite H.
    + by econstructor.
    + apply orb_true_iff in H0 as [->| ->]; auto.
  - destruct (IH false _ Hwf Hin) as (c & ? & ? & ? & ? & [[? _]|?]); [done|]. exists c. split_and!; try done; [by eapply up_step|by right].
Qed.

Lemma Has_recorded t configs e hs : e ∈ hs -> is_Some (recordedHold t configs e) ->
  Has (omap (recordedHold t configs) hs) (HoldKind (eh_Kind e)) (eh_Name e) = true.
Proof.
  intros He [h Hh]. apply Has_spec. exists h. split; [apply list_elem_of_omap; eauto|].
  unfold recordedHold in Hh. repeat (case_match; simplify_eq/=; try done).
Qed.

Lemma Reaching_sound t zone stopped names n : treeWf t -> Reaching t zone stopped = Ok names -> n ∈ names ->
  exists z, t !! n = Some z /\ stopped z = true.
Proof.
  intros Hwf Hr Hn. unfold Reaching in Hr. destruct (t !! zone) as [z|] eqn:Hz; [|by simplify_eq; apply not_elem_of_nil in Hn].
  destruct (Ancestors t zone) as [l|] eqn:Ha; [|done]. simpl in Hr. injection Hr as <-.
  apply elem_of_app in Hn as [Hn|Hn].
  - destruct (stopped z) eqn:Hs; [|by apply not_elem_of_nil in Hn]. apply list_elem_of_singleton in Hn as ->.
    exists z. by rewrite (proj2 Hwf _ _ Hz).
  - apply list_elem_of_fmap in Hn as (a & -> & Hin). rewrite list_elem_of_In, filter_In, <- list_elem_of_In in Hin.
    destruct Hin as [Hin Hs]. str_bool. exists a. split; [|done].
    pose proof (Ancestors_chain t _ _ _ Hz Ha) as Hc. clear -Hc Hin Hwf.
    induction Hc as [|m Hm Hg|m p l Hm Hp Hc IH]; [by apply not_elem_of_nil in Hin|by apply not_elem_of_nil in Hin|].
    apply elem_of_cons in Hin as [->|Hin]; [by rewrite (proj2 Hwf _ _ Hp)|auto].
Qed.

(** A stop that covers the robot at a zone is one its record of that stop also counts. *)
Lemma zone_stop_recorded t configs zone c e : treeWf t -> CoveringAt t [] zone = Ok c ->
  Has c (HoldKind (eh_Kind e)) (eh_Name e) = true -> is_Some (recordedHold t configs e).
Proof.
  intros Hwf Hc Hh. pose proof (CoveringAt_zones t zone) as Hs. rewrite Hc in Hs. destruct Hs as (names & Hn & ->).
  apply Has_spec in Hh as (h & (n & -> & Hin)%list_elem_of_fmap & Hk & Hnm). destruct (zoneStop_stop t n) as [Hk' Hn'].
  rewrite Hk' in Hk. rewrite Hn' in Hnm. subst n. destruct (zone =s ""); [by simplify_eq; apply not_elem_of_nil in Hin|].
  destruct (Reaching_sound _ _ _ _ _ Hwf Hn Hin) as (z & Hz & Hst). unfold Carries in Hst.
  unfold recordedHold, carrierOf, HoldKind in *. destruct (eh_Kind e =s EstopHoldSwarmadaConfig); [done|].
  rewrite Hz. simpl. rewrite Hst. case_match; eauto.
Qed.

Lemma recorded_covers t configs b a was now e : treeWf t ->
  CoverageOf t configs b = Ok was -> CoverageOf t configs a = Ok now -> e ∈ r_EstopHeldBy a ->
  Has was (HoldKind (eh_Kind e)) (eh_Name e) = true -> (forall e, e ∈ r_EstopHeldBy b -> e ∈ r_EstopHeldBy a) ->
  Has now (HoldKind (eh_Kind e)) (eh_Name e) = true.
Proof.
  intros Hwf (b1 & b2 & Hb1 & Hb2 & Hwas)%CoverageOf_parts (a1 & a2 & _ & _ & Hnow)%CoverageOf_parts He Hh Hsub.
  rewrite Hnow. rewrite Hwas in Hh.
  repeat (apply orb_true_iff in Hh as [Hh|Hh]).
  - exfalso. unfold ownTrigger, HoldKind in Hh. destruct (r_Annotations b !! TriggerAnnotation); [|done].
    simpl in Hh. by destruct (eh_Kind e =s _).
  - rewrite (Has_recorded _ _ _ _ He (zone_stop_recorded _ configs _ _ _ Hwf Hb1 Hh)). apply orb_true_r.
  - rewrite (Has_recorded _ _ _ _ He (zone_stop_recorded _ configs _ _ _ Hwf Hb2 Hh)). apply orb_true_r.
  - rewrite Hh. by rewrite orb_true_r.
  - apply Has_spec in Hh as (h & (e0 & He0 & Hh0)%list_elem_of_omap & Hk & Hn).
    assert (Hr : Has (omap (recordedHold t configs) (r_EstopHeldBy a)) (HoldKind (eh_Kind e)) (eh_Name e) = true).
    { apply Has_spec. exists h. split_and!; [apply list_elem_of_omap; eauto|done|done]. }
    rewrite Hr. apply orb_true_r.
Qed.

Lemma recordedInForce_hold t configs e h : recordedInForce t configs e = Some h ->
  h_Kind h = HoldKind (eh_Kind e) /\ h_Name h = eh_Name e /\ is_Some (recordedHold t configs e).
Proof.
  unfold recordedInForce, recordedHold. destruct (carrierOf t configs e) as [[uid ann]|]; [|done].
  destruct (orphanedBy e _); [done|]. destruct (InForce ann); [|done]. intros [= <-]. simpl. eauto.
Qed.

Lemma recordedOrphan_hold t configs e h : recordedOrphan t configs e = Some h ->
  h_Kind h = HoldKind (eh_Kind e) /\ h_Name h = eh_Name e /\ is_Some (recordedHold t configs e).
Proof. unfold recordedOrphan, recordedHold. destruct (orphanedBy e _); [|done]. intros [= <-]. simpl. eauto. Qed.

Lemma standingConfigs_in_force configs h : h ∈ standingConfigs configs -> Has (namespaceStops configs) (h_Kind h) (h_Name h) = true.
Proof.
  intros (c & Hc & Hh)%list_elem_of_omap. destruct (sc_Annotations c !! TriggerAnnotation) as [v|] eqn:Hv; [|done].
  simpl in Hh. injection Hh as <-. simpl. apply Has_spec. eexists. split.
  - apply list_elem_of_fmap. exists c. split; [reflexivity|]. rewrite list_elem_of_In, filter_In, <- list_elem_of_In.
    split; [done|]. unfold InForce, has. by rewrite Hv.
  - done.
Qed.

(** ** Properties *)

(** C27 The zone fan-out never misses a robot: whatever the depth of the tree, and even on a cyclic one,
    a robot standing in the stopped zone, or anywhere below it when the stop propagates, is in
    scope; a chain that cannot be walked puts the robot in scope rather than out of it. *)
Theorem FanOutScope_never_misses t carrier zones toChildren i zone
  (Hwf : treeWf t)
  (Hi : zones !! i = Some zone)
  (Hbelow : upTo t carrier zone)
  (Hscope : zone = carrier \/ toChildren = true) :
  fst (FanOutScope t carrier zones toChildren) !! i = Some true.
Proof.
  unfold FanOutScope. simpl. rewrite !list_lookup_fmap, Hi. simpl. f_equal. unfold fanOutOne, Covers.
  assert (Hne : zone <> "") by by inversion Hbelow. apply eqb_s_false in Hne as Hne'. rewrite Hne'.
  destruct (zone =s carrier) eqn:Hzc; [done|]. str_bool. destruct Hscope as [ | ->]; [done|]. simpl.
  destruct (Ancestors t zone) as [l|] eqn:Ha; simpl; [|done].
  inversion Hbelow as [|n p Hn Hp Hup]; subst; [done|].
  destruct (chain_upTo t _ _ carrier (Ancestors_chain t _ _ _ Hp Ha) Hup) as (c & Hc & Hin).
  apply existsb_elem. exists c. split; [done|]. apply eqb_s_true. by apply Hwf.
Qed.

(** A site, a floor in it, a room on the floor; the site's stop is issued, the floor's is applied. *)
Definition exStopZone (name parent : string) (ann : gmap string string) (pol : option ZoneEstopPolicy) : FleetZone :=
  mkFleetZone name "ns" ("uid-" +:+ name) ann (mkFleetZoneSpec 0 [] parent pol) (mkFleetZoneStatus [] [] 0).
Definition exStopTree : list FleetZone :=
  [exStopZone "site" "" {[TriggerAnnotation := "smoke"]} None;
   exStopZone "floor" "site" {[TriggerAnnotation := "leak"; ProcessedAnnotation := "1"]} (Some (mkZoneEstopPolicy (Some false) false));
   exStopZone "room" "floor" ∅ None].
Definition exStopRobot (current declared : string) (held : list EstopHold) : Robot :=
  mkRobot "amr" "ns" "u" ∅ None declared "" RobotPhaseIdle current None [] [] held "" RobotEstopNormal [].

Lemma exStopTree_wf : treeWf (TreeOf exStopTree).
Proof. apply TreeOf_wf. intros z Hz. unfold exStopTree in Hz. set_unfold in Hz. by destruct Hz as [->|[->|[->|[]]]]. Qed.

Lemma exStopTree_room : upTo (TreeOf exStopTree) "site" "room".
Proof.
  refine (up_step _ _ "room" (exStopZone "room" "floor" ∅ None) _ _ _); [done|by vm_compute|].
  refine (up_step _ _ "floor" (exStopZone "floor" "site" _ (Some (mkZoneEstopPolicy (Some false) false))) _ _ _); [done|by vm_compute|].
  by eapply up_here; [done|vm_compute].
Qed.

Lemma FanOutScope_never_misses_witness :
  fst (FanOutScope (TreeOf exStopTree) "site" ["floor"; "room"] true) !! 1%nat = Some true.
Proof.
  apply (FanOutScope_never_misses (TreeOf exStopTree) "site" ["floor"; "room"] true 1%nat "room");
    [exact exStopTree_wf|done|exact exStopTree_room|by right].
Defined.

(** C28 The stop guard misses no zone's stop: when it answers at all, every zone that carries a stop and
    is the robot's recorded or declared zone, or an ancestor of one (at any height) whose stop
    propagates down, is among the stops it says cover the robot. *)
Theorem CoverageOf_misses_no_stop t configs robot cov zone carrier c
  (Hwf : treeWf t)
  (Hcov : CoverageOf t configs robot = Ok cov)
  (Hzone : zone = r_CurrentZone robot \/ zone = r_Zone robot)
  (Hup : upTo t carrier zone)
  (Hc : t !! carrier = Some c)
  (Hstop : Carries c = true)
  (Hreach : carrier = zone \/ propagatesDown c = true) :
  Has cov KindZone carrier = true.
Proof.
  assert (Hne : zone <> "") by by inversion Hup.
  destruct (CoverageOf_reads _ _ _ _ _ Hcov Hzone Hne) as [names Hr].
  eapply CoverageOf_zone; eauto. by eapply Reaching_complete.
Qed.

Lemma CoverageOf_misses_no_stop_witness :
  exists cov, CoverageOf (TreeOf exStopTree) [] (exStopRobot "room" "" []) = Ok cov /\ Has cov KindZone "site" = true.
Proof.
  destruct (CoverageOf (TreeOf exStopTree) [] (exStopRobot "room" "" [])) as [cov|] eqn:Hc; [|by vm_compute in Hc].
  exists cov. split; [done|].
  apply (CoverageOf_misses_no_stop (TreeOf exStopTree) [] (exStopRobot "room" "" []) cov "room" "site"
    (exStopZone "site" "" {[TriggerAnnotation := "smoke"]} None));
    [exact exStopTree_wf|exact Hc|by left|exact exStopTree_room|by vm_compute|by vm_compute|by right].
Defined.

(** The two readers of the zone tree agree: the walk that reads zone after zone from the API server
    (StopsOver from a robot's own zone) names exactly the stops the walk over the listed tree names
    (Reaching), and it is an error exactly when that walk is. *)
Theorem StopsOver_agrees_with_Reaching t zone stopped
  (Hwf : treeWf t) :
  StopsOver (Some (readFrom t)) zone true stopped =
  match Reaching t zone stopped with Ok names => Ok names | Err _ => Err (ErrChainTooDeep zone) end.
Proof.
  unfold StopsOver, Reaching, Ancestors. cbn [stopsLoop]. destruct (zone =s "") eqn:Hz.
  { str_bool. subst. by rewrite (proj1 Hwf). }
  unfold readFrom at 1. destruct (t !! zone) as [z|] eqn:Ht; [|done]. str_bool.
  pose proof (climb_stops t zone zone stopped walkCap {[zone]} (parentOf z)) as Hc.
  unfold MaxAncestors. destruct (climb t zone walkCap {[zone]} (parentOf z)) as [l|e]; cbn [result_bind]; rewrite Hc.
  - cbn [result_bind]. by rewrite andb_true_r.
  - intros s ->%elem_of_singleton. by apply leads_one.
  - done.
  - intros s ->%elem_of_singleton. by apply leads_one.
Qed.

Lemma StopsOver_agrees_with_Reaching_witness :
  StopsOver (Some (readFrom (TreeOf exStopTree))) "room" true Carries = Ok ["site"].
Proof.
  rewrite (StopsOver_agrees_with_Reaching (TreeOf exStopTree) "room" Carries exStopTree_wf). vm_compute. reflexivity.
Defined.

(** An edit the guard passes uncovers nobody: when EditUncovers names no stop, then at every zone of
    the namespace, below the edited zone or elsewhere, each zone stop that covered a robot standing
    there covers it in the edited tree too. *)
Theorem EditUncovers_sound before newZone loss d was h
  (Hedit : EditUncovers before newZone = Ok loss)
  (Hnone : Any loss = false)
  (Hwas : CoveringAt before [] d = Ok was)
  (Hin : h ∈ was) :
  exists now, CoveringAt (With before newZone) [] d = Ok now /\ Has now (h_Kind h) (h_Name h) = true.
Proof.
  unfold EditUncovers in Hedit. destruct (Subtree before (fz_Name newZone)) as [sub|] eqn:Hs; [|done]. simpl in Hedit.
  destruct (editWalk_no_loss _ _ _ (mkEditLoss [] [], ∅) _ (fun Hx => False_ind _ (Hx eq_refl)) Hedit Hnone) as [_ Hall].
  destruct (existsb (String.eqb d) sub) eqn:Hd.
  - apply existsb_elem in Hd as (x & Hx & ->%eqb_s_true). destruct (Hall x Hx) as (was' & now & Hw & Hn & Hl).
    exists now. split; [done|]. rewrite Hw in Hwas. injection Hwas as ->. exact (Lost_nil _ _ _ Hl Hin).
  - assert (Hnl : ~ linked before (fz_Name newZone) d).
    { intros Hl. rewrite existsb_false in Hd. specialize (Hd d (Subtree_complete _ _ _ _ Hs Hl)). by rewrite eqb_s_refl in Hd. }
    pose proof (CoveringAt_zones before d) as Hb. pose proof (CoveringAt_zones (With before newZone) d) as Ha.
    rewrite Hwas in Hb. destruct Hb as (names & Hn & ->). rewrite (With_Reaching _ _ _ _ Hnl) in Ha.
    apply list_elem_of_fmap in Hin as (n & -> & Hn'). destruct (zoneStop_stop before n) as [-> ->].
    destruct (CoveringAt (With before newZone) [] d) as [now|].
    + destruct Ha as (names' & Hn2 & ->). exists (zoneStop (With before newZone) <$> names'). split; [done|].
      apply Has_zoneStops. rewrite Hn in Hn2. by injection Hn2 as <-.
    + destruct Ha as [Hne Ha]. exfalso. apply eqb_s_false in Hne. rewrite Hne in Hn. by rewrite Hn in Ha.
Qed.

Lemma EditUncovers_sound_witness :
  exists now, CoveringAt (With (TreeOf exStopTree) (exStopZone "room" "site" ∅ None)) [] "room" = Ok now /\
    Has now KindZone "site" = true.
Proof.
  refine (EditUncovers_sound (TreeOf exStopTree) (exStopZone "room" "site" ∅ None) (mkEditLoss [] []) "room"
    [zoneStop (TreeOf exStopTree) "site"] (zoneStop (TreeOf exStopTree) "site") _ _ _ _);
    [vm_compute; reflexivity|reflexivity|vm_compute; reflexivity|by left].
Defined.

(** A recorded hold is never lost by a move: when the robot keeps its records, no stop that MoveLoses
    names has the kind and name of a record the robot carries. *)
Theorem MoveLoses_keeps_recorded t configs before after lost l e
  (Hwf : treeWf t)
  (Hmove : MoveLoses t configs before after = Ok lost)
  (Hkeep : forall e, e ∈ r_EstopHeldBy before -> e ∈ r_EstopHeldBy after)
  (Hlost : l ∈ lost)
  (Hrecord : e ∈ r_EstopHeldBy after) :
  ~ (h_Kind l = HoldKind (eh_Kind e) /\ h_Name l = eh_Name e).
Proof.
  intros [Hk Hn]. unfold MoveLoses in Hmove.
  destruct (CoverageOf t configs before) as [was1|] eqn:Hw1; [|done].
  destruct (CoverageOf t configs after) as [now1|] eqn:Hn1; [|done].
  destruct (FanOutCoverageOf t configs before) as [was2|] eqn:Hw2; [|done].
  destruct (FanOutCoverageOf t configs after) as [now2|] eqn:Hn2; [|done]. cbn [result_bind] in Hmove. injection Hmove as <-.
  assert (Hgo : forall b a was now, CoverageOf t configs b = Ok was -> CoverageOf t configs a = Ok now ->
    r_EstopHeldBy b = r_EstopHeldBy before -> r_EstopHeldBy a = r_EstopHeldBy after -> l ∈ Lost was now -> False).
  { intros b a was now Hb Ha Hrb Hra Hl. unfold Lost in Hl. rewrite list_elem_of_In, filter_In, <- list_elem_of_In in Hl.
    destruct Hl as [Hl Hnot]. apply negb_true_iff in Hnot.
    pose proof (recorded_covers t configs b a was now e Hwf Hb Ha) as Hc. rewrite Hra, Hrb, <- Hk, <- Hn in Hc.
    specialize (Hc Hrecord (Has_elem _ _ Hl) Hkeep). congruence. }
  apply addAll_elem in Hlost. simpl in Hlost. apply elem_of_app in Hlost as [Hl|Hl]; [exact (Hgo _ _ _ _ Hw1 Hn1 eq_refl eq_refl Hl)|].
  assert (Hz : forall r, r_EstopHeldBy (if r_CurrentZone r <>s "" then withZone r (r_CurrentZone r) else r) = r_EstopHeldBy r)
    by (intros r; by destruct (r_CurrentZone r =s "")).
  exact (Hgo _ _ _ _ Hw2 Hn2 (Hz before) (Hz after) Hl).
Qed.

(** A robot in the room that records the floor's stop moves to a zone outside the site. *)
Definition exFloorHold : EstopHold := mkEstopHold EstopHoldFleetZone "floor" "uid-floor" 5.

Lemma MoveLoses_keeps_recorded_witness :
  exists lost, MoveLoses (TreeOf exStopTree) [] (exStopRobot "room" "" [exFloorHold]) (exStopRobot "yard" "" [exFloorHold]) = Ok lost /\
    map h_Name lost = ["site"] /\ forall l, l ∈ lost -> ~ (h_Kind l = KindZone /\ h_Name l = "floor").
Proof.
  destruct (MoveLoses _ _ _ _) as [lost|] eqn:Hm; [|by vm_compute in Hm]. exists lost.
  split_and!; [done|by vm_compute in Hm; injection Hm as <-|]. intros l Hl.
  refine (MoveLoses_keeps_recorded (TreeOf exStopTree) [] (exStopRobot "room" "" [exFloorHold])
    (exStopRobot "yard" "" [exFloorHold]) lost l exFloorHold exStopTree_wf Hm _ Hl _); [done|by left].
Defined.

(** The guard is never laxer than the answer the clears act on: when the guard answers, every stop
    Holders lists (the robot's own trigger, a recorded hold in force or orphaned, a standing zone or
    namespace stop) is among the stops the guard says cover the robot. *)
Theorem Holders_within_CoverageOf zones configs robot cov h
  (Hnames : forall z, z ∈ zones -> fz_Name z <> "")
  (Hcov : CoverageOf (TreeOf zones) configs robot = Ok cov)
  (Hin : h ∈ Holders robot zones configs) :
  Has cov (h_Kind h) (h_Name h) = true.
Proof.
  pose proof (TreeOf_wf zones Hnames) as Hwf. set (t := TreeOf zones) in *.
  assert (Hrec : forall e, e ∈ r_EstopHeldBy robot -> is_Some (recordedHold t configs e) ->
    Has cov (HoldKind (eh_Kind e)) (eh_Name e) = true).
  { intros e He Hs. destruct (CoverageOf_parts _ _ _ _ Hcov) as (c1 & c2 & _ & _ & ->).
    by rewrite (Has_recorded _ _ _ _ He Hs), orb_true_r. }
  unfold Holders in Hin. fold t in Hin. apply addAll_elem in Hin. rewrite app_nil_l, !elem_of_app in Hin.
  destruct Hin as [Hin|[Hin|[Hin|[Hin|Hin]]]].
  - destruct (CoverageOf_parts _ _ _ _ Hcov) as (c1 & c2 & _ & _ & ->). by rewrite (Has_elem _ _ Hin).
  - apply list_elem_of_omap in Hin as (e & He & Hh). destruct (recordedInForce_hold _ _ _ _ Hh) as (-> & -> & Hs). by apply Hrec.
  - destruct (standingZones_up t h _ _ _ Hwf Hin) as (c & -> & Hc & Hcar & Hup & Hprop).
    assert (Hzone : zoneOf robot = r_CurrentZone robot \/ zoneOf robot = r_Zone robot) by (unfold zoneOf; case_match; auto).
    assert (Hne : zoneOf robot <> "") by by inversion Hup.
    destruct (CoverageOf_reads _ _ _ _ _ Hcov Hzone Hne) as [names Hr].
    eapply CoverageOf_zone; eauto. eapply Reaching_complete; eauto. destruct Hprop as [[_ ->]|?]; auto.
  - destruct (CoverageOf_parts _ _ _ _ Hcov) as (c1 & c2 & _ & _ & ->).
    assert (Hns : Has (namespaceStops configs) (h_Kind h) (h_Name h) = true) by by apply standingConfigs_in_force.
    by rewrite Hns, orb_true_r.
  - apply list_elem_of_omap in Hin as (e & He & Hh). destruct (recordedOrphan_hold _ _ _ _ Hh) as (-> & -> & Hs). by apply Hrec.
Qed.

Lemma Holders_within_CoverageOf_witness :
  exists cov, CoverageOf (TreeOf exStopTree) [] (exStopRobot "yard" "room" [exFloorHold]) = Ok cov /\
    Has cov KindZone "floor" = true.
Proof.
  destruct (CoverageOf (TreeOf exStopTree) [] (exStopRobot "yard" "room" [exFloorHold])) as [cov|] eqn:Hc; [|by vm_compute in Hc].
  exists cov. split; [done|].
  refine (Holders_within_CoverageOf exStopTree [] (exStopRobot "yard" "room" [exFloorHold]) cov
    (mkHolder KindZone "floor" "leak" true false false false) _ Hc _).
  - intros z Hz. unfold exStopTree in Hz. set_unfold in Hz. by destruct Hz as [-> | [-> | [-> | []]]].
  - vm_compute. by left.
Defined.
