(* ===== verification/Command.v ===== *)
(** src/internal/command, its data: the Commands and results on an adapter's ControlStream, the
    conversions between the control plane's numbers and the wire's (fencing.go), and what each push
    makes of a result (action.go, dispatcher.go, zoneconstraints.go). Dispatch has the sending. *)

From S2P Require Import Prelude.
From S2P Require Import Types.

(** ** Numbers (fencing.go) *)

Definition FencingToken (generation : Z) : Z := if generation <? 0 then 0 else generation.

Definition GenerationFromToken (token : Z) : Z * bool := if MaxInt64 <? token then (0, false) else (token, true).

(** [d.Milliseconds()] truncates towards zero. *)
Definition LeaseDurationMs (d : Duration) : Z :=
  let ms := Z.quot d Millisecond in
  if ms <? 0 then 0 else if MaxUint32 <? ms then MaxUint32 else ms.

(** ** Commands *)

(** A rule as the wire carries it; this package passes it through. *)
Record EffectiveOperatingConstraint := mkConstraint {
  eoc_Subject : string;
  eoc_Mode : Z;
  eoc_Max : string;
  eoc_Allowed : list string;
  eoc_Reason : string;
  eoc_DeclaringZone : string
}.

(** What the caller of PushAssignAction gives. *)
Record AssignAction := mkAssignAction {
  aa_ActionID : string;
  aa_ActionType : string;
  aa_CustomType : string;
  aa_FencingToken : Z;
  aa_LeaseGeneration : Z;
  aa_LeaseDurationMs : Z;
  aa_Priority : Z;
  aa_DeadlineMs : Z;
  aa_Payload : string;
  aa_OperatingConstraints : list EffectiveOperatingConstraint
}.

(** The wire's AssignAction; an absent field is [None]. *)
Record AssignActionMsg := mkAssignActionMsg {
  am_ActionId : string;
  am_ActionType : string;
  am_CustomType : string;
  am_PayloadJson : string;
  am_FencingToken : option Z;
  am_LeaseGeneration : option Z;
  am_LeaseDurationMs : Z;
  am_Priority : Z;
  am_OperatingConstraints : list EffectiveOperatingConstraint;
  am_DeadlineMs : option Z
}.

Definition assignMsg (a : AssignAction) : AssignActionMsg :=
  mkAssignActionMsg (aa_ActionID a) (aa_ActionType a) (aa_CustomType a) (aa_Payload a) (Some (aa_FencingToken a))
    (Some (aa_LeaseGeneration a)) (aa_LeaseDurationMs a) (aa_Priority a) (aa_OperatingConstraints a)
    (if negb (aa_DeadlineMs a =? 0) then Some (aa_DeadlineMs a) else None).

Inductive CancelCause :=
| CancelCauseUnspecified | CancelCauseOperator | CancelCauseSuperseded | CancelCauseCapabilityLoss
| CancelCauseRevocation.

(** The wire's enum. *)
Definition wireCause (c : CancelCause) : Z :=
  match c with
  | CancelCauseOperator => 1
  | CancelCauseSuperseded => 2
  | CancelCauseCapabilityLoss => 3
  | CancelCauseRevocation => 4
  | CancelCauseUnspecified => 0
  end.

Record Estop := mkEstop { es_EstopId : string; es_Reason : string; es_IssuedBy : string; es_IssuedAtMs : Z }.

Record ModelUpdate := mkModelUpdate {
  mu_ModelName : string;
  mu_OldVersion : string;
  mu_NewVersion : string;
  mu_ModelURI : string;
  mu_ModelChecksum : string;
  mu_ModelSignatureRef : string;
  mu_Rollback : bool
}.

Record ZoneConstraints := mkZoneConstraints {
  zc_ContainingZones : list string;
  zc_OperatingConstraints : list EffectiveOperatingConstraint;
  zc_UnresolvedZones : list string
}.

(** The oneof of a Command: the arms this package sends. *)
Inductive CommandArm :=
| CAssignAction (a : AssignActionMsg)
| CCancelAction (actionId reason : string) (fencingToken : option Z) (cause : Z)
| CEstop (e : Estop)
| CVerifyHardware (component : string) (expected : gmap string float64)
| CVerifyCapability (capability : string) (expected : gmap string float64)
| CVerifyModel (model : string) (syntheticInput : string) (expected : gmap string float64)
| CModelUpdate (u : ModelUpdate)
| CReservationGranted (resource : string)
| CZoneAdmission (zone : string) (admits : bool)
| CRenewLease (actionId : string) (leaseGeneration leaseDurationMs : Z)
| CValidateAction (actionType payloadJson customType : string)
| CZoneConstraints (c : ZoneConstraints).

Record Command := mkCommand { c_CommandId : Z; c_RobotId : string; c_LeaderTerm : Z; c_Command : CommandArm }.

(** A Command before it is addressed and stamped. *)
Definition bare (arm : CommandArm) : Command := mkCommand 0 "" 0 arm.
Definition addressed (cmd : Command) (robotId : string) (id : Z) : Command :=
  mkCommand id robotId (c_LeaderTerm cmd) (c_Command cmd).
Definition stamped (cmd : Command) (term : Z) : Command :=
  mkCommand (c_CommandId cmd) (c_RobotId cmd) term (c_Command cmd).

(** A message down a ControlStream. *)
Inductive ControlPlaneMessage :=
| MCommand (cmd : Command)
| MHeartbeat (robotId : string) (sentAtMs : Z).

(** ** Results *)

(** The oneof of a CommandResult: the arms this package reads. A rejection is named by its enum's
    String(). *)
Inductive ResultArm :=
| RAssignAction (accepted : bool) (message rejection : string) (acceptedFencingToken : Z) (unhonourable : list string)
| RCancelAction (acknowledged : bool) (message : string) (stale : bool) (disposition : Z)
| RVerify (status : Z) (actual : gmap string float64) (message : string)
| RModelUpdate (acknowledged : bool) (message verifiedSigner : string)
| RReservationGranted (acknowledged : bool)
| RZoneAdmission (acknowledged : bool)
| RRenewLease (renewed running : bool) (currentGeneration : Z) (message : string)
| RValidateAction (servable : bool) (message : string)
| RZoneConstraints (acknowledged : bool) (unhonourable : list string) (message : string)
| ROther.

Record CommandResult := mkCommandResult {
  cr_CommandId : Z;
  cr_RobotId : string;
  cr_Unsupported : bool;
  cr_StaleLeaderTerm : bool;
  cr_Result : option ResultArm
}.

(** The errors of the package. ErrStaleLeaderTerm wraps ErrUnreachable ([unreachable] below). *)
Inductive cmdError :=
| ErrUnreachable
| ErrStaleLeaderTerm
| ErrHeldByStop (stops : list string)
| ErrNotRegistered
| ErrBelowLatchContract
| ErrWithheldByStop
| ErrReread
| ErrNotWithheld
| ErrRobotLookup
| ErrNoRobot
| ErrMisroutedResult
| ErrUnknownProbe
| ErrContext
| ErrAttemptsSpent.

#[global] Instance cmdError_eq_dec : EqDecision cmdError.
Proof. solve_decision. Defined.

(** [errors.Is(err, ErrUnreachable)]. *)
Definition unreachable (e : cmdError) : bool :=
  match e with ErrUnreachable | ErrStaleLeaderTerm => true | _ => false end.

(** ** Binding a result *)

Record AssignActionOutcome := mkAssignActionOutcome {
  ao_Accepted : bool;
  ao_Rejection : string;
  ao_AcceptedFencingToken : Z;
  ao_Message : string;
  ao_UnhonourableSubjects : list string
}.

Definition bindAssign (res : CommandResult) : result cmdError AssignActionOutcome :=
  if cr_Unsupported res then Err ErrUnreachable
  else match cr_Result res with
       | Some (RAssignAction accepted message rejection token subjects) =>
           Ok (mkAssignActionOutcome accepted (if accepted then "" else rejection) token message
                 (if accepted then [] else subjects))
       | _ => Err ErrUnreachable
       end.

Record RenewLeaseOutcome := mkRenewLeaseOutcome {
  ro_Renewed : bool;
  ro_Running : bool;
  ro_CurrentGeneration : Z;
  ro_Message : string
}.

Definition bindRenew (res : CommandResult) : result cmdError RenewLeaseOutcome :=
  if cr_Unsupported res then Err ErrUnreachable
  else match cr_Result res with
       | Some (RRenewLease renewed running generation message) =>
           Ok (mkRenewLeaseOutcome renewed running generation message)
       | _ => Err ErrUnreachable
       end.

Inductive CancelDisposition := CancelStoppedSafely | CancelCompleted | CancelRecovered | CancelStopUnconfirmed.

Definition cancelDispositionOf (d : Z) : CancelDisposition :=
  if d =? 2 then CancelCompleted else if d =? 3 then CancelRecovered else if d =? 4 then CancelStopUnconfirmed
  else CancelStoppedSafely.

Record CancelActionOutcome := mkCancelActionOutcome {
  co_Acknowledged : bool;
  co_Stale : bool;
  co_Message : string;
  co_Disposition : CancelDisposition
}.

Definition bindCancel (res : CommandResult) : result cmdError CancelActionOutcome :=
  if cr_Unsupported res then Err ErrUnreachable
  else match cr_Result res with
       | Some (RCancelAction acknowledged message stale disposition) =>
           Ok (mkCancelActionOutcome acknowledged stale message (cancelDispositionOf disposition))
       | _ => Err ErrUnreachable
       end.

Record ModelUpdateOutcome := mkModelUpdateOutcome {
  mo_Acknowledged : bool;
  mo_VerifiedSigner : string;
  mo_Message : string
}.

Definition bindModelUpdate (res : CommandResult) : result cmdError ModelUpdateOutcome :=
  if cr_Unsupported res then Err ErrUnreachable
  else match cr_Result res with
       | Some (RModelUpdate acknowledged message signer) => Ok (mkModelUpdateOutcome acknowledged signer message)
       | _ => Err ErrUnreachable
       end.

Record ValidateOutcome := mkValidateOutcome { vo_Servable : bool; vo_Unsupported : bool; vo_Message : string }.

Definition bindValidate (res : CommandResult) : result cmdError ValidateOutcome :=
  if cr_Unsupported res then Ok (mkValidateOutcome false true "adapter does not implement validate_action")
  else match cr_Result res with
       | Some (RValidateAction servable message) => Ok (mkValidateOutcome servable false message)
       | _ => Err ErrUnreachable
       end.

Record ZoneConstraintsOutcome := mkZoneConstraintsOutcome {
  zo_Acknowledged : bool;
  zo_UnhonourableSubjects : list string;
  zo_Message : string;
  zo_Unsupported : bool
}.

Definition bindZoneConstraints (res : CommandResult) : ZoneConstraintsOutcome :=
  if cr_Unsupported res then mkZoneConstraintsOutcome false [] "" true
  else match cr_Result res with
       | Some (RZoneConstraints acknowledged subjects message) =>
           mkZoneConstraintsOutcome acknowledged subjects message false
       | _ => mkZoneConstraintsOutcome false [] "" false
       end.

(** ** Probes (internal/probe/prober.go and the verify commands) *)

Definition ProbeType : Type := string.
Definition ProbeTypeHardware : ProbeType := "hardware".
Definition ProbeTypeCapability : ProbeType := "capability".
Definition ProbeTypeModel : ProbeType := "model".

Record VerifyRequest := mkVerifyRequest {
  vr_ProbeType : ProbeType;
  vr_Target : string;
  vr_Expected : gmap string float64;
  vr_SyntheticInput : string
}.

Inductive ProbeStatus := StatusHealthy | StatusDegraded | StatusFailed | StatusUnknown.

Definition BindProbeStatus (s : Z) : ProbeStatus :=
  if s =? 1 then StatusHealthy else if s =? 2 then StatusDegraded else if s =? 3 then StatusFailed else StatusUnknown.

Record ProbeResult := mkProbeResult {
  pr_Status : option ProbeStatus;                (* [None] is the empty status *)
  pr_ActualMetrics : gmap string float64;
  pr_Message : string;
  pr_Unsupported : bool
}.

Definition buildVerifyCommand (req : VerifyRequest) : result cmdError Command :=
  if vr_ProbeType req =s ProbeTypeHardware then Ok (bare (CVerifyHardware (vr_Target req) (vr_Expected req)))
  else if vr_ProbeType req =s ProbeTypeCapability then Ok (bare (CVerifyCapability (vr_Target req) (vr_Expected req)))
  else if vr_ProbeType req =s ProbeTypeModel then
    Ok (bare (CVerifyModel (vr_Target req) (vr_SyntheticInput req) (vr_Expected req)))
  else Err ErrUnknownProbe.

(** copyMetrics copies the map, so the result is the map itself. *)
Definition bindResult (res : CommandResult) : result cmdError ProbeResult :=
  if cr_Unsupported res then Ok (mkProbeResult None ∅ "adapter declined the probe" true)
  else match cr_Result res with
       | Some (RVerify status actual message) => Ok (mkProbeResult (Some (BindProbeStatus status)) actual message false)
       | _ => Err ErrUnreachable
       end.

(** ** Properties of the numbers *)

(** A generation's token is on the wire's range, orders as the generation does, and reads back. *)
Lemma FencingToken_roundtrip g : 0 <= g <= MaxInt64 -> GenerationFromToken (FencingToken g) = (g, true).
Proof.
  intros H. unfold FencingToken, GenerationFromToken. destruct (g <? 0) eqn:E; z_bool; [lia|].
  by rewrite (proj2 (Z.ltb_ge _ _)) by lia.
Qed.

Lemma FencingToken_range g : MinInt64 <= g <= MaxInt64 -> 0 <= FencingToken g <= MaxUint64.
Proof. unfold FencingToken. change MaxInt64 with 9223372036854775807. change MaxUint64 with 18446744073709551615. destruct (Z.ltb_spec g 0); lia. Qed.

Lemma FencingToken_mono g h : g <= h -> FencingToken g <= FencingToken h.
Proof. unfold FencingToken. destruct (Z.ltb_spec g 0), (Z.ltb_spec h 0); lia. Qed.

Lemma LeaseDurationMs_range d : 0 <= LeaseDurationMs d <= MaxUint32.
Proof.
  unfold LeaseDurationMs, MaxUint32.
  destruct (Z.ltb_spec (Z.quot d Millisecond) 0); [lia|]. destruct (Z.ltb_spec (2 ^ 32 - 1) (Z.quot d Millisecond)); lia.
Qed.

(** The lease on the wire is never longer than the lease granted. *)
Lemma LeaseDurationMs_within d : 0 <= d -> LeaseDurationMs d * Millisecond <= d.
Proof.
  intros Hd. unfold LeaseDurationMs, Millisecond. rewrite Z.quot_div_nonneg by lia.
  pose proof (Z.mul_div_le d 1000000 ltac:(lia)). pose proof (Z.div_pos d 1000000 Hd ltac:(lia)).
  set (q := d / 1000000) in *. destruct (Z.ltb_spec q 0), (Z.ltb_spec MaxUint32 q); lia.
Qed.
