(* ===== verification/Dispatch.v ===== *)
(** src/internal/command, its sending: the Dispatcher's state, one function per section its mutexes
    guard, and every operation as a program (Conc) over those sections, the robots' send locks, the API
    server, the clock, the leader term and the ControlStreams. [schedule] runs any calls in any
    interleaving. DispatchProps has the theorems. *)

From S2P Require Import Prelude.
From S2P Require Import Types.
From S2P Require Import Contract.
From S2P Require Import RobotId.
From S2P Require Import Conc.
From S2P Require Import EstopScope.
From S2P Require Import Command.

(** ** State *)

(** A CommandSender, which Go compares by identity. *)
Definition Sender : Type := nat.

(** A Command that lets a robot move on, withheld while a stop holds it. *)
Record motion := mkMotion { m_zone : string; m_resource : string; m_robotID : string }.

Definition motionKey (m : motion) : string :=
  if m_zone m <>s "" then "zone/" +:+ m_zone m else "resource/" +:+ m_resource m.

Record fenceState := mkFence {
  f_held : gmap string (gset string);            (* robot key -> the stop IDs in force *)
  f_ready : gmap Sender (gset string);           (* stream -> robot_ids registered and fenced *)
  f_registered : gmap Sender (gset string);
  f_gen : gmap string Z;                         (* robot key -> stops added so far, a uint64 *)
  f_contract : gmap Sender string;
  f_withheld : gmap string (gmap string motion)
}.

(** A pushed Command awaiting its result; a channel is named by the number of its creation. *)
Record pendingCommand := mkPending { pc_sender : Sender; pc_robotID : string; pc_ch : nat }.

(** The pending commands, and apart from them the channels their waiters hold. *)
Record Dispatcher := mkDispatcher {
  d_streams : gmap string Sender;
  d_pending : gmap Z pendingCommand;
  d_chans : gmap nat (list CommandResult);
  d_chanNext : nat;
  d_idCounter : Z;
  d_beats : gmap string nat;
  d_beatChans : gmap nat bool;                   (* heartbeat channel -> it holds an answer *)
  d_beatNext : nat;
  d_fence : fenceState
}.

Definition newDispatcher : Dispatcher := mkDispatcher ∅ ∅ ∅ 0 0 ∅ ∅ 0 (mkFence ∅ ∅ ∅ ∅ ∅ ∅).

(** What the manager sets once, before any stream is registered. *)
Record Config := mkConfig {
  g_RequireRegister : bool;
  g_RequireContract : bool;
  g_Term : bool;                                 (* Term is set *)
  g_APIReader : bool                             (* APIReader is set *)
}.

Definition setFence (d : Dispatcher) (f : fenceState) : Dispatcher :=
  mkDispatcher (d_streams d) (d_pending d) (d_chans d) (d_chanNext d) (d_idCounter d) (d_beats d) (d_beatChans d) (d_beatNext d) f.

Definition robotKey (namespace name uid : string) : string := namespace +:+ "/" +:+ name +:+ "/" +:+ uid.
Definition keyOf (r : Robot) : string := robotKey (r_Namespace r) (r_Name r) (r_UID r).
Definition adapterKey (namespace adapter : string) : string := namespace +:+ "/" +:+ adapter.

(** ** The sections under the Dispatcher's own mutexes *)

Definition heldOn (d : Dispatcher) (key : string) : gset string := default ∅ (f_held (d_fence d) !! key).

Definition heldStops (d : Dispatcher) (key : string) : list string := sort_Strings (elements (heldOn d key)).

Definition stopGen (d : Dispatcher) (key : string) : Z := default 0 (f_gen (d_fence d) !! key).

Definition addHeld (d : Dispatcher) (key stopID : string) : Dispatcher :=
  let f := d_fence d in
  setFence d (mkFence (<[key := {[stopID]} ∪ heldOn d key]> (f_held f)) (f_ready f) (f_registered f)
    (<[key := (stopGen d key + 1) mod 2 ^ 64]> (f_gen f)) (f_contract f) (f_withheld f)).

Definition namedPrefix (namespace robot : string) : string := namespace +:+ "/" +:+ robot +:+ "/".

Definition clearHeld (d : Dispatcher) (namespace robot : string) : Dispatcher :=
  let f := d_fence d in
  setFence d (mkFence (filter (fun kv => String.prefix (namedPrefix namespace robot) kv.1 = false) (f_held f)) (f_ready f)
    (f_registered f) (f_gen f) (f_contract f) (f_withheld f)).

Definition heldStopsNamed (d : Dispatcher) (namespace robot : string) : list string :=
  sort_Strings (mjoin ((fun kv => elements kv.2) <$>
    map_to_list (filter (fun kv => String.prefix (namedPrefix namespace robot) kv.1 = true) (f_held (d_fence d))))).

Definition isReady (d : Dispatcher) (s : Sender) (wireID : string) : bool :=
  bool_decide (wireID ∈ default ∅ (f_ready (d_fence d) !! s)).

Definition markReady (d : Dispatcher) (s : Sender) (wireID : string) : Dispatcher :=
  let f := d_fence d in
  setFence d (mkFence (f_held f) (<[s := {[wireID]} ∪ default ∅ (f_ready f !! s)]> (f_ready f)) (f_registered f) (f_gen f)
    (f_contract f) (f_withheld f)).

Definition isRegistered (d : Dispatcher) (s : Sender) (wireID : string) : bool :=
  bool_decide (wireID ∈ default ∅ (f_registered (d_fence d) !! s)).

Definition markRegistered (d : Dispatcher) (s : Sender) (wireID : string) : Dispatcher :=
  let f := d_fence d in
  setFence d (mkFence (f_held f) (f_ready f) (<[s := {[wireID]} ∪ default ∅ (f_registered f !! s)]> (f_registered f))
    (f_gen f) (f_contract f) (f_withheld f)).

Definition setContract (d : Dispatcher) (s : Sender) (version : string) : Dispatcher :=
  let f := d_fence d in
  setFence d (mkFence (f_held f) (f_ready f) (f_registered f) (f_gen f) (<[s := version]> (f_contract f)) (f_withheld f)).

Definition forgetStream (d : Dispatcher) (s : Sender) : Dispatcher :=
  let f := d_fence d in
  setFence d (mkFence (f_held f) (delete s (f_ready f)) (delete s (f_registered f)) (f_gen f) (delete s (f_contract f))
    (f_withheld f)).

Definition withheldOn (d : Dispatcher) (key : string) : gmap string motion := default ∅ (f_withheld (d_fence d) !! key).

Definition withhold (d : Dispatcher) (key : string) (m : motion) : Dispatcher :=
  let f := d_fence d in
  setFence d (mkFence (f_held f) (f_ready f) (f_registered f) (f_gen f) (f_contract f)
    (<[key := <[motionKey m := m]> (withheldOn d key)]> (f_withheld f))).

Definition takeWithheld (d : Dispatcher) (key : string) (m : motion) : bool * Dispatcher :=
  let f := d_fence d in
  match withheldOn d key !! motionKey m with
  | None => (false, d)
  | Some _ =>
      (true, setFence d (mkFence (f_held f) (f_ready f) (f_registered f) (f_gen f) (f_contract f)
               (<[key := delete (motionKey m) (withheldOn d key)]> (f_withheld f))))
  end.

(** RobotReleased's read: the withheld motions under the robot's name whatever the UID, and the key the
    range over the map ended on ([pick] of the keys that match). *)
Definition withheldNamed (d : Dispatcher) (namespace robot : string) (pick : nat) : string * list motion :=
  let ms := map_to_list (filter (fun kv => String.prefix (namedPrefix namespace robot) kv.1 = true) (f_withheld (d_fence d))) in
  (default "" (fst <$> (ms !! pick)), mjoin ((fun kv => snd <$> map_to_list kv.2) <$> ms)).

Definition putStream (d : Dispatcher) (key : string) (s : Sender) : Dispatcher :=
  mkDispatcher (<[key := s]> (d_streams d)) (d_pending d) (d_chans d) (d_chanNext d) (d_idCounter d) (d_beats d) (d_beatChans d)
    (d_beatNext d) (d_fence d).

Definition dropStream (d : Dispatcher) (key : string) (s : Sender) : Dispatcher :=
  if bool_decide (d_streams d !! key = Some s) then
    mkDispatcher (delete key (d_streams d)) (d_pending d) (d_chans d) (d_chanNext d) (d_idCounter d) (d_beats d) (d_beatChans d)
      (d_beatNext d) (d_fence d)
  else d.

Definition streamLive (d : Dispatcher) (s : Sender) : bool :=
  existsb (fun kv => Nat.eqb kv.2 s) (map_to_list (d_streams d)).

Definition register (d : Dispatcher) (s : Sender) (robotID : string) : Z * nat * Dispatcher :=
  let id := (d_idCounter d + 1) mod 2 ^ 64 in
  let ch := d_chanNext d in
  (id, ch, mkDispatcher (d_streams d) (<[id := mkPending s robotID ch]> (d_pending d)) (<[ch := []]> (d_chans d)) (S ch) id
             (d_beats d) (d_beatChans d) (d_beatNext d) (d_fence d)).

Definition deregister (d : Dispatcher) (id : Z) : Dispatcher :=
  mkDispatcher (d_streams d) (delete id (d_pending d)) (d_chans d) (d_chanNext d) (d_idCounter d) (d_beats d) (d_beatChans d)
    (d_beatNext d) (d_fence d).

Definition setChan (d : Dispatcher) (ch : nat) (q : list CommandResult) : Dispatcher :=
  mkDispatcher (d_streams d) (d_pending d) (<[ch := q]> (d_chans d)) (d_chanNext d) (d_idCounter d) (d_beats d) (d_beatChans d)
    (d_beatNext d) (d_fence d).

(** A send on a result channel: its buffer is four long, and a full one drops the result. *)
Definition chanPut (d : Dispatcher) (ch : nat) (res : CommandResult) : Dispatcher :=
  let q := default [] (d_chans d !! ch) in
  if (length q <? 4)%nat then setChan d ch (q ++ [res]) else d.

Definition setBeats (d : Dispatcher) (beats : gmap string nat) (chans : gmap nat bool) (next : nat) : Dispatcher :=
  mkDispatcher (d_streams d) (d_pending d) (d_chans d) (d_chanNext d) (d_idCounter d) beats chans next (d_fence d).

Definition openBeat (d : Dispatcher) (key : string) : nat * Dispatcher :=
  (d_beatNext d,
   setBeats d (<[key := d_beatNext d]> (d_beats d)) (<[d_beatNext d := false]> (d_beatChans d)) (S (d_beatNext d))).

Definition closeBeat (d : Dispatcher) (key : string) (ch : nat) : Dispatcher :=
  if bool_decide (d_beats d !! key = Some ch) then setBeats d (delete key (d_beats d)) (d_beatChans d) (d_beatNext d) else d.

Definition putBeat (d : Dispatcher) (ch : nat) : Dispatcher :=
  setBeats d (d_beats d) (<[ch := true]> (d_beatChans d)) (d_beatNext d).

(** ** Events *)

Inductive waitOutcome := Received (res : CommandResult) | TimedOut | CtxDone.
Inductive beatOutcome := Beat | BeatTimedOut | BeatCtxDone.

(** One access to the Dispatcher's state under its mutex, or to the world outside: the API server
    (through the cache, or past it when [live]), the leader term, the clock, a stream, a wait. *)
Inductive Ev :=
| EHeldStops (key : string)
| EAddHeld (key stopID : string)
| EStopGen (key : string)
| EClearHeld (namespace robot : string)
| EHeldNamed (namespace robot : string)
| EMarkReady (s : Sender) (wireID : string)
| EIsReady (s : Sender) (wireID : string)
| EMarkRegistered (s : Sender) (wireID : string)
| EIsRegistered (s : Sender) (wireID : string)
| EStreamLive (s : Sender)
| ESetContract (s : Sender) (version : string)
| EContract (s : Sender)
| EForgetStream (s : Sender)
| EWithhold (key : string) (m : motion)
| ETakeWithheld (key : string) (m : motion)
| EWithheldNamed (namespace robot : string)
| EStream (key : string)
| EPutStream (key : string) (s : Sender)
| EDropStream (key : string) (s : Sender)
| ERegister (s : Sender) (robotID : string)
| EDeregister (id : Z)
| EPending (id : Z)
| EChanPut (ch : nat) (res : CommandResult)
| EWait (ch : nat)
| EOpenBeat (key : string)
| ECloseBeat (key : string) (ch : nat)
| EBeatChan (key : string)
| EPutBeat (ch : nat)
| EWaitBeat (ch : nat)
| EArrives (s : Sender) (res : CommandResult)
| EGetRobot (live : bool) (namespace name : string)
| EListRobots (live : bool) (namespace : string)
| EListZones (namespace : string)
| EGetAdapter (namespace name : string)
| ETerm
| EClock
| ETimer (period : Duration)
| ESend (s : Sender) (msg : ControlPlaneMessage).

Definition resp (e : Ev) : Type :=
  match e with
  | EHeldStops _ | EHeldNamed _ _ => list string
  | EStopGen _ | EClock => Z
  | EIsReady _ _ | EIsRegistered _ _ | EStreamLive _ | ETakeWithheld _ _ | ESend _ _ => bool
  | EContract _ => option string
  | EWithheldNamed _ _ => string * list motion
  | EStream _ => option Sender
  | ERegister _ _ => Z * nat
  | EPending _ => option pendingCommand
  | EWait _ => waitOutcome
  | EOpenBeat _ => nat
  | EBeatChan _ => option nat
  | EWaitBeat _ => beatOutcome
  | EGetRobot _ _ _ => option Robot
  | EListRobots _ _ => option (list Robot)
  | EListZones _ => option (list FleetZone)
  | EGetAdapter _ _ => option Z
  | ETerm => Z * bool
  | _ => unit
  end.

(** What the world outside may answer at a step. *)
Record Input := mkInput {
  x_robot : option Robot;                        (* [None]: the read failed *)
  x_robots : option (list Robot);
  x_zones : option (list FleetZone);
  x_interval : option Z;                         (* the FleetAdapter's heartbeatIntervalSeconds *)
  x_term : Z * bool;
  x_now : Z;
  x_sent : bool;
  x_give_up : option bool;                       (* a wait ends: [Some true] its context is done *)
  x_pick : nat
}.

(** Everything that has happened, the latest first: the thread, the event and its answer. *)
Record Entry := mkEntry { en_tid : nat; en_event : Ev; en_resp : resp en_event }.

Record World := mkWorld { w_d : Dispatcher; w_hist : list Entry }.

(** A Get answers with the object it named. *)
Definition readRobot (namespace name : string) (x : Input) : option Robot :=
  match x_robot x with
  | Some r => if (r_Namespace r =s namespace) && (r_Name r =s name) then Some r else None
  | None => None
  end.

Definition waitOn (d : Dispatcher) (ch : nat) (x : Input) : option (Dispatcher * waitOutcome) :=
  match x_give_up x, default [] (d_chans d !! ch) with
  | Some ctx, _ => Some (d, if ctx then CtxDone else TimedOut)
  | None, res :: q => Some (setChan d ch q, Received res)
  | None, [] => None
  end.

Definition waitBeat (d : Dispatcher) (ch : nat) (x : Input) : option beatOutcome :=
  match x_give_up x with
  | Some ctx => Some (if ctx then BeatCtxDone else BeatTimedOut)
  | None => if default false (d_beatChans d !! ch) then Some Beat else None
  end.

Definition answer (e : Ev) (x : Input) (d : Dispatcher) : option (Dispatcher * resp e) :=
  match e return option (Dispatcher * resp e) with
  | EHeldStops key => Some (d, heldStops d key)
  | EAddHeld key stopID => Some (addHeld d key stopID, tt)
  | EStopGen key => Some (d, stopGen d key)
  | EClearHeld namespace robot => Some (clearHeld d namespace robot, tt)
  | EHeldNamed namespace robot => Some (d, heldStopsNamed d namespace robot)
  | EMarkReady s wireID => Some (markReady d s wireID, tt)
  | EIsReady s wireID => Some (d, isReady d s wireID)
  | EMarkRegistered s wireID => Some (markRegistered d s wireID, tt)
  | EIsRegistered s wireID => Some (d, isRegistered d s wireID)
  | EStreamLive s => Some (d, streamLive d s)
  | ESetContract s version => Some (setContract d s version, tt)
  | EContract s => Some (d, f_contract (d_fence d) !! s)
  | EForgetStream s => Some (forgetStream d s, tt)
  | EWithhold key m => Some (withhold d key m, tt)
  | ETakeWithheld key m => let '(was, d') := takeWithheld d key m in Some (d', was)
  | EWithheldNamed namespace robot => Some (d, withheldNamed d namespace robot (x_pick x))
  | EStream key => Some (d, d_streams d !! key)
  | EPutStream key s => Some (putStream d key s, tt)
  | EDropStream key s => Some (dropStream d key s, tt)
  | ERegister s robotID => let '(id, ch, d') := register d s robotID in Some (d', (id, ch))
  | EDeregister id => Some (deregister d id, tt)
  | EPending id => Some (d, d_pending d !! id)
  | EChanPut ch res => Some (chanPut d ch res, tt)
  | EWait ch => waitOn d ch x
  | EOpenBeat key => let '(ch, d') := openBeat d key in Some (d', ch)
  | ECloseBeat key ch => Some (closeBeat d key ch, tt)
  | EBeatChan key => Some (d, d_beats d !! key)
  | EPutBeat ch => Some (putBeat d ch, tt)
  | EWaitBeat ch => match waitBeat d ch x with Some b => Some (d, b) | None => None end
  | EArrives _ _ => Some (d, tt)
  | EGetRobot _ namespace name => Some (d, readRobot namespace name x)
  | EListRobots _ _ => Some (d, x_robots x)
  | EListZones _ => Some (d, x_zones x)
  | EGetAdapter _ _ => Some (d, x_interval x)
  | ETerm => Some (d, x_term x)
  | EClock => Some (d, x_now x)
  | ETimer _ => Some (d, tt)
  | ESend _ _ => Some (d, x_sent x)
  end.

Definition perform (tid : nat) (e : Ev) (x : Input) (w : World) : option (World * resp e) :=
  match answer e x (w_d w) with
  | None => None
  | Some (d, a) => Some (mkWorld d (mkEntry tid e a :: w_hist w), a)
  end.

Notation P := (prog resp).

(** ** The operations *)

(** The one send site of every Command (term.go). *)
Definition send (g : Config) (s : Sender) (cmd : Command) : P (option cmdError) :=
  let go cmd :=
    let* sent := trigger (ESend s (MCommand cmd)) in
    Ret (if sent : bool then None else Some ErrUnreachable) in
  if g_Term g then
    let* t := trigger ETerm in
    if negb (snd t : bool) then Ret (Some ErrUnreachable) else go (stamped cmd (fst t))
  else go cmd.

Definition termChecked (res : CommandResult) : result cmdError CommandResult :=
  if negb (cr_StaleLeaderTerm res) then Ok res else Err ErrStaleLeaderTerm.

(** The select that ends a round trip. *)
Definition awaitResult (ch : nat) : P (result cmdError CommandResult) :=
  let* out := trigger (EWait ch) in
  Ret (match out with Received res => termChecked res | TimedOut => Err ErrUnreachable | CtxDone => Err ErrContext end).

Definition roundTripTo (g : Config) (robot : Robot) (cmd : Command) : P (result cmdError CommandResult) :=
  let* sender := trigger (EStream (adapterKey (r_Namespace robot) (r_Adapter robot))) in
  match sender with
  | None => Ret (Err ErrUnreachable)
  | Some s =>
      let* reg := trigger (ERegister s (Wire robot)) in
      let* err := send g s (addressed cmd (Wire robot) (fst reg)) in
      let* out := match err with Some e => Ret (Err e) | None => awaitResult (snd reg) end in
      let* _ := trigger (EDeregister (fst reg)) in
      Ret out
  end.

Definition roundTrip (g : Config) (namespace robotID : string) (cmd : Command) : P (result cmdError CommandResult) :=
  let* got := trigger (EGetRobot false namespace robotID) in
  match got with
  | None => Ret (Err ErrRobotLookup)
  | Some robot => roundTripTo g robot cmd
  end.

(** ** Fences (fence.go) *)

Definition sendFenceOn (g : Config) (s : Sender) (wireID stopID : string) (estop : Estop) : P (option cmdError) :=
  let fence := mkEstop stopID (es_Reason estop) (es_IssuedBy estop) (es_IssuedAtMs estop) in
  let* reg := trigger (ERegister s wireID) in
  let* err := send g s (mkCommand (fst reg) wireID 0 (CEstop fence)) in
  match err with
  | Some e => let* _ := trigger (EDeregister (fst reg)) in Ret (Some e)
  | None => Fork (let* _ := trigger (EWait (snd reg)) in let* _ := trigger (EDeregister (fst reg)) in Ret tt) (Ret None)
  end.

Definition SendFence (g : Config) (robot : Robot) (stopID : string) (estop : Estop) : P (option cmdError) :=
  let key := keyOf robot in
  Lock key (
    let* _ := trigger (EAddHeld key stopID) in
    let* sender := trigger (EStream (adapterKey (r_Namespace robot) (r_Adapter robot))) in
    let* err := match sender with
                | None => Ret (Some ErrUnreachable)
                | Some s => sendFenceOn g s (Wire robot) stopID estop
                end in
    Unlock key (Ret err)).

Definition SendClearedFence (g : Config) (robot : Robot) (stopID : string) (estop : Estop) : P (option cmdError) :=
  let key := keyOf robot in
  Lock key (
    let* sender := trigger (EStream (adapterKey (r_Namespace robot) (r_Adapter robot))) in
    let* err := match sender with
                | None => Ret (Some ErrUnreachable)
                | Some s => sendFenceOn g s (Wire robot) stopID estop
                end in
    Unlock key (Ret err)).

(** The robot's recorded stops with no clearedAt while it is in a stop state. *)
Definition recordedStops (robot : Robot) : list string :=
  let st := r_EstopState robot in
  if (st =s RobotEstopStopping) || (st =s RobotEstopStopped) || (st =s RobotEstopFailed)
  then rs_ID <$> filter (fun st => rs_ClearedAt st = None) (r_Stops robot) else [].

Fixpoint addAllHeld (key : string) (ids : list string) : P unit :=
  match ids with
  | [] => Ret tt
  | id :: ids => let* _ := trigger (EAddHeld key id) in addAllHeld key ids
  end.

Fixpoint sendFences (g : Config) (s : Sender) (wireID : string) (ids : list string) : P (option cmdError) :=
  match ids with
  | [] => Ret None
  | id :: ids =>
      let* now := trigger EClock in
      let estop := mkEstop "" "the stop in force, sent again as its fence on a new ControlStream" "swarmada-control-plane" now in
      let* err := sendFenceOn g s wireID id estop in
      match err with Some e => Ret (Some e) | None => sendFences g s wireID ids end
  end.

(** The caller holds the robot's send lock. *)
Definition fenceOnRegister (g : Config) (s : Sender) (wireID : string) (robot : Robot) (key : string) : P (option cmdError) :=
  let* _ := addAllHeld key (recordedStops robot) in
  let* ids := trigger (EHeldStops key) in
  let* err := sendFences g s wireID ids in
  match err with
  | Some e => Ret (Some e)
  | None => let* _ := trigger (EMarkReady s wireID) in Ret None
  end.

(** The Robot is read at most [attempts] times. *)
Fixpoint lookupRetried (g : Config) (namespace wireID : string) (attempts : nat) : P (option Robot) :=
  match attempts with
  | O => Ret None
  | S attempts =>
      let* listed := trigger (EListRobots (g_APIReader g) namespace) in
      match Lookup listed wireID with
      | Ok (Some robot) => Ret (Some robot)
      | _ => lookupRetried g namespace wireID attempts
      end
  end.

Definition RobotRegistered (g : Config) (s : Sender) (namespace wireID : string) : P unit :=
  let* _ := trigger (EMarkRegistered s wireID) in
  let* got := lookupRetried g namespace wireID 4 in
  match got with
  | None => Ret tt
  | Some robot =>
      let key := robotKey namespace (r_Name robot) (r_UID robot) in
      Lock key (let* _ := fenceOnRegister g s wireID robot key in Unlock key (Ret tt))
  end.

Definition latchContractMin : string := "1.4.0".

Definition boundByLatch (s : Sender) : P bool :=
  let* v := trigger (EContract s) in
  Ret (match v with
       | None => false
       | Some v => match Below v latchContractMin with Some below => negb below | None => false end
       end).

Definition StreamNegotiated (s : Sender) (version : string) : P unit :=
  let* live := trigger (EStreamLive s) in
  if negb (live : bool) then Ret tt else let* _ := trigger (ESetContract s version) in Ret tt.

(** What roundTripAssign checks under the robot's send lock before it sends. *)
Definition assignChecks (g : Config) (s : Sender) (robot : Robot) (key : string) : P (option cmdError) :=
  let* bound := if g_RequireContract g then boundByLatch s else Ret true in
  if negb (bound : bool) then Ret (Some ErrBelowLatchContract) else
  let* stops := trigger (EHeldStops key) in
  if negb (bool_decide (stops = [])) then Ret (Some (ErrHeldByStop stops)) else
  if negb (g_RequireRegister g) then Ret None else
  let* ready := trigger (EIsReady s (Wire robot)) in
  if ready : bool then Ret None else
  let* registered := trigger (EIsRegistered s (Wire robot)) in
  if negb (registered : bool) then Ret (Some ErrNotRegistered) else
  let* err := fenceOnRegister g s (Wire robot) robot key in
  match err with
  | Some e => Ret (Some e)
  | None =>
      let* stops := trigger (EHeldStops key) in
      Ret (if negb (bool_decide (stops = [])) then Some (ErrHeldByStop stops) else None)
  end.

(** Send on a robot's stream under its lock, unlock, and wait for the result. *)
Definition sendAndWait (g : Config) (s : Sender) (robot : Robot) (key : string) (cmd : Command)
    : P (result cmdError CommandResult) :=
  let* reg := trigger (ERegister s (Wire robot)) in
  let* err := send g s (addressed cmd (Wire robot) (fst reg)) in
  Unlock key (
    let* out := match err with Some e => Ret (Err e) | None => awaitResult (snd reg) end in
    let* _ := trigger (EDeregister (fst reg)) in
    Ret out).

Definition roundTripAssign (g : Config) (namespace robotName : string) (cmd : Command) : P (result cmdError CommandResult) :=
  let* got := trigger (EGetRobot false namespace robotName) in
  match got with
  | None => Ret (Err ErrRobotLookup)
  | Some robot =>
      let key := robotKey namespace robotName (r_UID robot) in
      Lock key (
        let* sender := trigger (EStream (adapterKey namespace (r_Adapter robot))) in
        match sender with
        | None => Unlock key (Ret (Err ErrUnreachable))
        | Some s =>
            let* err := assignChecks g s robot key in
            match err with
            | Some e => Unlock key (Ret (Err e))
            | None => sendAndWait g s robot key cmd
            end
        end)
  end.

(** ** Motion *)

Definition heldByStop (robot : Robot) : bool :=
  let st := r_EstopState robot in
  if (st =s RobotEstopStopping) || (st =s RobotEstopStopped) || (st =s RobotEstopFailed) || (st =s RobotEstopResuming)
  then true
  else match HeldOnRecord robot with Some _ => true | None => false end.

Definition sendUnderLock (g : Config) (robot : Robot) (cmd : Command) (check : P (option cmdError))
    : P (result cmdError CommandResult) :=
  let key := keyOf robot in
  Lock key (
    let* err := check in
    match err with
    | Some e => Unlock key (Ret (Err e))
    | None =>
        let* sender := trigger (EStream (adapterKey (r_Namespace robot) (r_Adapter robot))) in
        match sender with
        | None => Unlock key (Ret (Err ErrUnreachable))
        | Some s => sendAndWait g s robot key cmd
        end
    end).

(** [last]: no attempt may ask to read the Robot again ([attempt] is 8 or more). *)
Definition motionCheck (key : string) (m : motion) (released : bool) (gen : Z) (cur : Robot) (last : bool)
    : P (option cmdError) :=
  let* kept := if released then trigger (ETakeWithheld key m) else Ret true in
  if negb (kept : bool) then Ret (Some ErrNotWithheld) else
  let* stops := trigger (EHeldStops key) in
  let* gen' := trigger (EStopGen key) in
  if negb (gen' =? gen) && negb last then
    let* _ := if released then trigger (EWithhold key m) else Ret tt in Ret (Some ErrReread)
  else
  let* gen'' := if negb (bool_decide (stops = [])) then Ret gen else trigger (EStopGen key) in
  if negb (bool_decide (stops = [])) || negb (gen'' =? gen) || heldByStop cur then
    let* _ := trigger (EWithhold key m) in Ret (Some ErrWithheldByStop)
  else Ret None.

(** The loop of sendMotion with [more] attempts after this one (attempt 0 has 8). *)
Fixpoint sendMotionLoop (g : Config) (robot : Robot) (m : motion) (cmd : Command) (released : bool) (more : nat)
    : P (result cmdError CommandResult) :=
  let key := keyOf robot in
  let* gen := trigger (EStopGen key) in
  let* got := trigger (EGetRobot (g_APIReader g) (r_Namespace robot) (r_Name robot)) in
  match got with
  | None => Ret (Err ErrRobotLookup)
  | Some cur =>
      let last := match more with O => true | S _ => false end in
      let* out := sendUnderLock g robot cmd (motionCheck key m released gen cur last) in
      match out, more with
      | Err ErrReread, S more => sendMotionLoop g robot m cmd released more
      | Err ErrReread, O => Ret (Err ErrAttemptsSpent)
      | _, _ => Ret out
      end
  end.

Definition maxReread : nat := 8.

Definition sendMotion (g : Config) (robot : Robot) (m : motion) (cmd : Command) (released : bool)
    : P (result cmdError CommandResult) := sendMotionLoop g robot m cmd released maxReread.

Definition roundTripMotion (g : Config) (robot : Robot) (m : motion) (cmd : Command) : P (result cmdError CommandResult) :=
  sendMotion g robot m cmd false.

Definition roundTripHold (g : Config) (robot : Robot) (m : motion) (cmd : Command) : P (result cmdError CommandResult) :=
  sendUnderLock g robot cmd (let* _ := trigger (ETakeWithheld (keyOf robot) m) in Ret None).

Definition promotionStands (zones : option (list FleetZone)) (m : motion) : bool :=
  match zones with
  | None => false
  | Some zones =>
      existsb (fun z => existsb (fun q => (srq_ResourceName q =s m_resource m) &&
        existsb (fun h => (rh_RobotID h =s m_robotID m) && (rh_ActionID h =s m_robotID m)) (srq_CurrentHolders q))
        (fzt_SharedResourceQueues (fz_Status z))) zones
  end.

Fixpoint sendReleased (g : Config) (namespace : string) (robot : Robot) (key : string) (todo : list motion) : P unit :=
  match todo with
  | [] => Ret tt
  | m :: todo =>
      let* _ :=
        if m_zone m <>s "" then
          let* _ := sendMotion g robot m (bare (CZoneAdmission (m_zone m) true)) true in Ret tt
        else
          let* zones := trigger (EListZones namespace) in
          if negb (promotionStands zones m) then let* _ := trigger (ETakeWithheld key m) in Ret tt
          else let* _ := sendMotion g robot m (bare (CReservationGranted (m_resource m))) true in Ret tt in
      sendReleased g namespace robot key todo
  end.

Definition motion_le (a b : motion) : Prop := String.le (motionKey a) (motionKey b).
#[global] Instance motion_le_dec : RelDecision motion_le.
Proof. unfold motion_le. solve_decision. Defined.

Definition RobotReleased (g : Config) (namespace robot : string) : P unit :=
  let* found := trigger (EWithheldNamed namespace robot) in
  match snd found with
  | [] => Ret tt
  | _ :: _ =>
      Fork (let* got := trigger (EGetRobot false namespace robot) in
            match got with
            | None => Ret tt
            | Some r =>
                if robotKey namespace robot (r_UID r) <>s fst found then Ret tt
                else sendReleased g namespace r (fst found) (merge_sort motion_le (snd found))
            end) (Ret tt)
  end.

(** ** The pushes *)

Definition bindWith {A} (f : CommandResult -> result cmdError A) (out : result cmdError CommandResult) : result cmdError A :=
  let? res := out in f res.

Definition PushAssignAction (g : Config) (namespace robotID : string) (a : AssignAction) : P (result cmdError AssignActionOutcome) :=
  let* out := roundTripAssign g namespace robotID (bare (CAssignAction (assignMsg a))) in Ret (bindWith bindAssign out).

Definition PushRenewLease (g : Config) (namespace robotID actionID : string) (generation durationMs : Z)
    : P (result cmdError RenewLeaseOutcome) :=
  let* out := roundTrip g namespace robotID (bare (CRenewLease actionID generation durationMs)) in Ret (bindWith bindRenew out).

Definition PushCancelAction (g : Config) (namespace robotID actionID reason : string) (token : Z) (cause : CancelCause)
    : P (result cmdError CancelActionOutcome) :=
  let* out := roundTrip g namespace robotID (bare (CCancelAction actionID reason (Some token) (wireCause cause))) in
  Ret (bindWith bindCancel out).

Definition PushModelUpdate (g : Config) (namespace robotID : string) (u : ModelUpdate) : P (result cmdError ModelUpdateOutcome) :=
  let* out := roundTrip g namespace robotID (bare (CModelUpdate u)) in Ret (bindWith bindModelUpdate out).

Definition ValidateAction (g : Config) (namespace robotID actionType customType payload : string)
    : P (result cmdError ValidateOutcome) :=
  let* out := roundTrip g namespace robotID (bare (CValidateAction actionType payload customType)) in Ret (bindWith bindValidate out).

Definition PushZoneConstraints (g : Config) (namespace robotID : string) (c : ZoneConstraints)
    : P (result cmdError ZoneConstraintsOutcome) :=
  let* out := roundTrip g namespace robotID (bare (CZoneConstraints c)) in
  Ret (bindWith (fun res => Ok (bindZoneConstraints res)) out).

Definition Verify (g : Config) (namespace robotID : string) (req : VerifyRequest) : P (result cmdError ProbeResult) :=
  match buildVerifyCommand req with
  | Err e => Ret (Err e)
  | Ok cmd => let* out := roundTrip g namespace robotID cmd in Ret (bindWith bindResult out)
  end.

Definition ackOf (res : CommandResult) : result cmdError bool :=
  Ok (match cr_Result res with Some (RReservationGranted ack) | Some (RZoneAdmission ack) => ack | _ => false end).

Definition PushReservationGranted (g : Config) (namespace robotID resource : string) : P (result cmdError bool) :=
  let* listed := trigger (EListRobots false namespace) in
  match Lookup listed robotID with
  | Err _ => Ret (Err ErrRobotLookup)
  | Ok None => Ret (Err ErrNoRobot)
  | Ok (Some robot) =>
      let* out := roundTripMotion g robot (mkMotion "" resource robotID) (bare (CReservationGranted resource)) in
      Ret (bindWith ackOf out)
  end.

Definition PushZoneAdmission (g : Config) (namespace robotID zone : string) (admits : bool) : P (result cmdError bool) :=
  let* got := trigger (EGetRobot false namespace robotID) in
  match got with
  | None => Ret (Err ErrRobotLookup)
  | Some robot =>
      let cmd := bare (CZoneAdmission zone admits) in
      let m := mkMotion zone "" "" in
      let* out := if admits then roundTripMotion g robot m cmd else roundTripHold g robot m cmd in
      Ret (bindWith ackOf out)
  end.

(** ** Streams, results and heartbeats *)

Definition defaultAdapterHeartbeatInterval : Duration := 10 * Second.
Definition minAdapterBeatPeriod : Duration := Second.

Definition beatPeriod (namespace adapter : string) : P Duration :=
  let* interval := if (namespace <>s "") && (adapter <>s "") then trigger (EGetAdapter namespace adapter) else Ret None in
  let interval := match interval with
                  | Some s => if 0 <? s then s * Second else defaultAdapterHeartbeatInterval
                  | None => defaultAdapterHeartbeatInterval
                  end in
  Ret (if minAdapterBeatPeriod <? Z.quot interval 2 then Z.quot interval 2 else minAdapterBeatPeriod).

(** The liveness cadence of one stream; [ticks] is how many timers fire before its context ends. *)
Fixpoint adapterBeats (identity : TLSIdentity) (s : Sender) (ticks : nat) : P unit :=
  match ticks with
  | O => Ret tt
  | S ticks =>
      let* period := beatPeriod (ti_Namespace identity) (ti_AdapterName identity) in
      let* _ := trigger (ETimer period) in
      let* now := trigger EClock in
      let* sent := trigger (ESend s (MHeartbeat "" now)) in
      if sent : bool then adapterBeats identity s ticks else Ret tt
  end.

Definition RegisterStream (identity : TLSIdentity) (s : Sender) (ticks : nat) : P unit :=
  if negb (ti_Verified identity) then Ret tt
  else let* _ := trigger (EPutStream (adapterKey (ti_Namespace identity) (ti_AdapterName identity)) s) in
       Fork (adapterBeats identity s ticks) (Ret tt).

(** The func RegisterStream returns. *)
Definition deregisterStream (identity : TLSIdentity) (s : Sender) : P unit :=
  if negb (ti_Verified identity) then Ret tt
  else let* _ := trigger (EDropStream (adapterKey (ti_Namespace identity) (ti_AdapterName identity)) s) in
       let* _ := trigger (EForgetStream s) in Ret tt.

Definition RouteResult (s : Sender) (res : CommandResult) : P (option cmdError) :=
  let* _ := trigger (EArrives s res) in
  let* p := trigger (EPending (cr_CommandId res)) in
  match p with
  | None => Ret None
  | Some p =>
      if negb (Nat.eqb (pc_sender p) s) then Ret (Some ErrMisroutedResult)
      else if cr_RobotId res <>s pc_robotID p then Ret (Some ErrMisroutedResult)
      else let* _ := trigger (EChanPut (pc_ch p) res) in Ret None
  end.

Definition RouteHeartbeat (namespace robotID : string) : P unit :=
  if robotID =s "" then Ret tt
  else let* ch := trigger (EBeatChan (adapterKey namespace robotID)) in
       match ch with None => Ret tt | Some ch => let* _ := trigger (EPutBeat ch) in Ret tt end.

Definition Heartbeat (namespace robotID : string) : P (result cmdError bool) :=
  let* got := trigger (EGetRobot false namespace robotID) in
  match got with
  | None => Ret (Err ErrRobotLookup)
  | Some robot =>
      let* sender := trigger (EStream (adapterKey namespace (r_Adapter robot))) in
      match sender with
      | None => Ret (Err ErrUnreachable)
      | Some s =>
          let key := adapterKey namespace (Wire robot) in
          let* ch := trigger (EOpenBeat key) in
          let* now := trigger EClock in
          let* sent := trigger (ESend s (MHeartbeat (Wire robot) now)) in
          let* out := if negb (sent : bool) then Ret (Err ErrUnreachable)
                      else let* b := trigger (EWaitBeat ch) in
                           Ret (match b with Beat => Ok true | BeatTimedOut => Ok false | BeatCtxDone => Err ErrContext end) in
          let* _ := trigger (ECloseBeat key ch) in
          Ret out
      end
  end.

(** ** Calls and schedules *)

(** The package's entry points, as its callers make them. The Notify pushes run on a goroutine of their
    own. *)
Inductive call :=
| CallSendFence (robot : Robot) (stopID : string) (estop : Estop)
| CallSendClearedFence (robot : Robot) (stopID : string) (estop : Estop)
| CallRobotRegistered (s : Sender) (namespace wireID : string)
| CallStreamNegotiated (s : Sender) (version : string)
| CallClearHeld (namespace robot : string)
| CallHeldStops (namespace robot : string)
| CallRobotReleased (namespace robot : string)
| CallRegisterStream (identity : TLSIdentity) (s : Sender) (ticks : nat)
| CallDeregisterStream (identity : TLSIdentity) (s : Sender)
| CallRouteResult (s : Sender) (res : CommandResult)
| CallRouteHeartbeat (namespace robotID : string)
| CallHeartbeat (namespace robotID : string)
| CallPushAssignAction (namespace robotID : string) (a : AssignAction)
| CallPushRenewLease (namespace robotID actionID : string) (generation durationMs : Z)
| CallPushCancelAction (namespace robotID actionID reason : string) (token : Z) (cause : CancelCause)
| CallPushModelUpdate (namespace robotID : string) (u : ModelUpdate)
| CallValidateAction (namespace robotID actionType customType payload : string)
| CallVerify (namespace robotID : string) (req : VerifyRequest)
| CallPushZoneConstraints (namespace robotID : string) (c : ZoneConstraints)
| CallNotifyZoneConstraints (namespace robotID : string) (c : ZoneConstraints)
| CallPushReservationGranted (namespace robotID resource : string)
| CallNotifyReservationGranted (namespace robotID resource : string)
| CallPushZoneAdmission (namespace robotID zone : string) (admits : bool)
| CallNotifyZoneAdmission (namespace robotID zone : string) (admits : bool).

Definition discard {A} (p : P A) : P unit := let* _ := p in Ret tt.
Definition detached {A} (p : P A) : P unit := Fork (discard p) (Ret tt).

Definition progOf (g : Config) (c : call) : P unit :=
  match c with
  | CallSendFence robot stopID estop => discard (SendFence g robot stopID estop)
  | CallSendClearedFence robot stopID estop => discard (SendClearedFence g robot stopID estop)
  | CallRobotRegistered s namespace wireID => RobotRegistered g s namespace wireID
  | CallStreamNegotiated s version => StreamNegotiated s version
  | CallClearHeld namespace robot => discard (trigger (EClearHeld namespace robot))
  | CallHeldStops namespace robot => discard (trigger (EHeldNamed namespace robot))
  | CallRobotReleased namespace robot => RobotReleased g namespace robot
  | CallRegisterStream identity s ticks => RegisterStream identity s ticks
  | CallDeregisterStream identity s => deregisterStream identity s
  | CallRouteResult s res => discard (RouteResult s res)
  | CallRouteHeartbeat namespace robotID => RouteHeartbeat namespace robotID
  | CallHeartbeat namespace robotID => discard (Heartbeat namespace robotID)
  | CallPushAssignAction namespace robotID a => discard (PushAssignAction g namespace robotID a)
  | CallPushRenewLease namespace robotID actionID generation ms => discard (PushRenewLease g namespace robotID actionID generation ms)
  | CallPushCancelAction namespace robotID actionID reason token cause =>
      discard (PushCancelAction g namespace robotID actionID reason token cause)
  | CallPushModelUpdate namespace robotID u => discard (PushModelUpdate g namespace robotID u)
  | CallValidateAction namespace robotID actionType customType payload =>
      discard (ValidateAction g namespace robotID actionType customType payload)
  | CallVerify namespace robotID req => discard (Verify g namespace robotID req)
  | CallPushZoneConstraints namespace robotID c => discard (PushZoneConstraints g namespace robotID c)
  | CallNotifyZoneConstraints namespace robotID c => detached (PushZoneConstraints g namespace robotID c)
  | CallPushReservationGranted namespace robotID resource => discard (PushReservationGranted g namespace robotID resource)
  | CallNotifyReservationGranted namespace robotID resource => detached (PushReservationGranted g namespace robotID resource)
  | CallPushZoneAdmission namespace robotID zone admits => discard (PushZoneAdmission g namespace robotID zone admits)
  | CallNotifyZoneAdmission namespace robotID zone admits => detached (PushZoneAdmission g namespace robotID zone admits)
  end.

(** A step of the system: a new call on a goroutine of its own, or one step of a running one. *)
Inductive sched := Spawn (c : call) | Run (tid : nat) (x : Input).

Definition start : Sys resp := mkSys (mkWorld newDispatcher []) ∅ ∅ 0.

Definition sysStep (g : Config) (s : Sys resp) (i : sched) : Sys resp :=
  match i with
  | Spawn c => addThread s (progOf g c)
  | Run tid x => runThread perform tid x s
  end.

Definition schedule (g : Config) (l : list sched) : Sys resp := fold_left (sysStep g) l start.

(** What a schedule did, the latest first. *)
Definition history (g : Config) (l : list sched) : list Entry := w_hist (sy_world (schedule g l)).
