(* ===== verification/DispatchInv.v ===== *)
(** The dispatcher in the logic of Conc: what its history says of its state, the conditions under which
    each event may happen, the invariant, and the proof that every step keeps them. *)

From S2P Require Import Prelude.
From S2P Require Import Types.
From S2P Require Import Contract.
From S2P Require Import RobotId.
From S2P Require Import Conc.
From S2P Require Import EstopScope.
From S2P Require Import Command.
From S2P Require Import Dispatch.

(** ** Reading a history (the latest entry first) *)

(** The stops in force on a robot: added, and not cleared since. *)
Fixpoint heldAfter (key : string) (h : list Entry) : gset string :=
  match h with
  | [] => ∅
  | en :: h =>
      match en_event en with
      | EAddHeld k id => if k =s key then {[id]} ∪ heldAfter key h else heldAfter key h
      | EClearHeld namespace robot => if String.prefix (namedPrefix namespace robot) key then ∅ else heldAfter key h
      | _ => heldAfter key h
      end
  end.

(** The robots ready on a stream: marked, and the stream not forgotten since. *)
Fixpoint readyAfter (s : Sender) (h : list Entry) : gset string :=
  match h with
  | [] => ∅
  | en :: h =>
      match en_event en with
      | EMarkReady s' wireID => if Nat.eqb s' s then {[wireID]} ∪ readyAfter s h else readyAfter s h
      | EForgetStream s' => if Nat.eqb s' s then ∅ else readyAfter s h
      | _ => readyAfter s h
      end
  end.

Definition addsTo (key : string) (en : Entry) : bool :=
  match en_event en with EAddHeld k _ => k =s key | _ => false end.

(** How many times a stop was added to a robot. *)
Fixpoint adds (key : string) (h : list Entry) : nat :=
  match h with [] => O | en :: h => (if addsTo key en then 1 else 0) + adds key h end.

(** A thread's own latest entry. *)
Fixpoint lastOf (tid : nat) (h : list Entry) : option Entry :=
  match h with [] => None | en :: h => if Nat.eqb (en_tid en) tid then Some en else lastOf tid h end.

(** The registration of a command an entry made. *)
Definition regOf (en : Entry) : option (Sender * string * Z * nat) :=
  match en with mkEntry _ (ERegister s w) a => Some (s, w, fst a, snd a) | _ => None end.

Definition registered (s : Sender) (robotID : string) (id : Z) (ch : nat) (h : list Entry) : Prop :=
  exists t, mkEntry t (ERegister s robotID) (id, ch) ∈ h.

(** [res] came back on the stream its command went down, for the robot it was for. *)
Definition arrived (ch : nat) (res : CommandResult) (h : list Entry) : Prop :=
  exists s t, registered s (cr_RobotId res) (cr_CommandId res) ch h /\ mkEntry t (EArrives s res) tt ∈ h.

(** The fence of stop [id] went down stream [s] to robot [wireID]. *)
Definition fencedOn (s : Sender) (wireID id : string) (h : list Entry) : Prop :=
  exists t cmd e, mkEntry t (ESend s (MCommand cmd)) true ∈ h /\ c_Command cmd = CEstop e /\ es_EstopId e = id /\
    c_RobotId cmd = wireID.

(** Thread [tid] read [robot] in [namespace]. *)
Definition readBy (tid : nat) (namespace : string) (robot : Robot) (h : list Entry) : Prop :=
  (exists live, mkEntry tid (EGetRobot live namespace (r_Name robot)) (Some robot) ∈ h) \/
  (exists live l, mkEntry tid (EListRobots live namespace) (Some l) ∈ h /\ robot ∈ l).

Section Logic.
Context (g : Config).

(** ** When an event may happen *)

(** The leader term on a Command is the one the thread has just read, while leading. *)
Definition termGood (tid : nat) (cmd : Command) (h : list Entry) : Prop :=
  g_Term g = true -> lastOf tid h = Some (mkEntry tid ETerm (c_LeaderTerm cmd, true)).

(** An AssignAction goes out only to a robot no stop in force holds; and, as configured, only on a
    stream where the robot was made ready and that negotiated the latch's contract. *)
Definition assignGood (tid : nat) (s : Sender) (cmd : Command) (h : list Entry) : Prop :=
  exists namespace robot,
    mkEntry tid (EGetRobot false namespace (r_Name robot)) (Some robot) ∈ h /\ c_RobotId cmd = Wire robot /\
    heldAfter (robotKey namespace (r_Name robot) (r_UID robot)) h = ∅ /\
    (g_RequireRegister g = true -> exists t, mkEntry t (EMarkReady s (c_RobotId cmd)) tt ∈ h) /\
    (g_RequireContract g = true ->
       exists v, mkEntry tid (EContract s) (Some v) ∈ h /\ Below v latchContractMin = Some false).

(** Since thread [tid] last looked at the count of stops and then read the robot as [cur], no stop was
    added to it (the count is a uint64). *)
Definition readSince (tid : nat) (robot cur : Robot) (h : list Entry) : Prop :=
  exists (live : bool) (n : Z) (h1 h2 : list Entry),
    h = h1 ++ mkEntry tid (EStopGen (keyOf robot)) n :: h2 /\
    mkEntry tid (EGetRobot live (r_Namespace robot) (r_Name robot)) (Some cur) ∈ h1 /\
    Z.of_nat (adds (keyOf robot) h1) mod 2 ^ 64 = 0.

(** An admit or a grant goes out only to a robot no stop in force holds, which the thread has read free
    of any stop, with no stop added since it began that read. *)
Definition motionGood (tid : nat) (cmd : Command) (h : list Entry) : Prop :=
  exists robot cur,
    c_RobotId cmd = Wire robot /\ heldByStop cur = false /\ heldAfter (keyOf robot) h = ∅ /\ readSince tid robot cur h.

Definition armGood (tid : nat) (s : Sender) (cmd : Command) (h : list Entry) : Prop :=
  match c_Command cmd with
  | CAssignAction _ => assignGood tid s cmd h
  | CZoneAdmission _ true | CReservationGranted _ => motionGood tid cmd h
  | _ => True
  end.

(** A robot becomes ready on a stream only once its recorded stops are in force here and the fence of
    every stop in force has gone down the stream. *)
Definition readyGood (tid : nat) (s : Sender) (wireID : string) (h : list Entry) : Prop :=
  exists namespace robot,
    Wire robot = wireID /\ readBy tid namespace robot h /\
    let key := robotKey namespace (r_Name robot) (r_UID robot) in
    (forall id, id ∈ recordedStops robot -> mkEntry tid (EAddHeld key id) tt ∈ h) /\
    (forall id, id ∈ heldAfter key h -> fencedOn s wireID id h).

(** What is true of an event, its answer and the history before it. *)
Definition good (tid : nat) (e : Ev) : resp e -> list Entry -> Prop :=
  match e return resp e -> list Entry -> Prop with
  | ESend s (MCommand cmd) => fun _ h => termGood tid cmd h /\ armGood tid s cmd h
  | EMarkReady s wireID => fun _ h => readyGood tid s wireID h
  | EHeldStops key => fun l h => forall id, id ∈ l <-> id ∈ heldAfter key h
  | EStopGen key => fun n h => n = Z.of_nat (adds key h) mod 2 ^ 64
  | EIsReady s wireID => fun b h => b = bool_decide (wireID ∈ readyAfter s h)
  | EWait ch => fun out h => forall res, out = Received res -> arrived ch res h
  | ERegister _ _ => fun a h => forall s w id, ~ registered s w id (snd a) h
  | EPending id => fun p h => forall q, p = Some q -> registered (pc_sender q) (pc_robotID q) id (pc_ch q) h
  | EGetRobot _ namespace name => fun r _ => forall robot, r = Some robot -> r_Namespace robot = namespace /\ r_Name robot = name
  | _ => fun _ _ => True
  end.

(** The part of it the thread must see to. *)
Definition pre (tid : nat) (lk : option string) (e : Ev) (w : World) : Prop :=
  match e with
  | ESend s (MCommand cmd) => termGood tid cmd (w_hist w) /\ armGood tid s cmd (w_hist w)
  | EMarkReady s wireID => readyGood tid s wireID (w_hist w)
  | EAddHeld key _ => lk = Some key
  | EChanPut ch res => arrived ch res (w_hist w)
  | _ => True
  end.

Fixpoint histOk (h : list Entry) : Prop :=
  match h with [] => True | mkEntry t e a :: h => good t e a h /\ histOk h end.

Record inv (w : World) : Prop := {
  inv_hist : histOk (w_hist w);
  inv_held : forall key, heldOn (w_d w) key = heldAfter key (w_hist w);
  inv_gen : forall key, stopGen (w_d w) key = Z.of_nat (adds key (w_hist w)) mod 2 ^ 64;
  inv_ready : forall s, default ∅ (f_ready (d_fence (w_d w)) !! s) = readyAfter s (w_hist w);
  inv_pending : forall id p, d_pending (w_d w) !! id = Some p ->
    registered (pc_sender p) (pc_robotID p) id (pc_ch p) (w_hist w);
  inv_chans : forall ch q res, d_chans (w_d w) !! ch = Some q -> res ∈ q -> arrived ch res (w_hist w);
  inv_next : forall s r id ch, registered s r id ch (w_hist w) -> (ch < d_chanNext (w_d w))%nat
}.

(** No stop is added to the robot whose lock the thread holds. *)
Definition quiet (lk : option string) (en : Entry) : Prop := forall key, lk = Some key -> addsTo key en = false.

Definition rely (tid : nat) (lk : option string) (w w' : World) : Prop :=
  exists ext, w_hist w' = ext ++ w_hist w /\ Forall (fun en => en_tid en <> tid /\ quiet lk en) ext.

(** ** Every step keeps the invariant *)

Lemma rely_refl tid lk w : rely tid lk w w.
Proof. by exists []. Qed.

Lemma rely_trans tid lk w1 w2 w3 : rely tid lk w1 w2 -> rely tid lk w2 w3 -> rely tid lk w1 w3.
Proof.
  intros (e1 & H1 & F1) (e2 & H2 & F2). exists (e2 ++ e1). rewrite H2, H1, <- app_assoc. split; [done|].
  by apply Forall_app.
Qed.

Lemma rely_lock tid lk w w' : rely tid lk w w' -> rely tid None w w'.
Proof. intros (e & H & F). exists e. split; [done|]. eapply Forall_impl; [exact F|]. intros en [? _]. split; [done|]. by intros ? ?. Qed.

Lemma perform_hist tid e x w w' a : perform tid e x w = Some (w', a) -> w_hist w' = mkEntry tid e a :: w_hist w.
Proof. unfold perform. destruct (answer e x (w_d w)) as [[d b]|]; [|done]. by intros [= <- <-]. Qed.

Lemma perform_rely tid lk e x w w' a tid' lk' :
  inv w -> pre tid lk e w -> perform tid e x w = Some (w', a) -> tid <> tid' -> apart lk lk' -> rely tid' lk' w w'.
Proof.
  intros _ Hpre Hp Hne Hap. exists [mkEntry tid e a]. split; [by apply perform_hist in Hp|].
  constructor; [|done]. split; [done|]. intros key Hk. unfold addsTo. simpl. destruct e; try done.
  apply eqb_s_false. intros ->. by apply (Hap key).
Qed.

Lemma registered_cons s r id ch en h : registered s r id ch h -> registered s r id ch (en :: h).
Proof. intros [t H]. exists t. by right. Qed.

Lemma arrived_cons ch res en h : arrived ch res h -> arrived ch res (en :: h).
Proof. intros (s & t & H & ?). exists s, t. split; [by apply registered_cons|by right]. Qed.

Lemma registered_cons_inv s r id ch en h :
  registered s r id ch (en :: h) -> regOf en = Some (s, r, id, ch) \/ registered s r id ch h.
Proof. intros [t [<-|H]%elem_of_cons]; [by left|]. right. by exists t. Qed.

Lemma readyAfter_marked s wireID h : wireID ∈ readyAfter s h -> exists t, mkEntry t (EMarkReady s wireID) tt ∈ h.
Proof.
  induction h as [|[t e a] h IH]; simpl; [set_solver|].
  assert (Hrec : wireID ∈ readyAfter s h -> exists t', mkEntry t' (EMarkReady s wireID) tt ∈ mkEntry t e a :: h)
    by (intros [t' ?]%IH; exists t'; by right).
  destruct e; try exact Hrec.
  - destruct (Nat.eqb_spec s0 s) as [->|]; [|exact Hrec]. intros [->%elem_of_singleton|Hr]%elem_of_union; [|by apply Hrec].
    exists t. destruct a. by left.
  - destruct (Nat.eqb s0 s); [set_solver|exact Hrec].
Qed.

(** Case on the event of a step, so that its answer and the state after it compute. *)
Ltac event_cases e :=
  destruct e; simpl in *; unfold waitOn, waitBeat in *;
  repeat match goal with
  | H : context [match takeWithheld ?d ?k ?m with _ => _ end] |- _ => unfold takeWithheld in H
  | H : context [match x_give_up ?x with _ => _ end] |- _ => destruct (x_give_up x)
  | H : context [match default [] ?c with _ => _ end] |- _ => destruct (default [] c) eqn:?
  | H : context [if default false ?c then _ else _] |- _ => destruct (default false c) eqn:?
  | H : context [match withheldOn ?d ?k !! ?m with _ => _ end] |- _ => destruct (withheldOn d k !! m) eqn:?
  end; simplify_eq/=.

Lemma answer_held e x d d' a key tid h :
  answer e x d = Some (d', a) -> heldOn d key = heldAfter key h -> heldOn d' key = heldAfter key (mkEntry tid e a :: h).
Proof.
  intros Ha Hh. simpl. rewrite <- Hh. clear Hh. event_cases e; try done.
  - unfold heldOn, addHeld. simpl. destruct (String.eqb_spec key0 key) as [->|Hne].
    + by rewrite lookup_insert_eq.
    + by rewrite lookup_insert_ne.
  - unfold heldOn, clearHeld. simpl. destruct (String.prefix _ key) eqn:E.
    + rewrite map_lookup_filter_None_2; [done|]. right. intros ? _. simpl. congruence.
    + destruct (f_held (d_fence d) !! key) as [ids|] eqn:Hk.
      * by rewrite (map_lookup_filter_Some_2 _ _ _ ids).
      * rewrite map_lookup_filter_None_2; [done|by left].
  - unfold heldOn, dropStream. by case_bool_decide.
  - unfold heldOn, chanPut. by destruct (_ <? _)%nat.
  - unfold heldOn, closeBeat. by case_bool_decide.
Qed.

Lemma adds_cons key en h : adds key (en :: h) = ((if addsTo key en then 1 else 0) + adds key h)%nat.
Proof. done. Qed.

Lemma answer_gen e x d d' a key tid h :
  answer e x d = Some (d', a) -> stopGen d key = Z.of_nat (adds key h) mod 2 ^ 64 ->
  stopGen d' key = Z.of_nat (adds key (mkEntry tid e a :: h)) mod 2 ^ 64.
Proof.
  intros Ha Hg. rewrite adds_cons. unfold addsTo. event_cases e; try done.
  - unfold stopGen at 1, addHeld. simpl. destruct (String.eqb_spec key0 key) as [->|Hne].
    + rewrite lookup_insert_eq. simpl. rewrite Hg, Z.add_mod_idemp_l by done. f_equal. simpl. lia.
    + by rewrite lookup_insert_ne.
  - unfold stopGen, dropStream. by case_bool_decide.
  - unfold stopGen, chanPut. by destruct (_ <? _)%nat.
  - unfold stopGen, closeBeat. by case_bool_decide.
Qed.

Lemma answer_ready e x d d' a s tid h :
  answer e x d = Some (d', a) -> default ∅ (f_ready (d_fence d) !! s) = readyAfter s h ->
  default ∅ (f_ready (d_fence d') !! s) = readyAfter s (mkEntry tid e a :: h).
Proof.
  intros Ha Hh. simpl. rewrite <- Hh. clear Hh. event_cases e; try done.
  - destruct (Nat.eqb_spec s0 s) as [->|Hne]; [by rewrite lookup_insert_eq|by rewrite lookup_insert_ne].
  - destruct (Nat.eqb_spec s0 s) as [->|Hne]; [by rewrite lookup_delete_eq|by rewrite lookup_delete_ne].
  - unfold dropStream. by case_bool_decide.
  - unfold chanPut. by destruct (_ <? _)%nat.
  - unfold closeBeat. by case_bool_decide.
Qed.

Lemma answer_pending e x d d' a id p tid h :
  answer e x d = Some (d', a) ->
  (forall id p, d_pending d !! id = Some p -> registered (pc_sender p) (pc_robotID p) id (pc_ch p) h) ->
  d_pending d' !! id = Some p -> registered (pc_sender p) (pc_robotID p) id (pc_ch p) (mkEntry tid e a :: h).
Proof.
  intros Ha Hp Hd.
  assert (Hold : d_pending d !! id = Some p -> registered (pc_sender p) (pc_robotID p) id (pc_ch p) (mkEntry tid e a :: h))
    by (intros; by apply registered_cons, Hp).
  event_cases e; try (by apply Hold).
  - apply Hold. revert Hd. unfold dropStream. by case_bool_decide.
  - apply lookup_insert_Some in Hd as [[<- <-]|[? ?]]; [|by apply Hold]. exists tid. by left.
  - apply lookup_delete_Some in Hd as [? ?]. by apply Hold.
  - apply Hold. revert Hd. unfold chanPut. by destruct (_ <? _)%nat.
  - apply Hold. revert Hd. unfold closeBeat. by case_bool_decide.
Qed.

Lemma answer_chans tid lk e x w d' a ch q res :
  inv w -> pre tid lk e w -> answer e x (w_d w) = Some (d', a) -> d_chans d' !! ch = Some q -> res ∈ q ->
  arrived ch res (mkEntry tid e a :: w_hist w).
Proof.
  intros Hi Hpre Ha Hq Hr. pose proof (inv_chans _ Hi) as Hc.
  assert (Hold : d_chans (w_d w) !! ch = Some q -> arrived ch res (mkEntry tid e a :: w_hist w))
    by (intros; apply arrived_cons; eauto).
  event_cases e; try (by apply Hold).
  - apply Hold. revert Hq. unfold dropStream. by case_bool_decide.
  - apply lookup_insert_Some in Hq as [[<- <-]|[? ?]]; [by apply not_elem_of_nil in Hr|by apply Hold].
  - unfold chanPut in *. destruct (_ <? _)%nat; [|by apply Hold]. simpl in Hq.
    apply lookup_insert_Some in Hq as [[<- <-]|[? ?]]; [|by apply Hold].
    apply arrived_cons. apply elem_of_app in Hr as [Hr|[->|Hr%not_elem_of_nil]%elem_of_cons]; [|done..].
    destruct (d_chans (w_d w) !! ch0) eqn:E; [eauto|]. by apply not_elem_of_nil in Hr.
  - apply lookup_insert_Some in Hq as [[<- <-]|[? ?]]; [|by apply Hold].
    destruct (d_chans (w_d w) !! ch0) eqn:E; simplify_eq/=. apply arrived_cons. eapply Hc; [done|by right].
  - apply Hold. revert Hq. unfold closeBeat. by case_bool_decide.
Qed.

Lemma answer_next e x d d' a s r id ch tid h :
  answer e x d = Some (d', a) ->
  (forall s r id ch, registered s r id ch h -> (ch < d_chanNext d)%nat) ->
  registered s r id ch (mkEntry tid e a :: h) -> (ch < d_chanNext d')%nat.
Proof.
  intros Ha Hn Hr. assert (Hle : (d_chanNext d <= d_chanNext d')%nat).
  { event_cases e; try lia.
    - unfold dropStream. case_bool_decide; simpl; lia.
    - unfold chanPut. destruct (_ <? _)%nat; simpl; lia.
    - unfold closeBeat. case_bool_decide; simpl; lia. }
  apply registered_cons_inv in Hr as [Hr|Hr]; [|apply Hn in Hr; lia].
  event_cases e. lia.
Qed.

Lemma answer_good tid lk e x w d' a :
  inv w -> pre tid lk e w -> answer e x (w_d w) = Some (d', a) -> good tid e a (w_hist w).
Proof.
  intros Hi Hpre Ha. event_cases e; try done.
  - intros id. unfold heldStops. by rewrite elem_of_sort_Strings, elem_of_elements, (inv_held _ Hi).
  - apply (inv_gen _ Hi).
  - unfold isReady. by rewrite (inv_ready _ Hi).
  - intros s0 w0 id0 Hr. apply (inv_next _ Hi) in Hr. simpl in Hr. lia.
  - intros q. apply (inv_pending _ Hi).
  - destruct b; naive_solver.
  - intros res [= <-]. destruct (d_chans (w_d w) !! ch) eqn:E; simplify_eq/=. eapply (inv_chans _ Hi); [done|by left].
  - intros robot. unfold readRobot. destruct (x_robot x) as [r|]; [|done].
    destruct (_ && _) eqn:E; [|done]. intros [= <-]. by str_bool.
  - by destruct msg.
Qed.

Lemma perform_inv tid lk e x w w' a : inv w -> pre tid lk e w -> perform tid e x w = Some (w', a) -> inv w'.
Proof.
  intros Hi Hpre Hp. unfold perform in Hp. destruct (answer e x (w_d w)) as [[d b]|] eqn:Ha; [|done]. simplify_eq.
  split; simpl w_d; simpl w_hist.
  - simpl. split; [eauto using answer_good|apply (inv_hist _ Hi)].
  - intros key. eapply answer_held; [done|]. apply (inv_held _ Hi).
  - intros key. eapply answer_gen; [done|]. apply (inv_gen _ Hi).
  - intros s. eapply answer_ready; [done|]. apply (inv_ready _ Hi).
  - intros id p. eapply answer_pending; [done|]. apply (inv_pending _ Hi).
  - intros ch q res. eauto using answer_chans.
  - intros s r id ch. eapply answer_next; [done|]. apply (inv_next _ Hi).
Qed.

(** ** Rules for programs *)

(** A claim about the history. *)
Definition hp (H : list Entry -> Prop) (w : World) : Prop := H (w_hist w).
Notation htriple tid lk H p lk' K :=
  (triple resp perform pre rely inv tid lk (hp H) p lk' (fun a => hp (K a))).

(** Claims that survive any quiet event, the thread's own too. *)
Definition lasting (lk : option string) (H : list Entry -> Prop) : Prop :=
  forall en h, quiet lk en -> H h -> H (en :: h).

(** Claims that survive whatever the others may do. *)
Definition steady (tid : nat) (lk : option string) (H : list Entry -> Prop) : Prop :=
  forall en h, en_tid en <> tid -> quiet lk en -> H h -> H (en :: h).

Lemma lasting_steady tid lk H : lasting lk H -> steady tid lk H.
Proof. intros Hl en h _. apply Hl. Qed.

Lemma steady_rely lk H tid w w' : steady tid lk H -> rely tid lk w w' -> hp H w -> hp H w'.
Proof.
  intros Hl (ext & Hw & F) HH. unfold hp in *. rewrite Hw. clear Hw.
  induction F as [|en ext [Ht Hq] _ IH]; simpl; auto.
Qed.

Lemma steady_last tid lk en H : lasting lk H -> steady tid lk (fun h => H h /\ lastOf tid h = Some en).
Proof. intros Hl en' h Hne Hq [HH Hlast]. split; [by apply Hl|]. simpl. by rewrite (proj2 (Nat.eqb_neq _ _)). Qed.

Lemma lasting_and lk H K : lasting lk H -> lasting lk K -> lasting lk (fun h => H h /\ K h).
Proof. intros H1 H2 en h Hq [? ?]. split; auto. Qed.

Lemma lasting_None lk H : lasting None H -> lasting lk H.
Proof. intros Hl en h _. apply Hl. by intros ? ?. Qed.

Lemma lasting_const lk (phi : Prop) : lasting lk (fun _ => phi).
Proof. by intros ? ? ? ?. Qed.

Lemma lasting_in lk en : lasting lk (fun h => en ∈ h).
Proof. intros en' h _ Hin. by right. Qed.

Lemma lasting_impl lk (phi : Prop) H : lasting lk H -> lasting lk (fun h => phi -> H h).
Proof. intros Hl en h Hq Hi Hp. auto. Qed.

Lemma lasting_ex {A} lk (H : A -> list Entry -> Prop) : (forall x, lasting lk (H x)) -> lasting lk (fun h => exists x, H x h).
Proof. intros Hl en h Hq [x Hx]. exists x. by apply Hl. Qed.

Lemma lasting_all {A} lk (H : A -> list Entry -> Prop) : (forall x, lasting lk (H x)) -> lasting lk (fun h => forall x, H x h).
Proof. intros Hl en h Hq Hx x. by apply Hl. Qed.

Lemma lasting_or lk H K : lasting lk H -> lasting lk K -> lasting lk (fun h => H h \/ K h).
Proof. intros H1 H2 en h Hq [?|?]; [left|right]; auto. Qed.

Lemma heldAfter_quiet key en h : addsTo key en = false -> heldAfter key (en :: h) ⊆ heldAfter key h.
Proof.
  intros Hq. destruct en as [t e a]. unfold addsTo in Hq. simpl in *.
  destruct e; simpl in *; try done; [by rewrite Hq|]. by destruct (String.prefix _ _).
Qed.

(** The stops in force on the robot whose lock is held only shrink. *)
Lemma lasting_held key ids : lasting (Some key) (fun h => heldAfter key h ⊆ ids).
Proof. intros en h Hq Hs. etrans; [by apply heldAfter_quiet, Hq|done]. Qed.

Lemma lasting_free key : lasting (Some key) (fun h => heldAfter key h = ∅).
Proof. intros en h Hq Hs. pose proof (heldAfter_quiet key en h (Hq _ eq_refl)). set_solver. Qed.

Lemma lasting_adds key (R : nat -> Prop) : lasting (Some key) (fun h => R (adds key h)).
Proof. intros en h Hq Hs. rewrite adds_cons. by rewrite (Hq _ eq_refl). Qed.

Lemma lasting_fenced lk s wireID id : lasting lk (fencedOn s wireID id).
Proof. intros en h _ (t & cmd & e & ? & ?). exists t, cmd, e. split; [by right|done]. Qed.

Lemma lasting_readBy lk tid namespace robot : lasting lk (readBy tid namespace robot).
Proof. intros en h _ [(b & ?)|(b & l & ? & ?)]; [left; exists b|right; exists b, l; split; [|done]]; by right. Qed.

Lemma lasting_arrived lk ch res : lasting lk (arrived ch res).
Proof. intros en h _. apply arrived_cons. Qed.

Lemma lasting_registered lk s r id ch : lasting lk (registered s r id ch).
Proof. intros en h _. apply registered_cons. Qed.

Lemma lasting_readSince tid robot cur : lasting (Some (keyOf robot)) (readSince tid robot cur).
Proof.
  intros en h Hq (live & n & h1 & h2 & -> & Hin & Ha). exists live, n, (en :: h1), h2.
  split_and!; [done|by right|]. by rewrite adds_cons, (Hq _ eq_refl).
Qed.

(** An event, when what is claimed after it is lasting. *)
Lemma htriple_vis {A} tid lk (H : list Entry -> Prop) e (k : resp e -> prog resp A) (K : resp e -> list Entry -> Prop) lk' Q :
  (forall w, inv w -> H (w_hist w) -> pre tid lk e w) ->
  (forall a, steady tid lk (K a)) ->
  (forall a h, H h -> good tid e a h -> K a (mkEntry tid e a :: h)) ->
  (forall a, htriple tid lk (K a) (k a) lk' Q) -> htriple tid lk H (Vis e k) lk' Q.
Proof.
  intros Hpre Hl HK Hk. split; [done|]. intros a. eapply triple_weaken; [|apply Hk].
  intros w' (w & x & w1 & Hi & HH & Hp & Hr). eapply steady_rely; [done|exact Hr|].
  unfold hp. rewrite (perform_hist _ _ _ _ _ _ Hp). apply HK; [done|].
  pose proof (inv_hist _ (perform_inv _ _ _ _ _ _ _ Hi (Hpre _ Hi HH) Hp)) as Ho.
  rewrite (perform_hist _ _ _ _ _ _ Hp) in Ho. by destruct Ho.
Qed.

(** The events that only look, or touch what no claim is about. *)
Definition plain (e : Ev) : bool :=
  match e with ESend _ (MCommand _) | EMarkReady _ _ | EAddHeld _ _ | EChanPut _ _ => false | _ => true end.

Lemma plain_quiet e tid a lk : plain e = true -> quiet lk (mkEntry tid e a).
Proof. intros Hp key _. unfold addsTo. simpl. by destruct e. Qed.

Lemma plain_pre tid lk e w : plain e = true -> pre tid lk e w.
Proof. destruct e; try done. simpl. by destruct msg. Qed.

(** A plain event keeps what is known, and adds itself and its answer to it. *)
Lemma htriple_plain {A} tid lk H e (k : resp e -> prog resp A) lk' Q :
  plain e = true -> lasting lk H ->
  (forall a, htriple tid lk (fun h => H h /\ mkEntry tid e a ∈ h) (k a) lk' Q) -> htriple tid lk H (Vis e k) lk' Q.
Proof.
  intros Hp Hl Hk. eapply htriple_vis; [intros; by apply plain_pre| | |exact Hk].
  - intros a. apply lasting_steady, lasting_and; [done|apply lasting_in].
  - intros a h HH _. split; [|by left]. apply Hl; [by apply plain_quiet|done].
Qed.

Lemma htriple_skip {A} tid lk H e (k : resp e -> prog resp A) lk' Q :
  plain e = true -> lasting lk H -> (forall a, htriple tid lk H (k a) lk' Q) -> htriple tid lk H (Vis e k) lk' Q.
Proof.
  intros Hp Hl Hk. apply htriple_plain; [done..|]. intros a. eapply triple_weaken; [|apply Hk]. by intros w [? _].
Qed.

Lemma htriple_weaken {A} tid lk (H H' : list Entry -> Prop) (p : prog resp A) lk' (K : A -> list Entry -> Prop) :
  (forall h, H' h -> H h) -> htriple tid lk H p lk' K -> htriple tid lk H' p lk' K.
Proof. intros Hw. apply triple_weaken. intros w. apply Hw. Qed.

Lemma htriple_bind {A B} tid lk H (p : prog resp A) (f : A -> prog resp B) lk1 K lk2 R :
  htriple tid lk H p lk1 K -> (forall a, htriple tid lk1 (K a) (f a) lk2 R) -> htriple tid lk H (pbind p f) lk2 R.
Proof. apply triple_bind. Qed.

Lemma htriple_ret {A} tid lk (H : list Entry -> Prop) (a : A) K : (forall h, H h -> K a h) -> htriple tid lk H (Ret a) lk K.
Proof. intros HK. split; [done|]. intros w. apply HK. Qed.

(** After an unlock, what lasts without the lock is still known. *)
Lemma htriple_unlock {A} tid key (H H' : list Entry -> Prop) (p : prog resp A) lk' K :
  lasting None H' -> (forall h, H h -> H' h) -> htriple tid None H' p lk' K -> htriple tid (Some key) H (Unlock key p) lk' K.
Proof.
  intros Hl Hw Hp. split; [done|]. eapply triple_weaken; [|exact Hp].
  intros w (w0 & H0 & Hr). eapply steady_rely; [by apply lasting_steady|exact Hr|]. by apply Hw.
Qed.

Lemma htriple_fork {A} tid lk H q (k : prog resp A) lk' K :
  (forall tid, htriple tid None (fun _ => True) q None (fun _ _ => True)) -> htriple tid lk H k lk' K ->
  htriple tid lk H (Fork q k) lk' K.
Proof. by split. Qed.

Lemma htriple_lock {A} tid key H (p : prog resp A) lk' K : htriple tid (Some key) H p lk' K -> htriple tid None H (Lock key p) lk' K.
Proof. by split. Qed.

End Logic.

Notation htriple g tid lk H p lk' K :=
  (triple resp perform (pre g) rely (inv g) tid lk (hp H) p lk' (fun a => hp (K a))).

#[export] Hint Resolve lasting_and lasting_const lasting_in lasting_impl lasting_held lasting_free lasting_fenced
  lasting_readBy lasting_arrived lasting_registered lasting_readSince lasting_ex lasting_all : swarm.
