(* ===== verification/DispatchProps.v ===== *)
(** The command dispatcher, its theorems: whatever the calls and however they interleave, the fence
    order, the motion gate, the leader term and the binding of results hold of everything sent. *)

From S2P Require Import Prelude.
From S2P Require Import Types.
From S2P Require Import Contract.
From S2P Require Import RobotId.
From S2P Require Import Conc.
From S2P Require Import EstopScope.
From S2P Require Import Command.
From S2P Require Import Dispatch.
From S2P Require Import DispatchInv.

(** A plain event whose answer is not used. *)
Ltac skip := apply htriple_skip; [reflexivity|auto 20 with swarm|intros ?].
(** A plain event whose answer is remembered. *)
Ltac note := apply htriple_plain; [reflexivity|auto 20 with swarm|intros ?].
Ltac ret := apply htriple_ret; auto.

Section Programs.
Context (g : Config).

Lemma send_ok tid lk H s cmd :
  lasting lk H -> (forall h, H h -> armGood g tid s cmd h) ->
  htriple g tid lk H (send g s cmd) lk
    (fun err h => H h /\ (err = None -> exists t, mkEntry tid (ESend s (MCommand (stamped cmd t))) true ∈ h)).
Proof.
  intros Hl Harm.
  assert (Hgo : forall cmd' H', (forall h, H' h -> H h /\ termGood g tid cmd' h /\ armGood g tid s cmd' h) ->
    (exists t, cmd' = stamped cmd t) ->
    htriple g tid lk H' (Vis (ESend s (MCommand cmd')) (fun sent : bool => Ret (if sent then None else Some ErrUnreachable))) lk
      (fun err h => H h /\ (err = None -> exists t, mkEntry tid (ESend s (MCommand (stamped cmd t))) true ∈ h))).
  { intros cmd' H' Hok [t ->].
    apply (htriple_vis g tid lk H' (ESend s (MCommand (stamped cmd t))) _
             (fun sent h => H h /\ (sent = true -> mkEntry tid (ESend s (MCommand (stamped cmd t))) true ∈ h))).
    - intros w _ HH. by apply Hok.
    - intros a. apply lasting_steady. auto with swarm.
    - intros a h HH _. split; [apply Hl; [by intros ? ?|by apply Hok]|]. intros ->. by left.
    - intros a. apply htriple_ret. intros h [? Hs]. split; [done|]. destruct a; [|done]. eauto. }
  unfold send. destruct (g_Term g) eqn:Eg.
  - apply (htriple_vis g tid lk H ETerm _ (fun a h => H h /\ lastOf tid h = Some (mkEntry tid ETerm a))).
    + done.
    + intros a. by apply steady_last.
    + intros a h HH _. split; [apply Hl; [by intros ? ?|done]|]. simpl. by rewrite Nat.eqb_refl.
    + intros [t b]. simpl. destruct b; simpl; [|by apply htriple_ret; intros h [? _]].
      apply Hgo; [|eauto]. intros h [HH Hlast]. split_and!; [done|by intros _|by apply Harm].
  - apply Hgo; [|by exists (c_LeaderTerm cmd); destruct cmd]. intros h HH. split_and!; [done| |by apply Harm].
    intros He. congruence.
Qed.

Lemma awaitResult_ok tid ch : htriple g tid None (fun _ => True) (awaitResult ch) None (fun _ _ => True).
Proof. unfold awaitResult. cbn [pbind trigger]. skip. ret. Qed.

(** The end of every round trip, once the lock is gone. *)
Lemma finish_ok tid (err : option cmdError) (id : Z) ch :
  htriple g tid None (fun _ => True)
    (let* out := match err with Some e => Ret (Err e) | None => awaitResult ch end in
     let* _ := trigger (EDeregister id) in Ret out) None (fun _ _ => True).
Proof.
  eapply (htriple_bind g _ _ _ _ _ None (fun _ _ => True)); [destruct err; [ret|apply awaitResult_ok]|].
  intros out. cbn [pbind trigger]. skip. ret.
Qed.

(** A Command that neither gives work nor lets a robot move. *)
Definition freeArm (arm : CommandArm) : bool :=
  match arm with CAssignAction _ | CZoneAdmission _ true | CReservationGranted _ => false | _ => true end.

Lemma freeArm_good tid s cmd h : freeArm (c_Command cmd) = true -> armGood g tid s cmd h.
Proof. unfold armGood. destruct (c_Command cmd) as [| | | | | | | |? []| | |]; done. Qed.

Lemma roundTripTo_ok tid robot cmd :
  freeArm (c_Command cmd) = true ->
  htriple g tid None (fun _ => True) (roundTripTo g robot cmd) None (fun _ _ => True).
Proof.
  intros Hf. unfold roundTripTo. cbn [pbind trigger]. skip. destruct a as [s|]; [|ret]. skip.
  eapply htriple_bind; [apply send_ok; [auto with swarm|by intros; apply freeArm_good]|].
  intros err. eapply htriple_weaken; [|apply finish_ok]. done.
Qed.

Lemma roundTrip_ok tid namespace robotID cmd :
  freeArm (c_Command cmd) = true ->
  htriple g tid None (fun _ => True) (roundTrip g namespace robotID cmd) None (fun _ _ => True).
Proof.
  intros Hf. unfold roundTrip. cbn [pbind trigger]. skip. destruct a as [robot|]; [by apply roundTripTo_ok|ret].
Qed.

(** ** Fences *)

Lemma sendFenceOn_ok tid lk H s wireID id estop :
  lasting lk H ->
  htriple g tid lk H (sendFenceOn g s wireID id estop) lk (fun err h => H h /\ (err = None -> fencedOn s wireID id h)).
Proof.
  intros Hl. unfold sendFenceOn. cbn [pbind trigger]. skip.
  eapply htriple_bind; [apply send_ok; [done|by intros; apply freeArm_good]|].
  intros [e|]; cbn beta.
  - skip. ret. intros h [? _]. done.
  - apply htriple_fork; [intros t; cbn [pbind trigger]; skip; skip; ret|].
    apply htriple_ret. intros h [HH Hs]. split; [done|]. intros _. destruct (Hs eq_refl) as [t Ht].
    exists tid. eexists _, _. split; [exact Ht|]. done.
Qed.

Lemma SendFence_ok tid robot id estop :
  htriple g tid None (fun _ => True) (SendFence g robot id estop) None (fun _ _ => True).
Proof.
  unfold SendFence. apply htriple_lock. cbn [pbind trigger].
  apply (htriple_vis g _ _ _ (EAddHeld (keyOf robot) id) _ (fun _ _ => True)); [done|done|done|]. intros _. skip.
  eapply (htriple_bind g _ _ _ _ _ _ (fun _ _ => True)).
  - destruct a as [s|]; [|ret]. eapply triple_conseq; [|apply sendFenceOn_ok; auto with swarm]. done.
  - intros err. apply (htriple_unlock g _ _ _ (fun _ => True)); [done..|]. ret.
Qed.

Lemma SendClearedFence_ok tid robot id estop :
  htriple g tid None (fun _ => True) (SendClearedFence g robot id estop) None (fun _ _ => True).
Proof.
  unfold SendClearedFence. apply htriple_lock. cbn [pbind trigger]. skip.
  eapply (htriple_bind g _ _ _ _ _ _ (fun _ _ => True)).
  - destruct a as [s|]; [|ret]. eapply triple_conseq; [|apply sendFenceOn_ok; auto with swarm]. done.
  - intros err. apply (htriple_unlock g _ _ _ (fun _ => True)); [done..|]. ret.
Qed.

Lemma addAllHeld_ok tid key H ids :
  lasting None H ->
  htriple g tid (Some key) H (addAllHeld key ids) (Some key)
    (fun _ h => H h /\ forall id, id ∈ ids -> mkEntry tid (EAddHeld key id) tt ∈ h).
Proof.
  revert H. induction ids as [|id ids IH]; intros H Hl; simpl.
  - apply htriple_ret. intros h HH. split; [done|]. by intros ? ?%not_elem_of_nil.
  - cbn [pbind trigger]. apply (htriple_vis g _ _ _ (EAddHeld key id) _ (fun _ h => H h /\ mkEntry tid (EAddHeld key id) tt ∈ h)).
    + done.
    + intros a. apply lasting_steady, lasting_and; [by apply lasting_None|apply lasting_in].
    + intros [] h HH _. split; [|by left]. apply Hl; [by intros ? ?|done].
    + intros _. eapply triple_conseq; [|apply IH; auto with swarm].
      intros [] w [[HH Hin] Hall]. split; [done|]. intros id' [->|Hid]%elem_of_cons; auto.
Qed.

Lemma sendFences_ok tid lk H s wireID ids :
  lasting lk H ->
  htriple g tid lk H (sendFences g s wireID ids) lk
    (fun err h => H h /\ (err = None -> forall id, id ∈ ids -> fencedOn s wireID id h)).
Proof.
  revert H. induction ids as [|id ids IH]; intros H Hl; cbn [sendFences pbind trigger].
  - apply htriple_ret. intros h HH. split; [done|]. by intros _ ? ?%not_elem_of_nil.
  - skip. eapply htriple_bind; [by apply sendFenceOn_ok|]. intros [e|]; cbn beta.
    + apply htriple_ret. by intros h [? _].
    + eapply triple_conseq; [|apply IH].
      * intros err w [[HH Hf] Hall]. split; [done|]. intros He id' [->|Hid]%elem_of_cons; auto.
      * auto with swarm.
Qed.

Lemma fenceOnRegister_ok tid H s wireID namespace robot key :
  lasting None H -> (forall h, H h -> Wire robot = wireID /\ key = robotKey namespace (r_Name robot) (r_UID robot) /\ readBy tid namespace robot h) ->
  htriple g tid (Some key) H (fenceOnRegister g s wireID robot key) (Some key)
    (fun err h => H h /\ (err = None -> mkEntry tid (EMarkReady s wireID) tt ∈ h)).
Proof.
  intros Hl Hread. unfold fenceOnRegister.
  eapply htriple_bind; [by apply addAllHeld_ok|]. intros []. cbn [pbind trigger].
  set (H1 := fun h => H h /\ forall id, id ∈ recordedStops robot -> mkEntry tid (EAddHeld key id) tt ∈ h).
  assert (Hl1 : lasting (Some key) H1) by (subst H1; apply lasting_and; [by apply lasting_None|auto with swarm]).
  apply (htriple_vis g _ _ _ (EHeldStops key) _ (fun ids h => H1 h /\ heldAfter key h ⊆ list_to_set ids)); [done| | |].
  - intros ids. apply lasting_steady. auto with swarm.
  - intros ids h HH Hg. split; [apply Hl1; [by intros ? ?|done]|]. intros id. simpl. rewrite elem_of_list_to_set. apply Hg.
  - intros ids. eapply htriple_bind; [apply sendFences_ok; auto with swarm|]. intros [e|]; cbn beta.
    + apply htriple_ret. by intros h [[[? _] _] _].
    + apply (htriple_vis g _ _ _ (EMarkReady s wireID) _
               (fun _ h => H h /\ mkEntry tid (EMarkReady s wireID) tt ∈ h)).
      * intros w _ [[[HH Hadd] Hsub] Hf]. exists namespace, robot. destruct (Hread _ HH) as (? & -> & ?). split; [done|]. split; [done|]. split; [done|].
        intros id Hid. apply Hf; [done|]. apply Hsub in Hid. by rewrite elem_of_list_to_set in Hid.
      * intros a. apply lasting_steady, lasting_and; [by apply lasting_None|apply lasting_in].
      * intros [] h [[[HH _] _] _] _. split; [|by left]. apply Hl; [by intros ? ?|done].
      * intros _. apply htriple_ret. by intros h [? ?].
Qed.

Lemma lookupRetried_ok tid namespace wireID n :
  htriple g tid None (fun _ => True) (lookupRetried g namespace wireID n) None
    (fun got h => forall robot, got = Some robot -> Wire robot = wireID /\ readBy tid namespace robot h).
Proof.
  induction n as [|n IH]; cbn [lookupRetried pbind trigger]; [ret; done|]. note.
  destruct (Lookup a wireID) as [[r|]|] eqn:E; [|by eapply htriple_weaken; [|exact IH]..].
  apply Lookup_found in E as (l & -> & Hin & Hw). apply htriple_ret. intros h [_ Hen] robot [= <-].
  split; [done|]. right. eauto.
Qed.

Lemma RobotRegistered_ok tid s namespace wireID :
  htriple g tid None (fun _ => True) (RobotRegistered g s namespace wireID) None (fun _ _ => True).
Proof.
  unfold RobotRegistered. cbn [pbind trigger]. skip.
  eapply htriple_bind; [apply lookupRetried_ok|]. intros [robot|]; cbn beta; [|ret; done].
  apply htriple_lock. eapply (htriple_bind g _ _ _ _ _ _ (fun _ _ => True)).
  - eapply triple_conseq; [|eapply htriple_weaken; [|apply (fenceOnRegister_ok tid
      (fun h => Wire robot = wireID /\ readBy tid namespace robot h) s wireID namespace)]];
      [done|intros h HH; by apply HH|auto with swarm|naive_solver].
  - intros _. apply (htriple_unlock g _ _ _ (fun _ => True)); [done..|]. ret.
Qed.

(** ** Assignments *)

Lemma sendAndWait_ok tid s robot key cmd K :
  lasting (Some key) K -> (forall id h, K h -> armGood g tid s (addressed cmd (Wire robot) id) h) ->
  htriple g tid (Some key) K (sendAndWait g s robot key cmd) None (fun _ _ => True).
Proof.
  intros Hl Harm. unfold sendAndWait. cbn [pbind trigger]. skip.
  eapply htriple_bind; [apply send_ok; eauto|].
  intros err. apply (htriple_unlock g _ _ _ (fun _ => True)); [done..|]. apply finish_ok.
Qed.

(** What roundTripAssign has established when its checks pass. *)
Definition cleared (tid : nat) (s : Sender) (robot : Robot) (key : string) (h : list Entry) : Prop :=
  heldAfter key h = ∅ /\
  (g_RequireRegister g = true -> exists t, mkEntry t (EMarkReady s (Wire robot)) tt ∈ h) /\
  (g_RequireContract g = true -> exists v, mkEntry tid (EContract s) (Some v) ∈ h /\ Below v latchContractMin = Some false).

Lemma lasting_cleared tid s robot key : lasting (Some key) (cleared tid s robot key).
Proof. apply lasting_and; [apply lasting_free|]. auto 20 with swarm. Qed.

Lemma boundByLatch_ok tid lk H s :
  lasting lk H ->
  htriple g tid lk H (boundByLatch s) lk
    (fun b h => H h /\ (b = true -> exists v, mkEntry tid (EContract s) (Some v) ∈ h /\ Below v latchContractMin = Some false)).
Proof.
  intros Hl. unfold boundByLatch. cbn [pbind trigger]. note. apply htriple_ret. intros h [HH Hen]. split; [done|].
  intros Hb. destruct a as [v|]; [|done]. exists v. destruct (Below v latchContractMin) as [[]|]; done.
Qed.

(** Reading no stop in force under the lock. *)
Lemma htriple_heldStops {A} tid key H (k : list string -> prog resp A) lk' Q :
  lasting (Some key) H ->
  (forall stops, htriple g tid (Some key) (fun h => H h /\ (stops = [] -> heldAfter key h = ∅)) (k stops) lk' Q) ->
  htriple g tid (Some key) H (Vis (EHeldStops key) k) lk' Q.
Proof.
  intros Hl Hk. apply (htriple_vis g _ _ _ (EHeldStops key) _ (fun stops h => H h /\ (stops = [] -> heldAfter key h = ∅))).
  - done.
  - intros stops. apply lasting_steady. auto with swarm.
  - intros stops h HH Hg. split; [apply Hl; [by intros ? ?|done]|]. intros ->. simpl. apply set_eq. intros id.
    split; [intros Hid%Hg; by apply not_elem_of_nil in Hid|set_solver].
  - apply Hk.
Qed.

Lemma assignChecks_ok tid H s namespace robot key :
  lasting None H -> (forall h, H h -> key = robotKey namespace (r_Name robot) (r_UID robot) /\ readBy tid namespace robot h) ->
  htriple g tid (Some key) H (assignChecks g s robot key) (Some key)
    (fun err h => err = None -> H h /\ cleared tid s robot key h).
Proof.
  intros Hl Hread. unfold assignChecks.
  set (B := fun h : list Entry => g_RequireContract g = true ->
    exists v, mkEntry tid (EContract s) (Some v) ∈ h /\ Below v latchContractMin = Some false).
  assert (HB : lasting None (fun h => H h /\ B h)) by (apply lasting_and; [done|subst B; auto 20 with swarm]).
  assert (HBk : lasting (Some key) (fun h => H h /\ B h)) by (by apply lasting_None).
  eapply (htriple_bind g _ _ _ _ _ _ (fun b h => H h /\ (b = true -> B h))).
  { destruct (g_RequireContract g) eqn:E.
    - eapply triple_conseq; [|apply boundByLatch_ok; by apply lasting_None]. intros b w [? Hb]. split; [done|]. intros -> _. by apply Hb.
    - apply htriple_ret. intros h HH. split; [done|]. intros _ ?. congruence. }
  intros [|]; cbn [negb pbind trigger]; [|by apply htriple_ret].
  eapply (htriple_weaken g _ _ (fun h => H h /\ B h)); [naive_solver|].
  apply htriple_heldStops; [done|]. intros stops. case_bool_decide as Hs; cbn [negb]; [|by apply htriple_ret].
  destruct (g_RequireRegister g) eqn:ER; cbn [negb].
  2: { apply htriple_ret. intros h [[HH Hb] Hf] _. unfold cleared; split_and!; [done|auto|intros ?; congruence|done]. }
  apply (htriple_vis g _ _ _ (EIsReady s (Wire robot)) _
           (fun b h => ((H h /\ B h) /\ (stops = [] -> heldAfter key h = ∅)) /\
              (b = true -> exists t, mkEntry t (EMarkReady s (Wire robot)) tt ∈ h))).
  { done. }
  { intros b. apply lasting_steady. auto 20 with swarm. }
  { intros b h Hh Hg. split.
    - destruct Hh as [Hh Hf]. split; [apply HBk; [by intros ? ?|done]|]. intros Hst. apply lasting_free; [by intros ? ?|auto].
    - intros ->. simpl in Hg. symmetry in Hg. apply bool_decide_eq_true in Hg.
      apply readyAfter_marked in Hg as [t Ht]. exists t. by right. }
  intros [|].
  { apply htriple_ret. intros h [[[HH Hb] Hf] Hr] _. unfold cleared. split_and!; auto. }
  eapply (htriple_weaken g _ _ (fun h => H h /\ B h)); [naive_solver|].
  skip. destruct a; cbn [negb]; [|by apply htriple_ret].
  eapply htriple_bind; [apply (fenceOnRegister_ok tid (fun h => H h /\ B h) s (Wire robot) namespace robot); [done|]|].
  { intros h [HH _]. by destruct (Hread _ HH). }
  intros [e|]; cbn [pbind trigger]; [by apply htriple_ret|].
  apply htriple_heldStops; [apply lasting_and; [done|auto with swarm]|].
  intros stops'. apply htriple_ret. intros h [[[HH Hb] Hm] Hf] Hnone.
  case_bool_decide as Hs'; [|done]. unfold cleared. split_and!; [done|auto| |done]. intros _. exists tid. by apply Hm.
Qed.

Definition isAssign (arm : CommandArm) : bool := match arm with CAssignAction _ => true | _ => false end.

Lemma roundTripAssign_ok tid namespace name cmd :
  isAssign (c_Command cmd) = true ->
  htriple g tid None (fun _ => True) (roundTripAssign g namespace name cmd) None (fun _ _ => True).
Proof.
  intros Hcmd. unfold roundTripAssign. cbn [pbind trigger].
  set (R := fun robot (h : list Entry) => mkEntry tid (EGetRobot false namespace (r_Name robot)) (Some robot) ∈ h /\ r_Name robot = name).
  assert (HR : forall robot, lasting None (R robot)) by (intros; subst R; cbn beta; auto with swarm).
  apply (htriple_vis g _ _ _ (EGetRobot false namespace name) _ (fun got h => forall r, got = Some r -> R r h)).
  { done. }
  { intros got. apply lasting_steady. auto with swarm. }
  { intros got h _ Hg r ->. destruct (Hg r eq_refl) as [_ <-]. split; [by left|done]. }
  intros [robot|]; [|by apply htriple_ret].
  apply (htriple_weaken g _ _ (R robot)); [naive_solver|].
  apply htriple_lock. cbn [pbind trigger]. apply htriple_skip; [done|by apply lasting_None|]. intros [s|].
  2: { apply (htriple_unlock g _ _ _ (fun _ => True)); [done..|]. ret. }
  eapply htriple_bind; [apply (assignChecks_ok tid (R robot) s namespace robot); [done|]|].
  { intros h [? <-]. split; [done|]. left. eauto. }
  intros [e|]; cbn beta.
  { apply (htriple_unlock g _ _ _ (fun _ => True)); [done..|]. ret. }
  eapply htriple_weaken; [|apply (sendAndWait_ok tid s robot _ cmd
    (fun h => R robot h /\ cleared tid s robot (robotKey namespace name (r_UID robot)) h))].
  - naive_solver.
  - apply lasting_and; [by apply lasting_None|apply lasting_cleared].
  - intros id h [[Hin Hn] (Hf & Hr & Hc)]. unfold armGood. simpl. destruct (c_Command cmd); try done.
    exists namespace, robot. rewrite Hn. rewrite Hn in Hin. split_and!; done.
Qed.

(** ** Motion *)

Lemma sendUnderLock_ok tid robot cmd check H K :
  lasting (Some (keyOf robot)) K ->
  htriple g tid (Some (keyOf robot)) H check (Some (keyOf robot)) (fun err h => err = None -> K h) ->
  (forall s id h, K h -> armGood g tid s (addressed cmd (Wire robot) id) h) ->
  htriple g tid None H (sendUnderLock g robot cmd check) None (fun _ _ => True).
Proof.
  intros Hl Hcheck Harm. unfold sendUnderLock. apply htriple_lock.
  eapply htriple_bind; [exact Hcheck|]. intros [e|]; cbn [pbind trigger].
  { apply (htriple_unlock g _ _ _ (fun _ => True)); [done..|]. ret. }
  eapply (htriple_weaken g _ _ K); [naive_solver|]. skip. destruct a as [s|].
  - apply sendAndWait_ok; auto.
  - apply (htriple_unlock g _ _ _ (fun _ => True)); [done..|]. ret.
Qed.

(** The count of stops was [gen] when the thread began to look, and it has since read the robot as [cur]. *)
Definition lookedAt (tid : nat) (robot cur : Robot) (gen : Z) (h : list Entry) : Prop :=
  exists (live : bool) (h1 h2 : list Entry),
    h = h1 ++ mkEntry tid (EStopGen (keyOf robot)) gen :: h2 /\
    mkEntry tid (EGetRobot live (r_Namespace robot) (r_Name robot)) (Some cur) ∈ h1 /\
    gen = Z.of_nat (adds (keyOf robot) h2) mod 2 ^ 64.

Lemma lasting_lookedAt lk tid robot cur gen : lasting lk (lookedAt tid robot cur gen).
Proof. intros en h _ (live & h1 & h2 & -> & ? & ?). exists live, (en :: h1), h2. split_and!; [done|by right|done]. Qed.

Lemma adds_app key h1 h2 : adds key (h1 ++ h2) = (adds key h1 + adds key h2)%nat.
Proof. induction h1 as [|en h1 IH]; [done|]. cbn [app]. rewrite !adds_cons, IH. lia. Qed.

Lemma lookedAt_since tid robot cur gen h :
  lookedAt tid robot cur gen h -> gen = Z.of_nat (adds (keyOf robot) h) mod 2 ^ 64 -> readSince tid robot cur h.
Proof.
  intros (live & h1 & h2 & -> & Hin & Hg) Hg'. exists live, gen, h1, h2. split_and!; [done..|].
  rewrite adds_app, adds_cons in Hg'. simpl in Hg'. rewrite Hg in Hg'. rewrite Nat2Z.inj_add in Hg'.
  apply Z.mod_divide; [done|].
  assert (Hd : (Z.of_nat (adds (keyOf robot) h1) + Z.of_nat (adds (keyOf robot) h2) - Z.of_nat (adds (keyOf robot) h2)) mod 2 ^ 64 = 0).
  { rewrite Zminus_mod, <- Hg', Z.sub_diag. done. }
  apply Z.mod_divide in Hd; [|done]. by rewrite Z.add_simpl_r in Hd.
Qed.

Definition motionClear (tid : nat) (robot cur : Robot) (h : list Entry) : Prop :=
  heldByStop cur = false /\ heldAfter (keyOf robot) h = ∅ /\ readSince tid robot cur h.

Lemma motionCheck_ok tid robot cur m released gen last :
  htriple g tid (Some (keyOf robot)) (lookedAt tid robot cur gen) (motionCheck (keyOf robot) m released gen cur last)
    (Some (keyOf robot)) (fun err h => err = None -> motionClear tid robot cur h).
Proof.
  unfold motionCheck. pose proof (lasting_lookedAt (Some (keyOf robot)) tid robot cur gen) as Hl.
  eapply (htriple_bind g _ _ _ _ _ _ (fun _ => lookedAt tid robot cur gen)).
  { destruct released; [|by apply htriple_ret]. unfold trigger. apply htriple_skip; [done..|]. intros a. by apply htriple_ret. }
  intros [|]; cbn [negb pbind trigger]; [|by apply htriple_ret].
  apply htriple_heldStops; [done|]. intros stops. skip.
  set (N := fun h => lookedAt tid robot cur gen h /\ (stops = [] -> heldAfter (keyOf robot) h = ∅)).
  assert (HN : lasting (Some (keyOf robot)) N) by (subst N; auto with swarm).
  destruct (negb (a =? gen) && negb last).
  { eapply (htriple_bind g _ _ _ _ _ _ (fun _ _ => True)); [|intros; by apply htriple_ret].
    destruct released; [|by apply htriple_ret]. unfold trigger. apply htriple_skip; [done..|]. intros ?. by apply htriple_ret. }
  case_bool_decide as Hs; cbn [negb orb].
  2: { apply htriple_skip; [done..|]. intros ?. by apply htriple_ret. }
  cbn [pbind trigger].
  apply (htriple_vis g _ _ _ (EStopGen (keyOf robot)) _
           (fun n h => N h /\ (n = gen -> readSince tid robot cur h))).
  { done. }
  { intros n. apply lasting_steady. auto with swarm. }
  { intros n h [Hla Hf] Hg. split; [apply HN; [by intros ? ?|done]|]. intros Hn.
    apply lasting_readSince; [by intros ? ?|]. eapply lookedAt_since; [exact Hla|]. by rewrite <- Hn. }
  intros n. destruct (Z.eqb_spec n gen) as [->|Hne]; cbn [negb orb].
  - destruct (heldByStop cur) eqn:Ec.
    + apply htriple_skip; [done|auto with swarm|]. intros ?. by apply htriple_ret.
    + apply htriple_ret. intros h [[_ Hf] Hr] _. unfold motionClear. split_and!; auto.
  - apply htriple_skip; [done|auto with swarm|]. intros ?. by apply htriple_ret.
Qed.

Definition isMotion (arm : CommandArm) : bool :=
  match arm with CZoneAdmission _ true | CReservationGranted _ => true | _ => false end.

Lemma sendMotionLoop_ok tid robot m cmd released more :
  isMotion (c_Command cmd) = true ->
  htriple g tid None (fun _ => True) (sendMotionLoop g robot m cmd released more) None (fun _ _ => True).
Proof.
  intros Hcmd. induction more as [|more IH]; cbn [sendMotionLoop pbind trigger].
  all: apply (htriple_vis g _ _ _ (EStopGen (keyOf robot)) _ (fun gen h => exists h1 h2,
    h = h1 ++ mkEntry tid (EStopGen (keyOf robot)) gen :: h2 /\ gen = Z.of_nat (adds (keyOf robot) h2) mod 2 ^ 64));
    [done|intros gen en h _ _ (h1 & h2 & -> & Hg); by exists (en :: h1), h2|intros gen h _ Hg; by exists [], h|intros gen].
  all: apply (htriple_vis g _ _ _ (EGetRobot (g_APIReader g) (r_Namespace robot) (r_Name robot)) _
    (fun got h => forall cur, got = Some cur -> lookedAt tid robot cur gen h));
    [done|intros got; apply lasting_steady, lasting_all; intros cur; apply lasting_impl, lasting_lookedAt
    |intros got h (h1 & h2 & -> & Hg) _ cur ->; eexists _, (_ :: h1), h2; split_and!; [reflexivity|by left|done]|].
  all: intros [cur|]; [|by apply htriple_ret].
  all: apply (htriple_weaken g _ _ (lookedAt tid robot cur gen)); [naive_solver|].
  all: eapply (htriple_bind g _ _ _ _ _ _ (fun _ _ => True));
    [apply (sendUnderLock_ok _ _ _ _ _ (motionClear tid robot cur));
      [unfold motionClear; auto 20 with swarm|apply motionCheck_ok|]|].
  1, 3: intros s id h (Hc & Hf & Hr); unfold armGood; simpl;
    destruct (c_Command cmd) as [| | | | | | | |? []| | |]; try done; exists robot, cur; auto.
  - intros [|[]]; by apply htriple_ret.
  - intros [|[]]; first [exact IH|by apply htriple_ret].
Qed.

Lemma roundTripHold_ok tid robot m cmd :
  freeArm (c_Command cmd) = true ->
  htriple g tid None (fun _ => True) (roundTripHold g robot m cmd) None (fun _ _ => True).
Proof.
  intros Hf. apply (sendUnderLock_ok _ _ _ _ _ (fun _ => True)); [done| |].
  - cbn [pbind trigger]. apply htriple_skip; [done..|]. intros ?. by apply htriple_ret.
  - intros s id h _. by apply freeArm_good.
Qed.

Lemma sendReleased_ok tid namespace robot key todo :
  htriple g tid None (fun _ => True) (sendReleased g namespace robot key todo) None (fun _ _ => True).
Proof.
  induction todo as [|m todo IH]; cbn [sendReleased]; [by apply htriple_ret|].
  eapply (htriple_bind g _ _ _ _ _ None (fun _ _ => True)); [|intros; exact IH].
  destruct (m_zone m <>s ""); cbn [pbind trigger].
  - eapply (htriple_bind g _ _ _ _ _ _ (fun _ _ => True)); [by apply sendMotionLoop_ok|]. intros ?. by apply htriple_ret.
  - skip. destruct (negb (promotionStands a m)); cbn [pbind trigger].
    + apply htriple_skip; [done..|]. intros ?. by apply htriple_ret.
    + eapply (htriple_bind g _ _ _ _ _ _ (fun _ _ => True)); [by apply sendMotionLoop_ok|]. intros ?. by apply htriple_ret.
Qed.

Lemma RobotReleased_ok tid namespace robot :
  htriple g tid None (fun _ => True) (RobotReleased g namespace robot) None (fun _ _ => True).
Proof.
  unfold RobotReleased. cbn [pbind trigger]. apply htriple_skip; [done..|]. intros [key todo]. simpl snd. simpl fst.
  destruct todo as [|m todo]; [by apply htriple_ret|]. apply htriple_fork; [|by apply htriple_ret].
  intros t. cbn [pbind trigger]. skip. destruct a as [r|]; [|by apply htriple_ret].
  destruct (_ <>s _); [by apply htriple_ret|apply sendReleased_ok].
Qed.

(** ** Results and the rest *)

Lemma RouteResult_ok tid s res :
  htriple g tid None (fun _ => True) (RouteResult s res) None (fun _ _ => True).
Proof.
  unfold RouteResult. cbn [pbind trigger]. note.
  apply (htriple_vis g _ _ _ (EPending (cr_CommandId res)) _ (fun p h => mkEntry tid (EArrives s res) tt ∈ h /\
    forall q, p = Some q -> registered (pc_sender q) (pc_robotID q) (cr_CommandId res) (pc_ch q) h)).
  { done. }
  { intros p. apply lasting_steady. auto with swarm. }
  { intros p h [_ Hin] Hg. destruct a. split; [by right|]. intros q Hq. by apply registered_cons, Hg. }
  intros [p|]; [|by apply htriple_ret].
  destruct (Nat.eqb_spec (pc_sender p) s) as [<-|]; cbn [negb]; [|by apply htriple_ret].
  destruct (String.eqb_spec (cr_RobotId res) (pc_robotID p)) as [Hr|]; cbn [negb]; [|by apply htriple_ret].
  apply (htriple_vis g _ _ _ (EChanPut (pc_ch p) res) _ (fun _ _ => True)); [|done|done|intros; by apply htriple_ret].
  intros w _ [Hin Hp]. simpl. exists (pc_sender p), tid. rewrite Hr. split; [by apply Hp|done].
Qed.

Lemma Heartbeat_ok tid namespace robotID :
  htriple g tid None (fun _ => True) (Heartbeat namespace robotID) None (fun _ _ => True).
Proof.
  unfold Heartbeat. cbn [pbind trigger]. skip. destruct a as [robot|]; [|by apply htriple_ret].
  skip. destruct a as [s|]; [|by apply htriple_ret]. do 3 skip.
  eapply (htriple_bind g _ _ _ _ _ None (fun _ _ => True)).
  - destruct a1; cbn [negb pbind trigger]; [|by apply htriple_ret]. skip. by apply htriple_ret.
  - intros out. cbn [pbind trigger]. skip. by apply htriple_ret.
Qed.

Lemma adapterBeats_ok tid identity s ticks :
  htriple g tid None (fun _ => True) (adapterBeats identity s ticks) None (fun _ _ => True).
Proof.
  induction ticks as [|ticks IH]; cbn [adapterBeats]; [by apply htriple_ret|].
  eapply (htriple_bind g _ _ _ _ _ None (fun _ _ => True)).
  - unfold beatPeriod. eapply (htriple_bind g _ _ _ _ _ None (fun _ _ => True)); [|intros; by apply htriple_ret].
    destruct (_ && _); [|by apply htriple_ret]. unfold trigger. skip. by apply htriple_ret.
  - intros period. cbn [pbind trigger]. do 3 skip. destruct a1; [exact IH|by apply htriple_ret].
Qed.

Lemma discard_ok {A} tid (p : prog resp A) :
  htriple g tid None (fun _ => True) p None (fun _ _ => True) ->
  htriple g tid None (fun _ => True) (discard p) None (fun _ _ => True).
Proof. intros Hp. eapply htriple_bind; [exact Hp|]. intros a. by apply htriple_ret. Qed.

(** A push is a round trip and the binding of its result. *)
Lemma bound_ok {A B} tid (p : prog resp A) (f : A -> B) :
  htriple g tid None (fun _ => True) p None (fun _ _ => True) ->
  htriple g tid None (fun _ => True) (let* out := p in Ret (f out)) None (fun _ _ => True).
Proof. intros Hp. eapply htriple_bind; [exact Hp|]. intros a. by apply htriple_ret. Qed.

Lemma PushReservationGranted_ok tid namespace robotID resource :
  htriple g tid None (fun _ => True) (PushReservationGranted g namespace robotID resource) None (fun _ _ => True).
Proof.
  unfold PushReservationGranted. cbn [pbind trigger]. skip.
  destruct (Lookup a robotID) as [[r|]|]; [|by apply htriple_ret..]. by apply bound_ok, sendMotionLoop_ok.
Qed.

Lemma PushZoneAdmission_ok tid namespace robotID zone admits :
  htriple g tid None (fun _ => True) (PushZoneAdmission g namespace robotID zone admits) None (fun _ _ => True).
Proof.
  unfold PushZoneAdmission. cbn [pbind trigger]. skip. destruct a as [r|]; [|by apply htriple_ret].
  apply bound_ok. destruct admits; [by apply sendMotionLoop_ok|by apply roundTripHold_ok].
Qed.

Lemma Verify_ok tid namespace robotID req :
  htriple g tid None (fun _ => True) (Verify g namespace robotID req) None (fun _ _ => True).
Proof.
  unfold Verify, buildVerifyCommand. repeat case_if_eqn; try (by apply bound_ok, roundTrip_ok). by apply htriple_ret.
Qed.

(** Every call respects the conditions, whatever runs beside it. *)
Lemma progOf_ok tid c : htriple g tid None (fun _ => True) (progOf g c) None (fun _ _ => True).
Proof.
  destruct c; simpl progOf; unfold detached;
    try (apply htriple_fork; [intros t|by apply htriple_ret]); try apply discard_ok;
    try (by apply bound_ok, roundTrip_ok);
    eauto using SendFence_ok, SendClearedFence_ok, RobotRegistered_ok, RobotReleased_ok, RouteResult_ok, Heartbeat_ok,
      Verify_ok, PushReservationGranted_ok, PushZoneAdmission_ok.
  - unfold StreamNegotiated. cbn [pbind trigger]. skip. destruct a; cbn [negb pbind trigger]; [skip|]; by apply htriple_ret.
  - unfold trigger. skip. by apply htriple_ret.
  - unfold trigger. skip. by apply htriple_ret.
  - unfold RegisterStream. destruct (negb _); [by apply htriple_ret|]. cbn [pbind trigger]. skip.
    apply htriple_fork; [intros t; apply adapterBeats_ok|by apply htriple_ret].
  - unfold deregisterStream. destruct (negb _); [by apply htriple_ret|]. cbn [pbind trigger]. do 2 skip. by apply htriple_ret.
  - unfold RouteHeartbeat. destruct (_ =s _); [by apply htriple_ret|]. cbn [pbind trigger]. skip.
    destruct a as [ch|]; cbn [pbind trigger]; [skip|]; by apply htriple_ret.
  - by apply bound_ok, roundTripAssign_ok.
Qed.

(** ** Any schedule *)

Notation ok := (sysOk resp perform (pre g) rely (inv g)).

Lemma dispatch_start_inv : inv g (mkWorld newDispatcher []).
Proof.
  split; simpl; try done.
  - intros s r id ch [t Ht]. by apply not_elem_of_nil in Ht.
Qed.

Lemma schedule_ok l : ok (schedule g l).
Proof.
  unfold schedule. assert (H0 : ok start) by (split; [apply dispatch_start_inv|done..]).
  revert H0. generalize start. induction l as [|i l IH]; intros s Hs; simpl; [done|]. apply IH.
  destruct i as [c|tid x]; simpl.
  - apply sysOk_addThread; [done|]. intros t. apply progOf_ok.
  - eapply sysOk_runThread; eauto using rely_refl, rely_trans, rely_lock, perform_rely, perform_inv.
Qed.

(** Every entry of a history is good for the history before it. *)
Lemma histOk_at h1 t e a h2 : histOk g (h1 ++ mkEntry t e a :: h2) -> good g t e a h2.
Proof. induction h1 as [|[t' e' a'] h1 IH]; simpl; [by intros [? _]|]. intros [_ ?]. auto. Qed.

Lemma history_good l h1 t e a h2 : history g l = h1 ++ mkEntry t e a :: h2 -> good g t e a h2.
Proof.
  intros Hh. apply (histOk_at h1). rewrite <- Hh. apply (inv_hist g), (ok_inv _ _ _ _ _ _ (schedule_ok l)).
Qed.

End Programs.

(** ** The properties *)

(** C3 Whatever calls are made and however they interleave, an AssignAction goes on the wire only while no
    stop in force holds the robot: the sending goroutine has read the Robot the Command is addressed to,
    and every stop added to that robot before the send was cleared before it. *)
Theorem assign_never_to_held_robot g l h1 t s cmd a sent h2
  (Hsent : history g l = h1 ++ mkEntry t (ESend s (MCommand cmd)) sent :: h2)
  (Hassign : c_Command cmd = CAssignAction a) :
  exists namespace robot,
    mkEntry t (EGetRobot false namespace (r_Name robot)) (Some robot) ∈ h2 /\ c_RobotId cmd = Wire robot /\
    heldAfter (robotKey namespace (r_Name robot) (r_UID robot)) h2 = ∅.
Proof.
  apply history_good in Hsent as [_ Harm]. unfold armGood in Harm. rewrite Hassign in Harm.
  destruct Harm as (namespace & robot & ? & ? & ? & _). eauto.
Qed.

Lemma elem_of_split {A} (x : A) h : x ∈ h -> exists h1 h2, h = h1 ++ x :: h2.
Proof. apply list_elem_of_split. Qed.

(** With RequireRegister, an AssignAction goes down a stream only after the robot's register was
    processed there, and by then its recorded stops had been taken in force and the fence of every stop in
    force had gone down that same stream: no AssignAction overtakes a fence on a new stream. With
    RequireContract the stream had negotiated the contract that binds its adapter to stops. *)
Theorem assign_follows_fences g l h1 t s cmd a sent h2
  (Hsent : history g l = h1 ++ mkEntry t (ESend s (MCommand cmd)) sent :: h2)
  (Hassign : c_Command cmd = CAssignAction a) (Hreg : g_RequireRegister g = true) (Hcon : g_RequireContract g = true) :
  (exists v, mkEntry t (EContract s) (Some v) ∈ h2 /\ Below v latchContractMin = Some false) /\
  exists k1 t' k2 namespace robot,
    h2 = k1 ++ mkEntry t' (EMarkReady s (c_RobotId cmd)) tt :: k2 /\
    Wire robot = c_RobotId cmd /\ readBy t' namespace robot k2 /\
    (forall id, id ∈ recordedStops robot ->
       mkEntry t' (EAddHeld (robotKey namespace (r_Name robot) (r_UID robot)) id) tt ∈ k2) /\
    (forall id, id ∈ heldAfter (robotKey namespace (r_Name robot) (r_UID robot)) k2 -> fencedOn s (c_RobotId cmd) id k2).
Proof.
  pose proof (history_good _ _ _ _ _ _ _ Hsent) as [_ Harm]. unfold armGood in Harm. rewrite Hassign in Harm.
  destruct Harm as (_ & _ & _ & _ & _ & Hr & Hc). split; [by apply Hc|].
  destruct (Hr Hreg) as [t' Hin]. apply elem_of_split in Hin as (k1 & k2 & ->).
  rewrite app_comm_cons, app_assoc in Hsent. apply history_good in Hsent as (namespace & robot & Hw & Hrd & Hadd & Hf).
  exists k1, t', k2, namespace, robot. auto.
Qed.

Lemma adds_none key h t id : (adds key h = 0)%nat -> mkEntry t (EAddHeld key id) tt ∉ h.
Proof.
  induction h as [|en h IH]; [intros _ Hin; by apply not_elem_of_nil in Hin|]. rewrite adds_cons. intros Ha [<-|Hin]%elem_of_cons.
  - unfold addsTo in Ha. simpl in Ha. rewrite eqb_s_refl in Ha. lia.
  - apply IH; [lia|done].
Qed.

Lemma adds_le key h : (adds key h <= length h)%nat.
Proof. induction h as [|en h IH]; [done|]. rewrite adds_cons. simpl. destruct (addsTo key en); lia. Qed.

(** A zone admission or a reservation grant goes on the wire only while no stop in force holds the
    robot, and only after the sending goroutine read the Robot free of any stop (no stop state, not
    Resuming, none on record) with no stop added to it from before that read until the send. *)
Theorem motion_waits_for_release g l h1 t s cmd sent h2
  (Hsent : history g l = h1 ++ mkEntry t (ESend s (MCommand cmd)) sent :: h2)
  (Hmotion : isMotion (c_Command cmd) = true) (Hlen : Z.of_nat (length h2) < 2 ^ 64) :
  exists robot cur live n k1 k2,
    c_RobotId cmd = Wire robot /\ heldByStop cur = false /\ heldAfter (keyOf robot) h2 = ∅ /\
    h2 = k1 ++ mkEntry t (EStopGen (keyOf robot)) n :: k2 /\
    mkEntry t (EGetRobot live (r_Namespace robot) (r_Name robot)) (Some cur) ∈ k1 /\
    forall t' id, mkEntry t' (EAddHeld (keyOf robot) id) tt ∉ k1.
Proof.
  apply history_good in Hsent as [_ Harm]. unfold armGood in Harm.
  assert (Hm : motionGood t cmd h2) by (destruct (c_Command cmd) as [| | | | | | | |? []| | |]; done).
  destruct Hm as (robot & cur & Hw & Hc & Hf & live & n & k1 & k2 & Hh & Hin & Ha).
  exists robot, cur, live, n, k1, k2. split_and!; try done. intros t' id. apply adds_none.
  pose proof (adds_le (keyOf robot) k1). rewrite Hh, length_app in Hlen. rewrite Z.mod_small in Ha by lia. lia.
Qed.

(** Every Command on the wire carries the leader term the sending goroutine read, as its last act
    before the send, from a process that then held leadership; a process that does not lead sends none. *)
Theorem commands_carry_the_leaders_term g l h1 t s cmd sent h2
  (Hsent : history g l = h1 ++ mkEntry t (ESend s (MCommand cmd)) sent :: h2) (Hterm : g_Term g = true) :
  lastOf t h2 = Some (mkEntry t ETerm (c_LeaderTerm cmd, true)).
Proof. apply history_good in Hsent as [Ht _]. by apply Ht. Qed.

Lemma registered_unique g l h1 h2 s r id s' r' id' ch :
  history g l = h1 ++ h2 -> registered s r id ch h2 -> registered s' r' id' ch h2 -> s = s' /\ r = r' /\ id = id'.
Proof.
  revert h1. induction h2 as [|en h2 IH]; intros h1 Hh H1 H2; [destruct H1 as [t Ht]; by apply not_elem_of_nil in Ht|].
  assert (Hh' : history g l = (h1 ++ [en]) ++ h2) by (by rewrite <- app_assoc).
  apply registered_cons_inv in H1 as [H1|H1], H2 as [H2|H2].
  - rewrite H1 in H2. by simplify_eq.
  - destruct en as [t [] a]; simplify_eq/=. apply history_good in Hh. by apply Hh in H2.
  - destruct en as [t [] a]; simplify_eq/=. apply history_good in Hh. by apply Hh in H1.
  - by apply (IH (h1 ++ [en])).
Qed.

(** A result resolves only the command it answers: when a waiter receives a CommandResult, it arrived
    on the stream the waiter's command was pushed down, with that command's id, and names the robot the
    command was pushed for. *)
Theorem result_resolves_its_command g l h1 t ch res h2 s robotID id
  (Hgot : history g l = h1 ++ mkEntry t (EWait ch) (Received res) :: h2) (Hreg : registered s robotID id ch h2) :
  cr_CommandId res = id /\ cr_RobotId res = robotID /\ exists t', mkEntry t' (EArrives s res) tt ∈ h2.
Proof.
  pose proof (history_good _ _ _ _ _ _ _ Hgot) as Hg. destruct (Hg res eq_refl) as (s' & t' & Hr & Hin).
  rewrite cons_middle, app_assoc in Hgot.
  destruct (registered_unique _ _ _ _ _ _ _ _ _ _ _ Hgot Hreg Hr) as (-> & -> & ->). eauto.
Qed.

(** The send lock a goroutine waits for. *)
Definition waitsFor (sys : Sys (W := World) resp) (tid : nat) : option string :=
  match sy_threads sys !! tid with Some (Lock key _) => Some key | _ => None end.

(** The send locks cannot deadlock: in every interleaving, a goroutine that waits for a robot's send
    lock holds none, so whoever holds that lock is not waiting for one. *)
Theorem send_locks_never_deadlock g l tid key
  (Hwaits : waitsFor (schedule g l) tid = Some key) :
  forall key', sy_locks (schedule g l) !! key' <> Some tid.
Proof.
  unfold waitsFor in Hwaits. destruct (sy_threads (schedule g l) !! tid) as [[| |key0 k| |]|] eqn:Ht; simplify_eq.
  destruct (ok_threads _ _ _ _ _ _ (schedule_ok g l) _ _ Ht) as (lk & P & _ & _ & [-> _] & Hlk).
  intros key' Hk. apply Hlk in Hk. done.
Qed.

(** Along every path of a program at most [n] Robots are read, and its result satisfies [Q]. *)
Fixpoint within {A : Type} (n : nat) (p : prog resp A) (Q : A -> nat -> Prop) : Prop :=
  match p with
  | Ret a => Q a n
  | Vis e k =>
      match e with
      | EGetRobot _ _ _ => match n with O => False | S n => forall a, within n (k a) Q end
      | _ => forall a, within n (k a) Q
      end
  | Lock _ k | Unlock _ k | Fork _ k => within n k Q
  end.

Lemma within_weaken {A : Type} n (p : prog resp A) (Q R : A -> nat -> Prop) :
  (forall a m, Q a m -> R a m) -> within n p Q -> within n p R.
Proof.
  intros HQ. revert n. induction p as [A a|A e k IH|A key k IH|A key k IH|A q _ k IH]; intros n; simpl; eauto.
  destruct e; eauto. destruct n; eauto.
Qed.

Lemma within_bind {A B : Type} n (p : prog resp A) (f : A -> prog resp B) Q R :
  within n p Q -> (forall a m, Q a m -> within m (f a) R) -> within n (pbind p f) R.
Proof.
  revert n f Q R. induction p as [A a|A e k IH|A key k IH|A key k IH|A q _ k IH]; intros n f Q R; simpl; eauto.
  destruct e; eauto. destruct n; eauto.
Qed.

(** A check that leaves the loop's errors alone, sent under the lock. *)
Lemma sendUnderLock_within g n robot cmd check (Q : cmdError -> Prop) :
  within n check (fun err m => m = n /\ forall e, err = Some e -> Q e) -> Q ErrUnreachable -> Q ErrStaleLeaderTerm -> Q ErrContext ->
  within n (sendUnderLock g robot cmd check) (fun out m => m = n /\ forall e, out = Err e -> Q e).
Proof.
  intros Hc Q1 Q2 Q3. unfold sendUnderLock. cbn [within]. eapply within_bind; [exact Hc|].
  intros [e|] m [-> He]; cbn [within pbind trigger]; [naive_solver|]. intros [s|]; cbn [within]; [|naive_solver].
  unfold sendAndWait. cbn [pbind trigger within]. intros reg.
  apply (within_bind n _ _ (fun err m => m = n /\ forall e, err = Some e -> Q e)).
  - unfold send. destruct (g_Term g); cbn [pbind trigger within].
    + intros [t []]; cbn [negb snd fst within]; [intros []; naive_solver|naive_solver].
    + intros []; naive_solver.
  - intros [e|] m [-> He']; cbn [within pbind trigger]; [naive_solver|].
    unfold awaitResult. cbn [within pbind trigger]. intros [res| |]; cbn [within]; try naive_solver.
    intros _. split; [done|]. unfold termChecked. destruct (negb _); naive_solver.
Qed.

Lemma motionCheck_within n key m released gen cur last :
  within n (motionCheck key m released gen cur last)
    (fun err m => m = n /\ forall e, err = Some e -> e <> ErrAttemptsSpent /\ (last = true -> e <> ErrReread)).
Proof.
  unfold motionCheck. apply (within_bind n _ _ (fun _ m => m = n)); [by destruct released|].
  intros [|] ? ->; cbn [negb pbind trigger within]; [|naive_solver]. intros stops a.
  destruct (negb (a =? gen) && negb last) eqn:E.
  - apply (within_bind n _ _ (fun _ m => m = n)); [by destruct released|]. intros [] ? ->. cbn [within]. split; [done|].
    intros e [= <-]. split; [done|]. intros ->. by rewrite andb_false_r in E.
  - apply (within_bind n _ _ (fun _ m => m = n)); [by case_bool_decide|]. intros gen'' ? ->.
    destruct (_ || _); cbn [within pbind trigger]; naive_solver.
Qed.

Lemma attempt_within g n robot m cmd released gen cur last :
  within n (sendUnderLock g robot cmd (motionCheck (keyOf robot) m released gen cur last))
    (fun out k => k = n /\ forall e, out = Err e -> e <> ErrAttemptsSpent /\ (last = true -> e <> ErrReread)).
Proof. apply (sendUnderLock_within g n robot cmd _ (fun e => _ /\ (last = true -> e <> ErrReread))); [apply motionCheck_within|done..]. Qed.

Lemma sendMotionLoop_within g robot m cmd released more :
  within (S more) (sendMotionLoop g robot m cmd released more)
    (fun out _ => out <> Err ErrReread /\ out <> Err ErrAttemptsSpent).
Proof.
  induction more as [|more IH]; cbn [sendMotionLoop pbind trigger within]; intros gen [cur|]; cbn [within];
    try (by split); (eapply within_bind; [apply attempt_within|]).
  - intros out k [-> He]. destruct out as [r|e]; cbn [within]; [done|]. destruct (He e eq_refl) as [He1 He2].
    specialize (He2 eq_refl). destruct e; cbn [within]; (split; congruence).
  - intros out k [-> He]. destruct out as [r|e]; cbn [within]; [done|]. destruct (He e eq_refl) as [He1 _].
    destruct e; cbn [within]; try (split; congruence). exact IH.
Qed.

(** C39 The motion gate's loop ends: on every path sendMotion reads the Robot at most nine times, and it
    answers the caller, never that the Robot must be read again, however many stops arrive meanwhile. *)
Theorem sendMotion_ends g robot m cmd released :
  within (S maxReread) (sendMotion g robot m cmd released) (fun out _ => out <> Err ErrReread /\ out <> Err ErrAttemptsSpent).
Proof. apply sendMotionLoop_within. Qed.

(** ** The gates open: a call that nothing holds sends *)

Lemma step_vis tid x d h locks (m : gmap nat (prog resp unit)) n e (k : resp e -> prog resp unit) d' a :
  answer e x d = Some (d', a) ->
  runThread perform tid x (mkSys (mkWorld d h) locks (<[tid := Vis e k]> m) n) =
  mkSys (mkWorld d' (mkEntry tid e a :: h)) locks (<[tid := k a]> m) n.
Proof. intros Ha. unfold runThread. simpl. rewrite lookup_insert_eq. unfold perform. simpl. by rewrite Ha, insert_insert_eq. Qed.

Lemma step_lock tid x w locks (m : gmap nat (prog resp unit)) n key k :
  locks !! key = None ->
  runThread perform tid x (mkSys w locks (<[tid := Lock key k]> m) n) = mkSys w (<[key := tid]> locks) (<[tid := k]> m) n.
Proof. intros Hl. unfold runThread. simpl. by rewrite lookup_insert_eq, Hl, insert_insert_eq. Qed.

(** Run the next event of the one thread that moves. *)
Ltac step_with H := erewrite step_vis by (cbn [answer]; rewrite ?H; reflexivity); cbn [pbind trigger].

(** The gate opens: when a robot is ready on its adapter's stream, the stream negotiated the latch's
    contract, no stop in force holds the robot and its send lock is free, a PushAssignAction that runs
    while this process leads puts its AssignAction on the wire, addressed to the robot's wire id under a
    fresh command id and stamped with the leader's term. *)
Theorem assign_sent_when_free g sys x robot namespace name a s v
  (Hread : readRobot namespace name x = Some robot) (Hlead : snd (x_term x) = true)
  (Hcfg : g_RequireRegister g = true /\ g_RequireContract g = true /\ g_Term g = true)
  (Hstream : d_streams (w_d (sy_world sys)) !! adapterKey namespace (r_Adapter robot) = Some s)
  (Hcontract : f_contract (d_fence (w_d (sy_world sys))) !! s = Some v /\ Below v latchContractMin = Some false)
  (Hfree : heldStops (w_d (sy_world sys)) (robotKey namespace name (r_UID robot)) = [])
  (Hready : isReady (w_d (sy_world sys)) s (Wire robot) = true)
  (Hlock : sy_locks sys !! robotKey namespace name (r_UID robot) = None) :
  exists h, w_hist (sy_world (Nat.iter 9 (runThread perform (sy_next sys) x)
                                (sysStep g sys (Spawn (CallPushAssignAction namespace name a))))) =
    mkEntry (sy_next sys) (ESend s (MCommand (mkCommand ((d_idCounter (w_d (sy_world sys)) + 1) mod 2 ^ 64) (Wire robot)
      (fst (x_term x)) (CAssignAction (assignMsg a))))) (x_sent x) :: h.
Proof.
  destruct sys as [[d h] locks threads n]. destruct g as [rr rc rt api], Hcfg as (Hr & Hc & Ht). unfold sysStep, addThread.
  cbn [sy_world sy_threads sy_locks sy_next w_d w_hist g_RequireRegister g_RequireContract g_Term] in *. subst.
  destruct Hcontract as [Hv Hb]. destruct (x_term x) as [term lead] eqn:Ex. cbn [snd fst] in *. subst.
  cbn [progOf]. unfold discard, PushAssignAction, roundTripAssign. unfold Nat.iter. cbn [nat_rect pbind trigger].
  step_with Hread. rewrite step_lock by done. step_with Hstream. unfold assignChecks, boundByLatch. cbn [pbind trigger g_RequireContract].
  step_with Hv. rewrite Hb. cbn [negb pbind trigger]. step_with Hfree. rewrite bool_decide_true by done. cbn [negb pbind trigger g_RequireRegister]. step_with Hready.
  unfold sendAndWait. cbn [pbind trigger]. step_with Ex. unfold send. cbn [pbind trigger g_Term].
  step_with Ex. cbn [negb snd fst pbind trigger]. step_with Ex. eexists. reflexivity.
Qed.

(** ** A run *)

Definition exCfg : Config := mkConfig true true true true.
Definition exBot : Robot :=
  mkRobot "amr" "ns" "u1" ∅ None "" "" RobotPhaseIdle "" None [] [] [] "ad" RobotEstopNormal [].
Definition exInput : Input := mkInput (Some exBot) (Some [exBot]) (Some []) None (7, true) 0 true None 0.
Definition exIdentity : TLSIdentity := mkIdentity true "ns" "ad".
Definition exAssign : AssignAction := mkAssignAction "a" "Move" "" 3 3 5000 0 0 "" [].
Definition runs (tid n : nat) : list sched := replicate n (Run tid exInput).

(** A stream is registered and negotiated, and the robot registers on it. *)
Definition exReady : list sched :=
  [Spawn (CallRegisterStream exIdentity 1%nat 0)] ++ runs 0 2 ++ [Spawn (CallStreamNegotiated 1%nat "1.4.0")] ++ runs 2 2 ++
  [Spawn (CallRobotRegistered 1%nat "ns" "amr")] ++ runs 3 6.

(** Then an assignment is sent and answered. *)
Definition exAnswer : CommandResult := mkCommandResult 1 "amr" false false (Some (RAssignAction true "" "" 3 [])).
Definition exSent : list sched := exReady ++ [Spawn (CallPushAssignAction "ns" "amr" exAssign)] ++ runs 4 9.
Definition exAnswered : list sched := exSent ++ [Spawn (CallRouteResult 1%nat exAnswer)] ++ runs 5 3 ++ runs 4 2.
(** Or an admission. *)
Definition exAdmitted : list sched := exReady ++ [Spawn (CallPushZoneAdmission "ns" "amr" "dock" true)] ++ runs 4 11.
(** Or a stop, and beside it an assignment that waits for the lock. *)
Definition exStopped : list sched :=
  exReady ++ [Spawn (CallSendFence exBot "stop" (mkEstop "" "" "" 0)); Spawn (CallPushAssignAction "ns" "amr" exAssign)] ++
  runs 4 2 ++ runs 5 1.

Definition exCommand (arm : CommandArm) : Command := mkCommand 1 "amr" 7 arm.
Definition exAssignCommand : Command := exCommand (CAssignAction (assignMsg exAssign)).
Definition before (l : list sched) : list Entry := tl (history exCfg l).

Lemma assign_never_to_held_robot_witness :
  exists namespace robot,
    mkEntry 4 (EGetRobot false namespace (r_Name robot)) (Some robot) ∈ before exSent /\ "amr" = Wire robot /\
    heldAfter (robotKey namespace (r_Name robot) (r_UID robot)) (before exSent) = ∅.
Proof.
  apply (assign_never_to_held_robot exCfg exSent [] 4 1%nat exAssignCommand (assignMsg exAssign) true (before exSent)).
  - vm_compute. reflexivity.
  - reflexivity.
Defined.

Lemma assign_follows_fences_witness :
  exists k1 t' k2 namespace robot,
    before exSent = k1 ++ mkEntry t' (EMarkReady 1%nat "amr") tt :: k2 /\
    Wire robot = "amr" /\ readBy t' namespace robot k2 /\
    (forall id, id ∈ recordedStops robot ->
       mkEntry t' (EAddHeld (robotKey namespace (r_Name robot) (r_UID robot)) id) tt ∈ k2) /\
    (forall id, id ∈ heldAfter (robotKey namespace (r_Name robot) (r_UID robot)) k2 -> fencedOn 1%nat "amr" id k2).
Proof.
  apply (assign_follows_fences exCfg exSent [] 4 1%nat exAssignCommand (assignMsg exAssign) true (before exSent));
    [vm_compute; reflexivity|reflexivity..].
Defined.

Lemma motion_waits_for_release_witness :
  exists robot cur live n k1 k2,
    "amr" = Wire robot /\ heldByStop cur = false /\ heldAfter (keyOf robot) (before exAdmitted) = ∅ /\
    before exAdmitted = k1 ++ mkEntry 4 (EStopGen (keyOf robot)) n :: k2 /\
    mkEntry 4 (EGetRobot live (r_Namespace robot) (r_Name robot)) (Some cur) ∈ k1 /\
    forall t' id, mkEntry t' (EAddHeld (keyOf robot) id) tt ∉ k1.
Proof.
  apply (motion_waits_for_release exCfg exAdmitted [] 4 1%nat (exCommand (CZoneAdmission "dock" true)) true (before exAdmitted));
    vm_compute; reflexivity.
Defined.

Lemma commands_carry_the_leaders_term_witness : lastOf 4 (before exSent) = Some (mkEntry 4 ETerm (7, true)).
Proof.
  apply (commands_carry_the_leaders_term exCfg exSent [] 4 1%nat exAssignCommand true (before exSent));
    [vm_compute; reflexivity|reflexivity].
Defined.

Lemma result_resolves_its_command_witness :
  cr_CommandId exAnswer = 1 /\ cr_RobotId exAnswer = "amr" /\ exists t', mkEntry t' (EArrives 1%nat exAnswer) tt ∈ before exAnswered.
Proof.
  apply (result_resolves_its_command exCfg exAnswered [] 4 0%nat exAnswer (before exAnswered) 1%nat "amr" 1).
  - vm_compute. reflexivity.
  - exists 4%nat. vm_compute. do 5 right. left.
Defined.

Lemma send_locks_never_deadlock_witness :
  sy_locks (schedule exCfg exStopped) !! "ns/amr/u1" = Some 4%nat /\
  forall key', sy_locks (schedule exCfg exStopped) !! key' <> Some 5%nat.
Proof.
  split; [vm_compute; reflexivity|].
  apply (send_locks_never_deadlock exCfg exStopped 5 "ns/amr/u1"). vm_compute. reflexivity.
Defined.

Lemma assign_sent_when_free_witness :
  exists h, w_hist (sy_world (Nat.iter 9 (runThread perform 4 exInput)
    (sysStep exCfg (schedule exCfg exReady) (Spawn (CallPushAssignAction "ns" "amr" exAssign))))) =
    mkEntry 4 (ESend 1%nat (MCommand exAssignCommand)) true :: h.
Proof.
  apply (assign_sent_when_free exCfg (schedule exCfg exReady) exInput exBot "ns" "amr" exAssign 1%nat "1.4.0");
    first [split_and!; vm_compute; reflexivity | vm_compute; reflexivity].
Defined.

(** A stop in force does hold an assignment back: the call ends and nothing has gone out. *)
Example assign_refused_while_stopped :
  let l := exReady ++ [Spawn (CallSendFence exBot "stop" (mkEstop "" "" "" 0))] ++ runs 4 9 ++
           [Spawn (CallPushAssignAction "ns" "amr" exAssign)] ++ runs 6 9 in
  sy_threads (schedule exCfg l) !! 6%nat = None /\
  existsb (fun en => match en_event en with ESend _ (MCommand cmd) => isAssign (c_Command cmd) | _ => false end) (history exCfg l) = false /\
  heldStops (w_d (sy_world (schedule exCfg l))) "ns/amr/u1" = ["stop"].
Proof. vm_compute. split_and!; reflexivity. Qed.
