(* ===== verification/ExecutorGuard.v ===== *)
(** src/internal/executorguard: the one decision behind every path that gives an action to a robot or
    frees a robot from one. A record is released only with proof that the robot is off the action, and
    not while a stop covers the robot. *)

From S2P Require Import Prelude.
From S2P Require Import Types.

Definition MaxLease : Duration := 300 * Second.
Definition CoveredRecheck : Duration := 5 * Second.
Definition MaxSkew : Duration := 60 * Second.

Record Recorder := mkRecorder {
  rec_Robot : string;
  rec_CancelConfirmed : bool;
  rec_Ended : bool;
  rec_Covered : string
}.

Record Input := mkGuardInput {
  in_Horizon : option Time;
  in_Reference : Time;
  in_Recorders : list Recorder;
  in_Now : Time;
  in_Skew : Duration;
  in_MoveAuthorized : bool;
  in_ActionGone : bool
}.

(** What a decision rests on, for the code's words. *)
Inductive reason := WhyNothing | WhyStop | WhyCancel | WhyEnded | WhyLeaseDead | WhyHorizonUnknown | WhyLeaseAlive.

Record Decision := mkDecision {
  de_Release : list string;
  de_Blocked : string;
  de_Wait : Duration;
  de_Why : reason;
  de_Stop : string
}.

Definition noDecision : Decision := mkDecision [] "" 0 WhyNothing "".

Definition Dispatchable (d : Decision) : bool := de_Blocked d =s "".

Definition Dead (i : Input) : Time :=
  match in_Horizon i with
  | Some h => h + in_Skew i
  | None =>
      let ref := if time_IsZero (in_Reference i) then in_Now i else in_Reference i in
      ref + (MaxLease + in_Skew i)
  end.

Definition KeepsRecord (covered : string) (moveAuthorized : bool) : bool := (covered <>s "") && negb moveAuthorized.

(** [now.Before(dead)] is [now < dead]. *)
Definition leaseDead (i : Input) : bool := negb (in_Now i <? Dead i).

(** [dead.Sub(now) + time.Second], an int64. *)
Definition leaseWait (i : Input) : Duration := int64_of (time_Sub (Dead i) (in_Now i) + Second).

Definition releasing (d : Decision) (robot : string) (why : reason) : Decision :=
  mkDecision (de_Release d ++ [robot]) (de_Blocked d) (de_Wait d) why (de_Stop d).

Definition decideOne (i : Input) (d : Decision) (r : Recorder) : Decision :=
  if KeepsRecord (rec_Covered r) (in_MoveAuthorized i) then
    if de_Blocked d =s "" then mkDecision (de_Release d) (rec_Robot r) CoveredRecheck WhyStop (rec_Covered r) else d
  else if rec_CancelConfirmed r then releasing d (rec_Robot r) WhyCancel
  else if rec_Ended r then releasing d (rec_Robot r) WhyEnded
  else if leaseDead i then releasing d (rec_Robot r) WhyLeaseDead
  else if de_Blocked d =s "" then
    mkDecision (de_Release d) (rec_Robot r) (leaseWait i)
      (match in_Horizon i with None => WhyHorizonUnknown | Some _ => WhyLeaseAlive end) (de_Stop d)
  else d.

Definition Decide (i : Input) : Decision := fold_left (decideOne i) (in_Recorders i) noDecision.

(** The latest of some times; the zero time if none is after it. *)
Definition Latest (ts : list (option Time)) : Time :=
  fold_left (fun out t => match t with Some t => if out <? t then t else out | None => out end) ts 0.

(** The action's times, as HorizonOf and ReferenceOf read them. *)
Record ActionTimes := mkActionTimes {
  at_Phase : ActionPhase;
  at_LeaseExpiresAt : option Time;
  at_Created : Time;
  at_PendingSince : option Time;
  at_CompletionTime : option Time;
  at_FailedAt : option Time
}.

Definition HorizonOf (a : ActionTimes) : option Time := at_LeaseExpiresAt a.

Definition ReferenceOf (a : ActionTimes) : Time :=
  if (at_Phase a =s ActionPhasePaused) && match at_LeaseExpiresAt a with None => true | Some _ => false end then 0
  else Latest [Some (at_Created a); at_PendingSince a; at_CompletionTime a; at_FailedAt a].

Definition withRecorders (i : Input) (rs : list Recorder) : Input :=
  mkGuardInput (in_Horizon i) (in_Reference i) rs (in_Now i) (in_Skew i) (in_MoveAuthorized i) (in_ActionGone i).

Definition DeleteLosesKey (robot : string) (i : Input) : bool * Time :=
  if in_ActionGone i then (true, 0)
  else let i := withRecorders i [mkRecorder robot false false ""] in
       let d := Decide i in
       if Dispatchable d then (false, 0)
       else if match in_Horizon i with None => time_IsZero (in_Reference i) | Some _ => false end then (true, 0)
       else (true, in_Now i + de_Wait d).

Definition StopOutcome (stops : list string) : bool := negb (bool_decide (stops = [])).

Definition WaitsForAPerson (stops : list string) (confirmed leaseDead heldByOperator : bool) : bool :=
  negb (bool_decide (stops = [])) && negb confirmed && leaseDead && negb heldByOperator.

Definition PausedRequeueRuns (covered seen askedUnderThese : bool) : bool := negb covered || negb seen || askedUnderThese.

Definition RequeueChecked (create hadAnnotation hasAnnotation : bool) : bool := hasAnnotation && (create || negb hadAnnotation).

Definition KeepsStopFinalizer (ownStop underStop : bool) : bool := ownStop || underStop.

Definition GenerationCeiling : Z := 2 ^ 62.

Definition NextGeneration (highWater previous : Z) : Z := int64_of (Z.max highWater previous + 1).

(** [now.UnixMicro()] is a number here. *)
Definition SeedGeneration (highest unixMicro : Z) : Z := Z.max highest unixMicro.

(** ** Properties *)

(** The proof the guard asks for: no stop keeps the record, and the adapter's word or a dead lease says
    the robot is off the action. *)
Definition proven (i : Input) (r : Recorder) : bool :=
  negb (KeepsRecord (rec_Covered r) (in_MoveAuthorized i)) && (rec_CancelConfirmed r || rec_Ended r || leaseDead i).

Lemma decideOne_proven i d r :
  proven i r = true ->
  de_Release (decideOne i d r) = de_Release d ++ [rec_Robot r] /\ de_Blocked (decideOne i d r) = de_Blocked d /\
  de_Stop (decideOne i d r) = de_Stop d /\ de_Wait (decideOne i d r) = de_Wait d.
Proof. unfold proven, decideOne. repeat case_if_eqn; simpl; try done. Qed.

Lemma decideOne_unproven i d r :
  proven i r = false ->
  de_Release (decideOne i d r) = de_Release d /\
  (de_Blocked d <> "" -> decideOne i d r = d) /\
  (de_Blocked d = "" -> de_Blocked (decideOne i d r) = rec_Robot r /\
     if KeepsRecord (rec_Covered r) (in_MoveAuthorized i)
     then de_Wait (decideOne i d r) = CoveredRecheck /\ de_Stop (decideOne i d r) = rec_Covered r
     else de_Wait (decideOne i d r) = leaseWait i /\ de_Stop (decideOne i d r) = de_Stop d).
Proof.
  unfold proven, decideOne. destruct (KeepsRecord _ _); simpl.
  - intros _. destruct (de_Blocked d =s "") eqn:E; str_bool; (split_and!; [done|done|]); by intros ?.
  - destruct (rec_CancelConfirmed r), (rec_Ended r), (leaseDead i); try done. simpl. intros _.
    destruct (de_Blocked d =s "") eqn:E; str_bool; (split_and!; [done|done|]); by intros ?.
Qed.

(** The first recorder without proof, which blocks the action. *)
Definition blocker (i : Input) (rs : list Recorder) : option Recorder :=
  first_match (fun r => if proven i r then None else Some r) rs.

Lemma blocker_Some i rs r : blocker i rs = Some r -> r ∈ rs /\ proven i r = false.
Proof.
  unfold blocker. induction rs as [|r' rs IH]; simpl; [done|].
  destruct (proven i r') eqn:E; [intros [? ?]%IH; split; [by right|done]|intros [= <-]; split; [by left|done]].
Qed.

(** What a blocker makes of a decision's other fields. *)
Definition blockedBy (i : Input) (d : Decision) (b : option Recorder) : Prop :=
  match b with
  | None => de_Blocked d = "" /\ de_Wait d = 0 /\ de_Stop d = ""
  | Some r =>
      de_Blocked d = rec_Robot r /\
      if KeepsRecord (rec_Covered r) (in_MoveAuthorized i)
      then de_Wait d = CoveredRecheck /\ de_Stop d = rec_Covered r
      else de_Wait d = leaseWait i /\ de_Stop d = ""
  end.

Lemma decide_fold i rs : forall d b, (forall r, r ∈ rs -> rec_Robot r <> "") ->
  (forall r, b = Some r -> rec_Robot r <> "") -> blockedBy i d b ->
  let d' := fold_left (decideOne i) rs d in
  de_Release d' = de_Release d ++ (rec_Robot <$> List.filter (proven i) rs) /\
  blockedBy i d' (match b with Some r => Some r | None => blocker i rs end).
Proof.
  induction rs as [|r rs IH]; intros d b Hn Hb Hd; simpl.
  { rewrite app_nil_r. split; [done|]. by destruct b. }
  assert (Hn' : forall r', r' ∈ rs -> rec_Robot r' <> "") by (intros r' ?; apply Hn; by right).
  pose proof (Hn r ltac:(by left)) as Hr. destruct (proven i r) eqn:Ep.
  - destruct (decideOne_proven i d r Ep) as (E1 & E2 & E3 & E4).
    destruct (IH (decideOne i d r) b Hn' Hb) as [H1 H2].
    { unfold blockedBy in *. by rewrite E2, E3, E4. }
    unfold blocker. simpl. rewrite Ep. split; [|done]. simpl. by rewrite H1, E1, <- app_assoc.
  - destruct (decideOne_unproven i d r Ep) as (E1 & E2 & E3).
    unfold blocker. simpl. rewrite Ep. destruct b as [b|].
    + destruct Hd as [Hd1 Hd2] eqn:Heq. rewrite E2 by (rewrite Hd1; by apply Hb).
      destruct (IH d (Some b) Hn' Hb Hd) as [H1 H2]. done.
    + destruct Hd as (Hd1 & Hd2 & Hd3). destruct (E3 Hd1) as [F1 F2].
      destruct (IH (decideOne i d r) (Some r) Hn') as [H1 H2]; [naive_solver| |by rewrite H1, E1].
      split; [done|]. destruct (KeepsRecord _ _); [done|]. by rewrite <- Hd3.
Qed.

(** The guard is exact. The records it releases are those of the robots with proof (no stop keeps the
    record, and the adapter confirmed a cancel, reported the end, or the lease is dead), in order; the
    action is dispatchable exactly when every robot that records it has proof; otherwise the first
    without blocks it, for the stop that covers it or until its lease is dead. *)
Theorem Decide_exact i (Hnames : forall r, r ∈ in_Recorders i -> rec_Robot r <> "") :
  de_Release (Decide i) = rec_Robot <$> List.filter (proven i) (in_Recorders i) /\
  (Dispatchable (Decide i) = true <-> forall r, r ∈ in_Recorders i -> proven i r = true) /\
  blockedBy i (Decide i) (blocker i (in_Recorders i)).
Proof.
  destruct (decide_fold i (in_Recorders i) noDecision None Hnames ltac:(done) ltac:(done)) as [H1 H2].
  fold (Decide i) in H1, H2. split_and!; [done| |done]. unfold Dispatchable. rewrite eqb_s_true.
  destruct (blocker i (in_Recorders i)) as [r|] eqn:Eb; simpl in H2.
  - apply blocker_Some in Eb as [Hr Hp]. destruct H2 as [-> _]. split; [by intros ?%Hnames|]. intros Hall. rewrite Hall in Hp; done.
  - destruct H2 as [-> _]. split; [|done]. intros _ r Hr. apply (proj1 (first_match_None _ _)) with (x := r) in Eb; [|done].
    by destruct (proven i r).
Qed.

Definition at_ (i : Input) (now : Time) : Input :=
  mkGuardInput (in_Horizon i) (in_Reference i) (in_Recorders i) now (in_Skew i) (in_MoveAuthorized i) (in_ActionGone i).

(** The moment the lease is dead is on the objects: a recorded horizon, or a reference to count from. *)
Definition dated (i : Input) : Prop := in_Horizon i <> None \/ in_Reference i <> 0.

Lemma Dead_at i now : dated i -> Dead (at_ i now) = Dead i.
Proof.
  intros [H|H]; unfold Dead; simpl; destruct (in_Horizon i); try done. unfold time_IsZero.
  by rewrite (proj2 (Z.eqb_neq _ _)).
Qed.

Lemma leaseWait_covers i : 0 <= Dead i - in_Now i -> Dead i - in_Now i + Second <= MaxInt64 ->
  leaseWait i = Dead i - in_Now i + Second.
Proof.
  intros H1 H2. unfold leaseWait, time_Sub, Second in *. change MinInt64 with (-9223372036854775808).
  rewrite Z.min_r, Z.max_r by lia. rewrite int64_of_id; [done|]. change MinInt64 with (-9223372036854775808). lia.
Qed.

(** The guard does not block for ever on a lease: when an action is blocked with no stop the cause, and
    the lease's end is on the objects, then asked again after the wait it gave (or later) the guard
    releases every record that no stop keeps, and only a covering stop can still block. *)
Theorem Decide_unblocks i now
  (Hnames : forall r, r ∈ in_Recorders i -> rec_Robot r <> "") (Hdated : dated i)
  (Hrange : Dead i - in_Now i + Second <= MaxInt64)
  (Hblocked : Dispatchable (Decide i) = false) (Hstop : de_Stop (Decide i) = "")
  (Hlater : in_Now i + de_Wait (Decide i) <= now) :
  (forall r, r ∈ in_Recorders i -> KeepsRecord (rec_Covered r) (in_MoveAuthorized i) = false ->
     rec_Robot r ∈ de_Release (Decide (at_ i now))) /\
  (Dispatchable (Decide (at_ i now)) = false -> de_Stop (Decide (at_ i now)) <> "").
Proof.
  destruct (decide_fold i (in_Recorders i) noDecision None Hnames ltac:(done) ltac:(done)) as [_ Hb].
  fold (Decide i) in Hb. simpl in Hb. unfold Dispatchable in *. apply eqb_s_false in Hblocked.
  destruct (decide_fold (at_ i now) (in_Recorders i) noDecision None Hnames ltac:(done) ltac:(done)) as [Hrel Hb'].
  change (fold_left _ _ _) with (Decide (at_ i now)) in Hrel, Hb'. simpl in Hrel, Hb'.
  destruct (blocker i (in_Recorders i)) as [b|] eqn:Eb; [|by destruct Hb]. destruct Hb as [Hbl Hw].
  apply blocker_Some in Eb as [_ Hu].
  assert (Halive : leaseDead i = false /\ de_Wait (Decide i) = leaseWait i).
  { unfold proven in Hu. destruct (KeepsRecord (rec_Covered b) (in_MoveAuthorized i)) eqn:Ek.
    - destruct Hw as [_ Hs]. unfold KeepsRecord in Ek. rewrite <- Hs, Hstop in Ek. done.
    - destruct Hw as [-> _]. destruct (rec_CancelConfirmed b), (rec_Ended b), (leaseDead i); done. }
  destruct Halive as [Hal Hwait].
  assert (Hdead : leaseDead (at_ i now) = true).
  { unfold leaseDead in *. rewrite Dead_at by done. simpl. apply negb_false_iff, Z.ltb_lt in Hal.
    rewrite Hwait, leaseWait_covers in Hlater by lia. unfold Second in Hlater. apply negb_true_iff, Z.ltb_ge. lia. }
  assert (Hfree : forall r, KeepsRecord (rec_Covered r) (in_MoveAuthorized i) = false -> proven (at_ i now) r = true).
  { intros r Hr. unfold proven. simpl. rewrite Hr, Hdead. by rewrite orb_true_r. }
  split.
  - intros r Hr Hk. rewrite Hrel. simpl. apply list_elem_of_fmap. exists r. split; [done|].
    apply list_elem_of_In, filter_In. split; [by apply list_elem_of_In|auto].
  - intros Hnd Hs. apply eqb_s_false in Hnd. destruct (blocker (at_ i now) (in_Recorders i)) as [b'|] eqn:Eb'; [|by destruct Hb'].
    destruct Hb' as [_ Hb']. simpl in Hb'. destruct (KeepsRecord (rec_Covered b') (in_MoveAuthorized i)) eqn:Ek.
    + destruct Hb' as [_ Hb']. unfold KeepsRecord in Ek. rewrite <- Hb', Hs in Ek. done.
    + apply Hfree in Ek. apply blocker_Some in Eb' as [_ Hu']. congruence.
Qed.

(** With neither a horizon nor a reference no wait proves the lease dead: only the adapter's word does. *)
Lemma undated_never_dead i : in_Horizon i = None -> in_Reference i = 0 -> 0 <= in_Skew i -> leaseDead i = false.
Proof.
  intros Hh Hr Hs. unfold leaseDead, Dead. rewrite Hh, Hr. simpl. unfold MaxLease, Second.
  apply negb_false_iff, Z.ltb_lt. lia.
Qed.

(** Deleting a robot that records an action is refused exactly while nothing on the objects proves the
    robot off it (the action is gone, or its lease is not yet dead); and a refusal that gives a time, for
    a dated lease, is lifted when asked again at that time or later. *)
Theorem DeleteLosesKey_exact robot i now
  (Hname : robot <> "") (Hskew : 0 <= in_Skew i) (Hrange : Dead i - in_Now i + Second <= MaxInt64) :
  (fst (DeleteLosesKey robot i) = true <-> in_ActionGone i = true \/ leaseDead i = false) /\
  (fst (DeleteLosesKey robot i) = true -> snd (DeleteLosesKey robot i) <> 0 -> snd (DeleteLosesKey robot i) <= now ->
     fst (DeleteLosesKey robot (at_ i now)) = false).
Proof.
  assert (Hone : forall j, in_ActionGone j = false -> DeleteLosesKey robot j =
    if leaseDead j then (false, 0)
    else if match in_Horizon j with None => time_IsZero (in_Reference j) | Some _ => false end then (true, 0)
    else (true, in_Now j + leaseWait j)).
  { intros j Hg. unfold DeleteLosesKey. rewrite Hg. unfold Decide. simpl. unfold decideOne. simpl.
    change (leaseDead (withRecorders j _)) with (leaseDead j). change (leaseWait (withRecorders j _)) with (leaseWait j).
    destruct (leaseDead j); [done|]. unfold Dispatchable. simpl. by rewrite (proj2 (eqb_s_false _ _) Hname). }
  destruct (in_ActionGone i) eqn:Eg.
  { unfold DeleteLosesKey. rewrite Eg. simpl. split; [naive_solver|]. done. }
  rewrite Hone by done. destruct (leaseDead i) eqn:Ed; simpl; [naive_solver|].
  destruct (match in_Horizon i with None => _ | Some _ => _ end) eqn:Eu; simpl; [naive_solver|].
  split; [naive_solver|]. intros _ _ Hl. rewrite Hone by done.
  assert (Hdated : dated i).
  { unfold dated. destruct (in_Horizon i); [by left|]. right. intros He. by rewrite He in Eu. }
  unfold leaseDead in *. rewrite Dead_at by done. simpl. apply negb_false_iff, Z.ltb_lt in Ed.
  rewrite leaseWait_covers in Hl by lia. unfold Second in Hl. by rewrite (proj2 (Z.ltb_ge _ _)) by lia.
Qed.

(** ** Witnesses *)

Definition exGuard : Input :=
  mkGuardInput (Some (100 * Second)) 0
    [mkRecorder "amr-1" true false ""; mkRecorder "amr-2" false false ""; mkRecorder "amr-3" false true "zone/dock"]
    (99 * Second) (2 * Second) false false.

Lemma exGuard_named r : r ∈ in_Recorders exGuard -> rec_Robot r <> "".
Proof. intros H. repeat (apply elem_of_cons in H as [->|H]; [done|]). by apply not_elem_of_nil in H. Qed.

Lemma Decide_exact_witness :
  de_Release (Decide exGuard) = ["amr-1"] /\ Dispatchable (Decide exGuard) = false /\ de_Blocked (Decide exGuard) = "amr-2".
Proof.
  destruct (Decide_exact exGuard exGuard_named) as (H1 & H2 & H3).
  split; [exact H1|]. split; [reflexivity|]. exact (proj1 H3).
Defined.

Lemma Decide_unblocks_witness :
  "amr-2" ∈ de_Release (Decide (at_ exGuard (103 * Second))) /\ de_Stop (Decide (at_ exGuard (103 * Second))) = "zone/dock".
Proof.
  destruct (Decide_unblocks exGuard (103 * Second) exGuard_named) as [H1 H2].
  - by left.
  - vm_compute. done.
  - reflexivity.
  - reflexivity.
  - vm_compute. done.
  - split; [|reflexivity]. apply (H1 (mkRecorder "amr-2" false false "")); [set_solver|reflexivity].
Defined.

Lemma DeleteLosesKey_exact_witness :
  DeleteLosesKey "amr-2" exGuard = (true, 103 * Second) /\ fst (DeleteLosesKey "amr-2" (at_ exGuard (103 * Second))) = false.
Proof.
  destruct (DeleteLosesKey_exact "amr-2" exGuard (103 * Second)) as [_ H]; [done|vm_compute; done|vm_compute; done|].
  split; [reflexivity|]. apply H; [reflexivity|done|vm_compute; done].
Defined.
