(* ===== verification/FencingStore.v ===== *)
(** src/internal/controller/fencing_store.go: the per-namespace generation store every assignment
    generation, and so every fencing token, is drawn from. A mint is an automaton of one API call per
    step; any number of mints, in any number of manager processes, interleave with lost answers and
    process restarts. *)

From S2P Require Import Prelude.
From S2P Require Import Decimal.
From S2P Require Import Contract.
From S2P Require Import Leadership.
From S2P Require Import ExecutorGuard.

(** ** A mint *)

(** The store Lease: its resourceVersion and its high-water annotation. *)
Record Store := mkStore { st_rv : Z; st_mark : option string }.

(** strconv.FormatInt(n, 10) and strconv.ParseInt(s, 10, 64). *)
Definition FormatInt (n : Z) : string := showInt n.
Definition ParseInt (s : string) : option Z := Atoi s.

Inductive mintError :=
| ErrListActions | ErrReadStore | ErrCreateStore | ErrWriteStore | ErrConflict
| ErrStoreBehind (mark floor : Z) | ErrAtCeiling (next : Z).

(** Where mintGeneration is: before it lists the actions, before it reads the store, before it creates
    the store, before it writes a mark over the version it read ([raise]: to the floor, after which it
    refuses), or done. *)
Inductive mintPc :=
| MintFloor
| MintRead (floor : Z)
| MintCreate (next : Z)
| MintWrite (rv mark : Z) (raise : option mintError)
| MintDone (r : result mintError Z).

(** generationFloor: [highest] is the highest generation an action listed holds, [minted] what this
    process remembers. *)
Definition generationFloor (minted highest : Z) : Z := Z.max minted highest.

(** What mintGeneration decides on the store it read. *)
Definition mintOn (store : option Store) (floor now previous : Z) : mintPc :=
  match store with
  | None =>
      let next := NextGeneration (SeedGeneration floor now) previous in
      if GenerationCeiling <? next then MintDone (Err (ErrAtCeiling next)) else MintCreate next
  | Some st =>
      let raised (mark : Z) :=
        let next := NextGeneration mark previous in
        if GenerationCeiling <? next then MintDone (Err (ErrAtCeiling next)) else MintWrite (st_rv st) next None in
      match ParseInt (default "" (st_mark st)) with
      | None => raised (SeedGeneration floor now)
      | Some mark =>
          if mark <? 0 then raised (SeedGeneration floor now)
          else if GenerationCeiling <? mark then MintDone (Err (ErrAtCeiling mark))
          else if mark <? floor then MintWrite (st_rv st) floor (Some (ErrStoreBehind mark floor))
          else raised mark
      end
  end.

(** ** The system of one namespace *)

Record Mint := mkMint { mi_proc : nat; mi_previous : Z; mi_pc : mintPc }.

(** The store, the last resourceVersion given out, each process's memory of what it issued, the mints, and
    every mark written with the mint that wrote it, newest first. *)
Record MintSys := mkMintSys {
  ms_store : option Store;
  ms_rv : Z;
  ms_minted : gmap nat Z;
  ms_mints : gmap nat Mint;
  ms_written : list (nat * Z)
}.

Record MintInput := mkMintInput { mx_fault : fault; mx_highest : Z; mx_now : Z }.

Definition setPc (y : MintSys) (id : nat) (m : Mint) (pc : mintPc) : MintSys :=
  mkMintSys (ms_store y) (ms_rv y) (ms_minted y) (<[id := mkMint (mi_proc m) (mi_previous m) pc]> (ms_mints y)) (ms_written y).

(** Write [mark] to the store, with a fresh resourceVersion. *)
Definition putMark (y : MintSys) (id : nat) (mark : Z) : MintSys :=
  mkMintSys (Some (mkStore (ms_rv y + 1) (Some (FormatInt mark)))) (ms_rv y + 1) (ms_minted y) (ms_mints y)
    ((id, mark) :: ms_written y).

(** generationMemory.record. *)
Definition remember (y : MintSys) (proc : nat) (gen : Z) : MintSys :=
  mkMintSys (ms_store y) (ms_rv y) (<[proc := Z.max (default 0 (ms_minted y !! proc)) gen]> (ms_minted y)) (ms_mints y)
    (ms_written y).

(** A write that the API server takes: its answer may be lost. *)
Definition commitMark (y : MintSys) (id : nat) (m : Mint) (f : fault) (mark : Z) (raise : option mintError) (fail : mintError)
    : MintSys :=
  match f with
  | Failed => setPc y id m (MintDone (Err fail))
  | ReplyLost => setPc (putMark y id mark) id m (MintDone (Err fail))
  | Answered =>
      match raise with
      | Some e => setPc (putMark y id mark) id m (MintDone (Err e))
      | None => setPc (remember (putMark y id mark) (mi_proc m) mark) id m (MintDone (Ok mark))
      end
  end.

(** One API call of mint [id]. *)
Definition mintStep (y : MintSys) (id : nat) (m : Mint) (x : MintInput) : MintSys :=
  match mi_pc m with
  | MintFloor =>
      match mx_fault x with
      | Answered =>
          setPc y id m (MintRead (generationFloor (default 0 (ms_minted y !! mi_proc m)) (mx_highest x)))
      | _ => setPc y id m (MintDone (Err ErrListActions))
      end
  | MintRead floor =>
      match mx_fault x with
      | Answered => setPc y id m (mintOn (ms_store y) floor (mx_now x) (mi_previous m))
      | _ => setPc y id m (MintDone (Err ErrReadStore))
      end
  | MintCreate next =>
      match ms_store y with
      | Some _ => setPc y id m (MintDone (Err (match mx_fault x with Answered => ErrConflict | _ => ErrCreateStore end)))
      | None => commitMark y id m (mx_fault x) next None ErrCreateStore
      end
  | MintWrite rv mark raise =>
      match ms_store y with
      | Some st =>
          if st_rv st =? rv then commitMark y id m (mx_fault x) mark raise ErrWriteStore
          else setPc y id m (MintDone (Err (match mx_fault x with Answered => ErrConflict | _ => ErrWriteStore end)))
      | None => setPc y id m (MintDone (Err ErrWriteStore))
      end
  | MintDone _ => y
  end.

Definition isDone (pc : mintPc) : bool := match pc with MintDone _ => true | _ => false end.

(** A new mint for an action whose status holds generation [previous], a step of one, or the restart of a
    process: its mints and its memory are gone. *)
Inductive mintSched := MintStart (id proc : nat) (previous : Z) | MintStep (id : nat) (x : MintInput) | MintRestart (proc : nat).

Definition mintSysStep (y : MintSys) (i : mintSched) : MintSys :=
  match i with
  | MintStart id proc previous =>
      match ms_mints y !! id with
      | Some _ => y
      | None => mkMintSys (ms_store y) (ms_rv y) (ms_minted y) (<[id := mkMint proc previous MintFloor]> (ms_mints y)) (ms_written y)
      end
  | MintStep id x => match ms_mints y !! id with Some m => mintStep y id m x | None => y end
  | MintRestart proc =>
      mkMintSys (ms_store y) (ms_rv y) (delete proc (ms_minted y))
        (filter (fun im => mi_proc im.2 <> proc \/ isDone (mi_pc im.2) = true) (ms_mints y)) (ms_written y)
  end.

(** ** The invariant *)

Lemma ParseInt_FormatInt n : 0 <= n <= MaxInt64 -> ParseInt (FormatInt n) = Some n.
Proof. intros H. unfold ParseInt, FormatInt. rewrite showInt_nonneg by lia. by apply Atoi_FormatUint. Qed.

(** The largest generation the API can hold is never read or counted to: next would wrap there. *)
Definition countable (n : Z) : Prop := MinInt64 <= n < MaxInt64.

Lemma NextGeneration_above a b : countable a -> countable b -> a < NextGeneration a b /\ b < NextGeneration a b /\ NextGeneration a b <= MaxInt64.
Proof. unfold countable, NextGeneration. intros Ha Hb. rewrite int64_of_id by lia. lia. Qed.

Lemma ceiling_countable n : 0 <= n <= GenerationCeiling -> countable n.
Proof. unfold countable, GenerationCeiling. change MinInt64 with (-9223372036854775808). change MaxInt64 with 9223372036854775807. lia. Qed.

Definition marked (st : Store) (v : Z) : Prop := st_mark st = Some (FormatInt v) /\ 0 <= v /\ countable v.

Definition storeOk (y : MintSys) : Prop :=
  match ms_store y with
  | None => ms_written y = []
  | Some st => exists v, marked st v /\ st_rv st <= ms_rv y /\ forall e, e ∈ ms_written y -> e.2 <= v
  end.

Definition mintOk (y : MintSys) (id : nat) (m : Mint) : Prop :=
  countable (mi_previous m) /\
  match mi_pc m with
  | MintFloor => True
  | MintRead floor => 0 <= floor /\ countable floor
  | MintCreate next => 0 < next <= GenerationCeiling /\ mi_previous m < next
  | MintWrite rv v raise =>
      rv <= ms_rv y /\ 0 <= v /\ countable v /\
      (forall st w, ms_store y = Some st -> st_rv st = rv -> marked st w -> w < v) /\
      (raise = None -> 0 < v <= GenerationCeiling /\ mi_previous m < v)
  | MintDone (Ok g) => (id, g) ∈ ms_written y /\ 0 < g <= GenerationCeiling /\ mi_previous m < g
  | MintDone (Err _) => True
  end.

Record mintInv (y : MintSys) : Prop := {
  mv_store : storeOk y;
  mv_sorted : StronglySorted (fun a b => b.2 < a.2) (ms_written y);
  mv_minted : forall p v, ms_minted y !! p = Some v -> 0 <= v <= GenerationCeiling;
  mv_mints : forall id m, ms_mints y !! id = Some m -> mintOk y id m
}.

Lemma marked_unique st v w : marked st v -> marked st w -> v = w.
Proof.
  intros (H1 & ? & [_ ?]) (H2 & ? & [_ ?]). rewrite H1 in H2. apply (inj Some) in H2. apply (f_equal ParseInt) in H2.
  rewrite !ParseInt_FormatInt in H2 by lia. by simplify_eq.
Qed.

(** A mint that moves without writing. *)
Lemma mintInv_setPc y id m pc :
  mintInv y -> mintOk y id (mkMint (mi_proc m) (mi_previous m) pc) -> mintInv (setPc y id m pc).
Proof.
  intros [H1 H2 H3 H4] Hm. split; [done..|]. simpl. intros id' m' [[<- <-]|[? Hl]]%lookup_insert_Some; [exact Hm|by apply H4].
Qed.

(** A mark above everything written keeps the invariant, whoever else was about to write. *)
Lemma mintInv_putMark y id v :
  mintInv y -> 0 <= v -> countable v -> (forall e, e ∈ ms_written y -> e.2 < v) ->
  (forall st, ms_store y = Some st -> st_rv st <= ms_rv y) -> mintInv (putMark y id v).
Proof.
  intros [H1 H2 H3 H4] Hv Hc Hup Hrv. split.
  - exists v. simpl. split_and!; [done|lia|]. intros e [->|He]%elem_of_cons; [done|]. apply Hup in He. lia.
  - simpl. constructor; [done|]. apply Forall_forall. intros e He. by apply Hup.
  - done.
  - simpl. intros id' m' Hm. destruct (H4 _ _ Hm) as [Hp Hpc]. split; [done|].
    destruct (mi_pc m') as [| | |rv w raise|[g|]]; try done; simpl.
    + destruct Hpc as (? & ? & ? & ? & ?). split_and!; try done; [lia|]. intros st w' [= <-] Hrv'. simpl in Hrv'. lia.
    + destruct Hpc as (? & ? & ?). split_and!; [by right|lia..].
Qed.

Lemma mintInv_remember y p g : mintInv y -> 0 <= g <= GenerationCeiling -> mintInv (remember y p g).
Proof.
  intros [H1 H2 H3 H4] Hg. split; [done|done| |done]. simpl. intros p' v [[<- <-]|[? Hl]]%lookup_insert_Some; [|eauto].
  destruct (ms_minted y !! p) as [w|] eqn:Ew; simpl; [apply H3 in Ew|]; lia.
Qed.

Lemma mintInv_commit y id m f v raise fail :
  mintInv y -> ms_mints y !! id = Some m -> 0 <= v -> countable v -> (forall e, e ∈ ms_written y -> e.2 < v) ->
  (forall st, ms_store y = Some st -> st_rv st <= ms_rv y) ->
  (raise = None -> 0 < v <= GenerationCeiling /\ mi_previous m < v) ->
  mintInv (commitMark y id m f v raise fail).
Proof.
  intros Hi Hm Hv Hc Hup Hrv Hnone. pose proof (mv_mints _ Hi _ _ Hm) as [Hp _].
  pose proof (mintInv_putMark y id v Hi Hv Hc Hup Hrv) as Hput. unfold commitMark.
  destruct f; [destruct raise as [e|]| |].
  - apply mintInv_setPc; [done|]. by split.
  - destruct (Hnone eq_refl) as [? ?]. apply mintInv_setPc; [apply mintInv_remember; [done|lia]|].
    split; [done|]. simpl. split_and!; try lia. by left.
  - apply mintInv_setPc; [done|]. by split.
  - apply mintInv_setPc; [done|]. by split.
Qed.

Lemma mintOn_ok y id m floor now :
  mintInv y -> ms_mints y !! id = Some m -> 0 <= floor -> countable floor -> countable now ->
  mintOk y id (mkMint (mi_proc m) (mi_previous m) (mintOn (ms_store y) floor now (mi_previous m))).
Proof.
  intros Hi Hm Hf Hcf Hcn. pose proof (mv_mints _ Hi _ _ Hm) as [Hp _]. pose proof (mv_store _ Hi) as Hs.
  unfold storeOk in Hs. split; [done|]. unfold mintOn. simpl.
  assert (Hseed : countable (SeedGeneration floor now) /\ 0 <= SeedGeneration floor now)
    by (unfold SeedGeneration, countable in *; lia).
  destruct (ms_store y) as [st|] eqn:Est.
  - destruct Hs as (v & Hmk & Hrv & Hall). pose proof Hmk as (Hv & Hv0 & Hcv).
    rewrite Hv. simpl. rewrite ParseInt_FormatInt by (destruct Hcv; lia).
    destruct (Z.ltb_spec v 0); [lia|]. destruct (Z.ltb_spec GenerationCeiling v); [done|].
    destruct (Z.ltb_spec v floor); simpl.
    + split_and!; try done. intros st' w [= <-] _ Hw. by rewrite (marked_unique _ _ _ Hw Hmk).
    + destruct (NextGeneration_above v (mi_previous m) Hcv Hp) as (N1 & N2 & N3).
      destruct (Z.ltb_spec GenerationCeiling (NextGeneration v (mi_previous m))); [done|]. simpl. split_and!; try lia.
      * apply ceiling_countable. lia.
      * intros st' w [= <-] _ Hw. by rewrite (marked_unique _ _ _ Hw Hmk).
  - destruct Hseed as [Hc0 Hs0]. destruct (NextGeneration_above _ (mi_previous m) Hc0 Hp) as (N1 & N2 & N3).
    destruct (Z.ltb_spec GenerationCeiling (NextGeneration (SeedGeneration floor now) (mi_previous m))); [done|]. simpl. lia.
Qed.

Definition inputOk (i : mintSched) : Prop :=
  match i with
  | MintStart _ _ previous => countable previous
  | MintStep _ x => countable (mx_highest x) /\ countable (mx_now x)
  | MintRestart _ => True
  end.

Lemma mintStep_inv y id m x :
  mintInv y -> ms_mints y !! id = Some m -> countable (mx_highest x) -> countable (mx_now x) -> mintInv (mintStep y id m x).
Proof.
  intros Hi Hm Hh Hn. pose proof (mv_mints _ Hi _ _ Hm) as [Hp Hpc]. pose proof (mv_store _ Hi) as Hs. unfold storeOk in Hs.
  unfold mintStep. destruct (mi_pc m) as [|floor|next|rv v raise|r] eqn:Epc.
  - destruct (mx_fault x); apply mintInv_setPc; try done; split; try done. simpl. unfold generationFloor.
    assert (Hd : 0 <= default 0 (ms_minted y !! mi_proc m) <= GenerationCeiling).
    { destruct (ms_minted y !! mi_proc m) eqn:E; simpl; [by apply (mv_minted _ Hi) in E|unfold GenerationCeiling; lia]. }
    apply ceiling_countable in Hd as Hc. unfold countable in *. lia.
  - destruct Hpc. destruct (mx_fault x); apply mintInv_setPc; try done. by apply mintOn_ok.
  - destruct Hpc. destruct (ms_store y) as [st|] eqn:Est; [by apply mintInv_setPc|].
    apply mintInv_commit; try done; try lia.
    + apply ceiling_countable. lia.
    + rewrite Hs. by intros e He%not_elem_of_nil.
    + by rewrite Est.
  - destruct Hpc as (? & ? & ? & Hlt & Hnone). destruct (ms_store y) as [st|] eqn:Est; [|by apply mintInv_setPc].
    destruct (Z.eqb_spec (st_rv st) rv) as [<-|]; [|by apply mintInv_setPc]. destruct Hs as (w & Hw & Hrv & Hall).
    specialize (Hlt st w eq_refl eq_refl Hw). apply mintInv_commit; try done.
    + intros e He. apply Hall in He. lia.
    + rewrite Est. by intros st' [= <-].
  - done.
Qed.

Lemma mintSys_inv l : forall y, mintInv y -> Forall inputOk l -> mintInv (fold_left mintSysStep l y).
Proof.
  induction l as [|i l IH]; intros y Hi Hl; [done|]. simpl. apply Forall_cons in Hl as [Hx Hl]. apply IH; [|done].
  destruct i as [id proc previous|id x|proc]; simpl.
  - destruct (ms_mints y !! id) eqn:E; [done|]. destruct Hi as [H1 H2 H3 H4]. split; [done..|]. simpl.
    intros id' m' [[<- <-]|[? Hm]]%lookup_insert_Some; [by split|by apply H4].
  - destruct (ms_mints y !! id) as [m|] eqn:E; [|done]. destruct Hx. by apply mintStep_inv.
  - destruct Hi as [H1 H2 H3 H4]. split; [done|done| |]; simpl.
    + intros p v [_ Hv]%lookup_delete_Some. eauto.
    + intros id m [Hm _]%map_lookup_filter_Some. by apply H4.
Qed.

(** A namespace before its first assignment, or with the store an earlier run left. *)
Definition mintStart (store : option Z) : MintSys :=
  match store with
  | None => mkMintSys None 0 ∅ ∅ []
  | Some mark => mkMintSys (Some (mkStore 0 (Some (FormatInt mark)))) 0 ∅ ∅ []
  end.

Definition mintRun (store : option Z) (l : list mintSched) : MintSys := fold_left mintSysStep l (mintStart store).

Lemma sorted_distinct (l : list (nat * Z)) i j g :
  StronglySorted (fun a b => b.2 < a.2) l -> (i, g) ∈ l -> (j, g) ∈ l -> i = j.
Proof.
  induction 1 as [|a l Hs IH Hf]; [by intros ?%not_elem_of_nil|]. rewrite Forall_forall in Hf.
  intros [Hi|Hi]%elem_of_cons [Hj|Hj]%elem_of_cons; [congruence| | |auto].
  - apply Hf in Hj. subst a. simpl in Hj. lia.
  - apply Hf in Hi. subst a. simpl in Hi. lia.
Qed.

(** C32 Fencing tokens only rise, as long as no count is at the last int64: suppose the store the run starts
    from is absent or holds a mark of at least 0, and this mark, the generations the actions hold, the highest
    one listed and the clock are all below MaxInt64. Then however the mints of any number of processes
    interleave, with failed calls, lost answers and restarts, the marks written to a namespace's store strictly
    increase; a generation a mint answers is one it wrote, above the action's previous one and not past the
    ceiling; and no two mints answer the same generation. At MaxInt64 itself the count wraps, which
    [mint_wraps_at_max] shows. *)
Theorem fencing_generations_rise store l
  (Hstore : match store with Some mark => 0 <= mark /\ countable mark | None => True end) (Hl : Forall inputOk l) :
  let y := mintRun store l in
  StronglySorted (fun a b => b.2 < a.2) (ms_written y) /\
  forall id m g, ms_mints y !! id = Some m -> mi_pc m = MintDone (Ok g) ->
    (id, g) ∈ ms_written y /\ mi_previous m < g <= GenerationCeiling /\
    forall id' m', ms_mints y !! id' = Some m' -> mi_pc m' = MintDone (Ok g) -> id' = id.
Proof.
  assert (H0 : mintInv (mintStart store)).
  { destruct store as [mark|]; (split; [|apply SSorted_nil|done|done]); [|done].
    exists mark. simpl. split_and!; try done; try naive_solver. by intros e He%not_elem_of_nil. }
  pose proof (mintSys_inv l _ H0 Hl) as [_ Hs _ Hm]. fold (mintRun store l) in Hs, Hm.
  assert (Hg : forall id m g, ms_mints (mintRun store l) !! id = Some m -> mi_pc m = MintDone (Ok g) ->
    (id, g) ∈ ms_written (mintRun store l) /\ 0 < g <= GenerationCeiling /\ mi_previous m < g).
  { intros id m g Hid Hpc. destruct (Hm _ _ Hid) as [_ Hok]. by rewrite Hpc in Hok. }
  split; [done|]. intros id m g Hid Hpc. destruct (Hg _ _ _ Hid Hpc) as (Hin & ? & ?). split_and!; [done|done|lia|].
  intros id' m' Hid' Hpc'. destruct (Hg _ _ _ Hid' Hpc') as (Hin' & _). eauto using sorted_distinct.
Qed.

(** ** Runs *)

Definition mintCall (id : nat) (f : fault) : mintSched := MintStep id (mkMintInput f 0 1000).

(** Two processes race for the first mark, one answer is lost, and the loser tries again. *)
Definition exMints : list mintSched :=
  [MintStart 0 0 0; MintStart 1 1 0; mintCall 0 Answered; mintCall 1 Answered; mintCall 0 Answered; mintCall 1 Answered;
   mintCall 1 Answered; mintCall 0 Answered;
   MintStart 2 0 0; mintCall 2 Answered; mintCall 2 Answered; mintCall 2 ReplyLost;
   MintStart 3 0 0; mintCall 3 Answered; mintCall 3 Answered; mintCall 3 Answered].

Lemma fencing_generations_rise_witness :
  ms_written (mintRun None exMints) = [(3%nat, 1003); (2%nat, 1002); (1%nat, 1001)] /\
  StronglySorted (fun a b => b.2 < a.2) (ms_written (mintRun None exMints)).
Proof.
  split; [vm_compute; reflexivity|]. apply (fencing_generations_rise None exMints); [done|].
  repeat (constructor; [vm_compute; intuition discriminate|]). constructor.
Defined.

(** At the largest int64 the count wraps before the ceiling is tested: with no store yet and an action
    that holds that generation, the mint answers the smallest int64. *)
Lemma mint_wraps_at_max :
  let y := mintRun None [MintStart 0 0 0; MintStep 0 (mkMintInput Answered MaxInt64 1000);
                         MintStep 0 (mkMintInput Answered MaxInt64 1000); MintStep 0 (mkMintInput Answered MaxInt64 1000)] in
  (mi_pc <$> ms_mints y !! 0%nat) = Some (MintDone (Ok MinInt64)).
Proof. vm_compute. reflexivity. Qed.
