(* ===== verification/AuditLog.v ===== *)
(** src/internal/audit: the hash-chained safety audit log, its verifier, its in-memory sink and its
    append-only file. The hash and the JSON of an entry are parameters. *)

From S2P Require Import Prelude.

(** ** Entries *)

Record Actor := mkActor { ac_Type : string; ac_Identity : string; ac_SourceIP : string }.
Record Resource := mkResource { rs_Kind : string; rs_Namespace : string; rs_Name : string }.

Record Entry := mkAuditEntry {
  ae_SequenceNumber : Z;                         (* uint64 *)
  ae_EventType : string;
  ae_EventTime : string;
  ae_Namespace : string;
  ae_Actor : Actor;
  ae_Resource : Resource;
  ae_Action : string;
  ae_Outcome : string;
  ae_Detail : gmap string string;
  ae_SwarmadaVersion : string;
  ae_LogVersion : string;
  ae_ChainHash : string
}.

#[global] Instance Actor_eq_dec : EqDecision Actor.
Proof. solve_decision. Defined.
#[global] Instance Resource_eq_dec : EqDecision Resource.
Proof. solve_decision. Defined.
#[global] Instance Entry_eq_dec : EqDecision Entry.
Proof. solve_decision. Defined.

Definition withChainHash (e : Entry) (h : string) : Entry :=
  mkAuditEntry (ae_SequenceNumber e) (ae_EventType e) (ae_EventTime e) (ae_Namespace e) (ae_Actor e) (ae_Resource e)
    (ae_Action e) (ae_Outcome e) (ae_Detail e) (ae_SwarmadaVersion e) (ae_LogVersion e) h.

Definition genesisHash : string := "sha256:0000000000000000000000000000000000000000000000000000000000000000".
Definition logVersion : string := "1".

Section Audit.
(** [hex.EncodeToString(sha256.Sum256(b))] and [json.Marshal(e)]. *)
Context (hexsum : string -> string) (marshal : Entry -> string).

(** What the hash covers of an entry. *)
Definition contentOf (e : Entry) : string := marshal (withChainHash e "").

Definition computeChainHash (prev : string) (e : Entry) : string := "sha256:" +:+ hexsum (prev +:+ contentOf e).
Arguments computeChainHash : simpl never.

(** ** Verify *)

Record VerifyResult := mkVerifyResult {
  vf_OK : bool;
  vf_Entries : Z;
  vf_SequenceGaps : Z;
  vf_HashMismatches : Z;
  vf_GenesisOK : bool
}.

(** The loop's state: the result so far, the previous hash and the expected sequence number. *)
Fixpoint verifyLoop (entries : list Entry) (gaps mismatches : Z) (prev : string) (expectedSeq : Z) : Z * Z :=
  match entries with
  | [] => (gaps, mismatches)
  | e :: entries =>
      let expectedSeq := (expectedSeq + 1) mod 2 ^ 64 in
      let gap := negb (ae_SequenceNumber e =? expectedSeq) in
      let mismatch := negb (computeChainHash prev e =s ae_ChainHash e) in
      verifyLoop entries (if gap then gaps + 1 else gaps) (if mismatch then mismatches + 1 else mismatches) (ae_ChainHash e)
        (if gap then ae_SequenceNumber e else expectedSeq)
  end.

Definition Verify (entries : list Entry) : VerifyResult :=
  let '(gaps, mismatches) := verifyLoop entries 0 0 genesisHash 0 in
  let genesisOK := match entries with [] => true | e :: _ => String.prefix "sha256:" (ae_ChainHash e) end in
  mkVerifyResult ((gaps =? 0) && (mismatches =? 0) && genesisOK) (Z.of_nat (length entries)) gaps mismatches genesisOK.

(** ** The log *)

Record nsState := mkNsState { ns_seq : Z; ns_prevHash : string }.

Record Log := mkLog { lg_state : gmap string nsState; lg_version : string }.

Definition New (swarmadaVersion : string) : Log :=
  mkLog ∅ (if swarmadaVersion =s "" then "v0.1.0" else swarmadaVersion).

(** What a log asks of its sink: what the sink holds, in order, an append (with what the outside world
    makes of it; [false] is an error), and where each namespace left off. *)
Class Sink (St X : Type) := {
  sinkOk : St -> Prop;
  sinkEntries : St -> list Entry;
  Append : St -> Entry -> X -> St * bool;
  TailOf : St -> option (gmap string Entry);
  Reopen : St -> St                              (* what a restarted process opens *)
}.

(** The highest-sequence entry per namespace, as both sinks compute it. *)
Definition tailStep (out : gmap string Entry) (e : Entry) : gmap string Entry :=
  match out !! ae_Namespace e with
  | Some cur => if ae_SequenceNumber cur <? ae_SequenceNumber e then <[ae_Namespace e := e]> out else out
  | None => <[ae_Namespace e := e]> out
  end.

Definition tailOf (entries : list Entry) : gmap string Entry := fold_left tailStep entries ∅.

(** What a sink promises: it keeps exactly what it acknowledges. *)
Class SinkLaws (St X : Type) `{Sink St X} : Prop := {
  append_sound : forall s e x s' ok, sinkOk s -> Append s e x = (s', ok) ->
    sinkOk s' /\ sinkEntries s' = sinkEntries s ++ (if ok then [e] else []);
  tail_entries : forall s t, sinkOk s -> TailOf s = Some t -> t = tailOf (sinkEntries s);
  reopen_sound : forall s, sinkOk s -> sinkOk (Reopen s) /\ sinkEntries (Reopen s) = sinkEntries s
}.

Definition sealed (l : Log) (now : string) (seq : Z) (prev : string) (e : Entry) : Entry :=
  let e := mkAuditEntry seq (ae_EventType e) (if ae_EventTime e =s "" then now else ae_EventTime e) (ae_Namespace e)
             (ae_Actor e) (ae_Resource e) (ae_Action e) (ae_Outcome e) (ae_Detail e) (lg_version l) logVersion
             (ae_ChainHash e) in
  withChainHash e (computeChainHash prev e).

Definition nsOf (l : Log) (ns : string) : nsState := default (mkNsState 0 genesisHash) (lg_state l !! ns).

Section Ops.
Context {St X : Type} `{Sink St X}.

(** Log.Record, with the clock's string and what the outside world makes of the append. *)
Definition recordEntry (l : Log) (sink : St) (now : string) (x : X) (e : Entry) : Log * St * option Entry :=
  let st := nsOf l (ae_Namespace e) in
  let seq := (ns_seq st + 1) mod 2 ^ 64 in
  let e' := sealed l now seq (ns_prevHash st) e in
  let '(sink', ok) := Append sink e' x in
  if ok : bool then (mkLog (<[ae_Namespace e := mkNsState seq (ae_ChainHash e')]> (lg_state l)) (lg_version l), sink', Some e')
  else (mkLog (<[ae_Namespace e := st]> (lg_state l)) (lg_version l), sink', None).

(** Log.Resume; [None] when the tail cannot be read. *)
Definition Resume (l : Log) (sink : St) : option Log :=
  match TailOf sink with
  | None => None
  | Some tail =>
      Some (mkLog (((fun e => mkNsState (ae_SequenceNumber e) (ae_ChainHash e)) <$> tail) ∪ lg_state l) (lg_version l))
  end.

(** A control plane's life: it records, and it restarts (a new Log that resumes from the sink; a sink that
    cannot be read leaves it down). *)
Inductive auditOp := OpRecord (now : string) (x : X) (e : Entry) | OpRestart (version : string).

Definition auditStep (ls : Log * St) (op : auditOp) : Log * St :=
  match op with
  | OpRecord now x e => let '(l, s, _) := recordEntry ls.1 ls.2 now x e in (l, s)
  | OpRestart version => match Resume (New version) (Reopen ls.2) with Some l => (l, Reopen ls.2) | None => ls end
  end.

End Ops.

Definition forNamespace (ns : string) (entries : list Entry) : list Entry := List.filter (fun e => ae_Namespace e =s ns) entries.

(** ** The sinks *)

(** MemorySink, which never fails. *)
#[global] Instance memorySink : Sink (list Entry) unit := {
  sinkOk := fun _ => True;
  sinkEntries := fun s => s;
  Append := fun s e _ => (s ++ [e], true);
  TailOf := fun s => Some (tailOf s);
  Reopen := fun s => s
}.

#[global] Instance memorySink_laws : SinkLaws (list Entry) unit.
Proof. split; simpl; intros; by simplify_eq. Qed.

(** ** What Verify accepts *)

(** The chain from [prev] with sequence numbers after [seq]. *)
Fixpoint chained (prev : string) (seq : Z) (entries : list Entry) : Prop :=
  match entries with
  | [] => True
  | e :: entries =>
      ae_SequenceNumber e = (seq + 1) mod 2 ^ 64 /\ ae_ChainHash e = computeChainHash prev e /\
      chained (ae_ChainHash e) (ae_SequenceNumber e) entries
  end.

Lemma verifyLoop_counts entries : forall gaps mismatches prev seq g m,
  verifyLoop entries gaps mismatches prev seq = (g, m) ->
  gaps <= g /\ mismatches <= m /\ (g = gaps /\ m = mismatches <-> chained prev seq entries).
Proof.
  induction entries as [|e entries IH]; intros gaps mis prev seq g m; cbn [verifyLoop chained].
  - intros [= <- <-]. intuition lia.
  - intros Hl. apply IH in Hl as (Hg & Hm & Hiff).
    destruct (ae_SequenceNumber e =? (seq + 1) mod 2 ^ 64) eqn:E1, (computeChainHash prev e =s ae_ChainHash e) eqn:E2;
      cbn [negb] in *; z_bool; str_bool; split_and!; try lia.
    + rewrite Hiff, E1. naive_solver.
    + split; [intros [? ?]; lia|]. intros (_ & ? & _). congruence.
Qed.

Lemma computeChainHash_prefix prev e : String.prefix "sha256:" (computeChainHash prev e) = true.
Proof. unfold computeChainHash. simpl. by destruct (hexsum (prev +:+ contentOf e)). Qed.

Lemma verified_chained entries : vf_OK (Verify entries) = true <-> chained genesisHash 0 entries.
Proof.
  unfold Verify. destruct (verifyLoop entries 0 0 genesisHash 0) as [g m] eqn:El. cbn [vf_OK].
  apply verifyLoop_counts in El as (Hg & Hm & Hiff). rewrite <- Hiff, !andb_true_iff, !Z.eqb_eq.
  split; [naive_solver|]. intros [-> ->]. split; [done|]. destruct entries as [|e entries]; [done|].
  destruct (proj1 Hiff ltac:(done)) as (_ & -> & _). apply computeChainHash_prefix.
Qed.

(** Verify is exact: it answers OK exactly for an unbroken chain from the genesis hash, in which the
    sequence numbers count from one with no gap and each entry's hash is that of its predecessor's hash
    and its own content. *)
Theorem Verify_exact entries : vf_OK (Verify entries) = true <-> chained genesisHash 0 entries.
Proof. apply verified_chained. Qed.

(** ** What the log records *)

(** Where a chain has got to. *)
Definition reached (entries : list Entry) : nsState :=
  mkNsState (Z.of_nat (length entries)) (default genesisHash (ae_ChainHash <$> last entries)).

Lemma chained_snoc prev seq entries e :
  0 <= seq -> seq + Z.of_nat (length entries) + 1 < 2 ^ 64 -> chained prev seq entries ->
  ae_SequenceNumber e = seq + Z.of_nat (length entries) + 1 ->
  ae_ChainHash e = computeChainHash (default prev (ae_ChainHash <$> last entries)) e ->
  chained prev seq (entries ++ [e]).
Proof.
  revert prev seq. induction entries as [|a entries IH]; intros prev seq H0 Hb Hc Hs Hh; cbn [chained length app] in *; rewrite ?Nat2Z.inj_succ in *.
  - rewrite Z.mod_small by lia. split_and!; [lia|done|done].
  - destruct Hc as (Ha & Hha & Hc). rewrite Z.mod_small in Ha by lia. split_and!; [rewrite Z.mod_small; lia|done|].
    apply IH; [lia|lia|done|lia|]. rewrite Hh. f_equal. destruct entries as [|b entries]; [done|].
    rewrite last_cons_cons in *. by destruct (last (b :: entries)) eqn:El; [|by apply last_None in El].
Qed.

Lemma chained_seq prev seq entries i e :
  0 <= seq -> seq + Z.of_nat (length entries) < 2 ^ 64 -> chained prev seq entries -> entries !! i = Some e ->
  ae_SequenceNumber e = seq + Z.of_nat i + 1.
Proof.
  revert prev seq i. induction entries as [|a entries IH]; intros prev seq i H0 Hb Hc Hi; [done|].
  destruct Hc as (Ha & _ & Hc). cbn [length] in Hb; rewrite Nat2Z.inj_succ in Hb. rewrite Z.mod_small in Ha by lia. destruct i as [|i]; simplify_eq/=; [lia|].
  rewrite (IH (ae_ChainHash a) (ae_SequenceNumber a) i ltac:(lia) ltac:(lia) Hc Hi). lia.
Qed.

Definition wellChained (entries : list Entry) : Prop :=
  forall ns, chained genesisHash 0 (forNamespace ns entries).

Lemma forNamespace_app ns a b : forNamespace ns (a ++ b) = forNamespace ns a ++ forNamespace ns b.
Proof. apply List.filter_app. Qed.

Lemma forNamespace_length ns entries : (length (forNamespace ns entries) <= length entries)%nat.
Proof. unfold forNamespace. apply List.filter_length_le. Qed.

Lemma chained_app prev seq a b : chained prev seq (a ++ b) -> chained prev seq a.
Proof. revert prev seq. induction a as [|e a IH]; intros prev seq; simpl; [done|]. naive_solver. Qed.

(** The tail of a well-chained log is the last entry of each namespace. *)
Lemma tailOf_last entries :
  wellChained entries -> Z.of_nat (length entries) < 2 ^ 64 -> forall ns, tailOf entries !! ns = last (forNamespace ns entries).
Proof.
  induction entries as [|e entries IH] using rev_ind; intros Hw Hb ns; [done|].
  assert (Hw' : wellChained entries) by (intros k; specialize (Hw k); rewrite forNamespace_app in Hw; by apply chained_app in Hw).
  rewrite length_app in Hb. simpl in Hb. specialize (IH Hw' ltac:(lia)).
  unfold tailOf in *. rewrite fold_left_app. simpl. unfold tailStep at 1.
  assert (Hset : <[ae_Namespace e := e]> (fold_left tailStep entries ∅) !! ns = last (forNamespace ns (entries ++ [e]))).
  { rewrite forNamespace_app. simpl. destruct (String.eqb_spec (ae_Namespace e) ns) as [->|Hne].
    - by rewrite lookup_insert_eq, last_snoc.
    - by rewrite lookup_insert_ne, IH, app_nil_r by done. }
  rewrite IH. destruct (last (forNamespace (ae_Namespace e) entries)) as [cur|] eqn:El; [|exact Hset].
  specialize (Hw (ae_Namespace e)). rewrite forNamespace_app in Hw. simpl in Hw. rewrite eqb_s_refl in Hw.
  pose proof (forNamespace_length (ae_Namespace e) entries) as Hlen. set (es := forNamespace (ae_Namespace e) entries) in *.
  rewrite last_lookup in El.
  assert (Hc : ae_SequenceNumber cur = 0 + Z.of_nat (pred (length es)) + 1).
  { eapply (chained_seq genesisHash 0 (es ++ [e])); [done|rewrite length_app; simpl; lia|done|].
    rewrite lookup_app_l; [done|]. by apply lookup_lt_Some in El. }
  assert (He : ae_SequenceNumber e = 0 + Z.of_nat (length es) + 1).
  { eapply (chained_seq genesisHash 0 (es ++ [e])); [done|rewrite length_app; simpl; lia|done|].
    by rewrite lookup_app_r, Nat.sub_diag by done. }
  apply lookup_lt_Some in El. rewrite (proj2 (Z.ltb_lt _ _)) by lia. exact Hset.
Qed.

Section Run.
Context {St X : Type} `{SinkLaws St X}.

(** What holds of a running log and its sink. *)
Definition auditInv (ls : Log * St) : Prop :=
  sinkOk ls.2 /\ wellChained (sinkEntries ls.2) /\ forall ns, nsOf ls.1 ns = reached (forNamespace ns (sinkEntries ls.2)).

Lemma sealed_namespace l now seq prev e : ae_Namespace (sealed l now seq prev e) = ae_Namespace e.
Proof. done. Qed.

Lemma sealed_hash l now seq prev e :
  ae_ChainHash (sealed l now seq prev e) = computeChainHash prev (sealed l now seq prev e) /\
  ae_SequenceNumber (sealed l now seq prev e) = seq.
Proof. done. Qed.

Lemma nsOf_insert l ns st v k : nsOf (mkLog (<[ns := st]> (lg_state l)) v) k = if decide (ns = k) then st else nsOf l k.
Proof. unfold nsOf. simpl. case_decide; [subst; by rewrite lookup_insert_eq|by rewrite lookup_insert_ne]. Qed.

Lemma recordEntry_inv ls now x e l' s' r :
  auditInv ls -> Z.of_nat (length (sinkEntries ls.2)) + 1 < 2 ^ 64 ->
  recordEntry ls.1 ls.2 now x e = (l', s', r) ->
  auditInv (l', s') /\ sinkEntries s' = sinkEntries ls.2 ++ match r with Some e' => [e'] | None => [] end.
Proof.
  intros (Hk & Hw & Hn) Hb. unfold recordEntry. rewrite (Hn (ae_Namespace e)).
  set (es := forNamespace (ae_Namespace e) (sinkEntries ls.2)) in *. simpl ns_seq. simpl ns_prevHash.
  pose proof (forNamespace_length (ae_Namespace e) (sinkEntries ls.2)) as Hlen. fold es in Hlen.
  rewrite (Z.mod_small (Z.of_nat (length es) + 1)) by lia.
  set (e' := sealed ls.1 now _ _ e). destruct (Append ls.2 e' x) as [s'' []] eqn:Ea; intros [= <- <- <-].
  - apply append_sound in Ea as [Hk' Ea]; [|done]. split; [|done]. split; [done|]. split; simpl; rewrite Ea.
    + intros ns. rewrite forNamespace_app. simpl. destruct (String.eqb_spec (ae_Namespace e) ns) as [<-|]; [|by rewrite app_nil_r].
      apply chained_snoc; [done|fold es; lia|done|fold es; done|done].
    + intros ns. rewrite nsOf_insert, forNamespace_app. simpl.
      destruct (String.eqb_spec (ae_Namespace e) ns) as [<-|Hne]; [rewrite decide_True by done|rewrite decide_False, app_nil_r by done; apply Hn].
      unfold reached. fold es. rewrite last_snoc, length_app. simpl. f_equal. lia.
  - apply append_sound in Ea as [Hk' Ea]; [|done]. rewrite app_nil_r in Ea |- *. split; [|done]. split; [done|].
    split; simpl; rewrite Ea; [done|].
    intros ns. rewrite nsOf_insert. case_decide; [by subst|apply Hn].
Qed.

Lemma Resume_inv version s l :
  sinkOk s -> wellChained (sinkEntries s) -> Z.of_nat (length (sinkEntries s)) < 2 ^ 64 -> Resume (New version) s = Some l -> auditInv (l, s).
Proof.
  intros Hk Hw Hb. unfold Resume. destruct (TailOf s) as [t|] eqn:Et; [|done]. intros [= <-]. split; [done|]. split; [done|].
  intros ns. apply tail_entries in Et as ->; [|done]. unfold nsOf. simpl. rewrite lookup_union, lookup_fmap, lookup_empty, tailOf_last by done.
  unfold reached. set (es := forNamespace ns (sinkEntries s)). destruct (last es) as [e|] eqn:El; simpl.
  - rewrite last_lookup in El. f_equal.
    pose proof (forNamespace_length ns (sinkEntries s)) as Hlen. fold es in Hlen.
    rewrite (chained_seq genesisHash 0 es _ e ltac:(done) ltac:(lia) (Hw ns) El).
    apply lookup_lt_Some in El. lia.
  - apply last_None in El. by rewrite El.
Qed.

Lemma auditStep_inv ls op :
  auditInv ls -> Z.of_nat (length (sinkEntries ls.2)) + 1 < 2 ^ 64 ->
  auditInv (auditStep ls op) /\ (length (sinkEntries (auditStep ls op).2) <= S (length (sinkEntries ls.2)))%nat.
Proof.
  intros Hi Hb. destruct op as [now x e|version]; simpl.
  - destruct (recordEntry ls.1 ls.2 now x e) as [[l' s'] r] eqn:Er. apply recordEntry_inv in Er as [Hi' He]; [|done..].
    split; [done|]. simpl. rewrite He, length_app. destruct r; simpl; lia.
  - destruct (Resume (New version) (Reopen ls.2)) as [l|] eqn:Er; [|split; [done|lia]].
    destruct Hi as (Hk & Hw & _). destruct (reopen_sound ls.2 Hk) as [Hk' He]. split; [|simpl; rewrite He; lia].
    apply Resume_inv in Er; rewrite ?He; [done|done|done|lia].
Qed.

Lemma auditRun_inv ops : forall ls, auditInv ls ->
  Z.of_nat (length (sinkEntries ls.2)) + Z.of_nat (length ops) < 2 ^ 64 -> auditInv (fold_left auditStep ops ls).
Proof.
  induction ops as [|op ops IH]; intros ls Hi Hb; simpl in *; [done|].
  destruct (auditStep_inv ls op Hi ltac:(lia)) as [Hi' Hl]. apply IH; [done|]. lia.
Qed.

End Run.

(** The recorded log verifies: on any sink that keeps exactly what it acknowledges, after any sequence of
    records (appends that fail included) and restarts that resume from the sink, every namespace's
    entries pass Verify. *)
Theorem recorded_log_verifies {St X : Type} `{SinkLaws St X} (s0 : St) version ops ns
  (Hok : sinkOk s0) (Hempty : sinkEntries s0 = []) (Hbound : Z.of_nat (length ops) < 2 ^ 64) :
  vf_OK (Verify (forNamespace ns (sinkEntries (fold_left auditStep ops (New version, s0)).2))) = true.
Proof.
  apply verified_chained. destruct (auditRun_inv ops (New version, s0)) as (_ & Hw & _).
  - split; [done|]. split; simpl; rewrite Hempty; done.
  - simpl. rewrite Hempty. simpl. lia.
  - apply Hw.
Qed.

(** ** Tamper evidence *)

(** Two different inputs with one hash. *)
Definition collision : Prop := exists x y, x <> y /\ hexsum x = hexsum y.

Lemma string_length_app (a b : string) : String.length (a +:+ b) = (String.length a + String.length b)%nat.
Proof. induction a as [|x a IH]; [done|]. change (String x a +:+ b) with (String x (a +:+ b)). simpl. by rewrite IH. Qed.

Lemma string_app_same_length (a b c d : string) :
  String.length a = String.length c -> (a +:+ b) = (c +:+ d) -> a = c /\ b = d.
Proof.
  revert c. induction a as [|x a IH]; intros [|y c]; simpl; try done. intros [= Hl] [= -> H].
  by destruct (IH c Hl H) as [-> ->].
Qed.

Section Tamper.
(** A SHA-256 sum prints as 64 hexadecimal digits. *)
Hypothesis hexsum_length : forall x, String.length (hexsum x) = 64%nat.

Lemma chainHash_length prev e : String.length (computeChainHash prev e) = 71%nat.
Proof. unfold computeChainHash. rewrite string_length_app, hexsum_length. done. Qed.

Lemma chains_agree a : forall b prev prev' seq seq',
  length a = length b -> String.length prev = 71%nat -> String.length prev' = 71%nat ->
  chained prev seq a -> chained prev' seq' b ->
  default prev (ae_ChainHash <$> last a) = default prev' (ae_ChainHash <$> last b) ->
  (prev = prev' /\ contentOf <$> a = contentOf <$> b /\ ae_ChainHash <$> a = ae_ChainHash <$> b) \/ collision.
Proof.
  induction a as [|e a IH]; intros [|f b] prev prev' seq seq' Hl Hp Hp' Ha Hb Hlast; try done; [by left|].
  destruct Ha as (_ & He & Ha), Hb as (_ & Hf & Hb).
  assert (Hlast' : default (ae_ChainHash e) (ae_ChainHash <$> last a) = default (ae_ChainHash f) (ae_ChainHash <$> last b)).
  { destruct a as [|e' a], b as [|f' b]; try done. rewrite !last_cons_cons in Hlast.
    destruct (last (e' :: a)) eqn:E1; [|by apply last_None in E1]. destruct (last (f' :: b)) eqn:E2; [|by apply last_None in E2].
    done. }
  destruct (IH b (ae_ChainHash e) (ae_ChainHash f) (ae_SequenceNumber e) (ae_SequenceNumber f)) as [(Hh & Hc & Hs)|]; try done.
  - by injection Hl.
  - by rewrite He, chainHash_length.
  - by rewrite Hf, chainHash_length.
  - rewrite He, Hf in Hh. unfold computeChainHash in Hh. apply string_app_inj_l in Hh.
    destruct (decide ((prev +:+ contentOf e) = (prev' +:+ contentOf f))) as [Heq|Hne].
    + apply string_app_same_length in Heq as [-> Heq]; [|by rewrite Hp, Hp'].
      left. split_and!; [done| |].
      * by rewrite !fmap_cons, Heq, Hc.
      * rewrite !fmap_cons, Hs, He, Hf. unfold computeChainHash. by rewrite Hh.
    + right. unfold collision. by exists (prev +:+ contentOf e), (prev' +:+ contentOf f).
  - by right.
Qed.

(** The log is tamper-evident: two logs of one length that both verify and end in the same hash have the
    same content in every entry, unless two different inputs with one hash have been found. So with the
    last hash kept elsewhere no entry can be changed, replaced or reordered unnoticed. *)
Theorem log_is_tamper_evident a b
  (Ha : vf_OK (Verify a) = true) (Hb : vf_OK (Verify b) = true) (Hlen : length a = length b)
  (Hlast : ae_ChainHash <$> last a = ae_ChainHash <$> last b) :
  contentOf <$> a = contentOf <$> b \/ collision.
Proof.
  apply verified_chained in Ha, Hb.
  destruct (chains_agree a b genesisHash genesisHash 0 0 Hlen eq_refl eq_refl Ha Hb) as [(_ & H & _)|]; [|by left|by right].
  by rewrite Hlast.
Qed.

End Tamper.

(** Verify alone does not see a log cut short: every prefix of a log that verifies verifies. *)
Lemma truncated_log_verifies a b : vf_OK (Verify (a ++ b)) = true -> vf_OK (Verify a) = true.
Proof. rewrite !verified_chained. apply chained_app. Qed.

(** ** FileSink (filesink.go) *)

Section FileSink.
(** json.Unmarshal of a line. *)
Context (unmarshal : string -> option Entry).

Definition newline : Ascii.ascii := Ascii.ascii_of_nat 10.
Definition carriageReturn : Ascii.ascii := Ascii.ascii_of_nat 13.
Definition maxToken : nat := 8 * 1024 * 1024.

(** bufio.ScanLines: [cur] is the line read so far. *)
Fixpoint scanLines (s cur : string) : list string :=
  match s with
  | EmptyString => if cur =s "" then [] else [cur]
  | String c s =>
      if bool_decide (c = newline) then cur :: scanLines s ""
      else scanLines s (cur +:+ String c "")
  end.

Fixpoint dropCR (s : string) : string :=
  match s with
  | EmptyString => ""
  | String c "" => if bool_decide (c = carriageReturn) then "" else s
  | String c s' => String c (dropCR s')
  end.

(** The lines the scanner hands out. *)
Definition fileLines (f : string) : list string := dropCR <$> scanLines f "".

Definition fileEntries (f : string) : list Entry := omap (fun l => if l =s "" then None else unmarshal l) (fileLines f).

(** The sink: the file's bytes, whether the handle is open, and whether the encoder has failed a write (an
    encoder that has answers every later call with that error). *)
Record FileSink := mkFileSink { fs_file : string; fs_open : bool; fs_encErr : bool }.

(** How a write and its fsync go: both done, stopped after [n] bytes, or written and not synced. *)
Inductive fileFault := FileDone | FileTorn (n : nat) | FileUnsynced.

Definition lineOf (e : Entry) : string := marshal e +:+ String newline "".

Definition fileAppend (s : FileSink) (e : Entry) (x : fileFault) : FileSink * bool :=
  if negb (fs_open s) || fs_encErr s then (s, false)
  else match x with
  | FileDone => (mkFileSink (fs_file s +:+ lineOf e) true false, true)
  | FileTorn n => (mkFileSink (fs_file s +:+ String.substring 0 n (lineOf e)) true true, false)
  | FileUnsynced => (mkFileSink (fs_file s +:+ lineOf e) true false, false)
  end.

(** FileSink.Tail: a line that does not parse is skipped, one that is too long ends the scan. *)
Definition fileTail (s : FileSink) : option (gmap string Entry) :=
  if existsb (fun l => (maxToken <=? String.length l)%nat) (scanLines (fs_file s) "") then None
  else Some (tailOf (fileEntries (fs_file s))).

Definition Close (s : FileSink) : FileSink := mkFileSink (fs_file s) false (fs_encErr s).

Definition NewFileSink (file : string) : FileSink := mkFileSink file true false.

(** The file as a sink, while an append either is done or writes nothing. *)
Definition faultOf (done : bool) : fileFault := if done then FileDone else FileTorn 0.

(** The file is empty or ends a line. *)
Fixpoint endsLine (f : string) : bool :=
  match f with
  | EmptyString => true
  | String c "" => bool_decide (c = newline)
  | String _ f => endsLine f
  end.

#[global] Instance fileSink : Sink FileSink bool := {
  sinkOk := fun s => endsLine (fs_file s) = true;
  sinkEntries := fun s => fileEntries (fs_file s);
  Append := fun s e done => fileAppend s e (faultOf done);
  TailOf := fileTail;
  Reopen := fun s => NewFileSink (fs_file s)
}.

Fixpoint oneLine (l : string) : bool :=
  match l with EmptyString => true | String c l => negb (bool_decide (c = newline)) && oneLine l end.

Lemma scanLines_line l : forall cur, oneLine l = true -> scanLines (l +:+ String newline "") cur = [cur +:+ l].
Proof.
  induction l as [|c l IH]; intros cur; simpl.
  - intros _. by rewrite string_app_nil.
  - intros [Hc Hl]%andb_true_iff. apply negb_true_iff, bool_decide_eq_false in Hc. rewrite (bool_decide_eq_false_2 (c = newline)) by done.
    rewrite IH, string_app_assoc by done. done.
Qed.

Lemma scanLines_app f g : forall cur, endsLine f = true -> f <> "" -> scanLines (f +:+ g) cur = scanLines f cur ++ scanLines g "".
Proof.
  induction f as [|c f IH]; intros cur He Hne; [done|]. destruct f as [|c' f].
  - cbn in He. apply bool_decide_eq_true in He as ->. done.
  - cbn [endsLine] in He. change ((String c (String c' f)) +:+ g) with (String c ((String c' f) +:+ g)). cbn [scanLines].
    destruct (bool_decide (c = newline)); [simpl; f_equal|]; by apply IH.
Qed.

Lemma endsLine_app f l : endsLine f = true -> endsLine (f +:+ (l +:+ String newline "")) = true.
Proof.
  intros _. assert (H : forall a, endsLine (a +:+ String newline "") = true).
  { induction a as [|c a IH]; [done|]. destruct a; [done|exact IH]. }
  rewrite <- string_app_assoc. apply H.
Qed.

Section Codec.
(** encoding/json, on entries whose strings are text: an entry's JSON is one non-empty line, it does not end
    in a carriage return (it ends in a brace), and it reads back as the entry. *)
Hypothesis marshal_line : forall e, oneLine (marshal e) = true /\ marshal e <> "" /\ dropCR (marshal e) = marshal e.
Hypothesis marshal_unmarshal : forall e, unmarshal (marshal e) = Some e.

Lemma fileEntries_append f e : endsLine f = true -> fileEntries (f +:+ lineOf e) = fileEntries f ++ [e].
Proof.
  intros Hf. destruct (marshal_line e) as (H1 & H2 & H3). unfold fileEntries, fileLines, lineOf.
  assert (Hs : scanLines (f +:+ (marshal e +:+ String newline "")) "" = scanLines f "" ++ [marshal e]).
  { destruct (decide (f = "")) as [->|Hne]; [by apply scanLines_line|].
    by rewrite scanLines_app, scanLines_line by done. }
  rewrite Hs, fmap_app, omap_app. simpl. rewrite H3, marshal_unmarshal. by destruct (String.eqb_spec (marshal e) "").
Qed.

(** The audit file is a sink that keeps exactly what it acknowledges. *)
#[global] Instance fileSink_laws : SinkLaws FileSink bool.
Proof.
  split; simpl.
  - intros s e [] s' ok Hk; unfold fileAppend, faultOf; destruct (negb (fs_open s) || fs_encErr s); intros [= <- <-];
      simpl; rewrite ?app_nil_r, ?string_app_nil; try done.
    + split; [by apply endsLine_app|by apply fileEntries_append].
    + split; [|]; destruct (lineOf e); simpl; by rewrite string_app_nil.
  - intros s t Hk. unfold fileTail. case_match; [done|]. by intros [= <-].
  - done.
Qed.

(** The same file under every fault. *)
Definition faultySink : Sink FileSink fileFault := {|
  sinkOk := fun s => endsLine (fs_file s) = true;
  sinkEntries := fun s => fileEntries (fs_file s);
  Append := fileAppend;
  TailOf := fileTail;
  Reopen := fun s => NewFileSink (fs_file s)
|}.

(** The entry a record seals next. *)
Definition nextEntry (l : Log) (now : string) (e : Entry) : Entry :=
  sealed l now ((ns_seq (nsOf l (ae_Namespace e)) + 1) mod 2 ^ 64) (ns_prevHash (nsOf l (ae_Namespace e))) e.

Lemma record_written l s now e (synced : bool) : fs_open s = true -> fs_encErr s = false ->
  exists st, auditStep (H := faultySink) (l, s) (OpRecord now (if synced then FileDone else FileUnsynced) e) =
    (mkLog (<[ae_Namespace e := st]> (lg_state l)) (lg_version l), mkFileSink (fs_file s +:+ lineOf (nextEntry l now e)) true false) /\
    (synced = false -> st = nsOf l (ae_Namespace e)).
Proof.
  intros Ho Hr. cbn [auditStep fst snd]. unfold recordEntry. fold (nextEntry l now e). cbn [Append faultySink]. unfold fileAppend.
  rewrite Ho, Hr. destruct synced; simpl; by eexists.
Qed.

(** A write whose fsync fails stays in the file, and the log does not count it: the next record takes the
    same sequence number and the same predecessor, and the log no longer verifies. *)
Lemma unsynced_append_breaks_the_chain l s now now' e e' :
  auditInv (l, s) -> fs_open s = true -> fs_encErr s = false -> ae_Namespace e' = ae_Namespace e ->
  Z.of_nat (length (sinkEntries s)) + 2 < 2 ^ 64 ->
  let ls := fold_left (auditStep (H := faultySink)) [OpRecord now FileUnsynced e; OpRecord now' FileDone e'] (l, s) in
  vf_OK (Verify (forNamespace (ae_Namespace e) (sinkEntries ls.2))) = false.
Proof.
  intros (Hk & Hw & Hn) Ho Herr Hns Hb. simpl in Hk, Hw, Hn, Hb.
  set (ns := ae_Namespace e) in *. set (es := forNamespace ns (fileEntries (fs_file s))) in *.
  pose proof (forNamespace_length ns (fileEntries (fs_file s))) as Hlen. fold es in Hlen.
  destruct (record_written l s now e false Ho Herr) as (st & E1 & Hst). specialize (Hst eq_refl). fold ns in E1, Hst.
  cbn [fold_left]. rewrite E1. clear E1. set (e1 := nextEntry l now e). set (l1 := mkLog _ _).
  destruct (record_written l1 (mkFileSink (fs_file s +:+ lineOf e1) true false) now' e' true eq_refl eq_refl) as (st2 & E2 & _).
  rewrite E2. clear E2. set (e2 := nextEntry l1 now' e'). cbn [fst snd sinkEntries fileSink fs_file].
  assert (Hs2 : ae_SequenceNumber e2 = Z.of_nat (length es) + 1).
  { unfold e2, nextEntry. rewrite Hns. unfold l1. rewrite nsOf_insert, decide_True, Hst by done. fold ns. rewrite (Hn ns). fold es.
    cbn. rewrite Z.mod_small by lia. done. }
  assert (He1 : endsLine (fs_file s +:+ lineOf e1) = true) by by apply endsLine_app.
  rewrite !fileEntries_append, !forNamespace_app by done. fold es.
  assert (Hf1 : forNamespace ns [e1] = [e1]) by (unfold forNamespace; simpl; by rewrite eqb_s_refl).
  assert (Hf2 : forNamespace ns [e2] = [e2]) by (unfold forNamespace; simpl; by rewrite Hns, eqb_s_refl).
  rewrite Hf1, Hf2. apply not_true_iff_false. rewrite verified_chained. intros Hc.
  apply (chained_seq genesisHash 0 _ (S (length es)) e2) in Hc; [|done|rewrite !length_app; simpl; lia|].
  - rewrite Hs2 in Hc. lia.
  - rewrite lookup_app_r; rewrite length_app; simpl; [|lia]. by replace (S (length es) - (length es + 1))%nat with 0%nat by lia.
Qed.

End Codec.
End FileSink.

End Audit.

(** ** Witnesses *)

(** A hash and an encoding to evaluate on: sixty-four digits, and the time, the namespace and the action. *)
Definition toySum (x : string) : string :=
  String.concat "" (repeat (if (String.length x mod 2 =? 0)%nat then "a" else "b") 64).
Definition toyMarshal (e : Entry) : string := ae_EventTime e +:+ ae_Namespace e +:+ ae_Action e.

Definition sampleEntry (ns action : string) : Entry :=
  mkAuditEntry 0 "ESTOP_TRIGGERED" "" ns (mkActor "user" "ops" "") (mkResource "EmergencyStop" ns "es") action "Allowed" ∅ "" "" "".

Definition sampleOps : list (auditOp (X := unit)) :=
  [OpRecord "t1" tt (sampleEntry "a" "create"); OpRecord "t2" tt (sampleEntry "b" "create"); OpRestart "v1"; OpRecord "t3" tt (sampleEntry "a" "clear")].

Definition sampleLog : list Entry := (fold_left (auditStep toySum toyMarshal) sampleOps (New "", [])).2.

Lemma recorded_log_verifies_witness :
  length (forNamespace "a" sampleLog) = 2%nat /\ vf_OK (Verify toySum toyMarshal (forNamespace "a" sampleLog)) = true.
Proof.
  split; [vm_compute; reflexivity|].
  exact (recorded_log_verifies toySum toyMarshal (St := list Entry) [] "" sampleOps "a" I eq_refl ltac:(vm_compute; reflexivity)).
Defined.

Lemma toySum_length x : String.length (toySum x) = 64%nat.
Proof. unfold toySum. by destruct (String.length x mod 2 =? 0)%nat. Qed.

Lemma log_is_tamper_evident_witness :
  contentOf toyMarshal <$> forNamespace "a" sampleLog = contentOf toyMarshal <$> forNamespace "a" sampleLog \/ collision toySum.
Proof.
  apply (log_is_tamper_evident toySum toyMarshal toySum_length); [vm_compute; reflexivity..|].
  vm_compute; reflexivity.
Defined.

(** An entry changed in the middle is seen. *)
Example changed_entry_is_seen :
  vf_OK (Verify toySum toyMarshal (match forNamespace "a" sampleLog with
         | e :: rest => mkAuditEntry (ae_SequenceNumber e) (ae_EventType e) (ae_EventTime e) (ae_Namespace e) (ae_Actor e)
                          (ae_Resource e) "creates" (ae_Outcome e) (ae_Detail e) (ae_SwarmadaVersion e) (ae_LogVersion e) (ae_ChainHash e) :: rest
         | [] => [] end)) = false.
Proof. vm_compute. reflexivity. Qed.
