(* ===== verification/Scheduler.v ===== *)
(** Robot selection (src/internal/scheduler): the candidate filters decidable from a robot and an
    action, the ranking of the eligible robots, and the two dependency checks of external actions
    (sensor streams and artifact stores). *)

From S2P Require Import Prelude.
From S2P Require Import Types.

(** ** Candidate filters (exclusion.go, scheduler.go) *)

Definition FilterPhaseIdle : Z := 1.
Definition FilterRequiredCapability : Z := 3.
Definition FilterParametricConstr : Z := 5.
Definition FilterRobotSelector : Z := 6.
Definition FilterTerminating : Z := -2.

(** The reason, with the values its text formats. *)
Inductive exclusionReason :=
| CarriesExecutor
| PinsSelector (selector : string)
| MissingCapabilities (names : list string)
| UnmetConstraint (param : string) (min : float64)
| PhaseNotIdle (phase : string)
| BeingDeleted.

Record Exclusion := mkExclusion { ex_Filter : Z; ex_Reason : exclusionReason }.

Definition schedulableCapabilities (robot : Robot) (acceptDegraded : bool) : gset string :=
  list_to_set (cse_Name <$> List.filter
    (fun c => (cse_Status c =s CapabilityStatusActive) || (acceptDegraded && (cse_Status c =s CapabilityStatusDegraded)))
    (r_Capabilities robot)).

Definition robotMeetsConstraint (robot : Robot) (param : string) (min : float64) : bool :=
  existsb (fun c =>
      ((cse_Status c =s CapabilityStatusActive) || ((cse_Status c =s CapabilityStatusDegraded) && cse_DegradedSchedulable c)) &&
      match cse_ResolvedParameters c !! param with Some v => SFleb min v | None => false end)
    (r_Capabilities robot).

Definition missingCapabilities (robot : Robot) (action : FleetActionSpec) (acceptDegraded : bool) : list string :=
  List.filter (fun c => negb (bool_decide (c ∈ schedulableCapabilities robot acceptDegraded))) (fas_RequiredCapabilities action).

(** The parameters in name order, each with its minimum. *)
Definition constraintsOf (action : FleetActionSpec) : list (string * float64) :=
  omap (fun p => (fun m => (p, m)) <$> fas_Constraints action !! p) (sort_Strings (elements (dom (fas_Constraints action)))).

Definition ExcludedBy (robot : Robot) (action : FleetActionSpec) (acceptDegraded : bool) : option Exclusion :=
  match fas_Executor action with
  | Some _ => Some (mkExclusion 0 CarriesExecutor)
  | None =>
      if fas_RobotSelector action <>s "" then
        if r_Name robot <>s fas_RobotSelector action
        then Some (mkExclusion FilterRobotSelector (PinsSelector (fas_RobotSelector action)))
        else None
      else
        match missingCapabilities robot action acceptDegraded with
        | (_ :: _) as missing => Some (mkExclusion FilterRequiredCapability (MissingCapabilities (sort_Strings missing)))
        | [] =>
            (fun pm => mkExclusion FilterParametricConstr (UnmetConstraint (fst pm) (snd pm))) <$>
              List.find (fun pm => negb (robotMeetsConstraint robot (fst pm) (snd pm))) (constraintsOf action)
        end
  end.

Definition ExcludedAsTerminating (robot : Robot) : option Exclusion :=
  match r_DeletionTimestamp robot with None => None | Some _ => Some (mkExclusion FilterTerminating BeingDeleted) end.

Definition phaseOrUnknown (p : RobotPhase) : string := if p =s "" then "unreported" else p.

Definition ExcludedByForAssignment (robot : Robot) (action : FleetActionSpec) (acceptDegraded : bool) : option Exclusion :=
  match ExcludedAsTerminating robot with
  | Some ex => Some ex
  | None =>
      if r_Phase robot <>s RobotPhaseIdle
      then Some (mkExclusion FilterPhaseIdle (PhaseNotIdle (phaseOrUnknown (r_Phase robot))))
      else ExcludedBy robot action acceptDegraded
  end.

Definition isEligible (robot : Robot) (action : FleetActionSpec) (acceptDegraded : bool) : bool :=
  match ExcludedByForAssignment robot action acceptDegraded with None => true | Some _ => false end.

Definition acceptDegradedOf (action : FleetActionSpec) : bool := default false (fas_AcceptDegradedCapabilities action).

Definition RobotMatchesAction (robot : Robot) (action : FleetActionSpec) : bool :=
  match ExcludedBy robot action (acceptDegradedOf action) with None => true | Some _ => false end.

Definition RobotSatisfiesActionCapabilities (robot : Robot) (action : FleetActionSpec) (acceptDegraded : bool) : bool :=
  if (fas_RobotSelector action <>s "") && (r_Name robot <>s fas_RobotSelector action) then false
  else forallb (fun c => bool_decide (c ∈ schedulableCapabilities robot acceptDegraded)) (fas_RequiredCapabilities action) &&
       forallb (fun pm => robotMeetsConstraint robot (fst pm) (snd pm)) (constraintsOf action).

(** ** Ranking (scheduler.go) *)

Definition batteryOf (robot : Robot) : Z := default 0 (r_BatteryPercent robot).

(** The comparison handed to sort.SliceStable. *)
Definition ranksBefore (action : FleetActionSpec) (preferSameManufacturer honorPreferredRobot : bool) (a b : Robot) : bool :=
  let preferManufacturer := preferSameManufacturer && (fas_PreferredManufacturer action <>s "") in
  let preferRobot := honorPreferredRobot && (fas_PreferredRobot action <>s "") in
  let pa := r_Name a =s fas_PreferredRobot action in
  let pb := r_Name b =s fas_PreferredRobot action in
  let ma := r_Manufacturer a =s fas_PreferredManufacturer action in
  let mb := r_Manufacturer b =s fas_PreferredManufacturer action in
  if preferRobot && negb (Bool.eqb pa pb) then pa
  else if preferManufacturer && negb (Bool.eqb ma mb) then ma
  else batteryOf b <? batteryOf a.

(** sort.SliceStable: elements inserted one by one after those they do not rank before. *)
Fixpoint insertStable {A} (less : A -> A -> bool) (x : A) (l : list A) : list A :=
  match l with
  | [] => [x]
  | y :: l => if less x y then x :: y :: l else y :: insertStable less x l
  end.

Definition sliceStable {A} (less : A -> A -> bool) (l : list A) : list A :=
  fold_left (fun sorted x => insertStable less x sorted) l [].

Inductive scheduleError := ErrNoEligibleRobot | ErrExternalAction.

Definition SelectRobot (action : FleetActionSpec) (candidates : list Robot)
    (acceptDegraded preferSameManufacturer honorPreferredRobot : bool) : result scheduleError Robot :=
  match fas_Executor action with
  | Some _ => Err ErrExternalAction
  | None =>
      let eligible := List.filter (fun r => isEligible r action acceptDegraded) candidates in
      match sliceStable (ranksBefore action preferSameManufacturer honorPreferredRobot) eligible with
      | [] => Err ErrNoEligibleRobot
      | best :: _ => Ok best
      end
  end.

(** ** External dependencies (sensorstream.go, artifactstore.go) *)

Record SensorStreamRobotRef := mkRobotRef { sr_FromMember : option string; sr_RobotName : option string }.

Definition ResolveSensorStreamRobotRef (ref : SensorStreamRobotRef) (memberRobot : option (string -> option string)) : option string :=
  match sr_RobotName ref, sr_FromMember ref with
  | Some n, _ => Some n
  | None, Some m => f ← memberRobot; f m
  | None, None => None
  end.

Definition unmetStreamCapabilities (robot : Robot) (stream : SensorStreamEntry) : list string :=
  match sse_RequiredCapabilities stream with
  | [] => []
  | required =>
      let active : gset string := list_to_set (cse_Name <$> List.filter (fun c => cse_Status c =s CapabilityStatusActive) (r_Capabilities robot)) in
      sort_Strings (List.filter (fun c => negb (bool_decide (c ∈ active))) required)
  end.

(** The first entry of that id on the first named robot that declares it. *)
Definition declaredStream (candidates : list Robot) (robotName streamID : string) : option (Robot * SensorStreamEntry) :=
  first_match (fun r => if r_Name r =s robotName
                        then (fun s => (r, s)) <$> List.find (fun s => sse_StreamID s =s streamID) (r_SensorStreams r)
                        else None) candidates.

Definition SensorStreamOffered (candidates : list Robot) (robotName streamID : string) : bool * bool :=
  match declaredStream candidates robotName streamID with
  | Some (r, s) => (match unmetStreamCapabilities r s with [] => true | _ => false end, true)
  | None => (false, existsb (fun r => r_Name r =s robotName) candidates)
  end.

Definition SensorStreamCapabilitiesUnmet (candidates : list Robot) (robotName streamID : string) : list string :=
  match declaredStream candidates robotName streamID with Some (r, s) => unmetStreamCapabilities r s | None => [] end.

Definition ReachableFromEverywhere (m : string) : bool := (m =s "ReadWriteMany") || (m =s "ReadOnlyMany").

(** [as_VolumeClaim] is the claim's access mode, [as_EdgeLocal] the store's zone. *)
Record ArtifactStoreSpec := mkArtifactStoreSpec {
  as_Kind : string;
  as_ObjectStore : bool;
  as_VolumeClaim : option string;
  as_EdgeLocal : option string
}.

Definition ArtifactStoreReachable (store : option ArtifactStoreSpec) (consumerZone : string) : bool :=
  match store with
  | None => false
  | Some s =>
      if as_Kind s =s "ObjectStore" then as_ObjectStore s
      else if as_Kind s =s "VolumeClaim" then
        match as_VolumeClaim s with
        | None => false
        | Some mode => if ReachableFromEverywhere mode then true else consumerZone =s ""
        end
      else if as_Kind s =s "EdgeLocal" then
        match as_EdgeLocal s with Some z => (z <>s "") && (z =s consumerZone) | None => false end
      else false
  end.

(** ** Ranking is a total preorder *)

Section ranking.
Context (action : FleetActionSpec) (pm pr : bool).

Lemma ranksBefore_irrefl a : ranksBefore action pm pr a a = false.
Proof. unfold ranksBefore. rewrite !eqb_reflx, !andb_false_r. apply Z.ltb_irrefl. Qed.

Lemma ranksBefore_neg_trans a b c :
  ranksBefore action pm pr b a = false -> ranksBefore action pm pr c b = false -> ranksBefore action pm pr c a = false.
Proof.
  unfold ranksBefore.
  generalize (pr && (fas_PreferredRobot action <>s "")) (pm && (fas_PreferredManufacturer action <>s "")). intros p m.
  generalize (r_Name a =s fas_PreferredRobot action) (r_Name b =s fas_PreferredRobot action) (r_Name c =s fas_PreferredRobot action).
  generalize (r_Manufacturer a =s fas_PreferredManufacturer action) (r_Manufacturer b =s fas_PreferredManufacturer action)
    (r_Manufacturer c =s fas_PreferredManufacturer action).
  intros ma mb mc pa pb pc.
  destruct p, m, pa, pb, pc, ma, mb, mc; simpl; rewrite ?Z.ltb_ge; intros; try done; lia.
Qed.
End ranking.

Lemma insertStable_perm {A} (less : A -> A -> bool) x l : insertStable less x l ≡ₚ x :: l.
Proof.
  induction l as [|y l IH]; [done|]. simpl. destruct (less x y); [done|]. rewrite IH. apply Permutation_swap.
Qed.

Lemma sliceStable_perm {A} (less : A -> A -> bool) l : sliceStable less l ≡ₚ l.
Proof.
  unfold sliceStable. assert (Hg : forall acc, fold_left (fun s x => insertStable less x s) l acc ≡ₚ l ++ acc).
  { induction l as [|x l IH]; intros acc; [done|]. cbn [fold_left]. rewrite IH, insertStable_perm.
    symmetry. apply Permutation_middle. }
  by rewrite Hg, app_nil_r.
Qed.

(** The head of the sorted list: nothing ranks before it. *)
Definition headBest {A} (less : A -> A -> bool) (l : list A) : Prop :=
  match l with [] => True | b :: _ => forall x, x ∈ l -> less x b = false end.

Lemma sliceStable_head {A} (less : A -> A -> bool) :
  (forall a, less a a = false) ->
  (forall a b c, less b a = false -> less c b = false -> less c a = false) ->
  (forall a b, less a b = true -> less b a = false) ->
  forall l, headBest less (sliceStable less l).
Proof.
  intros Hir Hnt Has l. unfold sliceStable.
  assert (Hins : forall x s, headBest less s -> headBest less (insertStable less x s)).
  { intros x [|b s] Hb; simpl; [intros y ->%list_elem_of_singleton; apply Hir|]. simpl in Hb.
    destruct (less x b) eqn:Hxb; simpl.
    - intros y [->|Hy]%elem_of_cons; [apply Hir|]. apply (Hnt x b y); [by apply Has|by apply Hb].
    - intros y [->|Hy]%elem_of_cons; [apply Hir|]. rewrite insertStable_perm in Hy.
      apply elem_of_cons in Hy as [->|Hy]; [done|]. apply Hb. by right. }
  assert (Hg : forall acc, headBest less acc -> headBest less (fold_left (fun s x => insertStable less x s) l acc)).
  { induction l as [|x l IH]; intros acc Hacc; [done|]. cbn [fold_left]. apply IH. by apply Hins. }
  by apply Hg.
Qed.

Lemma ranksBefore_asym action pm pr a b : ranksBefore action pm pr a b = true -> ranksBefore action pm pr b a = false.
Proof.
  intros Hab. destruct (ranksBefore action pm pr b a) eqn:Hba; [|done].
  unfold ranksBefore in *.
  destruct (pr && _), (pm && _), (r_Name a =s _), (r_Name b =s _), (r_Manufacturer a =s _), (r_Manufacturer b =s _);
    simpl in *; z_bool; try done; lia.
Qed.

(** ** Properties *)

(** The scheduler picks the best eligible robot: an action for an external executor gets no robot
    at all; otherwise the answer is a candidate that passes every filter and that no other eligible
    candidate ranks before (preferred robot, then manufacturer, then battery), and it fails exactly
    when no candidate is eligible. The preferences never filter. *)
Theorem SelectRobot_best action candidates acceptDegraded pm pr :
  match SelectRobot action candidates acceptDegraded pm pr with
  | Err ErrExternalAction => fas_Executor action <> None
  | Err ErrNoEligibleRobot => forall r, r ∈ candidates -> isEligible r action acceptDegraded = false
  | Ok best =>
      fas_Executor action = None /\ best ∈ candidates /\ isEligible best action acceptDegraded = true /\
      forall r, r ∈ candidates -> isEligible r action acceptDegraded = true -> ranksBefore action pm pr r best = false
  end.
Proof.
  unfold SelectRobot. destruct (fas_Executor action) eqn:He; [done|].
  set (eligible := List.filter _ candidates).
  assert (Hin : forall r, r ∈ eligible <-> r ∈ candidates /\ isEligible r action acceptDegraded = true).
  { intros r. unfold eligible. by rewrite list_elem_of_In, filter_In, <- list_elem_of_In. }
  pose proof (sliceStable_perm (ranksBefore action pm pr) eligible) as Hp.
  pose proof (sliceStable_head (ranksBefore action pm pr) (ranksBefore_irrefl action pm pr)
    (ranksBefore_neg_trans action pm pr) (ranksBefore_asym action pm pr) eligible) as Hh.
  destruct (sliceStable _ eligible) as [|best rest].
  - intros r Hr. destruct (isEligible r action acceptDegraded) eqn:E; [|done].
    assert (Hx : r ∈ eligible) by by apply Hin. rewrite <- Hp in Hx. by apply not_elem_of_nil in Hx.
  - assert (Hb : best ∈ eligible) by (rewrite <- Hp; by left). apply Hin in Hb as [? ?]. split_and!; try done.
    intros r Hr Hel. apply Hh. rewrite Hp. by apply Hin.
Qed.

Lemma constraints_met robot action :
  List.find (fun pm => negb (robotMeetsConstraint robot (fst pm) (snd pm))) (constraintsOf action) = None <->
  forallb (fun pm => robotMeetsConstraint robot (fst pm) (snd pm)) (constraintsOf action) = true.
Proof.
  induction (constraintsOf action) as [|pm l IH]; simpl; [done|].
  destruct (robotMeetsConstraint robot (fst pm) (snd pm)); simpl; [done|]. done.
Qed.

Lemma capabilities_met robot action ad :
  missingCapabilities robot action ad = [] <->
  forallb (fun c => bool_decide (c ∈ schedulableCapabilities robot ad)) (fas_RequiredCapabilities action) = true.
Proof.
  unfold missingCapabilities. induction (fas_RequiredCapabilities action) as [|c l IH]; simpl; [done|].
  case_bool_decide; simpl; [done|]. done.
Qed.

(** Continued eligibility is initial eligibility, for an action that pins no robot: a robot meets the
    action's capability and parametric requirements in flight exactly when the assignment filters
    (phase and deletion aside) do not exclude it. *)
Theorem capability_checks_agree robot action acceptDegraded
  (Hexec : fas_Executor action = None)
  (Hsel : fas_RobotSelector action = "") :
  RobotSatisfiesActionCapabilities robot action acceptDegraded = true <-> ExcludedBy robot action acceptDegraded = None.
Proof.
  unfold RobotSatisfiesActionCapabilities, ExcludedBy. rewrite Hexec, Hsel. simpl.
  rewrite andb_true_iff, <- capabilities_met, <- constraints_met.
  destruct (missingCapabilities robot action acceptDegraded); [|naive_solver]. rewrite fmap_None. naive_solver.
Qed.

Definition exAction (selector : string) : FleetActionSpec :=
  mkFleetActionSpec "Move" None selector ["lift"] ∅ None "" "" DesiredStateRunning.
Definition exIdle (name : string) (caps : list string) : Robot :=
  mkRobot name "ns" "u" ∅ None "" "" RobotPhaseIdle "" (Some 80)
    ((fun c => mkCapability c CapabilityStatusActive ∅ false false) <$> caps) [] [] "" RobotEstopNormal [].

Lemma capability_checks_agree_witness :
  RobotSatisfiesActionCapabilities (exIdle "r1" ["lift"]) (exAction "") false = true /\
  ExcludedBy (exIdle "r1" ["lift"]) (exAction "") false = None.
Proof.
  assert (H : RobotSatisfiesActionCapabilities (exIdle "r1" ["lift"]) (exAction "") false = true) by (vm_compute; reflexivity).
  split; [exact H|]. by apply (capability_checks_agree (exIdle "r1" ["lift"]) (exAction "") false).
Defined.

(** The two checks differ for a pinned robot: a robot named by robotSelector that lacks a required
    capability is selected for the action, and the in-flight check then judges the same robot to
    have lost the capability. *)
Theorem pinned_robot_checks_differ :
  SelectRobot (exAction "r1") [exIdle "r1" []] false false false = Ok (exIdle "r1" []) /\
  RobotSatisfiesActionCapabilities (exIdle "r1" []) (exAction "r1") false = false.
Proof. vm_compute. split; reflexivity. Qed.
