(* ===== verification/FleetTask.v ===== *)
(** The composite task controller (src/internal/controller/fleettask_controller.go and
    fleettask_owned_children.go): the gates of one reconcile pass and its dependsOn path, as a function of
    how the API server and the manager's cache answer this pass's calls. Children are read from the cache,
    each at a moment of its own, so what was read need not be what the API server stores; the writes the pass
    asks for are its result. Conditions (but AwaitingActivation), Events, times and message texts are not
    modelled; the flow path is in FlowDriver. Member names are unique in a stored task (spec.actions is a list
    map keyed by name); the theorems that need it say so. The properties are in FleetTaskProps. *)

From S2P Require Import Prelude.
From S2P Require Import Types.
From S2P Require Import Flow.

(** ** Data *)

Definition FleetTaskPhase : Type := string.
Definition FleetTaskPhaseDraft : FleetTaskPhase := "Draft".
Definition FleetTaskPhasePending : FleetTaskPhase := "Pending".
Definition FleetTaskPhaseRunning : FleetTaskPhase := "Running".
Definition FleetTaskPhaseSucceeded : FleetTaskPhase := "Succeeded".
Definition FleetTaskPhaseFailed : FleetTaskPhase := "Failed".
Definition FleetTaskPhaseCompensating : FleetTaskPhase := "Compensating".
Definition FleetTaskPhaseCompensated : FleetTaskPhase := "Compensated".
Definition FleetTaskPhaseCancelled : FleetTaskPhase := "Cancelled".

Definition CompletionPolicyAny : string := "Any".
Definition CompletionPolicyQuorum : string := "Quorum".
Definition FailurePolicyContinueOthers : string := "ContinueOthers".
Definition FailurePolicyCompensate : string := "Compensate".
Definition TriggerModeOnEvent : string := "OnEvent".
Definition ActionFailureRequeue : string := "Requeue".
Definition reasonStopUnconfirmed : string := "StopUnconfirmed".
Definition defaultMaxRetries : Z := 3.

(** What the controller reads of a member's FleetActionSpec: onFailure and retryPolicy.maxRetries. *)
Record ChildSpec := mkChildSpec { sp_OnFailure : string; sp_MaxRetries : option Z }.

Record FleetTaskAction := mkTaskAction {
  ta_Name : string;
  ta_Action : ChildSpec;
  ta_DependsOn : list string;
  ta_StartCondition : ActionPhase;
  ta_Trigger : string;
  ta_Compensation : option ChildSpec
}.

(** A FleetAction of the namespace; [fa_Owned] is whether this task controls it. *)
Record FleetAction := mkFleetAction {
  fa_Owned : bool;
  fa_Spec : ChildSpec;
  fa_DesiredState : DesiredState;
  fa_Phase : ActionPhase;
  fa_FailureReason : string;
  fa_Scheduled : bool;                           (* status.scheduledAt is set *)
  fa_RetryCount : Z
}.

Definition withDesired (c : FleetAction) (d : DesiredState) : FleetAction :=
  mkFleetAction (fa_Owned c) (fa_Spec c) d (fa_Phase c) (fa_FailureReason c) (fa_Scheduled c) (fa_RetryCount c).

Definition newChild (spec : ChildSpec) (d : DesiredState) : FleetAction := mkFleetAction true spec d "" "" false 0.

Record TaskActionStatus := mkTaskActionStatus {
  tas_Name : string;
  tas_Phase : ActionPhase;
  tas_DependenciesMet : bool;
  tas_CompensationPhase : string
}.

Record FleetTask := mkFleetTask {
  ft_Name : string;
  ft_Draft : bool;
  ft_Flow : option FlowNode;
  ft_Actions : list FleetTaskAction;
  ft_CompletionPolicy : string;
  ft_Quorum : option Z;
  ft_FailurePolicy : string;
  ft_DesiredState : DesiredState;
  ft_Phase : FleetTaskPhase;
  ft_AwaitingActivation : bool;                  (* the condition of that type is True *)
  ft_ActionStatus : list TaskActionStatus
}.

Definition withPhase (t : FleetTask) (p : FleetTaskPhase) : FleetTask :=
  mkFleetTask (ft_Name t) (ft_Draft t) (ft_Flow t) (ft_Actions t) (ft_CompletionPolicy t) (ft_Quorum t) (ft_FailurePolicy t)
    (ft_DesiredState t) p (ft_AwaitingActivation t) (ft_ActionStatus t).
Definition withActionStatus (t : FleetTask) (s : list TaskActionStatus) : FleetTask :=
  mkFleetTask (ft_Name t) (ft_Draft t) (ft_Flow t) (ft_Actions t) (ft_CompletionPolicy t) (ft_Quorum t) (ft_FailurePolicy t)
    (ft_DesiredState t) (ft_Phase t) (ft_AwaitingActivation t) s.
Definition withAwaiting (t : FleetTask) (b : bool) : FleetTask :=
  mkFleetTask (ft_Name t) (ft_Draft t) (ft_Flow t) (ft_Actions t) (ft_CompletionPolicy t) (ft_Quorum t) (ft_FailurePolicy t)
    (ft_DesiredState t) (ft_Phase t) b (ft_ActionStatus t).

(** The children by member name, as this pass has them in hand. *)
Notation Children := (gmap string FleetAction).

(** How a read of the cache, a create and a patch are answered. A patch that is accepted answers with the
    object the API server then stores, which the child in hand becomes. *)
Inductive childRead := Found (c : FleetAction) | Absent | GetFailed.
Inductive createAnswer := Created | AlreadyExists | AdmissionRefused | CreateFailed.

(** How this pass's calls are answered, by object name; [api_order] is Go's order over the children's map. *)
Record Api := mkApi {
  api_get : string -> childRead;                 (* of a member's child *)
  api_getComp : string -> childRead;             (* of a compensation child *)
  api_create : string -> createAnswer;
  api_patch : string -> FleetAction -> option FleetAction;
  api_status : FleetTask -> bool;                (* the task's status patch is accepted *)
  api_order : list string -> list string
}.

(** A write the pass asks the API server for, whatever the answer. *)
Inductive childWrite := WCreate (name : string) (child : FleetAction) | WPatch (name : string) (d : DesiredState).

Inductive taskError :=
| ErrGetChild (member : string)
| ErrCreateChild (member : string)
| ErrChildRefused (member : string)
| ErrNameConflict (member : string)
| ErrPatchChild (member : string)
| ErrGetCompensation (member : string)
| ErrCreateCompensation (member : string)
| ErrCompensationConflict (member : string)
| ErrStatusPatch.

(** ** Phases and names *)

Definition childName (taskName actionName : string) : string := taskName +:+ "-" +:+ actionName.
Definition compChildName (taskName actionName : string) : string := taskName +:+ "-" +:+ actionName +:+ "-comp".

Definition isTerminal (p : ActionPhase) : bool :=
  (p =s ActionPhaseSucceeded) || (p =s ActionPhaseFailed) || (p =s ActionPhaseCancelled).

Definition startRank (p : ActionPhase) : Z :=
  if p =s ActionPhaseAssigned then 1
  else if p =s ActionPhaseInProgress then 2
  else if p =s ActionPhaseSucceeded then 3
  else 0.

Definition terminallyUnsatisfiable (p : ActionPhase) : bool := (p =s ActionPhaseFailed) || (p =s ActionPhaseCancelled).

Definition isGroupTerminal (p : FleetTaskPhase) : bool :=
  (p =s FleetTaskPhaseSucceeded) || (p =s FleetTaskPhaseFailed) || (p =s FleetTaskPhaseCompensated) || (p =s FleetTaskPhaseCancelled).

(** maxRetriesOf and awaitsRetry (fleetaction_controller.go). *)
Definition maxRetriesOf (c : FleetAction) : Z := default defaultMaxRetries (sp_MaxRetries (fa_Spec c)).

Definition awaitsRetry (c : FleetAction) : bool :=
  if fa_Phase c <>s ActionPhaseFailed then false
  else
    let policy := if sp_OnFailure (fa_Spec c) =s "" then ActionFailureRequeue else sp_OnFailure (fa_Spec c) in
    (policy =s ActionFailureRequeue) && fa_Scheduled c && (fa_RetryCount c <? maxRetriesOf c).

Definition takesWrite (c : FleetAction) : bool :=
  if negb (isTerminal (fa_Phase c)) then true
  else awaitsRetry c && (fa_FailureReason c <>s reasonStopUnconfirmed).

(** ** The dependency graph *)

Definition actionByName (actions : list FleetTaskAction) (name : string) : option FleetTaskAction :=
  List.find (fun a => ta_Name a =s name) actions.

Inductive graphError := ErrUnknownDependency (action dep : string) | ErrCycle (action : string).

Definition memberNames (actions : list FleetTaskAction) : gset string := list_to_set (ta_Name <$> actions).

Definition unknownDep (names : gset string) (a : FleetTaskAction) : option graphError :=
  (fun d => ErrUnknownDependency (ta_Name a) d) <$> List.find (fun d => negb (bool_decide (d ∈ names))) (ta_DependsOn a).

(** [adj]: the dependencies of each action, in order. *)
Definition adjacency (actions : list FleetTaskAction) (n : string) : list string :=
  mjoin ((fun a => if ta_Name a =s n then ta_DependsOn a else []) <$> actions).

Inductive color := Gray | Black.                 (* white: not in the map *)
Notation Colors := (gmap string color).

(** The loop of [visit] over the neighbours; [true] is a cycle. *)
Definition visitAll (visit : string -> Colors -> option (bool * Colors)) : list string -> Colors -> option (bool * Colors) :=
  fix go ms c :=
    match ms with
    | [] => Some (false, c)
    | m :: ms =>
        match c !! m with
        | Some Gray => Some (true, c)
        | Some Black => go ms c
        | None => match visit m c with
                  | None => None
                  | Some (true, c) => Some (true, c)
                  | Some (false, c) => go ms c
                  end
        end
    end.

(** No answer: out of fuel. *)
Fixpoint visit (fuel : nat) (adj : string -> list string) (n : string) (c : Colors) : option (bool * Colors) :=
  match fuel with
  | O => None
  | S fuel =>
      match visitAll (visit fuel adj) (adj n) (<[n := Gray]> c) with
      | Some (false, c) => Some (false, <[n := Black]> c)
      | r => r
      end
  end.

Fixpoint visitRoots (fuel : nat) (adj : string -> list string) (roots : list string) (c : Colors) : option (option graphError) :=
  match roots with
  | [] => Some None
  | n :: roots =>
      match c !! n with
      | Some _ => visitRoots fuel adj roots c
      | None => match visit fuel adj n c with
                | None => None
                | Some (true, _) => Some (Some (ErrCycle n))
                | Some (false, c) => visitRoots fuel adj roots c
                end
      end
  end.

(** [visit] colours a new name each time it recurses, so one unit per action and one more is enough. *)
Definition graphFuel (actions : list FleetTaskAction) : nat := S (length actions).

Definition validateGraph (actions : list FleetTaskAction) : option graphError :=
  match first_match (unknownDep (memberNames actions)) actions with
  | Some e => Some e
  | None => default None (visitRoots (graphFuel actions) (adjacency actions) (ta_Name <$> actions) ∅)
  end.

(** ** Eligibility *)

Definition dependenciesMet (a : FleetTaskAction) (children : Children) : bool :=
  let need := if startRank (ta_StartCondition a) =? 0 then startRank ActionPhaseSucceeded else startRank (ta_StartCondition a) in
  forallb (fun dep => match children !! dep with
                      | None => false
                      | Some pred => negb (startRank (fa_Phase pred) <? need)
                      end) (ta_DependsOn a).

Notation ByName := (gmap string FleetTaskAction).
Definition actionsByName (actions : list FleetTaskAction) : ByName :=
  fold_left (fun m a => <[ta_Name a := a]> m) actions ∅.

(** The loop of blockedForever over the dependencies. *)
Definition blockedLoop (blocked : FleetTaskAction -> gset string -> option (bool * gset string)) (byName : ByName)
    (children : Children) : list string -> gset string -> option (bool * gset string) :=
  fix go deps seen :=
    match deps with
    | [] => Some (false, seen)
    | dep :: deps =>
        match children !! dep with
        | Some pred => if terminallyUnsatisfiable (fa_Phase pred) then Some (true, seen) else go deps seen
        | None =>
            match byName !! dep with
            | None => go deps seen
            | Some predSpec =>
                match blocked predSpec seen with
                | None => None
                | Some (true, seen) => Some (true, seen)
                | Some (false, seen) => go deps seen
                end
            end
        end
    end.

Fixpoint blockedForever (fuel : nat) (byName : ByName) (children : Children) (a : FleetTaskAction) (seen : gset string)
    : option (bool * gset string) :=
  match fuel with
  | O => None
  | S fuel =>
      if bool_decide (ta_Name a ∈ seen) then Some (false, seen)
      else blockedLoop (blockedForever fuel byName children) byName children (ta_DependsOn a) ({[ta_Name a]} ∪ seen)
  end.

Definition dependencyPermanentlyFailed (actions : list FleetTaskAction) (a : FleetTaskAction) (children : Children) : bool :=
  match blockedForever (S (S (length actions))) (actionsByName actions) children a ∅ with
  | Some (b, _) => b
  | None => false
  end.

(** ** Loading and creating children *)

(** The owned children by member, and the members whose name another object has. *)
Fixpoint loadChildren (api : Api) (task : string) (actions : list FleetTaskAction) (acc : Children * list string)
    : result taskError (Children * list string) :=
  match actions with
  | [] => Ok acc
  | a :: actions =>
      let '(children, conflicted) := acc in
      match api_get api (childName task (ta_Name a)) with
      | GetFailed => Err (ErrGetChild (ta_Name a))
      | Absent => loadChildren api task actions acc
      | Found c => loadChildren api task actions
                     (if fa_Owned c then (<[ta_Name a := c]> children, conflicted) else (children, conflicted ++ [ta_Name a]))
      end
  end.

(** The members step 3 skips: generated, held by a name conflict, or dormant. *)
Definition notConsidered (children : Children) (conflicted : list string) (a : FleetTaskAction) : bool :=
  bool_decide (is_Some (children !! ta_Name a)) || existsb (String.eqb (ta_Name a)) conflicted || (ta_Trigger a =s TriggerModeOnEvent).

Definition eligibleStep (children : Children) (conflicted : list string) (m : gmap string bool) (a : FleetTaskAction) : gmap string bool :=
  if notConsidered children conflicted a then m else <[ta_Name a := dependenciesMet a children]> m.

Definition toCreate (actions : list FleetTaskAction) (children : Children) (conflicted : list string) : list string :=
  sort_Strings (fst <$> List.filter snd (map_to_list (fold_left (eligibleStep children conflicted) actions ∅))).

(** A failing call, with the writes asked for by then. *)
Notation failing A := (result (taskError * list childWrite) A).

(** The create loop: the member whose create was refused, the writes and the children after it. *)
Fixpoint createLoop (api : Api) (task : FleetTask) (names : list string) (ws : list childWrite) (children : Children)
    : failing (option string * (list childWrite * Children)) :=
  match names with
  | [] => Ok (None, (ws, children))
  | name :: names =>
      match actionByName (ft_Actions task) name with
      | None => createLoop api task names ws children
      | Some a =>
          let child := newChild (ta_Action a) (ft_DesiredState task) in
          let ws := ws ++ [WCreate (childName (ft_Name task) name) child] in
          match api_create api (childName (ft_Name task) name) with
          | AlreadyExists => createLoop api task names ws children
          | AdmissionRefused => Ok (Some name, (ws, children))
          | CreateFailed => Err (ErrCreateChild name, ws)
          | Created => createLoop api task names ws (<[name := child]> children)
          end
      end
  end.

(** Write [d] on every child the task still writes, in the order [names]. *)
Fixpoint writeDesired (api : Api) (task : string) (d : DesiredState) (names : list string) (ws : list childWrite) (children : Children)
    : failing (list childWrite * Children) :=
  match names with
  | [] => Ok (ws, children)
  | n :: names =>
      match children !! n with
      | None => writeDesired api task d names ws children
      | Some c =>
          if takesWrite c && (fa_DesiredState c <>s d) then
            let ws := ws ++ [WPatch (childName task n) d] in
            match api_patch api (childName task n) (withDesired c d) with
            | None => Err (ErrPatchChild n, ws)
            | Some stored => writeDesired api task d names ws (<[n := stored]> children)
            end
          else writeDesired api task d names ws children
      end
  end.

Definition writeAll (api : Api) (task : string) (d : DesiredState) (ws : list childWrite) (children : Children)
    : failing (list childWrite * Children) :=
  writeDesired api task d (api_order api (elements (dom children))) ws children.

Definition rebuildActionStatus (actions : list FleetTaskAction) (children : Children) : list TaskActionStatus :=
  (fun a => mkTaskActionStatus (ta_Name a) (match children !! ta_Name a with Some c => fa_Phase c | None => "" end)
              (dependenciesMet a children) "") <$> actions.

(** ** Aggregation *)

Inductive memberState := MSucceeded | MLost | MRunning.

Definition memberStateOf (actions : list FleetTaskAction) (children : Children) (a : FleetTaskAction) : memberState :=
  let phase := fa_Phase <$> children !! ta_Name a in
  if bool_decide (phase = Some ActionPhaseSucceeded) then MSucceeded
  else if bool_decide (phase = Some ActionPhaseFailed) || bool_decide (phase = Some ActionPhaseCancelled) then MLost
  else if dependencyPermanentlyFailed actions a children then MLost
  else MRunning.

#[export] Instance memberState_eq_dec : EqDecision memberState.
Proof. solve_decision. Defined.

Definition countMembers (s : memberState) (actions : list FleetTaskAction) (children : Children) : Z :=
  Z.of_nat (length (List.filter (fun a => bool_decide (memberStateOf actions children a = s)) actions)).

Definition enactFailure (api : Api) (task : FleetTask) (ws : list childWrite) (children : Children)
    : failing (FleetTaskPhase * (list childWrite * Children)) :=
  let? wc := writeAll api (ft_Name task) DesiredStateCancelled ws children in
  Ok (if ft_FailurePolicy task =s FailurePolicyCompensate then FleetTaskPhaseCompensating else FleetTaskPhaseFailed, wc).

Definition completionMet (policy : string) (quorum succeeded total : Z) : bool :=
  if policy =s CompletionPolicyAny then 1 <=? succeeded
  else if policy =s CompletionPolicyQuorum then quorum <=? int32_of succeeded
  else succeeded =? total.

Definition stillPossible (policy : string) (quorum remaining total : Z) : bool :=
  if policy =s CompletionPolicyAny then 1 <=? remaining
  else if policy =s CompletionPolicyQuorum then quorum <=? int32_of remaining
  else remaining =? total.

(** The task's new phase, with the children the failure policy wrote. *)
Definition aggregate (api : Api) (task : FleetTask) (ws : list childWrite) (children : Children)
    : failing (FleetTaskPhase * (list childWrite * Children)) :=
  if (ft_Phase task =s FleetTaskPhaseCompensating) || (ft_Phase task =s FleetTaskPhaseCompensated)
  then Ok (ft_Phase task, (ws, children))
  else
    let actions := ft_Actions task in
    let total := Z.of_nat (length actions) in
    let succeeded := countMembers MSucceeded actions children in
    let nonTerminal := countMembers MRunning actions children in
    if (ft_CompletionPolicy task =s CompletionPolicyQuorum) && match ft_Quorum task with None => true | Some _ => false end
    then enactFailure api task ws children
    else
      let quorum := default 0 (ft_Quorum task) in
      let operatorCancelled := (ft_DesiredState task =s DesiredStateCancelled) && (ft_FailurePolicy task <>s FailurePolicyCompensate) in
      let keep p := Ok (p, (ws, children)) in
      if completionMet (ft_CompletionPolicy task) quorum succeeded total then keep FleetTaskPhaseSucceeded
      else if nonTerminal =? 0 then
        if operatorCancelled then keep FleetTaskPhaseCancelled else enactFailure api task ws children
      else if negb (stillPossible (ft_CompletionPolicy task) quorum (succeeded + nonTerminal) total) then
        if operatorCancelled then keep FleetTaskPhaseRunning
        else if ft_FailurePolicy task =s FailurePolicyContinueOthers then keep FleetTaskPhaseRunning
        else enactFailure api task ws children
      else keep FleetTaskPhaseRunning.

(** ** The compensation saga *)

Definition compPhasePending : string := "Pending".
Definition compPhaseInProgress : string := "InProgress".
Definition compPhaseSucceeded : string := "Succeeded".
Definition compPhaseFailed : string := "Failed".
Notation CompPhases := (gmap string string).

Definition needsCompensation (a : FleetTaskAction) (children : Children) : bool :=
  match ta_Compensation a with
  | None => false
  | Some _ => match children !! ta_Name a with Some c => fa_Phase c =s ActionPhaseSucceeded | None => false end
  end.

Definition isSuccessor (aName : string) (b : FleetTaskAction) : bool := existsb (fun dep => dep =s aName) (ta_DependsOn b).

Definition compensationEligible (actions : list FleetTaskAction) (aName : string) (children : Children) (compPhase : CompPhases) : bool :=
  forallb (fun b =>
      negb (isSuccessor aName b) ||
      (match children !! ta_Name b with None => false | Some c => isTerminal (fa_Phase c) end &&
       negb (needsCompensation b children && (default "" (compPhase !! ta_Name b) <>s compPhaseSucceeded)))) actions.

(** The phase of a compensation as its child object shows it. *)
Definition compPhaseOf (c : FleetAction) : string :=
  if fa_Phase c =s ActionPhaseSucceeded then compPhaseSucceeded
  else if (fa_Phase c =s ActionPhaseFailed) || (fa_Phase c =s ActionPhaseCancelled) then compPhaseFailed
  else compPhaseInProgress.

(** The owed compensations' phases, and the members whose compensation name is taken. *)
Fixpoint readCompensations (api : Api) (task : string) (children : Children) (actions : list FleetTaskAction)
    (acc : CompPhases * list string) : result taskError (CompPhases * list string) :=
  match actions with
  | [] => Ok acc
  | a :: actions =>
      if negb (needsCompensation a children) then readCompensations api task children actions acc
      else
        let '(phases, conflicted) := acc in
        match api_getComp api (compChildName task (ta_Name a)) with
        | GetFailed => Err (ErrGetCompensation (ta_Name a))
        | Absent => readCompensations api task children actions (<[ta_Name a := compPhasePending]> phases, conflicted)
        | Found cc => readCompensations api task children actions
                        (if fa_Owned cc then (<[ta_Name a := compPhaseOf cc]> phases, conflicted)
                         else (<[ta_Name a := compPhasePending]> phases, conflicted ++ [ta_Name a]))
        end
  end.

(** Generate the eligible compensations, in name order. *)
Fixpoint createCompensations (api : Api) (task : FleetTask) (children : Children) (conflicted : list string) (names : list string)
    (ws : list childWrite) (phases : CompPhases) : failing (list childWrite * CompPhases) :=
  match names with
  | [] => Ok (ws, phases)
  | name :: names =>
      if (default "" (phases !! name) <>s compPhasePending) || existsb (String.eqb name) conflicted ||
         negb (compensationEligible (ft_Actions task) name children phases)
      then createCompensations api task children conflicted names ws phases
      else
        match actionByName (ft_Actions task) name with
        | Some (mkTaskAction _ _ _ _ _ (Some spec)) =>
            let ws := ws ++ [WCreate (compChildName (ft_Name task) name) (newChild spec DesiredStateRunning)] in
            match api_create api (compChildName (ft_Name task) name) with
            | Created | AlreadyExists =>
                createCompensations api task children conflicted names ws (<[name := compPhaseInProgress]> phases)
            | AdmissionRefused | CreateFailed => Err (ErrCreateCompensation name, ws)
            end
        | _ => createCompensations api task children conflicted names ws phases
        end
  end.

Definition projectCompensation (phases : CompPhases) (s : TaskActionStatus) : TaskActionStatus :=
  match phases !! tas_Name s with
  | Some p => mkTaskActionStatus (tas_Name s) (tas_Phase s) (tas_DependenciesMet s) p
  | None => s
  end.

Definition compensationComplete (status : list TaskActionStatus) : bool :=
  forallb (fun s => negb ((tas_CompensationPhase s =s compPhasePending) || (tas_CompensationPhase s =s compPhaseInProgress)
                          || (tas_CompensationPhase s =s compPhaseFailed))) status.

(** One step of the saga: the conflict, the task with its new phase and projection, the writes. *)
Definition driveCompensation (api : Api) (task : FleetTask) (ws : list childWrite) (children : Children)
    : failing (option string * (FleetTask * list childWrite)) :=
  match readCompensations api (ft_Name task) children (ft_Actions task) (∅, []) with
  | Err e => Err (e, ws)
  | Ok (phases, conflicted) =>
      let failedClosed := existsb (fun kv => snd kv =s compPhaseFailed) (map_to_list phases) in
      let? wp := (if failedClosed then Ok (ws, phases)
                  else createCompensations api task children conflicted (sort_Strings (ta_Name <$> ft_Actions task)) ws phases) in
      let '(ws, phases) := wp in
      let status := projectCompensation phases <$> ft_ActionStatus task in
      let phase := if failedClosed then FleetTaskPhaseFailed
                   else if compensationComplete status then FleetTaskPhaseCompensated
                   else FleetTaskPhaseCompensating in
      Ok (head conflicted, (withPhase (withActionStatus task status) phase, ws))
  end.

(** ** Reconcile *)

(** The error the pass returns, the task as its status patches leave it, and the writes of children it asked for;
    or the pass goes on in reconcileFlow, with the task and its tree. *)
Inductive reconcileResult :=
| Passed (err : option taskError) (task : FleetTask) (ws : list childWrite)
| OnFlowPath (task : FleetTask) (flow : FlowNode).

(** The status patch of [new] over [stored], and the pass's answer when it is accepted. *)
Definition patchTask (api : Api) (stored new : FleetTask) (ws : list childWrite) (err : option taskError) : reconcileResult :=
  if api_status api new then Passed err new ws else Passed (Some ErrStatusPatch) stored ws.

(** From the graph check on. A failing call keeps the status as read. *)
Definition reconcileGraph (api : Api) (task : FleetTask) : reconcileResult :=
  match validateGraph (ft_Actions task) with
  | Some _ => patchTask api task (withPhase task FleetTaskPhaseFailed) [] None
  | None =>
      match loadChildren api (ft_Name task) (ft_Actions task) (∅, []) with
      | Err e => Passed (Some e) task []
      | Ok (children, conflicted) =>
          match createLoop api task (toCreate (ft_Actions task) children conflicted) [] children with
          | Err (e, ws) => Passed (Some e) task ws
          | Ok (refused, (ws, children)) =>
              let fanoutState := if ft_Phase task =s FleetTaskPhaseCompensating then DesiredStateCancelled else ft_DesiredState task in
              match writeAll api (ft_Name task) fanoutState ws children with
              | Err (e, ws) => Passed (Some e) task ws
              | Ok (ws, children) =>
                  match refused, conflicted with
                  | Some m, _ => Passed (Some (ErrChildRefused m)) task ws
                  | None, m :: _ => Passed (Some (ErrNameConflict m)) task ws
                  | None, [] =>
                      let task1 := withActionStatus task (rebuildActionStatus (ft_Actions task) children) in
                      match aggregate api task1 ws children with
                      | Err (e, ws) => Passed (Some e) task ws
                      | Ok (phase, (ws, children)) =>
                          let task2 := withPhase task1 phase in
                          if phase =s FleetTaskPhaseCompensating then
                            match driveCompensation api task2 ws children with
                            | Err (e, ws) => Passed (Some e) task ws
                            | Ok (held, (task3, ws)) => patchTask api task task3 ws (ErrCompensationConflict <$> held)
                            end
                          else patchTask api task task2 ws None
                      end
                  end
              end
          end
      end
  end.

(** The draft gate: nothing but the task's own status moves. *)
Definition holdAsDraft (api : Api) (task : FleetTask) : reconcileResult :=
  if (ft_Phase task =s FleetTaskPhaseDraft) && ft_AwaitingActivation task then Passed None task []
  else patchTask api task (withAwaiting (withPhase task FleetTaskPhaseDraft) true) [] None.

(** The task to go on with; [None]: its status patch failed. *)
Definition markActivated (api : Api) (task : FleetTask) : option FleetTask :=
  let held := ft_Phase task =s FleetTaskPhaseDraft in
  if negb held && negb (ft_AwaitingActivation task) then Some task
  else
    let task1 := withAwaiting (if held then withPhase task FleetTaskPhasePending else task) false in
    if api_status api task1 then Some task1 else None.

Definition Reconcile (api : Api) (task : FleetTask) : reconcileResult :=
  if isGroupTerminal (ft_Phase task) then Passed None task []
  else if ft_Draft task then holdAsDraft api task
  else match markActivated api task with
       | None => Passed (Some ErrStatusPatch) task []
       | Some task =>
           match ft_Flow task with
           | Some flow => OnFlowPath task flow
           | None => reconcileGraph api task
           end
       end.
