(* ===== verification/FleetTaskProps.v ===== *)
(** The composite task controller's properties: the dependency-graph check and the blocked-member walk are
    exact and end, a pass writes only for cause (a member that is ready, a compensation in reverse dependency
    order, the desired state of the task's own children), and a task reported Compensated is undone. All are of
    what the pass was answered; nothing is assumed of the answers. The last section shows four behaviours that
    surprise. *)

From S2P Require Import Prelude.
From S2P Require Import Types.
From S2P Require Import FleetTask.

(** ** The graph check is exact *)

Section Dfs.
Variable adj : string -> list string.
Notation edge := (fun n m => m ∈ adj n).

(** Every name reachable from [n] is reached in finitely many steps. *)
Definition settles (n : string) : Prop := Acc (fun m n => m ∈ adj n) n.

Definition blacksSettle (c : Colors) : Prop := forall x, c !! x = Some Black -> settles x.

(** What a completed search leaves: the same gray names, the blacks kept, only settling blacks. *)
Record extends (c c' : Colors) : Prop := {
  ext_settle : blacksSettle c -> blacksSettle c';
  ext_gray : forall x, c' !! x = Some Gray <-> c !! x = Some Gray;
  ext_black : forall x, c !! x = Some Black -> c' !! x = Some Black
}.

Lemma extends_refl c : extends c c.
Proof. by split. Qed.

Lemma extends_trans c1 c2 c3 : extends c1 c2 -> extends c2 c3 -> extends c1 c3.
Proof. intros [] []. split; [eauto| |eauto]. intros x. naive_solver. Qed.

Lemma extends_dom c c' : extends c c' -> dom c ⊆ dom c'.
Proof.
  intros [_ Hg Hb] x. rewrite !elem_of_dom. intros [[] Hx]; [|eauto]. exists Gray. by apply Hg.
Qed.

Definition visitSound (v : string -> Colors -> option (bool * Colors)) : Prop :=
  forall n c b c', c !! n = None -> v n c = Some (b, c') ->
  if b then (forall g, c !! g = Some Gray -> tc edge g n) -> exists x, tc edge x x
  else extends c c' /\ c' !! n = Some Black.

Lemma visitAll_sound v n ms c b c' :
  visitSound v -> (forall m, m ∈ ms -> m ∈ adj n) -> visitAll v ms c = Some (b, c') ->
  if b then (forall g, c !! g = Some Gray -> rtc edge g n) -> exists x, tc edge x x
  else extends c c' /\ forall m, m ∈ ms -> c' !! m = Some Black.
Proof.
  intros Hv. revert c. induction ms as [|m ms IH]; intros c Hms; simpl.
  { intros [= <- <-]. split; [apply extends_refl|]. intros m Hm. by apply not_elem_of_nil in Hm. }
  assert (Hnm : m ∈ adj n) by (apply Hms; by left).
  destruct (c !! m) as [[]|] eqn:Em.
  - intros [= <- <-] Hg. exists m. eapply tc_rtc_l; [apply Hg, Em|]. by apply tc_once.
  - intros H. apply IH in H; [|intros; apply Hms; by right]. destruct b; [done|].
    destruct H as [Hext Hbl]. split; [done|]. intros x [-> |Hx]%elem_of_cons; [|eauto]. by apply (ext_black _ _ Hext).
  - destruct (v m c) as [[[] c1]|] eqn:Ev; [| |done].
    + intros [= <- <-] Hg. specialize (Hv m c true c1 Em Ev). apply Hv.
      intros g Hgr. eapply tc_rtc_l; [by apply Hg|]. by apply tc_once.
    + intros H. destruct (Hv m c false c1 Em Ev) as [Hx1 Hb1].
      apply IH in H; [|intros; apply Hms; by right]. destruct b.
      * intros Hg. apply H. intros g Hgr. apply Hg. by apply (ext_gray _ _ Hx1).
      * destruct H as [Hx2 Hbl]. split; [by eapply extends_trans|].
        intros x [-> |Hx]%elem_of_cons; [|eauto]. by apply (ext_black _ _ Hx2).
Qed.

Lemma visit_sound fuel : visitSound (visit fuel adj).
Proof.
  induction fuel as [|fuel IH]; intros n c b c' Hn; simpl; [done|].
  destruct (visitAll _ _ _) as [[b1 c1]|] eqn:E; [|done].
  apply (visitAll_sound _ n) in E; [|done|done]. destruct b1; intros [= <- <-].
  - intros Hg. apply E. intros g. destruct (decide (g = n)) as [-> |Hne]; [done|].
    rewrite lookup_insert_ne by done. intros Hgr. by apply tc_rtc, Hg.
  - destruct E as [[Hs Hg Hb] Hbl]. split; [|by rewrite lookup_insert_eq]. split.
    + intros Hsc. assert (Hs1 : blacksSettle c1).
      { apply Hs. intros x. destruct (decide (x = n)) as [-> |]; [by rewrite lookup_insert_eq|].
        rewrite lookup_insert_ne by done. apply Hsc. }
      intros x. destruct (decide (x = n)) as [-> |]; [|rewrite lookup_insert_ne by done; apply Hs1].
      intros _. constructor. intros m Hm. by apply Hs1, Hbl.
    + intros x. destruct (decide (x = n)) as [-> |Hne]; [rewrite lookup_insert_eq; naive_solver congruence|].
      rewrite lookup_insert_ne by done. rewrite Hg. by rewrite lookup_insert_ne.
    + intros x Hx. assert (x <> n) by congruence. rewrite lookup_insert_ne by done. apply Hb. by rewrite lookup_insert_ne.
Qed.

(** Fuel: one unit per uncoloured name is enough. *)
Section Fuel.
Variable N : gset string.
Hypothesis adj_in : forall n m, m ∈ adj n -> m ∈ N.

Lemma visitAll_returns fuel ms c :
  (forall n c, n ∈ N -> c !! n = None -> (size (N ∖ dom c) <= fuel)%nat -> is_Some (visit fuel adj n c)) ->
  (forall m, m ∈ ms -> m ∈ N) -> (size (N ∖ dom c) <= fuel)%nat -> is_Some (visitAll (visit fuel adj) ms c).
Proof.
  intros Hv. revert c. induction ms as [|m ms IH]; intros c Hms Hc; simpl; [done|].
  assert (m ∈ N) by (apply Hms; by left).
  assert (forall m, m ∈ ms -> m ∈ N) by (intros; apply Hms; by right).
  destruct (c !! m) as [[]|] eqn:Em; [done|by apply IH|].
  destruct (Hv m c) as [[[] c1] Ev]; [done..| |]; rewrite Ev; [done|].
  apply IH; [done|]. etrans; [|exact Hc]. apply subseteq_size.
  pose proof (extends_dom _ _ (proj1 (visit_sound fuel m c false c1 Em Ev))). set_solver.
Qed.

Lemma visit_returns fuel n c :
  n ∈ N -> c !! n = None -> (size (N ∖ dom c) <= fuel)%nat -> is_Some (visit fuel adj n c).
Proof.
  revert n c. induction fuel as [|fuel IH]; intros n c Hn Hc Hf.
  { exfalso. assert (N ∖ dom c ≡ ∅) as H0 by (apply size_empty_iff; lia).
    apply not_elem_of_dom in Hc. set_solver. }
  simpl. destruct (visitAll_returns fuel (adj n) (<[n := Gray]> c)) as [[[] c1] E]; [exact IH|eauto| | |]; [|by rewrite E..].
  rewrite dom_insert_L. apply not_elem_of_dom in Hc.
  assert (size (N ∖ ({[n]} ∪ dom c)) < size (N ∖ dom c))%nat; [|lia].
  apply subset_size. set_solver.
Qed.

Lemma visitRoots_exact fuel roots c :
  (size N <= fuel)%nat -> (forall n, n ∈ roots -> n ∈ N) ->
  blacksSettle c -> (forall x, c !! x <> Some Gray) ->
  match visitRoots fuel adj roots c with
  | None => False
  | Some (Some _) => exists x, tc edge x x
  | Some None => forall n, n ∈ roots -> settles n
  end.
Proof.
  intros Hf. revert c. induction roots as [|n roots IH]; intros c Hr Hs Hg; simpl; [intros n Hn; by apply not_elem_of_nil in Hn|].
  assert (n ∈ N) by (apply Hr; by left).
  assert (Hr' : forall n, n ∈ roots -> n ∈ N) by (intros; apply Hr; by right).
  destruct (c !! n) as [col|] eqn:En.
  - specialize (IH c Hr' Hs Hg). destruct (visitRoots _ _ _ _) as [[e|]|]; [done| |done].
    intros x [-> |Hx]%elem_of_cons; [|eauto]. apply Hs. destruct col; [|done]. by apply Hg in En.
  - destruct (visit_returns fuel n c) as [[b c1] Ev]; [done|done| |].
    { etrans; [|exact Hf]. apply subseteq_size. set_solver. }
    rewrite Ev. pose proof (visit_sound fuel n c b c1 En Ev) as Hv. destruct b.
    + apply Hv. intros g Hgr. by apply Hg in Hgr.
    + destruct Hv as [[Hs1 Hg1 Hb1] Hnb]. specialize (IH c1 Hr' (Hs1 Hs)).
      destruct (visitRoots _ _ _ _) as [[e|]|]; try (apply IH; intros x Hx; by apply Hg1, Hg in Hx).
      intros x [-> |Hx]%elem_of_cons; [by apply Hs1|]. apply IH; [|done]. intros y Hy. by apply Hg1, Hg in Hy.
Qed.
End Fuel.

(** A settling name is on no cycle. *)
Lemma settles_no_cycle n : settles n -> ~ tc edge n n.
Proof.
  intros H. induction H as [n _ IH]. intros Hc.
  inversion Hc as [? m Hnn|? m ? Hnm Hmn]; subst.
  - apply (IH n Hnn). by apply tc_once.
  - apply (IH m Hnm). eapply tc_r; [exact Hmn|exact Hnm].
Qed.
End Dfs.

Lemma elem_adjacency actions n d :
  d ∈ adjacency actions n <-> exists a, a ∈ actions /\ ta_Name a = n /\ d ∈ ta_DependsOn a.
Proof.
  unfold adjacency. rewrite list_elem_of_join. split.
  - intros (l & Hd & Hl). apply list_elem_of_fmap in Hl as (a & -> & Ha).
    destruct (ta_Name a =s n) eqn:E; [str_bool; eauto|by apply not_elem_of_nil in Hd].
  - intros (a & Ha & Hn & Hd). exists (ta_DependsOn a). split; [done|].
    apply list_elem_of_fmap. exists a. split; [|done]. by rewrite Hn, eqb_s_refl.
Qed.

Lemma unknownDep_None actions a :
  unknownDep (memberNames actions) a = None <-> forall d, d ∈ ta_DependsOn a -> d ∈ ta_Name <$> actions.
Proof.
  unfold unknownDep, memberNames. rewrite fmap_None. split.
  - intros H d Hd. apply list_elem_of_In in Hd. pose proof (find_none _ _ H d Hd) as Hn.
    apply negb_false_iff, bool_decide_eq_true in Hn. by apply elem_of_list_to_set in Hn.
  - intros H. destruct (List.find _ _) as [d|] eqn:E; [|done].
    apply find_some in E as [Hd Hn]. apply list_elem_of_In in Hd.
    apply negb_true_iff, bool_decide_eq_false in Hn. destruct Hn. apply elem_of_list_to_set, H, Hd.
Qed.

Definition dependsOn (actions : list FleetTaskAction) (n m : string) : Prop :=
  exists a, a ∈ actions /\ ta_Name a = n /\ m ∈ ta_DependsOn a.

(** The dependency graph is complete and no member, however indirectly, waits on itself. *)
Definition graphValid (actions : list FleetTaskAction) : Prop :=
  (forall a d, a ∈ actions -> d ∈ ta_DependsOn a -> d ∈ ta_Name <$> actions) /\
  (forall n, ~ tc (dependsOn actions) n n).

Lemma tc_adjacency actions x y : tc (fun n m => m ∈ adjacency actions n) x y <-> tc (dependsOn actions) x y.
Proof.
  split; intros H; eapply (tc_congruence id); try exact H; intros n m; simpl; apply elem_adjacency.
Qed.

Lemma memberNames_size actions : (size (memberNames actions) <= length actions)%nat.
Proof. unfold memberNames. etrans; [apply size_list_to_set_le|]. by rewrite length_fmap. Qed.

Lemma roots_exact actions :
  (forall a d, a ∈ actions -> d ∈ ta_DependsOn a -> d ∈ ta_Name <$> actions) ->
  match visitRoots (graphFuel actions) (adjacency actions) (ta_Name <$> actions) ∅ with
  | None => False
  | Some (Some _) => exists x, tc (dependsOn actions) x x
  | Some None => forall n, n ∈ ta_Name <$> actions -> settles (adjacency actions) n
  end.
Proof.
  intros Hdeps.
  pose proof (visitRoots_exact (adjacency actions) (memberNames actions)) as H.
  specialize (H ltac:(intros n m (a & Ha & _ & Hm)%elem_adjacency; apply elem_of_list_to_set; eauto)
    (graphFuel actions) (ta_Name <$> actions) ∅).
  assert (Hsz := memberNames_size actions).
  assert (forall n, n ∈ ta_Name <$> actions -> n ∈ memberNames actions).
  { intros n Hn. by apply elem_of_list_to_set. }
  destruct (visitRoots _ _ _ _) as [[e|]|].
  - destruct H as [x Hx]; [unfold graphFuel; lia|done|by intros ?; rewrite lookup_empty..|].
    exists x. by apply tc_adjacency.
  - apply H; [unfold graphFuel; lia|done|by intros ?; rewrite lookup_empty..].
  - apply H; [unfold graphFuel; lia|done|by intros ?; rewrite lookup_empty..].
Qed.

(** The controller's graph check is exact, and its depth-first search always ends: a task's actions
    are accepted if and only if every dependsOn entry names a member and no member depends, however
    indirectly, on itself. *)
Theorem validateGraph_exact actions : validateGraph actions = None <-> graphValid actions.
Proof.
  unfold validateGraph, graphValid. destruct (first_match _ _) as [e|] eqn:Ef.
  - split; [done|]. intros [Hd _]. rewrite (proj2 (first_match_None _ _)) in Ef; [done|].
    intros a Ha. apply unknownDep_None. eauto.
  - assert (Hdeps : forall a d, a ∈ actions -> d ∈ ta_DependsOn a -> d ∈ ta_Name <$> actions).
    { intros a d Ha. apply unknownDep_None. by apply (proj1 (first_match_None _ _) Ef). }
    pose proof (roots_exact actions Hdeps) as H. destruct (visitRoots _ _ _ _) as [[e|]|]; [| |done].
    + split; [done|]. intros [_ Hc]. destruct H as [x Hx]. by destruct (Hc x).
    + split; [|done]. intros _. split; [done|]. intros n Hn.
      assert (Hm : n ∈ ta_Name <$> actions).
      { inversion Hn as [? ? (a & Ha & <- & _)|? ? ? (a & Ha & <- & _)]; subst; by apply list_elem_of_fmap_2. }
      apply (settles_no_cycle _ n (H n Hm)). by apply tc_adjacency.
Qed.

(** ** The blocked-member walk is exact *)

(** [a] can never start: a predecessor ended Failed or Cancelled, or a predecessor that was never
    generated can itself never start. *)
Inductive Blocked (byName : ByName) (children : Children) : FleetTaskAction -> Prop :=
| Blocked_lost a dep pred :
    dep ∈ ta_DependsOn a -> children !! dep = Some pred -> terminallyUnsatisfiable (fa_Phase pred) = true ->
    Blocked byName children a
| Blocked_behind a dep p :
    dep ∈ ta_DependsOn a -> children !! dep = None -> byName !! dep = Some p -> Blocked byName children p ->
    Blocked byName children a.

Section BlockedWalk.
Variable byName : ByName.
Variable children : Children.
Hypothesis keyed : forall n p, byName !! n = Some p -> ta_Name p = n.

(** [dep] neither blocks by itself nor leads outside [seen]. *)
Definition depClear (seen : gset string) (dep : string) : Prop :=
  match children !! dep with
  | Some pred => terminallyUnsatisfiable (fa_Phase pred) = false
  | None => match byName !! dep with Some _ => dep ∈ seen | None => True end
  end.
Definition nodeClear (seen : gset string) (x : string) : Prop :=
  forall p, byName !! x = Some p -> forall dep, dep ∈ ta_DependsOn p -> depClear seen dep.

(** A walk that found nothing: it kept [seen], and everything it added is clear. *)
Definition walked (seen seen' : gset string) : Prop :=
  seen ⊆ seen' /\ forall x, x ∈ seen' -> x ∉ seen -> nodeClear seen' x.

Lemma depClear_mono s s' dep : s ⊆ s' -> depClear s dep -> depClear s' dep.
Proof. unfold depClear. intros Hs. destruct (children !! dep); [done|]. destruct (byName !! dep); [set_solver|done]. Qed.

Lemma walked_trans s1 s2 s3 : walked s1 s2 -> walked s2 s3 -> walked s1 s3.
Proof.
  intros [H12 C12] [H23 C23]. split; [set_solver|]. intros x Hx Hn.
  destruct (decide (x ∈ s2)) as [Hx2|Hx2]; [|by apply C23].
  intros p Hp dep Hd. eapply depClear_mono; [exact H23|]. by eapply C12.
Qed.

Definition blockedSound (f : FleetTaskAction -> gset string -> option (bool * gset string)) : Prop :=
  forall a seen b seen', byName !! ta_Name a = Some a -> f a seen = Some (b, seen') ->
  if b then Blocked byName children a else walked seen seen' /\ ta_Name a ∈ seen'.

Lemma blockedLoop_sound f a deps seen b seen' :
  blockedSound f -> (forall d, d ∈ deps -> d ∈ ta_DependsOn a) ->
  blockedLoop f byName children deps seen = Some (b, seen') ->
  if b then Blocked byName children a
  else walked seen seen' /\ forall d, d ∈ deps -> depClear seen' d.
Proof.
  intros Hf. revert seen. induction deps as [|d deps IH]; intros seen Hd; simpl.
  { intros [= <- <-]. split; [split; [done|]; intros; set_solver|]. intros d Hd'. by apply not_elem_of_nil in Hd'. }
  assert (Hda : d ∈ ta_DependsOn a) by (apply Hd; by left).
  assert (Hdeps : forall d, d ∈ deps -> d ∈ ta_DependsOn a) by (intros; apply Hd; by right).
  assert (Hskip : forall seen, blockedLoop f byName children deps seen = Some (b, seen') ->
    (forall s, seen ⊆ s -> depClear s d) ->
    if b then Blocked byName children a else walked seen seen' /\ forall d', d' ∈ d :: deps -> depClear seen' d').
  { intros s H Hc. apply IH in H; [|done]. destruct b; [done|]. destruct H as [Hw Hcl]. split; [done|].
    intros x [-> |Hx]%elem_of_cons; [|eauto]. apply Hc, Hw. }
  destruct (children !! d) as [pred|] eqn:Ed; [|destruct (byName !! d) as [p|] eqn:Ep].
  - destruct (terminallyUnsatisfiable _) eqn:Et; [intros [= <- <-]; by eapply Blocked_lost|].
    intros H. apply Hskip; [done|]. intros s _. unfold depClear. by rewrite Ed.
  - destruct (f p seen) as [[b1 s1]|] eqn:Ef; [|done]. assert (Hpn := keyed _ _ Ep).
    apply Hf in Ef; [|by rewrite Hpn]. destruct b1.
    + intros [= <- <-]. by eapply Blocked_behind.
    + destruct Ef as [Hw Hin]. intros H. apply Hskip in H.
      * destruct b; [done|]. destruct H as [Hw2 Hc]. split; [by eapply walked_trans|done].
      * intros s Hs. unfold depClear. rewrite Ed, Ep. rewrite Hpn in Hin. set_solver.
  - intros H. apply Hskip; [done|]. intros s _. unfold depClear. by rewrite Ed, Ep.
Qed.

Lemma blockedForever_sound fuel : blockedSound (blockedForever fuel byName children).
Proof.
  induction fuel as [|fuel IH]; intros a seen b seen' Ha; simpl; [done|].
  destruct (bool_decide _) eqn:Es.
  { apply bool_decide_eq_true in Es. intros [= <- <-]. split; [split; [done|]; set_solver|done]. }
  apply bool_decide_eq_false in Es. intros H. apply (blockedLoop_sound _ a) in H; [|done|done].
  destruct b; [done|]. destruct H as [[Hsub Hcl] Hdeps]. split; [split; [set_solver|]|set_solver].
  intros x Hx Hn. destruct (decide (x = ta_Name a)) as [-> |]; [|apply Hcl; set_solver].
  intros p Hp dep Hd. rewrite Ha in Hp. simplify_eq. eauto.
Qed.

(** Nothing in a closed clear set is blocked. *)
Lemma clear_not_blocked s a :
  (forall x, x ∈ s -> nodeClear s x) -> byName !! ta_Name a = Some a -> ta_Name a ∈ s -> ~ Blocked byName children a.
Proof.
  intros Hs Ha Hin Hb. induction Hb as [a dep pred Hd Hc Ht|a dep p Hd Hc Hp Hb IH].
  - specialize (Hs _ Hin _ Ha _ Hd). unfold depClear in Hs. rewrite Hc in Hs. congruence.
  - assert (Hpn := keyed _ _ Hp). specialize (Hs _ Hin _ Ha _ Hd). unfold depClear in Hs. rewrite Hc, Hp in Hs.
    apply IH; rewrite Hpn; done.
Qed.

Section Fuel.
Variable N : gset string.
Hypothesis named : forall n p, byName !! n = Some p -> n ∈ N.

Lemma blockedLoop_returns fuel deps seen :
  (forall a seen, byName !! ta_Name a = Some a -> (size (N ∖ seen) < fuel)%nat ->
     is_Some (blockedForever fuel byName children a seen)) ->
  (size (N ∖ seen) < fuel)%nat -> is_Some (blockedLoop (blockedForever fuel byName children) byName children deps seen).
Proof.
  intros Hf. revert seen. induction deps as [|d deps IH]; intros seen Hs; simpl; [done|].
  destruct (children !! d); [case_match; [done|by apply IH]|].
  destruct (byName !! d) as [p|] eqn:Ep; [|by apply IH]. assert (Hpn := keyed _ _ Ep).
  destruct (Hf p seen) as [[b s1] E]; [by rewrite Hpn|done|]. rewrite E. destruct b; [done|].
  apply IH. eapply Nat.le_lt_trans; [|exact Hs]. apply subseteq_size.
  apply blockedForever_sound in E as [[Hsub _] _]; [set_solver|by rewrite Hpn].
Qed.

Lemma blockedForever_returns fuel a seen :
  byName !! ta_Name a = Some a -> (size (N ∖ seen) < fuel)%nat -> is_Some (blockedForever fuel byName children a seen).
Proof.
  revert a seen. induction fuel as [|fuel IH]; intros a seen Ha Hs; [lia|]. simpl.
  destruct (bool_decide _) eqn:Es; [done|]. apply bool_decide_eq_false in Es.
  apply blockedLoop_returns; [exact IH|]. apply named in Ha.
  assert (size (N ∖ ({[ta_Name a]} ∪ seen)) < size (N ∖ seen))%nat; [|lia]. apply subset_size. set_solver.
Qed.
End Fuel.
End BlockedWalk.

Lemma actionsByName_fold actions (m : ByName) n p :
  fold_left (fun m a => <[ta_Name a := a]> m) actions m !! n = Some p ->
  (p ∈ actions /\ ta_Name p = n) \/ m !! n = Some p.
Proof.
  revert m. induction actions as [|a actions IH]; intros m; simpl; [by right|].
  intros H. apply IH in H as [[Hp Hn]|H]; [left; split; [by right|done]|].
  destruct (decide (ta_Name a = n)) as [<- |Hne].
  - rewrite lookup_insert_eq in H. simplify_eq. left. split; [by left|done].
  - rewrite lookup_insert_ne in H by done. by right.
Qed.

Lemma actionsByName_Some actions n p : actionsByName actions !! n = Some p -> p ∈ actions /\ ta_Name p = n.
Proof. intros H. apply actionsByName_fold in H as [H|H]; [done|]. by rewrite lookup_empty in H. Qed.

Lemma actionsByName_fold_notin actions (m : ByName) n :
  n ∉ ta_Name <$> actions -> fold_left (fun m a => <[ta_Name a := a]> m) actions m !! n = m !! n.
Proof.
  revert m. induction actions as [|a actions IH]; intros m Hn; simpl in *; [done|].
  apply not_elem_of_cons in Hn as [Hne Hn]. rewrite IH by done. by rewrite lookup_insert_ne.
Qed.

Lemma actionsByName_elem actions a :
  NoDup (ta_Name <$> actions) -> a ∈ actions -> actionsByName actions !! ta_Name a = Some a.
Proof.
  unfold actionsByName. generalize (∅ : ByName).
  induction actions as [|x actions IH]; intros m Hnd Ha; [by apply not_elem_of_nil in Ha|].
  simpl in *. apply NoDup_cons in Hnd as [Hx Hnd]. apply elem_of_cons in Ha as [-> |Ha]; [|by apply IH].
  rewrite actionsByName_fold_notin by done. by rewrite lookup_insert_eq.
Qed.

(** The walk that decides whether a member can still start is exact and always ends: for a task
    whose member names are unique, it answers true if and only if some predecessor ended Failed or
    Cancelled, or a predecessor that was never generated is itself blocked, to any depth. *)
Theorem dependencyPermanentlyFailed_exact actions a children :
  NoDup (ta_Name <$> actions) -> a ∈ actions ->
  dependencyPermanentlyFailed actions a children = true <-> Blocked (actionsByName actions) children a.
Proof.
  intros Hnd Ha. assert (Hby := actionsByName_elem actions a Hnd Ha).
  assert (Hkey : forall n p, actionsByName actions !! n = Some p -> ta_Name p = n) by (intros n p H; by apply actionsByName_Some in H as [_ ?]).
  unfold dependencyPermanentlyFailed.
  destruct (blockedForever_returns (actionsByName actions) children Hkey (memberNames actions)) with
    (fuel := S (S (length actions))) (a := a) (seen := ∅ : gset string) as [[b s] E]; [|done| |].
  - intros n p H. apply actionsByName_Some in H as [Hp <-]. apply elem_of_list_to_set. by apply list_elem_of_fmap_2.
  - pose proof (memberNames_size actions).
    assert (size (memberNames actions ∖ ∅) <= size (memberNames actions))%nat by (apply subseteq_size; set_solver). lia.
  - rewrite E. apply blockedForever_sound in E; [|done|done]. destruct b; [done|]. split; [done|].
    intros Hb. destruct E as [[_ Hcl] Hin]. exfalso. revert Hb.
    apply (clear_not_blocked _ _ Hkey s); [|done|done]. intros x Hx. apply Hcl; [done|set_solver].
Qed.

(** ** What a pass knows and what it writes *)

(** The rank a predecessor must have reached. *)
Definition neededRank (a : FleetTaskAction) : Z :=
  if startRank (ta_StartCondition a) =? 0 then startRank ActionPhaseSucceeded else startRank (ta_StartCondition a).

(** The task controls the object a read found. *)
Definition foundOwn (r : childRead) (c : FleetAction) : Prop := r = Found c /\ fa_Owned c = true.

Section Writes.
Variable api : Api.
Variable t : FleetTask.

(** What the pass has learnt of the object [n], given the writes it asked for: what its read found, what it
    created, or what one of its patches was answered with. *)
Inductive known (ws : list childWrite) (n : string) : FleetAction -> Prop :=
| KnownRead c : foundOwn (api_get api n) c -> known ws n c
| KnownCreated c : WCreate n c ∈ ws -> api_create api n = Created -> known ws n c
| KnownAnswered c d c' : known ws n c -> WPatch n d ∈ ws -> api_patch api n (withDesired c d) = Some c' -> known ws n c'.

(** [a] may start: not dormant, and the read of every predecessor found a child of the task that has reached
    [a]'s start condition. *)
Definition readyToStart (a : FleetTaskAction) : Prop :=
  ta_Trigger a <> TriggerModeOnEvent /\
  forall d, d ∈ ta_DependsOn a ->
    exists c, foundOwn (api_get api (childName (ft_Name t) d)) c /\ neededRank a <= startRank (fa_Phase c).

(** The compensation of [a] was found done. *)
Definition undone (a : FleetTaskAction) : Prop :=
  exists cc, foundOwn (api_getComp api (compChildName (ft_Name t) (ta_Name a))) cc /\ fa_Phase cc = ActionPhaseSucceeded.

(** A member's compensation may start: the member Succeeded, and every member that depends on it is
    terminal and, where it Succeeded and declares a compensation, already undone. *)
Definition undoable (ws : list childWrite) (a : FleetTaskAction) : Prop :=
  (exists c, known ws (childName (ft_Name t) (ta_Name a)) c /\ fa_Phase c = ActionPhaseSucceeded) /\
  forall b, b ∈ ft_Actions t -> ta_Name a ∈ ta_DependsOn b ->
    exists cb, known ws (childName (ft_Name t) (ta_Name b)) cb /\ isTerminal (fa_Phase cb) = true /\
      (ta_Compensation b <> None -> fa_Phase cb = ActionPhaseSucceeded -> undone b).

(** The cause of a write. *)
Definition memberCreate (n : string) (child : FleetAction) : Prop :=
  exists a, a ∈ ft_Actions t /\ n = childName (ft_Name t) (ta_Name a) /\ api_get api n = Absent /\
    child = newChild (ta_Action a) (ft_DesiredState t) /\ readyToStart a.
Definition compCreate (ws : list childWrite) (n : string) (child : FleetAction) : Prop :=
  exists a spec, a ∈ ft_Actions t /\ n = compChildName (ft_Name t) (ta_Name a) /\ api_getComp api n = Absent /\
    ta_Compensation a = Some spec /\ child = newChild spec DesiredStateRunning /\ undoable ws a.
Definition memberPatch (ws : list childWrite) (n : string) (d : DesiredState) : Prop :=
  exists a c, a ∈ ft_Actions t /\ n = childName (ft_Name t) (ta_Name a) /\ known ws n c /\
    takesWrite c = true /\ fa_DesiredState c <> d /\ (d = ft_DesiredState t \/ d = DesiredStateCancelled).

Definition justified (ws : list childWrite) (w : childWrite) : Prop :=
  match w with
  | WCreate n child => memberCreate n child \/ compCreate ws n child
  | WPatch n d => memberPatch ws n d
  end.

(** The writes so far are justified, and every child in hand is known. *)
Definition sound (ws : list childWrite) : Prop := forall w, w ∈ ws -> justified ws w.
Definition inHand (ws : list childWrite) (children : Children) : Prop :=
  forall m c, children !! m = Some c -> m ∈ ta_Name <$> ft_Actions t /\ known ws (childName (ft_Name t) m) c.

Lemma known_mono ws ws' n c : ws ⊆ ws' -> known ws n c -> known ws' n c.
Proof.
  intros Hs H. induction H; [by apply KnownRead|apply KnownCreated; set_solver|].
  eapply KnownAnswered; [done|by apply Hs|done].
Qed.

Lemma undoable_mono ws ws' a : ws ⊆ ws' -> undoable ws a -> undoable ws' a.
Proof.
  intros Hs [(c & Hc & Hp) Hd]. split; [eauto using known_mono|]. intros b Hb Hab.
  destruct (Hd b Hb Hab) as (cb & Hcb & H). eauto using known_mono.
Qed.

Lemma justified_mono ws ws' w : ws ⊆ ws' -> justified ws w -> justified ws' w.
Proof.
  intros Hs. destruct w as [n child|n d]; simpl.
  - intros [H|(a & spec & Ha & Hn & Hg & Hc & He & Hu)]; [by left|]. right. exists a, spec. eauto 10 using undoable_mono.
  - intros (a & c & Ha & Hn & Hk & H). exists a, c. eauto using known_mono.
Qed.

Lemma childrenInHand_mono ws ws' children : ws ⊆ ws' -> inHand ws children -> inHand ws' children.
Proof. intros Hs H m c Hc. destruct (H m c Hc). eauto using known_mono. Qed.

Lemma sound_snoc ws w : sound ws -> justified (ws ++ [w]) w -> sound (ws ++ [w]).
Proof.
  intros H Hw x [Hx|Hx]%elem_of_app; [apply (justified_mono ws); [set_solver|by apply H]|].
  by apply list_elem_of_singleton in Hx as ->.
Qed.

(** Loading *)
Lemma loadChildren_reads actions ch cf ch' cf' :
  loadChildren api (ft_Name t) actions (ch, cf) = Ok (ch', cf') ->
  (forall m c, ch' !! m = Some c -> ch !! m = Some c \/ m ∈ ta_Name <$> actions /\ foundOwn (api_get api (childName (ft_Name t) m)) c) /\
  cf ⊆ cf' /\ dom ch ⊆ dom ch' /\
  (forall m, m ∈ ta_Name <$> actions -> m ∉ cf' -> ch' !! m = None -> api_get api (childName (ft_Name t) m) = Absent) /\
  (forall m c, m ∈ ta_Name <$> actions -> foundOwn (api_get api (childName (ft_Name t) m)) c -> ch' !! m = Some c) /\
  (forall m, m ∉ ta_Name <$> actions -> ch' !! m = ch !! m).
Proof.
  revert ch cf. induction actions as [|a actions IH]; intros ch cf; cbn [loadChildren].
  { intros [= <- <-]. split_and!; try done; try (intros; by left); intros m; set_solver. }
  destruct (api_get api _) as [c| |] eqn:Eg; [|..|done].
  - destruct (fa_Owned c) eqn:Eo; intros H; apply IH in H as (H1 & H2 & H3 & H4 & H5 & H6); rewrite fmap_cons.
    + split_and!.
      * intros m c0 [H|[Hm Hf]]%H1; [|right; split; [by right|done]].
        destruct (decide (m = ta_Name a)) as [-> |Hne]; [|rewrite lookup_insert_ne in H by done; by left].
        rewrite lookup_insert_eq in H. simplify_eq. right. split; [by left|done].
      * done.
      * rewrite dom_insert_L in H3. set_solver.
      * intros m [-> |Hm]%elem_of_cons Hcf Hn; [|by apply H4].
        rewrite dom_insert_L in H3. apply not_elem_of_dom in Hn. set_solver.
      * intros m c0 [-> |Hm]%elem_of_cons [Hf Ho]; [|by apply H5].
        destruct (decide (ta_Name a ∈ ta_Name <$> actions)) as [Hin|Hin]; [by apply H5|].
        rewrite H6, lookup_insert_eq by done. congruence.
      * intros m [Hne Hm]%not_elem_of_cons. by rewrite H6, lookup_insert_ne.
    + split_and!; [|set_solver|done| | |].
      * intros m c0 [H|[Hm Hf]]%H1; [by left|right; split; [by right|done]].
      * intros m [-> |Hm]%elem_of_cons Hcf Hn; [set_solver|by apply H4].
      * intros m c0 [-> |Hm]%elem_of_cons [Hf Ho]; [congruence|by apply H5].
      * intros m [Hne Hm]%not_elem_of_cons. by rewrite H6.
  - intros H; apply IH in H as (H1 & H2 & H3 & H4 & H5 & H6); rewrite fmap_cons. split_and!; [|done|done| | |].
    + intros m c0 [H|[Hm Hf]]%H1; [by left|right; split; [by right|done]].
    + intros m [-> |Hm]%elem_of_cons Hcf Hn; [done|by apply H4].
    + intros m c0 [-> |Hm]%elem_of_cons [Hf Ho]; [congruence|by apply H5].
    + intros m [Hne Hm]%not_elem_of_cons. by rewrite H6.
Qed.

(** What the pass has in hand after loading: what each read found. *)
Definition loaded (ch : Children) (cf : list string) : Prop :=
  (forall m c, ch !! m = Some c <-> m ∈ ta_Name <$> ft_Actions t /\ foundOwn (api_get api (childName (ft_Name t) m)) c) /\
  (forall m, m ∈ ta_Name <$> ft_Actions t -> m ∉ cf -> ch !! m = None -> api_get api (childName (ft_Name t) m) = Absent).

Lemma loadChildren_loaded ch cf : loadChildren api (ft_Name t) (ft_Actions t) (∅, []) = Ok (ch, cf) -> loaded ch cf.
Proof.
  intros (H1 & _ & _ & H4 & H5 & _)%loadChildren_reads. split; [|done]. intros m c. split; [|intros []; by apply H5].
  intros [H|H]%H1; [by rewrite lookup_empty in H|done].
Qed.

Lemma loaded_inHand ch cf : loaded ch cf -> inHand [] ch.
Proof. intros [H _] m c [Hm Hf]%H. split; [done|]. by apply KnownRead. Qed.
End Writes.

(** Creating *)
Lemma eligible_fold children conflicted actions m n :
  fold_left (eligibleStep children conflicted) actions m !! n = Some true ->
  m !! n = Some true \/ exists a, a ∈ actions /\ ta_Name a = n /\
    notConsidered children conflicted a = false /\ dependenciesMet a children = true.
Proof.
  revert m. induction actions as [|a actions IH]; intros m; simpl; [by left|]. intros H.
  apply IH in H as [H|(b & Hb & Hn & Hc & Hd)]; [|right; exists b; split; [by right|done]].
  unfold eligibleStep in H. destruct (notConsidered children conflicted a) eqn:E; [by left|].
  destruct (decide (ta_Name a = n)) as [<- |Hne].
  - rewrite lookup_insert_eq in H. right. exists a. split; [by left|]. split; [done|]. split; [done|congruence].
  - rewrite lookup_insert_ne in H by done. by left.
Qed.

Lemma elem_toCreate actions children conflicted n :
  n ∈ toCreate actions children conflicted -> exists a, a ∈ actions /\ ta_Name a = n /\
    notConsidered children conflicted a = false /\ dependenciesMet a children = true.
Proof.
  unfold toCreate. rewrite elem_of_sort_Strings, list_elem_of_fmap. intros ([k b] & -> & H).
  apply list_elem_of_In, filter_In in H as [H Hb]. simpl in *. subst b.
  apply list_elem_of_In, elem_of_map_to_list, eligible_fold in H as [H|H]; [by rewrite lookup_empty in H|done].
Qed.

Lemma actionByName_elem actions a :
  NoDup (ta_Name <$> actions) -> a ∈ actions -> actionByName actions (ta_Name a) = Some a.
Proof.
  unfold actionByName. induction actions as [|x actions IH]; intros Hnd Ha; [by apply not_elem_of_nil in Ha|].
  rewrite fmap_cons in Hnd. apply NoDup_cons in Hnd as [Hx Hnd]. simpl.
  apply elem_of_cons in Ha as [-> |Ha]; [by rewrite eqb_s_refl|].
  destruct (ta_Name x =s ta_Name a) eqn:E; [|by apply IH]. str_bool. destruct Hx. rewrite E. by apply list_elem_of_fmap_2.
Qed.

Section Pass.
Variable api : Api.
Variable t : FleetTask.
Hypothesis unique : NoDup (ta_Name <$> ft_Actions t).
Notation sound := (sound api t).
Notation inHand := (inHand api t).
Notation justified := (justified api t).

Definition createReady (names : list string) : Prop :=
  forall n, n ∈ names -> exists a, a ∈ ft_Actions t /\ ta_Name a = n /\
    api_get api (childName (ft_Name t) n) = Absent /\ readyToStart api t a.

Lemma toCreate_ready ch cf : loaded api t ch cf -> createReady (toCreate (ft_Actions t) ch cf).
Proof.
  intros [Hl Habs] n (a & Ha & <- & Hc & Hd)%elem_toCreate. exists a. split; [done|]. split; [done|].
  unfold notConsidered in Hc. apply orb_false_iff in Hc as [[Hch Hcf]%orb_false_iff Htr].
  apply bool_decide_eq_false, eq_None_not_Some in Hch. split.
  { apply Habs; [by apply list_elem_of_fmap_2| |done]. intros Hin. apply not_true_iff_false in Hcf. apply Hcf.
    apply existsb_elem. exists (ta_Name a). auto with swarm. }
  split; [by apply eqb_s_false in Htr|]. intros d Hdep. unfold dependenciesMet in Hd. fold (neededRank a) in Hd.
  rewrite forallb_forall in Hd. specialize (Hd d (proj1 (list_elem_of_In _ _) Hdep)). simpl in Hd.
  destruct (ch !! d) as [c|] eqn:Ec; [|done]. apply Hl in Ec as [_ Hf]. exists c. split; [done|].
  apply negb_true_iff in Hd. by z_bool.
Qed.

(** The children in hand after a step are those before it, or of members that had none; one that takes no
    write is kept as it is. *)
Definition keepsSettled (ch ch' : Children) : Prop :=
  forall m c, ch !! m = Some c -> takesWrite c = false -> ch' !! m = Some c.

Lemma keepsSettled_refl ch : keepsSettled ch ch.
Proof. by intros m c Hc _. Qed.
#[local] Hint Resolve keepsSettled_refl : core.

Lemma createLoop_sound names ws ch :
  createReady names -> (forall n, n ∈ names -> ch !! n = None) -> NoDup names -> sound ws -> inHand ws ch ->
  match createLoop api t names ws ch with
  | Ok (_, (ws', ch')) => sound ws' /\ inHand ws' ch' /\ keepsSettled ch ch'
  | Err (_, ws') => sound ws'
  end.
Proof.
  revert ws ch. induction names as [|n names IH]; intros ws ch Hr Hnew Hnd Hs Hh; simpl; [by split_and!|].
  apply NoDup_cons in Hnd as [Hn Hnd].
  assert (Hr' : createReady names) by (intros k Hk; apply Hr; by right).
  assert (Hnew' : forall k, k ∈ names -> ch !! k = None) by (intros k Hk; apply Hnew; by right).
  destruct (Hr n ltac:(by left)) as (a & Ha & <- & Habs & Hready).
  rewrite (actionByName_elem _ a unique Ha).
  set (w := WCreate _ _). assert (Hs' : sound (ws ++ [w])).
  { apply sound_snoc; [done|]. left. exists a. done. }
  assert (Hh' : inHand (ws ++ [w]) ch) by (eapply childrenInHand_mono; [|exact Hh]; set_solver).
  destruct (api_create api _) eqn:Ec; [|by apply IH|by split_and!|done].
  match goal with |- context [createLoop _ _ _ _ ?c] => set (ch1 := c) end.
  assert (Hh1 : inHand (ws ++ [w]) ch1).
  { intros m c. unfold ch1. destruct (decide (m = ta_Name a)) as [-> |]; [|rewrite lookup_insert_ne by done; apply Hh'].
    rewrite lookup_insert_eq. intros [= <-]. split; [by apply list_elem_of_fmap_2|]. apply KnownCreated; [set_solver|done]. }
  specialize (IH (ws ++ [w]) ch1 Hr'). destruct (createLoop _ _ _ _ _) as [[r [ws' ch']]|[e ws']].
  - destruct IH as (H1 & H2 & H3); [|done..|].
    { intros k Hk. unfold ch1. rewrite lookup_insert_ne by (by intros <-). by apply Hnew'. }
    split_and!; [done..|]. intros m c Hc Ht. apply H3; [|done]. unfold ch1.
    rewrite lookup_insert_ne; [done|]. intros <-. rewrite (Hnew (ta_Name a)) in Hc; [done|by left].
  - apply IH; [|done..]. intros k Hk. unfold ch1. rewrite lookup_insert_ne by (by intros <-). by apply Hnew'.
Qed.

(** Writing the desired state *)
Definition writable (d : DesiredState) : Prop := d = ft_DesiredState t \/ d = DesiredStateCancelled.

Lemma writeDesired_sound d names ws ch :
  writable d -> sound ws -> inHand ws ch ->
  match writeDesired api (ft_Name t) d names ws ch with
  | Ok (ws', ch') => sound ws' /\ inHand ws' ch' /\ keepsSettled ch ch'
  | Err (_, ws') => sound ws'
  end.
Proof.
  intros Hd. revert ws ch. induction names as [|n names IH]; intros ws ch Hs Hh; simpl; [by split_and!|].
  destruct (ch !! n) as [c|] eqn:Ec; [|by apply IH].
  destruct (takesWrite c && _) eqn:Ew; [|by apply IH]. apply andb_true_iff in Ew as [Et Ene].
  destruct (Hh n c Ec) as [Hin Hk]. apply list_elem_of_fmap in Hin as (a & -> & Ha).
  set (w := WPatch _ _). assert (Hs' : sound (ws ++ [w])).
  { apply sound_snoc; [done|]. exists a, c. split_and!; [done|done| |done| |done].
    - eapply known_mono; [|exact Hk]. set_solver.
    - apply negb_true_iff, eqb_s_false in Ene. done. }
  assert (Hh' : inHand (ws ++ [w]) ch) by (eapply childrenInHand_mono; [|exact Hh]; set_solver).
  destruct (api_patch _ _ _) as [stored|] eqn:Ep; [|done].
  assert (Hh1 : inHand (ws ++ [w]) (<[ta_Name a := stored]> ch)).
  { intros m c'. destruct (decide (m = ta_Name a)) as [-> |]; [|rewrite lookup_insert_ne by done; apply Hh'].
    rewrite lookup_insert_eq. intros [= <-]. split; [by apply list_elem_of_fmap_2|].
    eapply KnownAnswered; [by apply Hh'| |exact Ep]. set_solver. }
  specialize (IH _ _ Hs' Hh1). destruct (writeDesired _ _ _ _ _ _) as [[ws' ch']|[e ws']]; [|done].
  destruct IH as (H1 & H2 & H3). split_and!; [done..|]. intros m c' Hc' Ht'. apply H3; [|done].
  rewrite lookup_insert_ne; [done|]. intros <-. congruence.
Qed.

Lemma enactFailure_sound ws ch :
  sound ws -> inHand ws ch ->
  match enactFailure api t ws ch with
  | Ok (p, (ws', ch')) => p <> FleetTaskPhaseCompensated /\ sound ws' /\ inHand ws' ch' /\ keepsSettled ch ch'
  | Err (_, ws') => sound ws'
  end.
Proof.
  intros Hs Hh. unfold enactFailure, writeAll.
  pose proof (writeDesired_sound DesiredStateCancelled (api_order api (elements (dom ch))) ws ch (or_intror eq_refl) Hs Hh) as H.
  destruct (writeDesired _ _ _ _ _ _) as [[ws' ch']|[e ws']]; simpl; [|done]. split; [by case_match|done].
Qed.

Lemma aggregate_sound ws ch :
  ft_Phase t <> FleetTaskPhaseCompensated -> sound ws -> inHand ws ch ->
  match aggregate api t ws ch with
  | Ok (p, (ws', ch')) => p <> FleetTaskPhaseCompensated /\ sound ws' /\ inHand ws' ch' /\ keepsSettled ch ch'
  | Err (_, ws') => sound ws'
  end.
Proof.
  intros Hne Hs Hh. pose proof (enactFailure_sound ws ch Hs Hh) as Hf.
  assert (Hk : forall p, p <> FleetTaskPhaseCompensated ->
    p <> FleetTaskPhaseCompensated /\ sound ws /\ inHand ws ch /\ keepsSettled ch ch) by (by intros; split_and!).
  unfold aggregate. cbv zeta.
  repeat match goal with |- context [if ?b then _ else _] => destruct b end; first [exact Hf|by apply Hk].
Qed.

(** The saga *)
Definition compPhaseValues : list string := [compPhasePending; compPhaseInProgress; compPhaseSucceeded; compPhaseFailed].

(** What an entry of [compPhase] records. *)
Definition compEntry (ch : Children) (cf : list string) (m p : string) : Prop :=
  exists a, a ∈ ft_Actions t /\ ta_Name a = m /\ needsCompensation a ch = true /\ p ∈ compPhaseValues /\
    (p = compPhaseSucceeded -> undone api t a) /\
    (p = compPhasePending -> m ∈ cf \/ api_getComp api (compChildName (ft_Name t) m) = Absent).
Definition entries (ch : Children) (cf : list string) (ph : CompPhases) : Prop := forall m p, ph !! m = Some p -> compEntry ch cf m p.

Lemma entries_insert ch cf ph m p : entries ch cf ph -> compEntry ch cf m p -> entries ch cf (<[m := p]> ph).
Proof.
  intros He Hp k q. destruct (decide (k = m)) as [-> |]; [rewrite lookup_insert_eq; by intros [= <-]|].
  rewrite lookup_insert_ne by done. apply He.
Qed.

Lemma entries_mono ch cf cf' ph : cf ⊆ cf' -> entries ch cf ph -> entries ch cf' ph.
Proof.
  intros Hs He m p Hp. destruct (He m p Hp) as (a & Ha & Hn & Hc & Hv & Hu & Hg). exists a. split_and!; try done.
  intros E. destruct (Hg E); auto.
Qed.

Lemma compPhaseOf_entry ch cf a cc :
  a ∈ ft_Actions t -> needsCompensation a ch = true ->
  foundOwn (api_getComp api (compChildName (ft_Name t) (ta_Name a))) cc -> compEntry ch cf (ta_Name a) (compPhaseOf cc).
Proof.
  intros Ha Hn Hc. exists a. split; [done|]. split; [done|]. split; [done|]. unfold compPhaseOf, compPhaseValues.
  destruct (fa_Phase cc =s ActionPhaseSucceeded) eqn:E1.
  - str_bool. split; [set_solver|]. split; [|done]. intros _. by exists cc.
  - destruct (_ || _); (split; [set_solver|done]).
Qed.

Lemma pending_entry ch cf a :
  a ∈ ft_Actions t -> needsCompensation a ch = true ->
  ta_Name a ∈ cf \/ api_getComp api (compChildName (ft_Name t) (ta_Name a)) = Absent -> compEntry ch cf (ta_Name a) compPhasePending.
Proof. intros Ha Hn Hg. exists a. split_and!; try done. unfold compPhaseValues. set_solver. Qed.

Lemma readCompensations_entries ch actions ph cf ph' cf' :
  (forall a, a ∈ actions -> a ∈ ft_Actions t) -> entries ch cf ph ->
  readCompensations api (ft_Name t) ch actions (ph, cf) = Ok (ph', cf') ->
  entries ch cf' ph' /\ dom ph ⊆ dom ph' /\
  (forall a, a ∈ actions -> needsCompensation a ch = true -> ta_Name a ∈ dom ph').
Proof.
  revert ph cf. induction actions as [|a actions IH]; intros ph cf Hin He; cbn [readCompensations].
  { intros [= <- <-]. split; [done|]. split; [done|]. intros a Ha. by apply not_elem_of_nil in Ha. }
  assert (Hin' : forall a, a ∈ actions -> a ∈ ft_Actions t) by (intros; apply Hin; by right).
  assert (Ha : a ∈ ft_Actions t) by (apply Hin; by left).
  destruct (needsCompensation a ch) eqn:En; simpl.
  2: { intros H. apply IH in H as (H1 & H2 & H3); [|done|done]. split; [done|]. split; [done|].
       intros b [-> |Hb]%elem_of_cons Hn; [congruence|by apply H3]. }
  assert (Hput : forall p cf1, cf ⊆ cf1 -> compEntry ch cf1 (ta_Name a) p ->
    readCompensations api (ft_Name t) ch actions (<[ta_Name a := p]> ph, cf1) = Ok (ph', cf') ->
    entries ch cf' ph' /\ dom ph ⊆ dom ph' /\
    (forall b, b ∈ a :: actions -> needsCompensation b ch = true -> ta_Name b ∈ dom ph')).
  { intros p cf1 Hcf Hp H. apply IH in H as (H1 & H2 & H3); [|done|by eapply entries_insert; [eapply entries_mono|]].
    rewrite dom_insert_L in H2. split; [done|]. split; [set_solver|].
    intros b [-> |Hb]%elem_of_cons Hn; [set_solver|by apply H3]. }
  destruct (api_getComp api _) as [cc| |] eqn:Eg; [destruct (fa_Owned cc) eqn:Ecc| |done]; intros H; eapply Hput; try exact H;
    [done|by apply compPhaseOf_entry|set_solver| |done|].
  - apply pending_entry; [done..|]. left. set_solver.
  - apply pending_entry; [done..|]. by right.
Qed.

Lemma needsCompensation_child a ch : needsCompensation a ch = true ->
  exists c, ch !! ta_Name a = Some c /\ fa_Phase c = ActionPhaseSucceeded.
Proof.
  unfold needsCompensation. destruct (ta_Compensation a); [|done]. destruct (ch !! ta_Name a); [|done].
  intros H. str_bool. eauto.
Qed.

Lemma eligible_undoable ws ch cf a ph :
  inHand ws ch -> entries ch cf ph -> needsCompensation a ch = true ->
  compensationEligible (ft_Actions t) (ta_Name a) ch ph = true -> undoable api t ws a.
Proof.
  intros Hh Hph Hn He. split.
  { destruct (needsCompensation_child a ch Hn) as (c & Hc & Hp). exists c. split; [by apply Hh|done]. }
  intros b Hb Hd. unfold compensationEligible in He. rewrite forallb_forall in He.
  specialize (He b (proj1 (list_elem_of_In _ _) Hb)).
  assert (Hsucc : isSuccessor (ta_Name a) b = true) by (apply existsb_elem; exists (ta_Name a); auto with swarm).
  rewrite Hsucc in He. simpl in He. apply andb_true_iff in He as [Ht Hu].
  destruct (ch !! ta_Name b) as [cb|] eqn:Ecb; [|done]. exists cb. split; [by apply Hh|]. split; [done|]. intros Hcomp Hs.
  assert (Hnb : needsCompensation b ch = true).
  { unfold needsCompensation. destruct (ta_Compensation b); [|done]. by rewrite Ecb, Hs. }
  rewrite Hnb in Hu. simpl in Hu. apply negb_true_iff, negb_false_iff, eqb_s_true in Hu.
  destruct (ph !! ta_Name b) as [p|] eqn:Ep; simpl in Hu; [subst p|done].
  destruct (Hph _ _ Ep) as (b' & Hb' & Hnm & _ & _ & Hdone & _).
  destruct (Hdone eq_refl) as (cc & Hcc & Hp). exists cc. by rewrite <- Hnm.
Qed.

Lemma createCompensations_sound ch cf names ws ph :
  sound ws -> inHand ws ch -> entries ch cf ph ->
  match createCompensations api t ch cf names ws ph with
  | Ok (ws', ph') => sound ws' /\ dom ph ⊆ dom ph' /\ entries ch cf ph'
  | Err (_, ws') => sound ws'
  end.
Proof.
  revert ws ph. induction names as [|n names IH]; intros ws ph Hs Hh He; cbn [createCompensations]; [done|].
  destruct (_ || _ || _) eqn:Eg; [by apply IH|].
  apply orb_false_iff in Eg as [[Ep Ecf]%orb_false_iff Eel]. apply negb_false_iff in Ep, Eel.
  assert (Hpend : ph !! n = Some compPhasePending).
  { destruct (ph !! n); simpl in Ep; [by apply eqb_s_true in Ep as -> |done]. }
  destruct (He _ _ Hpend) as (a & Ha & <- & Hn & _ & _ & Hg). rewrite (actionByName_elem _ a unique Ha).
  destruct (Hg eq_refl) as [Hin|Habs].
  { apply not_true_iff_false in Ecf. destruct Ecf. apply existsb_elem. exists (ta_Name a). auto with swarm. }
  destruct a as [nm act deps sc tr [spec|]] eqn:Ea; [|by apply IH]. rewrite <- Ea in *.
  replace nm with (ta_Name a) in * by (by rewrite Ea).
  set (w := WCreate _ _). assert (Hs' : sound (ws ++ [w])).
  { apply sound_snoc; [done|]. right. exists a, spec. split_and!; try done; [by rewrite Ea|].
    apply (undoable_mono _ _ ws); [set_solver|]. by eapply eligible_undoable. }
  assert (Hh' : inHand (ws ++ [w]) ch) by (eapply childrenInHand_mono; [|exact Hh]; set_solver).
  assert (He' : entries ch cf (<[ta_Name a := compPhaseInProgress]> ph)).
  { apply entries_insert; [done|]. exists a. split_and!; try done. unfold compPhaseValues. set_solver. }
  specialize (IH _ _ Hs' Hh' He'). rewrite dom_insert_L in IH.
  destruct (api_create api _); [| |done|done];
    (destruct (createCompensations _ _ _ _ _ _ _) as [[ws' ph']|[e ws']]; [|done]);
    (destruct IH as (H1 & H2 & H3); split_and!; [done|set_solver|done]).
Qed.

Lemma driveCompensation_sound ws ch :
  sound ws -> inHand ws ch ->
  match driveCompensation api t ws ch with Ok (_, (_, ws')) => sound ws' | Err (_, ws') => sound ws' end.
Proof.
  intros Hs Hh. unfold driveCompensation. destruct (readCompensations _ _ _ _ _) as [[ph cf]|e] eqn:Er; [|done].
  apply readCompensations_entries in Er as (He & _ & _); [|done|by intros m p; rewrite lookup_empty].
  destruct (existsb _ _); simpl; [done|].
  pose proof (createCompensations_sound ch cf (sort_Strings (ta_Name <$> ft_Actions t)) ws ph Hs Hh He) as H.
  destruct (createCompensations _ _ _ _ _ _ _) as [[ws2 ph2]|[e ws2]]; simpl; [apply H|done].
Qed.

(** Compensated means every owed compensation is recorded Succeeded. *)
Lemma driveCompensation_complete ws ch held t' ws' :
  sound ws -> inHand ws ch -> ta_Name <$> ft_Actions t = tas_Name <$> ft_ActionStatus t ->
  driveCompensation api t ws ch = Ok (held, (t', ws')) -> ft_Phase t' = FleetTaskPhaseCompensated ->
  forall a, a ∈ ft_Actions t -> needsCompensation a ch = true -> undone api t a.
Proof.
  intros Hso Hh Hst. unfold driveCompensation. destruct (readCompensations _ _ _ _ _) as [[ph cf]|e] eqn:Er; [|done].
  apply readCompensations_entries in Er as (He & _ & Hcov); [|done|by intros m p; rewrite lookup_empty].
  destruct (existsb _ _); simpl; [by intros [= <- <- <-]|].
  pose proof (createCompensations_sound ch cf (sort_Strings (ta_Name <$> ft_Actions t)) ws ph Hso Hh He) as H.
  destruct (createCompensations _ _ _ _ _ _ _) as [[ws2 ph2]|[e ws2]]; simpl; [|done]. destruct H as (_ & Hdom & He2).
  intros [= <- <- <-]. simpl. destruct (compensationComplete _) eqn:Ec; [intros _|done]. intros a Ha Hn.
  assert (Hd : ta_Name a ∈ dom ph2) by (apply Hdom, Hcov; done). apply elem_of_dom in Hd as [p Hp].
  assert (Hin : ta_Name a ∈ tas_Name <$> ft_ActionStatus t) by (rewrite <- Hst; by apply list_elem_of_fmap_2).
  apply list_elem_of_fmap in Hin as (s & Hs & Hsin).
  unfold compensationComplete in Ec. rewrite forallb_forall in Ec.
  assert (Hproj : tas_CompensationPhase (projectCompensation ph2 s) = p) by (unfold projectCompensation; by rewrite <- Hs, Hp).
  assert (Hout := Ec (projectCompensation ph2 s) ltac:(apply list_elem_of_In, list_elem_of_fmap_2, Hsin)).
  rewrite Hproj in Hout. destruct (He2 _ _ Hp) as (b & _ & Hnm & _ & Hv & Hsucc & _).
  unfold undone. rewrite <- Hnm. apply Hsucc. unfold compPhaseValues in Hv.
  repeat (apply elem_of_cons in Hv as [-> |Hv]; [done|]). by apply not_elem_of_nil in Hv.
Qed.
End Pass.

(** ** One whole pass *)

Lemma toCreate_NoDup actions ch cf : NoDup (toCreate actions ch cf).
Proof.
  unfold toCreate. rewrite sort_Strings_perm. set (m := fold_left _ _ _).
  assert (H := NoDup_fst_map_to_list m). induction (map_to_list m) as [|[k b] l IH]; simpl in *; [constructor|].
  apply NoDup_cons in H as [Hk H]. destruct b; simpl; [|by apply IH]. apply NoDup_cons. split; [|by apply IH].
  intros (x & -> & Hx)%list_elem_of_fmap. apply Hk, list_elem_of_fmap_2. apply list_elem_of_In, filter_In in Hx as [Hx _].
  by apply list_elem_of_In.
Qed.

Lemma toCreate_new actions ch cf n : n ∈ toCreate actions ch cf -> ch !! n = None.
Proof.
  intros (a & _ & <- & Hc & _)%elem_toCreate. unfold notConsidered in Hc. apply orb_false_iff in Hc as [[Hc _]%orb_false_iff _].
  by apply bool_decide_eq_false, eq_None_not_Some in Hc.
Qed.

(** Every member found Succeeded that declares a compensation has it done. *)
Definition allUndone (api : Api) (t : FleetTask) : Prop :=
  forall a c, a ∈ ft_Actions t -> ta_Compensation a <> None ->
  foundOwn (api_get api (childName (ft_Name t) (ta_Name a))) c -> fa_Phase c = ActionPhaseSucceeded -> undone api t a.

Definition passSound (api : Api) (t : FleetTask) (r : reconcileResult) : Prop :=
  match r with
  | Passed _ t' ws => sound api t ws /\ (ft_Phase t' = FleetTaskPhaseCompensated -> allUndone api t)
  | OnFlowPath _ _ => True
  end.

Section WholePass.
Variable api : Api.
Variable t : FleetTask.
Hypothesis unique : NoDup (ta_Name <$> ft_Actions t).
Hypothesis fresh : ft_Phase t <> FleetTaskPhaseCompensated.

Lemma passSound_kept e ws : sound api t ws -> passSound api t (Passed e t ws).
Proof. by split. Qed.

Lemma passSound_patched new ws e :
  sound api t ws -> (ft_Phase new = FleetTaskPhaseCompensated -> allUndone api t) -> passSound api t (patchTask api t new ws e).
Proof. unfold patchTask. case_match; [done|]. intros Hs _. by apply passSound_kept. Qed.

(** A child found Succeeded is in hand to the end of the pass. *)
Lemma succeeded_owes ch ch' cf a c :
  loaded api t ch cf -> keepsSettled ch ch' -> a ∈ ft_Actions t -> ta_Compensation a <> None ->
  foundOwn (api_get api (childName (ft_Name t) (ta_Name a))) c -> fa_Phase c = ActionPhaseSucceeded ->
  needsCompensation a ch' = true.
Proof.
  intros [Hl _] Hk Ha Hcomp Hf Hp. unfold needsCompensation. destruct (ta_Compensation a); [|done].
  rewrite (Hk (ta_Name a) c); [by rewrite Hp| |unfold takesWrite, awaitsRetry; by rewrite Hp].
  apply Hl. split; [by apply list_elem_of_fmap_2|done].
Qed.

Lemma keepsSettled_trans ch1 ch2 ch3 : keepsSettled ch1 ch2 -> keepsSettled ch2 ch3 -> keepsSettled ch1 ch3.
Proof. intros H1 H2 m c Hc Ht. by apply H2, Ht; apply H1. Qed.

Lemma conclude_sound ch0 cf0 ws ch :
  loaded api t ch0 cf0 -> keepsSettled ch0 ch -> sound api t ws -> inHand api t ws ch ->
  let task1 := withActionStatus t (rebuildActionStatus (ft_Actions t) ch) in
  passSound api t
    match aggregate api task1 ws ch with
    | Err (e, ws) => Passed (Some e) t ws
    | Ok (phase, (ws, children)) =>
        let task2 := withPhase task1 phase in
        if phase =s FleetTaskPhaseCompensating then
          match driveCompensation api task2 ws children with
          | Err (e, ws) => Passed (Some e) t ws
          | Ok (held, (task3, ws)) => patchTask api t task3 ws (ErrCompensationConflict <$> held)
          end
        else patchTask api t task2 ws None
    end.
Proof.
  intros Hl Hk Hs Hh task1. pose proof (aggregate_sound api task1 unique ws ch fresh Hs Hh) as Ha.
  destruct (aggregate _ _ _ _) as [[p [ws3 ch3]]|[e ws3]]; [|by apply passSound_kept].
  destruct Ha as (Hp & Hs3 & Hh3 & Hk3). destruct (p =s FleetTaskPhaseCompensating) eqn:Ep; [|by apply passSound_patched].
  cbv zeta. set (task2 := withPhase task1 p).
  pose proof (driveCompensation_sound api task2 unique ws3 ch3 Hs3 Hh3) as Hd.
  pose proof (fun held t' ws' => driveCompensation_complete api task2 unique ws3 ch3 held t' ws' Hs3 Hh3) as Hc.
  destruct (driveCompensation _ _ _ _) as [[held [t4 ws4]]|[e ws4]]; [|by apply passSound_kept].
  apply passSound_patched; [done|]. intros Hph a c Ha Hcomp Hf Hsc.
  apply (Hc held t4 ws4); [|done|done|done|].
  - simpl. unfold rebuildActionStatus. by rewrite <- list_fmap_compose.
  - eapply succeeded_owes; [done| |done..]. by eapply keepsSettled_trans.
Qed.

Lemma reconcileGraph_sound : passSound api t (reconcileGraph api t).
Proof.
  assert (Hnil : sound api t []) by (intros w Hw; by apply not_elem_of_nil in Hw).
  unfold reconcileGraph. destruct (validateGraph _); [by apply passSound_patched|].
  destruct (loadChildren _ _ _ _) as [[ch cf]|] eqn:El; [|by apply passSound_kept].
  apply loadChildren_loaded in El.
  pose proof (createLoop_sound api t unique _ [] ch (toCreate_ready api t ch cf El) (toCreate_new _ _ _)
    (toCreate_NoDup _ _ _) Hnil (loaded_inHand _ _ _ _ El)) as Hc.
  destruct (createLoop _ _ _ _ _) as [[refused [ws1 ch1]]|[e ws1]]; [|by apply passSound_kept].
  destruct Hc as (Hs1 & Hh1 & Hk1). cbv zeta. set (d := if ft_Phase t =s _ then _ else _).
  assert (Hd : writable t d) by (unfold d, writable; case_match; auto).
  pose proof (writeDesired_sound api t unique d (api_order api (elements (dom ch1))) ws1 ch1 Hd Hs1 Hh1) as Hw.
  unfold writeAll at 1. destruct (writeDesired _ _ _ _ _ _) as [[ws2 ch2]|[e ws2]]; [|by apply passSound_kept].
  destruct Hw as (Hs2 & Hh2 & Hk2). destruct refused; [by apply passSound_kept|].
  destruct cf; [|by apply passSound_kept].
  eapply conclude_sound; [done| |done|done]. by eapply keepsSettled_trans.
Qed.

Lemma reconcileGraph_valid e t' ws w : reconcileGraph api t = Passed e t' ws -> w ∈ ws -> validateGraph (ft_Actions t) = None.
Proof.
  unfold reconcileGraph. destruct (validateGraph _); [|done]. unfold patchTask.
  case_match; intros [= <- <- <-] Hw; by apply not_elem_of_nil in Hw.
Qed.
End WholePass.

(** Activation touches the task's phase and its AwaitingActivation condition only. *)
Lemma markActivated_same api t t1 :
  markActivated api t = Some t1 -> exists p b, t1 = withAwaiting (withPhase t p) b /\ (p = ft_Phase t \/ p = FleetTaskPhasePending).
Proof.
  unfold markActivated. destruct (ft_Phase t =s FleetTaskPhaseDraft) eqn:E; simpl.
  - case_match; [|done]. intros [= <-]. eauto.
  - destruct (ft_AwaitingActivation t) eqn:Ea; simpl.
    + case_match; [|done]. intros [= <-]. exists (ft_Phase t), false. destruct t; simpl; auto.
    + intros [= <-]. exists (ft_Phase t), false. destruct t; simpl in *; subst. auto.
Qed.

(** A pass over a task's actions, by the gates it went through. *)
Lemma Reconcile_passed api t e t' ws :
  Reconcile api t = Passed e t' ws ->
  (ws = [] /\ (ft_Phase t' = FleetTaskPhaseCompensated -> ft_Phase t = FleetTaskPhaseCompensated)) \/
  (isGroupTerminal (ft_Phase t) = false /\ ft_Draft t = false /\ ft_Flow t = None /\
   exists p b, let t1 := withAwaiting (withPhase t p) b in
     (p = ft_Phase t \/ p = FleetTaskPhasePending) /\ reconcileGraph api t1 = Passed e t' ws).
Proof.
  unfold Reconcile. destruct (isGroupTerminal _) eqn:Et; [intros [= <- <- <-]; by left|].
  destruct (ft_Draft t) eqn:Ed.
  { unfold holdAsDraft, patchTask. repeat case_match; intros [= <- <- <-]; by left. }
  destruct (markActivated api t) as [t1|] eqn:Em; [|intros [= <- <- <-]; by left].
  apply markActivated_same in Em as (p & b & -> & Hp). simpl. destruct (ft_Flow t); [done|]. intros H. right.
  split_and!; try done. exists p, b. done.
Qed.

(** ** The claims *)

(** C35 A pass writes only for cause. Suppose the members' names are unique, as the API server keeps them, and
    a pass over the task takes the dependsOn path. Then the task is active (no draft, not ended) with a valid
    graph, and every write it asks for is one of three. It creates the child of a member, with the member's spec
    and the task's desired state, when its read found no object of that name, the member is not dormant, and the
    read of each predecessor found a child of the task at the start condition. It creates the compensation of a
    member, with that spec, when its read found none, the member Succeeded, and every member that depends on it
    is terminal and, if it Succeeded with a compensation of its own, was found undone: the saga runs in reverse
    dependency order. Or it changes the desired state of a member's child that is not settled, to the task's or to
    Cancelled. The reads are of the cache, so these are facts of what the pass was told. *)
Theorem Reconcile_creates_soundly api t e t' ws w :
  NoDup (ta_Name <$> ft_Actions t) -> Reconcile api t = Passed e t' ws -> w ∈ ws ->
  isGroupTerminal (ft_Phase t) = false /\ ft_Draft t = false /\ ft_Flow t = None /\ graphValid (ft_Actions t) /\
  justified api t ws w.
Proof.
  intros Hnd HR Hw. apply Reconcile_passed in HR as [[-> _]|(Ht & Hd & Hf & p & b & Hp & HR)]; [by apply not_elem_of_nil in Hw|].
  split_and!; [done..| |].
  - by apply validateGraph_exact, (reconcileGraph_valid _ _ _ _ _ _ HR Hw).
  - set (t1 := withAwaiting _ _) in HR. assert (Hfr : ft_Phase t1 <> FleetTaskPhaseCompensated).
    { simpl. destruct Hp as [-> | ->]; [|done]. intros E. by rewrite E in Ht. }
    pose proof (reconcileGraph_sound api t1 Hnd Hfr) as H. rewrite HR in H. destruct H as [Hs _]. by apply Hs.
Qed.

(** C36 A task is reported Compensated only when the saga is done. Suppose the members' names are unique, as the
    API server keeps them, and a pass moves the task to Compensated. Then for every member that declares a
    compensation and whose child the pass read as the task's own and Succeeded, the pass read the compensation's
    child as the task's own and Succeeded. *)
Theorem Compensated_means_undone api t e t' ws a c :
  NoDup (ta_Name <$> ft_Actions t) -> ft_Phase t <> FleetTaskPhaseCompensated ->
  Reconcile api t = Passed e t' ws -> ft_Phase t' = FleetTaskPhaseCompensated ->
  a ∈ ft_Actions t -> ta_Compensation a <> None ->
  foundOwn (api_get api (childName (ft_Name t) (ta_Name a))) c -> fa_Phase c = ActionPhaseSucceeded ->
  exists cc, foundOwn (api_getComp api (compChildName (ft_Name t) (ta_Name a))) cc /\ fa_Phase cc = ActionPhaseSucceeded.
Proof.
  intros Hnd Hne HR Hph Ha Hcomp Hf Hp. apply Reconcile_passed in HR as [[_ H]|(Ht & Hd & Hfl & p & b & Hpp & HR)]; [by apply H in Hph|].
  set (t1 := withAwaiting _ _) in HR. assert (Hfr : ft_Phase t1 <> FleetTaskPhaseCompensated) by (simpl; by destruct Hpp as [-> | ->]).
  pose proof (reconcileGraph_sound api t1 Hnd Hfr) as H. rewrite HR in H. destruct H as [_ Hu]. by apply (Hu Hph a c).
Qed.

(** ** Witnesses *)

Definition plainSpec : ChildSpec := mkChildSpec "" None.
Definition undoSpec : ChildSpec := mkChildSpec "Requeue" (Some 1).
Definition exMember (name : string) (deps : list string) (comp : option ChildSpec) : FleetTaskAction :=
  mkTaskAction name plainSpec deps "" "" comp.
Definition exTask (members : list FleetTaskAction) (failurePolicy : string) (p : FleetTaskPhase) : FleetTask :=
  mkFleetTask "load" false None members "All" None failurePolicy DesiredStateRunning p false [].
(** A child whose retries are spent. *)
Definition exChild (p : ActionPhase) : FleetAction := mkFleetAction true plainSpec DesiredStateRunning p "" true 3.

(** Every call is answered from [objects], and every write accepted. *)
Definition apiOf (objects : gmap string FleetAction) : Api :=
  let get n := match objects !! n with Some c => Found c | None => Absent end in
  mkApi get get (fun n => match objects !! n with Some _ => AlreadyExists | None => Created end)
    (fun _ c => Some c) (fun _ => true) (fun l => l).

(** Pick, carry, place, each after the one before; the first two can be undone. *)
Definition exChain : list FleetTaskAction :=
  [exMember "pick" [] (Some undoSpec); exMember "carry" ["pick"] (Some undoSpec); exMember "place" ["carry"] None].
Definition exDropped : gmap string FleetAction :=
  <["load-pick" := exChild "Succeeded"]> (<["load-carry" := exChild "Succeeded"]> (<["load-place" := exChild "Failed"]> ∅)).
Definition exUndone : gmap string FleetAction :=
  <["load-pick-comp" := exChild "Succeeded"]> (<["load-carry-comp" := exChild "Succeeded"]> exDropped).

Ltac by_deciding := apply (bool_decide_eq_true_1 _); vm_compute; reflexivity.

Lemma dependencyPermanentlyFailed_exact_witness :
  dependencyPermanentlyFailed exChain (exMember "place" ["carry"] None) (<["pick" := exChild "Failed"]> ∅) = true /\
  Blocked (actionsByName exChain) (<["pick" := exChild "Failed"]> ∅) (exMember "place" ["carry"] None).
Proof.
  split; [vm_compute; reflexivity|]. apply dependencyPermanentlyFailed_exact; [by_deciding| |vm_compute; reflexivity].
  unfold exChain. set_solver.
Defined.

Definition writesOf (r : reconcileResult) : list childWrite := match r with Passed _ _ ws => ws | OnFlowPath _ _ => [] end.
Definition taskOf (r : reconcileResult) : FleetTask := match r with Passed _ t _ => t | OnFlowPath t _ => t end.

(** "place" failed for good: the saga undoes "carry" first. *)
Lemma Reconcile_creates_soundly_witness :
  let t := exTask exChain FailurePolicyCompensate "Running" in
  writesOf (Reconcile (apiOf exDropped) t) = [WCreate "load-carry-comp" (newChild undoSpec DesiredStateRunning)] /\
  justified (apiOf exDropped) t (writesOf (Reconcile (apiOf exDropped) t)) (WCreate "load-carry-comp" (newChild undoSpec DesiredStateRunning)).
Proof.
  split; [vm_compute; reflexivity|].
  refine (proj2 (proj2 (proj2 (proj2 (Reconcile_creates_soundly (apiOf exDropped) (exTask exChain FailurePolicyCompensate "Running")
    None (taskOf (Reconcile (apiOf exDropped) (exTask exChain FailurePolicyCompensate "Running"))) _ _ _ _ _))))).
  - by_deciding.
  - vm_compute. reflexivity.
  - vm_compute. left.
Defined.

Lemma Compensated_means_undone_witness :
  ft_Phase (taskOf (Reconcile (apiOf exUndone) (exTask exChain FailurePolicyCompensate FleetTaskPhaseCompensating)))
    = FleetTaskPhaseCompensated /\
  exists cc, foundOwn (api_getComp (apiOf exUndone) "load-pick-comp") cc /\ fa_Phase cc = ActionPhaseSucceeded.
Proof.
  split; [vm_compute; reflexivity|].
  refine (Compensated_means_undone (apiOf exUndone) (exTask exChain FailurePolicyCompensate FleetTaskPhaseCompensating)
    None (taskOf (Reconcile (apiOf exUndone) (exTask exChain FailurePolicyCompensate FleetTaskPhaseCompensating))) []
    (exMember "pick" [] (Some undoSpec)) (exChild "Succeeded") _ _ _ _ _ _ _ _).
  - by_deciding.
  - by_deciding.
  - vm_compute. reflexivity.
  - vm_compute. reflexivity.
  - simpl. unfold exChain. set_solver.
  - done.
  - split; vm_compute; reflexivity.
  - reflexivity.
Defined.

(** ** Findings *)

Definition exStuckMembers : list FleetTaskAction :=
  [exMember "pick" [] (Some undoSpec); exMember "scan" [] None; exMember "carry" ["pick"; "scan"] None].
Definition exStuckTask : FleetTask :=
  withActionStatus (exTask exStuckMembers FailurePolicyCompensate FleetTaskPhaseCompensating)
    [mkTaskActionStatus "pick" "Succeeded" true "Pending"; mkTaskActionStatus "scan" "Failed" true "";
     mkTaskActionStatus "carry" "" false ""].
Definition exStuckObjects : gmap string FleetAction := <["load-pick" := exChild "Succeeded"]> (<["load-scan" := exChild "Failed"]> ∅).

(** A member that was never generated counts as a dependent that is still running, so the saga never
    finishes: "pick" Succeeded, "scan" Failed, and "carry", after both, was never generated. Every
    child is terminal, and yet a pass changes nothing at all. *)
Theorem saga_waits_for_ungenerated_member :
  ft_Phase (taskOf (Reconcile (apiOf exStuckObjects) (exTask exStuckMembers FailurePolicyCompensate "Running"))) = FleetTaskPhaseCompensating /\
  Reconcile (apiOf exStuckObjects) exStuckTask = Passed None exStuckTask [].
Proof. split; vm_compute; reflexivity. Qed.

(** A running relay member is counted lost as soon as its predecessor fails: "carry" starts when
    "pick" is InProgress, so it runs beside it; "pick" then fails, and under completionPolicy Any the
    task is failed and "carry" cancelled although it could still succeed. *)
Definition exRelay : FleetTask :=
  mkFleetTask "load" false None
    [exMember "pick" [] None; mkTaskAction "carry" plainSpec ["pick"] ActionPhaseInProgress "" None]
    CompletionPolicyAny None "FailFast" DesiredStateRunning "Running" false [].
Definition exRelayObjects : gmap string FleetAction := <["load-pick" := exChild "Failed"]> (<["load-carry" := exChild "InProgress"]> ∅).

Theorem running_relay_member_counted_lost :
  let r := Reconcile (apiOf exRelayObjects) exRelay in
  ft_Phase (taskOf r) = FleetTaskPhaseFailed /\ writesOf r = [WPatch "load-carry" DesiredStateCancelled].
Proof. split; vm_compute; reflexivity. Qed.

(** A member named "<m>-comp" has the object name of the compensation of <m>: its success is read as
    the undo of "pick", which never runs, and the task is reported Compensated. *)
Definition exShadow : list FleetTaskAction :=
  [exMember "pick" [] (Some undoSpec); exMember "pick-comp" [] None; exMember "place" [] None].
Definition exShadowObjects : gmap string FleetAction :=
  <["load-pick" := exChild "Succeeded"]> (<["load-pick-comp" := exChild "Succeeded"]> (<["load-place" := exChild "Failed"]> ∅)).

Theorem member_read_as_compensation :
  let r := Reconcile (apiOf exShadowObjects) (exTask exShadow FailurePolicyCompensate "Running") in
  ft_Phase (taskOf r) = FleetTaskPhaseCompensated /\ writesOf r = [].
Proof. split; vm_compute; reflexivity. Qed.

(** An appended member with a dangling dependsOn (admission does not check it) fails the task at once,
    and the children that run are not cancelled: the task is terminal, so no later pass cancels them. *)
Definition exAppended : list FleetTaskAction := [exMember "pick" [] None; exMember "place" ["plcae"] None].
Definition exRunning : gmap string FleetAction := <["load-pick" := exChild "InProgress"]> ∅.

Theorem invalid_append_leaves_children_running :
  let r := Reconcile (apiOf exRunning) (exTask exAppended "FailFast" "Running") in
  ft_Phase (taskOf r) = FleetTaskPhaseFailed /\ writesOf r = [] /\
  forall api, Reconcile api (taskOf r) = Passed None (taskOf r) [].
Proof. split_and!; intros; vm_compute; reflexivity. Qed.
