(* ===== verification/FlowDriver.v ===== *)
(** The flow path of the composite task controller (src/internal/controller/fleettask_flow.go,
    fleettask_params.go and the flow part of fleettask_owned_children.go): one reconcile pass that turns
    what the evaluator of Flow asks for into creates, cancels, parameter bindings, iteration records and
    the deletion of old iterations. Conditions, Events and message texts are not modelled. The
    objects a pass is given are the children as its reads answer them, and each is read once a pass
    (the code's cache); the objects it returns are those with its accepted writes on top. The properties
    are in FlowDriverProps. *)

From S2P Require Import Prelude.
From S2P Require Import Types.
From S2P Require Import Decimal.
From S2P Require Import Contract.
From S2P Require Import Flow.
From S2P Require Import FleetTask.

(** ** Data *)

Record MemberBinding := mkMemberBinding {
  mb_Name : string;
  mb_Result : option string;
  mb_Event : option string;
  mb_Field : option string;
  mb_Artifact : option string;
  mb_Iteration : option string
}.

Record ParameterBinding := mkParameterBinding {
  pb_Value : option string;
  pb_FromTaskInput : option string;
  pb_FromMember : option MemberBinding;
  pb_FromContext : option string
}.

(** Why a binding did not resolve, with the values the message formats. *)
Inductive missReason :=
| MissIteration (iteration : string)
| MissNoChild (member : string) (iteration : Z)
| MissFieldUnnamed (event : string)
| MissNoEvent (member event : string) (dropped : Z)
| MissPayloadField (event : string) (seq : Z) (member field : string)
| MissNoResult (member : string)
| MissResultValue (member result : string)
| MissArtifact
| MissNothingNamed.

Record ParameterResolutionEntry := mkResolution {
  pe_Name : string;
  pe_Value : option string;                      (* set exactly when resolved *)
  pe_Reason : option missReason;                 (* set exactly when not *)
  pe_FromMember : string;
  pe_FromEvent : string;
  pe_FromEventSeq : Z
}.

(** A FleetAction of the namespace with what the flow path reads and writes of it; [fc_Parameters] is
    [None] for an action with no executor. *)
Record FlowChild := mkFlowChild {
  fc_Action : FleetAction;
  fc_OwnedBy : string;                           (* the label ownedByLabel *)
  fc_Member : string;                            (* the label memberLabel *)
  fc_Parameters : option (gmap string ParameterBinding);
  fc_Created : Time;
  fc_CompletionTime : option Time;
  fc_AssignedRobot : string;
  fc_Result : option (gmap string string);
  fc_Events : list ActionEvent;
  fc_EventsDropped : Z;
  fc_ParameterResolution : list ParameterResolutionEntry
}.

Definition fc_Phase (c : FlowChild) : ActionPhase := fa_Phase (fc_Action c).
Definition fc_Desired (c : FlowChild) : DesiredState := fa_DesiredState (fc_Action c).
Definition fc_Owned (c : FlowChild) : bool := fa_Owned (fc_Action c).

Definition withAction (c : FlowChild) (a : FleetAction) : FlowChild :=
  mkFlowChild a (fc_OwnedBy c) (fc_Member c) (fc_Parameters c) (fc_Created c) (fc_CompletionTime c) (fc_AssignedRobot c)
    (fc_Result c) (fc_Events c) (fc_EventsDropped c) (fc_ParameterResolution c).
Definition childDesired (c : FlowChild) (d : DesiredState) : FlowChild := withAction c (withDesired (fc_Action c) d).
Definition withResolution (c : FlowChild) (r : list ParameterResolutionEntry) : FlowChild :=
  mkFlowChild (fc_Action c) (fc_OwnedBy c) (fc_Member c) (fc_Parameters c) (fc_Created c) (fc_CompletionTime c)
    (fc_AssignedRobot c) (fc_Result c) (fc_Events c) (fc_EventsDropped c) r.

(** A member of the task: its name, what the controller reads of its action and its executor's
    parameters. *)
Record FlowMember := mkFlowMember {
  fm_Name : string;
  fm_Spec : ChildSpec;
  fm_Parameters : option (gmap string ParameterBinding)
}.

Record IterationRecord := mkIterationRecord {
  ir_Iteration : Z;
  ir_ActionRef : string;
  ir_Phase : ActionPhase;
  ir_CompletedAt : option Time
}.

(** FleetTaskActionStatus, its flow fields. *)
Record FlowStatus := mkFlowStatus {
  ts_Name : string;
  ts_ActionRef : string;
  ts_Phase : ActionPhase;
  ts_AssignedRobot : string;
  ts_Iteration : Z;
  ts_IterationsCompleted : Z;
  ts_IterationsFailed : Z;
  ts_LoopStartedAt : option Time;
  ts_RecentIterations : list IterationRecord
}.

Definition newStatus (member : string) : FlowStatus := mkFlowStatus member "" "" "" 0 0 0 None [].

Record FlowTask := mkFlowTask {
  fl_Name : string;
  fl_Members : list FlowMember;
  fl_Flow : FlowNode;
  fl_DesiredState : DesiredState;
  fl_Phase : FleetTaskPhase;
  fl_Status : list FlowStatus;
  fl_StartedAt : option Time;
  fl_CompletionTime : option Time
}.

Notation FlowObjects := (gmap string FlowChild).

(** How the API server answers this pass's calls, by object name. *)
Record FlowApi := mkFlowApi {
  fp_getFails : string -> bool;
  fp_create : string -> createAnswer;
  fp_patchFails : string -> bool;
  fp_statusPatchFails : string -> bool;
  fp_listFails : bool;
  fp_deleteFails : string -> bool;
  fp_taskPatchFails : bool
}.
Definition flowApiOk : FlowApi :=
  mkFlowApi (fun _ => false) (fun _ => Created) (fun _ => false) (fun _ => false) false (fun _ => false) false.

Inductive flowError :=
| FlowErrGet
| FlowErrCreate (name : string)
| FlowErrResolution (name : string)
| FlowErrCancel (name : string)
| FlowErrPropagate (name : string)
| FlowErrRefused (member : string)
| FlowErrConflict (member name : string)
| FlowErrPrune (member : string)
| FlowErrPatch.

#[global] Instance Ref_eq_dec : EqDecision Ref.
Proof. solve_decision. Defined.
#[global] Instance Ref_countable : Countable Ref.
Proof. refine (inj_countable' (fun r => (ref_Member r, ref_Iteration r)) (fun p => mkRef p.1 p.2) _). by intros []. Defined.

Definition iterationChildName (taskName member : string) (iteration : Z) : string :=
  if iteration =? 0 then childName taskName member else childName taskName member +:+ "-i" +:+ showInt iteration.

Definition nameOf (t : FlowTask) (r : Ref) : string := iterationChildName (fl_Name t) (ref_Member r) (ref_Iteration r).

(** ** What a pass reads *)

(** childStateOf. *)
Definition childStateOf (c : FlowChild) : ChildState :=
  mkChildState true (fc_Phase c) (fc_Result c) (fc_Events c) (fc_EventsDropped c).
Definition noChild : ChildState := mkChildState false "" None [] 0.

(** The pass's memory: the children read ([None]: there is none), the children whose name another object
    has, in the order they were met, and whether a read failed. *)
Record Pass := mkPass {
  ps_cache : gmap Ref (option FlowChild);
  ps_conflicts : list Ref;
  ps_getErr : bool
}.
Definition emptyPass : Pass := mkPass ∅ [] false.

Definition cached (ps : Pass) (r : Ref) : option FlowChild := mjoin (ps_cache ps !! r).
Definition cachePut (ps : Pass) (r : Ref) (c : FlowChild) : Pass :=
  mkPass (<[r := Some c]> (ps_cache ps)) (ps_conflicts ps) (ps_getErr ps).
Definition held (ps : Pass) (r : Ref) : bool := bool_decide (r ∈ ps_conflicts ps).

(** childFn: from the cache, else from the API server; an object the task does not control is a conflict
    and reads as no child. *)
Definition readChild (api : FlowApi) (t : FlowTask) (objects : FlowObjects) (r : Ref) (ps : Pass) : ChildState * Pass :=
  match ps_cache ps !! r with
  | Some (Some c) => (childStateOf c, ps)
  | Some None => (noChild, ps)
  | None =>
      if fp_getFails api (nameOf t r) then (noChild, mkPass (ps_cache ps) (ps_conflicts ps) true)
      else match objects !! nameOf t r with
           | None => (noChild, mkPass (<[r := None]> (ps_cache ps)) (ps_conflicts ps) (ps_getErr ps))
           | Some c =>
               if fc_Owned c then (childStateOf c, mkPass (<[r := Some c]> (ps_cache ps)) (ps_conflicts ps) (ps_getErr ps))
               else (noChild, mkPass (<[r := None]> (ps_cache ps)) (ps_conflicts ps ++ [r]) (ps_getErr ps))
           end
  end.

(** The state the evaluator sees of a child while nothing is written. *)
Definition seenChild (api : FlowApi) (t : FlowTask) (objects : FlowObjects) (member : string) (iteration : Z) : ChildState :=
  fst (readChild api t objects (mkRef member iteration) emptyPass).

(** indexByMember: the entry of a member, by index. *)
Fixpoint indexByMember (status : list FlowStatus) (member : string) : option nat :=
  match status with
  | [] => None
  | s :: status => match indexByMember status member with
                   | Some i => Some (S i)
                   | None => if ts_Name s =s member then Some O else None
                   end
  end.

Definition loopProgress (t : FlowTask) (anchor : string) : LoopProgress :=
  match indexByMember (fl_Status t) anchor ≫= (fun i => fl_Status t !! i) with
  | None => mkLoopProgress 0 None
  | Some st => mkLoopProgress (ts_Iteration st) (ts_LoopStartedAt st)
  end.

(** Which children the evaluator reads, in its order. *)
Section reads.
Variable ctx : Context.

Fixpoint cancelReads (node : FlowNode) (iter : Z) : list Ref :=
  match node with
  | mkFlowNode (Some m) _ _ _ _ => [mkRef m iter]
  | mkFlowNode None ((_ :: _) as seq) _ _ _ => flat_map (fun n => cancelReads n iter) seq
  | mkFlowNode None [] (Some (mkParallelNode branches _ _ _)) _ _ => flat_map (fun n => cancelReads n iter) branches
  | mkFlowNode None [] None (Some (mkLoopNode _ _ body _ _ _ _ _)) _ =>
      if anchorMember body =s "" then []
      else let lp := cx_LoopProgress ctx (anchorMember body) in
           if 0 <? lp_Iteration lp then cancelReads body (lp_Iteration lp) else []
  | mkFlowNode None [] None None (Some (mkSelectNode _ cases dflt)) =>
      flat_map (fun c => let '(mkSelectCase _ _ _ _ _ t) := c in cancelReads t iter) cases ++ cancelReads dflt iter
  | mkFlowNode None [] None None None => []
  end.

Definition untilReads (it : Z) (c : UntilCondition) : list Ref :=
  match u_Event c, u_Result c with
  | Some e, _ => mkRef (ue_From e) it ::
      (if hasEvent ctx (ue_From e) it (ue_Type e) || (it =? 0) then [] else [mkRef (ue_From e) 0])
  | None, Some r => mkRef (ur_Member r) it ::
      (if isSome (resultField ctx (ur_Member r) it (ur_Field r)) then [] else [mkRef (ur_Member r) 0])
  | None, None => []
  end.

Fixpoint anyOfReads (it : Z) (conds : list UntilCondition) : list Ref :=
  match conds with
  | [] => []
  | c :: conds => untilReads it c ++ (if untilHolds ctx it c then [] else anyOfReads it conds)
  end.

Definition boundReads (l : LoopNode) (lp : LoopProgress) : list Ref :=
  match l_Until l with Some anyOf => anyOfReads (lp_Iteration lp) anyOf | None => [] end.

Definition sequenceReads (reads : FlowNode -> list Ref) (outcome : FlowNode -> Outcome) : list FlowNode -> list Ref :=
  fix go nodes :=
    match nodes with
    | [] => []
    | n :: nodes => reads n ++ (if outcome_eqb (outcome n) OutcomeSucceeded then go nodes else [])
    end.

Fixpoint unsettledReads (branches : list FlowNode) (os : list Outcome) (iter : Z) : list Ref :=
  match branches, os with
  | b :: branches, o :: os => (if Settled o then [] else cancelReads b iter) ++ unsettledReads branches os iter
  | _, _ => []
  end.

Definition joinReads (join : option JoinSpec) (onJoin onBranchFailure : string) (branches : list FlowNode)
    (os : list Outcome) (iter : Z) : list Ref :=
  match joinOutcome (joinMode join) (joinQuorum join (length branches)) (orDefault onBranchFailure OnBranchFailureFailNode) os with
  | None => []
  | Some _ => if orDefault onJoin OnJoinCancelSiblings =s OnJoinCancelSiblings then unsettledReads branches os iter else []
  end.

Definition caseReads (reads : FlowNode -> list Ref) (field : string) (values : gmap string string) (dflt : FlowNode)
    : list SelectCase -> list Ref :=
  fix go cases :=
    match cases with
    | [] => reads dflt
    | ((mkSelectCase _ _ _ _ when t) as c) :: cases =>
        match when with
        | Some _ => []
        | None => if caseMatches c field values then reads t else go cases
        end
    end.

Definition selectReads (reads : FlowNode -> list Ref) (s : SelectNode) (iter : Z) : list Ref :=
  let '(mkSelectNode subject cases dflt) := s in
  let st := cx_Child ctx (Producer subject) iter in
  mkRef (Producer subject) iter ::
  (if negb (cs_Exists st) then []
   else match s_Event subject with
        | Some event =>
            match LatestEvent st event with
            | None => []
            | Some ev => caseReads reads (s_Field subject) (ae_Payload ev) dflt cases
            end
        | None =>
            if outcome_eqb (child_outcome st) OutcomeSucceeded
            then caseReads reads (s_Field subject) (resultValues (cs_Result st)) dflt cases else []
        end).

Definition loopReads (reads : FlowNode -> Z -> list Ref) (l : LoopNode) : list Ref :=
  let '(mkLoopNode _ _ body _ _ _ _ _) := l in
  let anchor := anchorMember body in
  if anchor =s "" then []
  else
    let lp := cx_LoopProgress ctx anchor in
    if lp_Iteration lp =? 0 then []
    else boundReads l lp ++
         (if l_InterruptRunning l && loopBoundSatisfied ctx l lp then cancelReads body (lp_Iteration lp) else []) ++
         reads body (lp_Iteration lp).

Definition outcomeOf (iter : Z) (n : FlowNode) : Outcome := fst (evalNode ctx n iter emptyEval).

Fixpoint nodeReads (node : FlowNode) (iter : Z) {struct node} : list Ref :=
  match node with
  | mkFlowNode (Some m) _ _ _ _ => [mkRef m iter]
  | mkFlowNode None ((_ :: _) as seq) _ _ _ => sequenceReads (fun n => nodeReads n iter) (outcomeOf iter) seq
  | mkFlowNode None [] (Some (mkParallelNode branches join onJoin onBranchFailure)) _ _ =>
      flat_map (fun n => nodeReads n iter) branches ++
      joinReads join onJoin onBranchFailure branches (outcomeOf iter <$> branches) iter
  | mkFlowNode None [] None (Some l) _ => loopReads nodeReads l
  | mkFlowNode None [] None None (Some s) => selectReads (fun n => nodeReads n iter) s iter
  | mkFlowNode None [] None None None => []
  end.

End reads.

(** The pass's memory once the children [refs] have been read. *)
Definition readAll (api : FlowApi) (t : FlowTask) (objects : FlowObjects) (refs : list Ref) (ps : Pass) : Pass :=
  fold_left (fun ps r => snd (readChild api t objects r ps)) refs ps.

Definition flowContext (api : FlowApi) (now : Time) (t : FlowTask) (objects : FlowObjects) : Context :=
  mkContext now (seenChild api t objects) (loopProgress t).

(** ** Parameter bindings (fleettask_params.go) *)

Definition found (entry : ParameterResolutionEntry) (v : string) : ParameterResolutionEntry :=
  mkResolution (pe_Name entry) (Some v) None (pe_FromMember entry) (pe_FromEvent entry) (pe_FromEventSeq entry).
Definition missed (entry : ParameterResolutionEntry) (why : missReason) : ParameterResolutionEntry :=
  mkResolution (pe_Name entry) None (Some why) (pe_FromMember entry) (pe_FromEvent entry) (pe_FromEventSeq entry).

(** What a binding gives once its producer's state is known. *)
Definition bindingFrom (entry : ParameterResolutionEntry) (b : MemberBinding) (st : ChildState) : ParameterResolutionEntry :=
  match mb_Event b, mb_Result b, mb_Artifact b with
  | Some event, _, _ =>
      if default "" (mb_Field b) =s "" then missed entry (MissFieldUnnamed event)
      else
        let field := default "" (mb_Field b) in
        match LatestEvent st event with
        | None => missed entry (MissNoEvent (mb_Name b) event (cs_EventsDropped st))
        | Some ev =>
            let entry := mkResolution (pe_Name entry) None None (pe_FromMember entry) (ae_Type ev) (ae_Seq ev) in
            match ae_Payload ev !! field with
            | None => missed entry (MissPayloadField (ae_Type ev) (ae_Seq ev) (mb_Name b) field)
            | Some v => found entry v
            end
        end
  | None, Some result, _ =>
      match cs_Result st with
      | None => missed entry (MissNoResult (mb_Name b))
      | Some values =>
          if negb (isTerminal (cs_Phase st)) then missed entry (MissNoResult (mb_Name b))
          else match values !! result with
               | None => missed entry (MissResultValue (mb_Name b) result)
               | Some v => found entry v
               end
      end
  | None, None, Some _ => missed entry MissArtifact
  | None, None, None => missed entry MissNothingNamed
  end.

Section writes.
Variable (api : FlowApi) (now : Time) (t : FlowTask).

(** producerState: this iteration, then iteration 0. *)
Definition producerState (objects : FlowObjects) (member : string) (iter : Z) (ps : Pass) : option ChildState * Pass :=
  let '(st, ps) := readChild api t objects (mkRef member iter) ps in
  if cs_Exists st then (Some st, ps)
  else if iter =? 0 then (None, ps)
  else let '(st, ps) := readChild api t objects (mkRef member 0) ps in
       (if cs_Exists st then Some st else None, ps).

Definition resolveOneMemberBinding (objects : FlowObjects) (name : string) (b : MemberBinding) (iter : Z) (ps : Pass)
    : ParameterResolutionEntry * Pass :=
  let entry := mkResolution name None None (mb_Name b) "" 0 in
  let refused := match mb_Iteration b with Some it => it <>s "Latest" | None => false end in
  if refused then (missed entry (MissIteration (default "" (mb_Iteration b))), ps)
  else match producerState objects (mb_Name b) iter ps with
       | (None, ps) => (missed entry (MissNoChild (mb_Name b) iter), ps)
       | (Some st, ps) => (bindingFrom entry b st, ps)
       end.

(** The fromMember bindings of an executor, by parameter name. *)
Definition memberBindings (params : option (gmap string ParameterBinding)) : list (string * MemberBinding) :=
  let params := default ∅ params in
  omap (fun name => (fun b => (name, b)) <$> (params !! name ≫= pb_FromMember)) (sort_Strings (elements (dom params))).

Fixpoint resolveMemberBindings (objects : FlowObjects) (bs : list (string * MemberBinding)) (iter : Z) (ps : Pass)
    : list ParameterResolutionEntry * Pass :=
  match bs with
  | [] => ([], ps)
  | (name, b) :: bs =>
      let '(e, ps) := resolveOneMemberBinding objects name b iter ps in
      let '(es, ps) := resolveMemberBindings objects bs iter ps in (e :: es, ps)
  end.

(** Resolved bindings become literals. *)
Definition materialiseMemberBindings (params : option (gmap string ParameterBinding)) (resolved : list ParameterResolutionEntry)
    : option (gmap string ParameterBinding) :=
  (fun ps => fold_left (fun ps e => match pe_Value e with
                                    | None => ps
                                    | Some v => <[pe_Name e := mkParameterBinding (Some v) None None None]> ps
                                    end) resolved ps) <$> params.

(** ** Creates *)

Definition memberByName (name : string) : option FlowMember := List.find (fun m => fm_Name m =s name) (fl_Members t).

Definition newFlowChild (m : FlowMember) (params : option (gmap string ParameterBinding)) : FlowChild :=
  mkFlowChild (newChild (fm_Spec m) (fl_DesiredState t)) (fl_Name t) (fm_Name m) params now None "" None [] 0 [].

(** A failing call, with the objects as the calls before it left them. *)
Definition driving (A : Type) : Type := result (flowError * FlowObjects) A.

(** A create of a name that exists is answered so. *)
Definition createAt (objects : FlowObjects) (name : string) : createAnswer :=
  match fp_create api name, objects !! name with
  | Created, Some _ => AlreadyExists
  | answer, _ => answer
  end.

(** A merge patch of desiredState. *)
Definition patchDesired (name : string) (d : DesiredState) (objects : FlowObjects) : FlowObjects :=
  alter (fun o => childDesired o d) name objects.

(** The member whose create was refused, the objects and the memory after the create loop. *)
Fixpoint ensureLoop (refs : list Ref) (objects : FlowObjects) (ps : Pass) : driving (option string * (FlowObjects * Pass)) :=
  match refs with
  | [] => Ok (None, (objects, ps))
  | r :: refs =>
      if isSome (cached ps r) || held ps r then ensureLoop refs objects ps
      else match memberByName (ref_Member r) with
           | None => ensureLoop refs objects ps
           | Some m =>
               let '(resolved, ps) := resolveMemberBindings objects (memberBindings (fm_Parameters m)) (ref_Iteration r) ps in
               let child := newFlowChild m (materialiseMemberBindings (fm_Parameters m) resolved) in
               match createAt objects (nameOf t r) with
               | AdmissionRefused => Ok (Some (ref_Member r), (objects, ps))
               | AlreadyExists => ensureLoop refs objects ps
               | CreateFailed => Err (FlowErrCreate (nameOf t r), objects)
               | Created =>
                   let created := <[nameOf t r := child]> objects in
                   match resolved with
                   | [] => ensureLoop refs created (cachePut ps r child)
                   | _ :: _ =>
                       if fp_statusPatchFails api (nameOf t r) then Err (FlowErrResolution (nameOf t r), created)
                       else let child := withResolution child resolved in
                            ensureLoop refs (<[nameOf t r := child]> objects) (cachePut ps r child)
                   end
               end
           end
  end.

(** ** Cancels and the task's own desiredState *)

Fixpoint cancelLoop (refs : list Ref) (objects : FlowObjects) (ps : Pass) : driving (FlowObjects * Pass) :=
  match refs with
  | [] => Ok (objects, ps)
  | r :: refs =>
      match cached ps r with
      | None => cancelLoop refs objects ps
      | Some c =>
          if isTerminal (fc_Phase c) || (fc_Desired c =s DesiredStateCancelled) then cancelLoop refs objects ps
          else if fp_patchFails api (nameOf t r) then Err (FlowErrCancel (nameOf t r), objects)
          else cancelLoop refs (patchDesired (nameOf t r) DesiredStateCancelled objects)
                 (cachePut ps r (childDesired c DesiredStateCancelled))
      end
  end.

(** Over the children read (Go's order over the map is unspecified). *)
Fixpoint fanOutLoop (want : DesiredState) (refs : list Ref) (objects : FlowObjects) (ps : Pass) : driving (FlowObjects * Pass) :=
  match refs with
  | [] => Ok (objects, ps)
  | r :: refs =>
      match cached ps r with
      | None => fanOutLoop want refs objects ps
      | Some c =>
          if negb (takesWrite (fc_Action c)) || (fc_Desired c =s want) || (fc_Desired c =s DesiredStateCancelled)
          then fanOutLoop want refs objects ps
          else if fp_patchFails api (nameOf t r) then Err (FlowErrPropagate (nameOf t r), objects)
          else fanOutLoop want refs (patchDesired (nameOf t r) want objects) (cachePut ps r (childDesired c want))
      end
  end.

Definition fanOut (objects : FlowObjects) (ps : Pass) : driving (FlowObjects * Pass) :=
  if fl_DesiredState t =s "" then Ok (objects, ps)
  else fanOutLoop (fl_DesiredState t) (fst <$> map_to_list (ps_cache ps)) objects ps.

(** ** Status entries *)

(** ensureStatusIdx. *)
Definition ensureStatusIdx (member : string) (status : list FlowStatus) : nat * list FlowStatus :=
  match indexByMember status member with
  | Some i => (i, status)
  | None => (length status, status ++ [newStatus member])
  end.

Definition updateStatus (member : string) (f : FlowStatus -> FlowStatus) (status : list FlowStatus) : list FlowStatus :=
  let '(i, status) := ensureStatusIdx member status in alter f i status.

Definition advance (next : Z) (s : FlowStatus) : FlowStatus :=
  mkFlowStatus (ts_Name s) (ts_ActionRef s) (ts_Phase s) (ts_AssignedRobot s) next (ts_IterationsCompleted s)
    (ts_IterationsFailed s) (Some (default now (ts_LoopStartedAt s))) (ts_RecentIterations s).

Definition startIterations (starts : gmap string Z) (status : list FlowStatus) : list FlowStatus :=
  fold_left (fun status kv => updateStatus kv.1 (advance kv.2) status) (map_to_list starts) status.

Definition outcomePhase (o : Outcome) : ActionPhase :=
  match o with
  | OutcomeSucceeded => ActionPhaseSucceeded
  | OutcomeFailed => ActionPhaseFailed
  | OutcomeCancelled => ActionPhaseCancelled
  | OutcomeInProgress => ""
  end.

(** ** Retention *)

Definition defaultRetention : FlowRetention := mkRetention 10 20 5.

Definition l_Retention (l : LoopNode) : option FlowRetention := let '(mkLoopNode _ _ _ _ _ _ _ r) := l in r.

Definition effectiveRetention (l : option LoopNode) : FlowRetention :=
  match l ≫= l_Retention with
  | None => defaultRetention
  | Some ret =>
      mkRetention (if KeepIterationRecords ret =? 0 then KeepIterationRecords defaultRetention else KeepIterationRecords ret)
        (if KeepChildren ret =? 0 then KeepChildren defaultRetention else KeepChildren ret)
        (if KeepFailedChildren ret =? 0 then KeepFailedChildren defaultRetention else KeepFailedChildren ret)
  end.

(** The first answer of a walk over a list. *)
Definition firstSome {A B} (f : A -> option B) : list A -> option B :=
  fix go l := match l with [] => None | x :: l => match f x with Some y => Some y | None => go l end end.

(** anchorOf is anchorMember, written again. *)
Definition anchorOf : FlowNode -> string := anchorMember.

Fixpoint findLoopNode (node : FlowNode) (anchor : string) : option LoopNode :=
  match node with
  | mkFlowNode _ _ _ (Some ((mkLoopNode _ _ body _ _ _ _ _) as l)) _ =>
      if anchorOf body =s anchor then Some l else findLoopNode body anchor
  | mkFlowNode _ ((_ :: _) as seq) _ None _ => firstSome (fun n => findLoopNode n anchor) seq
  | mkFlowNode _ [] (Some (mkParallelNode branches _ _ _)) None _ => firstSome (fun n => findLoopNode n anchor) branches
  | mkFlowNode _ [] None None (Some (mkSelectNode _ cases dflt)) =>
      match firstSome (fun c => let '(mkSelectCase _ _ _ _ _ n) := c in findLoopNode n anchor) cases with
      | Some l => Some l
      | None => findLoopNode dflt anchor
      end
  | mkFlowNode _ [] None None None => None
  end.

(** Newest first. *)
Definition newer (a b : string * FlowChild) : Prop := fc_Created (snd b) <= fc_Created (snd a).
#[global] Instance newer_dec : RelDecision newer.
Proof. intros a b. unfold newer. apply _. Defined.

Fixpoint deleteAll (victims : list (string * FlowChild)) (objects : FlowObjects) : result FlowObjects FlowObjects :=
  match victims with
  | [] => Ok objects
  | (name, _) :: victims => if fp_deleteFails api name then Err objects else deleteAll victims (delete name objects)
  end.

(** The items past the [keep] newest. *)
Definition pastWindow (items : list (string * FlowChild)) (keep : Z) : list (string * FlowChild) :=
  if int32_of (Z.of_nat (length items)) <=? keep then [] else drop (Z.to_nat keep) (merge_sort newer items).

(** The terminal children of a member that the task controls. *)
Definition prunable (objects : FlowObjects) (member : string) : list (string * FlowChild) :=
  List.filter (fun kv => (fc_OwnedBy (snd kv) =s fl_Name t) && (fc_Member (snd kv) =s member) &&
                         isTerminal (fc_Phase (snd kv)) && fc_Owned (snd kv)) (map_to_list objects).

Definition isFailed (kv : string * FlowChild) : bool := fc_Phase (snd kv) =s ActionPhaseFailed.

Definition pruneIterationChildren (objects : FlowObjects) (member : string) (ret : FlowRetention)
    : result FlowObjects FlowObjects :=
  if fp_listFails api then Err objects
  else
    let items := prunable objects member in
    let? objects := deleteAll (pastWindow (List.filter isFailed items) (KeepFailedChildren ret)) objects in
    deleteAll (pastWindow (List.filter (fun kv => negb (isFailed kv)) items) (KeepChildren ret)) objects.

(** ** Settled iterations *)

Definition lastN {A} (n : Z) (l : list A) : list A :=
  if n <? int32_of (Z.of_nat (length l)) then drop (length l - Z.to_nat n) l else l.

Definition settleStatus (rec : IterationRecord) (failed : bool) (ret : FlowRetention) (s : FlowStatus) : FlowStatus :=
  mkFlowStatus (ts_Name s) (ts_ActionRef s) (ts_Phase s) (ts_AssignedRobot s) (ts_Iteration s)
    (int32_of (ts_IterationsCompleted s + 1)) (if failed then int32_of (ts_IterationsFailed s + 1) else ts_IterationsFailed s)
    (ts_LoopStartedAt s) (lastN (KeepIterationRecords ret) (ts_RecentIterations s ++ [rec])).

Fixpoint settleLoop (settled : list IterationSettlement) (ps : Pass) (status : list FlowStatus) (objects : FlowObjects)
    : driving (list FlowStatus * FlowObjects) :=
  match settled with
  | [] => Ok (status, objects)
  | s :: settled =>
      let r := mkRef (is_AnchorMember s) (is_Iteration s) in
      let rec := mkIterationRecord (is_Iteration s) (nameOf t r) (outcomePhase (is_Outcome s)) (cached ps r ≫= fc_CompletionTime) in
      let ret := effectiveRetention (findLoopNode (fl_Flow t) (is_AnchorMember s)) in
      let status := updateStatus (is_AnchorMember s) (settleStatus rec (outcome_eqb (is_Outcome s) OutcomeFailed) ret) status in
      match pruneIterationChildren objects (is_AnchorMember s) ret with
      | Err objects => Err (FlowErrPrune (is_AnchorMember s), objects)
      | Ok objects => settleLoop settled ps status objects
      end
  end.

Definition showChild (r : Ref) (c : FlowChild) (s : FlowStatus) : FlowStatus :=
  mkFlowStatus (ts_Name s) (nameOf t r) (fc_Phase c) (fc_AssignedRobot c) (ts_Iteration s) (ts_IterationsCompleted s)
    (ts_IterationsFailed s) (ts_LoopStartedAt s) (ts_RecentIterations s).

(** status.actions, one entry per member. *)
Definition projectMember (ps : Pass) (status : list FlowStatus) (m : FlowMember) : list FlowStatus :=
  let '(i, status) := ensureStatusIdx (fm_Name m) status in
  let iter := match status !! i with Some s => Z.max 0 (ts_Iteration s) | None => 0 end in
  let r := mkRef (fm_Name m) iter in
  match cached ps r with
  | None => status
  | Some c => alter (showChild r c) i status
  end.

Definition projectStatus (ps : Pass) (status : list FlowStatus) : list FlowStatus :=
  fold_left (projectMember ps) (fl_Members t) status.

(** ** The pass *)

Definition phaseOf (o : Outcome) : FleetTaskPhase :=
  match o with
  | OutcomeSucceeded => FleetTaskPhaseSucceeded
  | OutcomeFailed => FleetTaskPhaseFailed
  | OutcomeCancelled => FleetTaskPhaseCancelled
  | OutcomeInProgress => FleetTaskPhaseRunning
  end.

(** The task with its phase, its start and its end. *)
Definition finished (phase : FleetTaskPhase) (status : list FlowStatus) : FlowTask :=
  mkFlowTask (fl_Name t) (fl_Members t) (fl_Flow t) (fl_DesiredState t) phase status
    (if phase =s FleetTaskPhaseRunning then Some (default now (fl_StartedAt t)) else fl_StartedAt t)
    (if isGroupTerminal phase then Some (default now (fl_CompletionTime t)) else fl_CompletionTime t).

(** The error, the task as the server holds it, the objects, and whether the pass asks to be requeued. *)
Record FlowResult := mkFlowResult {
  fr_err : option flowError;
  fr_task : FlowTask;
  fr_objects : FlowObjects;
  fr_requeue : bool
}.

Definition patchStatus (t' : FlowTask) (objects : FlowObjects) (requeue : bool) : FlowResult :=
  if fp_taskPatchFails api then mkFlowResult (Some FlowErrPatch) t objects requeue else mkFlowResult None t' objects requeue.

Definition flowFailed (e : flowError) (objects : FlowObjects) : FlowResult := mkFlowResult (Some e) t objects false.

(** The memory once the evaluator has run. *)
Definition evaluated (objects : FlowObjects) : Pass :=
  readAll api t objects (nodeReads (flowContext api now t objects) (fl_Flow t) 0) emptyPass.

(** Everything after the writes to the children. *)
Definition concludePass (outcome : Outcome) (eval : Eval) (ps : Pass) (objects : FlowObjects) : FlowResult :=
  match settleLoop (ev_Settled eval) ps (startIterations (ev_StartIteration eval) (fl_Status t)) objects with
  | Err (e, objects) => flowFailed e objects
  | Ok (status, objects) =>
      patchStatus (finished (phaseOf outcome) (projectStatus ps status)) objects (negb (Settled outcome))
  end.

Definition reconcileFlow (objects : FlowObjects) : FlowResult :=
  match ValidateStructure (fl_Flow t) (list_to_set (fm_Name <$> fl_Members t)) with
  | Some _ => patchStatus (finished FleetTaskPhaseFailed (fl_Status t)) objects false
  | None =>
      let '(outcome, eval) := Evaluate (flowContext api now t objects) (fl_Flow t) in
      let ps := evaluated objects in
      if ps_getErr ps then flowFailed FlowErrGet objects
      else match ensureLoop (ev_Ensure eval) objects ps with
           | Err (e, objects) => flowFailed e objects
           | Ok (refused, (objects, ps)) =>
               match cancelLoop (ev_Cancel eval) objects ps with
               | Err (e, objects) => flowFailed e objects
               | Ok (objects, ps) =>
                   match fanOut objects ps with
                   | Err (e, objects) => flowFailed e objects
                   | Ok (objects, ps) =>
                       match refused, ps_conflicts ps with
                       | Some m, _ => flowFailed (FlowErrRefused m) objects
                       | None, r :: _ => flowFailed (FlowErrConflict (ref_Member r) (nameOf t r)) objects
                       | None, [] => concludePass outcome eval ps objects
                       end
                   end
               end
           end
  end.

End writes.
