(* ===== verification/FlowDriverProps.v ===== *)
(** Properties of a flow task's pass (FlowDriver): that the evaluator sees exactly what the pass has read,
    what a pass may do to the FleetActions of the namespace, when an iteration's children are created and
    deleted, what a parameter binding resolves to, and how large the status grows. *)

From S2P Require Import Prelude.
From S2P Require Import Types.
From S2P Require Import Flow.
From S2P Require Import FlowProps.
From S2P Require Import FleetTask.
From S2P Require Import FlowDriver.

(** ** Samples *)

Definition runNode (m : string) : FlowNode := mkFlowNode (Some m) [] None None None.
Definition seqNode (l : list FlowNode) : FlowNode := mkFlowNode None l None None None.
Definition timesNode (n : Z) (body : FlowNode) (ret : option FlowRetention) : FlowNode :=
  mkFlowNode None [] None (Some (mkLoopNode LoopModeTimes (Some n) body None false None None ret)) None.

Definition plainSpec : ChildSpec := mkChildSpec "" None.
Definition plainMember (m : string) : FlowMember := mkFlowMember m plainSpec None.

Definition flowChildIn (phase : ActionPhase) (member : string) : FlowChild :=
  mkFlowChild (mkFleetAction true plainSpec "Running" phase "" true 0) "t" member None 5 None "r1" None [] 0 [].

Definition loopStatus (m : string) (iteration done : Z) : FlowStatus := mkFlowStatus m "" "" "" iteration done 0 (Some 1) [].

Definition loopTask (status : list FlowStatus) : FlowTask :=
  mkFlowTask "t" [plainMember "a"; plainMember "b"] (seqNode [timesNode 1 (runNode "a") None; runNode "b"]) "Running"
    FleetTaskPhaseRunning status (Some 1) None.

(** A finished loop is settled again on every pass: while the node after it runs, each pass counts its last
    iteration once more and records it again. *)
Example settled_iteration_counted_again :
  let objects := <["t-a-i1" := flowChildIn ActionPhaseSucceeded "a"]> (<["t-b" := flowChildIn ActionPhaseInProgress "b"]> ∅) in
  let r1 := reconcileFlow flowApiOk 10 (loopTask [loopStatus "a" 1 0]) objects in
  let r2 := reconcileFlow flowApiOk 15 (fr_task r1) (fr_objects r1) in
  (ts_IterationsCompleted <$> fl_Status (fr_task r1)) = [1; 0] /\
  (ts_IterationsCompleted <$> fl_Status (fr_task r2)) = [2; 0] /\
  ((fun s => ir_Iteration <$> ts_RecentIterations s) <$> fl_Status (fr_task r2)) = [[1; 1]; []].
Proof. vm_compute. done. Qed.

(** A child that failed and waits for its retry settles the task Failed, and nothing is written to it: the
    task is over and the child runs again. *)
Example failed_flow_leaves_retry :
  let c := flowChildIn ActionPhaseFailed "b" in
  let t := mkFlowTask "t" [plainMember "b"] (runNode "b") "Running" FleetTaskPhaseRunning [] (Some 1) None in
  let r := reconcileFlow flowApiOk 10 t (<["t-b" := c]> ∅) in
  awaitsRetry (fc_Action c) = true /\ fl_Phase (fr_task r) = FleetTaskPhaseFailed /\ fr_objects r = <["t-b" := c]> ∅.
Proof. vm_compute. done. Qed.

(** The child of a member called a-i1 has the name of the first iteration of a: the loop takes that child as
    its own iteration and never runs a. *)
Example member_read_as_iteration :
  let t := mkFlowTask "t" [plainMember "a"; plainMember "a-i1"] (seqNode [runNode "a-i1"; timesNode 1 (runNode "a") None]) "Running"
             FleetTaskPhaseRunning [loopStatus "a" 1 0] (Some 1) None in
  let r := reconcileFlow flowApiOk 10 t (<["t-a-i1" := flowChildIn ActionPhaseSucceeded "a-i1"]> ∅) in
  fl_Phase (fr_task r) = FleetTaskPhaseSucceeded /\ length (map_to_list (fr_objects r)) = 1%nat.
Proof. vm_compute. done. Qed.

(** ** The evaluator sees what the pass has read *)

Section outcomes.
Context (ctx : Context).

(** A node's outcome does not depend on what was asked for before it. *)
Definition steadyRun (run : FlowNode -> Eval -> Outcome * Eval) (nodes : list FlowNode) : Prop :=
  forall n out out', n ∈ nodes -> fst (run n out) = fst (run n out').

Lemma evalSequence_steady run nodes out out' : steadyRun run nodes -> fst (evalSequence run nodes out) = fst (evalSequence run nodes out').
Proof.
  revert out out'. induction nodes as [|n nodes IH]; intros out out' H; simpl; [done|].
  pose proof (H n out out' ltac:(by left)) as Hn. destruct (run n out) as [o1 u1], (run n out') as [o2 u2]. simpl in Hn. subst o2.
  destruct o1; simpl; try done. apply IH. intros m a b Hm. apply H. by right.
Qed.

Lemma evalBranches_steady run nodes out out' : steadyRun run nodes -> fst (evalBranches run nodes out) = fst (evalBranches run nodes out').
Proof.
  revert out out'. induction nodes as [|n nodes IH]; intros out out' H; simpl; [done|].
  pose proof (H n out out' ltac:(by left)) as Hn. destruct (run n out) as [o1 u1], (run n out') as [o2 u2]. simpl in Hn. subst o2.
  specialize (IH u1 u2 ltac:(intros m a b Hm; apply H; by right)).
  destruct (evalBranches run nodes u1), (evalBranches run nodes u2). simpl in *. by subst.
Qed.

Lemma runCases_steady run field values dflt i cases out out' : steadyRun run ((c_Then <$> cases) ++ [dflt]) ->
  fst (runCases run field values dflt i cases out) = fst (runCases run field values dflt i cases out').
Proof.
  revert i. induction cases as [|[eq ins rg pr wh tn] cases IH]; intros i H; cbn [runCases].
  - apply H. set_solver.
  - destruct wh; [done|]. case_match; [apply H; set_solver|]. apply IH. intros m a b Hm. apply H. set_solver.
Qed.

Lemma outcome_steady n : forall iter out out', fst (evalNode ctx n iter out) = fst (evalNode ctx n iter out').
Proof.
  induction n as [n IH] using flow_ind. intros iter out out'.
  assert (Hrun : forall it, steadyRun (fun n => evalNode ctx n it) (kids n)) by (intros it m a b Hm; by apply IH).
  destruct n as [[m|] [|x seq] [[b j oj ob]|] [[mo ti body un ir mi md re]|] [[su cases dflt]|]]; cbn [evalNode kids] in *; try done;
    try (by apply evalSequence_steady);
    try (pose proof (evalBranches_steady (fun n => evalNode ctx n iter) b out out' (Hrun iter)) as Hb;
         destruct (evalBranches _ b out) as [os1 u1], (evalBranches _ b out') as [os2 u2]; simpl in Hb; subst os2;
         unfold joinBranches; repeat case_match; done).
  1,2: unfold evalLoop; destruct (anchorMember body =s ""); [done|]; cbv zeta;
    destruct (lp_Iteration _ =? 0); [done|];
    set (o1 := if _ && _ then _ else out); set (o2 := if _ && _ then _ else out');
    pose proof (Hrun (lp_Iteration (cx_LoopProgress ctx (anchorMember body))) body o1 o2 ltac:(by left)) as Hb; simpl in Hb;
    destruct (evalNode ctx body _ o1) as [b1 u1], (evalNode ctx body _ o2) as [b2 u2]; simpl in Hb; subst b2;
    unfold afterIteration; repeat case_match; done.
  unfold evalSelect. destruct (s_Event su) as [ev|]; repeat (case_match; try done); by apply runCases_steady.
Qed.

End outcomes.

(** Two cluster states that agree on some children, with one clock and one progress. *)
Definition agree (ctx ctx' : Context) (refs : list Ref) : Prop :=
  cx_Now ctx = cx_Now ctx' /\ (forall a, cx_LoopProgress ctx a = cx_LoopProgress ctx' a) /\
  forall r, r ∈ refs -> cx_Child ctx (ref_Member r) (ref_Iteration r) = cx_Child ctx' (ref_Member r) (ref_Iteration r).

Lemma agree_sub ctx ctx' l k : agree ctx ctx' l -> (forall r, r ∈ k -> r ∈ l) -> agree ctx ctx' k.
Proof. intros (H1 & H2 & H3) Hs. split_and!; auto. Qed.

Lemma agree_app ctx ctx' l k : agree ctx ctx' (l ++ k) -> agree ctx ctx' l /\ agree ctx ctx' k.
Proof. intros H. split; (eapply agree_sub; [exact H|]); set_solver. Qed.

Lemma agree_one ctx ctx' m it l : agree ctx ctx' (mkRef m it :: l) -> cx_Child ctx m it = cx_Child ctx' m it /\ agree ctx ctx' l.
Proof. intros H. split; [apply (proj2 (proj2 H) (mkRef m it)); by left|]. eapply agree_sub; [exact H|]. set_solver. Qed.

Section agreement.
Context (ctx ctx' : Context).

Lemma walk_agree {A} (f g : A -> Eval -> Eval) l out : (forall x out, x ∈ l -> f x out = g x out) -> walk f l out = walk g l out.
Proof.
  revert out. induction l as [|x l IH]; intros out H; simpl; [done|]. rewrite (H x out) by (by left). apply IH. intros y o Hy. apply H. by right.
Qed.

Lemma elem_flat_map {A B} (f : A -> list B) l x y : x ∈ l -> y ∈ f x -> y ∈ flat_map f l.
Proof. intros Hx Hy. apply list_elem_of_In, in_flat_map. exists x. by rewrite <- !list_elem_of_In. Qed.

Lemma cancel_agree n : forall iter out, agree ctx ctx' (cancelReads ctx n iter) -> collectCancel ctx n iter out = collectCancel ctx' n iter out.
Proof.
  induction n as [n IH] using flow_ind. intros iter out Ha.
  assert (Hkid : forall m it o, m ∈ kids n -> agree ctx ctx' (cancelReads ctx m it) -> collectCancel ctx m it o = collectCancel ctx' m it o)
    by (intros; by apply IH).
  destruct n as [[m|] [|x seq] [[b j oj ob]|] [[mo ti body un ir mi md re]|] [[su cases dflt]|]]; cbn [collectCancel cancelReads kids] in *;
    try done; try (apply agree_one in Ha as [-> _]; done);
    try (apply walk_agree; intros y o Hy; apply Hkid; [done|]; eapply agree_sub; [exact Ha|]; intros r Hr; by eapply elem_flat_map).
  - rewrite <- (proj1 (proj2 Ha)). repeat case_match; try done. apply Hkid; [by left|done].
  - rewrite <- (proj1 (proj2 Ha)). repeat case_match; try done. apply Hkid; [by left|done].
  - apply agree_app in Ha as [Hc Hd]. rewrite Hkid; [|apply elem_of_app; right; by left|done]. f_equal. apply walk_agree.
    intros [eq ins rg pr wh tn] o Hy. apply Hkid; [apply elem_of_app; left; apply list_elem_of_fmap; exists (mkSelectCase eq ins rg pr wh tn); by split|].
    eapply agree_sub; [exact Hc|]. intros r Hr. by eapply elem_flat_map.
Qed.

Lemma until_agree it c : agree ctx ctx' (untilReads ctx it c) -> untilHolds ctx it c = untilHolds ctx' it c.
Proof.
  unfold untilReads, untilHolds. intros Ha. destruct (u_Event c) as [e|]; [|destruct (u_Result c) as [r|]; [|done]].
  - apply agree_one in Ha as [H1 Ha]. unfold resolveUntilEvent.
    assert (He : hasEvent ctx (ue_From e) it (ue_Type e) = hasEvent ctx' (ue_From e) it (ue_Type e)) by (unfold hasEvent; by rewrite H1).
    rewrite <- He. destruct (hasEvent ctx (ue_From e) it (ue_Type e)); [done|]. simpl in *.
    destruct (it =? 0); [done|]. apply agree_one in Ha as [H2 _]. simpl. unfold hasEvent. by rewrite H2.
  - apply agree_one in Ha as [H1 Ha]. unfold resolveUntilResult.
    assert (He : resultField ctx (ur_Member r) it (ur_Field r) = resultField ctx' (ur_Member r) it (ur_Field r)) by (unfold resultField; by rewrite H1).
    rewrite <- He. destruct (resultField ctx (ur_Member r) it (ur_Field r)); [done|]. simpl in *.
    apply agree_one in Ha as [H2 _]. unfold resultField. by rewrite H2.
Qed.

Lemma anyOf_agree it conds : agree ctx ctx' (anyOfReads ctx it conds) -> existsb (untilHolds ctx it) conds = existsb (untilHolds ctx' it) conds.
Proof.
  induction conds as [|c conds IH]; cbn [anyOfReads existsb]; [done|]. intros [H1 H2]%agree_app.
  rewrite <- (until_agree it c H1). destruct (untilHolds ctx it c); [done|]. by apply IH.
Qed.

Lemma bound_agree l lp : agree ctx ctx' (boundReads ctx l lp) -> loopBoundSatisfied ctx l lp = loopBoundSatisfied ctx' l lp.
Proof.
  unfold boundReads, loopBoundSatisfied. intros Ha. rewrite (proj1 Ha).
  destruct (l_Until l) as [anyOf|]; [|done]. by rewrite (anyOf_agree _ _ Ha).
Qed.

(** What the agreement of a node gives. *)
Definition sameRun (reads : FlowNode -> list Ref) (run run' : FlowNode -> Eval -> Outcome * Eval) (nodes : list FlowNode) : Prop :=
  forall n out, n ∈ nodes -> agree ctx ctx' (reads n) -> run n out = run' n out.

Lemma sequence_agree reads run run' nodes out : sameRun reads run run' nodes -> steadyRun run nodes ->
  agree ctx ctx' (sequenceReads reads (fun n => fst (run n emptyEval)) nodes) -> evalSequence run nodes out = evalSequence run' nodes out.
Proof.
  revert out. induction nodes as [|n nodes IH]; intros out Hs Hy Ha; cbn [evalSequence sequenceReads] in *; [done|].
  apply agree_app in Ha as [H1 H2]. rewrite <- (Hs n out) by (try done; by left).
  rewrite (Hy n emptyEval out) in H2 by (by left).
  destruct (run n out) as [[] u]; try done. simpl in H2. apply IH; [|by intros m a b Hm; apply Hy; right|done].
  intros m o Hm. apply Hs. by right.
Qed.

Lemma branches_agree reads run run' nodes out : sameRun reads run run' nodes -> agree ctx ctx' (flat_map reads nodes) ->
  evalBranches run nodes out = evalBranches run' nodes out.
Proof.
  revert out. induction nodes as [|n nodes IH]; intros out Hs Ha; cbn [evalBranches flat_map] in *; [done|].
  apply agree_app in Ha as [H1 H2]. rewrite <- (Hs n out) by (try done; by left). destruct (run n out) as [o u].
  rewrite IH; [done| |done]. intros m o' Hm. apply Hs. by right.
Qed.

Lemma branches_outcomes run nodes out : steadyRun run nodes -> fst (evalBranches run nodes out) = (fun n => fst (run n emptyEval)) <$> nodes.
Proof.
  revert out. induction nodes as [|n nodes IH]; intros out Hy; simpl; [done|].
  pose proof (Hy n out emptyEval ltac:(by left)) as Hn. destruct (run n out) as [o u]. simpl in Hn.
  specialize (IH u ltac:(intros m a b Hm; apply Hy; by right)). destruct (evalBranches run nodes u) as [os v]. simpl in *. by subst.
Qed.

Lemma unsettled_agree branches : forall os iter out, agree ctx ctx' (unsettledReads ctx branches os iter) ->
  cancelUnsettled ctx branches os iter out = cancelUnsettled ctx' branches os iter out.
Proof.
  induction branches as [|b branches IH]; intros [|o os] iter out Ha; cbn [unsettledReads cancelUnsettled] in *; try done.
  apply agree_app in Ha as [H1 H2]. destruct (Settled o); [by apply IH|]. rewrite cancel_agree by done. by apply IH.
Qed.

Lemma join_agree j oj ob branches os iter out : agree ctx ctx' (joinReads ctx j oj ob branches os iter) ->
  joinBranches ctx j oj ob branches os iter out = joinBranches ctx' j oj ob branches os iter out.
Proof.
  unfold joinReads, joinBranches. intros Ha. case_match; [|done]. case_match; [|done]. by rewrite (unsettled_agree branches os iter out Ha).
Qed.

Lemma cases_agree reads run run' field values dflt cases i out :
  sameRun reads run run' ((c_Then <$> cases) ++ [dflt]) -> agree ctx ctx' (caseReads reads field values dflt cases) ->
  runCases run field values dflt i cases out = runCases run' field values dflt i cases out.
Proof.
  revert i. induction cases as [|[eq ins rg pr wh tn] cases IH]; intros i Hs Ha; cbn [runCases caseReads] in *.
  - apply Hs; [set_solver|done].
  - destruct wh; [done|]. case_match; [apply Hs; [set_solver|done]|]. apply IH; [|done]. intros m o Hm. apply Hs. set_solver.
Qed.

Lemma select_agree reads run run' s iter out :
  (let '(mkSelectNode _ cases dflt) := s in sameRun reads run run' ((c_Then <$> cases) ++ [dflt])) ->
  agree ctx ctx' (selectReads ctx reads s iter) -> evalSelect ctx run s iter out = evalSelect ctx' run' s iter out.
Proof.
  destruct s as [su cases dflt]. unfold selectReads, evalSelect, Producer. intros Hs Ha.
  destruct (s_Event su) as [ev|]; apply agree_one in Ha as [<- Ha].
  - destruct (negb (cs_Exists _)); [done|]. case_match; [|done]. by eapply cases_agree.
  - destruct (negb (cs_Exists _)); [done|]. destruct (child_outcome _) eqn:Eo; simpl in *; try done. by eapply cases_agree.
Qed.

Lemma loop_agree reads run run' l out :
  (forall it, sameRun (fun n => reads n it) (fun n => run n it) (fun n => run' n it) [l_Body l]) ->
  agree ctx ctx' (loopReads ctx reads l) -> evalLoop ctx run l out = evalLoop ctx' run' l out.
Proof.
  destruct l as [mo ti body un ir mi md re]. unfold loopReads, evalLoop. intros Hs Ha.
  destruct (anchorMember body =s ""); [done|]. rewrite <- (proj1 (proj2 Ha)). cbv zeta in *.
  destruct (lp_Iteration _ =? 0); [done|]. apply agree_app in Ha as [H1 [H2 H3]%agree_app].
  rewrite <- (bound_agree _ _ H1).
  set (o1 := if _ && _ then collectCancel ctx _ _ _ else out). set (o2 := if _ && _ then collectCancel ctx' _ _ _ else out).
  assert (Ho : o1 = o2). { unfold o1, o2. case_match; [by apply cancel_agree|done]. }
  rewrite <- Ho. specialize (Hs (lp_Iteration (cx_LoopProgress ctx (anchorMember body))) body o1 ltac:(by left) H3). simpl in Hs.
  rewrite <- Hs. done.
Qed.

Lemma eval_agree n : forall iter out, agree ctx ctx' (nodeReads ctx n iter) -> evalNode ctx n iter out = evalNode ctx' n iter out.
Proof.
  induction n as [n IH] using flow_ind. intros iter out Ha.
  assert (Hrun : forall it, sameRun (fun n => nodeReads ctx n it) (fun n => evalNode ctx n it) (fun n => evalNode ctx' n it) (kids n))
    by (intros it m o Hm Hag; by apply IH).
  assert (Hst : forall it, steadyRun (fun n => evalNode ctx n it) (kids n)) by (intros it m a b Hm; apply outcome_steady).
  destruct n as [[m|] [|x seq] [[b j oj ob]|] [l|] [s|]]; cbn [evalNode nodeReads kids] in *; try done;
    try (unfold evalRun; apply agree_one in Ha as [-> _]; done); try (by eapply sequence_agree);
    try (apply agree_app in Ha as [H1 H2]; rewrite <- (branches_agree _ _ _ b out (Hrun iter) H1);
         pose proof (branches_outcomes _ b out (Hst iter)) as Ho;
         destruct (evalBranches (fun n => evalNode ctx n iter) b out) as [os u]; simpl in Ho; subst os; by apply join_agree).
  - eapply loop_agree; [|exact Ha]. destruct l. exact Hrun.
  - eapply loop_agree; [|exact Ha]. destruct l. exact Hrun.
  - eapply select_agree; [|exact Ha]. destruct s. exact (Hrun iter).
Qed.

End agreement.

Section pass.
Context (api : FlowApi) (now : Time) (t : FlowTask).

(** What a first read of a child gives. *)
Definition fresh (objects : FlowObjects) (r : Ref) : option FlowChild :=
  if fp_getFails api (nameOf t r) then None
  else match objects !! nameOf t r with Some c => if fc_Owned c then Some c else None | None => None end.

Definition stateOr (c : option FlowChild) : ChildState := match c with Some c => childStateOf c | None => noChild end.

Lemma seenChild_fresh objects m it : seenChild api t objects m it = stateOr (fresh objects (mkRef m it)).
Proof. unfold seenChild, readChild, fresh. simpl. repeat case_match; done. Qed.

(** Every remembered child is what a first read gave. *)
Definition remembers (objects : FlowObjects) (ps : Pass) : Prop := forall r v, ps_cache ps !! r = Some v -> v = fresh objects r.

Lemma readChild_remembers objects r ps : remembers objects ps ->
  let ps' := snd (readChild api t objects r ps) in
  remembers objects ps' /\ cached ps' r = fresh objects r /\ (forall r' v, ps_cache ps !! r' = Some v -> ps_cache ps' !! r' = Some v).
Proof.
  intros H. unfold readChild, cached. destruct (ps_cache ps !! r) as [v|] eqn:E.
  - rewrite <- (H _ _ E). destruct v; simpl; rewrite E; done.
  - unfold fresh. destruct (fp_getFails api (nameOf t r)) eqn:Ef; [simpl; rewrite E; done|].
    destruct (objects !! nameOf t r) as [c|] eqn:Eo; [destruct (fc_Owned c) eqn:Ew|]; simpl; rewrite lookup_insert_eq;
      (split_and!; [|done|]; intros r' v Hv;
        [cbn [ps_cache] in Hv; apply lookup_insert_Some in Hv as [[<- <-]|[_ Hv]]; [unfold fresh; by rewrite Ef, Eo, ?Ew|by apply H]
        |rewrite lookup_insert_ne; [done|congruence]]).
Qed.

Lemma readAll_remembers objects refs : forall ps, remembers objects ps ->
  remembers objects (readAll api t objects refs ps) /\
  (forall r, r ∈ refs -> cached (readAll api t objects refs ps) r = fresh objects r) /\
  (forall r v, ps_cache ps !! r = Some v -> ps_cache (readAll api t objects refs ps) !! r = Some v).
Proof.
  induction refs as [|r refs IH]; intros ps H; [split_and!; [done|by intros r ?%not_elem_of_nil|done]|].
  destruct (readChild_remembers objects r ps H) as (H1 & H2 & H3). destruct (IH _ H1) as (I1 & I2 & I3).
  split_and!; [done| |by auto]. intros r' [->|Hr]%elem_of_cons; [|by apply I2].
  unfold readAll. cbn [fold_left]. fold (readAll api t objects refs (snd (readChild api t objects r ps))).
  set (ps' := snd (readChild api t objects r ps)) in *. unfold cached in *.
  destruct (ps_cache ps' !! r) as [v|] eqn:E; [by rewrite (I3 _ _ E)|]. simpl in H2.
  destruct (ps_cache (readAll api t objects refs ps') !! r) as [v|] eqn:E'; [|done]. by rewrite (I1 _ _ E').
Qed.

(** The children as the pass's cache holds them. *)
Definition cachedState (ps : Pass) (member : string) (iteration : Z) : ChildState := stateOr (cached ps (mkRef member iteration)).

(** The evaluator sees exactly what the pass has read: evaluated against the children the pass
    remembers, and nothing else of the cluster, the flow gives the same outcome and asks for the same
    creates, cancels and iterations. So the fan-out over the remembered children reaches every child the
    evaluation looked at. *)
Theorem pass_sees_what_it_reads objects :
  Evaluate (mkContext now (cachedState (evaluated api now t objects)) (loopProgress t)) (fl_Flow t) =
  Evaluate (flowContext api now t objects) (fl_Flow t).
Proof.
  symmetry. apply eval_agree. split_and!; [done|done|]. intros [m it] Hr. unfold flowContext. simpl. rewrite seenChild_fresh.
  unfold cachedState, evaluated. f_equal. symmetry. apply readAll_remembers; [|exact Hr]. intros r v Hv. done.
Qed.

(** What every read keeps, the resolution of a child's bindings keeps. *)
Lemma resolve_keeps (I : Pass -> Prop) objects bs iter : (forall r ps, I ps -> I (snd (readChild api t objects r ps))) ->
  forall ps, I ps -> I (snd (resolveMemberBindings api t objects bs iter ps)).
Proof.
  intros Hread.
  assert (H1 : forall name b ps, I ps -> I (snd (resolveOneMemberBinding api t objects name b iter ps))).
  { intros name b ps H. unfold resolveOneMemberBinding, producerState. cbv zeta. case_match; [done|].
    pose proof (Hread (mkRef (mb_Name b) iter) ps H) as Hr.
    destruct (readChild api t objects (mkRef (mb_Name b) iter) ps) as [st ps1]. simpl in Hr.
    pose proof (Hread (mkRef (mb_Name b) 0) ps1 Hr) as Hr0.
    destruct (readChild api t objects (mkRef (mb_Name b) 0) ps1) as [st0 ps2]. simpl in Hr0. repeat case_match; simplify_eq/=; done. }
  induction bs as [|[name b] bs IH]; intros ps H; simpl; [done|].
  specialize (H1 name b ps H). destruct (resolveOneMemberBinding _ _ _ _ _ _ _) as [e ps1]. simpl in H1.
  specialize (IH ps1 H1). by destruct (resolveMemberBindings _ _ _ _ _ _).
Qed.

(** ** What a pass may do to the namespace *)

(** The children the evaluator asked for. *)
Context (asked : list Ref).

(** One change of the object called [name]. *)
Inductive flowChange (name : string) : option FlowChild -> option FlowChild -> Prop :=
| ChangeCreate r c : r ∈ asked -> name = nameOf t r -> fc_Owned c = true -> fc_OwnedBy c = fl_Name t -> fc_Phase c = "" -> fc_Desired c = fl_DesiredState t ->
    flowChange name None (Some c)
| ChangeDesired c d : fc_Owned c = true ->
    d = DesiredStateCancelled \/ d = fl_DesiredState t -> flowChange name (Some c) (Some (childDesired c d))
| ChangeDelete c : fc_Owned c = true -> fc_OwnedBy c = fl_Name t -> isTerminal (fc_Phase c) = true -> flowChange name (Some c) None.

Definition flowEvolves (o o' : FlowObjects) : Prop := forall name, rtc (flowChange name) (o !! name) (o' !! name).

Lemma flowEvolves_refl o : flowEvolves o o.
Proof. intros name. apply rtc_refl. Qed.

Lemma flowEvolves_trans a b c : flowEvolves a b -> flowEvolves b c -> flowEvolves a c.
Proof. intros H1 H2 name. etrans; [apply H1|apply H2]. Qed.

(** A remembered child is an object the task controls. *)
Definition cacheOk (objects : FlowObjects) (ps : Pass) : Prop :=
  forall r c, cached ps r = Some c -> exists o, objects !! nameOf t r = Some o /\ fc_Owned o = true.

Lemma readChild_cacheOk objects r ps : cacheOk objects ps -> cacheOk objects (snd (readChild api t objects r ps)).
Proof.
  intros H. unfold readChild. destruct (ps_cache ps !! r) as [[c|]|] eqn:E; [done|done|].
  destruct (fp_getFails _ _); [exact H|]. destruct (objects !! nameOf t r) as [c|] eqn:Eo; [destruct (fc_Owned c) eqn:Ew|];
    intros r' c' Hc; unfold cached in Hc; simpl in Hc; (destruct (decide (r = r')) as [<-|Hne];
      [rewrite lookup_insert_eq in Hc; simplify_eq/=; eauto|rewrite lookup_insert_ne in Hc by done; by apply (H r' c')]).
Qed.

Lemma cacheOk_sub o o' ps : cacheOk o ps -> (forall name c, o !! name = Some c -> fc_Owned c = true -> exists c', o' !! name = Some c' /\ fc_Owned c' = true) ->
  cacheOk o' ps.
Proof. intros H Hs r c Hc. destruct (H r c Hc) as (x & Hx & Hw). by apply (Hs _ _ Hx). Qed.

Lemma cacheOk_put o ps r c : cacheOk o ps -> (exists x, o !! nameOf t r = Some x /\ fc_Owned x = true) -> cacheOk o (cachePut ps r c).
Proof.
  intros H Hx r' c' Hc. unfold cached, cachePut in Hc. simpl in Hc. destruct (decide (r = r')) as [<-|Hne]; [done|].
  rewrite lookup_insert_ne in Hc by done. by apply (H r' c').
Qed.

Lemma resolve_cacheOk objects bs iter ps : cacheOk objects ps -> cacheOk objects (snd (resolveMemberBindings api t objects bs iter ps)).
Proof. apply resolve_keeps. intros. by apply readChild_cacheOk. Qed.

Lemma patchDesired_evolves name d o c : o !! name = Some c -> fc_Owned c = true -> d = DesiredStateCancelled \/ d = fl_DesiredState t ->
  flowEvolves o (patchDesired name d o) /\
  (forall n x, o !! n = Some x -> fc_Owned x = true -> exists x', patchDesired name d o !! n = Some x' /\ fc_Owned x' = true).
Proof.
  intros Hc Hw Hd. unfold patchDesired. split.
  - intros n. destruct (decide (n = name)) as [->|Hne]; [|rewrite lookup_alter_ne by done; apply rtc_refl].
    rewrite lookup_alter_eq, Hc. apply rtc_once. by constructor.
  - intros n x Hx Hwx. destruct (decide (n = name)) as [->|Hne]; [|rewrite lookup_alter_ne by done; eauto].
    rewrite lookup_alter_eq, Hx. by eexists.
Qed.

(** The objects a result carries, an error's included. *)
Definition objectsOf {A} (f : A -> FlowObjects) (r : driving A) : FlowObjects := match r with Ok x => f x | Err (_, o) => o end.

Lemma ensureLoop_evolves refs : (forall r, r ∈ refs -> r ∈ asked) -> forall o ps, cacheOk o ps ->
  flowEvolves o (objectsOf (fun x => fst (snd x)) (ensureLoop api now t refs o ps)) /\
  (forall m o' ps', ensureLoop api now t refs o ps = Ok (m, (o', ps')) -> cacheOk o' ps').
Proof.
  induction refs as [|r refs IH]; intros Hask o ps H; cbn [ensureLoop]; [split; [apply flowEvolves_refl|naive_solver]|].
  specialize (IH ltac:(intros r' Hr'; apply Hask; by right)).
  destruct (_ || _); [by apply IH|]. destruct (memberByName t (ref_Member r)) as [m|] eqn:Em; [|by apply IH].
  pose proof (resolve_cacheOk o (memberBindings (fm_Parameters m)) (ref_Iteration r) ps H) as Hr.
  destruct (resolveMemberBindings _ _ _ _ _ _) as [resolved ps1]. simpl in Hr. cbv zeta.
  destruct (createAt api o (nameOf t r)) eqn:Ec; simpl;
    [|by apply IH|split; [apply flowEvolves_refl|naive_solver]|split; [apply flowEvolves_refl|done]].
  assert (Hn : o !! nameOf t r = None) by (unfold createAt in Ec; repeat case_match; done).
  set (child := newFlowChild now t m _).
  assert (Hnew : forall c, fc_Owned c = true -> fc_OwnedBy c = fl_Name t -> fc_Phase c = "" -> fc_Desired c = fl_DesiredState t ->
    flowEvolves o (<[nameOf t r := c]> o) /\ cacheOk (<[nameOf t r := c]> o) (cachePut ps1 r c)).
  { intros c Hw Hl Hp Hd. split.
    - intros n. destruct (decide (n = nameOf t r)) as [->|Hne]; [|rewrite lookup_insert_ne by done; apply rtc_refl].
      rewrite lookup_insert_eq, Hn. apply rtc_once. apply (ChangeCreate _ r); try done. apply Hask. by left.
    - apply cacheOk_put; [|by rewrite lookup_insert_eq; eauto]. eapply cacheOk_sub; [exact Hr|]. intros n x Hx Hwx.
      rewrite lookup_insert_ne by congruence. eauto. }
  destruct resolved as [|e es].
  - destruct (Hnew child) as [H1 H2]; [done..|]. destruct (IH _ _ H2) as [I1 I2]. split; [by eapply flowEvolves_trans|done].
  - destruct (fp_statusPatchFails api (nameOf t r)); [split; [by apply Hnew|done]|].
    destruct (Hnew (withResolution child (e :: es))) as [H1 H2]; [done..|]. destruct (IH _ _ H2) as [I1 I2].
    split; [by eapply flowEvolves_trans|done].
Qed.

Lemma cancelLoop_evolves refs : forall o ps, cacheOk o ps ->
  flowEvolves o (objectsOf fst (cancelLoop api t refs o ps)) /\
  (forall o' ps', cancelLoop api t refs o ps = Ok (o', ps') -> cacheOk o' ps').
Proof.
  induction refs as [|r refs IH]; intros o ps H; cbn [cancelLoop]; [split; [apply flowEvolves_refl|naive_solver]|].
  destruct (cached ps r) as [c|] eqn:Ec; [|by apply IH]. destruct (_ || _); [by apply IH|].
  destruct (fp_patchFails _ _); [split; [apply flowEvolves_refl|done]|].
  destruct (H r c Ec) as (x & Hx & Hw).
  destruct (patchDesired_evolves (nameOf t r) DesiredStateCancelled o x Hx Hw ltac:(by left)) as [H1 H2].
  destruct (IH (patchDesired (nameOf t r) DesiredStateCancelled o) (cachePut ps r (childDesired c DesiredStateCancelled))) as [I1 I2].
  - apply cacheOk_put; [by eapply cacheOk_sub|by eapply H2].
  - split; [by eapply flowEvolves_trans|done].
Qed.

Lemma fanOutLoop_evolves refs : forall o ps, cacheOk o ps ->
  flowEvolves o (objectsOf fst (fanOutLoop api t (fl_DesiredState t) refs o ps)).
Proof.
  induction refs as [|r refs IH]; intros o ps H; cbn [fanOutLoop]; [apply flowEvolves_refl|].
  destruct (cached ps r) as [c|] eqn:Ec; [|by apply IH]. destruct (_ || _); [by apply IH|].
  destruct (fp_patchFails _ _); [apply flowEvolves_refl|]. destruct (H r c Ec) as (x & Hx & Hw).
  destruct (patchDesired_evolves (nameOf t r) (fl_DesiredState t) o x Hx Hw ltac:(by right)) as [H1 H2].
  eapply flowEvolves_trans; [exact H1|]. apply IH. apply cacheOk_put; [by eapply cacheOk_sub|by eapply H2].
Qed.

Lemma readAll_cacheOk objects refs : forall ps, cacheOk objects ps -> cacheOk objects (readAll api t objects refs ps).
Proof. induction refs as [|r refs IH]; intros ps H; [done|]. apply IH. by apply readChild_cacheOk. Qed.

(** ** Deleting old iterations *)

Lemma elem_prunable o member name c :
  (name, c) ∈ prunable t o member <->
  o !! name = Some c /\ fc_OwnedBy c = fl_Name t /\ fc_Member c = member /\ isTerminal (fc_Phase c) = true /\ fc_Owned c = true.
Proof.
  unfold prunable. rewrite list_elem_of_In, filter_In, <- list_elem_of_In, elem_of_map_to_list. simpl.
  rewrite !andb_true_iff, !String.eqb_eq. tauto.
Qed.

Lemma pastWindow_sub items keep x : x ∈ pastWindow items keep -> x ∈ items.
Proof.
  unfold pastWindow. case_match; [by intros ?%not_elem_of_nil|]. intros Hx.
  rewrite <- (merge_sort_Permutation newer items). rewrite <- (take_drop (Z.to_nat keep) (merge_sort newer items)). set_solver.
Qed.

Lemma deleteAll_objects victims : forall o,
  let o' := match deleteAll api victims o with Ok x => x | Err x => x end in
  forall n, o' !! n = o !! n \/ o' !! n = None /\ n ∈ victims.*1.
Proof.
  induction victims as [|[v c] victims IH]; intros o; simpl; [by left|]. destruct (fp_deleteFails api v); [by left|].
  intros n. destruct (IH (delete v o) n) as [He|[He Hn]]; [|right; split; [done|by right]].
  destruct (decide (n = v)) as [->|Hne]; [right; rewrite He, lookup_delete_eq; split; [done|by left]|].
  rewrite lookup_delete_ne in He by done. by left.
Qed.

Lemma deleteAll_all victims : forall o o', deleteAll api victims o = Ok o' -> forall n, n ∈ victims.*1 -> o' !! n = None.
Proof.
  induction victims as [|[v c] victims IH]; intros o o'; simpl; [by intros _ n ?%not_elem_of_nil|].
  destruct (fp_deleteFails api v); [done|]. intros H n [->|Hn]%elem_of_cons; [|by eapply IH].
  pose proof (deleteAll_objects victims (delete v o) v) as Hv. rewrite H in Hv. rewrite lookup_delete_eq in Hv. naive_solver.
Qed.

Lemma prune_evolves o member ret :
  flowEvolves o (match pruneIterationChildren api t o member ret with Ok x => x | Err x => x end).
Proof.
  unfold pruneIterationChildren. destruct (fp_listFails api); [apply flowEvolves_refl|]. cbv zeta.
  assert (Hdel : forall keep (p : string * FlowChild -> bool) o1, (forall n, o1 !! n = o !! n \/ o1 !! n = None) ->
    flowEvolves o1 (match deleteAll api (pastWindow (List.filter p (prunable t o member)) keep) o1 with Ok x => x | Err x => x end)).
  { intros keep p o1 Ho1 n. destruct (deleteAll_objects (pastWindow (List.filter p (prunable t o member)) keep) o1 n) as [->|[-> Hn]]; [apply rtc_refl|].
    apply list_elem_of_fmap in Hn as ([n' c] & -> & Hin). apply pastWindow_sub in Hin.
    apply list_elem_of_In, filter_In in Hin as [Hin _]. apply list_elem_of_In, elem_prunable in Hin as (Hc & H1 & H2 & H3 & H4).
    simpl. destruct (Ho1 n') as [Hn|Hn]; rewrite Hn; [|apply rtc_refl]. rewrite Hc. apply rtc_once. by constructor. }
  pose proof (Hdel (KeepFailedChildren ret) isFailed o ltac:(by left)) as H1.
  pose proof (deleteAll_objects (pastWindow (List.filter isFailed (prunable t o member)) (KeepFailedChildren ret)) o) as Ho1.
  destruct (deleteAll api _ o) as [o1|o1]; simpl; [|exact H1].
  eapply flowEvolves_trans; [exact H1|]. apply Hdel. intros n. destruct (Ho1 n) as [?|[? _]]; auto.
Qed.

Lemma settleLoop_evolves settled ps : forall status o, flowEvolves o (objectsOf snd (settleLoop api t settled ps status o)).
Proof.
  induction settled as [|s settled IH]; intros status o; cbn [settleLoop]; [apply flowEvolves_refl|]. cbv zeta.
  pose proof (prune_evolves o (is_AnchorMember s) (effectiveRetention (findLoopNode (fl_Flow t) (is_AnchorMember s)))) as Hp.
  destruct (pruneIterationChildren _ _ _ _ _) as [o1|o1]; simpl; [|exact Hp]. by eapply flowEvolves_trans.
Qed.

Lemma concludePass_evolves outcome eval ps o : flowEvolves o (fr_objects (concludePass api now t outcome eval ps o)).
Proof.
  unfold concludePass. pose proof (settleLoop_evolves (ev_Settled eval) ps (startIterations now (ev_StartIteration eval) (fl_Status t)) o) as H.
  destruct (settleLoop _ _ _ _ _ _) as [[status o1]|[e o1]]; simpl in *; [|exact H]. unfold patchStatus. by case_match.
Qed.

Lemma reconcileFlow_evolves o :
  (forall r, r ∈ ev_Ensure (snd (Evaluate (flowContext api now t o) (fl_Flow t))) -> r ∈ asked) ->
  flowEvolves o (fr_objects (reconcileFlow api now t o)).
Proof.
  intros Hask. unfold reconcileFlow. case_match; [unfold patchStatus; case_match; apply flowEvolves_refl|].
  destruct (Evaluate _ _) as [outcome eval]. cbv zeta. simpl in Hask. case_match; [apply flowEvolves_refl|].
  assert (Hc0 : cacheOk o (evaluated api now t o)) by (apply readAll_cacheOk; intros r c Hc; done).
  destruct (ensureLoop_evolves (ev_Ensure eval) Hask o (evaluated api now t o) Hc0) as [H1 H2].
  destruct (ensureLoop _ _ _ _ _ _) as [[refused [o1 ps1]]|[e o1]]; simpl in H1; [|exact H1].
  specialize (H2 _ _ _ eq_refl). destruct (cancelLoop_evolves (ev_Cancel eval) o1 ps1 H2) as [H3 H4].
  destruct (cancelLoop _ _ _ _ _) as [[o2 ps2]|[e o2]]; simpl in H3; [|by eapply flowEvolves_trans].
  specialize (H4 _ _ eq_refl).
  assert (H5 : flowEvolves o2 (objectsOf fst (fanOut api t o2 ps2))).
  { unfold fanOut. case_match; [apply flowEvolves_refl|]. by apply fanOutLoop_evolves. }
  destruct (fanOut _ _ _ _) as [[o3 ps3]|[e o3]]; simpl in H5.
  - assert (H6 : flowEvolves o o3) by (eapply flowEvolves_trans; [exact H1|]; by eapply flowEvolves_trans).
    repeat case_match; simpl; try exact H6. eapply flowEvolves_trans; [exact H6|apply concludePass_evolves].
  - simpl. eapply flowEvolves_trans; [exact H1|]. by eapply flowEvolves_trans.
Qed.


(** ** Retention *)

#[local] Instance newer_total : Total newer.
Proof. intros a b. unfold newer. lia. Qed.
#[local] Instance newer_trans : Transitive newer.
Proof. intros a b c. unfold newer. lia. Qed.

(** The [keep] newest of some items. *)
Definition window (items : list (string * FlowChild)) (keep : Z) : list (string * FlowChild) :=
  take (Z.to_nat keep) (merge_sort newer items).

Lemma window_newest items keep x y : x ∈ window items keep -> y ∈ pastWindow items keep -> newer x y.
Proof.
  unfold window, pastWindow. intros Hx. case_match; [by intros ?%not_elem_of_nil|]. intros Hy.
  pose proof (Sorted_StronglySorted newer _ (Sorted_merge_sort newer items)) as Hs.
  rewrite <- (take_drop (Z.to_nat keep) (merge_sort newer items)) in Hs. by eapply StronglySorted_app_1_elem_of.
Qed.

Lemma pastWindow_long items keep y : 0 <= keep -> Z.of_nat (length items) <= MaxInt32 -> y ∈ pastWindow items keep ->
  length (window items keep) = Z.to_nat keep.
Proof.
  intros Hk Hb. unfold window, pastWindow. rewrite int32_of_id by lia.
  case_match eqn:E; [by intros ?%not_elem_of_nil|]. intros _. z_bool. rewrite length_take, merge_sort_Permutation. lia.
Qed.

Lemma window_sub items keep x : x ∈ window items keep -> x ∈ items.
Proof.
  unfold window. intros Hx. rewrite <- (merge_sort_Permutation newer items).
  rewrite <- (take_drop (Z.to_nat keep) (merge_sort newer items)). set_solver.
Qed.

Lemma window_kept items keep x : NoDup items.*1 -> x ∈ window items keep -> x.1 ∉ (pastWindow items keep).*1.
Proof.
  unfold window, pastWindow. intros Hnd Hx. case_match; [by intros ?%not_elem_of_nil|].
  rewrite <- (merge_sort_Permutation newer items), <- (take_drop (Z.to_nat keep) (merge_sort newer items)), fmap_app in Hnd.
  apply NoDup_app in Hnd as (_ & Hd & _). apply Hd. by apply list_elem_of_fmap_2.
Qed.

Lemma prunable_names o member (p : string * FlowChild -> bool) : NoDup (List.filter p (prunable t o member)).*1.
Proof.
  unfold prunable. pose proof (NoDup_fst_map_to_list o) as H. induction (map_to_list o) as [|x l IH]; simpl; [constructor|].
  apply NoDup_cons in H as [H1 H2]. specialize (IH H2). case_match; [|done]. simpl. case_match; [|done].
  apply NoDup_cons. split; [|done]. intros Hin. apply H1. apply list_elem_of_fmap in Hin as (y & -> & Hy).
  apply list_elem_of_fmap_2. apply list_elem_of_In, filter_In in Hy as [Hy _]. apply filter_In in Hy as [Hy _]. by apply list_elem_of_In.
Qed.

(** How many children of [c]'s kind are kept: failures are kept apart. *)
Definition keepOf (ret : FlowRetention) (c : FlowChild) : Z :=
  if fc_Phase c =s ActionPhaseFailed then KeepFailedChildren ret else KeepChildren ret.
Definition sameKind (a b : FlowChild) : Prop :=
  (fc_Phase a =s ActionPhaseFailed) = (fc_Phase b =s ActionPhaseFailed).

(** The prunable children of one kind, and the objects past its window. *)
Definition kindItems (o : FlowObjects) (member : string) (failed : bool) : list (string * FlowChild) :=
  if failed then List.filter isFailed (prunable t o member) else List.filter (fun kv => negb (isFailed kv)) (prunable t o member).
Definition pruned (o : FlowObjects) (member : string) (ret : FlowRetention) (failed : bool) : list (string * FlowChild) :=
  pastWindow (kindItems o member failed) (if failed then KeepFailedChildren ret else KeepChildren ret).

Lemma elem_kindItems o member failed x : x ∈ kindItems o member failed <-> x ∈ prunable t o member /\ isFailed x = failed.
Proof. unfold kindItems. destruct failed; rewrite list_elem_of_In, filter_In, <- list_elem_of_In, ?negb_true_iff; done. Qed.

Lemma elem_pruned o member ret failed name c : o !! name = Some c ->
  name ∈ (pruned o member ret failed).*1 <-> (name, c) ∈ pruned o member ret failed.
Proof.
  intros Hc. split; [|by apply (list_elem_of_fmap_2 fst _ (name, c))]. intros ([n k] & -> & Hin)%list_elem_of_fmap. simpl in *.
  pose proof Hin as Hk. apply pastWindow_sub, elem_kindItems in Hk as [Hk _]. apply elem_prunable in Hk as [Hk _]. congruence.
Qed.

(** What becomes of an object. *)
Lemma prune_fate o member ret o' name c : pruneIterationChildren api t o member ret = Ok o' -> o !! name = Some c ->
  o' !! name = if decide (name ∈ (pruned o member ret (isFailed (name, c))).*1) then None else Some c.
Proof.
  intros Hok Hc. unfold pruneIterationChildren in Hok. destruct (fp_listFails api); [done|]. cbv zeta in Hok.
  fold (kindItems o member true) in Hok. fold (kindItems o member false) in Hok.
  fold (pruned o member ret true) in Hok. fold (pruned o member ret false) in Hok.
  destruct (deleteAll api (pruned o member ret true) o) as [o1|] eqn:E1; [|done]. simpl in Hok.
  pose proof (deleteAll_objects (pruned o member ret true) o name) as D1. rewrite E1 in D1.
  pose proof (deleteAll_objects (pruned o member ret false) o1 name) as D2. rewrite Hok in D2. cbv zeta in D1, D2.
  pose proof (deleteAll_all _ _ _ E1 name) as A1. pose proof (deleteAll_all _ _ _ Hok name) as A2.
  assert (Hk : forall failed, name ∈ (pruned o member ret failed).*1 -> isFailed (name, c) = failed)
    by (intros f Hf; rewrite (elem_pruned o member ret _ _ c Hc) in Hf; by apply pastWindow_sub, elem_kindItems in Hf as [_ ?]).
  case_decide as Hd.
  - destruct (isFailed (name, c)); [|by apply A2]. specialize (A1 Hd). destruct D2 as [->|[-> _]]; done.
  - destruct D2 as [->|[_ Hf]]; [|by rewrite (Hk _ Hf) in Hd]. destruct D1 as [->|[_ Hf]]; [done|by rewrite (Hk _ Hf) in Hd].
Qed.

(** Retention keeps the newest: deleting a member's old iterations leaves every object that is not a
    terminal child of that member under the task's control; a child is deleted only when as many children
    of its kind (failed ones apart from the others) as the retention names are kept and are at least as
    new. *)
Theorem prune_keeps_newest objects member ret objects' name c
  (Hok : pruneIterationChildren api t objects member ret = Ok objects')
  (HkF : 0 <= KeepFailedChildren ret) (HkC : 0 <= KeepChildren ret)
  (Hb : Z.of_nat (length (map_to_list objects)) <= MaxInt32) (Hc : objects !! name = Some c) :
  objects' !! name = Some c \/
  objects' !! name = None /\ fc_Owned c = true /\ fc_OwnedBy c = fl_Name t /\ fc_Member c = member /\
  isTerminal (fc_Phase c) = true /\
  exists kept, length kept = Z.to_nat (keepOf ret c) /\ NoDup kept.*1 /\
    forall n k, (n, k) ∈ kept ->
      objects' !! n = Some k /\ sameKind k c /\ fc_Member k = member /\ fc_Created c <= fc_Created k.
Proof.
  rewrite (prune_fate _ _ _ _ name c Hok Hc). case_decide as Hd; [right|by left].
  rewrite elem_pruned in Hd by done. pose proof Hd as Hi. apply pastWindow_sub, elem_kindItems in Hi as [Hi _]. apply elem_prunable in Hi as (_ & H1 & H2 & H3 & H4).
  split_and!; try done. set (b := isFailed (name, c)) in *.
  assert (Hkeep : keepOf ret c = if b then KeepFailedChildren ret else KeepChildren ret) by done.
  assert (Hnd : NoDup (kindItems objects member b).*1) by (unfold kindItems; destruct b; apply prunable_names).
  assert (Hlen : Z.of_nat (length (kindItems objects member b)) <= MaxInt32).
  { unfold kindItems, prunable. destruct b; etrans; [|exact Hb| |exact Hb]; apply Nat2Z.inj_le;
      (etrans; [apply List.filter_length_le|apply List.filter_length_le]). }
  exists (window (kindItems objects member b) (keepOf ret c)). unfold pruned in Hd. rewrite <- Hkeep in Hd. split_and!.
  - eapply pastWindow_long; [|exact Hlen|exact Hd]. rewrite Hkeep. by destruct b.
  - unfold window. rewrite <- (merge_sort_Permutation newer (kindItems _ _ _)),
      <- (take_drop (Z.to_nat (keepOf ret c)) (merge_sort newer _)), fmap_app in Hnd. by apply NoDup_app in Hnd as (? & _ & _).
  - intros n k Hw. pose proof (window_sub _ _ _ Hw) as [Hs Hf]%elem_kindItems. apply elem_prunable in Hs as (Hs & _ & Hm & _).
    split_and!; [|done|done|exact (window_newest _ _ _ _ Hw Hd)].
    rewrite (prune_fate _ _ _ _ n k Hok Hs), decide_False; [done|]. rewrite Hf. unfold pruned. rewrite <- Hkeep.
    by apply (window_kept _ _ _ Hnd Hw).
Qed.
End pass.

(** What the evaluator asks to be created. *)
Definition asksFor (api : FlowApi) (now : Time) (t : FlowTask) (objects : FlowObjects) : list Ref :=
  ev_Ensure (snd (Evaluate (flowContext api now t objects) (fl_Flow t))).

(** A flow task acts only on its own children: whatever the API server answers, a pass changes an object
    of the namespace only by creating it, for a child the evaluator asked for, under the task's control and
    with the task's desiredState, by writing desiredState (Cancelled, or the task's own) on an object the
    task controls, and by deleting a child of its own that is in a terminal phase. An object it does not
    control stays as it is. *)
Theorem flow_acts_only_on_its_children api now t objects name :
  let objects' := fr_objects (reconcileFlow api now t objects) in
  rtc (flowChange t (asksFor api now t objects) name) (objects !! name) (objects' !! name) /\
  (forall c, objects !! name = Some c -> fc_Owned c = false -> objects' !! name = Some c).
Proof.
  pose proof (reconcileFlow_evolves api now t (asksFor api now t objects) objects ltac:(done) name) as H.
  split; [exact H|]. intros c Hc Hw. rewrite Hc in H. inversion H as [|x y z Hs]; [done|]. inversion Hs; congruence.
Qed.

(** ** Iterations are committed before their children are created *)

(** The iterations a status has committed. *)
Definition committed (t : FlowTask) (it : Z) : Prop := it = 0 \/ exists s, s ∈ fl_Status t /\ ts_Iteration s = it.

Lemma ensured_committed api now t objects :
  Forall (fun r => committed t (ref_Iteration r)) (asksFor api now t objects).
Proof.
  apply (evalNode_keeps (flowContext api now t objects) (committed t) (fun out => Forall (fun r => committed t (ref_Iteration r)) (ev_Ensure out)));
    try done; [| |by left].
  - intros a. simpl. unfold loopProgress, committed. destruct (indexByMember (fl_Status t) a) as [i|]; simpl; [|by left].
    destruct (fl_Status t !! i) as [s|] eqn:Es; simpl; [|by left]. right. exists s. split; [by eapply list_elem_of_lookup_2|done].
  - intros m it out Hit _ H. simpl. apply Forall_app. split; [done|]. by apply Forall_singleton.
Qed.

(** Iterations are committed first: a child that a pass creates is that of a member at iteration 0, or at an
    iteration the stored status already counts. So a pass that dies after creating a child never leaves one
    beyond the counter. *)
Theorem children_follow_the_counter api now t objects name c
  (Hnone : objects !! name = None) (Hsome : fr_objects (reconcileFlow api now t objects) !! name = Some c) :
  exists r, name = nameOf t r /\ committed t (ref_Iteration r).
Proof.
  pose proof (reconcileFlow_evolves api now t (asksFor api now t objects) objects ltac:(done) name) as H.
  rewrite Hnone, Hsome in H. inversion H as [|x y z Hs]. subst. inversion Hs as [r c' Hr Hn| |]. subst.
  exists r. split; [done|]. pose proof (ensured_committed api now t objects) as Hc. rewrite Forall_forall in Hc. by apply Hc.
Qed.

(** ** A cancelled child stays cancelled *)

Section final.
Context (api : FlowApi) (now : Time) (t : FlowTask) (name : string) (c : FlowChild).
Hypothesis Hcancelled : fc_Desired c = DesiredStateCancelled.

(** The object is as it was, and every memory of it says Cancelled. *)
Definition cancelledIn (o : FlowObjects) (ps : Pass) : Prop :=
  o !! name = Some c /\ forall r k, cached ps r = Some k -> nameOf t r = name -> fc_Desired k = DesiredStateCancelled.

Lemma readChild_final o r ps : cancelledIn o ps -> cancelledIn o (snd (readChild api t o r ps)).
Proof.
  intros [Ho H]. split; [done|]. unfold readChild. destruct (ps_cache ps !! r) as [[k|]|] eqn:E; [exact H|exact H|].
  destruct (fp_getFails _ _); [exact H|]. destruct (o !! nameOf t r) as [k|] eqn:Eo; [destruct (fc_Owned k)|];
    intros r' k' Hk Hn; unfold cached in Hk; cbn [ps_cache snd] in Hk; (destruct (decide (r = r')) as [<-|Hne];
      [rewrite lookup_insert_eq in Hk; simplify_eq/=; congruence|rewrite lookup_insert_ne in Hk by done; by apply (H r' k')]).
Qed.

Lemma resolve_final o bs iter ps : cancelledIn o ps -> cancelledIn o (snd (resolveMemberBindings api t o bs iter ps)).
Proof. apply (resolve_keeps api t (cancelledIn o)). intros. by apply readChild_final. Qed.

Lemma cancelledIn_put o ps r k : cancelledIn o ps -> (nameOf t r = name -> fc_Desired k = DesiredStateCancelled) -> cancelledIn o (cachePut ps r k).
Proof.
  intros [Ho H] Hk. split; [done|]. intros r' k' Hc Hn. unfold cached, cachePut in Hc. simpl in Hc.
  destruct (decide (r = r')) as [<-|Hne]; [rewrite lookup_insert_eq in Hc; simplify_eq/=; by apply Hk|].
  rewrite lookup_insert_ne in Hc by done. by apply (H r' k').
Qed.

Lemma ensureLoop_final refs : forall o ps, cancelledIn o ps ->
  objectsOf (fun x => fst (snd x)) (ensureLoop api now t refs o ps) !! name = Some c /\
  (forall m o' ps', ensureLoop api now t refs o ps = Ok (m, (o', ps')) -> cancelledIn o' ps').
Proof.
  induction refs as [|r refs IH]; intros o ps H; cbn [ensureLoop]; [split; [apply H|naive_solver]|].
  destruct (_ || _); [by apply IH|]. destruct (memberByName t (ref_Member r)) as [m|] eqn:Em; [|by apply IH].
  pose proof (resolve_final o (memberBindings (fm_Parameters m)) (ref_Iteration r) ps H) as Hr.
  destruct (resolveMemberBindings _ _ _ _ _ _) as [resolved ps1]. simpl in Hr. cbv zeta.
  destruct (createAt api o (nameOf t r)) eqn:Ec; simpl; [|by apply IH|split; [apply H|naive_solver]|split; [apply H|done]].
  assert (Hn : o !! nameOf t r = None) by (unfold createAt in Ec; repeat case_match; done).
  assert (Hne : nameOf t r <> name) by (intros He; rewrite He in Hn; destruct H; congruence).
  assert (Hnew : forall k, cancelledIn (<[nameOf t r := k]> o) (cachePut ps1 r k)).
  { intros k. apply cancelledIn_put; [|done]. destruct Hr as [Ho Hr]. split; [by rewrite lookup_insert_ne|done]. }
  destruct resolved as [|e es]; [by apply IH|].
  destruct (fp_statusPatchFails api (nameOf t r)); [split; [apply (Hnew (newFlowChild now t m _))|done]|by apply IH].
Qed.

(** A patch through a memory that does not say Cancelled is a patch of another object. *)
Lemma patch_final o ps r k d : cancelledIn o ps -> cached ps r = Some k -> fc_Desired k <> DesiredStateCancelled ->
  cancelledIn (patchDesired (nameOf t r) d o) (cachePut ps r (childDesired k d)).
Proof.
  intros [Ho H] Hk Hd. assert (Hne : nameOf t r <> name) by (intros Hn; by apply Hd, (H r k)).
  apply cancelledIn_put; [|done]. split; [|done]. unfold patchDesired. by rewrite lookup_alter_ne.
Qed.

Lemma cancelLoop_final refs : forall o ps, cancelledIn o ps ->
  objectsOf fst (cancelLoop api t refs o ps) !! name = Some c /\
  (forall o' ps', cancelLoop api t refs o ps = Ok (o', ps') -> cancelledIn o' ps').
Proof.
  induction refs as [|r refs IH]; intros o ps H; cbn [cancelLoop]; [split; [apply H|naive_solver]|].
  destruct (cached ps r) as [k|] eqn:Ec; [|by apply IH]. destruct (_ || _) eqn:Es; [by apply IH|].
  destruct (fp_patchFails _ _); [split; [apply H|done]|]. apply IH, patch_final; [done..|].
  apply orb_false_iff in Es as [_ Es]. by apply eqb_s_false in Es.
Qed.

Lemma fanOutLoop_final want refs : forall o ps, cancelledIn o ps ->
  objectsOf fst (fanOutLoop api t want refs o ps) !! name = Some c.
Proof.
  induction refs as [|r refs IH]; intros o ps H; cbn [fanOutLoop]; [apply H|].
  destruct (cached ps r) as [k|] eqn:Ec; [|by apply IH]. destruct (_ || _) eqn:Es; [by apply IH|].
  destruct (fp_patchFails _ _); [apply H|]. apply IH, patch_final; [done..|].
  apply orb_false_iff in Es as [_ Es]. by apply eqb_s_false in Es.
Qed.
End final.

Lemma prune_keeps_or_deletes api t o member ret name c : o !! name = Some c ->
  let o' := match pruneIterationChildren api t o member ret with Ok x => x | Err x => x end in
  o' !! name = Some c \/ o' !! name = None.
Proof.
  intros Hc. unfold pruneIterationChildren. destruct (fp_listFails api); [by left|]. cbv zeta.
  pose proof (deleteAll_objects api (pastWindow (List.filter isFailed (prunable t o member)) (KeepFailedChildren ret)) o name) as D1.
  destruct (deleteAll api _ o) as [o1|o1]; simpl in *; [|rewrite <- Hc; destruct D1 as [?|[? _]]; auto].
  pose proof (deleteAll_objects api (pastWindow (List.filter (fun kv => negb (isFailed kv)) (prunable t o member)) (KeepChildren ret)) o1 name) as D2.
  cbv zeta in D2. rewrite <- Hc. destruct D1 as [D1|[D1 _]], D2 as [D2|[D2 _]]; rewrite D2, ?D1; auto.
Qed.

Lemma settleLoop_keeps_or_deletes api t settled ps name c : forall status o, o !! name = Some c \/ o !! name = None ->
  let o' := objectsOf snd (settleLoop api t settled ps status o) in o' !! name = Some c \/ o' !! name = None.
Proof.
  induction settled as [|s settled IH]; intros status o Ho; cbn [settleLoop]; [done|]. cbv zeta.
  set (ret := effectiveRetention _).
  assert (Hp : let o' := match pruneIterationChildren api t o (is_AnchorMember s) ret with Ok x => x | Err x => x end in
    o' !! name = Some c \/ o' !! name = None).
  { destruct Ho as [Ho|Ho]; [by apply prune_keeps_or_deletes|]. right.
    pose proof (prune_evolves api t [] o (is_AnchorMember s) ret name) as He. rewrite Ho in He.
    inversion He as [|x y z Hs]; [done|]. inversion Hs as [r k Hr| |]. by apply not_elem_of_nil in Hr. }
  destruct (pruneIterationChildren _ _ _ _ _) as [o1|o1]; simpl in *; [by apply IH|done].
Qed.

(** Cancellation is final: a child whose desiredState is Cancelled when a pass starts is as it was when the
    pass ends, or deleted as an old terminal iteration; no desiredState of the task, and no other child's,
    lifts it. *)
Theorem cancellation_is_final api now t objects name c
  (Hc : objects !! name = Some c) (Hd : fc_Desired c = DesiredStateCancelled) :
  fr_objects (reconcileFlow api now t objects) !! name = Some c \/
  fr_objects (reconcileFlow api now t objects) !! name = None.
Proof.
  unfold reconcileFlow. case_match; [unfold patchStatus; case_match; by left|].
  destruct (Evaluate _ _) as [outcome eval]. cbv zeta. case_match; [by left|].
  assert (Hread : forall refs ps, cancelledIn t name c objects ps -> cancelledIn t name c objects (readAll api t objects refs ps)).
  { induction refs as [|r refs IH]; intros ps Hps; [done|]. apply IH. by apply readChild_final. }
  destruct (ensureLoop_final api now t name c Hd (ev_Ensure eval) objects (evaluated api now t objects)) as [H1 H2].
  { apply Hread. by split; [|intros r k Hk]. }
  destruct (ensureLoop _ _ _ _ _ _) as [[refused [o1 ps1]]|[e o1]]; simpl in H1; [|by left].
  destruct (cancelLoop_final api t name c (ev_Cancel eval) o1 ps1 (H2 _ _ _ eq_refl)) as [H3 H4].
  destruct (cancelLoop _ _ _ _ _) as [[o2 ps2]|[e o2]]; simpl in H3; [|by left].
  assert (H5 : objectsOf fst (fanOut api t o2 ps2) !! name = Some c).
  { unfold fanOut. case_match; [done|]. by apply fanOutLoop_final, H4. }
  destruct (fanOut _ _ _ _) as [[o3 ps3]|[e o3]]; simpl in H5; [|by left]. repeat case_match; simpl; try by left.
  unfold concludePass. pose proof (settleLoop_keeps_or_deletes api t (ev_Settled eval) ps3 name c
    (startIterations now (ev_StartIteration eval) (fl_Status t)) o3 (or_introl H5)) as Hs.
  destruct (settleLoop _ _ _ _ _ _) as [[status o4]|[e o4]]; simpl in *; [|done]. unfold patchStatus. by case_match.
Qed.

(** ** The status stays bounded *)

Definition recordsBounded (status : list FlowStatus) : Prop :=
  Forall (fun s => (length (ts_RecentIterations s) <= 100)%nat) status.

Lemma recordsBounded_update member f status : recordsBounded status ->
  (forall s, (length (ts_RecentIterations s) <= 100)%nat -> (length (ts_RecentIterations (f s)) <= 100)%nat) ->
  recordsBounded (updateStatus member f status).
Proof.
  intros H Hf. unfold updateStatus, ensureStatusIdx, recordsBounded in *.
  destruct (indexByMember status member) as [i|]; apply Forall_alter; try done.
  - intros s _. apply Hf.
  - apply Forall_app. split; [done|]. apply Forall_singleton. simpl. lia.
  - intros s _. apply Hf.
Qed.

Lemma lastN_bound {A} n (l : list A) : 0 <= n <= 100 -> (length l <= 101)%nat -> (length (lastN n l) <= 100)%nat.
Proof.
  intros Hn Hl. unfold lastN. rewrite int32_of_id by (unfold MaxInt32; lia).
  destruct (n <? Z.of_nat (length l)) eqn:E; z_bool; [rewrite length_drop; lia|lia].
Qed.

Lemma bind_ok {E A B} (a : result E A) (f : A -> result E B) : is_ok (let? x := a in f x) = true -> exists x, a = Ok x /\ is_ok (f x) = true.
Proof. destruct a as [x|]; [by exists x|done]. Qed.

Lemma validateLoop_retention members l : is_ok (validateLoop members l) = true -> validateRetention (l_Retention l) = Ok ().
Proof.
  destruct l as [mode times body until ir mi md ret]. unfold validateLoop. intros H.
  do 6 apply bind_ok in H as (? & _ & H). by apply bind_ok in H as ([] & H & _).
Qed.

Lemma firstSome_elem {A B} (f : A -> option B) l y : firstSome f l = Some y -> exists x, x ∈ l /\ f x = Some y.
Proof.
  induction l as [|x l IH]; simpl; [done|]. destruct (f x) eqn:E; [intros [= ->]; exists x; split; [by left|done]|].
  intros H. destruct (IH H) as (z & Hz & Hf). exists z. split; [by right|done].
Qed.

(** The loop found is one the validator has seen. *)
Lemma findLoopNode_valid members anchor l n : Forall (fun m => localOk members m = true) (nodesOf n) ->
  findLoopNode n anchor = Some l -> validateRetention (l_Retention l) = Ok ().
Proof.
  induction n as [n IH] using flow_ind. rewrite nodesOf_kids. intros [Hl Hks]%Forall_cons Hf.
  assert (Hkid : forall k, k ∈ kids n -> findLoopNode k anchor = Some l -> validateRetention (l_Retention l) = Ok ()).
  { intros k Hk. apply IH; [done|]. rewrite Forall_forall in Hks |- *. intros x Hx. apply Hks. by eapply elem_flat_map. }
  unfold localOk in Hl. apply andb_true_iff in Hl as [Hone Hl]. apply Z.leb_le in Hone.
  destruct n as [[m|] [|x seq] [[b j oj ob]|] [lp|] [[su cases dflt]|]]; cbn [nodeKinds isSome nonNil Z.b2z] in Hone; try lia;
    cbn [findLoopNode kids] in *; try done.
  - apply firstSome_elem in Hf as (k & Hk & Hf). by apply (Hkid k).
  - destruct lp as [mo ti body un ir mi md re] eqn:Elp. case_match; [simplify_eq; by apply validateLoop_retention in Hl|].
    apply (Hkid body); [by left|done].
  - case_match eqn:Ec; [|apply (Hkid dflt); [apply elem_of_app; right; by left|done]]. simplify_eq.
    apply firstSome_elem in Ec as ([eq ins rg pr wh tn] & Hk & Hc). apply (Hkid tn); [|done]. apply elem_of_app. left.
    apply list_elem_of_fmap. exists (mkSelectCase eq ins rg pr wh tn). by split.
  - apply firstSome_elem in Hf as (k & Hk & Hf). by apply (Hkid k).
Qed.

Lemma ValidateStructure_nodes root members : ValidateStructure root members = None -> Forall (fun m => localOk members m = true) (nodesOf root).
Proof.
  unfold ValidateStructure. pose proof (validateNode_accepts members root 1 0 ltac:(done)) as Ha.
  destruct (validateNode members root 1 0); [|done]. by intros _; apply Ha.
Qed.

Lemma effective_keep members root anchor : Forall (fun m => localOk members m = true) (nodesOf root) ->
  0 <= KeepIterationRecords (effectiveRetention (findLoopNode root anchor)) <= 100.
Proof.
  intros H. unfold effectiveRetention. destruct (findLoopNode root anchor) as [l|] eqn:El; simpl; [|lia].
  pose proof (findLoopNode_valid _ _ _ _ H El) as Hv. destruct (l_Retention l) as [ret|]; simpl in *; [|lia].
  unfold require in Hv. destruct (negb _) eqn:E1 in Hv; [|done]. apply negb_true_iff, orb_false_iff in E1 as [E1 E2]. z_bool.
  destruct (KeepIterationRecords ret =? 0); lia.
Qed.

Lemma settleLoop_bounded api t settled ps members : Forall (fun m => localOk members m = true) (nodesOf (fl_Flow t)) ->
  forall status o status' o', recordsBounded status -> settleLoop api t settled ps status o = Ok (status', o') -> recordsBounded status'.
Proof.
  intros Hv. induction settled as [|s settled IH]; intros status o status' o' Hb; cbn [settleLoop]; [naive_solver|]. cbv zeta.
  destruct (pruneIterationChildren _ _ _ _ _) as [o1|]; [|done]. apply IH. apply recordsBounded_update; [done|].
  intros st Hst. simpl. apply lastN_bound; [by eapply effective_keep|]. rewrite length_app. simpl. lia.
Qed.

Lemma startIterations_bounded now starts status : recordsBounded status -> recordsBounded (startIterations now starts status).
Proof.
  unfold startIterations. revert status. induction (map_to_list starts) as [|[a n] l IH]; intros status H; simpl; [done|].
  apply IH. by apply recordsBounded_update.
Qed.

Lemma projectStatus_bounded t ps status : recordsBounded status -> recordsBounded (projectStatus t ps status).
Proof.
  unfold projectStatus. revert status. induction (fl_Members t) as [|m l IH]; intros status H; simpl; [done|]. apply IH.
  unfold projectMember, ensureStatusIdx. destruct (indexByMember status (fm_Name m)) as [i|].
  - case_match; [|done]. by apply Forall_alter.
  - assert (Hn : recordsBounded (status ++ [newStatus (fm_Name m)])) by (apply Forall_app; split; [done|]; by apply Forall_singleton; simpl; lia).
    case_match; [|done]. by apply Forall_alter.
Qed.

(** The status stays bounded: if no entry of status.actions holds more than a hundred iteration records
    when a pass starts, none does when it ends, however long a loop has run and whatever the API server
    answers. *)
Theorem iteration_records_bounded api now t objects (Hb : recordsBounded (fl_Status t)) :
  recordsBounded (fl_Status (fr_task (reconcileFlow api now t objects))).
Proof.
  unfold reconcileFlow. case_match eqn:Ev; [unfold patchStatus; by case_match|]. apply ValidateStructure_nodes in Ev.
  destruct (Evaluate _ _) as [outcome eval]. cbv zeta. repeat case_match; try done. unfold concludePass.
  destruct (settleLoop _ _ _ _ _ _) as [[status o4]|[e o4]] eqn:Es; [|done].
  unfold patchStatus. case_match; [done|]. simpl. apply projectStatus_bounded. eapply settleLoop_bounded; [exact Ev| |exact Es].
  by apply startIterations_bounded.
Qed.

(** ** Parameter bindings *)

Lemma resolve_names api t objects bs iter : forall ps, pe_Name <$> fst (resolveMemberBindings api t objects bs iter ps) = bs.*1.
Proof.
  induction bs as [|[name b] bs IH]; intros ps; simpl; [done|].
  assert (Hn : forall ps, pe_Name (fst (resolveOneMemberBinding api t objects name b iter ps)) = name).
  { intros ps0. unfold resolveOneMemberBinding, bindingFrom, missed, found. repeat case_match; simplify_eq/=; done. }
  specialize (Hn ps). destruct (resolveOneMemberBinding _ _ _ _ _ _ _) as [e ps1]. specialize (IH ps1).
  destruct (resolveMemberBindings _ _ _ _ _ _) as [es ps2]. cbn [fst] in *. rewrite fmap_cons, Hn. f_equal. exact IH.
Qed.

(** Every entry says what it resolved to, or why it did not. *)
Lemma resolve_accounts api t objects bs iter : forall ps,
  Forall (fun e => pe_Value e = None <-> pe_Reason e <> None) (fst (resolveMemberBindings api t objects bs iter ps)).
Proof.
  induction bs as [|[name b] bs IH]; intros ps; simpl; [constructor|].
  assert (Hn : forall ps, let e := fst (resolveOneMemberBinding api t objects name b iter ps) in pe_Value e = None <-> pe_Reason e <> None).
  { intros ps0. unfold resolveOneMemberBinding, bindingFrom, missed, found. repeat case_match; simplify_eq/=; done. }
  specialize (Hn ps). destruct (resolveOneMemberBinding _ _ _ _ _ _ _) as [e ps1]. specialize (IH ps1).
  destruct (resolveMemberBindings _ _ _ _ _ _) as [es ps2]. simpl in *. by constructor.
Qed.

Lemma memberBindings_names params name :
  name ∈ (memberBindings (Some params)).*1 <-> exists b, params !! name = Some b /\ is_Some (pb_FromMember b).
Proof.
  unfold memberBindings. simpl. rewrite list_elem_of_fmap. setoid_rewrite list_elem_of_omap. split.
  - intros ([n mb] & -> & n' & _ & Hn). simpl. destruct (params !! n') as [b|] eqn:Eb; simpl in Hn; [|done].
    destruct (pb_FromMember b) eqn:Em; simplify_eq/=. exists b. split; [done|by eexists].
  - intros (b & Hb & mb & Hm). exists (name, mb). split; [done|]. exists name. rewrite elem_of_sort_Strings, elem_of_elements, elem_of_dom.
    rewrite Hb. simpl. by rewrite Hm.
Qed.

Lemma memberBindings_nodup params : NoDup (memberBindings params).*1.
Proof.
  unfold memberBindings. set (f := fun name => _). set (l := sort_Strings _).
  assert (Hl : NoDup l) by (unfold l; rewrite sort_Strings_perm; apply NoDup_elements).
  assert (Hf : forall n x, f n = Some x -> x.1 = n) by (intros n x Hx; unfold f in Hx; destruct (default ∅ params !! n ≫= pb_FromMember); by simplify_eq/=).
  clearbody f l. induction l as [|n l IH]; simpl; [constructor|]. apply NoDup_cons in Hl as [H1 H2]. specialize (IH H2).
  destruct (f n) as [x|] eqn:E; [|done]. apply NoDup_cons. split; [|done]. rewrite (Hf _ _ E).
  intros (y & Hy & Hin)%list_elem_of_fmap. apply list_elem_of_omap in Hin as (n' & Hn' & Ey). apply H1. by rewrite Hy, (Hf _ _ Ey).
Qed.

(** The literal a binding becomes. *)
Definition literal (v : string) : ParameterBinding := mkParameterBinding (Some v) None None None.

Lemma materialise_lookup es name : forall ps, NoDup (pe_Name <$> es) ->
  default ∅ (materialiseMemberBindings (Some ps) es) !! name =
  match List.find (fun e => pe_Name e =s name) es ≫= pe_Value with Some v => Some (literal v) | None => ps !! name end.
Proof.
  unfold materialiseMemberBindings. simpl. induction es as [|e es IH]; intros ps Hnd; simpl; [done|].
  rewrite fmap_cons in Hnd. apply NoDup_cons in Hnd as [H1 H2]. rewrite IH by done.
  destruct (String.eqb_spec (pe_Name e) name) as [<-|Hne].
  - assert (Hn : List.find (fun e' => pe_Name e' =s pe_Name e) es = None).
    { destruct (List.find _ es) as [x|] eqn:Ef; [|done]. apply List.find_some in Ef as [Hin Heq]. apply eqb_s_true in Heq.
      exfalso. apply H1. rewrite <- Heq. apply list_elem_of_fmap_2. by apply list_elem_of_In. }
    rewrite Hn. simpl. destruct (pe_Value e); simpl; [by rewrite lookup_insert_eq|done].
  - destruct (pe_Value e); [|done]. by rewrite lookup_insert_ne.
Qed.

(** Parameter bindings are pinned and accounted for: when a child is created, each of its fromMember bindings
    gets one entry, which holds a value or the reason there is none; the bindings that resolved become
    literals of that value, and every other parameter of the child stays as the task declares it. *)
Theorem bindings_are_pinned api t objects params iter ps :
  let es := fst (resolveMemberBindings api t objects (memberBindings (Some params)) iter ps) in
  let params' := default ∅ (materialiseMemberBindings (Some params) es) in
  NoDup (pe_Name <$> es) /\
  (forall name, name ∈ pe_Name <$> es <-> exists b, params !! name = Some b /\ is_Some (pb_FromMember b)) /\
  (forall e, e ∈ es -> (pe_Value e = None <-> pe_Reason e <> None)) /\
  (forall e v, e ∈ es -> pe_Value e = Some v -> params' !! pe_Name e = Some (literal v)) /\
  (forall name, (forall e, e ∈ es -> pe_Name e = name -> pe_Value e = None) -> params' !! name = params !! name).
Proof.
  intros es params'.
  assert (Hnames : pe_Name <$> es = (memberBindings (Some params)).*1) by apply resolve_names.
  assert (Hnd : NoDup (pe_Name <$> es)) by (rewrite Hnames; apply memberBindings_nodup).
  split_and!; [done| | | |].
  - intros name. rewrite Hnames. apply memberBindings_names.
  - intros e He. pose proof (resolve_accounts api t objects (memberBindings (Some params)) iter ps) as Ha.
    rewrite Forall_forall in Ha. by apply Ha.
  - intros e v He Hv. unfold params'. rewrite materialise_lookup by done.
    destruct (List.find (fun e' => pe_Name e' =s pe_Name e) es) as [x|] eqn:Ef.
    + apply List.find_some in Ef as [Hin Heq]. apply eqb_s_true in Heq. rewrite <- list_elem_of_In in Hin.
      assert (Hx : x = e).
      { apply list_elem_of_lookup in He as [i Hi], Hin as [j Hj].
        assert (Hij : j = i) by (eapply (NoDup_lookup _ j i); [exact Hnd|by rewrite list_lookup_fmap, Hj|rewrite list_lookup_fmap, Hi; simpl; by rewrite Heq]).
        subst. congruence. }
      subst x. simpl. by rewrite Hv.
    + exfalso. apply list_elem_of_In, (List.find_none _ _ Ef) in He. by rewrite eqb_s_refl in He.
  - intros name Hall. unfold params'. rewrite materialise_lookup by done.
    destruct (List.find (fun e => pe_Name e =s name) es) as [x|] eqn:Ef; [|done].
    apply List.find_some in Ef as [Hin Heq]. apply eqb_s_true in Heq. simpl. rewrite (Hall x); [done|by apply list_elem_of_In|done].
Qed.

(** ** Witnesses *)

(** Three finished iterations of a patrol, one failed, and the fourth due; the retention keeps one of each. *)
Definition finishedAt (phase : ActionPhase) (at_ : Time) : FlowChild :=
  mkFlowChild (mkFleetAction true plainSpec "Running" phase "" true 9) "t" "a" None at_ None "r1" None [] 0 [].
Definition patrolObjects : FlowObjects :=
  <["t-a-i1" := finishedAt ActionPhaseSucceeded 1]> (<["t-a-i2" := finishedAt ActionPhaseFailed 2]>
  (<["t-a-i3" := finishedAt ActionPhaseSucceeded 3]> ∅)).
Definition patrolTask (status : list FlowStatus) : FlowTask :=
  mkFlowTask "t" [plainMember "a"] (timesNode 9 (runNode "a") (Some (mkRetention 1 1 1))) "Running" FleetTaskPhaseRunning status (Some 1) None.

Lemma prune_keeps_newest_witness :
  exists objects', pruneIterationChildren flowApiOk (patrolTask []) patrolObjects "a" (mkRetention 1 1 1) = Ok objects' /\
  objects' !! "t-a-i1" = None /\
  exists kept, length kept = 1%nat /\ NoDup kept.*1 /\
    forall n k, (n, k) ∈ kept -> objects' !! n = Some k /\ sameKind k (finishedAt ActionPhaseSucceeded 1) /\ fc_Member k = "a" /\ 1 <= fc_Created k.
Proof.
  eexists. split; [reflexivity|]. split; [vm_compute; reflexivity|].
  match goal with |- exists kept, _ /\ _ /\ forall n k, _ -> ?o !! n = _ /\ _ =>
    destruct (prune_keeps_newest flowApiOk (patrolTask []) patrolObjects "a" (mkRetention 1 1 1) o "t-a-i1" (finishedAt ActionPhaseSucceeded 1)
      eq_refl ltac:(done) ltac:(done) ltac:(vm_compute; done) eq_refl) as [H|(_ & _ & _ & _ & _ & kept & H1 & H2 & H3)] end.
  - exfalso. vm_compute in H. discriminate H.
  - by exists kept.
Defined.

Lemma children_follow_the_counter_witness :
  let t := patrolTask [loopStatus "a" 4 3] in
  is_Some (fr_objects (reconcileFlow flowApiOk 9 t patrolObjects) !! "t-a-i4") /\
  exists r, "t-a-i4" = nameOf t r /\ committed t (ref_Iteration r).
Proof.
  split; [vm_compute; by eexists|].
  eapply (children_follow_the_counter flowApiOk 9 (patrolTask [loopStatus "a" 4 3]) patrolObjects "t-a-i4"); vm_compute; reflexivity.
Defined.

Definition cancelledChild : FlowChild := childDesired (flowChildIn ActionPhaseInProgress "b") DesiredStateCancelled.

Lemma cancellation_is_final_witness :
  let t := mkFlowTask "t" [plainMember "b"] (runNode "b") "Paused" FleetTaskPhaseRunning [] (Some 1) None in
  let r := reconcileFlow flowApiOk 9 t (<["t-b" := cancelledChild]> ∅) in
  fr_objects r !! "t-b" = Some cancelledChild \/ fr_objects r !! "t-b" = None.
Proof. apply cancellation_is_final; vm_compute; reflexivity. Defined.

Lemma iteration_records_bounded_witness :
  recordsBounded (fl_Status (fr_task (reconcileFlow flowApiOk 9 (patrolTask [loopStatus "a" 3 2]) patrolObjects))) /\
  (ts_Iteration <$> fl_Status (fr_task (reconcileFlow flowApiOk 9 (patrolTask [loopStatus "a" 3 2]) patrolObjects))) = [4].
Proof.
  split; [|vm_compute; reflexivity]. apply iteration_records_bounded. apply Forall_singleton. simpl. lia.
Defined.
