(* ===== verification/ZoneGeometry.v ===== *)
(** Spatial containment (src/internal/zone/geometry.go and simple_polygon.go) and the geometry state of a
    zone (src/internal/zonegeometry/state.go), over IEEE binary64 with every operation rounded on its own
    (as on amd64, which fuses none). *)

From S2P Require Import Prelude.
From S2P Require Import Types.

(** ** float64 arithmetic *)

Definition fadd (a b : float64) : float64 := SFadd 53 1024 a b.
Definition fsub (a b : float64) : float64 := SFsub 53 1024 a b.
Definition fmul (a b : float64) : float64 := SFmul 53 1024 a b.
Definition fdiv (a b : float64) : float64 := SFdiv 53 1024 a b.
Definition isNaN (a : float64) : bool := match a with S754_nan => true | _ => false end.
Definition fzero : float64 := S754_zero false.

(** [a > b], [a >= b] and [a != b] of Go: false, false and true on a NaN. *)
Definition fgt (a b : float64) : bool := SFltb b a.
Definition fge (a b : float64) : bool := SFleb b a.
Definition fne (a b : float64) : bool := negb (SFeqb a b).

(** The builtins [min] and [max]: a NaN wins, and -0 is below 0. *)
Definition fmin (a b : float64) : float64 :=
  if isNaN a || isNaN b then S754_nan
  else if SFeqb a b then match a with S754_zero false => b | _ => a end
  else if SFltb a b then a else b.
Definition fmax (a b : float64) : float64 :=
  if isNaN a || isNaN b then S754_nan
  else if SFeqb a b then match a with S754_zero true => b | _ => a end
  else if SFltb a b then b else a.

(** An int as a float64. *)
Definition floatOf (n : nat) : float64 := binary_normalize 53 1024 (Z.of_nat n) 0 false.

(** ** Containment (geometry.go) *)

Record Point := mkPoint { pt_X : float64; pt_Y : float64 }.
Record Position := mkPosition { po_X : float64; po_Y : float64; po_Floor : Z }.

Record Candidate := mkCandidate {
  ca_Name : string;
  ca_Floor : Z;
  ca_Polygon : list Point;
  ca_IsLeaf : bool;
  ca_Depth : Z;
  ca_DeniesEntry : bool
}.

Definition orientation (p q r : Point) : float64 :=
  fsub (fmul (fsub (pt_X q) (pt_X p)) (fsub (pt_Y r) (pt_Y p))) (fmul (fsub (pt_Y q) (pt_Y p)) (fsub (pt_X r) (pt_X p))).

Definition onSegment (px py : float64) (a b : Point) : bool :=
  let cross := fsub (fmul (fsub (pt_X b) (pt_X a)) (fsub py (pt_Y a))) (fmul (fsub (pt_Y b) (pt_Y a)) (fsub px (pt_X a))) in
  if fne cross fzero then false
  else fge px (fmin (pt_X a) (pt_X b)) && SFleb px (fmax (pt_X a) (pt_X b)) &&
       fge py (fmin (pt_Y a) (pt_Y b)) && SFleb py (fmax (pt_Y a) (pt_Y b)).

(** Whether the ray from (x, y) crosses the edge from [b] (the vertex before) to [a]. *)
Definition crosses (x y : float64) (a b : Point) : bool :=
  if Bool.eqb (fgt (pt_Y a) y) (fgt (pt_Y b) y) then false
  else SFltb x (fadd (fdiv (fmul (fsub (pt_X b) (pt_X a)) (fsub y (pt_Y a))) (fsub (pt_Y b) (pt_Y a))) (pt_X a)).

(** The loop, with the vertex before. *)
Fixpoint castRay (x y : float64) (before : Point) (poly : list Point) (inside : bool) : bool :=
  match poly with
  | [] => inside
  | p :: poly =>
      if onSegment x y p before then true
      else castRay x y p poly (if crosses x y p before then negb inside else inside)
  end.

Definition PointInPolygon (x y : float64) (poly : list Point) : bool :=
  if (length poly <? 3)%nat then false
  else match last poly with Some p => castRay x y p poly false | None => false end.

Definition polygonWithin (inner outer : list Point) : bool :=
  forallb (fun p => PointInPolygon (pt_X p) (pt_Y p) outer) inner && (0 <? length inner)%nat.

Definition centroidSqDist (z : Candidate) (pos : Position) : float64 :=
  match ca_Polygon z with
  | [] => fzero
  | poly =>
      let '(cx, cy) := fold_left (fun c p => (fadd (fst c) (pt_X p), fadd (snd c) (pt_Y p))) poly (fzero, fzero) in
      let n := floatOf (length poly) in
      let dx := fsub (fdiv cx n) (po_X pos) in
      let dy := fsub (fdiv cy n) (po_Y pos) in
      fadd (fmul dx dx) (fmul dy dy)
  end.

(** The leaves with an entry denial that lie inside another leaf, [before] already passed. *)
Fixpoint nestedIn (before leaves : list Candidate) : list Candidate :=
  match leaves with
  | [] => []
  | d :: leaves =>
      let rest := nestedIn (before ++ [d]) leaves in
      if ca_DeniesEntry d && existsb (fun o => polygonWithin (ca_Polygon d) (ca_Polygon o)) (before ++ leaves) then d :: rest else rest
  end.

Definition preferNestedDenials (leaves : list Candidate) : list Candidate :=
  match nestedIn [] leaves with [] => leaves | nested => nested end.

Definition matches (pos : Position) (z : Candidate) : bool :=
  negb ((length (ca_Polygon z) <? 3)%nat || negb (ca_Floor z =? po_Floor pos)) && PointInPolygon (po_X pos) (po_Y pos) (ca_Polygon z).

Definition nearer (pos : Position) (best : Candidate) (z : Candidate) : Candidate :=
  let d := centroidSqDist z pos in
  let bestDist := centroidSqDist best pos in
  if SFltb d bestDist || (SFeqb d bestDist && (ca_Name z <s ca_Name best)) then z else best.

Definition deeper (best z : Candidate) : Candidate :=
  if (ca_Depth best <? ca_Depth z) || ((ca_Depth z =? ca_Depth best) && (ca_Name z <s ca_Name best)) then z else best.

Definition DeriveCurrentZone (pos : Position) (zones : list Candidate) : string :=
  match List.filter (matches pos) zones with
  | [] => ""
  | [z] => ca_Name z
  | (z :: zs) as matched =>
      match preferNestedDenials (List.filter ca_IsLeaf matched) with
      | best :: leaves => ca_Name (fold_left (nearer pos) leaves best)
      | [] => ca_Name (fold_left deeper zs z)
      end
  end.

Definition DeriveContainingZones (pos : Position) (zones : list Candidate) : list string :=
  sort_Strings (ca_Name <$> List.filter (matches pos) zones).

(** ** Simple polygons (simple_polygon.go) *)

Definition segmentsIntersect (a1 a2 b1 b2 : Point) : bool :=
  let d1 := orientation b1 b2 a1 in
  let d2 := orientation b1 b2 a2 in
  let d3 := orientation a1 a2 b1 in
  let d4 := orientation a1 a2 b2 in
  let opposite (d e : float64) := (fgt d fzero && SFltb e fzero) || (SFltb d fzero && fgt e fzero) in
  (opposite d1 d2 && opposite d3 d4) ||
  (SFeqb d1 fzero && onSegment (pt_X a1) (pt_Y a1) b1 b2) ||
  (SFeqb d2 fzero && onSegment (pt_X a2) (pt_Y a2) b1 b2) ||
  (SFeqb d3 fzero && onSegment (pt_X b1) (pt_Y b1) a1 a2) ||
  (SFeqb d4 fzero && onSegment (pt_X b2) (pt_Y b2) a1 a2).

Definition edgesAdjacent (i j n : nat) : bool := (j =? S i)%nat || ((i =? 0)%nat && (j =? n - 1)%nat).

(** The edge that starts at vertex [i]. *)
Definition edge (poly : list Point) (i : nat) : Point * Point :=
  let o := mkPoint fzero fzero in (nth i poly o, nth (S i mod length poly) poly o).

Definition SelfIntersects (poly : list Point) : bool :=
  let n := length poly in
  if (n <? 4)%nat then false
  else existsb (fun i => existsb (fun j =>
         negb (edgesAdjacent i j n) &&
         segmentsIntersect (fst (edge poly i)) (snd (edge poly i)) (fst (edge poly j)) (snd (edge poly j)))
         (seq (S i) (n - S i))) (seq 0 n).

(** ** Geometry state (state.go) *)

Definition ZoneGeometryAbsent : string := "Absent".
Definition ZoneGeometryFrameLocal : string := "FrameLocal".
Definition ZoneGeometryContainment : string := "Containment".
Definition FrameFrameLocal : string := "FrameLocal".

Record CoordinateFrame := mkFrame { cf_ID : string; cf_Alignment : string }.
Record PhysicalBounds := mkPhysicalBounds { pb_Frame : option CoordinateFrame; pb_Floor : Z; pb_Polygon : list Point }.

Definition IsComposite (memberZones : list string) : bool := match memberZones with [] => false | _ => true end.

(** StateOf, over spec.physicalBounds and spec.memberZones. *)
Definition StateOf (bounds : option PhysicalBounds) (memberZones : list string) : string * string :=
  match bounds with
  | None => (ZoneGeometryAbsent, "")
  | Some pb =>
      if match pb_Polygon pb with [] => true | _ => false end || IsComposite memberZones then (ZoneGeometryAbsent, "")
      else match pb_Frame pb with
           | None => (ZoneGeometryContainment, "")
           | Some f => if cf_Alignment f =s FrameFrameLocal then (ZoneGeometryFrameLocal, cf_ID f) else (ZoneGeometryContainment, cf_ID f)
           end
  end.

(** ** The order of floats *)

(** A float that is not a NaN, as a place in a lexicographic order: its class, its exponent, its mantissa. *)
Definition place (x : float64) : Z * Z * Z :=
  match x with
  | S754_nan => (0, 0, 0)
  | S754_zero _ => (0, 0, 0)
  | S754_infinity s => (if s then -2 else 2, 0, 0)
  | S754_finite s m e => if s then (-1, - e, - Zpos m) else (1, e, Zpos m)
  end.
Definition below (a b : Z * Z * Z) : Prop :=
  a.1.1 < b.1.1 \/ a.1.1 = b.1.1 /\ (a.1.2 < b.1.2 \/ a.1.2 = b.1.2 /\ a.2 < b.2).

Ltac by_place :=
  let H := fresh in simpl; split; intros H; try discriminate H; try reflexivity; try (simplify_eq; exfalso; lia); try (exfalso; lia);
  try (by simplify_eq); try lia; try (f_equal; lia).

Lemma SFltb_place x y : isNaN x = false -> isNaN y = false -> SFltb x y = true <-> below (place x) (place y).
Proof.
  intros Hx Hy. unfold SFltb, below. destruct x as [s|s| |s m e], y as [s'|s'| |s' m' e']; try done; try destruct s; try destruct s';
    cbn [SFcompare place fst snd]; try solve [by_place];
    fold (Pos.compare m m'); destruct (Z.compare_spec e e'), (Pos.compare_spec m m'); by_place.
Qed.

Lemma SFeqb_place x y : isNaN x = false -> isNaN y = false -> SFeqb x y = true <-> place x = place y.
Proof.
  intros Hx Hy. unfold SFeqb. destruct x as [s|s| |s m e], y as [s'|s'| |s' m' e']; try done; try destruct s; try destruct s';
    cbn [SFcompare place]; try solve [by_place];
    fold (Pos.compare m m'); destruct (Z.compare_spec e e'), (Pos.compare_spec m m'); subst; by_place.
Qed.

(** ** The best of some zones *)

Section best.
Context (lt : Candidate -> Candidate -> bool) (Q : Candidate -> Prop).
Hypothesis lt_irrefl : forall a, lt a a = false.
Hypothesis lt_trans : forall a b c, Q a -> Q b -> Q c -> lt a b = true -> lt b c = true -> lt a c = true.
Hypothesis lt_total : forall a b, Q a -> Q b -> lt a b = false -> lt b a = false -> ca_Name a = ca_Name b.

Definition pick (best z : Candidate) : Candidate := if lt z best then z else best.

Lemma pick_elem l : forall best, fold_left pick l best ∈ best :: l.
Proof.
  induction l as [|z l IH]; intros best; simpl; [by left|]. specialize (IH (pick best z)).
  assert (Hz : pick best z = z \/ pick best z = best) by (unfold pick; destruct (lt z best); auto).
  destruct Hz as [E|E]; rewrite E in *; [by right|]. apply elem_of_cons in IH as [->|IH]; [by left|by right; right].
Qed.

(** Nothing beats the pick: what beat it would beat the one it was preferred to. *)
Lemma pick_best l : forall best, Forall Q (best :: l) -> forall z, z ∈ best :: l -> lt z (fold_left pick l best) = false.
Proof.
  induction l as [|y l IH] using rev_ind; intros best HQ z Hz; simpl; [apply list_elem_of_singleton in Hz as ->; apply lt_irrefl|].
  rewrite fold_left_app. simpl. set (r := fold_left pick l best).
  assert (HQ' : Forall Q (best :: l)) by (rewrite app_comm_cons in HQ; by apply Forall_app in HQ as [? _]).
  assert (Hr : r ∈ best :: l) by apply pick_elem. rewrite Forall_forall in HQ.
  rewrite app_comm_cons in HQ. assert (HQr : Q r) by (apply HQ, elem_of_app; by left).
  assert (HQy : Q y) by (apply HQ, elem_of_app; right; by left). rewrite app_comm_cons in Hz. assert (HQz : Q z) by by apply HQ.
  unfold pick. destruct (lt y r) eqn:Ey; apply elem_of_app in Hz as [Hz|Hz%list_elem_of_singleton].
  - destruct (lt z y) eqn:Ez; [|done]. pose proof (IH best HQ' z Hz) as Hn. fold r in Hn. by rewrite (lt_trans z y r) in Hn.
  - subst. apply lt_irrefl.
  - by apply IH.
  - by subst.
Qed.

(** The pick does not depend on the order. *)
Lemma pick_perm b l b' l' : b :: l ≡ₚ b' :: l' -> Forall Q (b :: l) -> ca_Name (fold_left pick l b) = ca_Name (fold_left pick l' b').
Proof.
  intros Hp HQ. assert (HQ' : Forall Q (b' :: l')) by by rewrite <- Hp. pose proof HQ as HQf. rewrite Forall_forall in HQf.
  pose proof (pick_elem l b) as H1. pose proof (pick_elem l' b') as H2. pose proof H2 as H2'. rewrite <- Hp in H2'.
  apply lt_total; [by apply HQf|by apply HQf| |].
  - apply pick_best; [done|]. by rewrite <- Hp.
  - by apply pick_best.
Qed.
End best.

Definition nearerThan (pos : Position) (z best : Candidate) : bool :=
  SFltb (centroidSqDist z pos) (centroidSqDist best pos) ||
  (SFeqb (centroidSqDist z pos) (centroidSqDist best pos) && (ca_Name z <s ca_Name best)).
Definition deeperThan (z best : Candidate) : bool :=
  (ca_Depth best <? ca_Depth z) || ((ca_Depth z =? ca_Depth best) && (ca_Name z <s ca_Name best)).

(** The distance is a number. *)
Definition measured (pos : Position) (z : Candidate) : Prop := isNaN (centroidSqDist z pos) = false.

Lemma nearerThan_irrefl pos a : nearerThan pos a a = false.
Proof.
  unfold nearerThan. rewrite string_ltb_irrefl, andb_false_r, orb_false_r. destruct (isNaN (centroidSqDist a pos)) eqn:E.
  - by destruct (centroidSqDist a pos).
  - apply not_true_is_false. rewrite SFltb_place by done. unfold below. lia.
Qed.

Lemma nearerThan_place pos a b : measured pos a -> measured pos b ->
  nearerThan pos a b = true <-> below (place (centroidSqDist a pos)) (place (centroidSqDist b pos)) \/
    place (centroidSqDist a pos) = place (centroidSqDist b pos) /\ (ca_Name a <s ca_Name b) = true.
Proof. intros Ha Hb. unfold nearerThan. by rewrite orb_true_iff, andb_true_iff, SFltb_place, SFeqb_place. Qed.

Lemma nearerThan_trans pos a b c : measured pos a -> measured pos b -> measured pos c ->
  nearerThan pos a b = true -> nearerThan pos b c = true -> nearerThan pos a c = true.
Proof.
  intros Ha Hb Hc. rewrite !nearerThan_place by done. unfold below.
  intros [H1|[H1 N1]] [H2|[H2 N2]]; [left; lia|left; rewrite <- H2; lia|left; rewrite H1; lia|right].
  split; [congruence|by eapply string_ltb_trans].
Qed.

Lemma nearerThan_total pos a b : measured pos a -> measured pos b ->
  nearerThan pos a b = false -> nearerThan pos b a = false -> ca_Name a = ca_Name b.
Proof.
  intros Ha Hb H1 H2. apply not_true_iff_false in H1, H2. rewrite nearerThan_place in H1, H2 by done.
  assert (He : place (centroidSqDist a pos) = place (centroidSqDist b pos)).
  { destruct (place (centroidSqDist a pos)) as [[x1 x2] x3], (place (centroidSqDist b pos)) as [[y1 y2] y3]. unfold below in *. simpl in *.
    f_equal; [f_equal|]; lia. }
  apply string_ltb_total; apply not_true_is_false; intros Hn; [apply H1|apply H2]; by right.
Qed.

Lemma deeperThan_spec a b : deeperThan a b = true <-> ca_Depth b < ca_Depth a \/ ca_Depth a = ca_Depth b /\ (ca_Name a <s ca_Name b) = true.
Proof. unfold deeperThan. by rewrite orb_true_iff, andb_true_iff, Z.ltb_lt, Z.eqb_eq. Qed.

Lemma deeperThan_irrefl a : deeperThan a a = false.
Proof. apply not_true_is_false. rewrite deeperThan_spec, string_ltb_irrefl. intros [?|[_ ?]]; [lia|done]. Qed.

Lemma deeperThan_trans a b c : deeperThan a b = true -> deeperThan b c = true -> deeperThan a c = true.
Proof.
  rewrite !deeperThan_spec. intros [H1|[H1 N1]] [H2|[H2 N2]]; [left; lia|left; lia|left; lia|right].
  split; [congruence|by eapply string_ltb_trans].
Qed.

Lemma deeperThan_total a b : deeperThan a b = false -> deeperThan b a = false -> ca_Name a = ca_Name b.
Proof.
  intros H1 H2. apply not_true_iff_false in H1, H2. rewrite deeperThan_spec in H1, H2.
  assert (He : ca_Depth a = ca_Depth b) by lia.
  apply string_ltb_total; apply not_true_is_false; intros Hn; [apply H1|apply H2]; by right.
Qed.

(** ** What DeriveCurrentZone answers *)

Lemma nested_sub before leaves d : d ∈ nestedIn before leaves -> d ∈ leaves /\ ca_DeniesEntry d = true.
Proof.
  revert before. induction leaves as [|x leaves IH]; intros before; simpl; [by intros ?%not_elem_of_nil|].
  destruct (ca_DeniesEntry x && _) eqn:E.
  - apply andb_true_iff in E as [E _]. intros [->|Hd]%elem_of_cons; [split; [by left|done]|]. destruct (IH _ Hd). split; [by right|done].
  - intros Hd. destruct (IH _ Hd). split; [by right|done].
Qed.

Lemma preferNested_sub leaves d : d ∈ preferNestedDenials leaves -> d ∈ leaves.
Proof.
  unfold preferNestedDenials. destruct (nestedIn [] leaves) as [|x l] eqn:E; [done|]. rewrite <- E. intros Hd. by apply nested_sub in Hd as [? _].
Qed.

Definition matched (pos : Position) (zones : list Candidate) : list Candidate := List.filter (matches pos) zones.
Definition preferred (pos : Position) (zones : list Candidate) : list Candidate := preferNestedDenials (List.filter ca_IsLeaf (matched pos zones)).

(** Several zones match and there is a preferred leaf: one of those is answered. *)
Lemma derived_preferred pos zones : (2 <= length (matched pos zones))%nat -> preferred pos zones <> [] ->
  exists z, z ∈ preferred pos zones /\ DeriveCurrentZone pos zones = ca_Name z.
Proof.
  intros Hl Hp. unfold DeriveCurrentZone. fold (matched pos zones). unfold preferred in *.
  destruct (matched pos zones) as [|z [|z' zs]]; simpl in Hl; [lia|lia|].
  destruct (preferNestedDenials _) as [|best leaves]; [done|]. exists (fold_left (nearer pos) leaves best).
  split; [apply (pick_elem (nearerThan pos))|done].
Qed.

(** The zone that is answered is one that matches. *)
Lemma derived_matched pos zones : matched pos zones <> [] ->
  exists z, z ∈ matched pos zones /\ DeriveCurrentZone pos zones = ca_Name z.
Proof.
  intros Hne. pose proof (derived_preferred pos zones) as Hp. unfold preferred in Hp. unfold DeriveCurrentZone in *. fold (matched pos zones) in *.
  destruct (matched pos zones) as [|z [|z' zs]]; [done|exists z; split; [by left|done]|].
  destruct (preferNestedDenials _) as [|best leaves] eqn:Ep.
  - exists (fold_left deeper (z' :: zs) z). split; [apply (pick_elem deeperThan)|done].
  - destruct Hp as (w & Hw & ->); [simpl; lia|done|]. exists w. split; [|done]. rewrite <- Ep in Hw. apply preferNested_sub in Hw.
    apply list_elem_of_In, filter_In in Hw as [Hw _]. by apply list_elem_of_In.
Qed.

(** The current zone is one that contains the robot: DeriveCurrentZone answers no zone exactly when
    DeriveContainingZones is empty, and otherwise one of its members. *)
Theorem DeriveCurrentZone_contains pos zones (Hnames : Forall (fun z => ca_Name z <> "") zones) :
  (DeriveCurrentZone pos zones = "" <-> DeriveContainingZones pos zones = []) /\
  (DeriveContainingZones pos zones <> [] -> DeriveCurrentZone pos zones ∈ DeriveContainingZones pos zones).
Proof.
  rewrite Forall_forall in Hnames.
  assert (Hempty : DeriveContainingZones pos zones = [] <-> matched pos zones = []).
  { unfold DeriveContainingZones. fold (matched pos zones). split; intros H.
    - destruct (matched pos zones) as [|z l]; [done|]. pose proof (sort_Strings_perm (ca_Name <$> z :: l)) as Hp.
      rewrite H in Hp. by apply Permutation_nil_cons in Hp.
    - by rewrite H. }
  rewrite Hempty. split.
  - split; intros H; [|unfold DeriveCurrentZone; fold (matched pos zones); by rewrite H].
    destruct (decide (matched pos zones = [])) as [|Hne]; [done|]. destruct (derived_matched pos zones Hne) as (z & Hz & Hd).
    exfalso. apply (Hnames z); [|congruence]. apply list_elem_of_In, filter_In in Hz as [Hz _]. by apply list_elem_of_In.
  - intros Hne. destruct (derived_matched pos zones Hne) as (z & Hz & ->). unfold DeriveContainingZones.
    rewrite elem_of_sort_Strings. by apply list_elem_of_fmap_2.
Qed.

Lemma nestedIn_found leaves : forall before d o, d ∈ leaves -> ca_DeniesEntry d = true -> o ∈ before ++ leaves -> ca_Name o <> ca_Name d ->
  polygonWithin (ca_Polygon d) (ca_Polygon o) = true -> d ∈ nestedIn before leaves.
Proof.
  induction leaves as [|x leaves IH]; intros before d o Hd He Ho Hne Hw; [by apply not_elem_of_nil in Hd|]. cbn [nestedIn]. cbv zeta.
  apply elem_of_cons in Hd as [->|Hd].
  - rewrite He. assert (Hx : existsb (fun o => polygonWithin (ca_Polygon x) (ca_Polygon o)) (before ++ leaves) = true).
    { apply existsb_exists. exists o. split; [|done]. apply list_elem_of_In. rewrite elem_of_app, elem_of_cons in Ho. rewrite elem_of_app. naive_solver. }
    rewrite Hx. by left.
  - assert (Hr : d ∈ nestedIn (before ++ [x]) leaves) by (apply (IH _ d o); try done; by rewrite <- app_assoc).
    case_match; [by right|done].
Qed.

Lemma elem_matched pos zones z : z ∈ matched pos zones <-> z ∈ zones /\ matches pos z = true.
Proof. unfold matched. by rewrite list_elem_of_In, filter_In, <- list_elem_of_In. Qed.

(** An exclusion fails closed: a robot inside a leaf zone that denies entry and lies inside another matched
    leaf is reported in a zone that denies entry, whichever centroid is nearer. *)
Theorem exclusion_wins pos zones d o
  (Hd : d ∈ zones) (Ho : o ∈ zones) (Hdm : matches pos d = true) (Hom : matches pos o = true)
  (Hdl : ca_IsLeaf d = true) (Hol : ca_IsLeaf o = true) (Hdeny : ca_DeniesEntry d = true)
  (Hne : ca_Name o <> ca_Name d) (Hin : polygonWithin (ca_Polygon d) (ca_Polygon o) = true) :
  exists z, z ∈ zones /\ DeriveCurrentZone pos zones = ca_Name z /\ ca_DeniesEntry z = true.
Proof.
  assert (Hmd : d ∈ matched pos zones) by by apply elem_matched. assert (Hmo : o ∈ matched pos zones) by by apply elem_matched.
  assert (Hld : d ∈ List.filter ca_IsLeaf (matched pos zones)) by (rewrite list_elem_of_In, filter_In, <- list_elem_of_In; done).
  assert (Hlo : o ∈ List.filter ca_IsLeaf (matched pos zones)) by (rewrite list_elem_of_In, filter_In, <- list_elem_of_In; done).
  pose proof (nestedIn_found _ [] d o Hld Hdeny Hlo Hne Hin) as Hn.
  assert (Hp : preferred pos zones = nestedIn [] (List.filter ca_IsLeaf (matched pos zones))).
  { unfold preferred, preferNestedDenials. destruct (nestedIn [] _); [by apply not_elem_of_nil in Hn|done]. }
  destruct (derived_preferred pos zones) as (z & Hz & ->).
  - destruct (matched pos zones) as [|x [|y l]]; [by apply not_elem_of_nil in Hmd| |simpl; lia].
    apply list_elem_of_singleton in Hmd, Hmo. congruence.
  - rewrite Hp. intros Hnil. rewrite Hnil in Hn. by apply not_elem_of_nil in Hn.
  - rewrite Hp in Hz. apply nested_sub in Hz as [Hz Hzd]. exists z. split_and!; [|done|done].
    apply list_elem_of_In, filter_In in Hz as [Hz _]. by apply list_elem_of_In, elem_matched in Hz as [? _].
Qed.

(** ** The answer does not depend on the order of the zones *)

Lemma filter_perm (f : Candidate -> bool) l l' : l ≡ₚ l' -> List.filter f l ≡ₚ List.filter f l'.
Proof.
  induction 1 as [|x l l' _ IH|x y l|l1 l2 l3 _ IH1 _ IH2]; simpl; [done| | |by etrans].
  - case_match; [by rewrite IH|done].
  - repeat case_match; try done. constructor.
Qed.

Lemma filter_names (f : Candidate -> bool) l : NoDup (ca_Name <$> l) -> NoDup (ca_Name <$> List.filter f l).
Proof.
  induction l as [|x l IH]; simpl; [done|]. rewrite !NoDup_cons. intros [Hx Hl]. case_match; [|by apply IH].
  rewrite fmap_cons. apply NoDup_cons. split; [|by apply IH]. intros Hin. apply Hx. apply list_elem_of_fmap in Hin as (y & -> & Hy).
  apply list_elem_of_fmap_2. apply list_elem_of_In, filter_In in Hy as [Hy _]. by apply list_elem_of_In.
Qed.

(** With distinct names, nesting can be tested by name. *)
Definition nestedByName (all : list Candidate) (d : Candidate) : bool :=
  ca_DeniesEntry d && existsb (fun o => (ca_Name o <>s ca_Name d) && polygonWithin (ca_Polygon d) (ca_Polygon o)) all.

Lemma existsb_skip (f : Candidate -> bool) before d leaves : NoDup (ca_Name <$> (before ++ d :: leaves)) ->
  existsb f (before ++ leaves) = existsb (fun o => (ca_Name o <>s ca_Name d) && f o) (before ++ d :: leaves).
Proof.
  intros Hnd. rewrite fmap_app, fmap_cons in Hnd. apply NoDup_app in Hnd as (_ & Hb & Hl). apply NoDup_cons in Hl as [Hd _].
  rewrite !existsb_app. cbn [existsb]. rewrite eqb_s_refl. cbn [negb andb orb].
  assert (Hx : forall l, (forall o, o ∈ l -> ca_Name o <> ca_Name d) -> existsb f l = existsb (fun o => (ca_Name o <>s ca_Name d) && f o) l).
  { induction l as [|o l IH]; intros Ho; simpl; [done|]. rewrite IH by (intros; apply Ho; by right).
    assert (Hn : (ca_Name o =s ca_Name d) = false) by (apply eqb_s_false, Ho; by left). by rewrite Hn. }
  rewrite <- !Hx; [done| |].
  - intros o Ho Heq. apply Hd. rewrite <- Heq. by apply list_elem_of_fmap_2.
  - intros o Ho Heq. apply (Hb (ca_Name o)); [by apply list_elem_of_fmap_2|]. rewrite Heq. by left.
Qed.

Lemma nestedIn_filter leaves : forall before, NoDup (ca_Name <$> (before ++ leaves)) ->
  nestedIn before leaves = List.filter (nestedByName (before ++ leaves)) leaves.
Proof.
  induction leaves as [|d leaves IH]; intros before Hnd; [done|]. cbn [nestedIn List.filter]. cbv zeta.
  unfold nestedByName at 1. rewrite (existsb_skip (fun o => polygonWithin (ca_Polygon d) (ca_Polygon o)) before d leaves Hnd).
  rewrite IH by (by rewrite <- app_assoc). by rewrite <- app_assoc.
Qed.

Lemma preferNested_perm l l' : l ≡ₚ l' -> NoDup (ca_Name <$> l) -> preferNestedDenials l ≡ₚ preferNestedDenials l'.
Proof.
  intros Hp Hnd. assert (Hnd' : NoDup (ca_Name <$> l')) by by rewrite <- Hp.
  assert (Hn : nestedIn [] l ≡ₚ nestedIn [] l').
  { rewrite (nestedIn_filter l []), (nestedIn_filter l' []) by done. simpl.
    assert (Hf : forall d, nestedByName l d = nestedByName l' d).
    { intros d. unfold nestedByName. f_equal. apply eq_true_iff_eq. rewrite !existsb_exists.
      split; intros (o & Ho & Hw); exists o; (split; [|done]); [by apply (Permutation_in _ Hp)|by apply (Permutation_in _ (Permutation_sym Hp))]. }
    rewrite (filter_perm _ _ _ Hp). by rewrite (List.filter_ext _ _ Hf). }
  unfold preferNestedDenials. destruct (nestedIn [] l) as [|x k], (nestedIn [] l') as [|x' k'];
    [done|by apply Permutation_nil_cons in Hn|by apply Permutation_sym, Permutation_nil_cons in Hn|done].
Qed.

(** Derivation does not depend on the order of the zones: over zones with distinct names, and distances that
    are numbers, any reordering of the candidates gives the same current zone and the same containing
    zones. *)
Theorem derivation_order_free pos zones zones'
  (Hperm : zones ≡ₚ zones') (Hnames : NoDup (ca_Name <$> zones)) (Hnum : Forall (measured pos) zones) :
  DeriveCurrentZone pos zones = DeriveCurrentZone pos zones' /\ DeriveContainingZones pos zones = DeriveContainingZones pos zones'.
Proof.
  pose proof (filter_perm (matches pos) _ _ Hperm) as Hm. split; [|by apply sort_Strings_unique, fmap_Permutation].
  assert (Hmnd : NoDup (ca_Name <$> matched pos zones)) by (unfold matched; by apply filter_names).
  assert (HmQ : Forall (measured pos) (matched pos zones)).
  { rewrite Forall_forall in Hnum |- *. intros x Hx. apply Hnum. by apply elem_matched in Hx as [? _]. }
  unfold DeriveCurrentZone. fold (matched pos zones) (matched pos zones') in *.
  assert (Hpref : preferNestedDenials (List.filter ca_IsLeaf (matched pos zones)) ≡ₚ preferNestedDenials (List.filter ca_IsLeaf (matched pos zones')))
    by (apply preferNested_perm; [by apply filter_perm|by apply filter_names]).
  assert (HpQ : Forall (measured pos) (preferNestedDenials (List.filter ca_IsLeaf (matched pos zones)))).
  { rewrite Forall_forall in HmQ |- *. intros x Hx. apply HmQ. apply preferNested_sub in Hx.
    apply list_elem_of_In, filter_In in Hx as [Hx _]. by apply list_elem_of_In. }
  destruct (matched pos zones) as [|z [|y l]], (matched pos zones') as [|z' [|y' l']]; try done;
    try (by apply Permutation_length in Hm); [by apply Permutation_singleton_inj in Hm as ->|].
  destruct (preferNestedDenials (List.filter ca_IsLeaf (z :: _))) as [|b k], (preferNestedDenials (List.filter ca_IsLeaf (z' :: _))) as [|b' k'];
    [|by apply Permutation_nil_cons in Hpref|by apply Permutation_sym, Permutation_nil_cons in Hpref|].
  - apply (pick_perm deeperThan (fun _ => True) deeperThan_irrefl (fun a b c _ _ _ => deeperThan_trans a b c)
             (fun a b _ _ => deeperThan_total a b)); [exact Hm|by apply Forall_forall].
  - apply (pick_perm (nearerThan pos) (measured pos) (nearerThan_irrefl pos) (nearerThan_trans pos) (nearerThan_total pos));
      [exact Hpref|exact HpQ].
Qed.

(** ** Witnesses *)

(** An upright rectangle, in whole metres. *)
Definition metres (z : Z) : float64 := binary_normalize 53 1024 z 0 false.
Definition rectangle (x0 y0 x1 y1 : Z) : list Point :=
  [mkPoint (metres x0) (metres y0); mkPoint (metres x1) (metres y0); mkPoint (metres x1) (metres y1); mkPoint (metres x0) (metres y1)].

(** An open hall and a closed cell in its corner; the robot is in the cell, nearer the hall's centre. *)
Definition hall : Candidate := mkCandidate "hall" 0 (rectangle 0 0 20 20) true 1 false.
Definition cell : Candidate := mkCandidate "cell" 0 (rectangle 0 0 12 12) true 1 true.
Definition robotAt (x y : Z) : Position := mkPosition (metres x) (metres y) 0.

Lemma exclusion_wins_witness :
  exists z, z ∈ [hall; cell] /\ DeriveCurrentZone (robotAt 11 11) [hall; cell] = ca_Name z /\ ca_DeniesEntry z = true.
Proof. apply (exclusion_wins (robotAt 11 11) [hall; cell] cell hall); try (vm_compute; reflexivity); [by right; left|by left|done]. Defined.

(** The hall's centre is nearer, and without the denial the hall is reported. *)
Example nearest_without_denial :
  DeriveCurrentZone (robotAt 11 11) [hall; cell] = "cell" /\
  DeriveCurrentZone (robotAt 11 11) [hall; mkCandidate "cell" 0 (rectangle 0 0 12 12) true 1 false] = "hall".
Proof. vm_compute. done. Qed.

Lemma DeriveCurrentZone_contains_witness :
  DeriveCurrentZone (robotAt 15 15) [hall; cell] ∈ DeriveContainingZones (robotAt 15 15) [hall; cell].
Proof. apply DeriveCurrentZone_contains; [repeat constructor; done|]. vm_compute. discriminate. Defined.

Lemma derivation_order_free_witness :
  DeriveCurrentZone (robotAt 11 11) [hall; cell] = DeriveCurrentZone (robotAt 11 11) [cell; hall] /\
  DeriveContainingZones (robotAt 11 11) [hall; cell] = DeriveContainingZones (robotAt 11 11) [cell; hall].
Proof.
  apply derivation_order_free; [constructor| |].
  - apply NoDup_cons; split; [|apply NoDup_singleton]. intros H%list_elem_of_singleton. discriminate H.
  - repeat constructor.
Defined.

(** A bow tie is not simple, a square is. *)
Example bow_tie_self_intersects :
  SelfIntersects [mkPoint (metres 0) (metres 0); mkPoint (metres 4) (metres 4); mkPoint (metres 4) (metres 0); mkPoint (metres 0) (metres 4)] = true /\
  SelfIntersects (rectangle 0 0 4 4) = false.
Proof. vm_compute. done. Qed.
