(* ===== verification/ZoneRestrictions.v ===== *)
(** Zone restrictions: src/internal/controller/zone_restrictions.go, the fold of the rules a chain of zones
    declares, and the part of zone_controller.go that publishes it. A restriction forbids, bounds or demands a
    subject in a zone and below it; the fold keeps one rule per subject, and the theorems say what that rule
    permits. The texts of conditions and Events are left out, their reasons are kept. *)

From S2P Require Import Prelude.
From S2P Require Import Types.
From S2P Require Import ParseFloat.
From S2P Require Import Decimal.
From S2P Require Import Contract.
From S2P Require Import Scheduler.
From S2P Require Import ZoneGeometry.

(** ** Data (fleetzone_restrictions_types.go, fleetzone_restrictions_status_types.go) *)

Definition ZoneRestrictionMode : Type := string.
Definition ZoneRestrictionDenied : ZoneRestrictionMode := "Denied".
Definition ZoneRestrictionLimited : ZoneRestrictionMode := "Limited".
Definition ZoneRestrictionRequired : ZoneRestrictionMode := "Required".

Definition ZoneRestrictionAxis : Type := string.
Definition ZoneAxisEntry : ZoneRestrictionAxis := "Entry".
Definition ZoneAxisCapability : ZoneRestrictionAxis := "Capability".
Definition ZoneAxisOperating : ZoneRestrictionAxis := "Operating".

Definition ZoneCondRestrictionsResolved : string := "RestrictionsResolved".
Definition ZoneCondRestrictionsConsistent : string := "RestrictionsConsistent".

Record ZoneEntryRestriction := mkEntryRule { er_Mode : ZoneRestrictionMode; er_Reason : string }.
Record ZoneCapabilityRestriction := mkCapabilityRule { cr_Name : string; cr_Mode : ZoneRestrictionMode; cr_Reason : string }.
Record ZoneOperatingRestriction := mkOperatingRule {
  or_Subject : string; or_Mode : ZoneRestrictionMode; or_Max : string; or_Allowed : list string; or_Reason : string }.

Record ZoneRestrictions := mkZoneRestrictions {
  zx_Entry : option ZoneEntryRestriction;
  zx_Capabilities : list ZoneCapabilityRestriction;
  zx_Operating : list ZoneOperatingRestriction
}.

(** A nil allow-list is [None]; one that is empty and not nil is [Some []]. *)
Record EffectiveZoneRestriction := mkEffective {
  ez_Axis : ZoneRestrictionAxis;
  ez_Subject : string;
  ez_Mode : ZoneRestrictionMode;
  ez_Max : string;
  ez_Allowed : option (list string);
  ez_Reason : string;
  ez_InheritedFrom : string
}.

#[export] Instance EffectiveZoneRestriction_eq_dec : EqDecision EffectiveZoneRestriction.
Proof. solve_decision. Defined.

(** metav1.Condition *)
Record ZoneCondition := mkZoneCondition { zc_Type : string; zc_Status : string; zc_Reason : string }.

#[export] Instance ZoneCondition_eq_dec : EqDecision ZoneCondition.
Proof. solve_decision. Defined.

(** A FleetZone with the fields the restrictions read and write; [rz_Effective] is status.restrictions. *)
Record RuledZone := mkRuledZone {
  rz_Zone : FleetZone;
  rz_Generation : Z;
  rz_Restrictions : option ZoneRestrictions;
  rz_Effective : option (list EffectiveZoneRestriction);
  rz_Conditions : list ZoneCondition
}.

Definition rz_Name (z : RuledZone) : string := fz_Name (rz_Zone z).
Definition rz_Parent (z : RuledZone) : string := fzs_ParentZone (fz_Spec (rz_Zone z)).

(** ** The fold *)

Definition restrictionKey (axis : ZoneRestrictionAxis) (subject : string) : string := axis +:+ "/" +:+ subject.

Definition keyOf (e : EffectiveZoneRestriction) : string := restrictionKey (ez_Axis e) (ez_Subject e).

Definition modeRank (m : ZoneRestrictionMode) : Z :=
  if m =s ZoneRestrictionDenied then 3
  else if m =s ZoneRestrictionRequired then 2
  else if m =s ZoneRestrictionLimited then 1
  else 0.

Definition tighterMax (a b : string) : string :=
  if a =s "" then b
  else if b =s "" then a
  else match ParseFloat a, ParseFloat b with
       | None, None => a
       | None, Some _ => b
       | Some _, None => a
       | Some av, Some bv => if SFltb bv av then b else a
       end.

Definition intersectAllowed (a b : option (list string)) : option (list string) :=
  match a, b with
  | None, _ => b
  | _, None => a
  | Some a, Some b => Some (sort_Strings (List.filter (fun v => existsb (String.eqb v) b) a))
  end.

Definition sameStrings (a b : option (list string)) : bool := bool_decide (a = b).

(** foldRule's four maps. *)
Record Fold := mkFold {
  fo_acc : gmap string EffectiveZoneRestriction;
  fo_deniedBy : gmap string string;
  fo_requiredBy : gmap string string;
  fo_boundBy : gmap string string
}.

Definition emptyFold : Fold := mkFold ∅ ∅ ∅ ∅.

(** The first zone to claim a key keeps it. *)
Definition claim (m : gmap string string) (key zone : string) : gmap string string :=
  match m !! key with Some _ => m | None => <[key := zone]> m end.

Definition reasonFromZone (acc : gmap string EffectiveZoneRestriction) (key zoneName : string) : string :=
  match acc !! key with Some e => if ez_InheritedFrom e =s zoneName then ez_Reason e else "" | None => "" end.

Definition setBounds (e : EffectiveZoneRestriction) (max : string) (allowed : option (list string)) : EffectiveZoneRestriction :=
  mkEffective (ez_Axis e) (ez_Subject e) (ez_Mode e) max allowed (ez_Reason e) (ez_InheritedFrom e).
Definition setSource (e : EffectiveZoneRestriction) (mode : ZoneRestrictionMode) (reason from : string) : EffectiveZoneRestriction :=
  mkEffective (ez_Axis e) (ez_Subject e) mode (ez_Max e) (ez_Allowed e) reason from.

(** The merge of a rule into the one its key holds: the bounds, then the mode, then what a denial clears. *)
Definition mergeBounds (cur r : EffectiveZoneRestriction) (boundBy : gmap string string) (key zoneName : string)
    : EffectiveZoneRestriction * gmap string string :=
  let newMax := tighterMax (ez_Max cur) (ez_Max r) in
  let '(cur, boundBy) := if newMax <>s ez_Max cur then (setBounds cur newMax (ez_Allowed cur), <[key := zoneName]> boundBy)
                         else (cur, boundBy) in
  let newAllowed := intersectAllowed (ez_Allowed cur) (ez_Allowed r) in
  if negb (sameStrings newAllowed (ez_Allowed cur)) then (setBounds cur (ez_Max cur) newAllowed, <[key := zoneName]> boundBy)
  else (cur, boundBy).

Definition mergeMode (cur r : EffectiveZoneRestriction) (boundBy : gmap string string) (key zoneName : string) : EffectiveZoneRestriction :=
  if modeRank (ez_Mode cur) <? modeRank (ez_Mode r) then setSource cur (ez_Mode r) (ez_Reason r) (ez_InheritedFrom r)
  else if (ez_Mode cur =s ZoneRestrictionLimited) && (default "" (boundBy !! key) =s zoneName)
       then setSource cur (ez_Mode cur) (ez_Reason r) (ez_InheritedFrom r)
       else cur.

Definition clearDenied (cur : EffectiveZoneRestriction) (acc : gmap string EffectiveZoneRestriction) (deniedBy : gmap string string) (key : string)
    : EffectiveZoneRestriction :=
  if ez_Mode cur =s ZoneRestrictionDenied then
    let cur := setBounds cur "" None in
    let d := default "" (deniedBy !! key) in
    if d <>s "" then
      let cur := setSource cur (ez_Mode cur) (ez_Reason cur) d in
      let reason := reasonFromZone (<[key := cur]> acc) key d in
      if reason <>s "" then setSource cur (ez_Mode cur) reason d else cur
    else cur
  else cur.

Definition foldRule (f : Fold) (zoneName : string) (r : EffectiveZoneRestriction) : Fold :=
  let key := restrictionKey (ez_Axis r) (ez_Subject r) in
  let deniedBy := if ez_Mode r =s ZoneRestrictionDenied then claim (fo_deniedBy f) key zoneName else fo_deniedBy f in
  let requiredBy := if ez_Mode r =s ZoneRestrictionRequired then claim (fo_requiredBy f) key zoneName else fo_requiredBy f in
  match fo_acc f !! key with
  | None => mkFold (<[key := r]> (fo_acc f)) deniedBy requiredBy (fo_boundBy f)
  | Some cur =>
      let '(cur, boundBy) := mergeBounds cur r (fo_boundBy f) key zoneName in
      let cur := mergeMode cur r boundBy key zoneName in
      let cur := clearDenied cur (fo_acc f) deniedBy key in
      mkFold (<[key := cur]> (fo_acc f)) deniedBy requiredBy boundBy
  end.

(** append([]string(nil), l...): nil when [l] is empty. *)
Definition copyStrings (l : list string) : option (list string) := match l with [] => None | _ => Some l end.

(** The rules one zone declares, in the order they are folded. *)
Definition declaredRules (z : RuledZone) : list EffectiveZoneRestriction :=
  match rz_Restrictions z with
  | None => []
  | Some r =>
      match zx_Entry r with
      | Some e => [mkEffective ZoneAxisEntry "" (er_Mode e) "" None (er_Reason e) (rz_Name z)]
      | None => []
      end ++
      ((fun c => mkEffective ZoneAxisCapability (cr_Name c) (cr_Mode c) "" None (cr_Reason c) (rz_Name z)) <$> zx_Capabilities r) ++
      ((fun o => mkEffective ZoneAxisOperating (or_Subject o) (or_Mode o) (or_Max o) (copyStrings (or_Allowed o)) (or_Reason o) (rz_Name z))
         <$> zx_Operating r)
  end.

(** The bytes of the white space a UTF-8 text starts with, none when it starts with another rune: the
    spaces of ASCII, U+0085, U+00A0, U+1680, U+2000 to U+200A, U+2028, U+2029, U+202F, U+205F, U+3000. *)
Definition spaceWidth (s : string) : nat :=
  let at_ i := match String.get i s with Some c => byteZ c | None => -1 end in
  let a := at_ 0%nat in let b := at_ 1%nat in let c := at_ 2%nat in
  if (a =? 32) || ((9 <=? a) && (a <=? 13)) then 1%nat
  else if (a =? 194) && ((b =? 133) || (b =? 160)) then 2%nat
  else if ((a =? 225) && (b =? 154) && (c =? 128)) ||
          ((a =? 226) && (b =? 128) && (((128 <=? c) && (c <=? 138)) || (c =? 168) || (c =? 169) || (c =? 175))) ||
          ((a =? 226) && (b =? 129) && (c =? 159)) || ((a =? 227) && (b =? 128) && (c =? 128)) then 3%nat
  else 0%nat.

Fixpoint trimSpaces (fuel : nat) (s : string) : string :=
  match fuel, spaceWidth s with
  | S fuel, S w => trimSpaces fuel (string_drop (S w) s)
  | _, _ => s
  end.

(** strings.TrimSpace of a text whose last rune is no space. *)
Definition TrimSpaceLeft (s : string) : string := trimSpaces (String.length s) s.

(** An allow-list that intersected to nothing is emitted as a denial. *)
Definition closeEmpty (boundBy : gmap string string) (suffix : string) (key : string) (e : EffectiveZoneRestriction) : EffectiveZoneRestriction :=
  if (ez_Mode e =s ZoneRestrictionLimited) && bool_decide (ez_Allowed e = Some []) then
    let b := default "" (boundBy !! key) in
    mkEffective (ez_Axis e) (ez_Subject e) ZoneRestrictionDenied "" None (TrimSpaceLeft (ez_Reason e +:+ suffix))
      (if b <>s "" then b else ez_InheritedFrom e)
  else e.

Record zoneRestrictionContradiction := mkContradiction {
  cd_Axis : ZoneRestrictionAxis; cd_Subject : string; cd_DeniedBy : string; cd_RequiredBy : string }.

Definition lessRule (a b : EffectiveZoneRestriction) : bool :=
  if ez_Axis a <>s ez_Axis b then ez_Axis a <s ez_Axis b else ez_Subject a <s ez_Subject b.
Definition lessContradiction (a b : zoneRestrictionContradiction) : bool :=
  if cd_Axis a <>s cd_Axis b then cd_Axis a <s cd_Axis b else cd_Subject a <s cd_Subject b.

Definition chainSuffix : string := " (no value is permitted by every allow-list in the zone chain)".

(** The contradiction the entry of a key reports, after closeEmpty may have made it a denial. *)
Definition contradictionOf (f : Fold) (key : string) (e : EffectiveZoneRestriction) : list zoneRestrictionContradiction :=
  let closed := closeEmpty (fo_boundBy f) chainSuffix key e in
  let deniedBy := if (ez_Mode e =s ZoneRestrictionLimited) && bool_decide (ez_Allowed e = Some []) then Some (ez_InheritedFrom closed)
                  else fo_deniedBy f !! key in
  match deniedBy, fo_requiredBy f !! key with
  | Some d, Some rq => [mkContradiction (ez_Axis closed) (ez_Subject closed) d rq]
  | _, _ => []
  end.

Definition foldChain (chain : list RuledZone) : Fold :=
  fold_left (fun f z => fold_left (fun f r => foldRule f (rz_Name z) r) (declaredRules z) f) chain emptyFold.

Definition resolveZoneRestrictions (chain : list RuledZone) : list EffectiveZoneRestriction * list zoneRestrictionContradiction :=
  let f := foldChain chain in
  let entries := map_to_list (fo_acc f) in
  (sliceStable lessRule ((fun ke => closeEmpty (fo_boundBy f) chainSuffix ke.1 ke.2) <$> entries),
   sliceStable lessContradiction (concat ((fun ke => contradictionOf f ke.1 ke.2) <$> entries))).

(** ** The union over the zones that contain a robot *)

Definition ConditionTrue : string := "True".
Definition ConditionFalse : string := "False".

(** unresolvedReason (dispatch_zone_restrictions.go): whether a zone's projection cannot be trusted. *)
Inductive unresolvedWhy := ResolvedFalse | ResolvedAbsent | NotPublished.

Definition unresolvedReason (z : RuledZone) : option unresolvedWhy :=
  match List.find (fun c => zc_Type c =s ZoneCondRestrictionsResolved) (rz_Conditions z) with
  | Some c => if zc_Status c =s ConditionFalse then Some ResolvedFalse
              else match rz_Effective z with None => Some ResolvedAbsent | Some _ => None end
  | None => Some NotPublished
  end.

Definition zonesByName (zones : list RuledZone) : gmap string RuledZone := fold_left (fun m z => <[rz_Name z := z]> m) zones ∅.

Definition unionSuffix : string := " (no value is permitted by every allow-list in force where this robot stands)".

Definition lessUnion (a b : EffectiveZoneRestriction) : bool :=
  if ez_Axis a <>s ez_Axis b then ez_Axis a <s ez_Axis b
  else if ez_Subject a <>s ez_Subject b then ez_Subject a <s ez_Subject b
  else ez_InheritedFrom a <s ez_InheritedFrom b.

(** The rules of a zone's projection, as the union folds them. *)
Definition publishedRules (z : RuledZone) : list EffectiveZoneRestriction :=
  (fun e => setBounds e (ez_Max e) (copyStrings (default [] (ez_Allowed e)))) <$> default [] (rz_Effective z).

Definition unionStep (byName : gmap string RuledZone) (st : Fold * list string) (name : string) : Fold * list string :=
  let '(f, unresolved) := st in
  match byName !! name with
  | None => (f, unresolved ++ [name])
  | Some z =>
      match unresolvedReason z with
      | Some _ => (f, unresolved ++ [name])
      | None => (fold_left (fun f e => foldRule f (ez_InheritedFrom e) e) (publishedRules z) f, unresolved)
      end
  end.

Definition unionEffectiveRestrictionsWithUnresolved (zones : list RuledZone) (containing : list string)
    : list EffectiveZoneRestriction * list string :=
  match containing with
  | [] => ([], [])
  | _ =>
      let '(f, unresolved) := fold_left (unionStep (zonesByName zones)) (sort_Strings containing) (emptyFold, []) in
      (sliceStable lessUnion ((fun ke => closeEmpty (fo_boundBy f) unionSuffix ke.1 ke.2) <$> map_to_list (fo_acc f)), unresolved)
  end.

Definition unionEffectiveRestrictions (zones : list RuledZone) (containing : list string) : list EffectiveZoneRestriction :=
  (unionEffectiveRestrictionsWithUnresolved zones containing).1.
