(* ===== verification/ZoneRestrictionProps.v ===== *)
(** What the fold of ZoneRestrictions keeps: the rule of a subject permits exactly what every rule read for it
    permits, and names the zone an operator has to edit. *)

From S2P Require Import Prelude.
From S2P Require Import Types.
From S2P Require Import ParseFloat.
From S2P Require Import Scheduler.
From S2P Require Import ZoneGeometry.
From S2P Require Import ZoneRestrictions.

(** ** What a rule permits *)

Definition underMax (max : string) (level : float64) : bool :=
  match ParseFloat max with Some m => SFleb level m | None => true end.
Definition inAllowed (allowed : option (list string)) (value : string) : bool :=
  match allowed with Some l => existsb (String.eqb value) l | None => true end.

Definition isDenied (e : EffectiveZoneRestriction) : bool := ez_Mode e =s ZoneRestrictionDenied.
Definition isRequired (e : EffectiveZoneRestriction) : bool := ez_Mode e =s ZoneRestrictionRequired.
Definition isLimited (e : EffectiveZoneRestriction) : bool := ez_Mode e =s ZoneRestrictionLimited.

(** Whether the rule lets its subject run at this level, as this value. *)
Definition permits (e : EffectiveZoneRestriction) (level : float64) (value : string) : bool :=
  negb (isDenied e) && underMax (ez_Max e) level && inAllowed (ez_Allowed e) value.

(** A bound that is no NaN: the schema of spec.restrictions admits plain decimals only. *)
Definition plainMax (max : string) : Prop := match ParseFloat max with Some m => isNaN m = false | None => True end.

(** ** Bounds *)

Lemma SFleb_place x y : isNaN x = false -> isNaN y = false -> SFleb x y = true <-> ~ below (place y) (place x).
Proof.
  intros Hx Hy. assert (H : SFleb x y = SFltb x y || SFeqb x y).
  { unfold SFleb, SFltb, SFeqb. by destruct (SFcompare x y) as [[]|]. }
  rewrite H, orb_true_iff, (SFltb_place x y Hx Hy), (SFeqb_place x y Hx Hy). unfold below.
  destruct (place x) as [[a b] c], (place y) as [[a' b'] c']; simpl. split.
  - intros [?|[= -> -> ->]]; lia.
  - intros Hn. destruct (decide (a = a' /\ b = b' /\ c = c')) as [(-> & -> & ->)|?]; [by right|left; lia].
Qed.

Lemma SFleb_nan x y : isNaN x = true -> SFleb x y = false.
Proof. by destruct x. Qed.

Lemma leb_tighter l a b : isNaN a = false -> isNaN b = false -> SFltb b a = true -> SFleb l b = SFleb l a && SFleb l b.
Proof.
  intros Ha Hb Hlt. destruct (isNaN l) eqn:Hl; [by rewrite !SFleb_nan|]. destruct (SFleb l b) eqn:E; [|by rewrite andb_false_r].
  rewrite andb_true_r. symmetry. apply SFleb_place; [done..|]. apply SFleb_place in E; [|done..]. apply SFltb_place in Hlt; [|done..].
  unfold below in *. lia.
Qed.

Lemma leb_looser l a b : isNaN a = false -> isNaN b = false -> SFltb b a = false -> SFleb l a = SFleb l a && SFleb l b.
Proof.
  intros Ha Hb Hlt. destruct (isNaN l) eqn:Hl; [by rewrite !SFleb_nan|]. destruct (SFleb l a) eqn:E; [|done].
  symmetry. apply SFleb_place; [done..|]. apply SFleb_place in E; [|done..].
  assert (Hn : ~ below (place b) (place a)) by (rewrite <- SFltb_place by done; by rewrite Hlt).
  unfold below in *. lia.
Qed.

Lemma ParseFloat_empty : ParseFloat "" = None.
Proof. reflexivity. Qed.

Lemma tighterMax_under a b l : plainMax a -> plainMax b -> underMax (tighterMax a b) l = underMax a l && underMax b l.
Proof.
  unfold tighterMax, underMax, plainMax. intros Ha Hb.
  destruct (a =s "") eqn:Ea; [apply eqb_s_true in Ea as ->; by rewrite ParseFloat_empty|].
  destruct (b =s "") eqn:Eb; [apply eqb_s_true in Eb as ->; by rewrite ParseFloat_empty, andb_true_r|].
  destruct (ParseFloat a) as [av|] eqn:Pa, (ParseFloat b) as [bv|] eqn:Pb; rewrite ?Pa, ?Pb, ?andb_true_r; try done.
  destruct (SFltb bv av) eqn:E; rewrite ?Pa, ?Pb; [by apply leb_tighter|by apply leb_looser].
Qed.

Lemma tighterMax_plain a b : plainMax a -> plainMax b -> plainMax (tighterMax a b).
Proof. unfold tighterMax. repeat case_match; done. Qed.

Lemma existsb_eqb v l : existsb (String.eqb v) l = true <-> v ∈ l.
Proof. rewrite existsb_exists, list_elem_of_In. setoid_rewrite String.eqb_eq. split; [by intros (x & ? & ->)|eauto]. Qed.

Lemma intersectAllowed_in a b v : inAllowed (intersectAllowed a b) v = inAllowed a v && inAllowed b v.
Proof.
  destruct a as [a|], b as [b|]; simpl; rewrite ?andb_true_r; try done. apply eq_iff_eq_true.
  rewrite andb_true_iff, !existsb_eqb, elem_of_sort_Strings, !list_elem_of_In, filter_In, existsb_eqb, list_elem_of_In. done.
Qed.

Lemma intersectAllowed_same a b v : sameStrings (intersectAllowed a b) a = true -> inAllowed a v = inAllowed a v && inAllowed b v.
Proof. unfold sameStrings. intros H%bool_decide_eq_true. rewrite <- intersectAllowed_in. by rewrite H. Qed.

Lemma allowed_nothing a : (forall v, inAllowed a v = false) <-> a = Some [].
Proof.
  split; [|by intros ->]. destruct a as [[|x l]|]; [done|intros H; specialize (H x)|intros H; by specialize (H "")].
  simpl in H. by rewrite String.eqb_refl in H.
Qed.

(** ** Texts *)

Lemma drop_length n s : (String.length (string_drop n s) <= String.length s - n)%nat.
Proof. revert s. induction n as [|n IH]; intros [|c s]; simpl; try lia. specialize (IH s). lia. Qed.

Lemma spaceWidth_within s w : spaceWidth s = S w -> s <> "".
Proof. by intros H ->. Qed.

(** The fuel of the trim is enough: what is left starts with no white space. *)
Lemma TrimSpaceLeft_spec s : spaceWidth (TrimSpaceLeft s) = 0%nat.
Proof.
  unfold TrimSpaceLeft. assert (H : forall n t, (String.length t <= n)%nat -> spaceWidth (trimSpaces n t) = 0%nat); [|by apply H].
  induction n as [|n IH]; intros t Hl; simpl.
  - destruct t; [done|simpl in Hl; lia].
  - destruct (spaceWidth t) as [|w] eqn:E; [done|]. apply IH. pose proof (drop_length (S w) t). pose proof (spaceWidth_within t w E).
    destruct t; [done|simpl in *; lia].
Qed.

(** ** One merge *)

Section merge.
Context (cur r : EffectiveZoneRestriction) (key from : string).
Context (acc : gmap string EffectiveZoneRestriction) (deniedBy boundBy : gmap string string).

Definition bounded := mergeBounds cur r boundBy key from.
Definition merged : EffectiveZoneRestriction := clearDenied (mergeMode bounded.1 r bounded.2 key from) acc deniedBy key.

Lemma bounded_fields : ez_Axis bounded.1 = ez_Axis cur /\ ez_Subject bounded.1 = ez_Subject cur /\ ez_Mode bounded.1 = ez_Mode cur /\
  ez_InheritedFrom bounded.1 = ez_InheritedFrom cur.
Proof. unfold bounded, mergeBounds. repeat case_match; simplify_eq/=; done. Qed.

Lemma bounded_max : ez_Max bounded.1 = tighterMax (ez_Max cur) (ez_Max r).
Proof.
  unfold bounded, mergeBounds. destruct (tighterMax _ _ <>s _) eqn:E; simpl; repeat case_match; simplify_eq/=; try done;
    by apply negb_false_iff, eqb_s_true in E.
Qed.

Lemma bounded_allowed : ez_Allowed bounded.1 = intersectAllowed (ez_Allowed cur) (ez_Allowed r).
Proof.
  unfold bounded, mergeBounds. destruct (tighterMax _ _ <>s _); simpl; destruct (sameStrings _ _) eqn:E; simpl; try done;
    by apply bool_decide_eq_true in E.
Qed.

Definition strongest : ZoneRestrictionMode := if modeRank (ez_Mode cur) <? modeRank (ez_Mode r) then ez_Mode r else ez_Mode cur.

Lemma mergeMode_fields b m : let e := mergeMode b r m key from in
  ez_Axis e = ez_Axis b /\ ez_Subject e = ez_Subject b /\ ez_Max e = ez_Max b /\ ez_Allowed e = ez_Allowed b.
Proof. unfold mergeMode. by repeat case_match. Qed.

Lemma mergeMode_mode m : ez_Mode (mergeMode bounded.1 r m key from) = strongest.
Proof.
  destruct bounded_fields as (_ & _ & Hm & _). unfold mergeMode, strongest. rewrite Hm.
  destruct (modeRank _ <? _); [done|]. case_match; simpl; [done|]. exact Hm.
Qed.

Lemma clearDenied_fields b : let e := clearDenied b acc deniedBy key in
  ez_Axis e = ez_Axis b /\ ez_Subject e = ez_Subject b /\ ez_Mode e = ez_Mode b /\
  (isDenied b = false -> e = b) /\ (isDenied b = true -> ez_Max e = "" /\ ez_Allowed e = None) /\
  (isDenied b = true -> default "" (deniedBy !! key) <> "" -> ez_InheritedFrom e = default "" (deniedBy !! key)).
Proof.
  unfold clearDenied, isDenied. destruct (ez_Mode b =s ZoneRestrictionDenied) eqn:E; simpl; [|done].
  destruct (default "" _ =s "") eqn:Ed; simpl.
  - apply eqb_s_true in Ed. rewrite Ed. repeat split; done.
  - repeat case_match; simpl; repeat split; done.
Qed.

Lemma merged_key : keyOf merged = keyOf cur.
Proof.
  unfold keyOf, merged. destruct (clearDenied_fields (mergeMode bounded.1 r bounded.2 key from)) as (-> & -> & _).
  destruct (mergeMode_fields bounded.1 bounded.2) as (-> & -> & _). by destruct bounded_fields as (-> & -> & _).
Qed.

Lemma merged_mode : ez_Mode merged = strongest.
Proof. unfold merged. destruct (clearDenied_fields (mergeMode bounded.1 r bounded.2 key from)) as (_ & _ & -> & _). apply mergeMode_mode. Qed.

Lemma rank_denied m : modeRank m <= 3 /\ (modeRank m = 3 <-> m = ZoneRestrictionDenied).
Proof.
  unfold modeRank. destruct (m =s _) eqn:E; [by apply eqb_s_true in E as ->|]. apply eqb_s_false in E.
  repeat case_match; split; try lia; split; done.
Qed.

Lemma strongest_denied : (strongest =s ZoneRestrictionDenied) = isDenied cur || isDenied r.
Proof.
  apply eq_iff_eq_true. unfold strongest, isDenied. rewrite orb_true_iff, !eqb_s_true, <- !(proj2 (rank_denied _)).
  pose proof (proj1 (rank_denied (ez_Mode cur))). pose proof (proj1 (rank_denied (ez_Mode r))).
  destruct (modeRank (ez_Mode cur) <? modeRank (ez_Mode r)) eqn:E; lia.
Qed.

(** The merged rule permits what both permit. *)
Lemma merged_permits l v : plainMax (ez_Max cur) -> plainMax (ez_Max r) -> permits merged l v = permits cur l v && permits r l v.
Proof.
  intros Hc Hr. unfold permits. unfold isDenied at 1. rewrite merged_mode, strongest_denied.
  destruct (isDenied cur) eqn:Dc, (isDenied r) eqn:Dr; simpl; rewrite ?andb_false_r; try done.
  assert (Hd : isDenied (mergeMode bounded.1 r bounded.2 key from) = false) by (unfold isDenied; by rewrite mergeMode_mode, strongest_denied, Dc, Dr).
  unfold merged. destruct (clearDenied_fields (mergeMode bounded.1 r bounded.2 key from)) as (_ & _ & _ & Hsame & _). rewrite (Hsame Hd).
  destruct (mergeMode_fields bounded.1 bounded.2) as (_ & _ & -> & ->). rewrite bounded_max, bounded_allowed, tighterMax_under, intersectAllowed_in by done.
  by destruct (underMax (ez_Max cur) l), (underMax (ez_Max r) l), (inAllowed (ez_Allowed cur) v), (inAllowed (ez_Allowed r) v).
Qed.

(** Until a denial wins, the allow-list is the intersection. *)
Lemma merged_allowed : isDenied merged = false -> ez_Allowed merged = intersectAllowed (ez_Allowed cur) (ez_Allowed r).
Proof.
  unfold isDenied at 1. rewrite merged_mode, <- (mergeMode_mode bounded.2). intros Hd. unfold merged.
  destruct (clearDenied_fields (mergeMode bounded.1 r bounded.2 key from)) as (_ & _ & _ & Hsame & _). rewrite (Hsame Hd).
  destruct (mergeMode_fields bounded.1 bounded.2) as (_ & _ & _ & ->). apply bounded_allowed.
Qed.

Lemma merged_plain : plainMax (ez_Max cur) -> plainMax (ez_Max r) -> plainMax (ez_Max merged).
Proof.
  intros Hc Hr. unfold merged. set (b := mergeMode bounded.1 r bounded.2 key from).
  destruct (clearDenied_fields b) as (_ & _ & _ & Hsame & Hclear & _). destruct (isDenied b) eqn:E.
  - destruct (Hclear eq_refl) as [-> _]. unfold plainMax. by rewrite ParseFloat_empty.
  - rewrite (Hsame eq_refl). unfold b. destruct (mergeMode_fields bounded.1 bounded.2) as (_ & _ & -> & _). rewrite bounded_max. by apply tighterMax_plain.
Qed.

Lemma merged_source : isDenied merged = true -> default "" (deniedBy !! key) <> "" -> ez_InheritedFrom merged = default "" (deniedBy !! key).
Proof.
  intros Hd Hn. unfold merged. destruct (clearDenied_fields (mergeMode bounded.1 r bounded.2 key from)) as (_ & _ & _ & _ & _ & H).
  apply H; [|done]. unfold isDenied in *. by rewrite mergeMode_mode, <- merged_mode.
Qed.

End merge.

(** ** The fold over a list of rules *)

Definition foldRules (rs : list EffectiveZoneRestriction) (f : Fold) : Fold :=
  fold_left (fun f r => foldRule f (ez_InheritedFrom r) r) rs f.

(** The first of the rules that denies a key. *)
Definition firstDenier (rs : list EffectiveZoneRestriction) (k : string) : option string :=
  ez_InheritedFrom <$> List.find (fun r => (keyOf r =s k) && isDenied r) rs.

Record folded (rs : list EffectiveZoneRestriction) (f : Fold) (k : string) : Prop := mkFolded {
  fd_none : fo_acc f !! k = None -> forall r, r ∈ rs -> keyOf r <> k;
  fd_read : forall e, fo_acc f !! k = Some e -> keyOf e = k /\ plainMax (ez_Max e) /\ exists r, r ∈ rs /\ keyOf r = k /\ ez_Mode r = ez_Mode e;
  fd_rank : forall e r, fo_acc f !! k = Some e -> r ∈ rs -> keyOf r = k -> modeRank (ez_Mode r) <= modeRank (ez_Mode e);
  fd_permits : forall e l v, fo_acc f !! k = Some e ->
    permits e l v = true <-> forall r, r ∈ rs -> keyOf r = k -> permits r l v = true;
  fd_allowed : forall e v, fo_acc f !! k = Some e -> isDenied e = false ->
    inAllowed (ez_Allowed e) v = true <-> forall r, r ∈ rs -> keyOf r = k -> inAllowed (ez_Allowed r) v = true;
  fd_denied : fo_deniedBy f !! k = firstDenier rs k;
  fd_source : forall e d, fo_acc f !! k = Some e -> isDenied e = true -> firstDenier rs k = Some d -> d <> "" -> ez_InheritedFrom e = d
}.

Lemma folded_empty k : folded [] emptyFold k.
Proof. split; simpl; try done; intros; exfalso; by eapply not_elem_of_nil. Qed.

Lemma find_snoc {A} (p : A -> bool) l x : List.find p (l ++ [x]) = match List.find p l with Some y => Some y | None => if p x then Some x else None end.
Proof. induction l as [|y l IH]; [done|]. simpl. by destruct (p y). Qed.

Lemma firstDenier_snoc rs r k : firstDenier (rs ++ [r]) k =
  match firstDenier rs k with Some d => Some d | None => if (keyOf r =s k) && isDenied r then Some (ez_InheritedFrom r) else None end.
Proof. unfold firstDenier. rewrite find_snoc. destruct (List.find _ rs); [done|]. simpl. by destruct (_ && _). Qed.

Lemma firstDenier_None rs k : firstDenier rs k = None -> forall r, r ∈ rs -> keyOf r = k -> isDenied r = false.
Proof.
  unfold firstDenier. intros H r Hr Hk. destruct (List.find _ rs) eqn:E; [done|].
  pose proof (List.find_none _ _ E r (proj1 (list_elem_of_In _ _) Hr)) as Hn. simpl in Hn.
  rewrite (proj2 (eqb_s_true _ _) Hk) in Hn. exact Hn.
Qed.

Lemma forall_snoc {A} (P : A -> Prop) l x : (forall y, y ∈ l ++ [x] -> P y) <-> (forall y, y ∈ l -> P y) /\ P x.
Proof. setoid_rewrite elem_of_app. setoid_rewrite list_elem_of_singleton. naive_solver. Qed.

Lemma claim_lookup m key zone k : claim m key zone !! k = match m !! k with Some d => Some d | None => if key =s k then Some zone else None end.
Proof.
  unfold claim. destruct (key =s k) eqn:E.
  - apply eqb_s_true in E as ->. destruct (m !! k) eqn:Em; [by rewrite Em|by rewrite lookup_insert_eq].
  - apply eqb_s_false in E. destruct (m !! key) eqn:Em; [by destruct (m !! k)|]. rewrite lookup_insert_ne by done. by destruct (m !! k).
Qed.

Lemma foldRule_denied f r k :
  fo_deniedBy (foldRule f (ez_InheritedFrom r) r) !! k =
  match fo_deniedBy f !! k with Some d => Some d | None => if (keyOf r =s k) && isDenied r then Some (ez_InheritedFrom r) else None end.
Proof.
  assert (H : fo_deniedBy (foldRule f (ez_InheritedFrom r) r) =
              if isDenied r then claim (fo_deniedBy f) (keyOf r) (ez_InheritedFrom r) else fo_deniedBy f).
  { unfold foldRule, isDenied. fold (keyOf r). destruct (fo_acc f !! keyOf r); [|done]. by destruct (mergeBounds _ _ _ _ _). }
  rewrite H. destruct (isDenied r); [by rewrite claim_lookup, andb_true_r|]. rewrite andb_false_r. by destruct (fo_deniedBy f !! k).
Qed.

(** What foldRule leaves at a key. *)
Lemma foldRule_acc f r k :
  fo_acc (foldRule f (ez_InheritedFrom r) r) !! k =
  if keyOf r =s k then
    Some match fo_acc f !! k with
         | None => r
         | Some cur => merged cur r k (ez_InheritedFrom r) (fo_acc f) (fo_deniedBy (foldRule f (ez_InheritedFrom r) r)) (fo_boundBy f)
         end
  else fo_acc f !! k.
Proof.
  destruct (keyOf r =s k) eqn:E.
  - apply eqb_s_true in E as <-. unfold foldRule. fold (keyOf r). destruct (fo_acc f !! keyOf r) as [cur|] eqn:Ec; simpl.
    + unfold merged, bounded. destruct (mergeBounds _ _ _ _ _) as [c b]. simpl. by rewrite lookup_insert_eq.
    + by rewrite lookup_insert_eq.
  - apply eqb_s_false in E. unfold foldRule. fold (keyOf r). destruct (fo_acc f !! keyOf r); simpl;
      [destruct (mergeBounds _ _ _ _ _); simpl|]; by rewrite lookup_insert_ne.
Qed.

Lemma folded_step rs f r k : plainMax (ez_Max r) -> folded rs f k -> folded (rs ++ [r]) (foldRule f (ez_InheritedFrom r) r) k.
Proof.
  intros Hp [Hnone Hread Hrank Hperm Hall Hden Hsrc]. pose proof (foldRule_acc f r k) as Ha. pose proof (foldRule_denied f r k) as Hd.
  rewrite Hden, <- firstDenier_snoc in Hd.
  destruct (keyOf r =s k) eqn:Ek; [apply eqb_s_true in Ek|apply eqb_s_false in Ek].
  2:{ assert (Hf : firstDenier (rs ++ [r]) k = firstDenier rs k).
      { rewrite firstDenier_snoc, (proj2 (eqb_s_false _ _) Ek). simpl. by destruct (firstDenier rs k). }
      split; rewrite ?Ha.
      - intros Hn. apply forall_snoc. eauto.
      - intros e He. destruct (Hread e He) as (? & ? & x & ? & ? & ?). repeat split; try done. exists x. rewrite elem_of_app. eauto.
      - intros e x He [Hx|Hx%list_elem_of_singleton]%elem_of_app; [by apply Hrank|by subst].
      - intros e l v He. rewrite (Hperm e l v He), forall_snoc. naive_solver.
      - intros e v He Hde. rewrite (Hall e v He Hde), forall_snoc. naive_solver.
      - done.
      - intros e d He. rewrite Hf. by apply Hsrc. }
  destruct (fo_acc f !! k) as [cur|] eqn:Ec.
  - destruct (Hread cur eq_refl) as (Hkc & Hpc & w & Hw & Hkw & Hmw).
    set (e := merged _ _ _ _ _ _ _) in Ha. split; rewrite ?Ha; try done.
    + intros _ [= <-]. split; [unfold e; by rewrite merged_key|]. split; [by apply merged_plain|].
      unfold e. rewrite merged_mode. unfold strongest. case_match.
      * exists r. rewrite elem_of_app, list_elem_of_singleton. eauto.
      * exists w. rewrite elem_of_app. eauto.
    + intros _ x [= <-] Hx Hkx. unfold e. rewrite merged_mode. unfold strongest.
      apply elem_of_app in Hx as [Hx|Hx%list_elem_of_singleton]; [pose proof (Hrank cur x eq_refl Hx Hkx)|subst x]; case_match; lia.
    + intros _ l v [= <-]. unfold e. rewrite merged_permits, andb_true_iff, (Hperm cur l v eq_refl), forall_snoc by done. naive_solver.
    + intros _ v [= <-] Hde. unfold e in *. rewrite merged_allowed, intersectAllowed_in, andb_true_iff, forall_snoc by done.
      assert (Hdc : isDenied cur = false).
      { unfold isDenied at 1 in Hde. rewrite merged_mode, strongest_denied in Hde. by apply orb_false_iff in Hde as [? _]. }
      rewrite (Hall cur v eq_refl Hdc). naive_solver.
    + intros _ d [= <-] He Hfd Hne. unfold e in *. rewrite merged_source; rewrite ?Hd, ?Hfd; done.
  - specialize (Hnone eq_refl). split; rewrite ?Ha; try done.
    + intros _ [= <-]. repeat split; try done. exists r. rewrite elem_of_app, list_elem_of_singleton. eauto.
    + intros _ x [= <-] Hx Hkx. apply elem_of_app in Hx as [Hx|Hx%list_elem_of_singleton]; [by apply Hnone in Hx|by subst].
    + intros _ l v [= <-]. rewrite forall_snoc. split; [|naive_solver]. intros He. split; [|done]. intros x Hx Hkx. by apply Hnone in Hx.
    + intros _ v [= <-] _. rewrite forall_snoc. split; [|naive_solver]. intros He. split; [|done]. intros x Hx Hkx. by apply Hnone in Hx.
    + intros _ d [= <-] He Hfd _. rewrite firstDenier_snoc in Hfd. rewrite (proj2 (eqb_s_true _ _) Ek), He in Hfd. simpl in Hfd.
      destruct (firstDenier rs k) eqn:Efd; [|by simplify_eq]. exfalso. unfold firstDenier in Efd.
      destruct (List.find _ rs) as [x|] eqn:Ef; [|done]. apply find_some in Ef as [Hx%list_elem_of_In Hb].
      apply andb_true_iff in Hb as [Hb%eqb_s_true _]. by apply Hnone in Hx.
Qed.

Lemma foldRules_app rs qs f : foldRules (rs ++ qs) f = foldRules qs (foldRules rs f).
Proof. unfold foldRules. apply fold_left_app. Qed.

Lemma folded_all rs k : (forall r, r ∈ rs -> plainMax (ez_Max r)) -> folded rs (foldRules rs emptyFold) k.
Proof.
  induction rs as [|r rs IH] using rev_ind; intros Hp; [apply folded_empty|].
  apply forall_snoc in Hp as [Hp Hr]. rewrite foldRules_app. apply folded_step; [done|]. by apply IH.
Qed.

(** ** What is emitted *)

Lemma closeEmpty_mode b s k e : isDenied e = true -> closeEmpty b s k e = e.
Proof. unfold closeEmpty, isDenied. intros ->%eqb_s_true. reflexivity. Qed.

Lemma closeEmpty_key b s k e : keyOf (closeEmpty b s k e) = keyOf e.
Proof. unfold closeEmpty. by case_match. Qed.

Lemma closeEmpty_permits b s k e l v : permits (closeEmpty b s k e) l v = permits e l v.
Proof.
  unfold closeEmpty. destruct (_ && _) eqn:E; [|done]. apply andb_true_iff in E as [Em%eqb_s_true Ea%bool_decide_eq_true].
  unfold permits. rewrite Ea. simpl. by rewrite andb_false_r.
Qed.

(** The rules the fold of [rs] emits. *)
Definition emitted (suffix : string) (rs : list EffectiveZoneRestriction) : list EffectiveZoneRestriction :=
  let f := foldRules rs emptyFold in (fun ke => closeEmpty (fo_boundBy f) suffix ke.1 ke.2) <$> map_to_list (fo_acc f).

Lemma emitted_elem suffix rs e : e ∈ emitted suffix rs <->
  exists k cur, fo_acc (foldRules rs emptyFold) !! k = Some cur /\ e = closeEmpty (fo_boundBy (foldRules rs emptyFold)) suffix k cur.
Proof.
  unfold emitted. rewrite list_elem_of_fmap. split.
  - intros ([k cur] & -> & H%elem_of_map_to_list). eauto.
  - intros (k & cur & H & ->). exists (k, cur). split; [done|]. by apply elem_of_map_to_list.
Qed.

(** What the rule emitted for a key says of the rules read for it. *)
Record summary (rs : list EffectiveZoneRestriction) (e : EffectiveZoneRestriction) : Prop := mkSummary {
  sm_read : exists r, r ∈ rs /\ keyOf r = keyOf e;
  sm_permits : forall l v, permits e l v = true <-> forall r, r ∈ rs -> keyOf r = keyOf e -> permits r l v = true;
  sm_denied : isDenied e = true <->
    (exists r, r ∈ rs /\ keyOf r = keyOf e /\ isDenied r = true) \/
    (exists r, r ∈ rs /\ keyOf r = keyOf e /\ isLimited r = true) /\
    (forall r, r ∈ rs -> keyOf r = keyOf e -> isRequired r = false) /\
    (forall v, exists r, r ∈ rs /\ keyOf r = keyOf e /\ inAllowed (ez_Allowed r) v = false);
  sm_required : isRequired e = true <->
    (exists r, r ∈ rs /\ keyOf r = keyOf e /\ isRequired r = true) /\
    forall r, r ∈ rs -> keyOf r = keyOf e -> isDenied r = false;
  sm_source : forall d, firstDenier rs (keyOf e) = Some d -> d <> "" -> ez_InheritedFrom e = d
}.

Lemma rank_required m : modeRank m = 2 <-> m = ZoneRestrictionRequired.
Proof.
  unfold modeRank. destruct (m =s _) eqn:E; [apply eqb_s_true in E as ->; done|]. destruct (m =s ZoneRestrictionRequired) eqn:E2.
  - apply eqb_s_true in E2 as ->. done.
  - apply eqb_s_false in E2. case_match; done.
Qed.

Lemma rank_limited m : modeRank m = 1 <-> m = ZoneRestrictionLimited.
Proof.
  unfold modeRank. destruct (m =s _) eqn:E; [apply eqb_s_true in E as ->; done|]. destruct (m =s ZoneRestrictionRequired) eqn:E2; [apply eqb_s_true in E2 as ->; done|].
  destruct (m =s ZoneRestrictionLimited) eqn:E3; [apply eqb_s_true in E3 as ->; done|]. apply eqb_s_false in E3. done.
Qed.

(** The rules of a key forbid some value exactly when one of them does. *)
Lemma some_forbids (rs : list EffectiveZoneRestriction) k v : ~ (forall r, r ∈ rs -> keyOf r = k -> inAllowed (ez_Allowed r) v = true) <->
  exists r, r ∈ rs /\ keyOf r = k /\ inAllowed (ez_Allowed r) v = false.
Proof.
  split; [|intros (r & Hr & Hk & Hf) H; by rewrite (H r Hr Hk) in Hf].
  intros Hn. destruct (existsb (fun r => (keyOf r =s k) && negb (inAllowed (ez_Allowed r) v)) rs) eqn:E.
  - apply existsb_exists in E as (r & Hr%list_elem_of_In & [Hk%eqb_s_true Hf%negb_true_iff]%andb_true_iff). eauto.
  - exfalso. apply Hn. intros r Hr Hk. apply not_false_iff_true. intros Hf. apply not_true_iff_false in E. apply E, existsb_exists.
    exists r. rewrite <- list_elem_of_In, Hk, Hf, String.eqb_refl. done.
Qed.

(** The mode of the entry of a key is the strongest of its rules'. *)
Lemma entry_mode rs k cur : (forall r, r ∈ rs -> plainMax (ez_Max r)) -> fo_acc (foldRules rs emptyFold) !! k = Some cur ->
  (isDenied cur = true <-> exists r, r ∈ rs /\ keyOf r = k /\ isDenied r = true) /\
  (isRequired cur = true <-> (exists r, r ∈ rs /\ keyOf r = k /\ isRequired r = true) /\ forall r, r ∈ rs -> keyOf r = k -> isDenied r = false) /\
  (isLimited cur = true <-> (exists r, r ∈ rs /\ keyOf r = k /\ isLimited r = true) /\
     (forall r, r ∈ rs -> keyOf r = k -> isRequired r = false) /\ forall r, r ∈ rs -> keyOf r = k -> isDenied r = false).
Proof.
  intros Hp Hl. destruct (folded_all rs k Hp) as [_ Hread Hrank _ _ _ _]. destruct (Hread _ Hl) as (Hk & _ & w & Hw & Hkw & Hmw).
  unfold isDenied, isRequired, isLimited. setoid_rewrite eqb_s_true. setoid_rewrite eqb_s_false.
  assert (R : forall r, r ∈ rs -> keyOf r = k -> modeRank (ez_Mode r) <= modeRank (ez_Mode cur)) by eauto.
  assert (B : forall m, modeRank m <= 3) by (intros m; apply (rank_denied m)).
  assert (D : forall m, m = ZoneRestrictionDenied <-> modeRank m = 3) by (intros m; symmetry; apply (rank_denied m)).
  assert (Q : forall m, m = ZoneRestrictionRequired <-> modeRank m = 2) by (intros m; symmetry; apply rank_required).
  assert (L : forall m, m = ZoneRestrictionLimited <-> modeRank m = 1) by (intros m; symmetry; apply rank_limited).
  setoid_rewrite D. setoid_rewrite Q. setoid_rewrite L. pose proof (B (ez_Mode cur)). split_and!.
  - split; [intros; exists w; by rewrite Hmw|]. intros (r & H1 & H2 & H3). specialize (R r H1 H2). lia.
  - split; [intros E; split; [exists w; by rewrite Hmw|intros r H1 H2; specialize (R r H1 H2); lia]|].
    intros [(r & H1 & H2 & H3) Hn]. specialize (R r H1 H2). specialize (Hn w Hw Hkw). rewrite Hmw in Hn. lia.
  - split; [intros E; split_and!; [exists w; by rewrite Hmw|intros r H1 H2; specialize (R r H1 H2); lia..]|].
    intros ((r & H1 & H2 & H3) & Hq & Hn). specialize (R r H1 H2). specialize (Hn w Hw Hkw). specialize (Hq w Hw Hkw). rewrite Hmw in *. lia.
Qed.

Lemma emitted_summary suffix rs (Hp : forall r, r ∈ rs -> plainMax (ez_Max r)) :
  (forall e, e ∈ emitted suffix rs -> summary rs e) /\
  (forall r, r ∈ rs -> exists e, e ∈ emitted suffix rs /\ keyOf e = keyOf r) /\
  (forall e e', e ∈ emitted suffix rs -> e' ∈ emitted suffix rs -> keyOf e = keyOf e' -> e = e').
Proof.
  split; [|split].
  - intros e (k & cur & Hl & ->)%emitted_elem. destruct (folded_all rs k Hp) as [_ Hread Hrank Hperm Hall _ Hsrc].
    destruct (Hread _ Hl) as (Hk & _ & w & Hw & Hkw & Hmw). destruct (entry_mode rs k cur Hp Hl) as (Md & Mq & Ml).
    assert (Hclosed : isLimited cur && bool_decide (ez_Allowed cur = Some []) = true <->
      isLimited cur = true /\ forall v, exists r, r ∈ rs /\ keyOf r = k /\ inAllowed (ez_Allowed r) v = false).
    { rewrite andb_true_iff, bool_decide_eq_true, <- allowed_nothing. split; intros [Hlim Hv]; (split; [done|]); intros v; specialize (Hv v);
        assert (Hde : isDenied cur = false) by (unfold isDenied, isLimited in *; apply eqb_s_true in Hlim as ->; done).
      - apply some_forbids. rewrite <- (Hall cur v Hl Hde), Hv. done.
      - apply some_forbids in Hv. apply not_true_iff_false. by rewrite (Hall cur v Hl Hde). }
    split; rewrite ?closeEmpty_key, ?Hk.
    + eauto.
    + intros l v. rewrite closeEmpty_permits. by apply Hperm.
    + unfold closeEmpty. fold (isLimited cur). destruct (_ && _) eqn:E; cbn [ez_Mode isDenied].
      * destruct (proj1 Hclosed ltac:(done)) as [Hlim Hv]. apply Ml in Hlim as (H1 & H2 & H3). split; [|done]. intros _. right. by split_and!.
      * rewrite Md. split; [by left|]. intros [H|(H1 & H2 & H3)]; [done|]. destruct (isDenied cur) eqn:Ed; [by apply Md|]. exfalso. assert (Hlim : isLimited cur = true).
        { apply Ml. split_and!; [done..|]. intros r Hr Hkr. apply not_true_iff_false. intros Hd. enough (false = true) by done. apply Md. eauto. }
        enough (false = true) by done. by apply Hclosed.
    + unfold closeEmpty. fold (isLimited cur). destruct (_ && _) eqn:E; [|exact Mq].
      destruct (proj1 Hclosed ltac:(done)) as [Hlim _]. apply Ml in Hlim as (_ & H2 & _). split; [done|]. intros [(r & Hr & Hkr & Hq) _]. by rewrite (H2 r Hr Hkr) in Hq.
    + intros d Hd Hne. assert (Hdc : isDenied cur = true).
      { unfold firstDenier in Hd. destruct (List.find _ rs) as [x|] eqn:Ef; [|done]. apply find_some in Ef as [Hx%list_elem_of_In Hb].
        apply andb_true_iff in Hb as [Hb%eqb_s_true Hb2]. apply Md. eauto. }
      rewrite closeEmpty_mode by done. by apply (Hsrc cur d).
  - intros r Hr. destruct (folded_all rs (keyOf r) Hp) as [Hnone Hread _ _ _ _ _].
    destruct (fo_acc (foldRules rs emptyFold) !! keyOf r) as [cur|] eqn:Hl; [|by apply Hnone in Hr].
    eexists. split; [apply emitted_elem; eauto|]. rewrite closeEmpty_key. by apply Hread.
  - intros e e' (k & c & Hc & ->)%emitted_elem (k' & c' & Hc' & ->)%emitted_elem. rewrite !closeEmpty_key.
    destruct (fd_read _ _ _ (folded_all rs k Hp) _ Hc) as (-> & _). destruct (fd_read _ _ _ (folded_all rs k' Hp) _ Hc') as (-> & _).
    intros ->. by simplify_eq.
Qed.

(** ** The chain and the union *)

Definition chainRules (chain : list RuledZone) : list EffectiveZoneRestriction := concat (map declaredRules chain).

Lemma declaredRules_from z r : r ∈ declaredRules z -> ez_InheritedFrom r = rz_Name z.
Proof.
  unfold declaredRules. destruct (rz_Restrictions z) as [[entry caps ops]|]; [|intros H; by apply not_elem_of_nil in H]. simpl.
  rewrite !elem_of_app, !list_elem_of_fmap. intros [H|[(c & -> & _)|(o & -> & _)]]; try done.
  destruct entry; [by apply list_elem_of_singleton in H as ->|by apply not_elem_of_nil in H].
Qed.

Lemma fold_zone z rs f : (forall r, r ∈ rs -> ez_InheritedFrom r = rz_Name z) ->
  fold_left (fun f r => foldRule f (rz_Name z) r) rs f = foldRules rs f.
Proof.
  revert f. induction rs as [|r rs IH]; intros f H; [done|]. unfold foldRules. simpl. rewrite (H r) by (by left).
  apply IH. intros x Hx. apply H. by right.
Qed.

Lemma foldChain_rules chain : foldChain chain = foldRules (chainRules chain) emptyFold.
Proof.
  unfold foldChain, chainRules. generalize emptyFold. induction chain as [|z chain IH]; intros f; [done|]. simpl.
  rewrite foldRules_app, IH. f_equal. apply fold_zone. apply declaredRules_from.
Qed.

Lemma sliceStable_elem {A} (less : A -> A -> bool) l x : x ∈ sliceStable less l <-> x ∈ l.
Proof. by rewrite sliceStable_perm. Qed.

Lemma resolve_emitted chain e : e ∈ (resolveZoneRestrictions chain).1 <-> e ∈ emitted chainSuffix (chainRules chain).
Proof. unfold resolveZoneRestrictions. cbn [fst]. by rewrite sliceStable_elem, foldChain_rules. Qed.

(** The rules the union reads, and the zones whose rules it cannot. *)
Definition readable (byName : gmap string RuledZone) (name : string) : option RuledZone :=
  z ← byName !! name; match unresolvedReason z with None => Some z | Some _ => None end.
Definition unionRules (zones : list RuledZone) (containing : list string) : list EffectiveZoneRestriction :=
  concat ((fun n => match readable (zonesByName zones) n with Some z => publishedRules z | None => [] end) <$> sort_Strings containing).

Lemma unionStep_fold zones names : forall f u,
  fold_left (unionStep (zonesByName zones)) names (f, u) =
  (foldRules (concat ((fun n => match readable (zonesByName zones) n with Some z => publishedRules z | None => [] end) <$> names)) f,
   u ++ List.filter (fun n => match readable (zonesByName zones) n with Some _ => false | None => true end) names).
Proof.
  induction names as [|n names IH]; intros f u; [by rewrite app_nil_r|]. rewrite fmap_cons. cbn [fold_left List.filter concat].
  unfold unionStep at 2, readable at 1 3. destruct (zonesByName zones !! n) as [z|]; simpl; [destruct (unresolvedReason z)|]; rewrite IH, ?foldRules_app;
    by rewrite <- ?(assoc (++)).
Qed.

Lemma union_emitted zones containing e : e ∈ unionEffectiveRestrictions zones containing <-> e ∈ emitted unionSuffix (unionRules zones containing).
Proof.
  unfold unionEffectiveRestrictions, unionEffectiveRestrictionsWithUnresolved. destruct containing as [|c cs].
  - by unfold unionRules, emitted.
  - rewrite unionStep_fold. unfold fst. by rewrite sliceStable_elem.
Qed.

Lemma union_unresolved zones containing n :
  n ∈ (unionEffectiveRestrictionsWithUnresolved zones containing).2 <-> n ∈ containing /\ readable (zonesByName zones) n = None.
Proof.
  unfold unionEffectiveRestrictionsWithUnresolved. destruct containing as [|c cs]; [cbn [snd]; split; [intros H; by apply not_elem_of_nil in H|intros [H _]; by apply not_elem_of_nil in H]|].
  rewrite unionStep_fold. cbn [snd app]. rewrite list_elem_of_In, filter_In, <- list_elem_of_In, elem_of_sort_Strings. destruct (readable _ n); naive_solver.
Qed.

(** C13 The fold never drops a constraint it read, and invents none. For a chain with no NaN among its maxima, every
    (axis, subject) some zone of the chain rules has exactly one resolved rule, and no other is emitted. That rule
    lets the subject run at a level and as a value exactly when every rule of the chain does (the tighter bound,
    the intersection of the allow-lists, no denial); it demands the subject exactly when some rule demands it and
    none denies it; it denies the subject exactly when some rule denies it, or some rule limits it, none demands
    it and no value is on every allow-list; and when a rule denies, it names the outermost zone that does. *)
Theorem resolve_keeps_every_constraint chain
  (Hplain : forall r, r ∈ chainRules chain -> plainMax (ez_Max r)) :
  let eff := (resolveZoneRestrictions chain).1 in
  (forall r, r ∈ chainRules chain -> exists e, e ∈ eff /\ keyOf e = keyOf r) /\
  (forall e, e ∈ eff -> summary (chainRules chain) e) /\
  (forall e e', e ∈ eff -> e' ∈ eff -> keyOf e = keyOf e' -> e = e').
Proof.
  simpl. setoid_rewrite resolve_emitted. destruct (emitted_summary chainSuffix _ Hplain) as (H1 & H2 & H3). done.
Qed.


(** The condition on NaN is needed: a maximum that parses as NaN stays in place of a number. *)
Example nan_hides_the_bound : tighterMax "NaN" "5" = "NaN".
Proof. vm_compute. reflexivity. Qed.

(** ** Examples *)

Definition exFleetZone (name parent : string) : FleetZone :=
  mkFleetZone name "plant" ("u-" +:+ name) ∅ (mkFleetZoneSpec 4 [] parent None) (mkFleetZoneStatus [] [] 0).
Definition exRuled (name parent : string) (gen : Z) (r : option ZoneRestrictions) (eff : option (list EffectiveZoneRestriction)) : RuledZone :=
  mkRuledZone (exFleetZone name parent) gen r eff
    (match eff with Some _ => [mkZoneCondition ZoneCondRestrictionsResolved ConditionTrue "Resolved"] | None => [] end).
Definition exOperating (subject mode max : string) (allowed : list string) : option ZoneRestrictions :=
  Some (mkZoneRestrictions None [] [mkOperatingRule subject mode max allowed "policy"]).
Definition exChain : list RuledZone :=
  [exRuled "site" "" 1 (exOperating "chemical" ZoneRestrictionLimited "" ["bleach"; "peroxide"]) None;
   exRuled "ward" "site" 1 (exOperating "speed" ZoneRestrictionLimited "0.4" []) None;
   exRuled "bay" "ward" 1 (exOperating "chemical" ZoneRestrictionLimited "" ["peroxide"; "quat"]) None].

Ltac each_plain := let r := fresh in let H := fresh in intros r H; vm_compute in H; repeat (apply elem_of_cons in H as [->|H]; [vm_compute; exact I || reflexivity|]); by apply not_elem_of_nil in H.

Lemma resolve_keeps_every_constraint_witness :
  (resolveZoneRestrictions exChain).1 =
    [mkEffective ZoneAxisOperating "chemical" ZoneRestrictionLimited "" (Some ["peroxide"]) "policy" "bay";
     mkEffective ZoneAxisOperating "speed" ZoneRestrictionLimited "0.4" None "policy" "ward"] /\
  forall e, e ∈ (resolveZoneRestrictions exChain).1 -> summary (chainRules exChain) e.
Proof. split; [vm_compute; reflexivity|]. apply (resolve_keeps_every_constraint exChain). each_plain. Defined.

Definition exPublished : list RuledZone :=
  [exRuled "corridor" "" 1 None (Some [mkEffective ZoneAxisOperating "uv" ZoneRestrictionLimited "5" None "" "corridor"]);
   exRuled "bay" "" 1 None (Some [mkEffective ZoneAxisOperating "uv" ZoneRestrictionRequired "" None "" "hospital"]);
   exRuled "annex" "" 1 None None].


(** An entry of the fold has the axis and the subject of a rule read. *)
Lemma foldRules_origin rs k e : fo_acc (foldRules rs emptyFold) !! k = Some e ->
  exists r, r ∈ rs /\ ez_Axis e = ez_Axis r /\ ez_Subject e = ez_Subject r /\ keyOf r = k.
Proof.
  revert e. induction rs as [|r rs IH] using rev_ind; intros e; [done|]. rewrite foldRules_app. unfold foldRules at 1. cbn [fold_left].
  rewrite foldRule_acc. setoid_rewrite elem_of_app. setoid_rewrite list_elem_of_singleton. destruct (keyOf r =s k) eqn:Ek.
  - apply eqb_s_true in Ek. intros [= <-]. destruct (fo_acc (foldRules rs emptyFold) !! k) as [cur|]; [|by exists r; eauto].
    destruct (IH cur eq_refl) as (x & Hx & Ha & Hs & Hk). exists x. unfold merged.
    rewrite (proj1 (clearDenied_fields _ _ _ _)), (proj1 (proj2 (clearDenied_fields _ _ _ _))).
    rewrite (proj1 (mergeMode_fields _ _ _ _ _)), (proj1 (proj2 (mergeMode_fields _ _ _ _ _))).
    rewrite (proj1 (bounded_fields _ _ _ _ _)), (proj1 (proj2 (bounded_fields _ _ _ _ _))). eauto.
  - intros H. destruct (IH e H) as (x & Hx & ?). exists x. eauto.
Qed.

Lemma emitted_origin suffix rs e : e ∈ emitted suffix rs -> exists r, r ∈ rs /\ ez_Axis e = ez_Axis r /\ ez_Subject e = ez_Subject r.
Proof.
  intros (k & cur & Hl & ->)%emitted_elem. destruct (foldRules_origin rs k cur Hl) as (r & Hr & Ha & Hs & _). exists r.
  unfold closeEmpty. case_match; eauto.
Qed.
