(* ===== verification/ExecutorGate.v ===== *)
(** The executor guard's controller half (src/internal/controller/executor_gate.go, with pushCancel,
    robotUnderEstop and leaseTimings of fleetaction_controller.go): which robots are asked to cancel an
    action, and when a robot's record of it is cleared. Each call to the API server, the adapter, the
    clock and the orphan clock is an event; between two events the cluster may change in any way, a
    cached read may answer any version the robot ever had, and an answer may be lost. *)

From S2P Require Import Prelude.
From S2P Require Import Types.
From S2P Require Import Conc.
From S2P Require Import Along.
From S2P Require Import EstopScope.
From S2P Require Import Command.
From S2P Require Import ExecutorGuard.

(** ** Data *)

(** A Robot as the API server stores it: with its resourceVersion and status.assignedAction. *)
Record RobotObject := mkRobotObject {
  ob_rv : Z;
  ob_Robot : Robot;
  ob_AssignedAction : string
}.

(** What the gate reads of a FleetAction. *)
Record GateAction := mkGateAction {
  ga_Name : string;
  ga_AssignedRobot : string;
  ga_AssignmentGeneration : Z;
  ga_Times : ActionTimes
}.

Record CancelAction := mkCancelAction {
  cx_ActionID : string;
  cx_Reason : string;
  cx_FencingToken : Z;
  cx_Cause : CancelCause
}.

(** spec.scheduling of a SwarmadaConfig, the fields the lease reads. *)
Record SchedulingSpec := mkScheduling { sp_LeaseDurationSeconds : Z; sp_ClockSkewMarginSeconds : Z }.

Inductive readError := NotFound | Unread.
Inductive writeError := WriteConflict | WriteFailed.

Inductive gateError :=
| ErrReadRobot (robot : string)
| ErrReadStops (robot : string)
| ErrRelease (robot : string) (e : writeError)
| ErrReadRecord (robot : string)
| ErrListRobots
| ErrReadAction.

(** ** Events *)

Inductive GateEv :=
| ELiveGet (robot : string)                        (* liveReader().Get of a Robot *)
| EZones                                           (* liveReader().List of the zones *)
| EConfigs                                         (* and of the configs *)
| ECancel (robot : string) (c : CancelAction)      (* Commander.PushCancelAction *)
| EGet (robot : string)                            (* the cached Get of a Robot *)
| EPatch (robot : string) (rv : Z) (o : RobotObject) (* status patch under a resourceVersion *)
| ELiveGetAction (action : string)
| ELiveList                                        (* liveReader().List of the Robots *)
| ENow
| ESince (action : string) (now : Time)            (* the orphan clock *)
| EForget (action : string)
| EScheduling.                                     (* the cached List of the configs, leaseTimings *)

Definition gateResp (e : GateEv) : Type :=
  match e with
  | ELiveGet _ | EGet _ => result readError RobotObject
  | EZones => option (list FleetZone)
  | EConfigs => option (list SwarmadaConfig)
  | ECancel _ _ => result cmdError CancelActionOutcome
  | EPatch _ _ _ => option writeError
  | ELiveGetAction _ => option readError
  | ELiveList => option (list RobotObject)
  | ENow | ESince _ _ => Time
  | EForget _ => unit
  | EScheduling => option (list SchedulingSpec)
  end.

Notation G := (prog gateResp).

(** ** Operations *)

Definition executorGuardReason : string := "a previous executor may still run this action".

Definition robotUnderEstop (robot : Robot) : bool :=
  let st := r_EstopState robot in
  if (st =s RobotEstopStopping) || (st =s RobotEstopStopped) || (st =s RobotEstopFailed) then true
  else match HeldOnRecord robot with Some _ => true | None => false end.

Definition kindText (k : Kind) : string :=
  match k with KindRobot => "robot" | KindZone => "zone" | KindNamespace => "namespace" end.

Definition coverageNames (c : Coverage) : list string := (fun s => kindText (h_Kind s) +:+ "/" +:+ h_Name s) <$> c.

(** The answer of stopCovering once the zones and configs are read. *)
Definition coveredBy (zones : list FleetZone) (configs : list SwarmadaConfig) (robot : Robot) : result TooDeepError string :=
  let? cov := CoverageOf (TreeOf zones) configs robot in
  Ok (if Covered cov then String.concat ", " (coverageNames cov)
      else if robotUnderEstop robot then "robot/" +:+ r_Name robot +:+ " (estopState " +:+ r_EstopState robot +:+ ")"
      else "").

Definition stopCovering (robot : Robot) : G (result gateError string) :=
  let* zones := trigger EZones in
  match zones with
  | None => Ret (Err (ErrReadStops (r_Name robot)))
  | Some zones =>
      let* configs := trigger EConfigs in
      match configs with
      | None => Ret (Err (ErrReadStops (r_Name robot)))
      | Some configs =>
          match coveredBy zones configs robot with
          | Ok s => Ret (Ok s)
          | Err _ => Ret (Err (ErrReadStops (r_Name robot)))
          end
      end
  end.

(** The adapter's confirmation and disposition; a Command that failed is not confirmed. *)
Definition pushCancel (action : GateAction) (robot reason : string) (cause : CancelCause) : G (bool * CancelDisposition) :=
  let* out := trigger (ECancel robot (mkCancelAction (ga_Name action) reason (FencingToken (ga_AssignmentGeneration action)) cause)) in
  match out with
  | Err _ => Ret (false, CancelStoppedSafely)
  | Ok out => Ret (co_Acknowledged out, co_Disposition out)
  end.

Definition stopUnconfirmed (d : CancelDisposition) : bool := match d with CancelStopUnconfirmed => true | _ => false end.

(** One robot that records the action, once its stops are known: the cancel it is asked for. *)
Definition askRecorder (commander : bool) (action : GateAction) (moveAuthorized : bool) (robot covered : string) : G Recorder :=
  if commander && negb (KeepsRecord covered moveAuthorized) then
    let* (ok, disp) := pushCancel action robot executorGuardReason CancelCauseUnspecified in
    Ret (mkRecorder robot (ok && negb (stopUnconfirmed disp)) false covered)
  else Ret (mkRecorder robot false false covered).

(** The gate's loop over the robots it is given. *)
Fixpoint askRecorders (commander : bool) (action : GateAction) (moveAuthorized : bool) (robots : list RobotObject)
    (recorders : list Recorder) : G (result gateError (list Recorder)) :=
  match robots with
  | [] => Ret (Ok recorders)
  | ro :: robots =>
      let name := r_Name (ob_Robot ro) in
      if (ob_AssignedAction ro <>s ga_Name action) || (name =s ga_AssignedRobot action)
      then askRecorders commander action moveAuthorized robots recorders
      else
        let* live := trigger (ELiveGet name) in
        match live with
        | Err NotFound => askRecorders commander action moveAuthorized robots recorders
        | Err Unread => Ret (Err (ErrReadRobot name))
        | Ok rb =>
            if ob_AssignedAction rb <>s ga_Name action
            then askRecorders commander action moveAuthorized robots recorders
            else
              let* covered := stopCovering (ob_Robot rb) in
              match covered with
              | Err e => Ret (Err e)
              | Ok covered =>
                  let* rec := askRecorder commander action moveAuthorized (r_Name (ob_Robot rb)) covered in
                  askRecorders commander action moveAuthorized robots (recorders ++ [rec])
              end
        end
  end.

Definition setPhase (r : Robot) (p : RobotPhase) : Robot :=
  mkRobot (r_Name r) (r_Namespace r) (r_UID r) (r_Annotations r) (r_DeletionTimestamp r) (r_Zone r) (r_Manufacturer r) p
    (r_CurrentZone r) (r_BatteryPercent r) (r_Capabilities r) (r_SensorStreams r) (r_EstopHeldBy r) (r_Adapter r)
    (r_EstopState r) (r_Stops r).

Definition RobotPhaseInProgress : RobotPhase := "InProgress".
Definition RobotPhaseAssigned : RobotPhase := "Assigned".

(** The Robot releaseRecord writes. *)
Definition released (o : RobotObject) : RobotObject :=
  let r := ob_Robot o in
  mkRobotObject (ob_rv o)
    (if (r_Phase r =s RobotPhaseInProgress) || (r_Phase r =s RobotPhaseAssigned) then setPhase r RobotPhaseIdle else r) "".

Definition releaseRecord (action : GateAction) (robot : string) : G (option gateError) :=
  let* rb := trigger (EGet robot) in
  match rb with
  | Err NotFound => Ret None
  | Err Unread => Ret (Some (ErrReadRecord robot))
  | Ok rb =>
      if ob_AssignedAction rb <>s ga_Name action then Ret None
      else
        let* err := trigger (EPatch robot (ob_rv rb) (released rb)) in
        match err with None => Ret None | Some e => Ret (Some (ErrRelease robot e)) end
  end.

Fixpoint releaseAll (action : GateAction) (names : list string) : G (option gateError) :=
  match names with
  | [] => Ret None
  | n :: names =>
      let* err := releaseRecord action n in
      match err with Some e => Ret (Some e) | None => releaseAll action names end
  end.

Definition executorReference (action : GateAction) : Time := ReferenceOf (ga_Times action).

Definition gateInput (action : GateAction) (recorders : list Recorder) (now : Time) (skew : Duration) (moveAuthorized : bool) : Input :=
  mkGuardInput (HorizonOf (ga_Times action)) (executorReference action) recorders now skew moveAuthorized false.

Definition executorGate (commander : bool) (action : GateAction) (robots : list RobotObject) (now : Time) (skew : Duration)
    (moveAuthorized : bool) : G (result gateError Decision) :=
  let* recorders := askRecorders commander action moveAuthorized robots [] in
  match recorders with
  | Err e => Ret (Err e)
  | Ok [] => Ret (Ok noDecision)
  | Ok recorders =>
      let d := Decide (gateInput action recorders now skew moveAuthorized) in
      let* err := releaseAll action (de_Release d) in
      match err with Some e => Ret (Err e) | None => Ret (Ok d) end
  end.

Definition recordersDecision (commander : bool) (action : GateAction) (now : Time) (skew : Duration) (moveAuthorized : bool)
    : G (result gateError Decision) :=
  let* robots := trigger ELiveList in
  match robots with
  | None => Ret (Err ErrListRobots)
  | Some robots => executorGate commander action robots now skew moveAuthorized
  end.

Definition releaseRecorders (commander : bool) (action : GateAction) (now : Time) (skew : Duration)
    : G (result gateError (Duration * string * reason)) :=
  let* d := recordersDecision commander action now skew false in
  match d with Err e => Ret (Err e) | Ok d => Ret (Ok (de_Wait d, de_Blocked d, de_Why d)) end.

Definition defaultLeaseDuration : Duration := 30 * Second.
Definition defaultLeaseClockSkew : Duration := 5 * Second.

(** The lease's duration, its renewal period and the skew margin. *)
Definition timingsOf (configs : option (list SchedulingSpec)) : Duration * Duration * Duration :=
  let '(duration, skew) :=
    match configs with
    | Some (cfg :: _) =>
        (if 0 <? sp_LeaseDurationSeconds cfg then int64_of (sp_LeaseDurationSeconds cfg * Second) else defaultLeaseDuration,
         if 0 <? sp_ClockSkewMarginSeconds cfg then int64_of (sp_ClockSkewMarginSeconds cfg * Second) else defaultLeaseClockSkew)
    | _ => (defaultLeaseDuration, defaultLeaseClockSkew)
    end in
  (duration, Z.quot duration 3, skew).

Definition leaseTimings : G (Duration * Duration * Duration) :=
  let* configs := trigger EScheduling in Ret (timingsOf configs).

(** A deleted action as the guard sees it: no binding, no horizon, first seen gone at [since]. *)
Definition goneAction (name : string) (since : Time) : GateAction :=
  mkGateAction name "" 0 (mkActionTimes "" None since None None None).

Inductive OrphanOutcome := Requeue | RequeueAfter (d : Duration) | Done.

Definition releaseOrphanedRecords (commander : bool) (name : string) : G (result gateError OrphanOutcome) :=
  let* act := trigger (ELiveGetAction name) in
  match act with
  | None => Ret (Ok Requeue)
  | Some Unread => Ret (Err ErrReadAction)
  | Some NotFound =>
      let* robots := trigger ELiveList in
      match robots with
      | None => Ret (Err ErrListRobots)
      | Some robots =>
          if negb (existsb (fun ro => ob_AssignedAction ro =s name) robots)
          then let* _ := trigger (EForget name) in Ret (Ok Done)
          else
            let* now := trigger ENow in
            let* since := trigger (ESince name now) in
            let* (_, _, skew) := leaseTimings in
            let* d := executorGate commander (goneAction name since) robots now skew false in
            match d with
            | Err e => Ret (Err e)
            | Ok d =>
                if 0 <? de_Wait d then Ret (Ok (RequeueAfter (de_Wait d)))
                else let* _ := trigger (EForget name) in Ret (Ok Done)
            end
      end
  end.

(** ** The cluster around the controller *)

Record GateWorld := mkGateWorld {
  gw_robots : gmap string RobotObject;
  gw_versions : list (string * RobotObject);    (* every version a Robot has had: what a cache may still hold *)
  gw_next : Z;                                  (* the next resourceVersion *)
  gw_zones : list FleetZone;
  gw_configs : list SwarmadaConfig;
  gw_scheduling : list SchedulingSpec;
  gw_actions : gset string;
  gw_clock : Time;
  gw_orphans : gmap string Time                 (* the orphan clock's map *)
}.

Definition store (w : GateWorld) (n : string) (o : RobotObject) : GateWorld :=
  let o' := mkRobotObject (gw_next w) (ob_Robot o) (ob_AssignedAction o) in
  mkGateWorld (<[n := o']> (gw_robots w)) ((n, o') :: gw_versions w) (gw_next w + 1) (gw_zones w) (gw_configs w)
    (gw_scheduling w) (gw_actions w) (gw_clock w) (gw_orphans w).

Definition setOrphans (w : GateWorld) (m : gmap string Time) : GateWorld :=
  mkGateWorld (gw_robots w) (gw_versions w) (gw_next w) (gw_zones w) (gw_configs w) (gw_scheduling w) (gw_actions w)
    (gw_clock w) m.

(** What the outside world decides of one event: whether the call fails, which version a cache holds
    (none, when the number is past the list), what the adapter answers, whether a write's answer is lost. *)
Record GateChoice := mkGateChoice {
  gc_fails : bool;
  gc_version : nat;
  gc_cancel : result cmdError CancelActionOutcome;
  gc_lost : bool
}.

Definition versionsOf (w : GateWorld) (n : string) : list RobotObject :=
  snd <$> List.filter (fun v => v.1 =s n) (gw_versions w).

Definition orphanSince (c : gmap string Time) (name : string) (now : Time) : Time * gmap string Time :=
  match c !! name with Some t => (t, c) | None => (now, <[name := now]> c) end.

Definition orphanForget (c : gmap string Time) (name : string) : gmap string Time := delete name c.

Definition orNotFound (o : option RobotObject) : result readError RobotObject :=
  match o with Some o => Ok o | None => Err NotFound end.

Definition patchStored (w : GateWorld) (n : string) (rv : Z) (o : RobotObject) (x : GateChoice) : option writeError * GateWorld :=
  if gc_fails x then (Some WriteFailed, w)
  else match gw_robots w !! n with
       | None => (Some WriteFailed, w)
       | Some cur =>
           if ob_rv cur =? rv then (if gc_lost x then Some WriteFailed else None, store w n o) else (Some WriteConflict, w)
       end.

Definition perform (e : GateEv) (x : GateChoice) (w : GateWorld) : gateResp e * GateWorld :=
  match e as e return gateResp e * GateWorld with
  | ELiveGet n => (if gc_fails x then Err Unread else orNotFound (gw_robots w !! n), w)
  | EGet n => (if gc_fails x then Err Unread else orNotFound (versionsOf w n !! gc_version x), w)
  | EZones => (if gc_fails x then None else Some (gw_zones w), w)
  | EConfigs => (if gc_fails x then None else Some (gw_configs w), w)
  | ECancel _ _ => (gc_cancel x, w)
  | EPatch n rv o => patchStored w n rv o x
  | ELiveGetAction n => (if gc_fails x then Some Unread else if decide (n ∈ gw_actions w) then None else Some NotFound, w)
  | ELiveList => (if gc_fails x then None else Some (snd <$> map_to_list (gw_robots w)), w)
  | ENow => (gw_clock w, w)
  | ESince n now => let '(t, c) := orphanSince (gw_orphans w) n now in (t, setOrphans w c)
  | EForget n => (tt, setOrphans w (orphanForget (gw_orphans w) n))
  | EScheduling => (if gc_fails x then None else Some (gw_scheduling w), w)
  end.

(** What the rest of the cluster may do between two events: write or delete any Robot, change zones,
    configs and actions, and let time pass. *)
Inductive cluster : GateWorld -> GateWorld -> Prop :=
| cl_write w n o : r_Name (ob_Robot o) = n -> n <> "" -> cluster w (store w n o)
| cl_delete w n :
    cluster w (mkGateWorld (delete n (gw_robots w)) (gw_versions w) (gw_next w) (gw_zones w) (gw_configs w)
                 (gw_scheduling w) (gw_actions w) (gw_clock w) (gw_orphans w))
| cl_change w zones configs scheduling actions clock : gw_clock w <= clock ->
    cluster w (mkGateWorld (gw_robots w) (gw_versions w) (gw_next w) zones configs scheduling actions clock (gw_orphans w)).

(** An event with its answer, and a controller in the middle of a call: the cluster, what is left to run,
    and what it has seen. *)
Notation Obs := (Along.Obs gateResp).

Inductive gstep {A : Type} : GateWorld * G A * list Obs -> GateWorld * G A * list Obs -> Prop :=
| gs_cluster w w' p h : cluster w w' -> gstep (w, p, h) (w', p, h)
| gs_event w e x a w' k h : perform e x w = (a, w') -> gstep (w, Vis e k, h) (w', k a, h ++ [Seen e a]).

(** ** What the cluster guarantees *)

(** Robots are stored under their own names, and a resourceVersion names one version of a Robot. *)
Record gateWf (w : GateWorld) : Prop := mkGateWf {
  wf_named n o : (n, o) ∈ gw_versions w -> r_Name (ob_Robot o) = n /\ n <> "";
  wf_kept n o : gw_robots w !! n = Some o -> (n, o) ∈ gw_versions w;
  wf_fresh n o : (n, o) ∈ gw_versions w -> ob_rv o < gw_next w;
  wf_version n o o' : (n, o) ∈ gw_versions w -> (n, o') ∈ gw_versions w -> ob_rv o = ob_rv o' -> o = o'
}.

Lemma store_wf w n o : r_Name (ob_Robot o) = n -> n <> "" -> gateWf w -> gateWf (store w n o).
Proof.
  intros Hn Hne [W1 W2 W3 W4]. split; simpl.
  - intros m x Hx. apply elem_of_cons in Hx as [Hx|Hx]; [by simplify_eq/=|by apply W1].
  - intros m x [[<- <-]|[? Hx]]%lookup_insert_Some; [by left|right; by apply W2].
  - intros m x Hx. apply elem_of_cons in Hx as [Hx|Hx]; [injection Hx as -> ->; simpl; lia|]. apply W3 in Hx. lia.
  - intros m x y Hx Hy Heq. apply elem_of_cons in Hx as [Hx|Hx], Hy as [Hy|Hy];
      simplify_eq/=; try done.
    + apply W3 in Hy. lia.
    + apply W3 in Hx. lia.
    + by eapply W4.
Qed.

Lemma cluster_wf w w' : cluster w w' -> gateWf w -> gateWf w'.
Proof.
  intros [? n o Hn Hne|? n|? zones configs sch acts clock Hc] Hwf; [by apply store_wf| |by destruct Hwf].
  destruct Hwf as [W1 W2 W3 W4]. split; simpl; try done. intros m o [_ Ho]%lookup_delete_Some. eauto.
Qed.

(** A patch carries an object of the robot's own name. *)
Definition writesOwn (e : GateEv) : Prop :=
  match e with EPatch n _ o => r_Name (ob_Robot o) = n /\ n <> "" | _ => True end.

Lemma perform_wf e x w a w' : perform e x w = (a, w') -> writesOwn e -> gateWf w -> gateWf w'.
Proof.
  destruct e; simpl; try (by intros [= <- <-]).
  - unfold patchStored. intros Hp [Hn Hne] Hwf. revert Hp. repeat case_match; intros [= <- <-]; try done; by apply store_wf.
  - destruct (orphanSince _ _ _) as [t c]. intros [= <- <-] _ []. by split.
  - intros [= <- <-] _ []. by split.
Qed.

(** What an answer tells: a Robot read has the name asked for, and a cached one was stored once. *)
Definition answerOf (w : GateWorld) (e : GateEv) (a : gateResp e) : Prop :=
  match e as e return gateResp e -> Prop with
  | ELiveGet n => fun a => match a with Ok o => r_Name (ob_Robot o) = n /\ n <> "" | Err _ => True end
  | EGet n => fun a => match a with Ok o => (r_Name (ob_Robot o) = n /\ n <> "") /\ (n, o) ∈ gw_versions w | Err _ => True end
  | _ => fun _ => True
  end a.

Definition answered (e : GateEv) (a : gateResp e) : Prop :=
  match e as e return gateResp e -> Prop with
  | ELiveGet n => fun a => match a with Ok o => r_Name (ob_Robot o) = n /\ n <> "" | Err _ => True end
  | EGet n => fun a => match a with Ok o => r_Name (ob_Robot o) = n /\ n <> "" | Err _ => True end
  | _ => fun _ => True
  end a.

Lemma versionsOf_elem w n i o : versionsOf w n !! i = Some o -> (n, o) ∈ gw_versions w.
Proof.
  unfold versionsOf. intros Ho%list_elem_of_lookup_2. apply list_elem_of_fmap in Ho as ([m o'] & -> & Hv).
  apply list_elem_of_In, filter_In in Hv as [Hv Hm]. apply eqb_s_true in Hm. simpl in *. subst m. by apply list_elem_of_In.
Qed.

Lemma perform_answer e x w a w' : perform e x w = (a, w') -> gateWf w -> answerOf w' e a.
Proof.
  destruct e; simpl; try done; intros [= <- <-] Hwf; destruct (gc_fails x); try done.
  - destruct (gw_robots w !! robot) as [o|] eqn:E; simpl; [|done]. by eapply wf_named, wf_kept.
  - destruct (versionsOf w robot !! gc_version x) as [o|] eqn:E; simpl; [|done]. apply versionsOf_elem in E. split; [by eapply wf_named|done].
Qed.

Lemma perform_versions e x w a w' : perform e x w = (a, w') -> gw_versions w ⊆ gw_versions w'.
Proof.
  destruct e; simpl; try (by intros [= <- <-]).
  - unfold patchStored. repeat case_match; intros [= <- <-]; simpl; set_solver.
  - destruct (orphanSince _ _ _). by intros [= <- <-].
Qed.

Lemma cluster_versions w w' : cluster w w' -> gw_versions w ⊆ gw_versions w'.
Proof. intros []; simpl; set_solver. Qed.

(** Each answer seen was one the cluster gives. *)
Definition remembers (w : GateWorld) (h : list Obs) : Prop := Forall (fun s => match s with Seen e a => answerOf w e a end) h.

Lemma remembers_mono w w' h : gw_versions w ⊆ gw_versions w' -> remembers w h -> remembers w' h.
Proof.
  intros Hv Hm. refine (Forall_impl _ _ _ Hm _). intros [e a]. destruct e; simpl; try done. destruct a; [|done]. intros [? ?]. split; [done|set_solver].
Qed.

(** Along any run the events stay allowed, the cluster well formed, and the answers remembered. *)
Lemma along_run {A : Type} J Q (c c' : GateWorld * G A * list Obs) : rtc gstep c c' ->
  (forall h e, J h e -> writesOwn e) ->
  gateWf c.1.1 -> remembers c.1.1 c.2 -> along answered J c.1.2 c.2 Q ->
  gateWf c'.1.1 /\ remembers c'.1.1 c'.2 /\ along answered J c'.1.2 c'.2 Q.
Proof.
  intros Hr HJ. induction Hr as [c|c1 c2 c3 Hs _ IH]; [done|]. intros Hw Hm Ha.
  destruct Hs as [w w' p h Hc|w e x a w' k h Hp]; simpl in *; apply IH; try done.
  - by eapply cluster_wf.
  - eapply remembers_mono; [by apply cluster_versions|done].
  - destruct Ha as [He _]. eapply perform_wf; eauto.
  - destruct Ha as [He _]. apply Forall_app. split; [eapply remembers_mono; [by eapply perform_versions|done]|].
    apply Forall_singleton. by eapply perform_answer.
  - destruct Ha as [_ Hk]. apply Hk. pose proof (perform_answer _ _ _ _ _ Hp Hw) as Hans. destruct e; try done. destruct a; [|done]. apply Hans.
Qed.

(** A write that lands finds the version it was computed from. *)
Lemma patch_finds_version w h n o cur : gateWf w -> remembers w h -> Seen (EGet n) (Ok o) ∈ h ->
  gw_robots w !! n = Some cur -> ob_rv cur = ob_rv o -> cur = o.
Proof.
  intros Hw Hm Hs Hc Hrv. apply (proj1 (Forall_forall _ _) Hm) in Hs as [_ Hs].
  eapply wf_version; eauto. by eapply wf_kept.
Qed.

(** ** What the gate has seen when it acts *)

Section Gate.
Context (commander : bool) (action : GateAction) (moveAuthorized : bool).

(** The cancel the gate pushes. *)
Definition guardCancel : CancelAction :=
  mkCancelAction (ga_Name action) executorGuardReason (FencingToken (ga_AssignmentGeneration action)) CancelCauseUnspecified.

Definition confirmed (out : CancelActionOutcome) : Prop :=
  co_Acknowledged out = true /\ stopUnconfirmed (co_Disposition out) = false.

(** What stands behind a recorder: a live read of the robot that records the action, the stops read after it,
    and, if its cancel counts as confirmed, the adapter's answer after that. *)
Definition evidence (h : list Obs) (r : Recorder) : Prop :=
  exists h0 o zs cs h2,
    h = h0 ++ [Seen (ELiveGet (rec_Robot r)) (Ok o); Seen EZones (Some zs); Seen EConfigs (Some cs)] ++ h2 /\
    ob_AssignedAction o = ga_Name action /\ rec_Robot r <> ga_AssignedRobot action /\ rec_Robot r <> "" /\
    r_Name (ob_Robot o) = rec_Robot r /\ coveredBy zs cs (ob_Robot o) = Ok (rec_Covered r) /\ rec_Ended r = false /\
    (rec_CancelConfirmed r = true ->
       exists out, Seen (ECancel (rec_Robot r) guardCancel) (Ok out) ∈ h2 /\ confirmed out).

Lemma evidence_mono h h' r : seenMore h h' -> evidence h r -> evidence h' r.
Proof.
  intros [l ->] (h0 & o & zs & cs & h2 & -> & H1 & H2 & H3 & H4 & H5 & H6 & H7).
  exists h0, o, zs, cs, (h2 ++ l). split_and!; try done.
  - by rewrite <- !app_assoc.
  - intros Hc. destruct (H7 Hc) as (out & Ho & Hok). exists out. split; [|done]. apply elem_of_app. by left.
Qed.

(** A robot that the given list says records the action was found off it, or is a recorder. *)
Definition lookedAt (h : list Obs) (rs : list Recorder) (n : string) : Prop :=
  Seen (ELiveGet n) (Err NotFound) ∈ h \/
  (exists o, Seen (ELiveGet n) (Ok o) ∈ h /\ ob_AssignedAction o <> ga_Name action) \/
  exists r, r ∈ rs /\ rec_Robot r = n.

Lemma lookedAt_mono h h' rs rs' n : seenMore h h' -> rs ⊆ rs' -> lookedAt h rs n -> lookedAt h' rs' n.
Proof.
  intros [l ->] Hrs [H|[(o & H & Ho)|(r & Hr & Hn)]].
  - left. apply elem_of_app. by left.
  - right. left. exists o. split; [|done]. apply elem_of_app. by left.
  - right. right. exists r. split; [by apply Hrs|done].
Qed.

Definition suspect (ro : RobotObject) : Prop :=
  ob_AssignedAction ro = ga_Name action /\ r_Name (ob_Robot ro) <> ga_AssignedRobot action.

Definition collected (h : list Obs) (robots : list RobotObject) (rs : list Recorder) : Prop :=
  (forall r, r ∈ rs -> evidence h r) /\ (forall ro, ro ∈ robots -> suspect ro -> lookedAt h rs (r_Name (ob_Robot ro))).

(** [J]: asking is always allowed, so only events that are no patch are constrained by [True]. *)
Definition onlyReads (h : list Obs) (e : GateEv) : Prop := match e with EPatch _ _ _ => False | _ => True end.

(** The stops read of a robot. *)
Definition stopsRead (h h' : list Obs) (robot : Robot) (res : result gateError string) : Prop :=
  match res with
  | Ok covered =>
      exists zs cs, h' = h ++ [Seen EZones (Some zs); Seen EConfigs (Some cs)] /\ coveredBy zs cs robot = Ok covered
  | Err _ => True
  end.

Lemma along_stopCovering robot h : along answered onlyReads (stopCovering robot) h (fun h' res => stopsRead h h' robot res).
Proof.
  unfold stopCovering. simpl. split; [done|]. intros [zs|] _; simpl; [|done]. split; [done|]. intros [cs|] _; simpl; [|done].
  destruct (coveredBy zs cs robot) as [covered|] eqn:Ec; simpl; [|done]. exists zs, cs. split; [by rewrite <- app_assoc|done].
Qed.

(** A robot's live read, its stops and the cancel it is asked for are evidence. *)
Lemma along_askRecorder robot h h' o covered : r_Name (ob_Robot o) = robot -> robot <> "" ->
  ob_AssignedAction o = ga_Name action -> robot <> ga_AssignedRobot action ->
  stopsRead (h ++ [Seen (ELiveGet robot) (Ok o)]) h' (ob_Robot o) (Ok covered) ->
  along answered onlyReads (askRecorder commander action moveAuthorized robot covered) h'
    (fun h2 r => rec_Robot r = robot /\ evidence h2 r).
Proof.
  intros Hn Hne Ha Hb (zs & cs & -> & Hc).
  assert (Hev : forall l conf, (conf = true -> exists out, Seen (ECancel robot guardCancel) (Ok out) ∈ l /\ confirmed out) ->
    evidence (((h ++ [Seen (ELiveGet robot) (Ok o)]) ++ [Seen EZones (Some zs); Seen EConfigs (Some cs)]) ++ l)
      (mkRecorder robot conf false covered)).
  { intros l conf Hconf. exists h, o, zs, cs, l. split_and!; try done. by rewrite <- !app_assoc. }
  unfold askRecorder. destruct (commander && _); simpl.
  - split; [done|]. intros [out|] _; simpl; (split; [done|]); apply Hev; [|done].
    intros [H1 H2%negb_true_iff]%andb_true_iff. exists out. split; [by left|done].
  - split; [done|]. rewrite <- (app_nil_r (_ ++ _)). by apply Hev.
Qed.

Lemma collected_skip h h' robots ro rs : seenMore h h' -> (suspect ro -> lookedAt h' rs (r_Name (ob_Robot ro))) ->
  collected h robots rs -> collected h' (ro :: robots) rs.
Proof.
  intros He Hro [H1 H2]. split; [eauto using evidence_mono|].
  intros ro' [->|Hin]%elem_of_cons Hs; [auto|]. eapply lookedAt_mono; [done|done|auto].
Qed.

Lemma collected_add h h' robots ro rs r : seenMore h h' -> rec_Robot r = r_Name (ob_Robot ro) -> evidence h' r ->
  collected h robots rs -> collected h' (ro :: robots) (rs ++ [r]).
Proof.
  intros He Hr Hev [H1 H2]. split.
  - intros r' [Hin| ->%list_elem_of_singleton]%elem_of_app; [eauto using evidence_mono|done].
  - intros ro' [->|Hin]%elem_of_cons Hs; [right; right; exists r; split; [set_solver|done]|].
    eapply lookedAt_mono; [done| |by apply H2]. set_solver.
Qed.

(** The loop reads only, and ends with evidence for every recorder and a look at every suspect. *)
Lemma along_askRecorders robots : forall seen h rs, collected h seen rs ->
  along answered onlyReads (askRecorders commander action moveAuthorized robots rs) h
    (fun h' res => match res with Ok rs' => collected h' (rev robots ++ seen) rs' | Err _ => True end).
Proof.
  induction robots as [|ro robots IH]; intros seen h rs Hc; cbn [askRecorders rev]; [done|]. cbv zeta.
  assert (Hnext : forall h' rs', collected h' (ro :: seen) rs' ->
    along answered onlyReads (askRecorders commander action moveAuthorized robots rs') h'
      (fun h' res => match res with Ok rs' => collected h' ((rev robots ++ [ro]) ++ seen) rs' | Err _ => True end)).
  { intros h' rs' Hc'. eapply along_conseq; [|exact (IH _ _ _ Hc')]. intros h2 [rs2|]; [|done]. by rewrite <- app_assoc. }
  destruct ((ob_AssignedAction ro <>s ga_Name action) || _) eqn:Eskip.
  { apply Hnext, (collected_skip h); [apply seen_refl| |done]. intros [H1 H2]. exfalso.
    apply orb_true_iff in Eskip as [E|E]; str_bool; congruence. }
  apply orb_false_iff in Eskip as [Ea Eb]. str_bool.
  apply along_event; [done|]. intros [rb|[]] Hans; simpl in Hans; [| |done].
  2: { apply Hnext, (collected_skip h); [apply seen_app| |done]. intros _. left. set_solver. }
  destruct Hans as [Hn Hne]. destruct (ob_AssignedAction rb <>s ga_Name action) eqn:Er; str_bool.
  { apply Hnext, (collected_skip h); [apply seen_app| |done]. intros _. right. left. exists rb. split; [set_solver|done]. }
  eapply along_bind; [apply along_grows, along_stopCovering|]. intros h' [covered|] [Hg Hs]; [|done].
  rewrite Hn. eapply along_bind; [by apply along_grows, (along_askRecorder _ h h' rb covered)|].
  intros h2 r (Hg2 & Hr & Hev). apply Hnext, (collected_add h); [|by rewrite Hr|done|done].
  eapply seen_trans; [|exact Hg2]. eapply seen_trans; [apply seen_app|exact Hg].
Qed.

(** ** Releasing *)

Context (now : Time) (skew : Duration).

(** When the lease of the action is dead: its horizon plus the skew, or the bound on an unknown one. *)
Definition deadAt : Time := Dead (gateInput action [] now skew moveAuthorized).

(** The proof that [n] is off the action, as the gate has seen it: in this order, a live read in which the
    robot records the action, a read of the stops that none covers it (unless the move is authorised), and
    then the adapter's confirmed cancel; or the lease is dead. *)
Definition provedOff (h : list Obs) (n : string) : Prop :=
  exists h0 o zs cs h2,
    h = h0 ++ [Seen (ELiveGet n) (Ok o); Seen EZones (Some zs); Seen EConfigs (Some cs)] ++ h2 /\
    ob_AssignedAction o = ga_Name action /\ n <> ga_AssignedRobot action /\
    (moveAuthorized = true \/ CoverageOf (TreeOf zs) cs (ob_Robot o) = Ok [] /\ robotUnderEstop (ob_Robot o) = false) /\
    ((exists out, Seen (ECancel n guardCancel) (Ok out) ∈ h2 /\ confirmed out) \/ deadAt <= now).

Lemma provedOff_mono h h' n : seenMore h h' -> provedOff h n -> provedOff h' n.
Proof.
  intros [l ->] (h0 & o & zs & cs & h2 & -> & H1 & H2 & H3 & H4). exists h0, o, zs, cs, (h2 ++ l). split_and!; try done.
  - by rewrite <- !app_assoc.
  - destruct H4 as [(out & Ho & Hok)|H4]; [left|by right]. exists out. split; [|done]. apply elem_of_app. by left.
Qed.

Lemma concat_cons_nonempty s l : s <> "" -> String.concat ", " (s :: l) <> "".
Proof. intros Hs. destruct l; [done|]. simpl. by destruct s. Qed.

Lemma coveredBy_none zs cs robot : coveredBy zs cs robot = Ok "" ->
  CoverageOf (TreeOf zs) cs robot = Ok [] /\ robotUnderEstop robot = false.
Proof.
  unfold coveredBy. destruct (CoverageOf _ _ _) as [[|c cov]|]; simpl; [| |done].
  - by destruct (robotUnderEstop robot).
  - intros [= H]. exfalso. revert H. apply (concat_cons_nonempty (kindText (h_Kind c) +:+ "/" +:+ h_Name c) (coverageNames cov)).
    by destruct (h_Kind c).
Qed.

Lemma evidence_proved h r : evidence h r -> proven (gateInput action [] now skew moveAuthorized) r = true -> provedOff h (rec_Robot r).
Proof.
  intros (h0 & o & zs & cs & h2 & -> & H1 & H2 & _ & H4 & H5 & H6 & H7) [Hk Hp]%andb_true_iff. exists h0, o, zs, cs, h2.
  split_and!; try done.
  - simpl in Hk. unfold KeepsRecord in Hk. destruct moveAuthorized; [by left|right]. apply coveredBy_none. rewrite H5.
    rewrite andb_true_r, negb_involutive in Hk. by apply eqb_s_true in Hk as ->.
  - rewrite H6, orb_false_r in Hp. apply orb_true_iff in Hp as [Hc|Hd]; [left; auto|right].
    unfold leaseDead in Hd. apply negb_true_iff, Z.ltb_ge in Hd. done.
Qed.

(** A write is allowed when it only clears the record of a robot proved off the action, as it was read. *)
Definition allowed (h : list Obs) (e : GateEv) : Prop :=
  match e with
  | EPatch n rv o' =>
      exists o, Seen (EGet n) (Ok o) ∈ h /\ (r_Name (ob_Robot o) = n /\ n <> "") /\ ob_rv o = rv /\ ob_AssignedAction o = ga_Name action /\ o' = released o /\ provedOff h n
  | _ => True
  end.

Lemma along_releaseRecord h n : provedOff h n ->
  along answered allowed (releaseRecord action n) h (fun h' _ => seenMore h h').
Proof.
  intros Hp. eapply along_conseq; [|apply along_grows with (Q := fun _ _ => True)]; [by intros ? ? []|].
  unfold releaseRecord. apply along_event; [done|]. intros [rb|[]] Hans; [destruct Hans|done|done].
  destruct (ob_AssignedAction rb <>s ga_Name action) eqn:Er; str_bool; [done|].
  apply along_event.
  - exists rb. split_and!; try done; [set_solver|]. eapply provedOff_mono; [apply seen_app|done].
  - by intros [] _.
Qed.

Lemma along_releaseAll names : forall h, (forall n, n ∈ names -> provedOff h n) ->
  along answered allowed (releaseAll action names) h (fun h' _ => seenMore h h').
Proof.
  induction names as [|n names IH]; intros h Hp; [apply seen_refl|].
  cbn [releaseAll]. eapply along_bind; [apply along_releaseRecord, Hp; by left|].
  intros h' [e|] He; [done|]. eapply along_conseq; [|apply IH].
  - intros h2 err H2. by eapply seen_trans.
  - intros m Hm. eapply provedOff_mono; [done|]. apply Hp. by right.
Qed.

(** What the gate's answer means for a robot it was given. *)
Definition settled (h : list Obs) (n : string) : Prop :=
  Seen (ELiveGet n) (Err NotFound) ∈ h \/
  (exists o, Seen (ELiveGet n) (Ok o) ∈ h /\ ob_AssignedAction o <> ga_Name action) \/
  provedOff h n.

Definition gateAnswer (robots : list RobotObject) (h : list Obs) (res : result gateError Decision) : Prop :=
  match res with
  | Ok d =>
      (Dispatchable d = true -> forall ro, ro ∈ robots -> suspect ro -> settled h (r_Name (ob_Robot ro))) /\
      (de_Wait d <= 0 -> Dispatchable d = true \/ MaxInt64 - Second < deadAt - now)
  | Err _ => True
  end.

Lemma settled_of h rs n : lookedAt h rs n -> (forall r, r ∈ rs -> provedOff h (rec_Robot r)) -> settled h n.
Proof. intros [H|[H|(r & Hr & <-)]] Hall; [by left|by right; left|right; right; auto]. Qed.

Lemma settled_mono h h' n : seenMore h h' -> settled h n -> settled h' n.
Proof.
  intros He [H|[(o & H & Ho)|H]]; [left|right; left; exists o; split; [|done]|right; right; by eapply provedOff_mono];
    destruct He as [l ->]; apply elem_of_app; by left.
Qed.

(** What Decide's answer rests on (Decide on the recorders found). *)
Lemma gate_decision rs : (forall r, r ∈ rs -> rec_Robot r <> "") ->
  let i := gateInput action rs now skew moveAuthorized in
  de_Release (Decide i) = rec_Robot <$> List.filter (proven (gateInput action [] now skew moveAuthorized)) rs /\
  (Dispatchable (Decide i) = true -> forall r, r ∈ rs -> proven (gateInput action [] now skew moveAuthorized) r = true).
Proof.
  intros Hn i. destruct (decide_fold i rs noDecision None Hn ltac:(done) ltac:(done)) as [H1 H2].
  change (fold_left (decideOne i) rs noDecision) with (Decide i) in H1, H2. simpl in H1, H2. split; [exact H1|].
  unfold Dispatchable. rewrite eqb_s_true. intros Hd r Hr. destruct (blocker i rs) as [b|] eqn:Eb.
  - simpl in H2. destruct H2 as [H2 _]. apply blocker_Some in Eb as [Hb _]. apply Hn in Hb. congruence.
  - apply (proj1 (first_match_None _ _)) with (x := r) in Eb; [|done].
    change (proven i r = true). by destruct (proven i r).
Qed.

(** The wait of a blocked action is positive, unless the lease's end is out of the clock's range. *)
Lemma gate_waits rs : (forall r, r ∈ rs -> rec_Robot r <> "") ->
  let d := Decide (gateInput action rs now skew moveAuthorized) in
  de_Wait d <= 0 -> Dispatchable d = true \/ MaxInt64 - Second < deadAt - now.
Proof.
  intros Hn d Hw. set (i := gateInput action rs now skew moveAuthorized) in *.
  destruct (decide_fold i rs noDecision None Hn ltac:(done) ltac:(done)) as [_ H].
  change (fold_left (decideOne i) rs noDecision) with d in H. destruct (blocker i rs) as [r|] eqn:Eb; simpl in H.
  - right. destruct H as [_ H]. apply blocker_Some in Eb as [_ Hp]. unfold proven in Hp. destruct (KeepsRecord _ _).
    + destruct H as [H _]. rewrite H in Hw. done.
    + destruct H as [H _]. rewrite H in Hw. simpl in Hp. apply orb_false_iff in Hp as [_ Hd]. unfold leaseDead in Hd.
      apply negb_false_iff, Z.ltb_lt in Hd. change (in_Now i) with now in Hd. change deadAt with (Dead i).
      destruct (Z.le_gt_cases (Dead i - now + Second) MaxInt64) as [Hr|Hr]; [|lia]. rewrite leaseWait_covers in Hw; unfold Second in *; simpl in *; lia.
  - left. destruct H as [H _]. unfold Dispatchable. by rewrite H.
Qed.

Lemma along_gate robots h :
  along answered allowed (executorGate commander action robots now skew moveAuthorized) h (gateAnswer robots).
Proof.
  unfold executorGate. eapply along_bind.
  { eapply along_weaken; [|apply (along_askRecorders robots [] h []); split; by intros ? ?%not_elem_of_nil]. by intros ? []. }
  intros h' [rs|] Hc; [|done]. cbn beta iota in Hc. rewrite app_nil_r in Hc. destruct Hc as [Hev Hlook].
  assert (Hall : forall ro, ro ∈ robots -> suspect ro -> lookedAt h' rs (r_Name (ob_Robot ro))).
  { intros ro Hro. apply Hlook. by apply list_elem_of_In, (proj1 (in_rev _ _)), list_elem_of_In. }
  destruct rs as [|r0 rs0] eqn:Ers.
  { split; [|by left]. intros _ ro Hro Hs. eapply settled_of; [by apply Hall|]. by intros r ?%not_elem_of_nil. }
  rewrite <- Ers in *. clear Ers.
  assert (Hn : forall r, r ∈ rs -> rec_Robot r <> "") by (intros r Hr; by destruct (Hev r Hr) as (?&?&?&?&?&?&?&?&?&?)).
  destruct (gate_decision rs Hn) as [Hrel Hdis].
  cbv zeta. eapply along_bind.
  - apply along_releaseAll. rewrite Hrel. intros n (r & -> & Hr)%list_elem_of_fmap.
    apply list_elem_of_In, filter_In in Hr as [Hr Hp]. apply evidence_proved; [|done]. apply Hev. by apply list_elem_of_In.
  - intros h2 [e|] He; [done|]. split; [|by apply gate_waits]. intros Hd ro Hro Hs. eapply settled_mono; [exact He|]. eapply settled_of; [by apply Hall|].
    intros r Hr. apply evidence_proved; auto.
Qed.
End Gate.

(** ** Correctness *)

Lemma released_named o : r_Name (ob_Robot (released o)) = r_Name (ob_Robot o).
Proof. unfold released. simpl. by destruct (_ || _). Qed.

Lemma allowed_own action move now skew h e : allowed action move now skew h e -> writesOwn e.
Proof. destruct e; simpl; try done. intros (x & _ & Hn & _ & _ & -> & _). by rewrite released_named. Qed.

Lemma remembers_nil w : remembers w [].
Proof. by apply Forall_nil. Qed.

(** A write that finds its resourceVersion clears the record it was computed from. *)
Lemma allowed_lands action move now skew w h n rv o' cur : gateWf w -> remembers w h ->
  allowed action move now skew h (EPatch n rv o') -> gw_robots w !! n = Some cur -> ob_rv cur = rv ->
  ob_AssignedAction cur = ga_Name action /\ o' = released cur /\ provedOff action move now skew h n.
Proof.
  intros Hw Hm (o & Hs & _ & Hrv & Ha & -> & Hp) Hc Hcur.
  by rewrite (patch_finds_version w h n o cur Hw Hm Hs Hc ltac:(congruence)).
Qed.

Lemma gate_run commander action robots now skew move w w' p h : gateWf w ->
  rtc gstep (w, executorGate commander action robots now skew move, []) (w', p, h) ->
  gateWf w' /\ remembers w' h /\
  along answered (allowed action move now skew) p h (gateAnswer action move now skew robots).
Proof.
  intros Hwf Hrun. by destruct (along_run (allowed action move now skew) (gateAnswer action move now skew robots) _ _ Hrun)
    as (Hw & Hm & Ha); [apply allowed_own|done|apply remembers_nil|apply along_gate|].
Qed.

(** C33 A robot's record is cleared only with proof. Whatever the cluster does between the calls, when the
    gate's write is about to land (the Robot is at the resourceVersion it carries), the Robot records the
    action, the write only clears that record and frees the phase, and the gate has seen the proof: a live
    read in which the robot, not the one bound, records the action; after it the stops, none of which
    covers the robot unless the move is authorised; and after that the adapter's cancel confirmed, or the
    lease is dead. *)
Theorem record_cleared_with_proof commander action robots now skew move w w' n rv o' k h cur
  (Hwf : gateWf w)
  (Hrun : rtc gstep (w, executorGate commander action robots now skew move, []) (w', Vis (EPatch n rv o') k, h))
  (Hcur : gw_robots w' !! n = Some cur) (Hrv : ob_rv cur = rv) :
  ob_AssignedAction cur = ga_Name action /\ o' = released cur /\ provedOff action move now skew h n.
Proof.
  destruct (gate_run _ _ _ _ _ _ _ _ _ _ Hwf Hrun) as (Hw & Hm & Ha & _).
  by eapply allowed_lands.
Qed.

(** An action is dispatchable only when no other robot can be running it: when the gate answers that
    nothing blocks, then each robot it was given that records the action, the bound one apart, was read
    live as deleted or off the action, or there is proof that it is off it. *)
Theorem dispatchable_means_off commander action robots now skew move w w' d h
  (Hwf : gateWf w)
  (Hrun : rtc gstep (w, executorGate commander action robots now skew move, []) (w', Ret (Ok d), h))
  (Hd : Dispatchable d = true) :
  forall ro, ro ∈ robots -> ob_AssignedAction ro = ga_Name action -> r_Name (ob_Robot ro) <> ga_AssignedRobot action ->
    settled action move now skew h (r_Name (ob_Robot ro)).
Proof.
  destruct (gate_run _ _ _ _ _ _ _ _ _ _ Hwf Hrun) as (_ & _ & Ha).
  intros ro Hro H1 H2. by apply Ha.
Qed.

(** *** Records of deleted actions *)

(** What releaseOrphanedRecords has seen when it writes: the action gone, and the moment it was first seen gone. *)
Definition orphanAllowed (name : string) (h : list Obs) (e : GateEv) : Prop :=
  match e with
  | EPatch n _ _ =>
      exists (since now : Time) skew, Seen (ELiveGetAction name) (Some NotFound) ∈ h /\ Seen ENow now ∈ h /\ Seen (ESince name now) since ∈ h /\
        allowed (goneAction name since) false now skew h e
  | _ => True
  end.

Lemma along_from {A : Type} (J J' : list Obs -> GateEv -> Prop) (p : G A) h Q :
  (forall h' e, seenMore h h' -> J h' e -> J' h' e) -> along answered J p h Q -> along answered J' p h Q.
Proof.
  revert h. induction p as [A a|A e k IH|A key k IH|A key k IH|A q _ k IH]; simpl; intros h HJ; eauto.
  intros [He Hk]. split; [apply HJ; [apply seen_refl|done]|]. intros a Ha. apply IH; [|auto].
  intros h' e' Hext. apply HJ. eapply seen_trans; [apply seen_app|done].
Qed.

Lemma along_orphans commander name h : along answered (orphanAllowed name) (releaseOrphanedRecords commander name) h (fun _ _ => True).
Proof.
  unfold releaseOrphanedRecords. apply along_event; [done|]. intros [[]|] _; [|done|done].
  apply along_event; [done|]. intros [robots|] _; [|done]. destruct (negb _); [by split|].
  apply along_event; [done|]. intros now _. apply along_event; [done|]. intros since _.
  unfold leaseTimings. simpl pbind at 2. apply along_event; [done|]. intros cfg _. simpl pbind at 1.
  destruct (timingsOf cfg) as [[duration renew] skew]. eapply along_bind.
  - eapply along_from; [|apply along_gate]. intros h' e [l ->] He. destruct e; try done.
    exists since, now, skew. split_and!; [..|exact He]; set_solver.
  - intros h' [d|] _; [|done]. by destruct (0 <? de_Wait d).
Qed.

(** The record of a deleted action is the guard's only key, and it is kept for the longest lease. When
    the write that clears it is about to land, the API server has answered that the action is gone, no stop
    covers the robot as it was read, and either its adapter confirmed the cancel or the longest lease the
    configuration admits plus the skew has passed since this process first saw the record orphaned. *)
Theorem orphan_kept_for_longest_lease commander name w w' n rv o' k h cur
  (Hwf : gateWf w)
  (Hrun : rtc gstep (w, releaseOrphanedRecords commander name, []) (w', Vis (EPatch n rv o') k, h))
  (Hcur : gw_robots w' !! n = Some cur) (Hrv : ob_rv cur = rv) :
  exists (since now : Time) skew,
    Seen (ELiveGetAction name) (Some NotFound) ∈ h /\ Seen ENow now ∈ h /\ Seen (ESince name now) since ∈ h /\
    ob_AssignedAction cur = name /\ o' = released cur /\
    provedOff (goneAction name since) false now skew h n /\
    (0 < since -> deadAt (goneAction name since) false now skew = since + (MaxLease + skew)).
Proof.
  destruct (along_run (orphanAllowed name) (fun _ _ => True) _ _ Hrun) as (Hw & Hm & Ha & _); simpl in *.
  - intros h0 e. destruct e; try done. intros (since & now & skew & _ & _ & _ & He). by apply allowed_own in He.
  - done.
  - apply remembers_nil.
  - exact (along_orphans commander name []).
  - destruct Ha as (since & now & skew & H1 & H2 & H3 & Ha). exists since, now, skew.
    destruct (allowed_lands (goneAction name since) false now skew _ _ _ _ _ _ Hw Hm Ha Hcur Hrv) as (H4 & H5 & H6). split_and!; try done.
    intros Hpos. unfold deadAt, Dead. cbn [gateInput in_Horizon in_Reference goneAction ga_Times HorizonOf at_LeaseExpiresAt].
    replace (executorReference (goneAction name since)) with since
      by (unfold executorReference, ReferenceOf, Latest; simpl; by rewrite (proj2 (Z.ltb_lt _ _) Hpos)).
    unfold time_IsZero. by rewrite (proj2 (Z.eqb_neq _ _)) by lia.
Qed.

(** ** Witnesses *)

(** A robot in zone dock that records the action haul, whose lease ended at 100 seconds. *)
Definition exGateRobot (held : list EstopHold) : Robot :=
  mkRobot "amr-1" "ns" "u1" ∅ None "dock" "" RobotPhaseInProgress "dock" None [] [] held "ad" RobotEstopNormal [].
Definition exGateObject : RobotObject := mkRobotObject 7 (exGateRobot []) "haul".
Definition exGateAction : GateAction :=
  mkGateAction "haul" "" 3 (mkActionTimes ActionPhasePending (Some (100 * Second)) (10 * Second) None None None).

Definition exDock (stopped : bool) : FleetZone :=
  mkFleetZone "dock" "ns" "u-dock" (if stopped then {[TriggerAnnotation := "operator"]} else ∅) (mkFleetZoneSpec 0 [] "" None)
    (mkFleetZoneStatus [] [] 0).
Definition exGateWorld (actions : gset string) (clock : Time) : GateWorld :=
  mkGateWorld {["amr-1" := exGateObject]} [("amr-1", exGateObject)] 8 [exDock false] [] [] actions clock ∅.

(** Nothing fails, the cache is fresh, the adapter confirms. *)
Definition exCalm : GateChoice := mkGateChoice false 0 (Ok (mkCancelActionOutcome true false "" CancelStoppedSafely)) false.

Lemma exGateWorld_wf actions clock : gateWf (exGateWorld actions clock).
Proof.
  split; simpl.
  - intros n o H. apply list_elem_of_singleton in H. by simplify_eq/=.
  - intros n o [<- <-]%lookup_singleton_Some. by left.
  - intros n o H. apply list_elem_of_singleton in H. by simplify_eq/=.
  - intros n o o' H H'. apply list_elem_of_singleton in H, H'. by simplify_eq/=.
Qed.

(** Run the next events with given choices. *)
Fixpoint drive {A : Type} (xs : list GateChoice) (c : GateWorld * G A * list Obs) : GateWorld * G A * list Obs :=
  match xs, c with
  | x :: xs, (w, Vis e k, h) => let r := perform e x w in drive xs (r.2, k r.1, h ++ [Seen e r.1])
  | _, _ => c
  end.

Lemma drive_steps {A : Type} xs : forall c : GateWorld * G A * list Obs, rtc gstep c (drive xs c).
Proof.
  induction xs as [|x xs IH]; intros [[w p] h]; [done|]. destruct p; try done. cbn [drive]. cbv zeta.
  eapply rtc_l; [|apply IH]. apply gs_event with x. by destruct (perform e x w).
Qed.

Definition pendingPatch {A : Type} (p : G A) : option (string * Z * RobotObject) :=
  match p with Vis (EPatch n rv o) _ => Some (n, rv, o) | _ => None end.

Lemma drive_to_patch {A : Type} xs (c : GateWorld * G A * list Obs) n rv o : pendingPatch (drive xs c).1.2 = Some (n, rv, o) ->
  exists k, rtc gstep c ((drive xs c).1.1, Vis (EPatch n rv o) k, (drive xs c).2).
Proof.
  pose proof (drive_steps xs c) as H. destruct (drive xs c) as [[w p] h]. simpl. destruct p as [|e k| | |]; try done.
  destruct e; try done. intros [= -> -> ->]. by exists k.
Qed.

Definition exGate : GateWorld * G (result gateError Decision) * list Obs :=
  (exGateWorld {["haul"]} (50 * Second), executorGate true exGateAction [exGateObject] (50 * Second) (5 * Second) false, []).

Lemma exGate_asks : exists w' k h,
  rtc gstep exGate (w', Vis (EPatch "amr-1" 7 (released exGateObject)) k, h) /\ gw_robots w' !! "amr-1" = Some exGateObject.
Proof.
  destruct (drive_to_patch (replicate 5 exCalm) exGate "amr-1" 7 (released exGateObject)) as [k Hrun]; [vm_compute; reflexivity|].
  eexists _, k, _. split; [exact Hrun|vm_compute; reflexivity].
Qed.

Lemma exGate_clears : exists w' h d, rtc gstep exGate (w', Ret (Ok d), h) /\ Dispatchable d = true.
Proof.
  pose proof (drive_steps (replicate 6 exCalm) exGate) as H. destruct (drive _ _) as [[w' p] h] eqn:E.
  assert (Hp : exists d, p = Ret (Ok d) /\ Dispatchable d = true).
  { change p with (w', p, h).1.2. rewrite <- E. eexists. split; [vm_compute; reflexivity|reflexivity]. }
  destruct Hp as (d & -> & Hd). eauto.
Qed.

Lemma exOrphan_asks : exists w' k h,
  rtc gstep (exGateWorld ∅ (50 * Second), releaseOrphanedRecords true "haul", [])
    (w', Vis (EPatch "amr-1" 7 (released exGateObject)) k, h) /\ gw_robots w' !! "amr-1" = Some exGateObject.
Proof.
  destruct (drive_to_patch (replicate 10 exCalm) (exGateWorld ∅ (50 * Second), releaseOrphanedRecords true "haul", [])
    "amr-1" 7 (released exGateObject)) as [k Hrun]; [vm_compute; reflexivity|].
  eexists _, k, _. split; [exact Hrun|vm_compute; reflexivity].
Qed.

Lemma record_cleared_with_proof_witness : exists h, provedOff exGateAction false (50 * Second) (5 * Second) h "amr-1".
Proof.
  destruct exGate_asks as (w' & k & h & Hrun & Hcur). exists h.
  exact (proj2 (proj2 (record_cleared_with_proof true exGateAction [exGateObject] (50 * Second) (5 * Second) false _ w' _ _ _ k h
    exGateObject (exGateWorld_wf _ _) Hrun Hcur eq_refl))).
Defined.

Lemma dispatchable_means_off_witness : exists h, settled exGateAction false (50 * Second) (5 * Second) h "amr-1".
Proof.
  destruct exGate_clears as (w' & h & d & Hrun & Hd). exists h.
  exact (dispatchable_means_off true exGateAction [exGateObject] _ _ false _ w' d h (exGateWorld_wf _ _) Hrun Hd
    exGateObject ltac:(by left) eq_refl ltac:(done)).
Defined.

Lemma orphan_kept_for_longest_lease_witness : exists (since now : Time) skew h, Seen (ESince "haul" now) since ∈ h /\
  provedOff (goneAction "haul" since) false now skew h "amr-1".
Proof.
  destruct exOrphan_asks as (w' & k & h & Hrun & Hcur).
  destruct (orphan_kept_for_longest_lease true "haul" _ w' _ _ _ k h exGateObject (exGateWorld_wf _ _) Hrun Hcur eq_refl)
    as (since & now & skew & _ & _ & H3 & _ & _ & H6 & _). exists since, now, skew, h. split; [exact H3|exact H6].
Defined.

(** The stops are read once, before the cancel: a stop that lands while the gate waits for the adapter's
    answer covers the robot, is recorded on it, and its record is cleared all the same, since releaseRecord
    reads the Robot again and looks only at its assignedAction. *)
Definition exDockHold : EstopHold := mkEstopHold EstopHoldFleetZone "dock" "u-dock" (50 * Second).

Definition exStopped : RobotObject := mkRobotObject 8 (exGateRobot [exDockHold]) "haul".

Example stop_after_check_is_not_seen : exists w' k h,
  rtc gstep exGate (w', Vis (EPatch "amr-1" 8 (released exStopped)) k, h) /\
  gw_robots w' !! "amr-1" = Some exStopped /\
  exists cov, CoverageOf (TreeOf (gw_zones w')) (gw_configs w') (ob_Robot exStopped) = Ok cov /\ map h_Name cov = ["dock"].
Proof.
  set (c := drive (replicate 4 exCalm) exGate).
  set (w1 := mkGateWorld (gw_robots c.1.1) (gw_versions c.1.1) (gw_next c.1.1) [exDock true] [] [] {["haul"]} (50 * Second) (gw_orphans c.1.1)).
  set (c2 := (store w1 "amr-1" exStopped, c.1.2, c.2)).
  assert (Hstop : rtc gstep exGate c2).
  { etrans; [apply (drive_steps (replicate 4 exCalm))|]. fold c. rewrite (surjective_pairing c), (surjective_pairing c.1).
    eapply rtc_l; [apply gs_cluster, (cl_change _ [exDock true] [] [] {["haul"]} (50 * Second)); vm_compute; done|].
    eapply rtc_l; [apply gs_cluster, (cl_write _ "amr-1" exStopped); done|]. apply rtc_refl. }
  destruct (drive_to_patch [exCalm] c2 "amr-1" 8 (released exStopped)) as [k Hrun]; [vm_compute; reflexivity|].
  eexists _, k, _. split; [etrans; [exact Hstop|exact Hrun]|].
  split; [vm_compute; reflexivity|]. eexists. split; [vm_compute; reflexivity|reflexivity].
Qed.

(** A horizon further off than an int64 of nanoseconds wraps the wait below zero. The callers hold the
    action behind a positive wait, so this one is not held, although the guard names the robot that blocks it. *)
Example far_horizon_is_not_held :
  let d := Decide (gateInput (mkGateAction "haul" "" 3 (mkActionTimes ActionPhasePending (Some (2 ^ 64)) 0 None None None))
                     [mkRecorder "amr-1" false false ""] 0 (5 * Second) false) in
  de_Blocked d = "amr-1" /\ (0 <? de_Wait d) = false.
Proof. vm_compute. split; reflexivity. Qed.
