(* ===== verification/AdmissionGuards.v ===== *)
(** The stop guards among the admission webhooks (src/internal/webhook: estop_marker_guard.go,
    estop_pending_scope.go, robot_delete_guard.go, fleetaction_delete_guard.go,
    robot_status_estop_guard.go, garbage_collector.go, with HeldBy of src/internal/safety): what a request
    may change while a stop covers a robot. Each guard is a function of the request and of what its reader
    answers; a refusal is a value, its text is not modelled. *)

From S2P Require Import Prelude.
From S2P Require Import Types.
From S2P Require Import Decimal.
From S2P Require Import EstopScope.
From S2P Require Import EstopGuard.
From S2P Require Import ExecutorGuard.

(** ** Principals (estop_marker_guard.go, garbage_collector.go, fleettask_webhook.go) *)

Record UserInfo := mkUser { u_Username : string; u_Groups : list string }.

Definition serviceAccountUserPrefix : string := "system:serviceaccount:".
Definition serviceAccountsGroup : string := "system:serviceaccounts".
Definition garbageCollectorUser : string := "system:serviceaccount:kube-system:generic-garbage-collector".
Definition kubeControllerManagerUser : string := "system:kube-controller-manager".

(** strings.Cut at the first colon. *)
Fixpoint cutColon (s : string) : string * string * bool :=
  match s with
  | EmptyString => ("", "", false)
  | String c s' =>
      if charCode c =? 58 then ("", s', true)
      else let '(a, b, ok) := cutColon s' in (String c a, b, ok)
  end.

Definition isServiceAccountUsername (username : string) : bool :=
  if String.prefix serviceAccountUserPrefix username then
    let '(ns, sa, ok) := cutColon (string_drop (String.length serviceAccountUserPrefix) username) in
    ok && (ns <>s "") && (sa <>s "") && negb (snd (cutColon sa))
  else false.

(** The manager's own principal: [None] while it is not set. SetControllerPrincipal keeps it as it is when
    it refuses the name. *)
Definition SetControllerPrincipal (principal : option string) (username : string) : bool * option string :=
  if isServiceAccountUsername username then (true, Some username) else (false, principal).

Definition isControllerServiceAccount (principal : option string) (username : string) : bool :=
  match principal with Some p => username =s p | None => false end.

Definition isServiceAccountPrincipal (u : UserInfo) : bool :=
  String.prefix serviceAccountUserPrefix (u_Username u) || existsb (fun g => g =s serviceAccountsGroup) (u_Groups u).

Definition isGarbageCollector (username : string) : bool :=
  (username =s garbageCollectorUser) || (username =s kubeControllerManagerUser).

(** ** What the guards read *)

(** A Robot with the status fields the guards compare. The fields of a hardware entry, a model or the
    baseline that no guard reads by name are one opaque text. *)
Record InstalledModelStatusEntry := mkModel { mo_Name : string; mo_Status : string; mo_Rest : string }.
Record ModelGrantedCapabilityEntry := mkGranted { mg_ModelName : string; mg_Capabilities : list string }.

Definition RobotPhaseMaintenance : RobotPhase := "Maintenance".
Definition PhaseAssigned : RobotPhase := "Assigned".
Definition PhaseInProgress : RobotPhase := "InProgress".

Record FullRobot := mkFullRobot {
  fr_Robot : Robot;
  fr_AssignedAction : string;
  fr_Hardware : list HardwareComponentStatus;
  fr_InstalledModels : list InstalledModelStatusEntry;
  fr_ModelGranted : list ModelGrantedCapabilityEntry;
  fr_CapabilityRest : list string;               (* of each capability: paused, reason, degradedSince *)
  fr_EstopBaseline : option string
}.

#[export] Instance ModelGrantedCapabilityEntry_eq_dec : EqDecision ModelGrantedCapabilityEntry.
Proof. solve_decision. Defined.

(** A FleetAction as the guards read it. *)
Record GuardedAction := mkGuardedAction {
  gn_Name : string;
  gn_AssignedRobot : string;
  gn_Times : ActionTimes;
  gn_TaskOwned : bool                             (* isFleetTaskControllerRef of its controller *)
}.

Inductive getResult (A : Type) := Found (a : A) | Absent | ReadFailed.
Arguments Found {A} a.
Arguments Absent {A}.
Arguments ReadFailed {A}.

(** The answers of a guard's uncached reader. The zones and configs are read once for each robot asked
    about, so the answer is under the robot's name. *)
Record GuardReader := mkGuardReader {
  gr_world : string -> option (list FleetZone * list SwarmadaConfig);
  gr_namespace : getResult bool;                  (* its deletionTimestamp is set *)
  gr_action : string -> getResult GuardedAction;
  gr_robots : option (list FullRobot)
}.

(** Why a guard refuses; an admitted request is [None]. *)
Inductive guardRefusal :=
| NoReader | NoRequest | ReaderFailed | NotDecided (e : TooDeepError) | StopsNotRead (e : stopsError)
| MarkerWrite | PolicyUnderStop (stops : list string) | TooDeepEdit (e : option TooDeepError)
| OutOfPending (stops : list string) | OutOfInForce (stops : list string)
| HoldsStop | CoveredByStop (stops : list Holder) | ActionGoneRecord | ExecutorRecord (dead : Time)
| HeldWork (stop : Holder) | AuthorizerFailed | BadRequest | EstopStateWrite | HeldByWrite | StopsWrite
| AssignedActionWrite | BoundPhaseWrite | CurrentZoneWrite | LeavesError | ResumePhase (p : RobotPhase)
| FailedHardware (name : string) | HardwareState (name : string) | ModelState (name : string) | GrantsWrite
| CapabilitiesWrite.

(** Go's early return of an error. *)
Definition orElse (r : option guardRefusal) (k : option guardRefusal) : option guardRefusal :=
  match r with Some e => Some e | None => k end.

(** namespaceTerminating: an error, or whether the namespace is going. *)
Definition namespaceTerminating (rd : GuardReader) : result guardRefusal bool :=
  match gr_namespace rd with Found b => Ok b | Absent => Ok false | ReadFailed => Err ReaderFailed end.

(** Refuse with [why] unless the namespace is being deleted. *)
Definition unlessTerminating (rd : GuardReader) (why : guardRefusal) : option guardRefusal :=
  match namespaceTerminating rd with Err e => Some e | Ok true => None | Ok false => Some why end.

(** estopscope.Covering through the reader. *)
Definition Covering (rd : GuardReader) (robot : Robot) : result guardRefusal Coverage :=
  match gr_world rd (r_Name robot) with
  | None => Err ReaderFailed
  | Some (zones, configs) =>
      match CoverageOf (TreeOf zones) configs robot with Ok c => Ok c | Err e => Err (NotDecided e) end
  end.

(** ** The processed marker *)

Definition GuardEstopProcessedMarker (principal : option string) (req : option UserInfo) (oldAnn newAnn : gmap string string)
    : option guardRefusal :=
  if bool_decide (oldAnn !! ProcessedAnnotation = newAnn !! ProcessedAnnotation) then None
  else match req with
       | None => Some NoRequest
       | Some u => if isControllerServiceAccount principal (u_Username u) then None else Some MarkerWrite
       end.

(** ** Edits of the zone tree (estop_pending_scope.go) *)

Definition refusePropagateChangeUnderPendingStop (rd : option (string -> zoneRead)) (oldZone newZone : FleetZone) : option guardRefusal :=
  if Bool.eqb (propagatesDown oldZone) (propagatesDown newZone) then None
  else match PendingStopsOver rd (fz_Name newZone) true with
       | Err e => Some (StopsNotRead e)
       | Ok [] => None
       | Ok stops => Some (PolicyUnderStop stops)
       end.

Definition refuseDepthBeyondTheBound (after : Tree) (zone : FleetZone) : option guardRefusal :=
  match DeepestBelow after (fz_Name zone) with
  | Err e => Some (TooDeepEdit (Some e))
  | Ok (deepest, _) => if Z.of_nat MaxAncestors <? deepest then Some (TooDeepEdit None) else None
  end.

Definition refuseNarrowing (stops : list string) : option guardRefusal :=
  match stops with [] => None | _ => Some (OutOfInForce stops) end.

Definition withAnnotations (z : FleetZone) (a : gmap string string) : FleetZone :=
  mkFleetZone (fz_Name z) (fz_Namespace z) (fz_UID z) a (fz_Spec z) (fz_Status z).

(** The edit as the guard judges it: on the stored tree, with the stored zone's annotations. *)
Definition editedZone (before : Tree) (oldZone newZone : FleetZone) : FleetZone :=
  withAnnotations newZone (fz_Annotations (default oldZone (before !! fz_Name oldZone))).

Definition judgeLoss (before : Tree) (newZone : FleetZone) : option guardRefusal :=
  match EditUncovers before newZone with
  | Err e => if StopCarrier before =s "" then None else Some (NotDecided e)
  | Ok loss =>
      match el_Pending loss with
      | [] => refuseNarrowing (el_InForce loss)
      | stops => Some (OutOfPending stops)
      end
  end.

(** [zones]: ReadTree's answer through the validator's reader. *)
Definition refuseEditThatUncoversAZone (zones : option (list FleetZone)) (oldZone newZone : FleetZone) : option guardRefusal :=
  let reparented := parentOf oldZone <>s parentOf newZone in
  let narrowed := negb (Bool.eqb (propagatesDown oldZone) (propagatesDown newZone)) in
  if negb reparented && negb narrowed then None
  else match zones with
       | None => Some ReaderFailed
       | Some zones =>
           let before := TreeOf zones in
           let edited := editedZone before oldZone newZone in
           orElse (if reparented then refuseDepthBeyondTheBound (With before edited) edited else None) (judgeLoss before edited)
       end.

(** ** Moves of a robot *)

Definition pendingNames (lost : list Holder) : list string := h_Name <$> List.filter h_Pending lost.
Definition inForceNames (lost : list Holder) : list string := h_Name <$> List.filter (fun h => negb (h_Pending h)) lost.

Definition refuseMoveOutOfPendingStop (world : option (list FleetZone * list SwarmadaConfig)) (oldRobot newRobot : Robot)
    : option guardRefusal :=
  if (r_Zone oldRobot =s r_Zone newRobot) || (r_Zone oldRobot =s "") then None
  else match world with
       | None => Some ReaderFailed
       | Some (zones, configs) =>
           match MoveLoses (TreeOf zones) configs oldRobot (withZone oldRobot (r_Zone newRobot)) with
           | Err e => Some (NotDecided e)
           | Ok lost =>
               match pendingNames lost, inForceNames lost with
               | [], [] => None
               | [], inForce => Some (OutOfInForce inForce)
               | pending, _ => Some (OutOfPending pending)
               end
           end
       end.

(** ** Deletes of robots (robot_delete_guard.go, and HeldBy) *)

(** What a robot's status holds, in the order HeldBy names it; the code joins the texts, so it answers the
    empty string exactly for the empty list. *)
Inductive heldReason := HeldState (s : RobotEstopState) | HeldRecord (h : Holder) | HeldError | HeldFailed (components : list string).

Definition failedComponents (robot : FullRobot) : list string :=
  hw_Name <$> List.filter (fun hw => hw_Status hw =s HardwareFailed) (fr_Hardware robot).

Definition HeldBy (robot : FullRobot) : list heldReason :=
  let s := r_EstopState (fr_Robot robot) in
  (if (s <>s "") && (s <>s RobotEstopNormal) then [HeldState s] else []) ++
  match HeldOnRecord (fr_Robot robot) with Some h => [HeldRecord h] | None => [] end ++
  (if r_Phase (fr_Robot robot) =s RobotPhaseError then [HeldError] else []) ++
  match failedComponents robot with [] => [] | failed => [HeldFailed (sort_Strings failed)] end.

(** coveringStopsNamed: the stops that cover the robot, and those of them in force. *)
Definition coveringStopsNamed (rd : GuardReader) (robot : Robot) : result guardRefusal (list Holder * list Holder) :=
  let? cov := Covering rd robot in Ok (cov, List.filter (fun s => negb (h_Pending s)) cov).

Definition refuseUnderPendingStop (rd : option GuardReader) (robot : Robot) : option guardRefusal :=
  match rd with
  | None => Some NoReader
  | Some rd =>
      match coveringStopsNamed rd robot with
      | Err e => Some e
      | Ok ([], _) => None
      | Ok (stops, inForce) => unlessTerminating rd (CoveredByStop (match inForce with [] => stops | _ => inForce end))
      end
  end.

(** The guard's question about an action that exists, at [now]. *)
Definition recordInput (a : GuardedAction) (now : Time) : Input :=
  mkGuardInput (HorizonOf (gn_Times a)) (ReferenceOf (gn_Times a)) [] now MaxSkew false false.

Definition goneInput : Input := mkGuardInput None 0 [] 0 0 false true.

Definition refuseLosingAnExecutorRecord (rd : option GuardReader) (robot : FullRobot) (now : Time) : option guardRefusal :=
  let name := fr_AssignedAction robot in
  if name =s "" then None
  else match rd with
       | None => Some NoReader
       | Some rd =>
           match gr_action rd name with
           | ReadFailed => Some ReaderFailed
           | Absent => if fst (DeleteLosesKey (r_Name (fr_Robot robot)) goneInput) then unlessTerminating rd ActionGoneRecord else None
           | Found a =>
               let '(loses, dead) := DeleteLosesKey (r_Name (fr_Robot robot)) (recordInput a now) in
               if loses then unlessTerminating rd (ExecutorRecord dead) else None
           end
       end.

Definition validateRobotDelete (rd : option GuardReader) (robot : FullRobot) (now : Time) : option guardRefusal :=
  match HeldBy robot with
  | [] => orElse (refuseUnderPendingStop rd (fr_Robot robot)) (refuseLosingAnExecutorRecord rd robot now)
  | _ => match rd with None => Some NoReader | Some rd => unlessTerminating rd HoldsStop end
  end.

(** ** Deletes of held work (fleetaction_delete_guard.go) *)

(** The authorizer: whether a user holds estop-clear on the carrier of a stop; [None] when the question fails. *)
Definition Authorizer : Type := UserInfo -> Kind -> string -> option bool.

Definition holdsEstopClear (authz : option Authorizer) (u : UserInfo) (s : Holder) : result guardRefusal bool :=
  match authz with
  | None => Ok false
  | Some ask => match ask u (h_Kind s) (h_Name s) with Some b => Ok b | None => Err AuthorizerFailed end
  end.

Fixpoint everyStop (authz : option Authorizer) (u : UserInfo) (stops : list Holder) : option guardRefusal :=
  match stops with
  | [] => None
  | s :: stops =>
      match holdsEstopClear authz u s with
      | Err e => Some e
      | Ok false => Some (HeldWork s)
      | Ok true => everyStop authz u stops
      end
  end.

Fixpoint heldWorkLoop (rd : GuardReader) (authz : option Authorizer) (u : UserInfo) (action : string) (robots : list FullRobot)
    : option guardRefusal :=
  match robots with
  | [] => None
  | robot :: robots =>
      if fr_AssignedAction robot <>s action then heldWorkLoop rd authz u action robots
      else match Covering rd (fr_Robot robot) with
           | Err e => Some e
           | Ok [] => heldWorkLoop rd authz u action robots
           | Ok (s :: stops) =>
               match namespaceTerminating rd with
               | Err e => Some e
               | Ok true => None
               | Ok false =>
                   if isServiceAccountPrincipal u || isGarbageCollector (u_Username u) then Some (HeldWork s)
                   else orElse (everyStop authz u (s :: stops)) (heldWorkLoop rd authz u action robots)
               end
           end
  end.

Definition refuseMovingHeldWork (rd : option GuardReader) (authz : option Authorizer) (u : UserInfo) (action : string) : option guardRefusal :=
  match rd with
  | None => Some NoReader
  | Some rd => match gr_robots rd with None => Some ReaderFailed | Some robots => heldWorkLoop rd authz u action robots end
  end.

Definition validateActionDelete (principal : option string) (rd : option GuardReader) (authz : option Authorizer) (req : option UserInfo)
    (action : GuardedAction) : option guardRefusal :=
  match req with
  | None => Some NoRequest
  | Some u =>
      if isControllerServiceAccount principal (u_Username u) || isGarbageCollector (u_Username u) && gn_TaskOwned action then None
      else refuseMovingHeldWork rd authz u (gn_Name action)
  end.

(** ** Writes of robots/status (robot_status_estop_guard.go) *)

Definition boundPhase (p : RobotPhase) : bool := (p =s PhaseAssigned) || (p =s PhaseInProgress).

Definition resumeReadPhases : list RobotPhase := [RobotPhaseMaintenance; RobotPhaseOffline].

Definition resumeReadPhaseChange (was now : RobotPhase) : option RobotPhase :=
  if was =s now then None else List.find (fun p => (was =s p) || (now =s p)) resumeReadPhases.

Definition hardwareStates (l : list HardwareComponentStatus) : gmap string string :=
  fold_left (fun m h => <[hw_Name h := hw_Status h]> m) l ∅.
Definition modelStates (l : list InstalledModelStatusEntry) : gmap string string :=
  fold_left (fun m h => <[mo_Name h := mo_Status h]> m) l ∅.

(** The first name, in order, whose value differs; the code's two texts are left out. *)
Definition firstChange (before after : gmap string string) : option string :=
  List.find (fun n => negb (bool_decide (before !! n = after !! n))) (sort_Strings (elements (dom before ∪ dom after))).

Definition hardwareStateChange (was now : list HardwareComponentStatus) : option string := firstChange (hardwareStates was) (hardwareStates now).
Definition modelStatusChange (was now : list InstalledModelStatusEntry) : option string := firstChange (modelStates was) (modelStates now).

Definition hardwareEntry (hw : list HardwareComponentStatus) (name : string) : option HardwareComponentStatus :=
  List.find (fun h => hw_Name h =s name) hw.

(** The first Failed entry that is not kept as it was. *)
Definition failedChanged (was now : list HardwareComponentStatus) : option HardwareComponentStatus :=
  List.find (fun h => (hw_Status h =s HardwareFailed) && negb (bool_decide (hardwareEntry now (hw_Name h) = Some h))) was.

(** Go's equality of two maps of float64: the same keys, and values equal as floats. *)
Definition floatsEqual (a b : gmap string float64) : bool :=
  bool_decide (dom a = dom b) &&
  forallb (fun n => match a !! n, b !! n with Some x, Some y => SFeqb x y | _, _ => true end) (elements (dom a)).

Definition capabilityEqual (a b : CapabilityStatusEntry) : bool :=
  (cse_Name a =s cse_Name b) && (cse_Status a =s cse_Status b) && Bool.eqb (cse_DegradedSchedulable a) (cse_DegradedSchedulable b) &&
  floatsEqual (cse_ResolvedParameters a) (cse_ResolvedParameters b).

Fixpoint listEqual {A : Type} (eq : A -> A -> bool) (a b : list A) : bool :=
  match a, b with
  | [], [] => true
  | x :: a, y :: b => eq x y && listEqual eq a b
  | _, _ => false
  end.

Definition capabilitiesEqual (a b : FullRobot) : bool :=
  listEqual capabilityEqual (r_Capabilities (fr_Robot a)) (r_Capabilities (fr_Robot b)) &&
  bool_decide (fr_CapabilityRest a = fr_CapabilityRest b).

Definition safetyInputRefusal (old new : FullRobot) : option guardRefusal :=
  let o := fr_Robot old in
  let n := fr_Robot new in
  if fr_AssignedAction old <>s fr_AssignedAction new then Some AssignedActionWrite
  else if boundPhase (r_Phase o) && (r_Phase o <>s r_Phase n) then Some BoundPhaseWrite
  else if r_CurrentZone o <>s r_CurrentZone n then Some CurrentZoneWrite
  else if (r_Phase o =s RobotPhaseError) && (r_Phase n <>s RobotPhaseError) then Some LeavesError
  else match resumeReadPhaseChange (r_Phase o) (r_Phase n) with
  | Some p => Some (ResumePhase p)
  | None =>
  match failedChanged (fr_Hardware old) (fr_Hardware new) with
  | Some h => Some (FailedHardware (hw_Name h))
  | None =>
  match hardwareStateChange (fr_Hardware old) (fr_Hardware new) with
  | Some name => Some (HardwareState name)
  | None =>
  match modelStatusChange (fr_InstalledModels old) (fr_InstalledModels new) with
  | Some name => Some (ModelState name)
  | None =>
  if negb (bool_decide (fr_ModelGranted old = fr_ModelGranted new)) then Some GrantsWrite
  else if negb (capabilitiesEqual old new) then Some CapabilitiesWrite
  else None
  end end end end.

(** [objects]: the stored and the new Robot, as the decoder reads them. *)
Definition handleStatus (principal : option string) (subresource : string) (u : UserInfo) (objects : option (FullRobot * FullRobot))
    : option guardRefusal :=
  if subresource <>s "status" then None
  else match objects with
       | None => Some BadRequest
       | Some (old, new) =>
           if isControllerServiceAccount principal (u_Username u) then None
           else if (r_EstopState (fr_Robot old) =s r_EstopState (fr_Robot new)) &&
                   bool_decide (fr_EstopBaseline old = fr_EstopBaseline new) then
             if negb (bool_decide (r_EstopHeldBy (fr_Robot old) = r_EstopHeldBy (fr_Robot new))) then Some HeldByWrite
             else if negb (bool_decide (r_Stops (fr_Robot old) = r_Stops (fr_Robot new))) then Some StopsWrite
             else safetyInputRefusal old new
           else Some EstopStateWrite
       end.

(** ** Status writes free no robot *)

(** What a write of robots/status by anyone but the manager leaves as it was. *)
Record statusKept (old new : FullRobot) : Prop := mkStatusKept {
  sk_state : r_EstopState (fr_Robot new) = r_EstopState (fr_Robot old);
  sk_baseline : fr_EstopBaseline new = fr_EstopBaseline old;
  sk_held : r_EstopHeldBy (fr_Robot new) = r_EstopHeldBy (fr_Robot old);
  sk_stops : r_Stops (fr_Robot new) = r_Stops (fr_Robot old);
  sk_action : fr_AssignedAction new = fr_AssignedAction old;
  sk_zone : r_CurrentZone (fr_Robot new) = r_CurrentZone (fr_Robot old);
  sk_bound : boundPhase (r_Phase (fr_Robot old)) = true -> r_Phase (fr_Robot new) = r_Phase (fr_Robot old);
  sk_error : r_Phase (fr_Robot old) = RobotPhaseError -> r_Phase (fr_Robot new) = RobotPhaseError;
  sk_resume p : p ∈ resumeReadPhases -> (r_Phase (fr_Robot new) = p <-> r_Phase (fr_Robot old) = p);
  sk_failed h : h ∈ fr_Hardware old -> hw_Status h = HardwareFailed -> hardwareEntry (fr_Hardware new) (hw_Name h) = Some h;
  sk_hardware : hardwareStates (fr_Hardware new) = hardwareStates (fr_Hardware old);
  sk_models : modelStates (fr_InstalledModels new) = modelStates (fr_InstalledModels old);
  sk_grants : fr_ModelGranted new = fr_ModelGranted old;
  sk_capabilities : capabilitiesEqual old new = true
}.

Lemma find_None {A : Type} (f : A -> bool) l : List.find f l = None <-> forall x, x ∈ l -> f x = false.
Proof.
  split; [intros H x Hx; apply (find_none _ _ H), list_elem_of_In, Hx|].
  intros H. induction l as [|x l IH]; simpl; [done|]. rewrite H by by left. apply IH. intros y Hy. apply H. by right.
Qed.

Lemma firstChange_None a b : firstChange a b = None <-> b = a.
Proof.
  unfold firstChange. rewrite find_None. split.
  - intros H. apply map_eq. intros n. destruct (decide (n ∈ dom a ∪ dom b)) as [Hn|Hn].
    + specialize (H n). rewrite elem_of_sort_Strings, elem_of_elements in H. specialize (H Hn).
      apply negb_false_iff, bool_decide_eq_true in H. done.
    + apply not_elem_of_union in Hn as [Ha Hb]. by rewrite (not_elem_of_dom_1 _ _ Ha), (not_elem_of_dom_1 _ _ Hb).
  - intros -> x _. by rewrite bool_decide_eq_true_2.
Qed.

Lemma failedChanged_None was now : failedChanged was now = None <->
  forall h, h ∈ was -> hw_Status h = HardwareFailed -> hardwareEntry now (hw_Name h) = Some h.
Proof.
  unfold failedChanged. rewrite find_None. split; intros H h Hh.
  - intros Hf. specialize (H h Hh). rewrite Hf, eqb_s_refl in H. simpl in H. by apply negb_false_iff, bool_decide_eq_true in H.
  - destruct (hw_Status h =s HardwareFailed) eqn:E; [|done]. str_bool. simpl. by rewrite bool_decide_eq_true_2 by auto.
Qed.

Lemma resumeRead_None was now : resumeReadPhaseChange was now = None <-> forall p, p ∈ resumeReadPhases -> (now = p <-> was = p).
Proof.
  unfold resumeReadPhaseChange. destruct (was =s now) eqn:E; str_bool; [by subst|]. rewrite find_None. split; intros H p Hp.
  - specialize (H p Hp). apply orb_false_iff in H as [H1 H2]. str_bool. naive_solver.
  - specialize (H p Hp). apply orb_false_iff. rewrite !eqb_s_false. split; intros ->; naive_solver.
Qed.

(** The guard is exact: a write by anyone but the manager is admitted exactly when it keeps the safety inputs. *)
Theorem handleStatus_exact principal u old new : isControllerServiceAccount principal (u_Username u) = false ->
  (handleStatus principal "status" u (Some (old, new)) = None <-> statusKept old new).
Proof.
  intros Hu. unfold handleStatus. rewrite eqb_s_refl, Hu. cbn [negb]. unfold safetyInputRefusal. split.
  - repeat case_match; try done; intros _; str_bool; repeat case_bool_decide; simplify_eq/=; try done.
    split; try done; try (symmetry; assumption).
    + intros Hb. destruct (boundPhase _); [|done]. simpl in *. str_bool. congruence.
    + intros He. rewrite He, eqb_s_refl in *. simpl in *. str_bool. congruence.
    + by apply resumeRead_None.
    + by apply failedChanged_None.
    + by apply firstChange_None.
    + by apply firstChange_None.
  - intros [K1 K2 K3 K4 K5 K6 K7 K8 K9 K10 K11 K12 K13 K14].
    rewrite K1, K2, K3, K4, K5, K6, K13, !eqb_s_refl, !bool_decide_eq_true_2 by done. cbn [andb negb].
    rewrite (proj2 (resumeRead_None _ _) K9), (proj2 (failedChanged_None _ _) K10).
    unfold hardwareStateChange, modelStatusChange. rewrite (proj2 (firstChange_None _ _) K11), (proj2 (firstChange_None _ _) K12), K14.
    repeat case_if_eqn; try done; str_bool; exfalso; naive_solver.
Qed.

(** A status write cannot touch metadata or spec: the API server takes only the status of a request to
    robots/status. *)
Definition statusOnly (old new : FullRobot) : Prop :=
  r_Name (fr_Robot new) = r_Name (fr_Robot old) /\ r_Annotations (fr_Robot new) = r_Annotations (fr_Robot old) /\
  r_Zone (fr_Robot new) = r_Zone (fr_Robot old).

Lemma kept_record old new : statusOnly old new -> statusKept old new -> HeldOnRecord (fr_Robot new) = HeldOnRecord (fr_Robot old).
Proof. intros (Hn & Ha & _) K. unfold HeldOnRecord. by rewrite Hn, Ha, (sk_held _ _ K). Qed.

Lemma failedComponents_nil robot : failedComponents robot = [] <-> forall h, h ∈ fr_Hardware robot -> hw_Status h <> HardwareFailed.
Proof.
  unfold failedComponents. split.
  - intros H h Hh Hf. assert (Hx : h ∈ List.filter (fun hw => hw_Status hw =s HardwareFailed) (fr_Hardware robot)).
    { apply list_elem_of_In, filter_In. split; [by apply list_elem_of_In|]. by rewrite Hf, eqb_s_refl. }
    destruct (List.filter _ _); [by apply not_elem_of_nil in Hx|done].
  - intros H. destruct (List.filter _ _) as [|h l] eqn:E; [done|]. exfalso.
    assert (Hh : In h (List.filter (fun hw => hw_Status hw =s HardwareFailed) (fr_Hardware robot))) by (rewrite E; by left).
    apply filter_In in Hh as [Hh Hf]. str_bool. eapply H; [by apply list_elem_of_In|done].
Qed.

(** A robot held by nothing. *)
Lemma HeldBy_nil robot : HeldBy robot = [] <->
  (r_EstopState (fr_Robot robot) = "" \/ r_EstopState (fr_Robot robot) = RobotEstopNormal) /\ HeldOnRecord (fr_Robot robot) = None /\
  r_Phase (fr_Robot robot) <> RobotPhaseError /\ failedComponents robot = [].
Proof.
  unfold HeldBy. rewrite !app_nil. split.
  - intros (H1 & H2 & H3 & H4). split_and!.
    + destruct (_ && _) eqn:E in H1; [done|]. apply andb_false_iff in E as [E|E]; str_bool; auto.
    + by destruct (HeldOnRecord (fr_Robot robot)).
    + destruct (_ =s _) eqn:E in H3; [done|]. by str_bool.
    + by destruct (failedComponents robot).
  - intros (H1 & -> & H3 & ->). split_and!; try done.
    + destruct H1 as [-> | ->]; [done|]. by rewrite eqb_s_refl, andb_false_r.
    + by rewrite (proj2 (eqb_s_false _ _) H3).
Qed.

Lemma kept_HeldBy old new : statusOnly old new -> statusKept old new -> HeldBy new = [] -> HeldBy old = [].
Proof.
  intros Hs K. rewrite !HeldBy_nil, (kept_record _ _ Hs K), (sk_state _ _ K). intros (H1 & H2 & H3 & H4).
  split_and!; try done; [intros He; by apply H3, (sk_error _ _ K)|].
  apply failedComponents_nil. intros h Hh Hf. apply (sk_failed _ _ K) in Hh as He; [|done].
  unfold hardwareEntry in He. apply List.find_some in He as [Hin _].
  apply (proj1 (failedComponents_nil new) H4 h); [by apply list_elem_of_In|done].
Qed.

(** C29 A status write frees no robot. A robots/status update that the guard admits from anyone but the
    manager's own principal leaves every stop over the robot as it was: the stops that cover it, in any
    tree and configs, its estop state, its recorded holds and stops; a robot whose status holds something
    (HeldBy) still holds something, the action it records is still recorded, and while it is bound its
    phase stays. *)
Theorem status_write_frees_no_robot principal u old new
  (Hadmit : handleStatus principal "status" u (Some (old, new)) = None)
  (Hother : isControllerServiceAccount principal (u_Username u) = false)
  (Honly : statusOnly old new) :
  (forall t configs, CoverageOf t configs (fr_Robot new) = CoverageOf t configs (fr_Robot old)) /\
  r_EstopState (fr_Robot new) = r_EstopState (fr_Robot old) /\ r_EstopHeldBy (fr_Robot new) = r_EstopHeldBy (fr_Robot old) /\
  r_Stops (fr_Robot new) = r_Stops (fr_Robot old) /\
  (HeldBy old <> [] -> HeldBy new <> []) /\ fr_AssignedAction new = fr_AssignedAction old /\
  (boundPhase (r_Phase (fr_Robot old)) = true -> r_Phase (fr_Robot new) = r_Phase (fr_Robot old)).
Proof.
  apply handleStatus_exact in Hadmit as K; [|done]. split_and!; try apply K.
  - intros t configs. destruct Honly as (Hn & Ha & Hz). unfold CoverageOf, ownTrigger, pendingOn.
    by rewrite Hn, Ha, Hz, (sk_zone _ _ K), (sk_held _ _ K).
  - intros Ho Hn. by apply Ho, (kept_HeldBy old new).
Qed.

(** ** Admitted edits uncover nobody *)

(** Two zones of one shape: what a walk of the tree reads of them. *)
Definition sameShape (z z' : FleetZone) : Prop :=
  fz_Name z = fz_Name z' /\ parentOf z = parentOf z' /\ propagatesDown z = propagatesDown z' /\ fz_Annotations z = fz_Annotations z'.

Definition sameShapes (t t' : Tree) : Prop := forall n, option_Forall2 sameShape (t !! n) (t' !! n).

Definition sameAnswer (a b : result TooDeepError (list FleetZone)) : Prop :=
  match a, b with Ok l, Ok l' => Forall2 sameShape l l' | Err _, Err _ => True | _, _ => False end.

Lemma climb_shapes t t' zone k : sameShapes t t' -> forall seen name, sameAnswer (climb t zone k seen name) (climb t' zone k seen name).
Proof.
  intros Ht. induction k as [|k IH]; intros seen name; cbn [climb]; (destruct (name =s ""); [constructor|]); [done|].
  case_bool_decide; [done|]. destruct (Ht name) as [p p' Hp|]; [|constructor].
  destruct Hp as (H1 & H2 & H3 & H4). specialize (IH ({[name]} ∪ seen) (parentOf p)). rewrite H2 in IH at 2. rewrite H2 in *.
  destruct (climb t zone k _ _), (climb t' zone k _ _); simpl in *; try done. by constructor.
Qed.

Lemma Reaching_shapes t t' zone names : sameShapes t t' -> Reaching t zone Carries = Ok names -> Reaching t' zone Carries = Ok names.
Proof.
  intros Ht. unfold Reaching, Ancestors. destruct (Ht zone) as [z z' Hz|]; [|done]. destruct Hz as (H1 & H2 & H3 & H4).
  pose proof (climb_shapes t t' zone MaxAncestors Ht {[zone]} (parentOf z)) as Hc. rewrite H2 in Hc at 2. rewrite H2 in *.
  unfold Carries. rewrite H1, H4. destruct (climb t zone _ _ _) as [l|], (climb t' zone _ _ _) as [l'|]; simpl in *; try done.
  intros [= <-]. do 2 f_equal. symmetry. induction Hc as [|a b l l' Hab _ IH]; [done|]. destruct Hab as (A1 & A2 & A3 & A4). simpl.
  rewrite A3, A4. destruct (InForce _ && _); [|exact IH]. exact (f_equal2 cons A1 IH).
Qed.

Lemma CoveringAt_shapes t t' d was h : sameShapes t t' -> CoveringAt t [] d = Ok was -> h ∈ was ->
  exists now, CoveringAt t' [] d = Ok now /\ Has now (h_Kind h) (h_Name h) = true.
Proof.
  intros Ht Hw Hh. pose proof (CoveringAt_zones t d) as H1. pose proof (CoveringAt_zones t' d) as H2. rewrite Hw in H1.
  destruct H1 as (names & Hn & ->). apply list_elem_of_fmap in Hh as (n & -> & Hin). destruct (zoneStop_stop t n) as [-> ->].
  destruct (d =s "") eqn:Ed.
  { injection Hn as <-. by apply not_elem_of_nil in Hin. }
  pose proof (Reaching_shapes t t' d names Ht Hn) as Hr. destruct (CoveringAt t' [] d) as [now|].
  - destruct H2 as (names' & Hn' & ->). rewrite Hr in Hn'. injection Hn' as <-. eexists. split; [done|]. by apply Has_zoneStops.
  - destruct H2 as [_ H2]. by rewrite Hr in H2.
Qed.

Lemma With_shapes t z z' : t !! fz_Name z = Some z' -> sameShape z' z -> sameShapes t (With t z).
Proof.
  intros Hz Hs n. unfold With. destruct (decide (n = fz_Name z)) as [->|Hn].
  - rewrite Hz, lookup_insert_eq. by constructor.
  - rewrite lookup_insert_ne by done. destruct (t !! n); constructor. done.
Qed.

Lemma no_carrier t n z : treeWf t -> StopCarrier t = "" -> t !! n = Some z -> Carries z = false.
Proof.
  intros [H0 Hwf] Hs Hz. unfold StopCarrier in Hs. destruct (List.find _ (Names t)) as [m|] eqn:E.
  - simpl in Hs. subst m. apply List.find_some in E as [_ E]. by rewrite H0 in E.
  - apply find_None with (x := n) in E; [by rewrite Hz in E|]. unfold Names.
    rewrite elem_of_sort_Strings, elem_of_elements. by apply elem_of_dom_2 in Hz.
Qed.

(** With no stop carried, no stop covers a zone. *)
Lemma no_carrier_no_cover t d was : treeWf t -> StopCarrier t = "" -> CoveringAt t [] d = Ok was -> was = [].
Proof.
  intros Hwf Hs Hw. pose proof (CoveringAt_zones t d) as H1. rewrite Hw in H1. destruct H1 as (names & Hn & ->).
  destruct names as [|n names]; [done|]. exfalso. destruct (d =s "") eqn:Ed; [done|].
  destruct (Reaching_sound t d Carries _ n Hwf Hn ltac:(by left)) as (z & Hz & Hc). by rewrite (no_carrier t n z) in Hc.
Qed.

(** C30 A zone edit the guard admits uncovers nobody: at every zone of the namespace whose walk to the root
    is within the depth bound, each zone stop that covered a robot standing there, pending or in force, covers
    it in the edited tree too, whose walk is within the bound as well. The guard judges the shape of the tree,
    so the edited zone is taken with the stop annotations it has; every zone has a name, as every stored object
    does, and the old object of the request is the stored one. The code is stricter than the comment on
    estop_pending_scope.go, which has the edit admitted again once the stop's marker is written. *)
Theorem admitted_edit_uncovers_nobody zones oldZone newZone d was h
  (Hadmit : refuseEditThatUncoversAZone (Some zones) oldZone newZone = None)
  (Hnames : forall z, z ∈ zones -> fz_Name z <> "")
  (Hold : TreeOf zones !! fz_Name newZone = Some oldZone) (Hname : fz_Name oldZone = fz_Name newZone)
  (Hwas : CoveringAt (TreeOf zones) [] d = Ok was) (Hin : h ∈ was) :
  exists now, CoveringAt (With (TreeOf zones) (editedZone (TreeOf zones) oldZone newZone)) [] d = Ok now /\
    Has now (h_Kind h) (h_Name h) = true.
Proof.
  unfold refuseEditThatUncoversAZone in Hadmit. set (edited := editedZone (TreeOf zones) oldZone newZone) in *.
  assert (Hann : fz_Annotations edited = fz_Annotations oldZone).
  { unfold edited, editedZone. simpl. by rewrite Hname, Hold. }
  destruct (negb _ && negb _) eqn:Eshape.
  - apply andb_true_iff in Eshape as [E1 E2]. rewrite negb_involutive in E1, E2. str_bool. apply Bool.eqb_prop in E2.
    eapply CoveringAt_shapes; [|exact Hwas|exact Hin]. eapply (With_shapes _ edited oldZone); [exact Hold|].
    by split_and!; [done|rewrite E1|rewrite E2|rewrite Hann].
  - destruct (if parentOf oldZone <>s parentOf newZone then _ else _) as [e|]; [done|]. cbn [orElse] in Hadmit.
    unfold judgeLoss in Hadmit. destruct (EditUncovers (TreeOf zones) edited) as [loss|e] eqn:Ee.
    + eapply EditUncovers_sound; [exact Ee| |exact Hwas|exact Hin]. unfold Any.
      destruct (el_Pending loss), (el_InForce loss); done.
    + destruct (StopCarrier (TreeOf zones) =s "") eqn:Ec; [|done]. str_bool. exfalso.
      rewrite (no_carrier_no_cover _ _ _ (TreeOf_wf _ Hnames) Ec Hwas) in Hin. by apply not_elem_of_nil in Hin.
Qed.

(** A move the guard admits takes a robot out of no stop: every stop that covered the robot before its
    spec.zone changed covers it after. *)
Theorem admitted_move_leaves_no_stop zones configs oldRobot newRobot was now h
  (Hadmit : refuseMoveOutOfPendingStop (Some (zones, configs)) oldRobot newRobot = None)
  (Hwas : CoverageOf (TreeOf zones) configs oldRobot = Ok was)
  (Hnow : CoverageOf (TreeOf zones) configs (withZone oldRobot (r_Zone newRobot)) = Ok now)
  (Hin : h ∈ was) :
  Has now (h_Kind h) (h_Name h) = true.
Proof.
  unfold refuseMoveOutOfPendingStop in Hadmit. destruct (_ || _) eqn:Eskip.
  - unfold CoverageOf in *. destruct (CoveringAt _ [] (r_CurrentZone oldRobot)) as [recorded|] eqn:Er; [|done]. simpl in Hwas, Hnow.
    rewrite Er in Hnow. simpl in Hnow. apply orb_true_iff in Eskip as [E|E]; str_bool.
    + rewrite E in Hwas. destruct (CoveringAt _ [] (r_Zone newRobot)); [|done]. simpl in *. simplify_eq. by apply Has_elem.
    + rewrite E in Hwas. destruct (CoveringAt _ [] (r_Zone newRobot)) as [declared|]; [|done]. simpl in *. injection Hwas as <-.
      injection Hnow as <-. apply addAll_elem in Hin. rewrite addAll_Has. apply Has_elem in Hin. revert Hin.
      rewrite !app_nil_l, !Has_app, !orb_true_iff. unfold ownTrigger. simpl. tauto.
  - destruct (MoveLoses _ _ _ _) as [lost|] eqn:Em; [|done]. unfold MoveLoses in Em. rewrite Hwas, Hnow in Em. cbn [result_bind] in Em.
    destruct (FanOutCoverageOf _ _ oldRobot) as [was2|]; [|done]. cbn [result_bind] in Em.
    destruct (FanOutCoverageOf _ _ (withZone _ _)) as [now2|]; [|done]. cbn [result_bind] in Em. injection Em as <-.
    eapply Lost_nil; [|exact Hin]. destruct (Lost was now) as [|l ls] eqn:El; [done|]. exfalso.
    assert (Hl : Has (addAll [] ((l :: ls) ++ Lost was2 now2)) (h_Kind l) (h_Name l) = true).
    { rewrite addAll_Has. apply Has_elem. by left. }
    apply Has_spec in Hl as (x & Hx & _). revert Hadmit. unfold pendingNames, inForceNames.
    apply list_elem_of_In in Hx. destruct (h_Pending x) eqn:Ep.
    + assert (Hf : In x (List.filter h_Pending (addAll [] ((l :: ls) ++ Lost was2 now2)))) by by apply filter_In.
      destruct (List.filter h_Pending _); [done|]. done.
    + assert (Hf : In x (List.filter (fun h => negb (h_Pending h)) (addAll [] ((l :: ls) ++ Lost was2 now2)))).
      { apply filter_In. by rewrite Ep. }
      destruct (List.filter (fun h => negb (h_Pending h)) _); [done|]. by destruct (h_Name <$> List.filter h_Pending _).
Qed.

(** ** Admitted deletes *)

Lemma unlessTerminating_refuses rd why : namespaceTerminating rd = Ok false -> unlessTerminating rd why = Some why.
Proof. unfold unlessTerminating. by intros ->. Qed.

Lemma Covering_Ok rd robot cov : Covering rd robot = Ok cov ->
  exists zones configs, gr_world rd (r_Name robot) = Some (zones, configs) /\ CoverageOf (TreeOf zones) configs robot = Ok cov.
Proof.
  unfold Covering. destruct (gr_world rd (r_Name robot)) as [[zones configs]|]; [|done].
  destruct (CoverageOf _ _ _) eqn:E; [|done]. intros [= <-]. eauto.
Qed.

(** Without proof the delete of a robot that records an action loses the guard's key. *)
Lemma DeleteLosesKey_safe robot i : robot <> "" -> fst (DeleteLosesKey robot i) = false -> in_ActionGone i = false /\ Dead i <= in_Now i.
Proof.
  intros Hr. unfold DeleteLosesKey. destruct (in_ActionGone i); [done|]. unfold Decide. cbn [withRecorders in_Recorders fold_left].
  unfold decideOne. cbn [rec_Covered rec_CancelConfirmed rec_Ended rec_Robot KeepsRecord]. rewrite eqb_s_refl. cbn [negb andb].
  unfold leaseDead. change (Dead (withRecorders i _)) with (Dead i). change (in_Now (withRecorders i _)) with (in_Now i).
  destruct (in_Now i <? Dead i) eqn:E; z_bool; cbn [negb]; [|done].
  unfold Dispatchable. simpl. rewrite (proj2 (eqb_s_false _ _) Hr). by repeat case_match.
Qed.

(** An admitted delete of a robot loses nothing. Outside a namespace that is being deleted, a Robot is
    deleted only when its status holds no stop, error or failed component, the stops read for it leave it
    covered by none, pending or in force, and it records no action or the lease of the action it records is
    provably dead, at the widest clock-skew margin. *)
Theorem admitted_robot_delete_loses_nothing rd robot now
  (Hadmit : validateRobotDelete (Some rd) robot now = None)
  (Hstays : namespaceTerminating rd = Ok false) (Hname : r_Name (fr_Robot robot) <> "") :
  HeldBy robot = [] /\
  (exists zones configs, gr_world rd (r_Name (fr_Robot robot)) = Some (zones, configs) /\
     CoverageOf (TreeOf zones) configs (fr_Robot robot) = Ok []) /\
  (fr_AssignedAction robot = "" \/
   exists a, gr_action rd (fr_AssignedAction robot) = Found a /\ Dead (recordInput a now) <= now).
Proof.
  unfold validateRobotDelete in Hadmit. destruct (HeldBy robot); [|by rewrite unlessTerminating_refuses in Hadmit].
  split; [done|]. unfold refuseUnderPendingStop, coveringStopsNamed in Hadmit.
  destruct (Covering rd (fr_Robot robot)) as [cov|] eqn:Ec; cbn [result_bind] in Hadmit; [|done].
  destruct cov as [|s cov]; [|by rewrite unlessTerminating_refuses in Hadmit]. split; [by apply Covering_Ok|].
  cbn [orElse] in Hadmit. unfold refuseLosingAnExecutorRecord in Hadmit.
  destruct (fr_AssignedAction robot =s "") eqn:Ea; str_bool; [by left|right].
  destruct (gr_action rd (fr_AssignedAction robot)) as [a| |] eqn:Eg; [|by rewrite unlessTerminating_refuses in Hadmit|done].
  exists a. split; [done|]. destruct (DeleteLosesKey _ (recordInput a now)) as [loses dead] eqn:Ed.
  destruct loses; [by rewrite unlessTerminating_refuses in Hadmit|].
  by destruct (DeleteLosesKey_safe (r_Name (fr_Robot robot)) (recordInput a now) Hname ltac:(by rewrite Ed)).
Qed.

(** A user the authorizer says holds estop-clear on every stop of a list. *)
Definition clears (authz : option Authorizer) (u : UserInfo) (stops : list Holder) : Prop :=
  forall s, s ∈ stops -> exists ask, authz = Some ask /\ ask u (h_Kind s) (h_Name s) = Some true.

Lemma everyStop_None authz u stops : everyStop authz u stops = None -> clears authz u stops.
Proof.
  induction stops as [|s stops IH]; simpl; [by intros _ s ?%not_elem_of_nil|]. unfold holdsEstopClear.
  destruct authz as [ask|]; [|done]. destruct (ask u (h_Kind s) (h_Name s)) as [[]|] eqn:E; try done.
  intros H x [->|Hx]%elem_of_cons; [eauto|]. by apply IH.
Qed.

(** What stands behind the admission of a move of held work, for one robot that records it. *)
Definition mayMove (rd : GuardReader) (authz : option Authorizer) (u : UserInfo) (robot : FullRobot) : Prop :=
  exists cov, Covering rd (fr_Robot robot) = Ok cov /\
    (cov = [] \/ isServiceAccountPrincipal u = false /\ isGarbageCollector (u_Username u) = false /\ clears authz u cov).

Lemma heldWorkLoop_None rd authz u action robots : namespaceTerminating rd = Ok false -> heldWorkLoop rd authz u action robots = None ->
  forall robot, robot ∈ robots -> fr_AssignedAction robot = action -> mayMove rd authz u robot.
Proof.
  intros Ht. induction robots as [|r robots IH]; cbn [heldWorkLoop]; [by intros _ robot ?%not_elem_of_nil|].
  destruct (fr_AssignedAction r <>s action) eqn:Ea; str_bool.
  { intros H robot [->|Hin]%elem_of_cons Hr; [done|]. by apply IH. }
  destruct (Covering rd (fr_Robot r)) as [[|s stops]|] eqn:Ec; [| |done].
  { intros H robot [->|Hin]%elem_of_cons Hr; [exists []; eauto|by apply IH]. }
  rewrite Ht. destruct (_ || _) eqn:Eu; [done|]. apply orb_false_iff in Eu as [Eu1 Eu2].
  destruct (everyStop authz u (s :: stops)) eqn:Es; [done|]. cbn [orElse]. apply everyStop_None in Es.
  intros H robot [->|Hin]%elem_of_cons Hr; [exists (s :: stops); eauto|by apply IH].
Qed.

(** Held work moves only with the stop's authority. Outside a namespace that is being deleted, the
    delete of a FleetAction is admitted from anyone but the manager, and the garbage collector cleaning up a
    FleetTask's own member, only when each robot that records the action is covered by no stop, or the user
    is neither a ServiceAccount nor the garbage collector and holds estop-clear on every stop that covers
    the robot. *)
Theorem held_work_moves_with_authority principal rd authz u action
  (Hadmit : validateActionDelete principal (Some rd) authz (Some u) action = None)
  (Hother : isControllerServiceAccount principal (u_Username u) = false)
  (Hcascade : isGarbageCollector (u_Username u) && gn_TaskOwned action = false)
  (Hstays : namespaceTerminating rd = Ok false) :
  exists robots, gr_robots rd = Some robots /\
    forall robot, robot ∈ robots -> fr_AssignedAction robot = gn_Name action -> mayMove rd authz u robot.
Proof.
  unfold validateActionDelete in Hadmit. rewrite Hother, Hcascade in Hadmit. cbn [orb] in Hadmit. unfold refuseMovingHeldWork in Hadmit.
  destruct (gr_robots rd) as [robots|]; [|done]. exists robots. split; [done|]. by apply heldWorkLoop_None.
Qed.

(** Only the manager writes the processed marker: any other request leaves it as it was. *)
Theorem marker_is_the_managers principal req oldAnn newAnn :
  GuardEstopProcessedMarker principal req oldAnn newAnn = None <->
  oldAnn !! ProcessedAnnotation = newAnn !! ProcessedAnnotation \/
  exists u, req = Some u /\ isControllerServiceAccount principal (u_Username u) = true.
Proof.
  unfold GuardEstopProcessedMarker. case_bool_decide; [split; [by left|done]|]. destruct req as [u|].
  - destruct (isControllerServiceAccount principal (u_Username u)) eqn:E; split; try done; [intros _; right; eauto|].
    intros [?|(v & [= <-] & Hv)]; congruence.
  - split; [done|]. intros [?|(v & [=] & _)]. done.
Qed.

(** A principal that was set is a ServiceAccount of one namespace, and no other name matches it. *)
Theorem principal_is_a_service_account principal username principal' u :
  SetControllerPrincipal principal username = (true, principal') -> isControllerServiceAccount principal' u = true ->
  u = username /\ isServiceAccountUsername u = true.
Proof.
  unfold SetControllerPrincipal. destruct (isServiceAccountUsername username) eqn:E; [|done]. intros [= <-] H. simpl in H.
  str_bool. by subst.
Qed.

(** ** Witnesses *)

(** A robot in the room of the site of EstopGuard's example, and the same robot stopped. *)
Definition exFull (state : RobotEstopState) (phase : RobotPhase) (battery : Z) (action : string) : FullRobot :=
  mkFullRobot (mkRobot "amr" "ns" "u" ∅ None "room" "" phase "room" (Some battery) [] [] [] "" state []) action
    [mkHardware "lidar" "Failed" ""] [] [] [] None.
Definition exOperator : UserInfo := mkUser "ops@example.com" [].
Definition exPrincipal : option string := Some "system:serviceaccount:swarmada:manager".

Lemma status_write_frees_no_robot_witness :
  HeldBy (exFull RobotEstopStopped RobotPhaseIdle 79 "") <> [] /\
  handleStatus exPrincipal "status" exOperator
    (Some (exFull RobotEstopStopped RobotPhaseIdle 80 "", exFull RobotEstopNormal RobotPhaseIdle 80 "")) = Some EstopStateWrite.
Proof.
  split; [|reflexivity].
  destruct (status_write_frees_no_robot exPrincipal exOperator (exFull RobotEstopStopped RobotPhaseIdle 80 "")
    (exFull RobotEstopStopped RobotPhaseIdle 79 "")) as (_ & _ & _ & _ & H & _); [vm_compute; reflexivity|reflexivity|done|].
  apply H. vm_compute. done.
Defined.

(** Moving the room from the floor to the site keeps it under the site's stop. *)
Lemma admitted_edit_uncovers_nobody_witness :
  exists now, CoveringAt (With (TreeOf exStopTree)
      (editedZone (TreeOf exStopTree) (exStopZone "room" "floor" ∅ None) (exStopZone "room" "site" ∅ None))) [] "room" = Ok now /\
    Has now KindZone "site" = true.
Proof.
  refine (admitted_edit_uncovers_nobody exStopTree (exStopZone "room" "floor" ∅ None) (exStopZone "room" "site" ∅ None) "room"
    [zoneStop (TreeOf exStopTree) "site"] (zoneStop (TreeOf exStopTree) "site") _ _ _ _ _ _).
  - vm_compute. reflexivity.
  - intros z Hz. unfold exStopTree in Hz. set_unfold in Hz. by destruct Hz as [->|[->|[->|[]]]].
  - vm_compute. reflexivity.
  - reflexivity.
  - vm_compute. reflexivity.
  - by left.
Defined.

(** A move from the room to the floor stays under the site's stop; one to the yard is refused. *)
Lemma admitted_move_leaves_no_stop_witness :
  (exists now, CoverageOf (TreeOf exStopTree) [] (exStopRobot "" "floor" []) = Ok now /\ Has now KindZone "site" = true) /\
  is_Some (refuseMoveOutOfPendingStop (Some (exStopTree, [])) (exStopRobot "" "room" []) (exStopRobot "" "yard" [])).
Proof.
  split; [|vm_compute; by eexists].
  destruct (CoverageOf (TreeOf exStopTree) [] (exStopRobot "" "floor" [])) as [now|] eqn:En; [|by vm_compute in En].
  exists now. split; [done|].
  exact (admitted_move_leaves_no_stop exStopTree [] (exStopRobot "" "room" []) (exStopRobot "" "floor" [])
    [zoneStop (TreeOf exStopTree) "site"] now (zoneStop (TreeOf exStopTree) "site")
    ltac:(vm_compute; reflexivity) ltac:(vm_compute; reflexivity) En ltac:(by left)).
Defined.

(** A reader that finds no stop, and an action whose lease ended at 100 seconds. *)
Definition exReader (zones : list FleetZone) (robots : list FullRobot) : GuardReader :=
  mkGuardReader (fun _ => Some (zones, []))
    (Found false) (fun _ => Found (mkGuardedAction "haul" "" (mkActionTimes "" (Some (100 * Second)) 0 None None None) false)) (Some robots).
Definition exIdle : FullRobot :=
  mkFullRobot (mkRobot "amr" "ns" "u" ∅ None "room" "" RobotPhaseIdle "room" None [] [] [] "" RobotEstopNormal []) "haul" [] [] [] [] None.

Lemma admitted_robot_delete_loses_nothing_witness :
  HeldBy exIdle = [] /\ is_Some (validateRobotDelete (Some (exReader [] [])) exIdle (150 * Second)).
Proof.
  split; [|vm_compute; by eexists].
  exact (proj1 (admitted_robot_delete_loses_nothing (exReader [] []) exIdle (161 * Second) ltac:(vm_compute; reflexivity)
    ltac:(reflexivity) ltac:(done))).
Defined.

(** The robot that records the work stands under the site's stop; the user may clear it. *)
Lemma held_work_moves_with_authority_witness :
  mayMove (exReader exStopTree [exIdle]) (Some (fun _ _ _ => Some true)) exOperator exIdle /\
  is_Some (validateActionDelete exPrincipal (Some (exReader exStopTree [exIdle])) (Some (fun _ _ _ => Some false)) (Some exOperator)
    (mkGuardedAction "haul" "" (mkActionTimes "" None 0 None None None) false)).
Proof.
  split; [|vm_compute; by eexists].
  destruct (held_work_moves_with_authority exPrincipal (exReader exStopTree [exIdle]) (Some (fun _ _ _ => Some true)) exOperator
    (mkGuardedAction "haul" "" (mkActionTimes "" None 0 None None None) false) ltac:(vm_compute; reflexivity) ltac:(reflexivity)
    ltac:(reflexivity) ltac:(reflexivity)) as (robots & Hr & H). injection Hr as <-. apply H; [by left|reflexivity].
Defined.
