(* ===== verification/SafetyData.v ===== *)
(** src/internal/safety, its data and pure functions: the Robot as the stop dispatcher reads and writes
    it, the records of stops, the resume check and its evidence, the classification of an adapter's
    contract for the clear, and the Dispatcher's own state with one function per section its mutex
    guards. Safety has the operations. *)

From S2P Require Import Prelude.
From S2P Require Import Types.
From S2P Require Import Contract.
From S2P Require Import RobotId.
From S2P Require Import EstopScope.
From S2P Require Import Command.

(** ** Time *)

(** [time.UnixMilli]: milliseconds since 1970, which is 62135596800 s after Go's zero time. *)
Definition UnixMilli (t : Time) : Z := (t - 62135596800 * Second) / Millisecond.

(** ** The Robot *)

Record EstopBaseline := mkBaseline { eb_ActiveCapabilities : list string; eb_RecordedAt : Time }.

(** A Robot with its resourceVersion and the fields only this package reads. *)
Record StopRobot := mkStopRobot {
  sb_rv : Z;
  sb_Robot : Robot;
  sb_Hardware : list HardwareComponentStatus;
  sb_EstopBaseline : option EstopBaseline;
  sb_RobotClass : string;                        (* spec.robotClass *)
  sb_AdapterVersion : string                     (* spec.adapter.version *)
}.

#[export] Instance EstopBaseline_eq_dec : EqDecision EstopBaseline.
Proof. solve_decision. Defined.

Definition sb_Name (b : StopRobot) : string := r_Name (sb_Robot b).
Definition sb_Namespace (b : StopRobot) : string := r_Namespace (sb_Robot b).
Definition sb_UID (b : StopRobot) : string := r_UID (sb_Robot b).
Definition sb_State (b : StopRobot) : RobotEstopState := r_EstopState (sb_Robot b).
Definition sb_Stops (b : StopRobot) : list RobotStop := r_Stops (sb_Robot b).
Definition sb_HeldBy (b : StopRobot) : list EstopHold := r_EstopHeldBy (sb_Robot b).
Definition sb_Adapter (b : StopRobot) : string := r_Adapter (sb_Robot b).
Definition sb_Wire (b : StopRobot) : string := Wire (sb_Robot b).
Definition ownTrigger (b : StopRobot) : bool := bool_decide (is_Some (r_Annotations (sb_Robot b) !! TriggerAnnotation)).

Definition withStatus (r : Robot) (held : list EstopHold) (state : RobotEstopState) (stops : list RobotStop) : Robot :=
  mkRobot (r_Name r) (r_Namespace r) (r_UID r) (r_Annotations r) (r_DeletionTimestamp r) (r_Zone r) (r_Manufacturer r)
    (r_Phase r) (r_CurrentZone r) (r_BatteryPercent r) (r_Capabilities r) (r_SensorStreams r) held (r_Adapter r) state stops.

Definition setStatus (b : StopRobot) (held : list EstopHold) (state : RobotEstopState) (stops : list RobotStop)
    (baseline : option EstopBaseline) : StopRobot :=
  mkStopRobot (sb_rv b) (withStatus (sb_Robot b) held state stops) (sb_Hardware b) baseline (sb_RobotClass b) (sb_AdapterVersion b).

Definition setState (b : StopRobot) (state : RobotEstopState) : StopRobot :=
  setStatus b (sb_HeldBy b) state (sb_Stops b) (sb_EstopBaseline b).
Definition setBaseline (b : StopRobot) (baseline : option EstopBaseline) : StopRobot :=
  setStatus b (sb_HeldBy b) (sb_State b) (sb_Stops b) baseline.
Definition setStops (b : StopRobot) (stops : list RobotStop) : StopRobot :=
  setStatus b (sb_HeldBy b) (sb_State b) stops (sb_EstopBaseline b).

(** A status as it reaches the API server: every time to the second. *)
Definition encodeStop (st : RobotStop) : RobotStop :=
  mkRobotStop (rs_ID st) (rs_Scope st) (rs_Carrier st) (toSecond (rs_SentAt st)) (toSecond <$> rs_AcknowledgedAt st)
    (toSecond <$> rs_ClearedAt st).
Definition encodeHold (h : EstopHold) : EstopHold := mkEstopHold (eh_Kind h) (eh_Name h) (eh_UID h) (toSecond (eh_Since h)).
Definition encodeBaseline (b : EstopBaseline) : EstopBaseline := mkBaseline (eb_ActiveCapabilities b) (toSecond (eb_RecordedAt b)).

(** One field of a merge patch made from [base] to [new], applied to [cur]. *)
Definition merged {A} `{EqDecision A} (base new cur : A) : A := if bool_decide (base = new) then cur else new.

(** The status patch MergeFrom(base) makes of [new], applied to the stored [cur], which becomes [rv]. *)
Definition applyPatch (rv : Z) (base new cur : StopRobot) : StopRobot :=
  mkStopRobot rv
    (withStatus (sb_Robot cur)
      (merged (encodeHold <$> sb_HeldBy base) (encodeHold <$> sb_HeldBy new) (sb_HeldBy cur))
      (merged (sb_State base) (sb_State new) (sb_State cur))
      (merged (encodeStop <$> sb_Stops base) (encodeStop <$> sb_Stops new) (sb_Stops cur)))
    (sb_Hardware cur)
    (merged (encodeBaseline <$> sb_EstopBaseline base) (encodeBaseline <$> sb_EstopBaseline new) (sb_EstopBaseline cur))
    (sb_RobotClass cur) (sb_AdapterVersion cur).

(** ** Stops *)

(** metrics.EstopScope. *)
Definition EstopScope : Type := string.
Definition ScopeRobot : EstopScope := "robot".
Definition ScopeZone : EstopScope := "zone".
Definition ScopeNamespace : EstopScope := "namespace".

Record Carrier := mkCarrier { cy_Kind : StopCarrierKind; cy_Name : string; cy_UID : string }.

Record Ends := mkEnds { en_Hold : option (EstopHold -> bool); en_Stop : option (RobotStop -> bool) }.

Definition maxRecordedStops : nat := 256.

(** The entry newStopRecord builds. *)
Definition newStopEntry (robot : StopRobot) (id : string) (scope : EstopScope) (carrier : Carrier) (sentAt : Time) : RobotStop :=
  let '(sc, c) :=
    if scope =s ScopeZone then (StopScopeZone, carrier)
    else if scope =s ScopeNamespace then (StopScopeNamespace, carrier)
    else (StopScopeRobot,
          if cy_Kind carrier =s "" then mkCarrier StopCarrierRobot (sb_Name robot) (sb_UID robot) else carrier) in
  mkRobotStop id sc
    (if cy_Kind c <>s "" then Some (mkStopCarrier (cy_Kind c) (cy_Name c) (cy_UID c)) else None)
    sentAt None None.

Definition stopEnded (st : RobotStop) (ends : Ends) : bool :=
  match rs_Carrier st with
  | None => rs_Scope st =s StopScopeRobot
  | Some c =>
      if car_Kind c =s StopCarrierRobot then true
      else match en_Stop ends with Some f => f st | None => false end
  end.

(** A UID that both sides name and that differs tells two carriers of one name apart. *)
Definition otherUID (a b : string) : bool := (a <>s "") && (b <>s "") && (a <>s b).

Definition isEstopRelease (state : RobotEstopState) : bool := (state =s RobotEstopNormal) || (state =s RobotEstopResuming).

Definition holdsStop (state : RobotEstopState) : bool :=
  (state =s RobotEstopStopping) || (state =s RobotEstopStopped) || (state =s RobotEstopFailed).

Definition removedEntries (before after : list RobotStop) : list RobotStop :=
  List.filter (fun st => negb (existsb (fun k => rs_ID k =s rs_ID st) after)) before.

Definition resendScope (robot : StopRobot) : EstopScope :=
  let fix go (holds : list EstopHold) (scope : EstopScope) : EstopScope :=
    match holds with
    | [] => scope
    | h :: holds =>
        if eh_Kind h =s EstopHoldFleetZone then ScopeZone
        else go holds (if eh_Kind h =s EstopHoldSwarmadaConfig then ScopeNamespace else scope)
    end in
  if ownTrigger robot then ScopeRobot else go (sb_HeldBy robot) ScopeRobot.

(** ** The resume check *)

(** What ends a refusal: the component or capability is repaired, or taken out of the robot's own
    declaration, or out of its RobotClass. *)
Inductive remedy := RepairOrRobot | RepairOrClass (class : string).

Definition resumeRemedy (robot : StopRobot) : remedy :=
  if sb_RobotClass robot =s "" then RepairOrRobot else RepairOrClass (sb_RobotClass robot).

Inductive resumeWhy :=
| ReportedPhase (phase : RobotPhase)
| MarkedPhase (phase : RobotPhase)
| FailedComponent (name : string) (r : remedy)
| NoBaselineInactive (name : string) (status : CapabilityStatus) (derived : bool) (r : remedy)
| LostCapability (name : string) (status : CapabilityStatus) (derived : bool) (r : remedy).

Definition capabilityRefusal (robot : StopRobot) (c : CapabilityStatusEntry) (derived : bool) : option resumeWhy :=
  if (cse_Status c =s CapabilityStatusActive) || cse_Paused c then None
  else match sb_EstopBaseline robot with
       | None => Some (NoBaselineInactive (cse_Name c) (cse_Status c) derived (resumeRemedy robot))
       | Some b =>
           if negb (bool_decide (cse_Name c ∈ eb_ActiveCapabilities b)) then None
           else Some (LostCapability (cse_Name c) (cse_Status c) derived (resumeRemedy robot))
       end.

Definition wrongPhase (p : RobotPhase) : bool := (p =s RobotPhaseError) || (p =s RobotPhaseOffline).

(** [None]: the confirmation may release the robot. *)
Definition resumeRefusal (robot : StopRobot) (derived : list CapabilityStatusEntry) (reported : RobotPhase) : option resumeWhy :=
  if wrongPhase reported then Some (ReportedPhase reported)
  else if wrongPhase (r_Phase (sb_Robot robot)) then Some (MarkedPhase (r_Phase (sb_Robot robot)))
  else match first_match (fun h => if hw_Status h =s HardwareFailed then Some (FailedComponent (hw_Name h) (resumeRemedy robot)) else None)
               (sb_Hardware robot) with
       | Some why => Some why
       | None =>
           match first_match (fun c => capabilityRefusal robot c true) derived with
           | Some why => Some why
           | None => first_match (fun c => capabilityRefusal robot c false) (r_Capabilities (sb_Robot robot))
           end
       end.

(** The counts the evidence of a release states: Active, Paused, no longer declared; and of how many
    Active at the stop, when the stop recorded them. *)
Record evidence := mkEvidence { ev_active : nat; ev_paused : nat; ev_undeclared : nat; ev_of : option nat }.

Definition countBaseline (caps : list CapabilityStatusEntry) (acc : nat * nat * nat) (name : string) : nat * nat * nat :=
  let '(active, paused, undeclared) := acc in
  match List.find (fun c => cse_Name c =s name) caps with
  | None => (active, paused, S undeclared)
  | Some c => if cse_Paused c then (active, S paused, undeclared) else (S active, paused, undeclared)
  end.

Definition resumeEvidence (robot : StopRobot) : evidence :=
  let caps := r_Capabilities (sb_Robot robot) in
  match sb_EstopBaseline robot with
  | None =>
      mkEvidence (length (List.filter (fun c => negb (cse_Paused c)) caps)) (length (List.filter cse_Paused caps)) 0 None
  | Some b =>
      let '(active, paused, undeclared) := fold_left (countBaseline caps) (eb_ActiveCapabilities b) (0, 0, 0)%nat in
      mkEvidence active paused undeclared (Some (length (eb_ActiveCapabilities b)))
  end.

Definition addActive (acc : list string) (c : CapabilityStatusEntry) : list string :=
  if (cse_Status c =s CapabilityStatusActive) && negb (bool_decide (cse_Name c ∈ acc)) then acc ++ [cse_Name c] else acc.

Definition activeCapabilities (stored derived : list CapabilityStatusEntry) : list string :=
  sort_Strings (fold_left addActive (stored ++ derived) []).

(** The state and baseline writeEstopStateOnce puts on the Robot it read. *)
Definition stateWrite (derive : option (StopRobot -> list CapabilityStatusEntry)) (now : Time) (stored : StopRobot)
    (state : RobotEstopState) : StopRobot :=
  let new := setState stored state in
  if state =s RobotEstopNormal then setBaseline new None
  else if negb (isEstopRelease state) && bool_decide (sb_EstopBaseline stored = None) &&
          ((sb_State stored =s "") || (sb_State stored =s RobotEstopNormal)) then
    let derived := match derive with Some f => f new | None => [] end in
    setBaseline new (Some (mkBaseline (activeCapabilities (r_Capabilities (sb_Robot new)) derived) now))
  else new.

(** ** The adapter's contract, for a clear *)

Inductive clearPath := clearHold | clearRemove | clearSend.

Definition clearStopsMinContract : string := "1.4.0".

Definition contractClearPath (version : string) : clearPath :=
  match Supports version with
  | Some _ => clearHold
  | None => match Below version clearStopsMinContract with
            | None => clearHold
            | Some true => clearRemove
            | Some false => clearSend
            end
  end.

(** ** The Dispatcher's state *)

(** A SafetySender, which Go compares by identity. *)
Definition SafetySender : Type := nat.

Inductive EstopState := ESTOP_STATE_UNSPECIFIED | ESTOP_STATE_STOPPING | ESTOP_STATE_STOPPED | ESTOP_STATE_FAILED.
Record EstopAck := mkEstopAck { ea_EstopId : string; ea_State : EstopState }.
Record EstopClear := mkEstopClear { ec_EstopId : string; ec_ClearedBy : string; ec_ClearedAtMs : Z; ec_LeaderTerm : Z }.

Inductive SafetyPayload := PEstop (e : Estop) | PEstopClear (c : EstopClear).
Record ControlPlaneSafetyMessage := mkSafetyMessage { sm_Seq : Z; sm_RobotId : string; sm_Payload : SafetyPayload }.

Definition estopMessage (robotID : string) (seq : Z) (estop : Estop) (estopID : string) : ControlPlaneSafetyMessage :=
  mkSafetyMessage seq robotID (PEstop (mkEstop estopID (es_Reason estop) (es_IssuedBy estop) (es_IssuedAtMs estop))).

Definition clearMessage (robotID : string) (seq : Z) (id clearedBy : string) (at_ : Time) (term : Z) : ControlPlaneSafetyMessage :=
  mkSafetyMessage seq robotID (PEstopClear (mkEstopClear id clearedBy (UnixMilli at_) term)).

Record estopOrder := mkOrder {
  o_issued : Z;                                  (* epochs are uint64 *)
  o_lastStop : Z;
  o_lastClear : Z;
  o_stoppedBy : Z;
  o_resumeArmed : bool;
  o_resumeSince : Time;
  o_resumeAdopted : bool
}.

(** (namespace, wire robot_id, estop_id). *)
Definition pendingKey : Type := string * string * string.

(** [pe_ch] is what is in the channel's buffer; [pe_taken] names the channel closed when a trigger takes
    the stop over. *)
Record pendingEstop := mkPendingEstop {
  pe_adapter : string;
  pe_sender : SafetySender;
  pe_ch : list EstopAck;
  pe_robot : string;
  pe_key : pendingKey;
  pe_estop : Estop;
  pe_epoch : Z;
  pe_deadline : Time;
  pe_settled : bool;
  pe_taken : option nat
}.

Record stopRecord := mkStopRecord {
  rc_robot : string * string;                    (* namespace, name *)
  rc_entry : RobotStop;
  rc_acked : option Time;                        (* the buffer of acked, one long *)
  rc_done : bool;
  rc_epoch : Z;
  rc_clearedAt : option Time;
  rc_removed : bool;
  rc_clearing : option nat
}.

Record removedStop := mkRemoved { rm_id : string; rm_uid : string; rm_clearedAt : Time }.
Record keptReport := mkKept { kr_wireID : string; kr_rm : removedStop }.

(** Waiters, stop records and channels are shared by reference: each is named by the number of its
    creation ([sd_next] is the next), and [sd_closed] holds the closed channels. *)
Record Dispatcher := mkDispatcher {
  sd_streams : gmap string SafetySender;
  sd_pending : gmap pendingKey nat;
  sd_waiters : gmap nat pendingEstop;
  sd_orders : gmap string estopOrder;
  sd_idCounter : Z;
  sd_inflight : gmap string (gmap string nat);
  sd_records : gmap nat stopRecord;
  sd_contracts : gmap string string;
  sd_removed : gmap string (list removedStop);
  sd_issued : gset string;
  sd_kept : gmap string (list keptReport);
  sd_closed : gset nat;
  sd_next : nat
}.

Definition New : Dispatcher := mkDispatcher ∅ ∅ ∅ ∅ 0 ∅ ∅ ∅ ∅ ∅ ∅ ∅ 0.

Definition robotEstopKey (namespace name : string) : string := namespace +:+ "/" +:+ name.
Definition adapterKey (namespace adapter : string) : string := namespace +:+ "/" +:+ adapter.
Definition rememberedKey (namespace wireID : string) : string := namespace +:+ "/" +:+ wireID.

Definition setStreams (d : Dispatcher) x :=
  mkDispatcher x (sd_pending d) (sd_waiters d) (sd_orders d) (sd_idCounter d) (sd_inflight d) (sd_records d) (sd_contracts d)
    (sd_removed d) (sd_issued d) (sd_kept d) (sd_closed d) (sd_next d).
Definition setWaiting (d : Dispatcher) pending waiters :=
  mkDispatcher (sd_streams d) pending waiters (sd_orders d) (sd_idCounter d) (sd_inflight d) (sd_records d) (sd_contracts d)
    (sd_removed d) (sd_issued d) (sd_kept d) (sd_closed d) (sd_next d).
Definition setOrders (d : Dispatcher) x :=
  mkDispatcher (sd_streams d) (sd_pending d) (sd_waiters d) x (sd_idCounter d) (sd_inflight d) (sd_records d) (sd_contracts d)
    (sd_removed d) (sd_issued d) (sd_kept d) (sd_closed d) (sd_next d).
Definition setCounter (d : Dispatcher) x :=
  mkDispatcher (sd_streams d) (sd_pending d) (sd_waiters d) (sd_orders d) x (sd_inflight d) (sd_records d) (sd_contracts d)
    (sd_removed d) (sd_issued d) (sd_kept d) (sd_closed d) (sd_next d).
Definition setInflight (d : Dispatcher) x :=
  mkDispatcher (sd_streams d) (sd_pending d) (sd_waiters d) (sd_orders d) (sd_idCounter d) x (sd_records d) (sd_contracts d)
    (sd_removed d) (sd_issued d) (sd_kept d) (sd_closed d) (sd_next d).
Definition setRecords (d : Dispatcher) x :=
  mkDispatcher (sd_streams d) (sd_pending d) (sd_waiters d) (sd_orders d) (sd_idCounter d) (sd_inflight d) x (sd_contracts d)
    (sd_removed d) (sd_issued d) (sd_kept d) (sd_closed d) (sd_next d).
Definition setContracts (d : Dispatcher) x :=
  mkDispatcher (sd_streams d) (sd_pending d) (sd_waiters d) (sd_orders d) (sd_idCounter d) (sd_inflight d) (sd_records d) x
    (sd_removed d) (sd_issued d) (sd_kept d) (sd_closed d) (sd_next d).
Definition setRemoved (d : Dispatcher) removed issued :=
  mkDispatcher (sd_streams d) (sd_pending d) (sd_waiters d) (sd_orders d) (sd_idCounter d) (sd_inflight d) (sd_records d)
    (sd_contracts d) removed issued (sd_kept d) (sd_closed d) (sd_next d).
Definition setKept (d : Dispatcher) x :=
  mkDispatcher (sd_streams d) (sd_pending d) (sd_waiters d) (sd_orders d) (sd_idCounter d) (sd_inflight d) (sd_records d)
    (sd_contracts d) (sd_removed d) (sd_issued d) x (sd_closed d) (sd_next d).
Definition setClosed (d : Dispatcher) x :=
  mkDispatcher (sd_streams d) (sd_pending d) (sd_waiters d) (sd_orders d) (sd_idCounter d) (sd_inflight d) (sd_records d)
    (sd_contracts d) (sd_removed d) (sd_issued d) (sd_kept d) x (sd_next d).
(** A new name. *)
Definition setNext (d : Dispatcher) : Dispatcher :=
  mkDispatcher (sd_streams d) (sd_pending d) (sd_waiters d) (sd_orders d) (sd_idCounter d) (sd_inflight d) (sd_records d)
    (sd_contracts d) (sd_removed d) (sd_issued d) (sd_kept d) (sd_closed d) (S (sd_next d)).

(** ** The sections under d.mu *)

Definition noOrder : estopOrder := mkOrder 0 0 0 0 false 0 false.

Definition orderOf (d : Dispatcher) (key : string) : estopOrder := default noOrder (sd_orders d !! key).

Definition orderFor (d : Dispatcher) (key : string) : Dispatcher := setOrders d (<[key := orderOf d key]> (sd_orders d)).

Definition setOrder (d : Dispatcher) (key : string) (o : estopOrder) : Dispatcher := setOrders d (<[key := o]> (sd_orders d)).

Definition uint64 (z : Z) : Z := z mod 2 ^ 64.

Definition issueEstopEpoch (d : Dispatcher) (key : string) (stop : bool) : Z * Dispatcher :=
  let o := orderOf d key in
  let n := uint64 (o_issued o + 1) in
  (n, setOrder d key (mkOrder n (if stop then n else o_lastStop o) (o_lastClear o) (o_stoppedBy o) (o_resumeArmed o)
        (o_resumeSince o) (o_resumeAdopted o))).

Definition issueClearEpoch (d : Dispatcher) (key : string) : Z * Dispatcher :=
  let o := orderOf d key in
  let n := uint64 (o_issued o + 1) in
  (n, setOrder d key (mkOrder n (o_lastStop o) n (o_stoppedBy o) (o_resumeArmed o) (o_resumeSince o) (o_resumeAdopted o))).

Definition supersededByLaterStop (d : Dispatcher) (key : string) (epoch : Z) : bool := epoch <? o_lastStop (orderOf d key).

Definition setStoppedBy (d : Dispatcher) (key : string) (epoch : Z) : Dispatcher :=
  let o := orderOf d key in
  setOrder d key (mkOrder (o_issued o) (o_lastStop o) (o_lastClear o) epoch (o_resumeArmed o) (o_resumeSince o) (o_resumeAdopted o)).

Definition setResume (d : Dispatcher) (key : string) (armed : bool) (since : Time) (adopted : bool) : Dispatcher :=
  let o := orderOf d key in
  setOrder d key (mkOrder (o_issued o) (o_lastStop o) (o_lastClear o) (o_stoppedBy o) armed since adopted).

Definition armResumeWindow (d : Dispatcher) (key : string) (baseline : Time) : Dispatcher := setResume d key true baseline false.

Definition adoptResumeWindow (d : Dispatcher) (key : string) : Dispatcher :=
  if o_resumeArmed (orderOf d key) then d else setResume d key true 0 true.

Definition disarmResumeWindow (d : Dispatcher) (key : string) : Dispatcher :=
  setResume d key false 0 (o_resumeAdopted (orderOf d key)).

Definition resumeBaseline (d : Dispatcher) (key : string) : Time * bool * bool :=
  let o := orderOf d key in (o_resumeSince o, o_resumeArmed o, o_resumeAdopted o).

Definition nextSeq (d : Dispatcher) : Z * Dispatcher :=
  let n := uint64 (sd_idCounter d + 1) in (n, setCounter d n).

Definition markIssued (d : Dispatcher) (id : string) : Dispatcher := setRemoved d (sd_removed d) ({[id]} ∪ sd_issued d).

(** *** Waiters *)

Definition modWaiter (d : Dispatcher) (p : nat) (f : pendingEstop -> pendingEstop) : Dispatcher :=
  setWaiting d (sd_pending d) (alter f p (sd_waiters d)).

Definition withSender (s : SafetySender) (p : pendingEstop) : pendingEstop :=
  mkPendingEstop (pe_adapter p) s (pe_ch p) (pe_robot p) (pe_key p) (pe_estop p) (pe_epoch p) (pe_deadline p) (pe_settled p) (pe_taken p).
Definition withCh (q : list EstopAck) (p : pendingEstop) : pendingEstop :=
  mkPendingEstop (pe_adapter p) (pe_sender p) q (pe_robot p) (pe_key p) (pe_estop p) (pe_epoch p) (pe_deadline p) (pe_settled p) (pe_taken p).
Definition withDeadline (t : Time) (p : pendingEstop) : pendingEstop :=
  mkPendingEstop (pe_adapter p) (pe_sender p) (pe_ch p) (pe_robot p) (pe_key p) (pe_estop p) (pe_epoch p) t (pe_settled p) (pe_taken p).
Definition asSettled (p : pendingEstop) : pendingEstop :=
  mkPendingEstop (pe_adapter p) (pe_sender p) (pe_ch p) (pe_robot p) (pe_key p) (pe_estop p) (pe_epoch p) (pe_deadline p) true (pe_taken p).
Definition notTaken (p : pendingEstop) : pendingEstop :=
  mkPendingEstop (pe_adapter p) (pe_sender p) (pe_ch p) (pe_robot p) (pe_key p) (pe_estop p) (pe_epoch p) (pe_deadline p) (pe_settled p) None.

(** The waiter is put under its key, and under a new name. *)
Definition addWaiter (d : Dispatcher) (w : pendingEstop) : nat * Dispatcher :=
  (sd_next d, setNext (setWaiting d (<[pe_key w := sd_next d]> (sd_pending d)) (<[sd_next d := w]> (sd_waiters d)))).

Definition awaited (d : Dispatcher) (key : pendingKey) : option (nat * pendingEstop) :=
  match sd_pending d !! key with
  | Some p => match sd_waiters d !! p with Some w => Some (p, w) | None => None end
  | None => None
  end.

(** A stream-open re-send's waiter hands the stop over. *)
Definition takeOver (d : Dispatcher) (key : pendingKey) : Dispatcher :=
  match awaited d key with
  | Some (p, w) => match pe_taken w with
                   | Some ch => modWaiter (setClosed d ({[ch]} ∪ sd_closed d)) p notTaken
                   | None => d
                   end
  | None => d
  end.

Definition register (d : Dispatcher) (namespace robot wireID adapter estopID : string) (epoch : Z) (estop : Estop)
    : option (SafetySender * nat * Z) * Dispatcher :=
  match sd_streams d !! adapterKey namespace adapter with
  | None => (None, d)
  | Some sender =>
      let '(seq, d) := nextSeq d in
      let key := (namespace, wireID, estopID) in
      let '(p, d) := addWaiter (takeOver d key) (mkPendingEstop adapter sender [] robot key estop epoch 0 false None) in
      (Some (sender, p, seq), d)
  end.

Definition deregister (d : Dispatcher) (p : nat) : Dispatcher :=
  match sd_waiters d !! p with
  | Some w => if bool_decide (sd_pending d !! pe_key w = Some p) then setWaiting d (delete (pe_key w) (sd_pending d)) (sd_waiters d) else d
  | None => d
  end.

Definition settleUnlessResent (d : Dispatcher) (p : nat) (from : SafetySender) : bool * Dispatcher :=
  match sd_waiters d !! p with
  | Some w => if Nat.eqb (pe_sender w) from then (true, modWaiter d p asSettled) else (false, d)
  | None => (false, d)
  end.

(** A send on a waiter's channel: its buffer is four long, and a full one drops the ack. *)
Definition chanPut (d : Dispatcher) (p : nat) (ack : EstopAck) : Dispatcher :=
  match sd_waiters d !! p with
  | Some w => if (length (pe_ch w) <? 4)%nat then modWaiter d p (withCh (pe_ch w ++ [ack])) else d
  | None => d
  end.

Definition rememberedLocked (d : Dispatcher) (namespace wireID id : string) : option removedStop :=
  List.find (fun r => rm_id r =s id) (default [] (sd_removed d !! rememberedKey namespace wireID)).

Inductive routing := NotAwaited (rm : option removedStop) | MisroutedAck | Routed (p : nat).

(** RouteAck's section. *)
Definition routeAck (d : Dispatcher) (identity : TLSIdentity) (from : SafetySender) (robotID : string) (ack : EstopAck)
    : routing * Dispatcher :=
  match awaited d (ti_Namespace identity, robotID, ea_EstopId ack) with
  | None => (NotAwaited (rememberedLocked d (ti_Namespace identity) robotID (ea_EstopId ack)), d)
  | Some (p, w) =>
      if (pe_adapter w <>s ti_AdapterName identity) || negb (Nat.eqb (pe_sender w) from) then (MisroutedAck, d)
      else (Routed p,
            match ea_State ack with
            | ESTOP_STATE_STOPPED | ESTOP_STATE_FAILED => modWaiter d p asSettled
            | _ => d
            end)
  end.

(** *** Streams *)

Record resend := mkResend { rd_robotID : string; rd_waiter : nat; rd_msg : ControlPlaneSafetyMessage }.

(** The estop is still wanted on the stream that replaced its own. *)
Definition stillWanted (d : Dispatcher) (identity : TLSIdentity) (replaced : SafetySender) (now : Time) (w : pendingEstop) : bool :=
  if negb (Nat.eqb (pe_sender w) replaced) || (fst (fst (pe_key w)) <>s ti_Namespace identity) || (pe_adapter w <>s ti_AdapterName identity)
  then false
  else if pe_settled w || (negb (time_IsZero (pe_deadline w)) && negb (now <? pe_deadline w)) then false
  else match sd_orders d !! robotEstopKey (fst (fst (pe_key w))) (pe_robot w) with
       | None => false
       | Some o => (o_lastStop o =? pe_epoch w) && negb (pe_epoch w <? o_lastClear o)
       end.

Definition waiter_le (a b : nat * pendingEstop) : Prop := String.le (snd (pe_key (snd a))) (snd (pe_key (snd b))).
#[global] Instance waiter_le_dec : RelDecision waiter_le.
Proof. unfold waiter_le. solve_decision. Defined.

Fixpoint rebindAll (d : Dispatcher) (sender : SafetySender) (moved : list (nat * pendingEstop)) : list resend * Dispatcher :=
  match moved with
  | [] => ([], d)
  | (p, w) :: moved =>
      let '(seq, d) := nextSeq d in
      let '(out, d) := rebindAll (modWaiter d p (withSender sender)) sender moved in
      (mkResend (pe_robot w) p (estopMessage (snd (fst (pe_key w))) seq (pe_estop w) (snd (pe_key w))) :: out, d)
  end.

Definition rebindLocked (d : Dispatcher) (identity : TLSIdentity) (replaced : option SafetySender) (sender : SafetySender)
    (now : Time) : list resend * Dispatcher :=
  match replaced with
  | None => ([], d)
  | Some old =>
      if Nat.eqb old sender then ([], d)
      else
        let pending := omap (fun kv => match sd_waiters d !! kv.2 with Some w => Some (kv.2, w) | None => None end)
                         (map_to_list (sd_pending d)) in
        rebindAll d sender (merge_sort waiter_le (List.filter (fun pw => stillWanted d identity old now pw.2) pending))
  end.

(** RegisterStream's section. *)
Definition putStream (d : Dispatcher) (identity : TLSIdentity) (sender : SafetySender) (now : Time) : list resend * Dispatcher :=
  let key := adapterKey (ti_Namespace identity) (ti_AdapterName identity) in
  rebindLocked (setStreams d (<[key := sender]> (sd_streams d))) identity (sd_streams d !! key) sender now.

Definition dropStream (d : Dispatcher) (key : string) (sender : SafetySender) : Dispatcher :=
  if bool_decide (sd_streams d !! key = Some sender) then setStreams d (delete key (sd_streams d)) else d.

Inductive heldSend := AwaitedHere | AwaitedElsewhere (p : nat) (msg : ControlPlaneSafetyMessage) | NewWaiter (p taken : nat) (msg : ControlPlaneSafetyMessage).

(** resendHeldTo's section. *)
Definition resendHeldSection (d : Dispatcher) (adapter namespace robot wireID stopID : string) (sender : SafetySender)
    (estop : Estop) : heldSend * Dispatcher :=
  let key := (namespace, wireID, stopID) in
  match awaited d key with
  | Some (p, w) =>
      if Nat.eqb (pe_sender w) sender then (AwaitedHere, d)
      else let '(seq, d) := nextSeq (modWaiter d p (withSender sender)) in
           (AwaitedElsewhere p (estopMessage (snd (fst (pe_key w))) seq (pe_estop w) (snd (pe_key w))), d)
  | None =>
      let '(seq, d) := nextSeq d in
      let taken := sd_next d in
      let '(p, d) := addWaiter (setNext d) (mkPendingEstop adapter sender [] robot key estop 0 0 false (Some taken)) in
      (NewWaiter p taken (estopMessage wireID seq estop stopID), d)
  end.

(** *** Stop records *)

Definition modRecord (d : Dispatcher) (r : nat) (f : stopRecord -> stopRecord) : Dispatcher :=
  setRecords d (alter f r (sd_records d)).

(** newStopRecord and the caller's [rec.epoch = epoch]: the record is reached by no one else yet. *)
Definition newRecord (d : Dispatcher) (namespace name : string) (entry : RobotStop) (epoch : Z) : nat * Dispatcher :=
  (sd_next d,
   setNext (setRecords d (<[sd_next d := mkStopRecord (namespace, name) entry None false epoch None false None]> (sd_records d)))).

Definition trackInflight (d : Dispatcher) (key id : string) (r : nat) : Dispatcher :=
  setInflight d (<[key := <[id := r]> (default ∅ (sd_inflight d !! key))]> (sd_inflight d)).

Definition untrackInflight (d : Dispatcher) (key id : string) : Dispatcher :=
  let m := delete id (default ∅ (sd_inflight d !! key)) in
  setInflight d (if bool_decide (m = ∅) then delete key (sd_inflight d) else <[key := m]> (sd_inflight d)).

Definition inflightOf (d : Dispatcher) (key : string) : list (nat * RobotStop) :=
  omap (fun kv => match sd_records d !! kv.2 with Some r => Some (kv.2, rc_entry r) | None => None end)
    (map_to_list (default ∅ (sd_inflight d !! key))).

Definition settledByClear (d : Dispatcher) (r : nat) : bool :=
  match sd_records d !! r with Some rc => bool_decide (is_Some (rc_clearedAt rc)) | None => false end.

Definition withClear (at_ : option Time) (removed : bool) (clearing : option nat) (r : stopRecord) : stopRecord :=
  mkStopRecord (rc_robot r) (rc_entry r) (rc_acked r) (rc_done r) (rc_epoch r) at_ removed clearing.
Definition withAcked (t : option Time) (r : stopRecord) : stopRecord :=
  mkStopRecord (rc_robot r) (rc_entry r) t (rc_done r) (rc_epoch r) (rc_clearedAt r) (rc_removed r) (rc_clearing r).
Definition asDone (r : stopRecord) : stopRecord :=
  mkStopRecord (rc_robot r) (rc_entry r) (rc_acked r) true (rc_epoch r) (rc_clearedAt r) (rc_removed r) (rc_clearing r).

Definition markUnrecordedAcked (d : Dispatcher) (key id : string) : bool * Dispatcher :=
  match default ∅ (sd_inflight d !! key) !! id with
  | None => (false, d)
  | Some r =>
      if settledByClear d r
      then (true, modRecord d r (fun rc => withClear (rc_clearedAt rc) true (rc_clearing rc) rc))
      else (false, d)
  end.

Definition unrecordedInForce (d : Dispatcher) (key : string) : bool :=
  existsb (fun kv => match sd_records d !! kv.2 with Some rc => bool_decide (rc_clearedAt rc = None) | None => false end)
    (map_to_list (default ∅ (sd_inflight d !! key))).

Definition sentTo (namespace : string) (carrier : Carrier) (rc : stopRecord) : bool :=
  match rs_Carrier (rc_entry rc) with
  | None => false
  | Some c =>
      (fst (rc_robot rc) =s namespace) && bool_decide (rc_clearedAt rc = None) && (car_Kind c =s cy_Kind carrier) &&
      (car_Name c =s cy_Name carrier) && negb (otherUID (cy_UID carrier) (car_UID c))
  end.

Definition SentUnrecorded (d : Dispatcher) (namespace : string) (carrier : Carrier) : gset string :=
  list_to_set (omap (fun r => match sd_records d !! r with
                              | Some rc => if sentTo namespace carrier rc then Some (snd (rc_robot rc)) else None
                              | None => None
                              end)
                (mjoin ((fun kv => snd <$> map_to_list kv.2) <$> map_to_list (sd_inflight d)))).

(** Open the clearing channel of each record, one new channel each. *)
Definition beginClearing (d : Dispatcher) (rs : list nat) : Dispatcher :=
  fold_left (fun d r => setNext (modRecord d r (fun rc => withClear (rc_clearedAt rc) (rc_removed rc) (Some (sd_next d)) rc))) rs d.

(** Close them, with what the clear decided when its write landed. *)
Definition endClearing1 (decided : option (Time * bool)) (d : Dispatcher) (r : nat) : Dispatcher :=
  match sd_records d !! r with
  | None => d
  | Some rc =>
      let '(at_, removed) := match decided with Some (t, legacy) => (Some t, legacy) | None => (rc_clearedAt rc, rc_removed rc) end in
      let d := modRecord d r (withClear at_ removed None) in
      match rc_clearing rc with Some ch => setClosed d ({[ch]} ∪ sd_closed d) | None => d end
  end.
Definition endClearing (d : Dispatcher) (rs : list nat) (decided : option (Time * bool)) : Dispatcher :=
  fold_left (endClearing1 decided) rs d.

Definition acknowledged (d : Dispatcher) (r : nat) (at_ : Time) : Dispatcher :=
  modRecord d r (fun rc => match rc_acked rc with None => withAcked (Some at_) rc | Some _ => rc end).

(** *** Predecessors' stops *)

Definition isPredecessors (d : Dispatcher) (robot : StopRobot) (want : RobotStop) (wc : Types.StopCarrier) (st : RobotStop) : bool :=
  match rs_ClearedAt st, rs_Carrier st with
  | None, Some c =>
      (rs_Scope st =s rs_Scope want) && (car_Kind c =s car_Kind wc) && (car_Name c =s car_Name wc) &&
      negb (otherUID (car_UID c) (car_UID wc)) && negb (bool_decide (rs_ID st ∈ sd_issued d)) &&
      match awaited d (sb_Namespace robot, sb_Wire robot, rs_ID st) with
      | Some (_, w) => pe_epoch w =? 0
      | None => true
      end
  | _, _ => false
  end.

Definition predecessorStop (d : Dispatcher) (robot : StopRobot) (scope : EstopScope) (carrier : Carrier) : option RobotStop :=
  let want := newStopEntry robot "" scope carrier 0 in
  match rs_Carrier want with
  | None => None
  | Some wc => List.find (isPredecessors d robot want wc) (sb_Stops robot)
  end.

(** *** The memory of removed IDs *)

Definition maxRemembered : nat := maxRecordedStops.

(** The last [maxRemembered] of a list, as [list[over:]]. *)
Definition newest {A} (l : list A) : list A := drop (length l - maxRemembered) l.

Definition remember1 (uid : string) (now : Time) (list : list removedStop) (st : RobotStop) : List.list removedStop :=
  List.filter (fun r => rm_id r <>s rs_ID st) list ++ [mkRemoved (rs_ID st) uid (default now (rs_ClearedAt st))].

Definition rememberRemoved (d : Dispatcher) (robot : StopRobot) (stops : list RobotStop) (now : Time) : Dispatcher :=
  match stops with
  | [] => d
  | _ =>
      let key := rememberedKey (sb_Namespace robot) (sb_Wire robot) in
      setRemoved d (<[key := newest (fold_left (remember1 (sb_UID robot) now) stops (default [] (sd_removed d !! key)))]> (sd_removed d))
        (sd_issued d ∖ list_to_set (rs_ID <$> stops))
  end.

Definition keepReport (d : Dispatcher) (identity : TLSIdentity) (wireID : string) (rm : removedStop) : Dispatcher :=
  let key := adapterKey (ti_Namespace identity) (ti_AdapterName identity) in
  let list := default [] (sd_kept d !! key) in
  if existsb (fun k => (kr_wireID k =s wireID) && (rm_id (kr_rm k) =s rm_id rm)) list then d
  else setKept d (<[key := newest (list ++ [mkKept wireID rm])]> (sd_kept d)).

(** answerKeptReports's section. *)
Definition takeKept (d : Dispatcher) (identity : TLSIdentity) : option SafetySender * list keptReport * Dispatcher :=
  let key := adapterKey (ti_Namespace identity) (ti_AdapterName identity) in
  match sd_streams d !! key with
  | None => (None, default [] (sd_kept d !! key), d)
  | Some s => (Some s, default [] (sd_kept d !! key), setKept d (delete key (sd_kept d)))
  end.

Definition adapterClearPath (d : Dispatcher) (robot : StopRobot) : clearPath :=
  match sd_contracts d !! adapterKey (sb_Namespace robot) (sb_Adapter robot) with
  | None => clearHold
  | Some v => contractClearPath v
  end.
