(* ===== verification/Safety.v ===== *)
(** src/internal/safety, its operations: every function of the stop dispatcher as a program (Conc) over
    the sections of its mutex (SafetyData), the robots' write locks, the API server, the adapters'
    streams, the clocks, the leader term and the command dispatcher. [schedule] runs any calls in any
    interleaving, with any change of the cluster between two of their steps. SafetyInv and SafetyProps
    have the theorems. *)

From S2P Require Import Prelude.
From S2P Require Import Types.
From S2P Require Import Contract.
From S2P Require Import RobotId.
From S2P Require Import Conc.
From S2P Require Import EstopScope.
From S2P Require Import Command.
From S2P Require Import SafetyData.

(** ** Configuration *)

(** What the manager sets once. *)
Record Config := mkConfig {
  g_Client : bool;                               (* Client is set, and so on below *)
  g_APIReader : bool;
  g_Recorder : bool;
  g_Audit : bool;
  g_Term : bool;
  g_Telemetry : bool;
  g_Derive : option (StopRobot -> list CapabilityStatusEntry);
  g_Fence : option bool;                         (* Fence, and whether it is a ClearedFenceSender *)
  g_slaThreshold : Duration;
  g_confirmTimeout : Duration;
  g_deliveryTimeout : Duration
}.

Definition defaultSLAThreshold : Duration := 500 * Millisecond.
Definition defaultConfirmTimeout : Duration := 10 * Second.
Definition defaultDeliveryTimeout : Duration := 2 * Second.

(** ** The cluster *)

Inductive apiError := NotFound | Conflict | Refused | Unavailable.

(** The Robots the API server stores, by namespace and name, every version any of them ever had, and the
    revision of the next write. *)
Record Cluster := mkCluster {
  cl_robots : gmap (string * string) StopRobot;
  cl_versions : list StopRobot;
  cl_next : Z
}.

Definition objKey (b : StopRobot) : string * string := (sb_Namespace b, sb_Name b).

Definition setRv (b : StopRobot) (rv : Z) : StopRobot :=
  mkStopRobot rv (sb_Robot b) (sb_Hardware b) (sb_EstopBaseline b) (sb_RobotClass b) (sb_AdapterVersion b).

Definition store (c : Cluster) (b : StopRobot) : Cluster :=
  mkCluster (<[objKey b := b]> (cl_robots c)) (b :: cl_versions c) (cl_next c + 1).

(** A patch under the resourceVersion of [base]: the Robot it leaves, when it lands. *)
Definition landing (c : Cluster) (base new : StopRobot) : option StopRobot :=
  match cl_robots c !! objKey base with
  | Some cur => if sb_rv cur =? sb_rv base then Some (applyPatch (cl_next c) base new cur) else None
  | None => None
  end.

(** The FleetActions a clear holds. *)
Record WorkAction := mkWork {
  wa_Namespace : string;
  wa_Name : string;
  wa_rv : Z;
  wa_AssignedRobot : string;
  wa_Phase : ActionPhase;
  wa_Conditions : list (string * string)         (* type, reason *)
}.

(** ** Events *)

Inductive waitOutcome := AckIn (ack : EstopAck) | TimedOut | CtxDone.
Inductive heldOutcome := HeldAck (ack : EstopAck) | HeldTaken | HeldTimedOut.

Inductive note :=
| NCommand (scope : EstopScope) (result : string)
| NLatency (scope : EstopScope) (latency : Duration)
| NLatencyViolation (robot : string)
| NLatencyEvent (robot : string) (latency : Duration)
| NLatencyAudit (robot adapterVersion adapter : string) (latency sla : Duration)
| NSuperseded (robot : string)
| NStopRecordFull (robot : string) (entries : nat) (id : string)
| NResent (robot : string) (confirmed : bool)
| NResentAudit (robot adapter : string) (allowed : bool) (state : RobotEstopState) (sentAt : Time) (delivered : bool)
    (timing : option (Time * Duration * bool))
| NRenewalHeld (action : string).

(** How a patch was answered. [pa_landed] is what it left in the store; the caller sees only [pa_answer]:
    a patch that landed can still be answered with an error. *)
Record patchAnswer := mkPatchAnswer { pa_landed : option StopRobot; pa_answer : result apiError StopRobot }.

(** One section under d.mu, one access to what the robot's write lock guards, or one call to the world
    outside. A read of the API server goes past the cache when [live]. *)
Inductive Ev :=
| EOrderFor (key : string)
| EExistingOrder (key : string)
| EIssue (key : string) (stop : bool)
| EIssueClear (key : string)
| ESuperseded (key : string) (epoch : Z)
| EStoppedBy (key : string)
| ESetStoppedBy (key : string) (epoch : Z)
| EArm (key : string) (baseline : Time)
| EAdopt (key : string)
| EDisarm (key : string)
| EResumeBaseline (key : string)
| EMarkIssued (id : string)
| EPredecessor (robot : StopRobot) (scope : EstopScope) (carrier : Carrier)
| ERegister (namespace robot wireID adapter estopID : string) (epoch : Z) (estop : Estop)
| EDeregister (p : nat)
| EDeadline (p : nat) (until : Time)
| ESettle (p : nat)
| ESettleUnless (p : nat) (from : SafetySender)
| ERouteAck (identity : TLSIdentity) (from : SafetySender) (robotID : string) (ack : EstopAck)
| EChanPut (p : nat) (ack : EstopAck)
| EWait (p : nat) (until : Time)
| EWaitHeld (p taken : nat) (until : Time)
| EPutStream (identity : TLSIdentity) (s : SafetySender)
| EDropStream (key : string) (s : SafetySender)
| EStream (key : string)
| EHeldSection (adapter namespace robot wireID stopID : string) (s : SafetySender) (reason : string)
| ESeq
| ENewRecord (namespace name : string) (entry : RobotStop) (epoch : Z)
| ETrack (key id : string) (r : nat)
| EUntrack (key id : string)
| EInflight (key : string)
| ESettled (r : nat)
| EMarkAcked (key id : string)
| EUnrecorded (key : string)
| ESentUnrecorded (namespace : string) (carrier : Carrier)
| EBeginClearing (rs : list nat)
| EEndClearing (rs : list nat) (decided : option (Time * bool))
| EClearing (r : nat)
| EWaitClosed (ch : nat)
| EClearOf (r : nat)
| EAcknowledged (r : nat) (at_ : Time)
| ETakeAck (r : nat)
| EWaitAcked (r : nat)
| EFinish (r : nat)
| EContract (key version : string)
| EClearPath (robot : StopRobot)
| ERemember (robot : StopRobot) (stops : list RobotStop)
| EKeep (identity : TLSIdentity) (wireID : string) (rm : removedStop)
| ETakeKept (identity : TLSIdentity)
| EClearHeldIf (key namespace robot : string) (epoch : Z)
| EHeldStops (namespace robot : string)
| EReleased (namespace robot : string)
| ESendFence (robot : StopRobot) (stopID : string) (estop : Estop)
| ESendClearedFence (robot : StopRobot) (stopID : string) (estop : Estop)
| EGet (live : bool) (namespace name : string)
| EList (live : bool) (namespace : string)
| EPatch (base new : StopRobot)
| EListActions (live : bool) (namespace : string)
| EGetAction (live : bool) (namespace name : string)
| EPatchAction (a : WorkAction)
| EConfig (namespace : string)
| ETerm
| EClock
| EWall
| ESleep (d : Duration)
| ECtxErr
| ENewStopID
| ELastFrame (namespace id : string)
| EFirstFrame (namespace id : string)
| EReportedPhase (namespace id : string)
| EUnwritten (namespace id : string)
| ESend (s : SafetySender) (msg : ControlPlaneSafetyMessage)
| ENote (n : note)
| EClusterWrite (b : StopRobot)                    (* another writer stores a Robot *)
| EClusterDelete (namespace name : string).

Definition resp (e : Ev) : Type :=
  match e with
  | EExistingOrder _ | ESuperseded _ _ | ESettleUnless _ _ | ESettled _ | EMarkAcked _ _ | EUnrecorded _ | EClearHeldIf _ _ _ _
  | ESendFence _ _ _ | ESendClearedFence _ _ _ | ECtxErr | EUnwritten _ _ | ESend _ _ => bool
  | EIssue _ _ | EIssueClear _ | EStoppedBy _ | ESeq | EClock | EWall => Z
  | EResumeBaseline _ => Time * bool * bool
  | EPredecessor _ _ _ => option RobotStop
  | ERegister _ _ _ _ _ _ _ => option (SafetySender * nat * Z)
  | ERouteAck _ _ _ _ => routing
  | EWait _ _ => waitOutcome
  | EWaitHeld _ _ _ => heldOutcome
  | EPutStream _ _ => list resend
  | EStream _ => option SafetySender
  | EHeldSection _ _ _ _ _ _ _ => heldSend
  | ENewRecord _ _ _ _ => nat
  | EInflight _ => list (nat * RobotStop)
  | ESentUnrecorded _ _ => gset string
  | EClearing _ => option nat
  | EClearOf _ => option Time * bool
  | ETakeAck _ | EWaitAcked _ => option Time
  | EClearPath _ => clearPath
  | ETakeKept _ => option SafetySender * list keptReport
  | EHeldStops _ _ => list string
  | EGet _ _ _ => result apiError StopRobot
  | EList _ _ => option (list StopRobot)
  | EPatch _ _ => patchAnswer
  | EListActions _ _ => option (list WorkAction)
  | EGetAction _ _ _ => result apiError WorkAction
  | EPatchAction _ => option apiError
  | EConfig _ => option Z
  | ETerm => Z * bool
  | ENewStopID => string
  | ELastFrame _ _ | EFirstFrame _ _ => option Time
  | EReportedPhase _ _ => option RobotPhase
  | EClusterWrite _ => StopRobot
  | _ => unit
  end.

(** What the world outside may answer at a step. *)
Record Input := mkInput {
  x_fail : option apiError;                      (* the call fails *)
  x_lost : bool;                                 (* a patch lands although its answer is the failure *)
  x_version : nat;                               (* which of the versions a cached read answers *)
  x_robots : option (list nat);                  (* the versions a List answers with; [None]: it failed *)
  x_actions : option (list WorkAction);
  x_action : WorkAction;
  x_config : option Z;
  x_term : Z * bool;
  x_now : Time;
  x_ok : bool;                                   (* a send, a call to Fence, telemetry's answer *)
  x_give_up : option bool;                       (* a wait ends: [Some true] its context is done *)
  x_id : string;
  x_ids : list string;
  x_frame : option Time;
  x_phase : option RobotPhase
}.

Record Entry := mkEntry { en_tid : nat; en_event : Ev; en_resp : resp en_event }.

(** [w_hist]: everything that has happened, the latest first. *)
Record World := mkWorld { w_d : Dispatcher; w_cl : Cluster; w_hist : list Entry }.

Definition readRobot (c : Cluster) (live : bool) (namespace name : string) (x : Input) : result apiError StopRobot :=
  match x_fail x with
  | Some e => Err e
  | None =>
      if live then match cl_robots c !! (namespace, name) with Some b => Ok b | None => Err NotFound end
      else match cl_versions c !! x_version x with
           | Some b => if (sb_Namespace b =s namespace) && (sb_Name b =s name) then Ok b else Err NotFound
           | None => Err NotFound
           end
  end.

(** A List answers with versions the Robots of the namespace have had. *)
Definition readRobots (c : Cluster) (namespace : string) (x : Input) : option (list StopRobot) :=
  match x_robots x with
  | None => None
  | Some l => Some (List.filter (fun b => sb_Namespace b =s namespace) (omap (fun i => cl_versions c !! i) l))
  end.

Definition readAction (namespace name : string) (x : Input) : result apiError WorkAction :=
  match x_fail x with
  | Some e => Err e
  | None => if (wa_Namespace (x_action x) =s namespace) && (wa_Name (x_action x) =s name) then Ok (x_action x) else Err NotFound
  end.

Definition patch (c : Cluster) (base new : StopRobot) (x : Input) : Cluster * patchAnswer :=
  match x_fail x with
  | Some e =>
      if x_lost x then match landing c base new with
                       | Some b => (store c b, mkPatchAnswer (Some b) (Err e))
                       | None => (c, mkPatchAnswer None (Err e))
                       end
      else (c, mkPatchAnswer None (Err e))
  | None =>
      match cl_robots c !! objKey base with
      | None => (c, mkPatchAnswer None (Err NotFound))
      | Some _ => match landing c base new with
                  | Some b => (store c b, mkPatchAnswer (Some b) (Ok b))
                  | None => (c, mkPatchAnswer None (Err Conflict))
                  end
      end
  end.

(** The select of a waiter: an ack in its channel, its deadline reached, its context done. *)
Definition waitOn (d : Dispatcher) (p : nat) (until : Time) (x : Input) : option (Dispatcher * waitOutcome) :=
  match x_give_up x with
  | Some true => Some (d, CtxDone)
  | Some false => if x_now x <? until then None else Some (d, TimedOut)
  | None => match sd_waiters d !! p with
            | Some w => match pe_ch w with
                        | ack :: q => Some (modWaiter d p (withCh q), AckIn ack)
                        | [] => None
                        end
            | None => None
            end
  end.

Definition waitHeld (d : Dispatcher) (p taken : nat) (until : Time) (x : Input) : option (Dispatcher * heldOutcome) :=
  match x_give_up x with
  | Some true => if bool_decide (taken ∈ sd_closed d) then Some (d, HeldTaken) else None
  | _ => match waitOn d p until x with
         | Some (d, AckIn ack) => Some (d, HeldAck ack)
         | Some (d, TimedOut) => Some (d, HeldTimedOut)
         | _ => None
         end
  end.

Definition takeAck (d : Dispatcher) (r : nat) : option Time * Dispatcher :=
  match sd_records d !! r with
  | Some rc => match rc_acked rc with Some t => (Some t, modRecord d r (withAcked None)) | None => (None, d) end
  | None => (None, d)
  end.

(** The select on acked and done: with both ready either is taken. *)
Definition waitAcked (d : Dispatcher) (r : nat) (x : Input) : option (Dispatcher * option Time) :=
  match sd_records d !! r with
  | Some rc =>
      match rc_acked rc, rc_done rc with
      | Some t, false => Some (modRecord d r (withAcked None), Some t)
      | Some t, true => if x_ok x then Some (modRecord d r (withAcked None), Some t) else Some (d, None)
      | None, true => Some (d, None)
      | None, false => None
      end
  | None => None
  end.

Definition heldReason (state : RobotEstopState) : string :=
  "held stop re-sent on a new SafetyStream (estopState " +:+ state +:+ ")".
Definition heldStopIssuer : string := "swarmada-control-plane".

Definition answer (e : Ev) (x : Input) (d : Dispatcher) (c : Cluster) : option (Dispatcher * Cluster * resp e) :=
  match e return option (Dispatcher * Cluster * resp e) with
  | EOrderFor key => Some (orderFor d key, c, tt)
  | EExistingOrder key => Some (d, c, bool_decide (is_Some (sd_orders d !! key)))
  | EIssue key stop => let '(n, d) := issueEstopEpoch d key stop in Some (d, c, n)
  | EIssueClear key => let '(n, d) := issueClearEpoch d key in Some (d, c, n)
  | ESuperseded key epoch => Some (d, c, supersededByLaterStop d key epoch)
  | EStoppedBy key => Some (d, c, o_stoppedBy (orderOf d key))
  | ESetStoppedBy key epoch => Some (setStoppedBy d key epoch, c, tt)
  | EArm key baseline => Some (armResumeWindow d key baseline, c, tt)
  | EAdopt key => Some (adoptResumeWindow d key, c, tt)
  | EDisarm key => Some (disarmResumeWindow d key, c, tt)
  | EResumeBaseline key => Some (d, c, resumeBaseline d key)
  | EMarkIssued id => Some (markIssued d id, c, tt)
  | EPredecessor robot scope carrier => Some (d, c, predecessorStop d robot scope carrier)
  | ERegister namespace robot wireID adapter estopID epoch estop =>
      let '(a, d) := register d namespace robot wireID adapter estopID epoch estop in Some (d, c, a)
  | EDeregister p => Some (deregister d p, c, tt)
  | EDeadline p until => Some (modWaiter d p (withDeadline until), c, tt)
  | ESettle p => Some (modWaiter d p asSettled, c, tt)
  | ESettleUnless p from => let '(b, d) := settleUnlessResent d p from in Some (d, c, b)
  | ERouteAck identity from robotID ack => let '(a, d) := routeAck d identity from robotID ack in Some (d, c, a)
  | EChanPut p ack => Some (chanPut d p ack, c, tt)
  | EWait p until => match waitOn d p until x with Some (d, a) => Some (d, c, a) | None => None end
  | EWaitHeld p taken until => match waitHeld d p taken until x with Some (d, a) => Some (d, c, a) | None => None end
  | EPutStream identity s => let '(l, d) := putStream d identity s (x_now x) in Some (d, c, l)
  | EDropStream key s => Some (dropStream d key s, c, tt)
  | EStream key => Some (d, c, sd_streams d !! key)
  | EHeldSection adapter namespace robot wireID stopID s reason =>
      let '(a, d) := resendHeldSection d adapter namespace robot wireID stopID s (mkEstop "" reason heldStopIssuer (UnixMilli (x_now x))) in
      Some (d, c, a)
  | ESeq => let '(n, d) := nextSeq d in Some (d, c, n)
  | ENewRecord namespace name entry epoch => let '(r, d) := newRecord d namespace name entry epoch in Some (d, c, r)
  | ETrack key id r => Some (trackInflight d key id r, c, tt)
  | EUntrack key id => Some (untrackInflight d key id, c, tt)
  | EInflight key => Some (d, c, inflightOf d key)
  | ESettled r => Some (d, c, settledByClear d r)
  | EMarkAcked key id => let '(b, d) := markUnrecordedAcked d key id in Some (d, c, b)
  | EUnrecorded key => Some (d, c, unrecordedInForce d key)
  | ESentUnrecorded namespace carrier => Some (d, c, SentUnrecorded d namespace carrier)
  | EBeginClearing rs => Some (beginClearing d rs, c, tt)
  | EEndClearing rs decided => Some (endClearing d rs decided, c, tt)
  | EClearing r => Some (d, c, match sd_records d !! r with Some rc => rc_clearing rc | None => None end)
  | EWaitClosed ch => if bool_decide (ch ∈ sd_closed d) then Some (d, c, tt) else None
  | EClearOf r => Some (d, c, match sd_records d !! r with Some rc => (rc_clearedAt rc, rc_removed rc) | None => (None, false) end)
  | EAcknowledged r at_ => Some (acknowledged d r at_, c, tt)
  | ETakeAck r => let '(t, d) := takeAck d r in Some (d, c, t)
  | EWaitAcked r => match waitAcked d r x with Some (d, t) => Some (d, c, t) | None => None end
  | EFinish r => Some (modRecord d r asDone, c, tt)
  | EContract key version => Some (setContracts d (<[key := version]> (sd_contracts d)), c, tt)
  | EClearPath robot => Some (d, c, adapterClearPath d robot)
  | ERemember robot stops => Some (rememberRemoved d robot stops (x_now x), c, tt)
  | EKeep identity wireID rm => Some (keepReport d identity wireID rm, c, tt)
  | ETakeKept identity => let '(a, d) := takeKept d identity in Some (d, c, a)
  | EClearHeldIf key _ _ epoch => Some (d, c, o_lastStop (orderOf d key) <? epoch)
  | EHeldStops _ _ => Some (d, c, x_ids x)
  | EReleased _ _ => Some (d, c, tt)
  | ESendFence _ _ _ => Some (d, c, x_ok x)
  | ESendClearedFence _ _ _ => Some (d, c, x_ok x)
  | EGet live namespace name => Some (d, c, readRobot c live namespace name x)
  | EList _ namespace => Some (d, c, readRobots c namespace x)
  | EPatch base new => let '(c, a) := patch c base new x in Some (d, c, a)
  | EListActions _ namespace => Some (d, c, List.filter (fun a => wa_Namespace a =s namespace) <$> x_actions x)
  | EGetAction _ namespace name => Some (d, c, readAction namespace name x)
  | EPatchAction _ => Some (d, c, x_fail x)
  | EConfig _ => Some (d, c, x_config x)
  | ETerm => Some (d, c, x_term x)
  | EClock => Some (d, c, x_now x)
  | EWall => Some (d, c, x_now x)
  | ESleep _ => Some (d, c, tt)
  | ECtxErr => Some (d, c, x_ok x)
  | ENewStopID => Some (d, c, x_id x)
  | ELastFrame _ _ => Some (d, c, x_frame x)
  | EFirstFrame _ _ => Some (d, c, x_frame x)
  | EReportedPhase _ _ => Some (d, c, x_phase x)
  | EUnwritten _ _ => Some (d, c, x_ok x)
  | ESend _ _ => Some (d, c, x_ok x)
  | ENote _ => Some (d, c, tt)
  | EClusterWrite b => Some (d, store c (setRv b (cl_next c)), setRv b (cl_next c))
  | EClusterDelete namespace name => Some (d, mkCluster (delete (namespace, name) (cl_robots c)) (cl_versions c) (cl_next c), tt)
  end.

Definition perform (tid : nat) (e : Ev) (x : Input) (w : World) : option (World * resp e) :=
  match answer e x (w_d w) (w_cl w) with
  | None => None
  | Some (d, c, a) => Some (mkWorld d c (mkEntry tid e a :: w_hist w), a)
  end.

Notation P := (prog resp).
Notation trigger := (Conc.trigger (resp := resp)).

(** ** Small steps *)

Definition send (s : SafetySender) (msg : ControlPlaneSafetyMessage) : P bool := trigger (ESend s msg).

Definition noteIf (b : bool) (n : note) : P unit := if b then trigger (ENote n) else Ret tt.

(** Read past the cache when APIReader is set. *)
Definition getRobot (g : Config) (namespace name : string) : P (result apiError StopRobot) :=
  trigger (EGet (g_APIReader g) namespace name).
Definition listRobots (g : Config) (namespace : string) : P (option (list StopRobot)) := trigger (EList (g_APIReader g) namespace).

(** The patch, as its caller sees it. *)
Definition patchStatus (base new : StopRobot) : P (result apiError StopRobot) :=
  let* a := trigger (EPatch base new) in Ret (pa_answer a).

Definition leads (g : Config) : P (Z * bool) := if g_Term g then trigger ETerm else Ret (0, true).

Definition stillLeads (g : Config) : P bool :=
  if g_Term g then let* t := trigger ETerm in Ret (snd t : bool) else Ret true.

Definition issueEpoch (key : string) (stop : bool) : P Z := let* _ := trigger (EOrderFor key) in trigger (EIssue key stop).
Definition issueClear (key : string) : P Z := let* _ := trigger (EOrderFor key) in trigger (EIssueClear key).

Definition deliveryTimeoutFor (g : Config) (namespace : string) : P Duration :=
  let* ms := trigger (EConfig namespace) in
  Ret (match ms with Some ms => if 0 <? ms then ms * Millisecond else g_deliveryTimeout g | None => g_deliveryTimeout g end).

Definition startWindowAt (p : nat) (until : Time) : P Time := let* _ := trigger (EDeadline p until) in Ret until.
Definition startWindow (p : nat) (length : Duration) : P Time := let* now := trigger EWall in startWindowAt p (now + length).

(** ** Outcomes *)

Record Result := mkResult {
  re_Delivered : bool;
  re_Confirmed : bool;
  re_State : RobotEstopState;
  re_Latency : Duration;
  re_LatencyViolation : bool
}.

Definition noResult : Result := mkResult false false "" 0 false.
Definition resultState (state : RobotEstopState) : Result := mkResult false false state 0 false.
Definition withOutcome (res : Result) (confirmed : bool) (state : RobotEstopState) : Result :=
  mkResult (re_Delivered res) confirmed state (re_Latency res) (re_LatencyViolation res).

Inductive stopError :=
| ErrLookup (e : apiError)
| ErrUndelivered
| ErrSend
| ErrStateUnwritten (state : RobotEstopState) (e : apiError)
| ErrJoined (a b : stopError)
| ErrContext
| ErrNotLeading
| ErrWrite (e : apiError)
| ErrWork.

Definition joinUnwritten (deliveryErr : stopError) (writeErr : option stopError) : option stopError :=
  match writeErr with None => Some deliveryErr | Some w => Some (ErrJoined deliveryErr w) end.

(** Which stop is in force on a Robot about to be released. *)
Inductive inForce := ByRecord | ByStop (id : string) | ByUnrecorded | ByHeld (ids : list string).

Definition stopInForce (g : Config) (stored : StopRobot) : P (option inForce) :=
  match HeldOnRecord (sb_Robot stored) with
  | Some _ => Ret (Some ByRecord)
  | None =>
      match List.find (fun st => bool_decide (rs_ClearedAt st = None)) (sb_Stops stored) with
      | Some st => Ret (Some (ByStop (rs_ID st)))
      | None =>
          let* unrecorded := trigger (EUnrecorded (robotEstopKey (sb_Namespace stored) (sb_Name stored))) in
          if unrecorded : bool then Ret (Some ByUnrecorded)
          else match g_Fence g with
               | None => Ret None
               | Some _ =>
                   let* ids := trigger (EHeldStops (sb_Namespace stored) (sb_Name stored)) in
                   Ret (match ids with [] => None | _ => Some (ByHeld ids) end)
               end
      end
  end.

(** The caller's copy when the read fails. *)
Definition storedRobot (g : Config) (robot : StopRobot) : P StopRobot :=
  let* got := getRobot g (sb_Namespace robot) (sb_Name robot) in
  Ret (match got with Ok b => b | Err _ => robot end).

(** What a write of estopState answers: the caller's Robot afterwards, whether the state was written, and
    the error. *)
Definition written : Type := StopRobot * bool * option apiError.

Definition recordStoppedBy (key : string) (state : RobotEstopState) (epoch : Z) : P unit :=
  if state =s RobotEstopStopped then trigger (ESetStoppedBy key epoch) else Ret tt.

(** The part of writeEstopStateOnce after its guards. *)
Definition patchEstopState (g : Config) (key : string) (robot stored : StopRobot) (state : RobotEstopState) (epoch : Z) : P written :=
  let* now := trigger EClock in
  let new := stateWrite (g_Derive g) now stored state in
  let* out := patchStatus stored new in
  match out with
  | Err e => Ret (robot, false, Some e)
  | Ok stored' =>
      let robot := setBaseline (setState robot state) (sb_EstopBaseline stored') in
      let* _ := trigger (ESetStoppedBy key 0) in
      let* _ := recordStoppedBy key state epoch in
      Ret (robot, true, None)
  end.

(** The caller holds the robot's write lock. *)
Definition writeEstopStateOnce (g : Config) (key : string) (robot : StopRobot) (state : RobotEstopState) (epoch : Z) : P written :=
  let* stored := storedRobot g robot in
  if (state =s RobotEstopNormal) && (sb_State stored <>s RobotEstopResuming) then
    Ret (setState robot (sb_State stored), false, None)
  else
  let* held := if state =s RobotEstopNormal then stopInForce g stored else Ret None in
  match held with
  | Some _ => Ret (setState robot (sb_State stored), false, None)
  | None =>
      if sb_State stored =s state then
        let* _ := recordStoppedBy key state epoch in
        Ret (setState robot state, false, None)
      else patchEstopState g key robot stored state epoch
  end.

Definition isConflict (e : apiError) : bool := match e with Conflict => true | _ => false end.

(** The attempts of writeEstopState, [more] of them after this one; the lock is held at the start and at
    the end. An attempt that fails leaves the caller's Robot as it was. *)
Fixpoint writeAttempts (g : Config) (key : string) (robot : StopRobot) (state : RobotEstopState) (epoch : Z)
    (backoff : Duration) (more : nat) : P written :=
  let* out := writeEstopStateOnce g key robot state epoch in
  let '(_, _, err) := out in
  match err with
  | None => Ret out
  | Some e =>
      if negb (isConflict e) then Ret out
      else
      match more with
      | O => Ret out
      | S more =>
          let* stop :=
            if isEstopRelease state then Ret false
            else let* t := leads g in
                 if negb (snd t : bool) then Ret true else trigger ECtxErr in
          if stop : bool then Ret out
          else Unlock key (
            let* _ := trigger (ESleep backoff) in
            Lock key (writeAttempts g key robot state epoch (Z.min (2 * backoff) Second) more))
      end
  end.

Definition releaseAttempts : nat := 4.
Definition stopAttempts : nat := 29.

Definition writeEstopState (g : Config) (robot : StopRobot) (state : RobotEstopState) (epoch : Z) : P written :=
  let key := robotEstopKey (sb_Namespace robot) (sb_Name robot) in
  let* _ := trigger (EOrderFor key) in
  Lock key (
    let* superseded := if isEstopRelease state then trigger (ESuperseded key epoch) else Ret false in
    if superseded : bool then Unlock key (Ret (robot, false, None))
    else
    let* stoppedBy := if isEstopRelease state then Ret 0 else trigger (EStoppedBy key) in
    if negb (isEstopRelease state) && (epoch <? stoppedBy) then
      let* _ := noteIf ((state =s RobotEstopFailed) && g_Recorder g) (NSuperseded (sb_Name robot)) in
      Unlock key (Ret (robot, false, None))
    else
    let* out := writeAttempts g key robot state epoch (10 * Millisecond)
                  (if isEstopRelease state then releaseAttempts else stopAttempts) in
    Unlock key (Ret out)).

(** The caller's Robot afterwards. *)
Definition setEstopState (g : Config) (robot : StopRobot) (state : RobotEstopState) (epoch : Z) : P (StopRobot * bool) :=
  let* leading := stillLeads g in
  if negb (leading : bool) then Ret (robot, false)
  else let* out := writeEstopState g robot state epoch in
       let '(robot, ok, _) := out in Ret (robot, ok).

Definition recordOutcome (g : Config) (robot : StopRobot) (state : RobotEstopState) (epoch : Z) : P (StopRobot * option stopError) :=
  let* leading := stillLeads g in
  if negb (leading : bool) then Ret (robot, None)
  else let* out := writeEstopState g robot state epoch in
       let '(robot, _, err) := out in
       Ret (robot, match err with Some e => Some (ErrStateUnwritten state e) | None => None end).

(** ** Recording stops in status.stops *)

(** A change to a Robot just read: the caller's state afterwards, the Robot to write, whether it changed
    anything, and whether the record is full. *)
Definition change (S : Type) : Type := S -> StopRobot -> P (S * (StopRobot * bool * bool)).

(** One read and patch: the state, and what ends or retries it. *)
Definition writeStopRecordAttempt {S} (g : Config) (namespace name id : string) (f : change S) (s : S)
    : P (S * result apiError (bool * bool)) :=
  let* got := getRobot g namespace name in
  match got with
  | Err e => Ret (s, Err e)
  | Ok stored =>
      let* out := f s stored in
      let '(s, (new, changed, full)) := out in
      if full : bool then
        let* _ := noteIf (g_Recorder g) (NStopRecordFull (sb_Name stored) (length (sb_Stops new)) id) in
        Ret (s, Ok (false, true))
      else if negb changed then Ret (s, Ok (true, true))
      else let* out := patchStatus stored new in
           Ret (s, match out with Ok _ => Ok (true, true) | Err e => Err e end)
  end.

(** writeStopRecord: retried until it lands, is not needed, or this process no longer leads. A conflict
    is retried at once (writeStopRecordOnce), another failure after a pause. [None]: not ended after
    [fuel] attempts. *)
Fixpoint writeStopRecord {S} (g : Config) (namespace name id : string) (f : change S) (s : S) (backoff : Duration) (fuel : nat)
    : P (S * option bool) :=
  match fuel with
  | O => Ret (s, None)
  | S fuel =>
      let* leading := stillLeads g in
      if negb (leading : bool) then Ret (s, Some false)
      else
      let* out := writeStopRecordAttempt g namespace name id f s in
      match out with
      | (s, Ok (landed, _)) => Ret (s, Some landed)
      | (s, Err NotFound) | (s, Err Refused) => Ret (s, Some false)
      | (s, Err Conflict) => writeStopRecord g namespace name id f s backoff fuel
      | (s, Err Unavailable) =>
          let* _ := trigger (ESleep backoff) in
          writeStopRecord g namespace name id f s (Z.min (2 * backoff) (5 * Second)) fuel
      end
  end.

Definition firstBackoff : Duration := 50 * Millisecond.

Definition hasStop (id : string) (stops : list RobotStop) : bool := existsb (fun st => rs_ID st =s id) stops.

Definition clearOf (r : nat) : P (option Time * bool) :=
  let* ch := trigger (EClearing r) in
  let* _ := match ch with Some ch => (trigger (EWaitClosed ch) : P unit) | None => Ret tt end in
  trigger (EClearOf r).

Definition takeAckOnce (r : nat) (acked : option Time) : P (option Time) :=
  match acked with Some t => Ret (Some t) | None => trigger (ETakeAck r) end.

(** recordStop's append; its state is the acknowledgement taken so far. *)
Definition appendStop (r : nat) (entry : RobotStop) : change (option Time) := fun acked robot =>
  if hasStop (rs_ID entry) (sb_Stops robot) then Ret (acked, (robot, false, false))
  else if (maxRecordedStops <=? length (sb_Stops robot))%nat then Ret (acked, (robot, false, true))
  else
    let* acked := takeAckOnce r acked in
    let* cl := clearOf r in
    if snd cl : bool then Ret (acked, (robot, false, false))
    else
      let e := mkRobotStop (rs_ID entry) (rs_Scope entry) (rs_Carrier entry) (rs_SentAt entry)
                 (match acked with Some t => Some t | None => rs_AcknowledgedAt entry end)
                 (match fst cl with Some t => Some t | None => rs_ClearedAt entry end) in
      Ret (acked, (setStops robot (sb_Stops robot ++ [e]), true, false)).

Definition ackStop (at_ : Time) (st : RobotStop) : RobotStop :=
  mkRobotStop (rs_ID st) (rs_Scope st) (rs_Carrier st) (rs_SentAt st) (Some at_) (rs_ClearedAt st).

(** The first entry with the ID gets its acknowledgedAt, unless it has one; [None] when nothing changes. *)
Fixpoint ackFirst (id : string) (at_ : Time) (stops : list RobotStop) : option (list RobotStop) :=
  match stops with
  | [] => None
  | st :: stops =>
      if rs_ID st =s id then match rs_AcknowledgedAt st with None => Some (ackStop at_ st :: stops) | Some _ => None end
      else cons st <$> ackFirst id at_ stops
  end.

Definition acknowledge (id : string) (at_ : Time) : change unit := fun _ robot =>
  Ret (tt, match ackFirst id at_ (sb_Stops robot) with
           | Some stops => (setStops robot stops, true, false)
           | None => (robot, false, false)
           end).

Definition recordAcknowledged (g : Config) (namespace name id : string) (at_ : Time) (fuel : nat) : P unit :=
  let* _ := writeStopRecord g namespace name id (acknowledge id at_) tt firstBackoff fuel in Ret tt.

Definition canRecord (entry : RobotStop) : bool :=
  negb (bool_decide (rs_Carrier entry = None) && (rs_Scope entry <>s StopScopeReported) && (rs_Scope entry <>s StopScopeEndState)).

(** What follows the append: the flag is the record's [removed], read under d.mu. *)
Definition recordAckLater (g : Config) (namespace name : string) (r : nat) (entry : RobotStop) (acked : option Time) (fuel : nat)
    : P (option unit) :=
  let* acked :=
    match acked with
    | Some t => Ret (Some t)
    | None => let* t := trigger (EWaitAcked r) in
              match t with Some t => Ret (Some t) | None => trigger (ETakeAck r) end
    end in
  match acked with
  | None => Ret (Some tt)
  | Some t =>
      let* out := writeStopRecord g namespace name (rs_ID entry) (acknowledge (rs_ID entry) t) tt firstBackoff fuel in
      Ret (match snd out with Some _ => Some tt | None => None end)
  end.

Definition recordStop (g : Config) (namespace name : string) (r : nat) (entry : RobotStop) (fuel : nat) : P unit :=
  let* ended :=
    if negb (canRecord entry) then Ret (Some tt)
    else
      let* out := writeStopRecord g namespace name (rs_ID entry) (appendStop r entry) None firstBackoff fuel in
      match snd out with
      | None => Ret None
      | Some appended =>
          let* cl := trigger (EClearOf r) in
          if negb appended || snd cl then Ret (Some tt)
          else recordAckLater g namespace name r entry (fst out) fuel
      end in
  match ended with
  | None => Ret tt
  | Some _ => trigger (EUntrack (robotEstopKey namespace name) (rs_ID entry))
  end.

(** ** The stop *)

Definition ackResult (state : EstopState) : string :=
  match state with ESTOP_STATE_STOPPED => "ack_stopped" | ESTOP_STATE_FAILED => "ack_failed" | _ => "ack_stopping" end.

Definition recordLatencyViolation (g : Config) (robot : StopRobot) (latency : Duration) : P unit :=
  let* _ := noteIf (g_Recorder g) (NLatencyEvent (sb_Name robot) latency) in
  noteIf (g_Audit g) (NLatencyAudit (sb_Name robot) (sb_AdapterVersion robot) (sb_Adapter robot) latency (g_slaThreshold g)).

(** The measure of a first acknowledgement. *)
Definition measured (g : Config) (robot : StopRobot) (scope : EstopScope) (latency : Duration) : P unit :=
  let* _ := trigger (ENote (NLatency scope latency)) in
  if g_slaThreshold g <? latency then
    let* _ := trigger (ENote (NLatencyViolation (sb_Name robot))) in recordLatencyViolation g robot latency
  else Ret tt.

(** The outcome of a stop: [None] while its waiter is still waiting. *)
Definition outcome : Type := option (Result * option stopError).

Definition finishWith (g : Config) (robot : StopRobot) (epoch : Z) (res : Result) (confirmed : bool) (state : RobotEstopState)
    : P outcome :=
  let* out := recordOutcome g robot state epoch in
  Ret (Some (withOutcome res confirmed state, snd out)).

Fixpoint awaitConfirmation (g : Config) (robot : StopRobot) (p : nat) (epoch : Z) (confirmBy : Time) (res : Result) (fuel : nat)
    : P outcome :=
  match fuel with
  | O => Ret None
  | S fuel =>
      let* out := trigger (EWait p confirmBy) in
      match out with
      | AckIn ack =>
          match ea_State ack with
          | ESTOP_STATE_STOPPED => finishWith g robot epoch res true RobotEstopStopped
          | ESTOP_STATE_FAILED => finishWith g robot epoch res false RobotEstopFailed
          | _ => awaitConfirmation g robot p epoch confirmBy res fuel
          end
      | TimedOut =>
          let* _ := trigger (ESettle p) in
          finishWith g robot epoch res false RobotEstopFailed
      | CtxDone => Ret (Some (res, Some ErrContext))
      end
  end.

(** [acked]: the recorded acknowledgedAt of a predecessor's stop. *)
Definition await (g : Config) (robot : StopRobot) (p : nat) (scope : EstopScope) (epoch : Z) (sentFrom sentWall : Time)
    (acked : option Time) (onAck : Time -> P unit) (fuel : nat) : P outcome :=
  let* timeout := deliveryTimeoutFor g (sb_Namespace robot) in
  let* deliverBy := startWindowAt p (sentWall + timeout) in
  let* out := trigger (EWait p deliverBy) in
  match out with
  | TimedOut =>
      let* _ := trigger (ESettle p) in
      let* _ := trigger (ENote (NCommand scope "timeout")) in
      let* out := recordOutcome g robot RobotEstopFailed epoch in
      Ret (Some (resultState RobotEstopFailed, joinUnwritten ErrUndelivered (snd out)))
  | CtxDone => Ret (Some (noResult, Some ErrContext))
  | AckIn first =>
      let* now := trigger EClock in
      let latency := time_Sub now sentFrom in
      let* _ := measured g robot scope latency in
      let res := mkResult true false "" latency (g_slaThreshold g <? latency) in
      let* _ := trigger (ENote (NCommand scope (ackResult (ea_State first)))) in
      match ea_State first with
      | ESTOP_STATE_STOPPED => finishWith g robot epoch res true RobotEstopStopped
      | ESTOP_STATE_FAILED => finishWith g robot epoch res false RobotEstopFailed
      | _ =>
          let* confirmBy :=
            match acked with
            | Some t =>
                let* wall := trigger EWall in
                let* now := trigger EClock in
                startWindowAt p (wall + time_Sub (t + g_confirmTimeout g) now)
            | None =>
                let* wall := trigger EWall in
                let* confirmBy := startWindowAt p (wall + g_confirmTimeout g) in
                let* now := trigger EClock in
                let* _ := onAck now in
                Ret confirmBy
            end in
          let* out := setEstopState g robot RobotEstopStopping epoch in
          awaitConfirmation g (fst out) p epoch confirmBy res fuel
      end
  end.

Definition sendFence (g : Config) (robot : StopRobot) (stopID : string) (estop : Estop) : P unit :=
  match g_Fence g with
  | None => Ret tt
  | Some _ => Fork (let* _ := trigger (ESendFence robot stopID estop) in Ret tt) (Ret tt)
  end.

(** The end of a stop whose waiter has returned: [deferred] runs unless it is still waiting. *)
Definition ending (out : outcome) (deferred : P unit) : P outcome :=
  match out with None => Ret None | Some _ => let* _ := deferred in Ret out end.

(** The send of a registered stop, [after] what follows the send at once, and its windows. *)
Definition sendAndAwait (g : Config) (robot : StopRobot) (sender : SafetySender) (p : nat) (seq : Z) (estop : Estop)
    (id : string) (scope : EstopScope) (epoch : Z) (sentFrom sentWall : Time) (acked : option Time)
    (after : P unit) (onAck : Time -> P unit) (fuel : nat) : P outcome :=
  let* sent := send sender (estopMessage (sb_Wire robot) seq estop id) in
  let* _ := after in
  let* failed := if sent : bool then Ret false else trigger (ESettleUnless p sender) in
  if failed : bool then
    let* out := recordOutcome g robot RobotEstopFailed epoch in
    Ret (Some (resultState RobotEstopFailed, joinUnwritten ErrSend (snd out)))
  else await g robot p scope epoch sentFrom sentWall acked onAck fuel.

Definition runOutRecorded (g : Config) (robot : StopRobot) (st : RobotStop) (reason issuedBy : string) (scope : EstopScope)
    (epoch : Z) (fuel : nat) : P outcome :=
  let acked := rs_AcknowledgedAt st in
  let* ranOut :=
    match acked with
    | Some t => if sb_State robot <>s RobotEstopStopped
                then let* now := trigger EClock in Ret (negb (now <? t + g_confirmTimeout g)) else Ret false
    | None => Ret false
    end in
  let* early := if ranOut : bool then recordOutcome g robot RobotEstopFailed epoch else Ret (robot, None) in
  let '(robot, err) := early in
  match err with
  | Some e => Ret (Some (mkResult true false RobotEstopFailed 0 false, Some e))
  | None =>
      let estop := mkEstop "" reason issuedBy (UnixMilli (rs_SentAt st)) in
      let* reg := trigger (ERegister (sb_Namespace robot) (sb_Name robot) (sb_Wire robot) (sb_Adapter robot) (rs_ID st) epoch estop) in
      let* _ := sendFence g robot (rs_ID st) estop in
      match reg with
      | None =>
          let* out := recordOutcome g robot RobotEstopFailed epoch in
          Ret (Some (resultState RobotEstopFailed, joinUnwritten ErrUndelivered (snd out)))
      | Some (sender, p, seq) =>
          let* resentAt := trigger EClock in
          let* resentWall := trigger EWall in
          let* out := sendAndAwait g robot sender p seq estop (rs_ID st) scope epoch resentAt resentWall acked (Ret tt)
                        (fun at_ => Fork (recordAcknowledged g (sb_Namespace robot) (sb_Name robot) (rs_ID st) at_ fuel) (Ret tt)) fuel in
          ending out (trigger (EDeregister p))
      end
  end.

(** The stop issued here: registered, its fence handed off, sent, and only then recorded. *)
Definition issueStop (g : Config) (robot : StopRobot) (reason issuedBy : string) (scope : EstopScope) (carrier : Carrier)
    (epoch : Z) (fuel : nat) : P outcome :=
  let namespace := sb_Namespace robot in
  let* sentAt := trigger EClock in
  let* sentWall := trigger EWall in
  let* stopID := trigger ENewStopID in
  let* _ := trigger (EMarkIssued stopID) in
  let entry := newStopEntry robot stopID scope carrier sentAt in
  let* r := trigger (ENewRecord namespace (sb_Name robot) entry epoch) in
  let* _ := trigger (ETrack (robotEstopKey namespace (sb_Name robot)) stopID r) in
  let estop := mkEstop "" reason issuedBy (UnixMilli sentAt) in
  let* reg := trigger (ERegister namespace (sb_Name robot) (sb_Wire robot) (sb_Adapter robot) stopID epoch estop) in
  let* _ := sendFence g robot stopID estop in
  let record : P unit := Fork (recordStop g namespace (sb_Name robot) r entry fuel) (Ret tt) in
  let* out :=
    match reg with
    | None =>
        let* _ := record in
        let* out := recordOutcome g robot RobotEstopFailed epoch in
        Ret (Some (resultState RobotEstopFailed, joinUnwritten ErrUndelivered (snd out)))
    | Some (sender, p, seq) =>
        let* out := sendAndAwait g robot sender p seq estop stopID scope epoch sentAt sentWall None record
                      (fun at_ => trigger (EAcknowledged r at_)) fuel in
        ending out (trigger (EDeregister p))
    end in
  ending out (trigger (EFinish r)).

Definition TriggerEstop (g : Config) (namespace robotID reason issuedBy : string) (scope : EstopScope) (carrier : Carrier)
    (fuel : nat) : P outcome :=
  let* epoch := issueEpoch (robotEstopKey namespace robotID) true in
  let* got := trigger (EGet false namespace robotID) in
  match got with
  | Err e => Ret (Some (noResult, Some (ErrLookup e)))
  | Ok robot =>
      let* st := trigger (EPredecessor robot scope carrier) in
      match st with
      | Some st => runOutRecorded g robot st reason issuedBy scope epoch fuel
      | None => issueStop g robot reason issuedBy scope carrier epoch fuel
      end
  end.

(** ** Cleared stops that await their EstopClearAck *)

(** removeCleared's change; its state is what it removed, and the Robot it removed it from. *)
Definition dropCleared (match_ : RobotStop -> bool) : change (option (StopRobot * list RobotStop)) := fun _ robot =>
  let gone := List.filter (fun st => negb (bool_decide (rs_ClearedAt st = None)) && match_ st) (sb_Stops robot) in
  let keep := List.filter (fun st => bool_decide (rs_ClearedAt st = None) || negb (match_ st)) (sb_Stops robot) in
  if (length keep =? length (sb_Stops robot))%nat then Ret (Some (robot, gone), (robot, false, false))
  else Ret (Some (robot, gone), (setStops robot keep, true, false)).

Definition removeCleared (g : Config) (namespace name : string) (match_ : RobotStop -> bool) (fuel : nat) : P unit :=
  let* out := writeStopRecord g namespace name "" (dropCleared match_) None firstBackoff fuel in
  match out with
  | (Some (on, gone), Some true) => trigger (ERemember on gone)
  | _ => Ret tt
  end.

Fixpoint sendClearLoop (sender : SafetySender) (wireID clearedBy : string) (term : Z) (clears : list (string * Time)) : P unit :=
  match clears with
  | [] => Ret tt
  | (id, at_) :: clears =>
      let* seq := trigger ESeq in
      let* sent := send sender (clearMessage wireID seq id clearedBy at_ term) in
      if negb (sent : bool) then Ret tt else sendClearLoop sender wireID clearedBy term clears
  end.

(** [byID] of resendClears: the last clearedAt recorded under an ID. *)
Definition clearedAtOf (stops : list RobotStop) (id : string) : Time :=
  fold_left (fun t st => match rs_ClearedAt st with Some u => if rs_ID st =s id then u else t | None => t end) stops 0.

Definition awaitingClears (stops : list RobotStop) : list (string * Time) :=
  (fun st => (rs_ID st, clearedAtOf stops (rs_ID st))) <$> List.filter (fun st => negb (bool_decide (rs_ClearedAt st = None))) stops.

Definition resendClears (g : Config) (robot : StopRobot) (sender : SafetySender) (fuel : nat) : P unit :=
  match awaitingClears (sb_Stops robot) with
  | [] => Ret tt
  | clears =>
      let* path := trigger (EClearPath robot) in
      match path with
      | clearRemove => removeCleared g (sb_Namespace robot) (sb_Name robot) (fun _ => true) fuel
      | clearHold => Ret tt
      | clearSend =>
          let* t := leads g in
          if negb (snd t : bool) then Ret tt
          else sendClearLoop sender (sb_Wire robot) heldStopIssuer (fst t) clears
      end
  end.

Definition sendClears (g : Config) (robot : StopRobot) (ids : list string) (clearedBy : string) (at_ : Time) : P unit :=
  let* t := leads g in
  if negb (snd t : bool) then Ret tt
  else
    let* sender := trigger (EStream (adapterKey (sb_Namespace robot) (sb_Adapter robot))) in
    match sender with
    | None => Ret tt
    | Some s => sendClearLoop s (sb_Wire robot) clearedBy (fst t) ((fun id => (id, at_)) <$> ids)
    end.

(** For each Robot of the adapter that a List answered. *)
Fixpoint forRobots (adapter : string) (f : StopRobot -> P unit) (robots : list StopRobot) : P unit :=
  match robots with
  | [] => Ret tt
  | robot :: robots =>
      let* _ := if sb_Adapter robot =s adapter then f robot else Ret tt in
      forRobots adapter f robots
  end.

Definition removeAwaitingClears (g : Config) (identity : TLSIdentity) (fuel : nat) : P unit :=
  if negb (g_Client g) then Ret tt
  else
    let* listed := listRobots g (ti_Namespace identity) in
    match listed with
    | None => Ret tt
    | Some robots =>
        forRobots (ti_AdapterName identity)
          (fun robot => removeCleared g (sb_Namespace robot) (sb_Name robot) (fun _ => true) fuel) robots
    end.

Definition sendAwaitingClears (g : Config) (identity : TLSIdentity) (fuel : nat) : P unit :=
  if negb (g_Client g) then Ret tt
  else
    let* sender := trigger (EStream (adapterKey (ti_Namespace identity) (ti_AdapterName identity))) in
    match sender with
    | None => Ret tt
    | Some s =>
        let* listed := listRobots g (ti_Namespace identity) in
        match listed with
        | None => Ret tt
        | Some robots => forRobots (ti_AdapterName identity) (fun robot => resendClears g robot s fuel) robots
        end
    end.

(** ** Removed stops *)

(** robotid.Lookup over a List of the namespace. *)
Definition lookupStop (listed : option (list StopRobot)) (wireID : string) : option StopRobot :=
  match Lookup (option_map (map sb_Robot) listed) wireID with
  | Ok (Some _) => List.find (fun b => sb_Wire b =s wireID) (default [] listed)
  | _ => None
  end.

Definition sameSender (o : option SafetySender) (s : SafetySender) : bool :=
  match o with Some s' => Nat.eqb s' s | None => false end.

Definition answerRemoved (g : Config) (identity : TLSIdentity) (from : SafetySender) (wireID : string) (rm : removedStop) : P unit :=
  let* current := trigger (EStream (adapterKey (ti_Namespace identity) (ti_AdapterName identity))) in
  if negb (sameSender current from) then Ret tt
  else
  let* t := leads g in
  if negb (snd t : bool) then Ret tt
  else
  let* listed := listRobots g (ti_Namespace identity) in
  match lookupStop listed wireID with
  | None => Ret tt
  | Some robot =>
      if sb_UID robot <>s rm_uid rm then Ret tt
      else if sb_Adapter robot <>s ti_AdapterName identity then Ret tt
      else
      let* path := trigger (EClearPath robot) in
      match path with
      | clearHold | clearRemove => trigger (EKeep identity wireID rm)
      | clearSend =>
          let* now := trigger EClock in
          let estop := mkEstop (rm_id rm) "a cleared stop the adapter reports latched" heldStopIssuer (UnixMilli now) in
          let* _ := match g_Fence g with
                    | Some true => let* _ := trigger (ESendClearedFence robot (rm_id rm) estop) in Ret tt
                    | _ => Ret tt
                    end in
          let* seq := trigger ESeq in
          let* _ := send from (clearMessage wireID seq (rm_id rm) heldStopIssuer (rm_clearedAt rm) (fst t)) in
          Ret tt
      end
  end.

Fixpoint answerEach (g : Config) (identity : TLSIdentity) (s : SafetySender) (reports : list keptReport) : P unit :=
  match reports with
  | [] => Ret tt
  | k :: reports => let* _ := answerRemoved g identity s (kr_wireID k) (kr_rm k) in answerEach g identity s reports
  end.

Definition answerKeptReports (g : Config) (identity : TLSIdentity) : P unit :=
  let* out := trigger (ETakeKept identity) in
  match fst out with
  | None => Ret tt
  | Some s => answerEach g identity s (snd out)
  end.

Definition ContractReported (g : Config) (identity : TLSIdentity) (version : string) (fuel : nat) : P unit :=
  if negb (ti_Verified identity) then Ret tt
  else
    let* _ := trigger (EContract (adapterKey (ti_Namespace identity) (ti_AdapterName identity)) version) in
    match contractClearPath version with
    | clearHold => Ret tt
    | clearRemove => Fork (removeAwaitingClears g identity fuel) (Ret tt)
    | clearSend => Fork (sendAwaitingClears g identity fuel) (Fork (answerKeptReports g identity) (Ret tt))
    end.

(** ** Streams *)

Fixpoint resendOnto (sender : SafetySender) (msgs : list resend) : P unit :=
  match msgs with
  | [] => Ret tt
  | m :: msgs => let* _ := send sender (rd_msg m) in resendOnto sender msgs
  end.

Definition auditHeldResend (g : Config) (robot : StopRobot) (confirmed : bool) (sentAt : Time) (res : Result) : P unit :=
  noteIf (g_Audit g) (NResentAudit (sb_Name robot) (sb_Adapter robot) confirmed (re_State res) sentAt (re_Delivered res)
    (if re_Delivered res then Some (sentAt + re_Latency res, re_Latency res, re_LatencyViolation res) else None)).

Definition recordHeldResend (g : Config) (robot : StopRobot) (confirmed : bool) (sentAt : Time) (res : Result) : P unit :=
  let* _ := auditHeldResend g robot confirmed sentAt res in
  noteIf (g_Recorder g) (NResent (sb_Name robot) confirmed).

(** The wait of a re-sent stop. *)
Fixpoint awaitHeld (g : Config) (robot : StopRobot) (p taken : nat) (sentAt until : Time) (res : Result) (fuel : nat) : P unit :=
  match fuel with
  | O => Ret tt
  | S fuel =>
      let scope := resendScope robot in
      let finish (q : P unit) : P unit := let* _ := q in trigger (EDeregister p) in
      let* out := trigger (EWaitHeld p taken until) in
      match out with
      | HeldTaken => trigger (EDeregister p)
      | HeldAck ack =>
          let* leading := stillLeads g in
          if negb (leading : bool) then trigger (EDeregister p)
          else
          let* res :=
            if re_Delivered res then Ret res
            else
              let* now := trigger EClock in
              let latency := time_Sub now sentAt in
              let* _ := measured g robot scope latency in
              let* _ := trigger (ENote (NCommand scope (ackResult (ea_State ack)))) in
              Ret (mkResult true (re_Confirmed res) (re_State res) latency (g_slaThreshold g <? latency)) in
          match ea_State ack with
          | ESTOP_STATE_STOPPED => finish (recordHeldResend g robot true sentAt (withOutcome res true RobotEstopStopped))
          | ESTOP_STATE_FAILED => finish (recordHeldResend g robot false sentAt (withOutcome res false RobotEstopFailed))
          | _ => awaitHeld g robot p taken sentAt until res fuel
          end
      | HeldTimedOut =>
          let* _ := trigger (ESettle p) in
          let* leading := stillLeads g in
          if negb (leading : bool) then trigger (EDeregister p)
          else
          let* _ := if re_Delivered res then Ret tt else trigger (ENote (NCommand scope "timeout")) in
          finish (recordHeldResend g robot false sentAt (withOutcome res (re_Confirmed res) RobotEstopFailed))
      end
  end.

(** [rec]: the record of a stop that has none yet. *)
Definition resendHeldTo (g : Config) (identity : TLSIdentity) (sender : SafetySender) (robot : StopRobot) (stopID : string)
    (rec : option (nat * RobotStop)) (fuel : nat) : P unit :=
  let namespace := sb_Namespace robot in
  let reason := heldReason (sb_State robot) in
  let* out := trigger (EHeldSection (ti_AdapterName identity) namespace (sb_Name robot) (sb_Wire robot) stopID sender reason) in
  match out with
  | AwaitedHere => Ret tt
  | AwaitedElsewhere _ msg => let* _ := send sender msg in Ret tt
  | NewWaiter p taken msg =>
      let* sentAt := trigger EClock in
      let* sent := send sender msg in
      let* _ := match rec with
                | Some (r, entry) => Fork (recordStop g namespace (sb_Name robot) r entry fuel) (Ret tt)
                | None => Ret tt
                end in
      if negb (sent : bool) then
        let* _ := trigger (ESettle p) in
        let* _ := recordHeldResend g robot false sentAt (resultState RobotEstopFailed) in
        trigger (EDeregister p)
      else
        let* timeout := deliveryTimeoutFor g namespace in
        let* until := startWindow p (timeout + g_confirmTimeout g) in
        awaitHeld g robot p taken sentAt until noResult fuel
  end.

Definition unrecordedStop (g : Config) (robot : StopRobot) : P (string * (nat * RobotStop)) :=
  let namespace := sb_Namespace robot in
  let* id := trigger ENewStopID in
  let* _ := trigger (EMarkIssued id) in
  let* now := trigger EClock in
  let* _ := sendFence g robot id (mkEstop "" (heldReason (sb_State robot)) heldStopIssuer (UnixMilli now)) in
  let* sentAt := trigger EClock in
  let entry := newStopEntry robot id ScopeRobot (mkCarrier "" "" "") sentAt in
  let* r := trigger (ENewRecord namespace (sb_Name robot) entry 0) in
  let* _ := trigger (EFinish r) in
  let* _ := trigger (ETrack (robotEstopKey namespace (sb_Name robot)) id r) in
  Ret (id : string, (r : nat, entry)).

Fixpoint forkEach (l : list (P unit)) : P unit :=
  match l with [] => Ret tt | p :: l => Fork p (forkEach l) end.

Definition uncleared (stops : list RobotStop) : list string :=
  rs_ID <$> List.filter (fun st => bool_decide (rs_ClearedAt st = None)) stops.

Definition resendHeldRobot (g : Config) (identity : TLSIdentity) (sender : SafetySender) (moved : gset string) (fuel : nat)
    (robot : StopRobot) : P unit :=
  let* _ := resendClears g robot sender fuel in
  if bool_decide (sb_Name robot ∈ moved) then Ret tt
  else if holdsStop (sb_State robot) then
    match uncleared (sb_Stops robot) with
    | [] => let* un := unrecordedStop g robot in
            Fork (resendHeldTo g identity sender robot (fst un) (Some (snd un)) fuel) (Ret tt)
    | ids => forkEach ((fun id => resendHeldTo g identity sender robot id None fuel) <$> ids)
    end
  else Ret tt.

Definition resendHeld (g : Config) (identity : TLSIdentity) (sender : SafetySender) (moved : gset string) (fuel : nat) : P unit :=
  if negb (g_Client g) then Ret tt
  else
    let* listed := listRobots g (ti_Namespace identity) in
    match listed with
    | None => Ret tt
    | Some robots => forRobots (ti_AdapterName identity) (resendHeldRobot g identity sender moved fuel) robots
    end.

Definition RegisterStream (g : Config) (identity : TLSIdentity) (sender : SafetySender) (fuel : nat) : P unit :=
  if negb (ti_Verified identity) then Ret tt
  else
    let* msgs := trigger (EPutStream identity sender) in
    let* _ := resendOnto sender msgs in
    Fork (resendHeld g identity sender (list_to_set (rd_robotID <$> msgs)) fuel) (Ret tt).

(** The func RegisterStream returns. *)
Definition deregisterStream (identity : TLSIdentity) (sender : SafetySender) : P unit :=
  if negb (ti_Verified identity) then Ret tt
  else trigger (EDropStream (adapterKey (ti_Namespace identity) (ti_AdapterName identity)) sender).

(** [true]: ErrMisroutedAck. *)
Definition RouteAck (g : Config) (identity : TLSIdentity) (from : SafetySender) (robotID : string) (ack : option EstopAck) : P bool :=
  match ack with
  | None => Ret false
  | Some ack =>
      if negb (ti_Verified identity) || (robotID =s "") then Ret false
      else
        let* to := trigger (ERouteAck identity from robotID ack) in
        match to with
        | NotAwaited None => Ret false
        | NotAwaited (Some rm) => Fork (answerRemoved g identity from robotID rm) (Ret false)
        | MisroutedAck => Ret true
        | Routed p => let* _ := trigger (EChanPut p ack) in Ret false
        end
  end.

(** ** The clear *)

Definition ConditionRenewalHeld : string := "RenewalHeld".
Definition ReasonStopClearedBeforePause : string := "StopClearedBeforePause".
Definition ReasonStopClearedWhilePaused : string := "StopClearedWhilePaused".

(** [""]: the phase's lease is not held by a clear. *)
Definition holdReason (phase : ActionPhase) : string :=
  if (phase =s ActionPhaseAssigned) || (phase =s ActionPhaseInProgress) || (phase =s ActionPhaseRevoking)
  then ReasonStopClearedBeforePause
  else if phase =s ActionPhasePaused then ReasonStopClearedWhilePaused else "".

(** The action is bound to the robot and its lease is one a clear holds. *)
Definition toHold (robot : string) (a : WorkAction) : bool := (wa_AssignedRobot a =s robot) && (holdReason (wa_Phase a) <>s "").

Definition isHeld (a : WorkAction) : bool := existsb (fun c => fst c =s ConditionRenewalHeld) (wa_Conditions a).

Definition heldAction (a : WorkAction) : WorkAction :=
  mkWork (wa_Namespace a) (wa_Name a) (wa_rv a) (wa_AssignedRobot a) (wa_Phase a)
    (wa_Conditions a ++ [(ConditionRenewalHeld, holdReason (wa_Phase a))]).

(** [more] attempts after this one. *)
Fixpoint holdOne (g : Config) (robot namespace name : string) (more : nat) : P (option apiError) :=
  let* got := trigger (EGetAction (g_APIReader g) namespace name) in
  match got with
  | Err NotFound => Ret None
  | Err e => Ret (Some e)
  | Ok a =>
      if negb (toHold robot a) || isHeld a then Ret None
      else
        let* err := trigger (EPatchAction (heldAction a)) in
        match err, more with
        | None, _ => let* _ := noteIf (g_Recorder g) (NRenewalHeld name) in Ret None
        | Some Conflict, S more => holdOne g robot namespace name more
        | Some e, _ => Ret (Some e)
        end
  end.

Definition holdAttempts : nat := 4.

(** [true]: every action bound to the robot is held. *)
Fixpoint holdAll (g : Config) (robot : string) (actions : list WorkAction) : P bool :=
  match actions with
  | [] => Ret true
  | a :: actions =>
      let* err := if toHold robot a then holdOne g robot (wa_Namespace a) (wa_Name a) holdAttempts else Ret None in
      let* rest := holdAll g robot actions in
      Ret (match err with None => rest | Some _ => false end)
  end.

Definition holdClearedWork (g : Config) (robot : StopRobot) : P bool :=
  let* actions := trigger (EListActions (g_APIReader g) (sb_Namespace robot)) in
  match actions with
  | None => Ret false
  | Some actions => holdAll g (sb_Name robot) actions
  end.

Record clearResult := mkClearResult {
  cz_state : RobotEstopState;
  cz_written : bool;
  cz_robot : option StopRobot;
  cz_ended : list string;
  cz_clearedAt : Time;
  cz_path : clearPath
}.

(** The state of a Robot, read as Normal when it has none. *)
Definition standing (b : StopRobot) : RobotEstopState := if sb_State b =s "" then RobotEstopNormal else sb_State b.

(** The clear writes nothing. *)
Definition unwritten (b : StopRobot) : clearResult := mkClearResult (standing b) false (Some b) [] 0 clearHold.

(** The guards of clearOnce on the Robot alone: its state has something to clear, it does not carry its own
    trigger, and the clear ends every hold recorded on it. *)
Definition clearable (b : StopRobot) (ends : Ends) : bool :=
  if (standing b =s RobotEstopNormal) && bool_decide (sb_HeldBy b = []) then false
  else if (standing b =s RobotEstopStopping) || (standing b =s RobotEstopResuming) then false
  else if ownTrigger b then false
  else forallb (fun h => match en_Hold ends with Some f => f h | None => false end) (sb_HeldBy b).

Definition clearedStop (at_ : Time) (st : RobotStop) : RobotStop :=
  mkRobotStop (rs_ID st) (rs_Scope st) (rs_Carrier st) (rs_SentAt st) (rs_AcknowledgedAt st) (Some at_).

(** The recorded stops after the clear and the IDs it ends; [None] when one is still in force. *)
Fixpoint clearStops (ends : Ends) (legacy : bool) (at_ : Time) (stops : list RobotStop) : option (list RobotStop * list string) :=
  match stops with
  | [] => Some ([], [])
  | st :: stops =>
      match rs_ClearedAt st with
      | Some _ => match clearStops ends legacy at_ stops with Some (kept, ended) => Some (st :: kept, ended) | None => None end
      | None =>
          if negb (stopEnded st ends) then None
          else match clearStops ends legacy at_ stops with
               | Some (kept, ended) => Some (if legacy then kept else clearedStop at_ st :: kept, rs_ID st :: ended)
               | None => None
               end
      end
  end.

(** The unrecorded stops the clear ends; [None] when one is still in force. *)
Fixpoint endUnrecorded (ends : Ends) (recorded : list RobotStop) (inflight : list (nat * RobotStop))
    : P (option (list (nat * RobotStop))) :=
  match inflight with
  | [] => Ret (Some [])
  | (r, entry) :: inflight =>
      let* settled := if hasStop (rs_ID entry) recorded then Ret true else trigger (ESettled r) in
      if settled : bool then endUnrecorded ends recorded inflight
      else if negb (stopEnded entry ends) then Ret None
      else let* rest := endUnrecorded ends recorded inflight in
           Ret (cons (r, entry) <$> rest)
  end.

Definition isRemove (path : clearPath) : bool := match path with clearRemove => true | _ => false end.

(** The write of a clear whose guards passed; the caller holds the robot's write lock. *)
Definition writeClear (g : Config) (key : string) (stored : StopRobot) (path : clearPath) (at_ : Time) (stops : list RobotStop)
    (ended : list string) (unrecorded : list (nat * RobotStop)) (epoch : Z) : P (clearResult * option apiError) :=
  let legacy := isRemove path in
  let new := setStatus stored [] RobotEstopResuming stops (sb_EstopBaseline stored) in
  let rs := fst <$> unrecorded in
  let* _ := trigger (EBeginClearing rs) in
  let* out := patchStatus stored new in
  let* _ := trigger (EEndClearing rs (match out with Ok _ => Some (at_, legacy) | Err _ => None end)) in
  match out with
  | Err e => Ret (mkClearResult (standing stored) false (Some stored) ended at_ path, Some e)
  | Ok stored' =>
      let* _ := trigger (ESetStoppedBy key 0) in
      let* _ := if legacy
                then trigger (ERemember stored' (clearedStop at_ <$> removedEntries (sb_Stops stored) stops ++ (snd <$> unrecorded)))
                else Ret tt in
      let* _ := match g_Fence g with
                | Some _ => let* _ := trigger (EClearHeldIf key (sb_Namespace stored) (sb_Name stored) epoch) in Ret tt
                | None => Ret tt
                end in
      Ret (mkClearResult RobotEstopResuming true (Some stored') (sort_Strings ended) at_ path, None)
  end.

Definition clearOnce (g : Config) (namespace robotID : string) (ends : Ends) (epoch : Z) : P (clearResult * option apiError) :=
  let key := robotEstopKey namespace robotID in
  let* got := getRobot g namespace robotID in
  match got with
  | Err e => Ret (mkClearResult "" false None [] 0 clearHold, Some e)
  | Ok stored =>
      Lock key (
        let* superseded := trigger (ESuperseded key epoch) in
        if superseded || negb (clearable stored ends) then Unlock key (Ret (unwritten stored, None))
        else
        let* path := trigger (EClearPath stored) in
        let* now := trigger EClock in
        let at_ := toSecond now in
        match clearStops ends (isRemove path) at_ (sb_Stops stored) with
        | None => Unlock key (Ret (unwritten stored, None))
        | Some (stops, ended) =>
            let* inflight := trigger (EInflight key) in
            let* unrecorded := endUnrecorded ends (sb_Stops stored) inflight in
            match unrecorded with
            | None => Unlock key (Ret (unwritten stored, None))
            | Some unrecorded =>
                let* out := writeClear g key stored path at_ stops (ended ++ (rs_ID <$> (snd <$> unrecorded))) unrecorded epoch in
                Unlock key (Ret out)
            end
        end)
  end.

(** [attempt] of ten; the pause grows with it. *)
Fixpoint clearAttempts (g : Config) (namespace robotID : string) (ends : Ends) (epoch : Z) (attempt : Z) (more : nat)
    : P (clearResult * option apiError) :=
  let* out := clearOnce g namespace robotID ends epoch in
  match snd out, more with
  | Some Conflict, S more =>
      let* _ := trigger (ESleep ((attempt + 1) * (10 * Millisecond))) in
      clearAttempts g namespace robotID ends epoch (attempt + 1) more
  | _, _ => Ret out
  end.

Definition clearRetries : nat := 9.

Definition ClearEstop (g : Config) (namespace robotID clearedBy : string) (ends : Ends) : P (RobotEstopState * option stopError) :=
  let key := robotEstopKey namespace robotID in
  let* epoch := issueClear key in
  let* t := leads g in
  if negb (snd t : bool) then Ret ("", Some ErrNotLeading)
  else
  let* _ := trigger (EOrderFor key) in
  let* out := clearAttempts g namespace robotID ends epoch 0 clearRetries in
  let '(res, err) := out in
  match err, cz_robot res with
  | Some e, _ => Ret (cz_state res, Some (ErrWrite e))
  | None, Some robot =>
      if negb (cz_written res) then Ret (cz_state res, None)
      else
        let* now := trigger EClock in
        let* _ := trigger (EArm key now) in
        let* _ := holdClearedWork g robot in
        let* _ := match cz_path res with
                  | clearSend => sendClears g robot (cz_ended res) clearedBy (cz_clearedAt res)
                  | _ => Ret tt
                  end in
        Ret (RobotEstopResuming, None)
  | None, None => Ret (cz_state res, None)
  end.

(** RouteClearAck's change: the first entry with the ID is removed, if a clear ended it. *)
Fixpoint removeFirst (id : string) (stops : list RobotStop) : option (RobotStop * list RobotStop) :=
  match stops with
  | [] => None
  | st :: stops =>
      if rs_ID st =s id then match rs_ClearedAt st with Some _ => Some (st, stops) | None => None end
      else match removeFirst id stops with Some (gone, kept) => Some (gone, st :: kept) | None => None end
  end.

Definition dropAcked (id : string) : change (option (StopRobot * RobotStop)) := fun _ robot =>
  Ret (match removeFirst id (sb_Stops robot) with
       | Some (gone, kept) => (Some (robot, gone), (setStops robot kept, true, false))
       | None => (None, (robot, false, false))
       end).

Definition clearAcked (g : Config) (namespace wireID id : string) (fuel : nat) : P unit :=
  let* listed := listRobots g namespace in
  match lookupStop listed wireID with
  | None => Ret tt
  | Some robot =>
      let* unrecorded := trigger (EMarkAcked (robotEstopKey (sb_Namespace robot) (sb_Name robot)) id) in
      if unrecorded : bool then Ret tt
      else
        let* out := writeStopRecord g (sb_Namespace robot) (sb_Name robot) id (dropAcked id) None firstBackoff fuel in
        match out with
        | (Some (on, gone), Some true) => trigger (ERemember on [gone])
        | _ => Ret tt
        end
  end.

(** [ack]: the estop_id an EstopClearAck names. *)
Definition RouteClearAck (g : Config) (identity : TLSIdentity) (from : SafetySender) (robotID : string) (ack : option string)
    (fuel : nat) : P unit :=
  match ack with
  | None => Ret tt
  | Some id =>
      if negb (ti_Verified identity) || (robotID =s "") then Ret tt
      else
        let* current := trigger (EStream (adapterKey (ti_Namespace identity) (ti_AdapterName identity))) in
        if negb (sameSender current from) then Ret tt
        else Fork (clearAcked g (ti_Namespace identity) robotID id fuel) (Ret tt)
  end.

(** ** The release *)

Inductive confirmWhy :=
| HeldByStop
| NotResuming (state : RobotEstopState)
| NoRecordOfClear
| NoBaseline
| NoFrameSinceTakeover
| NoFrameSinceClear
| ReportUnwritten
| NoDerivation
| RefusedBy (why : resumeWhy)
| SupersededConfirmation
| Released (e : evidence).

Definition confirmation : Type := RobotEstopState * option confirmWhy * option stopError.

Definition telemetryID (robot : StopRobot) : string := default "" (r_Annotations (sb_Robot robot) !! RobotIDAnnotation).

Definition hasTelemetry (g : Config) (robot : StopRobot) : bool := g_Telemetry g && (telemetryID robot <>s "").

Definition lastFrame (g : Config) (robot : StopRobot) : P (option Time) :=
  if hasTelemetry g robot then trigger (ELastFrame (sb_Namespace robot) (telemetryID robot)) else Ret None.
Definition firstFrame (g : Config) (robot : StopRobot) : P (option Time) :=
  if hasTelemetry g robot then trigger (EFirstFrame (sb_Namespace robot) (telemetryID robot)) else Ret None.
Definition reportedPhase (g : Config) (robot : StopRobot) : P RobotPhase :=
  if hasTelemetry g robot then let* p := trigger (EReportedPhase (sb_Namespace robot) (telemetryID robot)) in Ret (default "" p)
  else Ret "".
Definition lastReportUnwritten (g : Config) (robot : StopRobot) : P bool :=
  if hasTelemetry g robot then trigger (EUnwritten (sb_Namespace robot) (telemetryID robot)) else Ret false.

Definition notResuming (state : RobotEstopState) : confirmWhy := NotResuming (if state =s "" then RobotEstopNormal else state).

Definition refused (state : RobotEstopState) (why : confirmWhy) : confirmation := (state, Some why, None).

(** [None]: no stop the robot records holds it. *)
Definition heldByOwnTrigger (g : Config) (namespace robotID : string) : P (option confirmation) :=
  let* got := getRobot g namespace robotID in
  Ret (match got with
       | Err e => Some ("", None, Some (ErrLookup e))
       | Ok robot => match HeldOnRecord (sb_Robot robot) with
                     | None => None
                     | Some _ => Some (refused (sb_State robot) HeldByStop)
                     end
       end).

Definition rearmResumeAfterFailover (namespace robotID key : string) : P confirmation :=
  let* got := trigger (EGet false namespace robotID) in
  match got with
  | Err e => Ret ("", None, Some (ErrLookup e))
  | Ok robot =>
      if sb_State robot <>s RobotEstopResuming then Ret (refused (sb_State robot) (notResuming (sb_State robot)))
      else
        let* _ := trigger (EOrderFor key) in
        let* _ := trigger (EAdopt key) in
        Ret (refused RobotEstopResuming NoRecordOfClear)
  end.

(** The checks of a confirmation on the Robot read, up to its write; [Err] is the answer of one that fails. *)
Definition confirmChecks (g : Config) (key : string) (robot : StopRobot) : P (result confirmation unit) :=
  let stays why := Ret (Err (refused RobotEstopResuming why)) in
  let* _ := trigger (EOrderFor key) in
  let* base := trigger (EResumeBaseline key) in
  let '(since, armed, adopted) := base in
  if negb armed then
    let* _ := trigger (EOrderFor key) in
    let* _ := trigger (EAdopt key) in
    stays NoBaseline
  else
  let* baseline := if adopted : bool then firstFrame g robot else Ret (Some since) in
  match baseline with
  | None => stays NoFrameSinceTakeover
  | Some baseline =>
      let* heard := lastFrame g robot in
      if negb (match heard with Some t => baseline <? t | None => false end) then stays NoFrameSinceClear
      else
      let* pending := lastReportUnwritten g robot in
      if pending : bool then stays ReportUnwritten
      else match g_Derive g with
           | None => stays NoDerivation
           | Some derive =>
               let* phase := reportedPhase g robot in
               match resumeRefusal robot (derive robot) phase with
               | Some why => stays (RefusedBy why)
               | None => Ret (Ok tt)
               end
           end
  end.

(** The work first, then Normal. *)
Definition release (g : Config) (namespace robotID key : string) (robot : StopRobot) (epoch : Z) : P confirmation :=
  let* held := holdClearedWork g robot in
  if negb (held : bool) then Ret (RobotEstopResuming, None, Some ErrWork)
  else
  let* out := writeEstopState g robot RobotEstopNormal epoch in
  let '(robot', ok, err) := out in
  match err with
  | Some e => Ret (sb_State robot', None, Some (ErrWrite e))
  | None =>
      if negb ok then Ret (refused (sb_State robot') SupersededConfirmation)
      else
        let* _ := trigger (EOrderFor key) in
        let* _ := trigger (EDisarm key) in
        let* _ := match g_Fence g with Some _ => trigger (EReleased namespace robotID) | None => Ret tt end in
        Ret (RobotEstopNormal, Some (Released (resumeEvidence robot)), None)
  end.

Definition ConfirmResume (g : Config) (namespace robotID : string) : P confirmation :=
  let key := robotEstopKey namespace robotID in
  let* held := heldByOwnTrigger g namespace robotID in
  match held with
  | Some out => Ret out
  | None =>
      let* known := trigger (EExistingOrder key) in
      if negb (known : bool) then rearmResumeAfterFailover namespace robotID key
      else
      let* epoch := issueEpoch key false in
      let* got := getRobot g namespace robotID in
      match got with
      | Err e => Ret ("", None, Some (ErrLookup e))
      | Ok robot =>
          if sb_State robot <>s RobotEstopResuming then Ret (refused (sb_State robot) (notResuming (sb_State robot)))
          else
          let* checked := confirmChecks g key robot in
          match checked with
          | Err out => Ret out
          | Ok _ => release g namespace robotID key robot epoch
          end
      end
  end.

(** ** Calls and schedules *)

(** The package's entry points, and what other writers do to the Robots meanwhile. *)
Inductive call :=
| CallTriggerEstop (namespace robotID reason issuedBy : string) (scope : EstopScope) (carrier : Carrier) (fuel : nat)
| CallClearEstop (namespace robotID clearedBy : string) (ends : Ends)
| CallConfirmResume (namespace robotID : string)
| CallRegisterStream (identity : TLSIdentity) (s : SafetySender) (fuel : nat)
| CallDeregisterStream (identity : TLSIdentity) (s : SafetySender)
| CallRouteAck (identity : TLSIdentity) (from : SafetySender) (robotID : string) (ack : option EstopAck)
| CallRouteClearAck (identity : TLSIdentity) (from : SafetySender) (robotID : string) (ack : option string) (fuel : nat)
| CallContractReported (identity : TLSIdentity) (version : string) (fuel : nat)
| CallSentUnrecorded (namespace : string) (carrier : Carrier)
| CallClusterWrite (b : StopRobot)
| CallClusterDelete (namespace name : string).

Definition discard {A} (p : P A) : P unit := let* _ := p in Ret tt.

Definition progOf (g : Config) (c : call) : P unit :=
  match c with
  | CallTriggerEstop namespace robotID reason issuedBy scope carrier fuel =>
      discard (TriggerEstop g namespace robotID reason issuedBy scope carrier fuel)
  | CallClearEstop namespace robotID clearedBy ends => discard (ClearEstop g namespace robotID clearedBy ends)
  | CallConfirmResume namespace robotID => discard (ConfirmResume g namespace robotID)
  | CallRegisterStream identity s fuel => RegisterStream g identity s fuel
  | CallDeregisterStream identity s => deregisterStream identity s
  | CallRouteAck identity from robotID ack => discard (RouteAck g identity from robotID ack)
  | CallRouteClearAck identity from robotID ack fuel => RouteClearAck g identity from robotID ack fuel
  | CallContractReported identity version fuel => ContractReported g identity version fuel
  | CallSentUnrecorded namespace carrier => discard (trigger (ESentUnrecorded namespace carrier))
  | CallClusterWrite b => discard (trigger (EClusterWrite b))
  | CallClusterDelete namespace name => trigger (EClusterDelete namespace name)
  end.

Inductive sched := Spawn (c : call) | Run (tid : nat) (x : Input).

Definition noRobots : Cluster := mkCluster ∅ [] 1.

Definition start : Sys resp := mkSys (mkWorld New noRobots []) ∅ ∅ 0.

Definition sysStep (g : Config) (s : Sys resp) (i : sched) : Sys resp :=
  match i with
  | Spawn c => addThread s (progOf g c)
  | Run tid x => runThread perform tid x s
  end.

Definition schedule (g : Config) (l : list sched) : Sys resp := fold_left (sysStep g) l start.

Definition history (g : Config) (l : list sched) : list Entry := w_hist (sy_world (schedule g l)).

(** The call a thread was started for; a goroutine a call starts has none. *)
Definition spawnStep (g : Config) (s : Sys resp * gmap nat call) (i : sched) : Sys resp * gmap nat call :=
  (sysStep g s.1 i, match i with Spawn c => <[sy_next s.1 := c]> s.2 | Run _ _ => s.2 end).

Definition callOf (g : Config) (l : list sched) (tid : nat) : option call := (fold_left (spawnStep g) l (start, ∅)).2 !! tid.
