(* ===== verification/SafetyInv.v ===== *)
(** The stop dispatcher in the logic of Conc: what its history says of its state and of the stored Robots,
    the conditions under which each event may happen, the invariant, and the proof that every step keeps
    them. *)

From S2P Require Import Prelude.
From S2P Require Import Types.
From S2P Require Import Contract.
From S2P Require Import RobotId.
From S2P Require Import Conc.
From S2P Require Import EstopScope.
From S2P Require Import Command.
From S2P Require Import SafetyData.
From S2P Require Import Safety.

(** ** Reading a history (the latest entry first) *)

(** The version of a Robot an entry stored. *)
Definition storedBy (en : Entry) : option StopRobot :=
  match en with
  | mkEntry _ (EPatch _ _) a => pa_landed a
  | mkEntry _ (EClusterWrite _) b => Some b
  | _ => None
  end.

#[global] Arguments storedBy : simpl never.

Definition versions (h : list Entry) : list StopRobot := omap storedBy h.
#[global] Arguments versions : simpl never.

(** The Robot stored under a name. *)
Fixpoint storedAfter (key : string * string) (h : list Entry) : option StopRobot :=
  match h with
  | [] => None
  | en :: h =>
      match en_event en with
      | EClusterDelete namespace name => if bool_decide ((namespace, name) = key) then None else storedAfter key h
      | _ => match storedBy en with
             | Some b => if bool_decide (objKey b = key) then Some b else storedAfter key h
             | None => storedAfter key h
             end
      end
  end.

(** The waiters an entry opened or moved, and the stream each is bound to from there. *)
Definition binds (en : Entry) : list (nat * SafetySender) :=
  match en with
  | mkEntry _ (ERegister _ _ _ _ _ _ _) (Some (s, p, _)) => [(p, s)]
  | mkEntry _ (EPutStream _ s) msgs => (fun m => (rd_waiter m, s)) <$> msgs
  | mkEntry _ (EHeldSection _ _ _ _ _ s _) (AwaitedElsewhere p _) => [(p, s)]
  | mkEntry _ (EHeldSection _ _ _ _ _ s _) (NewWaiter p _ _) => [(p, s)]
  | _ => []
  end.

Definition bindOf (en : Entry) (p : nat) : option SafetySender := snd <$> List.find (fun b => Nat.eqb (fst b) p) (binds en).

(** The SafetyStream waiter [p]'s stop last went to. *)
Fixpoint boundTo (p : nat) (h : list Entry) : option SafetySender :=
  match h with
  | [] => None
  | en :: h => match bindOf en p with Some s => Some s | None => boundTo p h end
  end.

(** The waiter an entry opened: its name, adapter and key. *)
Definition opens (en : Entry) : option (nat * (string * pendingKey)) :=
  match en with
  | mkEntry _ (ERegister namespace _ wireID adapter id _ _) (Some (_, p, _)) => Some (p, (adapter, (namespace, wireID, id)))
  | mkEntry _ (EHeldSection adapter namespace _ wireID id _ _) (NewWaiter p _ _) => Some (p, (adapter, (namespace, wireID, id)))
  | _ => None
  end.

Definition opened (p : nat) (who : string * pendingKey) (h : list Entry) : Prop := exists en, en ∈ h /\ opens en = Some (p, who).

(** RouteAck gave [ack] to waiter [p]. *)
Definition arrived (p : nat) (ack : EstopAck) (h : list Entry) : Prop :=
  exists t identity from robotID, mkEntry t (ERouteAck identity from robotID ack) (Routed p) ∈ h.

(** The stops in flight: sent, and neither recorded nor given up. *)
Fixpoint trackedAfter (key : string) (h : list Entry) : gmap string nat :=
  match h with
  | [] => ∅
  | en :: h =>
      match en_event en with
      | ETrack k id r => if k =s key then <[id := r]> (trackedAfter key h) else trackedAfter key h
      | EUntrack k id => if k =s key then delete id (trackedAfter key h) else trackedAfter key h
      | _ => trackedAfter key h
      end
  end.

(** The record [r] was made for a stop. *)
Definition recordOf (r : nat) (entry : RobotStop) (h : list Entry) : Prop :=
  exists t namespace name epoch, mkEntry t (ENewRecord namespace name entry epoch) r ∈ h.

(** The epoch an entry issued for the robot, and whether a trigger's. *)
Definition issues (key : string) (en : Entry) : option (Z * bool) :=
  match en with
  | mkEntry _ (EIssue k stop) n => if k =s key then Some (n, stop) else None
  | mkEntry _ (EIssueClear k) n => if k =s key then Some (n, false) else None
  | _ => None
  end.

(** How many epochs were issued, and the last trigger's. *)
Fixpoint issuedAfter (key : string) (h : list Entry) : nat :=
  match h with [] => O | en :: h => (match issues key en with Some _ => 1 | None => 0 end) + issuedAfter key h end.
Fixpoint lastStopAfter (key : string) (h : list Entry) : Z :=
  match h with
  | [] => 0
  | en :: h => match issues key en with Some (n, true) => n | _ => lastStopAfter key h end
  end.

(** The resume window of a robot: its baseline, whether it is armed, whether it was adopted. *)
Fixpoint windowAfter (key : string) (h : list Entry) : Time * bool * bool :=
  match h with
  | [] => (0, false, false)
  | en :: h =>
      let w := windowAfter key h in
      match en_event en with
      | EArm k baseline => if k =s key then (baseline, true, false) else w
      | EAdopt k => if k =s key then (if w.1.2 then w else (0, true, true)) else w
      | EDisarm k => if k =s key then (0, false, w.2) else w
      | _ => w
      end
  end.

(** Case on the event of a step, so that its answer and the state after it compute. *)
Ltac split_pairs :=
  repeat match goal with
  | H : context [let '(_, _) := ?t in _] |- _ => let E := fresh "E" in destruct t as [? ?] eqn:E
  | H : context [match waitOn ?d ?p ?u ?x with _ => _ end] |- _ => let E := fresh "E" in destruct (waitOn d p u x) as [[? ?]|] eqn:E
  | H : context [match waitHeld ?d ?p ?t ?u ?x with _ => _ end] |- _ => let E := fresh "E" in destruct (waitHeld d p t u x) as [[? ?]|] eqn:E
  | H : context [match waitAcked ?d ?p ?x with _ => _ end] |- _ => let E := fresh "E" in destruct (waitAcked d p x) as [[? ?]|] eqn:E
  | H : context [if bool_decide (?ch ∈ sd_closed ?d) then _ else _] |- _ => destruct (bool_decide (ch ∈ sd_closed d))
  end.

(** ** What a write may do *)

Section Facts.
Context (g : Config).

(** The write of Stopped: the thread has received, from the waiter it registered for this robot, an ack
    that says STOPPED. *)
Definition confirmed (tid : nat) (b : StopRobot) (h : list Entry) : Prop :=
  exists p until ack wireID adapter id epoch estop s seq,
    mkEntry tid (ERegister (sb_Namespace b) (sb_Name b) wireID adapter id epoch estop) (Some (s, p, seq)) ∈ h /\
    mkEntry tid (EWait p until) (AckIn ack) ∈ h /\ ea_State ack = ESTOP_STATE_STOPPED.

Definition ledBefore (tid : nat) (h : list Entry) : Prop := g_Term g = true -> exists t, mkEntry tid ETerm (t, true) ∈ h.

(** The unrecorded stops in flight when the thread looked are all recorded on [b], ended by another clear,
    or ended by this one. *)
Definition inflightEnded (tid : nat) (key : string) (b : StopRobot) (ends : Ends) (h : list Entry) : Prop :=
  exists l, mkEntry tid (EInflight key) l ∈ h /\
    forall r entry, (r, entry) ∈ l ->
      hasStop (rs_ID entry) (sb_Stops b) = true \/ mkEntry tid (ESettled r) true ∈ h \/ stopEnded entry ends = true.

(** The action is gone, was not to be held or held already when the thread read it, or the thread's patch
    that holds it was accepted. *)
Definition workSettled (tid : nat) (robot : string) (a : WorkAction) (h : list Entry) : Prop :=
  exists live,
    mkEntry tid (EGetAction live (wa_Namespace a) (wa_Name a)) (Err NotFound) ∈ h \/
    exists a', mkEntry tid (EGetAction live (wa_Namespace a) (wa_Name a)) (Ok a') ∈ h /\
      (toHold robot a' = false \/ isHeld a' = true \/ mkEntry tid (EPatchAction (heldAction a')) None ∈ h).

Definition workHeld (tid : nat) (b : StopRobot) (h : list Entry) : Prop :=
  exists live actions, mkEntry tid (EListActions live (sb_Namespace b)) (Some actions) ∈ h /\
    forall a, a ∈ actions -> toHold (sb_Name b) a = true -> workSettled tid (sb_Name b) a h.

(** The thread read the robot's resume window; a frame of the robot's came strictly after its baseline or, in
    a window adopted after a takeover, strictly after the first frame this process heard. *)
Definition freshFrame (tid : nat) (key : string) (b : StopRobot) (h : list Entry) : Prop :=
  exists since adopted baseline heard,
    mkEntry tid (EResumeBaseline key) (since, true, adopted) ∈ h /\
    (if adopted : bool then mkEntry tid (EFirstFrame (sb_Namespace b) (telemetryID b)) (Some baseline) ∈ h else baseline = since) /\
    mkEntry tid (ELastFrame (sb_Namespace b) (telemetryID b)) (Some heard) ∈ h /\ baseline < heard.

(** The robot as the confirmation read it is fit for release: on the phase the thread was told the robot last
    reported, all of whose reports are written. *)
Definition fitForRelease (tid : nat) (b : StopRobot) (h : list Entry) : Prop :=
  let key := robotEstopKey (sb_Namespace b) (sb_Name b) in
  exists derive reported,
    b ∈ versions h /\ sb_State b = RobotEstopResuming /\ g_Derive g = Some derive /\
    mkEntry tid (EUnwritten (sb_Namespace b) (telemetryID b)) false ∈ h /\
    mkEntry tid (EReportedPhase (sb_Namespace b) (telemetryID b)) reported ∈ h /\
    resumeRefusal b (derive b) (default "" reported) = None /\ freshFrame tid key b h /\ workHeld tid b h.

(** No stop is in force on [b], nor in this process's own state when the thread looked. *)
Definition noStopInForce (tid : nat) (b : StopRobot) (h : list Entry) : Prop :=
  HeldOnRecord (sb_Robot b) = None /\ (forall st, st ∈ sb_Stops b -> is_Some (rs_ClearedAt st)) /\
  mkEntry tid (EUnrecorded (robotEstopKey (sb_Namespace b) (sb_Name b))) false ∈ h /\
  (g_Fence g <> None -> mkEntry tid (EHeldStops (sb_Namespace b) (sb_Name b)) [] ∈ h).

(** The clear of thread [tid] was written, and answered so. *)
Definition clearAnswered (tid : nat) (key : string) (h : list Entry) : Prop :=
  exists base new b, mkEntry tid (EPatch base new) (mkPatchAnswer (Some b) (Ok b)) ∈ h /\
    robotEstopKey (sb_Namespace base) (sb_Name base) = key /\ sb_State new = RobotEstopResuming.

End Facts.

(** The configuration, and the call each thread was started for. *)
Record Ctx := mkCtx { cx_cfg :> Config; cx_calls : nat -> option call }.

Section Logic.
Context (g : Ctx).

Definition clearGood (tid : nat) (base new : StopRobot) (h : list Entry) : Prop :=
  let key := robotEstopKey (sb_Namespace base) (sb_Name base) in
  exists by_ ends epoch legacy at_ stops ended,
    cx_calls g tid = Some (CallClearEstop (sb_Namespace base) (sb_Name base) by_ ends) /\
    base ∈ versions h /\ clearable base ends = true /\
    clearStops ends legacy at_ (sb_Stops base) = Some (stops, ended) /\
    new = setStatus base [] RobotEstopResuming stops (sb_EstopBaseline base) /\
    mkEntry tid (EIssueClear key) epoch ∈ h /\ mkEntry tid (ESuperseded key epoch) false ∈ h /\
    inflightEnded tid key base ends h /\ ledBefore g tid h.

Definition normalGood (tid : nat) (base : StopRobot) (h : list Entry) : Prop :=
  let key := robotEstopKey (sb_Namespace base) (sb_Name base) in
  cx_calls g tid = Some (CallConfirmResume (sb_Namespace base) (sb_Name base)) /\
  base ∈ versions h /\ sb_State base = RobotEstopResuming /\ noStopInForce g tid base h /\
  (exists epoch, mkEntry tid (EIssue key false) epoch ∈ h /\ mkEntry tid (ESuperseded key epoch) false ∈ h) /\
  exists seen, sb_Namespace seen = sb_Namespace base /\ sb_Name seen = sb_Name base /\ fitForRelease g tid seen h.

(** What a write that is no clear does to status.stops: nothing, append one new entry below the cap,
    acknowledge one, or remove entries that a clear ended. *)
Definition ackOnly (a b : RobotStop) : Prop :=
  rs_ID a = rs_ID b /\ rs_Scope a = rs_Scope b /\ rs_Carrier a = rs_Carrier b /\ rs_SentAt a = rs_SentAt b /\
  rs_ClearedAt a = rs_ClearedAt b.

Inductive stopsStep (old : list RobotStop) : list RobotStop -> Prop :=
| stops_same : stopsStep old old
| stops_append e : hasStop (rs_ID e) old = false -> (length old < maxRecordedStops)%nat -> stopsStep old (old ++ [e])
| stops_ack new : Forall2 ackOnly old new -> stopsStep old new
| stops_remove new : sublist new old -> (forall st, st ∈ old -> rs_ClearedAt st = None -> st ∈ new) -> stopsStep old new.

Definition writeGood (tid : nat) (base new : StopRobot) (h : list Entry) : Prop :=
  (sb_State new = RobotEstopResuming -> sb_State base <> RobotEstopResuming -> clearGood tid base new h) /\
  (sb_State new = RobotEstopStopped -> sb_State base <> RobotEstopStopped -> confirmed tid base h) /\
  (sb_State new = RobotEstopNormal -> sb_State base <> RobotEstopNormal -> normalGood tid base h) /\
  (sb_State base <> sb_State new -> sb_State new <> RobotEstopResuming -> sb_Stops new = sb_Stops base) /\
  (sb_State base = sb_State new -> sb_HeldBy new = sb_HeldBy base /\ stopsStep (sb_Stops base) (sb_Stops new) /\
    base ∈ versions h).

(** ** When an event may happen *)

(** What is true of an event, its answer and the history before it. *)
Definition good (tid : nat) (e : Ev) : resp e -> list Entry -> Prop :=
  match e return resp e -> list Entry -> Prop with
  | EPatch base new => fun a h =>
      writeGood tid base new h /\
      (forall b, pa_answer a = Ok b -> pa_landed a = Some b) /\
      forall b, pa_landed a = Some b ->
        exists cur rv, storedAfter (objKey base) h = Some cur /\ sb_rv cur = sb_rv base /\ b = applyPatch rv base new cur
  | EGet _ namespace name => fun a h => forall b, a = Ok b -> b ∈ versions h /\ objKey b = (namespace, name)
  | EList _ namespace => fun a h => forall l b, a = Some l -> b ∈ l -> b ∈ versions h /\ sb_Namespace b = namespace
  | ERouteAck identity from robotID ack => fun a h => forall p, a = Routed p ->
      boundTo p h = Some from /\ opened p (ti_AdapterName identity, (ti_Namespace identity, robotID, ea_EstopId ack)) h
  | EWait p _ => fun a h => forall ack, a = AckIn ack -> arrived p ack h
  | ERegister _ _ _ _ _ _ _ => fun a h => forall s p seq who, a = Some (s, p, seq) -> ~ opened p who h
  | EHeldSection _ _ _ _ _ _ _ => fun a h => forall p taken msg who, a = NewWaiter p taken msg -> ~ opened p who h
  | EInflight key => fun l h => forall id r entry, trackedAfter key h !! id = Some r -> recordOf r entry h -> (r, entry) ∈ l
  | EIssue key _ => fun n h => n = uint64 (Z.of_nat (issuedAfter key h) + 1)
  | EIssueClear key => fun n h => n = uint64 (Z.of_nat (issuedAfter key h) + 1)
  | ESuperseded key epoch => fun b h => b = (epoch <? lastStopAfter key h)
  | EClearHeldIf key _ _ epoch => fun b h => b = (lastStopAfter key h <? epoch)
  | EArm key baseline => fun _ h => clearAnswered tid key h /\ mkEntry tid EClock baseline ∈ h
  | EResumeBaseline key => fun a h => a = windowAfter key h
  | _ => fun _ _ => True
  end.

(** The part of it the thread must see to. *)
Definition pre (tid : nat) (lk : option string) (e : Ev) (w : World) : Prop :=
  match e with
  | EPatch base new => writeGood tid base new (w_hist w)
  | EChanPut p ack => arrived p ack (w_hist w)
  | EArm key baseline => clearAnswered tid key (w_hist w) /\ mkEntry tid EClock baseline ∈ w_hist w
  | _ => True
  end.

Fixpoint histOk (h : list Entry) : Prop :=
  match h with [] => True | mkEntry t e a :: h => good t e a h /\ histOk h end.

Definition waiterOk (h : list Entry) (p : nat) (w : pendingEstop) : Prop :=
  boundTo p h = Some (pe_sender w) /\ opened p (pe_adapter w, pe_key w) h /\ forall ack, ack ∈ pe_ch w -> arrived p ack h.

Record inv (w : World) : Prop := {
  inv_hist : histOk (w_hist w);
  inv_store : forall key, cl_robots (w_cl w) !! key = storedAfter key (w_hist w);
  inv_versions : cl_versions (w_cl w) = versions (w_hist w);
  inv_rv : forall b, b ∈ versions (w_hist w) -> sb_rv b < cl_next (w_cl w);
  inv_unique : NoDup (sb_rv <$> versions (w_hist w));
  inv_waiters : forall p pe, sd_waiters (w_d w) !! p = Some pe -> waiterOk (w_hist w) p pe;
  inv_pending : forall key p, sd_pending (w_d w) !! key = Some p ->
    (p < sd_next (w_d w))%nat /\ forall pe, sd_waiters (w_d w) !! p = Some pe -> pe_key pe = key;
  inv_opened : forall p who, opened p who (w_hist w) -> (p < sd_next (w_d w))%nat;
  inv_issued : forall key, o_issued (orderOf (w_d w) key) = uint64 (Z.of_nat (issuedAfter key (w_hist w)));
  inv_lastStop : forall key, o_lastStop (orderOf (w_d w) key) = lastStopAfter key (w_hist w);
  inv_window : forall key, resumeBaseline (w_d w) key = windowAfter key (w_hist w);
  inv_tracked : forall key, default ∅ (sd_inflight (w_d w) !! key) = trackedAfter key (w_hist w);
  inv_records : forall r entry, recordOf r entry (w_hist w) ->
    (r < sd_next (w_d w))%nat /\ exists rc, sd_records (w_d w) !! r = Some rc /\ rc_entry rc = entry
}.

Definition rely (tid : nat) (lk : option string) (w w' : World) : Prop := exists ext, w_hist w' = ext ++ w_hist w.

Lemma stop_rely_refl tid lk w : rely tid lk w w.
Proof. by exists []. Qed.

Lemma stop_rely_trans tid lk w1 w2 w3 : rely tid lk w1 w2 -> rely tid lk w2 w3 -> rely tid lk w1 w3.
Proof. intros (e1 & H1) (e2 & H2). exists (e2 ++ e1). by rewrite H2, H1, <- app_assoc. Qed.

Lemma stop_rely_lock tid lk w w' : rely tid lk w w' -> rely tid None w w'.
Proof. done. Qed.

Lemma stop_perform_hist tid e x w w' a : perform tid e x w = Some (w', a) -> w_hist w' = mkEntry tid e a :: w_hist w.
Proof. unfold perform. destruct (answer e x (w_d w) (w_cl w)) as [[[d c] b]|]; [|done]. by intros [= <- <-]. Qed.

Lemma stop_perform_rely tid lk e x w w' a tid' lk' :
  inv w -> pre tid lk e w -> perform tid e x w = Some (w', a) -> tid <> tid' -> apart lk lk' -> rely tid' lk' w w'.
Proof. intros _ _ Hp _ _. exists [mkEntry tid e a]. by apply stop_perform_hist in Hp. Qed.

(** ** What the sections do *)

(** The parts of the state a section on waiters and streams leaves alone. *)
Definition sameRest (d d' : Dispatcher) : Prop :=
  sd_orders d' = sd_orders d /\ sd_inflight d' = sd_inflight d /\ sd_records d' = sd_records d /\ (sd_next d <= sd_next d')%nat.

Lemma rebindAll_spec s moved : forall d out d', rebindAll d s moved = (out, d') ->
  sameRest d d' /\ sd_pending d' = sd_pending d /\ sd_next d' = sd_next d /\ rd_waiter <$> out = fst <$> moved /\
  forall p, sd_waiters d' !! p = if decide (p ∈ (fst <$> moved)) then withSender s <$> sd_waiters d !! p else sd_waiters d !! p.
Proof.
  induction moved as [|[p w] moved IH]; intros d out d'; simpl.
  - intros [= <- <-]. by repeat split.
  - destruct (rebindAll _ s moved) as [out1 d1] eqn:E. intros [= <- <-].
    apply IH in E as ((Ho & Hi & Hr & Hn) & Hp & Hx & Hout & Hw). simpl in *.
    split; [done|]. split; [done|]. split; [done|]. split; [by f_equal|]. intros q. rewrite Hw. rewrite lookup_alter. destruct (decide (p = q)) as [->|Hne].
    + destruct (decide (q ∈ q :: _)) as [_|[]]; [|left]. case_decide; [|done]. destruct (sd_waiters d !! q) as [[]|]; done.
    + case_decide as H1; case_decide as H2; try done; set_solver.
Qed.

Lemma rebindLocked_spec d identity replaced s now out d' : rebindLocked d identity replaced s now = (out, d') ->
  sameRest d d' /\ sd_pending d' = sd_pending d /\ sd_next d' = sd_next d /\
  forall p, sd_waiters d' !! p = if decide (p ∈ (rd_waiter <$> out)) then withSender s <$> sd_waiters d !! p else sd_waiters d !! p.
Proof.
  unfold rebindLocked. assert (Hid : ([], d) = (out, d') -> sameRest d d' /\ sd_pending d' = sd_pending d /\ sd_next d' = sd_next d /\
    forall p, sd_waiters d' !! p = if decide (p ∈ (rd_waiter <$> out)) then withSender s <$> sd_waiters d !! p else sd_waiters d !! p).
  { intros [= <- <-]. by repeat split. }
  destruct replaced as [old|]; [|exact Hid]. destruct (Nat.eqb old s); [exact Hid|].
  intros (Hr & Hp & Hx & Hout & Hw)%rebindAll_spec. split_and!; try done. intros p. by rewrite Hw, Hout.
Qed.

(** Whatever a section does to waiter [p], its adapter, key and stream stay, and its channel is a part of
    what it was. *)
Definition keepsWaiter (w w' : pendingEstop) : Prop :=
  pe_adapter w' = pe_adapter w /\ pe_key w' = pe_key w /\ pe_sender w' = pe_sender w /\ pe_ch w' ⊆ pe_ch w.

Lemma modWaiter_keeps d p f q w' :
  (forall w, sd_waiters d !! p = Some w -> keepsWaiter w (f w)) -> sd_waiters (modWaiter d p f) !! q = Some w' ->
  exists w, sd_waiters d !! q = Some w /\ keepsWaiter w w'.
Proof.
  intros Hf. simpl. rewrite lookup_alter. destruct (decide (p = q)) as [->|Hne].
  - destruct (sd_waiters d !! q) as [w|] eqn:E; simpl; [|done]. intros [= <-]. eauto.
  - intros ->. exists w'. done.
Qed.

Lemma takeOver_keeps d key : sameRest d (takeOver d key) /\ sd_pending (takeOver d key) = sd_pending d /\
  sd_next (takeOver d key) = sd_next d /\
  forall q w', sd_waiters (takeOver d key) !! q = Some w' -> exists w, sd_waiters d !! q = Some w /\ keepsWaiter w w'.
Proof.
  unfold takeOver. assert (Hid : forall q w', sd_waiters d !! q = Some w' -> exists w, sd_waiters d !! q = Some w /\ keepsWaiter w w')
    by (intros q w' ->; by exists w').
  destruct (awaited d key) as [[p w]|]; [|by repeat split]. destruct (pe_taken w); [|by repeat split].
  split; [by repeat split|]. split; [done|]. split; [done|]. intros q w' Hw. apply (modWaiter_keeps (setClosed d ({[n]} ∪ sd_closed d)) p notTaken); [|done]. done.
Qed.

Lemma fold_begin rs : forall d, let d' := beginClearing d rs in
  sd_orders d' = sd_orders d /\ sd_inflight d' = sd_inflight d /\ sd_waiters d' = sd_waiters d /\ sd_pending d' = sd_pending d /\
  (sd_next d <= sd_next d')%nat /\ forall r rc, sd_records d !! r = Some rc ->
    exists rc', sd_records d' !! r = Some rc' /\ rc_entry rc' = rc_entry rc.
Proof.
  induction rs as [|r rs IH]; intros d; simpl.
  - repeat split; eauto.
  - specialize (IH (setNext (modRecord d r (fun rc => withClear (rc_clearedAt rc) (rc_removed rc) (Some (sd_next d)) rc)))).
    simpl in IH. destruct IH as (-> & -> & -> & -> & Hn & Hr). repeat split; [lia|].
    intros q rc Hq. destruct (Hr q (if decide (r = q) then withClear (rc_clearedAt rc) (rc_removed rc) (Some (sd_next d)) rc else rc)) as (rc' & ? & He).
    { simpl. rewrite lookup_alter. destruct (decide (r = q)) as [->|]; by rewrite Hq. }
    exists rc'. split; [done|]. rewrite He. by case_decide.
Qed.

Lemma fold_end dec rs : forall d, let d' := endClearing d rs dec in
  sd_orders d' = sd_orders d /\ sd_inflight d' = sd_inflight d /\ sd_waiters d' = sd_waiters d /\ sd_pending d' = sd_pending d /\
  sd_next d' = sd_next d /\ forall r rc, sd_records d !! r = Some rc ->
    exists rc', sd_records d' !! r = Some rc' /\ rc_entry rc' = rc_entry rc.
Proof.
  induction rs as [|r rs IH]; intros d; simpl; [by repeat split; eauto|].
  set (d1 := endClearing1 dec d r).
  assert (H1 : sd_orders d1 = sd_orders d /\ sd_inflight d1 = sd_inflight d /\ sd_waiters d1 = sd_waiters d /\
    sd_pending d1 = sd_pending d /\ sd_next d1 = sd_next d /\
    forall q rc, sd_records d !! q = Some rc -> exists rc', sd_records d1 !! q = Some rc' /\ rc_entry rc' = rc_entry rc).
  { unfold d1, endClearing1. destruct (sd_records d !! r) as [rc0|] eqn:E; [|by repeat split; eauto].
    destruct (match dec with Some (t, legacy) => (Some t, legacy) | None => (rc_clearedAt rc0, rc_removed rc0) end) as [at_ removed].
    assert (Hq : forall q rc, sd_records d !! q = Some rc ->
      exists rc', alter (withClear at_ removed None) r (sd_records d) !! q = Some rc' /\ rc_entry rc' = rc_entry rc).
    { intros q rc Hq. rewrite lookup_alter. destruct (decide (r = q)) as [->|]; rewrite Hq; simpl; eauto. }
    destruct (rc_clearing rc0); by repeat split. }
  destruct H1 as (<- & <- & <- & <- & <- & Hr1). destruct (IH d1) as (? & ? & ? & ? & ? & Hr2). repeat split; try done.
  intros q rc (rc1 & Hq1 & He1)%Hr1. destruct (Hr2 _ _ Hq1) as (rc2 & ? & He2). exists rc2. split; [done|congruence].
Qed.

(** ** Every step keeps the invariant *)

Lemma versions_cons en h : versions (en :: h) = match storedBy en with Some b => b :: versions h | None => versions h end.
Proof. done. Qed.

Lemma versions_mono en h b : b ∈ versions h -> b ∈ versions (en :: h).
Proof. rewrite versions_cons. destruct (storedBy en); [by right|done]. Qed.

Lemma storedAfter_key key h b : storedAfter key h = Some b -> b ∈ versions h /\ objKey b = key.
Proof.
  induction h as [|en h IH]; simpl; [done|]. rewrite versions_cons. intros Hb.
  assert (Hold : storedAfter key h = Some b -> b ∈ (match storedBy en with Some v => v :: versions h | None => versions h end) /\ objKey b = key).
  { intros [? ?]%IH. split; [|done]. destruct (storedBy en); [by right|done]. }
  destruct (storedBy en) as [v|] eqn:Es; destruct (en_event en); try (by apply Hold);
    case_bool_decide; simplify_eq; try done; try (by apply Hold); (split; [by left|done]).
Qed.

(** A version is told by its revision. *)
Lemma version_unique h a b : NoDup (sb_rv <$> versions h) -> a ∈ versions h -> b ∈ versions h -> sb_rv a = sb_rv b -> a = b.
Proof.
  intros Hn Ha Hb Hrv. apply list_elem_of_lookup in Ha as [i Hi]. apply list_elem_of_lookup in Hb as [j Hj].
  assert (i = j) as ->; [|congruence]. eapply (NoDup_lookup (sb_rv <$> versions h)); [done| |].
  - rewrite list_lookup_fmap, Hi. done.
  - rewrite list_lookup_fmap, Hj. simpl. by rewrite Hrv.
Qed.

Lemma landing_key c base new b : landing c base new = Some b -> exists cur,
  cl_robots c !! objKey base = Some cur /\ sb_rv cur = sb_rv base /\ b = applyPatch (cl_next c) base new cur.
Proof.
  unfold landing. destruct (cl_robots c !! objKey base) as [cur|]; [|done].
  destruct (sb_rv cur =? sb_rv base) eqn:E; [|done]. intros [= <-]. z_bool. eauto.
Qed.

(** What a patch does to the cluster: it lands, or nothing. *)
Lemma patch_cases c base new x c' a : patch c base new x = (c', a) ->
  (pa_landed a = None /\ c' = c /\ forall b, pa_answer a <> Ok b) \/
  exists b, pa_landed a = Some b /\ landing c base new = Some b /\ c' = store c b /\ forall b', pa_answer a = Ok b' -> b' = b.
Proof.
  unfold patch. destruct (x_fail x) as [e|].
  - destruct (x_lost x); [destruct (landing c base new) as [b|]|]; intros [= <- <-]; simpl; [right; exists b|left..]; naive_solver.
  - destruct (cl_robots c !! objKey base) as [cur|]; [|intros [= <- <-]; left; by simpl].
    destruct (landing c base new) as [b|]; intros [= <- <-]; simpl; [right; exists b|left]; naive_solver.
Qed.

(** A step changes the cluster by storing what its entry says, or by a delete. *)
Lemma answer_cluster e x d c d' c' a tid : answer e x d c = Some (d', c', a) ->
  (exists b, storedBy (mkEntry tid e a) = Some b /\ c' = store c b /\ sb_rv b = cl_next c /\
     match e with EClusterDelete _ _ => False | _ => True end) \/
  (storedBy (mkEntry tid e a) = None /\
   c' = match e with EClusterDelete ns n => mkCluster (delete (ns, n) (cl_robots c)) (cl_versions c) (cl_next c) | _ => c end).
Proof.
  intros Ha. unfold storedBy. destruct e; simpl in *; split_pairs; simplify_eq/=; try (by right); try (left; eexists; split_and!; done).
  destruct (patch_cases _ _ _ _ _ _ E) as [(-> & -> & _)|(b & -> & (cur & _ & _ & ->)%landing_key & -> & _)]; [by right|].
  left. eexists. split_and!; done.
Qed.

Lemma answer_store e x d c d' c' a tid key h :
  answer e x d c = Some (d', c', a) -> cl_robots c !! key = storedAfter key h ->
  cl_robots c' !! key = storedAfter key (mkEntry tid e a :: h).
Proof.
  intros Ha Hk. simpl. destruct (answer_cluster _ _ _ _ _ _ _ tid Ha) as [(b & Hs & -> & _ & Hd)|[Hs ->]].
  - rewrite Hs. simpl. rewrite lookup_insert, Hk. destruct e; try done; simpl; case_bool_decide; case_decide; done.
  - rewrite Hs. destruct e; simpl; try done. rewrite lookup_delete, <- Hk. case_bool_decide; case_decide; done.
Qed.

Lemma answer_versions e x d c d' c' a tid h :
  answer e x d c = Some (d', c', a) -> cl_versions c = versions h -> cl_versions c' = versions (mkEntry tid e a :: h).
Proof.
  intros Ha Hv. rewrite versions_cons, <- Hv.
  destruct (answer_cluster _ _ _ _ _ _ _ tid Ha) as [(b & -> & -> & _)|[-> ->]]; [done|]. by destruct e.
Qed.

Lemma answer_rv e x d c d' c' a tid h :
  answer e x d c = Some (d', c', a) -> (forall b, b ∈ versions h -> sb_rv b < cl_next c) -> NoDup (sb_rv <$> versions h) ->
  (forall b, b ∈ versions (mkEntry tid e a :: h) -> sb_rv b < cl_next c') /\ NoDup (sb_rv <$> versions (mkEntry tid e a :: h)).
Proof.
  intros Ha Hlt Hn. rewrite versions_cons.
  destruct (answer_cluster _ _ _ _ _ _ _ tid Ha) as [(b & -> & -> & Hrv & _)|[-> ->]].
  - split; simpl.
    + intros b' [->|Hb]%elem_of_cons; [lia|]. apply Hlt in Hb. lia.
    + constructor; [|done]. intros (b' & Hb & Hin)%list_elem_of_fmap. apply Hlt in Hin. lia.
  - split; [|done]. intros b Hb. apply Hlt in Hb. destruct e; done.
Qed.

Lemma opened_cons p who en h : opened p who h -> opened p who (en :: h).
Proof. intros (e & ? & ?). exists e. split; [by right|done]. Qed.

Lemma opened_cons_inv p who en h : opened p who (en :: h) -> opens en = Some (p, who) \/ opened p who h.
Proof. intros (e & [->|He]%elem_of_cons & Ho); [by left|right]. by exists e. Qed.

Lemma stop_arrived_cons p ack en h : arrived p ack h -> arrived p ack (en :: h).
Proof. intros (t & i & f & r & H). exists t, i, f, r. by right. Qed.

Lemma waiterOk_keeps en h p w w' :
  bindOf en p = None -> waiterOk h p w -> keepsWaiter w w' -> waiterOk (en :: h) p w'.
Proof.
  intros Hb (H1 & H2 & H3) (Ha & Hk & Hs & Hc). unfold waiterOk. simpl. rewrite Hb, Ha, Hk, Hs.
  split_and!; [done|by apply opened_cons|]. intros ack Hack. apply stop_arrived_cons. auto.
Qed.

Lemma keepsWaiter_refl w : keepsWaiter w w.
Proof. by repeat split. Qed.

Lemma bindOf_None en p : binds en = [] -> bindOf en p = None.
Proof. unfold bindOf. by intros ->. Qed.

Lemma find_fmap_put (s : SafetySender) (msgs : list resend) p :
  snd <$> List.find (fun b : nat * SafetySender => Nat.eqb (fst b) p) ((fun m => (rd_waiter m, s)) <$> msgs) =
  if decide (p ∈ (rd_waiter <$> msgs)) then Some s else None.
Proof.
  induction msgs as [|m msgs IH]; [done|]. rewrite !fmap_cons. cbn [List.find fst].
  destruct (Nat.eqb_spec (rd_waiter m) p) as [->|Hne].
  - by rewrite decide_True by (by left).
  - rewrite IH. destruct (decide (p ∈ rd_waiter <$> msgs)) as [Hin|Hin].
    + by rewrite decide_True by (by right).
    + rewrite decide_False; [done|]. by intros [?|?]%elem_of_cons.
Qed.

Lemma bindOf_put tid identity s msgs p :
  bindOf (mkEntry tid (EPutStream identity s) msgs) p = if decide (p ∈ (rd_waiter <$> msgs)) then Some s else None.
Proof. apply find_fmap_put. Qed.

Lemma register_cases d namespace robot wireID adapter id epoch estop a d' :
  register d namespace robot wireID adapter id epoch estop = (a, d') ->
  (a = None /\ d' = d) \/ exists s seq, a = Some (s, sd_next d, seq) /\ sd_next d' = S (sd_next d) /\ sameRest d d' /\
    sd_pending d' = <[(namespace, wireID, id) := sd_next d]> (sd_pending d) /\
    sd_waiters d' !! sd_next d = Some (mkPendingEstop adapter s [] robot (namespace, wireID, id) estop epoch 0 false None) /\
    forall q w', q <> sd_next d -> sd_waiters d' !! q = Some w' -> exists w, sd_waiters d !! q = Some w /\ keepsWaiter w w'.
Proof.
  unfold register. destruct (sd_streams d !! adapterKey namespace adapter) as [s|]; [|intros [= <- <-]; by left].
  simpl. intros [= <- <-]. right.
  destruct (takeOver_keeps (setCounter d (uint64 (sd_idCounter d + 1))) (namespace, wireID, id)) as ((Ho & Hi & Hr & Hn) & Hp & Hx & Hw).
  simpl in *. exists s, (uint64 (sd_idCounter d + 1)). rewrite Hx. split; [done|]. split; [done|]. split; [repeat split; simpl; try done; lia|].
  rewrite Hp. split; [done|]. rewrite lookup_insert_eq. split; [done|].
  intros q w' Hne. rewrite lookup_insert_ne by done. apply Hw.
Qed.

Lemma heldSection_cases d adapter namespace robot wireID id s estop a d' :
  resendHeldSection d adapter namespace robot wireID id s estop = (a, d') ->
  sameRest d d' /\
  ((a = AwaitedHere /\ d' = d) \/
   (exists p w msg, a = AwaitedElsewhere p msg /\ sd_pending d' = sd_pending d /\ sd_next d' = sd_next d /\
      sd_waiters d !! p = Some w /\ sd_waiters d' = alter (withSender s) p (sd_waiters d)) \/
   (exists p taken msg w, a = NewWaiter p taken msg /\ (sd_next d <= p < sd_next d')%nat /\ pe_adapter w = adapter /\
      pe_key w = (namespace, wireID, id) /\ pe_sender w = s /\ pe_ch w = [] /\
      sd_pending d' = <[(namespace, wireID, id) := p]> (sd_pending d) /\ sd_waiters d' = <[p := w]> (sd_waiters d))).
Proof.
  unfold resendHeldSection. destruct (awaited d (namespace, wireID, id)) as [[p w]|] eqn:Ew; simpl.
  - destruct (Nat.eqb (pe_sender w) s); intros [= <- <-]; (split; [by repeat split|]); [by left|].
    right; left. exists p, w. eexists. repeat split. unfold awaited in Ew.
    destruct (sd_pending d !! _) as [p'|]; [|done]. destruct (sd_waiters d !! p') as [w'|] eqn:E; by simplify_eq.
  - intros [= <- <-]. split; [repeat split; simpl; lia|]. right; right. do 4 eexists. split; [done|]. simpl. split; [lia|]. repeat split; reflexivity.
Qed.

(** The sections that open or move no waiter: each waiter they leave was there, kept; or got one ack. *)
Definition waitersKept (d d' : Dispatcher) : Prop :=
  sd_pending d' ⊆ sd_pending d /\ (sd_next d <= sd_next d')%nat /\
  forall q w', sd_waiters d' !! q = Some w' -> exists w, sd_waiters d !! q = Some w /\ keepsWaiter w w'.

Lemma waitersKept_same d d' :
  sd_pending d' = sd_pending d -> sd_waiters d' = sd_waiters d -> (sd_next d <= sd_next d')%nat -> waitersKept d d'.
Proof. intros Hp Hw Hn. unfold waitersKept. rewrite Hp, Hw. split_and!; [done|lia|]. intros q w' ->. exists w'. split; [done|apply keepsWaiter_refl]. Qed.

Lemma waitersKept_mod d p f :
  (forall w, keepsWaiter w (f w)) -> waitersKept d (modWaiter d p f).
Proof. intros Hf. split_and!; [done|simpl; lia|]. intros q w'. apply modWaiter_keeps. auto. Qed.

Lemma waitOn_kept d p until x d' a : waitOn d p until x = Some (d', a) -> waitersKept d d' /\
  forall ack, a = AckIn ack -> exists w, sd_waiters d !! p = Some w /\ ack ∈ pe_ch w.
Proof.
  unfold waitOn. destruct (x_give_up x) as [[]|].
  - intros [= <- <-]. split; [by apply waitersKept_same|done].
  - destruct (_ <? _); [done|]. intros [= <- <-]. split; [by apply waitersKept_same|done].
  - destruct (sd_waiters d !! p) as [w|] eqn:E; [|done]. destruct (pe_ch w) as [|ack q] eqn:Eq; [done|]. intros [= <- <-]. split.
    + split_and!; [done|simpl; lia|]. intros r w'. apply modWaiter_keeps. intros w0 ?. simplify_eq.
      repeat split. simpl. rewrite Eq. set_solver.
    + intros ack' [= <-]. exists w. split; [done|]. rewrite Eq. by left.
Qed.

Lemma waitHeld_kept d p taken until x d' a : waitHeld d p taken until x = Some (d', a) -> waitersKept d d'.
Proof.
  unfold waitHeld. destruct (x_give_up x) as [[]|] eqn:Ex.
  - case_bool_decide; [|done]. intros [= <- <-]. by apply waitersKept_same.
  - destruct (waitOn d p until x) as [[d1 []]|] eqn:E; intros; simplify_eq; by apply waitOn_kept in E as [? _].
  - destruct (waitOn d p until x) as [[d1 []]|] eqn:E; intros; simplify_eq; by apply waitOn_kept in E as [? _].
Qed.

(** What the other sections leave of orders, stops in flight, records and names. *)
Lemma routeAck_kept d identity from robotID ack a d' : routeAck d identity from robotID ack = (a, d') ->
  waitersKept d d' /\ sameRest d d' /\ sd_pending d' = sd_pending d /\
  forall p, a = Routed p -> exists w, awaited d (ti_Namespace identity, robotID, ea_EstopId ack) = Some (p, w) /\
    pe_adapter w = ti_AdapterName identity /\ pe_sender w = from.
Proof.
  unfold routeAck. destruct (awaited d _) as [[p w]|] eqn:E.
  2: { intros [= <- <-]. split_and!; [by apply waitersKept_same|by repeat split|done|done]. }
  destruct (_ || _) eqn:Eb.
  - intros [= <- <-]. split_and!; [by apply waitersKept_same|by repeat split|done|done].
  - str_bool. apply Nat.eqb_eq in H0.
    intros [= <- <-]. split_and!.
    + destruct (ea_State ack); try (by apply waitersKept_same); apply waitersKept_mod; by repeat split.
    + destruct (ea_State ack); by repeat split.
    + by destruct (ea_State ack).
    + intros q [= <-]. by exists w.
Qed.

Definition movesWaiters (e : Ev) : bool :=
  match e with ERegister _ _ _ _ _ _ _ | EPutStream _ _ | EHeldSection _ _ _ _ _ _ _ | EChanPut _ _ => true | _ => false end.

Lemma deregister_kept d p : waitersKept d (deregister d p).
Proof.
  unfold deregister. destruct (sd_waiters d !! p) as [w|]; [|by apply waitersKept_same].
  case_bool_decide; [|by apply waitersKept_same]. split_and!; simpl; [apply delete_subseteq|lia|].
  intros q w' ->. exists w'. split; [done|apply keepsWaiter_refl].
Qed.

Lemma settleUnless_kept d p from b d' : settleUnlessResent d p from = (b, d') -> waitersKept d d'.
Proof.
  unfold settleUnlessResent. destruct (sd_waiters d !! p) as [w|]; [destruct (Nat.eqb _ _)|]; intros [= <- <-];
    (by apply waitersKept_same) || by apply waitersKept_mod.
Qed.

Lemma answer_kept e x d c d' c' a tid :
  movesWaiters e = false -> answer e x d c = Some (d', c', a) ->
  waitersKept d d' /\ binds (mkEntry tid e a) = [] /\ opens (mkEntry tid e a) = None.
Proof.
  intros Hm Ha.
  assert (Hsame : sd_pending d' = sd_pending d -> sd_waiters d' = sd_waiters d -> (sd_next d <= sd_next d')%nat -> waitersKept d d')
    by apply waitersKept_same.
  destruct e; try done; simpl in *; split_pairs; simplify_eq/=; (split; [|done]);
    try (apply Hsame; simpl; done || lia); try (apply waitersKept_mod; by repeat split).
  - unfold adoptResumeWindow. by destruct (o_resumeArmed _); apply waitersKept_same.
  - apply deregister_kept.
  - by eapply settleUnless_kept.
  - by apply routeAck_kept in E as (? & _).
  - by apply waitOn_kept in E as [? _].
  - by apply waitHeld_kept in E.
  - unfold dropStream. case_bool_decide; by apply waitersKept_same.
  - unfold markUnrecordedAcked in E. destruct (default ∅ _ !! id); [destruct (settledByClear d _)|]; simplify_eq; by apply waitersKept_same.
  - destruct (fold_begin rs d) as (_ & _ & ? & ? & ? & _). by apply waitersKept_same.
  - destruct (fold_end decided rs d) as (_ & _ & ? & ? & Hn & _). apply waitersKept_same; [done..|]. by rewrite Hn.
  - unfold takeAck in E. destruct (sd_records d !! r) as [rc|]; [destruct (rc_acked rc)|]; simplify_eq; by apply waitersKept_same.
  - unfold waitAcked in E. destruct (sd_records d !! r) as [rc|]; [|done].
    destruct (rc_acked rc), (rc_done rc); try (destruct (x_ok x)); simplify_eq; by apply waitersKept_same.
  - unfold rememberRemoved. destruct stops; by apply waitersKept_same.
  - unfold keepReport. destruct (existsb _ _); by apply waitersKept_same.
  - unfold takeKept in E. destruct (sd_streams d !! _); simplify_eq; by apply waitersKept_same.
Qed.

Lemma chanPut_kept d p ack : sd_pending (chanPut d p ack) = sd_pending d /\ sd_next (chanPut d p ack) = sd_next d /\
  sameRest d (chanPut d p ack) /\
  forall q w', sd_waiters (chanPut d p ack) !! q = Some w' -> exists w, sd_waiters d !! q = Some w /\
    pe_adapter w' = pe_adapter w /\ pe_key w' = pe_key w /\ pe_sender w' = pe_sender w /\
    forall k, k ∈ pe_ch w' -> k ∈ pe_ch w \/ (q = p /\ k = ack).
Proof.
  unfold chanPut. destruct (sd_waiters d !! p) as [w|] eqn:E.
  2: { split_and!; [done|done|by repeat split|]. intros q w' ->. exists w'. split_and!; try done. by left. }
  destruct (_ <? _)%nat; (split_and!; [done|done|by repeat split|]).
  - intros q w'. simpl. rewrite lookup_alter. destruct (decide (p = q)) as [<-|Hne].
    + rewrite E. intros [= <-]. exists w. split_and!; try done. simpl. intros k [Hk|Hk]%elem_of_app; [by left|]. apply list_elem_of_singleton in Hk as ->. by right.
    + intros ->. exists w'. split_and!; try done. by left.
  - intros q w' ->. exists w'. split_and!; try done. by left.
Qed.

Lemma answer_waiters tid lk e x w d' c' a p pe :
  inv w -> pre tid lk e w -> answer e x (w_d w) (w_cl w) = Some (d', c', a) -> sd_waiters d' !! p = Some pe ->
  waiterOk (mkEntry tid e a :: w_hist w) p pe.
Proof.
  intros Hi Hpre Ha Hp. destruct (movesWaiters e) eqn:Em.
  2: { destruct (answer_kept _ _ _ _ _ _ _ tid Em Ha) as ((_ & _ & Hk) & Hb & _). destruct (Hk _ _ Hp) as (pe0 & H0 & Hke).
       eapply waiterOk_keeps; [by apply bindOf_None|by apply (inv_waiters _ Hi)|done]. }
  destruct e; try done; simpl in *; split_pairs; simplify_eq/=.
  - apply register_cases in E as [[-> ->]|(s & seq & -> & Hn & _ & _ & Hw & Hk)].
    + eapply waiterOk_keeps; [done|by apply (inv_waiters _ Hi)|apply keepsWaiter_refl].
    + destruct (decide (p = sd_next (w_d w))) as [->|Hne].
      * rewrite Hw in Hp. simplify_eq. unfold waiterOk. simpl. unfold bindOf. simpl. rewrite Nat.eqb_refl. split_and!; [done| |].
        { eexists. split; [by left|]. done. }
        intros ack Hack. by apply not_elem_of_nil in Hack.
      * destruct (Hk _ _ Hne Hp) as (pe0 & H0 & Hke). eapply waiterOk_keeps; [|by apply (inv_waiters _ Hi)|done].
        unfold bindOf. simpl. by rewrite (proj2 (Nat.eqb_neq _ _)).
  - destruct (chanPut_kept (w_d w) p0 ack) as (_ & _ & _ & Hk). destruct (Hk _ _ Hp) as (pe0 & H0 & Ha1 & Ha2 & Ha3 & Hc).
    destruct (inv_waiters _ Hi _ _ H0) as (W1 & W2 & W3). unfold waiterOk. rewrite Ha1, Ha2, Ha3. simpl.
    split_and!; [done|by apply opened_cons|]. intros k Hk'. apply stop_arrived_cons. destruct (Hc _ Hk') as [?|[-> ->]]; auto.
  - unfold putStream in E. apply rebindLocked_spec in E as (_ & _ & _ & Hw). rewrite Hw in Hp. simpl in Hp.
    unfold waiterOk. simpl. rewrite bindOf_put. destruct (decide (p ∈ rd_waiter <$> a)) as [Hin|Hin].
    + destruct (sd_waiters (w_d w) !! p) as [pe0|] eqn:E0; simplify_eq/=. destruct (inv_waiters _ Hi _ _ E0) as (W1 & W2 & W3).
      split_and!; [done|by apply opened_cons|]. intros k Hk'. apply stop_arrived_cons. auto.
    + destruct (inv_waiters _ Hi _ _ Hp) as (W1 & W2 & W3). split_and!; [done|by apply opened_cons|]. intros k Hk'. apply stop_arrived_cons. auto.
  - apply heldSection_cases in E as (_ & [[-> ->]|[(q & pe0 & msg & -> & _ & _ & Hq & Hw)|(q & taken & msg & pe0 & -> & Hlt & P1 & P2 & P3 & P4 & _ & Hw)]]).
    + eapply waiterOk_keeps; [done|by apply (inv_waiters _ Hi)|apply keepsWaiter_refl].
    + rewrite Hw, lookup_alter in Hp. unfold waiterOk. simpl. unfold bindOf. simpl. destruct (decide (q = p)) as [->|Hne].
      * rewrite Hq in Hp. simplify_eq/=. rewrite Nat.eqb_refl. destruct (inv_waiters _ Hi _ _ Hq) as (W1 & W2 & W3).
        split_and!; [done|by apply opened_cons|]. intros k Hk'. apply stop_arrived_cons. auto.
      * rewrite (proj2 (Nat.eqb_neq _ _)) by done. destruct (inv_waiters _ Hi _ _ Hp) as (W1 & W2 & W3).
        split_and!; [done|by apply opened_cons|]. intros k Hk'. apply stop_arrived_cons. auto.
    + rewrite Hw in Hp. unfold waiterOk. simpl. unfold bindOf. simpl. apply lookup_insert_Some in Hp as [[<- <-]|[Hne Hp]].
      * rewrite Nat.eqb_refl, P1, P2, P4. split_and!; [by rewrite P3| |]; [|intros k Hk'; by apply not_elem_of_nil in Hk'].
        eexists. split; [by left|]. done.
      * rewrite (proj2 (Nat.eqb_neq _ _)) by done. destruct (inv_waiters _ Hi _ _ Hp) as (W1 & W2 & W3).
        split_and!; [done|by apply opened_cons|]. intros k Hk'. apply stop_arrived_cons. auto.
Qed.

Lemma rebound_key s w : pe_key (withSender s w) = pe_key w.
Proof. done. Qed.

Lemma stop_answer_pending (tid : nat) e x w d' c' a key p :
  inv w -> answer e x (w_d w) (w_cl w) = Some (d', c', a) -> sd_pending d' !! key = Some p ->
  (p < sd_next d')%nat /\ forall pe, sd_waiters d' !! p = Some pe -> pe_key pe = key.
Proof.
  intros Hi Ha Hk. pose proof (inv_pending _ Hi) as Hold. destruct (movesWaiters e) eqn:Em.
  2: { destruct (answer_kept _ _ _ _ _ _ _ tid Em Ha) as ((Hsub & Hn & Hw) & _ & _).
       destruct (Hold key p) as [Hlt Hkey]; [by eapply lookup_weaken|]. split; [lia|]. intros pe Hp.
       destruct (Hw _ _ Hp) as (pe0 & H0 & _ & -> & _). auto. }
  destruct e; try done; simpl in *; split_pairs; simplify_eq/=.
  - apply register_cases in E as [[-> ->]|(s & seq & -> & Hn & _ & Hpe & Hw & Hkp)]; [eauto|].
    rewrite Hpe in Hk. apply lookup_insert_Some in Hk as [[<- <-]|[Hne Hk]].
    + split; [lia|]. intros pe Hp. rewrite Hw in Hp. by simplify_eq.
    + destruct (Hold _ _ Hk) as [Hlt Hkey]. split; [lia|]. intros pe Hp.
      destruct (Hkp p pe ltac:(lia) Hp) as (pe0 & H0 & _ & -> & _). auto.
  - destruct (chanPut_kept (w_d w) p0 ack) as (Hpe & Hn & _ & Hw). rewrite Hpe in Hk. rewrite Hn.
    destruct (Hold _ _ Hk) as [Hlt Hkey]. split; [done|]. intros pe Hp. destruct (Hw _ _ Hp) as (pe0 & H0 & _ & -> & _). auto.
  - unfold putStream in E. apply rebindLocked_spec in E as (_ & Hpe & Hn & Hw). simpl in *. rewrite Hpe in Hk. rewrite Hn.
    destruct (Hold _ _ Hk) as [Hlt Hkey]. split; [done|]. intros pe. rewrite Hw. case_decide; [|auto].
    destruct (sd_waiters (w_d w) !! p) as [pe0|] eqn:E0; [|done]. intros [= <-]. rewrite rebound_key. auto.
  - apply heldSection_cases in E as (_ & [[-> ->]|[(q & pe0 & msg & -> & Hpe & Hn & Hq & Hw)|(q & taken & msg & pe0 & -> & Hlt & P1 & P2 & P3 & P4 & Hpe & Hw)]]).
    + auto.
    + rewrite Hpe in Hk. rewrite Hn. destruct (Hold _ _ Hk) as [Hlt Hkey]. split; [done|]. intros pe. rewrite Hw, lookup_alter.
      destruct (decide (q = p)) as [->|]; [|auto]. rewrite Hq. intros [= <-]. rewrite rebound_key. auto.
    + rewrite Hpe in Hk. rewrite Hw. apply lookup_insert_Some in Hk as [[<- <-]|[Hne Hk]].
      * split; [lia|]. intros pe. rewrite lookup_insert_eq. by intros [= <-].
      * destruct (Hold _ _ Hk) as [Hp Hkey]. split; [lia|]. intros pe. rewrite lookup_insert_ne by lia. auto.
Qed.

Lemma stop_answer_next e x d c d' c' a (tid : nat) : answer e x d c = Some (d', c', a) -> (sd_next d <= sd_next d')%nat.
Proof.
  intros Ha. destruct (movesWaiters e) eqn:Em; [|by apply (answer_kept _ _ _ _ _ _ _ tid Em) in Ha as ((_ & ? & _) & _)].
  destruct e; try done; simpl in *; split_pairs; simplify_eq/=.
  - apply register_cases in E as [[_ ->]|(s & seq & _ & -> & _)]; lia.
  - by rewrite (proj1 (proj2 (chanPut_kept d p ack))).
  - unfold putStream in E. apply rebindLocked_spec in E as (_ & _ & Hn & _). simpl in Hn. by rewrite Hn.
  - by apply heldSection_cases in E as ((_ & _ & _ & ?) & _).
Qed.

Lemma answer_opened e x d c d' c' a tid h p who :
  answer e x d c = Some (d', c', a) -> (forall p who, opened p who h -> (p < sd_next d)%nat) ->
  opened p who (mkEntry tid e a :: h) -> (p < sd_next d')%nat.
Proof.
  intros Ha Hold Ho. pose proof (stop_answer_next _ _ _ _ _ _ _ tid Ha) as Hn. apply opened_cons_inv in Ho as [Ho|Ho]; [|apply Hold in Ho; lia].
  destruct (movesWaiters e) eqn:Em; [|by apply (answer_kept _ _ _ _ _ _ _ tid Em) in Ha as (_ & _ & ?); congruence].
  destruct e; try done; simpl in *; split_pairs; simplify_eq/=.
  - apply register_cases in E as [[-> _]|(s & seq & -> & Hx & _)]; simplify_eq/=. lia.
  - apply heldSection_cases in E as (_ & [[-> ->]|[(q & pe0 & msg & -> & _)|(q & taken & msg & pe0 & -> & Hlt & _)]]); simplify_eq/=. lia.
Qed.

Definition ordersEv (e : Ev) : bool :=
  match e with EOrderFor _ | EIssue _ _ | EIssueClear _ | ESetStoppedBy _ _ | EArm _ _ | EAdopt _ | EDisarm _ => true | _ => false end.
Definition inflightEv (e : Ev) : bool := match e with ETrack _ _ _ | EUntrack _ _ => true | _ => false end.

Definition entriesKept (d d' : Dispatcher) : Prop :=
  forall r rc, sd_records d !! r = Some rc -> exists rc', sd_records d' !! r = Some rc' /\ rc_entry rc' = rc_entry rc.

Lemma entriesKept_same d d' : sd_records d' = sd_records d -> entriesKept d d'.
Proof. intros Hr r rc Hrc. rewrite Hr. eauto. Qed.

Lemma entriesKept_mod d r f : (forall rc, rc_entry (f rc) = rc_entry rc) -> entriesKept d (modRecord d r f).
Proof.
  intros Hf q rc Hq. simpl. rewrite lookup_alter. destruct (decide (r = q)) as [->|]; rewrite Hq; simpl; eauto.
Qed.

(** What a step leaves of the orders, of the stops in flight and of the records. *)
Definition restKept (e : Ev) (d d' : Dispatcher) : Prop :=
  (ordersEv e = false -> sd_orders d' = sd_orders d) /\ (inflightEv e = false -> sd_inflight d' = sd_inflight d) /\
  match e with ENewRecord _ _ _ _ => True | _ => entriesKept d d' end.

Lemma restKept_sameRest e d d' : sameRest d d' -> restKept e d d'.
Proof. intros (Ho & Hi & Hr & _). split_and!; [done|done|]. destruct e; try (by apply entriesKept_same); done. Qed.

Ltac rest_same := repeat split; try done; try (by apply entriesKept_same).

Lemma answer_rest e x d c d' c' a : answer e x d c = Some (d', c', a) -> restKept e d d'.
Proof.
  intros Ha. destruct e; simpl in *; split_pairs; simplify_eq/=; try (rest_same; fail); try (rest_same; apply entriesKept_mod; done).
  - unfold adoptResumeWindow. destruct (o_resumeArmed _); rest_same.
  - apply register_cases in E as [[-> ->]|(s & seq & -> & _ & Hs & _)]; [rest_same|by apply restKept_sameRest].
  - unfold deregister. destruct (sd_waiters d !! p); [case_bool_decide|]; rest_same.
  - unfold settleUnlessResent in E. destruct (sd_waiters d !! p); [destruct (Nat.eqb _ _)|]; simplify_eq; rest_same.
  - apply restKept_sameRest. by apply routeAck_kept in E as (_ & ? & _).
  - apply restKept_sameRest. by destruct (chanPut_kept d p ack) as (_ & _ & ? & _).
  - unfold waitOn in E. destruct (x_give_up x) as [[]|]; [| |destruct (sd_waiters d !! p) as [w|]; [destruct (pe_ch w)|]];
      try (destruct (_ <? _)); simplify_eq; rest_same.
  - unfold waitHeld, waitOn in E. destruct (x_give_up x) as [[]|]; [| |destruct (sd_waiters d !! p) as [w|]; [destruct (pe_ch w)|]];
      try case_bool_decide; try (destruct (_ <? _)); simplify_eq; rest_same.
  - unfold putStream in E. apply rebindLocked_spec in E as ((Ho & Hi & Hr & _) & _). rest_same.
  - unfold dropStream. case_bool_decide; rest_same.
  - apply restKept_sameRest. by apply heldSection_cases in E as (? & _).
  - unfold markUnrecordedAcked in E. destruct (default ∅ _ !! id); [destruct (settledByClear d _)|]; simplify_eq; rest_same.
    by apply entriesKept_mod.
  - destruct (fold_begin rs d) as (? & ? & _ & _ & _ & ?). by repeat split.
  - destruct (fold_end decided rs d) as (? & ? & _ & _ & _ & ?). by repeat split.
  - repeat split; try done. apply entriesKept_mod. intros rc. by destruct (rc_acked rc).
  - unfold takeAck in E. destruct (sd_records d !! r) as [rc|]; [destruct (rc_acked rc)|]; simplify_eq; rest_same; by apply entriesKept_mod.
  - unfold waitAcked in E. destruct (sd_records d !! r) as [rc|]; [|done].
    destruct (rc_acked rc), (rc_done rc); try (destruct (x_ok x)); simplify_eq; rest_same; by apply entriesKept_mod.
  - unfold rememberRemoved. destruct stops; rest_same.
  - unfold keepReport. destruct (existsb _ _); rest_same.
  - unfold takeKept in E. destruct (sd_streams d !! _); simplify_eq; rest_same.
Qed.

Lemma issues_None e a key tid : ordersEv e = false -> issues key (mkEntry tid e a) = None.
Proof. by destruct e. Qed.

Lemma orderOf_set d key o k : orderOf (setOrder d key o) k = if decide (key = k) then o else orderOf d k.
Proof. unfold orderOf. simpl. rewrite lookup_insert. by destruct (decide (key = k)). Qed.

Lemma uint64_succ n : uint64 (uint64 n + 1) = uint64 (n + 1).
Proof. unfold uint64. by rewrite Z.add_mod_idemp_l. Qed.

Lemma answer_orders e x d c d' c' a tid key h : answer e x d c = Some (d', c', a) ->
  o_issued (orderOf d key) = uint64 (Z.of_nat (issuedAfter key h)) -> o_lastStop (orderOf d key) = lastStopAfter key h ->
  o_issued (orderOf d' key) = uint64 (Z.of_nat (issuedAfter key (mkEntry tid e a :: h))) /\
  o_lastStop (orderOf d' key) = lastStopAfter key (mkEntry tid e a :: h).
Proof.
  intros Ha Hi Hl. destruct (ordersEv e) eqn:Eo.
  2: { cbn [issuedAfter lastStopAfter]. rewrite issues_None by done. cbn [Nat.add]. unfold orderOf in *. by rewrite (proj1 (answer_rest _ _ _ _ _ _ _ Ha) Eo). }
  destruct e; try done; simpl in *; simplify_eq/=; unfold orderFor, setStoppedBy, armResumeWindow, disarmResumeWindow, setResume; fold (setOrder d).
  - change (setOrders d (<[key0 := orderOf d key0]> (sd_orders d))) with (setOrder d key0 (orderOf d key0)).
    rewrite orderOf_set. by destruct (decide (key0 = key)) as [->|].
  - rewrite orderOf_set. destruct (decide (key0 = key)) as [->|Hne]; simpl.
    + rewrite eqb_s_refl. rewrite Hi, uint64_succ. split; [f_equal; simpl; lia|]. by destruct stop.
    + by rewrite (proj2 (eqb_s_false _ _)).
  - rewrite orderOf_set. destruct (decide (key0 = key)) as [->|Hne]; simpl.
    + rewrite eqb_s_refl. rewrite Hi, uint64_succ. split; [f_equal; simpl; lia|done].
    + by rewrite (proj2 (eqb_s_false _ _)).
  - rewrite orderOf_set. by destruct (decide (key0 = key)) as [->|].
  - rewrite orderOf_set. by destruct (decide (key0 = key)) as [->|].
  - unfold adoptResumeWindow, setResume. destruct (o_resumeArmed _); [done|]. rewrite orderOf_set. by destruct (decide (key0 = key)) as [->|].
  - rewrite orderOf_set. by destruct (decide (key0 = key)) as [->|].
Qed.

Lemma answer_window e x d c d' c' a tid key h : answer e x d c = Some (d', c', a) ->
  resumeBaseline d key = windowAfter key h -> resumeBaseline d' key = windowAfter key (mkEntry tid e a :: h).
Proof.
  intros Ha Hw. destruct (ordersEv e) eqn:Eo.
  2: { replace (windowAfter key (mkEntry tid e a :: h)) with (windowAfter key h) by (by destruct e).
       rewrite <- Hw. unfold resumeBaseline, orderOf. by rewrite (proj1 (answer_rest _ _ _ _ _ _ _ Ha) Eo). }
  cbn [windowAfter]. rewrite <- Hw. unfold resumeBaseline.
  destruct e; try done; simpl in *; simplify_eq/=; unfold setStoppedBy, armResumeWindow, disarmResumeWindow, adoptResumeWindow, setResume.
  - change (orderFor d key0) with (setOrder d key0 (orderOf d key0)). rewrite orderOf_set. by destruct (decide (key0 = key)) as [->|].
  - rewrite orderOf_set. by destruct (decide (key0 = key)) as [->|].
  - rewrite orderOf_set. by destruct (decide (key0 = key)) as [->|].
  - rewrite orderOf_set. by destruct (decide (key0 = key)) as [->|].
  - rewrite orderOf_set. destruct (decide (key0 = key)) as [->|Hne]; [by rewrite eqb_s_refl|]. by rewrite (proj2 (eqb_s_false _ _)).
  - destruct (String.eqb_spec key0 key) as [->|Hne].
    + destruct (o_resumeArmed (orderOf d key)) eqn:E; [by rewrite E|]. rewrite orderOf_set. by destruct (decide (key = key)).
    + destruct (o_resumeArmed (orderOf d key0)); [done|]. rewrite orderOf_set. by destruct (decide (key0 = key)).
  - rewrite orderOf_set. destruct (decide (key0 = key)) as [->|Hne]; [by rewrite eqb_s_refl|]. by rewrite (proj2 (eqb_s_false _ _)).
Qed.

Lemma answer_tracked e x d c d' c' a tid key h : answer e x d c = Some (d', c', a) ->
  default ∅ (sd_inflight d !! key) = trackedAfter key h ->
  default ∅ (sd_inflight d' !! key) = trackedAfter key (mkEntry tid e a :: h).
Proof.
  intros Ha Hk. destruct (inflightEv e) eqn:Ei.
  2: { rewrite (proj1 (proj2 (answer_rest _ _ _ _ _ _ _ Ha)) Ei), Hk. by destruct e. }
  destruct e; try done; simpl in *; simplify_eq/=.
  - rewrite lookup_insert. destruct (decide (key0 = key)) as [->|Hne]; [by rewrite eqb_s_refl, Hk|]. by rewrite (proj2 (eqb_s_false _ _)).
  - unfold untrackInflight. simpl. destruct (String.eqb_spec key0 key) as [->|Hne].
    + rewrite <- Hk. case_bool_decide as Hd; [rewrite lookup_delete_eq; by rewrite Hd|by rewrite lookup_insert_eq].
    + rewrite <- Hk. case_bool_decide; [by rewrite lookup_delete_ne|by rewrite lookup_insert_ne].
Qed.

Lemma recordOf_cons r entry en h : recordOf r entry h -> recordOf r entry (en :: h).
Proof. intros (t & n & m & ep & H). exists t, n, m, ep. by right. Qed.

Lemma answer_records e x d c d' c' a tid r entry h : answer e x d c = Some (d', c', a) ->
  (forall r entry, recordOf r entry h -> (r < sd_next d)%nat /\ exists rc, sd_records d !! r = Some rc /\ rc_entry rc = entry) ->
  recordOf r entry (mkEntry tid e a :: h) ->
  (r < sd_next d')%nat /\ exists rc, sd_records d' !! r = Some rc /\ rc_entry rc = entry.
Proof.
  intros Ha Hold (t & ns & nm & ep & [Heq|Hin]%elem_of_cons).
  - pose proof (f_equal (fun en => match en with mkEntry _ (ENewRecord _ _ _ _) q => Some q | _ => None end) Heq) as Hr.
    simplify_eq. simpl in *. simplify_eq/=. split; [lia|]. rewrite lookup_insert_eq. eauto.
  - destruct (Hold r entry) as [Hlt (rc & Hrc & He)]; [by exists t, ns, nm, ep|].
    pose proof (stop_answer_next _ _ _ _ _ _ _ tid Ha). split; [lia|].
    destruct (answer_rest _ _ _ _ _ _ _ Ha) as (_ & _ & Hk). destruct e; try (destruct (Hk _ _ Hrc) as (rc' & ? & ?); exists rc'; split; [done|congruence]).
    simpl in *. simplify_eq/=. rewrite lookup_insert_ne by lia. eauto.
Qed.

Lemma readRobot_version c live namespace name x b h :
  (forall key, cl_robots c !! key = storedAfter key h) -> cl_versions c = versions h ->
  readRobot c live namespace name x = Ok b -> b ∈ versions h /\ objKey b = (namespace, name).
Proof.
  intros Hs Hv. unfold readRobot. destruct (x_fail x); [done|]. destruct live.
  - rewrite Hs. destruct (storedAfter (namespace, name) h) as [b0|] eqn:E; [|done]. intros [= ->]. by apply storedAfter_key.
  - destruct (cl_versions c !! x_version x) as [b0|] eqn:E; [|done]. destruct (_ && _) eqn:Eb; [|done]. intros [= ->]. str_bool.
    split; [|unfold objKey; congruence]. rewrite <- Hv. by apply list_elem_of_lookup_2 in E.
Qed.

Lemma readRobots_version c namespace x l b h :
  cl_versions c = versions h -> readRobots c namespace x = Some l -> b ∈ l -> b ∈ versions h /\ sb_Namespace b = namespace.
Proof.
  intros Hv. unfold readRobots. destruct (x_robots x) as [idx|]; [|done]. intros [= <-].
  rewrite list_elem_of_In, filter_In, <- list_elem_of_In. intros [Hb He]. str_bool. split; [|done].
  apply list_elem_of_omap in Hb as (i & _ & Hi). rewrite <- Hv. by apply list_elem_of_lookup_2 in Hi.
Qed.

Lemma stop_answer_good tid lk e x w d' c' a :
  inv w -> pre tid lk e w -> answer e x (w_d w) (w_cl w) = Some (d', c', a) -> good tid e a (w_hist w).
Proof.
  intros Hi Hpre Ha. destruct e; simpl in *; split_pairs; simplify_eq/=; try done.
  - by rewrite (inv_issued _ Hi), uint64_succ.
  - by rewrite (inv_issued _ Hi), uint64_succ.
  - unfold supersededByLaterStop. by rewrite (inv_lastStop _ Hi).
  - apply (inv_window _ Hi).
  - intros s p seq who ->. apply register_cases in E as [[? _]|(s' & seq' & ? & _)]; simplify_eq.
    intros Ho. apply (inv_opened _ Hi) in Ho. lia.
  - intros p ->. destruct (routeAck_kept _ _ _ _ _ _ _ E) as (_ & _ & _ & Hr). destruct (Hr p eq_refl) as (pe & Haw & Had & Hse).
    unfold awaited in Haw. destruct (sd_pending (w_d w) !! _) as [q|] eqn:Eq; [|done].
    destruct (sd_waiters (w_d w) !! q) as [pe0|] eqn:Ew; simplify_eq.
    destruct (inv_waiters _ Hi _ _ Ew) as (W1 & W2 & _). destruct (inv_pending _ Hi _ _ Eq) as [_ Hk].
    rewrite (Hk _ Ew), Had in W2. by rewrite W1.
  - intros ack ->. apply waitOn_kept in E as [_ Hack]. destruct (Hack ack eq_refl) as (pe & Ew & Hin).
    by apply (inv_waiters _ Hi _ _ Ew).
  - intros p taken msg who ->. apply heldSection_cases in E as (_ & [[? _]|[(q & pe0 & m & ? & _)|(q & t & m & pe0 & ? & Hlt & _)]]); simplify_eq.
    intros Ho. apply (inv_opened _ Hi) in Ho. lia.
  - intros id r entry Ht Hr. destruct (inv_records _ Hi _ _ Hr) as (_ & rc & Hrc & He). unfold inflightOf.
    apply list_elem_of_omap. exists (id, r). split; [|simpl; rewrite Hrc; by rewrite He].
    apply elem_of_map_to_list. by rewrite (inv_tracked _ Hi).
  - by rewrite (inv_lastStop _ Hi).
  - intros b Hb. eapply readRobot_version; [apply (inv_store _ Hi)|apply (inv_versions _ Hi)|done].
  - intros l b Hl. eapply readRobots_version; [apply (inv_versions _ Hi)|done].
  - split; [done|]. destruct (patch_cases _ _ _ _ _ _ E) as [(-> & _ & Hno)|(b & -> & (cur & Hc & Hrv & ->)%landing_key & _ & Hb)].
    + split; [|done]. intros b Hb. by apply Hno in Hb.
    + split; [intros b' Hb'; f_equal; symmetry; auto|]. intros b' [= <-]. exists cur, (cl_next (w_cl w)).
      by rewrite <- (inv_store _ Hi).
Qed.

Lemma stop_perform_inv tid lk e x w w' a : inv w -> pre tid lk e w -> perform tid e x w = Some (w', a) -> inv w'.
Proof.
  intros Hi Hpre Hp. unfold perform in Hp. destruct (answer e x (w_d w) (w_cl w)) as [[[d c] b]|] eqn:Ha; [|done]. simplify_eq.
  pose proof (answer_rv _ _ _ _ _ _ _ tid _ Ha (inv_rv _ Hi) (inv_unique _ Hi)) as [Hrv Hun].
  assert (Hord : forall key, _) by (intros key; exact (answer_orders _ _ _ _ _ _ _ tid key _ Ha (inv_issued _ Hi key) (inv_lastStop _ Hi key))).
  split; simpl w_d; simpl w_cl; simpl w_hist.
  - simpl. split; [eauto using stop_answer_good|apply (inv_hist _ Hi)].
  - intros key. eapply answer_store; [done|]. apply (inv_store _ Hi).
  - eapply answer_versions; [done|]. apply (inv_versions _ Hi).
  - exact Hrv.
  - exact Hun.
  - intros p pe. eauto using answer_waiters.
  - intros key p. by eapply stop_answer_pending.
  - intros p who. eapply answer_opened; [done|apply (inv_opened _ Hi)].
  - intros key. apply Hord.
  - intros key. apply Hord.
  - intros key. eapply answer_window; [done|]. apply (inv_window _ Hi).
  - intros key. eapply answer_tracked; [done|]. apply (inv_tracked _ Hi).
  - intros r entry. eapply answer_records; [done|apply (inv_records _ Hi)].
Qed.

Lemma inv_start : inv (mkWorld New noRobots []).
Proof.
  split; simpl; try done.
  - intros b Hb. by apply not_elem_of_nil in Hb.
  - apply NoDup_nil_2.
  - intros p who (en & Hen & _). by apply not_elem_of_nil in Hen.
  - intros r entry (t & ns & nm & ep & Hen). by apply not_elem_of_nil in Hen.
Qed.

(** ** Rules for programs *)

(** A claim about the history. *)
Definition hp (H : list Entry -> Prop) (w : World) : Prop := H (w_hist w).
Notation htriple tid lk H p lk' K :=
  (triple resp perform pre rely inv tid lk (hp H) p lk' (fun a => hp (K a))).

(** Claims that survive any event. *)
Definition lasting (H : list Entry -> Prop) : Prop := forall en h, H h -> H (en :: h).

Lemma lasting_rely H tid lk w w' : lasting H -> rely tid lk w w' -> hp H w -> hp H w'.
Proof. intros Hl (ext & Hw) HH. unfold hp in *. rewrite Hw. clear Hw. induction ext; simpl; auto. Qed.

Lemma lasts_and H K : lasting H -> lasting K -> lasting (fun h => H h /\ K h).
Proof. intros H1 H2 en h [? ?]. split; auto. Qed.
Lemma lasts_or H K : lasting H -> lasting K -> lasting (fun h => H h \/ K h).
Proof. intros H1 H2 en h [?|?]; [left|right]; auto. Qed.
Lemma lasts_const (phi : Prop) : lasting (fun _ => phi).
Proof. by intros ? ? ?. Qed.
Lemma lasts_in en : lasting (fun h => en ∈ h).
Proof. intros en' h Hin. by right. Qed.
Lemma lasting_version b : lasting (fun h => b ∈ versions h).
Proof. intros en h. apply versions_mono. Qed.
Lemma lasts_impl (phi : Prop) H : lasting H -> lasting (fun h => phi -> H h).
Proof. intros Hl en h Hi Hp. auto. Qed.
Lemma lasts_ex {A} (H : A -> list Entry -> Prop) : (forall x, lasting (H x)) -> lasting (fun h => exists x, H x h).
Proof. intros Hl en h [x Hx]. exists x. by apply Hl. Qed.
Lemma lasts_all {A} (H : A -> list Entry -> Prop) : (forall x, lasting (H x)) -> lasting (fun h => forall x, H x h).
Proof. intros Hl en h Hx x. by apply Hl. Qed.
Lemma lasts_arrived p ack : lasting (arrived p ack).
Proof. intros en h. apply stop_arrived_cons. Qed.

(** An event: what is known stays, and the event, its answer and what its answer says of the history before
    it are added. *)
Lemma striple_vis {A} tid lk (H : list Entry -> Prop) e (k : resp e -> prog resp A) (K : resp e -> list Entry -> Prop) lk' Q :
  (forall w, inv w -> H (w_hist w) -> pre tid lk e w) -> (forall a, lasting (K a)) ->
  (forall a h, H h -> good tid e a h -> K a (mkEntry tid e a :: h)) ->
  (forall a, htriple tid lk (K a) (k a) lk' Q) -> htriple tid lk H (Vis e k) lk' Q.
Proof.
  intros Hpre Hl HK Hk. split; [done|]. intros a. eapply triple_weaken; [|apply Hk].
  intros w' (w & x & w1 & Hi & HH & Hp & Hr). eapply lasting_rely; [done|exact Hr|].
  unfold hp. rewrite (stop_perform_hist _ _ _ _ _ _ Hp). apply HK; [done|].
  pose proof (inv_hist _ (stop_perform_inv _ _ _ _ _ _ _ Hi (Hpre _ Hi HH) Hp)) as Ho.
  rewrite (stop_perform_hist _ _ _ _ _ _ Hp) in Ho. by destruct Ho.
Qed.

Definition plain (e : Ev) : bool := match e with EPatch _ _ | EChanPut _ _ | EArm _ _ => false | _ => true end.

Lemma stop_plain_pre tid lk e w : plain e = true -> pre tid lk e w.
Proof. by destruct e. Qed.

Lemma striple_plain {A} tid lk H e (k : resp e -> prog resp A) lk' Q :
  plain e = true -> lasting H ->
  (forall a, htriple tid lk (fun h => H h /\ mkEntry tid e a ∈ h) (k a) lk' Q) -> htriple tid lk H (Vis e k) lk' Q.
Proof.
  intros Hp Hl Hk. eapply striple_vis; [intros; by apply stop_plain_pre| | |exact Hk].
  - intros a. apply lasts_and; [done|apply lasts_in].
  - intros a h HH _. split; [by apply Hl|by left].
Qed.

Lemma striple_skip {A} tid lk H e (k : resp e -> prog resp A) lk' Q :
  plain e = true -> lasting H -> (forall a, htriple tid lk H (k a) lk' Q) -> htriple tid lk H (Vis e k) lk' Q.
Proof.
  intros Hp Hl Hk. apply striple_plain; [done..|]. intros a. eapply triple_weaken; [|apply Hk]. by intros w [? _].
Qed.

Lemma striple_weaken {A} tid lk (H H' : list Entry -> Prop) (p : prog resp A) lk' (K : A -> list Entry -> Prop) :
  (forall h, H' h -> H h) -> htriple tid lk H p lk' K -> htriple tid lk H' p lk' K.
Proof. intros Hw. apply triple_weaken. intros w. apply Hw. Qed.

Lemma striple_conseq {A} tid lk (H : list Entry -> Prop) (p : prog resp A) lk' (K K' : A -> list Entry -> Prop) :
  (forall a h, K a h -> K' a h) -> htriple tid lk H p lk' K -> htriple tid lk H p lk' K'.
Proof. intros Hw. apply triple_conseq. intros a w. apply Hw. Qed.

Lemma striple_bind {A B} tid lk H (p : prog resp A) (f : A -> prog resp B) lk1 K lk2 R :
  htriple tid lk H p lk1 K -> (forall a, htriple tid lk1 (K a) (f a) lk2 R) -> htriple tid lk H (pbind p f) lk2 R.
Proof. apply triple_bind. Qed.

Lemma striple_ret {A} tid lk (H : list Entry -> Prop) (a : A) K : (forall h, H h -> K a h) -> htriple tid lk H (Ret a) lk K.
Proof. intros HK. split; [done|]. intros w. apply HK. Qed.

Lemma striple_unlock {A} tid key (H : list Entry -> Prop) (p : prog resp A) lk' K :
  lasting H -> htriple tid None H p lk' K -> htriple tid (Some key) H (Unlock key p) lk' K.
Proof.
  intros Hl Hp. split; [done|]. eapply triple_weaken; [|exact Hp].
  intros w (w0 & H0 & Hr). by eapply lasting_rely.
Qed.

Lemma striple_fork {A} tid lk H q (k : prog resp A) lk' K :
  (forall tid, htriple tid None (fun _ => True) q None (fun _ _ => True)) -> htriple tid lk H k lk' K ->
  htriple tid lk H (Fork q k) lk' K.
Proof. by split. Qed.

Lemma striple_lock {A} tid key H (p : prog resp A) lk' K : htriple tid (Some key) H p lk' K -> htriple tid None H (Lock key p) lk' K.
Proof. by split. Qed.

End Logic.

Notation htriple g tid lk H p lk' K :=
  (triple resp perform (pre g) rely (inv g) tid lk (hp H) p lk' (fun a => hp (K a))).

#[export] Hint Resolve lasts_and lasts_or lasts_const lasts_in lasting_version lasts_impl lasts_ex lasts_all
  lasts_arrived : swarm.
