(* ===== verification/SafetyProps.v ===== *)
(** The theorems about the stop dispatcher. Each operation is proved in the logic of SafetyInv, once, and the
    theorems hold of every schedule of any calls. *)

From S2P Require Import Prelude.
From S2P Require Import Types.
From S2P Require Import Contract.
From S2P Require Import RobotId.
From S2P Require Import Conc.
From S2P Require Import EstopScope.
From S2P Require Import Command.
From S2P Require Import SafetyData.
From S2P Require Import Safety.
From S2P Require Import SafetyInv.

Section Ops.
Context (g : Ctx).
Notation triple' tid lk H p lk' K := (htriple g tid lk H p lk' K).

(** ** Operations that keep what is known *)

(** Whatever mutex is held, the program respects every precondition and keeps what is known. *)
Definition keeps {A} (p : prog resp A) : Prop :=
  forall tid lk H, lasting H -> triple' tid lk H p lk (fun _ => H).

(** The same of a program that takes locks of its own. *)
Definition keepsFree {A} (p : prog resp A) : Prop :=
  forall tid H, lasting H -> triple' tid None H p None (fun _ => H).

Lemma keeps_free {A} (p : prog resp A) : keeps p -> keepsFree p.
Proof. intros Hk tid H. apply Hk. Qed.

Lemma keeps_ret {A} (a : A) : keeps (Ret a).
Proof. intros tid lk H _. by apply striple_ret. Qed.

Lemma keeps_vis {A} e (k : resp e -> prog resp A) : plain e = true -> (forall a, keeps (k a)) -> keeps (Vis e k).
Proof. intros Hp Hk tid lk H Hl. apply striple_skip; [done..|]. intros a. by apply Hk. Qed.

Lemma keeps_trigger e : plain e = true -> keeps (trigger e).
Proof. intros Hp. apply keeps_vis; [done|]. intros a. apply keeps_ret. Qed.

Lemma keeps_bind {A B} (p : prog resp A) (f : A -> prog resp B) : keeps p -> (forall a, keeps (f a)) -> keeps (pbind p f).
Proof. intros Hp Hf tid lk H Hl. apply (striple_bind g tid lk H p f lk (fun _ => H)); [by apply Hp|]. intros a. by apply Hf. Qed.

Lemma keepsFree_bind {A B} (p : prog resp A) (f : A -> prog resp B) :
  keepsFree p -> (forall a, keepsFree (f a)) -> keepsFree (pbind p f).
Proof. intros Hp Hf tid H Hl. apply (striple_bind g tid None H p f None (fun _ => H)); [by apply Hp|]. intros a. by apply Hf. Qed.

Lemma keeps_fork {A} q (k : prog resp A) : keepsFree q -> keeps k -> keeps (Fork q k).
Proof.
  intros Hq Hk tid lk H Hl. apply striple_fork; [|by apply Hk]. intros tid'.
  by apply (Hq tid' (fun _ => True)), lasts_const.
Qed.

Create HintDb keepdb.

(** Take apart a program built of plain events, binds, conditionals and known operations. *)
Ltac keep :=
  repeat first
  [ assumption
  | match goal with H : forall _, keeps _ |- _ => apply H end
  | apply keeps_ret
  | solve [auto 3 with keepdb]
  | apply keeps_trigger; reflexivity
  | apply keeps_vis; [reflexivity|intros ?]
  | apply keeps_bind; [|intros ?]
  | match goal with |- keeps (match ?x with _ => _ end) => destruct x end
  | match goal with |- keeps (let '(_, _) := ?x in _) => destruct x end
]. 

Lemma keeps_noteIf b n : keeps (noteIf b n).
Proof. unfold noteIf. keep. Qed.
Lemma keeps_leads : keeps (leads g).
Proof. unfold leads. keep. Qed.
Lemma keeps_stillLeads : keeps (stillLeads g).
Proof. unfold stillLeads. keep. Qed.
Lemma keeps_send s msg : keeps (send s msg).
Proof. unfold send. keep. Qed.
Lemma keeps_getRobot ns n : keeps (getRobot g ns n).
Proof. unfold getRobot. keep. Qed.
Lemma keeps_listRobots ns : keeps (listRobots g ns).
Proof. unfold listRobots. keep. Qed.
Lemma keeps_issueEpoch key stop : keeps (issueEpoch key stop).
Proof. unfold issueEpoch. keep. Qed.
Lemma keeps_deliveryTimeoutFor ns : keeps (deliveryTimeoutFor g ns).
Proof. unfold deliveryTimeoutFor. keep. Qed.
Lemma keeps_startWindowAt p t : keeps (startWindowAt p t).
Proof. unfold startWindowAt. keep. Qed.
Hint Resolve keeps_noteIf keeps_leads keeps_stillLeads keeps_send keeps_getRobot keeps_listRobots keeps_issueEpoch
  keeps_deliveryTimeoutFor keeps_startWindowAt : keepdb.
Lemma keeps_startWindow p d : keeps (startWindow p d).
Proof. unfold startWindow. keep. Qed.
Lemma keeps_measured robot scope l : keeps (measured g robot scope l).
Proof. unfold measured, recordLatencyViolation. keep. Qed.
Lemma keeps_sendFence robot id estop : keeps (sendFence g robot id estop).
Proof. unfold sendFence. destruct (g_Fence g); [|keep]. apply keeps_fork; [apply keeps_free|]; keep. Qed.
Lemma keeps_recordHeldResend robot b t res : keeps (recordHeldResend g robot b t res).
Proof. unfold recordHeldResend, auditHeldResend. keep. Qed.
Hint Resolve keeps_startWindow keeps_measured keeps_sendFence keeps_recordHeldResend : keepdb.
Lemma keeps_sendClearLoop s w by_ term clears : keeps (sendClearLoop s w by_ term clears).
Proof. induction clears as [|[id at_] clears IH]; simpl; keep. Qed.
Lemma keeps_resendOnto s msgs : keeps (resendOnto s msgs).
Proof. induction msgs as [|m msgs IH]; simpl; keep. Qed.
Hint Resolve keeps_sendClearLoop keeps_resendOnto : keepdb.
Lemma keeps_sendClears robot ids by_ at_ : keeps (sendClears g robot ids by_ at_).
Proof. unfold sendClears. keep. Qed.
Lemma keeps_answerRemoved identity from w rm : keeps (answerRemoved g identity from w rm).
Proof. unfold answerRemoved. keep. Qed.
Hint Resolve keeps_sendClears keeps_answerRemoved : keepdb.
Lemma keeps_answerEach identity s reports : keeps (answerEach g identity s reports).
Proof. induction reports as [|k reports IH]; simpl; keep. Qed.
Hint Resolve keeps_answerEach : keepdb.
Lemma keeps_answerKeptReports identity : keeps (answerKeptReports g identity).
Proof. unfold answerKeptReports. keep. Qed.
Lemma keeps_unrecordedStop robot : keeps (unrecordedStop g robot).
Proof. unfold unrecordedStop. keep. Qed.
Lemma keeps_awaitHeld robot p taken t u res fuel : keeps (awaitHeld g robot p taken t u res fuel).
Proof. revert res. induction fuel as [|fuel IH]; intros res; simpl; keep. Qed.
Lemma keeps_rearm ns n key : keeps (rearmResumeAfterFailover ns n key).
Proof. unfold rearmResumeAfterFailover. keep. Qed.
Lemma keeps_heldByOwnTrigger ns n : keeps (heldByOwnTrigger g ns n).
Proof. unfold heldByOwnTrigger. keep. Qed.
Hint Resolve keeps_answerKeptReports keeps_unrecordedStop keeps_awaitHeld keeps_rearm keeps_heldByOwnTrigger : keepdb.

(** ** Steps that tell something *)

Lemma bind_skip {A} tid lk H e (f : resp e -> prog resp A) lk' K :
  plain e = true -> lasting H -> (forall a, triple' tid lk H (f a) lk' K) -> triple' tid lk H (pbind (trigger e) f) lk' K.
Proof. apply striple_skip. Qed.

Lemma bind_note {A} tid lk H e (f : resp e -> prog resp A) lk' K :
  plain e = true -> lasting H ->
  (forall a, triple' tid lk (fun h => H h /\ mkEntry tid e a ∈ h) (f a) lk' K) -> triple' tid lk H (pbind (trigger e) f) lk' K.
Proof. apply striple_plain. Qed.

Ltac facts := auto 20 with swarm.
Ltac skip := apply bind_skip; [done|facts|intros ?].
Ltac note := apply bind_note; [done|facts|intros ?].

(** A bind whose first half keeps what is known. *)
Lemma bind_keeps {A B} tid lk H (p : prog resp A) (f : A -> prog resp B) lk' K :
  keeps p -> lasting H -> (forall a, triple' tid lk H (f a) lk' K) -> triple' tid lk H (pbind p f) lk' K.
Proof. intros Hp Hl Hf. apply (striple_bind g tid lk H p f lk (fun _ => H)); [by apply Hp|done]. Qed.

(** A read of a Robot answers with a version it had. *)
Lemma getRobot_spec tid lk H ns n : lasting H ->
  triple' tid lk H (getRobot g ns n) lk
    (fun a h => H h /\ forall b, a = Ok b -> b ∈ versions h /\ objKey b = (ns, n)).
Proof.
  intros Hl. unfold getRobot. apply striple_vis with (K := fun a h => H h /\ forall b, a = Ok b -> b ∈ versions h /\ objKey b = (ns, n)).
  - done.
  - intros a. apply lasts_and; [done|]. facts.
  - intros a h HH Hg. split; [by apply Hl|]. intros b Hb. destruct (Hg b Hb). split; [by apply versions_mono|done].
  - intros a. by apply striple_ret.
Qed.

(** The patch, when what is known allows it. *)
Lemma patchStatus_spec tid lk H base new : lasting H -> (forall h, H h -> writeGood g tid base new h) ->
  triple' tid lk H (patchStatus base new) lk
    (fun a h => H h /\ forall b, a = Ok b -> mkEntry tid (EPatch base new) (mkPatchAnswer (Some b) (Ok b)) ∈ h).
Proof.
  intros Hl HW. unfold patchStatus. simpl.
  apply striple_vis with (K := fun a h => H h /\ forall b, pa_answer a = Ok b -> mkEntry tid (EPatch base new) (mkPatchAnswer (Some b) (Ok b)) ∈ h).
  - intros w _ HH. by apply HW.
  - intros a. facts.
  - intros [l r] h HH (_ & Hb & _). split; [by apply Hl|]. simpl in *. intros b ->. rewrite (Hb b eq_refl). by left.
  - intros a. by apply striple_ret.
Qed.

(** ** status.stops *)

(** A change to a Robot just read: what it does to the stops, and to nothing else. *)
Definition changeOk {S} (f : change S) : Prop :=
  forall s robot tid lk H, lasting H ->
    triple' tid lk H (f s robot) lk (fun out h => H h /\
      let '(_, (new, changed, _)) := out in changed = true ->
        sb_State new = sb_State robot /\ sb_HeldBy new = sb_HeldBy robot /\ stopsStep (sb_Stops robot) (sb_Stops new)).

Lemma writeGood_stops tid base new h :
  base ∈ versions h -> sb_State new = sb_State base -> sb_HeldBy new = sb_HeldBy base -> stopsStep (sb_Stops base) (sb_Stops new) ->
  writeGood g tid base new h.
Proof. intros Hb Hs Hh Hst. unfold writeGood. rewrite Hs. split_and!; try done; by intros ->. Qed.

Lemma keeps_writeAttempt {S} ns n id (f : change S) s : changeOk f -> keeps (writeStopRecordAttempt g ns n id f s).
Proof.
  intros Hf tid lk H Hl. unfold writeStopRecordAttempt.
  eapply (striple_bind g tid lk H _ _ lk); [by apply getRobot_spec|]. intros [stored|e]; [|apply striple_ret; by intros h [? _]].
  eapply striple_weaken with (H := fun h => H h /\ stored ∈ versions h); [intros h [? Hb]; split; [done|by apply Hb]|].
  eapply (striple_bind g tid lk _ _ _ lk); [apply Hf; facts|]. intros [s' [[new changed] full]].
  destruct full. { apply bind_keeps; [keep|facts|]. intros []. apply striple_ret. naive_solver. }
  destruct changed; cbn [negb]; [|apply striple_ret; naive_solver].
  eapply (striple_bind g tid lk _ _ _ lk).
  - apply (patchStatus_spec tid lk (fun h => (H h /\ stored ∈ versions h) /\ (true = true ->
      sb_State new = sb_State stored /\ sb_HeldBy new = sb_HeldBy stored /\ stopsStep (sb_Stops stored) (sb_Stops new)))); [facts|].
    intros h [[_ Hb] Hn]. destruct (Hn eq_refl) as (? & ? & ?). by apply writeGood_stops.
  - intros a. apply striple_ret. naive_solver.
Qed.

Lemma keeps_writeStopRecord {S} ns n id (f : change S) s b fuel : changeOk f -> keeps (writeStopRecord g ns n id f s b fuel).
Proof.
  intros Hf. revert s b. induction fuel as [|fuel IH]; intros s b; cbn [writeStopRecord]; [keep|].
  apply keeps_bind; [keep|]. intros []; cbn [negb]; [|keep]. apply keeps_bind; [by apply keeps_writeAttempt|].
  intros [s' [[]|[]]]; keep; apply IH.
Qed.

(** *** The changes *)

Lemma keeps_clearOf r : keeps (clearOf r).
Proof. unfold clearOf. keep. Qed.
Lemma keeps_takeAckOnce r acked : keeps (takeAckOnce r acked).
Proof. unfold takeAckOnce. keep. Qed.
Hint Resolve keeps_clearOf keeps_takeAckOnce : keepdb.

Lemma appendStop_ok r entry : changeOk (appendStop r entry).
Proof.
  intros acked robot tid lk H Hl. unfold appendStop.
  destruct (hasStop (rs_ID entry) (sb_Stops robot)) eqn:Eh; [apply striple_ret; naive_solver|].
  destruct (maxRecordedStops <=? length (sb_Stops robot))%nat eqn:El; [apply striple_ret; naive_solver|].
  apply bind_keeps; [keep|done|]. intros acked'. apply bind_keeps; [keep|done|]. intros [cl removed]. cbn [snd fst].
  destruct removed; apply striple_ret; [naive_solver|]. intros h HH. split; [done|]. intros _. repeat split.
  apply stops_append; [done|]. by apply Nat.leb_gt in El.
Qed.

Lemma ackFirst_only id at_ stops new : ackFirst id at_ stops = Some new -> Forall2 ackOnly stops new.
Proof.
  revert new. induction stops as [|st stops IH]; intros new; simpl; [done|].
  assert (Hrefl : forall l, Forall2 ackOnly l l) by (intros l; apply Forall2_same_length_lookup_2; [done|]; intros; simplify_eq; by repeat split).
  destruct (rs_ID st =s id).
  - destruct (rs_AcknowledgedAt st); [done|]. intros [= <-]. constructor; [by repeat split|apply Hrefl].
  - destruct (ackFirst id at_ stops) as [new'|]; [|done]. intros [= <-]. constructor; [by repeat split|by apply IH].
Qed.

Lemma acknowledge_ok id at_ : changeOk (acknowledge id at_).
Proof.
  intros [] robot tid lk H Hl. unfold acknowledge. apply striple_ret. intros h HH. split; [done|].
  destruct (ackFirst id at_ (sb_Stops robot)) as [stops|] eqn:E; [|done]. intros _. repeat split.
  by apply stops_ack, (ackFirst_only id at_).
Qed.

Lemma filter_sublist {A} (f : A -> bool) (l : list A) : sublist (List.filter f l) l.
Proof. induction l as [|x l IH]; simpl; [constructor|]. destruct (f x); by constructor. Qed.

Lemma dropCleared_ok match_ : changeOk (dropCleared match_).
Proof.
  intros s robot tid lk H Hl. unfold dropCleared. destruct (_ =? _)%nat; apply striple_ret; intros h HH; (split; [done|]); [done|].
  intros _. repeat split. apply stops_remove; [apply filter_sublist|]. intros st Hst Hn.
  apply list_elem_of_In, filter_In. split; [by apply list_elem_of_In|]. by rewrite bool_decide_eq_true_2.
Qed.

Lemma removeFirst_spec id stops gone kept : removeFirst id stops = Some (gone, kept) ->
  sublist kept stops /\ forall st, st ∈ stops -> rs_ClearedAt st = None -> st ∈ kept.
Proof.
  revert kept. induction stops as [|st stops IH]; intros kept; simpl; [done|]. destruct (rs_ID st =s id).
  - destruct (rs_ClearedAt st) eqn:Ec; [|done]. intros [= <- <-]. split; [by constructor|].
    intros st' [->|?]%elem_of_cons ?; [congruence|done].
  - destruct (removeFirst id stops) as [[g' kept']|]; [|done]. intros [= <- <-]. destruct (IH kept' eq_refl) as [Hs Hk].
    split; [by constructor|]. intros st' [->|?]%elem_of_cons ?; [by left|right; auto].
Qed.

Lemma dropAcked_ok id : changeOk (dropAcked id).
Proof.
  intros s robot tid lk H Hl. unfold dropAcked. apply striple_ret. intros h HH.
  destruct (removeFirst id (sb_Stops robot)) as [[gone kept]|] eqn:E; [|done]. split; [done|]. intros _. repeat split.
  apply removeFirst_spec in E as [? ?]. by apply stops_remove.
Qed.

(** *** What uses them *)

Lemma keeps_recordAcknowledged ns n id at_ fuel : keeps (recordAcknowledged g ns n id at_ fuel).
Proof. unfold recordAcknowledged. apply keeps_bind; [by apply keeps_writeStopRecord, acknowledge_ok|]. keep. Qed.

Lemma keeps_recordStop ns n r entry fuel : keeps (recordStop g ns n r entry fuel).
Proof.
  unfold recordStop. apply keeps_bind; [|intros []; keep]. destruct (negb (canRecord entry)); [keep|].
  apply keeps_bind; [by apply keeps_writeStopRecord, appendStop_ok|]. intros [acked [appended|]]; cbn [snd fst]; [|keep].
  apply keeps_vis; [done|]. intros cl. destruct (negb appended || snd cl); [keep|]. unfold recordAckLater.
  apply keeps_bind; [keep|]. intros [t|]; [|keep]. apply keeps_bind; [by apply keeps_writeStopRecord, acknowledge_ok|]. keep.
Qed.

Lemma keeps_removeCleared ns n m fuel : keeps (removeCleared g ns n m fuel).
Proof.
  unfold removeCleared. apply keeps_bind; [by apply keeps_writeStopRecord, dropCleared_ok|]. intros [[[on gone]|] [[]|]]; keep.
Qed.

Lemma keeps_clearAcked ns w id fuel : keeps (clearAcked g ns w id fuel).
Proof.
  unfold clearAcked. apply keeps_bind; [keep|]. intros listed. destruct (lookupStop listed w); [|keep].
  apply keeps_vis; [done|]. intros []; [keep|]. apply keeps_bind; [by apply keeps_writeStopRecord, dropAcked_ok|].
  intros [[[on gone]|] [[]|]]; keep.
Qed.
Hint Resolve keeps_recordAcknowledged keeps_recordStop keeps_removeCleared keeps_clearAcked : keepdb.

Lemma keeps_resendClears robot s fuel : keeps (resendClears g robot s fuel).
Proof. unfold resendClears. keep. Qed.
Hint Resolve keeps_resendClears : keepdb.

Lemma keeps_forRobots adapter f robots : (forall r, keeps (f r)) -> keeps (forRobots adapter f robots).
Proof. intros Hf. induction robots as [|r robots IH]; simpl; keep. Qed.

Lemma keeps_removeAwaitingClears identity fuel : keeps (removeAwaitingClears g identity fuel).
Proof. unfold removeAwaitingClears. keep. apply keeps_forRobots. intros r. keep. Qed.
Lemma keeps_sendAwaitingClears identity fuel : keeps (sendAwaitingClears g identity fuel).
Proof. unfold sendAwaitingClears. keep. apply keeps_forRobots. intros r. keep. Qed.
Hint Resolve keeps_removeAwaitingClears keeps_sendAwaitingClears : keepdb.

Lemma keeps_ContractReported identity v fuel : keeps (ContractReported g identity v fuel).
Proof.
  unfold ContractReported. destruct (negb _); [keep|]. apply keeps_vis; [done|]. intros _. destruct (contractClearPath v); [keep|..].
  - apply keeps_fork; [apply keeps_free|]; keep.
  - apply keeps_fork; [apply keeps_free; keep|]. apply keeps_fork; [apply keeps_free|]; keep.
Qed.

Lemma keeps_resendHeldTo identity s robot id rec fuel : keeps (resendHeldTo g identity s robot id rec fuel).
Proof.
  unfold resendHeldTo. apply keeps_vis; [done|]. intros [|p msg|p taken msg]; [keep|keep|]. apply keeps_vis; [done|]. intros t.
  apply keeps_bind; [keep|]. intros sent. apply keeps_bind.
  { destruct rec as [[r entry]|]; [|keep]. apply keeps_fork; [apply keeps_free|]; keep. }
  intros _. keep.
Qed.
Hint Resolve keeps_resendHeldTo : keepdb.

Lemma keeps_forkEach l : Forall (fun p => keeps p) l -> keeps (forkEach l).
Proof. induction 1; simpl; [keep|]. apply keeps_fork; [by apply keeps_free|done]. Qed.

Lemma keeps_resendHeldRobot identity s moved fuel robot : keeps (resendHeldRobot g identity s moved fuel robot).
Proof.
  unfold resendHeldRobot. apply keeps_bind; [keep|]. intros _. destruct (bool_decide _); [keep|]. destruct (holdsStop _); [|keep].
  destruct (uncleared (sb_Stops robot)) as [|id ids].
  - apply keeps_bind; [keep|]. intros un. apply keeps_fork; [apply keeps_free|]; keep.
  - apply keeps_forkEach, Forall_fmap, Forall_true. intros x. simpl. keep.
Qed.

Lemma keeps_RegisterStream identity s fuel : keeps (RegisterStream g identity s fuel).
Proof.
  unfold RegisterStream. destruct (negb _); [keep|]. apply keeps_vis; [done|]. intros msgs. apply keeps_bind; [keep|]. intros _.
  apply keeps_fork; [|keep]. apply keeps_free. unfold resendHeld. keep. apply keeps_forRobots. intros r. apply keeps_resendHeldRobot.
Qed.

Lemma keeps_RouteClearAck identity from w ack fuel : keeps (RouteClearAck g identity from w ack fuel).
Proof.
  unfold RouteClearAck. destruct ack as [id|]; [|keep]. destruct (_ || _); [keep|]. apply keeps_vis; [done|]. intros cur.
  destruct (negb _); [keep|]. apply keeps_fork; [apply keeps_free|]; keep.
Qed.

Lemma keeps_RouteAck identity from w ack : keeps (RouteAck g identity from w ack).
Proof.
  unfold RouteAck. destruct ack as [ack|]; [|keep]. destruct (_ || _); [keep|]. intros tid lk H Hl. simpl.
  apply striple_plain; [done|done|]. intros [[rm|]| |p].
  - apply striple_weaken with (H := H); [by intros h [? _]|]. apply keeps_fork; [apply keeps_free; keep|keep|done].
  - by apply striple_ret; intros h [? _].
  - by apply striple_ret; intros h [? _].
  - apply striple_vis with (K := fun _ => H).
    + intros w0 _ [_ Hin]. by exists tid, identity, from, w.
    + done.
    + intros a h [HH _] _. by apply Hl.
    + intros a. by apply striple_ret.
Qed.

(** ** Writing a state *)

(** What a thread must know to write [state] on [robot]. *)
Definition licence (tid : nat) (robot : StopRobot) (state : RobotEstopState) (epoch : Z) (h : list Entry) : Prop :=
  state <> RobotEstopResuming /\ (state = RobotEstopStopped -> confirmed tid robot h) /\
  (state = RobotEstopNormal ->
     cx_calls g tid = Some (CallConfirmResume (sb_Namespace robot) (sb_Name robot)) /\
     robot ∈ versions h /\ fitForRelease g tid robot h /\
     mkEntry tid (EIssue (robotEstopKey (sb_Namespace robot) (sb_Name robot)) false) epoch ∈ h).

Lemma lasting_confirmed tid b : lasting (confirmed tid b).
Proof. unfold confirmed. facts. Qed.

Lemma lasting_freshFrame tid key b : lasting (freshFrame tid key b).
Proof.
  intros en h (since & adopted & baseline & heard & H1 & H2 & H3 & H4). exists since, adopted, baseline, heard.
  split_and!; [by right| |by right|done]. destruct adopted; [by right|done].
Qed.

Lemma lasting_workSettled tid robot a : lasting (workSettled tid robot a).
Proof. unfold workSettled. facts. Qed.
Hint Resolve lasting_confirmed lasting_freshFrame lasting_workSettled : swarm.

Lemma lasting_workHeld tid b : lasting (workHeld tid b).
Proof. unfold workHeld. apply lasts_ex; intros live. apply lasts_ex; intros l. apply lasts_and; [facts|]. apply lasts_all; intros a. facts. Qed.
Hint Resolve lasting_workHeld : swarm.

Lemma lasting_fit tid b : lasting (fitForRelease g tid b).
Proof. unfold fitForRelease. facts. Qed.
Hint Resolve lasting_fit : swarm.

Lemma lasting_licence tid robot state epoch : lasting (licence tid robot state epoch).
Proof. unfold licence. facts. Qed.

(** The robot's write of [state], its release's ordering check passed. *)
Definition licensed (tid : nat) (robot : StopRobot) (state : RobotEstopState) (epoch : Z) (h : list Entry) : Prop :=
  licence tid robot state epoch h /\
  (state = RobotEstopNormal -> mkEntry tid (ESuperseded (robotEstopKey (sb_Namespace robot) (sb_Name robot)) epoch) false ∈ h).

Lemma lasting_licensed tid robot state epoch : lasting (licensed tid robot state epoch).
Proof. unfold licensed. apply lasts_and; [apply lasting_licence|facts]. Qed.
Hint Resolve lasting_licence lasting_licensed : swarm.

Lemma stateWrite_fields derive now b state :
  sb_State (stateWrite derive now b state) = state /\ sb_Stops (stateWrite derive now b state) = sb_Stops b.
Proof. unfold stateWrite. destruct (state =s RobotEstopNormal); [done|]. by destruct (_ && _). Qed.

Lemma writeGood_state tid robot stored state epoch now h :
  licensed tid robot state epoch h -> objKey stored = objKey robot -> sb_State stored <> state ->
  (state = RobotEstopNormal -> stored ∈ versions h /\ sb_State stored = RobotEstopResuming /\ noStopInForce g tid stored h) ->
  writeGood g tid stored (stateWrite (g_Derive g) now stored state) h.
Proof.
  intros ((Hr & Hs & Hn) & Ho) Hk Hne HN. destruct (stateWrite_fields (g_Derive g) now stored state) as [Hs1 Hs2].
  unfold writeGood. rewrite Hs1, Hs2. unfold objKey in Hk. injection Hk as Hns Hnm. split_and!; [done| | |done|done].
  - intros Hst _. destruct (Hs Hst) as (p & until & ack & w & ad & id & ep & es & s & seq & H1 & H2 & H3).
    exists p, until, ack, w, ad, id, ep, es, s, seq. by rewrite Hns, Hnm.
  - intros Hst _. destruct (HN Hst) as (H1 & H2 & H3). destruct (Hn Hst) as (H0 & H4 & H5 & H6). split_and!; [by rewrite Hns, Hnm|done|done|done| |].
    + exists epoch. rewrite Hns, Hnm. split; [done|by apply Ho].
    + by exists robot.
Qed.

Lemma storedRobot_spec tid lk H robot : lasting H ->
  triple' tid lk H (storedRobot g robot) lk
    (fun b h => H h /\ objKey b = objKey robot /\ (b ∈ versions h \/ b = robot)).
Proof.
  intros Hl. unfold storedRobot. eapply (striple_bind g tid lk H _ _ lk); [by apply getRobot_spec|].
  intros got. apply striple_ret. intros h [HH Hb]. destruct got as [b|]; [|naive_solver]. destruct (Hb b eq_refl) as [? Hk].
  split_and!; [done| |by left]. by rewrite Hk.
Qed.

Lemma stopInForce_spec tid lk H b : lasting H ->
  triple' tid lk H (stopInForce g b) lk (fun a h => H h /\ (a = None -> noStopInForce g tid b h)).
Proof.
  intros Hl. unfold stopInForce. destruct (HeldOnRecord (sb_Robot b)) eqn:Eh; [by apply striple_ret|].
  destruct (List.find _ (sb_Stops b)) eqn:Ef; [by apply striple_ret|].
  assert (Hst : forall st, st ∈ sb_Stops b -> is_Some (rs_ClearedAt st)).
  { intros st Hst. apply list_elem_of_In in Hst. apply (find_none _ _ Ef) in Hst. apply bool_decide_eq_false in Hst.
    destruct (rs_ClearedAt st); [eauto|done]. }
  note. destruct a; [apply striple_ret; naive_solver|]. destruct (g_Fence g) as [f|] eqn:Eg.
  - apply bind_note; [done|facts|]. intros ids. apply striple_ret. intros h [[HH Hu] Hi]. split; [done|].
    destruct ids as [|i ids]; [|done]. intros _. split_and!; done.
  - apply striple_ret. intros h [HH Hu]. split; [done|]. intros _. split_and!; [done..|]. by rewrite Eg.
Qed.

Lemma keeps_recordStoppedBy key state epoch : keeps (recordStoppedBy key state epoch).
Proof. unfold recordStoppedBy. keep. Qed.
Hint Resolve keeps_recordStoppedBy : keepdb.

(** The Robot a write leaves its caller: the same robot, and the same copy when the write failed. *)
Definition sameRobot (robot : StopRobot) (out : written) : Prop :=
  let '(robot', _, err) := out in objKey robot' = objKey robot /\ (is_Some err -> robot' = robot).

Lemma writeOnce_spec tid lk H robot state epoch :
  lasting H -> (forall h, H h -> licensed tid robot state epoch h) ->
  let key := robotEstopKey (sb_Namespace robot) (sb_Name robot) in
  triple' tid lk H (writeEstopStateOnce g key robot state epoch) lk (fun out h => H h /\ sameRobot robot out).
Proof.
  intros Hl HL key. unfold writeEstopStateOnce. eapply (striple_bind g tid lk H _ _ lk); [by apply storedRobot_spec|].
  intros stored. destruct ((state =s RobotEstopNormal) && (sb_State stored <>s RobotEstopResuming)) eqn:E1.
  { apply striple_ret. intros h [HH _]. split; [done|]. split; [done|]. by intros []. }
  apply striple_weaken with (H := fun h => H h /\ objKey stored = objKey robot /\ (state = RobotEstopNormal -> stored ∈ versions h)).
  { intros h (HH & Hk & [Hv| ->]); split_and!; try done. intros Hst. by apply (HL h HH). }
  eapply (striple_bind g tid lk _ _ _ lk) with (K := fun a h => (H h /\ objKey stored = objKey robot /\ (state = RobotEstopNormal -> stored ∈ versions h)) /\
    (a = None -> state = RobotEstopNormal -> noStopInForce g tid stored h)).
  { destruct (state =s RobotEstopNormal) eqn:En.
    - apply striple_conseq with (K := fun a h => (H h /\ objKey stored = objKey robot /\ (state = RobotEstopNormal -> stored ∈ versions h)) /\
        (a = None -> noStopInForce g tid stored h)); [intros a h [? ?]; auto|]. apply stopInForce_spec. facts.
    - apply striple_ret. intros h HH. split; [done|]. intros _ ->. by rewrite eqb_s_refl in En. }
  intros [f|].
  { apply striple_ret. intros h [(HH & _) _]. split; [done|]. split; [done|]. by intros []. }
  destruct (sb_State stored =s state) eqn:Es.
  { apply bind_keeps; [keep|unfold noStopInForce; facts|]. intros _. apply striple_ret. intros h [(HH & _) _]. split; [done|]. split; [done|]. by intros []. }
  unfold patchEstopState. str_bool. apply bind_skip; [done|unfold noStopInForce; facts|]. intros now.
  eapply (striple_bind g tid lk _ _ _ lk).
  { apply patchStatus_spec; [unfold noStopInForce; facts|]. intros h [(HH & Hk & Hv) Hn]. eapply writeGood_state; [by apply HL|done|done|].
    intros Hst. split_and!; [by apply Hv| |by apply Hn]. rewrite Hst, eqb_s_refl in E1. simpl in E1. by str_bool. }
  intros [b|e]; [|apply striple_ret; intros h [[(HH & _) _] _]; by repeat split].
  apply striple_weaken with (H := H); [by intros h [[(? & _) _] _]|]. skip. apply bind_keeps; [keep|done|]. intros _.
  apply striple_ret. intros h HH. split; [done|]. split; [done|]. by intros [].
Qed.

Lemma writeAttempts_spec tid H robot state epoch backoff more :
  lasting H -> (forall h, H h -> licensed tid robot state epoch h) ->
  let key := robotEstopKey (sb_Namespace robot) (sb_Name robot) in
  triple' tid (Some key) H (writeAttempts g key robot state epoch backoff more) (Some key) (fun out h => H h /\ sameRobot robot out).
Proof.
  intros Hl HL key. revert backoff. induction more as [|more IH]; intros backoff; cbn [writeAttempts];
    (eapply (striple_bind g tid _ H _ _ (Some key)); [by apply writeOnce_spec|]; intros [[robot' ok] [e|]]; [|by apply striple_ret]);
    (destruct (negb (isConflict e)); [by apply striple_ret|]).
  { by apply striple_ret. }
  apply bind_keeps; [keep|facts|]. intros stop. destruct stop; [by apply striple_ret|].
  apply striple_unlock; [facts|]. skip. apply striple_lock.
  eapply striple_weaken; [|apply IH]. by intros h [? _].
Qed.

(** A write of estopState that what is known licenses. *)
Lemma writeEstopState_spec tid H robot state epoch :
  lasting H -> (forall h, H h -> licence tid robot state epoch h) ->
  triple' tid None H (writeEstopState g robot state epoch) None (fun out h => H h /\ objKey (fst (fst out)) = objKey robot).
Proof.
  intros Hl HL. unfold writeEstopState. skip. apply striple_lock. set (key := robotEstopKey _ _).
  eapply (striple_bind g tid _ _ _ _ (Some key)) with (K := fun a h => H h /\ (state = RobotEstopNormal -> mkEntry tid (ESuperseded key epoch) a ∈ h)).
  { destruct (isEstopRelease state) eqn:Er.
    - apply striple_plain; [done|facts|]. intros sup. apply striple_ret. naive_solver.
    - apply striple_ret. intros h HH. split; [done|]. by intros ->. }
  intros []. { apply striple_unlock; [facts|]. apply striple_ret. by intros h [? _]. }
  apply bind_keeps; [keep|facts|]. intros stoppedBy. destruct (_ && _).
  { apply bind_keeps; [keep|facts|]. intros _. apply striple_unlock; [facts|]. apply striple_ret. by intros h [? _]. }
  eapply (striple_bind g tid _ _ _ _ (Some key)).
  { apply writeAttempts_spec; [facts|]. intros h [HH Ho]. split; [by apply HL|done]. }
  intros [[robot' ok] err]. apply striple_unlock; [facts|]. apply striple_ret. intros h [[HH _] [Hk _]]. done.
Qed.

(** A state that is no release and not Stopped needs no licence. *)
Definition unlicensed (state : RobotEstopState) : Prop :=
  state <> RobotEstopResuming /\ state <> RobotEstopStopped /\ state <> RobotEstopNormal.

Lemma setEstopState_spec tid H robot state epoch :
  lasting H -> (forall h, H h -> licence tid robot state epoch h) ->
  triple' tid None H (setEstopState g robot state epoch) None (fun out h => H h /\ objKey (fst out) = objKey robot).
Proof.
  intros Hl HL. unfold setEstopState. apply bind_keeps; [keep|done|]. intros []; cbn [negb]; [|by apply striple_ret].
  eapply (striple_bind g tid _ _ _ _ None); [by apply writeEstopState_spec|]. intros [[r ok] err]. by apply striple_ret.
Qed.

Lemma recordOutcome_spec tid H robot state epoch :
  lasting H -> (forall h, H h -> licence tid robot state epoch h) ->
  triple' tid None H (recordOutcome g robot state epoch) None (fun out h => H h /\ objKey (fst out) = objKey robot).
Proof.
  intros Hl HL. unfold recordOutcome. apply bind_keeps; [keep|done|]. intros []; cbn [negb]; [|by apply striple_ret].
  eapply (striple_bind g tid _ _ _ _ None); [by apply writeEstopState_spec|]. intros [[r ok] err]. by apply striple_ret.
Qed.

Lemma licence_other tid robot state epoch h : unlicensed state -> licence tid robot state epoch h.
Proof. by intros (? & ? & ?). Qed.

Lemma confirmed_key tid a b h : objKey a = objKey b -> confirmed tid a h -> confirmed tid b h.
Proof. unfold objKey, confirmed. intros [= -> ->]. done. Qed.

(** ** A stop *)

(** The thread's waiter [p] is the one it registered for the robot. *)
Definition waitsFor (tid : nat) (b : StopRobot) (p : nat) (h : list Entry) : Prop :=
  exists wireID adapter id epoch estop s seq,
    mkEntry tid (ERegister (sb_Namespace b) (sb_Name b) wireID adapter id epoch estop) (Some (s, p, seq)) ∈ h.

Lemma lasting_waitsFor tid b p : lasting (waitsFor tid b p).
Proof. unfold waitsFor. facts. Qed.
Hint Resolve lasting_waitsFor : swarm.

Lemma waitsFor_confirmed tid b p until ack h :
  waitsFor tid b p h -> mkEntry tid (EWait p until) (AckIn ack) ∈ h -> ea_State ack = ESTOP_STATE_STOPPED -> confirmed tid b h.
Proof.
  intros (w & ad & id & ep & es & s & seq & H1) H2 H3. exists p, until, ack, w, ad, id, ep, es, s, seq. done.
Qed.

Lemma waitsFor_key tid a b p h : objKey a = objKey b -> waitsFor tid a p h -> waitsFor tid b p h.
Proof. unfold objKey, waitsFor. intros [= -> ->]. done. Qed.

Lemma failed_unlicensed : unlicensed RobotEstopFailed.
Proof. by repeat split. Qed.
Lemma stopping_unlicensed : unlicensed RobotEstopStopping.
Proof. by repeat split. Qed.

(** Failed needs no proof. *)
Lemma recordFailed_spec {A} tid H robot epoch (f : StopRobot * option stopError -> prog resp A) K :
  lasting H -> (forall out, triple' tid None H (f out) None K) ->
  triple' tid None H (pbind (recordOutcome g robot RobotEstopFailed epoch) f) None K.
Proof.
  intros Hl Hf. eapply (striple_bind g tid None H _ _ None).
  - apply recordOutcome_spec; [done|]. intros h _. apply licence_other, failed_unlicensed.
  - intros out. eapply striple_weaken; [|apply Hf]. by intros h [? _].
Qed.

Lemma finishWith_spec tid H robot epoch res confirmed_ state :
  lasting H -> (forall h, H h -> state = RobotEstopFailed \/ state = RobotEstopStopped /\ confirmed tid robot h) ->
  triple' tid None H (finishWith g robot epoch res confirmed_ state) None (fun _ => H).
Proof.
  intros Hl HL. unfold finishWith. eapply (striple_bind g tid None H _ _ None).
  - apply recordOutcome_spec; [done|]. intros h HH. destruct (HL h HH) as [->|[-> ?]]; [apply licence_other, failed_unlicensed|].
    split_and!; done.
  - intros out. apply striple_ret. by intros h [? _].
Qed.

Lemma awaitConfirmation_spec tid H robot p epoch until res fuel :
  lasting H -> (forall h, H h -> waitsFor tid robot p h) ->
  triple' tid None H (awaitConfirmation g robot p epoch until res fuel) None (fun _ => H).
Proof.
  intros Hl HW. induction fuel as [|fuel IH]; cbn [awaitConfirmation]; [by apply striple_ret|]. note. destruct a as [ack| |].
  - destruct (ea_State ack) eqn:Ea.
    + eapply striple_weaken; [|exact IH]. by intros h [? _].
    + eapply striple_weaken; [|exact IH]. by intros h [? _].
    + eapply striple_conseq; [|apply (finishWith_spec tid (fun h => H h /\ mkEntry tid (EWait p until) (AckIn ack) ∈ h)); [facts|]].
      * by intros ? h [? _].
      * intros h [HH Hin]. right. split; [done|]. eapply waitsFor_confirmed; eauto.
    + apply striple_weaken with (H := H); [by intros h [? _]|]. apply finishWith_spec; [done|]. by left.
  - apply striple_weaken with (H := H); [by intros h [? _]|]. skip. apply finishWith_spec; [done|]. by left.
  - apply striple_ret. by intros h [? _].
Qed.

Lemma await_spec tid H robot p scope epoch t1 t2 acked onAck fuel :
  lasting H -> (forall h, H h -> waitsFor tid robot p h) -> (forall t, keeps (onAck t)) ->
  triple' tid None H (await g robot p scope epoch t1 t2 acked onAck fuel) None (fun _ => H).
Proof.
  intros Hl HW Hack. unfold await. apply bind_keeps; [keep|done|]. intros timeout. apply bind_keeps; [keep|done|]. intros deliverBy.
  note. destruct a as [first| |].
  2: { apply striple_weaken with (H := H); [by intros h [? _]|]. skip. skip. apply recordFailed_spec; [done|]. intros out. by apply striple_ret. }
  2: { apply striple_ret. by intros h [? _]. }
  apply bind_skip; [done|facts|]. intros now. apply bind_keeps; [keep|facts|]. intros _. skip.
  assert (Hrest : triple' tid None H
    (let* confirmBy :=
       match acked with
       | Some t => let* wall := trigger EWall in let* now := trigger EClock in startWindowAt p (wall + time_Sub (t + g_confirmTimeout g) now)
       | None => let* wall := trigger EWall in let* confirmBy := startWindowAt p (wall + g_confirmTimeout g) in
                 let* now := trigger EClock in let* _ := onAck now in Ret confirmBy
       end in
     let* out := setEstopState g robot RobotEstopStopping epoch in
     awaitConfirmation g (fst out) p epoch confirmBy
       (mkResult true false "" (time_Sub now t1) (g_slaThreshold g <? time_Sub now t1)) fuel) None (fun _ => H)).
  { apply bind_keeps; [destruct acked; keep; apply Hack|done|]. intros confirmBy. eapply (striple_bind g tid None H _ _ None).
    - apply setEstopState_spec; [done|]. intros h _. apply licence_other, stopping_unlicensed.
    - intros out. eapply striple_conseq; [|apply (awaitConfirmation_spec tid (fun h => H h /\ objKey (fst out) = objKey robot)); [facts|]].
      + by intros ? h [? _].
      + intros h [HH Hk]. apply (waitsFor_key tid robot); [done|by apply HW]. }
  destruct (ea_State first) eqn:Ea.
  - apply striple_weaken with (H := H); [by intros h [? _]|]. exact Hrest.
  - apply striple_weaken with (H := H); [by intros h [? _]|]. exact Hrest.
  - eapply striple_conseq; [|apply (finishWith_spec tid (fun h => H h /\ mkEntry tid (EWait p deliverBy) (AckIn first) ∈ h)); [facts|]].
    + by intros ? h [? _].
    + intros h [HH Hin]. right. split; [done|]. eapply waitsFor_confirmed; eauto.
  - apply striple_weaken with (H := H); [by intros h [? _]|]. apply finishWith_spec; [done|]. by left.
Qed.

Lemma keepsFree_recordFailed {A} robot epoch (f : StopRobot * option stopError -> prog resp A) :
  (forall out, keepsFree (f out)) -> keepsFree (pbind (recordOutcome g robot RobotEstopFailed epoch) f).
Proof. intros Hf tid H Hl. apply recordFailed_spec; [done|]. intros out. by apply Hf. Qed.

Lemma sendAndAwait_spec tid H robot s p seq estop id scope epoch t1 t2 acked after onAck fuel :
  lasting H -> (forall h, H h -> waitsFor tid robot p h) -> keeps after -> (forall t, keeps (onAck t)) ->
  triple' tid None H (sendAndAwait g robot s p seq estop id scope epoch t1 t2 acked after onAck fuel) None (fun _ => H).
Proof.
  intros Hl HW Ha Hack. unfold sendAndAwait. apply bind_keeps; [keep|done|]. intros sent. apply bind_keeps; [done|done|]. intros _.
  apply bind_keeps; [destruct sent; keep|done|]. intros []; [|by apply await_spec].
  apply recordFailed_spec; [done|]. intros out. by apply striple_ret.
Qed.

Lemma keeps_ending out p : keeps p -> keeps (ending out p).
Proof. intros Hp. unfold ending. destruct out; keep. Qed.

(** The registered stop, sent and awaited. *)
Lemma registered_spec tid H ns robot wire ad id epoch estop (k : option (SafetySender * nat * Z) -> prog resp outcome) :
  ns = sb_Namespace robot -> lasting H -> keepsFree (k None) ->
  (forall s p seq, triple' tid None (fun h => H h /\ waitsFor tid robot p h) (k (Some (s, p, seq))) None (fun _ => H)) ->
  triple' tid None H (pbind (trigger (ERegister ns (sb_Name robot) wire ad id epoch estop)) k) None (fun _ => H).
Proof.
  intros -> Hl Hn Hs. note. destruct a as [[[s p] seq]|].
  - eapply striple_weaken; [|apply Hs]. intros h [HH Hin]. split; [done|]. by exists wire, ad, id, epoch, estop, s, seq.
  - apply striple_weaken with (H := H); [by intros h [? _]|]. by apply Hn.
Qed.

Lemma keepsFree_issueStop robot reason by_ scope carrier epoch fuel : keepsFree (issueStop g robot reason by_ scope carrier epoch fuel).
Proof.
  intros tid H Hl. unfold issueStop. skip. skip. skip. skip. skip. skip.
  assert (Hrec : keeps (Fork (recordStop g (sb_Namespace robot) (sb_Name robot) a3
    (newStopEntry robot a1 scope carrier a) fuel) (Ret tt))) by (apply keeps_fork; [apply keeps_free|]; keep).
  apply registered_spec; [done|done| |].
  - intros tid' H' Hl'. apply bind_keeps; [keep|done|]. intros _.
    apply (striple_bind g tid' None H' _ _ None (fun _ => H')).
    + apply bind_keeps; [done|done|]. intros _. apply recordFailed_spec; [done|]. intros out. by apply striple_ret.
    + intros out. apply keeps_ending; [keep|done].
  - intros s p seq. apply bind_keeps; [keep|facts|]. intros _.
    apply (striple_bind g tid None _ _ _ None (fun _ => H)).
    + apply (striple_bind g tid None _ _ _ None (fun _ h => H h /\ waitsFor tid robot p h)).
      * apply sendAndAwait_spec; [facts|by intros h [_ ?]|done|]. intros t. keep.
      * intros out. apply striple_weaken with (H := H); [by intros h [? _]|]. apply keeps_ending; [keep|done].
    + intros out. apply keeps_ending; [keep|done].
Qed.

Lemma keepsFree_runOut robot st reason by_ scope epoch fuel : keepsFree (runOutRecorded g robot st reason by_ scope epoch fuel).
Proof.
  intros tid H Hl. unfold runOutRecorded. apply bind_keeps; [destruct (rs_AcknowledgedAt st); keep|done|]. intros ranOut.
  apply (striple_bind g tid None _ _ _ None (fun _ => H)).
  { destruct ranOut; [|by apply striple_ret]. eapply striple_conseq; [|apply recordOutcome_spec; [done|]].
    - by intros ? h [? _].
    - intros h _. apply licence_other, failed_unlicensed. }
  intros [robot' [e|]]; [by apply striple_ret|].
  apply registered_spec; [done|done| |].
  - intros tid' H' Hl'. apply bind_keeps; [keep|done|]. intros _. apply recordFailed_spec; [done|]. intros out. by apply striple_ret.
  - intros s p seq. apply bind_keeps; [keep|facts|]. intros _. skip. skip.
    apply (striple_bind g tid None _ _ _ None (fun _ h => H h /\ waitsFor tid robot' p h)).
    + apply sendAndAwait_spec; [facts|by intros h [_ ?]|keep|]. intros t. apply keeps_fork; [apply keeps_free|]; keep.
    + intros out. apply striple_weaken with (H := H); [by intros h [? _]|]. apply keeps_ending; [keep|done].
Qed.

Lemma keepsFree_TriggerEstop ns n reason by_ scope carrier fuel : keepsFree (TriggerEstop g ns n reason by_ scope carrier fuel).
Proof.
  unfold TriggerEstop. apply keepsFree_bind; [apply keeps_free; keep|]. intros epoch. apply keepsFree_bind; [apply keeps_free; keep|].
  intros [robot|e]; [|apply keeps_free; keep]. apply keepsFree_bind; [apply keeps_free; keep|]. intros [st|].
  - apply keepsFree_runOut.
  - apply keepsFree_issueStop.
Qed.

(** ** The clear *)

Lemma lasting_led tid : lasting (ledBefore g tid).
Proof. unfold ledBefore. facts. Qed.
Lemma lasting_inflightEnded tid key b ends : lasting (inflightEnded tid key b ends).
Proof. unfold inflightEnded. apply lasts_ex; intros l. apply lasts_and; [facts|]. apply lasts_all; intros r. apply lasts_all; intros entry. facts. Qed.
Hint Resolve lasting_led lasting_inflightEnded : swarm.

Lemma leads_spec tid lk H : lasting H ->
  triple' tid lk H (leads g) lk (fun t h => H h /\ (snd t = true -> ledBefore g tid h)).
Proof.
  intros Hl. unfold leads. destruct (g_Term g) eqn:Et.
  - apply striple_plain; [done|done|]. intros [t b]. apply striple_ret. intros h [HH Hin]. split; [done|]. simpl. intros -> _. eauto.
  - apply striple_ret. intros h HH. split; [done|]. intros _. unfold ledBefore. by rewrite Et.
Qed.

(** The unrecorded stops the loop has passed. *)
Definition passed (tid : nat) (recorded : list RobotStop) (ends : Ends) (l : list (nat * RobotStop)) (h : list Entry) : Prop :=
  forall r entry, (r, entry) ∈ l ->
    hasStop (rs_ID entry) recorded = true \/ mkEntry tid (ESettled r) true ∈ h \/ stopEnded entry ends = true.

Lemma lasting_passed tid recorded ends l : lasting (passed tid recorded ends l).
Proof. unfold passed. apply lasts_all; intros r. apply lasts_all; intros entry. facts. Qed.
Hint Resolve lasting_passed : swarm.

Lemma endUnrecorded_spec tid lk ends recorded l : forall H, lasting H ->
  triple' tid lk H (endUnrecorded ends recorded l) lk (fun a h => H h /\ (is_Some a -> passed tid recorded ends l h)).
Proof.
  induction l as [|[r entry] l IH]; intros H Hl; cbn [endUnrecorded].
  { apply striple_ret. intros h HH. split; [done|]. intros _ r entry Hin. by apply not_elem_of_nil in Hin. }
  set (here := fun h : list Entry => hasStop (rs_ID entry) recorded = true \/ mkEntry tid (ESettled r) true ∈ h \/ stopEnded entry ends = true).
  assert (Hhere : lasting here) by (unfold here; facts).
  assert (Hcons : forall h, here h -> passed tid recorded ends l h -> passed tid recorded ends ((r, entry) :: l) h).
  { intros h Hh Hp r' entry' [Heq|Hin]%elem_of_cons; [by simplify_eq|by apply Hp]. }
  apply (striple_bind g tid lk H _ _ lk (fun settled h => H h /\ (settled = true -> here h))).
  { destruct (hasStop (rs_ID entry) recorded) eqn:Eh.
    - apply striple_ret. intros h HH. split; [done|]. intros _. by left.
    - apply striple_plain; [done|done|]. intros b. apply striple_ret. intros h [HH Hin]. split; [done|]. intros ->. right. by left. }
  intros [].
  - eapply striple_weaken with (H := fun h => H h /\ here h); [naive_solver|].
    eapply striple_conseq; [|apply IH; facts]. intros a h [[HH Hh] Hp]. split; [done|]. intros Ha. auto.
  - destruct (stopEnded entry ends) eqn:Es; cbn [negb].
    + apply (striple_bind g tid lk _ _ _ lk (fun a h => H h /\ (is_Some a -> passed tid recorded ends l h))).
      * apply striple_weaken with (H := H); [by intros h [? _]|]. by apply IH.
      * intros rest. apply striple_ret. intros h [HH Hp]. split; [done|]. intros [x Hx]. apply fmap_Some in Hx as (y & -> & _).
        apply Hcons; [right; by right|]. apply Hp. eauto.
    + apply striple_ret. intros h [HH _]. split; [done|]. by intros [].
Qed.

Lemma clearable_state b ends : clearable b ends = true -> sb_State b <> RobotEstopResuming.
Proof.
  unfold clearable, standing. intros Hc Hs. rewrite Hs in Hc. simpl in Hc. done.
Qed.

Lemma writeGood_clear tid base new h : clearGood g tid base new h -> writeGood g tid base new h.
Proof.
  intros Hc. pose proof Hc as (by_ & ends & epoch & legacy & at_ & stops & ended & _ & Hv & Hcl & _ & -> & _).
  apply clearable_state in Hcl. split_and!; try done; by intros.
Qed.

Lemma lasting_answered tid key : lasting (clearAnswered tid key).
Proof. unfold clearAnswered. facts. Qed.
Hint Resolve lasting_answered : swarm.

Lemma clearOnce_spec tid H ns n by_ ends epoch : cx_calls g tid = Some (CallClearEstop ns n by_ ends) ->
  lasting H -> (forall h, H h -> mkEntry tid (EIssueClear (robotEstopKey ns n)) epoch ∈ h /\ ledBefore g tid h) ->
  triple' tid None H (clearOnce g ns n ends epoch) None (fun out h => H h /\ (cz_written out.1 = true -> clearAnswered tid (robotEstopKey ns n) h)).
Proof.
  intros Hcall Hl HH. unfold clearOnce. eapply (striple_bind g tid None H _ _ None); [by apply getRobot_spec|].
  intros [stored|e]; [|apply striple_ret; by intros h [? _]].
  apply striple_weaken with (H := fun h => H h /\ stored ∈ versions h /\ objKey stored = (ns, n)); [naive_solver|].
  apply striple_lock. note. set (key := robotEstopKey ns n).
  assert (Hout : forall (K : list Entry -> Prop) (res : clearResult * option apiError), lasting K ->
    (forall h, K h -> H h /\ (cz_written res.1 = true -> clearAnswered tid key h)) ->
    triple' tid (Some key) K (Unlock key (Ret res)) None (fun out h => H h /\ (cz_written out.1 = true -> clearAnswered tid key h))).
  { intros K res HlK HK. apply striple_unlock; [done|]. by apply striple_ret. }
  destruct a; cbn [orb]; [apply Hout; [facts|naive_solver]|].
  destruct (clearable stored ends) eqn:Ec; cbn [negb]; [|apply Hout; [facts|naive_solver]].
  skip. skip.
  destruct (clearStops ends (isRemove a) (toSecond a0) (sb_Stops stored)) as [[stops ended]|] eqn:Est; [|apply Hout; [facts|naive_solver]].
  note. eapply (striple_bind g tid _ _ _ _ (Some key)); [apply endUnrecorded_spec; facts|].
  intros [unrec|]; [|apply Hout; [facts|naive_solver]].
  set (base := stored) in *. set (new := setStatus base [] RobotEstopResuming stops (sb_EstopBaseline base)).
  set (K := fun h => (H h /\ clearGood g tid base new h) /\ robotEstopKey (sb_Namespace base) (sb_Name base) = key).
  apply striple_weaken with (H := K).
  { intros h [[[[HH0 [Hv Hk]] Hsup] Hin] Hp]. unfold objKey in Hk. injection Hk as Hns Hnm. split; [|by rewrite Hns, Hnm]. split; [done|].
    exists by_, ends, epoch, (isRemove a), (toSecond a0), stops, ended. unfold clearGood. rewrite Hns, Hnm. destruct (HH h HH0) as [Hi Hled].
    split_and!; try done. exists a1. split; [done|]. apply Hp. eauto. }
  assert (HlK : lasting K).
  { unfold K, clearGood. facts. }
  unfold writeClear. fold new.
  apply (striple_bind g tid _ _ _ _ (Some key) (fun out h => H h /\ (cz_written out.1 = true -> clearAnswered tid key h)));
    [|intros out; apply Hout; [apply lasts_and; [done|apply lasts_impl, lasting_answered]|done]].
  apply bind_skip; [done|done|]. intros _. eapply (striple_bind g tid _ _ _ _ (Some key)).
  { apply patchStatus_spec; [done|]. intros h [[_ Hc] _]. by apply writeGood_clear. }
  intros out. apply striple_weaken with (H := fun h => H h /\ (is_ok out = true -> clearAnswered tid key h)).
  { intros h [[[? _] Hk] Hw]. split; [done|]. destruct out as [b|]; [|done]. intros _. exists base, new, b. by split_and!; [apply Hw|..]. }
  assert (HlW : lasting (fun h => H h /\ (is_ok out = true -> clearAnswered tid key h))) by (apply lasts_and; [done|apply lasts_impl, lasting_answered]).
  skip. destruct out as [b|e]; [|apply striple_ret; by intros h [? _]].
  skip. apply bind_keeps; [destruct (isRemove a); keep|done|]. intros _. apply bind_keeps; [destruct (g_Fence g); keep|done|]. intros _.
  apply striple_ret. intros h [? Hw]. split; [done|]. intros _. by apply Hw.
Qed.

Lemma keeps_holdOne robot ns n more : keeps (holdOne g robot ns n more).
Proof. induction more as [|more IH]; cbn [holdOne]; keep. Qed.
Hint Resolve keeps_holdOne : keepdb.
Lemma keeps_holdAll robot l : keeps (holdAll g robot l).
Proof. induction l as [|a l IH]; cbn [holdAll]; keep. Qed.
Hint Resolve keeps_holdAll : keepdb.
Lemma keeps_holdClearedWork robot : keeps (holdClearedWork g robot).
Proof. unfold holdClearedWork. keep. Qed.
Hint Resolve keeps_holdClearedWork : keepdb.

Lemma clearAttempts_spec tid K ns n by_ ends epoch : cx_calls g tid = Some (CallClearEstop ns n by_ ends) ->
  lasting K -> (forall h, K h -> mkEntry tid (EIssueClear (robotEstopKey ns n)) epoch ∈ h /\ ledBefore g tid h) ->
  forall more attempt, triple' tid None K (clearAttempts g ns n ends epoch attempt more) None
    (fun out h => K h /\ (cz_written out.1 = true -> clearAnswered tid (robotEstopKey ns n) h)).
Proof.
  intros Hcall Hl HK. induction more as [|more IH]; intros attempt; cbn [clearAttempts];
    (eapply (striple_bind g tid None K _ _ None); [by apply (clearOnce_spec tid K ns n by_)|]); intros [res [[]|]];
    cbn [snd]; try (by apply striple_ret). apply striple_weaken with (H := K); [by intros h [? _]|]. skip. apply IH.
Qed.

Lemma ClearEstop_spec tid H ns n by_ ends : cx_calls g tid = Some (CallClearEstop ns n by_ ends) -> lasting H ->
  triple' tid None H (ClearEstop g ns n by_ ends) None (fun _ => H).
Proof.
  intros Hcall Hl. unfold ClearEstop, issueClear. set (key := robotEstopKey ns n).
  apply (striple_bind g tid None H _ _ None (fun epoch h => H h /\ mkEntry tid (EIssueClear key) epoch ∈ h)).
  { skip. apply striple_plain; [done|done|]. intros n0. by apply striple_ret. }
  intros epoch. eapply (striple_bind g tid None _ _ _ None); [apply leads_spec; facts|]. intros [t leading]. cbn [snd].
  destruct leading; cbn [negb]; [|apply striple_ret; by intros h [[? _] _]].
  set (K := fun h => (H h /\ mkEntry tid (EIssueClear key) epoch ∈ h) /\ ledBefore g tid h).
  apply striple_weaken with (H := K); [intros h [? Hd]; split; [done|by apply Hd]|]. assert (HlK : lasting K) by (unfold K; facts).
  skip. eapply (striple_bind g tid None K _ _ None); [apply (clearAttempts_spec tid K ns n by_); [done..|]; by intros h [[_ ?] ?]|].
  intros [res err]. apply striple_weaken with (H := fun h => H h /\ (cz_written res = true -> clearAnswered tid key h)); [by intros h [[[? _] _] ?]|].
  destruct err as [e|]; [apply striple_ret; by intros h [? _]|]. destruct (cz_robot res) as [robot|]; [|apply striple_ret; by intros h [? _]].
  destruct (cz_written res); cbn [negb]; [|apply striple_ret; by intros h [? _]]. note.
  apply striple_vis with (K := fun _ => H).
  - intros w _ [[_ Hw] Hc]. split; [by apply Hw|done].
  - done.
  - intros u h [[HH _] _] _. by apply Hl.
  - intros u. assert (Hk : keeps (let* _ := holdClearedWork g robot in
      let* _ := match cz_path res with clearSend => sendClears g robot (cz_ended res) by_ (cz_clearedAt res) | _ => Ret tt end in
      Ret (RobotEstopResuming, None : option stopError))) by keep. by apply Hk.
Qed.

(** ** The release *)

Lemma holdOne_spec tid lk robot ns n more : forall H, lasting H ->
  triple' tid lk H (holdOne g robot ns n more) lk (fun err h => H h /\
    (err = None -> exists live, mkEntry tid (EGetAction live ns n) (Err NotFound) ∈ h \/
       exists a, mkEntry tid (EGetAction live ns n) (Ok a) ∈ h /\
         (toHold robot a = false \/ isHeld a = true \/ mkEntry tid (EPatchAction (heldAction a)) None ∈ h))).
Proof.
  induction more as [|more IH]; intros H Hl; cbn [holdOne]; note; (destruct a as [a|[]];
    [|apply striple_ret; intros h [HH Hin]; (split; [done|]); try done; intros _; exists (g_APIReader g); by left|apply striple_ret; naive_solver..]);
    (destruct (negb (toHold robot a) || isHeld a) eqn:Ea;
      [apply striple_ret; intros h [HH Hin]; (split; [done|]); intros _; exists (g_APIReader g); right; exists a; (split; [done|]);
       apply orb_true_iff in Ea as [Ea|Ea]; [str_bool; by left|right; by left]|]).
  - note. destruct a0 as [[]|]; try (apply striple_ret; naive_solver). apply bind_keeps; [keep|facts|]. intros _. apply striple_ret.
    intros h [[HH Hg] Hp]. split; [done|]. intros _. exists (g_APIReader g). right. exists a. split; [done|]. right. by right.
  - note. destruct a0 as [[]|]; try (apply striple_ret; naive_solver).
    + apply striple_weaken with (H := H); [naive_solver|]. by apply IH.
    + apply bind_keeps; [keep|facts|]. intros _. apply striple_ret.
      intros h [[HH Hg] Hp]. split; [done|]. intros _. exists (g_APIReader g). right. exists a. split; [done|]. right. by right.
Qed.

Lemma holdAll_spec tid lk robot l : forall H, lasting H ->
  triple' tid lk H (holdAll g robot l) lk (fun ok h => H h /\
    (ok = true -> forall a, a ∈ l -> toHold robot a = true -> workSettled tid robot a h)).
Proof.
  induction l as [|a l IH]; intros H Hl; cbn [holdAll].
  { apply striple_ret. intros h HH. split; [done|]. intros _ a Hin. by apply not_elem_of_nil in Hin. }
  apply (striple_bind g tid lk H _ _ lk (fun err h => H h /\ (err = None -> toHold robot a = true -> workSettled tid robot a h))).
  { destruct (toHold robot a) eqn:Et; [|by apply striple_ret].
    eapply striple_conseq; [|by apply holdOne_spec]. intros err h [HH Hs]. split; [done|]. intros He _. by apply Hs. }
  intros err. eapply (striple_bind g tid lk _ _ _ lk); [apply IH; facts|]. intros rest. apply striple_ret.
  intros h [[HH Ha] Hr]. split; [done|]. destruct err; [done|]. intros -> b [->|Hb]%elem_of_cons; auto.
Qed.

Lemma holdClearedWork_spec tid lk H robot : lasting H ->
  triple' tid lk H (holdClearedWork g robot) lk (fun ok h => H h /\ (ok = true -> workHeld tid robot h)).
Proof.
  intros Hl. unfold holdClearedWork. note. destruct a as [l|]; [|apply striple_ret; naive_solver].
  eapply striple_conseq; [|apply holdAll_spec; facts]. intros ok h [[HH Hin] Hs]. split; [done|]. intros ->.
  exists (g_APIReader g), l. split; [done|]. by apply Hs.
Qed.

(** What a confirmation found no reason to refuse, on what it was told. *)
Definition checkedOn (tid : nat) (robot : StopRobot) (h : list Entry) : Prop :=
  exists derive reported, g_Derive g = Some derive /\
    mkEntry tid (EUnwritten (sb_Namespace robot) (telemetryID robot)) false ∈ h /\
    mkEntry tid (EReportedPhase (sb_Namespace robot) (telemetryID robot)) reported ∈ h /\
    resumeRefusal robot (derive robot) (default "" reported) = None.

Lemma lasting_checkedOn tid robot : lasting (checkedOn tid robot).
Proof. unfold checkedOn. facts. Qed.
Hint Resolve lasting_checkedOn : swarm.

Lemma confirmChecks_spec tid lk H key robot : lasting H ->
  triple' tid lk H (confirmChecks g key robot) lk (fun out h => H h /\
    (is_ok out = true -> checkedOn tid robot h /\ freshFrame tid key robot h)).
Proof.
  intros Hl. unfold confirmChecks. skip. note. destruct a0 as [[since armed] adopted]. destruct armed; cbn [negb].
  2: { apply striple_weaken with (H := H); [by intros h [? _]|]. skip. skip. by apply striple_ret. }
  apply (striple_bind g tid lk _ _ _ lk (fun base h => (H h /\ mkEntry tid (EResumeBaseline key) (since, true, adopted) ∈ h) /\
    forall b, base = Some b -> if adopted : bool then mkEntry tid (EFirstFrame (sb_Namespace robot) (telemetryID robot)) (Some b) ∈ h else b = since)).
  { destruct adopted; [|apply striple_ret; naive_solver]. unfold firstFrame. destruct (hasTelemetry g robot); [|apply striple_ret; naive_solver].
    apply striple_plain; [done|facts|]. intros f. apply striple_ret. intros h [HH Hin]. split; [done|]. by intros b ->. }
  intros [baseline|]; [|apply striple_ret; naive_solver].
  set (K := fun h => (H h /\ mkEntry tid (EResumeBaseline key) (since, true, adopted) ∈ h) /\
    if adopted : bool then mkEntry tid (EFirstFrame (sb_Namespace robot) (telemetryID robot)) (Some baseline) ∈ h else baseline = since).
  apply striple_weaken with (H := K). { intros h [? Hb]. split; [done|]. by apply Hb. }
  assert (HlK : lasting K) by (unfold K; destruct adopted; facts).
  unfold lastFrame, lastReportUnwritten, reportedPhase. destruct (hasTelemetry g robot); [|apply striple_ret; intros h [[? _] _]; done].
  apply bind_note; [done|done|]. intros heard. destruct heard as [t|]; cbn [negb]; [|apply striple_ret; intros h [[[? _] _] _]; done].
  destruct (baseline <? t) eqn:Et; cbn [negb]; [|apply striple_ret; intros h [[[? _] _] _]; done].
  apply striple_weaken with (H := fun h => H h /\ freshFrame tid key robot h).
  { intros h [[[HH Hb] Hf] Ht]. z_bool. split; [done|]. exists since, adopted, baseline, t. split_and!; auto. }
  note. destruct a0; [apply striple_ret; naive_solver|].
  destruct (g_Derive g) as [derive|] eqn:Ed; [|apply striple_ret; naive_solver].
  note. cbn [pbind]. destruct (resumeRefusal robot (derive robot) (default "" a0)) eqn:Er; apply striple_ret; [naive_solver|].
  intros h [[[HH Hf] Hu] Hp]. split; [done|]. intros _. split; [|done]. by exists derive, a0.
Qed.

Lemma ConfirmResume_spec tid H ns n : cx_calls g tid = Some (CallConfirmResume ns n) -> lasting H ->
  triple' tid None H (ConfirmResume g ns n) None (fun _ => H).
Proof.
  intros Hcall Hl. unfold ConfirmResume. set (key := robotEstopKey ns n). apply bind_keeps; [keep|done|]. intros [out|]; [by apply striple_ret|].
  skip. destruct a; cbn [negb]; [|by apply keeps_rearm].
  apply (striple_bind g tid None H _ _ None (fun epoch h => H h /\ mkEntry tid (EIssue key false) epoch ∈ h)).
  { unfold issueEpoch. skip. apply striple_plain; [done|done|]. intros n0. by apply striple_ret. }
  intros epoch. eapply (striple_bind g tid None _ _ _ None); [apply getRobot_spec; facts|].
  intros [robot|e]; [|apply striple_ret; naive_solver].
  apply striple_weaken with (H := fun h => (H h /\ mkEntry tid (EIssue key false) epoch ∈ h) /\ robot ∈ versions h /\ objKey robot = (ns, n)).
  { intros h [? Hb]. split; [done|]. by apply Hb. }
  destruct (sb_State robot =s RobotEstopResuming) eqn:Es; cbn [negb]; [|apply striple_ret; naive_solver]. str_bool.
  eapply (striple_bind g tid None _ _ _ None); [apply confirmChecks_spec; facts|].
  intros [[]|out]; [|apply striple_ret; naive_solver]. unfold release.
  set (F := fun h => checkedOn tid robot h /\ freshFrame tid key robot h).
  assert (HlF : lasting F) by (unfold F; facts).
  apply striple_weaken with (H := fun h => ((H h /\ mkEntry tid (EIssue key false) epoch ∈ h) /\ robot ∈ versions h /\ objKey robot = (ns, n)) /\ F h).
  { intros h [? Hf]. split; [done|]. by apply Hf. }
  eapply (striple_bind g tid None _ _ _ None); [apply holdClearedWork_spec; facts|].
  intros []; cbn [negb]; [|apply striple_ret; naive_solver].
  eapply (striple_bind g tid None _ _ _ None).
  { apply (writeEstopState_spec tid (fun h => ((((H h /\ mkEntry tid (EIssue key false) epoch ∈ h) /\ robot ∈ versions h /\ objKey robot = (ns, n)) /\ F h) /\
      (true = true -> workHeld tid robot h)))); [facts|].
    intros h [[[[HH Hi] [Hv Hk]] [(derive & reported & Hd & Hu & Hp & Hr) Hf]] Hw]. unfold objKey in Hk. injection Hk as Hns Hnm.
    split_and!; [done|done|]. intros _. rewrite Hns, Hnm. split_and!; [done|done| |done].
    exists derive, reported. rewrite Hns, Hnm in *. split_and!; try done. by apply Hw. }
  intros [[robot' ok] [e|]]; [apply striple_ret; naive_solver|]. destruct ok; cbn [negb]; [|apply striple_ret; naive_solver].
  apply striple_weaken with (H := H); [naive_solver|]. skip. skip. apply bind_keeps; [destruct (g_Fence g); keep|done|]. intros _. by apply striple_ret.
Qed.

(** ** Every schedule *)

Lemma progOf_spec c tid H : cx_calls g tid = Some c -> lasting H -> triple' tid None H (progOf g c) None (fun _ => H).
Proof.
  intros Hcall Hl.
  assert (Hd : forall {A} (p : prog resp A), triple' tid None H p None (fun _ => H) -> triple' tid None H (discard p) None (fun _ => H)).
  { intros A p Hp. apply (striple_bind g tid None H p _ None (fun _ => H)); [done|]. intros a. by apply striple_ret. }
  assert (Hk : forall {A} (p : prog resp A), keeps p -> triple' tid None H p None (fun _ => H)) by (intros A p Hp; by apply Hp).
  destruct c; simpl progOf; try (apply Hk; first [apply keeps_RegisterStream|apply keeps_RouteClearAck|apply keeps_ContractReported]).
  - apply Hd. by apply keepsFree_TriggerEstop.
  - apply Hd. by apply ClearEstop_spec.
  - apply Hd. by apply ConfirmResume_spec.
  - apply Hk. unfold deregisterStream. keep.
  - apply Hd, Hk, keeps_RouteAck.
  - apply Hd, Hk. keep.
  - apply Hd, Hk. keep.
  - apply Hk. keep.
Qed.

End Ops.

(** ** Threads and their calls *)

Section Schedules.
Context (g : Config).

Lemma spawnStep_sys l : forall s m, (fold_left (spawnStep g) l (s, m)).1 = fold_left (sysStep g) l s.
Proof. induction l as [|i l IH]; intros s m; [done|]. apply IH. Qed.

Lemma runThread_next tid x (s : Sys resp) : (sy_next s <= sy_next (runThread perform tid x s))%nat.
Proof.
  unfold runThread. destruct (sy_threads s !! tid) as [[a|e k|key k|key k|p k]|]; simpl; try lia.
  - destruct (perform tid e x (sy_world s)) as [[w a]|]; simpl; lia.
  - destruct (sy_locks s !! key); simpl; lia.
Qed.

(** A thread keeps the call it was started for. *)
Lemma spawnStep_kept l : forall s m tid, (tid < sy_next s)%nat -> (fold_left (spawnStep g) l (s, m)).2 !! tid = m !! tid.
Proof.
  induction l as [|i l IH]; intros s m tid Ht; [done|]. cbn [fold_left]. unfold spawnStep at 2. cbn [fst snd]. destruct i as [c|t x].
  - rewrite IH by (simpl; lia). by rewrite lookup_insert_ne by lia.
  - rewrite IH; [done|]. pose proof (runThread_next t x s). simpl. lia.
Qed.

(** The logic of a schedule. *)
Definition ctxOf (l : list sched) : Ctx := mkCtx g (callOf g l).

Lemma steps_sysOk (cx : Ctx) l : cx_cfg cx = g -> forall s m, (forall tid, cx_calls cx tid = (fold_left (spawnStep g) l (s, m)).2 !! tid) ->
  sysOk resp perform (pre cx) rely (inv cx) s -> sysOk resp perform (pre cx) rely (inv cx) (fold_left (sysStep g) l s).
Proof.
  intros Hg. induction l as [|i l IH]; intros s m Hc Hs; [done|]. cbn [fold_left]. eapply IH; [exact Hc|]. destruct i as [c|tid x]; simpl.
  - apply sysOk_addNext; [done|]. rewrite <- Hg. eapply triple_weaken; [|apply (progOf_spec cx c (sy_next s) (fun _ => True)); [|apply lasts_const]]; [done|].
    rewrite Hc. cbn [fold_left]. unfold spawnStep at 2. cbn [fst snd]. rewrite spawnStep_kept by (simpl; lia). by rewrite lookup_insert_eq.
  - apply sysOk_runThread; [apply stop_rely_refl|apply stop_rely_trans|apply stop_rely_lock|apply stop_perform_rely|apply stop_perform_inv|done].
Qed.

Lemma schedule_sysOk l : sysOk resp perform (pre (ctxOf l)) rely (inv (ctxOf l)) (schedule g l).
Proof.
  apply (steps_sysOk (ctxOf l) l eq_refl start ∅); [done|]. split; simpl; [apply inv_start|done|done|]. intros key tid. by rewrite lookup_empty.
Qed.

Lemma schedule_inv l : inv (ctxOf l) (sy_world (schedule g l)).
Proof. apply ok_inv with (1 := schedule_sysOk l). Qed.

Lemma history_ok l : histOk (ctxOf l) (history g l).
Proof. apply inv_hist, schedule_inv. Qed.

Lemma stop_histOk_at cx t e a h1 h2 : histOk cx (h1 ++ mkEntry t e a :: h2) -> good cx t e a h2 /\ histOk cx h2.
Proof. induction h1 as [|[t' e' a'] h1 IH]; simpl; [done|]. intros [_ ?]. auto. Qed.

(** In a history of the dispatcher, revisions are still unique at every moment. *)
Lemma versions_app h1 h2 : versions (h1 ++ h2) = versions h1 ++ versions h2.
Proof. induction h1 as [|en h1 IH]; [done|]. simpl. rewrite !versions_cons, IH. by destruct (storedBy en). Qed.

Lemma history_unique l h1 h2 : history g l = h1 ++ h2 -> NoDup (sb_rv <$> versions h2).
Proof.
  intros Hh. pose proof (inv_unique _ _ (schedule_inv l)) as Hu. unfold history in Hh. rewrite Hh, versions_app, fmap_app in Hu.
  by apply NoDup_app in Hu as (_ & _ & ?).
Qed.

(** A landed patch replaced the version it was made from, when that was one. *)
Lemma landed_over l t base new a h1 h2 b :
  history g l = h1 ++ mkEntry t (EPatch base new) a :: h2 -> pa_landed a = Some b ->
  writeGood (ctxOf l) t base new h2 /\ exists cur rv, storedAfter (objKey base) h2 = Some cur /\ b = applyPatch rv base new cur /\
    (base ∈ versions h2 -> cur = base).
Proof.
  intros Hh Hb. pose proof (history_ok l) as Ho. rewrite Hh in Ho. apply stop_histOk_at in Ho as [(Hw & _ & Hl) _].
  destruct (Hl b Hb) as (cur & rv & Hc & Hrv & ->). split; [done|]. exists cur, rv. split_and!; [done|done|]. intros Hv.
  eapply version_unique; [|apply (storedAfter_key (objKey base)), Hc|exact Hv|done].
  eapply (history_unique l (h1 ++ [_])). rewrite <- app_assoc. exact Hh.
Qed.

End Schedules.
