(* ===== verification/SafetyTheorems.v ===== *)
(** What the stop dispatcher promises, in every interleaving of any calls with any other writers: which
    writes of Robot.status it makes, in what order it sends and waits, and what it remembers. *)

From S2P Require Import Prelude.
From S2P Require Import Types.
From S2P Require Import Contract.
From S2P Require Import RobotId.
From S2P Require Import Conc.
From S2P Require Import EstopScope.
From S2P Require Import Command.
From S2P Require Import SafetyData.
From S2P Require Import Safety.
From S2P Require Import SafetyInv.
From S2P Require Import SafetyProps.

(** ** Reading a history *)

(** A waiter is opened once. *)
Lemma opened_once g h p a b : histOk g h -> opened p a h -> opened p b h -> a = b.
Proof.
  induction h as [|[t e x] h IH]; intros Ho Ha Hb; [destruct Ha as (en & Hen & _); by apply not_elem_of_nil in Hen|].
  destruct Ho as [Hg Ho]. assert (Hfresh : forall who, opens (mkEntry t e x) = Some (p, who) -> forall who', ~ opened p who' h).
  { intros who Hw who'. destruct e; simpl in Hw; try done.
    - destruct x as [[[s q] seq]|]; simplify_eq. by apply (Hg s p seq).
    - destruct x as [|q m|q tk m]; simplify_eq. by apply (Hg p tk m). }
  apply opened_cons_inv in Ha as [Ha|Ha]; apply opened_cons_inv in Hb as [Hb|Hb].
  - rewrite Ha in Hb. by simplify_eq.
  - by destruct (Hfresh _ Ha b).
  - by destruct (Hfresh _ Hb a).
  - by apply IH.
Qed.

Lemma stop_elem_of_split (en : Entry) h : en ∈ h -> exists h1 h2, h = h1 ++ en :: h2.
Proof. apply list_elem_of_split. Qed.

Lemma issuedAfter_length key h : (issuedAfter key h <= length h)%nat.
Proof. induction h as [|en h IH]; simpl; [lia|]. destruct (issues key en); lia. Qed.

(** What an entry issues, by the history before it. *)
Lemma issues_good g key t e a h n stop :
  good g t e a h -> issues key (mkEntry t e a) = Some (n, stop) -> n = uint64 (Z.of_nat (issuedAfter key h) + 1).
Proof. destruct e; try done; simpl; intros Hg; destruct (String.eqb_spec key0 key) as [->|]; intros; by simplify_eq. Qed.

(** Epochs grow, while there are fewer than 2^64 of them: an issued one is at most their count. *)
Lemma lastStop_le g key h : histOk g h -> Z.of_nat (length h) < 2 ^ 64 -> lastStopAfter key h <= Z.of_nat (issuedAfter key h).
Proof.
  induction h as [|[t e a] h IH]; intros Ho Hn; [done|]. destruct Ho as [Hg Ho]. cbn [length] in Hn. specialize (IH Ho ltac:(lia)).
  cbn [lastStopAfter issuedAfter]. destruct (issues key (mkEntry t e a)) as [[n []]|] eqn:E; [|lia..].
  rewrite (issues_good g key t e a h n true Hg E). pose proof (issuedAfter_length key h). unfold uint64. rewrite Z.mod_small by lia. lia.
Qed.

(** The last trigger's epoch is the largest. *)
Lemma trigger_le_last g key h t n : histOk g h -> Z.of_nat (length h) < 2 ^ 64 ->
  mkEntry t (EIssue key true) n ∈ h -> n <= lastStopAfter key h.
Proof.
  induction h as [|[t' e a] h IH]; intros Ho Hn; [intros Hin; by apply not_elem_of_nil in Hin|]. destruct Ho as [Hg Ho]. cbn [length] in Hn.
  intros Hin. assert (Hlast : lastStopAfter key h <= lastStopAfter key (mkEntry t' e a :: h)).
  { cbn [lastStopAfter]. destruct (issues key (mkEntry t' e a)) as [[m []]|] eqn:E; [|lia..].
    rewrite (issues_good g key t' e a h m true Hg E). pose proof (lastStop_le g key h Ho ltac:(lia)). pose proof (issuedAfter_length key h).
    unfold uint64. rewrite Z.mod_small by lia. lia. }
  apply elem_of_cons in Hin as [Heq|Hin]; [|specialize (IH Ho ltac:(lia) Hin); lia].
  rewrite <- Heq. cbn [lastStopAfter]. simpl. rewrite eqb_s_refl. lia.
Qed.

(** ** What a landed patch leaves *)

Lemma applyPatch_state rv base new cur : sb_State (applyPatch rv base new cur) = merged (sb_State base) (sb_State new) (sb_State cur).
Proof. done. Qed.

Lemma applyPatch_stops rv base new cur :
  sb_Stops (applyPatch rv base new cur) = merged (encodeStop <$> sb_Stops base) (encodeStop <$> sb_Stops new) (sb_Stops cur).
Proof. done. Qed.
Lemma applyPatch_held rv base new cur :
  sb_HeldBy (applyPatch rv base new cur) = merged (encodeHold <$> sb_HeldBy base) (encodeHold <$> sb_HeldBy new) (sb_HeldBy cur).
Proof. done. Qed.

(** A patch changes the state only to the one it writes. *)
Lemma applyPatch_moves rv base new cur state :
  sb_State (applyPatch rv base new cur) = state -> sb_State cur <> state -> sb_State new = state /\ sb_State base <> state.
Proof. rewrite applyPatch_state. unfold merged. case_bool_decide; [done|]. intros <- _. done. Qed.

(** ** A robot is Stopped only when its adapter said so *)

(** Waiter [p] of thread [t] registered stop [id] for the robot, was given an ack that says STOPPED for it,
    and that ack came back on the stream the stop was bound to at that moment, from the adapter and for
    the robot_id it was sent to. *)
Definition confirmedOnStream (t : nat) (b : StopRobot) (h : list Entry) : Prop :=
  exists p until ack wireID adapter id epoch estop s seq t' identity from h1 h2,
    mkEntry t (ERegister (sb_Namespace b) (sb_Name b) wireID adapter id epoch estop) (Some (s, p, seq)) ∈ h /\
    mkEntry t (EWait p until) (AckIn ack) ∈ h /\ ea_State ack = ESTOP_STATE_STOPPED /\ ea_EstopId ack = id /\
    h = h1 ++ mkEntry t' (ERouteAck identity from wireID ack) (Routed p) :: h2 /\
    ti_Namespace identity = sb_Namespace b /\ ti_AdapterName identity = adapter /\ boundTo p h2 = Some from.

Lemma confirmed_on_stream g t b h : histOk g h -> confirmed t b h -> confirmedOnStream t b h.
Proof.
  intros Ho (p & until & ack & wireID & adapter & id & epoch & estop & s & seq & Hreg & Hw & Hst).
  destruct (stop_elem_of_split _ _ Hw) as (k1 & k2 & Hk). pose proof Ho as Hok. rewrite Hk in Hok.
  apply stop_histOk_at in Hok as [Hg _]. destruct (Hg ack eq_refl) as (t' & identity & from & robotID & Hroute).
  assert (Hroute' : mkEntry t' (ERouteAck identity from robotID ack) (Routed p) ∈ h) by (rewrite Hk; apply elem_of_app; right; by right).
  destruct (stop_elem_of_split _ _ Hroute') as (h1 & h2 & Hh). pose proof Ho as Hor. rewrite Hh in Hor.
  apply stop_histOk_at in Hor as [Hgr _]. destruct (Hgr p eq_refl) as [Hbound Hop].
  assert (Hwho : (ti_AdapterName identity, (ti_Namespace identity, robotID, ea_EstopId ack)) = (adapter, (sb_Namespace b, wireID, id))).
  { eapply (opened_once g h p); [done| |eexists; split; [exact Hreg|done]]. destruct Hop as (en & Hen & He). exists en. split; [|done].
    rewrite Hh. apply elem_of_app. right. by right. }
  injection Hwho as Had Hns Hr Hid. subst robotID. exists p, until, ack, wireID, adapter, id, epoch, estop, s, seq, t', identity, from, h1, h2.
  split_and!; done.
Qed.

(** C22 Whatever the interleaving, the lost answers and the other writers, a patch of the dispatcher that
    moves a stored Robot to Stopped is made by a thread that had registered the stop for this robot and
    then received, from the stream the stop was bound to, an EstopAck of that stop that says STOPPED,
    routed from the adapter it went to, in the robot's namespace and under the robot_id it was sent
    under. Silence, a timeout, a send failure or another stream's ack never stop a robot on record. *)
Theorem stopped_only_when_confirmed g l h1 t base new a h2 cur b :
  history g l = h1 ++ mkEntry t (EPatch base new) a :: h2 -> pa_landed a = Some b ->
  storedAfter (objKey base) h2 = Some cur -> sb_State cur <> RobotEstopStopped -> sb_State b = RobotEstopStopped ->
  confirmedOnStream t cur h2.
Proof.
  intros Hh Hb Hc Hcur Hst. destruct (landed_over g l t base new a h1 h2 b Hh Hb) as (Hw & cur' & rv & Hc' & -> & _).
  rewrite Hc in Hc'. simplify_eq. apply storedAfter_key in Hc as [_ Hk]. apply applyPatch_moves in Hst as [? ?]; [|done].
  destruct Hw as (_ & Hs & _). assert (Hconf : confirmed t base h2) by auto.
  apply (confirmed_key t base cur') in Hconf; [|done]. apply (confirmed_on_stream (ctxOf g l)); [|done].
  pose proof (history_ok g l) as Ho. rewrite Hh in Ho. by apply stop_histOk_at in Ho as [_ ?].
Qed.

(** ** A clear *)

Lemma clearStops_kept ends legacy at_ stops kept ended : clearStops ends legacy at_ stops = Some (kept, ended) ->
  (forall st, st ∈ stops -> is_Some (rs_ClearedAt st) \/ stopEnded st ends = true) /\
  (forall st, st ∈ kept -> is_Some (rs_ClearedAt st)) /\ sublist (rs_ID <$> kept) (rs_ID <$> stops).
Proof.
  revert kept ended. induction stops as [|st stops IH]; intros kept ended; simpl.
  - intros [= <- <-]. split_and!; [intros x Hx; by apply not_elem_of_nil in Hx..|constructor].
  - destruct (rs_ClearedAt st) as [t|] eqn:Ec.
    + destruct (clearStops ends legacy at_ stops) as [[kept' ended']|]; [|done]. intros [= <- <-].
      destruct (IH _ _ eq_refl) as (H1 & H2 & H3). split_and!.
      * intros x [->|Hx]%elem_of_cons; [left; eauto|auto].
      * intros x [->|Hx]%elem_of_cons; [eauto|auto].
      * by constructor.
    + destruct (stopEnded st ends) eqn:Es; simpl; [|done]. destruct (clearStops ends legacy at_ stops) as [[kept' ended']|]; [|done].
      intros [= <- <-]. destruct (IH _ _ eq_refl) as (H1 & H2 & H3). split_and!.
      * intros x [->|Hx]%elem_of_cons; [by right|auto].
      * destruct legacy; [auto|]. intros x [->|Hx]%elem_of_cons; [simpl; eauto|auto].
      * destruct legacy; simpl; by constructor.
Qed.

(** The clear ends the stop: its carrier is the robot itself, or [ends] names it. *)
Definition endedBy (ends : Ends) (st : RobotStop) : Prop :=
  match rs_Carrier st with
  | None => rs_Scope st = StopScopeRobot
  | Some c => car_Kind c = StopCarrierRobot \/ exists f, en_Stop ends = Some f /\ f st = true
  end.

Lemma stopEnded_endedBy st ends : stopEnded st ends = true -> endedBy ends st.
Proof.
  unfold stopEnded, endedBy. destruct (rs_Carrier st) as [c|]; [|by intros ?; str_bool]. destruct (car_Kind c =s StopCarrierRobot) eqn:E; str_bool; [by left|].
  destruct (en_Stop ends); [|done]. right. eauto.
Qed.

(** No stop is in force on the Robot but those the clear ends. *)
Record onlyEnded (b : StopRobot) (ends : Ends) : Prop := {
  oe_trigger : r_Annotations (sb_Robot b) !! TriggerAnnotation = None;
  oe_holds : forall hold, hold ∈ sb_HeldBy b -> exists f, en_Hold ends = Some f /\ f hold = true;
  oe_stops : forall st, st ∈ sb_Stops b -> is_Some (rs_ClearedAt st) \/ endedBy ends st;
  oe_state : sb_State b <> RobotEstopStopping
}.

Lemma clearable_only b ends kept ended legacy at_ :
  clearable b ends = true -> clearStops ends legacy at_ (sb_Stops b) = Some (kept, ended) -> onlyEnded b ends.
Proof.
  unfold clearable. destruct (_ && _); [done|]. destruct ((standing b =s RobotEstopStopping) || _) eqn:Es; [done|].
  destruct (ownTrigger b) eqn:Et; [done|]. intros Hf Hc. unfold ownTrigger in Et. apply bool_decide_eq_false in Et. str_bool. split; [by apply eq_None_not_Some| | |].
  - intros hold Hh. apply list_elem_of_In in Hh. apply forallb_forall with (x := hold) in Hf; [|done]. destruct (en_Hold ends); [eauto|done].
  - intros st Hst. destruct (proj1 (clearStops_kept ends legacy at_ _ kept ended Hc) st Hst) as [?|?]; [by left|right; by apply stopEnded_endedBy].
  - intros Hst. unfold standing in H. rewrite Hst in H. done.
Qed.

(** At some moment before, thread [t] looked at the stops this process had sent and not recorded: each
    is recorded on the Robot, had been ended by another clear, or is ended by this one. *)
Definition sentEnded (t : nat) (key : string) (b : StopRobot) (ends : Ends) (h : list Entry) : Prop :=
  exists l h1 h2, h = h1 ++ mkEntry t (EInflight key) l :: h2 /\
    forall id r entry, trackedAfter key h2 !! id = Some r -> recordOf r entry h2 ->
      hasStop (rs_ID entry) (sb_Stops b) = true \/ mkEntry t (ESettled r) true ∈ h \/ endedBy ends entry.

(** At some moment before, thread [t] checked the order: every trigger issued for the robot by then is
    older than the event of epoch [n]. *)
Definition noLaterTrigger (t : nat) (key : string) (n : Z) (h : list Entry) : Prop :=
  exists h1 h2, h = h1 ++ mkEntry t (ESuperseded key n) false :: h2 /\
    forall t' m, mkEntry t' (EIssue key true) m ∈ h2 -> m <= n.

Lemma not_superseded g t key n h : histOk g h -> Z.of_nat (length h) < 2 ^ 64 ->
  mkEntry t (ESuperseded key n) false ∈ h -> noLaterTrigger t key n h.
Proof.
  intros Ho Hn Hin. destruct (stop_elem_of_split _ _ Hin) as (h1 & h2 & Hh). exists h1, h2. split; [done|]. rewrite Hh in Ho.
  apply stop_histOk_at in Ho as [Hg Ho]. simpl in Hg. symmetry in Hg. z_bool. intros t' m Hm.
  assert (Z.of_nat (length h2) < 2 ^ 64) by (rewrite Hh, length_app in Hn; simpl in Hn; lia).
  pose proof (trigger_le_last g key h2 t' m Ho ltac:(lia) Hm). lia.
Qed.

(** C23 A patch of the dispatcher that moves a stored Robot to Resuming is made by a thread started as
    ClearEstop of this robot, and nothing is in force on the robot but what that call ends: the Robot it
    replaces does not carry its own trigger and is not Stopping; the call's ends name each hold recorded on
    it, and each stop recorded on it that no clear had ended is the robot's own or named by the call's ends;
    so is each stop this process had sent it and not recorded when the thread looked, unless recorded on the
    Robot or ended by another clear; every trigger issued before the thread's check is older than the clear;
    and the process had answered that it leads. What is left records no hold, and no stop without clearedAt.
    The history is shorter than 2^64 events, which epochs count. *)
Theorem resuming_only_by_guarded_clear g l h1 t base new a h2 cur b :
  history g l = h1 ++ mkEntry t (EPatch base new) a :: h2 -> Z.of_nat (length h2) < 2 ^ 64 -> pa_landed a = Some b ->
  storedAfter (objKey base) h2 = Some cur -> sb_State cur <> RobotEstopResuming -> sb_State b = RobotEstopResuming ->
  let key := robotEstopKey (sb_Namespace cur) (sb_Name cur) in
  exists by_ ends epoch,
    callOf g l t = Some (CallClearEstop (sb_Namespace cur) (sb_Name cur) by_ ends) /\
    onlyEnded cur ends /\ sentEnded t key cur ends h2 /\
    mkEntry t (EIssueClear key) epoch ∈ h2 /\ noLaterTrigger t key epoch h2 /\
    (g_Term g = true -> exists term, mkEntry t ETerm (term, true) ∈ h2) /\
    sb_HeldBy b = [] /\ forall st, st ∈ sb_Stops b -> is_Some (rs_ClearedAt st).
Proof.
  intros Hh Hn Hb Hc Hcur Hst key. destruct (landed_over g l t base new a h1 h2 b Hh Hb) as (Hw & cur' & rv & Hc' & -> & Hover).
  rewrite Hc in Hc'. simplify_eq. apply applyPatch_moves in Hst as [Hst1 Hst2]; [|done].
  destruct Hw as (Hclear & _). destruct (Hclear Hst1 Hst2) as (by_ & ends & epoch & legacy & at_ & stops & ended & Hcall & Hv & Hcl & Hcs & -> & Hi & Hsup & Hin & Hled).
  specialize (Hover Hv). subst cur'.
  assert (Ho : histOk (ctxOf g l) h2) by (pose proof (history_ok g l) as Ho; rewrite Hh in Ho; by apply stop_histOk_at in Ho as [_ ?]).
  exists by_, ends, epoch. split_and!; [done|by eapply clearable_only| |done|by apply (not_superseded (ctxOf g l))|done| |].
  - destruct Hin as (il & Hil & Hall). destruct (stop_elem_of_split _ _ Hil) as (k1 & k2 & Hk). exists il, k1, k2. split; [done|].
    rewrite Hk in Ho. apply stop_histOk_at in Ho as [Hg _]. intros id r entry Ht Hr. destruct (Hall r entry) as [?|[?|?]]; [by apply (Hg id)|by left|by right; left|right; right; by apply stopEnded_endedBy].
  - rewrite applyPatch_held. simpl. by destruct (sb_HeldBy base).
  - destruct (clearStops_kept _ _ _ _ _ _ Hcs) as (_ & Hkept & _). intros st. rewrite applyPatch_stops. unfold merged.
    case_bool_decide as Hd.
    + intros Hin'. assert (Hx : encodeStop st ∈ encodeStop <$> stops) by (change (encodeStop <$> sb_Stops base = encodeStop <$> stops) in Hd; rewrite <- Hd; by apply list_elem_of_fmap_2).
      apply list_elem_of_fmap in Hx as (st' & He & Hst'). destruct (Hkept st' Hst') as [x Hx].
      apply (f_equal rs_ClearedAt) in He. simpl in He. rewrite Hx in He. destruct (rs_ClearedAt st); [eauto|done].
    + intros (st' & -> & Hst')%list_elem_of_fmap. destruct (Hkept st' Hst') as [x Hx]. simpl. rewrite Hx. eauto.
Qed.

(** ** The resume check *)

(** A capability does not stand in the way of a release. *)
Definition capabilityFine (robot : StopRobot) (c : CapabilityStatusEntry) : Prop :=
  cse_Status c = CapabilityStatusActive \/ cse_Paused c = true \/
  exists b, sb_EstopBaseline robot = Some b /\ cse_Name c ∉ eb_ActiveCapabilities b.

Lemma capabilityRefusal_None robot c derived : capabilityRefusal robot c derived = None <-> capabilityFine robot c.
Proof.
  unfold capabilityRefusal, capabilityFine. destruct (String.eqb_spec (cse_Status c) CapabilityStatusActive) as [Ha|Ha]; simpl.
  { split; [by left|done]. }
  destruct (cse_Paused c); simpl; [split; [by right; left|done]|].
  destruct (sb_EstopBaseline robot) as [b|].
  - case_bool_decide; simpl; split; try done; [intros [?|[?|(b' & Hb & Hn)]]; naive_solver|].
    intros _. right. right. eauto.
  - split; [done|]. intros [?|[?|(b' & ? & _)]]; done.
Qed.

Lemma wrongPhase_iff p : wrongPhase p = true <-> p = RobotPhaseError \/ p = RobotPhaseOffline.
Proof. unfold wrongPhase. by rewrite orb_true_iff, !eqb_s_true. Qed.

(** The resume check is exact: it finds nothing to refuse if and only if neither the robot's own report
    nor the control plane puts it in Error or Offline, no component is reported Failed, and every capability,
    as derived from the reported hardware and as stored, is Active, Paused, or was not Active when the stop
    was taken (with no record of the stop, every one that is not Paused must be Active). *)
Theorem resume_check_exact robot derived reported :
  resumeRefusal robot derived reported = None <->
  ~ (reported = RobotPhaseError \/ reported = RobotPhaseOffline) /\
  ~ (r_Phase (sb_Robot robot) = RobotPhaseError \/ r_Phase (sb_Robot robot) = RobotPhaseOffline) /\
  (forall hw, hw ∈ sb_Hardware robot -> hw_Status hw <> HardwareFailed) /\
  (forall c, c ∈ derived \/ c ∈ r_Capabilities (sb_Robot robot) -> capabilityFine robot c).
Proof.
  unfold resumeRefusal. rewrite <- !wrongPhase_iff, !not_true_iff_false.
  destruct (wrongPhase reported); [naive_solver|]. destruct (wrongPhase (r_Phase (sb_Robot robot))); [naive_solver|].
  destruct (first_match _ (sb_Hardware robot)) as [why|] eqn:Eh.
  { split; [done|]. intros (_ & _ & Hh & _). exfalso.
    assert (Hn : first_match (fun h => if hw_Status h =s HardwareFailed then Some (FailedComponent (hw_Name h) (resumeRemedy robot)) else None) (sb_Hardware robot) = None).
    { apply first_match_None. intros hw Hin. by rewrite (proj2 (eqb_s_false _ _) (Hh hw Hin)). }
    congruence. }
  assert (Hh : forall hw, hw ∈ sb_Hardware robot -> hw_Status hw <> HardwareFailed).
  { intros hw Hin Hf. pose proof (proj1 (first_match_None _ _) Eh hw Hin) as Hx. simpl in Hx. by rewrite Hf, eqb_s_refl in Hx. }
  assert (Hiff : forall l d, first_match (fun c => capabilityRefusal robot c d) l = None <-> forall c, c ∈ l -> capabilityFine robot c).
  { intros l d. rewrite first_match_None. split; intros H c Hc; [apply (capabilityRefusal_None robot c d)|apply capabilityRefusal_None]; auto. }
  destruct (first_match _ derived) as [why|] eqn:Ed.
  - split; [done|]. intros (_ & _ & _ & Hc). exfalso. assert (Hn := proj2 (Hiff derived true)). rewrite Hn in Ed; [done|]. auto.
  - rewrite Hiff. pose proof (proj1 (Hiff derived true) Ed) as Hd. split; [|naive_solver]. intros Hs. split_and!; try done. intros c [?|?]; auto.
Qed.

(** ** A release *)

(** Nothing speaks against the robot: the phase it reported and the phase the control plane gives it are
    neither Error nor Offline, no component is Failed, and every capability is fine. *)
Record nothingRefused (b : StopRobot) (derived : list CapabilityStatusEntry) (reported : RobotPhase) : Prop := {
  nr_reported : ~ (reported = RobotPhaseError \/ reported = RobotPhaseOffline);
  nr_marked : ~ (r_Phase (sb_Robot b) = RobotPhaseError \/ r_Phase (sb_Robot b) = RobotPhaseOffline);
  nr_hardware : forall hw, hw ∈ sb_Hardware b -> hw_Status hw <> HardwareFailed;
  nr_capabilities : forall c, c ∈ derived \/ c ∈ r_Capabilities (sb_Robot b) -> capabilityFine b c
}.

(** What thread [t] was told of the robot: its last report is written, and on the phase it reported nothing
    speaks against it. *)
Definition checkedFit (g : Config) (t : nat) (b : StopRobot) (h : list Entry) : Prop :=
  exists derive reported, g_Derive g = Some derive /\
    mkEntry t (EUnwritten (sb_Namespace b) (telemetryID b)) false ∈ h /\
    mkEntry t (EReportedPhase (sb_Namespace b) (telemetryID b)) reported ∈ h /\
    nothingRefused b (derive b) (default "" reported).

(** When thread [t] looked, the robot's resume window was armed. A clear of thread [t'] had armed it, at a
    reading of the clock after its write was answered, and the last frame [t] was told of is strictly later;
    or it was adopted after a takeover, and that frame is strictly later than the first this process heard. *)
Definition heardInWindow (t : nat) (b : StopRobot) (h : list Entry) : Prop :=
  let key := robotEstopKey (sb_Namespace b) (sb_Name b) in
  exists since adopted heard k1 k2,
    h = k1 ++ mkEntry t (EResumeBaseline key) (since, true, adopted) :: k2 /\ windowAfter key k2 = (since, true, adopted) /\
    mkEntry t (ELastFrame (sb_Namespace b) (telemetryID b)) (Some heard) ∈ h /\
    if adopted : bool then exists first, mkEntry t (EFirstFrame (sb_Namespace b) (telemetryID b)) (Some first) ∈ h /\ first < heard
    else since < heard /\ exists t', mkEntry t' (EArm key since) tt ∈ k2 /\ mkEntry t' EClock since ∈ k2 /\ clearAnswered t' key k2.

Lemma clearAnswered_app t key h1 h2 : clearAnswered t key h2 -> clearAnswered t key (h1 ++ h2).
Proof. intros (base & new & b & Hp & Hk & Hs). exists base, new, b. split_and!; [apply elem_of_app; by right|done|done]. Qed.

(** An armed window that was not adopted was armed by a clear. *)
Lemma windowAfter_armed cx key since h : histOk cx h -> windowAfter key h = (since, true, false) ->
  exists t', mkEntry t' (EArm key since) tt ∈ h /\ mkEntry t' EClock since ∈ h /\ clearAnswered t' key h.
Proof.
  induction h as [|[t e a] h IH]; [done|]. intros [Hg Ho]. cbn [windowAfter en_event].
  assert (Hmore : windowAfter key h = (since, true, false) ->
    exists t', mkEntry t' (EArm key since) tt ∈ mkEntry t e a :: h /\ mkEntry t' EClock since ∈ mkEntry t e a :: h /\ clearAnswered t' key (mkEntry t e a :: h)).
  { intros Hw. destruct (IH Ho Hw) as (t' & H1 & H2 & H3). exists t'. split_and!; [by right|by right|by apply (clearAnswered_app t' key [mkEntry t e a])]. }
  destruct e; try exact Hmore.
  - destruct (key0 =s key) eqn:Ek; [|exact Hmore]. str_bool. subst key0. intros [= <-]. destruct Hg as [Hc Hk]. exists t. destruct a.
    split_and!; [by left|by right|by apply (clearAnswered_app t key [mkEntry t (EArm key baseline) tt])].
  - destruct (key0 =s key); [|exact Hmore]. destruct (windowAfter key h).1.2; [exact Hmore|done].
  - destruct (key0 =s key); [done|exact Hmore].
Qed.

(** The action's work is the robot's, and its lease one a clear holds. *)
Definition boundWork (robot : string) (a : WorkAction) : Prop :=
  wa_AssignedRobot a = robot /\ wa_Phase a ∈ [ActionPhaseAssigned; ActionPhaseInProgress; ActionPhaseRevoking; ActionPhasePaused].

Definition renewalHeld (a : WorkAction) : Prop := ConditionRenewalHeld ∈ (wa_Conditions a).*1.

(** Each action bound to the robot that thread [t] listed is gone, was bound no more or held already when it
    read it, or the thread's patch that holds it was accepted. *)
Definition allWorkHeld (t : nat) (b : StopRobot) (h : list Entry) : Prop :=
  exists live actions, mkEntry t (EListActions live (sb_Namespace b)) (Some actions) ∈ h /\
    forall a, a ∈ actions -> boundWork (sb_Name b) a ->
      exists live', mkEntry t (EGetAction live' (wa_Namespace a) (wa_Name a)) (Err NotFound) ∈ h \/
        exists a', mkEntry t (EGetAction live' (wa_Namespace a) (wa_Name a)) (Ok a') ∈ h /\
          (~ boundWork (sb_Name b) a' \/ renewalHeld a' \/
           exists a'', mkEntry t (EPatchAction a'') None ∈ h /\ wa_Namespace a'' = wa_Namespace a' /\ wa_Name a'' = wa_Name a' /\ renewalHeld a'').

Lemma toHold_bound robot a : toHold robot a = true <-> boundWork robot a.
Proof.
  unfold toHold, boundWork, holdReason. rewrite andb_true_iff, eqb_s_true. split; intros [? H]; (split; [done|]).
  - destruct (wa_Phase a =s ActionPhaseAssigned) eqn:E1; [str_bool; rewrite E1; set_solver|]. destruct (wa_Phase a =s ActionPhaseInProgress) eqn:E2; [str_bool; rewrite E2; set_solver|].
    destruct (wa_Phase a =s ActionPhaseRevoking) eqn:E3; [str_bool; rewrite E3; set_solver|]. destruct (wa_Phase a =s ActionPhasePaused) eqn:E4; [str_bool; rewrite E4; set_solver|done].
  - repeat (apply elem_of_cons in H as [->|H]; [done|]). by apply elem_of_nil in H.
Qed.

Lemma isHeld_held a : isHeld a = true -> renewalHeld a.
Proof. unfold isHeld, renewalHeld. intros ([t r] & Hin%list_elem_of_In & He)%existsb_exists. apply eqb_s_true in He. apply list_elem_of_fmap. exists (t, r). by split. Qed.

Lemma workHeld_all t b h : workHeld t b h -> allWorkHeld t b h.
Proof.
  intros (live & actions & Hl & Hall). exists live, actions. split; [done|]. intros a Ha Hb. apply toHold_bound in Hb. destruct (Hall a Ha Hb) as (live' & [H|(a' & H1 & H2)]).
  - exists live'. by left.
  - exists live'. right. exists a'. split; [done|]. destruct H2 as [H2|[H2|H2]].
    + left. by rewrite <- toHold_bound, not_true_iff_false.
    + right; left. by apply isHeld_held.
    + right; right. exists (heldAction a'). split_and!; [done|done|done|]. unfold renewalHeld, heldAction. simpl. rewrite fmap_app. apply elem_of_app. right. by left.
Qed.

(** C24 A patch of the dispatcher that moves a stored Robot to Normal is made by a thread started as
    ConfirmResume of this robot, and replaces Resuming only. The Robot replaced carries no trigger, records no
    hold and no stop without clearedAt; in this process's own state the thread found no unrecorded stop (nor,
    with fences, a held one); every trigger issued before its check is older than the confirmation. The thread
    had read a version of the Robot that was Resuming; was told that its last report is written and of the
    phase it reported; neither that phase nor the Robot's is Error or Offline, no component is Failed, and
    every capability, derived or stored, is Active, Paused or was not Active at the stop. The last frame it was
    told of is strictly later than the time at which the last clear that got an answer to its write armed the
    robot's resume window, or, in a window adopted after a takeover, than the first frame this process heard.
    Each Assigned, InProgress, Revoking or Paused action of the robot that the thread listed was gone, no longer
    such or held already when the thread read it, or the thread's write that holds it was accepted. The history is shorter than 2^64 events,
    which epochs count. *)
Theorem normal_only_by_checked_release g l h1 t base new a h2 cur b :
  history g l = h1 ++ mkEntry t (EPatch base new) a :: h2 -> Z.of_nat (length h2) < 2 ^ 64 -> pa_landed a = Some b ->
  storedAfter (objKey base) h2 = Some cur -> sb_State cur <> RobotEstopNormal -> sb_State b = RobotEstopNormal ->
  let key := robotEstopKey (sb_Namespace cur) (sb_Name cur) in
  callOf g l t = Some (CallConfirmResume (sb_Namespace cur) (sb_Name cur)) /\ sb_State cur = RobotEstopResuming /\
  (r_Annotations (sb_Robot cur) !! TriggerAnnotation = None /\ sb_HeldBy cur = [] /\ forall st, st ∈ sb_Stops cur -> is_Some (rs_ClearedAt st)) /\
  (mkEntry t (EUnrecorded key) false ∈ h2 /\ (g_Fence g <> None -> mkEntry t (EHeldStops (sb_Namespace cur) (sb_Name cur)) [] ∈ h2)) /\
  (exists epoch, mkEntry t (EIssue key false) epoch ∈ h2 /\ noLaterTrigger t key epoch h2) /\
  exists seen, objKey seen = objKey cur /\ seen ∈ versions h2 /\ sb_State seen = RobotEstopResuming /\
    checkedFit g t seen h2 /\ heardInWindow t seen h2 /\ allWorkHeld t seen h2.
Proof.
  intros Hh Hn Hb Hc Hcur Hst key. destruct (landed_over g l t base new a h1 h2 b Hh Hb) as (Hw & cur' & rv & Hc' & -> & Hover).
  rewrite Hc in Hc'. simplify_eq. apply applyPatch_moves in Hst as [Hst1 Hst2]; [|done].
  destruct Hw as (_ & _ & Hnormal & _). destruct (Hnormal Hst1 Hst2) as (Hcall & Hv & Hres & (Hrec & Hstops & Hun & Hfen) & (epoch & Hi & Hsup) & seen & Hns & Hnm & Hfit).
  specialize (Hover Hv). subst cur'.
  assert (Ho : histOk (ctxOf g l) h2) by (pose proof (history_ok g l) as Ho; rewrite Hh in Ho; by apply stop_histOk_at in Ho as [_ ?]).
  destruct Hfit as (derive & reported & Hsv & Hss & Hd & Hu & Hp & Hr & Hf & Hwork).
  split_and!; [done|done| | |done|done|done| |].
  - unfold HeldOnRecord in Hrec. by destruct (r_Annotations (sb_Robot base) !! TriggerAnnotation).
  - unfold HeldOnRecord in Hrec. destruct (r_Annotations (sb_Robot base) !! TriggerAnnotation); [done|]. unfold sb_HeldBy. by destruct (r_EstopHeldBy (sb_Robot base)).
  - exists epoch. split; [done|by apply (not_superseded (ctxOf g l))].
  - exists seen. split_and!; [unfold objKey; congruence|done|done| | |by apply workHeld_all].
    + exists derive, reported. split_and!; try done. apply resume_check_exact in Hr as (? & ? & ? & ?). by split.
    + destruct Hf as (since & adopted & baseline & heard & Hb1 & Hb2 & Hl & Hlt). destruct (stop_elem_of_split _ _ Hb1) as (k1 & k2 & Hk).
      pose proof Ho as Ho'. rewrite Hk in Ho'. apply stop_histOk_at in Ho' as [Hg Ho']. simpl in Hg.
      exists since, adopted, heard, k1, k2. split_and!; [done|done|done|]. destruct adopted; [by exists baseline|]. subst baseline.
      split; [done|]. by eapply windowAfter_armed.
Qed.

(** ** status.stops *)

(** What the CRD asks of status.stops: at most [maxRecordedStops] entries; and what its readers assume, one
    entry per stop ID. *)
Definition stopsOk (stops : list RobotStop) : Prop := NoDup (rs_ID <$> stops) /\ (length stops <= maxRecordedStops)%nat.

Lemma encode_ids (stops : list RobotStop) : rs_ID <$> (encodeStop <$> stops) = rs_ID <$> stops.
Proof. rewrite <- list_fmap_compose. by apply list_fmap_ext. Qed.

Lemma merged_ids (base new cur : list RobotStop) :
  (rs_ID <$> merged (encodeStop <$> base) (encodeStop <$> new) cur = rs_ID <$> cur /\ (encodeStop <$> base = encodeStop <$> new)) \/
  rs_ID <$> merged (encodeStop <$> base) (encodeStop <$> new) cur = rs_ID <$> new.
Proof. unfold merged. case_bool_decide; [by left|right; apply encode_ids]. Qed.

Lemma stopsOk_ids (l k : list RobotStop) : rs_ID <$> l = rs_ID <$> k -> stopsOk k -> stopsOk l.
Proof.
  intros He [Hn Hl]. split; [by rewrite He|]. apply (f_equal length) in He. rewrite !length_fmap in He. by rewrite He.
Qed.

Lemma ackOnly_ids (old new : list RobotStop) : Forall2 ackOnly old new -> rs_ID <$> new = rs_ID <$> old.
Proof. induction 1 as [|a b l k (He & _) _ IH]; [done|]. by rewrite !fmap_cons, He, IH. Qed.

Lemma sublist_ok (new old : list RobotStop) : sublist (rs_ID <$> new) (rs_ID <$> old) -> stopsOk old -> stopsOk new.
Proof.
  intros Hs [Hn Hl]. split; [by eapply sublist_NoDup|]. apply sublist_length in Hs. rewrite !length_fmap in Hs. lia.
Qed.

Lemma stopsStep_ok old new : stopsStep old new -> stopsOk old -> stopsOk new.
Proof.
  intros [|e Hh Hlt|new' Ha|new' Hs _] Hok; [done| | |].
  - destruct Hok as [Hn Hl]. split; [|rewrite length_app; simpl; lia]. rewrite fmap_app. apply NoDup_app. split_and!; [done| |apply NoDup_singleton].
    intros id (st & -> & Hst)%list_elem_of_fmap Hin. apply list_elem_of_singleton in Hin.
    assert (existsb (fun s => rs_ID s =s rs_ID e) old = true) by (apply existsb_elem; exists st; split; [done|]; rewrite Hin; apply eqb_s_refl).
    unfold hasStop in Hh. congruence.
  - eapply stopsOk_ids; [by apply ackOnly_ids|done].
  - eapply sublist_ok; [|done]. by apply fmap_sublist.
Qed.

(** What a landed write did to the stops of the Robot it replaced: a clear, nothing, or a step. *)
Lemma landed_stops g t base new cur h2 :
  writeGood g t base new h2 -> (base ∈ versions h2 -> cur = base) ->
  (sb_State base <> sb_State new /\ sb_State new <> RobotEstopResuming /\ sb_Stops new = sb_Stops base) \/
  cur = base /\ (stopsStep (sb_Stops base) (sb_Stops new) /\ sb_State base = sb_State new \/
    sb_State base <> RobotEstopResuming /\ sb_State new = RobotEstopResuming /\
    exists ends legacy at_ ended, clearStops ends legacy at_ (sb_Stops base) = Some (sb_Stops new, ended)).
Proof.
  intros (Hc & _ & _ & Ho & Hs) Hover. destruct (decide (sb_State base = sb_State new)) as [He|Hne].
  - right. destruct (Hs He) as (_ & Hst & Hv). split; [by apply Hover|by left].
  - destruct (decide (sb_State new = RobotEstopResuming)) as [Hr|Hnr]; [|left; auto].
    right. assert (Hb : sb_State base <> RobotEstopResuming) by congruence.
    destruct (Hc Hr Hb) as (by_ & ends & epoch & legacy & at_ & stops & ended & _ & Hv & _ & Hcs & -> & _). split; [by apply Hover|]. right.
    split_and!; [done|done|]. by exists ends, legacy, at_, ended.
Qed.

(** C26 Every write of the dispatcher keeps status.stops well formed: a stored Robot with at most 256
    recorded stops, no two with one ID, is replaced by one of which that is still true. *)
Theorem stops_stay_well_formed g l h1 t base new a h2 cur b :
  history g l = h1 ++ mkEntry t (EPatch base new) a :: h2 -> pa_landed a = Some b ->
  storedAfter (objKey base) h2 = Some cur -> stopsOk (sb_Stops cur) -> stopsOk (sb_Stops b).
Proof.
  intros Hh Hb Hc Hok. destruct (landed_over g l t base new a h1 h2 b Hh Hb) as (Hw & cur' & rv & Hc' & -> & Hover).
  rewrite Hc in Hc'. simplify_eq. rewrite applyPatch_stops. destruct (landed_stops _ _ _ _ _ _ Hw Hover) as [(_ & _ & ->)|[-> Hcase]].
  - unfold merged. by rewrite bool_decide_eq_true_2.
  - destruct (merged_ids (sb_Stops base) (sb_Stops new) (sb_Stops base)) as [[He _]|He]; (eapply stopsOk_ids; [exact He|]); [done|].
    destruct Hcase as [[Hst _]|(_ & _ & ends & legacy & at_ & ended & Hcs)]; [by eapply stopsStep_ok|].
    apply clearStops_kept in Hcs as (_ & _ & Hsub). by eapply sublist_ok.
Qed.

Lemma stopsStep_inforce old new st : stopsStep old new -> st ∈ old -> rs_ClearedAt st = None ->
  exists st', st' ∈ new /\ rs_ID st' = rs_ID st /\ rs_ClearedAt st' = None.
Proof.
  intros [|e Hh Hlt|new' Ha|new' Hs Hk] Hst Hc; [by exists st|exists st; split; [set_solver|done]| |exists st; split; [auto|done]].
  apply list_elem_of_lookup in Hst as [i Hi]. destruct (Forall2_lookup_l _ _ _ _ _ Ha Hi) as (st' & Hi' & (He & _ & _ & _ & Hcl)).
  exists st'. split; [by eapply list_elem_of_lookup_2|]. split; congruence.
Qed.

(** C25 No write of the dispatcher loses a stop in force: an entry of status.stops with no clearedAt is
    still there, and still without clearedAt, in what replaces the Robot, unless that write is a clear,
    which moves the Robot to Resuming under the clear's guards. *)
Theorem no_recorded_stop_lost g l h1 t base new a h2 cur b st :
  history g l = h1 ++ mkEntry t (EPatch base new) a :: h2 -> pa_landed a = Some b ->
  storedAfter (objKey base) h2 = Some cur -> st ∈ sb_Stops cur -> rs_ClearedAt st = None ->
  (sb_State cur <> RobotEstopResuming /\ sb_State b = RobotEstopResuming) \/
  exists st', st' ∈ sb_Stops b /\ rs_ID st' = rs_ID st /\ rs_ClearedAt st' = None.
Proof.
  intros Hh Hb Hc Hst Hcl. destruct (landed_over g l t base new a h1 h2 b Hh Hb) as (Hw & cur' & rv & Hc' & -> & Hover).
  rewrite Hc in Hc'. simplify_eq. rewrite applyPatch_stops, applyPatch_state.
  destruct (landed_stops _ _ _ _ _ _ Hw Hover) as [(_ & _ & ->)|[-> [[Hs _]|(Hr1 & Hr2 & _)]]].
  - right. exists st. unfold merged. by rewrite bool_decide_eq_true_2.
  - right. unfold merged. case_bool_decide; [by exists st|]. destruct (stopsStep_inforce _ _ _ Hs Hst Hcl) as (st' & Hst' & He & Hc2).
    exists (encodeStop st'). split; [by apply list_elem_of_fmap_2|]. simpl. by rewrite Hc2.
  - left. split; [done|]. unfold merged. case_bool_decide; congruence.
Qed.

(** ** The fences of a robot's stops *)

(** When a clear ends the fences that hold a robot's work, no trigger has been issued for the robot
    since the clear: every one issued by then is older, so a newer stop's fence always stands. *)
Theorem fences_end_only_without_later_trigger g l h1 t key ns n epoch h2 t' m :
  history g l = h1 ++ mkEntry t (EClearHeldIf key ns n epoch) true :: h2 -> Z.of_nat (length h2) < 2 ^ 64 ->
  mkEntry t' (EIssue key true) m ∈ h2 -> m < epoch.
Proof.
  intros Hh Hn Hm. pose proof (history_ok g l) as Ho. rewrite Hh in Ho. apply stop_histOk_at in Ho as [Hg Ho]. simpl in Hg.
  symmetry in Hg. z_bool. pose proof (trigger_le_last (ctxOf g l) key h2 t' m Ho Hn Hm). lia.
Qed.

(** ** The stop is sent before anything is waited for *)

(** The sections under d.mu, the clocks and the minting of an ID: nothing in them waits. *)
Definition immediate (e : Ev) : bool :=
  match e with
  | EOrderFor _ | EIssue _ _ | EMarkIssued _ | EPredecessor _ _ _ | ERegister _ _ _ _ _ _ _ | ENewRecord _ _ _ _ | ETrack _ _ _
  | EClock | EWall | ENewStopID | EGet false _ _ => true
  | _ => false
  end.

Lemma immediate_answers e x d c : immediate e = true -> answer e x d c <> None.
Proof.
  destruct e; try done; simpl; intros _; try done.
  - by destruct (register d namespace robot wireID adapter estopID epoch estop).
Qed.

(** The answers of a stop that is to be sent: its robot is in the cache, no predecessor recorded it, and
    the adapter has a stream. *)
Definition sendable (e : Ev) : resp e -> Prop :=
  match e return resp e -> Prop with
  | EGet _ _ _ => fun a => is_ok a = true
  | EPredecessor _ _ _ => fun a => a = None
  | ERegister _ _ _ _ _ _ _ => fun a => a <> None
  | _ => fun _ => True
  end.

(** Within [n] steps of its own, none of them a wait, a lock or a write, the program sends an Estop. *)
Fixpoint sendsWithin {A} (n : nat) (p : prog resp A) {struct p} : Prop :=
  match p with
  | Vis (ESend _ msg) _ => exists estop, sm_Payload msg = PEstop estop
  | Vis e k => immediate e = true /\ match n with O => False | S n => forall a, sendable e a -> sendsWithin n (k a) end
  | Fork _ k => match n with O => False | S n => sendsWithin n k end
  | _ => False
  end.

Lemma sendsWithin_step {A} n e (f : resp e -> prog resp A) :
  immediate e = true -> (forall a, sendable e a -> sendsWithin n (f a)) -> sendsWithin (S n) (pbind (trigger e) f).
Proof. by destruct e. Qed.

Lemma sendsWithin_assoc {A B C} n (p : prog resp A) (q : A -> prog resp B) (f : B -> prog resp C) :
  sendsWithin n (pbind p (fun a => pbind (q a) f)) -> sendsWithin n (pbind (pbind p q) f).
Proof.
  revert n q f. induction p as [A a|A e k IH|A key k IH|A key k IH|A r _ k IH]; intros n q f; simpl; try done.
  - destruct e; try done; intros [Hi Hk]; (split; [exact Hi|]); destruct n; try done; intros x Hx; apply IH; auto.
  - destruct n; [done|]. apply IH.
Qed.

(** A trigger whose robot is in the cache, whose stop no predecessor recorded and whose adapter has a
    SafetyStream sends its Estop after at most twelve steps of its own, each of them a section under d.mu, a
    clock, the cached read or the start of a goroutine, which nothing can hold up; it waits for no lock, no
    API call, no fence and no record before the send. *)
Theorem trigger_sends_before_waiting g ns n reason by_ scope carrier fuel :
  (forall e x d c, immediate e = true -> answer e x d c <> None) /\
  sendsWithin 12 (TriggerEstop g ns n reason by_ scope carrier fuel).
Proof.
  split; [apply immediate_answers|]. unfold TriggerEstop, issueEpoch. apply sendsWithin_assoc.
  apply sendsWithin_step; [done|]. intros _ _. apply sendsWithin_step; [done|]. intros epoch _.
  apply sendsWithin_step; [done|]. intros [robot|] Hr; [|done]. apply sendsWithin_step; [done|]. intros st Hst. simpl in Hst. subst st.
  unfold issueStop. do 6 (apply sendsWithin_step; [done|]; intros ? _). apply sendsWithin_step; [done|].
  intros [[[s p] seq]|] Hreg; [|done]. unfold sendFence. destruct (g_Fence g); eexists; reflexivity.
Qed.

(** ** The memory of removed stops *)

Definition rememberedOk (l : list removedStop) : Prop := NoDup (rm_id <$> l) /\ (length l <= maxRemembered)%nat.

Record memoryOk (d : Dispatcher) : Prop := {
  mo_removed : forall key l, sd_removed d !! key = Some l -> rememberedOk l;
  mo_kept : forall key l, sd_kept d !! key = Some l -> (length l <= maxRemembered)%nat
}.

Lemma newest_length {A} (l : list A) : (length (newest l) <= maxRemembered)%nat.
Proof. unfold newest. rewrite length_drop. lia. Qed.

Lemma remember1_nodup uid now l st : NoDup (rm_id <$> l) -> NoDup (rm_id <$> remember1 uid now l st).
Proof.
  intros Hn. unfold remember1. rewrite fmap_app. apply NoDup_app. split_and!; [| |apply NoDup_singleton].
  - eapply sublist_NoDup; [exact Hn|]. apply fmap_sublist. clear. induction l as [|x l IH]; simpl; [constructor|].
    destruct (rm_id x <>s rs_ID st); by constructor.
  - intros id (r & -> & Hr)%list_elem_of_fmap Hin. apply list_elem_of_singleton in Hin. simpl in Hin.
    apply list_elem_of_In, filter_In in Hr as [_ Hr]. rewrite Hin, eqb_s_refl in Hr. done.
Qed.

Lemma remember_nodup uid now stops : forall l, NoDup (rm_id <$> l) -> NoDup (rm_id <$> fold_left (remember1 uid now) stops l).
Proof. induction stops as [|st stops IH]; intros l Hn; simpl; [done|]. by apply IH, remember1_nodup. Qed.

Lemma memoryOk_same d d' : sd_removed d' = sd_removed d -> sd_kept d' = sd_kept d -> memoryOk d -> memoryOk d'.
Proof. intros Hr Hk [H1 H2]. split; [by rewrite Hr|by rewrite Hk]. Qed.

Lemma rememberRemoved_ok d robot stops now : memoryOk d -> memoryOk (rememberRemoved d robot stops now).
Proof.
  intros [H1 H2]. unfold rememberRemoved. destruct stops as [|st stops]; [by split|]. split; [|done].
  simpl. intros key l [[_ <-]|[_ Hl]]%lookup_insert_Some; [|by eapply H1]. split; [|apply newest_length].
  eapply sublist_NoDup; [|apply fmap_sublist, sublist_drop]. apply (remember_nodup _ _ (st :: stops)).
  destruct (sd_removed d !! _) as [l|] eqn:E; [by apply (H1 _ _ E)|apply NoDup_nil_2].
Qed.

Lemma keepReport_ok d identity w rm : memoryOk d -> memoryOk (keepReport d identity w rm).
Proof.
  intros [H1 H2]. unfold keepReport. destruct (existsb _ _); [by split|]. split; [done|]. simpl.
  intros key l [[_ <-]|[_ Hl]]%lookup_insert_Some; [apply newest_length|by eapply H2].
Qed.

Definition sameMemory (d d' : Dispatcher) : Prop := sd_removed d' = sd_removed d /\ sd_kept d' = sd_kept d.

Lemma sameMemory_ok d d' : sameMemory d d' -> memoryOk d -> memoryOk d'.
Proof. intros [? ?]. by apply memoryOk_same. Qed.

Lemma rebindAll_memory s moved : forall d, sameMemory d (snd (rebindAll d s moved)).
Proof.
  induction moved as [|[p w] moved IH]; intros d; simpl; [done|]. destruct (rebindAll _ s moved) as [out d'] eqn:E. simpl.
  specialize (IH (modWaiter (setCounter d (uint64 (sd_idCounter d + 1))) p (withSender s))). rewrite E in IH. exact IH.
Qed.

Lemma clearing_memory (f : Dispatcher -> nat -> Dispatcher) rs : (forall d r, sameMemory d (f d r)) -> forall d, sameMemory d (fold_left f rs d).
Proof.
  intros Hf. induction rs as [|r rs IH]; intros d; simpl; [done|]. destruct (IH (f d r)) as [H1 H2]. destruct (Hf d r) as [H3 H4].
  split; congruence.
Qed.

(** Case on every test of a section. *)
Ltac section_cases :=
  repeat match goal with
  | H : context [match ?x with _ => _ end] |- _ => destruct x eqn:?; simplify_eq/=
  | |- context [match ?x with _ => _ end] => destruct x eqn:?; simplify_eq/=
  end.

Lemma answer_memory e x d c d' c' a : answer e x d c = Some (d', c', a) -> memoryOk d -> memoryOk d'.
Proof.
  intros Ha. destruct e; simpl in Ha; split_pairs; simplify_eq/=; try done; try (by apply sameMemory_ok);
    try (apply rememberRemoved_ok); try (apply keepReport_ok).
  - apply sameMemory_ok. unfold adoptResumeWindow. by destruct (o_resumeArmed _).
  - apply sameMemory_ok. unfold register, takeOver in E. simpl in E. section_cases; done.
  - apply sameMemory_ok. unfold deregister. section_cases; done.
  - apply sameMemory_ok. unfold settleUnlessResent in E. section_cases; done.
  - apply sameMemory_ok. unfold routeAck in E. section_cases; done.
  - apply sameMemory_ok. unfold chanPut. section_cases; done.
  - apply sameMemory_ok. unfold waitOn in E. section_cases; done.
  - apply sameMemory_ok. unfold waitHeld, waitOn in E. section_cases; done.
  - apply sameMemory_ok. unfold putStream, rebindLocked in E. section_cases; try done.
    match goal with H : rebindAll ?d0 ?s0 ?m0 = _ |- _ => pose proof (rebindAll_memory s0 m0 d0) as Hm; rewrite H in Hm; exact Hm end.
  - apply sameMemory_ok. unfold dropStream. section_cases; done.
  - apply sameMemory_ok. unfold resendHeldSection in E. simpl in E. section_cases; done.
  - apply sameMemory_ok. unfold markUnrecordedAcked in E. section_cases; done.
  - apply sameMemory_ok. unfold beginClearing. by apply clearing_memory.
  - apply sameMemory_ok. unfold endClearing. apply clearing_memory. intros d0 r. unfold endClearing1. section_cases; done.
  - apply sameMemory_ok. unfold takeAck in E. section_cases; done.
  - apply sameMemory_ok. unfold waitAcked in E. section_cases; done.
  - intros [H1 H2]. unfold takeKept in E. section_cases; [|by split]. split; [done|]. simpl. intros key l [_ Hl]%lookup_delete_Some. eauto.
Qed.

(** C40 Over any schedule, what the dispatcher remembers of removed stops stays bounded: at most 256 entries
    per robot, no two with one ID, and at most 256 reports kept per adapter. *)
Theorem removed_memory_bounded g l : memoryOk (w_d (sy_world (schedule g l))).
Proof.
  unfold schedule. assert (H0 : memoryOk (w_d (sy_world start))) by (by split). revert H0. generalize start.
  induction l as [|i l IH]; intros s Hs; simpl; [done|]. apply IH. destruct i as [c|tid x]; simpl; [done|].
  unfold runThread. destruct (sy_threads s !! tid) as [[]|]; try done; simpl.
  - unfold perform. destruct (answer _ _ _ _) as [[[d c] a]|] eqn:Ea; [|done]. simpl. by eapply answer_memory.
  - by destruct (sy_locks s !! key).
Qed.

(** After the stops have been remembered, the newest are theirs, in order. *)
Lemma remember_tail uid now stops : forall l, NoDup (rs_ID <$> stops) ->
  exists front, fold_left (remember1 uid now) stops l = front ++ ((fun st => mkRemoved (rs_ID st) uid (default now (rs_ClearedAt st))) <$> stops) /\
    (forall r, r ∈ front -> rm_id r ∉ (rs_ID <$> stops)).
Proof.
  induction stops as [|st stops IH] using rev_ind; intros l Hn.
  - exists l. rewrite app_nil_r. split; [done|]. intros r _. apply not_elem_of_nil.
  - rewrite fmap_app in Hn. apply NoDup_app in Hn as (Hn & Hd & _). destruct (IH l Hn) as (front & He & Hf).
    rewrite fold_left_app. simpl. rewrite He. unfold remember1 at 1.
    exists (List.filter (fun r => rm_id r <>s rs_ID st) front). rewrite List.filter_app, fmap_app, <- app_assoc. split.
    + f_equal. rewrite fmap_cons, fmap_nil. f_equal. assert (Hall : forall st', st' ∈ stops -> rs_ID st' <> rs_ID st).
      { intros st' Hst' Heq. apply (Hd (rs_ID st')); [by apply list_elem_of_fmap_2|]. rewrite Heq. by left. }
      clear -Hall. induction stops as [|s stops IH]; [done|]. rewrite fmap_cons. simpl.
      rewrite (proj2 (eqb_s_false _ _)) by (apply Hall; by left). simpl. f_equal. apply IH. intros st' Hst'. apply Hall. by right.
    + intros r [Hr Hne]%list_elem_of_In%filter_In. rewrite fmap_app, elem_of_app. apply list_elem_of_In in Hr.
      intros [Hin|Hin]; [by apply (Hf r)|]. apply list_elem_of_singleton in Hin. by rewrite Hin, eqb_s_refl in Hne.
Qed.

Lemma find_remembered uid now (st : RobotStop) l stops : NoDup (rs_ID <$> stops) -> st ∈ stops ->
  (forall r, r ∈ l -> (rm_id r =s rs_ID st) = false) ->
  List.find (fun r => rm_id r =s rs_ID st) (l ++ ((fun st => mkRemoved (rs_ID st) uid (default now (rs_ClearedAt st))) <$> stops)) =
  Some (mkRemoved (rs_ID st) uid (default now (rs_ClearedAt st))).
Proof.
  intros Hn Hst Hl. induction l as [|r l IH]; simpl.
  - clear Hl. induction stops as [|s stops IH]; [by apply not_elem_of_nil in Hst|]. rewrite fmap_cons in *. simpl.
    apply NoDup_cons in Hn as [Hnin Hn]. destruct (String.eqb_spec (rs_ID s) (rs_ID st)) as [He|Hne].
    + apply elem_of_cons in Hst as [->|Hst]; [done|]. destruct Hnin. rewrite He. by apply list_elem_of_fmap_2.
    + apply IH; [done|]. by apply elem_of_cons in Hst as [->|?].
  - rewrite Hl by (by left). apply IH. intros r' Hr'. apply Hl. by right.
Qed.

(** A removed stop is remembered: right after at most 256 entries with different IDs are removed from a
    robot, a report of any of them, under the robot's namespace and wire robot_id, finds the robot's UID and
    the clearedAt the entry carried. *)
Theorem removed_stops_are_found d robot stops now st :
  NoDup (rs_ID <$> stops) -> (length stops <= maxRemembered)%nat -> st ∈ stops ->
  rememberedLocked (rememberRemoved d robot stops now) (sb_Namespace robot) (sb_Wire robot) (rs_ID st) =
  Some (mkRemoved (rs_ID st) (sb_UID robot) (default now (rs_ClearedAt st))).
Proof.
  intros Hn Hl Hst. unfold rememberRemoved. destruct stops as [|s0 stops0]; [by apply not_elem_of_nil in Hst|].
  set (stops := s0 :: stops0) in *. unfold rememberedLocked. simpl. rewrite lookup_insert_eq. simpl.
  change (fold_left _ stops0 _) with (fold_left (remember1 (sb_UID robot) now) stops (default [] (sd_removed d !! rememberedKey (sb_Namespace robot) (sb_Wire robot)))).
  destruct (remember_tail (sb_UID robot) now stops (default [] (sd_removed d !! rememberedKey (sb_Namespace robot) (sb_Wire robot))) Hn) as (front & -> & Hf).
  unfold newest. rewrite length_app, length_fmap, drop_app_le by lia.
  set (k := (length front + length stops - maxRemembered)%nat).
  assert (Hfront : forall r, r ∈ drop k front -> (rm_id r =s rs_ID st) = false).
  { intros r Hr. apply eqb_s_false. intros He. apply (Hf r); [by apply (subseteq_drop k)|]. rewrite He. by apply list_elem_of_fmap_2. }
  by apply find_remembered.
Qed.
