(* ===== verification/SafetyScenario.v ===== *)
(** Schedules of the stop dispatcher, evaluated: a robot stopped, cleared and released, which the theorems
    of SafetyTheorems are applied to, two interleavings in which a comment of the source does not hold, and a clear whose
    answer is lost, after which a frame from before it releases the robot. *)

From S2P Require Import Prelude.
From S2P Require Import Types.
From S2P Require Import Contract.
From S2P Require Import RobotId.
From S2P Require Import Conc.
From S2P Require Import EstopScope.
From S2P Require Import Command.
From S2P Require Import SafetyData.
From S2P Require Import Safety.
From S2P Require Import SafetyInv.
From S2P Require Import SafetyProps.
From S2P Require Import SafetyTheorems.

(** ** A robot is stopped, cleared and released *)

Definition exStopCfg : Config :=
  mkConfig true true false false true true (Some (fun _ => [])) (Some true) defaultSLAThreshold defaultConfirmTimeout defaultDeliveryTimeout.

Definition exStopRobot : StopRobot :=
  mkStopRobot 0 (mkRobot "amr" "ns" "uid" (<[RobotIDAnnotation := "r1"]> ∅) None "dock" "acme" "Idle" "dock" None [] [] []
                   "edge" RobotEstopNormal []) [] None "" "1".

Definition exAdapter : TLSIdentity := mkIdentity true "ns" "edge".
Definition exStream : SafetySender := 5%nat.
Definition exWork : WorkAction := mkWork "ns" "act" 1 "amr" ActionPhaseInProgress [].

(** What the world answers: [fail] to an API call, [ok] to a send, [id] for a new stop. *)
Definition exAnswer (fail : option apiError) (ok : bool) (id : string) : Input :=
  mkInput fail false 0 (Some [0%nat]) (Some [exWork]) exWork None (7, true) (100 * Second) ok None id [] (Some (200 * Second)) (Some "Idle").

(** A wait's deadline, five seconds on. *)
Definition exTimeout : Input :=
  mkInput None false 0 None None exWork None (7, true) (105 * Second) true (Some false) "" [] None None.

Definition exPlain : Input := exAnswer None true "stop-1".

Definition runsWith (x : Input) (tid n : nat) : list sched := replicate n (Run tid x).
Notation runs := (runsWith exPlain).

Definition exConnected : list sched :=
  [Spawn (CallClusterWrite exStopRobot)] ++ runs 0 3 ++
  [Spawn (CallRegisterStream exAdapter exStream 5)] ++ runs 1 4 ++
  [Spawn (CallContractReported exAdapter "1.4.0" 5)] ++ runs 3 6.

Definition exTrigger (reason : string) : call := CallTriggerEstop "ns" "amr" reason "op" ScopeRobot (mkCarrier "" "" "") 5.

Definition exEnds : Ends := mkEnds None None.

(** Thread 6 triggers, 8 records the stop, 9 routes the ack, 10 clears and 11 confirms. *)
Definition exCycle : list sched :=
  exConnected ++
  [Spawn (exTrigger "smoke")] ++ runs 6 20 ++ runs 8 12 ++
  [Spawn (CallRouteAck exAdapter exStream "r1" (Some (mkEstopAck "stop-1" ESTOP_STATE_STOPPED)))] ++ runs 9 4 ++ runs 6 24 ++ runs 8 8 ++
  [Spawn (CallClearEstop "ns" "amr" "op" exEnds)] ++ runs 10 36 ++
  [Spawn (CallConfirmResume "ns" "amr")] ++ runs 11 8 ++ runsWith (exAnswer None false "") 11 1 ++ runs 11 28.

Notation exHistory := (history exStopCfg exCycle).

(** *** The patches of a history *)

(** The latest entry of which [p] holds, counted from the end of the history. *)
Fixpoint entryIndex (p : Entry -> bool) (h : list Entry) : nat :=
  match h with [] => O | en :: h => if p en then O else S (entryIndex p h) end.

Definition patchOf (en : Entry) : option (StopRobot * StopRobot * patchAnswer) :=
  match en with mkEntry _ (EPatch base new) a => Some (base, new, a) | _ => None end.

Definition patchesTo (tid : nat) (state : RobotEstopState) (en : Entry) : bool :=
  Nat.eqb (en_tid en) tid && match patchOf en with Some (_, new, _) => sb_State new =s state | None => false end.

Definition patchAt (h : list Entry) (n : nat) : StopRobot * StopRobot * patchAnswer :=
  default (exStopRobot, exStopRobot, mkPatchAnswer None (Err NotFound)) (match h !! n with Some en => patchOf en | None => None end).

Definition baseAt (h : list Entry) (n : nat) : StopRobot := fst (fst (patchAt h n)).
Definition newAt (h : list Entry) (n : nat) : StopRobot := snd (fst (patchAt h n)).
Definition ansAt (h : list Entry) (n : nat) : patchAnswer := snd (patchAt h n).
Definition leftAt (h : list Entry) (n : nat) : StopRobot := default exStopRobot (pa_landed (ansAt h n)).
(** What was stored when the patch landed. *)
Definition overAt (h : list Entry) (n : nat) : StopRobot := default exStopRobot (storedAfter (objKey (baseAt h n)) (drop (S n) h)).

(** Entry [n] is a patch of thread [tid] that landed over a stored Robot. *)
Definition landsAt (h : list Entry) (n tid : nat) : bool :=
  match h !! n with Some en => Nat.eqb (en_tid en) tid && bool_decide (is_Some (patchOf en)) | None => false end &&
  bool_decide (is_Some (pa_landed (ansAt h n))) && bool_decide (is_Some (storedAfter (objKey (baseAt h n)) (drop (S n) h))).

Lemma landsAt_split h n tid : landsAt h n tid = true ->
  h = take n h ++ mkEntry tid (EPatch (baseAt h n) (newAt h n)) (ansAt h n) :: drop (S n) h /\
  pa_landed (ansAt h n) = Some (leftAt h n) /\ storedAfter (objKey (baseAt h n)) (drop (S n) h) = Some (overAt h n).
Proof.
  unfold landsAt, overAt, leftAt. rewrite !andb_true_iff, !bool_decide_eq_true. intros [[He [b ->]] [c ->]]. split_and!; [|done|done].
  unfold baseAt, newAt, ansAt, patchAt. destruct (h !! n) as [[t e a]|] eqn:En; [|done]. rewrite andb_true_iff, bool_decide_eq_true in He.
  destruct He as [Ht [x Hx]]. simpl in Ht. apply Nat.eqb_eq in Ht as ->. destruct e; try done. simpl. by rewrite take_drop_middle.
Qed.

Definition exStoppedAt : nat := entryIndex (patchesTo 6 RobotEstopStopped) exHistory.
Definition exResumingAt : nat := entryIndex (patchesTo 10 RobotEstopResuming) exHistory.
Definition exNormalAt : nat := entryIndex (patchesTo 11 RobotEstopNormal) exHistory.
Definition exRecordedAt : nat := entryIndex (patchesTo 8 RobotEstopNormal) exHistory.

(** The hypotheses of the theorems on patches, by evaluation. *)
Ltac on_patch n tid :=
  let Hl := fresh in assert (Hl : landsAt exHistory n tid = true) by (vm_compute; reflexivity);
  destruct (landsAt_split exHistory n tid Hl) as (Hsplit & Hland & Hover); clear Hl.

(** The dispatcher took the robot through the states of a stop and of a clear. *)
Example cycle_states :
  sb_State (leftAt exHistory exStoppedAt) = RobotEstopStopped /\ sb_State (leftAt exHistory exResumingAt) = RobotEstopResuming /\
  sb_State (leftAt exHistory exNormalAt) = RobotEstopNormal /\
  (fun st => (rs_ID st, bool_decide (is_Some (rs_ClearedAt st)))) <$> sb_Stops (leftAt exHistory exNormalAt) = [("stop-1", true)].
Proof. vm_compute. repeat split. Qed.

Lemma stopped_only_when_confirmed_witness : confirmedOnStream 6 (overAt exHistory exStoppedAt) (drop (S exStoppedAt) exHistory).
Proof.
  on_patch exStoppedAt 6%nat.
  apply (stopped_only_when_confirmed exStopCfg exCycle _ _ _ _ _ _ _ (leftAt exHistory exStoppedAt) Hsplit Hland Hover);
    vm_compute; [discriminate|reflexivity].
Defined.

Lemma resuming_only_by_guarded_clear_witness :
  exists by_ ends epoch, callOf exStopCfg exCycle 10 = Some (CallClearEstop "ns" "amr" by_ ends) /\ onlyEnded (overAt exHistory exResumingAt) ends /\
    sentEnded 10 "ns/amr" (overAt exHistory exResumingAt) ends (drop (S exResumingAt) exHistory) /\
    noLaterTrigger 10 "ns/amr" epoch (drop (S exResumingAt) exHistory).
Proof.
  on_patch exResumingAt 10%nat.
  destruct (resuming_only_by_guarded_clear exStopCfg exCycle _ _ _ _ _ _ _ (leftAt exHistory exResumingAt) Hsplit
              ltac:(vm_compute; reflexivity) Hland Hover ltac:(vm_compute; discriminate) ltac:(vm_compute; reflexivity))
    as (by_ & ends & epoch & H0 & H1 & H2 & _ & H3 & _).
  assert (Hkey : robotEstopKey (sb_Namespace (overAt exHistory exResumingAt)) (sb_Name (overAt exHistory exResumingAt)) = "ns/amr") by (vm_compute; reflexivity).
  rewrite Hkey in H2, H3. exists by_, ends, epoch. split; [exact H0|]. split; [exact H1|]. split; [exact H2|exact H3].
Defined.

Lemma normal_only_by_checked_release_witness :
  sb_State (overAt exHistory exNormalAt) = RobotEstopResuming /\
  exists seen, checkedFit exStopCfg 11 seen (drop (S exNormalAt) exHistory) /\ heardInWindow 11 seen (drop (S exNormalAt) exHistory) /\
    allWorkHeld 11 seen (drop (S exNormalAt) exHistory).
Proof.
  on_patch exNormalAt 11%nat.
  destruct (normal_only_by_checked_release exStopCfg exCycle _ _ _ _ _ _ _ (leftAt exHistory exNormalAt) Hsplit
              ltac:(vm_compute; reflexivity) Hland Hover ltac:(vm_compute; discriminate) ltac:(vm_compute; reflexivity))
    as (_ & H1 & _ & _ & _ & seen & _ & _ & _ & H3).
  split; [exact H1|]. exists seen. exact H3.
Defined.

Lemma stops_stay_well_formed_witness : stopsOk (sb_Stops (leftAt exHistory exRecordedAt)) /\ sb_Stops (leftAt exHistory exRecordedAt) <> [].
Proof.
  on_patch exRecordedAt 8%nat. split; [|vm_compute; discriminate].
  apply (stops_stay_well_formed exStopCfg exCycle _ _ _ _ _ _ _ (leftAt exHistory exRecordedAt) Hsplit Hland Hover).
  assert (He : sb_Stops (overAt exHistory exRecordedAt) = []) by (vm_compute; reflexivity).
  rewrite He. split; [constructor|apply Nat.le_0_l].
Defined.

Definition exRecorded : RobotStop :=
  mkRobotStop "stop-1" StopScopeRobot (Some (mkStopCarrier StopCarrierRobot "amr" "uid")) (100 * Second) None None.

Lemma no_recorded_stop_lost_witness :
  exists st', st' ∈ sb_Stops (leftAt exHistory exStoppedAt) /\ rs_ID st' = "stop-1" /\ rs_ClearedAt st' = None.
Proof.
  on_patch exStoppedAt 6%nat.
  assert (Hst : sb_Stops (overAt exHistory exStoppedAt) = [exRecorded]) by (vm_compute; reflexivity).
  destruct (no_recorded_stop_lost exStopCfg exCycle _ _ _ _ _ _ _ (leftAt exHistory exStoppedAt) exRecorded Hsplit Hland Hover
              ltac:(rewrite Hst; by left) eq_refl) as [[_ Hno]|H]; [vm_compute in Hno; discriminate|exact H].
Defined.

(** *** The fences *)

Definition endsFences (en : Entry) : bool := match en_event en with EClearHeldIf _ _ _ _ => true | _ => false end.
Definition exFencesAt : nat := entryIndex endsFences exHistory.
Definition exIssuedAt : nat := entryIndex (fun en => match en_event en with EIssue _ true => true | _ => false end) (drop (S exFencesAt) exHistory).

Lemma fences_end_only_without_later_trigger_witness :
  mkEntry 6 (EIssue "ns/amr" true) 1 ∈ drop (S exFencesAt) exHistory /\ 1 < 2.
Proof.
  assert (Hin : mkEntry 6 (EIssue "ns/amr" true) 1 ∈ drop (S exFencesAt) exHistory)
    by (apply (list_elem_of_lookup_2 _ exIssuedAt); vm_compute; reflexivity).
  split; [exact Hin|].
  apply (fences_end_only_without_later_trigger exStopCfg exCycle (take exFencesAt exHistory) 10 "ns/amr" "ns" "amr" 2
           (drop (S exFencesAt) exHistory) 6 1).
  - symmetry. apply take_drop_middle. vm_compute. reflexivity.
  - vm_compute. reflexivity.
  - exact Hin.
Defined.

Lemma removed_stops_are_found_witness :
  rememberedLocked (rememberRemoved New exStopRobot [exRecorded] (300 * Second)) "ns" "r1" "stop-1" =
  Some (mkRemoved "stop-1" "uid" (300 * Second)).
Proof.
  apply (removed_stops_are_found New exStopRobot [exRecorded] (300 * Second) exRecorded);
    [apply NoDup_singleton|apply Nat.leb_le; vm_compute; reflexivity|by left].
Defined.

(** ** Interleavings the comments do not allow *)

(** Thread 6's trigger times out; its Failed conflicts, and it lets go of the write lock to retry. Thread 9's
    trigger, issued later, is confirmed Stopped meanwhile. Thread 6 then writes Failed over that Stopped. *)
Definition exOverwrite : list sched :=
  exConnected ++
  [Spawn (exTrigger "smoke")] ++ runs 6 20 ++
  [Spawn (exTrigger "fire")] ++ runsWith (exAnswer None true "stop-2") 9 20 ++
  runsWith exTimeout 6 1 ++ runs 6 8 ++ runsWith (exAnswer (Some Conflict) true "") 6 1 ++ runs 6 1 ++
  runsWith (exAnswer None false "") 6 2 ++
  [Spawn (CallRouteAck exAdapter exStream "r1" (Some (mkEstopAck "stop-2" ESTOP_STATE_STOPPED)))] ++ runs 12 4 ++ runs 9 24 ++
  runs 6 20.

Notation exOverwritten := (history exStopCfg exOverwrite).
Definition exFailedAt : nat := entryIndex (patchesTo 6 RobotEstopFailed) exOverwritten.

Definition exNewerAt : nat := entryIndex (patchesTo 9 RobotEstopStopped) exOverwritten.

(** The entries of a history that issue a trigger's epoch: the thread and the epoch, the latest first. *)
Definition triggersOf (key : string) (h : list Entry) : list (nat * Z) :=
  omap (fun en => match en return option (nat * Z) with
                  | mkEntry t (EIssue k true) n => if k =s key then Some (t, n : Z) else None
                  | _ => None
                  end) h.

(** The older trigger's Failed replaces the newer trigger's confirmed Stopped. *)
Example older_failed_over_newer_stopped :
  triggersOf "ns/amr" exOverwritten = [(9%nat, 2); (6%nat, 1)] /\
  landsAt exOverwritten exNewerAt 9 = true /\ sb_State (leftAt exOverwritten exNewerAt) = RobotEstopStopped /\
  landsAt exOverwritten exFailedAt 6 = true /\ sb_State (overAt exOverwritten exFailedAt) = RobotEstopStopped /\
  sb_State (leftAt exOverwritten exFailedAt) = RobotEstopFailed /\ (exFailedAt < exNewerAt)%nat.
Proof. split_and!; try (vm_compute; reflexivity). apply Nat.ltb_lt. vm_compute. reflexivity. Qed.

(** A clear has checked that no later trigger was issued, holding the robot's write lock; a trigger of thread
    11 is then issued, registered and sent, which takes d.mu only, and the clear writes Resuming. *)
Definition exBetween : list sched :=
  exConnected ++
  [Spawn (exTrigger "smoke")] ++ runs 6 20 ++ runs 8 12 ++
  [Spawn (CallRouteAck exAdapter exStream "r1" (Some (mkEstopAck "stop-1" ESTOP_STATE_STOPPED)))] ++ runs 9 4 ++ runs 6 24 ++ runs 8 8 ++
  [Spawn (CallClearEstop "ns" "amr" "op" exEnds)] ++ runs 10 7 ++
  [Spawn (exTrigger "fire")] ++ runsWith (exAnswer None true "stop-2") 11 20 ++
  runs 10 36.

Notation exClearedBetween := (history exStopCfg exBetween).
Definition exClearAt : nat := entryIndex (patchesTo 10 RobotEstopResuming) exClearedBetween.

Definition sentStops (h : list Entry) : list (nat * string) :=
  omap (fun en => match en_event en with
                  | ESend _ msg => match sm_Payload msg with
                                   | PEstop e => Some (en_tid en, es_EstopId e)
                                   | PEstopClear c => Some (en_tid en, ec_EstopId c)
                                   end
                  | _ => None
                  end) h.

(** The trigger of epoch 3 was issued, and its stop sent, before the clear of epoch 2 was written; the clear
    ends the newer stop too, and sends its EstopClear. *)
Example trigger_between_check_and_write :
  triggersOf "ns/amr" (drop (S exClearAt) exClearedBetween) = [(11%nat, 3); (6%nat, 1)] /\
  sentStops (drop (S exClearAt) exClearedBetween) = [(11%nat, "stop-2"); (6%nat, "stop-1")] /\
  landsAt exClearedBetween exClearAt 10 = true /\ sb_State (leftAt exClearedBetween exClearAt) = RobotEstopResuming /\
  sentStops (take exClearAt exClearedBetween) = [(10%nat, "stop-2"); (10%nat, "stop-1")].
Proof. split_and!; vm_compute; reflexivity. Qed.

(** ** A clear whose answer was lost *)

(** Three minutes on: the clock reads 300 s, and the robot's last frame is still the one of 200 s. *)
Definition exLate (fail : option apiError) (lost ok : bool) : Input :=
  mkInput fail lost 0 (Some [0%nat]) (Some [exWork]) exWork None (7, true) (300 * Second) ok None "stop-2" [] (Some (200 * Second)) (Some "Idle").

Notation late := (runsWith (exLate None false true)).

Definition exNoFence : Config :=
  mkConfig true true false false true true (Some (fun _ => [])) None defaultSLAThreshold defaultConfirmTimeout defaultDeliveryTimeout.

(** Thread 9 clears the first stop, at 100 s. Thread 10's stop follows. Thread 13 clears it at 300 s; its patch
    lands, and the answer is lost. Thread 14 is the retry, and thread 15 the operator's confirmation. *)
Definition exLostClear : list sched :=
  exConnected ++
  [Spawn (exTrigger "smoke")] ++ runs 6 20 ++ runs 7 12 ++
  [Spawn (CallRouteAck exAdapter exStream "r1" (Some (mkEstopAck "stop-1" ESTOP_STATE_STOPPED)))] ++ runs 8 4 ++ runs 6 24 ++ runs 7 8 ++
  [Spawn (CallClearEstop "ns" "amr" "op" exEnds)] ++ runs 9 36 ++
  [Spawn (exTrigger "fire")] ++ late 10 20 ++ late 11 12 ++
  [Spawn (CallRouteAck exAdapter exStream "r1" (Some (mkEstopAck "stop-2" ESTOP_STATE_STOPPED)))] ++ late 12 4 ++ late 10 24 ++ late 11 8 ++
  [Spawn (CallClearEstop "ns" "amr" "op" exEnds)] ++ late 13 11 ++ runsWith (exLate (Some Unavailable) true true) 13 1 ++ late 13 36 ++
  [Spawn (CallClearEstop "ns" "amr" "op" exEnds)] ++ late 14 36 ++
  [Spawn (CallConfirmResume "ns" "amr")] ++ late 15 8 ++ runsWith (exLate None false false) 15 1 ++ late 15 28.

Notation exLostHistory := (history exNoFence exLostClear).
Definition exLostAt : nat := entryIndex (patchesTo 13 RobotEstopResuming) exLostHistory.
Definition exReleasedAt : nat := entryIndex (patchesTo 15 RobotEstopNormal) exLostHistory.

(** The last frames a thread was told of, and the times it read, the latest first. *)
Definition framesOf (tid : nat) (h : list Entry) : list (option Time) :=
  omap (fun en => match en with mkEntry t (ELastFrame _ _) f => if Nat.eqb t tid then Some (f : option Time) else None | _ => None end) h.
Definition clocksOf (tid : nat) (h : list Entry) : list Time :=
  omap (fun en => match en with mkEntry t EClock at_ => if Nat.eqb t tid then Some (at_ : Time) else None | _ => None end) h.

(** A frame from before the clear releases the robot. A stop does not disarm the resume window of the clear
    before it; the second clear is stored but its answer is lost, and its retry finds the robot Resuming and
    arms nothing; the confirmation then takes the frame of 200 s, later than the first clear and earlier than
    the second, for one heard since the clear, and writes Normal. *)
Theorem frame_before_clear_releases :
  landsAt exLostHistory exLostAt 13 = true /\ sb_State (overAt exLostHistory exLostAt) = RobotEstopStopped /\
  sb_State (leftAt exLostHistory exLostAt) = RobotEstopResuming /\ pa_answer (ansAt exLostHistory exLostAt) = Err Unavailable /\
  clocksOf 13 (drop (S exLostAt) exLostHistory) = [300 * Second] /\
  framesOf 15 (drop (S exReleasedAt) exLostHistory) = [Some (200 * Second)] /\
  landsAt exLostHistory exReleasedAt 15 = true /\ sb_State (leftAt exLostHistory exReleasedAt) = RobotEstopNormal /\ (exReleasedAt < exLostAt)%nat.
Proof. split_and!; try (vm_compute; reflexivity). apply Nat.ltb_lt. vm_compute. reflexivity. Qed.
