(* ===== verification/ActionData.v ===== *)
(** src/internal/controller/fleetaction_controller.go, its data and pure functions: the FleetAction as its
    controller reads and writes it, the assignment-lease decision, the messages a later pass reads back, the
    cancel intents and the rules of a requeue request. ActionController has the operations. *)

From S2P Require Import Prelude.
From S2P Require Import Types.
From S2P Require Import Contract.
From S2P Require Import EstopScope.
From S2P Require Import Command.
From S2P Require Import ExecutorGuard.
From S2P Require Import Conc.
From S2P Require Import ExecutorGate.
From S2P Require Import SafetyData.

(** ** The FleetAction *)

(** A condition of the status; one whose status is False has [cn_True = false]. *)
Record Condition := mkCondition { cn_Type : string; cn_True : bool; cn_Reason : string; cn_Message : string }.

#[export] Instance Condition_eq_dec : EqDecision Condition.
Proof. solve_decision. Defined.

Record ActionStatus := mkActionStatus {
  as_Phase : ActionPhase;
  as_AssignedRobot : string;
  as_AssignmentGeneration : Z;
  as_LeaseExpiresAt : option Time;
  as_PendingSince : option Time;
  as_DisconnectedAt : option Time;
  as_CompletionTime : option Time;
  as_Message : string;
  as_ProgressPct : Z;
  as_ScheduledAt : option Time;
  as_StartedAt : option Time;
  as_CompletedAt : option Time;
  as_FailedAt : option Time;
  as_FailureReason : string;
  as_RetryCount : Z;
  as_CancellationReason : string;
  as_SupersededBy : string;
  as_Conditions : list Condition
}.

#[export] Instance ActionStatus_eq_dec : EqDecision ActionStatus.
Proof. solve_decision. Defined.

(** A FleetAction with its resourceVersion; [ac_Held]: it has the stop finalizer. *)
Record Action := mkAction {
  ac_rv : Z;
  ac_Name : string;
  ac_Namespace : string;
  ac_UID : string;
  ac_Annotations : gmap string string;
  ac_Deleted : bool;                             (* deletionTimestamp is set *)
  ac_Created : Time;
  ac_Held : bool;
  ac_Spec : FleetActionSpec;
  ac_Zone : string;                              (* spec.zone, and so on below *)
  ac_Priority : ActionPriority;
  ac_Deadline : option Time;
  ac_TimeoutSeconds : option Z;
  ac_OnFailure : string;
  ac_RetryPolicy : option (Z * Z);               (* maxRetries, backoffSeconds *)
  ac_CustomType : string;
  ac_Payload : option string;
  ac_Status : ActionStatus
}.

Definition ac_Phase (a : Action) : ActionPhase := as_Phase (ac_Status a).
Definition ac_Robot (a : Action) : string := as_AssignedRobot (ac_Status a).
Definition ac_Lease (a : Action) : option Time := as_LeaseExpiresAt (ac_Status a).
Definition ac_Message (a : Action) : string := as_Message (ac_Status a).
Definition ac_Desired (a : Action) : DesiredState := fas_DesiredState (ac_Spec a).

Definition setStatusOf (a : Action) (s : ActionStatus) : Action :=
  mkAction (ac_rv a) (ac_Name a) (ac_Namespace a) (ac_UID a) (ac_Annotations a) (ac_Deleted a) (ac_Created a) (ac_Held a)
    (ac_Spec a) (ac_Zone a) (ac_Priority a) (ac_Deadline a) (ac_TimeoutSeconds a) (ac_OnFailure a) (ac_RetryPolicy a)
    (ac_CustomType a) (ac_Payload a) s.

Definition setAnnotations (a : Action) (m : gmap string string) : Action :=
  mkAction (ac_rv a) (ac_Name a) (ac_Namespace a) (ac_UID a) m (ac_Deleted a) (ac_Created a) (ac_Held a)
    (ac_Spec a) (ac_Zone a) (ac_Priority a) (ac_Deadline a) (ac_TimeoutSeconds a) (ac_OnFailure a) (ac_RetryPolicy a)
    (ac_CustomType a) (ac_Payload a) (ac_Status a).

Definition withVersion (a : Action) (rv : Z) (held : bool) : Action :=
  mkAction rv (ac_Name a) (ac_Namespace a) (ac_UID a) (ac_Annotations a) (ac_Deleted a) (ac_Created a) held
    (ac_Spec a) (ac_Zone a) (ac_Priority a) (ac_Deadline a) (ac_TimeoutSeconds a) (ac_OnFailure a) (ac_RetryPolicy a)
    (ac_CustomType a) (ac_Payload a) (ac_Status a).

(** One setter per field of the status. *)
Definition putPhase (x : ActionPhase) (s : ActionStatus) : ActionStatus :=
  mkActionStatus x (as_AssignedRobot s) (as_AssignmentGeneration s) (as_LeaseExpiresAt s) (as_PendingSince s) (as_DisconnectedAt s) (as_CompletionTime s) (as_Message s) (as_ProgressPct s) (as_ScheduledAt s) (as_StartedAt s) (as_CompletedAt s) (as_FailedAt s) (as_FailureReason s) (as_RetryCount s) (as_CancellationReason s) (as_SupersededBy s) (as_Conditions s).
Definition putAssignedRobot (x : string) (s : ActionStatus) : ActionStatus :=
  mkActionStatus (as_Phase s) x (as_AssignmentGeneration s) (as_LeaseExpiresAt s) (as_PendingSince s) (as_DisconnectedAt s) (as_CompletionTime s) (as_Message s) (as_ProgressPct s) (as_ScheduledAt s) (as_StartedAt s) (as_CompletedAt s) (as_FailedAt s) (as_FailureReason s) (as_RetryCount s) (as_CancellationReason s) (as_SupersededBy s) (as_Conditions s).
Definition putAssignmentGeneration (x : Z) (s : ActionStatus) : ActionStatus :=
  mkActionStatus (as_Phase s) (as_AssignedRobot s) x (as_LeaseExpiresAt s) (as_PendingSince s) (as_DisconnectedAt s) (as_CompletionTime s) (as_Message s) (as_ProgressPct s) (as_ScheduledAt s) (as_StartedAt s) (as_CompletedAt s) (as_FailedAt s) (as_FailureReason s) (as_RetryCount s) (as_CancellationReason s) (as_SupersededBy s) (as_Conditions s).
Definition putLeaseExpiresAt (x : option Time) (s : ActionStatus) : ActionStatus :=
  mkActionStatus (as_Phase s) (as_AssignedRobot s) (as_AssignmentGeneration s) x (as_PendingSince s) (as_DisconnectedAt s) (as_CompletionTime s) (as_Message s) (as_ProgressPct s) (as_ScheduledAt s) (as_StartedAt s) (as_CompletedAt s) (as_FailedAt s) (as_FailureReason s) (as_RetryCount s) (as_CancellationReason s) (as_SupersededBy s) (as_Conditions s).
Definition putPendingSince (x : option Time) (s : ActionStatus) : ActionStatus :=
  mkActionStatus (as_Phase s) (as_AssignedRobot s) (as_AssignmentGeneration s) (as_LeaseExpiresAt s) x (as_DisconnectedAt s) (as_CompletionTime s) (as_Message s) (as_ProgressPct s) (as_ScheduledAt s) (as_StartedAt s) (as_CompletedAt s) (as_FailedAt s) (as_FailureReason s) (as_RetryCount s) (as_CancellationReason s) (as_SupersededBy s) (as_Conditions s).
Definition putDisconnectedAt (x : option Time) (s : ActionStatus) : ActionStatus :=
  mkActionStatus (as_Phase s) (as_AssignedRobot s) (as_AssignmentGeneration s) (as_LeaseExpiresAt s) (as_PendingSince s) x (as_CompletionTime s) (as_Message s) (as_ProgressPct s) (as_ScheduledAt s) (as_StartedAt s) (as_CompletedAt s) (as_FailedAt s) (as_FailureReason s) (as_RetryCount s) (as_CancellationReason s) (as_SupersededBy s) (as_Conditions s).
Definition putCompletionTime (x : option Time) (s : ActionStatus) : ActionStatus :=
  mkActionStatus (as_Phase s) (as_AssignedRobot s) (as_AssignmentGeneration s) (as_LeaseExpiresAt s) (as_PendingSince s) (as_DisconnectedAt s) x (as_Message s) (as_ProgressPct s) (as_ScheduledAt s) (as_StartedAt s) (as_CompletedAt s) (as_FailedAt s) (as_FailureReason s) (as_RetryCount s) (as_CancellationReason s) (as_SupersededBy s) (as_Conditions s).
Definition putMessage (x : string) (s : ActionStatus) : ActionStatus :=
  mkActionStatus (as_Phase s) (as_AssignedRobot s) (as_AssignmentGeneration s) (as_LeaseExpiresAt s) (as_PendingSince s) (as_DisconnectedAt s) (as_CompletionTime s) x (as_ProgressPct s) (as_ScheduledAt s) (as_StartedAt s) (as_CompletedAt s) (as_FailedAt s) (as_FailureReason s) (as_RetryCount s) (as_CancellationReason s) (as_SupersededBy s) (as_Conditions s).
Definition putProgressPct (x : Z) (s : ActionStatus) : ActionStatus :=
  mkActionStatus (as_Phase s) (as_AssignedRobot s) (as_AssignmentGeneration s) (as_LeaseExpiresAt s) (as_PendingSince s) (as_DisconnectedAt s) (as_CompletionTime s) (as_Message s) x (as_ScheduledAt s) (as_StartedAt s) (as_CompletedAt s) (as_FailedAt s) (as_FailureReason s) (as_RetryCount s) (as_CancellationReason s) (as_SupersededBy s) (as_Conditions s).
Definition putScheduledAt (x : option Time) (s : ActionStatus) : ActionStatus :=
  mkActionStatus (as_Phase s) (as_AssignedRobot s) (as_AssignmentGeneration s) (as_LeaseExpiresAt s) (as_PendingSince s) (as_DisconnectedAt s) (as_CompletionTime s) (as_Message s) (as_ProgressPct s) x (as_StartedAt s) (as_CompletedAt s) (as_FailedAt s) (as_FailureReason s) (as_RetryCount s) (as_CancellationReason s) (as_SupersededBy s) (as_Conditions s).
Definition putStartedAt (x : option Time) (s : ActionStatus) : ActionStatus :=
  mkActionStatus (as_Phase s) (as_AssignedRobot s) (as_AssignmentGeneration s) (as_LeaseExpiresAt s) (as_PendingSince s) (as_DisconnectedAt s) (as_CompletionTime s) (as_Message s) (as_ProgressPct s) (as_ScheduledAt s) x (as_CompletedAt s) (as_FailedAt s) (as_FailureReason s) (as_RetryCount s) (as_CancellationReason s) (as_SupersededBy s) (as_Conditions s).
Definition putCompletedAt (x : option Time) (s : ActionStatus) : ActionStatus :=
  mkActionStatus (as_Phase s) (as_AssignedRobot s) (as_AssignmentGeneration s) (as_LeaseExpiresAt s) (as_PendingSince s) (as_DisconnectedAt s) (as_CompletionTime s) (as_Message s) (as_ProgressPct s) (as_ScheduledAt s) (as_StartedAt s) x (as_FailedAt s) (as_FailureReason s) (as_RetryCount s) (as_CancellationReason s) (as_SupersededBy s) (as_Conditions s).
Definition putFailedAt (x : option Time) (s : ActionStatus) : ActionStatus :=
  mkActionStatus (as_Phase s) (as_AssignedRobot s) (as_AssignmentGeneration s) (as_LeaseExpiresAt s) (as_PendingSince s) (as_DisconnectedAt s) (as_CompletionTime s) (as_Message s) (as_ProgressPct s) (as_ScheduledAt s) (as_StartedAt s) (as_CompletedAt s) x (as_FailureReason s) (as_RetryCount s) (as_CancellationReason s) (as_SupersededBy s) (as_Conditions s).
Definition putFailureReason (x : string) (s : ActionStatus) : ActionStatus :=
  mkActionStatus (as_Phase s) (as_AssignedRobot s) (as_AssignmentGeneration s) (as_LeaseExpiresAt s) (as_PendingSince s) (as_DisconnectedAt s) (as_CompletionTime s) (as_Message s) (as_ProgressPct s) (as_ScheduledAt s) (as_StartedAt s) (as_CompletedAt s) (as_FailedAt s) x (as_RetryCount s) (as_CancellationReason s) (as_SupersededBy s) (as_Conditions s).
Definition putRetryCount (x : Z) (s : ActionStatus) : ActionStatus :=
  mkActionStatus (as_Phase s) (as_AssignedRobot s) (as_AssignmentGeneration s) (as_LeaseExpiresAt s) (as_PendingSince s) (as_DisconnectedAt s) (as_CompletionTime s) (as_Message s) (as_ProgressPct s) (as_ScheduledAt s) (as_StartedAt s) (as_CompletedAt s) (as_FailedAt s) (as_FailureReason s) x (as_CancellationReason s) (as_SupersededBy s) (as_Conditions s).
Definition putCancellationReason (x : string) (s : ActionStatus) : ActionStatus :=
  mkActionStatus (as_Phase s) (as_AssignedRobot s) (as_AssignmentGeneration s) (as_LeaseExpiresAt s) (as_PendingSince s) (as_DisconnectedAt s) (as_CompletionTime s) (as_Message s) (as_ProgressPct s) (as_ScheduledAt s) (as_StartedAt s) (as_CompletedAt s) (as_FailedAt s) (as_FailureReason s) (as_RetryCount s) x (as_SupersededBy s) (as_Conditions s).
Definition putSupersededBy (x : string) (s : ActionStatus) : ActionStatus :=
  mkActionStatus (as_Phase s) (as_AssignedRobot s) (as_AssignmentGeneration s) (as_LeaseExpiresAt s) (as_PendingSince s) (as_DisconnectedAt s) (as_CompletionTime s) (as_Message s) (as_ProgressPct s) (as_ScheduledAt s) (as_StartedAt s) (as_CompletedAt s) (as_FailedAt s) (as_FailureReason s) (as_RetryCount s) (as_CancellationReason s) x (as_Conditions s).
Definition putConditions (x : list Condition) (s : ActionStatus) : ActionStatus :=
  mkActionStatus (as_Phase s) (as_AssignedRobot s) (as_AssignmentGeneration s) (as_LeaseExpiresAt s) (as_PendingSince s) (as_DisconnectedAt s) (as_CompletionTime s) (as_Message s) (as_ProgressPct s) (as_ScheduledAt s) (as_StartedAt s) (as_CompletedAt s) (as_FailedAt s) (as_FailureReason s) (as_RetryCount s) (as_CancellationReason s) (as_SupersededBy s) x.

(** [a] with its status changed by [f]. *)
Definition edit (a : Action) (f : ActionStatus -> ActionStatus) : Action := setStatusOf a (f (ac_Status a)).

(** A status as the API server stores it and answers a write with: every time to the second. *)
Definition encodeStatus (s : ActionStatus) : ActionStatus :=
  mkActionStatus (as_Phase s) (as_AssignedRobot s) (as_AssignmentGeneration s) (toSecond <$> as_LeaseExpiresAt s)
    (toSecond <$> as_PendingSince s) (toSecond <$> as_DisconnectedAt s) (toSecond <$> as_CompletionTime s) (as_Message s)
    (as_ProgressPct s) (toSecond <$> as_ScheduledAt s) (toSecond <$> as_StartedAt s) (toSecond <$> as_CompletedAt s)
    (toSecond <$> as_FailedAt s) (as_FailureReason s) (as_RetryCount s) (as_CancellationReason s) (as_SupersededBy s)
    (as_Conditions s).

(** What the executor guard reads of it. *)
Definition gateOf (a : Action) : GateAction :=
  mkGateAction (ac_Name a) (ac_Robot a) (as_AssignmentGeneration (ac_Status a))
    (mkActionTimes (ac_Phase a) (ac_Lease a) (ac_Created a) (as_PendingSince (ac_Status a)) (as_CompletionTime (ac_Status a))
       (as_FailedAt (ac_Status a))).

(** ** Conditions (apimachinery's meta package) *)

Definition findCondition (cs : list Condition) (t : string) : option Condition := List.find (fun c => cn_Type c =s t) cs.

Definition removeCondition (t : string) (cs : list Condition) : list Condition := List.filter (fun c => cn_Type c <>s t) cs.

(** SetStatusCondition: the first condition of the type is replaced, or a new one appended. *)
Fixpoint setCondition (c : Condition) (cs : list Condition) : list Condition :=
  match cs with
  | [] => [c]
  | c' :: cs => if cn_Type c' =s cn_Type c then c :: cs else c' :: setCondition c cs
  end.

Definition conditionRenewalHeld : string := "RenewalHeld".
Definition reasonStopClearedBeforePause : string := "StopClearedBeforePause".
Definition reasonStopClearedWhilePaused : string := "StopClearedWhilePaused".
Definition conditionZoneStopped : string := "ZoneStopped".
Definition conditionAdapterDeclined : string := "AdapterDeclined".
Definition conditionExternalDependenciesReady : string := "ExternalDependenciesReady".
Definition ConditionSuperseded : string := "Superseded".

(** ** Texts *)

Definition quoteMark : string := String (Ascii.ascii_of_nat 34) "".

(** strconv.Quote of a text of printable ASCII characters other than the quote and the backslash: the
    names the controller quotes are Kubernetes names. *)
Definition Quote (s : string) : string := quoteMark +:+ s +:+ quoteMark.

Definition commaJoin (l : list string) : string := String.concat ", " l.

Definition annCancelRequested : string := "swarmada.io/cancel-requested".
Definition annRequeueRequested : string := "swarmada.io/requeue-requested".
Definition annFailureAlerted : string := "swarmada.io/failure-alerted".

Definition revokingHeldMessage : string := "assigned robot lost, lease provably dead — awaiting operator cancel (onDisconnect=Never)".
Definition cancellingMessage : string := "cancel requested — awaiting confirmed stop".
Definition requeuingMessage : string := "requeue requested — awaiting confirmed stop".
Definition estopPausedAssignedMessage : string := "paused by estop — operator resume/requeue/cancel required".
Definition estopPausedInProgressMessage : string := "paused by estop — operator resume/cancel required".
Definition estopPausedUnconfirmedMessage : string :=
  "paused by estop — the robot's stop is not confirmed, so it stays bound to " +:+
  "this action and its lease is not renewed; once the lease has provably expired it waits for an operator, " +:+
  "who requeues it, cancels it, or clears the stop and resumes the robot".
Definition estopHeldRevokingMessage : string :=
  "held by estop — robot under an emergency stop, lease not renewed; " +:+
  "released after the stop is cleared and resumed, or by an operator cancel; if the robot never confirms " +:+
  "its stop and never reported the action running, the action returns to Pending once its lease has provably expired".
Definition desiredPausedAssignedMessage : string := "held by desiredState=Paused — operator resume/requeue/cancel required".
Definition desiredPausedInProgressMessage : string := "held by desiredState=Paused — operator resume/cancel required".
Definition returningReason : string := "desiredState=Returning".
Definition returningMessage : string := "return requested — awaiting confirmed recovery".
Definition timingOutMessage : string := "timeoutSeconds elapsed — awaiting confirmed stop".
Definition reasonCapabilityLost : string := "CapabilityLost".
Definition reasonCapabilityLostDuringExecution : string := "CapabilityLostDuringExecution".
Definition reasonStopUnconfirmed : string := "StopUnconfirmed".
Definition rejectionOperatingConstraintUnmet : string := "ASSIGN_ACTION_REJECTION_OPERATING_CONSTRAINT_UNMET".
Definition rejectionInvalidAction : string := "ASSIGN_ACTION_REJECTION_INVALID_ACTION".
Definition ActionFailureZoneOperatingConstraintUnmet : string := "ZoneOperatingConstraintUnmet".

Definition returningHeldMessage (disp : CancelDisposition) : string :=
  match disp with
  | CancelCompleted => "held after desiredState=Returning — robot reported the action complete; operator resume/cancel required"
  | CancelRecovered => "held after desiredState=Returning — robot recovered mid-commitment; operator resume/cancel required"
  | CancelStopUnconfirmed =>
      "held after desiredState=Returning — robot's stop was commanded and its rest was not witnessed; " +:+
      "operator resume/cancel required"
  | CancelStoppedSafely => "held after desiredState=Returning — robot stopped safely; operator resume/cancel required"
  end.

Definition pausedMessageWithStop (message : string) (acknowledged : bool) (disp : CancelDisposition) (bound : bool) : string :=
  if negb acknowledged || stopUnconfirmed disp then
    let said := if acknowledged then "its adapter could not witness its rest" else "has not acknowledged it" in
    if bound then
      message +:+ "; the robot was told to stop and " +:+ said +:+ ": the cancel is sent once and not " +:+
        "repeated, and the lease is no longer renewed to the robot, so it stops on its own lease; the action " +:+
        "stays bound to it until an operator requeues or cancels it"
    else
      message +:+ "; the robot was told to stop and " +:+ said +:+ ": it keeps its record of the action, and " +:+
        "the cancel is sent again, until its adapter acknowledges it or, once the action is requeued, its " +:+
        "lease is provably dead"
  else match disp with
       | CancelCompleted => message +:+ "; the robot was told to stop and reported the action complete"
       | _ => message +:+ "; the robot was told to stop and acknowledged it"
       end.

Definition awaitingDecision (action : Action) (stops : list string) (why : string) : string :=
  "awaiting operator decision (estop-clear on " +:+ commaJoin stops +:+ "): " +:+ why +:+
  ". A holder of estop-clear on that stop " +:+
  "(swarmada:admin by default) decides: requeue it to another robot (kubectl annotate fleetaction " +:+ ac_Name action +:+
  " swarmada.io/requeue-requested=" +:+ Quote "<reason>" +:+ " -n " +:+ ac_Namespace action +:+
  "), cancel it (swarmctl cancel action " +:+ ac_Name action +:+ " --reason " +:+ Quote "<text>" +:+ " -n " +:+ ac_Namespace action +:+ "), " +:+
  "or clear the stop and resume the robot".

Definition executorStopMessage (action : Action) (robot stop : string) : string :=
  awaitingDecision action [stop]
    ("robot " +:+ robot +:+ " records this action (" +:+ ac_Name action +:+ ") and is under the " +:+
     "emergency stop of " +:+ stop +:+ "; no other robot is given it while that stop stands").

(** The words of the executor guard's reason (Decision.Why). *)
Definition whyText (d : Decision) : string :=
  match de_Why d with
  | WhyNothing => ""
  | WhyStop =>
      "the robot is under the emergency stop of " +:+ de_Stop d +:+ ": work a stop paused goes to " +:+
      "another robot only through a requeue the estop-clear verb on that stop authorizes, or once " +:+
      "the stop is cleared"
  | WhyCancel => "the adapter acknowledged the cancel"
  | WhyEnded => "the robot reported the action ended"
  | WhyLeaseDead => "the lease is provably dead"
  | WhyHorizonUnknown =>
      "the previous executor's lease horizon is not known; waiting the longest lease the " +:+
      "configuration admits plus the clock-skew margin"
  | WhyLeaseAlive => "the previous executor's lease is not provably dead"
  end.

(** [until] is the time as RFC 3339 renders it. *)
Definition executorGateMessage (robot action until why : string) : string :=
  "robot " +:+ robot +:+ " still records this action (" +:+ action +:+ ") and may still be running it: no robot is given it " +:+
  "until the adapter acknowledges the cancel or the lease is provably dead (" +:+ until +:+ "); " +:+ why.

(** ** The requeue of held work *)

Definition requeueUnderStopPrefix : string := "requeue requested while the emergency stop of ".
Definition requeueHeldPrefix : string := "requeue requested before the emergency stop of ".
Definition requeueWithdrawnMessage : string := "paused — the requeue request was withdrawn; operator requeue/cancel required".

Definition requeueUnderStopMessage (stops : list string) : string :=
  requeueUnderStopPrefix +:+ commaJoin stops +:+ " stood — awaiting confirmed stop".

Definition requeueHeldMessage (stops : list string) : string :=
  requeueHeldPrefix +:+ commaJoin stops +:+ " reached the robot — held while that stop stands, " +:+
  "and carried out once it is cleared".

Definition isRequeueWaitMessage (msg : string) : bool :=
  (msg =s requeuingMessage) || String.prefix requeueUnderStopPrefix msg || String.prefix requeueHeldPrefix msg.

Inductive requeueVerdict := requeueRuns | requeueDropped | requeueWaits | requeueHeld.

Definition requeueAskedUnder (action : Action) (stops : list string) : requeueVerdict * string :=
  let under := requeueUnderStopMessage stops in
  let msg := ac_Message action in
  if PausedRequeueRuns true (isRequeueWaitMessage msg) (msg =s under) then (requeueRuns, under)
  else if msg =s requeueHeldMessage stops then (requeueWaits, "")
  else (requeueHeld, requeueHeldMessage stops).

Definition keepRequeueWait (action : Action) (msg : string) : string :=
  if has (ac_Annotations action) annRequeueRequested && isRequeueWaitMessage (ac_Message action) then ac_Message action else msg.

Definition DesiredStatePaused : DesiredState := "Paused".
Definition DesiredStateReturning : DesiredState := "Returning".

Definition heldByOperator (action : Action) : bool :=
  negb (has (ac_Annotations action) annRequeueRequested) &&
  ((ac_Desired action =s DesiredStatePaused) || (ac_Desired action =s DesiredStateReturning)).

(** ** Cancels (supersession.go) *)

Definition CancellationReasonOperator : string := "Operator".
Definition CancellationReasonSupersededByDirective : string := "SupersededByDirective".
Definition ConditionReasonInPlacePreemption : string := "InPlacePreemption".
Definition ConditionReasonCancelThenDispatch : string := "CancelThenDispatch".
Definition EventActionSupersededAfterCancel : string := "ActionSupersededAfterCancel".
Definition EventActionCancelledByOperator : string := "ActionCancelledByOperator".

Record cancelIntent := mkCancelIntent {
  ci_reason : string;
  ci_cause : CancelCause;
  ci_cancellationReason : string;
  ci_supersededBy : string;
  ci_conditionReason : string;
  ci_eventReason : string;
  ci_supersededAudit : bool
}.

Definition operatorCancelIntent (reason : string) : cancelIntent :=
  mkCancelIntent reason CancelCauseOperator CancellationReasonOperator "" "" EventActionCancelledByOperator false.

Definition supersededCancelIntent (byAction : string) : cancelIntent :=
  mkCancelIntent ("superseded by directive " +:+ byAction) CancelCauseSuperseded CancellationReasonSupersededByDirective byAction
    ConditionReasonCancelThenDispatch EventActionSupersededAfterCancel true.

Definition unattributedCancelIntent (reason : string) (cause : CancelCause) : cancelIntent :=
  mkCancelIntent reason cause "" "" "" "" false.

Definition applyCancelAttribution (intent : cancelIntent) (s : ActionStatus) : ActionStatus :=
  let s := putSupersededBy (ci_supersededBy intent) (putCancellationReason (ci_cancellationReason intent) s) in
  if ci_conditionReason intent =s "" then s
  else putConditions (setCondition (mkCondition ConditionSuperseded true (ci_conditionReason intent) (ci_reason intent)) (as_Conditions s)) s.

Inductive SupersessionDisposition := SupersedeInPlace | SupersedeCancelThenDispatch.

Definition dispositionForTypes (aType bType : string) : SupersessionDisposition :=
  if aType =s bType then SupersedeInPlace else SupersedeCancelThenDispatch.

Definition dispositionText (d : SupersessionDisposition) : string :=
  match d with SupersedeInPlace => ConditionReasonInPlacePreemption | SupersedeCancelThenDispatch => ConditionReasonCancelThenDispatch end.

(** [None] is Go's nil. *)
Definition DispositionFor (a b : option Action) : SupersessionDisposition :=
  match a, b with
  | Some a, Some b => dispositionForTypes (fas_Type (ac_Spec a)) (fas_Type (ac_Spec b))
  | _, _ => SupersedeCancelThenDispatch
  end.

Definition MaySupersede (a : option Action) : bool :=
  match a with
  | Some a => (ac_Phase a =s ActionPhaseAssigned) || (ac_Phase a =s ActionPhaseInProgress)
  | None => false
  end.

(** ** The assignment lease *)

Inductive reachability := robotExecuting | robotFree | robotLost.
Inductive leaseAction := actionRenew | actionRevoke | actionHold | actionReassign | actionConfirmStop.

Definition leaseProvablyDead (lease : option Time) (now : Time) (skew : Duration) : bool :=
  match lease with Some l => negb (now <? l + skew) | None => false end.

Definition evaluateLease (phase : ActionPhase) (r : reachability) (lease : option Time) (now : Time) (skew : Duration) : leaseAction :=
  if (phase =s ActionPhaseAssigned) || (phase =s ActionPhaseInProgress) then
    match r with robotExecuting => actionRenew | robotLost => actionRevoke | robotFree => actionHold end
  else if phase =s ActionPhaseRevoking then
    match r with
    | robotExecuting => actionRenew
    | robotFree => actionReassign
    | robotLost => if leaseProvablyDead lease now skew then actionReassign else actionHold
    end
  else if phase =s ActionPhasePreempted then
    match r with
    | robotExecuting | robotFree => actionConfirmStop
    | robotLost => if leaseProvablyDead lease now skew then actionReassign else actionHold
    end
  else actionHold.

(** [robot] is [None] when it was not found. *)
Definition classifyRobot (action : Action) (robot : option RobotObject) : reachability :=
  match robot with
  | None => robotLost
  | Some o =>
      if (r_Phase (ob_Robot o) =s RobotPhaseOffline) || (r_Phase (ob_Robot o) =s RobotPhaseError) then robotLost
      else if ob_AssignedAction o =s ac_Name action then robotExecuting else robotFree
  end.

Definition untilLeaseHorizon (expires : option Time) (now : Time) (renew skew : Duration) : Duration :=
  match expires with
  | None => renew
  | Some e => let d := time_Sub (e + skew) now in if Second <? d then d else Second
  end.

Definition estopHoldsWork (robot : Robot) : bool := robotUnderEstop robot || (r_EstopState robot =s RobotEstopResuming).

Definition stopConfirmed (robot : Robot) : bool := r_EstopState robot =s RobotEstopStopped.

Definition completionDeadline (action : Action) : option Time :=
  match ac_TimeoutSeconds action, as_StartedAt (ac_Status action) with
  | Some t, Some started => if t <=? 0 then None else Some (started + t * Second)
  | _, _ => None
  end.

Definition actionCompletionExpired (action : Action) (now : Time) : bool :=
  match completionDeadline action with Some d => negb (now <? d) | None => false end.

(** *** The lease after a clear (renewal_held.go) *)

Definition leaseStampHeld (action : Action) : bool :=
  match findCondition (as_Conditions (ac_Status action)) conditionRenewalHeld with Some _ => true | None => false end.

Definition pausedLeaseHeldAfterClear (action : Action) (robot : Robot) : bool :=
  leaseStampHeld action || (r_EstopState robot =s RobotEstopResuming).

Definition renewalHeldAfterClear (action : Action) (robot : option RobotObject) : bool :=
  let p := ac_Phase action in
  if (p =s ActionPhaseAssigned) || (p =s ActionPhaseInProgress) || (p =s ActionPhaseRevoking) then
    leaseStampHeld action || match robot with Some o => r_EstopState (ob_Robot o) =s RobotEstopResuming | None => false end
  else false.

(** ** Retries and waits *)

Definition ActionFailureRequeue : string := "Requeue".
Definition ActionFailureAbandon : string := "Abandon".

Definition defaultMaxRetries : Z := 3.
Definition defaultBackoffSeconds : Z := 30.
Definition tdeMinRetryAfter : Duration := 10 * Second.
Definition tdeMaxRetryAfter : Duration := 120 * Second.
Definition pendingRecheckInterval : Duration := 15 * Second.

Definition failurePolicy (action : Action) : string :=
  if ac_OnFailure action =s "" then ActionFailureRequeue else ac_OnFailure action.

Definition maxRetriesOf (action : Action) : Z :=
  match ac_RetryPolicy action with Some (m, _) => m | None => defaultMaxRetries end.

Definition isSome {A : Type} (o : option A) : bool := match o with Some _ => true | None => false end.

Definition awaitsRetry (action : Action) : bool :=
  (ac_Phase action =s ActionPhaseFailed) && (failurePolicy action =s ActionFailureRequeue) &&
  isSome (as_ScheduledAt (ac_Status action)) && (as_RetryCount (ac_Status action) <? maxRetriesOf action).

Definition clampRetryAfter (hint lo hi : Duration) : Duration := if hint <? lo then lo else if hi <? hint then hi else hint.

Definition isPreemptible (p : ActionPriority) : bool := (p =s ActionPriorityNormal) || (p =s ActionPriorityLow).

Definition priorityRank (p : ActionPriority) : Z :=
  if p =s ActionPriorityCritical then 1 else if p =s ActionPriorityHigh then 2 else if p =s ActionPriorityLow then 4 else 3.

(** spec.scheduling, spec.trafficDeconfliction and spec.actionCancellation of a SwarmadaConfig, the fields
    the controller reads one by one; the lease's are in [SchedulingSpec]. *)
Record ActionConfig := mkActionConfig {
  cf_DefaultAcceptDegraded : bool;
  cf_PreferSameManufacturer : option bool;
  cf_HonorPreferredRobot : option bool;
  cf_ActionRequeueBackoffSeconds : Z;
  cf_MinRetryAfterSeconds : Z;
  cf_MaxRetryAfterSeconds : Z;
  cf_OnDisconnect : string;
  cf_DisconnectTimeoutSeconds : option Z
}.

Definition ActionCancellationNever : string := "Never".
Definition ActionCancellationAfterTimeout : string := "AfterTimeout".
Definition ActionCancellationWhenActionExpired : string := "WhenActionExpired".

(** The config is [None] when it cannot be read or there is none. *)
Definition onDisconnectPolicyOf (cfg : option ActionConfig) : string * Z :=
  match cfg with
  | None => (ActionCancellationNever, 0)
  | Some c =>
      if cf_OnDisconnect c =s ActionCancellationAfterTimeout then
        match cf_DisconnectTimeoutSeconds c with
        | Some t => if t <=? 0 then (ActionCancellationNever, 0) else (ActionCancellationAfterTimeout, t)
        | None => (ActionCancellationNever, 0)
        end
      else (cf_OnDisconnect c, 0)
  end.

Definition tdeRetryBoundsOf (cfg : option ActionConfig) : Duration * Duration :=
  let '(lo, hi) :=
    match cfg with
    | Some c =>
        (if 0 <? cf_MinRetryAfterSeconds c then cf_MinRetryAfterSeconds c * Second else tdeMinRetryAfter,
         if 0 <? cf_MaxRetryAfterSeconds c then cf_MaxRetryAfterSeconds c * Second else tdeMaxRetryAfter)
    | None => (tdeMinRetryAfter, tdeMaxRetryAfter)
    end in
  (lo, if hi <? lo then lo else hi).

Definition requeueBackoffOf (cfg : option ActionConfig) : Duration :=
  match cfg with
  | Some c => if 0 <=? cf_ActionRequeueBackoffSeconds c then cf_ActionRequeueBackoffSeconds c * Second else defaultBackoffSeconds * Second
  | None => defaultBackoffSeconds * Second
  end.

(** ** Stops over a robot (stop_outcome.go) *)

(** The answer of stopNames once the zones and configs are read. *)
Definition stopNamesOf (zones : list FleetZone) (configs : list SwarmadaConfig) (robot : Robot) : result TooDeepError (list string) :=
  let? cov := CoverageOf (TreeOf zones) configs robot in
  Ok (sort_Strings (coverageNames cov ++ if robotUnderEstop robot && negb (Covered cov) then ["robot/" +:+ r_Name robot] else [])).

(** The stops that may hold the work of a robot whose Robot object is gone. *)
Definition namespaceStopsOf (zones : list FleetZone) (configs : list SwarmadaConfig) : list string :=
  let t := TreeOf zones in
  sort_Strings
    (((fun n => kindText KindZone +:+ "/" +:+ n) <$> List.filter (fun n => match t !! n with Some z => Carries z | None => false end) (Names t)) ++
     ((fun c => kindText KindNamespace +:+ "/" +:+ sc_Name c) <$> List.filter (fun c => InForce (sc_Annotations c)) configs)).

(** ** Holds written as conditions *)

(** setZoneStopped: the new conditions, and whether that is a transition. *)
Definition setZoneStopped (cs : list Condition) (msg : string) : bool * list Condition :=
  let c := mkCondition conditionZoneStopped true conditionZoneStopped msg in
  match findCondition cs conditionZoneStopped with
  | Some c' => if cn_True c' && (cn_Message c' =s msg) then (false, cs) else (true, setCondition c cs)
  | None => (true, setCondition c cs)
  end.

Record adapterDecline := mkDecline { ad_Adapter : string; ad_Robot : string; ad_Reason : string }.

Definition maxDeclineReason : nat := 1024.

(** A continuation byte of UTF-8. *)
Definition continuation (c : Ascii.ascii) : bool := let n := Ascii.nat_of_ascii c in (128 <=? n)%nat && (n <? 192)%nat.

(** A prefix of a valid text with the bytes of a character the cut left unfinished dropped: [lead] is the
    text up to the last character begun, [pend] that character's bytes, [more] how many it still needs. *)
Fixpoint wholeRunes (s lead pend : string) (more : nat) : string :=
  match s with
  | "" => if (more =? 0)%nat then lead +:+ pend else lead
  | String c s =>
      if continuation c then wholeRunes s lead (pend +:+ String c "") (more - 1)
      else
        let n := Ascii.nat_of_ascii c in
        wholeRunes s (lead +:+ pend) (String c "")
          (if (n <? 128)%nat then 0 else if (n <? 224)%nat then 1 else if (n <? 240)%nat then 2 else 3)
  end.

(** The adapter's words on the action. They are valid UTF-8, as a protobuf string is. *)
Definition declineMessage (d : adapterDecline) : string :=
  let why :=
    if (maxDeclineReason <? String.length (ad_Reason d))%nat
    then wholeRunes (String.substring 0 maxDeclineReason (ad_Reason d)) "" "" 0 +:+ "…" else ad_Reason d in
  let why := if why =s "" then "(the adapter gave no reason)" else why in
  "adapter " +:+ Quote (ad_Adapter d) +:+ " declined this action for robot " +:+ Quote (ad_Robot d) +:+ ": " +:+ why.

Definition setAdapterDeclined (cs : list Condition) (d : option adapterDecline) : bool * list Condition :=
  match d with
  | None => (false, cs)
  | Some d =>
      let msg := declineMessage d in
      let c := mkCondition conditionAdapterDeclined true conditionAdapterDeclined msg in
      match findCondition cs conditionAdapterDeclined with
      | Some c' => if cn_True c' && (cn_Message c' =s msg) then (false, cs) else (true, setCondition c cs)
      | None => (true, setCondition c cs)
      end
  end.

Record sensorStreamRefusal := mkRefusal { sf_Reason : string; sf_Message : string }.

(** applySensorStreamRefusal: the status, and whether the condition changed. *)
Definition applySensorStreamRefusal (s : ActionStatus) (r : sensorStreamRefusal) : bool * ActionStatus :=
  let c := mkCondition conditionExternalDependenciesReady false (sf_Reason r) (sf_Message r) in
  (negb (bool_decide (findCondition (as_Conditions s) conditionExternalDependenciesReady = Some c)),
   putMessage (sf_Message r) (putPhase ActionPhasePending (putConditions (setCondition c (as_Conditions s)) s))).

Definition clearSensorStreamRefusal (s : ActionStatus) : ActionStatus :=
  match findCondition (as_Conditions s) conditionExternalDependenciesReady with
  | None => s
  | Some _ =>
      putConditions (setCondition (mkCondition conditionExternalDependenciesReady true "ExternalDependenciesReady"
        "every external dependency this action names is present and ready") (as_Conditions s)) s
  end.

(** ** Declined assignments (dispatch_operating_declines.go) *)

Definition operatingDeclineTTL : Duration := 15 * 60 * Second.

Record operatingDecline := mkOperatingDecline { od_rejection : string; od_subjects : list string; od_at : Time }.

(** The memo: per action, per robot. *)
Definition operatingDeclineMemo : Type := gmap string (gmap string operatingDecline).

Definition declineKey (action : Action) : string := ac_Namespace action +:+ "/" +:+ ac_Name action +:+ "/" +:+ ac_UID action.

Definition memoRecord (m : operatingDeclineMemo) (action : Action) (robot rejection : string) (subjects : list string) (now : Time)
    : operatingDeclineMemo :=
  if robot =s "" then m
  else
    let key := declineKey action in
    <[key := <[robot := mkOperatingDecline rejection (sort_Strings subjects) now]> (default ∅ (m !! key))]> m.

(** The live declines of an action, and the memo without those that aged out. *)
Definition memoDeclined (m : operatingDeclineMemo) (action : Action) (now : Time) : gmap string operatingDecline * operatingDeclineMemo :=
  let key := declineKey action in
  let seen := default ∅ (m !! key) in
  if decide (seen = ∅) then (∅, m)
  else
    let live := filter (fun kd => ~ od_at kd.2 < now - operatingDeclineTTL) seen in
    (live, if decide (live = ∅) then delete key m else <[key := live]> m).

Definition memoForget (m : operatingDeclineMemo) (action : Action) : operatingDeclineMemo := delete (declineKey action) m.

Record dispatchExclusion := mkExclusionOf { dx_Robot : string; dx_Filter : Z; dx_Reason : string }.

Definition filterOperatingConstraint : Z := 12.
Definition filterAdapterRefusedAction : Z := -1.

Definition withheldByOperatingConstraint (withheld : list dispatchExclusion) : bool :=
  existsb (fun w => dx_Filter w =? filterOperatingConstraint) withheld.

Definition everyCandidateRefusedTheAction (withheld : list dispatchExclusion) (survivors : nat) : bool :=
  if (0 <? survivors)%nat || (length withheld =? 0)%nat then false
  else forallb (fun w => dx_Filter w =? filterAdapterRefusedAction) withheld.

Definition declinedExclusion (robot : string) (d : operatingDecline) : dispatchExclusion :=
  if od_rejection d =s rejectionInvalidAction then
    mkExclusionOf robot filterAdapterRefusedAction
      ("robot's adapter REFUSED this assignment as INVALID_ACTION — it cannot " +:+
       "parse spec.payload or does not implement spec.type. The wire value does not " +:+
       "say which, so the plane does not guess: it stops re-offering THIS " +:+
       "assignment to THIS adapter and tries the next candidate. Nothing about " +:+
       "waiting changes either half")
  else
    let named := match od_subjects d with
                 | [] => "naming no subject, which does not satisfy FA-R5"
                 | l => "naming " +:+ commaJoin l
                 end in
    mkExclusionOf robot filterOperatingConstraint
      ("robot's adapter DECLINED this assignment " +:+ named +:+ "; its declaration " +:+
       "said it honours the subject and the adapter, asked to, did not. The decline is " +:+
       "the stronger evidence — a declaration is a claim, a decline is something the " +:+
       "adapter did — so the action goes to the next candidate rather than back to " +:+
       "this one").

Fixpoint dropDeclined (declined : gmap string operatingDecline) (eligible : list RobotObject) (withheld : list dispatchExclusion)
    : list RobotObject * list dispatchExclusion :=
  match eligible with
  | [] => ([], withheld)
  | o :: eligible =>
      match declined !! r_Name (ob_Robot o) with
      | None => let '(kept, w) := dropDeclined declined eligible withheld in (o :: kept, w)
      | Some d => dropDeclined declined eligible (withheld ++ [declinedExclusion (r_Name (ob_Robot o)) d])
      end
  end.

Definition dropDeclinedCandidates (declined : gmap string operatingDecline) (eligible : list RobotObject) (withheld : list dispatchExclusion)
    : list RobotObject * list dispatchExclusion :=
  if decide (declined = ∅) then (eligible, withheld) else dropDeclined declined eligible withheld.
