(* ===== verification/ZoneProjection.v ===== *)
(** The Zone Controller's projection of the restrictions (zone_controller.go: reconcileRestrictions,
    ancestorChain, restrictionsFingerprint): the chain of a zone, the memo that skips a fold whose inputs have
    not changed, the conditions and the warning, and the status patch that may fail. The theorems are about any
    sequence of passes, edits and restarts. *)

From S2P Require Import Prelude.
From S2P Require Import Types.
From S2P Require Import ParseFloat.
From S2P Require Import Decimal.
From S2P Require Import Contract.
From S2P Require Import Scheduler.
From S2P Require Import Conc.
From S2P Require Import ExecutorGate.
From S2P Require Import ActionData.
From S2P Require Import ZoneRestrictions.
From S2P Require Import ZoneRestrictionProps.

(** ** The chain *)

Inductive chainBreak := NotListed (zone : string) | Revisits (zone : string) | NoParent (zone parent : string).

Definition quoted (s : string) : string := quoteMark +:+ s +:+ quoteMark.

Definition breakText (b : option chainBreak) : string :=
  match b with
  | None => ""
  | Some (NotListed z) => "zone " +:+ quoted z +:+ " is not in the namespace listing"
  | Some (Revisits z) => "parentZone chain revisits zone " +:+ quoted z
  | Some (NoParent z p) => "zone " +:+ quoted z +:+ " names parentZone " +:+ quoted p +:+ ", which does not exist in this namespace"
  end.

(** The walk to the root; [None] when the fuel is spent. *)
Fixpoint climbChain (fuel : nat) (byName : gmap string RuledZone) (seen : gset string) (upward : list RuledZone) (cur : RuledZone)
    : option (list RuledZone * option chainBreak) :=
  match fuel with
  | O => None
  | S fuel =>
      if bool_decide (rz_Name cur ∈ seen) then Some (rev upward, Some (Revisits (rz_Name cur)))
      else
        let seen := {[rz_Name cur]} ∪ seen in
        let upward := upward ++ [cur] in
        let parent := rz_Parent cur in
        if parent =s "" then Some (rev upward, None)
        else match byName !! parent with
             | None => Some (rev upward, Some (NoParent (rz_Name cur) parent))
             | Some next => climbChain fuel byName seen upward next
             end
  end.

Definition chainFuel (byName : gmap string RuledZone) : nat := S (S (size byName)).

Definition ancestorChain (name : string) (all : list RuledZone) : list RuledZone * option chainBreak :=
  let byName := zonesByName all in
  match byName !! name with
  | None => ([], Some (NotListed name))
  | Some self => default ([], Some (NotListed name)) (climbChain (chainFuel byName) byName ∅ [] self)
  end.

Definition restrictionsFingerprint (chain : list RuledZone) (unresolvable : option chainBreak) : string :=
  fold_left (fun b z => b +:+ "|" +:+ rz_Name z +:+ "@" +:+ showInt (rz_Generation z)) chain (breakText unresolvable).

(** ** The pass *)

(** The controller's memory: the fingerprints last resolved, how often it folded, the warnings outstanding. *)
Record ZoneCtl := mkZoneCtl { zk_restrictFP : gmap string string; zk_recomputes : Z; zk_alerted : gmap string bool }.
Definition newZoneCtl : ZoneCtl := mkZoneCtl ∅ 0 ∅.

Definition upsertCondition (conds : list ZoneCondition) (c : ZoneCondition) : list ZoneCondition :=
  if existsb (fun x => zc_Type x =s zc_Type c) conds
  then (fix go l := match l with
                    | [] => []
                    | x :: l => if zc_Type x =s zc_Type c then c :: l else x :: go l
                    end) conds
  else conds ++ [c].

Definition zoneReasonRestrictionsResolved : string := "Resolved".
Definition zoneReasonChainUnresolvable : string := "AncestorChainUnresolvable".
Definition zoneReasonRestrictionsConsistent : string := "Consistent".
Definition zoneReasonContradiction : string := "RestrictionContradiction".

Definition zoneKey (z : RuledZone) : string := fz_Namespace (rz_Zone z) +:+ "/" +:+ rz_Name z.

(** Whether the Warning is emitted, and the latch. *)
Definition warnOnContradiction (recorder : bool) (alerted : gmap string bool) (key : string) (contradictions : list zoneRestrictionContradiction)
    : gmap string bool * bool :=
  if recorder then
    let in_ := match contradictions with [] => false | _ => true end in
    let already := default false (alerted !! key) in
    (<[key := in_]> alerted, in_ && negb already)
  else (alerted, false).

Definition resolvedCondition (broken : option chainBreak) : ZoneCondition :=
  match broken with
  | Some _ => mkZoneCondition ZoneCondRestrictionsResolved ConditionFalse zoneReasonChainUnresolvable
  | None => mkZoneCondition ZoneCondRestrictionsResolved ConditionTrue zoneReasonRestrictionsResolved
  end.

Definition consistentCondition (contradictions : list zoneRestrictionContradiction) : ZoneCondition :=
  match contradictions with
  | [] => mkZoneCondition ZoneCondRestrictionsConsistent ConditionTrue zoneReasonRestrictionsConsistent
  | _ => mkZoneCondition ZoneCondRestrictionsConsistent ConditionFalse zoneReasonContradiction
  end.

(** What the pass makes of the zone, and whether it warns. *)
Definition reconcileRestrictions (recorder : bool) (ctl : ZoneCtl) (zoneObj : RuledZone) (all : list RuledZone) : ZoneCtl * RuledZone * bool :=
  let '(chain, unresolvable) := ancestorChain (rz_Name zoneObj) all in
  let fp := restrictionsFingerprint chain unresolvable in
  let key := zoneKey zoneObj in
  let unchanged := default "" (zk_restrictFP ctl !! key) =s fp in
  let ctl := mkZoneCtl (<[key := fp]> (zk_restrictFP ctl)) (zk_recomputes ctl) (zk_alerted ctl) in
  if unchanged && match rz_Effective zoneObj with Some _ => true | None => false end then (ctl, zoneObj, false)
  else
    let '(effective, contradictions) := resolveZoneRestrictions chain in
    let conds := upsertCondition (upsertCondition (rz_Conditions zoneObj) (resolvedCondition unresolvable)) (consistentCondition contradictions) in
    let zoneObj := mkRuledZone (rz_Zone zoneObj) (rz_Generation zoneObj) (rz_Restrictions zoneObj) (Some effective) conds in
    let '(alerted, warns) := warnOnContradiction recorder (zk_alerted ctl) key contradictions in
    (mkZoneCtl (zk_restrictFP ctl) (zk_recomputes ctl + 1) alerted, zoneObj, warns).

(** An empty allow-list has omitempty: the API server holds no list. *)
Definition omitEmpty (e : EffectiveZoneRestriction) : EffectiveZoneRestriction :=
  setBounds e (ez_Max e) (copyStrings (default [] (ez_Allowed e))).

(** status.restrictions as it is encoded. *)
Definition encoded (eff : option (list EffectiveZoneRestriction)) : option (list EffectiveZoneRestriction) := option_map (map omitEmpty) eff.

(** equality.Semantic.DeepEqual of the status: nil and empty lists are the same. *)
Definition statusEqual (a b : RuledZone) : bool :=
  bool_decide (encoded (rz_Effective a) = encoded (rz_Effective b)) && bool_decide (rz_Conditions a = rz_Conditions b).

(** One field of the merge patch made from [base] to [new], applied to [cur]. *)
Definition mergeField {A} `{EqDecision A} (base new cur : A) : A := if bool_decide (base = new) then cur else new.

(** The status patch MergeFrom(base) makes of [new], applied to what the API server holds. *)
Definition patchStatus (server : list RuledZone) (base new : RuledZone) : list RuledZone :=
  map (fun x => if rz_Name x =s rz_Name new
                then mkRuledZone (rz_Zone x) (rz_Generation x) (rz_Restrictions x)
                       (mergeField (encoded (rz_Effective base)) (encoded (rz_Effective new)) (rz_Effective x))
                       (mergeField (rz_Conditions base) (rz_Conditions new) (rz_Conditions x))
                else x) server.

Definition setConditions (z : RuledZone) (conds : list ZoneCondition) : RuledZone :=
  mkRuledZone (rz_Zone z) (rz_Generation z) (rz_Restrictions z) (rz_Effective z) conds.

(** What one pass meets: the listing and the zone the manager's cache answers with ([None]: not found), the
    conditions computeZoneConditions puts, whether another field of the status differs, and whether a status
    patch succeeds. *)
Record PassInput := mkPassInput {
  pi_listed : list RuledZone;
  pi_got : option RuledZone;
  pi_topology : list ZoneCondition;
  pi_moved : bool;
  pi_patched : bool
}.

(** One Reconcile of a zone, as far as its restrictions go, against the zones the API server holds. *)
Definition reconcileZone (recorder : bool) (ctl : ZoneCtl) (server : list RuledZone) (i : PassInput) : ZoneCtl * list RuledZone :=
  match pi_got i with
  | None => (ctl, server)
  | Some original =>
      let zoneObj := setConditions original (fold_left upsertCondition (pi_topology i) (rz_Conditions original)) in
      let '(ctl, zoneObj, _) := reconcileRestrictions recorder ctl zoneObj (pi_listed i) in
      (ctl, if negb (statusEqual original zoneObj) || pi_moved i
            then if pi_patched i then patchStatus server original zoneObj else server
            else server)
  end.

(** ** The chain, exactly *)

(** Root-downward: the first zone has no parent, and each further one names the one before it. *)
Fixpoint linked (parent : string) (chain : list RuledZone) : Prop :=
  match chain with
  | [] => True
  | z :: chain => rz_Parent z = parent /\ linked (rz_Name z) chain
  end.

Lemma zonesByName_elem zones n z : zonesByName zones !! n = Some z -> z ∈ zones /\ rz_Name z = n.
Proof.
  unfold zonesByName. induction zones as [|x zones IH] using rev_ind; simpl; [done|]. rewrite fold_left_app. simpl.
  rewrite elem_of_app, list_elem_of_singleton. destruct (decide (rz_Name x = n)) as [<-|Hne].
  - rewrite lookup_insert_eq. naive_solver.
  - rewrite lookup_insert_ne by done. naive_solver.
Qed.

Section chain.
Context (byName : gmap string RuledZone).
Hypothesis Hnames : forall n z, byName !! n = Some z -> rz_Name z = n.

(** The zones of the chain above those already walked. *)
Lemma climbChain_spec fuel : forall seen upward cur chain broken,
  climbChain fuel byName seen upward cur = Some (chain, broken) -> byName !! rz_Name cur = Some cur -> linked (rz_Name cur) (rev upward) ->
  exists pre, chain = pre ++ rev upward /\ (forall z, z ∈ pre -> byName !! rz_Name z = Some z) /\ (broken = None -> linked "" chain) /\
    (rz_Name cur ∉ seen -> exists more, pre = more ++ [cur]).
Proof.
  induction fuel as [|fuel IH]; intros seen upward cur chain broken; simpl; [done|]. intros H Hcur Hl.
  destruct (bool_decide (rz_Name cur ∈ seen)) eqn:Es.
  { injection H as <- <-. exists []. apply bool_decide_eq_true in Es. split; [done|]. split; [intros z Hz; by apply not_elem_of_nil in Hz|]. done. }
  apply bool_decide_eq_false in Es. destruct (rz_Parent cur =s "") eqn:Ep.
  { injection H as <- <-. apply eqb_s_true in Ep. rewrite rev_app_distr. exists [cur]. split; [done|].
    split; [intros z ->%list_elem_of_singleton; done|]. split; [done|]. intros _. by exists []. }
  destruct (byName !! rz_Parent cur) as [next|] eqn:En.
  - destruct (IH _ _ _ _ _ H) as (pre & -> & Hpre & Hlk & _).
    { by rewrite (Hnames _ _ En). }
    { rewrite rev_app_distr. simpl. by rewrite (Hnames _ _ En). }
    rewrite rev_app_distr in *. exists (pre ++ [cur]). split; [by rewrite <- (assoc _)|]. split; [|split; [done|intros _; by exists pre]].
    intros z [Hz| ->%list_elem_of_singleton]%elem_of_app; [by apply Hpre|done].
  - injection H as <- <-. rewrite rev_app_distr. exists [cur]. split; [done|].
    split; [intros z ->%list_elem_of_singleton; done|]. split; [done|]. intros _. by exists [].
Qed.

(** The walk colours a new zone each time, so its fuel is enough. *)
Lemma climbChain_enough fuel : forall seen upward cur,
  byName !! rz_Name cur = Some cur -> seen ⊆ dom byName -> (size byName < fuel + size seen)%nat ->
  exists r, climbChain fuel byName seen upward cur = Some r.
Proof.
  induction fuel as [|fuel IH]; intros seen upward cur Hcur Hsub Hsz; simpl.
  { exfalso. pose proof (subseteq_size _ _ Hsub). rewrite size_dom in *. lia. }
  destruct (bool_decide (rz_Name cur ∈ seen)) eqn:Es; [by eauto|]. apply bool_decide_eq_false in Es.
  destruct (rz_Parent cur =s ""); [by eauto|]. destruct (byName !! rz_Parent cur) as [next|] eqn:En; [|by eauto].
  apply IH; [by rewrite (Hnames _ _ En)| |].
  - apply union_least; [|done]. apply singleton_subseteq_l, elem_of_dom. eauto.
  - rewrite size_union, size_singleton by set_solver. lia.
Qed.

End chain.

(** The chain of a zone that is not listed is empty and broken. *)
Lemma ancestorChain_unlisted name all : zonesByName all !! name = None -> ancestorChain name all = ([], Some (NotListed name)).
Proof. unfold ancestorChain. by intros ->. Qed.

(** The chain of a listed zone ends with the zone, holds zones of the listing only, and, unless it is broken,
    starts at a zone without a parent. *)
Lemma ancestorChain_spec name all self : zonesByName all !! name = Some self ->
  exists above broken, ancestorChain name all = (above ++ [self], broken) /\ (broken = None -> linked "" (above ++ [self])) /\
    (forall z, z ∈ above ++ [self] -> z ∈ all).
Proof.
  intros Hs. unfold ancestorChain. rewrite Hs. pose proof (zonesByName_elem all name self Hs) as [_ Hn].
  assert (Hnames : forall n z, zonesByName all !! n = Some z -> rz_Name z = n) by (intros n z H; exact (proj2 (zonesByName_elem all n z H))).
  destruct (climbChain_enough _ Hnames (chainFuel (zonesByName all)) ∅ [] self) as [[chain broken] Hr].
  { by rewrite Hn. } { set_solver. } { unfold chainFuel. lia. }
  rewrite Hr. simpl. destruct (climbChain_spec _ Hnames _ _ _ _ _ _ Hr) as (pre & -> & Hpre & Hl & Hlast); [by rewrite Hn|done|].
  destruct (Hlast (not_elem_of_empty _)) as [more ->]. simpl in *. rewrite app_nil_r in *. exists more, broken. split; [done|]. split; [done|].
  intros z Hz. by apply (zonesByName_elem all (rz_Name z)), Hpre.
Qed.

(** ** The fingerprint, exactly *)

Fixpoint hasChar (c : Ascii.ascii) (s : string) : bool :=
  match s with EmptyString => false | String d s => Ascii.eqb c d || hasChar c s end.
Definition bar : Ascii.ascii := Ascii.ascii_of_nat 124.
Definition at_ : Ascii.ascii := Ascii.ascii_of_nat 64.

Lemma hasChar_app c s t : hasChar c (s +:+ t) = hasChar c s || hasChar c t.
Proof. induction s as [|d s IH]; [done|]. rewrite string_app_cons. cbn [hasChar]. by rewrite IH, orb_assoc. Qed.

(** A separator that neither side holds parts them at the same place. *)
Lemma split_at c s : forall t x y, hasChar c s = false -> hasChar c t = false -> s +:+ String c x = t +:+ String c y -> s = t /\ x = y.
Proof.
  induction s as [|d s IH]; intros [|e t] x y Hs Ht; rewrite ?string_app_cons; cbn [hasChar] in *.
  - by intros [= ->].
  - intros [= -> _]. by rewrite Ascii.eqb_refl in Ht.
  - intros [= -> _]. by rewrite Ascii.eqb_refl in Hs.
  - apply orb_false_iff in Hs as [_ Hs]. apply orb_false_iff in Ht as [_ Ht]. intros [= -> H].
    destruct (IH t x y Hs Ht H) as [-> ->]. done.
Qed.

Lemma digits_hasChar c s : isDigit c = false -> allDigits s = true -> hasChar c s = false.
Proof.
  intros Hc. induction s as [|d s IH]; [done|]. cbn. intros [Hd Hs]%andb_true_iff. rewrite IH by done. rewrite orb_false_r.
  destruct (Ascii.eqb c d) eqn:E; [|done]. apply Ascii.eqb_eq in E as ->. congruence.
Qed.

Definition plainName (s : string) : Prop := hasChar bar s = false /\ hasChar at_ s = false.
Definition plainZone (z : RuledZone) : Prop := plainName (rz_Name z) /\ hasChar bar (rz_Parent z) = false /\ 0 <= rz_Generation z <= MaxInt64.

Definition segment (z : RuledZone) : string := rz_Name z +:+ String at_ (showInt (rz_Generation z)).
Fixpoint segments (chain : list RuledZone) : string :=
  match chain with [] => "" | z :: chain => String bar (segment z +:+ segments chain) end.

Lemma fingerprint_segments chain broken : restrictionsFingerprint chain broken = breakText broken +:+ segments chain.
Proof.
  unfold restrictionsFingerprint. generalize (breakText broken). induction chain as [|z chain IH]; intros t; cbn [fold_left segments].
  - by rewrite string_app_nil.
  - rewrite IH. unfold segment. by rewrite !string_app_assoc.
Qed.

Lemma showInt_inj a b : 0 <= a <= MaxInt64 -> 0 <= b <= MaxInt64 -> showInt a = showInt b -> a = b.
Proof.
  intros Ha Hb. rewrite !showInt_nonneg by lia. intros H. pose proof (Atoi_FormatUint a Ha) as H1. rewrite H, (Atoi_FormatUint b Hb) in H1. congruence.
Qed.

Lemma segment_bar z : plainZone z -> hasChar bar (segment z) = false.
Proof.
  intros ((Hb & _) & _ & Hg). unfold segment. rewrite hasChar_app, Hb. cbn [orb]. change (hasChar bar (String at_ ?s)) with (Ascii.eqb bar at_ || hasChar bar s).
  apply digits_hasChar; [done|]. rewrite showInt_nonneg by lia. apply FormatUint_digits. lia.
Qed.

Definition version (z : RuledZone) : string * Z := (rz_Name z, rz_Generation z).

Lemma segment_inj z y : plainZone z -> plainZone y -> segment z = segment y -> version z = version y.
Proof.
  intros ((_ & Ha) & _ & Hg) ((_ & Hb) & _ & Hh) H. apply split_at in H as [Hn Hs]; [|done..]. unfold version. rewrite Hn.
  by rewrite (showInt_inj _ _ Hg Hh Hs).
Qed.

Lemma segments_inj l : forall k s t, hasChar bar s = false -> hasChar bar t = false -> Forall plainZone l -> Forall plainZone k ->
  s +:+ segments l = t +:+ segments k -> s = t /\ version <$> l = version <$> k.
Proof.
  induction l as [|z l IH]; intros [|y k] s t Hs Ht Hl Hk; cbn [segments].
  - rewrite !string_app_nil. done.
  - rewrite string_app_nil. intros ->. rewrite hasChar_app in Hs. cbn [hasChar] in Hs. rewrite Ascii.eqb_refl, orb_true_r in Hs. done.
  - rewrite string_app_nil. intros <-. rewrite hasChar_app in Ht. cbn [hasChar] in Ht. rewrite Ascii.eqb_refl, orb_true_r in Ht. done.
  - intros [-> H]%split_at; [|done..]. inversion_clear Hl. inversion_clear Hk.
    apply IH in H as [Hs' Hv]; [|by apply segment_bar|by apply segment_bar|done..]. by rewrite !fmap_cons, Hv, (segment_inj z y).
Qed.

(** The fingerprint of a chain tells its zones, their generations, and whether it is broken. *)
Lemma fingerprint_inj l k b c : Forall plainZone l -> Forall plainZone k -> hasChar bar (breakText b) = false -> hasChar bar (breakText c) = false ->
  restrictionsFingerprint l b = restrictionsFingerprint k c -> version <$> l = version <$> k /\ breakText b = breakText c.
Proof. intros Hl Hk Hb Hc. rewrite !fingerprint_segments. intros [??]%segments_inj; done. Qed.

Definition breakOf (z : RuledZone) (b : chainBreak) : Prop := b = Revisits (rz_Name z) \/ b = NoParent (rz_Name z) (rz_Parent z).

Lemma climbChain_break byName fuel : forall seen upward cur chain b,
  climbChain fuel byName seen upward cur = Some (chain, Some b) -> breakOf cur b \/ exists n z, byName !! n = Some z /\ breakOf z b.
Proof.
  induction fuel as [|fuel IH]; intros seen upward cur chain b; simpl; [done|]. case_match; [intros [= <- <-]; left; by left|].
  case_match; [done|]. destruct (byName !! rz_Parent cur) as [next|] eqn:En.
  - intros [Hb|Hz]%IH; [right; by exists (rz_Parent cur), next|by right].
  - intros [= <- <-]. left. by right.
Qed.

Lemma quoted_bar s : hasChar bar s = false -> hasChar bar (quoted s) = false.
Proof. intros H. unfold quoted. by rewrite !hasChar_app, H. Qed.

Lemma breakOf_plain z b : plainZone z -> breakOf z b -> hasChar bar (breakText (Some b)) = false.
Proof.
  intros ((Hn & _) & Hp & _) [->| ->]; cbn [breakText]; rewrite !hasChar_app, !quoted_bar by done; reflexivity.
Qed.

Lemma breakText_None b : breakText b = "" <-> b = None.
Proof. destruct b as [[]|]; done. Qed.

(** The chain read for a name is of listed zones, and its fingerprint is never empty. *)
Lemma ancestorChain_plain name all : hasChar bar name = false -> Forall plainZone all ->
  let '(chain, broken) := ancestorChain name all in
  Forall plainZone chain /\ hasChar bar (breakText broken) = false /\ (forall z, z ∈ chain -> z ∈ all) /\ restrictionsFingerprint chain broken <> "".
Proof.
  intros Hname Hall. destruct (zonesByName all !! name) as [self|] eqn:Hs.
  2:{ rewrite ancestorChain_unlisted by done. split_and!; [constructor| |intros z Hz; by apply not_elem_of_nil in Hz|done].
      cbn [breakText]. by rewrite !hasChar_app, quoted_bar. }
  destruct (ancestorChain_spec name all self Hs) as (above & broken & Ha & _ & Hin). rewrite Ha. rewrite Forall_forall in *.
  split_and!; [intros z Hz; by apply Hall, Hin| |done|].
  - destruct broken as [b|]; [|done]. unfold ancestorChain in Ha. rewrite Hs in Ha.
    destruct (climbChain _ _ _ _ _) as [[c ob]|] eqn:Ec; simpl in Ha; [|by destruct above]. injection Ha as -> ->.
    apply climbChain_break in Ec as [Hb|(n & z & Hz & Hb)].
    + apply (breakOf_plain self); [|done]. by apply Hall, (zonesByName_elem all name).
    + apply (breakOf_plain z); [|done]. by apply Hall, (zonesByName_elem all n).
  - rewrite fingerprint_segments. destruct (breakText broken); [|done]. by destruct above.
Qed.

(** ** Runs *)

(** A generation of a name is one version of its spec. *)
Definition versioned (specAt : string -> Z -> option ZoneRestrictions) (z : RuledZone) : Prop :=
  rz_Restrictions z = specAt (rz_Name z) (rz_Generation z).

Lemma declaredRules_version specAt z y : versioned specAt z -> versioned specAt y -> version z = version y ->
  rz_Name z = rz_Name y /\ declaredRules z = declaredRules y.
Proof. unfold versioned, version, declaredRules. intros -> -> [= -> ->]. done. Qed.

Lemma resolve_version specAt l k : Forall (versioned specAt) l -> Forall (versioned specAt) k -> version <$> l = version <$> k ->
  resolveZoneRestrictions l = resolveZoneRestrictions k.
Proof.
  intros Hl Hk Hv. assert (Hf : foldChain l = foldChain k); [|unfold resolveZoneRestrictions; by rewrite Hf].
  unfold foldChain. generalize emptyFold. revert k Hk Hv. induction Hl as [|z l Hz Hl IH]; intros [|y k] Hk Hv f; try done. inversion_clear Hk.
  pose proof (f_equal head Hv) as Hzy. pose proof (f_equal tail Hv) as Hlk. apply (inj Some) in Hzy.
  simpl. destruct (declaredRules_version specAt z y) as [-> ->]; [done..|]. by apply IH.
Qed.

Record ZWorld := mkZWorld { zw_ctl : ZoneCtl; zw_zones : list RuledZone }.

(** The API server keeps a zone's status under an edit of its spec, and a new zone has none. *)
Definition keepsStatus (zones zones' : list RuledZone) : Prop :=
  forall z', z' ∈ zones' -> rz_Effective z' = None \/
    exists z, z ∈ zones /\ rz_Name z = rz_Name z' /\ rz_Effective z = rz_Effective z' /\ rz_Conditions z = rz_Conditions z'.

Record zonesWf (ns : string) (specAt : string -> Z -> option ZoneRestrictions) (zones : list RuledZone) : Prop := mkZonesWf {
  zwf_names : NoDup (rz_Name <$> zones);
  zwf_plain : Forall plainZone zones;
  zwf_version : Forall (versioned specAt) zones;
  zwf_namespace : Forall (fun z => fz_Namespace (rz_Zone z) = ns) zones;
  zwf_encoded : Forall (fun z => encoded (rz_Effective z) = rz_Effective z) zones
}.

(** The zone's cached copy carries the status the API server holds: the cache has seen the last write of it. *)
Definition ownStatusSeen (server : list RuledZone) (got : RuledZone) : Prop :=
  exists z, z ∈ server /\ rz_Name z = rz_Name got /\ rz_Effective z = rz_Effective got /\ rz_Conditions z = rz_Conditions got.

(** A pass whose listing may be as stale as it likes, whose own zone carries its current status, and whose
    patch succeeds. *)
Definition passOn (ns : string) (specAt : string -> Z -> option ZoneRestrictions) (server : list RuledZone) (got : RuledZone) (i : PassInput) : Prop :=
  pi_got i = Some got /\ pi_patched i = true /\ zonesWf ns specAt (pi_listed i) /\ plainZone got /\ fz_Namespace (rz_Zone got) = ns /\
  ownStatusSeen server got /\ Forall (fun c => zc_Type c <> ZoneCondRestrictionsResolved) (pi_topology i).

Inductive zoneStep (recorder : bool) (ns : string) (specAt : string -> Z -> option ZoneRestrictions) : ZWorld -> ZWorld -> Prop :=
| ZPass w got i : passOn ns specAt (zw_zones w) got i ->
    zoneStep recorder ns specAt w (let '(c, z) := reconcileZone recorder (zw_ctl w) (zw_zones w) i in mkZWorld c z)
| ZEdit w zones : keepsStatus (zw_zones w) zones -> zonesWf ns specAt zones -> zoneStep recorder ns specAt w (mkZWorld (zw_ctl w) zones)
| ZRestart w : zoneStep recorder ns specAt w (mkZWorld newZoneCtl (zw_zones w)).

(** What the API server holds of a zone describes a chain and whether it is broken. *)
Definition describes (z : RuledZone) (chain : list RuledZone) (broken : option chainBreak) : Prop :=
  rz_Effective z = Some (map omitEmpty (resolveZoneRestrictions chain).1) /\
  (unresolvedReason z = None <-> broken = None).

Lemma patchStatus_elem server base y x : x ∈ patchStatus server base y <->
  exists z, z ∈ server /\ x = if rz_Name z =s rz_Name y
    then mkRuledZone (rz_Zone z) (rz_Generation z) (rz_Restrictions z)
           (mergeField (encoded (rz_Effective base)) (encoded (rz_Effective y)) (rz_Effective z))
           (mergeField (rz_Conditions base) (rz_Conditions y) (rz_Conditions z)) else z.
Proof. unfold patchStatus. rewrite list_elem_of_In, in_map_iff. setoid_rewrite <- list_elem_of_In. naive_solver. Qed.

Lemma names_unique zones x y : NoDup (rz_Name <$> zones) -> x ∈ zones -> y ∈ zones -> rz_Name x = rz_Name y -> x = y.
Proof.
  intros Hnd Hx Hy Hn. apply list_elem_of_lookup in Hx as [i Hi]. apply list_elem_of_lookup in Hy as [j Hj].
  assert (i = j) as ->; [|congruence]. apply (NoDup_lookup _ _ _ (rz_Name x) Hnd); rewrite list_lookup_fmap, ?Hi, ?Hj; simpl; congruence.
Qed.

Lemma omitEmpty_idem e : omitEmpty (omitEmpty e) = omitEmpty e.
Proof. unfold omitEmpty, setBounds, copyStrings. simpl. by destruct (ez_Allowed e) as [[|]|]. Qed.

Lemma upsert_same conds c : List.find (fun x => zc_Type x =s zc_Type c) (upsertCondition conds c) = Some c.
Proof.
  unfold upsertCondition. induction conds as [|x conds IH]; simpl; [by rewrite eqb_s_refl|].
  destruct (zc_Type x =s zc_Type c) eqn:E; simpl; [by rewrite eqb_s_refl|].
  destruct (existsb _ conds); simpl; rewrite E; exact IH.
Qed.

Lemma upsert_other conds c t : t <> zc_Type c -> List.find (fun x => zc_Type x =s t) (upsertCondition conds c) = List.find (fun x => zc_Type x =s t) conds.
Proof.
  intros Ht. assert (Hc : (zc_Type c =s t) = false) by (apply eqb_s_false; congruence).
  unfold upsertCondition. induction conds as [|x conds IH]; simpl; [by rewrite Hc|].
  destruct (zc_Type x =s zc_Type c) eqn:E; simpl.
  - apply eqb_s_true in E. rewrite Hc, E, Hc. done.
  - destruct (existsb _ conds); simpl; by rewrite IH.
Qed.

Lemma find_resolved conds broken contradictions :
  List.find (fun x => zc_Type x =s ZoneCondRestrictionsResolved)
    (upsertCondition (upsertCondition conds (resolvedCondition broken)) (consistentCondition contradictions)) = Some (resolvedCondition broken).
Proof.
  rewrite upsert_other by (by destruct contradictions). pose proof (upsert_same conds (resolvedCondition broken)) as H.
  by destruct broken.
Qed.

Section runs.
Context (recorder : bool) (ns : string) (specAt : string -> Z -> option ZoneRestrictions).

Definition describesAll (z : RuledZone) (fp : string) : Prop :=
  forall chain broken, Forall plainZone chain -> hasChar bar (breakText broken) = false -> Forall (versioned specAt) chain ->
    restrictionsFingerprint chain broken = fp -> describes z chain broken.

Definition memoOk (w : ZWorld) : Prop :=
  zonesWf ns specAt (zw_zones w) /\
  forall z fp, z ∈ zw_zones w -> rz_Effective z <> None -> zk_restrictFP (zw_ctl w) !! zoneKey z = Some fp -> describesAll z fp.

Lemma describes_all z chain broken : Forall plainZone chain -> hasChar bar (breakText broken) = false -> Forall (versioned specAt) chain ->
  describes z chain broken -> describesAll z (restrictionsFingerprint chain broken).
Proof.
  intros Hp Hb Hv [He Hr] chain' broken' Hp' Hb' Hv' Hfp. apply fingerprint_inj in Hfp as [Hver Htext]; [|done..]. split.
  - by rewrite (resolve_version specAt chain' chain).
  - rewrite Hr, <- !breakText_None. by rewrite Htext.
Qed.

Lemma topology_resolved topo : forall conds, Forall (fun c => zc_Type c <> ZoneCondRestrictionsResolved) topo ->
  List.find (fun x => zc_Type x =s ZoneCondRestrictionsResolved) (fold_left upsertCondition topo conds) =
  List.find (fun x => zc_Type x =s ZoneCondRestrictionsResolved) conds.
Proof. induction topo as [|c topo IH]; intros conds Ht; [done|]. inversion_clear Ht. simpl. rewrite IH by done. by apply upsert_other. Qed.

(** What the pass makes of the zone it got describes the chain it read. *)
Lemma reconcile_describes w got i : memoOk w -> passOn ns specAt (zw_zones w) got i ->
  let '(chain, broken) := ancestorChain (rz_Name got) (pi_listed i) in
  let '(ctl, z', _) := reconcileRestrictions recorder (zw_ctl w)
    (setConditions got (fold_left upsertCondition (pi_topology i) (rz_Conditions got))) (pi_listed i) in
  zk_restrictFP ctl = <[zoneKey got := restrictionsFingerprint chain broken]> (zk_restrictFP (zw_ctl w)) /\
  rz_Name z' = rz_Name got /\
  forall x, rz_Effective x = encoded (rz_Effective z') -> rz_Conditions x = rz_Conditions z' -> describes x chain broken.
Proof.
  intros [Hwf Hmemo] (_ & _ & Hlw & Hplain & Hns & (z & Hin & Hn & Heff & Hcond) & Htopo).
  pose proof (ancestorChain_plain (rz_Name got) (pi_listed i) (proj1 (proj1 Hplain)) (zwf_plain _ _ _ Hlw)) as Hch.
  unfold reconcileRestrictions. change (rz_Name (setConditions got ?c)) with (rz_Name got). change (zoneKey (setConditions got ?c)) with (zoneKey got).
  destruct (ancestorChain (rz_Name got) (pi_listed i)) as [chain broken]. destruct Hch as (Hp & Hb & Hall & Hne).
  cbn [setConditions rz_Effective rz_Conditions rz_Zone rz_Generation rz_Restrictions].
  destruct (_ && _) eqn:Eu.
  - apply andb_true_iff in Eu as [Eu%eqb_s_true Ee]. destruct (rz_Effective got) as [eff|] eqn:Eeff; [|done]. cbn [zk_restrictFP]. split; [done|]. split; [done|].
    assert (Hkey : zoneKey z = zoneKey got).
    { unfold zoneKey. rewrite Hn, Hns. pose proof (zwf_namespace _ _ _ Hwf) as Hz. rewrite Forall_forall in Hz. by rewrite (Hz z Hin). }
    destruct (zk_restrictFP (zw_ctl w) !! zoneKey got) as [fp|] eqn:Em; simpl in Eu; [|by destruct Hne].
    destruct (Hmemo z fp Hin ltac:(by rewrite Heff) ltac:(by rewrite Hkey) chain broken) as [Hd1 Hd2]; [done..| |done|].
    { apply Forall_forall. intros x Hx. by apply (proj1 (Forall_forall _ _) (zwf_version _ _ _ Hlw)), Hall. }
    intros x Hx Hc. cbn [setConditions rz_Effective rz_Conditions] in Hx, Hc. rewrite Heff in Hd1. injection Hd1 as ->. split.
    + rewrite Hx, Eeff. cbn [encoded option_map]. f_equal. rewrite map_map. apply map_ext. apply omitEmpty_idem.
    + rewrite <- Hd2. unfold unresolvedReason. rewrite Hc, topology_resolved, <- Hcond, Hx, Eeff, Heff by done. done.
  - destruct (resolveZoneRestrictions chain) as [effective contradictions] eqn:Er.
    destruct (warnOnContradiction _ _ _ _) as [alerted warns]. cbn [zk_restrictFP rz_Name rz_Zone rz_Effective rz_Conditions encoded option_map].
    split; [done|]. split; [done|]. intros x Hx Hc. split; [by rewrite Hx, Er|].
    unfold unresolvedReason. rewrite Hx, Hc, find_resolved. by destruct broken.
Qed.

(** What the API server holds after the pass: the zone's status is what the pass made of it, patched or found
    equal, and nothing else changes. *)
Lemma pass_writes server got z' (moved : bool) : zonesWf ns specAt server -> ownStatusSeen server got -> rz_Name z' = rz_Name got ->
  let server' := if negb (statusEqual got z') || moved then patchStatus server got z' else server in
  rz_Name <$> server' = rz_Name <$> server /\
  (forall x', x' ∈ server' -> exists x, x ∈ server /\ rz_Zone x' = rz_Zone x /\ rz_Generation x' = rz_Generation x /\ rz_Restrictions x' = rz_Restrictions x /\
     if rz_Name x =s rz_Name got then rz_Effective x' = encoded (rz_Effective z') /\ rz_Conditions x' = rz_Conditions z'
     else x' = x) /\
  (exists x', x' ∈ server' /\ rz_Name x' = rz_Name got).
Proof.
  intros Hwf (z & Hin & Hn & Heff & Hcond) Hz'. simpl.
  assert (Hone : forall x, x ∈ server -> rz_Name x = rz_Name got -> rz_Effective x = encoded (rz_Effective got) /\ rz_Conditions x = rz_Conditions got).
  { intros x Hx Hxn. assert (x = z) as -> by (apply (names_unique _ _ _ (zwf_names _ _ _ Hwf)); congruence).
    pose proof (zwf_encoded _ _ _ Hwf) as He. rewrite Forall_forall in He. specialize (He z Hin). rewrite <- Heff. split; [by rewrite He|done]. }
  destruct (negb (statusEqual got z') || moved) eqn:Ew.
  - split_and!.
    + unfold patchStatus. clear. induction server as [|x server IH]; [done|]. cbn [map]. rewrite !fmap_cons, IH. by case_match.
    + intros x' (x & Hx & ->)%patchStatus_elem. exists x. rewrite Hz'. destruct (rz_Name x =s rz_Name got) eqn:E; [|by split_and!].
      apply eqb_s_true in E. destruct (Hone x Hx E) as [E1 E2]. cbn. split_and!; try done; unfold mergeField; case_bool_decide as Hb; congruence.
    + eexists. split; [apply patchStatus_elem; exists z; split; [done|reflexivity]|]. by case_match.
  - apply orb_false_iff in Ew as [Ew%negb_false_iff _]. apply andb_true_iff in Ew as [Ee%bool_decide_eq_true Ec%bool_decide_eq_true].
    split_and!; [done| |by exists z]. intros x Hx. exists x. split_and!; try done. destruct (rz_Name x =s rz_Name got) eqn:E; [|done].
    apply eqb_s_true in E. destruct (Hone x Hx E) as [E1 E2]. split; congruence.
Qed.

(** The zones stay well formed, and the zone describes what the pass read. *)
Lemma pass_memoOk w got i : memoOk w -> passOn ns specAt (zw_zones w) got i ->
  let '(c, server') := reconcileZone recorder (zw_ctl w) (zw_zones w) i in
  memoOk (mkZWorld c server') /\
  let '(chain, broken) := ancestorChain (rz_Name got) (pi_listed i) in
  exists x, x ∈ server' /\ rz_Name x = rz_Name got /\ describes x chain broken.
Proof.
  intros Hok Hpass. pose proof (reconcile_describes w got i Hok Hpass) as Hd. destruct Hok as [Hwf Hmemo].
  destruct Hpass as (Hgot & Hpat & Hlw & Hplain & Hns & Hown & Htopo). unfold reconcileZone. rewrite Hgot, Hpat.
  pose proof (ancestorChain_plain (rz_Name got) (pi_listed i) (proj1 (proj1 Hplain)) (zwf_plain _ _ _ Hlw)) as Hch.
  destruct (ancestorChain (rz_Name got) (pi_listed i)) as [chain broken]. destruct Hch as (Hp & Hb & Hall & _).
  destruct (reconcileRestrictions _ _ _ _) as [[ctl z'] warns]. destruct Hd as (Hfp & Hn' & Hd).
  destruct (pass_writes (zw_zones w) got z' (pi_moved i) Hwf Hown Hn') as (Hnames & Hwr & (x0 & Hx0 & Hx0n)).
  set (server' := if _ || _ then _ else _) in *.
  assert (Hdesc : forall x, x ∈ server' -> rz_Name x = rz_Name got -> describes x chain broken).
  { intros x' Hx' Hxn. destruct (Hwr x' Hx') as (x & Hx & Hz & _ & _ & Hw). assert (rz_Name x = rz_Name got) as E by (unfold rz_Name in *; congruence).
    rewrite (proj2 (eqb_s_true _ _) E) in Hw. destruct Hw. by apply Hd. }
  assert (Hwf' : zonesWf ns specAt server').
  { destruct Hwf as [H1 H2 H3 H4 H5]. rewrite Forall_forall in *. split; [by rewrite Hnames|..]; apply Forall_forall; intros x' Hx';
      destruct (Hwr x' Hx') as (x & Hx & Ez & Eg & Er & Hw); unfold plainZone, versioned, rz_Name, rz_Parent in *; rewrite ?Ez, ?Eg, ?Er;
      [by apply (H2 x)|by apply (H3 x)|by apply (H4 x)|]. destruct (_ =s _); [|subst x'; by apply H5].
    destruct Hw as [-> _]. unfold encoded. destruct (rz_Effective z'); [|done]. simpl. f_equal. rewrite map_map. apply map_ext. apply omitEmpty_idem. }
  split; [split; [done|]|by exists x0; split_and!; [..|apply Hdesc]].
  cbn [zw_zones zw_ctl]. intros x' fp Hx' He Hm. rewrite Hfp in Hm. destruct (decide (rz_Name x' = rz_Name got)) as [E|E].
  - assert (Hkey : zoneKey x' = zoneKey got).
    { unfold zoneKey. rewrite E, Hns. pose proof (zwf_namespace _ _ _ Hwf') as Hz. rewrite Forall_forall in Hz. by rewrite (Hz x' Hx'). }
    rewrite Hkey, lookup_insert_eq in Hm. injection Hm as <-. apply describes_all; [done..| |by apply Hdesc].
    apply Forall_forall. intros x Hx. by apply (proj1 (Forall_forall _ _) (zwf_version _ _ _ Hlw)), Hall.
  - destruct (Hwr x' Hx') as (x & Hx & Ez & _ & _ & Hw). assert (En : rz_Name x' = rz_Name x) by (unfold rz_Name; congruence).
    rewrite (proj2 (eqb_s_false _ _)) in Hw by congruence. subst x'. rewrite lookup_insert_ne in Hm; [by apply (Hmemo x)|].
    unfold zoneKey. pose proof (zwf_namespace _ _ _ Hwf) as Hz. rewrite Forall_forall in Hz. rewrite Hns, (Hz x Hx).
    intros Heq%string_app_inj_l%string_app_inj_l. congruence.
Qed.

Lemma memoOk_step w w' : memoOk w -> zoneStep recorder ns specAt w w' -> memoOk w'.
Proof.
  intros Hok Hstep. revert Hok. destruct Hstep as [u got i Hp|u zones Hk Hw|u]; intros Hok.
  - pose proof (pass_memoOk u got i Hok Hp) as H. destruct (reconcileZone _ _ _ _). by destruct H.
  - destruct Hok as [Hwf Hmemo]. split; [done|]. simpl. intros z' fp Hz' He Hm. destruct (Hk z' Hz') as [?|(z & Hz & Hn & Heff & Hcond)]; [done|].
    assert (Hkey : zoneKey z = zoneKey z').
    { unfold zoneKey. rewrite Hn. pose proof (zwf_namespace _ _ _ Hwf) as Hns. pose proof (zwf_namespace _ _ _ Hw) as Hns'.
      rewrite Forall_forall in Hns, Hns'. by rewrite (Hns z Hz), (Hns' z' Hz'). }
    rewrite <- Hkey in Hm. intros chain broken H1 H2 H3 H4. destruct (Hmemo z fp Hz ltac:(by rewrite Heff) Hm chain broken H1 H2 H3 H4) as [Hd1 Hd2].
    unfold describes, unresolvedReason in *. by rewrite <- Heff, <- Hcond.
  - destruct Hok as [Hwf _]. split; [done|]. simpl. intros z fp _ _ Hm. by rewrite lookup_empty in Hm.
Qed.

End runs.


(** ** Runs evaluated *)

Definition exDenyEntry : option ZoneRestrictions := Some (mkZoneRestrictions (Some (mkEntryRule ZoneRestrictionDenied "closed")) [] []).
(** The versions of two specs: the site denies entry from its second generation on. *)
Definition exSpecAt (name : string) (gen : Z) : option ZoneRestrictions :=
  if name =s "site" then if gen =? 1 then None else exDenyEntry else exOperating "camera" ZoneRestrictionDenied "" [].
Definition exZonesAt (site : Z) : list RuledZone :=
  [exRuled "site" "" site (exSpecAt "site" site) None; exRuled "room" "site" 1 (exSpecAt "room" 1) None].

(** A pass over a zone whose cache is up to date. *)
Definition freshInput (w : ZWorld) (name : string) (patched : bool) : PassInput :=
  mkPassInput (zw_zones w) (zonesByName (zw_zones w) !! name) [] false patched.
Definition exRun (w : ZWorld) (i : PassInput) : ZWorld :=
  let '(c, z) := reconcileZone true (zw_ctl w) (zw_zones w) i in mkZWorld c z.
Definition exPass (w : ZWorld) (name : string) (patched : bool) : ZWorld := exRun w (freshInput w name patched).
Definition exEdit (f : RuledZone -> RuledZone) (w : ZWorld) : ZWorld := mkZWorld (zw_ctl w) (map f (zw_zones w)).
Definition siteAt (gen : Z) (r : option ZoneRestrictions) (z : RuledZone) : RuledZone :=
  if rz_Name z =s "site" then mkRuledZone (rz_Zone z) gen r (rz_Effective z) (rz_Conditions z) else z.

Definition exStart : ZWorld := mkZWorld newZoneCtl (exZonesAt 1).
Definition exPassed : ZWorld := exPass exStart "room" true.
Definition exEdited : ZWorld := exEdit (siteAt 2 (exSpecAt "site" 2)) exPassed.

Ltac zones_wf := split; [apply (bool_decide_eq_true_1 _); vm_compute; reflexivity|..];
  repeat (constructor; [vm_compute; repeat split; solve [reflexivity|intros; discriminate]|]); constructor.

(** The subjects and modes a zone's stored projection carries. *)
Definition projectionOf (zones : list RuledZone) (name : string) : option (list (string * ZoneRestrictionMode)) :=
  z ← zonesByName zones !! name; eff ← rz_Effective z; Some (map (fun e => (keyOf e, ez_Mode e)) eff).

(** A pass from an up-to-date cache is one the theorem speaks of. *)
Lemma fresh_passOn ns specAt w name z : zonesWf ns specAt (zw_zones w) -> zonesByName (zw_zones w) !! name = Some z ->
  passOn ns specAt (zw_zones w) z (freshInput w name true).
Proof.
  intros Hwf Hz. destruct (zonesByName_elem _ _ _ Hz) as [Hin _]. pose proof Hwf as [_ Hp _ Hn _]. rewrite Forall_forall in Hp, Hn.
  split_and!; [exact Hz|done|exact Hwf|by apply Hp|by apply Hn|by exists z|constructor].
Qed.


(** The condition on the zone's own status is needed, and an unlucky cache breaks it. The site denies entry
    (generation 2) and the room carries that. The denial is lifted (generation 3); a pass over the room reads
    that, and before its patch lands the denial is put back (generation 4). The next pass reads generation 4
    from the cache, but not yet the patch just made: its fold equals the status it got, so it writes nothing,
    and remembers the fingerprint. The API server holds the open projection; when the cache has caught up, the
    passes over the room find the fingerprint unchanged and leave it. *)
Theorem stale_status_is_kept :
  let denied := exPass (exEdit (siteAt 2 exDenyEntry) exPassed) "room" true in
  let lifted := exEdit (siteAt 3 None) denied in
  let putBack := exEdit (siteAt 4 exDenyEntry) lifted in
  let patched := exRun putBack (freshInput lifted "room" true) in      (* read before the edit, landed after it *)
  let skipped := exRun patched (freshInput putBack "room" true) in     (* the edit is in the cache, the patch is not yet *)
  let later := exPass (exPass skipped "room" true) "room" true in
  projectionOf (zw_zones denied) "room" = Some [("Entry/", "Denied"); ("Operating/camera", "Denied")] /\
  map keyOf (resolveZoneRestrictions (ancestorChain "room" (zw_zones later)).1).1 = ["Entry/"; "Operating/camera"] /\
  projectionOf (zw_zones later) "room" = Some [("Operating/camera", "Denied")] /\
  option_map unresolvedReason (zonesByName (zw_zones later) !! "room") = Some None.
Proof. vm_compute. auto. Qed.

(** A status patch that fails is not made again: the memo already holds the fingerprint, so every later pass over
    the same specs returns before it folds. Here the site comes to deny entry, the one patch of the room's status
    is refused (a conflict, a timeout), and the passes after it leave the room open and resolved. *)
Theorem failed_patch_is_not_retried :
  (forall recorder ctl z all, rz_Effective z <> None ->
     let '(ctl1, _, _) := reconcileRestrictions recorder ctl z all in reconcileRestrictions recorder ctl1 z all = (ctl1, z, false)) /\
  let failed := exPass exEdited "room" false in
  let later := exPass (exPass failed "room" true) "room" true in
  projectionOf (zw_zones (exPass exEdited "room" true)) "room" = Some [("Entry/", "Denied"); ("Operating/camera", "Denied")] /\
  projectionOf (zw_zones later) "room" = Some [("Operating/camera", "Denied")] /\
  option_map unresolvedReason (zonesByName (zw_zones later) !! "room") = Some None.
Proof.
  split; [|vm_compute; auto]. intros recorder ctl z all He. unfold reconcileRestrictions. destruct (ancestorChain _ _) as [chain broken].
  set (fp := restrictionsFingerprint chain broken).
  assert (Hagain : forall f : gmap string string, (default "" (<[zoneKey z := fp]> f !! zoneKey z) =s fp) && match rz_Effective z with Some _ => true | None => false end = true).
  { intros f. rewrite lookup_insert_eq. simpl. rewrite eqb_s_refl. by destruct (rz_Effective z). }
  destruct (_ && _) eqn:E; cbn [zk_restrictFP].
  - rewrite Hagain. cbn [zk_restrictFP zk_recomputes zk_alerted]. by rewrite insert_insert_eq.
  - destruct (resolveZoneRestrictions chain) as [eff con]. destruct (warnOnContradiction _ _ _ _) as [al wa]. cbn [zk_restrictFP zk_recomputes zk_alerted].
    rewrite Hagain. by rewrite insert_insert_eq.
Qed.

(** A zone deleted and created again has generation 1 again. A zone below it that is not reconciled in between
    sees the same names and generations, so it keeps the rules of the old one. *)
Theorem recreated_parent_is_not_read :
  let again := exEdit (siteAt 1 exDenyEntry) exPassed in
  projectionOf (zw_zones (exPass again "room" true)) "room" = Some [("Operating/camera", "Denied")] /\
  map keyOf (resolveZoneRestrictions (ancestorChain "room" (zw_zones again)).1).1 = ["Entry/"; "Operating/camera"].
Proof. vm_compute. auto. Qed.

(** Two allow-lists with no value in common are emitted as a denial only while the rule is Limited. Below them a
    zone that requires the subject makes it Required: the empty list is emitted, and the API server, which omits an
    empty list, then holds a rule that permits every value. *)
Theorem required_publishes_empty_list :
  let chain := [exRuled "site" "" 1 (exOperating "chemical" ZoneRestrictionLimited "" ["bleach"]) None;
                exRuled "ward" "site" 1 (exOperating "chemical" ZoneRestrictionLimited "" ["peroxide"]) None;
                exRuled "bay" "ward" 1 (exOperating "chemical" ZoneRestrictionRequired "" []) None] in
  let eff := (resolveZoneRestrictions chain).1 in
  map (fun e => (ez_Mode e, ez_Allowed e)) eff = [(ZoneRestrictionRequired, Some [])] /\
  map (fun e => permits e S754_nan "ammonia") eff = [false] /\
  map (fun e => permits (omitEmpty e) S754_nan "ammonia") eff = [true].
Proof. vm_compute. auto. Qed.
