(* ===== verification/ActionController.v ===== *)
(** src/internal/controller/fleetaction_controller.go with held_finalizer.go, renewal_held.go,
    stop_outcome.go, preemption_victim.go and dispatch_zone_stopped.go: one pass of the FleetAction
    controller, as a program of Conc. Each call to the API server, the adapter, the Traffic Deconfliction
    Engine, the generation store, the clock and the process's own memos is an event whose answer the
    outside world chooses. The candidate filters of the dispatch (adapter_readiness.go, dispatch_filters.go,
    dispatch_holds.go and the zone restrictions) are one event, whose answer is whatever they
    decide; they are modelled in DispatchFilters, and DispatchFilterProps proves what the theorems take of it.
    Kubernetes Events and audit entries are events named by their reason; logs and metrics are left out. *)

From S2P Require Import Prelude.
From S2P Require Import Types.
From S2P Require Import Contract.
From S2P Require Import Conc.
From S2P Require Import EstopScope.
From S2P Require Import Command.
From S2P Require Import ExecutorGuard.
From S2P Require Import FencingStore.
From S2P Require Import Scheduler.
From S2P Require Import Tde.
From S2P Require Import ExecutorGate.
From S2P Require Import SafetyData.
From S2P Require Import ActionData.

(** ** Events *)

(** What filterDispatchEligible answers: the robots it leaves, those it withholds, the filters it could not
    apply, and the zone restrictions' verdict. *)
Record zoneRestrictionVerdict := mkVerdict {
  zv_refuse : bool;
  zv_terminal : bool;
  zv_reason : string;
  zv_message : string;
  zv_narrowedOut : list string;
  zv_wire : string -> list EffectiveOperatingConstraint     (* the operating rules an assignment to a robot carries *)
}.

Record Filtered := mkFiltered {
  fd_eligible : list RobotObject;
  fd_withheld : list dispatchExclusion;
  fd_degraded : list string;
  fd_restrictions : option zoneRestrictionVerdict
}.

(** The texts of the no-candidate message: noCandidateMessage and operatingConstraintMessage. *)
Record Tally := mkTally { tl_candidates : string; tl_operating : string }.

Inductive ActEv :=
| AGate (e : GateEv)                                     (* what the executor gate does, and the same calls made here *)
| AGetAction (name : string)                             (* the cached Get of a FleetAction *)
| ALiveGetAction (name : string)
| AListRobots                                            (* the cached List of the Robots *)
| AConfig                                                (* namespaceConfig *)
| ANamespace                                             (* the live Get of the Namespace: whether it is being deleted *)
| AStatus (base action : Action)                         (* status patch under base's resourceVersion *)
| AFinalizer (base : Action) (hold : bool)               (* the stop finalizer, under base's resourceVersion *)
| AMeta (base action : Action)                           (* merge patch of the annotations *)
| ARobotMerge (base : RobotObject) (o : RobotObject)     (* status merge patch of a Robot, with no resourceVersion *)
| AFilter (action : Action) (robots : list RobotObject)
| ASensorGate (action : Action) (robots : list RobotObject)
| ATally (action : Action) (withheld : list dispatchExclusion) (survivors : list RobotObject)
| ADeclined (action : Action)                            (* the memo of declined assignments *)
| ARecordDecline (action : Action) (robot rejection : string) (subjects : list string)
| AForgetDeclines (action : Action)
| AValidate (robot actionType customType : string) (payload : option string)
| AReserve (action robot zone : string) (priority : ActionPriority)   (* RequestReservation, with mayEvict *)
| ARelease (zone action : string)                        (* ReleaseReservation *)
| AHoldSlot (zone action : string) (phase : ActionPhase) (* OnActionPhaseChanged *)
| AMint (action : Action)                                (* mintGeneration *)
| AAssign (robot : string) (a : AssignAction)
| ARenew (robot action : string) (generation duration : Z)
| AErrorText                                             (* the text of the last error *)
| AEvent (reason : string)                               (* a Kubernetes Event *)
| AAudit (eventType : string) (prior : ActionPhase)      (* an audit entry *)
| AAuthorize (robotID : string)                          (* the reporting stream's per-robot check *)
| AFirstTokenless (adapter conn : string).               (* the memory of connections warned (connMemory.first) *)

Definition actResp (e : ActEv) : Type :=
  match e with
  | AGate e => gateResp e
  | AGetAction _ | ALiveGetAction _ => result readError Action
  | AListRobots => option (list RobotObject)
  | AConfig => option ActionConfig
  | ANamespace => result readError bool
  | AStatus _ _ | AFinalizer _ _ => result writeError Z     (* the resourceVersion written *)
  | AMeta _ _ => result writeError Action                   (* the object the API server holds then *)
  | ARobotMerge _ _ => option writeError
  | AFilter _ _ => Filtered
  | ASensorGate _ _ => option sensorStreamRefusal
  | ATally _ _ _ => Tally
  | ADeclined _ => gmap string operatingDecline
  | AValidate _ _ _ _ => result cmdError ValidateOutcome
  | AReserve _ _ _ _ => bool * ReservationResult            (* whether the engine failed *)
  | AMint _ => result mintError Z
  | AAssign _ _ => result cmdError AssignActionOutcome
  | ARenew _ _ _ _ => result cmdError RenewLeaseOutcome
  | AErrorText => string
  | AAuthorize _ | AFirstTokenless _ _ => bool
  | _ => unit
  end.

Notation P := (prog actResp).

Fixpoint liftGate {A : Type} (p : prog gateResp A) : P A :=
  match p with
  | Ret a => Ret a
  | Vis e k => Vis (AGate e) (fun a => liftGate (k a))
  | Lock key k => Lock key (liftGate k)
  | Unlock key k => Unlock key (liftGate k)
  | Fork q k => Fork (liftGate q) (liftGate k)
  end.

(** ** Errors and results *)

Inductive actError :=
| AGateError (e : gateError)
| AReadError (what : string)
| AStopsError (robot : string)
| AWriteError (e : writeError)
| AMintError (e : mintError).

(** errors.IsConflict *)
Definition isConflict (e : actError) : bool :=
  match e with
  | AGateError (ErrRelease _ WriteConflict) | AWriteError WriteConflict | AMintError ErrConflict => true
  | _ => false
  end.

(** ctrl.Result: nothing, Requeue, or RequeueAfter. One returned beside an error is not read. *)
Definition Res : Type := result actError OrphanOutcome.

Definition tryBind {A B : Type} (p : P (result actError A)) (k : A -> P (result actError B)) : P (result actError B) :=
  let* r := p in match r with Ok a => k a | Err e => Ret (Err e) end.

Notation "'let*?' x := p 'in' k" := (tryBind p (fun x => k))
  (at level 10, x pattern, p at level 100, k at level 200) : go_scope.

Definition after {A : Type} (p : P (result actError A)) (o : OrphanOutcome) : P Res := let*? _ := p in Ret (Ok o).

(** *** Calls *)

Definition getNow : P Time := trigger (AGate ENow).
Definition timings : P (Duration * Duration * Duration) := liftGate leaseTimings.

(** The object a status write answers with. *)
Definition stored (action : Action) (rv : Z) : Action :=
  setStatusOf (withVersion action rv (ac_Held action)) (encodeStatus (ac_Status action)).

Definition patchActionStatus (action original : Action) : P (result actError Action) :=
  let* r := trigger (AStatus original action) in
  match r with Ok rv => Ret (Ok (stored action rv)) | Err e => Ret (Err (AWriteError e)) end.

Definition patchMeta (action base : Action) : P (result actError Action) :=
  let* r := trigger (AMeta base action) in
  match r with Ok a => Ret (Ok a) | Err e => Ret (Err (AWriteError e)) end.

(** A Robot's status patch under the resourceVersion it was read at. *)
Definition patchRobot (robot : string) (rv : Z) (o : RobotObject) : P (result actError ()) :=
  let* r := trigger (AGate (EPatch robot rv o)) in
  match r with None => Ret (Ok tt) | Some e => Ret (Err (AWriteError e)) end.

Definition getRobot (robot : string) : P (result readError RobotObject) := trigger (AGate (EGet robot)).
Definition liveRobot (robot : string) : P (result readError RobotObject) := trigger (AGate (ELiveGet robot)).

Definition dropAnnotation (action : Action) (key : string) : Action := setAnnotations action (delete key (ac_Annotations action)).

(** ReadWorld through the live reader. *)
Definition readWorld : P (option (list FleetZone * list SwarmadaConfig)) :=
  let* zones := trigger (AGate EZones) in
  match zones with
  | None => Ret None
  | Some zones =>
      let* configs := trigger (AGate EConfigs) in
      match configs with None => Ret None | Some configs => Ret (Some (zones, configs)) end
  end.

Definition stopNames (robot : Robot) : P (result actError (list string)) :=
  let* w := readWorld in
  match w with
  | None => Ret (Err (AStopsError (r_Name robot)))
  | Some (zones, configs) =>
      match stopNamesOf zones configs robot with
      | Ok names => Ret (Ok names)
      | Err _ => Ret (Err (AStopsError (r_Name robot)))
      end
  end.

Definition stopCoveringA (robot : Robot) : P (result actError string) :=
  let* c := liftGate (stopCovering robot) in
  match c with Ok c => Ret (Ok c) | Err e => Ret (Err (AGateError e)) end.

(** The optional parts of the reconciler: whether each is set, and time.RFC3339. *)
Record Reconciler := mkReconciler {
  rc_Commander : bool;
  rc_Validator : bool;
  rc_TDE : bool;
  rc_Audit : bool;
  rc_Recorder : bool;
  rc_rfc3339 : Time -> string
}.

Section Controller.
Context (rc : Reconciler).

Definition when (b : bool) (p : P unit) : P unit := if b then p else Ret tt.

Definition emit (reason : string) : P unit := when (rc_Recorder rc) (trigger (AEvent reason)).

Definition releaseReservation (action : Action) : P unit :=
  when (rc_TDE rc && (ac_Zone action <>s "")) (trigger (ARelease (ac_Zone action) (ac_Name action))).

Definition unreserveOnFailure (reserved : bool) (action : Action) : P unit :=
  when (reserved && rc_TDE rc) (trigger (ARelease (ac_Zone action) (ac_Name action))).

(** ** Cancels and confirmed stops *)

Definition pushCancelA (action : Action) (robot : string) (intent : cancelIntent) : P (bool * CancelDisposition) :=
  liftGate (pushCancel (gateOf action) robot (ci_reason intent) (ci_cause intent)).

Definition confirmedStopWithDisposition (action : Action) (robotName : string) (intent : cancelIntent) : P (bool * CancelDisposition) :=
  let fall (unconfirmed : bool) :=
    let* (_, _, skew) := timings in
    let* now := getNow in
    let dead := leaseProvablyDead (ac_Lease action) now skew in
    Ret (dead, if unconfirmed then CancelStopUnconfirmed else CancelStoppedSafely) in
  if rc_Commander rc then
    let* (ok, disp) := pushCancelA action robotName intent in
    if ok && negb (stopUnconfirmed disp) then Ret (true, disp) else fall ok
  else fall false.

Definition confirmedStop (action : Action) (robotName : string) (intent : cancelIntent) : P bool :=
  let* (ok, _) := confirmedStopWithDisposition action robotName intent in Ret ok.

Definition holdStop (action original : Action) (msg : string) : P Res :=
  let wait := let* (_, renew, _) := timings in Ret (Ok (RequeueAfter renew)) in
  if ac_Message action <>s msg then
    let*? _ := patchActionStatus (edit action (putMessage msg)) original in wait
  else wait.

(** ** Releasing robots *)

Definition releaseRobotForStop (action : Action) (robotName : string) : P (result actError ()) :=
  if robotName =s "" then Ret (Ok tt)
  else
    let* robot := getRobot robotName in
    match robot with
    | Err NotFound => Ret (Ok tt)
    | Err Unread => Ret (Err (AReadError "robot"))
    | Ok robot =>
        if ob_AssignedAction robot <>s ac_Name action then Ret (Ok tt)
        else patchRobot robotName (ob_rv robot) (released robot)
    end.

Definition releaseBoundUnlessCovered (action : Action) (robotName : string) : P (result actError ()) :=
  if robotName =s "" then Ret (Ok tt)
  else
    let* robot := liveRobot robotName in
    match robot with
    | Err NotFound => Ret (Ok tt)
    | Err Unread => Ret (Err (AReadError "robot"))
    | Ok robot =>
        if ob_AssignedAction robot <>s ac_Name action then Ret (Ok tt)
        else
          let*? covered := stopCoveringA (ob_Robot robot) in
          if KeepsRecord covered false then Ret (Ok tt) else releaseRobotForStop action robotName
    end.

Definition releaseRecordersA (action : Action) (now : Time) (skew : Duration) : P (result actError Duration) :=
  let* r := liftGate (releaseRecorders (rc_Commander rc) (gateOf action) now skew) in
  match r with Ok (wait, _, _) => Ret (Ok wait) | Err e => Ret (Err (AGateError e)) end.

(** ** Ends *)

Definition recordActionCancelled (intent : cancelIntent) : P unit :=
  when (rc_Audit rc) (trigger (AAudit (if ci_supersededAudit intent then "FLEETACTION_SUPERSEDED" else "FLEETACTION_CANCELLED") "")).

Definition emitCancelEvent (intent : cancelIntent) : P unit :=
  if ci_eventReason intent =s "" then Ret tt else emit (ci_eventReason intent).

Definition finalizeCancel (action original : Action) (robotName : string) (intent : cancelIntent) : P (result actError ()) :=
  let*? _ := releaseBoundUnlessCovered action robotName in
  let msg := if (ci_reason intent <>s "") && (ci_reason intent <>s "true") then "cancelled: " +:+ ci_reason intent else "cancelled by operator" in
  let* now := getNow in
  let action := edit action (fun s => applyCancelAttribution intent
    (putCompletionTime (Some now) (putMessage msg (putLeaseExpiresAt None (putAssignedRobot "" (putPhase ActionPhaseCancelled s)))))) in
  let*? action := patchActionStatus action original in
  let* _ := releaseReservation action in
  let* _ := emitCancelEvent intent in
  let* _ := recordActionCancelled intent in
  Ret (Ok tt).

Definition handleCancel (action original : Action) (intent : cancelIntent) : P Res :=
  let robotName := ac_Robot action in
  let finalize := after (finalizeCancel action original robotName intent) Done in
  if robotName =s "" then finalize
  else
    let* stopped := confirmedStop action robotName intent in
    if stopped then finalize else holdStop action original cancellingMessage.

(** The requeue annotation is dropped, and the object is then what the API server answers. *)
Definition clearRequeue (action : Action) : P (result actError Action) := patchMeta (dropAnnotation action annRequeueRequested) action.

Definition finalizeRequeue (action original : Action) (robotName reason : string) : P (result actError ()) :=
  let*? _ := releaseRobotForStop action robotName in
  let msg := if (reason <>s "") && (reason <>s "true") then "requeued: " +:+ reason else "requeued for zone maintenance" in
  let* reentered := getNow in
  let action := edit action (fun s =>
    putPendingSince (Some reentered) (putMessage msg (putLeaseExpiresAt None (putAssignedRobot "" (putPhase ActionPhasePending s))))) in
  let*? action := patchActionStatus action original in
  let* (_, _, skew) := timings in
  let* now := getNow in
  let* d := liftGate (recordersDecision (rc_Commander rc) (gateOf action) now skew true) in
  match d with
  | Err e => Ret (Err (AGateError e))
  | Ok _ =>
      let* _ := releaseReservation action in
      let*? _ := clearRequeue action in
      Ret (Ok tt)
  end.

Definition finalizeCapabilityLossFailure (action original : Action) : P (result actError ()) :=
  let* now := getNow in
  let action := edit action (fun s =>
    putMessage "adapter recovered the robot after capability loss; task failed"
      (putFailedAt (Some now) (putFailureReason reasonCapabilityLostDuringExecution (putPhase ActionPhaseFailed s)))) in
  let*? action := patchActionStatus action original in
  let*? _ := clearRequeue action in
  let* _ := emit "ActionRecoveredCapabilityLoss" in
  Ret (Ok tt).

Definition finalizeStopUnconfirmed (action original : Action) (robotName reason : string) : P (result actError ()) :=
  let* now := getNow in
  let fail (action : Action) :=
    let action := edit action (fun s =>
      putMessage ("requeue (" +:+ reason +:+ ") not carried out: the robot's stop was commanded and its rest " +:+
                  "was not witnessed; " +:+ robotName +:+ " stays bound until its lease has provably expired")
        (putFailedAt (Some now) (putFailureReason reasonStopUnconfirmed (putPhase ActionPhaseFailed s)))) in
    let*? action := patchActionStatus action original in
    let*? _ := clearRequeue action in
    let* _ := emit "ActionStopUnconfirmed" in
    Ret (Ok tt) in
  match ac_Lease action with
  | Some _ => fail action
  | None =>
      let* (leaseDur, _, _) := timings in
      fail (edit action (putLeaseExpiresAt (Some (now + leaseDur))))
  end.

Definition clearRequeueAnnotation (action : Action) : P (result actError ()) :=
  if has (ac_Annotations action) annRequeueRequested then let*? _ := clearRequeue action in Ret (Ok tt) else Ret (Ok tt).

Definition handleRequeue (action original : Action) (waitMsg : string) : P Res :=
  let reason := valueOf (ac_Annotations action) annRequeueRequested in
  let robotName := ac_Robot action in
  if robotName =s "" then after (finalizeRequeue action original robotName reason) Done
  else
    let cause := if reason =s reasonCapabilityLost then CancelCauseCapabilityLoss else CancelCauseUnspecified in
    let* (confirmed, disp) := confirmedStopWithDisposition action robotName (unattributedCancelIntent reason cause) in
    if stopUnconfirmed disp then after (finalizeStopUnconfirmed action original robotName reason) Done
    else if negb confirmed then holdStop action original waitMsg
    else
      match reason =s reasonCapabilityLost, disp with
      | true, CancelRecovered => after (finalizeCapabilityLossFailure action original) Done
      | true, CancelCompleted => after (clearRequeueAnnotation action) Done
      | _, _ => after (finalizeRequeue action original robotName reason) Done
      end.

Definition succeedOnCompletedCancel (action original : Action) : P (result actError ()) :=
  let* now := getNow in
  let action := edit action (fun s =>
    putMessage "robot reported the action complete in answer to its preemption cancel; not requeued"
      (let s := putProgressPct 100 (putCompletionTime (Some now) (putCompletedAt (Some now) (putPhase ActionPhaseSucceeded s))) in
       match as_StartedAt s with None => putStartedAt (Some now) s | Some _ => s end)) in
  let*? _ := patchActionStatus action original in
  Ret (Ok tt).

Definition handleCompletionTimeout (action original : Action) : P Res :=
  let robotName := ac_Robot action in
  let reason := "timeoutSeconds (" +:+ showInt (default 0 (ac_TimeoutSeconds action)) +:+ "s) elapsed since status.startedAt" in
  let* stopped := confirmedStop action robotName (unattributedCancelIntent reason CancelCauseUnspecified) in
  if negb stopped then holdStop action original timingOutMessage
  else
    let*? _ := releaseRobotForStop action robotName in
    let* now := getNow in
    let action := edit action (fun s =>
      putMessage reason (putFailureReason reason (putCompletionTime (Some now) (putFailedAt (Some now) (putPhase ActionPhaseFailed s))))) in
    after (patchActionStatus action original) Done.

(** ** Stops over the work *)

Definition stopOver (robot : string) : P (result actError (list string * bool)) :=
  let* live := liveRobot robot in
  match live with
  | Err NotFound => Ret (Ok ([], false))
  | Err Unread => Ret (Err (AReadError "robot"))
  | Ok live => let*? stops := stopNames (ob_Robot live) in Ret (Ok (stops, stopConfirmed (ob_Robot live)))
  end.

(** The stops, whether the robot confirmed its stop, and whether its Robot object is gone. *)
Definition stopsOverBoundRobot (action : Action) : P (result actError (list string * bool * bool)) :=
  let* live := liveRobot (ac_Robot action) in
  match live with
  | Ok live => let*? stops := stopNames (ob_Robot live) in Ret (Ok (stops, stopConfirmed (ob_Robot live), false))
  | Err Unread => Ret (Err (AReadError "robot"))
  | Err NotFound =>
      let* w := readWorld in
      match w with
      | None => Ret (Err (AStopsError (ac_Robot action)))
      | Some (zones, configs) => Ret (Ok (namespaceStopsOf zones configs, false, true))
      end
  end.

Definition addNames (out names : list string) : list string :=
  fold_left (fun out n => if bool_decide (n ∈ out) then out else out ++ [n]) names out.

Fixpoint stopNamesAll (robots : list RobotObject) (out : list string) : P (result actError (list string)) :=
  match robots with
  | [] => Ret (Ok (sort_Strings out))
  | o :: robots => let*? names := stopNames (ob_Robot o) in stopNamesAll robots (addNames out names)
  end.

Definition stopsOverWork (action : Action) : P (result actError (list string)) :=
  if ac_Robot action <>s "" then
    let* rb := liveRobot (ac_Robot action) in
    match rb with
    | Err NotFound => Ret (Ok [])
    | Err Unread => Ret (Err (AReadError "robot"))
    | Ok rb => stopNamesAll [rb] []
    end
  else
    let* list := trigger (AGate ELiveList) in
    match list with
    | None => Ret (Err (AReadError "robots"))
    | Some list => stopNamesAll (List.filter (fun o => ob_AssignedAction o =s ac_Name action) list) []
    end.

Definition EventActionAwaitingOperatorDecision : string := "ActionAwaitingOperatorDecision".

(** A message written on its transition, with one Warning Event. *)
Definition holdWith (action original : Action) (msg event : string) (renew : Duration) : P Res :=
  if ac_Message action =s msg then Ret (Ok (RequeueAfter renew))
  else
    let*? _ := patchActionStatus (edit action (putMessage msg)) original in
    let* _ := emit event in
    Ret (Ok (RequeueAfter renew)).

Definition waitForAPerson (action original : Action) (robot : string) (stops : list string) (renew : Duration) : P Res :=
  let why := match as_StartedAt (ac_Status action) with
             | Some _ => "it had started this action and may hold its payload"
             | None => "it never reported this action started; its running report may have been lost, and it may hold its payload"
             end in
  let msg := keepRequeueWait action (awaitingDecision action stops
    ("robot " +:+ robot +:+ " did not confirm the stop and " +:+ "its lease is provably dead, but " +:+ why +:+ "; inspect the robot first")) in
  holdWith action original msg EventActionAwaitingOperatorDecision renew.

Definition holdUnderUnconfirmedStop (action original : Action) (robot : string) (stops : list string) (now : Time)
    (leaseDur renew skew : Duration) : P Res :=
  match ac_Lease action with
  | None => after (patchActionStatus (edit action (putLeaseExpiresAt (Some (now + leaseDur)))) original) (RequeueAfter renew)
  | Some _ =>
      if WaitsForAPerson stops false (leaseProvablyDead (ac_Lease action) now skew) (heldByOperator action)
      then waitForAPerson action original robot stops renew
      else Ret (Ok (RequeueAfter (Z.min renew (untilLeaseHorizon (ac_Lease action) now renew skew))))
  end.

Definition holdRevokingUnderEstop (action original : Action) (renew : Duration) : P Res :=
  let msg := keepRequeueWait action estopHeldRevokingMessage in
  if ac_Message action <>s msg
  then after (patchActionStatus (edit action (putMessage msg)) original) (RequeueAfter renew)
  else Ret (Ok (RequeueAfter renew)).

(** [robot] is the robot's name and estop state. *)
Definition holdUnderStop (action original : Action) (robot : string) (estopState : RobotEstopState) (stops : list string)
    (renew : Duration) (why : string) : P Res :=
  let stops := match stops with [] => ["robot/" +:+ robot +:+ " (estopState " +:+ estopState +:+ ")"] | _ => stops end in
  holdWith action original (keepRequeueWait action (awaitingDecision action stops why)) EventActionAwaitingOperatorDecision renew.

(** [robot]: the cached read, [None] when it was not found. *)
Definition holdsWork (robot : option RobotObject) : bool := match robot with Some o => estopHoldsWork (ob_Robot o) | None => false end.

(** [None]: the rule does not apply. *)
Definition holdPreemptedUnderStop (action original : Action) (robot : option RobotObject) (renew : Duration)
    : P (result actError (option OrphanOutcome)) :=
  if ac_Phase action <>s ActionPhasePreempted then Ret (Ok None)
  else
    let*? (stops, _, gone) := stopsOverBoundRobot action in
    if (length stops =? 0)%nat && negb (holdsWork robot) then Ret (Ok None)
    else
      let given := match as_StartedAt (ac_Status action) with None => "was given" | Some _ => "had started" end in
      let why :=
        if gone then
          "robot " +:+ ac_Robot action +:+ " " +:+ given +:+ " this action and its Robot object is gone, so nothing records where it stands " +:+
          "and any stop in the namespace may hold it; the work is not released on its own"
        else
          "robot " +:+ ac_Robot action +:+ " " +:+ given +:+ " this action and a stop holds it, so the work is not released on its own" in
      let '(name, state) := match robot with Some o => (r_Name (ob_Robot o), r_EstopState (ob_Robot o)) | None => (ac_Robot action, "") end in
      let*? o := holdUnderStop action original name state stops renew why in
      Ret (Ok (Some o)).

(** ** Pausing *)

Definition recordActionPausedByEstop (prior : ActionPhase) : P unit :=
  when (rc_Audit rc) (trigger (AAudit "ACTION_PAUSED_BY_ESTOP" prior)).

Inductive pauseIntake := pauseStopConfirmed | pauseCancelRobot | pauseUnderStop.

Definition pauseAssignedUnderStop (action original : Action) (message : string) (now : Time) (leaseDur leaseRenew : Duration) : P Res :=
  let action := edit action (putPhase ActionPhasePaused) in
  let action := if negb (leaseStampHeld action) || negb (isSome (ac_Lease action))
                then edit action (putLeaseExpiresAt (Some (now + leaseDur))) else action in
  after (patchActionStatus (edit action (putMessage message)) original) (RequeueAfter leaseRenew).

Definition pausedCancelIntent : cancelIntent := unattributedCancelIntent "desiredState=Paused" CancelCauseUnspecified.

(** The hold of an Assigned action that is not row A1's: the binding is released, the robot's record with
    proof only. *)
Definition pauseAssigned (action original : Action) (robot : option RobotObject) (message : string) (intake : pauseIntake) : P Res :=
  let* (robotOff, message) :=
    match intake, robot with
    | pauseCancelRobot, Some _ =>
        if rc_Commander rc then
          let* (ok, disp) := pushCancelA action (ac_Robot action) pausedCancelIntent in
          Ret (ok && negb (stopUnconfirmed disp), pausedMessageWithStop message ok disp false)
        else Ret (false, message)
    | pauseStopConfirmed, _ => Ret (true, message)
    | _, _ => Ret (false, message)
    end in
  let release (k : P Res) : P Res :=
    match robot with
    | Some o =>
        if robotOff && (ob_AssignedAction o =s ac_Name action) then
          let*? covered := stopCoveringA (ob_Robot o) in
          if KeepsRecord covered false then k
          else let*? _ := patchRobot (r_Name (ob_Robot o)) (ob_rv o) (released o) in k
        else k
    | None => k
    end in
  release
    (let action := edit action (fun s => putMessage message (putLeaseExpiresAt None (putAssignedRobot "" (putPhase ActionPhasePaused s)))) in
     let* _ := releaseReservation action in
     after (patchActionStatus action original) Done).

Definition pauseInProgress (action original : Action) (robot : option RobotObject) (message : string) (now : Time)
    (leaseDur leaseRenew : Duration) (intake : pauseIntake) : P Res :=
  let* message :=
    match intake with
    | pauseCancelRobot =>
        if rc_Commander rc then
          let* (ok, disp) := pushCancelA action (ac_Robot action) pausedCancelIntent in
          Ret (pausedMessageWithStop message ok disp true)
        else Ret message
    | _ => Ret message
    end in
  let action := edit action (putPhase ActionPhasePaused) in
  let confirmed := match robot with Some o => stopConfirmed (ob_Robot o) | None => false end in
  let action := if (confirmed && negb (leaseStampHeld action)) || negb (isSome (ac_Lease action))
                then edit action (putLeaseExpiresAt (Some (now + leaseDur))) else action in
  after (patchActionStatus (edit action (putMessage message)) original) (RequeueAfter leaseRenew).

Definition applyPauseTransition (action original : Action) (robot : option RobotObject) (message : string) (now : Time)
    (leaseDur leaseRenew : Duration) (intake : pauseIntake) : P Res :=
  if ac_Phase action =s ActionPhaseAssigned then
    match intake with
    | pauseUnderStop => pauseAssignedUnderStop action original message now leaseDur leaseRenew
    | _ => pauseAssigned action original robot message intake
    end
  else if ac_Phase action =s ActionPhaseInProgress then
    pauseInProgress action original robot message now leaseDur leaseRenew intake
  else Ret (Ok Done).

Definition pauseAssignedUnconfirmed (action original : Action) (now : Time) (leaseDur renew skew : Duration) : P Res :=
  let action := edit action (putPhase ActionPhasePaused) in
  let action := if isSome (ac_Lease action) then action else edit action (putLeaseExpiresAt (Some (now + leaseDur))) in
  if negb (leaseProvablyDead (ac_Lease action) now skew) then
    let*? action := patchActionStatus (edit action (putMessage estopPausedUnconfirmedMessage)) original in
    Ret (Ok (RequeueAfter (Z.min renew (untilLeaseHorizon (ac_Lease action) now renew skew))))
  else
    let* robot := liveRobot (ac_Robot action) in
    match robot with
    | Ok robot =>
        let*? (stops, confirmed) := stopOver (r_Name (ob_Robot robot)) in
        if WaitsForAPerson stops confirmed true (heldByOperator action)
        then waitForAPerson action original (r_Name (ob_Robot robot)) stops renew
        else after (patchActionStatus (edit action (putMessage estopPausedAssignedMessage)) original) (RequeueAfter renew)
    | Err Unread => Ret (Err (AReadError "robot"))
    | Err NotFound =>
        let action := edit action (fun s => putMessage estopPausedAssignedMessage (putLeaseExpiresAt None (putAssignedRobot "" s))) in
        let* _ := releaseReservation action in
        after (patchActionStatus action original) Done
    end.

Definition pauseAssignedForEstop (action original : Action) (robot : RobotObject) (now : Time) (leaseDur renew skew : Duration) : P Res :=
  let* _ := recordActionPausedByEstop ActionPhaseAssigned in
  if r_EstopState (ob_Robot robot) <>s RobotEstopStopped
  then pauseAssignedUnconfirmed action original now leaseDur renew skew
  else applyPauseTransition action original (Some robot) estopPausedAssignedMessage now leaseDur renew pauseUnderStop.

(** *** The lease after a clear (renewal_held.go) *)

Definition setRenewalHeld (action original : Action) (reason msg : string) : P (result actError ()) :=
  let action := edit action (fun s => putConditions (setCondition (mkCondition conditionRenewalHeld true reason msg) (as_Conditions s)) s) in
  let*? _ := patchActionStatus action original in
  let* _ := emit conditionRenewalHeld in
  Ret (Ok tt).

Definition holdRenewalAfterClear (action original : Action) (robot : string) (now : Time) (leaseRenew leaseSkew : Duration) : P Res :=
  let requeue := RequeueAfter (Z.min leaseRenew (untilLeaseHorizon (ac_Lease action) now leaseRenew leaseSkew)) in
  if leaseStampHeld action then Ret (Ok requeue)
  else after (setRenewalHeld action original reasonStopClearedBeforePause
    ("the stop on robot " +:+ robot +:+ " was cleared before this action was paused; its lease is not renewed, " +:+
     "and the robot stops on its own lease, until the robot reports the work ended or an operator cancels, " +:+
     "pauses or requeues it")) requeue.

Definition holdPausedLeaseAfterClear (action original : Action) (robot : string) (now : Time) (leaseRenew leaseSkew : Duration) : P Res :=
  let requeue := RequeueAfter (Z.min leaseRenew (untilLeaseHorizon (ac_Lease action) now leaseRenew leaseSkew)) in
  if leaseStampHeld action then Ret (Ok requeue)
  else after (setRenewalHeld action original reasonStopClearedWhilePaused
    ("the stop on robot " +:+ robot +:+ " was cleared while this action was Paused; its lease is not advanced, " +:+
     "under a later stop either, until the robot reports the work ended or an operator cancels or requeues it")) requeue.

(** ** Requeue requests *)

Definition requeueOfPausedWork (action : Action) : P (result actError (requeueVerdict * string)) :=
  let*? stops := stopsOverWork action in
  match stops with
  | [] => Ret (Ok (requeueRuns, requeuingMessage))
  | _ => Ret (Ok (requeueAskedUnder action stops))
  end.

Definition requeueOvertakenByEstop (action : Action) : P (result actError (requeueVerdict * string)) :=
  let phase := ac_Phase action in
  let runs := Ret (Ok (requeueRuns, requeuingMessage)) in
  if phase =s ActionPhasePaused then requeueOfPausedWork action
  else if (ac_Robot action =s "") ||
          ((phase <>s ActionPhaseAssigned) && (phase <>s ActionPhaseInProgress) && (phase <>s ActionPhaseRevoking)) then runs
  else
    let* robot := getRobot (ac_Robot action) in
    match robot with
    | Err NotFound => runs
    | Err Unread => Ret (Err (AReadError "robot"))
    | Ok robot =>
        let*? (stops, confirmed) := stopOver (r_Name (ob_Robot robot)) in
        if phase =s ActionPhaseRevoking then
          if (length stops =? 0)%nat && negb (estopHoldsWork (ob_Robot robot)) then runs
          else
            let* (_, _, skew) := timings in
            let* now := getNow in
            if WaitsForAPerson stops confirmed (leaseProvablyDead (ac_Lease action) now skew) false
            then Ret (Ok (requeueAskedUnder action stops))
            else Ret (Ok (requeueWaits, ""))
        else if (length stops =? 0)%nat && negb (robotUnderEstop (ob_Robot robot)) then runs
        else
          let*? _ := clearRequeue action in
          let* _ := emit "RequeueOvertakenByEstop" in
          Ret (Ok (requeueDropped, ""))
    end.

Definition EventRequeueHeldByEstop : string := "RequeueHeldByEstop".

Definition holdRequeueUnderEstop (action original : Action) (msg : string) : P Res :=
  let*? _ := patchActionStatus (edit action (putMessage msg)) original in
  let* _ := emit EventRequeueHeldByEstop in
  Ret (Ok (RequeueAfter Second)).

Definition beginCapabilityLossReassignment (action : Action) : P Res :=
  if has (ac_Annotations action) annRequeueRequested then Ret (Ok Requeue)
  else
    let*? _ := patchMeta (setAnnotations action (<[annRequeueRequested := reasonCapabilityLost]> (ac_Annotations action))) action in
    let* _ := emit "ActionReassignedCapabilityLoss" in
    Ret (Ok Requeue).

(** ** Terminal and failed actions *)

Definition clearLeaseHorizon (action : Action) : P (result actError ()) :=
  match ac_Lease action with
  | None => Ret (Ok tt)
  | Some _ => let*? _ := patchActionStatus (edit action (putLeaseExpiresAt None)) action in Ret (Ok tt)
  end.

Definition retireTerminalAction (action : Action) : P Res :=
  let* _ := releaseReservation action in
  let*? _ := releaseRobotForStop action (ac_Robot action) in
  let* (_, _, skew) := timings in
  let* now := getNow in
  let*? wait := releaseRecordersA action now skew in
  if 0 <? wait then Ret (Ok (RequeueAfter wait)) else after (clearLeaseHorizon action) Done.

Definition heldBy (p : P Res) : P (result actError (option OrphanOutcome)) := let*? o := p in Ret (Ok (Some o)).

(** heldFailedAction past a cancel: what a stop makes of a failed action that still holds its robot;
    [None]: no stop holds it. *)
Definition failedUnderStop (action : Action) (dead : bool) (renew skew : Duration) : P (result actError (option OrphanOutcome)) :=
  let robotName := ac_Robot action in
  let* robot := liveRobot robotName in
  match robot with
  | Err Unread => Ret (Err (AReadError "robot"))
  | _ =>
      let*? (stops, _, gone) := stopsOverBoundRobot action in
      let state :=
        match robot with
        | Ok o => if gone || (r_Name (ob_Robot o) =s "") then None else Some (ob_Robot o)
        | Err _ => None
        end in
      if (length stops =? 0)%nat && negb (match state with Some r => estopHoldsWork r | None => false end) then Ret (Ok None)
      else if has (ac_Annotations action) annRequeueRequested then
        heldBy (handleRequeue action action (match stops with [] => requeuingMessage | _ => requeueUnderStopMessage stops end))
      else if negb dead then
        let* now := getNow in
        Ret (Ok (Some (RequeueAfter (untilLeaseHorizon (ac_Lease action) now renew skew))))
      else
        let why :=
          if gone then
            "robot " +:+ robotName +:+ " did not confirm the stop that failed this action and its Robot object is gone, so " +:+
            "nothing records where it stands and any stop in the namespace may hold it; its dead lease does not " +:+
            "release the work"
          else
            "robot " +:+ robotName +:+ " did not confirm the stop that failed this action, and a stop holds it, so its dead lease " +:+
            "does not release the work" in
        heldBy (holdUnderStop action action robotName (match state with Some r => r_EstopState r | None => "" end) stops renew why)
  end.

(** The cancel asked of an action: the operator's annotation, or spec.desiredState. *)
Definition cancelRequest (action : Action) : option cancelIntent :=
  match ac_Annotations action !! annCancelRequested with
  | Some v => Some (operatorCancelIntent v)
  | None => if ac_Desired action =s DesiredStateCancelled
            then Some (unattributedCancelIntent "desiredState=Cancelled" CancelCauseUnspecified) else None
  end.

(** [None]: none of the holds applies. *)
Definition heldFailedAction (action : Action) : P (result actError (option OrphanOutcome)) :=
  let* (_, renew, skew) := timings in
  let* now := getNow in
  let dead := leaseProvablyDead (ac_Lease action) now skew in
  match cancelRequest action with
  | Some intent =>
      if negb dead then heldBy (holdStop action action cancellingMessage)
      else heldBy (after (finalizeCancel action action (ac_Robot action) intent) Done)
  | None => failedUnderStop action dead renew skew
  end.

Definition retryBounds (action : Action) : P (Z * Duration) :=
  match ac_RetryPolicy action with
  | Some (m, b) => Ret (m, b * Second)
  | None => let* cfg := trigger AConfig in Ret (defaultMaxRetries, requeueBackoffOf cfg)
  end.

(** The status of a failed action that goes back to Pending. *)
Definition retried (maxRetries : Z) (s : ActionStatus) : ActionStatus :=
  let s := putRetryCount (int32_of (as_RetryCount s + 1)) s in
  putFailureReason "" (putCompletionTime None (putFailedAt None (putCompletedAt None (putStartedAt None (putScheduledAt None
    (putMessage ("requeued after failure (retry " +:+ showInt (as_RetryCount s) +:+ "/" +:+ showInt maxRetries +:+ ")")
      (putLeaseExpiresAt None (putAssignedRobot "" (putPhase ActionPhasePending s))))))))).

Definition requeueFailedAction (action : Action) (maxRetries : Z) : P Res :=
  let*? action := patchActionStatus (edit action (retried maxRetries)) action in
  if has (ac_Annotations action) annFailureAlerted
  then after (patchMeta (dropAnnotation action annFailureAlerted) action) Done
  else Ret (Ok Done).

(** The action in memory afterwards. *)
Definition alertFailedOnce (action : Action) : P Action :=
  if negb (rc_Recorder rc) then Ret action
  else if has (ac_Annotations action) annFailureAlerted then Ret action
  else
    let* _ := emit "FleetActionFailed" in
    let marked := setAnnotations action (<[annFailureAlerted := "true"]> (ac_Annotations action)) in
    let* r := trigger (AMeta action marked) in
    match r with Ok a => Ret a | Err _ => Ret marked end.

(** handleFailedAction past its holds: the robot and its slot are freed, and the failure policy decides. *)
Definition settleFailedAction (action : Action) : P Res :=
  let* _ := releaseReservation action in
  let*? _ := releaseRobotForStop action (ac_Robot action) in
  let* (_, _, skew) := timings in
  let* now := getNow in
  let*? wait := releaseRecordersA action now skew in
  if 0 <? wait then Ret (Ok (RequeueAfter wait))
  else
    let* (maxRetries, backoff) := retryBounds action in
    if awaitsRetry action then
      match as_FailedAt (ac_Status action) with
      | Some failedAt =>
          let* now := getNow in
          let wait := int64_of (backoff - time_Sub now failedAt) in
          if 0 <? wait then after (clearLeaseHorizon action) (RequeueAfter wait) else requeueFailedAction action maxRetries
      | None => requeueFailedAction action maxRetries
      end
    else
      let* action := if failurePolicy action <>s ActionFailureAbandon then alertFailedOnce action else Ret action in
      after (clearLeaseHorizon action) Done.

Definition handleFailedAction (action : Action) : P Res :=
  let unconfirmed := as_FailureReason (ac_Status action) =s reasonStopUnconfirmed in
  let*? held := if unconfirmed && (ac_Robot action <>s "") then heldFailedAction action else Ret (Ok None) in
  match held with
  | Some o => Ret (Ok o)
  | None =>
      match unconfirmed, ac_Lease action with
      | true, Some _ =>
          let* (_, renew, skew) := timings in
          let* now := getNow in
          if negb (leaseProvablyDead (ac_Lease action) now skew)
          then Ret (Ok (RequeueAfter (untilLeaseHorizon (ac_Lease action) now renew skew)))
          else
            let* _ := emit "ActionStopUnconfirmedReleased" in
            settleFailedAction action
      | _, _ => settleFailedAction action
      end
  end.

(** ** The stop finalizer (held_finalizer.go) *)

Definition heldRecord (robot : RobotObject) : P (result actError bool) :=
  if ob_AssignedAction robot =s "" then Ret (Ok false)
  else if robotUnderEstop (ob_Robot robot) then Ret (Ok true)
  else let*? stops := stopNames (ob_Robot robot) in Ret (Ok (negb (length stops =? 0)%nat)).

Fixpoint recordHolders (name : string) (robots : list RobotObject) (holders : list string) : P (result actError (list string)) :=
  match robots with
  | [] => Ret (Ok (sort_Strings holders))
  | o :: robots =>
      if ob_AssignedAction o <>s name then recordHolders name robots holders
      else
        let*? held := heldRecord o in
        recordHolders name robots (if held then holders ++ [r_Name (ob_Robot o)] else holders)
  end.

(** The robots that hold the record, and the action as it is then. *)
Definition syncHeldFinalizer (action : Action) : P (result actError (list string * Action)) :=
  let* robots := trigger AListRobots in
  match robots with
  | None => Ret (Err (AReadError "robots"))
  | Some robots =>
      let*? holders := recordHolders (ac_Name action) robots [] in
      let*? hold :=
        match holders, ac_Deleted action with
        | _ :: _, true =>
            let* ns := trigger ANamespace in
            match ns with
            | Err NotFound => Ret (Ok false)
            | Err Unread => Ret (Err (AReadError "namespace"))
            | Ok terminating => Ret (Ok (negb terminating))
            end
        | [], _ => Ret (Ok false)
        | _, false => Ret (Ok true)
        end in
      if Bool.eqb hold (ac_Held action) then Ret (Ok (holders, action))
      else
        let* r := trigger (AFinalizer action hold) in
        match r with
        | Err e => Ret (Err (AWriteError e))
        | Ok rv => Ret (Ok (if hold then holders else [], withVersion action rv hold))
        end
  end.

(** The stops over the robots that hold a deleted action's record; [None]: one of them is gone. *)
Fixpoint holderStops (holders stops : list string) : P (result actError (option (list string))) :=
  match holders with
  | [] => Ret (Ok (Some stops))
  | n :: holders =>
      let* rb := liveRobot n in
      match rb with
      | Err NotFound => Ret (Ok None)
      | Err Unread => Ret (Err (AReadError "robot"))
      | Ok rb => let*? names := stopNames (ob_Robot rb) in holderStops holders (stops ++ names)
      end
  end.

Definition awaitDeletedHeld (action : Action) (holders : list string) : P Res :=
  let*? stops := holderStops holders [] in
  match stops with
  | None => Ret (Ok Done)
  | Some stops =>
      let msg := awaitingDecision action stops
        ("this action was deleted while robot " +:+ default "" (head holders) +:+ ", under that stop, " +:+
         "records it; it is kept until the stop no longer holds the robot, and its record is then released when the " +:+
         "robot is provably off it") in
      holdWith action action msg EventActionAwaitingOperatorDecision CoveredRecheck
  end.

(** ** Preemption (preemption_victim.go and the controller) *)

Definition mayDisplace (victim : Action) : P bool :=
  if negb (MaySupersede (Some victim)) || negb (isPreemptible (ac_Priority victim)) || (ac_Robot victim =s "") then Ret false
  else
    let* robot := liveRobot (ac_Robot victim) in
    match robot with
    | Err _ => Ret false
    | Ok robot =>
        if estopHoldsWork (ob_Robot robot) then Ret false
        else
          let* stops := stopNames (ob_Robot robot) in
          match stops with Ok [] => Ret true | _ => Ret false end
    end.

(** The condition the engine asks of each action it would evict in [AReserve]. *)
Definition mayEvict (actionID : string) : P bool :=
  let* victim := trigger (ALiveGetAction actionID) in
  match victim with Err _ => Ret false | Ok victim => mayDisplace victim end.

Definition betterVictim (rank : Z) (name : string) (chosen : option (RobotObject * Action)) (chosenRank : Z) : bool :=
  (chosenRank <? rank) ||
  ((rank =? chosenRank) && match chosen with Some (o, _) => name <s r_Name (ob_Robot o) | None => false end).

Definition mayTake (action : Action) (rob : RobotObject) : bool :=
  (ob_AssignedAction rob <>s "") &&
  ((r_Phase (ob_Robot rob) =s RobotPhaseInProgress) || (r_Phase (ob_Robot rob) =s RobotPhaseAssigned)) &&
  negb (robotUnderEstop (ob_Robot rob)) && RobotMatchesAction (ob_Robot rob) (ac_Spec action).

Fixpoint findVictims (action : Action) (robots : list RobotObject) (chosen : option (RobotObject * Action)) (chosenRank : Z)
    : P (result actError (option (RobotObject * Action))) :=
  match robots with
  | [] => Ret (Ok chosen)
  | rob :: robots =>
      if negb (mayTake action rob) then findVictims action robots chosen chosenRank
      else
        let* v := trigger (AGetAction (ob_AssignedAction rob)) in
        match v with
        | Err NotFound => findVictims action robots chosen chosenRank
        | Err Unread => Ret (Err (AReadError "preemption victim"))
        | Ok v =>
            if negb (isPreemptible (ac_Priority v)) then findVictims action robots chosen chosenRank
            else
              let* ok := mayDisplace v in
              if negb ok then findVictims action robots chosen chosenRank
              else
                let rank := priorityRank (ac_Priority v) in
                if betterVictim rank (r_Name (ob_Robot rob)) chosen chosenRank
                then findVictims action robots (Some (rob, v)) rank
                else findVictims action robots chosen chosenRank
        end
  end.

Definition findPreemptionCandidate (action : Action) (robots : list RobotObject) : P (result actError (option (RobotObject * Action))) :=
  match fas_Executor (ac_Spec action) with
  | Some _ => Ret (Ok None)
  | None => findVictims action robots None (-1)
  end.

Definition markVictimPreempted (victim : Action) (byAction : string) : P (result actError ()) :=
  let v := edit victim (fun s => putMessage ("preempted by higher-priority task " +:+ byAction) (putPhase ActionPhasePreempted s)) in
  let*? _ := patchActionStatus v victim in
  Ret (Ok tt).

Definition markActionPreempted (actionID byAction : string) : P unit :=
  let* victim := trigger (AGetAction actionID) in
  match victim with
  | Err _ => Ret tt
  | Ok victim =>
      if ac_Phase victim =s ActionPhasePreempted then Ret tt
      else
        let* ok := mayDisplace victim in
        if negb ok then Ret tt
        else
          let v := edit victim (fun s =>
            putMessage ("preempted by higher-priority task " +:+ byAction +:+ " (zone reservation)") (putPhase ActionPhasePreempted s)) in
          let* _ := patchActionStatus v victim in
          Ret tt
  end.

Fixpoint markAllPreempted (ids : list string) (byAction : string) : P unit :=
  match ids with [] => Ret tt | id :: ids => let* _ := markActionPreempted id byAction in markAllPreempted ids byAction end.

Definition confirmPreemptedStop (action : Action) (reach : reachability) : P (result actError (bool * CancelDisposition)) :=
  let cause := match reach with robotFree => CancelCauseSuperseded | _ => CancelCauseUnspecified end in
  let robotName := ac_Robot action in
  let* (stopped, disp) := confirmedStopWithDisposition action robotName (unattributedCancelIntent "preempted" cause) in
  if negb stopped then Ret (Ok (false, disp))
  else let*? _ := releaseRobotForStop action robotName in Ret (Ok (true, disp)).

(** ** Scheduling *)

Definition acceptDegraded (action : Action) : P bool :=
  match fas_AcceptDegradedCapabilities (ac_Spec action) with
  | Some b => Ret b
  | None => let* cfg := trigger AConfig in Ret (match cfg with Some c => cf_DefaultAcceptDegraded c | None => false end)
  end.

Definition preferSameManufacturer : P bool :=
  let* cfg := trigger AConfig in Ret (match cfg with Some c => default true (cf_PreferSameManufacturer c) | None => true end).

Definition honorPreferredRobot : P bool :=
  let* cfg := trigger AConfig in Ret (match cfg with Some c => default true (cf_HonorPreferredRobot c) | None => true end).

Definition tdeRetryBounds : P (Duration * Duration) := let* cfg := trigger AConfig in Ret (tdeRetryBoundsOf cfg).

Definition onDisconnectPolicy : P (string * Z) := let* cfg := trigger AConfig in Ret (onDisconnectPolicyOf cfg).

Definition actionServable (action : Action) (robot : Robot) : P (bool * option adapterDecline) :=
  if negb (rc_Validator rc) then Ret (true, None)
  else
    let* out := trigger (AValidate (r_Name robot) (fas_Type (ac_Spec action)) (ac_CustomType action) (ac_Payload action)) in
    match out with
    | Err _ => Ret (false, None)
    | Ok out =>
        if vo_Unsupported out then Ret (true, None)
        else if negb (vo_Servable out) then Ret (false, Some (mkDecline (r_Adapter robot) (r_Name robot) (vo_Message out)))
        else Ret (true, None)
    end.

Definition named (name : string) (o : RobotObject) : bool := r_Name (ob_Robot o) =s name.

(** selectServable's loop over a pool of [n] candidates; [None]: no robot. The Robots of a namespace are
    told apart by their names. *)
Fixpoint selectFrom (n : nat) (action : Action) (pool : list RobotObject) (ad pm hp : bool) (declined : option adapterDecline)
    : P (option RobotObject * option adapterDecline) :=
  match n with
  | O => Ret (None, declined)
  | S n =>
      match SelectRobot (ac_Spec action) (ob_Robot <$> pool) ad pm hp with
      | Err _ => Ret (None, declined)
      | Ok robot =>
          let* (ok, d) := actionServable action robot in
          if ok then Ret (List.find (named (r_Name robot)) pool, declined)
          else selectFrom n action (List.filter (fun o => negb (named (r_Name robot) o)) pool) ad pm hp
                 (match d with Some _ => d | None => declined end)
      end
  end.

Definition selectServable (action : Action) (candidates : list RobotObject) (ad pm hp : bool) : P (option RobotObject * option adapterDecline) :=
  selectFrom (length candidates) action candidates ad pm hp None.

(** Row A15: the action in memory afterwards, and the result when it is held. *)
Definition holdForStoppedDestination (action original : Action) : P (result actError (Action * option OrphanOutcome)) :=
  let zone := ac_Zone action in
  let cleared := edit action (fun s => putConditions (removeCondition conditionZoneStopped (as_Conditions s)) s) in
  let hold (msg : string) :=
    let '(transition, cs) := setZoneStopped (as_Conditions (ac_Status action)) msg in
    let action := edit action (fun s => putPhase ActionPhasePending (putConditions cs s)) in
    if transition then
      let*? action := patchActionStatus action original in
      let* _ := emit conditionZoneStopped in
      Ret (Ok (action, Some (RequeueAfter pendingRecheckInterval)))
    else Ret (Ok (action, Some (RequeueAfter pendingRecheckInterval))) in
  let unread :=
    let* text := trigger AErrorText in
    hold ("the zone tree above the destination zone " +:+ zone +:+ " could not be read, so whether a stop reaches it " +:+
          "is not known; the action is not dispatched until it is (" +:+ text +:+ ")") in
  if zone =s "" then Ret (Ok (cleared, None))
  else
    let* w := readWorld in
    match w with
    | None => unread
    | Some (zones, _) =>
        match Reaching (TreeOf zones) zone Carries with
        | Err _ => unread
        | Ok [] => Ret (Ok (cleared, None))
        | Ok reaching =>
            if (length reaching =? 1)%nat && (default "" (head reaching) =s zone) then
              hold ("the destination zone " +:+ zone +:+ " is under an emergency stop; the action is not dispatched " +:+
                    "until the stop is cleared")
            else
              hold ("the destination zone " +:+ zone +:+ " is under the emergency stop of " +:+ commaJoin reaching +:+
                    "; the action is not dispatched " +:+ "until the stop is cleared")
        end
    end.

Definition assignCommand (action : Action) (leaseDur : Duration) (operating : list EffectiveOperatingConstraint) : AssignAction :=
  let gen := FencingToken (as_AssignmentGeneration (ac_Status action)) in
  mkAssignAction (ac_Name action) (fas_Type (ac_Spec action)) (ac_CustomType action) gen gen (LeaseDurationMs leaseDur)
    (priorityRank (ac_Priority action)) (match ac_Deadline action with Some d => d / Millisecond | None => 0 end)
    (default "" (ac_Payload action)) operating.

(** [Some]: the adapter rejected the assignment, with the rejection and the subjects it named. *)
Definition pushAssignAction (action : Action) (robot : string) (leaseDur : Duration) (operating : list EffectiveOperatingConstraint)
    : P (option (string * list string)) :=
  if negb (rc_Commander rc) then Ret None
  else
    let* out := trigger (AAssign robot (assignCommand action leaseDur operating)) in
    match out with
    | Err _ => Ret None
    | Ok out => Ret (if ao_Accepted out then None else Some (ao_Rejection out, ao_UnhonourableSubjects out))
    end.

Definition pushRenewLease (action : Action) (leaseDur : Duration) : P unit :=
  if negb (rc_Commander rc) || (ac_Robot action =s "") then Ret tt
  else
    let* _ := trigger (ARenew (ac_Robot action) (ac_Name action) (FencingToken (as_AssignmentGeneration (ac_Status action)))
                         (LeaseDurationMs leaseDur)) in
    Ret tt.

Definition holdRefusalUnderStop (action : Action) (robotName : string) : P (result actError (option OrphanOutcome)) :=
  let* robot := liveRobot robotName in
  match robot with
  | Err NotFound => Ret (Ok None)
  | Err Unread => Ret (Err (AReadError "robot"))
  | Ok robot =>
      let*? stops := stopNames (ob_Robot robot) in
      if (length stops =? 0)%nat && negb (estopHoldsWork (ob_Robot robot)) then Ret (Ok None)
      else
        let* (leaseDur, renew, skew) := timings in
        let* now := getNow in
        let*? o := pauseAssignedForEstop action action robot now leaseDur renew skew in
        Ret (Ok (Some o))
  end.

Definition releaseRejectedAssignment (action : Action) (robotName : string) (unhonourable : list string) : P Res :=
  let*? held := holdRefusalUnderStop action robotName in
  match held with
  | Some o => Ret (Ok o)
  | None =>
      let msg :=
        match unhonourable with
        | [] => "adapter rejected the assignment; rescheduling"
        | _ =>
            "robot " +:+ Quote robotName +:+ " declined the assignment: its adapter cannot honour the operating " +:+
            "subject(s) " +:+ commaJoin (sort_Strings unhonourable) +:+ " in force where it stands, though its declaration says it can. " +:+
            "The action is rescheduling to another candidate; declining costs the adapter " +:+
            "nothing"
        end in
      let pending := edit action (fun s => putMessage msg (putLeaseExpiresAt None (putAssignedRobot "" (putPhase ActionPhasePending s)))) in
      let*? pending := patchActionStatus pending action in
      let*? _ := releaseRobotForStop pending robotName in
      let* _ := releaseReservation pending in
      let* (minRetry, _) := tdeRetryBounds in
      Ret (Ok (RequeueAfter minRetry))
  end.

(** The Robot an assignment commits. *)
Definition taken (o : RobotObject) (action : string) : RobotObject :=
  mkRobotObject (ob_rv o) (setPhase (ob_Robot o) RobotPhaseInProgress) action.

(** The status of an assignment, before its generation and lease. *)
Definition assigned (robot : string) (s : ActionStatus) : ActionStatus :=
  putConditions (removeCondition conditionRenewalHeld (as_Conditions s))
    (putMessage "" (putAssignedRobot robot (putPhase ActionPhaseAssigned (putPendingSince None s)))).

(** After the assignment is pushed. *)
Definition settleRejection (action : Action) (robot : string) (rejected : option (string * list string)) (leaseRenew : Duration) : P Res :=
  match rejected with
  | Some (rejection, unhonourable) =>
      let* _ := emit "AssignmentDeclined" in
      let* _ := emit "AssignmentDeclined" in
      let* _ := when ((rejection =s rejectionOperatingConstraintUnmet) || (rejection =s rejectionInvalidAction))
                  (trigger (ARecordDecline action robot rejection unhonourable)) in
      releaseRejectedAssignment action robot unhonourable
  | None =>
      let* _ := trigger (AForgetDeclines action) in
      Ret (Ok (RequeueAfter leaseRenew))
  end.

(** The robot commit failed: the action goes back to Pending, whether or not that write lands. *)
Definition revertAssignment (action : Action) (reserved : bool) (e : actError) : P Res :=
  let* _ := unreserveOnFailure reserved action in
  let* n := getNow in
  let reverted := edit action (fun s =>
    putMessage "robot commit failed after task assignment; reverted to Pending"
      (putPendingSince (Some n) (putLeaseExpiresAt None (putAssignedRobot "" (putPhase ActionPhasePending s))))) in
  let* _ := patchActionStatus reverted action in
  Ret (Err e).

Definition mintFailed (action : Action) (reserved : bool) (e : mintError) : P Res :=
  let* _ := unreserveOnFailure reserved action in
  match e with
  | ErrConflict => Ret (Ok Requeue)
  | ErrStoreBehind _ _ => let* _ := emit "GenerationStoreBehind" in Ret (Ok (RequeueAfter Second))
  | ErrAtCeiling _ => let* _ := emit "GenerationCeilingReached" in Ret (Ok (RequeueAfter pendingRecheckInterval))
  | _ => Ret (Err (AMintError e))
  end.

(** The commit: the generation is minted, then the action is written, then the robot, then the adapter is told. *)
Definition commitAssignment (action original : Action) (robot : RobotObject) (reserved : bool) (leaseDur leaseRenew : Duration)
    (restrictions : option zoneRestrictionVerdict) : P Res :=
  let name := r_Name (ob_Robot robot) in
  let action := edit action (assigned name) in
  let* action := match as_ScheduledAt (ac_Status action) with
                 | None => let* n := getNow in Ret (edit action (putScheduledAt (Some n)))
                 | Some _ => Ret action
                 end in
  let* gen := trigger (AMint action) in
  match gen with
  | Err e => mintFailed action reserved e
  | Ok gen =>
      let* now := getNow in
      let action := edit action (fun s => putLeaseExpiresAt (Some (now + leaseDur)) (putAssignmentGeneration gen s)) in
      let* committed := patchActionStatus action original in
      match committed with
      | Err e =>
          let* _ := unreserveOnFailure reserved action in
          if isConflict e then Ret (Ok Requeue) else Ret (Err e)
      | Ok action =>
          let* r := patchRobot name (ob_rv robot) (taken robot (ac_Name action)) in
          match r with
          | Err e => revertAssignment action reserved e
          | Ok _ =>
              let operating := match restrictions with Some v => zv_wire v name | None => [] end in
              let* rejected := pushAssignAction action name leaseDur operating in
              settleRejection action name rejected leaseRenew
          end
      end
  end.

(** The handover from a preemption victim: [Ok None] goes on to the commit. *)
Definition handOver (action original : Action) (robot : string) (victim : Action) (reserved : bool)
    : P (result actError (option OrphanOutcome)) :=
  let mark :=
    let* r := markVictimPreempted victim (ac_Name action) in
    match r with
    | Ok _ => Ret (Ok None)
    | Err e => let* _ := unreserveOnFailure reserved action in Ret (Err e)
    end in
  match DispositionFor (Some victim) (Some action) with
  | SupersedeInPlace => mark
  | SupersedeCancelThenDispatch =>
      let* (stopped, disp) := confirmedStopWithDisposition victim robot
        (unattributedCancelIntent ("preempted by " +:+ ac_Name action +:+ " (type change requires a confirmed stop)") CancelCauseSuperseded) in
      if negb stopped then
        let* _ := unreserveOnFailure reserved action in
        let msg := "awaiting confirmed stop of " +:+ ac_Name victim +:+ " before a type-changing handover" in
        let* _ := patchActionStatus (edit action (putMessage msg)) original in
        Ret (Ok (Some (RequeueAfter pendingRecheckInterval)))
      else match disp with
           | CancelCompleted =>
               let* r := succeedOnCompletedCancel victim victim in
               match r with
               | Ok _ => Ret (Ok None)
               | Err e => let* _ := unreserveOnFailure reserved action in Ret (Err e)
               end
           | _ => mark
           end
  end.

(** The deconfliction gate, the handover and the commit. *)
Definition assignTo (action original : Action) (robot : RobotObject) (victim : option Action) (leaseDur leaseRenew : Duration)
    (restrictions : option zoneRestrictionVerdict) : P Res :=
  let name := r_Name (ob_Robot robot) in
  let goOn (reserved : bool) : P Res :=
    let*? held := match victim with Some v => handOver action original name v reserved | None => Ret (Ok None) end in
    match held with
    | Some o => Ret (Ok o)
    | None => commitAssignment action original robot reserved leaseDur leaseRenew restrictions
    end in
  if rc_TDE rc && (ac_Zone action <>s "") then
    let* (failed, res) := trigger (AReserve (ac_Name action) name (ac_Zone action) (ac_Priority action)) in
    if failed || (rs_Status res =s Denied) then
      let denied := edit action (fun s => putMessage "awaiting zone capacity (traffic deconfliction)" (putPhase ActionPhasePending s)) in
      let* _ := patchActionStatus denied original in
      let* (minRetry, maxRetry) := tdeRetryBounds in
      Ret (Ok (RequeueAfter (clampRetryAfter (rs_RetryAfter res) minRetry maxRetry)))
    else
      let* _ := if rs_Status res =s PreemptedGranted then markAllPreempted (rs_PreemptedActionIDs res) (ac_Name action) else Ret tt in
      goOn true
  else goOn false.

Definition refusedEverywhereMessage (n : nat) (actionType : string) : string :=
  "every candidate robot's adapter REFUSED this assignment as invalid " +:+
  "(" +:+ showInt (Z.of_nat n) +:+ " of " +:+ showInt (Z.of_nat n) +:+ " asked, each once). The refusal names no cause: the wire " +:+
  "value covers BOTH " +:+ quoteMark +:+ "this adapter does not implement spec.type " +:+ Quote actionType +:+ quoteMark +:+ " " +:+
  "and " +:+ quoteMark +:+ "spec.payload cannot be parsed" +:+ quoteMark +:+ ", so check the FleetAction " +:+
  "first — spec.type against each adapter's advertised catalog, then " +:+
  "spec.payload. THIS IS NOT A ROBOT-SIDE REFUSAL: no robot was busy, " +:+
  "flat, estopped or out of zone, and waiting will not change it. The " +:+
  "action is HELD, not judged — an adapter that implements this type " +:+
  "makes it dispatchable, which is why it is not failed".

(** No robot: the action waits, with the reason. *)
Definition noCandidate (action original : Action) (withheld : list dispatchExclusion) (survivors : list RobotObject)
    (narrowNote : string) (declined : option adapterDecline) : P Res :=
  let* tally := trigger (ATally action withheld survivors) in
  let msg := tl_candidates tally +:+ narrowNote in
  let byRule := withheldByOperatingConstraint withheld in
  let msg := if byRule then tl_operating tally +:+ ". " +:+ msg else msg in
  let action := if byRule then edit action (putFailureReason ActionFailureZoneOperatingConstraintUnmet) else action in
  let msg := if everyCandidateRefusedTheAction withheld (length survivors)
             then refusedEverywhereMessage (length withheld) (fas_Type (ac_Spec action)) +:+ ". " +:+ msg else msg in
  let '(transition, cs) := setAdapterDeclined (as_Conditions (ac_Status action)) declined in
  let action := edit action (fun s => putConditions cs (putMessage msg (putPhase ActionPhasePending s))) in
  let* r := patchActionStatus action original in
  let* _ := match transition, r with true, Ok _ => emit conditionAdapterDeclined | _, _ => Ret tt end in
  Ret (Ok (RequeueAfter pendingRecheckInterval)).

Definition narrowNoteOf (action : Action) (restrictions : option zoneRestrictionVerdict) : string :=
  match restrictions with
  | Some v =>
      match zv_narrowedOut v with
      | [] => ""
      | l => " zone " +:+ Quote (ac_Zone action) +:+ " was narrowed: " +:+ commaJoin l +:+
             " excluded by an effective entry denial; the action " +:+ "proceeds against the remainder."
      end
  | None => ""
  end.

(** strings.TrimSpace of the note: its first character is a space, its last is not. *)
Definition trimNote (note : string) : string := match note with String c s => if Ascii.eqb c (Ascii.ascii_of_nat 32) then s else note | "" => "" end.

(** Selection: a robot, else a robot to displace a victim from, else none. *)
Definition selectCandidate (action original : Action) (candidates : list RobotObject) (withheld : list dispatchExclusion)
    (narrowNote : string) (leaseDur leaseRenew : Duration) (restrictions : option zoneRestrictionVerdict) : P Res :=
  let* ad := acceptDegraded action in
  let* pm := preferSameManufacturer in
  let* hp := honorPreferredRobot in
  let* (robot, declined) := selectServable action candidates ad pm hp in
  match robot with
  | Some robot => assignTo action original robot None leaseDur leaseRenew restrictions
  | None =>
      let none declined := noCandidate action original withheld candidates narrowNote declined in
      if CanPreempt (ac_Priority action) then
        let*? cand := findPreemptionCandidate action candidates in
        match cand with
        | None => none declined
        | Some (cand, victim) =>
            let* (ok, d) := actionServable action (ob_Robot cand) in
            if ok then assignTo action original cand (Some victim) leaseDur leaseRenew restrictions
            else none (match d with Some _ => d | None => declined end)
        end
      else none declined
  end.

(** Filter 11 and the sensor-stream gate, which decide for the action, then the selection. *)
Definition dispatchFiltered (action original : Action) (f : Filtered) (declined : gmap string operatingDecline)
    (leaseDur leaseRenew : Duration) : P Res :=
  let '(eligible, withheld) := dropDeclinedCandidates declined (fd_eligible f) (fd_withheld f) in
  let restrictions := fd_restrictions f in
  let refused := match restrictions with Some v => if zv_refuse v then Some v else None | None => None end in
  match refused with
  | Some v =>
      let action := edit action (putMessage (zv_message v)) in
      if negb (zv_terminal v) then
        let* _ := patchActionStatus (edit action (putPhase ActionPhasePending)) original in
        Ret (Ok (RequeueAfter pendingRecheckInterval))
      else
        let* now := getNow in
        let* _ := emit (zv_reason v) in
        let failed := edit action (fun s => putFailedAt (Some now) (putFailureReason (zv_reason v) (putPhase ActionPhaseFailed s))) in
        let* _ := patchActionStatus failed original in
        Ret (Ok Done)
  | None =>
      let note := narrowNoteOf action restrictions in
      let action := if note =s "" then action else edit action (putMessage (trimNote note)) in
      let* refusal := trigger (ASensorGate action eligible) in
      match refusal with
      | Some refusal =>
          let '(transition, s) := applySensorStreamRefusal (ac_Status action) refusal in
          let action := setStatusOf action s in
          let* _ := if transition then emit (sf_Reason refusal) else Ret tt in
          let* _ := if decide (ac_Status action = ac_Status original) then Ret tt
                    else let* _ := patchActionStatus action original in Ret tt in
          Ret (Ok (RequeueAfter pendingRecheckInterval))
      | None =>
          selectCandidate (edit action clearSensorStreamRefusal) original eligible withheld note leaseDur leaseRenew restrictions
      end
  end.

(** A Pending action held behind a robot that may still run it. *)
Definition holdBehindExecutor (action original : Action) (gate : Decision) (now : Time) : P Res :=
  let wait := de_Wait gate in
  let msg := if de_Stop gate <>s "" then executorStopMessage action (de_Blocked gate) (de_Stop gate)
             else executorGateMessage (de_Blocked gate) (ac_Name action) (rc_rfc3339 rc (now + wait)) (whyText gate) in
  if ac_Message action =s msg then Ret (Ok (RequeueAfter wait))
  else
    let*? _ := patchActionStatus (edit action (putMessage msg)) original in
    let* _ := if de_Stop gate <>s "" then emit EventActionAwaitingOperatorDecision else Ret tt in
    Ret (Ok (RequeueAfter wait)).

Definition schedule (action original : Action) (now : Time) (leaseDur leaseRenew leaseSkew : Duration) : P Res :=
  let* action := match as_PendingSince (ac_Status action) with
                 | None => let* n := getNow in Ret (edit action (putPendingSince (Some n)))
                 | Some _ => Ret action
                 end in
  let* robots := trigger AListRobots in
  match robots with
  | None => Ret (Err (AReadError "robots"))
  | Some robots =>
      let* gate := liftGate (executorGate (rc_Commander rc) (gateOf action) robots now leaseSkew false) in
      match gate with
      | Err e => Ret (Err (AGateError e))
      | Ok gate =>
          if 0 <? de_Wait gate then holdBehindExecutor action original gate now
          else
            let*? (action, held) := holdForStoppedDestination action original in
            match held with
            | Some o => Ret (Ok o)
            | None =>
                let* f := trigger (AFilter action robots) in
                let* declined := trigger (ADeclined action) in
                dispatchFiltered action original f declined leaseDur leaseRenew
            end
      end
  end.

(** ** The lease of bound work *)

(** actionRenew *)
Definition renewLease (action original : Action) (robot : option RobotObject) (now : Time) (leaseDur leaseRenew leaseSkew : Duration) : P Res :=
  let robotName := match robot with Some o => r_Name (ob_Robot o) | None => "" end in
  if renewalHeldAfterClear action robot then holdRenewalAfterClear action original robotName now leaseRenew leaseSkew
  else
    let* lost :=
      match robot with
      | Some o =>
          if (ac_Phase action =s ActionPhaseAssigned) || (ac_Phase action =s ActionPhaseInProgress) then
            let* ad := acceptDegraded action in Ret (negb (RobotSatisfiesActionCapabilities (ob_Robot o) (ac_Spec action) ad))
          else Ret false
      | None => Ret false
      end in
    if lost then beginCapabilityLossReassignment action
    else
      let action := edit action (putLeaseExpiresAt (Some (now + leaseDur))) in
      let action := if ac_Phase action =s ActionPhaseRevoking
                    then edit action (fun s => putDisconnectedAt None (putMessage "re-adopted after connectivity recovered"
                                                 (putPhase ActionPhaseInProgress s)))
                    else action in
      let*? action := patchActionStatus action original in
      let* _ := pushRenewLease action leaseDur in
      match completionDeadline action with
      | Some deadline =>
          if ac_Phase action =s ActionPhaseInProgress then
            let* t := getNow in
            Ret (Ok (RequeueAfter (Z.min leaseRenew (Z.max (time_Sub deadline t) Second))))
          else Ret (Ok (RequeueAfter leaseRenew))
      | None => Ret (Ok (RequeueAfter leaseRenew))
      end.

(** actionRevoke *)
Definition revokeLease (action original : Action) (now : Time) (leaseDur leaseRenew leaseSkew : Duration) : P Res :=
  let action := edit action (fun s => putMessage "assigned robot unreachable — awaiting provable lease expiry" (putPhase ActionPhaseRevoking s)) in
  let action := if isSome (ac_Lease action) then action else edit action (putLeaseExpiresAt (Some (now + leaseDur))) in
  let action := if isSome (as_DisconnectedAt (ac_Status action)) then action else edit action (putDisconnectedAt (Some now)) in
  let* _ := when (rc_TDE rc && (ac_Zone action <>s "")) (trigger (AHoldSlot (ac_Zone action) (ac_Name action) ActionPhaseRevoking)) in
  let*? action := patchActionStatus action original in
  Ret (Ok (RequeueAfter (untilLeaseHorizon (ac_Lease action) now leaseRenew leaseSkew))).

(** actionReassign: release the robot and return the action to Pending. *)
Definition reassign (action original : Action) (robot : option RobotObject) : P Res :=
  let* _ := match robot with
            | Some o => if ob_AssignedAction o =s ac_Name action
                        then let* _ := trigger (ARobotMerge o (mkRobotObject (ob_rv o) (ob_Robot o) "")) in Ret tt
                        else Ret tt
            | None => Ret tt
            end in
  let* _ := releaseReservation action in
  let action := edit action (fun s =>
    putMessage "prior lease provably dead — requeued for reassignment"
      (putDisconnectedAt None (putLeaseExpiresAt None (putAssignedRobot "" (putPhase ActionPhasePending s))))) in
  after (patchActionStatus action original) (RequeueAfter (2 * Second)).

(** onDisconnect=Never. *)
Definition holdRevoking (action original : Action) : P Res :=
  if ac_Message action <>s revokingHeldMessage
  then after (patchActionStatus (edit action (putMessage revokingHeldMessage)) original) Done
  else Ret (Ok Done).

(** actionReassign of a Revoking action: what the namespace's onDisconnect decides. A policy that is none
    of the four falls through to the reassignment. *)
Definition recoverRevoking (action original : Action) (robot : option RobotObject) (now : Time) : P Res :=
  let* (policy, timeout) := onDisconnectPolicy in
  if policy =s ActionCancellationAfterTimeout then
    let '(action, since) :=
      match as_DisconnectedAt (ac_Status action) with
      | None => (edit action (putDisconnectedAt (Some now)), now)
      | Some t => (action, t)
      end in
    let ceiling := since + timeout * Second in
    if now <? ceiling then
      let msg := "assigned robot lost — holding until AfterTimeout ceiling (" +:+ showInt timeout +:+ "s)" in
      after (patchActionStatus (edit action (putMessage msg)) original) (RequeueAfter (time_Sub ceiling now))
    else reassign action original robot
  else if (policy =s ActionCancellationWhenActionExpired) && actionCompletionExpired action now then
    after (finalizeCancel (edit action (putDisconnectedAt None)) original (ac_Robot action)
             (unattributedCancelIntent "expired while disconnected (onDisconnect=WhenActionExpired)" CancelCauseRevocation)) Done
  else if (policy =s ActionCancellationWhenActionExpired) || (policy =s ActionCancellationNever) || (policy =s "") then
    holdRevoking action original
  else reassign action original robot.

Definition doReassign (action original : Action) (robot : option RobotObject) (now : Time) : P Res :=
  if ac_Phase action =s ActionPhaseRevoking then recoverRevoking action original robot now else reassign action original robot.

Definition evaluate (action original : Action) (robot : option RobotObject) (now : Time) (leaseDur leaseRenew leaseSkew : Duration) : P Res :=
  let reach := classifyRobot action robot in
  match evaluateLease (ac_Phase action) reach (ac_Lease action) now leaseSkew with
  | actionConfirmStop =>
      let*? (isReleased, disp) := confirmPreemptedStop action reach in
      if negb isReleased then Ret (Ok (RequeueAfter (Z.min leaseRenew (untilLeaseHorizon (ac_Lease action) now leaseRenew leaseSkew))))
      else match disp with
           | CancelCompleted => after (succeedOnCompletedCancel action original) Done
           | _ => doReassign action original robot now
           end
  | actionRenew => renewLease action original robot now leaseDur leaseRenew leaseSkew
  | actionRevoke => revokeLease action original now leaseDur leaseRenew leaseSkew
  | actionHold =>
      if ac_Phase action =s ActionPhasePreempted then Ret (Ok (RequeueAfter (2 * Second)))
      else Ret (Ok (RequeueAfter (untilLeaseHorizon (ac_Lease action) now leaseRenew leaseSkew)))
  | actionReassign => doReassign action original robot now
  end.

(** ** One pass *)

(** A Paused action bound to a robot: its phase never changes here. *)
Definition holdPaused (action original : Action) (robot : option RobotObject) (now : Time) (leaseDur leaseRenew leaseSkew : Duration) : P Res :=
  let*? over := match robot with
                | Some o => stopOver (r_Name (ob_Robot o))
                | None => Ret (Ok ([], false))
                end in
  let '(stops, confirmed) := over in
  match robot with
  | Some o =>
      if negb (length stops =? 0)%nat && negb confirmed
      then holdUnderUnconfirmedStop action original (r_Name (ob_Robot o)) stops now leaseDur leaseRenew leaseSkew
      else if ac_Message action =s estopPausedUnconfirmedMessage
      then pauseAssignedUnconfirmed action original now leaseDur leaseRenew leaseSkew
      else if pausedLeaseHeldAfterClear action (ob_Robot o)
      then holdPausedLeaseAfterClear action original (r_Name (ob_Robot o)) now leaseRenew leaseSkew
      else if negb (match classifyRobot action robot with robotLost => true | _ => false end) && stopConfirmed (ob_Robot o) &&
              negb (leaseProvablyDead (ac_Lease action) now leaseSkew)
      then after (patchActionStatus (edit action (putLeaseExpiresAt (Some (now + leaseDur)))) original) (RequeueAfter leaseRenew)
      else Ret (Ok (RequeueAfter (Z.min leaseRenew (untilLeaseHorizon (ac_Lease action) now leaseRenew leaseSkew))))
  | None =>
      if ac_Message action =s estopPausedUnconfirmedMessage
      then pauseAssignedUnconfirmed action original now leaseDur leaseRenew leaseSkew
      else Ret (Ok Done)
  end.

(** The declarative hold of an Assigned or InProgress action; [None]: none is asked. *)
Definition declarativeHold (action original : Action) (robot : option RobotObject) (now : Time) (leaseDur leaseRenew : Duration)
    : option (P Res) :=
  if (ac_Phase action =s ActionPhaseAssigned) || (ac_Phase action =s ActionPhaseInProgress) then
    if ac_Desired action =s DesiredStatePaused then
      Some (applyPauseTransition action original robot
              (if ac_Phase action =s ActionPhaseInProgress then desiredPausedInProgressMessage else desiredPausedAssignedMessage)
              now leaseDur leaseRenew pauseCancelRobot)
    else if ac_Desired action =s DesiredStateReturning then
      Some (let* (confirmed, disp) := confirmedStopWithDisposition action (ac_Robot action)
                                        (unattributedCancelIntent returningReason CancelCauseUnspecified) in
            if negb confirmed then holdStop action original returningMessage
            else applyPauseTransition action original robot (returningHeldMessage disp) now leaseDur leaseRenew pauseStopConfirmed)
    else None
  else None.

(** Past the holds: the completion window, then the lease. *)
Definition runBound (action original : Action) (robot : option RobotObject) (now : Time) (leaseDur leaseRenew leaseSkew : Duration) : P Res :=
  let go := evaluate action original robot now leaseDur leaseRenew leaseSkew in
  match robot with
  | Some o =>
      if (ac_Phase action =s ActionPhaseInProgress) && negb (match classifyRobot action robot with robotLost => true | _ => false end) &&
         actionCompletionExpired action now then
        let*? (stops, _) := stopOver (r_Name (ob_Robot o)) in
        if (length stops =? 0)%nat && negb (estopHoldsWork (ob_Robot o)) then handleCompletionTimeout action original else go
      else go
  | None => go
  end.

(** Work bound to a robot that is past the estop pause: the hold of Preempted work, the declarative hold,
    the Paused hold, the lease. *)
Definition holdOrRun (action original : Action) (robot : option RobotObject) (now : Time) (leaseDur leaseRenew leaseSkew : Duration) : P Res :=
  let*? held := holdPreemptedUnderStop action original robot leaseRenew in
  match held with
  | Some o => Ret (Ok o)
  | None =>
      match declarativeHold action original robot now leaseDur leaseRenew with
      | Some p => p
      | None =>
          if ac_Phase action =s ActionPhasePaused then holdPaused action original robot now leaseDur leaseRenew leaseSkew
          else runBound action original robot now leaseDur leaseRenew leaseSkew
      end
  end.

(** The Revoking hold under a stop; [None]: no stop holds the work. *)
Definition holdRevokingWork (action original : Action) (robot : option RobotObject) (now : Time) (leaseRenew leaseSkew : Duration)
    : P (result actError (option OrphanOutcome)) :=
  let*? (stops, confirmed, _) := stopsOverBoundRobot action in
  if negb (length stops =? 0)%nat || holdsWork robot then
    let*? o :=
      if WaitsForAPerson stops confirmed (leaseProvablyDead (ac_Lease action) now leaseSkew) (heldByOperator action)
      then waitForAPerson action original (ac_Robot action) stops leaseRenew
      else holdRevokingUnderEstop action original leaseRenew in
    Ret (Ok (Some o))
  else Ret (Ok None).

Definition reconcileBound (action original : Action) (now : Time) (leaseDur leaseRenew leaseSkew : Duration) : P Res :=
  let* rb := getRobot (ac_Robot action) in
  match rb with
  | Err Unread => Ret (Err (AReadError "assigned robot"))
  | _ =>
      let robot := match rb with Ok o => Some o | Err _ => None end in
      let paused :=
        match robot with
        | Some o =>
            if robotUnderEstop (ob_Robot o) then
              if ac_Phase action =s ActionPhaseAssigned then
                Some (pauseAssignedForEstop action original o now leaseDur leaseRenew leaseSkew)
              else if ac_Phase action =s ActionPhaseInProgress then
                Some (let* _ := recordActionPausedByEstop ActionPhaseInProgress in
                      applyPauseTransition action original robot estopPausedInProgressMessage now leaseDur leaseRenew pauseStopConfirmed)
              else None
            else None
        | None => None
        end in
      match paused with
      | Some p => p
      | None =>
          let*? held := if ac_Phase action =s ActionPhaseRevoking
                        then holdRevokingWork action original robot now leaseRenew leaseSkew else Ret (Ok None) in
          match held with
          | Some o => Ret (Ok o)
          | None => holdOrRun action original robot now leaseDur leaseRenew leaseSkew
          end
      end
  end.

Definition boundPhase (p : ActionPhase) : bool :=
  (p =s ActionPhaseAssigned) || (p =s ActionPhaseInProgress) || (p =s ActionPhaseRevoking) || (p =s ActionPhasePaused) ||
  (p =s ActionPhasePreempted).

Definition unscheduled (p : ActionPhase) : bool := (p =s "") || (p =s ActionPhasePending).

(** The deadline, the bound work, the released Paused work, the scheduling. *)
Definition reconcileLive (action original : Action) (leaseDur leaseRenew leaseSkew : Duration) : P Res :=
  let rest :=
    let* now := getNow in
    if (ac_Robot action <>s "") && boundPhase (ac_Phase action) then reconcileBound action original now leaseDur leaseRenew leaseSkew
    else if (ac_Phase action =s ActionPhasePaused) && (ac_Robot action =s "") then
      let*? wait := releaseRecordersA action now leaseSkew in Ret (Ok (RequeueAfter wait))
    else if unscheduled (ac_Phase action) then schedule action original now leaseDur leaseRenew leaseSkew
    else Ret (Ok Done) in
  match unscheduled (ac_Phase action), ac_Deadline action with
  | true, Some deadline =>
      let* t := getNow in
      if deadline <? t then
        let* now := getNow in
        let msg := "deadline exceeded before scheduling" in
        let action := edit action (fun s =>
          putFailureReason msg (putFailedAt (Some now) (putCompletionTime (Some now) (putMessage msg (putPhase ActionPhaseFailed s))))) in
        after (patchActionStatus action original) Done
      else rest
  | _, _ => rest
  end.

Definition reconcileRequest (action original : Action) (leaseDur leaseRenew leaseSkew : Duration) : P Res :=
  if has (ac_Annotations action) annRequeueRequested then
    let*? (verdict, msg) := requeueOvertakenByEstop action in
    match verdict with
    | requeueDropped => Ret (Ok Requeue)
    | requeueRuns => handleRequeue action original msg
    | requeueHeld => holdRequeueUnderEstop action original msg
    | requeueWaits => reconcileLive action original leaseDur leaseRenew leaseSkew
    end
  else if (ac_Phase action =s ActionPhasePaused) && isRequeueWaitMessage (ac_Message action) then
    after (patchActionStatus (edit action (putMessage requeueWithdrawnMessage)) original) Requeue
  else reconcileLive action original leaseDur leaseRenew leaseSkew.

Definition reconcileRead (action : Action) : P Res :=
  let*? (holders, action) := syncHeldFinalizer action in
  if ac_Deleted action then
    match holders with
    | _ :: _ => awaitDeletedHeld action holders
    | [] => Ret (Ok Done)
    end
  else if (ac_Phase action =s ActionPhaseSucceeded) || (ac_Phase action =s ActionPhaseCancelled) then retireTerminalAction action
  else if ac_Phase action =s ActionPhaseFailed then handleFailedAction action
  else
    let original := action in
    let* (leaseDur, leaseRenew, leaseSkew) := timings in
    match cancelRequest action with
    | Some intent => handleCancel action original intent
    | None => reconcileRequest action original leaseDur leaseRenew leaseSkew
    end.

Definition reconcileAction (name : string) : P Res :=
  let* got := trigger (AGetAction name) in
  match got with
  | Err NotFound =>
      let* r := liftGate (releaseOrphanedRecords (rc_Commander rc) name) in
      match r with Ok o => Ret (Ok o) | Err e => Ret (Err (AGateError e)) end
  | Err Unread => Ret (Err (AReadError "fleetaction"))
  | Ok action =>
      let* _ := trigger (AGate (EForget name)) in
      reconcileRead action
  end.

Definition Reconcile (name : string) : P Res :=
  let* r := reconcileAction name in
  match r with
  | Err e => if isConflict e then Ret (Ok Requeue) else Ret (Err e)
  | Ok o => Ret (Ok o)
  end.
End Controller.
