(* ===== verification/ActionTable.v ===== *)
(** What one pass of the FleetAction controller may write, and on what evidence: the rows of its
    transition table, each over what the pass has seen. ActionProps shows that the controller's program
    makes no other write; ActionTheorems draws the consequences. *)

From S2P Require Import Prelude.
From S2P Require Import Types.
From S2P Require Import Conc.
From S2P Require Import Along.
From S2P Require Import EstopScope.
From S2P Require Import Command.
From S2P Require Import ExecutorGuard.
From S2P Require Import FencingStore.
From S2P Require Import Tde.
From S2P Require Import ExecutorGate.
From S2P Require Import ActionData.
From S2P Require Import ActionController.

Notation AObs := (Along.Obs actResp).

(** ** Answers *)

(** What the API server's answers tell: an object read has the name asked for; the candidate filters leave
    only robots they were given. *)
Definition actAnswered (e : ActEv) (a : actResp e) : Prop :=
  match e as e return actResp e -> Prop with
  | AGate e => answered e
  | AGetAction n | ALiveGetAction n => fun a => match a with Ok a => ac_Name a = n | Err _ => True end
  | AMeta base _ => fun a => match a with Ok a => ac_Name a = ac_Name base | Err _ => True end
  | AFilter _ robots => fun f => fd_eligible f ⊆ robots
  | _ => fun _ => True
  end a.

(** The gate's part of what was seen. *)
Definition gateObs (o : AObs) : option (Along.Obs gateResp) :=
  match o with Seen e a => match e as e return actResp e -> option (Along.Obs gateResp) with AGate e => fun a => Some (Seen e a) | _ => fun _ => None end a end.

Definition gates (h : list AObs) : list (Along.Obs gateResp) := omap gateObs h.

Lemma gates_snoc h e (a : gateResp e) : gates (h ++ [Seen (AGate e) a]) = gates h ++ [Seen e a].
Proof. unfold gates. by rewrite omap_app. Qed.

Lemma gates_mono (h h' : list AObs) : seenMore h h' -> seenMore (gates h) (gates h').
Proof. intros [l ->]. exists (gates l). unfold gates. by rewrite omap_app. Qed.

(** ** Evidence *)

Section Evidence.
Context (h : list AObs).
Notation saw e a := (@Seen ActEv actResp e a ∈ h).

Definition generationOf (a : Action) : Z := as_AssignmentGeneration (ac_Status a).

(** The robot's adapter acknowledged a cancel of the action, under its generation's fencing token. *)
Definition cancelAck (a : Action) (robot : string) (disp : CancelDisposition) : Prop :=
  exists c out, saw (AGate (ECancel robot c)) (Ok out) /\ cx_ActionID c = ac_Name a /\
    cx_FencingToken c = FencingToken (generationOf a) /\ co_Acknowledged out = true /\ co_Disposition out = disp.

(** The lease is provably dead at a time the pass has seen, under the namespace's skew. *)
Definition leaseDeadSeen (a : Action) : Prop :=
  exists now cfgs, saw (AGate ENow) now /\ saw (AGate EScheduling) cfgs /\
    leaseProvablyDead (ac_Lease a) now (timingsOf cfgs).2 = true.

(** The robot is provably stopped. *)
Definition stopProof (a : Action) (robot : string) : Prop :=
  (exists disp, cancelAck a robot disp /\ disp <> CancelStopUnconfirmed) \/ leaseDeadSeen a.

(** The bound robot as the cache has it. *)
Definition robotSeen (a : Action) (robot : option RobotObject) : Prop :=
  match robot with
  | Some o => saw (AGate (EGet (ac_Robot a))) (Ok o)
  | None => saw (AGate (EGet (ac_Robot a))) (Err NotFound)
  end.

(** The robot is reachable and records other work or none. *)
Definition freeSeen (a : Action) : Prop :=
  exists o, saw (AGate (EGet (ac_Robot a))) (Ok o) /\ classifyRobot a (Some o) = robotFree.

(** No stop covers a robot that was read from the API server. *)
Definition uncovered (robot : string) : Prop :=
  exists o zs cs, saw (AGate (ELiveGet robot)) (Ok o) /\ saw (AGate EZones) (Some zs) /\ saw (AGate EConfigs) (Some cs) /\
    stopNamesOf zs cs (ob_Robot o) = Ok [].

(** Its Robot object is gone and no stop stands in the namespace. *)
Definition goneUncovered (robot : string) : Prop :=
  exists zs cs, saw (AGate (ELiveGet robot)) (Err NotFound) /\ saw (AGate EZones) (Some zs) /\ saw (AGate EConfigs) (Some cs) /\
    namespaceStopsOf zs cs = [].

(** No stop holds the work of the bound robot: none over it live, and none on its record in the cache. *)
Definition noStopHolds (a : Action) : Prop :=
  (uncovered (ac_Robot a) \/ goneUncovered (ac_Robot a)) /\
  exists robot, robotSeen a robot /\ holdsWork robot = false.

(** The adapter rejected the assignment of the action to the robot. *)
Definition rejectedBy (a : Action) (robot : string) : Prop :=
  exists c out, saw (AAssign robot c) (Ok out) /\ aa_ActionID c = ac_Name a /\
    aa_FencingToken c = FencingToken (generationOf a) /\ ao_Accepted out = false.

(** The action has ended, and its robot with it; an end on an unconfirmed stop waits for the lease. *)
Definition endedOn (a : Action) (robot : string) : Prop :=
  ac_Robot a = robot /\
  (ac_Phase a = ActionPhaseSucceeded \/ ac_Phase a = ActionPhaseCancelled \/
   ac_Phase a = ActionPhaseFailed /\
     (as_FailureReason (ac_Status a) = reasonStopUnconfirmed -> ac_Lease a = None \/ leaseDeadSeen a)).

(** Objects the pass has in hand: one it read, or one a write of its own answered with, as it is for the
    resourceVersion, name, spec and status. *)
Definition sameWork (a0 a : Action) : Prop :=
  ac_rv a = ac_rv a0 /\ ac_Name a = ac_Name a0 /\ ac_Spec a = ac_Spec a0 /\ ac_Status a = ac_Status a0.

Definition inHand (a : Action) : Prop :=
  (exists n, saw (AGetAction n) (Ok a) \/ saw (ALiveGetAction n) (Ok a)) \/ (exists b n rv, saw (AStatus b n) (Ok rv) /\ a = stored n rv) \/
  (exists b n, saw (AMeta b n) (Ok a)) \/ (exists b hold rv, saw (AFinalizer b hold) (Ok rv) /\ a = withVersion b rv hold).

Definition origin (a : Action) : Prop := exists a0, inHand a0 /\ sameWork a0 a.

(** ** The rows *)

Definition moved (b n : Action) (phase : ActionPhase) (robot : string) (lease : option Time) : Prop :=
  ac_Phase n = phase /\ ac_Robot n = robot /\ ac_Lease n = lease /\ generationOf n = generationOf b.

Definition requeueAsked (b : Action) : Prop := has (ac_Annotations b) annRequeueRequested = true.

Definition cancelAsked (b : Action) : Prop :=
  has (ac_Annotations b) annCancelRequested = true \/ ac_Desired b = DesiredStateCancelled.

Definition running (p : ActionPhase) : Prop := p = ActionPhaseAssigned \/ p = ActionPhaseInProgress.

(** The bound robot is under an emergency stop as the pass has read it, and by what read. *)
Definition underStopSeen (b : Action) : Prop :=
  exists o, (saw (AGate (EGet (ac_Robot b))) (Ok o) /\ robotUnderEstop (ob_Robot o) = true) \/
            (exists zs cs stops, saw (AGate (ELiveGet (ac_Robot b))) (Ok o) /\ saw (AGate EZones) (Some zs) /\
               saw (AGate EConfigs) (Some cs) /\ stopNamesOf zs cs (ob_Robot o) = Ok stops /\
               (stops <> [] \/ estopHoldsWork (ob_Robot o) = true)).

(** Its lease may be renewed: the robot records the action, is reachable, and no stop and no clear holds the work. *)
Definition renewable (b : Action) : Prop :=
  leaseStampHeld b = false /\
  exists o, saw (AGate (EGet (ac_Robot b))) (Ok o) /\ classifyRobot b (Some o) = robotExecuting /\
    robotUnderEstop (ob_Robot o) = false /\ r_EstopState (ob_Robot o) <> RobotEstopResuming.

(** The action as the executor gate is asked about it: [b] itself, stamped with a time the pass has seen
    when it carries no PendingSince. *)
Definition gatedAs (b a : Action) : Prop :=
  match as_PendingSince (ac_Status b) with
  | Some _ => a = b
  | None => exists n, saw (AGate ENow) n /\ a = edit b (putPendingSince (Some n))
  end.

(** Every robot listed that records the action, but the one the action itself names, is settled; or the
    time until its lease is dead, by the action's own times, overflows a Duration. *)
Definition gatePassed (b : Action) : Prop :=
  exists a robots now cfgs, gatedAs b a /\ saw AListRobots (Some robots) /\ saw (AGate ENow) now /\ saw (AGate EScheduling) cfgs /\
    let skew := (timingsOf cfgs).2 in
    (forall ro, ro ∈ robots -> ob_AssignedAction ro = ac_Name b -> r_Name (ob_Robot ro) <> ac_Robot b ->
       settled (gateOf a) false now skew (gates h) (r_Name (ob_Robot ro))) \/
    MaxInt64 - Second < deadAt (gateOf a) false now skew - now.

(** The destination is under no stop. *)
Definition destinationClear (b : Action) : Prop :=
  ac_Zone b = "" \/
  exists zs cs, saw (AGate EZones) (Some zs) /\ saw (AGate EConfigs) (Some cs) /\ Reaching (TreeOf zs) (ac_Zone b) Carries = Ok [].

Inductive row (tde : bool) (b n : Action) : Prop :=
| row_hold : moved b n (ac_Phase b) (ac_Robot b) (ac_Lease b) -> row tde b n
| row_pending : unscheduled (ac_Phase b) = true -> moved b n ActionPhasePending (ac_Robot b) (ac_Lease b) -> row tde b n
| row_assign robot (robots : list RobotObject) (now : Time) (cfgs : option (list SchedulingSpec)) :
    unscheduled (ac_Phase b) = true -> gatePassed b -> destinationClear b ->
    saw AListRobots (Some robots) -> robot ∈ robots ->
    (tde = true -> ac_Zone b <> "" -> exists p res, saw (AReserve (ac_Name b) (r_Name (ob_Robot robot)) (ac_Zone b) p) (false, res) /\
       rs_Status res <> Denied) ->
    saw (AGate ENow) now -> saw (AGate EScheduling) cfgs ->
    ac_Phase n = ActionPhaseAssigned -> ac_Robot n = r_Name (ob_Robot robot) -> ac_Lease n = Some (now + (timingsOf cfgs).1.1) ->
    (exists m, saw (AMint m) (Ok (generationOf n)) /\ ac_Name m = ac_Name b) -> leaseStampHeld n = false -> row tde b n
| row_revert (e : writeError) rv o :
    ac_Phase b = ActionPhaseAssigned -> saw (AGate (EPatch (ac_Robot b) rv o)) (Some e) ->
    moved b n ActionPhasePending "" None -> row tde b n
| row_reject :
    ac_Phase b = ActionPhaseAssigned -> rejectedBy b (ac_Robot b) ->
    (uncovered (ac_Robot b) \/ saw (AGate (ELiveGet (ac_Robot b))) (Err NotFound)) ->
    moved b n ActionPhasePending "" None -> row tde b n
| row_renew lease :
    running (ac_Phase b) \/ ac_Phase b = ActionPhaseRevoking /\ noStopHolds b -> renewable b ->
    moved b n (if ac_Phase b =s ActionPhaseRevoking then ActionPhaseInProgress else ac_Phase b) (ac_Robot b) (Some lease) -> row tde b n
| row_renew_paused o lease :
    ac_Phase b = ActionPhasePaused -> leaseStampHeld b = false -> saw (AGate (EGet (ac_Robot b))) (Ok o) ->
    stopConfirmed (ob_Robot o) = true -> moved b n ActionPhasePaused (ac_Robot b) (Some lease) -> row tde b n
| row_bound lease :
    ac_Phase b = ActionPhasePaused -> ac_Lease b = None -> moved b n ActionPhasePaused (ac_Robot b) (Some lease) -> row tde b n
| row_revoke robot lease :
    running (ac_Phase b) -> robotSeen b robot -> classifyRobot b robot = robotLost ->
    (lease = ac_Lease b \/ ac_Lease b = None) -> lease <> None ->
    moved b n ActionPhaseRevoking (ac_Robot b) lease -> row tde b n
| row_pause lease :
    running (ac_Phase b) -> underStopSeen b \/ ac_Desired b = DesiredStatePaused \/ ac_Desired b = DesiredStateReturning ->
    lease <> None -> (leaseStampHeld b = true -> ac_Lease b <> None -> lease = ac_Lease b) ->
    moved b n ActionPhasePaused (ac_Robot b) lease -> row tde b n
| row_release :
    ac_Phase b = ActionPhaseAssigned -> ac_Desired b = DesiredStatePaused \/ ac_Desired b = DesiredStateReturning ->
    moved b n ActionPhasePaused "" None -> row tde b n
| row_gone :
    running (ac_Phase b) \/ ac_Phase b = ActionPhasePaused -> leaseDeadSeen b \/ ac_Lease b = None ->
    saw (AGate (ELiveGet (ac_Robot b))) (Err NotFound) -> moved b n ActionPhasePaused "" None -> row tde b n
| row_requeue :
    ac_Phase b <> ActionPhaseSucceeded -> ac_Phase b <> ActionPhaseCancelled -> requeueAsked b ->
    ac_Robot b = "" \/ stopProof b (ac_Robot b) -> moved b n ActionPhasePending "" None -> row tde b n
| row_cancel :
    ac_Phase b <> ActionPhaseSucceeded -> ac_Phase b <> ActionPhaseCancelled ->
    cancelAsked b /\ (ac_Robot b = "" \/ stopProof b (ac_Robot b)) \/
    ac_Phase b = ActionPhaseRevoking /\ noStopHolds b /\ (leaseDeadSeen b \/ freeSeen b) ->
    moved b n ActionPhaseCancelled "" None -> row tde b n
| row_reassign :
    ac_Phase b = ActionPhaseRevoking \/ ac_Phase b = ActionPhasePreempted -> noStopHolds b ->
    leaseDeadSeen b \/ ac_Phase b = ActionPhaseRevoking /\ freeSeen b \/ ac_Phase b = ActionPhasePreempted /\ stopProof b (ac_Robot b) ->
    moved b n ActionPhasePending "" None -> row tde b n
| row_unstarted :
    unscheduled (ac_Phase b) = true -> moved b n ActionPhaseFailed (ac_Robot b) (ac_Lease b) -> row tde b n
| row_timeout :
    ac_Phase b = ActionPhaseInProgress -> stopProof b (ac_Robot b) ->
    (uncovered (ac_Robot b) \/ saw (AGate (ELiveGet (ac_Robot b))) (Err NotFound)) ->
    moved b n ActionPhaseFailed (ac_Robot b) (ac_Lease b) -> row tde b n
| row_unconfirmed lease :
    ac_Phase b <> ActionPhaseSucceeded -> ac_Phase b <> ActionPhaseCancelled -> requeueAsked b ->
    cancelAck b (ac_Robot b) CancelStopUnconfirmed -> lease <> None -> (lease = ac_Lease b \/ ac_Lease b = None) ->
    as_FailureReason (ac_Status n) = reasonStopUnconfirmed ->
    moved b n ActionPhaseFailed (ac_Robot b) lease -> row tde b n
| row_recovered :
    ac_Phase b <> ActionPhaseSucceeded -> ac_Phase b <> ActionPhaseCancelled -> requeueAsked b ->
    cancelAck b (ac_Robot b) CancelRecovered -> moved b n ActionPhaseFailed (ac_Robot b) (ac_Lease b) -> row tde b n
| row_completed :
    running (ac_Phase b) \/ ac_Phase b = ActionPhasePreempted /\ noStopHolds b -> (exists robot, cancelAck b robot CancelCompleted) ->
    moved b n ActionPhaseSucceeded (ac_Robot b) (ac_Lease b) -> row tde b n
| row_preempt :
    running (ac_Phase b) -> isPreemptible (ac_Priority b) = true -> uncovered (ac_Robot b) ->
    moved b n ActionPhasePreempted (ac_Robot b) (ac_Lease b) -> row tde b n
| row_retry :
    awaitsRetry b = true -> endedOn b (ac_Robot b) -> moved b n ActionPhasePending "" None -> row tde b n
| row_retire a0 :
    origin a0 -> ac_Name a0 = ac_Name b -> endedOn a0 (ac_Robot a0) -> moved b n (ac_Phase b) (ac_Robot b) None -> row tde b n.

(** ** What is permitted *)

(** A robot's record may be cleared. *)
Definition mayRelease (a : Action) (robot : string) : Prop :=
  stopProof a robot \/ endedOn a robot \/ rejectedBy a robot \/ ac_Robot a = robot /\ freeSeen a.

(** The assignment of an action to a robot is committed. *)
Definition committed (name robot : string) (gen : Z) : Prop :=
  exists b n rv, saw (AStatus b n) (Ok rv) /\ ac_Name n = name /\ ac_Phase n = ActionPhaseAssigned /\ ac_Robot n = robot /\
    generationOf n = gen /\ unscheduled (ac_Phase b) = true.

Inductive robotWrite (robot : string) (rv : Z) (o' : RobotObject) : Prop :=
| rw_guard a move now skew : allowed a move now skew (gates h) (EPatch robot rv o') -> robotWrite robot rv o'
| rw_release a o : saw (AGate (EGet robot)) (Ok o) -> ob_rv o = rv -> ob_AssignedAction o = ac_Name a -> o' = released o ->
    mayRelease a robot -> robotWrite robot rv o'
| rw_take (robots : list RobotObject) o name gen : saw AListRobots (Some robots) -> o ∈ robots -> r_Name (ob_Robot o) = robot -> ob_rv o = rv ->
    o' = taken o name -> committed name robot gen -> robotWrite robot rv o'.

Definition permitted (tde : bool) (e : ActEv) : Prop :=
  match e with
  | AStatus b n => origin b /\ ac_Name n = ac_Name b /\ ac_Spec n = ac_Spec b /\ row tde b n
  | AFinalizer b _ => origin b
  | AGate (EPatch robot rv o') => robotWrite robot rv o'
  | ARobotMerge o o' =>
      exists b, origin b /\ (ac_Phase b = ActionPhaseRevoking \/ ac_Phase b = ActionPhasePreempted) /\ noStopHolds b /\
        (leaseDeadSeen b \/ ac_Phase b = ActionPhasePreempted /\ stopProof b (ac_Robot b)) /\
        saw (AGate (EGet (ac_Robot b))) (Ok o) /\ ob_AssignedAction o = ac_Name b /\ o' = mkRobotObject (ob_rv o) (ob_Robot o) ""
  | AAssign robot c =>
      exists gen rv o, committed (aa_ActionID c) robot gen /\ aa_FencingToken c = FencingToken gen /\ aa_LeaseGeneration c = FencingToken gen /\
        saw (AGate (EPatch robot rv (taken o (aa_ActionID c)))) None
  | ARenew robot name gen _ =>
      exists b n rv, saw (AStatus b n) (Ok rv) /\ renewable b /\ (running (ac_Phase b) \/ ac_Phase b = ActionPhaseRevoking /\ noStopHolds b) /\ ac_Name n = name /\ ac_Robot n = robot /\
        gen = FencingToken (generationOf b) /\ ac_Lease n <> None
  | _ => True
  end.
End Evidence.
