(* ===== verification/ActionProps.v ===== *)
(** The FleetAction controller makes only the writes its table permits (ActionTable): one lemma per
    operation of ActionController, in the logic of Along. *)

From S2P Require Import Prelude.
From S2P Require Import Types.
From S2P Require Import Contract.
From S2P Require Import Conc.
From S2P Require Import Along.
From S2P Require Import EstopScope.
From S2P Require Import Command.
From S2P Require Import ExecutorGuard.
From S2P Require Import FencingStore.
From S2P Require Import Scheduler.
From S2P Require Import Tde.
From S2P Require Import ExecutorGate.
From S2P Require Import SafetyData.
From S2P Require Import ActionData.
From S2P Require Import ActionController.
From S2P Require Import ActionTable.

(** ** Evidence only grows *)

Create HintDb seen.

Section Mono.
Context (h h' : list AObs) (Hm : seenMore h h').

Lemma saw_mono o : o ∈ h -> o ∈ h'.
Proof. by apply seen_elem. Qed.

Lemma cancelAck_mono a r d : cancelAck h a r d -> cancelAck h' a r d.
Proof. intros (c & out & H & ?). exists c, out. split; [by apply saw_mono|done]. Qed.

Lemma leaseDeadSeen_mono a : leaseDeadSeen h a -> leaseDeadSeen h' a.
Proof. intros (now & cfgs & H1 & H2 & H3). exists now, cfgs. eauto using saw_mono. Qed.

Lemma stopProof_mono a r : stopProof h a r -> stopProof h' a r.
Proof. intros [(d & H & ?)|H]; [left; exists d; eauto using cancelAck_mono|right; by apply leaseDeadSeen_mono]. Qed.

Lemma robotSeen_mono a r : robotSeen h a r -> robotSeen h' a r.
Proof. destruct r; apply saw_mono. Qed.

Lemma freeSeen_mono a : freeSeen h a -> freeSeen h' a.
Proof. intros (o & H & ?). exists o. eauto using saw_mono. Qed.

Lemma uncovered_mono r : uncovered h r -> uncovered h' r.
Proof. intros (o & zs & cs & H1 & H2 & H3 & H4). exists o, zs, cs. split_and!; try apply saw_mono; done. Qed.

Lemma noStopHolds_mono a : noStopHolds h a -> noStopHolds h' a.
Proof.
  intros [H (r & H1 & H2)]. split; [|exists r; eauto using robotSeen_mono].
  destruct H as [H|(zs & cs & ? & ? & ? & ?)]; [left; by apply uncovered_mono|right; exists zs, cs; split_and!; try apply saw_mono; done].
Qed.

Lemma rejectedBy_mono a r : rejectedBy h a r -> rejectedBy h' a r.
Proof. intros (c & out & H & ?). exists c, out. eauto using saw_mono. Qed.

Lemma endedOn_mono a r : endedOn h a r -> endedOn h' a r.
Proof. intros [H1 H2]. split; [done|]. pose proof leaseDeadSeen_mono. naive_solver. Qed.

Lemma inHand_mono a : inHand h a -> inHand h' a.
Proof.
  intros [(n & [H|H])|[(b & n & rv & H & ?)|[(b & n & H)|(b & hold & rv & H & ?)]]];
    [left; exists n; left|left; exists n; right|right; left; exists b, n, rv; split; [|done]|right; right; left; exists b, n|right; right; right; exists b, hold, rv; split; [|done]]; by apply saw_mono.
Qed.

Lemma origin_mono a : origin h a -> origin h' a.
Proof. intros (a0 & H & ?). exists a0. eauto using inHand_mono. Qed.

Lemma origin_same a0 a : sameWork a0 a -> origin h a0 -> origin h a.
Proof. intros (H0 & H1 & H2 & H3) (a1 & H & H4 & H5 & H6 & H7). exists a1. split; [done|]. unfold sameWork. by rewrite H0, H1, H2, H3. Qed.

Lemma underStopSeen_mono b : underStopSeen h b -> underStopSeen h' b.
Proof.
  intros (o & [[H ?]|(zs & cs & st & H1 & H2 & H3 & ?)]); exists o; [left; split; [by apply saw_mono|done]|right; exists zs, cs, st].
  split_and!; try apply saw_mono; naive_solver.
Qed.

Lemma renewable_mono b : renewable h b -> renewable h' b.
Proof. intros [? (o & H & ?)]. split; [done|]. exists o. eauto using saw_mono. Qed.

Lemma gatedAs_mono b a : gatedAs h b a -> gatedAs h' b a.
Proof. unfold gatedAs. destruct (as_PendingSince _); [done|]. intros (n & H & ->). eauto using saw_mono. Qed.

Lemma gatePassed_mono b : gatePassed h b -> gatePassed h' b.
Proof.
  intros (a & robots & now & cfgs & H1 & H2 & H3 & H4 & H5). exists a, robots, now, cfgs.
  split_and!; eauto using saw_mono, gatedAs_mono. destruct H5 as [H5|H5]; [left|by right].
  intros ro Hro Ha Hr. eapply settled_mono; [by apply gates_mono|by apply H5].
Qed.

Lemma destinationClear_mono b : destinationClear h b -> destinationClear h' b.
Proof. intros [?|(zs & cs & H1 & H2 & ?)]; [by left|right; exists zs, cs; eauto using saw_mono]. Qed.

Lemma mayRelease_mono a r : mayRelease h a r -> mayRelease h' a r.
Proof.
  intros [H|[H|[H|[H1 H2]]]]; [left; by apply stopProof_mono|right; left; by apply endedOn_mono|right; right; left; by apply rejectedBy_mono|].
  right; right; right. split; [done|]. by apply freeSeen_mono.
Qed.

Lemma committed_mono n r g : committed h n r g -> committed h' n r g.
Proof. intros (b & a & rv & H & ?). exists b, a, rv. eauto using saw_mono. Qed.
End Mono.

(** [more] proves that a later history has seen more. *)
Ltac more :=
  first
    [ eassumption
    | apply seen_refl
    | lazymatch goal with |- seenMore _ (?h ++ _) => eapply seen_trans; [|apply seen_app]; more end
    | match goal with H : seenMore ?h ?h' |- seenMore _ ?h' => eapply seen_trans; [|exact H]; clear H; more end ].

(** [saw] finds what was seen in a later history. *)
Ltac saw :=
  first
    [ eassumption
    | apply seen_last
    | lazymatch goal with |- _ ∈ ?h ++ _ => apply elem_of_app; left; saw end
    | match goal with H : seenMore ?h ?h' |- _ ∈ ?h' => eapply (seen_elem _ _ _ H); clear H; saw end ].

Ltac later :=
  first
    [ eassumption | saw
    | match goal with
      | H : cancelAck _ ?a ?r ?d |- cancelAck _ ?a ?r ?d => eapply cancelAck_mono; [|exact H]; more
      | H : leaseDeadSeen _ ?a |- leaseDeadSeen _ ?a => eapply leaseDeadSeen_mono; [|exact H]; more
      | H : stopProof _ ?a ?r |- stopProof _ ?a ?r => eapply stopProof_mono; [|exact H]; more
      | H : robotSeen _ ?a ?r |- robotSeen _ ?a ?r => eapply robotSeen_mono; [|exact H]; more
      | H : freeSeen _ ?a |- freeSeen _ ?a => eapply freeSeen_mono; [|exact H]; more
      | H : uncovered _ ?a |- uncovered _ ?a => eapply uncovered_mono; [|exact H]; more
      | H : noStopHolds _ ?a |- noStopHolds _ ?a => eapply noStopHolds_mono; [|exact H]; more
      | H : rejectedBy _ ?a ?r |- rejectedBy _ ?a ?r => eapply rejectedBy_mono; [|exact H]; more
      | H : endedOn _ ?a ?r |- endedOn _ ?a ?r => eapply endedOn_mono; [|exact H]; more
      | H : origin _ ?a |- origin _ ?a => eapply origin_mono; [|exact H]; more
      | H : underStopSeen _ ?a |- underStopSeen _ ?a => eapply underStopSeen_mono; [|exact H]; more
      | H : renewable _ ?a |- renewable _ ?a => eapply renewable_mono; [|exact H]; more
      | H : gatePassed _ ?a |- gatePassed _ ?a => eapply gatePassed_mono; [|exact H]; more
      | H : destinationClear _ ?a |- destinationClear _ ?a => eapply destinationClear_mono; [|exact H]; more
      | H : mayRelease _ ?a ?r |- mayRelease _ ?a ?r => eapply mayRelease_mono; [|exact H]; more
      | H : committed _ ?a ?b ?c |- committed _ ?a ?b ?c => eapply committed_mono; [|exact H]; more
      end ].

(** ** The logic *)

Section Logic.
Context (tde : bool).
Notation run := (along actAnswered (fun h => permitted h tde)).

Lemma run_bind {A B : Type} (p : P A) (f : A -> P B) h Q R :
  run p h Q -> (forall h' a, seenMore h h' -> Q h' a -> run (f a) h' R) -> run (pbind p f) h R.
Proof.
  intros Hp Hf. eapply along_bind; [exact (along_grows _ _ _ _ _ Hp)|]. intros h' a [Hm HQ]. by apply Hf.
Qed.

Lemma run_try {A B : Type} (p : P (result actError A)) (k : A -> P (result actError B)) h Q R :
  run p h Q -> (forall h' a, seenMore h h' -> Q h' (Ok a) -> run (k a) h' R) ->
  (forall h' e, seenMore h h' -> Q h' (Err e) -> R h' (Err e)) -> run (tryBind p k) h R.
Proof. intros Hp Hk He. eapply run_bind; [exact Hp|]. intros h' [a|e] Hm HQ; [by apply Hk|by apply He]. Qed.

Lemma run_after {A : Type} (p : P (result actError A)) o h : run p h (fun _ _ => True) -> run (after p o) h (fun _ _ => True).
Proof. intros Hp. by eapply run_try; [exact Hp|done..]. Qed.

Lemma run_true {A : Type} (p : P A) h Q : run p h Q -> run p h (fun _ _ => True).
Proof. by apply along_conseq. Qed.

(** A program of the gate, run here. *)
Lemma run_lift {A : Type} Jg (p : prog gateResp A) h Q :
  (forall h' e, seenMore h h' -> Jg (gates h') e -> permitted h' tde (AGate e)) ->
  along answered Jg p (gates h) Q -> run (liftGate p) h (fun h' a => Q (gates h') a).
Proof.
  revert h. induction p as [A a|A e k IH|A key k IH|A key k IH|A q _ k IH]; simpl; intros h HJ; eauto.
  intros [He Hk]. split; [apply HJ; [apply seen_refl|done]|]. intros a Ha. apply IH; [|rewrite gates_snoc; by apply Hk].
  intros h' e' Hm. apply HJ. eapply seen_trans; [apply seen_app|done].
Qed.

Lemma run_reads {A : Type} (p : prog gateResp A) h Q : along answered onlyReads p (gates h) Q -> run (liftGate p) h (fun h' a => Q (gates h') a).
Proof. apply run_lift. intros h' e _ He. by destruct e. Qed.
End Logic.

(** ** The operations *)

Definition timed (h : list AObs) (duration renew skew : Duration) : Prop :=
  exists cfgs, @Seen ActEv actResp (AGate EScheduling) cfgs ∈ h /\ timingsOf cfgs = (duration, renew, skew).

Lemma timed_mono h h' d r s : seenMore h h' -> timed h d r s -> timed h' d r s.
Proof. intros Hm (cfgs & H & ?). exists cfgs. split; [by eapply saw_mono|done]. Qed.

(** [a] is [b] with changes that no row looks at. *)
Definition near (b a : Action) : Prop :=
  ac_Name a = ac_Name b /\ ac_Spec a = ac_Spec b /\ ac_Phase a = ac_Phase b /\ ac_Robot a = ac_Robot b /\ ac_Lease a = ac_Lease b /\
  generationOf a = generationOf b /\ ac_Zone a = ac_Zone b.

Lemma near_refl b : near b b.
Proof. by unfold near. Qed.

Lemma cancelAck_same h b a r d : ac_Name a = ac_Name b -> generationOf a = generationOf b -> cancelAck h b r d -> cancelAck h a r d.
Proof. intros Hn Hg (c & out & H & H1 & H2 & ?). exists c, out. by rewrite Hn, Hg. Qed.

Ltac step := apply along_event; [exact I|].
Ltac moved := split_and!; reflexivity.

Section Ops.
Context (rc : Reconciler).
Notation run := (along actAnswered (fun h => permitted h (rc_TDE rc))).
Notation any := (fun _ _ => True).

Lemma run_timings h : run timings h (fun h' t => timed h' t.1.1 t.1.2 t.2).
Proof. unfold timings. simpl. split; [done|]. intros cfgs _. exists cfgs. destruct (timingsOf cfgs) as [[d r] s] eqn:E. split; [apply seen_last|done]. Qed.

Lemma run_now h : run getNow h (fun h' t => @Seen ActEv actResp (AGate ENow) t ∈ h').
Proof. step. intros t _. apply seen_last. Qed.

Lemma run_getRobot r h : run (getRobot r) h (fun h' a => @Seen ActEv actResp (AGate (EGet r)) a ∈ h' /\ answered (EGet r) a).
Proof. step. intros a Ha. split; [apply seen_last|done]. Qed.

Lemma run_liveRobot r h : run (liveRobot r) h (fun h' a => @Seen ActEv actResp (AGate (ELiveGet r)) a ∈ h' /\ answered (ELiveGet r) a).
Proof. step. intros a Ha. split; [apply seen_last|done]. Qed.

Lemma run_when b p h : run p h any -> run (when b p) h any.
Proof. by destruct b. Qed.

Lemma run_emit r h : run (emit rc r) h any.
Proof. apply run_when. by step. Qed.

Lemma run_releaseReservation a h : run (releaseReservation rc a) h any.
Proof. apply run_when. by step. Qed.

Lemma run_unreserve b a h : run (unreserveOnFailure rc b a) h any.
Proof. apply run_when. by step. Qed.

(** The answer of a status write: the object stored. *)
Lemma run_patch b n h : permitted h (rc_TDE rc) (AStatus b n) ->
  run (patchActionStatus n b) h (fun h' r => match r with Ok a => exists rv, @Seen ActEv actResp (AStatus b n) (Ok rv) ∈ h' /\ a = stored n rv | Err _ => True end).
Proof. intros Hp. apply along_event; [done|]. intros [rv|e] _; [|done]. exists rv. split; [apply seen_last|done]. Qed.

Lemma run_patch_ b n h : permitted h (rc_TDE rc) (AStatus b n) -> run (patchActionStatus n b) h any.
Proof. intros Hp. eapply along_conseq; [|by apply run_patch]. done. Qed.

Lemma run_meta b n h : run (patchMeta n b) h any.
Proof. step. by intros [] _. Qed.

Lemma run_world h : run readWorld h (fun h' w => match w with
  | Some (zs, cs) => @Seen ActEv actResp (AGate EZones) (Some zs) ∈ h' /\ @Seen ActEv actResp (AGate EConfigs) (Some cs) ∈ h'
  | None => True end).
Proof.
  step. intros [zs|] _; [|done]. step. intros [cs|] _; [|done]. split; saw.
Qed.

(** The stops over a robot, as read. *)
Definition stopsAre (h : list AObs) (robot : Robot) (names : list string) : Prop :=
  exists zs cs, @Seen ActEv actResp (AGate EZones) (Some zs) ∈ h /\ @Seen ActEv actResp (AGate EConfigs) (Some cs) ∈ h /\
    stopNamesOf zs cs robot = Ok names.

Lemma run_stopNames robot h : run (stopNames robot) h (fun h' r => match r with Ok names => stopsAre h' robot names | Err _ => True end).
Proof.
  eapply run_bind; [apply run_world|]. intros h' [[zs cs]|] Hm Hw; [|done]. destruct Hw.
  destruct (stopNamesOf zs cs robot) eqn:E; simpl; [|done]. by exists zs, cs.
Qed.

Lemma run_stopCovering robot h : run (stopCoveringA robot) h any.
Proof.
  eapply run_bind; [apply run_reads, along_stopCovering|]. by intros h' [] _ _.
Qed.

(** *** Cancels *)

Lemma run_pushCancel a r i h : run (pushCancelA a r i) h (fun h' x => x.1 = true -> cancelAck h' a r x.2).
Proof.
  unfold pushCancelA. simpl. split; [done|]. intros out _. destruct out as [out|]; simpl; [|done]. intros Hack.
  eexists _, out. split; [apply seen_last|]. done.
Qed.

Definition stopAnswer (h : list AObs) (a : Action) (r : string) (x : bool * CancelDisposition) : Prop :=
  (x.1 = true -> stopProof h a r) /\ match x.2 with CancelStoppedSafely => True | d => cancelAck h a r d end.

Lemma run_fall a r (u : bool) h : (u = true -> cancelAck h a r CancelStopUnconfirmed) ->
  run (let* (_, _, skew) := timings in let* now := getNow in
       Ret (leaseProvablyDead (ac_Lease a) now skew, if u then CancelStopUnconfirmed else CancelStoppedSafely)) h (fun h' x => stopAnswer h' a r x).
Proof.
  intros Hu. eapply run_bind; [apply run_timings|]. intros h1 [[d rn] s] Hm1 (cfgs & Hc & Ht). simpl in Ht.
  eapply run_bind; [apply run_now|]. intros h2 now Hm2 Hn. split; simpl.
  - intros Hd. right. exists now, cfgs. split_and!; [done|saw|by rewrite Ht].
  - destruct u; [|done]. specialize (Hu eq_refl). later.
Qed.

Lemma run_confirmedStop a r i h : run (confirmedStopWithDisposition rc a r i) h (fun h' x => stopAnswer h' a r x).
Proof.
  unfold confirmedStopWithDisposition. destruct (rc_Commander rc).
  - eapply run_bind; [apply run_pushCancel|]. intros h1 [ok disp] Hm Ha. simpl in Ha. destruct (ok && negb (stopUnconfirmed disp)) eqn:E.
    + apply andb_true_iff in E as [-> Hd]. split; simpl; [|specialize (Ha eq_refl); by destruct disp].
      intros _. left. exists disp. split; [by apply Ha|]. by intros ->.
    + apply run_fall. intros ->. simpl in E. apply negb_false_iff in E. destruct disp; try done. by apply Ha.
  - by apply (run_fall a r false).
Qed.

Lemma run_confirmed a r i h : run (confirmedStop rc a r i) h (fun h' x => x = true -> stopProof h' a r).
Proof. eapply run_bind; [apply run_confirmedStop|]. intros h' [ok d] _ [H _]. exact H. Qed.

Lemma run_holdStop a msg h : origin h a -> run (holdStop a a msg) h any.
Proof.
  intros Ho. unfold holdStop. assert (Hw : forall h', run (let* (_, renew, _) := timings in Ret (Ok (RequeueAfter renew) : Res)) h' any).
  { intros h'. eapply run_bind; [apply run_timings|]. by intros h2 [[d r] s] _ _. }
  destruct (_ <>s _); [|apply Hw]. eapply run_try; [apply run_patch_| |done].
  - split_and!; [done..|]. apply row_hold. moved.
  - intros h' _ _ _. apply Hw.
Qed.

(** *** Releasing robots *)

Lemma run_releaseRobot b a r h : ac_Name a = ac_Name b -> (r <> "" -> mayRelease h b r) -> run (releaseRobotForStop a r) h any.
Proof.
  intros Hab Hr. unfold releaseRobotForStop. destruct (r =s "") eqn:E; str_bool; [done|].
  eapply run_bind; [apply run_getRobot|]. intros h1 [o|[]] Hm [Hs _]; [|done..].
  destruct (ob_AssignedAction o <>s ac_Name a) eqn:En; str_bool; [done|].
  apply along_event; [|by intros [] _]. apply rw_release with (a := b) (o := o); try done; [congruence|]. specialize (Hr E). later.
Qed.

Lemma run_releaseBound b a r h : ac_Name a = ac_Name b -> (r <> "" -> mayRelease h b r) -> run (releaseBoundUnlessCovered a r) h any.
Proof.
  intros Hab Hr. unfold releaseBoundUnlessCovered. destruct (r =s "") eqn:E; str_bool; [done|].
  eapply run_bind; [apply run_liveRobot|]. intros h1 [o|[]] Hm [Hs _]; [|done..].
  destruct (ob_AssignedAction o <>s ac_Name a) eqn:En; str_bool; [done|].
  eapply run_try; [apply run_stopCovering| |done]. intros h2 c Hm2 _. destruct (KeepsRecord c false); [done|].
  apply (run_releaseRobot b); [done|]. intros _. specialize (Hr E). later.
Qed.

(** The executor gate's writes are the guard's. *)
Lemma run_gate {A : Type} a mv now skew (p : prog gateResp A) h Q :
  along answered (allowed a mv now skew) p (gates h) Q -> run (liftGate p) h (fun h' x => Q (gates h') x).
Proof. apply run_lift. intros h' e _ He. destruct e; try done. by eapply rw_guard. Qed.

Lemma along_recordersDecision c a now skew mv hg : along answered (allowed a mv now skew) (recordersDecision c a now skew mv) hg (fun _ _ => True).
Proof. split; [done|]. intros [robots|] _; [|done]. simpl. eapply along_conseq; [|apply along_gate]. done. Qed.

Lemma run_releaseRecorders a now skew h : run (releaseRecordersA rc a now skew) h any.
Proof.
  eapply run_bind; [|by intros h' [[[w b] y]|e] _ _]. eapply run_gate with (Q := any), along_bind; [apply along_recordersDecision|].
  by intros hg [d|e] _.
Qed.

Lemma run_recorders a now skew mv h : run (liftGate (recordersDecision (rc_Commander rc) (gateOf a) now skew mv)) h any.
Proof. eapply run_gate with (Q := any), along_recordersDecision. Qed.

(** *** Ends *)

(** The work may be cancelled. *)
Definition mayCancel (h : list AObs) (b : Action) : Prop :=
  cancelAsked b /\ (ac_Robot b = "" \/ stopProof h b (ac_Robot b)) \/
  ac_Phase b = ActionPhaseRevoking /\ noStopHolds h b /\ (leaseDeadSeen h b \/ freeSeen h b).

Lemma mayCancel_mono h h' b : seenMore h h' -> mayCancel h b -> mayCancel h' b.
Proof.
  intros Hm [[H [?|H']]|(H & H1 & [H2|H2])]; [left; split; [done|by left]|left; split; [done|right; later]|right..]; (split_and!; [done|later|]).
  - left. later.
  - right. later.
Qed.

Lemma mayCancel_release h b : mayCancel h b -> ac_Robot b <> "" -> mayRelease h b (ac_Robot b).
Proof. intros [[_ [?|?]]|(_ & _ & [?|?])] Hr; [done|by left|left; by right|by right; right; right]. Qed.

Lemma run_finalizeCancel b a i h : origin h b -> near b a -> ac_Phase b <> ActionPhaseSucceeded -> ac_Phase b <> ActionPhaseCancelled ->
  mayCancel h b -> run (finalizeCancel rc a b (ac_Robot b) i) h any.
Proof.
  intros Ho (N1 & N2 & N3 & N4 & N5 & N6 & N7) Hs Hc Hw. unfold finalizeCancel.
  eapply run_try; [apply (run_releaseBound b); [done|by apply mayCancel_release]| |done]. intros h1 _ Hm1 _.
  eapply run_bind; [apply run_now|]. intros h2 now Hm2 _. eapply run_try; [apply run_patch_| |done].
  - split_and!; [later|done|done|]. apply row_cancel; [done..| |].
    + eapply mayCancel_mono; [|exact Hw]. more.
    + unfold applyCancelAttribution. destruct (_ =s _); split_and!; try reflexivity; exact N6.
  - intros h3 a' _ _. eapply run_bind; [apply run_releaseReservation|]. intros h4 _ _ _.
    eapply run_bind; [unfold emitCancelEvent; destruct (_ =s _); [|apply run_emit]; done|]. intros h5 _ _ _.
    eapply run_bind; [apply run_when; by step|]. done.
Qed.

Lemma run_handleCancel b i h : origin h b -> ac_Phase b <> ActionPhaseSucceeded -> ac_Phase b <> ActionPhaseCancelled -> cancelAsked b ->
  run (handleCancel rc b b i) h any.
Proof.
  intros Ho Hs Hc Ha. unfold handleCancel. destruct (ac_Robot b =s "") eqn:E; str_bool.
  - apply run_after, run_finalizeCancel; try done. left. auto.
  - eapply run_bind; [apply run_confirmed|]. intros h1 [] Hm Hp; [|apply run_holdStop; later].
    apply run_after, run_finalizeCancel; try done; [later|]. left. auto.
Qed.

Lemma run_clearRequeue a h : run (clearRequeue a) h any.
Proof. apply run_meta. Qed.

Lemma run_finalizeRequeue b reason h : origin h b -> ac_Phase b <> ActionPhaseSucceeded -> ac_Phase b <> ActionPhaseCancelled ->
  requeueAsked b -> ac_Robot b = "" \/ stopProof h b (ac_Robot b) -> run (finalizeRequeue rc b b (ac_Robot b) reason) h any.
Proof.
  intros Ho Hs Hc Hq Hp. unfold finalizeRequeue.
  eapply run_try; [apply (run_releaseRobot b); [done|]| |done].
  { intros Hr. destruct Hp as [?|Hp]; [done|by left]. }
  intros h1 _ Hm1 _. eapply run_bind; [apply run_now|]. intros h2 now Hm2 _. eapply run_try; [apply run_patch_| |done].
  - split_and!; [later|done|done|]. apply row_requeue; try done. destruct Hp as [?|Hp]; [by left|right; later].
  - intros h3 a' _ _. eapply run_bind; [apply run_timings|]. intros h4 [[d r] sk] _ _. eapply run_bind; [apply run_now|]. intros h5 t _ _.
    eapply run_bind; [apply run_recorders|]. intros h6 [dec|e] _ _; [|done].
    eapply run_bind; [apply run_releaseReservation|]. intros h7 _ _ _. by eapply run_try; [apply run_clearRequeue|done..].
Qed.

Lemma run_capabilityLoss b h : origin h b -> ac_Phase b <> ActionPhaseSucceeded -> ac_Phase b <> ActionPhaseCancelled ->
  requeueAsked b -> cancelAck h b (ac_Robot b) CancelRecovered -> run (finalizeCapabilityLossFailure rc b b) h any.
Proof.
  intros Ho Hs Hc Hq Hk. unfold finalizeCapabilityLossFailure. eapply run_bind; [apply run_now|]. intros h1 now Hm1 _.
  eapply run_try; [apply run_patch_| |done].
  - split_and!; [later|done|done|]. apply row_recovered; try done. later.
  - intros h2 a' _ _. eapply run_try; [apply run_clearRequeue| |done]. intros h3 _ _ _. by eapply run_bind; [apply run_emit|].
Qed.

Lemma run_stopUnconfirmed b reason h : origin h b -> ac_Phase b <> ActionPhaseSucceeded -> ac_Phase b <> ActionPhaseCancelled ->
  requeueAsked b -> cancelAck h b (ac_Robot b) CancelStopUnconfirmed -> run (finalizeStopUnconfirmed rc b b (ac_Robot b) reason) h any.
Proof.
  intros Ho Hs Hc Hq Hk. unfold finalizeStopUnconfirmed. eapply run_bind; [apply run_now|]. intros h1 now Hm1 _.
  assert (Hend : forall h2 (a' : Action), run (let*? _ := clearRequeue a' in let* _ := emit rc "ActionStopUnconfirmed" in Ret (Ok tt)) h2 any).
  { intros h2 a'. eapply run_try; [apply run_clearRequeue| |done]. intros h3 _ _ _. by eapply run_bind; [apply run_emit|]. }
  destruct (ac_Lease b) as [l|] eqn:El.
  - eapply run_try; [apply run_patch_|intros; apply Hend|done]. split_and!; [later|done|done|].
    apply row_unconfirmed with (lease := Some l); try done; [later|by left].
  - eapply run_bind; [apply run_timings|]. intros h2 [[d r] sk] Hm2 _. eapply run_try; [apply run_patch_|intros; apply Hend|done].
    split_and!; [later|done|done|]. apply row_unconfirmed with (lease := Some (now + d)); try done; [later|by right].
Qed.

Lemma run_handleRequeue b msg h : origin h b -> ac_Phase b <> ActionPhaseSucceeded -> ac_Phase b <> ActionPhaseCancelled ->
  requeueAsked b -> run (handleRequeue rc b b msg) h any.
Proof.
  intros Ho Hs Hc Hq. unfold handleRequeue. destruct (ac_Robot b =s "") eqn:E; str_bool.
  - apply run_after, run_finalizeRequeue; auto.
  - eapply run_bind; [apply run_confirmedStop|]. intros h1 [ok disp] Hm [Hp Hd]. simpl in *.
    assert (Hreq : ok = true -> run (after (finalizeRequeue rc b b (ac_Robot b) (valueOf (ac_Annotations b) annRequeueRequested)) Done) h1 any).
    { intros Hok. apply run_after, run_finalizeRequeue; try done; [later|auto]. }
    destruct disp; cbn [stopUnconfirmed]; [destruct ok; cbn [negb]; [|apply run_holdStop; later]..|].
    + destruct (_ =s _); auto.
    + destruct (_ =s _); [|auto]. apply run_after. unfold clearRequeueAnnotation. destruct (has _ _); [|done].
      by eapply run_try; [apply run_clearRequeue|done..].
    + destruct (_ =s _); [|auto]. apply run_after, run_capabilityLoss; try done. later.
    + apply run_after, run_stopUnconfirmed; try done. later.
Qed.

Lemma run_succeed b r h : origin h b -> running (ac_Phase b) \/ ac_Phase b = ActionPhasePreempted /\ noStopHolds h b -> cancelAck h b r CancelCompleted ->
  run (succeedOnCompletedCancel b b) h any.
Proof.
  intros Ho Hph Hk. unfold succeedOnCompletedCancel. eapply run_bind; [apply run_now|]. intros h1 now Hm1 _.
  eapply run_try; [apply run_patch_|done..]. split_and!; [later|done|done|]. apply row_completed; [destruct Hph as [?|[? ?]]; [by left|right; split; [done|later]]|exists r; later|].
  destruct b as [? ? ? ? ? ? ? ? ? ? ? ? ? ? ? ? ? st]; destruct st as [? ? ? ? ? ? ? ? ? ? []]; moved.
Qed.

Lemma run_completionTimeout b h : origin h b -> ac_Phase b = ActionPhaseInProgress ->
  (uncovered h (ac_Robot b) \/ @Seen ActEv actResp (AGate (ELiveGet (ac_Robot b))) (Err NotFound) ∈ h) ->
  run (handleCompletionTimeout rc b b) h any.
Proof.
  intros Ho Hph Hu. unfold handleCompletionTimeout. eapply run_bind; [apply run_confirmed|]. intros h1 [] Hm1 Hp; [|apply run_holdStop; later].
  specialize (Hp eq_refl). eapply run_try; [apply (run_releaseRobot b); [done|by left]| |done]. intros h2 _ Hm2 _.
  eapply run_bind; [apply run_now|]. intros h3 now Hm3 _. apply run_after, run_patch_. split_and!; [later|done|done|].
  apply row_timeout; [done|later| |moved]. destruct Hu as [Hu|Hu]; [left; later|right; saw].
Qed.

(** *** Stops over the work *)

Lemma run_stopOver r h : run (stopOver r) h (fun h' x => match x with
  | Ok (stops, _) => stops = [] -> uncovered h' r \/ @Seen ActEv actResp (AGate (ELiveGet r)) (Err NotFound) ∈ h'
  | Err _ => True end).
Proof.
  eapply run_bind; [apply run_liveRobot|]. intros h1 [o|[]] Hm1 [Hs _]; [|by right|done].
  eapply run_try; [apply run_stopNames| |done]. intros h2 stops Hm2 (zs & cs & H1 & H2 & H3) ->. left. exists o, zs, cs. split_and!; saw || done.
Qed.

Lemma run_stopsOverBound b h : run (stopsOverBoundRobot b) h (fun h' x => match x with
  | Ok (stops, _, _) => stops = [] -> uncovered h' (ac_Robot b) \/ goneUncovered h' (ac_Robot b)
  | Err _ => True end).
Proof.
  eapply run_bind; [apply run_liveRobot|]. intros h1 [o|[]] Hm1 [Hs _]; [| |done].
  - eapply run_try; [apply run_stopNames| |done]. intros h2 stops Hm2 (zs & cs & H1 & H2 & H3) ->. left. exists o, zs, cs. split_and!; saw || done.
  - eapply run_bind; [apply run_world|]. intros h2 [[zs cs]|] Hm2 Hw; [|done]. destruct Hw as [H1 H2]. intros H3. right. exists zs, cs. split_and!; saw || done.
Qed.

Lemma run_stopNamesAll robots : forall out h, run (stopNamesAll robots out) h any.
Proof.
  induction robots as [|o robots IH]; intros out h; [done|]. eapply run_try; [eapply run_true, run_stopNames| |done]. intros; apply IH.
Qed.

Lemma run_stopsOverWork b h : run (stopsOverWork b) h any.
Proof.
  unfold stopsOverWork. destruct (_ <>s _).
  - eapply run_bind; [apply run_liveRobot|]. intros h1 [o|[]] _ _; [apply run_stopNamesAll|done..].
  - step. intros [l|] _; [apply run_stopNamesAll|done].
Qed.

(** *** Holds *)

(** A message or a condition written on work that stays as it is. *)
Lemma run_hold b n h : origin h b -> ac_Name n = ac_Name b -> ac_Spec n = ac_Spec b -> moved b n (ac_Phase b) (ac_Robot b) (ac_Lease b) ->
  run (patchActionStatus n b) h any.
Proof. intros Ho Hn Hsp Hm. apply run_patch_. split_and!; [done..|]. by apply row_hold. Qed.

Lemma run_holdWith b a msg ev renew h : origin h b -> ac_Name a = ac_Name b -> ac_Spec a = ac_Spec b ->
  (forall h' n, seenMore h h' -> ac_Status n = putMessage msg (ac_Status a) -> row h' (rc_TDE rc) b n) ->
  run (holdWith rc a b msg ev renew) h any.
Proof.
  intros Ho Hn Hsp Hrow. unfold holdWith. destruct (_ =s _); [done|]. eapply run_try; [apply run_patch_| |done].
  - split_and!; [done..|]. apply Hrow; [apply seen_refl|done].
  - intros h1 _ _ _. by eapply run_bind; [apply run_emit|].
Qed.

Lemma holdWith_row h b n s : ac_Status n = s -> as_Phase s = ac_Phase b -> as_AssignedRobot s = ac_Robot b -> as_LeaseExpiresAt s = ac_Lease b ->
  as_AssignmentGeneration s = generationOf b -> row h (rc_TDE rc) b n.
Proof. intros <- H1 H2 H3 H4. by apply row_hold. Qed.

Lemma run_waitForAPerson b r stops renew h : origin h b -> run (waitForAPerson rc b b r stops renew) h any.
Proof. intros Ho. apply run_holdWith; try done. intros h' n _ Hn. by eapply holdWith_row. Qed.

Lemma run_holdUnderStop b r st stops renew why h : origin h b -> run (holdUnderStop rc b b r st stops renew why) h any.
Proof. intros Ho. apply run_holdWith; try done. intros h' n _ Hn. by eapply holdWith_row. Qed.

Lemma run_unconfirmedStop b r stops now ld rn sk h : origin h b -> ac_Phase b = ActionPhasePaused ->
  run (holdUnderUnconfirmedStop rc b b r stops now ld rn sk) h any.
Proof.
  intros Ho Hp. unfold holdUnderUnconfirmedStop. destruct (ac_Lease b) eqn:El.
  - destruct (WaitsForAPerson _ _ _ _); [|done]. by apply run_waitForAPerson.
  - apply run_after, run_patch_. split_and!; [done..|]. eapply row_bound; try done.
Qed.

Lemma run_holdRevoking b renew h : origin h b -> run (holdRevokingUnderEstop b b renew) h any.
Proof. intros Ho. unfold holdRevokingUnderEstop. destruct (_ <>s _); [|done]. by apply run_after, run_hold. Qed.

(** Preempted work is let through only when no stop holds it. *)
Lemma run_holdPreempted b robot renew h : origin h b -> robotSeen h b robot ->
  run (holdPreemptedUnderStop rc b b robot renew) h (fun h' x => match x with
    | Ok None => ac_Phase b = ActionPhasePreempted -> noStopHolds h' b
    | _ => True end).
Proof.
  intros Ho Hr. unfold holdPreemptedUnderStop. destruct (ac_Phase b <>s ActionPhasePreempted) eqn:Ep; str_bool; [done|].
  eapply run_try; [apply run_stopsOverBound| |done]. intros h1 [[stops c] gone] Hm1 Hst. destruct (_ && _) eqn:E.
  - apply andb_true_iff in E as [E1 E2]. apply Nat.eqb_eq, nil_length_inv in E1. apply negb_true_iff in E2. intros _. split; [auto|].
    exists robot. split; [later|done].
  - destruct robot as [o|]; (eapply run_try; [apply run_holdUnderStop; later|done..]).
Qed.

(** *** Pausing *)

Definition mayPause (h : list AObs) (b : Action) : Prop :=
  underStopSeen h b \/ ac_Desired b = DesiredStatePaused \/ ac_Desired b = DesiredStateReturning.

Lemma mayPause_mono h h' b : seenMore h h' -> mayPause h b -> mayPause h' b.
Proof. intros Hm [H|H]; [left; later|by right]. Qed.

(** The lease a pause leaves: stamped, unless a clear holds it or the robot's stop is not confirmed. *)
Lemma pause_row h b n msg (stamp : bool) t : running (ac_Phase b) -> mayPause h b ->
  (stamp = true -> leaseStampHeld b = false \/ ac_Lease b = None) -> (stamp = false -> ac_Lease b <> None) ->
  ac_Status n = putMessage msg (let s := putPhase ActionPhasePaused (ac_Status b) in if stamp then putLeaseExpiresAt (Some t) s else s) ->
  row h (rc_TDE rc) b n.
Proof.
  intros Hr Hp H1 H2 Hn. apply row_pause with (lease := if stamp then Some t else ac_Lease b); try done.
  - destruct stamp; [done|by apply H2].
  - intros Hh Hl. destruct stamp; [|done]. destruct (H1 eq_refl); congruence.
  - unfold moved, ac_Phase, ac_Robot, ac_Lease, generationOf. rewrite Hn. by destruct stamp.
Qed.

Lemma run_pauseUnderStop b msg now ld rn h : origin h b -> ac_Phase b = ActionPhaseAssigned -> underStopSeen h b ->
  run (pauseAssignedUnderStop b b msg now ld rn) h any.
Proof.
  intros Ho Hp Hu. unfold pauseAssignedUnderStop. apply run_after, run_patch_.
  assert (Hk : forall a, a = edit b (putPhase ActionPhasePaused) -> leaseStampHeld a = leaseStampHeld b /\ ac_Lease a = ac_Lease b) by (by intros ? ->).
  destruct (Hk _ eq_refl) as [-> ->]. destruct (negb (leaseStampHeld b) || negb (isSome (ac_Lease b))) eqn:E; (split_and!; [done..|]).
  - eapply (pause_row h b _ msg true (now + ld)); try done; [by left|by left|]. intros _. apply orb_true_iff in E as [E|E]; apply negb_true_iff in E; [by left|right].
    by destruct (ac_Lease b).
  - eapply (pause_row h b _ msg false 0); try done; [by left|by left|]. intros _. apply orb_false_iff in E as [_ E]. by destruct (ac_Lease b).
Qed.

Definition robotNamed (b : Action) (robot : option RobotObject) : Prop :=
  match robot with Some o => r_Name (ob_Robot o) = ac_Robot b | None => True end.

Lemma run_pauseAssigned b robot msg intake h : origin h b -> ac_Phase b = ActionPhaseAssigned ->
  ac_Desired b = DesiredStatePaused \/ ac_Desired b = DesiredStateReturning -> robotSeen h b robot -> robotNamed b robot ->
  (intake = pauseStopConfirmed -> stopProof h b (ac_Robot b)) -> run (pauseAssigned rc b b robot msg intake) h any.
Proof.
  intros Ho Hp Hd Hr Hn Hi. unfold pauseAssigned.
  eapply run_bind with (Q := fun h' x => x.1 = true -> stopProof h' b (ac_Robot b)).
  { destruct intake, robot as [o|]; try done; try (intros _; by apply Hi). destruct (rc_Commander rc); [|done].
    eapply run_bind; [apply run_pushCancel|]. intros h1 [ok disp] Hm1 Hack. simpl in *. intros [-> Hx]%andb_true_iff. left. exists disp.
    split; [by apply Hack|]. by intros ->. }
  intros h1 [off msg'] Hm1 Hoff. simpl in Hoff.
  assert (Hend : forall h2, seenMore h1 h2 -> run
    (let action := edit b (fun s => putMessage msg' (putLeaseExpiresAt None (putAssignedRobot "" (putPhase ActionPhasePaused s)))) in
     let* _ := releaseReservation rc action in after (patchActionStatus action b) Done) h2 any).
  { intros h2 Hm2. eapply run_bind; [apply run_releaseReservation|]. intros h3 _ Hm3 _. apply run_after, run_patch_. split_and!; [later|done|done|].
    by apply row_release. }
  destruct robot as [o|]; [|apply Hend, seen_refl]. destruct (off && _) eqn:E; [|apply Hend, seen_refl].
  apply andb_true_iff in E as [-> E]. str_bool. specialize (Hoff eq_refl).
  eapply run_try; [apply run_stopCovering| |done]. intros h2 c Hm2 _. destruct (KeepsRecord c false); [by apply Hend|].
  eapply run_try with (Q := any); [|intros h3 _ Hm3 _; apply Hend; more|done]. apply along_event; [|by intros [] _].
  simpl in Hr, Hn. apply rw_release with (a := b) (o := o); try done; [rewrite Hn; saw|]. rewrite Hn. left. later.
Qed.

Lemma run_pauseInProgress b robot msg now ld rn intake h : origin h b -> ac_Phase b = ActionPhaseInProgress -> mayPause h b ->
  run (pauseInProgress rc b b robot msg now ld rn intake) h any.
Proof.
  intros Ho Hp Hu. unfold pauseInProgress. eapply run_bind with (Q := any).
  { destruct intake; [done| |done]. destruct (rc_Commander rc); [|done]. eapply run_bind; [apply run_pushCancel|]. by intros h1 [ok disp] _ _. }
  intros h1 msg' Hm1 _. apply run_after, run_patch_.
  assert (Hk : forall a, a = edit b (putPhase ActionPhasePaused) -> leaseStampHeld a = leaseStampHeld b /\ ac_Lease a = ac_Lease b) by (by intros ? ->).
  destruct (Hk _ eq_refl) as [-> ->]. destruct (_ || _) eqn:E; (split_and!; [later|done|done|]).
  - eapply (pause_row h1 b _ msg' true (now + ld)); try done; [by right|by eapply mayPause_mono|]. intros _. apply orb_true_iff in E as [E|E].
    + apply andb_true_iff in E as [_ E]. apply negb_true_iff in E. by left.
    + apply negb_true_iff in E. right. by destruct (ac_Lease b).
  - eapply (pause_row h1 b _ msg' false 0); try done; [by right|by eapply mayPause_mono|]. intros _. apply orb_false_iff in E as [_ E]. by destruct (ac_Lease b).
Qed.

Lemma run_applyPause b robot msg now ld rn intake h : origin h b -> mayPause h b -> robotSeen h b robot -> robotNamed b robot ->
  (intake = pauseUnderStop -> underStopSeen h b) ->
  (ac_Phase b = ActionPhaseAssigned -> intake <> pauseUnderStop -> ac_Desired b = DesiredStatePaused \/ ac_Desired b = DesiredStateReturning) ->
  (ac_Phase b = ActionPhaseAssigned -> intake = pauseStopConfirmed -> stopProof h b (ac_Robot b)) ->
  run (applyPauseTransition rc b b robot msg now ld rn intake) h any.
Proof.
  intros Ho Hp Hr Hn H1 H2 H3. unfold applyPauseTransition. destruct (_ =s ActionPhaseAssigned) eqn:E; str_bool.
  - destruct intake; [apply run_pauseAssigned; eauto..|]. apply run_pauseUnderStop; auto.
  - destruct (_ =s ActionPhaseInProgress) eqn:E'; str_bool; [|done]. by apply run_pauseInProgress.
Qed.

Definition pausedUnconfirmed (b : Action) (now : Time) (ld : Duration) : Action :=
  let a := edit b (putPhase ActionPhasePaused) in if isSome (ac_Lease a) then a else edit a (putLeaseExpiresAt (Some (now + ld))).

Lemma unconfirmed_row h b now ld n msg : ac_Phase b = ActionPhaseAssigned /\ underStopSeen h b \/ ac_Phase b = ActionPhasePaused ->
  ac_Status n = putMessage msg (ac_Status (pausedUnconfirmed b now ld)) -> row h (rc_TDE rc) b n.
Proof.
  intros [[Hp Hu]|Hp] Hn.
  - eapply (pause_row h b n msg (negb (isSome (ac_Lease b))) (now + ld)); [by left|by left| | |].
    + intros Hl%negb_true_iff. right. by destruct (ac_Lease b).
    + intros Hl%negb_false_iff. by destruct (ac_Lease b).
    + rewrite Hn. unfold pausedUnconfirmed. change (ac_Lease (edit b (putPhase ActionPhasePaused))) with (ac_Lease b). by destruct (isSome (ac_Lease b)).
  - revert Hn. unfold pausedUnconfirmed. change (ac_Lease (edit b (putPhase ActionPhasePaused))) with (ac_Lease b). destruct (ac_Lease b) eqn:El; simpl; intros Hn.
    + apply row_hold. unfold moved, generationOf. unfold ac_Phase, ac_Robot, ac_Lease in *. rewrite Hn. done.
    + apply row_bound with (lease := now + ld); try done. unfold moved, generationOf. unfold ac_Phase, ac_Robot, ac_Lease in *. by rewrite Hn.
Qed.

Lemma run_pauseUnconfirmed b now ld rn sk h : origin h b -> ac_Phase b = ActionPhaseAssigned /\ underStopSeen h b \/ ac_Phase b = ActionPhasePaused ->
  @Seen ActEv actResp (AGate ENow) now ∈ h -> timed h ld rn sk -> run (pauseAssignedUnconfirmed rc b b now ld rn sk) h any.
Proof.
  intros Ho Hp Hnow Ht. unfold pauseAssignedUnconfirmed. fold (pausedUnconfirmed b now ld).
  assert (Hrow : forall h' n msg, seenMore h h' -> ac_Status n = putMessage msg (ac_Status (pausedUnconfirmed b now ld)) -> row h' (rc_TDE rc) b n).
  { intros h' n msg Hm Hn. eapply unconfirmed_row; [|exact Hn]. destruct Hp as [[? Hu]|?]; [left; split; [done|later]|by right]. }
  set (a := pausedUnconfirmed b now ld) in *.
  assert (Ha : ac_Name a = ac_Name b /\ ac_Spec a = ac_Spec b /\ ac_Robot a = ac_Robot b /\ ac_Phase a = ActionPhasePaused /\ generationOf a = generationOf b /\
               (ac_Lease a = ac_Lease b \/ ac_Lease b = None)).
  { unfold a, pausedUnconfirmed. change (ac_Lease (edit b (putPhase ActionPhasePaused))) with (ac_Lease b). destruct (ac_Lease b) eqn:E; simpl; split_and!; try done; [by left|by right]. }
  destruct Ha as (A1 & A2 & A3 & A4 & A5 & A6). destruct (leaseProvablyDead (ac_Lease a) now sk) eqn:Ed; cbn [negb].
  - eapply run_bind; [apply run_liveRobot|]. intros h1 [o|[]] Hm1 [Hs _]; [| |done].
    + eapply run_try; [eapply run_true, run_stopOver| |done]. intros h2 [stops c] Hm2 _. destruct (WaitsForAPerson _ _ _ _).
      * apply run_holdWith; [later|done|done|]. intros h3 n Hm3 Hn. eapply Hrow; [more|exact Hn].
      * apply run_after, run_patch_. split_and!; [later|done|done|]. eapply Hrow; [more|done].
    + eapply run_bind; [apply run_releaseReservation|]. intros h2 _ Hm2 _. apply run_after, run_patch_. split_and!; [later|done|done|].
      destruct Ht as (cfgs & Hc & Ht). apply row_gone; [naive_solver (unfold running; auto)| |rewrite A3 in Hs; saw|split_and!; done].
      destruct A6 as [A6|A6]; [left|by right]. exists now, cfgs. split_and!; [saw|saw|]. rewrite Ht. by rewrite <- A6.
  - eapply run_try; [apply run_patch_|done..]. split_and!; [done|done|done|]. eapply Hrow; [apply seen_refl|done].
Qed.

Lemma run_pauseForEstop b o now ld rn sk h : origin h b -> ac_Phase b = ActionPhaseAssigned -> underStopSeen h b ->
  @Seen ActEv actResp (AGate ENow) now ∈ h -> timed h ld rn sk -> run (pauseAssignedForEstop rc b b o now ld rn sk) h any.
Proof.
  intros Ho Hp Hu Hn Ht. unfold pauseAssignedForEstop. eapply run_bind; [apply run_when; by step|]. intros h1 _ Hm1 _. destruct (_ <>s _).
  - apply run_pauseUnconfirmed; [later|left; split; [done|later]|saw|by eapply timed_mono].
  - unfold applyPauseTransition. rewrite Hp, eqb_s_refl. apply run_pauseUnderStop; [later|done|later].
Qed.

Lemma run_setRenewalHeld b reason msg h : origin h b -> run (setRenewalHeld rc b b reason msg) h any.
Proof. intros Ho. unfold setRenewalHeld. eapply run_try; [by apply run_hold| |done]. intros h1 _ _ _. by eapply run_bind; [apply run_emit|]. Qed.

(** *** Requeue requests *)

Lemma run_overtaken b h : run (requeueOvertakenByEstop rc b) h any.
Proof.
  unfold requeueOvertakenByEstop. destruct (_ =s ActionPhasePaused).
  { unfold requeueOfPausedWork. eapply run_try; [apply run_stopsOverWork| |done]. by intros h1 [] _ _. }
  destruct (_ || _); [done|]. eapply run_bind; [eapply run_true, run_getRobot|]. intros h1 [o|[]] _ _; [|done..].
  eapply run_try; [eapply run_true, run_stopOver| |done]. intros h2 [stops c] _ _. destruct (_ =s ActionPhaseRevoking).
  - destruct (_ && _); [done|]. eapply run_bind; [eapply run_true, run_timings|]. intros h3 [[d r] s] _ _.
    eapply run_bind; [eapply run_true, run_now|]. intros h4 t _ _. by destruct (WaitsForAPerson _ _ _ _).
  - destruct (_ && _); [done|]. eapply run_try; [apply run_clearRequeue| |done]. intros h3 _ _ _. by eapply run_bind; [apply run_emit|].
Qed.

Lemma run_holdRequeue b msg h : origin h b -> run (holdRequeueUnderEstop rc b b msg) h any.
Proof. intros Ho. eapply run_try; [by apply run_hold| |done]. intros h1 _ _ _. by eapply run_bind; [apply run_emit|]. Qed.

Lemma run_capabilityReassignment b h : run (beginCapabilityLossReassignment rc b) h any.
Proof.
  unfold beginCapabilityLossReassignment. destruct (has _ _); [done|]. eapply run_try; [apply run_meta| |done].
  intros h1 _ _ _. by eapply run_bind; [apply run_emit|].
Qed.

(** *** Terminal and failed actions *)

Lemma run_clearLease a0 b h : origin h b -> origin h a0 -> ac_Name a0 = ac_Name b -> endedOn h a0 (ac_Robot a0) -> run (clearLeaseHorizon b) h any.
Proof.
  intros Ho Ho0 Hn He. unfold clearLeaseHorizon. destruct (ac_Lease b); [|done]. eapply run_try; [apply run_patch_|done..].
  split_and!; [done..|]. by apply row_retire with (a0 := a0).
Qed.

Lemma run_retire b h : origin h b -> ac_Phase b = ActionPhaseSucceeded \/ ac_Phase b = ActionPhaseCancelled -> run (retireTerminalAction rc b) h any.
Proof.
  intros Ho Hp. assert (He : forall h', endedOn h' b (ac_Robot b)) by (intros h'; split; [done|tauto]).
  unfold retireTerminalAction. eapply run_bind; [apply run_releaseReservation|]. intros h1 _ Hm1 _.
  eapply run_try; [apply (run_releaseRobot b); [done|intros _; right; left; apply He]| |done]. intros h2 _ Hm2 _.
  eapply run_bind; [eapply run_true, run_timings|]. intros h3 [[d r] s] Hm3 _. eapply run_bind; [eapply run_true, run_now|]. intros h4 t Hm4 _.
  eapply run_try; [apply run_releaseRecorders| |done]. intros h5 w Hm5 _. destruct (0 <? w); [done|]. apply run_after, (run_clearLease b); [later|later|done|apply He].
Qed.

Lemma cancelRequest_asked b i : cancelRequest b = Some i -> cancelAsked b.
Proof.
  unfold cancelRequest, cancelAsked, has. destruct (_ !! _); [by left|]. destruct (_ =s _) eqn:E; str_bool; [by right|done].
Qed.

Lemma run_heldBy p h : run p h any -> run (heldBy p) h any.
Proof. intros Hp. by eapply run_try; [exact Hp|done..]. Qed.

Lemma run_failedUnderStop b dead rn sk h : origin h b -> ac_Phase b = ActionPhaseFailed -> run (failedUnderStop rc b dead rn sk) h any.
Proof.
  intros Ho Hp. assert (Hne : ac_Phase b <> ActionPhaseSucceeded /\ ac_Phase b <> ActionPhaseCancelled) by (rewrite Hp; done). destruct Hne as [Hs Hc].
  unfold failedUnderStop. eapply run_bind; [eapply run_true, run_liveRobot|]. intros h1 rb Hm1 _.
  assert (Hgo : forall h' (state : option Robot) (stops : list string) why, seenMore h h' -> run
    (if (length stops =? 0)%nat && negb (match state with Some r => estopHoldsWork r | None => false end) then Ret (Ok None)
     else if has (ac_Annotations b) annRequeueRequested then
       heldBy (handleRequeue rc b b (match stops with [] => requeuingMessage | _ => requeueUnderStopMessage stops end))
     else if negb dead then let* now := getNow in Ret (Ok (Some (RequeueAfter (untilLeaseHorizon (ac_Lease b) now rn sk))))
     else heldBy (holdUnderStop rc b b (ac_Robot b) (match state with Some r => r_EstopState r | None => "" end) stops rn why)) h' any).
  { intros h' state stops why Hm. destruct (_ && _); [done|]. destruct (has _ _) eqn:Eq; [apply run_heldBy, run_handleRequeue; try done; later|].
    destruct dead; [apply run_heldBy, run_holdUnderStop; later|]. by eapply run_bind; [eapply run_true, run_now|]. }
  destruct rb as [o|[]]; [| |done]; (eapply run_try; [eapply run_true, run_stopsOverBound| |done]); intros h2 [[stops c] gone] Hm2 _.
  - apply (Hgo h2 (if gone || (r_Name (ob_Robot o) =s "") then None else Some (ob_Robot o)) stops). more.
  - apply (Hgo h2 None stops). more.
Qed.

Lemma run_heldFailed b h : origin h b -> ac_Phase b = ActionPhaseFailed -> run (heldFailedAction rc b) h any.
Proof.
  intros Ho Hp. unfold heldFailedAction. eapply run_bind; [apply run_timings|]. intros h1 [[d r] sk] Hm1 (cfgs & Hcf & Ht). simpl in Ht.
  eapply run_bind; [apply run_now|]. intros h2 now Hm2 Hn. destruct (cancelRequest b) as [i|] eqn:Ei; [|apply run_failedUnderStop; [later|done]].
  apply cancelRequest_asked in Ei. destruct (leaseProvablyDead _ _ _) eqn:Ed; cbn [negb]; apply run_heldBy; [|apply run_holdStop; later].
  apply run_after, run_finalizeCancel; try done; [later|by rewrite Hp..|]. left. split; [done|]. right. right. exists now, cfgs.
  split_and!; [done|saw|by rewrite Ht].
Qed.
End Ops.
