(* ===== verification/ActionPass.v ===== *)
(** The FleetAction controller makes only the writes its table permits (ActionTable): failed work, the stop
    finalizer, preemption, the dispatch, the lease and the whole pass, on top of ActionProps. *)

From S2P Require Import Prelude.
From S2P Require Import Types.
From S2P Require Import Contract.
From S2P Require Import Conc.
From S2P Require Import Along.
From S2P Require Import EstopScope.
From S2P Require Import Command.
From S2P Require Import ExecutorGuard.
From S2P Require Import FencingStore.
From S2P Require Import Scheduler.
From S2P Require Import Tde.
From S2P Require Import ExecutorGate.
From S2P Require Import SafetyData.
From S2P Require Import ActionData.
From S2P Require Import ActionController.
From S2P Require Import ActionTable.
From S2P Require Import ActionProps.

Section Pass.
Context (rc : Reconciler).
Notation run := (along actAnswered (fun h => permitted h (rc_TDE rc))).
Notation any := (fun _ _ => True).

(** ** Failed work *)

(** The object a metadata write answers with is in hand. *)
Lemma run_metaOrigin b n h : run (patchMeta n b) h (fun h' r => match r with Ok a => origin h' a /\ ac_Name a = ac_Name b | Err _ => True end).
Proof.
  apply along_event; [exact I|]. intros [a|e] Ha; [|done]. split; [|done]. exists a. split; [|done]. right; right; left. exists b, n. apply seen_last.
Qed.

Lemma run_retryBounds b h : run (retryBounds b) h any.
Proof. unfold retryBounds. destruct (ac_RetryPolicy b) as [[]|]; [done|]. by step. Qed.

Lemma run_requeueFailed b m h : origin h b -> endedOn h b (ac_Robot b) -> awaitsRetry b = true -> run (requeueFailedAction b m) h any.
Proof.
  intros Ho He Hr. unfold requeueFailedAction. eapply run_try; [apply run_patch_| |done].
  - split_and!; [done..|]. by apply row_retry.
  - intros h1 a Hm _. destruct (has _ _); [|done]. apply run_after, run_meta.
Qed.

Lemma run_alert b h : origin h b -> run (alertFailedOnce rc b) h (fun h' a => origin h' a /\ ac_Name a = ac_Name b).
Proof.
  intros Ho. unfold alertFailedOnce. destruct (rc_Recorder rc); [|done]. cbn [negb]. destruct (has _ _); [done|].
  eapply run_bind; [apply run_emit|]. intros h1 _ Hm1 _. apply along_event; [exact I|]. intros [a|e] Ha.
  - split; [|done]. exists a. split; [|done]. right; right; left. eexists _, _. apply seen_last.
  - split; [|done]. eapply (origin_same _ b); [done|]. later.
Qed.

Lemma run_settleFailed b h : origin h b -> endedOn h b (ac_Robot b) -> run (settleFailedAction rc b) h any.
Proof.
  intros Ho He. unfold settleFailedAction. eapply run_bind; [apply run_releaseReservation|]. intros h1 _ Hm1 _.
  eapply run_try; [apply (run_releaseRobot rc b); [done|intros _; right; left; later]| |done]. intros h2 _ Hm2 _.
  eapply run_bind; [eapply run_true, run_timings|]. intros h3 [[d r] s] Hm3 _. eapply run_bind; [eapply run_true, run_now|]. intros h4 t Hm4 _.
  eapply run_try; [apply run_releaseRecorders| |done]. intros h5 w Hm5 _. destruct (0 <? w); [done|].
  eapply run_bind; [apply run_retryBounds|]. intros h6 [m bo] Hm6 _. destruct (awaitsRetry b) eqn:Er.
  - destruct (as_FailedAt _); [|apply run_requeueFailed; [later|later|done]]. eapply run_bind; [eapply run_true, run_now|]. intros h7 t' Hm7 _.
    destruct (0 <? _); [apply run_after, (run_clearLease rc b); [later|later|done|later]|apply run_requeueFailed; [later|later|done]].
  - eapply run_bind with (Q := fun h' a => origin h' a /\ ac_Name a = ac_Name b).
    { destruct (_ <>s _); [apply run_alert; later|split; [later|done]]. }
    intros h7 a Hm7 [Ha Hn]. apply run_after, (run_clearLease rc b); [done|later|done|later].
Qed.

Lemma run_handleFailed b h : origin h b -> ac_Phase b = ActionPhaseFailed -> run (handleFailedAction rc b) h any.
Proof.
  intros Ho Hp. unfold handleFailedAction. eapply run_try with (Q := any); [destruct (_ && _); [by apply run_heldFailed|done]| |done].
  intros h1 [o|] Hm1 _; [done|]. destruct (_ =s reasonStopUnconfirmed) eqn:Eu; str_bool.
  - destruct (ac_Lease b) eqn:El.
    + eapply run_bind; [apply run_timings|]. intros h2 [[d r] sk] Hm2 (cfgs & Hc & Ht). simpl in Ht. eapply run_bind; [apply run_now|].
      intros h3 now Hm3 Hn. destruct (leaseProvablyDead _ _ _) eqn:Ed; cbn [negb]; [|done]. eapply run_bind; [apply run_emit|]. intros h4 _ Hm4 _.
      apply run_settleFailed; [later|]. split; [done|]. right; right. split; [done|]. intros _. right. exists now, cfgs. rewrite Ht, El. split_and!; [saw|saw|done].
    + apply run_settleFailed; [later|]. split; [done|]. right; right. split; [done|]. intros _. by left.
  - assert (Hend : forall h', endedOn h' b (ac_Robot b)) by (intros h'; split; [done|]; right; right; done).
    destruct (ac_Lease b); apply run_settleFailed; (later || apply Hend).
Qed.

(** ** The stop finalizer *)

Lemma run_recordHolders name robots : forall holders h, run (recordHolders name robots holders) h any.
Proof.
  induction robots as [|o robots IH]; intros holders h; [done|]. cbn [recordHolders]. destruct (_ <>s _); [apply IH|].
  eapply run_try with (Q := any); [|intros; apply IH|done]. unfold heldRecord. destruct (_ =s ""); [done|]. destruct (robotUnderEstop _); [done|].
  by eapply run_try; [eapply run_true, run_stopNames|done..].
Qed.

Lemma run_syncHeld b h : origin h b -> run (syncHeldFinalizer b) h (fun h' x => match x with
  | Ok (_, a) => origin h' a /\ ac_Name a = ac_Name b | Err _ => True end).
Proof.
  intros Ho. apply along_event; [exact I|]. intros [robots|] _; [|done]. eapply run_try; [apply run_recordHolders| |done]. intros h2 holders Hm2 _.
  eapply run_try with (Q := any); [|intros h3 hold Hm3 _|done].
  { destruct holders, (ac_Deleted b); try done. step. by intros [?|[]] _. }
  destruct (Bool.eqb _ _); [split; [later|done]|]. apply along_event; [simpl; later|]. intros [rv|e] _; [|done]. split; [|done].
  exists (withVersion b rv hold). split; [|done]. right; right; right. exists b, hold, rv. split; [apply seen_last|done].
Qed.

Lemma run_holderStops holders : forall stops h, run (holderStops holders stops) h any.
Proof.
  induction holders as [|n holders IH]; intros stops h; [done|]. eapply run_bind; [eapply run_true, run_liveRobot|]. intros h1 [o|[]] _ _; [|done..].
  eapply run_try; [eapply run_true, run_stopNames|intros; apply IH|done].
Qed.

Lemma run_awaitDeleted b holders h : origin h b -> run (awaitDeletedHeld rc b holders) h any.
Proof.
  intros Ho. eapply run_try; [apply run_holderStops| |done]. intros h1 [stops|] Hm1 _; [|done]. apply run_holdWith; [later|done|done|].
  intros h' n _ Hn. by eapply holdWith_row.
Qed.

(** ** Preemption *)

(** A victim that may be displaced: running, of a preemptible priority, under no stop. *)
Definition displaceable (h : list AObs) (v : Action) : Prop :=
  running (ac_Phase v) /\ isPreemptible (ac_Priority v) = true /\ uncovered h (ac_Robot v).

Lemma displaceable_mono h h' v : seenMore h h' -> displaceable h v -> displaceable h' v.
Proof. intros Hm (H1 & H2 & H3). split_and!; [done|done|later]. Qed.

Lemma run_mayDisplace v h : run (mayDisplace v) h (fun h' ok => ok = true -> displaceable h' v).
Proof.
  unfold mayDisplace. destruct (_ || _) eqn:E; [done|]. apply orb_false_iff in E as [[E1 E2]%orb_false_iff E3].
  apply negb_false_iff in E1, E2. eapply run_bind; [apply run_liveRobot|]. intros h1 [o|] Hm1 [Hs _]; [|done]. destruct (estopHoldsWork _); [done|].
  eapply run_bind; [apply run_stopNames|]. intros h2 [[|]|] Hm2 Hst; [|done..]. destruct Hst as (zs & cs & H1 & H2 & H3). intros _. split_and!.
  - simpl in E1. apply orb_true_iff in E1 as [E1|E1]; str_bool; [by left|by right].
  - done.
  - exists o, zs, cs. split_and!; saw || done.
Qed.

Lemma run_markVictim v n h : origin h v -> displaceable h v -> run (markVictimPreempted v n) h any.
Proof.
  intros Ho (H1 & H2 & H3). eapply run_try; [apply run_patch_|done..]. split_and!; [done..|]. by apply row_preempt.
Qed.

Lemma run_markAction id n h : run (markActionPreempted id n) h any.
Proof.
  apply along_event; [exact I|]. intros [v|] _; [|done]. destruct (_ =s _); [done|].
  assert (Ho : origin (h ++ [Seen (AGetAction id) (Ok v)]) v).
  { exists v. split; [|done]. left. exists id. left. apply seen_last. }
  eapply run_bind; [apply run_mayDisplace|]. intros h1 [] Hm1 Hd; [|done]. destruct (Hd eq_refl) as (H1 & H2 & H3).
  eapply run_bind; [apply run_patch_|done]. split_and!; [later|done|done|]. by apply row_preempt.
Qed.

Lemma run_markAll ids n : forall h, run (markAllPreempted ids n) h any.
Proof. induction ids as [|id ids IH]; intros h; [done|]. eapply run_bind; [apply run_markAction|]. intros; apply IH. Qed.

Definition candidate (h : list AObs) (robots : list RobotObject) (c : RobotObject * Action) : Prop :=
  c.1 ∈ robots /\ origin h c.2 /\ displaceable h c.2.

Lemma run_findVictims a robots0 robots : forall chosen rank h, robots ⊆ robots0 -> (forall c, chosen = Some c -> candidate h robots0 c) ->
  run (findVictims a robots chosen rank) h (fun h' x => match x with Ok (Some c) => candidate h' robots0 c | _ => True end).
Proof.
  induction robots as [|o robots IH]; intros chosen rank h Hsub Hc.
  { destruct chosen; [by apply Hc|done]. }
  assert (Hsub' : robots ⊆ robots0) by set_solver. assert (Hmono : forall h' c, seenMore h h' -> chosen = Some c -> candidate h' robots0 c).
  { intros h' c Hm Hs. destruct (Hc c Hs) as (H1 & H2 & H3). split_and!; [done|later|by eapply displaceable_mono]. }
  cbn [findVictims]. destruct (negb (mayTake a o)); [by apply IH|]. apply along_event; [exact I|]. intros [v|[]] Ha; [|apply IH; [done|intros; apply Hmono; [more|done]]|done].
  destruct (negb (isPreemptible _)); [apply IH; [done|intros; apply Hmono; [more|done]]|].
  assert (Ho : origin (h ++ [@Seen ActEv actResp (AGetAction (ob_AssignedAction o)) (Ok v)]) v).
  { exists v. split; [|done]. left. eexists. left. apply seen_last. }
  eapply run_bind; [apply run_mayDisplace|]. intros h1 [] Hm1 Hd; cbn [negb]; [|apply IH; [done|intros; apply Hmono; [more|done]]].
  destruct (betterVictim _ _ _ _); apply IH; try done; [intros c [= <-]|intros; apply Hmono; [more|done]].
  split_and!; [set_solver|later|by apply Hd].
Qed.

Lemma run_findPreemption a robots h :
  run (findPreemptionCandidate a robots) h (fun h' x => match x with Ok (Some c) => candidate h' robots c | _ => True end).
Proof. unfold findPreemptionCandidate. destruct (fas_Executor _); [done|]. by apply run_findVictims. Qed.

Lemma run_confirmPreempted b reach h : run (confirmPreemptedStop rc b reach) h (fun h' x => match x with
  | Ok (true, disp) => stopProof h' b (ac_Robot b) /\ match disp with CancelCompleted => cancelAck h' b (ac_Robot b) disp | _ => True end
  | _ => True end).
Proof.
  unfold confirmPreemptedStop. eapply run_bind; [apply run_confirmedStop|]. intros h1 [[] disp] Hm1 [Hp Hd]; cbn [negb]; [|done].
  simpl in Hp, Hd. specialize (Hp eq_refl). eapply run_try; [apply (run_releaseRobot rc b); [done|by left]| |done].
  intros h2 _ Hm2 _. split; [later|]. destruct disp; try done. later.
Qed.

(** ** The dispatch *)

Lemma run_acceptDegraded a h : run (acceptDegraded a) h any.
Proof. unfold acceptDegraded. destruct (fas_AcceptDegradedCapabilities _); [done|]. by step. Qed.

Lemma run_config {A : Type} (f : option ActionConfig -> A) h : run (let* cfg := trigger AConfig in Ret (f cfg)) h any.
Proof. by step. Qed.

Lemma run_servable a robot h : run (actionServable rc a robot) h any.
Proof.
  unfold actionServable. destruct (negb (rc_Validator rc)); [done|]. step. intros [out|] _; [|done]. destruct (vo_Unsupported out); [done|]. by destruct (negb _).
Qed.

Lemma run_selectFrom n a ad pm hp : forall pool declined h,
  run (selectFrom rc n a pool ad pm hp declined) h (fun _ x => forall o, x.1 = Some o -> o ∈ pool).
Proof.
  induction n as [|n IH]; intros pool declined h; [done|]. cbn [selectFrom]. destruct (SelectRobot _ _ _ _ _) as [robot|]; [|done].
  eapply run_bind; [apply run_servable|]. intros h1 [[] d] _ _.
  - intros o Hf. apply List.find_some in Hf as [Hf _]. by apply list_elem_of_In.
  - eapply along_conseq; [|apply IH]. intros h2 x Hx o' Ho'. specialize (Hx o' Ho'). apply list_elem_of_In, filter_In in Hx as [Hx _]. by apply list_elem_of_In.
Qed.

(** Edits that no row looks at. *)
Definition quiet (f : ActionStatus -> ActionStatus) : Prop :=
  forall s, as_Phase (f s) = as_Phase s /\ as_AssignedRobot (f s) = as_AssignedRobot s /\ as_LeaseExpiresAt (f s) = as_LeaseExpiresAt s /\
    as_AssignmentGeneration (f s) = as_AssignmentGeneration s.

Lemma near_edit b a f : near b a -> quiet f -> near b (edit a f).
Proof.
  intros (N1 & N2 & N3 & N4 & N5 & N6 & N7) Hq. destruct (Hq (ac_Status a)) as (Q1 & Q2 & Q3 & Q4).
  split_and!; try done; [rewrite <- N3|rewrite <- N4|rewrite <- N5|rewrite <- N6]; done.
Qed.

(** Work that waits: written back as it is, or as Pending. *)
Lemma run_pend b a f h : origin h b -> near b a -> quiet f ->
  run (patchActionStatus (edit a f) b) h any.
Proof.
  intros Ho Hn Hq. destruct (near_edit b a f Hn Hq) as (N1 & N2 & N3 & N4 & N5 & N6 & N7). by apply run_hold.
Qed.

Lemma run_pending b n h : origin h b -> unscheduled (ac_Phase b) = true -> ac_Name n = ac_Name b -> ac_Spec n = ac_Spec b ->
  moved b n ActionPhasePending (ac_Robot b) (ac_Lease b) -> run (patchActionStatus n b) h any.
Proof. intros Ho Hu Hn Hs Hm. apply run_patch_. split_and!; [done..|]. by apply row_pending. Qed.

Lemma near_pending b a n f : near b a -> quiet f -> ac_Status n = putPhase ActionPhasePending (f (ac_Status a)) ->
  moved b n ActionPhasePending (ac_Robot b) (ac_Lease b).
Proof.
  intros (N1 & N2 & N3 & N4 & N5 & N6 & N7) Hq Hn. destruct (Hq (ac_Status a)) as (Q1 & Q2 & Q3 & Q4). unfold moved, ac_Phase, ac_Robot, ac_Lease, generationOf in *.
  rewrite Hn. simpl. split_and!; congruence.
Qed.

Lemma quiet_message m : quiet (putMessage m).
Proof. done. Qed.

Lemma quiet_conditions f : quiet (fun s => putConditions (f (as_Conditions s)) s).
Proof. done. Qed.

Lemma run_holdDestination b a h : origin h b -> near b a -> unscheduled (ac_Phase b) = true ->
  run (holdForStoppedDestination rc a b) h (fun h' x => match x with Ok (a', None) => near b a' /\ destinationClear h' b | _ => True end).
Proof.
  intros Ho Hn Hu. unfold holdForStoppedDestination.
  assert (Hz : ac_Zone a = ac_Zone b) by apply Hn. rewrite Hz.
  assert (Hcl : near b (edit a (fun s => putConditions (removeCondition conditionZoneStopped (as_Conditions s)) s))) by (by apply near_edit).
  assert (Hold : forall h' msg, seenMore h h' -> run
    (let '(transition, cs) := setZoneStopped (as_Conditions (ac_Status a)) msg in
     let action := edit a (fun s => putPhase ActionPhasePending (putConditions cs s)) in
     if transition then
       let*? action := patchActionStatus action b in
       let* _ := emit rc conditionZoneStopped in Ret (Ok (action, Some (RequeueAfter pendingRecheckInterval)))
     else Ret (Ok (action, Some (RequeueAfter pendingRecheckInterval)))) h'
     (fun h' x => match x with Ok (a', None) => near b a' /\ destinationClear h' b | _ => True end)).
  { intros h' msg Hm. destruct (setZoneStopped _ _) as [[] cs]; [|done]. eapply run_try; [apply run_pending| |done]; [later|done|apply Hn|apply Hn| |].
    - by apply (near_pending b a _ (putConditions cs)).
    - intros h2 a' _ _. by eapply run_bind; [apply run_emit|]. }
  destruct (ac_Zone b =s "") eqn:Ez; str_bool; [split; [done|by left]|].
  eapply run_bind; [apply run_world|]. intros h1 [[zs cs]|] Hm1 Hw.
  2: { step. intros text _. apply Hold. more. }
  destruct Hw as [H1 H2]. destruct (Reaching _ _ _) as [[|z zl]|] eqn:Er.
  - split; [done|]. right. exists zs, cs. split_and!; done.
  - destruct (_ && _); apply Hold; more.
  - step. intros text _. apply Hold. more.
Qed.

(** *** The commit *)

(** What is known of the action and of a robot chosen for it. *)
Record assignable (h : list AObs) (b : Action) (robot : RobotObject) : Prop := mkAssignable {
  an_unscheduled : unscheduled (ac_Phase b) = true;
  an_gate : gatePassed h b;
  an_destination : destinationClear h b;
  an_listed : exists robots, @Seen ActEv actResp AListRobots (Some robots) ∈ h /\ robot ∈ robots
}.

Definition reservedFor (h : list AObs) (b : Action) (robot : RobotObject) : Prop :=
  rc_TDE rc = true -> ac_Zone b <> "" -> exists p res,
    @Seen ActEv actResp (AReserve (ac_Name b) (r_Name (ob_Robot robot)) (ac_Zone b) p) (false, res) ∈ h /\ rs_Status res <> Denied.

Lemma assignable_mono h h' b robot : seenMore h h' -> assignable h b robot -> assignable h' b robot.
Proof. intros Hm [H1 H2 H3 (robots & H4 & H5)]. split; [done|later|later|]. exists robots. split; [saw|done]. Qed.

Lemma reservedFor_mono h h' b robot : seenMore h h' -> reservedFor h b robot -> reservedFor h' b robot.
Proof. intros Hm H H1 H2. destruct (H H1 H2) as (p & res & H3 & H4). exists p, res. split; [saw|done]. Qed.

Lemma removed_condition t cs : findCondition (removeCondition t cs) t = None.
Proof.
  unfold findCondition, removeCondition. induction cs as [|c cs IH]; simpl; [done|]. destruct (cn_Type c <>s t) eqn:E; simpl; [|done]. by rewrite (proj2 (eqb_s_false _ _)) by (by str_bool).
Qed.

(** The object of a status write is in hand. *)
Lemma stored_origin h b n rv : @Seen ActEv actResp (AStatus b n) (Ok rv) ∈ h -> origin h (stored n rv).
Proof. intros H. exists (stored n rv). split; [|done]. right; left. by exists b, n, rv. Qed.

Lemma run_patchRobot r rv o h : permitted h (rc_TDE rc) (AGate (EPatch r rv o)) -> run (patchRobot r rv o) h (fun h' x => match x with
  | Ok _ => @Seen ActEv actResp (AGate (EPatch r rv o)) None ∈ h'
  | Err _ => exists e, @Seen ActEv actResp (AGate (EPatch r rv o)) (Some e) ∈ h' end).
Proof. intros Hp. apply along_event; [done|]. intros [e|] _; [exists e|]; apply seen_last. Qed.

(** *** A rejected assignment *)

Lemma run_holdRefusal b h : origin h b -> ac_Phase b = ActionPhaseAssigned -> run (holdRefusalUnderStop rc b (ac_Robot b)) h (fun h' x => match x with
  | Ok None => uncovered h' (ac_Robot b) \/ @Seen ActEv actResp (AGate (ELiveGet (ac_Robot b))) (Err NotFound) ∈ h'
  | _ => True end).
Proof.
  intros Ho Hp. unfold holdRefusalUnderStop. eapply run_bind; [apply run_liveRobot|]. intros h1 [o|[]] Hm1 [Hs _]; [|by right|done].
  eapply run_try; [apply run_stopNames| |done]. intros h2 stops Hm2 (zs & cs & H1 & H2 & H3). destruct (_ && _) eqn:E.
  - apply andb_true_iff in E as [E _]. apply Nat.eqb_eq, nil_length_inv in E as ->. left. exists o, zs, cs. split_and!; saw || done.
  - assert (Hu : underStopSeen h2 b).
    { exists o. right. exists zs, cs, stops. split_and!; [saw|saw|saw|done|]. apply andb_false_iff in E as [E|E]; [left|right].
      - by destruct stops.
      - by apply negb_false_iff in E. }
    eapply run_bind; [apply run_timings|]. intros h3 [[d r] sk] Hm3 Ht. eapply run_bind; [apply run_now|]. intros h4 now Hm4 Hn. simpl in Ht.
    eapply run_try; [apply run_pauseForEstop|done..]; [later|done|later|done|by eapply timed_mono].
Qed.

Lemma run_releaseRejected b l h : origin h b -> ac_Phase b = ActionPhaseAssigned -> rejectedBy h b (ac_Robot b) ->
  run (releaseRejectedAssignment rc b (ac_Robot b) l) h any.
Proof.
  intros Ho Hp Hr. unfold releaseRejectedAssignment. eapply run_try; [by apply run_holdRefusal| |done]. intros h1 [o|] Hm1 Hu; [done|]. cbn beta iota in Hu.
  eapply run_try; [apply run_patch| |done].
  - split_and!; [later|done|done|]. apply row_reject; [done|later|done|moved].
  - intros h2 a Hm2 (rv & Hs & ->). eapply run_try; [apply (run_releaseRobot rc b); [done|intros _; right; right; left; later]| |done].
    intros h3 _ Hm3 _. eapply run_bind; [apply run_releaseReservation|]. intros h4 _ _ _. eapply run_bind; [apply run_config|]. by intros h5 [] _ _.
Qed.

Lemma run_settleRejection b rej rn h : origin h b -> ac_Phase b = ActionPhaseAssigned -> (rej <> None -> rejectedBy h b (ac_Robot b)) ->
  run (settleRejection rc b (ac_Robot b) rej rn) h any.
Proof.
  intros Ho Hp Hr. unfold settleRejection. destruct rej as [[rej l]|]; [|by step]. specialize (Hr ltac:(done)).
  eapply run_bind; [apply run_emit|]. intros h1 _ Hm1 _. eapply run_bind; [apply run_emit|]. intros h2 _ Hm2 _.
  eapply run_bind; [apply run_when; by step|]. intros h3 _ Hm3 _. apply run_releaseRejected; [later|done|later].
Qed.

Lemma run_pushAssign b ld ops rv o h : committed h (ac_Name b) (ac_Robot b) (generationOf b) ->
  @Seen ActEv actResp (AGate (EPatch (ac_Robot b) rv (taken o (ac_Name b)))) None ∈ h ->
  run (pushAssignAction rc b (ac_Robot b) ld ops) h (fun h' rej => rej <> None -> rejectedBy h' b (ac_Robot b)).
Proof.
  intros Hc Hs. unfold pushAssignAction. destruct (negb (rc_Commander rc)); [by intros []|]. apply along_event.
  - exists (generationOf b), rv, o. done.
  - intros [out|] _; [|by intros []]. cbn. destruct (ao_Accepted out) eqn:E; [by intros []|]. intros _. eexists _, out. split; [apply seen_last|done].
Qed.

Lemma run_revert b reserved e h : origin h b -> ac_Phase b = ActionPhaseAssigned ->
  (exists w rv o, @Seen ActEv actResp (AGate (EPatch (ac_Robot b) rv o)) (Some w) ∈ h) -> run (revertAssignment rc b reserved e) h any.
Proof.
  intros Ho Hp (w & rv & o & Hs). unfold revertAssignment. eapply run_bind; [apply run_unreserve|]. intros h1 _ Hm1 _.
  eapply run_bind; [eapply run_true, run_now|]. intros h2 n Hm2 _. eapply run_bind; [apply run_patch_|done]. split_and!; [later|done|done|].
  eapply row_revert; [done|saw|moved].
Qed.

Lemma run_mintFailed a reserved e h : run (mintFailed rc a reserved e) h any.
Proof.
  unfold mintFailed. eapply run_bind; [apply run_unreserve|]. intros h1 _ _ _. destruct e; try done; by eapply run_bind; [apply run_emit|].
Qed.

Lemma run_commit b a robot reserved ld rn sk rest h : origin h b -> near b a -> assignable h b robot -> reservedFor h b robot -> timed h ld rn sk ->
  run (commitAssignment rc a b robot reserved ld rn rest) h any.
Proof.
  intros Ho (N1 & N2 & _) Ha Hr (cfgs & Hcf & Ht). unfold commitAssignment. set (name := r_Name (ob_Robot robot)).
  eapply run_bind with (Q := fun _ a2 => ac_Name a2 = ac_Name b /\ ac_Spec a2 = ac_Spec b /\ ac_Phase a2 = ActionPhaseAssigned /\ ac_Robot a2 = name /\
    leaseStampHeld a2 = false).
  { destruct (as_ScheduledAt _); [|eapply run_bind; [eapply run_true, run_now|]; intros h1 t _ _];
      (split_and!; [exact N1|exact N2|done|done|]; unfold leaseStampHeld; simpl; by rewrite removed_condition). }
  intros h1 a2 Hm1 (A1 & A2 & A3 & A4 & A5). apply along_event; [exact I|]. intros [gen|e] _; [|apply run_mintFailed].
  eapply run_bind; [apply run_now|]. intros h2 now Hm2 Hnow. set (n := edit a2 _).
  assert (Hmint : @Seen ActEv actResp (AMint a2) (Ok gen) ∈ h2) by saw.
  pose proof (assignable_mono h h2 b robot ltac:(more) Ha) as [Hu Hg Hd (robots & Hl & Hin)].
  eapply run_bind; [apply run_patch|].
  { split_and!; [later|done|done|]. apply row_assign with (robot := robot) (robots := robots) (now := now) (cfgs := cfgs); try done.
    - apply (reservedFor_mono h); [more|done].
    - saw.
    - rewrite Ht. done.
    - exists a2. done. }
  intros h3 [a3|e] Hm3 Hp.
  2: { eapply run_bind; [apply run_unreserve|]. intros h4 _ _ _. by destruct (isConflict e). }
  destruct Hp as (rv & Hs & ->). assert (Hc : forall h', seenMore h3 h' -> committed h' (ac_Name b) name gen).
  { intros h' Hm. exists b, n, rv. split_and!; try done. saw. }
  change (ac_Name (stored n rv)) with (ac_Name a2). rewrite A1. eapply run_bind; [apply run_patchRobot|].
  { eapply rw_take with (o := robot) (name := ac_Name b) (gen := gen); try done; [saw|]. apply Hc, seen_refl. }
  assert (Hst : ac_Robot (stored n rv) = name /\ ac_Phase (stored n rv) = ActionPhaseAssigned /\ ac_Name (stored n rv) = ac_Name b /\ generationOf (stored n rv) = gen) by done.
  destruct Hst as (S1 & S2 & S3 & S4). intros h4 [[]|e] Hm4 Hpr.
  - rewrite <- S1 in *. rewrite <- S3, <- S4 in *. eapply run_bind; [eapply run_pushAssign; [apply Hc; more|exact Hpr]|]. intros h5 rej Hm5 Hrej.
    apply run_settleRejection; [|done|done]. eapply origin_mono; [|by eapply stored_origin]. more.
  - destruct Hpr as [w Hw]. apply run_revert; [|done|].
    + eapply origin_mono; [|by eapply stored_origin]. more.
    + rewrite S1. by eexists _, _, _.
Qed.

Lemma run_handOver b a robot v reserved h : origin h b -> near b a -> origin h v -> displaceable h v ->
  run (handOver rc a b robot v reserved) h any.
Proof.
  intros Ho Hn Hv Hd. unfold handOver.
  assert (Hmark : forall h', seenMore h h' -> run (let* r := markVictimPreempted v (ac_Name a) in
    match r with Ok _ => Ret (Ok None : result actError (option OrphanOutcome)) | Err e => let* _ := unreserveOnFailure rc reserved a in Ret (Err e) end) h' any).
  { intros h' Hm. eapply run_bind; [apply run_markVictim; [later|by eapply displaceable_mono]|]. intros h2 [] _ _; [done|]. by eapply run_bind; [apply run_unreserve|]. }
  destruct (DispositionFor _ _); [apply Hmark, seen_refl|]. eapply run_bind; [apply run_confirmedStop|]. intros h1 [[] disp] Hm1 [_ Hdisp]; cbn [negb]; simpl in Hdisp.
  - destruct disp; try (by apply Hmark). eapply run_bind; [eapply run_succeed; [later|left; apply Hd|exact Hdisp]|].
    intros h2 [] _ _; [done|]. by eapply run_bind; [apply run_unreserve|].
  - eapply run_bind; [apply run_unreserve|]. intros h2 _ Hm2 _. eapply run_bind; [|done]. apply run_pend; [later|done|apply quiet_message].
Qed.

Lemma run_assignTo b a robot victim ld rn sk rest h : origin h b -> near b a -> assignable h b robot -> timed h ld rn sk ->
  (forall v, victim = Some v -> origin h v /\ displaceable h v) -> run (assignTo rc a b robot victim ld rn rest) h any.
Proof.
  intros Ho Hn Ha Ht Hv. unfold assignTo. assert (Hz : ac_Zone a = ac_Zone b) by apply Hn. assert (Hna : ac_Name a = ac_Name b) by apply Hn.
  assert (Hgo : forall h' reserved, seenMore h h' -> reservedFor h' b robot -> run
    (let*? held := match victim with Some v => handOver rc a b (r_Name (ob_Robot robot)) v reserved | None => Ret (Ok None) end in
     match held with Some o => Ret (Ok o) | None => commitAssignment rc a b robot reserved ld rn rest end) h' any).
  { intros h' reserved Hm Hr. eapply run_try with (Q := any); [|intros h2 [o|] Hm2 _; [done|]|done].
    - destruct victim as [v|]; [|done]. destruct (Hv v eq_refl) as [Hov Hdv]. apply run_handOver; [later|done|later|by eapply displaceable_mono].
    - eapply run_commit; [later|done|apply (assignable_mono h); [more|done]|by eapply reservedFor_mono|apply (timed_mono h); [more|done]]. }
  rewrite Hz, Hna. destruct (rc_TDE rc && _) eqn:E.
  - apply along_event; [exact I|]. intros [failed res] _. destruct (failed || _) eqn:Ed.
    + eapply run_bind; [apply run_pending|]; [later|apply Ha|apply Hn|apply Hn|by apply (near_pending b a _ (putMessage "awaiting zone capacity (traffic deconfliction)"))|].
      intros h2 _ _ _. eapply run_bind; [apply run_config|]. by intros h3 [] _ _.
    + apply orb_false_iff in Ed as [-> Ed]. str_bool. eapply run_bind with (Q := any); [destruct (_ =s _); [apply run_markAll|done]|].
      intros h2 _ Hm2 _. apply Hgo; [more|]. intros _ _. exists (ac_Priority a), res. split; [saw|done].
  - apply Hgo; [apply seen_refl|]. intros Htde Hzn. rewrite Htde in E. simpl in E. by str_bool.
Qed.

(** *** From the gate to the assignment *)

Lemma quiet_comp f g : quiet f -> quiet g -> quiet (fun s => g (f s)).
Proof. intros Hf Hg s. destruct (Hf s) as (F1 & F2 & F3 & F4), (Hg (f s)) as (G1 & G2 & G3 & G4). split_and!; congruence. Qed.

Lemma run_noCandidate b a withheld survivors note declined h : origin h b -> near b a -> unscheduled (ac_Phase b) = true ->
  run (noCandidate rc a b withheld survivors note declined) h any.
Proof.
  intros Ho Hn Hu. apply along_event; [exact I|]. intros tally _. cbv zeta. set (a1 := if withheldByOperatingConstraint withheld then edit a _ else a).
  assert (Hn1 : near b a1) by (unfold a1; destruct (withheldByOperatingConstraint withheld); [by apply near_edit|done]).
  destruct (setAdapterDeclined _ _) as [tr cs]. set (msg := if everyCandidateRefusedTheAction _ _ then _ else _).
  eapply run_bind; [apply run_pending|]; [later|done|apply Hn1|apply Hn1| |].
  - by apply (near_pending b a1 _ (fun s => putConditions cs (putMessage msg s))).
  - intros h2 r _ _. eapply run_bind with (Q := any); [|done]. destruct tr, r; try done; apply run_emit.
Qed.

Lemma run_selectCandidate b a robots candidates withheld note ld rn sk rest h : origin h b -> near b a -> unscheduled (ac_Phase b) = true ->
  gatePassed h b -> destinationClear h b -> timed h ld rn sk -> @Seen ActEv actResp AListRobots (Some robots) ∈ h -> candidates ⊆ robots ->
  run (selectCandidate rc a b candidates withheld note ld rn rest) h any.
Proof.
  intros Ho Hn Hu Hg Hd Ht Hl Hsub.
  assert (Hass : forall h' robot, seenMore h h' -> robot ∈ candidates -> assignable h' b robot).
  { intros h' robot Hm Hin. split; [done|later|later|]. exists robots. split; [saw|by apply Hsub]. }
  unfold selectCandidate. eapply run_bind; [apply run_acceptDegraded|]. intros h1 ad Hm1 _. eapply run_bind; [apply run_config|]. intros h2 pm Hm2 _.
  eapply run_bind; [apply run_config|]. intros h3 hp Hm3 _. eapply run_bind; [apply run_selectFrom|]. intros h4 [[robot|] declined] Hm4 Hsel.
  - eapply run_assignTo; [later|done|apply Hass; [more|by apply Hsel]|apply (timed_mono h); [more|done]|done].
  - destruct (CanPreempt _); [|apply run_noCandidate; [later|done|done]]. eapply run_try; [apply run_findPreemption| |done].
    intros h5 [[cand victim]|] Hm5 Hc; [|apply run_noCandidate; [later|done|done]]. destruct Hc as (Hin & Hov & Hdv). simpl in Hin, Hov, Hdv.
    eapply run_bind; [apply run_servable|]. intros h6 [[] d] Hm6 _; [|apply run_noCandidate; [later|done|done]].
    eapply run_assignTo; [later|done|apply Hass; [more|done]|apply (timed_mono h); [more|done]|]. intros v [= <-]. split; [later|by eapply displaceable_mono].
Qed.

Lemma dropDeclined_subset declined eligible : forall withheld, (dropDeclined declined eligible withheld).1 ⊆ eligible.
Proof.
  induction eligible as [|o eligible IH]; intros withheld; simpl; [done|]. destruct (declined !! _).
  - etrans; [apply IH|]. set_solver.
  - specialize (IH withheld). destruct (dropDeclined _ _ _). simpl in *. set_solver.
Qed.

Lemma dropDeclinedCandidates_subset declined eligible withheld : (dropDeclinedCandidates declined eligible withheld).1 ⊆ eligible.
Proof. unfold dropDeclinedCandidates. destruct (decide _); [done|]. apply dropDeclined_subset. Qed.

Lemma run_dispatchFiltered b a robots f declined ld rn sk h : origin h b -> near b a -> unscheduled (ac_Phase b) = true ->
  gatePassed h b -> destinationClear h b -> timed h ld rn sk -> @Seen ActEv actResp AListRobots (Some robots) ∈ h -> fd_eligible f ⊆ robots ->
  run (dispatchFiltered rc a b f declined ld rn) h any.
Proof.
  intros Ho Hn Hu Hg Hd Ht Hl Hsub. unfold dispatchFiltered. pose proof (dropDeclinedCandidates_subset declined (fd_eligible f) (fd_withheld f)) as Hdrop.
  destruct (dropDeclinedCandidates _ _ _) as [eligible withheld]. simpl in Hdrop. destruct (match fd_restrictions f with Some v => _ | None => None end) as [v|].
  - destruct (negb (zv_terminal v)).
    + eapply run_bind; [apply run_pending|done]; [later|done|apply Hn|apply Hn|]. by apply (near_pending b a _ (putMessage (zv_message v))).
    + eapply run_bind; [eapply run_true, run_now|]. intros h1 now Hm1 _. eapply run_bind; [apply run_emit|]. intros h2 _ Hm2 _.
      eapply run_bind; [apply run_patch_|done]. destruct Hn as (N1 & N2 & N3 & N4 & N5 & N6 & N7). split_and!; [later|done|done|]. apply row_unstarted; [done|].
      by split_and!.
  - cbv zeta. set (note := narrowNoteOf _ _). set (a1 := if note =s "" then a else _).
    assert (Hn1 : near b a1) by (unfold a1; destruct (note =s ""); [done|by apply near_edit]).
    apply along_event; [exact I|]. intros [refusal|] _.
    + unfold applySensorStreamRefusal. eapply run_bind with (Q := any); [destruct (negb _); [apply run_emit|done]|]. intros h1 _ Hm1 _.
      eapply run_bind with (Q := any); [|done]. destruct (decide _); [done|]. eapply run_bind; [apply run_pending|done]; [later|done|apply Hn1|apply Hn1|].
      by apply (near_pending b a1 _ (fun s => putMessage (sf_Message refusal) (putConditions (setCondition (mkCondition conditionExternalDependenciesReady false (sf_Reason refusal) (sf_Message refusal)) (as_Conditions s)) s))).
    + eapply run_selectCandidate; [later| |done|later|later|apply (timed_mono h); [more|done]|saw|by etrans].
      apply near_edit; [done|]. intros s. unfold clearSensorStreamRefusal. by destruct (findCondition _ _).
Qed.

Lemma run_holdBehind b a gate now h : origin h b -> near b a -> run (holdBehindExecutor rc a b gate now) h any.
Proof.
  intros Ho Hn. unfold holdBehindExecutor. cbv zeta. set (msg := if de_Stop gate <>s "" then _ else _). destruct (_ =s msg); [done|].
  eapply run_try; [apply run_pend; [done|done|apply quiet_message]| |done]. intros h1 _ _ _. eapply run_bind with (Q := any); [|done]. destruct (_ <>s _); [apply run_emit|done].
Qed.

(** The gate's answer, as evidence. *)
Lemma gate_passed h b a robots now sk (d : Decision) cfgs : near b a -> gatedAs h b a -> @Seen ActEv actResp AListRobots (Some robots) ∈ h ->
  @Seen ActEv actResp (AGate ENow) now ∈ h -> @Seen ActEv actResp (AGate EScheduling) cfgs ∈ h -> (timingsOf cfgs).2 = sk ->
  gateAnswer (gateOf a) false now sk robots (gates h) (Ok d) -> de_Wait d <= 0 -> gatePassed h b.
Proof.
  intros (N1 & N2 & N3 & N4 & N5 & N6 & N7) Hga Hl Hn Hc <- [Hd Hw] Hwait. exists a, robots, now, cfgs. split_and!; try done.
  destruct (Hw Hwait) as [Hdis|Hfar]; [left|by right]. intros ro Hro Ha Hr. apply Hd; [done|done|].
  change (ob_AssignedAction ro = ac_Name a /\ r_Name (ob_Robot ro) <> ac_Robot a). split; congruence.
Qed.

(** The stamp [schedule] puts on an action that has none. *)
Lemma run_pendingSince b h : run (match as_PendingSince (ac_Status b) with
    | None => let* n := getNow in Ret (edit b (putPendingSince (Some n))) | Some _ => Ret b end) h (fun h' a => near b a /\ gatedAs h' b a).
Proof.
  unfold gatedAs. destruct (as_PendingSince _) eqn:E; [split; [apply near_refl|done]|].
  eapply run_bind; [apply run_now|]. intros h1 n _ Hn. split; [by apply near_edit; [apply near_refl|]|]. by exists n.
Qed.

Lemma run_schedule b now ld rn sk h : origin h b -> unscheduled (ac_Phase b) = true -> timed h ld rn sk -> @Seen ActEv actResp (AGate ENow) now ∈ h ->
  run (schedule rc b b now ld rn sk) h any.
Proof.
  intros Ho Hu Ht Hnow. unfold schedule. eapply run_bind; [apply run_pendingSince|].
  intros h1 a Hm1 [Hn Hga]. apply along_event; [exact I|]. intros [robots|] _; [|done]. eapply run_bind; [eapply run_gate, along_gate|].
  intros h2 [d|e] Hm2 Hgate; [|done]. destruct (0 <? de_Wait d) eqn:Ew; [apply run_holdBehind; [later|done]|]. apply Z.ltb_ge in Ew.
  assert (Hg : gatePassed h2 b).
  { destruct Ht as (cfgs & Hc & Ht). eapply (gate_passed h2 b a robots now sk d cfgs); [done|eapply gatedAs_mono; [|exact Hga]; more|saw|saw|saw|by rewrite Ht|done|done]. }
  eapply run_try; [apply run_holdDestination; [later|done|done]| |done]. intros h3 [a3 [o|]] Hm3 Hh; [done|]. destruct Hh as [Hn3 Hd].
  apply along_event; [exact I|]. intros f Hf. apply along_event; [exact I|]. intros declined _.
  eapply run_dispatchFiltered with (robots := robots) (sk := sk); [later|done|done|later|later|apply (timed_mono h); [more|done]|saw|done].
Qed.

(** ** The lease of bound work *)

Lemma run_pushRenew b n rv ld h : @Seen ActEv actResp (AStatus b n) (Ok rv) ∈ h -> renewable h b ->
  running (ac_Phase b) \/ ac_Phase b = ActionPhaseRevoking /\ noStopHolds h b -> generationOf n = generationOf b -> ac_Lease n <> None ->
  run (pushRenewLease rc (stored n rv) ld) h any.
Proof.
  intros Hs Hr Hp Hg Hl. unfold pushRenewLease. destruct (_ || _); [done|]. apply along_event; [|done].
  exists b, n, rv. split_and!; try done. unfold generationOf in *. by rewrite <- Hg.
Qed.

(** What is known of bound work past the holds: the robot as read, and that no stop holds running or Revoking work. *)
Record boundTo (h : list AObs) (b : Action) (robot : option RobotObject) : Prop := mkBoundTo {
  bt_seen : robotSeen h b robot;
  bt_named : robotNamed b robot;
  bt_calm : running (ac_Phase b) -> match robot with Some o => robotUnderEstop (ob_Robot o) = false | None => True end;
  bt_revoking : ac_Phase b = ActionPhaseRevoking -> noStopHolds h b /\ holdsWork robot = false;
  bt_preempted : ac_Phase b = ActionPhasePreempted -> noStopHolds h b
}.

Lemma boundTo_mono h h' b robot : seenMore h h' -> boundTo h b robot -> boundTo h' b robot.
Proof.
  intros Hm [H1 H2 H3 H4 H5]. split; [later|done|done| |].
  - intros Hp. destruct (H4 Hp). split; [later|done].
  - intros Hp. specialize (H5 Hp). later.
Qed.

Lemma run_holdRenewal b r now rn sk h : origin h b -> run (holdRenewalAfterClear rc b b r now rn sk) h any.
Proof. intros Ho. unfold holdRenewalAfterClear. destruct (leaseStampHeld b); [done|]. by apply run_after, run_setRenewalHeld. Qed.

Lemma run_holdPausedLease b r now rn sk h : origin h b -> run (holdPausedLeaseAfterClear rc b b r now rn sk) h any.
Proof. intros Ho. unfold holdPausedLeaseAfterClear. destruct (leaseStampHeld b); [done|]. by apply run_after, run_setRenewalHeld. Qed.

(** Work whose lease is to be renewed, past the hold of a clear. *)
Lemma renewable_bound h b robot : boundTo h b robot -> running (ac_Phase b) \/ ac_Phase b = ActionPhaseRevoking -> classifyRobot b robot = robotExecuting ->
  renewalHeldAfterClear b robot = false -> renewable h b.
Proof.
  intros [H1 H2 H3 H4 _] Hp Hc Hh. unfold renewalHeldAfterClear in Hh.
  assert (Hph : (ac_Phase b =s ActionPhaseAssigned) || (ac_Phase b =s ActionPhaseInProgress) || (ac_Phase b =s ActionPhaseRevoking) = true).
  { destruct Hp as [[->| ->]| ->]; done. }
  rewrite Hph in Hh. apply orb_false_iff in Hh as [Hh1 Hh2]. split; [done|]. destruct robot as [o|]; [|done]. exists o. str_bool. split_and!; try done.
  destruct Hp as [Hp|Hp]; [by apply H3|]. destruct (H4 Hp) as [_ Hw]. simpl in Hw. unfold estopHoldsWork in Hw. by apply orb_false_iff in Hw as [? _].
Qed.

Lemma run_renewLease b robot now ld rn sk h : origin h b -> boundTo h b robot -> running (ac_Phase b) \/ ac_Phase b = ActionPhaseRevoking ->
  classifyRobot b robot = robotExecuting -> run (renewLease rc b b robot now ld rn sk) h any.
Proof.
  intros Ho Hb Hp Hc. unfold renewLease. destruct (renewalHeldAfterClear b robot) eqn:Eh; [by apply run_holdRenewal|].
  pose proof (renewable_bound h b robot Hb Hp Hc Eh) as Hr. eapply run_bind with (Q := any).
  { destruct robot; [|done]. destruct (_ || _); [|done]. by eapply run_bind; [apply run_acceptDegraded|]. }
  intros h1 [] Hm1 _; [apply run_capabilityReassignment|]. cbv zeta. set (n := if _ =s ActionPhaseRevoking then edit (edit b _) _ else _).
  assert (Hn : ac_Name n = ac_Name b /\ ac_Spec n = ac_Spec b /\
    moved b n (if ac_Phase b =s ActionPhaseRevoking then ActionPhaseInProgress else ac_Phase b) (ac_Robot b) (Some (now + ld))).
  { unfold n. change (ac_Phase (edit b _)) with (ac_Phase b). by destruct (_ =s _). }
  destruct Hn as (N1 & N2 & N3).
  assert (Hphase : forall h', seenMore h h' -> running (ac_Phase b) \/ ac_Phase b = ActionPhaseRevoking /\ noStopHolds h' b).
  { intros h' Hm. destruct Hp as [Hp|Hp]; [by left|right; split; [done|]]. destruct Hb as [_ _ _ H4 _]. destruct (H4 Hp). later. }
  eapply run_try; [apply run_patch| |done].
  - split_and!; [later|done|done|]. apply row_renew with (lease := now + ld); [by apply Hphase|later|done].
  - intros h2 a Hm2 (rv & Hs & ->). eapply run_bind; [apply (run_pushRenew b); [done|later|apply Hphase; more|apply N3|]|].
    + destruct N3 as (_ & _ & -> & _). done.
    + intros h3 _ _ _. destruct (completionDeadline _); [|done]. destruct (ac_Phase (stored n rv) =s _); [|done]. by eapply run_bind; [eapply run_true, run_now|].
Qed.

Lemma run_revokeLease b robot now ld rn sk h : origin h b -> robotSeen h b robot -> running (ac_Phase b) -> classifyRobot b robot = robotLost ->
  run (revokeLease rc b b now ld rn sk) h any.
Proof.
  intros Ho Hr Hp Hc. unfold revokeLease. cbv zeta. set (a0 := edit b (fun s => putMessage _ (putPhase ActionPhaseRevoking s))).
  set (a1 := if isSome (ac_Lease a0) then a0 else _). set (a2 := if isSome _ then a1 else _).
  assert (Ha : ac_Name a2 = ac_Name b /\ ac_Spec a2 = ac_Spec b /\ exists l, moved b a2 ActionPhaseRevoking (ac_Robot b) l /\ (l = ac_Lease b \/ ac_Lease b = None) /\ l <> None).
  { assert (Hl : ac_Lease a0 = ac_Lease b) by done. unfold a2, a1. rewrite Hl. destruct (ac_Lease b) as [l|] eqn:El; simpl;
      destruct (as_DisconnectedAt (ac_Status b)); simpl; (split_and!; [done..|]); [exists (Some l)|exists (Some l)|exists (Some (now + ld))|exists (Some (now + ld))];
      (split_and!; [done..| |done]); auto. }
  destruct Ha as (A1 & A2 & l & Hmv & Hl & Hl'). eapply run_bind; [apply run_when; by step|]. intros h1 _ Hm1 _. eapply run_try; [apply run_patch_|done..].
  split_and!; [later|done|done|]. apply row_revoke with (robot := robot) (lease := l); try done. later.
Qed.

(** *** Reassignment *)

Definition mayReassign (h : list AObs) (b : Action) (robot : option RobotObject) : Prop :=
  (ac_Phase b = ActionPhaseRevoking \/ ac_Phase b = ActionPhasePreempted) /\ noStopHolds h b /\ robotSeen h b robot /\
  (leaseDeadSeen h b \/ ac_Phase b = ActionPhaseRevoking /\ classifyRobot b robot = robotFree \/ ac_Phase b = ActionPhasePreempted /\ stopProof h b (ac_Robot b)).

Lemma mayReassign_mono h h' b robot : seenMore h h' -> mayReassign h b robot -> mayReassign h' b robot.
Proof.
  intros Hm (H1 & H2 & H3 & H4). split_and!; [done|later|later|]. destruct H4 as [H4|[H4|[H4 H5]]]; [left; later|by right; left|right; right; split; [done|later]].
Qed.

Lemma free_seen h b robot : robotSeen h b robot -> classifyRobot b robot = robotFree -> freeSeen h b.
Proof. destruct robot as [o|]; [|done]. intros H1 H2. by exists o. Qed.

Lemma run_reassign b a robot h : origin h b -> near b a -> mayReassign h b robot -> run (reassign rc a b robot) h any.
Proof.
  intros Ho (N1 & N2 & N3 & N4 & N5 & N6 & N7) Hm. unfold reassign. rewrite N1. destruct Hm as (M1 & M2 & M3 & M4). eapply run_bind with (Q := any).
  { destruct robot as [o|]; [|done]. destruct (_ =s _) eqn:E; str_bool; [|done]. eapply run_bind with (Q := any); [|done]. split; [|done].
    exists b. split_and!; try done. destruct M4 as [M4|[[_ M4]|M4]]; [by left| |by right].
    exfalso. simpl in M4. rewrite E, eqb_s_refl in M4. by destruct (_ || _). }
  intros h1 _ Hm1 _. eapply run_bind; [apply run_releaseReservation|]. intros h2 _ Hm2 _. apply run_after, run_patch_. split_and!; [later|done|done|].
  apply row_reassign; [done|later| |].
  - destruct M4 as [M4|[[Hp M4]|[Hp M4]]]; [left; later|right; left; split; [done|]|right; right; split; [done|later]].
    eapply freeSeen_mono; [|by eapply free_seen]. more.
  - by split_and!.
Qed.

Lemma run_recoverRevoking b robot now h : origin h b -> ac_Phase b = ActionPhaseRevoking -> mayReassign h b robot -> run (recoverRevoking rc b b robot now) h any.
Proof.
  intros Ho Hp Hm. unfold recoverRevoking. eapply run_bind; [apply run_config|]. intros h1 [policy timeout] Hm1 _.
  assert (Hm' : mayReassign h1 b robot) by (by eapply mayReassign_mono). assert (Ho' : origin h1 b) by later.
  destruct (_ =s ActionCancellationAfterTimeout).
  - destruct (match as_DisconnectedAt (ac_Status b) with None => _ | Some t => _ end) as [a since] eqn:Ea.
    assert (Hn : near b a) by (destruct (as_DisconnectedAt _); injection Ea as <- _; [apply near_refl|by apply near_edit; [apply near_refl|]]).
    destruct (_ <? _); [|by apply run_reassign]. by apply run_after, run_pend.
  - destruct (_ && _).
    + apply run_after, run_finalizeCancel; try done; [by rewrite Hp..|]. right. destruct Hm' as (_ & M2 & M3 & M4). split_and!; [done..|].
      destruct M4 as [M4|[[_ M4]|[M4 _]]]; [by left|right; by eapply free_seen|by rewrite Hp in M4].
    + destruct (_ || _); [|by apply run_reassign; [|apply near_refl|]]. unfold holdRevoking. destruct (_ <>s _); [|done]. by apply run_after, run_hold.
Qed.

Lemma run_doReassign b robot now h : origin h b -> mayReassign h b robot -> run (doReassign rc b b robot now) h any.
Proof.
  intros Ho Hm. unfold doReassign. destruct (_ =s _) eqn:E; str_bool; [by apply run_recoverRevoking|by apply run_reassign; [|apply near_refl|]].
Qed.

Lemma lease_dead h b now ld rn sk : timed h ld rn sk -> @Seen ActEv actResp (AGate ENow) now ∈ h -> leaseProvablyDead (ac_Lease b) now sk = true -> leaseDeadSeen h b.
Proof. intros (cfgs & Hc & Ht) Hn Hd. exists now, cfgs. by rewrite Ht. Qed.

(** What the lease decides, by phase and reachability. *)
Lemma evaluateLease_cases p r l now sk : match evaluateLease p r l now sk with
  | actionRenew => (running p \/ p = ActionPhaseRevoking) /\ r = robotExecuting
  | actionRevoke => running p /\ r = robotLost
  | actionReassign => p = ActionPhaseRevoking /\ r = robotFree \/ (p = ActionPhaseRevoking \/ p = ActionPhasePreempted) /\ leaseProvablyDead l now sk = true
  | actionConfirmStop => p = ActionPhasePreempted
  | actionHold => True
  end.
Proof.
  unfold evaluateLease, running. destruct (_ || _) eqn:E; [apply orb_true_iff in E as [E|E]; str_bool; destruct r; auto|].
  destruct (p =s ActionPhaseRevoking) eqn:E1; str_bool; [destruct r; auto; destruct (leaseProvablyDead _ _ _) eqn:Ed; auto|].
  destruct (p =s ActionPhasePreempted) eqn:E2; str_bool; [destruct r; auto; destruct (leaseProvablyDead _ _ _) eqn:Ed; auto|done].
Qed.

Lemma run_evaluate b robot now ld rn sk h : origin h b -> boundTo h b robot -> timed h ld rn sk -> @Seen ActEv actResp (AGate ENow) now ∈ h ->
  run (evaluate rc b b robot now ld rn sk) h any.
Proof.
  intros Ho Hb Ht Hn. unfold evaluate. pose proof (evaluateLease_cases (ac_Phase b) (classifyRobot b robot) (ac_Lease b) now sk) as Hc.
  destruct (evaluateLease _ _ _ _ _).
  - destruct Hc. by apply run_renewLease.
  - destruct Hc. apply (run_revokeLease b robot); try done. apply Hb.
  - by destruct (_ =s _).
  - destruct Hb as [B1 B2 B3 B4 B5]. apply run_doReassign; [done|]. destruct Hc as [[Hp Hf]|[Hp Hd]].
    + split_and!; [by left|by apply B4|done|right; left; done].
    + split_and!; [done|destruct Hp as [Hp|Hp]; [by apply B4|by apply B5]|done|]. left. by eapply lease_dead.
  - eapply run_try; [apply run_confirmPreempted| |done]. intros h1 [[] disp] Hm1 Hst; cbn [negb]; [|done]. destruct Hst as [Hp Hd].
    assert (Hre : run (doReassign rc b b robot now) h1 any).
    { apply run_doReassign; [later|]. destruct Hb as [B1 B2 B3 B4 B5]. specialize (B5 Hc). split_and!; [by right|later|later|]. right; right. done. }
    destruct disp; try exact Hre. apply run_after. eapply run_succeed; [later|right; split; [done|]|done]. destruct Hb as [_ _ _ _ B5]. specialize (B5 Hc). later.
Qed.

(** ** One pass *)

Lemma run_holdPaused b robot now ld rn sk h : origin h b -> ac_Phase b = ActionPhasePaused -> robotSeen h b robot -> timed h ld rn sk ->
  @Seen ActEv actResp (AGate ENow) now ∈ h -> run (holdPaused rc b b robot now ld rn sk) h any.
Proof.
  intros Ho Hp Hr Ht Hn. unfold holdPaused. eapply run_try with (Q := any); [destruct robot; [eapply run_true, run_stopOver|done]| |done].
  intros h1 [stops confirmed] Hm1 _.
  assert (Hun : run (pauseAssignedUnconfirmed rc b b now ld rn sk) h1 any).
  { apply run_pauseUnconfirmed; [later|by right|saw|by eapply timed_mono]. }
  destruct robot as [o|]; [|by destruct (_ =s _)]. destruct (_ && negb confirmed); [apply run_unconfirmedStop; [later|done]|].
  destruct (_ =s _); [exact Hun|]. destruct (pausedLeaseHeldAfterClear _ _) eqn:El; [apply run_holdPausedLease; later|].
  apply orb_false_iff in El as [El _]. destruct (_ && _) eqn:E; [|done]. apply andb_true_iff in E as [[_ E]%andb_true_iff _].
  apply run_after, run_patch_. split_and!; [later|done|done|]. eapply row_renew_paused with (o := o) (lease := now + ld); try done. simpl in Hr. saw.
Qed.

Lemma run_declarativeHold b robot now ld rn p h : origin h b -> robotSeen h b robot -> robotNamed b robot ->
  declarativeHold rc b b robot now ld rn = Some p -> run p h any.
Proof.
  intros Ho Hr Hn. unfold declarativeHold. destruct (_ || _) eqn:Ep; [|done]. destruct (_ =s DesiredStatePaused) eqn:E1; str_bool.
  - intros [= <-]. apply run_applyPause; try done; [right; by left|]. intros _ _. by left.
  - destruct (_ =s DesiredStateReturning) eqn:E2; str_bool; [|done]. intros [= <-]. eapply run_bind; [apply run_confirmedStop|].
    intros h1 [[] disp] Hm1 [Hs _]; cbn [negb]; [|apply run_holdStop; later]. apply run_applyPause; try done; [later|by right; right|later| |].
    + intros _ _. by right.
    + intros _ _. by apply Hs.
Qed.

Lemma run_runBound b robot now ld rn sk h : origin h b -> boundTo h b robot -> timed h ld rn sk -> @Seen ActEv actResp (AGate ENow) now ∈ h ->
  run (runBound rc b b robot now ld rn sk) h any.
Proof.
  intros Ho Hb Ht Hn. unfold runBound.
  assert (Hgo : forall h', seenMore h h' -> run (evaluate rc b b robot now ld rn sk) h' any).
  { intros h' Hm. apply run_evaluate; [later|by eapply boundTo_mono|by eapply timed_mono|saw]. }
  destruct robot as [o|]; [|apply Hgo, seen_refl]. destruct (_ && _) eqn:E; [|apply Hgo, seen_refl]. apply andb_true_iff in E as [[E _]%andb_true_iff _]. str_bool.
  eapply run_try; [apply run_stopOver| |done]. intros h1 [stops c] Hm1 Hs. destruct (_ && _) eqn:E2; [|by apply Hgo].
  apply andb_true_iff in E2 as [E2 _]. apply Nat.eqb_eq, nil_length_inv in E2. apply run_completionTimeout; [later|done|].
  destruct Hb as [_ Hnm _ _ _]. simpl in Hnm. rewrite <- Hnm. auto.
Qed.

Lemma run_holdRevokingWork b robot now rn sk h : origin h b -> robotSeen h b robot -> run (holdRevokingWork rc b b robot now rn sk) h (fun h' x => match x with
  | Ok None => noStopHolds h' b /\ holdsWork robot = false | _ => True end).
Proof.
  intros Ho Hr. unfold holdRevokingWork. eapply run_try; [apply run_stopsOverBound| |done]. intros h1 [[stops c] gone] Hm1 Hst. destruct (_ || _) eqn:E.
  - eapply run_try with (Q := any); [|done..]. destruct (WaitsForAPerson _ _ _ _); [apply run_waitForAPerson|apply run_holdRevoking]; later.
  - apply orb_false_iff in E as [E1 E2]. apply negb_false_iff, Nat.eqb_eq, nil_length_inv in E1. split; [|done]. split; [auto|]. exists robot. split; [later|done].
Qed.

Lemma run_reconcileBound b now ld rn sk h : origin h b -> timed h ld rn sk -> @Seen ActEv actResp (AGate ENow) now ∈ h ->
  run (reconcileBound rc b b now ld rn sk) h any.
Proof.
  intros Ho Ht Hn. unfold reconcileBound. eapply run_bind; [apply run_getRobot|]. intros h1 rb Hm1 [Hs Hans].
  assert (Hrest : forall robot, robotSeen h1 b robot -> robotNamed b robot ->
    (running (ac_Phase b) -> match robot with Some o => robotUnderEstop (ob_Robot o) = false | None => True end) -> run
    (let*? held := if ac_Phase b =s ActionPhaseRevoking then holdRevokingWork rc b b robot now rn sk else Ret (Ok None) in
     match held with Some o => Ret (Ok o) | None => holdOrRun rc b b robot now ld rn sk end) h1 any).
  { intros robot Hrs Hnm Hcalm. eapply run_try with (Q := fun h' x => match x with
      | Ok None => ac_Phase b = ActionPhaseRevoking -> noStopHolds h' b /\ holdsWork robot = false | _ => True end); [| |done].
    { destruct (_ =s _) eqn:E; str_bool; [|done]. eapply along_conseq; [|apply run_holdRevokingWork; [later|done]]. by intros h' [[]|] H. }
    intros h2 [o|] Hm2 Hrev; [done|]. cbn beta iota in Hrev. unfold holdOrRun. eapply run_try; [apply run_holdPreempted; later| |done].
    intros h3 [o|] Hm3 Hpre; [done|]. cbn beta iota in Hpre. destruct (declarativeHold _ _ _ _ _ _ _) as [p|] eqn:Ed.
    { eapply run_declarativeHold; [| | |exact Ed]; [later|later|done]. }
    destruct (_ =s _) eqn:Ep; str_bool.
    - apply run_holdPaused; [later|done|later|apply (timed_mono h); [more|done]|saw].
    - apply run_runBound; [later| |apply (timed_mono h); [more|done]|saw]. split; [later|done|done| |done].
      intros Hp. destruct (Hrev Hp). split; [later|done]. }
  destruct rb as [o|[]]; [| |done].
  2: { by apply (Hrest None). }
  specialize (Hrest (Some o) Hs (proj1 Hans)). destruct (robotUnderEstop (ob_Robot o)) eqn:Eu; [|by apply Hrest].
  assert (Hst : underStopSeen h1 b) by (exists o; by left). destruct (ac_Phase b =s ActionPhaseAssigned) eqn:E1; str_bool.
  - apply run_pauseForEstop; [later|done|done|saw|by eapply timed_mono].
  - destruct (ac_Phase b =s ActionPhaseInProgress) eqn:E2; str_bool.
    + eapply run_bind; [apply run_when; by step|]. intros h2 _ Hm2 _. apply run_applyPause; [later|left; later|simpl; saw|apply Hans|done|by rewrite E2|by rewrite E2].
    + apply Hrest. intros [?|?]; congruence.
Qed.

Lemma run_reconcileLive b ld rn sk h : origin h b -> timed h ld rn sk -> run (reconcileLive rc b b ld rn sk) h any.
Proof.
  intros Ho Ht. unfold reconcileLive. cbv zeta.
  match goal with |- context [match ac_Deadline b with Some _ => _ | None => ?p end] => assert (Hrest : forall h', seenMore h h' -> run p h' any) end.
  { intros h' Hm. eapply run_bind; [apply run_now|]. intros h1 now Hm1 Hnow. destruct (_ && boundPhase _).
    - apply run_reconcileBound; [later|apply (timed_mono h); [more|done]|done].
    - destruct (_ && _); [by eapply run_try; [apply run_releaseRecorders|done..]|]. destruct (unscheduled _) eqn:Eu; [|done].
      apply run_schedule; [later|done|apply (timed_mono h); [more|done]|done]. }
  destruct (unscheduled (ac_Phase b)) eqn:Eu; [|apply Hrest, seen_refl]. destruct (ac_Deadline b); [|apply Hrest, seen_refl].
  eapply run_bind; [eapply run_true, run_now|]. intros h1 t' Hm1 _. destruct (_ <? _); [|by apply Hrest].
  eapply run_bind; [eapply run_true, run_now|]. intros h2 now Hm2 _. apply run_after, run_patch_. split_and!; [later|done|done|]. apply row_unstarted; [done|moved].
Qed.

Lemma run_reconcileRequest b ld rn sk h : origin h b -> timed h ld rn sk -> ac_Phase b <> ActionPhaseSucceeded -> ac_Phase b <> ActionPhaseCancelled ->
  run (reconcileRequest rc b b ld rn sk) h any.
Proof.
  intros Ho Ht Hs Hc. unfold reconcileRequest. destruct (has _ _) eqn:Eq.
  - eapply run_try; [apply run_overtaken| |done]. intros h1 [verdict msg] Hm1 _. assert (Ho1 : origin h1 b) by later.
    destruct verdict; [by apply run_handleRequeue|done|by apply run_reconcileLive; [|eapply timed_mono]|by apply run_holdRequeue].
  - destruct (_ && _); [by apply run_after, run_hold|by apply run_reconcileLive].
Qed.

Lemma run_reconcileRead a h : origin h a -> run (reconcileRead rc a) h any.
Proof.
  intros Ho. unfold reconcileRead. eapply run_try; [by apply run_syncHeld| |done]. intros h1 [holders b] Hm1 [Hb _].
  destruct (ac_Deleted b); [destruct holders; [done|by apply run_awaitDeleted]|].
  destruct (_ || _) eqn:E1; [apply run_retire; [done|]; apply orb_true_iff in E1 as [E1|E1]; str_bool; auto|].
  apply orb_false_iff in E1 as [E1 E1']. str_bool. destruct (_ =s _) eqn:E2; str_bool; [by apply run_handleFailed|].
  eapply run_bind; [apply run_timings|]. intros h2 [[ld rn] sk] Hm2 Ht. simpl in Ht. destruct (cancelRequest b) as [i|] eqn:Ei.
  - apply run_handleCancel; try done; [later|by eapply cancelRequest_asked].
  - apply run_reconcileRequest; try done. later.
Qed.

Lemma run_reconcileAction name h : run (reconcileAction rc name) h any.
Proof.
  apply along_event; [exact I|]. intros [a|[]] _; [| |done].
  - apply along_event; [exact I|]. intros [] _. apply run_reconcileRead. exists a. split; [|done]. left. exists name. left. saw.
  - eapply run_bind with (Q := any); [|by intros h1 [] _ _]. eapply run_lift with (Jg := orphanAllowed name) (Q := any); [|apply along_orphans].
    intros h' e _ He. destruct e; try done. destruct He as (since & now & skew & _ & _ & _ & He). by eapply rw_guard.
Qed.

Lemma run_Reconcile name h : run (Reconcile rc name) h any.
Proof. eapply run_bind; [apply run_reconcileAction|]. intros h1 [o|e] _ _; [done|]. by destruct (isConflict e). Qed.
End Pass.
