(* ===== verification/ActionTheorems.v ===== *)
(** What the FleetAction controller's transition table means for one pass, whatever the cluster, the
    adapters, the engine, the generation store and the clock answer: how an action leaves its phase, its
    robot and its generation, and when an adapter is told to take up work or to keep it. *)

From S2P Require Import Prelude.
From S2P Require Import Types.
From S2P Require Import Contract.
From S2P Require Import Conc.
From S2P Require Import Along.
From S2P Require Import EstopScope.
From S2P Require Import Command.
From S2P Require Import ExecutorGuard.
From S2P Require Import FencingStore.
From S2P Require Import Scheduler.
From S2P Require Import Tde.
From S2P Require Import ExecutorGate.
From S2P Require Import SafetyData.
From S2P Require Import ActionData.
From S2P Require Import ActionController.
From S2P Require Import ActionTable.
From S2P Require Import ActionProps.
From S2P Require Import ActionPass.

(** The pass over the action [name], with answers of the world, comes to the event [e] having seen [h]. *)
Definition passComesTo (rc : Reconciler) (name : string) (h : list AObs) (e : ActEv) : Prop :=
  reaches actAnswered (Reconcile rc name) [] h e.

Lemma pass_permitted rc name h e : passComesTo rc name h e -> permitted h (rc_TDE rc) e.
Proof. intros Hr. eapply (along_reaches actAnswered (fun h => permitted h (rc_TDE rc))); [apply run_Reconcile|exact Hr]. Qed.

(** What a pass has seen, it asked for. *)
Lemma pass_asked rc name h e e' a : passComesTo rc name h e -> Seen e' a ∈ h -> exists h1, passComesTo rc name h1 e' /\ seenMore h1 h.
Proof. intros Hr Hs. destruct (reaches_asked _ _ _ _ _ _ _ Hr Hs) as [?%not_elem_of_nil|H]; done. Qed.

(** What a pass has seen are answers. *)
Lemma pass_answered rc name h e e' a : passComesTo rc name h e -> Seen e' a ∈ h -> actAnswered e' a.
Proof. intros Hr Hs. by destruct (reaches_answered _ _ _ _ _ _ _ Hr Hs) as [?%not_elem_of_nil|H]. Qed.

(** What the gate has seen, the pass has. *)
Lemma gates_in h e (a : gateResp e) : Seen e a ∈ gates h -> @Seen ActEv actResp (AGate e) a ∈ h.
Proof.
  unfold gates. rewrite list_elem_of_omap. intros ([e' a'] & Hin & Heq). destruct e'; try done.
  change (match Some (Seen e a) with Some (Seen e a) => @Seen ActEv actResp (AGate e) a ∈ h | None => True end). by rewrite <- Heq.
Qed.

(** ** Phases *)

Lemma unscheduled_cases p : unscheduled p = true -> p = "" \/ p = ActionPhasePending.
Proof. unfold unscheduled. intros [E|E]%orb_true_iff; str_bool; auto. Qed.

Lemma awaits_failed b : awaitsRetry b = true -> ac_Phase b = ActionPhaseFailed.
Proof. unfold awaitsRetry. intros [[[E _]%andb_true_iff _]%andb_true_iff _]%andb_true_iff. by str_bool. Qed.

(** [clash]: one thing is said to be two different strings. *)
Ltac clash :=
  match goal with
  | H1 : ?x = ?p, H2 : ?x = ?q |- _ => exfalso; discriminate (eq_trans (eq_sym H1) H2)
  | H0 : ?y = ?x, H1 : ?y = ?p, H2 : ?x = ?q |- _ => exfalso; discriminate (eq_trans (eq_trans (eq_sym H1) H0) H2)
  | H1 : ?x = ?p, H2 : ?x <> ?p |- _ => exfalso; exact (H2 H1)
  end.

(** [phases] takes a row apart, and drops it when the phases it speaks of are not those at hand. *)
Ltac phases :=
  repeat match goal with
  | H : moved _ _ _ _ _ |- _ => destruct H as (? & ? & ? & ?)
  | H : unscheduled _ = true |- _ => apply unscheduled_cases in H as [?|?]
  | H : running _ |- _ => destruct H as [?|?]
  | H : awaitsRetry _ = true |- _ => apply awaits_failed in H
  | H : ac_Phase _ = _ \/ _ |- _ => destruct H as [?|?]
  | H : running _ \/ _ |- _ => destruct H as [?|?]
  | H : ac_Phase _ = _ /\ _ |- _ => destruct H as [? ?]
  end; try clash; try congruence.

(** ** The table *)

(** C4 The controller refines its transition table. Whatever the outside world answers, each status write of
    a pass is computed from an object the pass has in hand (read, or answered by a write of its own), keeps
    its name and spec, and is one of the table's rows, with the evidence the row asks for already seen. *)
Theorem status_writes_follow_table rc name h b n (Hpass : passComesTo rc name h (AStatus b n)) :
  origin h b /\ ac_Name n = ac_Name b /\ ac_Spec n = ac_Spec b /\ row h (rc_TDE rc) b n.
Proof. exact (pass_permitted _ _ _ _ Hpass). Qed.

(** The rows of an action that is over. *)
Lemma terminal_row h tde b n : row h tde b n -> ac_Phase b = ActionPhaseSucceeded \/ ac_Phase b = ActionPhaseCancelled ->
  moved b n (ac_Phase b) (ac_Robot b) (ac_Lease b) \/ moved b n (ac_Phase b) (ac_Robot b) None.
Proof. intros Hrow Hover. destruct Hrow; first [by left|by right|destruct Hover; phases]. Qed.

(** An action that is over stays over: a write on a Succeeded or Cancelled action changes neither its
    phase, nor its robot, nor its generation, and its lease only to drop it. *)
Theorem terminal_phases_kept rc name h b n (Hpass : passComesTo rc name h (AStatus b n))
  (Hover : ac_Phase b = ActionPhaseSucceeded \/ ac_Phase b = ActionPhaseCancelled) :
  moved b n (ac_Phase b) (ac_Robot b) (ac_Lease b) \/ moved b n (ac_Phase b) (ac_Robot b) None.
Proof. destruct (pass_permitted _ _ _ _ Hpass) as (_ & _ & _ & Hrow). by eapply terminal_row. Qed.

(** The rows out of Paused. *)
Definition leftPaused (h : list AObs) (b n : Action) : Prop :=
  (requeueAsked b \/ cancelAsked b) /\
  (ac_Robot b = "" \/ stopProof h b (ac_Robot b) \/ ac_Phase n = ActionPhaseFailed /\ ac_Robot n = ac_Robot b).

Lemma paused_row h tde b n : row h tde b n -> ac_Phase b = ActionPhasePaused -> ac_Phase n <> ActionPhasePaused -> leftPaused h b n.
Proof.
  intros Hrow Hpaused Hmoved. unfold leftPaused. destruct Hrow; phases.
  - tauto.
  - match goal with H : _ /\ _ \/ _ |- _ => destruct H as [?|[? _]]; [tauto|phases] end.
  - tauto.
  - tauto.
Qed.

(** Paused work waits for a person: a pass moves an action out of Paused only when a requeue or a cancel
    is asked on it, and then its robot is none, or is provably stopped, or (as Failed) stays bound to it. *)
Theorem paused_left_on_request rc name h b n (Hpass : passComesTo rc name h (AStatus b n))
  (Hpaused : ac_Phase b = ActionPhasePaused) (Hmoved : ac_Phase n <> ActionPhasePaused) :
  (requeueAsked b \/ cancelAsked b) /\
  (ac_Robot b = "" \/ stopProof h b (ac_Robot b) \/ ac_Phase n = ActionPhaseFailed /\ ac_Robot n = ac_Robot b).
Proof. destruct (pass_permitted _ _ _ _ Hpass) as (_ & _ & _ & Hrow). by apply (paused_row _ _ _ _ Hrow). Qed.

(** No stopped work is moved on its own. A pass that takes an action out of Revoking or Preempted with no
    requeue and no cancel asked has read, live, that no stop covers its robot (or, the Robot object being
    gone, that no stop stands in the namespace), and in the cache that no stop or clear holds the robot. *)
Theorem revoked_work_held_under_stop rc name h b n (Hpass : passComesTo rc name h (AStatus b n))
  (Hlost : ac_Phase b = ActionPhaseRevoking \/ ac_Phase b = ActionPhasePreempted) (Hmoved : ac_Phase n <> ac_Phase b)
  (Hrequeue : ~ requeueAsked b) (Hcancel : ~ cancelAsked b) :
  noStopHolds h b.
Proof.
  destruct (pass_permitted _ _ _ _ Hpass) as (_ & _ & _ & Hrow).
  destruct Hrow; destruct Hlost; phases; tauto.
Qed.

(** C9 A binding is dropped only with proof. When a pass takes an action off a robot, it has seen the robot
    provably stopped (its adapter acknowledged the cancel of this generation with its stop confirmed, or
    the lease is provably dead), reachable and without this work, the assignment rejected, or the action
    ended; or the Robot object is gone, read live, and the action has no lease; or the action is Assigned
    and the write of a robot record on that robot was answered with an error; or the action is Assigned,
    its spec asks for Paused or Returning, and the write pauses it; or the action is unscheduled, the
    write binds a new robot, and the executor gate let it through (every listed robot that records the
    action, but the one the action names, is settled, or the wait for the lease overflows a Duration). *)
Theorem binding_dropped_with_proof rc name h b n (Hpass : passComesTo rc name h (AStatus b n))
  (Hbound : ac_Robot b <> "") (Hdropped : ac_Robot n <> ac_Robot b) :
  mayRelease h b (ac_Robot b) \/
  ac_Lease b = None /\ Seen (AGate (ELiveGet (ac_Robot b))) (Err NotFound) ∈ h \/
  ac_Phase b = ActionPhaseAssigned /\ (exists rv o e, Seen (AGate (EPatch (ac_Robot b) rv o)) (Some e) ∈ h) \/
  ac_Phase b = ActionPhaseAssigned /\ (ac_Desired b = DesiredStatePaused \/ ac_Desired b = DesiredStateReturning) /\ ac_Phase n = ActionPhasePaused \/
  unscheduled (ac_Phase b) = true /\ gatePassed h b /\ ac_Phase n = ActionPhaseAssigned.
Proof.
  destruct (pass_permitted _ _ _ _ Hpass) as (_ & _ & _ & Hrow). unfold mayRelease.
  destruct Hrow;
    repeat match goal with H : moved _ _ _ _ _ |- _ => destruct H as (? & ? & ? & ?) end; try congruence; unfold stopProof in *; naive_solver.
Qed.

(** A generation changes only by a mint: a write whose generation is not the one it was computed from is
    an assignment, and the generation store has answered this pass with the new one, for this action. *)
Theorem generation_changes_by_mint rc name h b n (Hpass : passComesTo rc name h (AStatus b n))
  (Hnew : generationOf n <> generationOf b) :
  unscheduled (ac_Phase b) = true /\ ac_Phase n = ActionPhaseAssigned /\
  exists m, Seen (AMint m) (Ok (generationOf n)) ∈ h /\ ac_Name m = ac_Name b.
Proof.
  destruct (pass_permitted _ _ _ _ Hpass) as (_ & _ & _ & Hrow).
  destruct Hrow; try done;
    match goal with H : moved _ _ _ _ _ |- _ => destruct H as (? & ? & ? & ?) end; congruence.
Qed.

(** A lease that a clear holds is not advanced: while the action carries the condition of a stop cleared
    over its work, a write keeps its lease or drops it, unless it assigns the action anew. *)
Theorem held_lease_not_advanced rc name h b n (Hpass : passComesTo rc name h (AStatus b n))
  (Hheld : leaseStampHeld b = true) (Hlease : ac_Lease b <> None) :
  ac_Lease n = ac_Lease b \/ ac_Lease n = None \/
  unscheduled (ac_Phase b) = true /\ ac_Phase n = ActionPhaseAssigned /\ leaseStampHeld n = false.
Proof.
  destruct (pass_permitted _ _ _ _ Hpass) as (_ & _ & _ & Hrow).
  destruct Hrow; try (by right; right);
    repeat match goal with
    | H : moved _ _ _ _ _ |- _ => destruct H as (? & ? & ? & ?)
    | H : renewable _ _ |- _ => destruct H as [? _]
    end; naive_solver congruence.
Qed.

(** Work is preempted only when it may be: a pass writes Preempted on an action only when it is Assigned
    or InProgress, of a preemptible priority, and its robot, read live, is under no stop. *)
Theorem preempted_only_uncovered rc name h b n (Hpass : passComesTo rc name h (AStatus b n))
  (Hpre : ac_Phase n = ActionPhasePreempted) (Hnot : ac_Phase b <> ActionPhasePreempted) :
  running (ac_Phase b) /\ isPreemptible (ac_Priority b) = true /\ uncovered h (ac_Robot b).
Proof.
  destruct (pass_permitted _ _ _ _ Hpass) as (_ & _ & _ & Hrow).
  destruct Hrow; try done; repeat match goal with H : moved _ _ _ _ _ |- _ => destruct H as (? & ? & ? & ?) end; try clash; try congruence.
  match goal with H : ac_Phase n = (if _ then _ else _) |- _ => destruct (_ =s _); [clash|congruence] end.
Qed.

(** ** Commands *)

(** The write that commits an assignment is the table's. *)
Lemma assign_row_inv h tde b n : row h tde b n -> unscheduled (ac_Phase b) = true -> ac_Phase n = ActionPhaseAssigned ->
  gatePassed h b /\ destinationClear h b /\
  (tde = true -> ac_Zone b <> "" -> exists p res, Seen (AReserve (ac_Name b) (ac_Robot n) (ac_Zone b) p) (false, res) ∈ h /\ rs_Status res <> Denied) /\
  exists m, Seen (AMint m) (Ok (generationOf n)) ∈ h /\ ac_Name m = ac_Name b.
Proof.
  intros Hrow Hu Hn. destruct Hrow as [| |robot robots now cfgs H1 H2 H3 H4 H5 H6 H7 H8 H9 H10 H11 H12 H13| | | | | | | | | | | | | | | | | | | |]; phases.
  all: rewrite H10; done.
Qed.

(** C7 An adapter is told to take up an action only when everything before it holds. When a pass comes to
    the AssignAction command, then before it: the executor gate has settled every listed robot that records
    the action, except the robot the action itself still names (or the time until the lease is dead, by
    the action's own times and the pass's clock, overflows a Duration, some 292 years); no stop reaches
    the destination, the deconfliction engine has not denied the slot for this robot (when there is an
    engine and a destination), the generation store minted the generation, the action was written Assigned
    to this robot under it, and the robot's record of it was written; and the command carries that
    generation as its fencing token. *)
Theorem assigned_only_after_commit rc name h robot c (Hpass : passComesTo rc name h (AAssign robot c)) :
  exists b n rv m o orv,
    Seen (AStatus b n) (Ok rv) ∈ h /\ ac_Name b = aa_ActionID c /\ unscheduled (ac_Phase b) = true /\
    ac_Phase n = ActionPhaseAssigned /\ ac_Robot n = robot /\ gatePassed h b /\ destinationClear h b /\
    (rc_TDE rc = true -> ac_Zone b <> "" -> exists p res, Seen (AReserve (ac_Name b) robot (ac_Zone b) p) (false, res) ∈ h /\ rs_Status res <> Denied) /\
    Seen (AMint m) (Ok (generationOf n)) ∈ h /\ ac_Name m = ac_Name b /\
    Seen (AGate (EPatch robot orv (taken o (aa_ActionID c)))) None ∈ h /\
    aa_FencingToken c = FencingToken (generationOf n) /\ aa_LeaseGeneration c = FencingToken (generationOf n).
Proof.
  destruct (pass_permitted _ _ _ _ Hpass) as (gen & orv & o & (b & n & rv & Hs & Hn & Hph & Hr & <- & Hu) & Hf & Hl & Hp).
  destruct (pass_asked _ _ _ _ _ _ Hpass Hs) as (h1 & Hw & Hm). destruct (pass_permitted _ _ _ _ Hw) as (_ & Hname & _ & Hrow).
  destruct (assign_row_inv _ _ _ _ Hrow Hu Hph) as (H1 & H2 & H3 & m & H4 & H5).
  exists b, n, rv, m, o, orv. split_and!; try done; [congruence|later|later| |by eapply saw_mono].
  intros Ht Hz. destruct (H3 Ht Hz) as (p & res & H6 & H7). exists p, res. rewrite <- Hr. split; [by eapply saw_mono|done].
Qed.

(** A robot's lease is renewed only on work it is doing and may do. When a pass comes to the RenewLease
    command, the action's lease was just written; the robot, as read, is reachable, records the action, and
    no stop and no clear holds it; the action is Assigned or InProgress, or Revoking with no stop over its
    robot; no clear holds the lease; and the command carries the action's own generation. *)
Theorem renewed_only_when_free_to_run rc name h robot action gen duration (Hpass : passComesTo rc name h (ARenew robot action gen duration)) :
  exists b n rv o, Seen (AStatus b n) (Ok rv) ∈ h /\ ac_Name b = action /\ ac_Robot b = robot /\ gen = FencingToken (generationOf b) /\
    leaseStampHeld b = false /\ Seen (AGate (EGet robot)) (Ok o) ∈ h /\ ob_AssignedAction o = action /\ estopHoldsWork (ob_Robot o) = false /\
    (running (ac_Phase b) \/ ac_Phase b = ActionPhaseRevoking /\ noStopHolds h b).
Proof.
  destruct (pass_permitted _ _ _ _ Hpass) as (b & n & rv & Hs & (Hheld & o & Ho & Hc & He & Hres) & Hp & Hn & Hr & Hg & Hl).
  destruct (pass_asked _ _ _ _ _ _ Hpass Hs) as (h1 & Hw & Hm). destruct (pass_permitted _ _ _ _ Hw) as (_ & Hname & _ & Hrow).
  assert (Hrobot : ac_Robot n = ac_Robot b).
  { destruct Hrow; destruct Hp as [[?|?]|[? _]]; phases. }
  rewrite <- Hr, Hrobot. exists b, n, rv, o. split_and!; try done; [congruence|simpl in Hc|unfold estopHoldsWork; rewrite He; simpl; by apply eqb_s_false].
  destruct (_ || _); [done|]. destruct (_ =s _) eqn:E; str_bool; [congruence|done].
Qed.

(** A robot's record changes with proof. Each locked write of a Robot by a pass either clears the record
    of an action from a Robot as it was read, the robot being provably off it, or records the action whose
    assignment to this robot the pass has committed; and the unlocked write clears the record of Revoking
    or Preempted work from its own robot, with no stop over it and its lease dead or its stop proved. *)
Theorem robot_record_changes_with_proof rc name h e (Hpass : passComesTo rc name h e) :
  match e with
  | AGate (EPatch robot rv o') =>
      (exists o a, Seen (AGate (EGet robot)) (Ok o) ∈ h /\ ob_rv o = rv /\ ob_AssignedAction o = a /\ o' = released o /\
         ((exists b, ac_Name b = a /\ mayRelease h b robot) \/
          (exists g move now skew, ga_Name g = a /\ provedOff g move now skew (gates h) robot))) \/
      (exists o a gen, r_Name (ob_Robot o) = robot /\ ob_rv o = rv /\ o' = taken o a /\ committed h a robot gen)
  | ARobotMerge o o' =>
      exists b, origin h b /\ r_Name (ob_Robot o) = ac_Robot b /\ ob_AssignedAction o = ac_Name b /\ ob_AssignedAction o' = "" /\
        ob_Robot o' = ob_Robot o /\ noStopHolds h b /\ stopProof h b (ac_Robot b)
  | _ => True
  end.
Proof.
  pose proof (pass_permitted _ _ _ _ Hpass) as Hp. destruct e as [ge| | | | | | | | |o o'| | | | | | | | | | | | | | | | | |]; try done.
  - destruct ge; try done. destruct Hp as [a move now skew (o' & H1 & H2 & H3 & H4 & H5 & H6)|a o' H1 H2 H3 H4 H5|robots o' a gen H1 H2 H3 H4 H5 H6].
    + left. exists o', (ga_Name a). split_and!; [by apply gates_in|done..|]. right. by exists a, move, now, skew.
    + left. exists o', (ac_Name a). split_and!; try done. left. by exists a.
    + right. by exists o', a, gen.
  - destruct Hp as (b & H1 & H2 & H3 & H4 & H5 & H6 & ->). exists b. split_and!; try done.
    + destruct (pass_answered _ _ _ _ _ _ Hpass H5) as [Hn _]. exact Hn.
    + destruct H4 as [H4|[_ H4]]; [by right|done].
Qed.

(** ** Work under a stop *)

Definition isStatus (e : ActEv) : bool := match e with AStatus _ _ => true | _ => false end.

Section Stopped.
Context (rc : Reconciler) (oracle : list AObs -> forall e, actResp e) (Q : list AObs -> ActEv -> Prop).
Notation finds p h R := (finds oracle isStatus p h Q R).

Lemma finds_holders name robots : (forall o, o ∈ robots -> ob_AssignedAction o = name -> robotUnderEstop (ob_Robot o) = true) ->
  forall holders h, finds (recordHolders name robots holders) h (fun _ x => exists l, x = Ok l).
Proof.
  induction robots as [|o robots IH]; intros Hs holders h; [by eexists|]. cbn [recordHolders].
  assert (Hs' : forall o, o ∈ robots -> ob_AssignedAction o = name -> robotUnderEstop (ob_Robot o) = true) by (intros; apply Hs; [by right|done]).
  destruct (_ <>s name) eqn:E; [by apply IH|]. str_bool. unfold heldRecord, tryBind. specialize (Hs o ltac:(by left) E).
  destruct (_ =s ""); [|rewrite Hs]; cbn; by apply IH.
Qed.

(** The stop finalizer leaves the work as it is. *)
Lemma finds_sync a robots h : (forall h, oracle h AListRobots = Some robots) -> ac_Deleted a = false ->
  (forall o, o ∈ robots -> ob_AssignedAction o = ac_Name a -> robotUnderEstop (ob_Robot o) = true) ->
  (forall h hold, exists rv, oracle h (AFinalizer a hold) = Ok rv) ->
  finds (syncHeldFinalizer a) h (fun _ x => exists l rv held, x = Ok (l, withVersion a rv held)).
Proof.
  intros Hl Hd Hs Hf. apply finds_event; [done|]. rewrite Hl. eapply finds_bind; [by apply finds_holders|]. intros h1 x (holders & ->).
  cbn beta iota. eapply finds_bind with (R := fun _ x => exists b, x = Ok b).
  { rewrite Hd. destruct holders; cbn; by eexists. }
  intros h2 x (hold & ->). cbn beta iota. destruct (Bool.eqb hold (ac_Held a)) eqn:E.
  - exists holders, (ac_rv a), (ac_Held a). by destruct a.
  - apply finds_event; [done|]. destruct (Hf h2 hold) as [rv ->]. by eexists _, _, _.
Qed.

(** What the pass writes on work under a stop. *)
Definition pausedAt (a : Action) (e : ActEv) : Prop :=
  exists b n, e = AStatus b n /\ ac_Status b = ac_Status a /\ ac_Name n = ac_Name a /\ ac_Phase n = ActionPhasePaused /\ ac_Robot n = ac_Robot a /\
    ac_Lease n <> None.

Lemma finds_timings h R : (forall h' d r s, R h' (d, r, s)) -> finds timings h R.
Proof. intros HR. unfold timings. cbn. destruct (timingsOf _) as [[d r] s]. apply HR. Qed.

Lemma finds_now h R : (forall h' t, R h' t) -> finds getNow h R.
Proof. intros HR. apply HR. Qed.

Lemma finds_when b p h : finds p h (fun _ _ => True) -> finds (when b p) h (fun _ _ => True).
Proof. by destruct b. Qed.

(** The write at the end of a pause. *)
Lemma finds_pause a b (stamp : bool) t msg h o R :
  ac_Status b = ac_Status a -> ac_Name b = ac_Name a -> (stamp = false -> ac_Lease a <> None) ->
  (forall h e, pausedAt a e -> Q h e) ->
  finds (after (patchActionStatus (edit (let b' := edit b (putPhase ActionPhasePaused) in if stamp then edit b' (putLeaseExpiresAt (Some t)) else b') (putMessage msg)) b) o) h R.
Proof.
  intros Hst Hn Hl HQ. unfold after, tryBind, patchActionStatus. cbn. apply HQ. eexists _, _. split; [done|].
  unfold ac_Phase, ac_Robot, ac_Lease in *. destruct stamp; cbn; rewrite ?Hst; split_and!; auto.
Qed.
End Stopped.

(** The work bound to a robot under a stop, from the read of the robot on. *)
Lemma finds_bound rc (oracle : list AObs -> forall e, actResp e) (Q : list AObs -> ActEv -> Prop) a b o now ld rn sk h R :
  (forall h, oracle h (AGate (EGet (ac_Robot b))) = Ok o) -> robotUnderEstop (ob_Robot o) = true ->
  ac_Status b = ac_Status a -> ac_Name b = ac_Name a ->
  ac_Phase a = ActionPhaseInProgress \/ ac_Phase a = ActionPhaseAssigned /\ r_EstopState (ob_Robot o) = RobotEstopStopped ->
  (forall h e, pausedAt a e -> Q h e) -> finds oracle isStatus (reconcileBound rc b b now ld rn sk) h Q R.
Proof.
  intros Hr He Hst Hn Hp HQ. assert (Hp' : ac_Phase b = ac_Phase a) by (unfold ac_Phase; by rewrite Hst).
  assert (Hl : forall l c : bool, l || negb (isSome (ac_Lease b)) = false -> ac_Lease a <> None).
  { intros l c [_ E]%orb_false_iff. unfold ac_Lease in *. rewrite <- Hst. by destruct (as_LeaseExpiresAt _). }
  unfold reconcileBound, getRobot. apply (finds_event _ _ (AGate (EGet (ac_Robot b)))); [done|]. rewrite Hr. cbv beta iota zeta. rewrite He, Hp'. destruct Hp as [Ep|[Ep Hstop]]; rewrite Ep.
  - change (ActionPhaseInProgress =s ActionPhaseAssigned) with false. change (ActionPhaseInProgress =s ActionPhaseInProgress) with true. cbv beta iota.
    eapply finds_bind with (R := fun _ _ => True); [by apply finds_when|]. intros h1 _ _.
    unfold applyPauseTransition. rewrite Hp', Ep.
    change (ActionPhaseInProgress =s ActionPhaseAssigned) with false. change (ActionPhaseInProgress =s ActionPhaseInProgress) with true. cbv beta iota.
    unfold pauseInProgress. cbn [pbind]. eapply (finds_pause oracle Q a b); [done|done| |done]. apply Hl. exact true.
  - change (ActionPhaseAssigned =s ActionPhaseAssigned) with true. cbv beta iota. unfold pauseAssignedForEstop.
    eapply finds_bind with (R := fun _ _ => True); [by apply finds_when|]. intros h1 _ _.
    rewrite Hstop. change (RobotEstopStopped <>s RobotEstopStopped) with false. cbv beta iota. unfold applyPauseTransition. rewrite Hp', Ep.
    change (ActionPhaseAssigned =s ActionPhaseAssigned) with true. cbv beta iota. unfold pauseAssignedUnderStop.
    eapply (finds_pause oracle Q a b); [done|done| |done]. apply Hl. exact true.
Qed.

(** C8 Work under a stop is paused. Let an action that is not being deleted be InProgress, or Assigned to a robot that has confirmed
    its stop, with no cancel and no requeue asked, and let its robot be read under an emergency stop (every
    robot the cache shows to record the action being under one too). Then, the reads answering and the
    stop finalizer's write landing, the pass comes to a status write, and its first is this one: the action Paused, bound to its
    robot, with a lease. *)
Theorem stopped_work_is_paused rc name (oracle : list AObs -> forall e, actResp e) a robots o
  (Hget : forall h, oracle h (AGetAction name) = Ok a) (Hlist : forall h, oracle h AListRobots = Some robots)
  (Hread : forall h, oracle h (AGate (EGet (ac_Robot a))) = Ok o) (Hwrite : forall h hold, exists rv, oracle h (AFinalizer a hold) = Ok rv)
  (Hlive : ac_Deleted a = false) (Hbound : ac_Robot a <> "")
  (Hphase : ac_Phase a = ActionPhaseInProgress \/ ac_Phase a = ActionPhaseAssigned /\ r_EstopState (ob_Robot o) = RobotEstopStopped)
  (Hcancel : cancelRequest a = None) (Hrequeue : has (ac_Annotations a) annRequeueRequested = false)
  (Hstop : robotUnderEstop (ob_Robot o) = true)
  (Hholders : forall ro, ro ∈ robots -> ob_AssignedAction ro = ac_Name a -> robotUnderEstop (ob_Robot ro) = true) :
  exists h e, runUntil oracle (fun _ => isStatus) (Reconcile rc name) [] = Some (h, e) /\ pausedAt a e.
Proof.
  enough (Hf : finds oracle isStatus (Reconcile rc name) [] (fun _ e => pausedAt a e) (fun _ _ => False)).
  { destruct (finds_runUntil _ _ _ _ _ Hf) as (h & e & H1 & _ & H2). by exists h, e. }
  eapply finds_bind with (R := fun _ _ => False); [|done].
  apply (finds_event _ _ (AGetAction name)); [done|]. rewrite Hget. cbv beta iota. apply (finds_event _ _ (AGate (EForget name))); [done|].
  unfold reconcileRead. eapply finds_bind; [by apply (finds_sync _ _ a robots)|]. intros h1 x (l & rv & held & ->). cbv beta iota.
  set (b := withVersion a rv held). assert (Hph : ac_Phase b = ac_Phase a) by done.
  change (ac_Deleted b) with (ac_Deleted a). rewrite Hlive, Hph.
  assert (Hrun : (ac_Phase a =s ActionPhaseSucceeded) || (ac_Phase a =s ActionPhaseCancelled) = false /\ (ac_Phase a =s ActionPhaseFailed) = false /\
    (ac_Phase a =s ActionPhasePaused) = false /\ unscheduled (ac_Phase a) = false /\ boundPhase (ac_Phase a) = true).
  { destruct Hphase as [->|[-> _]]; done. }
  destruct Hrun as (E1 & E2 & E3 & E4 & E5). rewrite E1, E2. cbv zeta. eapply finds_bind with (R := fun _ _ => True); [by apply finds_timings|].
  intros h2 [[ld rn] sk] _. change (cancelRequest b) with (cancelRequest a). rewrite Hcancel. unfold reconcileRequest.
  change (ac_Annotations b) with (ac_Annotations a). rewrite Hrequeue, Hph, E3. cbn [andb]. unfold reconcileLive. rewrite Hph, E4. cbv zeta.
  eapply finds_bind with (R := fun _ _ => True); [by apply finds_now|]. intros h3 now _. rewrite E5.
  change (ac_Robot b) with (ac_Robot a). rewrite (proj2 (eqb_s_false _ _) Hbound). cbn [andb]. apply (finds_bound rc oracle _ a b o); done.
Qed.
