(* ===== verification/ActionScenario.v ===== *)
(** Concrete passes of the FleetAction controller, run against fixed answers of the outside world: each
    shows that what a theorem of ActionTheorems speaks of happens. *)

From S2P Require Import Prelude.
From S2P Require Import Types.
From S2P Require Import Contract.
From S2P Require Import Conc.
From S2P Require Import Along.
From S2P Require Import EstopScope.
From S2P Require Import Command.
From S2P Require Import ExecutorGuard.
From S2P Require Import FencingStore.
From S2P Require Import Scheduler.
From S2P Require Import Tde.
From S2P Require Import ExecutorGate.
From S2P Require Import SafetyData.
From S2P Require Import ActionData.
From S2P Require Import ActionController.
From S2P Require Import ActionTable.
From S2P Require Import ActionTheorems.

(** ** Worlds *)

Record ExWorld := mkExWorld {
  ew_actions : list Action;
  ew_robots : list RobotObject;
  ew_now : Time;
  ew_config : option ActionConfig;
  ew_reserved : ReservationResult
}.

Definition exFind {A : Type} (nameOf : A -> string) (l : list A) (n : string) : result readError A :=
  match List.find (fun x => (nameOf x =s n) && (n <>s "")) l with Some x => Ok x | None => Err NotFound end.

Definition exGateAnswer (w : ExWorld) (e : GateEv) : gateResp e :=
  match e with
  | ELiveGet n | EGet n => exFind (fun o => r_Name (ob_Robot o)) (ew_robots w) n
  | EZones => Some [exDock false]
  | EConfigs => Some []
  | ECancel _ _ => Ok (mkCancelActionOutcome true false "" CancelStoppedSafely)
  | EPatch _ _ _ => None
  | ELiveGetAction n => match exFind ac_Name (ew_actions w) n with Ok _ => None | Err e => Some e end
  | ELiveList => Some (ew_robots w)
  | ENow => ew_now w
  | ESince _ now => now
  | EForget _ => tt
  | EScheduling => None
  end.

Definition exAnswer (w : ExWorld) (h : list AObs) (e : ActEv) : actResp e :=
  match e with
  | AGate e => exGateAnswer w e
  | AGetAction n | ALiveGetAction n => exFind ac_Name (ew_actions w) n
  | AListRobots => Some (ew_robots w)
  | AConfig => ew_config w
  | ANamespace => Ok false
  | AStatus _ _ | AFinalizer _ _ => Ok 9
  | AMeta base _ => Ok base
  | ARobotMerge _ _ => None
  | AFilter _ robots => mkFiltered robots [] [] None
  | ASensorGate _ _ => None
  | ATally _ _ _ => mkTally "" ""
  | ADeclined _ => ∅
  | AValidate _ _ _ _ => Ok (mkValidateOutcome true false "")
  | AReserve _ _ _ _ => (false, ew_reserved w)
  | AMint _ => Ok 5
  | AAssign _ _ => Ok (mkAssignActionOutcome true "" 5 "" [])
  | ARenew _ _ _ _ => Ok (mkRenewLeaseOutcome true true 5 "")
  | AErrorText => ""
  | AAuthorize _ | AFirstTokenless _ _ => true
  | _ => tt
  end.

Lemma exFind_named {A : Type} (nameOf : A -> string) l n :
  match exFind nameOf l n with Ok x => nameOf x = n /\ n <> "" | Err _ => True end.
Proof.
  unfold exFind. destruct (List.find _ l) eqn:E; [|done]. apply List.find_some in E as [_ [E1 E2]%andb_true_iff]. by str_bool.
Qed.

Lemma exAnswer_answered w h e : actAnswered e (exAnswer w h e).
Proof.
  destruct e as [ge|n|n| | | | | | | | | | | | | | | | | | | | | | | | |]; try done.
  - destruct ge; try done; simpl; apply (exFind_named (fun o => r_Name (ob_Robot o))).
  - simpl. pose proof (exFind_named ac_Name (ew_actions w) n) as H. by destruct (exFind _ _ _); [destruct H|].
  - simpl. pose proof (exFind_named ac_Name (ew_actions w) n) as H. by destruct (exFind _ _ _); [destruct H|].
  - simpl. by intros x.
Qed.

(** A pass over the action haul that comes to an event of which [stop] holds. *)
Lemma exPass rc w stop h e : runUntil (exAnswer w) (fun _ => stop) (Reconcile rc "haul") [] = Some (h, e) -> passComesTo rc "haul" h e.
Proof. apply runUntil_reaches. apply exAnswer_answered. Qed.

(** ** Objects *)

Definition exReconciler (tde : bool) : Reconciler := mkReconciler true true tde true true (fun _ => "t").

Definition exSpec : FleetActionSpec := mkFleetActionSpec "haul" None "" [] ∅ None "" "" "Active".

Definition exStatus (phase : ActionPhase) (robot : string) (lease : option Time) (cs : list Condition) : ActionStatus :=
  mkActionStatus phase robot 3 lease None None None "" 0 None None None None "" 0 "" "" cs.

Definition exAction (name : string) (priority : ActionPriority) (anns : gmap string string) (s : ActionStatus) : Action :=
  mkAction 4 name "ns" "u-haul" anns false (10 * Second) false exSpec "dock" priority None None "" None "" None s.

Definition exRobot (phase : RobotPhase) (estop : RobotEstopState) (action : string) : RobotObject :=
  mkRobotObject 7 (mkRobot "amr-1" "ns" "u1" ∅ None "dock" "" phase "dock" None [] [] [] "ad" estop []) action.

Definition exGrant (ids : list string) : ReservationResult :=
  mkReservationResult (if decide (ids = []) then Granted else PreemptedGranted) 0 "" 0 ids.

Definition exWorld (actions : list Action) (robots : list RobotObject) (now : Time) : ExWorld :=
  mkExWorld actions robots now (Some (mkActionConfig false None None 0 0 0 "Reassign" None)) (exGrant []).

(** The first status write of a pass, when it is one of which [chk] holds. *)
Definition firstStatus (rc : Reconciler) (w : ExWorld) (chk : Action -> Action -> bool) : bool :=
  match runUntil (exAnswer w) (fun _ => isStatus) (Reconcile rc "haul") [] with Some (_, AStatus b n) => chk b n | _ => false end.

Lemma exStatusPass rc w chk : firstStatus rc w chk = true -> exists h b n, passComesTo rc "haul" h (AStatus b n) /\ chk b n = true.
Proof.
  unfold firstStatus. destruct (runUntil _ _ _ _) as [[h e]|] eqn:E; [|done]. destruct e; try done. intros Hc. exists h, base, action.
  split; [by eapply exPass|done].
Qed.

Definition exPending (priority : ActionPriority) : Action := exAction "haul" priority ∅ (exStatus ActionPhasePending "" None []).
Definition exIdle : RobotObject := exRobot RobotPhaseIdle RobotEstopNormal "".

(** A Pending action and an idle robot. *)
Definition exDispatch : ExWorld := exWorld [exPending ActionPriorityNormal] [exIdle] (50 * Second).

(** A Succeeded action whose lease a clear holds. *)
Definition exSucceeded : ExWorld :=
  exWorld [exAction "haul" ActionPriorityNormal ∅
             (exStatus ActionPhaseSucceeded "" (Some (10 * Second)) [mkCondition conditionRenewalHeld true reasonStopClearedBeforePause ""])]
    [exIdle] (500 * Second).

(** A Paused action of which a requeue is asked. *)
Definition exRequeued : ExWorld :=
  exWorld [exAction "haul" ActionPriorityNormal {[annRequeueRequested := "true"]} (exStatus ActionPhasePaused "" None [])] [exIdle] (50 * Second).

(** A Revoking action whose lease ended at 10 seconds. *)
Definition exLost : ExWorld :=
  exWorld [exAction "haul" ActionPriorityNormal ∅ (exStatus ActionPhaseRevoking "amr-1" (Some (10 * Second)) [])]
    [exRobot RobotPhaseOffline RobotEstopNormal "haul"] (500 * Second).

(** An urgent action whose slot displaces the action old. *)
Definition exUrgent : ExWorld :=
  mkExWorld [exPending ActionPriorityHigh; exAction "old" ActionPriorityLow ∅ (exStatus ActionPhaseInProgress "amr-1" (Some (40 * Second)) [])]
    [exIdle] (50 * Second) None (exGrant ["old"]).

(** An action in progress. *)
Definition exRunning (estop : RobotEstopState) : ExWorld :=
  exWorld [exAction "haul" ActionPriorityNormal ∅ (exStatus ActionPhaseInProgress "amr-1" (Some (40 * Second)) [])]
    [exRobot RobotPhaseInProgress estop "haul"] (50 * Second).

(** ** Witnesses *)

Lemma status_writes_follow_table_witness : exists h b n, row h true b n /\ ac_Phase n = ActionPhaseAssigned.
Proof.
  destruct (exStatusPass (exReconciler true) exDispatch (fun _ n => ac_Phase n =s ActionPhaseAssigned) ltac:(vm_compute; reflexivity))
    as (h & b & n & Hp & Hc). exists h, b, n. split; [|by apply eqb_s_true].
  exact (proj2 (proj2 (proj2 (status_writes_follow_table (exReconciler true) "haul" h b n Hp)))).
Defined.

Lemma terminal_phases_kept_witness : exists b n, ac_Phase b = ActionPhaseSucceeded /\
  (moved b n (ac_Phase b) (ac_Robot b) (ac_Lease b) \/ moved b n (ac_Phase b) (ac_Robot b) None).
Proof.
  destruct (exStatusPass (exReconciler true) exSucceeded (fun b _ => ac_Phase b =s ActionPhaseSucceeded) ltac:(vm_compute; reflexivity))
    as (h & b & n & Hp & Hc). apply eqb_s_true in Hc. exists b, n. split; [done|].
  exact (terminal_phases_kept (exReconciler true) "haul" h b n Hp (or_introl Hc)).
Defined.

Lemma paused_left_on_request_witness : exists h b n, (requeueAsked b \/ cancelAsked b) /\
  (ac_Robot b = "" \/ stopProof h b (ac_Robot b) \/ ac_Phase n = ActionPhaseFailed /\ ac_Robot n = ac_Robot b).
Proof.
  destruct (exStatusPass (exReconciler true) exRequeued (fun b n => (ac_Phase b =s ActionPhasePaused) && (ac_Phase n <>s ActionPhasePaused))
    ltac:(vm_compute; reflexivity)) as (h & b & n & Hp & [H1 H2]%andb_true_iff). str_bool. exists h, b, n.
  exact (paused_left_on_request (exReconciler true) "haul" h b n Hp H1 H2).
Defined.

Lemma revoked_work_held_under_stop_witness : exists h b, noStopHolds h b.
Proof.
  destruct (exStatusPass (exReconciler true) exLost (fun b n => (ac_Phase b =s ActionPhaseRevoking) && (ac_Phase n <>s ac_Phase b) &&
    negb (has (ac_Annotations b) annRequeueRequested) && negb (has (ac_Annotations b) annCancelRequested) && (ac_Desired b <>s DesiredStateCancelled))
    ltac:(vm_compute; reflexivity)) as (h & b & n & Hp & Hc).
  apply andb_true_iff in Hc as [[[[H1 H2]%andb_true_iff H3]%andb_true_iff H4]%andb_true_iff H5]. apply negb_true_iff in H3, H4. str_bool. exists h, b.
  apply (revoked_work_held_under_stop (exReconciler true) "haul" h b n Hp (or_introl H1) H2); [unfold requeueAsked|unfold cancelAsked]; rewrite ?H3, ?H4; naive_solver.
Defined.

Lemma binding_dropped_with_proof_witness : exists h b n, ac_Robot b = "amr-1" /\ ac_Robot n = "" /\
  (mayRelease h b (ac_Robot b) \/
   ac_Lease b = None /\ Seen (AGate (ELiveGet (ac_Robot b))) (Err NotFound) ∈ h \/
   ac_Phase b = ActionPhaseAssigned /\ (exists rv o e, Seen (AGate (EPatch (ac_Robot b) rv o)) (Some e) ∈ h) \/
   ac_Phase b = ActionPhaseAssigned /\ (ac_Desired b = DesiredStatePaused \/ ac_Desired b = DesiredStateReturning) /\ ac_Phase n = ActionPhasePaused \/
   unscheduled (ac_Phase b) = true /\ gatePassed h b /\ ac_Phase n = ActionPhaseAssigned).
Proof.
  destruct (exStatusPass (exReconciler true) exLost (fun b n => (ac_Robot b =s "amr-1") && (ac_Robot n =s "")) ltac:(vm_compute; reflexivity))
    as (h & b & n & Hp & [H1 H2]%andb_true_iff). str_bool. exists h, b, n. split_and!; [done|done|].
  apply (binding_dropped_with_proof (exReconciler true) "haul" h b n Hp); rewrite ?H1, ?H2; done.
Defined.

Lemma generation_changes_by_mint_witness : exists (h : list AObs) (b n m : Action), Seen (AMint m) (Ok (generationOf n)) ∈ h /\ ac_Name m = ac_Name b.
Proof.
  destruct (exStatusPass (exReconciler true) exDispatch (fun b n => negb (generationOf n =? generationOf b)) ltac:(vm_compute; reflexivity))
    as (h & b & n & Hp & Hc). apply negb_true_iff, Z.eqb_neq in Hc.
  destruct (generation_changes_by_mint (exReconciler true) "haul" h b n Hp Hc) as (_ & _ & m & Hm). by exists h, b, n, m.
Defined.

Lemma held_lease_not_advanced_witness : exists b n, leaseStampHeld b = true /\
  (ac_Lease n = ac_Lease b \/ ac_Lease n = None \/ unscheduled (ac_Phase b) = true /\ ac_Phase n = ActionPhaseAssigned /\ leaseStampHeld n = false).
Proof.
  destruct (exStatusPass (exReconciler true) exSucceeded (fun b _ => leaseStampHeld b && isSome (ac_Lease b)) ltac:(vm_compute; reflexivity))
    as (h & b & n & Hp & [H1 H2]%andb_true_iff). exists b, n. split; [done|].
  apply (held_lease_not_advanced (exReconciler true) "haul" h b n Hp H1). by destruct (ac_Lease b).
Defined.

Lemma preempted_only_uncovered_witness : exists h b, ac_Name b = "old" /\
  running (ac_Phase b) /\ isPreemptible (ac_Priority b) = true /\ uncovered h (ac_Robot b).
Proof.
  destruct (exStatusPass (exReconciler true) exUrgent
    (fun b n => (ac_Name b =s "old") && (ac_Phase n =s ActionPhasePreempted) && (ac_Phase b <>s ActionPhasePreempted)) ltac:(vm_compute; reflexivity))
    as (h & b & n & Hp & [[H1 H2]%andb_true_iff H3]%andb_true_iff). str_bool. exists h, b. split; [done|].
  exact (preempted_only_uncovered (exReconciler true) "haul" h b n Hp H2 H3).
Defined.

(** The pass comes to an event of a given kind. *)
Lemma exEventPass rc w stop : (match runUntil (exAnswer w) (fun _ => stop) (Reconcile rc "haul") [] with Some (_, e) => stop e | None => false end) = true ->
  exists h e, passComesTo rc "haul" h e /\ stop e = true.
Proof. destruct (runUntil _ _ _ _) as [[h e]|] eqn:E; [|done]. intros Hs. exists h, e. split; [by eapply exPass|done]. Qed.

Lemma assigned_only_after_commit_witness : exists h b robot c, gatePassed h b /\ aa_FencingToken c = 5 /\ robot = "amr-1".
Proof.
  destruct (exEventPass (exReconciler true) exDispatch (fun e => match e with AAssign r c => (r =s "amr-1") && (aa_FencingToken c =? 5) | _ => false end)
    ltac:(vm_compute; reflexivity)) as (h & e & Hp & Hc). destruct e; try done. apply andb_true_iff in Hc as [H1 H2%Z.eqb_eq]. str_bool.
  destruct (assigned_only_after_commit (exReconciler true) "haul" h _ _ Hp) as (b & n & rv & m & o & orv & _ & _ & _ & _ & _ & Hg & _).
  by exists h, b, robot, a.
Defined.

Lemma renewed_only_when_free_to_run_witness : exists (h : list AObs) (o : RobotObject), Seen (AGate (EGet "amr-1")) (Ok o) ∈ h /\ ob_AssignedAction o = "haul" /\
  estopHoldsWork (ob_Robot o) = false.
Proof.
  destruct (exEventPass (exReconciler true) (exRunning RobotEstopNormal)
    (fun e => match e with ARenew r a _ _ => (r =s "amr-1") && (a =s "haul") | _ => false end) ltac:(vm_compute; reflexivity)) as (h & e & Hp & Hc).
  destruct e as [| | | | | | | | | | | | | | | | | | | | | |robot action gen duration| | | | |]; try done. apply andb_true_iff in Hc as [H1 H2]. str_bool. subst.
  destruct (renewed_only_when_free_to_run (exReconciler true) "haul" h "amr-1" "haul" gen duration Hp) as (b & n & rv & o & _ & _ & _ & _ & _ & H3 & H4 & H5 & _).
  by exists h, o.
Defined.

Lemma robot_record_changes_with_proof_witness : exists (h : list AObs) o, o = taken exIdle "haul" /\
  ((exists x a, Seen (AGate (EGet "amr-1")) (Ok x) ∈ h /\ ob_rv x = 7 /\ ob_AssignedAction x = a /\ o = released x /\
      ((exists b, ac_Name b = a /\ mayRelease h b "amr-1") \/ (exists g move now skew, ga_Name g = a /\ provedOff g move now skew (gates h) "amr-1"))) \/
   (exists x a gen, r_Name (ob_Robot x) = "amr-1" /\ ob_rv x = 7 /\ o = taken x a /\ committed h a "amr-1" gen)).
Proof.
  set (stop := fun e => match e with AGate (EPatch _ _ _) => true | _ => false end).
  destruct (runUntil (exAnswer exDispatch) (fun _ => stop) (Reconcile (exReconciler true) "haul") []) as [[h e]|] eqn:E; [|vm_compute in E; discriminate E].
  assert (He : e = AGate (EPatch "amr-1" 7 (taken exIdle "haul"))).
  { assert (H : option_map snd (Some (h, e)) = Some (AGate (EPatch "amr-1" 7 (taken exIdle "haul")))) by (rewrite <- E; vm_compute; reflexivity). by injection H. }
  apply exPass in E. subst e. exists h, (taken exIdle "haul"). split; [done|].
  exact (robot_record_changes_with_proof (exReconciler true) "haul" h (AGate (EPatch "amr-1" 7 (taken exIdle "haul"))) E).
Defined.

Lemma stopped_work_is_paused_witness : exists h e,
  runUntil (exAnswer (exRunning RobotEstopStopped)) (fun _ => isStatus) (Reconcile (exReconciler false) "haul") [] = Some (h, e) /\
  pausedAt (exAction "haul" ActionPriorityNormal ∅ (exStatus ActionPhaseInProgress "amr-1" (Some (40 * Second)) [])) e.
Proof.
  apply (stopped_work_is_paused (exReconciler false) "haul" (exAnswer (exRunning RobotEstopStopped)) _
    [exRobot RobotPhaseInProgress RobotEstopStopped "haul"] (exRobot RobotPhaseInProgress RobotEstopStopped "haul")); try done.
  - intros h hold. by exists 9.
  - by left.
  - intros ro Hro%list_elem_of_singleton _. by subst ro.
Defined.
