(* ===== verification/ActionReports.v ===== *)
(** src/internal/controller/actionstatus_ingestor.go and actionstatus_retained.go: what a robot's report of
    an action's state does to the FleetAction, for a live report and for an outcome an adapter retained
    over a reconnect, as programs over the calls of ActionController. The ingestor is the one
    NewActionStatusIngestor builds, which has an API reader. Logs are left out. *)

From S2P Require Import Prelude.
From S2P Require Import Types.
From S2P Require Import Conc.
From S2P Require Import EstopScope.
From S2P Require Import RobotId.
From S2P Require Import Command.
From S2P Require Import ExecutorGuard.
From S2P Require Import ExecutorGate.
From S2P Require Import ActionData.
From S2P Require Import ActionController.

(** ** Reports (ActionStatusUpdate of the adapter protocol) *)

Inductive ActionState :=
| ACTION_STATE_UNSPECIFIED | ACTION_STATE_RUNNING | ACTION_STATE_SUCCEEDED | ACTION_STATE_FAILED | ACTION_STATE_PAUSED
| ACTION_STATE_CANCELLED | ACTION_STATE_STOPPED | ACTION_STATE_UNKNOWN.

Inductive ActionEndCause :=
| ACTION_END_CAUSE_UNSPECIFIED | ACTION_END_CAUSE_SUPERSEDED | ACTION_END_CAUSE_CANCELLED_BY_OPERATOR
| ACTION_END_CAUSE_CAPABILITY_LOSS | ACTION_END_CAUSE_LEASE_EXPIRED | ACTION_END_CAUSE_ESTOP | ACTION_END_CAUSE_EXECUTION_FAILURE.

Record Report := mkReport {
  rp_ActionId : string;
  rp_State : ActionState;
  rp_Message : string;
  rp_FencingToken : option Z;                    (* uint64 *)
  rp_ProgressPct : Z;                            (* int32 *)
  rp_EndCause : ActionEndCause;
  rp_SupersedingActionId : string
}.

(** What a stream brings with its report: the adapter it is, its connection, and whether it has a
    per-robot check. *)
Record Stream := mkStream { sm_Adapter : string; sm_Conn : string; sm_Authorize : bool }.

Record Ingestor := mkIngestor { ig_Recorder : bool; ig_Audit : bool }.

(** [None]: NewActionStatusIngestor refuses to build one without an API reader. *)
Definition NewActionStatusIngestor (apiReader recorder auditor : bool) : option Ingestor :=
  if apiReader then Some (mkIngestor recorder auditor) else None.

Definition EventActionFailedUnderEstop : string := "ActionFailedUnderEstop".
Definition EventActionReportRefused : string := "ActionReportRefused".
Definition EventActionReportNotApplied : string := "ActionReportNotApplied".
Definition EventAdapterOmitsFencingToken : string := "AdapterOmitsFencingToken".
Definition EventActionSupersessionRefused : string := "ActionSupersessionRefused".
Definition EventActionSupersededInPlace : string := "ActionSupersededInPlace".

(** ** Pure rules *)

Definition isTerminalReport (st : ActionState) : bool :=
  match st with ACTION_STATE_SUCCEEDED | ACTION_STATE_FAILED | ACTION_STATE_CANCELLED => true | _ => false end.

Definition reportedPhase (st : ActionState) : ActionPhase :=
  match st with
  | ACTION_STATE_SUCCEEDED => ActionPhaseSucceeded
  | ACTION_STATE_FAILED => ActionPhaseFailed
  | ACTION_STATE_CANCELLED => ActionPhaseCancelled
  | _ => ""
  end.

Definition clampPct (p : Z) : Z := if p <? 0 then 0 else if 100 <? p then 100 else p.

Definition refusedRunningRecordsStart (action : Action) (u : Report) : bool :=
  match rp_State u with
  | ACTION_STATE_RUNNING =>
      if isSome (as_StartedAt (ac_Status action)) || (ac_Robot action =s "") then false
      else if (ac_Phase action =s ActionPhasePaused) || (ac_Phase action =s ActionPhasePreempted) || (ac_Phase action =s ActionPhaseRevoking)
      then true
      else (ac_Phase action =s ActionPhaseFailed) && (as_FailureReason (ac_Status action) =s reasonStopUnconfirmed)
  | _ => false
  end.

(** connMemory.first: whether the connection is one the adapter was not yet warned about, and the memory then. *)
Definition connFirst (seen : gmap string string) (adapter conn : string) : bool * gmap string string :=
  if decide (seen !! adapter = Some conn) then (false, seen) else (true, <[adapter := conn]> seen).

Definition failedUnderStopMessage (reason : string) (stops : list string) : string :=
  "paused by estop — the robot reported the action failed while the emergency stop of " +:+ commaJoin stops +:+ " " +:+
  "covered it (" +:+ Quote reason +:+ "): a stop outcome, not a failure, so it is not retried; an operator resume, a cancel, or a " +:+
  "requeue by a holder of estop-clear on that stop is required".

Definition estopEndCauseMessage : string :=
  "paused by estop — the robot's retained outcome says an emergency stop ended the " +:+
  "action (ACTION_END_CAUSE_ESTOP), and the control plane records no stop over the robot: a stop outcome, " +:+
  "not a failure, so it is not retried; an operator resume, a cancel, or a requeue is required".

Definition liveEstopEndCauseMessage : string :=
  "paused by estop — the robot reported that an emergency stop ended the action " +:+
  "(ACTION_END_CAUSE_ESTOP), and the control plane records no stop over the robot: a stop outcome, " +:+
  "not a failure, so it is not retried; an operator resume, a cancel, or a requeue is required".

(** The message of a report, kept when it has none. *)
Definition saying (u : Report) (s : ActionStatus) : ActionStatus := if rp_Message u =s "" then s else putMessage (rp_Message u) s.

Definition startedBy (now : Time) (s : ActionStatus) : ActionStatus :=
  match as_StartedAt s with None => putStartedAt (Some now) s | Some _ => s end.

Definition failureReasonOf (u : Report) : string := if rp_Message u =s "" then "robot reported action failure" else rp_Message u.

(** The status a SUCCEEDED, and a FAILED under no stop, leaves. *)
Definition reportedSucceeded (u : Report) (now : Time) (s : ActionStatus) : ActionStatus :=
  saying u (startedBy now (putProgressPct 100 (putCompletionTime (Some now) (putCompletedAt (Some now) (putPhase ActionPhaseSucceeded s))))).

Definition reportedFailed (u : Report) (now : Time) (s : ActionStatus) : ActionStatus :=
  saying u (putFailureReason (failureReasonOf u) (putCompletionTime (Some now) (putFailedAt (Some now) (putPhase ActionPhaseFailed s)))).

Definition reportedRunning (u : Report) (now : Time) (s : ActionStatus) : ActionStatus :=
  saying u (putProgressPct (clampPct (rp_ProgressPct u)) (startedBy now (putPhase ActionPhaseInProgress s))).

(** RUNNING: nothing the report says is new. *)
Definition sameProgress (action : Action) (u : Report) : bool :=
  (ac_Phase action =s ActionPhaseInProgress) && isSome (as_StartedAt (ac_Status action)) &&
  (as_ProgressPct (ac_Status action) =? clampPct (rp_ProgressPct u)) &&
  ((rp_Message u =s "") || (rp_Message u =s ac_Message action)).

Definition reportedSuperseded (by_ : string) (now : Time) (s : ActionStatus) : ActionStatus :=
  let msg := "superseded in place by directive " +:+ by_ in
  putConditions (setCondition (mkCondition ConditionSuperseded true ConditionReasonInPlacePreemption msg) (as_Conditions s))
    (putMessage msg (putSupersededBy by_ (putCancellationReason CancellationReasonSupersededByDirective
      (putCompletionTime (Some now) (putCompletedAt (Some now) (putPhase ActionPhaseCancelled s)))))).

(** The token names the action's own generation. *)
Definition tokenMatches (action : Action) (token : Z) : bool :=
  let '(gen, representable) := GenerationFromToken token in
  representable && (gen =? as_AssignmentGeneration (ac_Status action)).

Definition liveWork (p : ActionPhase) : bool := (p =s ActionPhaseAssigned) || (p =s ActionPhaseInProgress).

(** ** Operations *)

Section Reports.
Context (ig : Ingestor) (stream : Stream) (u : Report).

Definition note (reason : string) : P unit := when (ig_Recorder ig) (trigger (AEvent reason)).

(** A Warning Event on the action, and on its task: told by its reason. *)
Definition recordReportRefused (on : bool) : P unit :=
  when (isTerminalReport (rp_State u) && on) (note EventActionReportRefused).

Definition recordReportNotApplied (action : Action) : P unit :=
  when (isTerminalReport (rp_State u) && (ac_Phase action <>s reportedPhase (rp_State u))) (note EventActionReportNotApplied).

Definition refuseTokenless (namespace : string) : P unit :=
  if negb (ig_Recorder ig) then Ret tt
  else
    let* first := if isTerminalReport (rp_State u) then Ret true
                  else trigger (AFirstTokenless (namespace +:+ "/" +:+ sm_Adapter stream) (sm_Conn stream)) in
    when first (trigger (AEvent EventAdapterOmitsFencingToken)).

Definition recordSupersededInPlace : P unit :=
  let* _ := note EventActionSupersededInPlace in when (ig_Audit ig) (trigger (AAudit "FLEETACTION_SUPERSEDED" "")).

Definition recordSupersessionRefused : P unit :=
  let* _ := note EventActionSupersessionRefused in when (ig_Audit ig) (trigger (AAudit "FLEETACTION_SUPERSEDED" "")).

Definition recordPausedByEstop (prior : ActionPhase) : P unit :=
  when (ig_Audit ig) (trigger (AAudit "ACTION_PAUSED_BY_ESTOP" prior)).

Definition streamServesAssignedRobot (action : Action) : P bool :=
  if negb (sm_Authorize stream) then Ret false
  else
    let* robot := getRobot (ac_Robot action) in
    match robot with
    | Err _ => Ret false
    | Ok robot => trigger (AAuthorize (Wire (ob_Robot robot)))
    end.

Definition stopsOver (action : Action) : P (result actError (list string)) :=
  let* robot := liveRobot (ac_Robot action) in
  match robot with
  | Err NotFound => Ret (Ok [])
  | Err Unread => Ret (Err (AReadError "robot"))
  | Ok robot => stopNames (ob_Robot robot)
  end.

(** Whether the claim that [by_] superseded the action holds. *)
Definition verifySupersession (action : Action) (by_ : string) : P (result actError bool) :=
  if (by_ =s ac_Name action) || (ac_Robot action =s "") then Ret (Ok false)
  else
    let* successor := trigger (AGetAction by_) in
    match successor with
    | Err NotFound => Ret (Ok false)
    | Err Unread => Ret (Err (AReadError "superseding action"))
    | Ok s => Ret (Ok (liveWork (ac_Phase s) && (ac_Robot s =s ac_Robot action)))
    end.

(** A write of the report, with the action it was decided on when it fails. *)
Definition writeReport (action : Action) (s : ActionStatus) : P (result actError Action) :=
  patchActionStatus (setStatusOf action s) action.

(** The pause of a failure that is a stop's outcome. *)
Definition stopOutcome (action : Action) (stops : list string) (noStop : string) (s : ActionStatus) : ActionStatus :=
  putMessage (match stops with [] => noStop | _ => failedUnderStopMessage (failureReasonOf u) stops end) (putPhase ActionPhasePaused s).

Definition pausedUnder (action : Action) : P unit :=
  let* _ := note EventActionFailedUnderEstop in recordPausedByEstop (ac_Phase action).

Definition byEstop : bool := match rp_EndCause u with ACTION_END_CAUSE_ESTOP => true | _ => false end.

(** What FAILED writes: the status, and whether it is a stop's outcome. *)
Definition failedStatus (action : Action) (noStop : string) (s : ActionStatus) : P (result actError (ActionStatus * bool)) :=
  let*? stops := stopsOver action in
  if StopOutcome stops || byEstop then Ret (Ok (stopOutcome action stops noStop s, true))
  else let* now := getNow in Ret (Ok (reportedFailed u now s, false)).

(** The end of a report: the action it was decided on, and the error of its write. *)
Definition Decided : Type := Action * option actError.

(** A write, then what follows it. *)
Definition settle (action : Action) (s : ActionStatus) (k : P unit) : P Decided :=
  let* r := writeReport action s in
  match r with
  | Err e => Ret (action, Some e)
  | Ok a => let* _ := k in Ret (a, None)
  end.

(** The state's own part of ingestOnce, on work that is Assigned or InProgress, from a stream that serves
    its robot, under its own generation. *)
Definition applyReport (action : Action) : P Decided :=
  let unchanged := Ret (action, None) in
  match rp_State u with
  | ACTION_STATE_RUNNING =>
      if sameProgress action u then unchanged
      else
        let* now := match as_StartedAt (ac_Status action) with None => getNow | Some t => Ret t end in
        settle action (reportedRunning u now (ac_Status action)) (Ret tt)
  | ACTION_STATE_SUCCEEDED =>
      let* now := getNow in
      settle action (reportedSucceeded u now (ac_Status action)) (Ret tt)
  | ACTION_STATE_FAILED =>
      let* r := failedStatus action liveEstopEndCauseMessage (ac_Status action) in
      match r with
      | Err e => Ret (action, Some e)
      | Ok (s, stopped) => settle action s (when stopped (pausedUnder action))
      end
  | ACTION_STATE_CANCELLED =>
      match rp_EndCause u with
      | ACTION_END_CAUSE_SUPERSEDED =>
          let by_ := rp_SupersedingActionId u in
          if by_ =s "" then unchanged
          else
            let* r := verifySupersession action by_ in
            match r with
            | Err e => Ret (action, Some e)
            | Ok false => let* _ := recordSupersessionRefused in unchanged
            | Ok true =>
                let* now := getNow in
                settle action (reportedSuperseded by_ now (ac_Status action)) recordSupersededInPlace
            end
      | _ => unchanged
      end
  | _ => unchanged
  end.

(** startedAt, and nothing else. *)
Definition recordStartOnly (action : Action) : P Decided :=
  let* now := getNow in settle action (putStartedAt (Some now) (ac_Status action)) (Ret tt).

(** The checks of a report past its phase, then [k]. *)
Definition checked (action : Action) (k : P Decided) : P Decided :=
  let* serves := streamServesAssignedRobot action in
  if negb serves then let* _ := recordReportRefused false in Ret (action, None)
  else
    match rp_FencingToken u with
    | None => let* _ := refuseTokenless (ac_Namespace action) in Ret (action, None)
    | Some token =>
        if negb (tokenMatches action token) then
          let* _ := getRobot (ac_Robot action) in
          let* _ := recordReportRefused true in Ret (action, None)
        else k
    end.

Definition readAction (live : bool) (name : string) : P (result readError Action) :=
  if live then trigger (ALiveGetAction name) else trigger (AGetAction name).

(** One decision over one read; [None] for the action: there is none. *)
Definition ingestOnce (attempt : nat) : P (option Action * option actError) :=
  let* got := readAction (negb (attempt =? 1)%nat) (rp_ActionId u) in
  match got with
  | Err NotFound => Ret (None, None)
  | Err Unread => Ret (None, Some (AReadError "fleetaction"))
  | Ok action =>
      if liveWork (ac_Phase action) then let* (a, e) := checked action (applyReport action) in Ret (Some a, e)
      else if refusedRunningRecordsStart action u then let* (a, e) := checked action (recordStartOnly action) in Ret (Some a, e)
      else
        let* _ := when (negb (attempt =? 1)%nat) (recordReportNotApplied action) in
        Ret (Some action, None)
  end.

(** retry.DefaultRetry tries five times. *)
Definition DefaultRetry : nat := 5.

(** retry.RetryOnConflict: [n] tries are left; [None] for the error of a conflict that outlived them. *)
Fixpoint retryIngest (n attempt : nat) : P (option actError) :=
  match n with
  | O => Ret None
  | S n =>
      let* (action, err) := ingestOnce attempt in
      match err with
      | Some e =>
          if isConflict e then
            match n, action with
            | O, Some action => let* _ := recordReportNotApplied action in Ret None
            | O, None => Ret None
            | _, _ => retryIngest n (S attempt)
            end
          else Ret (Some e)
      | None => Ret None
      end
  end.

Definition IngestActionStatus : P (option actError) :=
  if rp_ActionId u =s "" then Ret None else retryIngest DefaultRetry 1.

(** ** Retained outcomes *)

(** The acknowledgement, with the action decided on and the error. *)
Definition Retained : Type := bool * option Action * option actError.

Definition settleRetained (action : Action) (s : ActionStatus) (k : P unit) : P Retained :=
  let* (a, e) := settle action s k in Ret (match e with None => true | Some _ => false end, Some a, e).

(** retainedOnce past its checks. *)
Definition applyRetained (action : Action) : P Retained :=
  match rp_State u with
  | ACTION_STATE_SUCCEEDED =>
      let* now := getNow in settleRetained action (reportedSucceeded u now (ac_Status action)) (Ret tt)
  | ACTION_STATE_FAILED =>
      let* r := failedStatus action estopEndCauseMessage (ac_Status action) in
      match r with
      | Err e => Ret (false, Some action, Some e)
      | Ok (s, true) => if liveWork (ac_Phase action) then settleRetained action s (pausedUnder action) else Ret (true, Some action, None)
      | Ok (s, false) => settleRetained action s (Ret tt)
      end
  | _ => let* _ := recordReportRefused false in Ret (false, Some action, None)
  end.

Definition endedPhase (p : ActionPhase) : bool :=
  (p =s ActionPhaseSucceeded) || (p =s ActionPhaseFailed) || (p =s ActionPhaseCancelled).

Definition retainedOnce : P Retained :=
  let* got := readAction true (rp_ActionId u) in
  match got with
  | Err NotFound => Ret (true, None, None)
  | Err Unread => Ret (false, None, Some (AReadError "fleetaction"))
  | Ok action =>
      let refused := Ret (false, Some action, None) in
      match rp_FencingToken u with
      | None => let* _ := refuseTokenless (ac_Namespace action) in refused
      | Some token =>
          if negb (tokenMatches action token) then
            let* on := if ac_Robot action =s "" then Ret false
                       else
                         let* serves := streamServesAssignedRobot action in
                         if serves then let* _ := getRobot (ac_Robot action) in Ret true else Ret false in
            let* _ := recordReportRefused on in refused
          else if endedPhase (ac_Phase action) then Ret (true, Some action, None)
          else if negb (boundPhase (ac_Phase action)) || (ac_Robot action =s "") then let* _ := recordReportRefused false in refused
          else
            let* serves := streamServesAssignedRobot action in
            if negb serves then let* _ := recordReportRefused false in refused else applyRetained action
      end
  end.

Fixpoint retryRetained (n : nat) : P (bool * option actError) :=
  match n with
  | O => Ret (false, None)
  | S n =>
      let* (ack, action, err) := retainedOnce in
      match err with
      | Some e =>
          if isConflict e then
            match n, action with
            | O, Some action => let* _ := recordReportNotApplied action in Ret (false, None)
            | O, None => Ret (false, None)
            | _, _ => retryRetained n
            end
          else Ret (false, Some e)
      | None => Ret (ack, None)
      end
  end.

(** Whether the outcome is acknowledged, and the error. *)
Definition IngestRetainedOutcome : P (bool * option actError) :=
  if (rp_ActionId u =s "") || negb (isTerminalReport (rp_State u)) then Ret (false, None) else retryRetained DefaultRetry.
End Reports.
