(* ===== verification/ActionReportProps.v ===== *)
(** What a robot's report may write (ActionReports), in the logic of Along: the rows of a report, the
    evidence each asks for, and that the ingestor makes no other write. *)

From S2P Require Import Prelude.
From S2P Require Import Types.
From S2P Require Import Conc.
From S2P Require Import Along.
From S2P Require Import EstopScope.
From S2P Require Import RobotId.
From S2P Require Import Command.
From S2P Require Import ExecutorGuard.
From S2P Require Import ExecutorGate.
From S2P Require Import ActionData.
From S2P Require Import ActionController.
From S2P Require Import ActionTable.
From S2P Require Import ActionProps.
From S2P Require Import ActionReports.

(** ** The rows of a report *)

Section Rows.
Context (h : list AObs) (u : Report).
Notation saw e a := (@Seen ActEv actResp e a ∈ h).

(** The stream's check admitted the robot the action is bound to, under the id the adapter knows it by. *)
Definition authorizedFor (b : Action) : Prop :=
  exists o, saw (AGate (EGet (ac_Robot b))) (Ok o) /\ saw (AAuthorize (Wire (ob_Robot o))) true.

(** The report carries the action's own generation. *)
Definition ownGeneration (b : Action) : Prop := exists t, rp_FencingToken u = Some t /\ tokenMatches b t = true.

(** A stop covers the bound robot, as read from the API server. *)
Definition coveredSeen (b : Action) : Prop :=
  exists o zs cs stops, saw (AGate (ELiveGet (ac_Robot b))) (Ok o) /\ saw (AGate EZones) (Some zs) /\ saw (AGate EConfigs) (Some cs) /\
    stopNamesOf zs cs (ob_Robot o) = Ok stops /\ stops <> [].

(** None does, or the Robot is gone. *)
Definition uncoveredSeen (b : Action) : Prop := uncovered h (ac_Robot b) \/ saw (AGate (ELiveGet (ac_Robot b))) (Err NotFound).

Inductive reportRow (b n : Action) : Prop :=
| rr_start t : rp_State u = ACTION_STATE_RUNNING -> refusedRunningRecordsStart b u = true ->
    ac_Status n = putStartedAt (Some t) (ac_Status b) -> reportRow b n
| rr_running : rp_State u = ACTION_STATE_RUNNING -> running (ac_Phase b) -> moved b n ActionPhaseInProgress (ac_Robot b) (ac_Lease b) -> reportRow b n
| rr_succeeded : rp_State u = ACTION_STATE_SUCCEEDED -> boundPhase (ac_Phase b) = true ->
    moved b n ActionPhaseSucceeded (ac_Robot b) (ac_Lease b) -> reportRow b n
| rr_paused : rp_State u = ACTION_STATE_FAILED -> running (ac_Phase b) -> coveredSeen b \/ rp_EndCause u = ACTION_END_CAUSE_ESTOP ->
    moved b n ActionPhasePaused (ac_Robot b) (ac_Lease b) -> reportRow b n
| rr_failed : rp_State u = ACTION_STATE_FAILED -> boundPhase (ac_Phase b) = true -> uncoveredSeen b -> rp_EndCause u <> ACTION_END_CAUSE_ESTOP ->
    moved b n ActionPhaseFailed (ac_Robot b) (ac_Lease b) -> reportRow b n
| rr_superseded s : rp_State u = ACTION_STATE_CANCELLED -> rp_EndCause u = ACTION_END_CAUSE_SUPERSEDED -> running (ac_Phase b) ->
    saw (AGetAction (rp_SupersedingActionId u)) (Ok s) -> running (ac_Phase s) -> ac_Robot s = ac_Robot b -> ac_Name s <> ac_Name b ->
    moved b n ActionPhaseCancelled (ac_Robot b) (ac_Lease b) -> reportRow b n.

(** The only write of a report is of its action's status. *)
Definition reportPermitted (e : ActEv) : Prop :=
  match e with
  | AStatus b n => origin h b /\ ac_Name b = rp_ActionId u /\ ac_Name n = ac_Name b /\ ac_Spec n = ac_Spec b /\
      authorizedFor b /\ ownGeneration b /\ reportRow b n
  | AGate (EPatch _ _ _) | AGate (ECancel _ _) | AFinalizer _ _ | AMeta _ _ | ARobotMerge _ _ | AMint _ | AReserve _ _ _ _ | ARelease _ _
  | AHoldSlot _ _ _ | AAssign _ _ | ARenew _ _ _ _ => False
  | _ => True
  end.
End Rows.

(** ** The ingestor *)

Section Ingest.
Context (ig : Ingestor) (stream : Stream) (u : Report).
Notation run := (along actAnswered (fun h => reportPermitted h u)).
Notation any := (fun _ _ => True).

Lemma rep_bind {A B : Type} (p : P A) (f : A -> P B) h Q R :
  run p h Q -> (forall h' a, seenMore h h' -> Q h' a -> run (f a) h' R) -> run (pbind p f) h R.
Proof. intros Hp Hf. eapply along_bind; [exact (along_grows _ _ _ _ _ Hp)|]. intros h' a [Hm HQ]. by apply Hf. Qed.

Lemma rep_true {A : Type} (p : P A) h Q : run p h Q -> run p h any.
Proof. by apply along_conseq. Qed.

Lemma rep_note r h : run (note ig r) h any.
Proof. unfold note. by destruct (ig_Recorder ig). Qed.

Lemma rep_when b p h : run p h any -> run (when b p) h any.
Proof. by destruct b. Qed.

Lemma rep_refused on h : run (recordReportRefused ig u on) h any.
Proof. apply rep_when, rep_note. Qed.

Lemma rep_notApplied a h : run (recordReportNotApplied ig u a) h any.
Proof. apply rep_when, rep_note. Qed.

Lemma rep_tokenless ns h : run (refuseTokenless ig stream u ns) h any.
Proof.
  unfold refuseTokenless. destruct (negb _); [done|]. eapply rep_bind with (Q := any); [by destruct (isTerminalReport _)|]. intros h1 [] _ _; done.
Qed.

Lemma rep_audited r h : run (let* _ := note ig r in when (ig_Audit ig) (trigger (AAudit "FLEETACTION_SUPERSEDED" ""))) h any.
Proof. eapply rep_bind; [apply rep_note|]. intros h1 _ _ _. by apply rep_when. Qed.

Lemma rep_pausedUnder a h : run (pausedUnder ig a) h any.
Proof. eapply rep_bind; [apply rep_note|]. intros h1 _ _ _. by apply rep_when. Qed.

Lemma rep_serves b h : run (streamServesAssignedRobot stream b) h (fun h' ok => ok = true -> authorizedFor h' b).
Proof.
  unfold streamServesAssignedRobot. destruct (negb _); [done|]. apply (along_event _ _ (AGate (EGet (ac_Robot b)))); [done|]. intros [o|] _; [|done].
  split; [done|]. intros [] _; [|done]. intros _. exists o. split; saw.
Qed.

Lemma rep_world h : run readWorld h (fun h' w => match w with
  | Some (zs, cs) => @Seen ActEv actResp (AGate EZones) (Some zs) ∈ h' /\ @Seen ActEv actResp (AGate EConfigs) (Some cs) ∈ h'
  | None => True end).
Proof. split; [done|]. intros [zs|] _; [|done]. split; [done|]. intros [cs|] _; [|done]. split; saw. Qed.

(** The stops over the bound robot, as read. *)
Definition stopsSeen (h : list AObs) (b : Action) (stops : list string) : Prop := match stops with [] => uncoveredSeen h b | _ => coveredSeen h b end.

Lemma rep_stopsOver b h : run (stopsOver b) h (fun h' r => match r with Ok stops => stopsSeen h' b stops | Err _ => True end).
Proof.
  unfold stopsOver. apply (along_event _ _ (AGate (ELiveGet (ac_Robot b)))); [done|]. intros [o|[]] _; [|right; apply seen_last|done].
  eapply rep_bind; [apply rep_world|]. intros h1 [[zs cs]|] Hm Hw; [|done]. destruct Hw as [H1 H2]. destruct (stopNamesOf zs cs _) as [stops|] eqn:E; [|done].
  destruct stops as [|st stops]; [left; exists o, zs, cs|exists o, zs, cs, (st :: stops)]; split_and!; try saw; done.
Qed.

(** What is known of the action a report is decided on. *)
Record decidable_ (h : list AObs) (b : Action) : Prop := mkDecidable {
  dd_origin : origin h b;
  dd_name : ac_Name b = rp_ActionId u;
  dd_authorized : authorizedFor h b;
  dd_token : ownGeneration u b
}.

Lemma authorizedFor_mono h h' b : seenMore h h' -> authorizedFor h b -> authorizedFor h' b.
Proof. intros Hm (o & H1 & H2). exists o. split; saw. Qed.

Lemma decidable_mono h h' b : seenMore h h' -> decidable_ h b -> decidable_ h' b.
Proof. intros Hm [H1 H2 H3 H4]. split; [later|done|by eapply authorizedFor_mono|done]. Qed.

Lemma rep_settle b s k h : decidable_ h b -> reportRow h u b (setStatusOf b s) -> (forall h', run k h' any) ->
  run (settle b s k) h (fun h' x => x.1 = b \/ x.2 = None /\ exists rv, @Seen ActEv actResp (AStatus b (setStatusOf b s)) (Ok rv) ∈ h').
Proof.
  intros [H1 H2 H3 H4] Hr Hk. eapply rep_bind with (Q := fun h' r => match r with Ok _ => exists rv, @Seen ActEv actResp (AStatus b (setStatusOf b s)) (Ok rv) ∈ h' | Err _ => True end).
  { apply along_event; [by split_and!|]. intros [rv|e] _; [|done]. exists rv. apply seen_last. }
  intros h1 [a|e] Hm1 Hs; [|by left]. destruct Hs as [rv Hs]. eapply rep_bind; [apply Hk|]. intros h2 _ Hm2 _. right. split; [done|]. exists rv. saw.
Qed.

Lemma rep_settle_ b s k h : decidable_ h b -> reportRow h u b (setStatusOf b s) -> (forall h', run k h' any) -> run (settle b s k) h any.
Proof. intros. by eapply rep_true, rep_settle. Qed.

(** The statuses a report writes. *)
Lemma moved_status b s p : as_Phase s = p -> as_AssignedRobot s = ac_Robot b -> as_LeaseExpiresAt s = ac_Lease b ->
  as_AssignmentGeneration s = generationOf b -> moved b (setStatusOf b s) p (ac_Robot b) (ac_Lease b).
Proof. done. Qed.

Lemma saying_kept s : as_Phase (saying u s) = as_Phase s /\ as_AssignedRobot (saying u s) = as_AssignedRobot s /\
  as_LeaseExpiresAt (saying u s) = as_LeaseExpiresAt s /\ as_AssignmentGeneration (saying u s) = as_AssignmentGeneration s.
Proof. unfold saying. by destruct (_ =s _). Qed.

Lemma started_kept now s : as_Phase (startedBy now s) = as_Phase s /\ as_AssignedRobot (startedBy now s) = as_AssignedRobot s /\
  as_LeaseExpiresAt (startedBy now s) = as_LeaseExpiresAt s /\ as_AssignmentGeneration (startedBy now s) = as_AssignmentGeneration s.
Proof. unfold startedBy. by destruct (as_StartedAt s). Qed.

Lemma succeeded_moved b now : moved b (setStatusOf b (reportedSucceeded u now (ac_Status b))) ActionPhaseSucceeded (ac_Robot b) (ac_Lease b).
Proof.
  unfold reportedSucceeded. set (s := putProgressPct _ _). destruct (saying_kept (startedBy now s)) as (S1 & S2 & S3 & S4).
  destruct (started_kept now s) as (T1 & T2 & T3 & T4). apply moved_status; [rewrite S1, T1|rewrite S2, T2|rewrite S3, T3|rewrite S4, T4]; done.
Qed.

Lemma running_moved b now : moved b (setStatusOf b (reportedRunning u now (ac_Status b))) ActionPhaseInProgress (ac_Robot b) (ac_Lease b).
Proof.
  unfold reportedRunning. set (s := putPhase _ _). destruct (saying_kept (putProgressPct (clampPct (rp_ProgressPct u)) (startedBy now s))) as (S1 & S2 & S3 & S4).
  destruct (started_kept now s) as (T1 & T2 & T3 & T4). apply moved_status; [rewrite S1|rewrite S2|rewrite S3|rewrite S4]; simpl; [rewrite T1|rewrite T2|rewrite T3|rewrite T4]; done.
Qed.

Lemma failed_moved b now : moved b (setStatusOf b (reportedFailed u now (ac_Status b))) ActionPhaseFailed (ac_Robot b) (ac_Lease b).
Proof.
  unfold reportedFailed. set (s := putFailureReason _ _). destruct (saying_kept s) as (S1 & S2 & S3 & S4). by apply moved_status; [rewrite S1|rewrite S2|rewrite S3|rewrite S4].
Qed.

Lemma liveWork_running p : liveWork p = true -> running p.
Proof. unfold liveWork. intros [E|E]%orb_true_iff; str_bool; [by left|by right]. Qed.

Lemma liveWork_bound p : liveWork p = true -> boundPhase p = true.
Proof. unfold liveWork, boundPhase. intros ->. done. Qed.

(** What a FAILED report writes. *)
Lemma rep_failedStatus b noStop h : rp_State u = ACTION_STATE_FAILED -> boundPhase (ac_Phase b) = true ->
  run (failedStatus u b noStop (ac_Status b)) h (fun h' r => match r with
    | Ok (s, true) => (coveredSeen h' b \/ rp_EndCause u = ACTION_END_CAUSE_ESTOP) /\ moved b (setStatusOf b s) ActionPhasePaused (ac_Robot b) (ac_Lease b)
    | Ok (s, false) => reportRow h' u b (setStatusOf b s)
    | Err _ => True end).
Proof.
  intros Hst Hb. unfold failedStatus. eapply rep_bind; [apply rep_stopsOver|]. intros h1 [stops|] Hm Hs; [|done]. cbn beta iota in Hs.
  destruct (StopOutcome stops || byEstop u) eqn:E.
  - split; [|done]. unfold StopOutcome in E. destruct stops as [|st stops]; [|by left]. right. unfold byEstop in E. simpl in E. by destruct (rp_EndCause u).
  - apply orb_false_iff in E as [E1 E2]. destruct stops as [|st stops]; [|done]. split; [done|]. intros now _.
    apply rr_failed; try done; [|unfold byEstop in E2; by destruct (rp_EndCause u)|apply failed_moved].
    destruct Hs as [Hs|Hs]; [left; eapply uncovered_mono; [apply seen_app|done]|right; saw].
Qed.

Lemma rep_verify b by_ h : run (verifySupersession b by_) h (fun h' r => match r with
  | Ok true => exists s, @Seen ActEv actResp (AGetAction by_) (Ok s) ∈ h' /\ running (ac_Phase s) /\ ac_Robot s = ac_Robot b /\ ac_Name s <> ac_Name b
  | _ => True end).
Proof.
  unfold verifySupersession. destruct (_ || _) eqn:E; [done|]. apply orb_false_iff in E as [E _]. str_bool.
  apply (along_event _ _ (AGetAction by_)); [done|]. intros [s|[]] Hn; [|done..]. cbn. destruct (_ && _) eqn:Es; [|done]. apply andb_true_iff in Es as [E1 E2]. str_bool.
  exists s. split_and!; [saw|by apply liveWork_running|done|]. simpl in Hn. congruence.
Qed.

Lemma rep_applyReport b h : decidable_ h b -> liveWork (ac_Phase b) = true -> run (applyReport ig u b) h any.
Proof.
  intros Hd Hl. pose proof (liveWork_running _ Hl) as Hr. pose proof (liveWork_bound _ Hl) as Hb. unfold applyReport. destruct (rp_State u) eqn:Es; try done.
  - destruct (sameProgress _ _); [done|]. eapply rep_bind with (Q := any); [by destruct (as_StartedAt _)|]. intros h1 now Hm _.
    apply rep_settle_; [by eapply decidable_mono| |done]. apply rr_running; [done|done|apply running_moved].
  - split; [done|]. intros now _. apply rep_settle_; [eapply decidable_mono; [apply seen_app|done]| |done]. apply rr_succeeded; [done|done|apply succeeded_moved].
  - eapply rep_bind; [by apply rep_failedStatus|]. intros h1 [[s []]|] Hm Hs; [| |done].
    + destruct Hs as [Hc Hmv]. apply rep_settle_; [by eapply decidable_mono| |intros; apply rep_when, rep_pausedUnder]. by apply rr_paused.
    + apply rep_settle_; [by eapply decidable_mono|done|done].
  - destruct (rp_EndCause u) eqn:Ec; try done. destruct (_ =s ""); [done|]. eapply rep_bind; [apply rep_verify|]. intros h1 [[]|] Hm Hv; [| |done].
    + destruct Hv as (s & V1 & V2 & V3 & V4). split; [done|]. intros now _. apply rep_settle_; [eapply (decidable_mono h); [more|done]| |intros; apply rep_audited].
      apply rr_superseded with (s := s); try done. saw.
    + by eapply rep_bind; [apply rep_audited|].
Qed.

Lemma rep_startOnly b h : decidable_ h b -> refusedRunningRecordsStart b u = true -> run (recordStartOnly b) h any.
Proof.
  intros Hd Hs. split; [done|]. intros now _. apply rep_settle_; [eapply decidable_mono; [apply seen_app|done]| |done].
  apply rr_start with (t := now); [|done|done]. unfold refusedRunningRecordsStart in Hs. by destruct (rp_State u).
Qed.

Lemma rep_checked b k h : origin h b -> ac_Name b = rp_ActionId u -> (forall h', seenMore h h' -> decidable_ h' b -> run k h' any) ->
  run (checked ig stream u b k) h any.
Proof.
  intros Ho Hn Hk. unfold checked. eapply rep_bind; [apply rep_serves|]. intros h1 [] Hm1 Ha; cbn [negb]; [|by eapply rep_bind; [apply rep_refused|]].
  destruct (rp_FencingToken u) as [t|] eqn:Et; [|by eapply rep_bind; [apply rep_tokenless|]]. destruct (tokenMatches b t) eqn:Em; cbn [negb].
  - apply Hk; [done|]. split; [later|done|by apply Ha|]. by exists t.
  - apply (along_event _ _ (AGate (EGet (ac_Robot b)))); [done|]. intros r _. by eapply rep_bind; [apply rep_refused|].
Qed.

Lemma rep_readAction live name h : run (readAction live name) h (fun h' r => match r with Ok a => origin h' a /\ ac_Name a = name | Err _ => True end).
Proof.
  unfold readAction. destruct live; (split; [done|]); intros [a|] Ha; try done; (split; [|exact Ha]); exists a; (split; [|done]); left; exists name; [right|left]; apply seen_last.
Qed.

Lemma rep_ingestOnce attempt h : run (ingestOnce ig stream u attempt) h any.
Proof.
  unfold ingestOnce. eapply rep_bind; [apply rep_readAction|]. intros h1 [b|[]] Hm Hb; [|done..]. destruct Hb as [Ho Hn].
  destruct (liveWork _) eqn:El; [|destruct (refusedRunningRecordsStart b u) eqn:Er].
  - eapply rep_bind; [apply rep_checked; [done|done|]; intros h' _ Hd; by apply rep_applyReport|]. by intros h2 [] _ _.
  - eapply rep_bind; [apply rep_checked; [done|done|]; intros h' _ Hd; by apply rep_startOnly|]. by intros h2 [] _ _.
  - by eapply rep_bind; [apply rep_when, rep_notApplied|].
Qed.

Lemma rep_retry n : forall attempt h, run (retryIngest ig stream u n attempt) h any.
Proof.
  induction n as [|n IH]; intros attempt h; [done|]. cbn [retryIngest]. eapply rep_bind; [apply rep_ingestOnce|]. intros h1 [action [e|]] _ _; [|done].
  destruct (isConflict e); [|done]. destruct n, action; try done; try apply IH. by eapply rep_bind; [apply rep_notApplied|].
Qed.

Lemma rep_IngestActionStatus h : run (IngestActionStatus ig stream u) h any.
Proof. unfold IngestActionStatus. destruct (_ =s _); [done|apply rep_retry]. Qed.

(** *** Retained outcomes *)

(** What an acknowledged outcome rests on: the action is gone, or the outcome is one of its own run and the
    action has ended, or the outcome was written, or it is a failure under a stop of work already held. *)
Definition retainedDecided (h : list AObs) : Prop :=
  @Seen ActEv actResp (ALiveGetAction (rp_ActionId u)) (Err NotFound) ∈ h \/
  exists b, @Seen ActEv actResp (ALiveGetAction (rp_ActionId u)) (Ok b) ∈ h /\ ownGeneration u b /\
    (endedPhase (ac_Phase b) = true \/
     (exists n rv, @Seen ActEv actResp (AStatus b n) (Ok rv) ∈ h /\ reportRow h u b n) \/
     rp_State u = ACTION_STATE_FAILED /\ liveWork (ac_Phase b) = false /\ (coveredSeen h b \/ rp_EndCause u = ACTION_END_CAUSE_ESTOP)).

Definition acked (h : list AObs) (x : Retained) : Prop := x.1.1 = true -> x.2 = None -> retainedDecided h.

Lemma coveredSeen_mono h h' b : seenMore h h' -> coveredSeen h b -> coveredSeen h' b.
Proof. intros Hm (o & zs & cs & st & H1 & H2 & H3 & H4). exists o, zs, cs, st. split_and!; try saw; apply H4. Qed.

Lemma reportRow_mono h h' b n : seenMore h h' -> reportRow h u b n -> reportRow h' u b n.
Proof.
  intros Hm Hr. destruct Hr as [| | |H1 H2 H3 H4|H1 H2 H3 H4 H5|s H1 H2 H3 H4 H5 H6 H7 H8];
    [by eapply rr_start|by apply rr_running|by apply rr_succeeded|apply rr_paused|apply rr_failed|apply rr_superseded with (s := s)]; try done.
  - destruct H3 as [H3|H3]; [left; by eapply coveredSeen_mono|by right].
  - destruct H3 as [H3|H3]; [left; later|right; saw].
  - saw.
Qed.

Lemma rep_settleRetained b s k h : decidable_ h b -> @Seen ActEv actResp (ALiveGetAction (rp_ActionId u)) (Ok b) ∈ h ->
  reportRow h u b (setStatusOf b s) -> (forall h', run k h' any) -> run (settleRetained b s k) h acked.
Proof.
  intros Hd Hs Hr Hk. unfold settleRetained. eapply rep_bind with (Q := fun h' x => x.2 = None -> exists rv, @Seen ActEv actResp (AStatus b (setStatusOf b s)) (Ok rv) ∈ h').
  { unfold settle. eapply rep_bind with (Q := fun h' r => match r with Ok _ => exists rv, @Seen ActEv actResp (AStatus b (setStatusOf b s)) (Ok rv) ∈ h' | Err _ => True end).
    { destruct Hd as [H1 H2 H3 H4]. apply along_event; [by split_and!|]. intros [rv|e] _; [|done]. exists rv. apply seen_last. }
    intros h1 [a|e] Hm1 Hw; [|done]. destruct Hw as [rv Hw]. eapply rep_bind; [apply Hk|]. intros h2 _ Hm2 _ _. exists rv. saw. }
  intros h1 [a e] Hm1 Hw. intros _ He. simpl in He. subst e. destruct (Hw eq_refl) as [rv Hw']. right. exists b. split_and!; [saw|apply Hd|]. right; left.
  exists (setStatusOf b s), rv. split; [done|]. by eapply reportRow_mono.
Qed.

Lemma rep_applyRetained b h : decidable_ h b -> boundPhase (ac_Phase b) = true ->
  @Seen ActEv actResp (ALiveGetAction (rp_ActionId u)) (Ok b) ∈ h -> run (applyRetained ig u b) h acked.
Proof.
  intros Hd Hb Hs. unfold applyRetained.
  assert (Hno : run (let* _ := recordReportRefused ig u false in Ret (false, Some b, None)) h acked) by (by eapply rep_bind; [apply rep_refused|]).
  destruct (rp_State u) eqn:Es; try exact Hno.
  - split; [done|]. intros now _. apply rep_settleRetained; [eapply decidable_mono; [apply seen_app|done]|saw| |done]. apply rr_succeeded; [done|done|apply succeeded_moved].
  - eapply rep_bind; [by apply rep_failedStatus|]. intros h1 [[s []]|] Hm Hf; [| |done].
    + destruct Hf as [Hc Hmv]. destruct (liveWork _) eqn:El.
      * apply rep_settleRetained; [by eapply decidable_mono|saw| |intros; apply rep_pausedUnder]. apply rr_paused; [done|by apply liveWork_running|done|done].
      * intros _ _. right. exists b. split_and!; [saw|apply Hd|]. right; right. by split_and!.
    + apply rep_settleRetained; [by eapply decidable_mono|saw|done|done].
Qed.

Lemma rep_retainedOnce h : run (retainedOnce ig stream u) h acked.
Proof.
  unfold retainedOnce. apply (along_event _ _ (ALiveGetAction (rp_ActionId u))); [done|]. intros [b|[]] Hn; [|intros _ _; left; apply seen_last|done].
  set (h0 := h ++ _). assert (Hs : @Seen ActEv actResp (ALiveGetAction (rp_ActionId u)) (Ok b) ∈ h0) by apply seen_last.
  assert (Hno : forall h', run (Ret (false, Some b, None)) h' acked) by done. destruct (rp_FencingToken u) as [t|] eqn:Et; [|by eapply rep_bind; [apply rep_tokenless|]].
  destruct (tokenMatches b t) eqn:Em; cbn [negb].
  2: { eapply rep_bind with (Q := any); [|intros h1 on _ _; by eapply rep_bind; [apply rep_refused|]]. destruct (_ =s ""); [done|].
       eapply rep_bind; [eapply rep_true, rep_serves|]. intros h1 [] _ _; [|done]. by split. }
  assert (Hg : ownGeneration u b) by (by exists t). destruct (endedPhase _) eqn:Ee.
  { intros _ _. right. exists b. split_and!; [done|done|by left]. }
  destruct (_ || _) eqn:Eb; [by eapply rep_bind; [apply rep_refused|]|]. apply orb_false_iff in Eb as [Eb _]. apply negb_false_iff in Eb.
  eapply rep_bind; [apply rep_serves|]. intros h1 [] Hm1 Ha; cbn [negb]; [|by eapply rep_bind; [apply rep_refused|]].
  apply rep_applyRetained; [|done|saw]. split; [|exact Hn|by apply Ha|done]. exists b. split; [|done]. left. exists (rp_ActionId u). right. saw.
Qed.

Lemma rep_retryRetained n : forall h, run (retryRetained ig stream u n) h (fun h' x => x.1 = true -> retainedDecided h').
Proof.
  induction n as [|n IH]; intros h; [done|]. cbn [retryRetained]. eapply rep_bind; [apply rep_retainedOnce|]. intros h1 [[ack action] [e|]] _ Ha.
  - destruct (isConflict e); [|done]. destruct n, action; try done; try apply IH. by eapply rep_bind; [apply rep_notApplied|].
  - intros Hx. by apply Ha.
Qed.

Lemma rep_IngestRetained h : run (IngestRetainedOutcome ig stream u) h (fun h' x => x.1 = true -> retainedDecided h').
Proof. unfold IngestRetainedOutcome. destruct (_ || _); [done|apply rep_retryRetained]. Qed.
End Ingest.

(** ** What the reports come to *)

(** A retained outcome is acknowledged only when it is decided. An adapter may forget an outcome that
    IngestRetainedOutcome acknowledged: whatever the cluster answers, the server has then said that the
    action is gone; or has shown the action, with the generation the outcome carries, already ended; or has
    stored the outcome on it, as a row of the report's table; or the outcome is a failure under a stop, of
    work that is already held. *)
Theorem retained_acknowledged_when_decided ig stream u h err
  (Hends : returns actAnswered (IngestRetainedOutcome ig stream u) [] h (true, err)) :
  Seen (ALiveGetAction (rp_ActionId u)) (Err NotFound) ∈ h \/
  exists b, Seen (ALiveGetAction (rp_ActionId u)) (Ok b) ∈ h /\ ownGeneration u b /\
    (endedPhase (ac_Phase b) = true \/
     (exists n rv, Seen (AStatus b n) (Ok rv) ∈ h /\ reportRow h u b n) \/
     rp_State u = ACTION_STATE_FAILED /\ liveWork (ac_Phase b) = false /\ (coveredSeen h b \/ rp_EndCause u = ACTION_END_CAUSE_ESTOP)).
Proof. exact (along_returns _ _ _ _ _ _ _ (rep_IngestRetained ig stream u []) Hends eq_refl). Qed.
