(* ===== verification/ActionWorld.v ===== *)
(** The FleetAction between its writers: any number of controller passes and of robots' reports, run call by
    call in any order over the actions an API server holds, with users that create, edit and delete them.
    Each status write that lands replaces the very status it was computed from, and is a row of the
    controller's table or of a report's. *)

From S2P Require Import Prelude.
From S2P Require Import Types.
From S2P Require Import Conc.
From S2P Require Import Along.
From S2P Require Import EstopScope.
From S2P Require Import Command.
From S2P Require Import ExecutorGuard.
From S2P Require Import ExecutorGate.
From S2P Require Import ActionData.
From S2P Require Import ActionController.
From S2P Require Import ActionTable.
From S2P Require Import ActionProps.
From S2P Require Import ActionPass.
From S2P Require Import ActionReports.
From S2P Require Import ActionReportProps.
From S2P Require Import ActionTheorems.

(** ** The API server's actions *)

(** What it holds now, every version it ever held, and the next resourceVersion. *)
Record ActWorld := mkActWorld { aw_actions : gmap string Action; aw_versions : list Action; aw_rv : Z }.

Definition put (w : ActWorld) (a : Action) : ActWorld :=
  mkActWorld (<[ac_Name a := a]> (aw_actions w)) (a :: aw_versions w) (aw_rv w + 1).

(** A status patch under [b]'s resourceVersion. The server applies to its object what [n] changes in [b]:
    on the status [b] has, that gives [n]'s. *)
Definition statusLands (w : ActWorld) (b n : Action) (w' : ActWorld) : Prop :=
  exists cur s, aw_actions w !! ac_Name b = Some cur /\ ac_rv cur = ac_rv b /\
    (ac_Status b = ac_Status cur -> s = encodeStatus (ac_Status n)) /\
    w' = put w (setStatusOf (withVersion cur (aw_rv w) (ac_Held cur)) s).

Definition finalizerLands (w : ActWorld) (b : Action) (hold : bool) (w' : ActWorld) : Prop :=
  exists cur, aw_actions w !! ac_Name b = Some cur /\ ac_rv cur = ac_rv b /\ w' = put w (withVersion cur (aw_rv w) hold).

(** A merge patch of the annotations has no resourceVersion. *)
Definition metaLands (w : ActWorld) (b a : Action) (w' : ActWorld) : Prop :=
  exists cur anns, aw_actions w !! ac_Name b = Some cur /\ a = setAnnotations (withVersion cur (aw_rv w) (ac_Held cur)) anns /\ w' = put w a.

(** The answer to an event and what it does to the actions. A write whose answer is lost may have landed. *)
Definition effect (w : ActWorld) (e : ActEv) (a : actResp e) (w' : ActWorld) : Prop :=
  match e as e return actResp e -> Prop with
  | AGetAction n => fun a => w' = w /\ match a with Ok a => a ∈ aw_versions w /\ ac_Name a = n | Err _ => True end
  | ALiveGetAction n => fun a => w' = w /\ match a with Ok a => aw_actions w !! n = Some a | Err NotFound => aw_actions w !! n = None | Err _ => True end
  | AStatus b n => fun a => match a with
      | Ok rv => rv = aw_rv w /\ statusLands w b n w'
      | Err WriteConflict => w' = w
      | Err WriteFailed => w' = w \/ statusLands w b n w'
      end
  | AFinalizer b hold => fun a => match a with
      | Ok rv => rv = aw_rv w /\ finalizerLands w b hold w'
      | Err WriteConflict => w' = w
      | Err WriteFailed => w' = w \/ finalizerLands w b hold w'
      end
  | AMeta b n => fun a => match a with
      | Ok a => metaLands w b a w'
      | Err _ => w' = w \/ exists a, metaLands w b a w'
      end
  | _ => fun _ => w' = w
  end a.

(** The status of an action that was just created. *)
Definition noStatus : ActionStatus := mkActionStatus "" "" 0 None None None None "" 0 None None None None "" 0 "" "" [].

(** What users and the garbage collector do: create under a new UID, edit anything but the status, delete. *)
Inductive users (w : ActWorld) : ActWorld -> Prop :=
| users_create a : aw_actions w !! ac_Name a = None -> ac_rv a = aw_rv w -> ac_Status a = noStatus ->
    (forall v, v ∈ aw_versions w -> ac_UID v <> ac_UID a) -> users w (put w a)
| users_edit cur a : aw_actions w !! ac_Name a = Some cur -> ac_rv a = aw_rv w -> ac_UID a = ac_UID cur -> ac_Status a = ac_Status cur -> users w (put w a)
| users_delete n : users w (mkActWorld (delete n (aw_actions w)) (aw_versions w) (aw_rv w)).

(** ** The writers *)

Inductive Task :=
| TPass (rc : Reconciler) (name : string)
| TReport (ig : Ingestor) (stream : Stream) (u : Report)
| TRetained (ig : Ingestor) (stream : Stream) (u : Report).

Definition progOf (t : Task) : P unit :=
  match t with
  | TPass rc name => let* _ := Reconcile rc name in Ret tt
  | TReport ig stream u => let* _ := IngestActionStatus ig stream u in Ret tt
  | TRetained ig stream u => let* _ := IngestRetainedOutcome ig stream u in Ret tt
  end.

Definition allowedBy (t : Task) (h : list AObs) (e : ActEv) : Prop :=
  match t with TPass rc _ => permitted h (rc_TDE rc) e | TReport _ _ u | TRetained _ _ u => reportPermitted h u e end.

Record Thread := mkThread { th_task : Task; th_prog : P unit; th_seen : list AObs }.

(** The writers' programs take no lock and start nothing else: an event is all they do. *)
Definition System : Type := ActWorld * list Thread.

Inductive astep : System -> System -> Prop :=
| as_event w w' ts1 ts2 t e k h a : actAnswered e a -> effect w e a w' ->
    astep (w, ts1 ++ mkThread t (Vis e k) h :: ts2) (w', ts1 ++ mkThread t (k a) (h ++ [Seen e a]) :: ts2)
| as_start w ts t : astep (w, ts) (w, mkThread t (progOf t) [] :: ts)
| as_users w w' ts : users w w' -> astep (w, ts) (w', ts).

(** ** The invariant *)

Record actWf (w : ActWorld) : Prop := mkActWf {
  wf_current : forall n a, aw_actions w !! n = Some a -> ac_Name a = n /\ a ∈ aw_versions w;
  wf_fresh : forall v, v ∈ aw_versions w -> ac_rv v < aw_rv w;
  wf_unique : forall v v', v ∈ aw_versions w -> v' ∈ aw_versions w -> ac_rv v = ac_rv v' -> ac_Name v = ac_Name v' -> v = v'
}.

(** The object is a version the server held. *)
Definition versionOf (w : ActWorld) (a : Action) : Prop := exists v, v ∈ aw_versions w /\ sameWork v a.

Definition remembered (w : ActWorld) (o : AObs) : Prop :=
  match o with
  | Seen e a => match e as e return actResp e -> Prop with
      | AGetAction _ | ALiveGetAction _ => fun a => match a with Ok a => versionOf w a | Err _ => True end
      | AStatus b n => fun a => match a with Ok rv => versionOf w (stored n rv) | Err _ => True end
      | AFinalizer b hold => fun a => match a with Ok rv => versionOf w (withVersion b rv hold) | Err _ => True end
      | AMeta _ _ => fun a => match a with Ok a => versionOf w a | Err _ => True end
      | _ => fun _ => True
      end a
  end.

Definition threadOk (w : ActWorld) (t : Thread) : Prop :=
  Forall (remembered w) (th_seen t) /\ along actAnswered (allowedBy (th_task t)) (th_prog t) (th_seen t) (fun _ _ => True).

Definition sysOk (s : System) : Prop := actWf s.1 /\ Forall (threadOk s.1) s.2.

Lemma origin_version w h a : Forall (remembered w) h -> origin h a -> versionOf w a.
Proof.
  intros Hr (a0 & Ha & Hs). assert (Hv : versionOf w a0).
  { destruct Ha as [(n & [H|H])|[(b & n & rv & H & ->)|[(b & n & H)|(b & hold & rv & H & ->)]]]; by apply (proj1 (Forall_forall _ _) Hr) in H. }
  destruct Hv as (v & Hv & V1 & V2 & V3 & V4). destruct Hs as (S1 & S2 & S3 & S4). exists v. split; [done|]. unfold sameWork. by rewrite S1, S2, S3, S4.
Qed.

(** An object in hand at the resourceVersion of the current one is the current one. *)
Lemma version_current w a cur : actWf w -> versionOf w a -> aw_actions w !! ac_Name a = Some cur -> ac_rv cur = ac_rv a -> sameWork cur a.
Proof.
  intros Hw (v & Hv & H1 & H2 & H3 & H4) Hc Hrv. destruct (wf_current w Hw _ _ Hc) as [Hn Hin].
  by rewrite (wf_unique w Hw cur v Hin Hv ltac:(congruence) ltac:(congruence)).
Qed.

Lemma allowed_status t h b n : allowedBy t h (AStatus b n) -> origin h b /\ ac_Name n = ac_Name b /\ ac_Spec n = ac_Spec b.
Proof. destruct t; simpl; [intros (H1 & H2 & H3 & _)|intros (H1 & _ & H2 & H3 & _)..]; done. Qed.

Lemma allowed_finalizer t h b hold : allowedBy t h (AFinalizer b hold) -> origin h b.
Proof. by destruct t. Qed.

Lemma put_wf w a : actWf w -> ac_rv a = aw_rv w -> actWf (put w a).
Proof.
  intros [H1 H2 H3] Hrv. split; simpl.
  - intros n b. rewrite lookup_insert_Some. intros [[<- <-]|[_ Hb]]; [split; [done|by left]|]. destruct (H1 _ _ Hb). split; [done|by right].
  - intros v [->|Hv]%elem_of_cons; [lia|]. specialize (H2 v Hv). lia.
  - intros v v' [->|Hv]%elem_of_cons [->|Hv']%elem_of_cons He Hn; [done| | |by apply H3].
    + specialize (H2 v' Hv'). lia.
    + specialize (H2 v Hv). lia.
Qed.

Lemma taskProg_ok t : along actAnswered (allowedBy t) (progOf t) [] (fun _ _ => True).
Proof.
  destruct t as [rc name|ig stream u|ig stream u]; unfold progOf.
  - eapply along_bind; [apply run_Reconcile|done].
  - eapply along_bind; [apply rep_IngestActionStatus|done].
  - eapply along_bind; [apply rep_IngestRetained|done].
Qed.

(** ** Preservation *)

Lemma versionOf_more w w' a : aw_versions w ⊆ aw_versions w' -> versionOf w a -> versionOf w' a.
Proof. intros Hs (v & Hv & H). exists v. split; [by apply Hs|done]. Qed.

Lemma remembered_more w w' o : aw_versions w ⊆ aw_versions w' -> remembered w o -> remembered w' o.
Proof.
  intros Hs. destruct o as [e a]. destruct e; try done; simpl; destruct a; try done; by apply versionOf_more.
Qed.

Lemma threadOk_more w w' t : aw_versions w ⊆ aw_versions w' -> threadOk w t -> threadOk w' t.
Proof. intros Hs [H1 H2]. split; [|done]. eapply Forall_impl; [exact H1|]. intros o. by apply remembered_more. Qed.

Lemma statusLands_puts w t h b n w' : actWf w -> Forall (remembered w) h -> allowedBy t h (AStatus b n) -> statusLands w b n w' ->
  exists cur, aw_actions w !! ac_Name cur = Some cur /\ sameWork cur b /\
    w' = put w (setStatusOf (withVersion cur (aw_rv w) (ac_Held cur)) (encodeStatus (ac_Status n))).
Proof.
  intros Hw Hr Ha (cur & s & Hc & Hrv & Hs & ->). destruct (allowed_status _ _ _ _ Ha) as (Ho & _ & _).
  pose proof (version_current _ _ _ Hw (origin_version _ _ _ Hr Ho) Hc Hrv) as Hsame. exists cur. destruct (wf_current w Hw _ _ Hc) as [Hn _].
  split_and!; [by rewrite Hn|done|]. destruct Hsame as (_ & _ & _ & H4). by rewrite (Hs H4).
Qed.

(** What an event may do: nothing, or put a new version of an object the server holds. *)
Definition changes (w : ActWorld) (e : ActEv) (w' : ActWorld) : Prop :=
  exists cur a, aw_actions w !! ac_Name cur = Some cur /\ ac_Name a = ac_Name cur /\ ac_UID a = ac_UID cur /\ ac_rv a = aw_rv w /\ w' = put w a /\
    (ac_Status a = ac_Status cur \/ exists b n, e = AStatus b n /\ sameWork cur b /\ ac_Status a = encodeStatus (ac_Status n)).

Lemma event_changes w t h e a w' : actWf w -> Forall (remembered w) h -> allowedBy t h e -> effect w e a w' -> w' = w \/ changes w e w'.
Proof.
  intros Hw Hr Ha He. destruct e; try (by left); simpl in He; try (by left; destruct He).
  - assert (Hl : w' = w \/ statusLands w base action w') by (destruct a as [rv|[]]; tauto). destruct Hl as [Hl|Hl]; [by left|]. right.
    destruct (statusLands_puts _ _ _ _ _ _ Hw Hr Ha Hl) as (cur & H1 & H2 & ->).
    exists cur. eexists. split_and!; [done| | | |reflexivity|]; try done. right. exists base, action. by split_and!.
  - assert (Hl : w' = w \/ finalizerLands w base hold w') by (destruct a as [rv|[]]; tauto). destruct Hl as [Hl|(cur & H1 & H2 & ->)]; [by left|]. right.
    destruct (wf_current w Hw _ _ H1) as [Hn _]. exists cur. eexists. split_and!; [by rewrite Hn| | | |reflexivity|]; try done. by left.
  - assert (Hl : w' = w \/ exists a, metaLands w base a w') by (destruct a as [rv|]; naive_solver). destruct Hl as [Hl|(a' & cur & anns & H1 & -> & ->)]; [by left|]. right.
    destruct (wf_current w Hw _ _ H1) as [Hn _]. exists cur. eexists. split_and!; [by rewrite Hn| | | |reflexivity|]; try done. by left.
Qed.

Lemma event_remembered w t h e a w' : actWf w -> Forall (remembered w) h -> allowedBy t h e -> effect w e a w' -> remembered w' (Seen e a).
Proof.
  intros Hw Hr Ha He. destruct e; try done; simpl in He |- *.
  - destruct He as [-> He]. destruct a as [a|]; [|done]. destruct He as [He _]. exists a. by split.
  - destruct He as [-> He]. destruct a as [a|]; [|done]. exists a. split; [|done]. exact (proj2 (wf_current w Hw _ _ He)).
  - destruct a as [rv|[]]; [|done..]. destruct He as [-> Hl]. destruct (statusLands_puts _ _ _ _ _ _ Hw Hr Ha Hl) as (cur & H1 & (S1 & S2 & S3 & S4) & ->).
    destruct (allowed_status _ _ _ _ Ha) as (_ & Hn & Hs). eexists. split; [left|]. unfold sameWork. simpl. split_and!; congruence.
  - destruct a as [rv|[]]; [|done..]. destruct He as [-> (cur & H1 & H2 & ->)].
    destruct (version_current _ _ _ Hw (origin_version _ _ _ Hr (allowed_finalizer _ _ _ _ Ha)) H1 H2) as (S1 & S2 & S3 & S4).
    eexists. split; [left|]. unfold sameWork. simpl. split_and!; congruence.
  - destruct a as [a|]; [|done]. destruct He as (cur & anns & H1 & -> & ->). eexists. split; [left|]. done.
Qed.

Lemma changes_wf w e w' : actWf w -> changes w e w' -> actWf w' /\ aw_versions w ⊆ aw_versions w'.
Proof. intros Hw (cur & a & _ & _ & _ & Hrv & -> & _). split; [by apply put_wf|]. intros v Hv. by right. Qed.

Lemma users_wf w w' : actWf w -> users w w' -> actWf w' /\ aw_versions w ⊆ aw_versions w'.
Proof.
  intros Hw [a _ Hrv _ _|cur a _ Hrv _ _|n].
  - split; [by apply put_wf|]. intros v Hv. by right.
  - split; [by apply put_wf|]. intros v Hv. by right.
  - split; [|done]. destruct Hw as [H1 H2 H3]. split; simpl; [|done..]. intros m a [_ Ha]%lookup_delete_Some. by apply H1.
Qed.

(** The thread that takes an event, before it does. *)
Lemma thread_next w t e k h : threadOk w (mkThread t (Vis e k) h) ->
  Forall (remembered w) h /\ allowedBy t h e /\ forall a, actAnswered e a -> along actAnswered (allowedBy t) (k a) (h ++ [Seen e a]) (fun _ _ => True).
Proof. intros [H1 [H2 H3]]. by split_and!. Qed.

Lemma astep_ok s s' : sysOk s -> astep s s' -> sysOk s'.
Proof.
  intros [Hw Ht] Hs. destruct Hs as [w w' ts1 ts2 t e k h a Ha He|w ts t|w w' ts Hu]; simpl in *.
  - apply Forall_app in Ht as [Ht1 [Ht Ht2]%Forall_cons]. destruct (thread_next _ _ _ _ _ Ht) as (Hr & Hal & Hk).
    assert (Hw' : actWf w' /\ aw_versions w ⊆ aw_versions w').
    { destruct (event_changes _ _ _ _ _ _ Hw Hr Hal He) as [->|Hc]; [done|by eapply changes_wf]. }
    destruct Hw' as [Hw' Hmore]. pose proof (event_remembered _ _ _ _ _ _ Hw Hr Hal He) as Hnew. split; [done|]. simpl.
    apply Forall_app; split; [|constructor]; [by eapply Forall_impl; [exact Ht1|intros; by eapply threadOk_more]| |by eapply Forall_impl; [exact Ht2|intros; by eapply threadOk_more]].
    split; [|by apply Hk]. apply Forall_app; split; [|by constructor]. eapply Forall_impl; [exact Hr|]. intros o. by apply remembered_more.
  - split; [done|]. constructor; [|done]. split; [constructor|apply taskProg_ok].
  - destruct (users_wf _ _ Hw Hu) as [Hw' Hmore]. split; [done|]. simpl. eapply Forall_impl; [exact Ht|]. intros t. by apply threadOk_more.
Qed.

(** ** Runs *)

(** No action yet, and nothing running. *)
Definition started : System := (mkActWorld ∅ [] 1, []).

Definition reachable (s : System) : Prop := rtc astep started s.

Definition actionOf (s : System) (name : string) (a : Action) : Prop := aw_actions s.1 !! name = Some a.

Lemma started_ok : sysOk started.
Proof. split; [|constructor]. split; simpl; [by intros n a H|by intros v H%elem_of_nil|by intros v v' H%elem_of_nil]. Qed.

Lemma reachable_ok s : reachable s -> sysOk s.
Proof.
  intros H. pose proof started_ok as H0. revert H0. unfold reachable in H. induction H as [s|s s1 s' Hs _ IH]; [done|]. intros Hok. by eapply IH, astep_ok.
Qed.

(** The step from [s] to [s'] is the status write of [n] over [b] by a thread of task [t], which has seen
    [h] by then. *)
Definition writesStatus (s s' : System) (t : Task) (h : list AObs) (b n : Action) : Prop :=
  exists ts1 ts2 k a, s.2 = ts1 ++ mkThread t (Vis (AStatus b n) k) h :: ts2 /\
    s'.2 = ts1 ++ mkThread t (k a) (h ++ [Seen (AStatus b n) a]) :: ts2.

(** What a step does to an action that is there before and after it. *)
Lemma astep_action s s' name cur new : sysOk s -> astep s s' -> actionOf s name cur -> actionOf s' name new ->
  ac_UID new = ac_UID cur /\
  (ac_Status new = ac_Status cur \/
   exists t h b n, (allowedBy t h (AStatus b n) /\ writesStatus s s' t h b n) /\ sameWork cur b /\ ac_Status new = encodeStatus (ac_Status n)).
Proof.
  unfold actionOf. intros [Hw Ht] Hs Hc Hn. destruct Hs as [w w' ts1 ts2 t e k h a Ha He|w ts t|w w' ts Hu]; simpl in *.
  - apply Forall_app in Ht as [_ [Ht _]%Forall_cons]. destruct (thread_next _ _ _ _ _ Ht) as (Hr & Hal & _).
    destruct (event_changes _ _ _ _ _ _ Hw Hr Hal He) as [->|(c & x & H1 & H2 & H3 & _ & -> & H4)]; [naive_solver|].
    simpl in Hn. apply lookup_insert_Some in Hn as [[<- <-]|[_ Hn]]; [|naive_solver]. assert (c = cur) as -> by (rewrite H2 in Hc; congruence). split; [done|].
    destruct H4 as [H4|(b & n & -> & H5 & H6)]; [by left|right]. exists t, h, b, n. split_and!; [done| |done..]. by exists ts1, ts2, k, a.
  - naive_solver.
  - destruct Hu as [x H1 _ _ _|c x H1 _ H2 H3|m]; simpl in Hn.
    + apply lookup_insert_Some in Hn as [[<- <-]|[_ Hn]]; [congruence|naive_solver].
    + apply lookup_insert_Some in Hn as [[<- <-]|[_ Hn]]; [|naive_solver]. assert (c = cur) as -> by congruence. auto.
    + apply lookup_delete_Some in Hn as [_ Hn]. naive_solver.
Qed.

(** What a status write of a task rests on: a pass's is a row of the controller's table over what that
    pass has seen; a report's is a row of the report's, for the action it names, by a stream that may speak
    for its robot and under the action's own generation. *)
Definition writeFollowsTable (t : Task) (h : list AObs) (b n : Action) : Prop :=
  match t with
  | TPass rc _ => row h (rc_TDE rc) b n
  | TReport _ _ u | TRetained _ _ u => rp_ActionId u = ac_Name b /\ authorizedFor h b /\ ownGeneration u b /\ reportRow h u b n
  end.

Lemma allowed_follows t h b n : allowedBy t h (AStatus b n) -> writeFollowsTable t h b n.
Proof.
  destruct t as [rc nm|ig st u|ig st u]; intros Ha; [apply Ha|..];
    destruct Ha as (_ & H1 & _ & _ & H2 & H3 & H4); split_and!; done.
Qed.

(** C5 No status is lost between writers. In any run of any number of controller passes and robots' reports,
    interleaved call by call with each other and with users who create, edit and delete actions, and with
    caches that may be stale: a step that changes the status of an action is the status write of one of the
    running tasks, it writes a status that was computed from the very one it replaces (and from the same
    spec), and it is a row of the controller's transition table (if the task is a pass) or of a report's (if
    it is a report) over what that very task has been answered before the write. *)
Theorem status_changes_follow_tables s s' name cur new (Hreach : reachable s) (Hstep : astep s s')
  (Hcur : actionOf s name cur) (Hnew : actionOf s' name new) (Hchanged : ac_Status new <> ac_Status cur) :
  exists t h b n, writesStatus s s' t h b n /\ ac_Status b = ac_Status cur /\ ac_Spec b = ac_Spec cur /\ ac_Name b = name /\
    ac_Status new = encodeStatus (ac_Status n) /\ writeFollowsTable t h b n.
Proof.
  pose proof (reachable_ok _ Hreach) as Hok.
  destruct (astep_action _ _ _ _ _ Hok Hstep Hcur Hnew) as [_ [H|(t & h & b & n & (Ha & Hw) & (S1 & S2 & S3 & S4) & Hs)]]; [done|].
  destruct (wf_current _ (proj1 Hok) _ _ Hcur) as [Hname _]. exists t, h, b, n. split_and!; try done; [congruence|].
  by apply allowed_follows.
Qed.

(** An action that is over: the controller retries a Failed one. *)
Definition overPhase (p : ActionPhase) : Prop := p = ActionPhaseSucceeded \/ p = ActionPhaseCancelled.

Definition sameEnd (a a' : Action) : Prop := ac_Phase a' = ac_Phase a /\ ac_Robot a' = ac_Robot a /\ generationOf a' = generationOf a.

Lemma bound_not_over p : boundPhase p = true -> ~ overPhase p.
Proof. intros Hb [->| ->]; done. Qed.

Lemma running_not_over p : running p -> ~ overPhase p.
Proof. intros [->| ->] [E|E]; done. Qed.

Lemma over_report h u b n : reportRow h u b n -> overPhase (ac_Phase b) -> sameEnd b n.
Proof.
  intros Hr Ho. destruct Hr as [t _ _ Hs|_ H|_ H|_ H|_ H|s _ _ H];
    try (exfalso; revert Ho; by apply running_not_over); try (exfalso; revert Ho; by apply bound_not_over).
  unfold sameEnd, ac_Phase, ac_Robot, generationOf. by rewrite Hs.
Qed.

Lemma over_write t h b n : allowedBy t h (AStatus b n) -> overPhase (ac_Phase b) -> sameEnd b n.
Proof.
  intros Ha Ho. destruct t as [rc nm|ig st u|ig st u].
  - destruct Ha as (_ & _ & _ & Hrow). destruct (terminal_row _ _ _ _ Hrow Ho) as [(H1 & H2 & _ & H3)|(H1 & H2 & _ & H3)]; by split_and!.
  - destruct Ha as (_ & _ & _ & _ & _ & _ & Hrow). by eapply over_report.
  - destruct Ha as (_ & _ & _ & _ & _ & _ & Hrow). by eapply over_report.
Qed.

(** One step keeps the end of an action, and its UID for it alone. *)
Definition endsAs (a : Action) (name : string) (s : System) : Prop :=
  (exists v, v ∈ aw_versions s.1 /\ ac_UID v = ac_UID a) /\
  forall a', actionOf s name a' -> ac_UID a' = ac_UID a -> sameEnd a a'.

Lemma astep_versions s s' : sysOk s -> astep s s' -> aw_versions s.1 ⊆ aw_versions s'.1.
Proof.
  intros [Hw Ht] Hs. destruct Hs as [w w' ts1 ts2 t e k h a Ha He|w ts t|w w' ts Hu]; simpl in *; [|done|by apply users_wf].
  apply Forall_app in Ht as [_ [Ht _]%Forall_cons]. destruct (thread_next _ _ _ _ _ Ht) as (Hr & Hal & _).
  destruct (event_changes _ _ _ _ _ _ Hw Hr Hal He) as [->|Hc]; [done|by eapply changes_wf].
Qed.

(** An action whose name was free has a new UID. *)
Lemma astep_created s s' name a : sysOk s -> astep s s' -> aw_actions s.1 !! name = None -> actionOf s' name a ->
  forall v, v ∈ aw_versions s.1 -> ac_UID v <> ac_UID a.
Proof.
  unfold actionOf. intros [Hw Ht] Hs Hc Hn. destruct Hs as [w w' ts1 ts2 t e k h x Ha He|w ts t|w w' ts Hu]; simpl in *; [|congruence|].
  - apply Forall_app in Ht as [_ [Ht _]%Forall_cons]. destruct (thread_next _ _ _ _ _ Ht) as (Hr & Hal & _).
    destruct (event_changes _ _ _ _ _ _ Hw Hr Hal He) as [->|(c & y & H1 & H2 & _ & _ & -> & _)]; [congruence|].
    simpl in Hn. apply lookup_insert_Some in Hn as [[<- <-]|[_ Hn]]; congruence.
  - destruct Hu as [y H1 _ _ H2|c y H1 _ H2 H3|m]; simpl in Hn.
    + apply lookup_insert_Some in Hn as [[<- <-]|[_ Hn]]; [done|congruence].
    + apply lookup_insert_Some in Hn as [[<- <-]|[_ Hn]]; congruence.
    + apply lookup_delete_Some in Hn as [_ Hn]. congruence.
Qed.

Lemma astep_ends a name s s' : overPhase (ac_Phase a) -> sysOk s -> astep s s' -> endsAs a name s -> endsAs a name s'.
Proof.
  intros Ho Hok Hs [(v & Hv & Hu) He]. split; [exists v; split; [by eapply astep_versions|done]|]. intros new Hn Hnu.
  destruct (aw_actions s.1 !! name) as [cur|] eqn:Ec; [|by destruct (astep_created _ _ _ _ Hok Hs Ec Hn v Hv); congruence].
  destruct (astep_action _ _ _ _ _ Hok Hs Ec Hn) as [Huid Hst]. destruct (He cur Ec ltac:(congruence)) as (E1 & E2 & E3).
  unfold sameEnd, ac_Phase, ac_Robot, generationOf in *. destruct Hst as [->|(t & h & b & n & (Ha & _) & (_ & _ & _ & S4) & ->)]; [done|].
  assert (Hob : overPhase (ac_Phase b)) by (unfold ac_Phase; by rewrite S4, E1). destruct (over_write _ _ _ _ Ha Hob) as (W1 & W2 & W3).
  unfold ac_Phase, ac_Robot, generationOf in *. simpl. split_and!; congruence.
Qed.

(** C6 An end is final. Whatever passes, reports and users do after it, in any order and on whatever stale
    reads, an action that is Succeeded or Cancelled keeps that phase, its robot and its generation for as
    long as it exists; only a new action under its name, with another UID, differs. *)
Theorem terminal_is_final s s' name a a' (Hreach : reachable s) (Hrun : rtc astep s s') (Ha : actionOf s name a) (Hover : overPhase (ac_Phase a))
  (Ha' : actionOf s' name a') (Huid : ac_UID a' = ac_UID a) :
  sameEnd a a'.
Proof.
  pose proof (reachable_ok _ Hreach) as Hok. assert (He : endsAs a name s).
  { split; [exists a; split; [apply (wf_current _ (proj1 Hok) _ _ Ha)|done]|]. intros a1 H1 _. unfold actionOf in *. assert (a1 = a) as -> by congruence. done. }
  clear Hreach Ha. induction Hrun as [s|s s1 s' Hs _ IH]; [by apply He|]. apply IH; [done|by eapply astep_ok|by eapply astep_ends].
Qed.

(** What a report may do to paused work: it is over. *)
Definition reportedEnd (h : list AObs) (u : Report) (b n : Action) : Prop :=
  authorizedFor h b /\ ownGeneration u b /\
  (rp_State u = ACTION_STATE_SUCCEEDED /\ ac_Phase n = ActionPhaseSucceeded \/
   rp_State u = ACTION_STATE_FAILED /\ ac_Phase n = ActionPhaseFailed /\ uncoveredSeen h b /\ rp_EndCause u <> ACTION_END_CAUSE_ESTOP).

Lemma paused_report h u b n : authorizedFor h b -> ownGeneration u b -> reportRow h u b n -> ac_Phase b = ActionPhasePaused ->
  ac_Phase n <> ActionPhasePaused -> reportedEnd h u b n.
Proof.
  intros H1 H2 Hr Hp Hn. split_and!; [done..|]. destruct Hr; phases.
  - by unfold ac_Phase in *; rewrite H3 in Hn.
  - by left.
  - by right.
Qed.

(** Stopped work is never restarted on its own. In any run, a step that takes an action out of Paused
    is a pass that was asked to requeue or cancel it, with its robot none, provably stopped, or still bound
    to it as Failed; or the bound robot's own end of that work: a report its stream may make for it, under
    the action's own generation, that it succeeded, or that it failed with no stop over the robot. *)
Theorem paused_left_in_any_run s s' name cur new (Hreach : reachable s) (Hstep : astep s s') (Hcur : actionOf s name cur)
  (Hnew : actionOf s' name new) (Hpaused : ac_Phase cur = ActionPhasePaused) (Hmoved : ac_Phase new <> ActionPhasePaused) :
  exists h b n, ac_Status b = ac_Status cur /\ ac_Spec b = ac_Spec cur /\ ac_Status new = encodeStatus (ac_Status n) /\
    (leftPaused h b n \/ exists u, rp_ActionId u = name /\ reportedEnd h u b n).
Proof.
  assert (Hch : ac_Status new <> ac_Status cur) by (unfold ac_Phase in *; congruence).
  pose proof (reachable_ok _ Hreach) as Hok. destruct (astep_action _ _ _ _ _ Hok Hstep Hcur Hnew) as [_ [H|(t & h & b & n & (Ha & _) & (S1 & S2 & S3 & S4) & Hs)]]; [done|].
  destruct (wf_current _ (proj1 Hok) _ _ Hcur) as [Hname _]. exists h, b, n. split_and!; [done..|].
  assert (Hb : ac_Phase b = ActionPhasePaused) by (unfold ac_Phase in *; congruence).
  assert (Hn : ac_Phase n <> ActionPhasePaused) by (unfold ac_Phase in *; rewrite Hs in Hmoved; done). destruct t as [rc nm|ig st u|ig st u].
  - left. destruct Ha as (_ & _ & _ & Hrow). by eapply paused_row.
  - right. exists u. destruct Ha as (_ & H1 & _ & _ & H2 & H3 & H4). split; [congruence|by apply paused_report].
  - right. exists u. destruct Ha as (_ & H1 & _ & _ & H2 & H3 & H4). split; [congruence|by apply paused_report].
Qed.
