(* ===== verification/ActionRuns.v ===== *)
(** Concrete runs of the FleetAction's writers, driven to an end or to their first status write over the
    API server's actions: each shows that what a theorem of ActionWorld speaks of happens. *)

From S2P Require Import Prelude.
From S2P Require Import Types.
From S2P Require Import Conc.
From S2P Require Import Along.
From S2P Require Import EstopScope.
From S2P Require Import Command.
From S2P Require Import ExecutorGuard.
From S2P Require Import ExecutorGate.
From S2P Require Import ActionData.
From S2P Require Import ActionController.
From S2P Require Import ActionTable.
From S2P Require Import ActionTheorems.
From S2P Require Import ActionScenario.
From S2P Require Import ActionReports.
From S2P Require Import ActionReportProps.
From S2P Require Import ActionWorld.

(** ** An API server and fixed answers of the rest *)

Definition worldAnswer (x : ExWorld) (w : ActWorld) (e : ActEv) : actResp e * ActWorld :=
  match e with
  | AGetAction n | ALiveGetAction n => (match aw_actions w !! n with Some a => Ok a | None => Err NotFound end, w)
  | AStatus b n => match aw_actions w !! ac_Name b with
      | Some cur => if ac_rv cur =? ac_rv b
          then (Ok (aw_rv w), put w (setStatusOf (withVersion cur (aw_rv w) (ac_Held cur)) (encodeStatus (ac_Status n)))) else (Err WriteConflict, w)
      | None => (Err WriteFailed, w)
      end
  | AFinalizer b hold => match aw_actions w !! ac_Name b with
      | Some cur => if ac_rv cur =? ac_rv b then (Ok (aw_rv w), put w (withVersion cur (aw_rv w) hold)) else (Err WriteConflict, w)
      | None => (Err WriteFailed, w)
      end
  | AMeta b n => match aw_actions w !! ac_Name b with
      | Some cur => let a := setAnnotations (withVersion cur (aw_rv w) (ac_Held cur)) (ac_Annotations n) in (Ok a, put w a)
      | None => (Err WriteFailed, w)
      end
  | e => (exAnswer x [] e, w)
  end.

Lemma worldAnswer_sound x w e : actWf w -> actAnswered e (worldAnswer x w e).1 /\ effect w e (worldAnswer x w e).1 (worldAnswer x w e).2.
Proof.
  intros Hw. destruct e; try (split; [exact (exAnswer_answered x [] _)|done]); unfold worldAnswer.
  - destruct (aw_actions w !! name) as [a|] eqn:E; [|done]. destruct (wf_current w Hw _ _ E). by split_and!.
  - destruct (aw_actions w !! name) as [a|] eqn:E; [|by split_and!]. destruct (wf_current w Hw _ _ E). by split_and!.
  - destruct (aw_actions w !! ac_Name base) as [cur|] eqn:E; [|by split; [|left]]. destruct (ac_rv cur =? ac_rv base) eqn:Erv; [|done].
    apply Z.eqb_eq in Erv. split; [done|]. split; [done|]. exists cur, (encodeStatus (ac_Status action)). by split_and!.
  - destruct (aw_actions w !! ac_Name base) as [cur|] eqn:E; [|by split; [|left]]. destruct (ac_rv cur =? ac_rv base) eqn:Erv; [|done].
    apply Z.eqb_eq in Erv. split; [done|]. split; [done|]. by exists cur.
  - destruct (aw_actions w !! ac_Name base) as [cur|] eqn:E; [|by split; [|left]]. destruct (wf_current w Hw _ _ E).
    split; [done|]. by exists cur, (ac_Annotations action).
Qed.

(** ** Driving a thread *)

Fixpoint drive (x : ExWorld) (stop : ActEv -> bool) (p : P unit) (w : ActWorld) (h : list AObs) : ActWorld * P unit * list AObs :=
  match p with
  | Vis e k => if stop e then (w, p, h) else let r := worldAnswer x w e in drive x stop (k r.1) r.2 (h ++ [Seen e r.1])
  | _ => (w, p, h)
  end.

Lemma driveThread_steps x stop t : forall p w h ts, sysOk (w, mkThread t p h :: ts) ->
  let r := drive x stop p w h in rtc astep (w, mkThread t p h :: ts) (r.1.1, mkThread t r.1.2 r.2 :: ts).
Proof.
  fix IH 1. intros p w h ts Hok. destruct p as [u|e k|key k|key k|q k]; simpl; try done. destruct (stop e); [done|].
  destruct (worldAnswer_sound x w e (proj1 Hok)) as [Ha He].
  assert (Hs : astep (w, mkThread t (Vis e k) h :: ts) ((worldAnswer x w e).2, mkThread t (k (worldAnswer x w e).1) (h ++ [Seen e (worldAnswer x w e).1]) :: ts))
    by exact (as_event w _ [] ts t e k h _ Ha He).
  eapply rtc_l; [exact Hs|]. apply IH. by eapply astep_ok.
Qed.

(** ** Scripts *)

Inductive ScriptOp := OCreate (a : Action) | OEdit (name : string) (anns : gmap string string) (spec : FleetActionSpec) | ORun (x : ExWorld) (t : Task).

Definition fresh (w : ActWorld) (a : Action) : bool :=
  negb (isSome (aw_actions w !! ac_Name a)) && (ac_rv a =? aw_rv w) && bool_decide (ac_Status a = noStatus) &&
  forallb (fun v => ac_UID v <>s ac_UID a) (aw_versions w).

Definition edited (cur : Action) (rv : Z) (anns : gmap string string) (spec : FleetActionSpec) : Action :=
  mkAction rv (ac_Name cur) (ac_Namespace cur) (ac_UID cur) anns (ac_Deleted cur) (ac_Created cur) (ac_Held cur) spec (ac_Zone cur) (ac_Priority cur)
    (ac_Deadline cur) (ac_TimeoutSeconds cur) (ac_OnFailure cur) (ac_RetryPolicy cur) (ac_CustomType cur) (ac_Payload cur) (ac_Status cur).

Definition scriptStep (o : ScriptOp) (w : ActWorld) : option ActWorld :=
  match o with
  | OCreate a => if fresh w a then Some (put w a) else None
  | OEdit n anns spec => (fun cur => put w (edited cur (aw_rv w) anns spec)) <$> aw_actions w !! n
  | ORun x t => Some (drive x (fun _ => false) (progOf t) w []).1.1
  end.

Lemma scriptStep_steps o w w' ts : sysOk (w, ts) -> scriptStep o w = Some w' -> exists ts', rtc astep (w, ts) (w', ts').
Proof.
  intros Hok Ho. destruct o as [a|n anns spec|x t]; simpl in Ho.
  - destruct (fresh w a) eqn:E; [|done]. injection Ho as <-. unfold fresh in E. apply andb_true_iff in E as [[[E1 E2]%andb_true_iff E3]%andb_true_iff E4].
    exists ts. apply rtc_once, as_users, users_create.
    + by destruct (aw_actions w !! ac_Name a).
    + by apply Z.eqb_eq.
    + by apply bool_decide_eq_true in E3.
    + intros v Hv%list_elem_of_In. rewrite forallb_forall in E4. specialize (E4 v Hv). by str_bool.
  - destruct (aw_actions w !! n) as [cur|] eqn:E; [|done]. injection Ho as <-. exists ts. apply rtc_once, as_users, (users_edit _ cur); try done.
    simpl. by rewrite (proj1 (wf_current _ (proj1 Hok) _ _ E)).
  - injection Ho as <-. eexists. eapply rtc_l; [apply (as_start w ts t)|]. apply driveThread_steps. by eapply astep_ok, as_start.
Qed.

Definition play (ops : list ScriptOp) (w : option ActWorld) : option ActWorld := fold_left (fun w o => w ≫= scriptStep o) ops w.

Lemma play_steps ops : forall w w' ts, reachable (w, ts) -> play ops (Some w) = Some w' -> exists ts', rtc astep (w, ts) (w', ts').
Proof.
  induction ops as [|o ops IH]; intros w w' ts Hr Ho; simpl in Ho; [injection Ho as <-; by exists ts|].
  destruct (scriptStep o w) as [w1|] eqn:E.
  - destruct (scriptStep_steps _ _ _ _ (reachable_ok _ Hr) E) as [ts1 Hr1]. destruct (IH w1 w' ts1) as [ts2 Hr2]; [by eapply rtc_trans|done|].
    exists ts2. by eapply rtc_trans.
  - exfalso. clear IH E. induction ops as [|o' ops IH]; simpl in Ho; [done|by apply IH].
Qed.

Definition script (ops : list ScriptOp) : option ActWorld := play ops (Some (mkActWorld ∅ [] 1)).

(** After the script, [t] comes to its first status write and it lands: what it does to the action [name]. *)
Definition firstWrite (ops : list ScriptOp) (x : ExWorld) (t : Task) (name : string) (chk : Action -> Action -> bool) : bool :=
  match script ops with
  | Some w => match drive x isStatus (progOf t) w [] with
      | (w1, Vis e _, _) => match aw_actions w1 !! name, aw_actions (worldAnswer x w1 e).2 !! name with Some cur, Some new => chk cur new | _, _ => false end
      | _ => false
      end
  | None => false
  end.

Lemma firstWrite_step ops x t name chk : firstWrite ops x t name chk = true ->
  exists s s' cur new, reachable s /\ astep s s' /\ actionOf s name cur /\ actionOf s' name new /\ chk cur new = true.
Proof.
  unfold firstWrite. destruct (script ops) as [w|] eqn:E; [|done]. destruct (play_steps ops _ _ [] (rtc_refl _ _) E) as [ts Hr].
  assert (Hs : reachable (w, mkThread t (progOf t) [] :: ts)) by (eapply rtc_r; [exact Hr|apply as_start]).
  pose proof (driveThread_steps x isStatus t (progOf t) w [] ts (reachable_ok _ Hs)) as Hd. destruct (drive x isStatus (progOf t) w []) as [[w1 p] h]. simpl in Hd.
  destruct p as [u|e k|key k|key k|q k]; try done. assert (Hr1 : reachable (w1, mkThread t (Vis e k) h :: ts)) by (by eapply rtc_trans).
  destruct (aw_actions w1 !! name) as [cur|] eqn:Ec; [|done]. destruct (aw_actions (worldAnswer x w1 e).2 !! name) as [new|] eqn:En; [|done]. intros Hc.
  destruct (worldAnswer_sound x w1 e (proj1 (reachable_ok _ Hr1))) as [Ha He].
  eexists _, _, cur, new. split_and!; [exact Hr1|exact (as_event w1 _ [] ts t e k h _ Ha He)|exact Ec|exact En|exact Hc].
Qed.

(** ** Witnesses *)

Definition exNew : Action := mkAction 1 "haul" "ns" "u-haul" ∅ false (10 * Second) false exSpec "dock" ActionPriorityNormal None None "" None "" None noStatus.

Definition exPaused : FleetActionSpec := mkFleetActionSpec "haul" None "" [] ∅ None "" "" DesiredStatePaused.
Definition exCancelled : FleetActionSpec := mkFleetActionSpec "haul" None "" [] ∅ None "" "" DesiredStateCancelled.

Definition exPass1 (x : ExWorld) : ScriptOp := ORun x (TPass (exReconciler true) "haul").

Definition exReport (st : ActionState) (cause : ActionEndCause) : Report := mkReport "haul" st "" (Some 5) 0 cause "".
Definition exReported (st : ActionState) : Task := TReport (mkIngestor true true) (mkStream "ad" "c1" true) (exReport st ACTION_END_CAUSE_UNSPECIFIED).

(** A script that goes on: the action before and after. *)
Definition twoEnds (ops ops' : list ScriptOp) (name : string) (chk : Action -> Action -> bool) : bool :=
  match script ops with
  | Some w => match aw_actions w !! name, play ops' (Some w) ≫= (fun w' => aw_actions w' !! name) with Some a, Some a' => chk a a' | _, _ => false end
  | None => false
  end.

Lemma twoEnds_run ops ops' name chk : twoEnds ops ops' name chk = true ->
  exists s s' a a', reachable s /\ rtc astep s s' /\ actionOf s name a /\ actionOf s' name a' /\ chk a a' = true.
Proof.
  unfold twoEnds. destruct (script ops) as [w|] eqn:E; [|done]. destruct (play_steps ops _ _ [] (rtc_refl _ _) E) as [ts Hr].
  destruct (aw_actions w !! name) as [a|] eqn:Ea; [|done]. destruct (play ops' (Some w)) as [w'|] eqn:E'; [|done]. simpl.
  destruct (aw_actions w' !! name) as [a'|] eqn:Ea'; [|done]. intros Hc. destruct (play_steps ops' _ _ ts Hr E') as [ts' Hr'].
  exists (w, ts), (w', ts'), a, a'. by split_and!.
Qed.

Definition isNew (a : Action) : bool := bool_decide (ac_Status a = noStatus).

(** A pass over the new action assigns it: its write replaces the empty status it was computed from. *)
Lemma status_changes_follow_tables_witness : exists s s' t h b n, writesStatus s s' t h b n /\ ac_Status b = noStatus /\
  ac_Phase n = ActionPhaseAssigned /\ writeFollowsTable t h b n.
Proof.
  assert (Hrun : firstWrite [OCreate exNew] exDispatch (TPass (exReconciler true) "haul") "haul"
    (fun cur new => isNew cur && (ac_Phase new =s ActionPhaseAssigned)) = true) by (vm_compute; reflexivity).
  destruct (firstWrite_step _ _ _ _ _ Hrun)
    as (s & s' & cur & new & H1 & H2 & H3 & H4 & [H5%bool_decide_eq_true H6]%andb_true_iff). str_bool.
  destruct (status_changes_follow_tables s s' "haul" cur new H1 H2 H3 H4) as (t & h & b & n & E0 & E1 & _ & _ & E2 & E3).
  { intros E. unfold ac_Phase in H6. rewrite E, H5 in H6. done. }
  exists s, s', t, h, b, n. split_and!; [done|by rewrite E1|unfold ac_Phase in *; by rewrite E2 in H6|exact E3].
Defined.

(** The robot reports the end of its work; the user then asks to cancel it, and the controller looks again. *)
Lemma terminal_is_final_witness : exists a a', ac_Phase a = ActionPhaseSucceeded /\ ac_Desired a' = DesiredStateCancelled /\ sameEnd a a'.
Proof.
  assert (Hrun : twoEnds [OCreate exNew; exPass1 exDispatch; ORun exDispatch (exReported ACTION_STATE_SUCCEEDED)] [OEdit "haul" ∅ exCancelled; exPass1 exDispatch] "haul"
    (fun a a' => (ac_Phase a =s ActionPhaseSucceeded) && (ac_Desired a' =s DesiredStateCancelled) && (ac_UID a' =s ac_UID a)) = true) by (vm_compute; reflexivity).
  destruct (twoEnds_run _ _ _ _ Hrun)
    as (s & s' & a & a' & H1 & H2 & H3 & H4 & [[H5 H6]%andb_true_iff H7]%andb_true_iff). str_bool.
  exists a, a'. split_and!; [done|done|]. exact (terminal_is_final s s' "haul" a a' H1 H2 H3 (or_introl H5) H4 H7).
Defined.

(** An assigned action is put on hold, and then cancelled. *)
Lemma paused_left_in_any_run_witness : exists h b n, ac_Phase b = ActionPhasePaused /\ ac_Phase n = ActionPhaseCancelled /\
  (leftPaused h b n \/ exists u, rp_ActionId u = "haul" /\ reportedEnd h u b n).
Proof.
  assert (Hrun : firstWrite [OCreate exNew; exPass1 exDispatch; OEdit "haul" ∅ exPaused; exPass1 exDispatch; OEdit "haul" ∅ exCancelled] exDispatch
    (TPass (exReconciler true) "haul") "haul" (fun cur new => (ac_Phase cur =s ActionPhasePaused) && (ac_Phase new =s ActionPhaseCancelled)) = true) by (vm_compute; reflexivity).
  destruct (firstWrite_step _ _ _ _ _ Hrun) as (s & s' & cur & new & H1 & H2 & H3 & H4 & [H5 H6]%andb_true_iff). str_bool.
  destruct (paused_left_in_any_run s s' "haul" cur new H1 H2 H3 H4 H5) as (h & b & n & E1 & _ & E2 & E3); [by rewrite H6|].
  exists h, b, n. unfold ac_Phase in *. rewrite E2 in H6. split_and!; [congruence|done|exact E3].
Defined.

(** The end of work in progress, retained by its adapter, is stored and acknowledged. *)
Lemma retained_acknowledged_when_decided_witness : exists h : list AObs,
  Seen (ALiveGetAction "haul") (Err NotFound) ∈ h \/
  exists b, Seen (ALiveGetAction "haul") (Ok b) ∈ h /\ ownGeneration (mkReport "haul" ACTION_STATE_SUCCEEDED "" (Some 3) 0 ACTION_END_CAUSE_UNSPECIFIED "") b /\
    (endedPhase (ac_Phase b) = true \/
     (exists n rv, Seen (AStatus b n) (Ok rv) ∈ h /\ reportRow h (mkReport "haul" ACTION_STATE_SUCCEEDED "" (Some 3) 0 ACTION_END_CAUSE_UNSPECIFIED "") b n) \/
     ACTION_STATE_SUCCEEDED = ACTION_STATE_FAILED /\ liveWork (ac_Phase b) = false /\ (coveredSeen h b \/ ACTION_END_CAUSE_UNSPECIFIED = ACTION_END_CAUSE_ESTOP)).
Proof.
  set (u := mkReport "haul" ACTION_STATE_SUCCEEDED "" (Some 3) 0 ACTION_END_CAUSE_UNSPECIFIED "").
  destruct (runEnd (exAnswer (exRunning RobotEstopNormal)) (IngestRetainedOutcome (mkIngestor true true) (mkStream "ad" "c1" true) u) []) as [[h [ack err]]|] eqn:E;
    [|vm_compute in E; discriminate E].
  assert (Hack : option_map (fun x => x.2.1) (Some (h, (ack, err))) = Some true) by (rewrite <- E; vm_compute; reflexivity). injection Hack as ->.
  apply runEnd_returns with (ans := actAnswered) in E; [|apply exAnswer_answered]. exists h.
  exact (retained_acknowledged_when_decided (mkIngestor true true) (mkStream "ad" "c1" true) u h err E).
Defined.
