(* ===== verification/EstopControl.v ===== *)
(** src/internal/controller/zoneestop_controller.go, namespaceestop_controller.go and
    robotestop_controller.go with estop_trigger.go, estop_fanout.go, estop_actor.go, estop_hold.go and
    robotKeepsStopFinalizer of stop_outcome.go: the controllers that apply and clear the stop of a zone, of
    a namespace and of a robot, and answer resume requests. A pass is a program of Conc over the calls of
    one namespace; the fan-out runs one goroutine per robot (Par). The confirmed stop, the clear and the
    resume of one robot are the Dispatcher's (Safety): here they are calls. Messages, logs and metrics are
    left out; a Kubernetes Event is its reason. *)

From S2P Require Import Prelude.
From S2P Require Import Types.
From S2P Require Import Contract.
From S2P Require Import Conc.
From S2P Require Import Along.
From S2P Require Import Par.
From S2P Require Import EstopScope.
From S2P Require Import ExecutorGuard.
From S2P Require Import SafetyData.
From S2P Require Import Safety.
From S2P Require Import ExecutorGate.
From S2P Require Import ActionData.

Definition annEstopTriggered : string := TriggerAnnotation.
Definition annEstopProcessed : string := ProcessedAnnotation.
Definition annEstopActor : string := "swarmada.io/estop-actor".
Definition annPendingFirmwareVersion : string := "swarmada.io/pending-firmware-version".
Definition annPendingFirmwareURI : string := "swarmada.io/pending-firmware-uri".
Definition annPendingFirmwareChecksum : string := "swarmada.io/pending-firmware-checksum".
Definition EstopResumeAnnotation : string := "swarmada.io/estop-resume".
Definition EstopResumeProcessedAnnotation : string := "swarmada.io/estop-resume-processed".
Definition EstopResumeClaimedAnnotation : string := "swarmada.io/estop-resume-claimed".
Definition zoneEstopWalkCap : nat := MaxAncestors.
Definition stopInForceResync : Duration := 30 * Second.

Definition ZoneEstopStatus : Type := string.
Definition ZoneEstopClear : ZoneEstopStatus := "Clear".
Definition ZoneEstopTriggered : ZoneEstopStatus := "Triggered".
Definition ZoneEstopChildTriggered : ZoneEstopStatus := "ChildTriggered".

(** ** Objects *)

Inductive ObjKind := KZone | KConfig | KRobot.

(** A FleetZone with the status fields these controllers write. *)
Record StopZone := mkStopZone { sz_Zone : FleetZone; sz_EstopStatus : ZoneEstopStatus; sz_LastEstopAt : option Time }.

Definition ItOf (k : ObjKind) : Type := match k with KZone => StopZone | KConfig => SwarmadaConfig | KRobot => Robot end.

(** An object as a reader has it: its resourceVersion, whether it carries the stop finalizer, and whether it
    is being deleted. *)
Record Obj (A : Type) := mkObj { o_rv : Z; o_Finalizer : bool; o_Deleted : bool; o_It : A }.
Arguments mkObj {A}.
Arguments o_rv {A}.
Arguments o_Finalizer {A}.
Arguments o_Deleted {A}.
Arguments o_It {A}.

Definition objName (k : ObjKind) : ItOf k -> string :=
  match k with KZone => fun z => fz_Name (sz_Zone z) | KConfig => sc_Name | KRobot => r_Name end.

Definition uidOf (k : ObjKind) : ItOf k -> string :=
  match k with KZone => fun z => fz_UID (sz_Zone z) | KConfig => sc_UID | KRobot => r_UID end.

Definition annsOf (k : ObjKind) : ItOf k -> gmap string string :=
  match k with KZone => fun z => fz_Annotations (sz_Zone z) | KConfig => sc_Annotations | KRobot => r_Annotations end.

Definition zoneAnns (z : FleetZone) (m : gmap string string) : FleetZone := mkFleetZone (fz_Name z) (fz_Namespace z) (fz_UID z) m (fz_Spec z) (fz_Status z).

Definition robotAnns (r : Robot) (m : gmap string string) : Robot :=
  mkRobot (r_Name r) (r_Namespace r) (r_UID r) m (r_DeletionTimestamp r) (r_Zone r) (r_Manufacturer r) (r_Phase r) (r_CurrentZone r)
    (r_BatteryPercent r) (r_Capabilities r) (r_SensorStreams r) (r_EstopHeldBy r) (r_Adapter r) (r_EstopState r) (r_Stops r).

Definition withHolds (r : Robot) (l : list EstopHold) : Robot :=
  mkRobot (r_Name r) (r_Namespace r) (r_UID r) (r_Annotations r) (r_DeletionTimestamp r) (r_Zone r) (r_Manufacturer r) (r_Phase r) (r_CurrentZone r)
    (r_BatteryPercent r) (r_Capabilities r) (r_SensorStreams r) l (r_Adapter r) (r_EstopState r) (r_Stops r).

Definition setAnns (k : ObjKind) : ItOf k -> gmap string string -> ItOf k :=
  match k with
  | KZone => fun z m => mkStopZone (zoneAnns (sz_Zone z) m) (sz_EstopStatus z) (sz_LastEstopAt z)
  | KConfig => fun c m => mkSwarmadaConfig (sc_Name c) (sc_UID c) m
  | KRobot => robotAnns
  end.

(** An object with other annotations, and with or without the stop finalizer. *)
Definition withAnns {k : ObjKind} (o : Obj (ItOf k)) (m : gmap string string) : Obj (ItOf k) := mkObj (o_rv o) (o_Finalizer o) (o_Deleted o) (setAnns k (o_It o) m).
Definition withFinalizer {k : ObjKind} (o : Obj (ItOf k)) (b : bool) : Obj (ItOf k) := mkObj (o_rv o) b (o_Deleted o) (o_It o).

Definition annotations {k : ObjKind} (o : Obj (ItOf k)) : gmap string string := annsOf k (o_It o).

(** ** Calls *)

Inductive patchError := PConflict | PNotFound | PFailed.

Record StopAudit := mkStopAudit { sa_Event : string; sa_Outcome : string; sa_Actor : string * string; sa_Kind : string; sa_Name : string; sa_Detail : list (string * string) }.

Inductive StopEv :=
| SGet (k : ObjKind) (name : string)                             (* through the client's cache *)
| SLiveGet (k : ObjKind) (name : string)                         (* through the API reader, as the lists below *)
| SRobots
| SZones
| SConfigs
| SCachedZones
| SNamespaceDeleted
| SPatch (k : ObjKind) (lock : bool) (base new : Obj (ItOf k))   (* the metadata, with the resourceVersion or without *)
| SZoneStatus (lock : bool) (base new : Obj (ItOf KZone))
| SHolds (base : Obj Robot) (holds : list EstopHold)             (* status.estopHeldBy, under base's resourceVersion *)
| STrigger (robot reason issuedBy : string) (scope : EstopScope) (carrier : Carrier)
| SClear (robot clearedBy : string) (ends : Ends)
| SSent (carrier : Carrier)                                      (* Dispatcher.SentUnrecorded *)
| SConfirm (robot confirmedBy : string)
| SAnswered (key : string)                                       (* the map of answered requests *)
| SStoreAnswered (key value : string)
| SNow
| SEvent (on reason : string)
| SAudit (entry : StopAudit)
| SPick.                                                         (* the scheduler *)

Definition stopResp (e : StopEv) : Type :=
  match e with
  | SGet k _ | SLiveGet k _ => result readError (Obj (ItOf k))
  | SRobots => option (list Robot)
  | SZones => option (list FleetZone)
  | SConfigs => option (list SwarmadaConfig)
  | SCachedZones => option (list (Obj (ItOf KZone)))
  | SNamespaceDeleted => result readError bool
  | SPatch k _ _ _ => result patchError (Obj (ItOf k))
  | SZoneStatus _ _ _ => result patchError (Obj (ItOf KZone))
  | SHolds _ _ => option patchError
  | STrigger _ _ _ _ _ => Result * option stopError
  | SClear _ _ _ => result () RobotEstopState
  | SSent _ => gset string
  | SConfirm _ _ => result () (RobotEstopState * string)
  | SAnswered _ => option string
  | SNow => Time
  | SPick => bool
  | SStoreAnswered _ _ | SEvent _ _ | SAudit _ => unit
  end.

Notation P := (prog stopResp).
Notation call := (@Conc.trigger StopEv stopResp).

(** The Estopper, Audit, Recorder and Resumer that are wired, whether the Estopper keeps the stops it has
    sent, and the layout RFC3339Nano. *)
Record StopCtl := mkStopCtl {
  ct_Estopper : bool;
  ct_Audit : bool;
  ct_Recorder : bool;
  ct_Resumer : bool;
  ct_KeepsSent : bool;
  ct_RFC3339Nano : Time -> string
}.

Inductive ctlError :=
| CRead (what : string)
| CWrite (what : string) (e : patchError)
| CStops (robot : string)                         (* the stop guard has no answer *)
| CState (robot : string) (e : stopError)         (* the stop's outcome was not written *)
| CUnwritten (carrier : string) (n : Z)           (* outcomes or records of n robots were not written *)
| CClear (robot : string)
| CJoin (errs : list ctlError).

Definition tryBind {A B : Type} (p : P (result ctlError A)) (k : A -> P (result ctlError B)) : P (result ctlError B) :=
  let* r := p in match r with Ok a => k a | Err e => Ret (Err e) end.

Notation "'let*?' x := p 'in' k" := (tryBind p (fun x => k))
  (at level 10, x pattern, p at level 100, k at level 200) : go_scope.

(** ctrl.Result: nothing, or RequeueAfter. *)
Definition Res : Type := result ctlError (option Duration).
Definition done : P Res := Ret (Ok None).

Definition when (b : bool) (p : P unit) : P unit := if b then p else Ret tt.

(** errors.Join *)
Definition joinErrs (errs : list ctlError) : option ctlError := match errs with [] => None | _ => Some (CJoin errs) end.

(** ** Reasons, actors, holders (estop_trigger.go, estop_actor.go) *)

Definition estopReasonNoneGiven : string := "none given".

Definition estopReason (trigger scopeDefault : string) : string :=
  if trigger =s "" then estopReasonNoneGiven else if trigger =s "true" then scopeDefault else trigger.

Definition unattributedPrefix : string := "unattributed:".
Definition ActorUser : string := "user".
Definition ActorServiceAccount : string := "service-account".

Definition estopActor (anns : gmap string string) (scope : string) : string * string :=
  let user := valueOf anns annEstopActor in
  if user <>s "" then (ActorUser, user) else (ActorServiceAccount, unattributedPrefix +:+ scope).

Definition consumeEstopActor (anns : gmap string string) : gmap string string := delete annEstopActor anns.

Definition estopActorIdentity (anns : gmap string string) (scope : string) : string := (estopActor anns scope).2.

Definition listZones : P (result ctlError (list FleetZone)) :=
  let* r := call SZones in match r with Some l => Ret (Ok l) | None => Ret (Err (CRead "zones")) end.

Definition listConfigs : P (result ctlError (list SwarmadaConfig)) :=
  let* r := call SConfigs in match r with Some l => Ret (Ok l) | None => Ret (Err (CRead "swarmadaconfigs")) end.

Definition listNamespaceRobots : P (result ctlError (list Robot)) :=
  let* r := call SRobots in match r with Some l => Ret (Ok l) | None => Ret (Err (CRead "robots")) end.

Definition readStandingStops : P (result ctlError (list FleetZone * list SwarmadaConfig)) :=
  let*? zones := listZones in let*? configs := listConfigs in Ret (Ok (zones, configs)).

Definition kindWord (k : Kind) : string := match k with KindRobot => "robot" | KindZone => "zone" | KindNamespace => "namespace" end.

Definition stopName (k : Kind) (name : string) : string := kindWord k +:+ "/" +:+ name.

Record heldRobots := mkHeldRobots { hr_own : list string; hr_wider : list string }.

Definition addHeldRobot (h : heldRobots) (robot : string) (by_ : Holder) : heldRobots :=
  match h_Kind by_ with
  | KindRobot => mkHeldRobots (hr_own h ++ [robot]) (hr_wider h)
  | k => mkHeldRobots (hr_own h) (hr_wider h ++ [robot +:+ ":" +:+ stopName k (h_Name by_)])
  end.

Definition heldDetail (h : heldRobots) (d : list (string * string)) : list (string * string) :=
  d ++ [("held_by_own_estop", String.concat "," (hr_own h)); ("held_by_wider_estop", String.concat "," (hr_wider h))].

Definition stateOrNormal (s : RobotEstopState) : RobotEstopState := if s =s "" then RobotEstopNormal else s.

(** ** The hold record (estop_hold.go) *)

Record holdRef := mkHoldRef { hf_kind : EstopHoldKind; hf_name : string; hf_uid : string }.

Definition zoneHold (z : FleetZone) : holdRef := mkHoldRef EstopHoldFleetZone (fz_Name z) (fz_UID z).
Definition configHold (c : SwarmadaConfig) : holdRef := mkHoldRef EstopHoldSwarmadaConfig (sc_Name c) (sc_UID c).

(** holdRef.names *)
Definition namesHold (h : holdRef) (e : EstopHold) : bool :=
  let kind := if eh_Kind e =s "" then EstopHoldFleetZone else eh_Kind e in (kind =s hf_kind h) && (eh_Name e =s hf_name h).

Definition hasHold (robot : Robot) (ref : holdRef) : bool := existsb (namesHold ref) (r_EstopHeldBy robot).

Definition inStopState (robot : Robot) : bool :=
  (r_EstopState robot =s RobotEstopStopping) || (r_EstopState robot =s RobotEstopStopped) || (r_EstopState robot =s RobotEstopFailed).

(** The attempts of retry.DefaultBackoff. *)
Definition DefaultBackoff : nat := 4.

Fixpoint patchHoldsLoop (n : nat) (robot : string) (edit : list EstopHold -> P (option (list EstopHold))) : P (option ctlError) :=
  match n with
  | O => Ret (Some (CWrite robot PConflict))
  | S n =>
      let* got := call (SLiveGet KRobot robot) in
      match got with
      | Err NotFound => Ret None
      | Err Unread => Ret (Some (CRead robot))
      | Ok cur =>
          let* next := edit (r_EstopHeldBy (o_It cur)) in
          match next with
          | None => Ret None
          | Some next =>
              let* err := call (SHolds cur next) in
              match err with
              | None | Some PNotFound => Ret None
              | Some PConflict => patchHoldsLoop n robot edit
              | Some PFailed => Ret (Some (CWrite robot PFailed))
              end
          end
      end
  end.

Definition patchHolds : string -> (list EstopHold -> P (option (list EstopHold))) -> P (option ctlError) := patchHoldsLoop DefaultBackoff.

Definition recordHold (robot : string) (ref : holdRef) : P (option ctlError) :=
  patchHolds robot (fun held =>
    if existsb (namesHold ref) held then Ret None
    else let* now := call SNow in Ret (Some (held ++ [mkEstopHold (hf_kind ref) (hf_name ref) (hf_uid ref) (toSecond now)]))).

Definition dropHolds (robot : string) (drop : EstopHold -> bool) : P (option ctlError) :=
  patchHolds robot (fun held =>
    let out := List.filter (fun e => negb (drop e)) held in
    Ret (if (length out =? length held)%nat then None else Some out)).

Definition carriesPendingFirmware (anns : gmap string string) : bool :=
  has anns annPendingFirmwareVersion || has anns annPendingFirmwareURI || has anns annPendingFirmwareChecksum.

Definition withoutPendingFirmware (anns : gmap string string) : gmap string string :=
  delete annPendingFirmwareChecksum (delete annPendingFirmwareURI (delete annPendingFirmwareVersion anns)).

Fixpoint withdrawLoop (n : nat) (robot : string) : P (option ctlError) :=
  match n with
  | O => Ret (Some (CWrite robot PConflict))
  | S n =>
      let* got := call (SLiveGet KRobot robot) in
      match got with
      | Err NotFound => Ret None
      | Err Unread => Ret (Some (CRead robot))
      | Ok rb =>
          if negb (carriesPendingFirmware (r_Annotations (o_It rb))) then Ret None
          else
            let* w := call (SPatch KRobot true rb (withAnns (k := KRobot) rb (withoutPendingFirmware (r_Annotations (o_It rb))))) in
            match w with
            | Ok _ | Err PNotFound => Ret None
            | Err PConflict => withdrawLoop n robot
            | Err PFailed => Ret (Some (CWrite robot PFailed))
            end
      end
  end.

Definition withdrawPendingFirmwareOnStop : string -> P (option ctlError) := withdrawLoop DefaultBackoff.

Definition recordHoldAndWithdraw (robot : string) (ref : holdRef) : P (option ctlError) :=
  let* err := recordHold robot ref in
  match err with Some e => Ret (Some e) | None => withdrawPendingFirmwareOnStop robot end.

(** errors.Is(err, safety.ErrStateUnwritten) *)
Fixpoint isStateUnwritten (e : stopError) : bool :=
  match e with ErrStateUnwritten _ _ => true | ErrJoined a b => isStateUnwritten a || isStateUnwritten b | _ => false end.

Definition carrierOf (h : holdRef) : Carrier := mkCarrier (hf_kind h) (hf_name h) (hf_uid h).

Record estopOutcome := mkEstopOutcome { eo_robot : string; eo_result : Result; eo_err : option stopError; eo_recErr : option ctlError }.

Definition outcomeUnwritten (o : estopOutcome) : bool :=
  match eo_err o with Some e => isStateUnwritten e | None => false end || isSome (eo_recErr o).

(** One robot's goroutine. *)
Definition fanoutOne (reason issuedBy : string) (scope : EstopScope) (carrier : Carrier) (record : string -> P (option ctlError)) (robot : Robot) : P estopOutcome :=
  let* (res, err) := call (STrigger (r_Name robot) reason issuedBy scope carrier) in
  let* recErr := record (r_Name robot) in
  Ret (mkEstopOutcome (r_Name robot) res err recErr).

Definition estopFanoutHeld (robots : list Robot) (reason issuedBy : string) (scope : EstopScope) (carrier : Carrier)
    (record : string -> P (option ctlError)) : P (list estopOutcome) :=
  parAll SPick (fun b => b) (map (fanoutOne reason issuedBy scope carrier record) robots).

Definition recordsStop (robot : Robot) (ref : holdRef) : bool :=
  existsb (fun st => negb (isSome (rs_ClearedAt st)) &&
    match rs_Carrier st with
    | Some c => (car_Kind c =s hf_kind ref) && (car_Name c =s hf_name ref) &&
                ((hf_uid ref =s "") || (car_UID c =s "") || (car_UID c =s hf_uid ref))
    | None => false
    end) (r_Stops robot).

(** Whether a robot must still be sent the stop, and whether it only lacks its record. *)
Definition inForceTargets (ref : holdRef) (scoped all : list Robot) (sent : gset string) : list Robot * list Robot :=
  let inn := fun r => hasHold r ref || existsb (fun s => r_Name s =s r_Name r) scoped in
  let hasIt := fun r => (recordsStop r ref || bool_decide (r_Name r ∈ sent)) && inStopState r in
  (List.filter (fun r => inn r && negb (hasIt r)) all, List.filter (fun r => inn r && hasIt r && negb (hasHold r ref)) all).

Definition clearTargets (ref : holdRef) (scoped all : list Robot) : list Robot :=
  scoped ++ List.filter (fun r => negb (existsb (fun s => r_Name s =s r_Name r) scoped) && hasHold r ref) all.

Definition withoutHold (robot : Robot) (ref : holdRef) : Robot := withHolds robot (List.filter (fun e => negb (namesHold ref e)) (r_EstopHeldBy robot)).

Definition StopCarrierFleetZone : StopCarrierKind := "FleetZone".
Definition StopCarrierSwarmadaConfig : StopCarrierKind := "SwarmadaConfig".

(** The carrier of a recorded stop, its UID and annotations. *)
Definition carrierMeta (zones : list FleetZone) (configs : list SwarmadaConfig) (c : Types.StopCarrier) : option (string * gmap string string) :=
  if car_Kind c =s StopCarrierFleetZone
  then fold_left (fun m z => if fz_Name z =s car_Name c then Some (fz_UID z, fz_Annotations z) else m) zones None
  else fold_left (fun m s => if sc_Name s =s car_Name c then Some (sc_UID s, sc_Annotations s) else m) configs None.

Definition stopHasEnded (cleared : option holdRef) (zones : list FleetZone) (configs : list SwarmadaConfig) (st : RobotStop) : bool :=
  match rs_Carrier st with
  | None => false
  | Some c =>
      if match cleared with Some h => (hf_kind h =s car_Kind c) && (hf_name h =s car_Name c) | None => false end then true
      else if (car_Kind c =s StopCarrierFleetZone) || (car_Kind c =s StopCarrierSwarmadaConfig) then
        match carrierMeta zones configs c with
        | Some (uid, anns) => if (car_UID c <>s "") && (uid <>s car_UID c) then negb (isSome cleared) else negb (InForce anns)
        | None => negb (isSome cleared)
        end
      else false
  end.

Definition clearEnds (cleared : option holdRef) (drop : EstopHold -> bool) (zones : list FleetZone) (configs : list SwarmadaConfig) : Ends :=
  mkEnds (Some drop) (Some (stopHasEnded cleared zones configs)).

Section Controllers.
Context (ct : StopCtl).

Definition note (on reason : string) : P unit := when (ct_Recorder ct) (call (SEvent on reason)).
Definition seal (e : StopAudit) : P unit := when (ct_Audit ct) (call (SAudit e)).

Definition heldByStandingStop (robot : string) (h : Holder) : P unit :=
  note robot (match h_Kind h with KindRobot => "EstopHeldByOwnTrigger" | _ => "EstopHeldByWiderStop" end).

(** *** The clear of a carrier *)

Fixpoint clearCarrier (ref : holdRef) (robots : list Robot) (zones : list FleetZone) (configs : list SwarmadaConfig) (clearedBy : string)
    (cleared : Z) (held : heldRobots) (errs : list ctlError) : P (Z * heldRobots * option ctlError) :=
  match robots with
  | [] => Ret (cleared, held, joinErrs errs)
  | r :: robots =>
      let drop := fun cleared held => 
        if hasHold r ref then
          let* err := dropHolds (r_Name r) (namesHold ref) in
          clearCarrier ref robots zones configs clearedBy cleared held (errs ++ match err with Some e => [e] | None => [] end)
        else clearCarrier ref robots zones configs clearedBy cleared held errs in
      match StandingStop (withoutHold r ref) zones configs with
      | Some by_ => let* _ := heldByStandingStop (r_Name r) by_ in drop cleared (addHeldRobot held (r_Name r) by_)
      | None =>
          let* c := call (SClear (r_Name r) clearedBy (clearEnds (Some ref) (namesHold ref) zones configs)) in
          match c with
          | Err _ => clearCarrier ref robots zones configs clearedBy cleared held (errs ++ [CClear (r_Name r)])
          | Ok _ => drop (cleared + 1) held
          end
      end
  end.

(** *** The stop finalizer of a carrier *)

Definition namespaceBeingDeleted : P (result ctlError bool) :=
  let* r := call SNamespaceDeleted in
  match r with Ok b => Ret (Ok b) | Err NotFound => Ret (Ok true) | Err Unread => Ret (Err (CRead "namespace")) end.

Definition patchObj {k : ObjKind} (what : string) (base new : Obj (ItOf k)) : P (result ctlError (Obj (ItOf k))) :=
  let* r := call (SPatch k false base new) in
  match r with Ok o => Ret (Ok o) | Err e => Ret (Err (CWrite what e)) end.

(** Whether the caller is done, and the object as the server has it. *)
Definition holdStopFinalizer {k : ObjKind} (obj : Obj (ItOf k)) (hold : bool) : P (result ctlError (bool * Obj (ItOf k))) :=
  let has := o_Finalizer obj in
  let*? terminating := (if o_Deleted obj && has then namespaceBeingDeleted else Ret (Ok false)) in
  if terminating then let*? obj := patchObj "releasing the stop finalizer" obj (withFinalizer obj false) in Ret (Ok (true, obj))
  else if hold && negb has then let*? obj := patchObj "holding the stop finalizer" obj (withFinalizer obj true) in Ret (Ok (false, obj))
  else if negb hold && has then let*? obj := patchObj "releasing the stop finalizer" obj (withFinalizer obj false) in Ret (Ok (false, obj))
  else Ret (Ok (false, obj)).

(** *** The fan-out and its audit entry *)

Definition OutcomeAllowed : string := "Allowed".
Definition OutcomeDenied : string := "Denied".
Definition OutcomeError : string := "Error".
Definition EventEstopTriggered : string := "ESTOP_TRIGGERED".
Definition EventEstopCleared : string := "ESTOP_CLEARED".
Definition EventEstopResumeConfirmed : string := "ESTOP_RESUME_CONFIRMED".
Definition EventEstopResumeRefused : string := "ESTOP_RESUME_REFUSED".

(** Whether the robot is confirmed stopped. *)
Definition outcomeStopped (o : estopOutcome) : bool := negb (isSome (eo_err o)) && (re_State (eo_result o) =s RobotEstopStopped).

Definition countOf (f : estopOutcome -> bool) (l : list estopOutcome) : Z := Z.of_nat (length (List.filter f l)).

Definition worstLatency (l : list estopOutcome) : Duration :=
  fold_left (fun w o => if re_Delivered (eo_result o) && (w <? re_Latency (eo_result o)) then re_Latency (eo_result o) else w) l 0.

Definition fanoutEntry (kind name : string) (actor : string * string) (reason : string) (l : list estopOutcome) (rest : list (string * string)) : StopAudit :=
  let failed := countOf (fun o => negb (outcomeStopped o)) l in
  mkStopAudit EventEstopTriggered (if 0 <? failed then OutcomeError else OutcomeAllowed) actor kind name
    ([("reason", reason); ("robots_in_scope", String.concat "," (map eo_robot l)); ("robots", showInt (Z.of_nat (length l)));
      ("stopped", showInt (countOf outcomeStopped l)); ("unconfirmed", showInt failed); ("unwritten", showInt (countOf outcomeUnwritten l))] ++ rest).

Definition clearedEntry (kind name : string) (actor : string * string) (robots cleared : Z) (held : heldRobots) (err : option ctlError) : StopAudit :=
  mkStopAudit EventEstopCleared (if isSome err then OutcomeError else OutcomeAllowed) actor kind name
    (heldDetail held [("robots", showInt robots); ("cleared", showInt cleared)]).

Definition maxLatency (l : list estopOutcome) : list (string * string) := [("max_ack_latency_ms", showInt (worstLatency l / Millisecond))].

(** The marker: an object whose trigger was applied. *)
Definition markProcessed (anns : gmap string string) (value : string) : gmap string string := consumeEstopActor (<[annEstopProcessed := value]> anns).
Definition dropProcessed (anns : gmap string string) : gmap string string := consumeEstopActor (delete annEstopProcessed anns).

(** One robot's record callback for a carrier. *)
Definition recordFor (ref : holdRef) (robot : string) : P (option ctlError) := recordHoldAndWithdraw robot ref.

Definition sentUnrecorded (ref : holdRef) : P (gset string) := if ct_KeepsSent ct then call (SSent (carrierOf ref)) else Ret ∅.

(** The robots that only lack their record. *)
Fixpoint recordEach (ref : holdRef) (robots : list Robot) : P (list ctlError) :=
  match robots with
  | [] => Ret []
  | r :: robots =>
      let* err := recordHoldAndWithdraw (r_Name r) ref in
      let* errs := recordEach ref robots in
      Ret (match err with Some e => e :: errs | None => errs end)
  end.

(** holdLateArrivals, after the robots are read: the zone's and the namespace's differ in their texts only. *)
Definition lateArrivals (ref : holdRef) (scope : EstopScope) (kind actor reason : string) (scoped all : list Robot) (sent : gset string) : P (option ctlError) :=
  let '(late, recordOnly) := inForceTargets ref scoped all sent in
  let* errs := recordEach ref recordOnly in
  if bool_decide (late = []) then Ret (joinErrs errs)
  else
    let* outcomes := estopFanoutHeld late reason actor scope (carrierOf ref) (recordFor ref) in
    let* _ := seal (fanoutEntry kind (hf_name ref) (ActorServiceAccount, actor) reason outcomes [("late_arrival", "true")]) in
    let unwritten := countOf outcomeUnwritten outcomes in
    Ret (joinErrs (errs ++ if 0 <? unwritten then [CUnwritten (hf_name ref) unwritten] else [])).

(** *** The zone's controller *)

Fixpoint maskOf {A : Type} (l : list A) (mask : list bool) : list A :=
  match l, mask with x :: l, b :: mask => if b then x :: maskOf l mask else maskOf l mask | _, _ => [] end.

Definition robotsInEstopScope (zoneName : string) (toChildren : bool) : P (result ctlError (list Robot)) :=
  let*? all := listNamespaceRobots in
  let*? zs := listZones in
  let '(inn, undecidedAt) := FanOutScope (TreeOf zs) zoneName (map zoneOf all) toChildren in
  let* _ := (if bool_decide (undecidedAt = []) || negb (ct_Recorder ct) then Ret tt
             else
               let* z := call (SLiveGet KZone zoneName) in
               match z with Ok _ => call (SEvent zoneName "EstopScopeUndecided") | Err _ => Ret tt end) in
  Ret (Ok (maskOf all inn)).

(** *** The status projection *)

Notation ZoneObj := (Obj StopZone).
Notation ZoneMap := (gmap string (Obj StopZone)).

Definition zoneIn (o : ZoneObj) : FleetZone := sz_Zone (o_It o).

Definition estopInForce (fz : FleetZone) : bool := has (fz_Annotations fz) annEstopProcessed.

Definition notifiesParent (fz : FleetZone) : bool := match fzs_EstopPolicy (fz_Spec fz) with Some p => zep_PropagateToParent p | None => false end.

(** The zones above: whether an estop in force there propagates down, within [more] of them. *)
Fixpoint aboveInForce (zones : ZoneMap) (more : nat) (name : string) : bool :=
  match more with
  | O => false
  | S more =>
      if name =s "" then false
      else match zones !! name with
           | None => false
           | Some anc => if estopInForce (zoneIn anc) && propagatesDown (zoneIn anc) then true else aboveInForce zones more (parentOf (zoneIn anc))
           end
  end.

Definition derivedEstopStatus (zones : ZoneMap) (fz : FleetZone) : ZoneEstopStatus :=
  if estopInForce fz then ZoneEstopTriggered
  else if aboveInForce zones zoneEstopWalkCap (parentOf fz) then ZoneEstopTriggered
  else if existsb (fun child => (parentOf (zoneIn child) =s fz_Name fz) && (fz_Name (zoneIn child) <>s fz_Name fz) &&
                                estopInForce (zoneIn child) && notifiesParent (zoneIn child)) (map snd (map_to_list zones))
  then ZoneEstopChildTriggered
  else ZoneEstopClear.

Fixpoint isBelow (zones : ZoneMap) (triggered : string) (more : nat) (name : string) : bool :=
  match more with
  | O => false
  | S more =>
      if name =s "" then false
      else if name =s triggered then true
      else match zones !! name with None => false | Some anc => isBelow zones triggered more (parentOf (zoneIn anc)) end
  end.

Definition estopReaches (zones : ZoneMap) (triggered fz : FleetZone) : bool :=
  if fz_Name fz =s fz_Name triggered then true
  else if notifiesParent triggered && (fz_Name fz =s parentOf triggered) then true
  else if negb (propagatesDown triggered) then false
  else isBelow zones (fz_Name triggered) zoneEstopWalkCap (parentOf fz).

(** What the projection writes on a zone: nothing when its pair is unchanged. *)
Definition projected (zones : ZoneMap) (triggered : option FleetZone) (now : Time) (fz : ZoneObj) : option ZoneObj :=
  let want := derivedEstopStatus zones (zoneIn fz) in
  let stamp := if want =s ZoneEstopClear then None
               else if negb (isSome (sz_LastEstopAt (o_It fz))) || match triggered with Some t => estopReaches zones t (zoneIn fz) | None => false end
               then Some now else sz_LastEstopAt (o_It fz) in
  let have := if sz_EstopStatus (o_It fz) =s "" then ZoneEstopClear else sz_EstopStatus (o_It fz) in
  if (have =s want) && bool_decide (stamp = sz_LastEstopAt (o_It fz)) then None
  else Some (mkObj (o_rv fz) (o_Finalizer fz) (o_Deleted fz) (mkStopZone (zoneIn fz) want stamp)).

(** The loop over the names: a zone that is written is from then on as the server answered it. [triggered] is
    the name of the zone whose stop this pass fanned out. *)
Fixpoint projectLoop (zones : ZoneMap) (triggered : option string) (now : Time) (names : list string) : P (option ctlError) :=
  match names with
  | [] => Ret None
  | name :: names =>
      match zones !! name with
      | None => projectLoop zones triggered now names
      | Some fz =>
          match projected zones (t ← triggered; zoneIn <$> zones !! t) now fz with
          | None => projectLoop zones triggered now names
          | Some new =>
              let* r := call (SZoneStatus true fz new) in
              match r with Ok o => projectLoop (<[name := o]> zones) triggered now names | Err e => Ret (Some (CWrite name e)) end
          end
      end
  end.

Definition projectEstopStatus (current : ZoneObj) (stampAt : option Time) : P (option ctlError) :=
  let* r := call SCachedZones in
  match r with
  | None => Ret (Some (CRead "zones"))
  | Some l =>
      let zones := <[fz_Name (zoneIn current) := current]> (fold_left (fun m o => <[fz_Name (zoneIn o) := o]> m) l ∅) : ZoneMap in
      let listed := map (fun o => fz_Name (zoneIn o)) l in
      let names := sort_Strings (listed ++ if existsb (String.eqb (fz_Name (zoneIn current))) listed then [] else [fz_Name (zoneIn current)]) in
      let* wall := call SNow in
      let now := match stampAt with Some t => t | None => toSecond wall end in
      projectLoop zones (if isSome stampAt then Some (fz_Name (zoneIn current)) else None) now names
  end.

(** The error of the projection, after all else is done. *)
Definition afterProjection (r : option Duration) (p : P (option ctlError)) : P Res :=
  let* err := p in match err with Some e => Ret (Err e) | None => Ret (Ok r) end.

(** *** The zone's pass *)

Definition zoneRef (zone : ZoneObj) : holdRef := zoneHold (zoneIn zone).

Definition lateArrivalActor : string := "zoneestop-controller".

Definition zoneLateArrivals (zone : ZoneObj) (trigger : string) : P (option ctlError) :=
  let name := fz_Name (zoneIn zone) in
  let* sent := sentUnrecorded (zoneRef zone) in
  let* scoped := robotsInEstopScope name (propagatesDown (zoneIn zone)) in
  match scoped with
  | Err e => Ret (Some e)
  | Ok scoped =>
      let* all := listNamespaceRobots in
      match all with
      | Err e => Ret (Some e)
      | Ok all =>
          lateArrivals (zoneRef zone) ScopeZone "FleetZone" lateArrivalActor
            (estopReason trigger "zone emergency stop" +:+ " (zone " +:+ name +:+ "; the robot arrived after the stop)") scoped all sent
      end
  end.

Definition clearZoneEstop (zone : ZoneObj) : P Res :=
  let name := fz_Name (zoneIn zone) in
  let actor := estopActor (fz_Annotations (zoneIn zone)) ("zone-estop:" +:+ name) in
  let*? scoped := robotsInEstopScope name (propagatesDown (zoneIn zone)) in
  let*? all := listNamespaceRobots in
  let robots := clearTargets (zoneRef zone) scoped all in
  let*? (zones, configs) := readStandingStops in
  let* (cleared, held, err) := clearCarrier (zoneRef zone) robots zones configs actor.2 0 (mkHeldRobots [] []) [] in
  let* _ := seal (clearedEntry "FleetZone" name actor (Z.of_nat (length robots)) cleared held err) in
  match err with
  | Some e => Ret (Err e)
  | None =>
      let new := withFinalizer (k := KZone) (withAnns (k := KZone) zone (dropProcessed (fz_Annotations (zoneIn zone)))) false in
      let*? zone := patchObj (k := KZone) "clearing estop processed marker" zone new in
      afterProjection None (projectEstopStatus zone None)
  end.

Definition notifyParent (zone : ZoneObj) (toParent : bool) : P unit :=
  let parent := parentOf (zoneIn zone) in
  if toParent && (parent <>s "") && ct_Recorder ct then
    let* p := call (SGet KZone parent) in
    match p with Ok _ => call (SEvent parent "ChildEstopTriggered") | Err _ => Ret tt end
  else Ret tt.

(** The status is stamped before the marker. *)
Definition stampedZone (zone : ZoneObj) (at_ : Time) : ZoneObj :=
  mkObj (o_rv zone) (o_Finalizer zone) (o_Deleted zone) (mkStopZone (zoneIn zone) ZoneEstopTriggered (Some at_)).

Definition fanOutZone (zone : ZoneObj) (trigger : string) : P Res :=
  let name := fz_Name (zoneIn zone) in
  let reason := estopReason trigger "zone emergency stop" in
  let actor := estopActor (fz_Annotations (zoneIn zone)) ("zone-estop:" +:+ name) in
  let toParent := notifiesParent (zoneIn zone) in
  let*? robots := robotsInEstopScope name (propagatesDown (zoneIn zone)) in
  let* outcomes := estopFanoutHeld robots reason actor.2 ScopeZone (carrierOf (zoneRef zone)) (recordFor (zoneRef zone)) in
  let* _ := seal (fanoutEntry "FleetZone" name actor reason outcomes (maxLatency outcomes)) in
  let unwritten := countOf outcomeUnwritten outcomes in
  if 0 <? unwritten then Ret (Err (CUnwritten name unwritten))
  else
    let* _ := notifyParent zone toParent in
    let* now := call SNow in
    let stampAt := toSecond now in
    let* r := call (SZoneStatus false zone (stampedZone zone stampAt)) in
    match r with
    | Err e => Ret (Err (CWrite "zone estop status" e))
    | Ok zone =>
        let*? zone := patchObj (k := KZone) "recording estop processed" zone (withAnns (k := KZone) zone (markProcessed (fz_Annotations (zoneIn zone)) trigger)) in
        afterProjection None (projectEstopStatus zone (Some stampAt))
    end.

Definition ZoneReconcile (name : string) : P Res :=
  let* got := call (SGet KZone name) in
  match got with
  | Err NotFound => done
  | Err Unread => Ret (Err (CRead "fleetzone"))
  | Ok zone =>
      if negb (ct_Estopper ct) then done
      else
        let trigger := fz_Annotations (zoneIn zone) !! annEstopTriggered in
        let processed := fz_Annotations (zoneIn zone) !! annEstopProcessed in
        let*? (over, zone) := holdStopFinalizer (k := KZone) zone (isSome trigger || isSome processed) in
        if over then done
        else match trigger, processed with
        | Some t, Some p =>
            if p =s t then
              let* err := zoneLateArrivals zone t in
              match err with Some e => Ret (Err e) | None => afterProjection (Some stopInForceResync) (projectEstopStatus zone None) end
            else fanOutZone zone t
        | Some t, None => fanOutZone zone t
        | None, Some _ => clearZoneEstop zone
        | None, None => afterProjection None (projectEstopStatus zone None)
        end
  end.

(** *** The namespace's pass *)

Definition namespaceLateArrivalActor : string := "namespaceestop-controller".

Definition configLateArrivals (namespace : string) (cfg : Obj SwarmadaConfig) (trigger : string) : P (option ctlError) :=
  let ref := configHold (o_It cfg) in
  let* sent := sentUnrecorded ref in
  let* all := listNamespaceRobots in
  match all with
  | Err e => Ret (Some e)
  | Ok all =>
      lateArrivals ref ScopeNamespace "SwarmadaConfig" namespaceLateArrivalActor
        (estopReason trigger "namespace emergency stop" +:+ " (namespace " +:+ namespace +:+ "; the robot arrived after the stop)") all all sent
  end.

Definition clearNamespaceEstop (namespace : string) (cfg : Obj SwarmadaConfig) : P Res :=
  let actor := estopActor (sc_Annotations (o_It cfg)) ("namespace-estop:" +:+ namespace) in
  let*? robots := listNamespaceRobots in
  let*? (zones, configs) := readStandingStops in
  let* (cleared, held, err) := clearCarrier (configHold (o_It cfg)) robots zones configs actor.2 0 (mkHeldRobots [] []) [] in
  let* _ := seal (clearedEntry "SwarmadaConfig" (sc_Name (o_It cfg)) actor (Z.of_nat (length robots)) cleared held err) in
  match err with
  | Some e => Ret (Err e)
  | None =>
      let new := withFinalizer (k := KConfig) (withAnns (k := KConfig) cfg (dropProcessed (sc_Annotations (o_It cfg)))) false in
      let*? _ := patchObj (k := KConfig) "clearing namespace estop processed marker" cfg new in done
  end.

Definition fanOutNamespace (namespace : string) (cfg : Obj SwarmadaConfig) (trigger : string) : P Res :=
  let ref := configHold (o_It cfg) in
  let reason := estopReason trigger "namespace emergency stop" in
  let actor := estopActor (sc_Annotations (o_It cfg)) ("namespace-estop:" +:+ namespace) in
  let*? robots := listNamespaceRobots in
  let* outcomes := estopFanoutHeld robots reason actor.2 ScopeNamespace (carrierOf ref) (recordFor ref) in
  let* _ := seal (fanoutEntry "SwarmadaConfig" (sc_Name (o_It cfg)) actor reason outcomes (maxLatency outcomes)) in
  let unwritten := countOf outcomeUnwritten outcomes in
  if 0 <? unwritten then Ret (Err (CUnwritten namespace unwritten))
  else
    let*? _ := patchObj (k := KConfig) "recording namespace estop processed" cfg (withAnns (k := KConfig) cfg (markProcessed (sc_Annotations (o_It cfg)) trigger)) in done.

Definition NamespaceReconcile (namespace name : string) : P Res :=
  let* got := call (SGet KConfig name) in
  match got with
  | Err NotFound => done
  | Err Unread => Ret (Err (CRead "swarmadaconfig"))
  | Ok cfg =>
      if negb (ct_Estopper ct) then done
      else
        let trigger := sc_Annotations (o_It cfg) !! annEstopTriggered in
        let processed := sc_Annotations (o_It cfg) !! annEstopProcessed in
        let*? (over, cfg) := holdStopFinalizer (k := KConfig) cfg (isSome trigger || isSome processed) in
        if over then done
        else match trigger, processed with
        | Some t, Some p =>
            if p =s t then
              let* err := configLateArrivals namespace cfg t in
              match err with Some e => Ret (Err e) | None => Ret (Ok (Some stopInForceResync)) end
            else fanOutNamespace namespace cfg t
        | Some t, None => fanOutNamespace namespace cfg t
        | None, Some _ => clearNamespaceEstop namespace cfg
        | None, None => done
        end
  end.

(** *** The robot's pass *)

Notation RobotObj := (Obj Robot).

Definition carriesOwnStop (robot : Robot) : bool := has (r_Annotations robot) annEstopTriggered || has (r_Annotations robot) annEstopProcessed.

Definition robotKeepsStopFinalizer (robot : Robot) : P (result ctlError bool) :=
  if KeepsStopFinalizer (carriesOwnStop robot) (estopHoldsWork robot) then Ret (Ok true)
  else
    let*? (zones, configs) := readStandingStops in
    match stopNamesOf zones configs robot with
    | Err _ => Ret (Err (CStops (r_Name robot)))
    | Ok stops => Ret (Ok (KeepsStopFinalizer false (negb (bool_decide (stops = [])))))
    end.

Definition showBool (b : bool) : string := if b then "true" else "false".

Definition estopTimingDetail (detail : list (string * string)) (sentAt : Time) (res : Result) : list (string * string) :=
  detail ++ [("rpc_sent_at", ct_RFC3339Nano ct sentAt); ("delivered", showBool (re_Delivered res))] ++
  (if re_Delivered res
   then [("ack_received_at", ct_RFC3339Nano ct (sentAt + re_Latency res)); ("ack_latency_ms", showInt (re_Latency res / Millisecond));
         ("latency_violation", showBool (re_LatencyViolation res))]
   else []).

Definition robotCarrier (robot : Robot) : Carrier := mkCarrier StopCarrierRobot (r_Name robot) (r_UID robot).

Definition issueRobotEstop (robot : RobotObj) (trigger : string) : P Res :=
  let name := r_Name (o_It robot) in
  let reason := estopReason trigger "robot emergency stop" in
  let actor := estopActor (r_Annotations (o_It robot)) ("robot-estop:" +:+ name) in
  let* sentAt := call SNow in
  let* (res, err) := call (STrigger name reason actor.2 ScopeRobot (robotCarrier (o_It robot))) in
  let unwritten := match err with Some e => isStateUnwritten e | None => false end in
  let confirmed := negb (isSome err) && (re_State res =s RobotEstopStopped) in
  let* _ := seal (mkStopAudit EventEstopTriggered (if confirmed then OutcomeAllowed else OutcomeError) actor "Robot" name
    (estopTimingDetail [("reason", reason); ("state", re_State res); ("state_written", showBool (negb unwritten))] sentAt res)) in
  match (if unwritten then err else None) with
  | Some e => Ret (Err (CState name e))
  | None =>
      let*? _ := patchObj (k := KRobot) "recording robot estop processed" robot
        (withAnns (k := KRobot) robot (consumeEstopActor (withoutPendingFirmware (<[annEstopProcessed := trigger]> (r_Annotations (o_It robot)))))) in done
  end.

(** What a clear keeps: the records of the holders that still stand. *)
Definition keptRecords (holders : list Holder) : list string :=
  omap (fun h => if negb (h_Orphaned h) && h_Recorded h then Some (stopName (h_Kind h) (h_Name h)) else None) holders.

Definition endsRecord (keep : list string) (e : EstopHold) : bool := negb (existsb (String.eqb (stopName (HoldKind (eh_Kind e)) (eh_Name e))) keep).

Definition clearRobotEstop (robot : RobotObj) : P Res :=
  let name := r_Name (o_It robot) in
  let actor := estopActor (r_Annotations (o_It robot)) ("robot-estop:" +:+ name) in
  let*? (zones, configs) := readStandingStops in
  let holders := Holders (o_It robot) zones configs in
  let orphaned := map (fun h => stopName (h_Kind h) (h_Name h)) (List.filter h_Orphaned holders) in
  let keep := keptRecords holders in
  let*? held := match List.filter (fun h => negb (h_Orphaned h)) holders with
    | h :: _ => let* _ := heldByStandingStop name h in Ret (Ok (Some h))
    | [] =>
        let* c := call (SClear name actor.2 (clearEnds None (endsRecord keep) zones configs)) in
        match c with Ok _ => Ret (Ok None) | Err _ => Ret (Err (CClear name)) end
    end in
  let* err := dropHolds name (endsRecord keep) in
  match err with
  | Some e => Ret (Err e)
  | None =>
      let* _ := seal (mkStopAudit EventEstopCleared OutcomeAllowed actor "Robot" name
        (match held with Some h => [("held_by", stopName (h_Kind h) (h_Name h))] | None => [] end ++
         if bool_decide (orphaned = []) then [] else [("released_orphaned_holds", String.concat "," orphaned)])) in
      let new := withAnns (k := KRobot) robot (dropProcessed (r_Annotations (o_It robot))) in
      let*? keepFinalizer := robotKeepsStopFinalizer (o_It new) in
      let*? _ := patchObj (k := KRobot) "clearing robot estop processed marker" robot (if keepFinalizer then new else withFinalizer (k := KRobot) new false) in done
  end.

(** *** Resume requests *)

Definition pendingEstopResume (anns : gmap string string) : option string :=
  match anns !! EstopResumeAnnotation with
  | None => None
  | Some req => if valueOf anns EstopResumeProcessedAnnotation =s req then None else Some req
  end.

Definition answeredKey (robot : Robot) : string := r_Namespace robot +:+ "/" +:+ r_Name robot.

Definition closeRequest (robot : RobotObj) (request : string) : P (option ctlError) :=
  let anns := r_Annotations (o_It robot) in
  if valueOf anns EstopResumeClaimedAnnotation <>s request then Ret None
  else
    let* r := call (SPatch KRobot false robot
      (withAnns (k := KRobot) robot (delete EstopResumeClaimedAnnotation (<[EstopResumeProcessedAnnotation := request]> anns)))) in
    match r with Ok _ | Err PNotFound => Ret None | Err e => Ret (Some (CWrite "closing estop resume request" e)) end.

Definition closed (robot : RobotObj) (request : string) : P Res :=
  let* err := closeRequest robot request in match err with Some e => Ret (Err e) | None => done end.

Definition closeClaim (name request : string) : P Res :=
  let* got := call (SLiveGet KRobot name) in
  match got with
  | Err NotFound => done
  | Err Unread => Ret (Err (CRead "robot"))
  | Ok robot =>
      if valueOf (r_Annotations (o_It robot)) EstopResumeClaimedAnnotation <>s request then done
      else
        let* answered := call (SAnswered (answeredKey (o_It robot))) in
        let* _ := when (negb (bool_decide (answered = Some request))) (note name "EstopResumeUnanswered") in
        closed robot request
  end.

(** What became of a claimed request: the state answered, and whether it was evaluated by the Dispatcher. *)
Definition evaluateResume (robot : RobotObj) (actor : string) : P RobotEstopState :=
  let state := r_EstopState (o_It robot) in
  let* standing := readStandingStops in
  match standing with
  | Err _ => Ret state
  | Ok (zones, configs) =>
      match StandingStop (o_It robot) zones configs with
      | Some _ => Ret state
      | None =>
          if ct_Resumer ct then
            let* r := call (SConfirm (r_Name (o_It robot)) actor) in
            match r with Ok (s, _) => Ret s | Err _ => Ret state end
          else Ret state
      end
  end.

Definition handleResumeRequest (name request : string) : P Res :=
  let* got := call (SLiveGet KRobot name) in
  match got with
  | Err NotFound => done
  | Err Unread => Ret (Err (CRead "robot"))
  | Ok fresh =>
      let anns := r_Annotations (o_It fresh) in
      match anns !! EstopResumeClaimedAnnotation with
      | Some claimed => closeClaim name claimed
      | None =>
          if negb (bool_decide (pendingEstopResume anns = Some request)) then done
          else
            let actor := estopActor anns ("robot-estop-resume:" +:+ name) in
            let* claimed := call (SPatch KRobot true fresh
              (withAnns (k := KRobot) fresh (consumeEstopActor (<[EstopResumeClaimedAnnotation := request]> anns)))) in
            match claimed with
            | Err e => Ret (Err (CWrite "claiming estop resume request" e))
            | Ok robot =>
                let* state := evaluateResume robot actor.2 in
                let released := (state =s RobotEstopNormal) && (r_EstopState (o_It robot) =s RobotEstopResuming) in
                let* _ := note name (if released then "EstopResumeConfirmed" else "EstopResumeRefused") in
                let* _ := seal (mkStopAudit (if released then EventEstopResumeConfirmed else EventEstopResumeRefused)
                  (if released then OutcomeAllowed else OutcomeDenied) actor "Robot" name [("reason", request)]) in
                let* _ := call (SStoreAnswered (answeredKey (o_It robot)) request) in
                closed robot request
            end
      end
  end.

Definition resumePass (robot : RobotObj) : P Res :=
  let anns := r_Annotations (o_It robot) in
  match anns !! EstopResumeClaimedAnnotation with
  | Some claimed => closeClaim (r_Name (o_It robot)) claimed
  | None => match pendingEstopResume anns with Some request => handleResumeRequest (r_Name (o_It robot)) request | None => done end
  end.

Definition RobotReconcile (name : string) : P Res :=
  let* got := call (SGet KRobot name) in
  match got with
  | Err NotFound => done
  | Err Unread => Ret (Err (CRead "robot"))
  | Ok robot =>
      if negb (ct_Estopper ct) then resumePass robot
      else
        let trigger := r_Annotations (o_It robot) !! annEstopTriggered in
        let processed := r_Annotations (o_It robot) !! annEstopProcessed in
        let*? keep := robotKeepsStopFinalizer (o_It robot) in
        let*? (over, robot) := holdStopFinalizer (k := KRobot) robot keep in
        if over then done
        else match trigger, processed with
        | Some t, Some p => if p =s t then resumePass robot else issueRobotEstop robot t
        | Some t, None => issueRobotEstop robot t
        | None, Some _ => clearRobotEstop robot
        | None, None => resumePass robot
        end
  end.
End Controllers.

(** ** What wakes a zone's controller *)

Section Watches.
Context (get : string -> option FleetZone).

(** [start] and the zones above it, while the cache holds them. *)
Fixpoint zoneChainLoop (more : nat) (seen : gset string) (name : string) : list string :=
  match more with
  | O => []
  | S more =>
      if (name =s "") || bool_decide (name ∈ seen) then []
      else name :: match get name with None => [] | Some fz => zoneChainLoop more ({[name]} ∪ seen) (parentOf fz) end
  end.

Definition zoneChain (start : string) : list string := zoneChainLoop (S zoneEstopWalkCap) ∅ start.

Fixpoint addSeen (seen : gset string) (names : list string) : list string * gset string :=
  match names with
  | [] => ([], seen)
  | n :: names =>
      if bool_decide (n ∈ seen) then addSeen seen names
      else let '(out, seen) := addSeen ({[n]} ∪ seen) names in (n :: out, seen)
  end.

Definition zonesAboveRobot (robot : Robot) : list string :=
  (addSeen ∅ (zoneChain (r_CurrentZone robot) ++ zoneChain (r_Zone robot) ++
    map eh_Name (List.filter (fun e => eh_Kind e =s EstopHoldFleetZone) (r_EstopHeldBy robot)))).1.

Fixpoint untilName (name : string) (l : list string) : list string :=
  match l with [] => [] | n :: l => if n =s name then [] else n :: untilName name l end.

Definition ancestorsOfZone (zone : FleetZone) : list string :=
  if parentOf zone =s "" then [] else untilName (fz_Name zone) (zoneChain (parentOf zone)).
End Watches.

(** The Robot events that wake it: a create, and an update of [o] to [n]. *)
Definition robotEnteredAZone (o n : Robot) : bool :=
  (r_Zone o <>s r_Zone n) || (r_CurrentZone o <>s r_CurrentZone n) || (r_EstopState o <>s r_EstopState n).

Definition robotCreated (o n : Robot) : bool := r_EstopState o <>s r_EstopState n.

Definition SwarmadaConfigName : string := "swarmada-config".

(** The cached list of SwarmadaConfigs, or none when it cannot be read. *)
Definition configsOfRobot (configs : option (list SwarmadaConfig)) : list string :=
  match configs with Some l => map sc_Name l | None => [SwarmadaConfigName] end.
