(* ===== verification/EstopControlProps.v ===== *)
(** What a pass of the stop controllers may write and ask, and on what it has seen: when a trigger is
    marked applied, whom a clear reaches, when the finalizer that keeps a stopped object goes, and when the
    Dispatcher is asked to resume a robot. *)

From S2P Require Import Prelude.
From S2P Require Import Types.
From S2P Require Import Contract.
From S2P Require Import Conc.
From S2P Require Import Along.
From S2P Require Import Par.
From S2P Require Import EstopScope.
From S2P Require Import ExecutorGuard.
From S2P Require Import SafetyData.
From S2P Require Import Safety.
From S2P Require Import ExecutorGate.
From S2P Require Import ActionData.
From S2P Require Import EstopControl.

Notation SObs := (Along.Obs stopResp).

(** What the API server's answers tell: an object has the name asked for, and a write answers with the object
    it wrote. *)
Definition stopAnswered (e : StopEv) (a : stopResp e) : Prop :=
  match e as e return stopResp e -> Prop with
  | SGet k n | SLiveGet k n => fun a => match a with Ok o => objName k (o_It o) = n | Err _ => True end
  | SPatch k _ base _ => fun a => match a with Ok o => objName k (o_It o) = objName k (o_It base) /\ uidOf k (o_It o) = uidOf k (o_It base) | Err _ => True end
  | SZoneStatus _ base _ => fun a => match a with Ok o => objName KZone (o_It o) = objName KZone (o_It base) /\ uidOf KZone (o_It o) = uidOf KZone (o_It base) | Err _ => True end
  | _ => fun _ => True
  end a.

(** ** Evidence *)

Section Evidence.
Context (h : list SObs).
Notation saw e a := (@Seen StopEv stopResp e a ∈ h).

(** An object the pass has in hand. *)
Definition objSeen (k : ObjKind) (o : Obj (ItOf k)) : Prop :=
  (exists n, saw (SGet k n) (Ok o)) \/ (exists lock b n, saw (SPatch k lock b n) (Ok o)).

(** The robot records the stop, or is gone. *)
Definition heldSeen (ref : holdRef) (robot : string) : Prop :=
  saw (SLiveGet KRobot robot) (Err NotFound) \/
  (exists o, saw (SLiveGet KRobot robot) (Ok o) /\ hasHold (o_It o) ref = true) \/
  (exists o l, saw (SHolds o l) None /\ r_Name (o_It o) = robot /\ existsb (namesHold ref) l = true) \/
  (exists o l, saw (SHolds o l) (Some PNotFound) /\ r_Name (o_It o) = robot).

(** The Dispatcher's TriggerEstop was called with the stop of the carrier, and did not answer that the outcome is
    unwritten (the one answer after which the stop is issued again). A lookup that failed before any send is such
    an answer, so this does not say that the stop went out. *)
Definition stopAsked (scope : EstopScope) (carrier : Carrier) (robot : string) : Prop :=
  exists reason by_ res err, saw (STrigger robot reason by_ scope carrier) (res, err) /\
    match err with Some e => isStateUnwritten e = false | None => True end.

Definition reached (ref : holdRef) (scope : EstopScope) (robot : string) : Prop := stopAsked scope (carrierOf ref) robot /\ heldSeen ref robot.

(** Every robot in the scope of a zone, as listed from the API server, is reached. *)
Definition zoneApplied (ref : holdRef) : Prop :=
  exists z robots zs, objSeen KZone z /\ zoneRef z = ref /\ saw SRobots (Some robots) /\ saw SZones (Some zs) /\
    forall r, r ∈ robots -> (fanOutOne (TreeOf zs) (hf_name ref) (propagatesDown (zoneIn z)) (zoneOf r)).1 = true -> reached ref ScopeZone (r_Name r).

Definition configApplied (ref : holdRef) : Prop :=
  exists robots, saw SRobots (Some robots) /\ forall r, r ∈ robots -> reached ref ScopeNamespace (r_Name r).

Definition applied (k : ObjKind) (o : Obj (ItOf k)) : Prop :=
  match k as k return Obj (ItOf k) -> Prop with
  | KZone => fun o => zoneApplied (zoneRef o)
  | KConfig => fun o => configApplied (configHold (o_It o))
  | KRobot => fun o => stopAsked ScopeRobot (robotCarrier (o_It o)) (r_Name (o_It o))
  end o.

(** Another stop holds the robot as it was listed, or it was cleared: and its record of this stop is gone. *)
Definition clearedOf (ref : holdRef) (zones : list FleetZone) (configs : list SwarmadaConfig) (r : Robot) : Prop :=
  (StandingStop (withoutHold r ref) zones configs <> None \/ exists by_ ends s, saw (SClear (r_Name r) by_ ends) (Ok s)) /\
  (hasHold r ref = false \/ saw (SLiveGet KRobot (r_Name r)) (Err NotFound) \/
   (exists o, saw (SLiveGet KRobot (r_Name r)) (Ok o) /\ hasHold (o_It o) ref = false) \/
   (exists o l, saw (SHolds o l) None /\ r_Name (o_It o) = r_Name r /\ existsb (namesHold ref) l = false) \/
   (exists o l, saw (SHolds o l) (Some PNotFound) /\ r_Name (o_It o) = r_Name r)).

(** The clear reached every robot in the zone's scope and every robot that records its stop. *)
Definition zoneCleared (ref : holdRef) : Prop :=
  exists z robots all zs zones configs, objSeen KZone z /\ zoneRef z = ref /\
    saw SRobots (Some robots) /\ saw SRobots (Some all) /\ saw SZones (Some zs) /\ saw SZones (Some zones) /\ saw SConfigs (Some configs) /\
    (forall r, r ∈ robots -> (fanOutOne (TreeOf zs) (hf_name ref) (propagatesDown (zoneIn z)) (zoneOf r)).1 = true -> clearedOf ref zones configs r) /\
    (forall r, r ∈ all -> hasHold r ref = true -> exists r', r_Name r' = r_Name r /\ clearedOf ref zones configs r').

Definition configCleared (ref : holdRef) : Prop :=
  exists robots zones configs, saw SRobots (Some robots) /\ saw SZones (Some zones) /\ saw SConfigs (Some configs) /\
    forall r, r ∈ robots -> clearedOf ref zones configs r.

(** A robot's own clear: no other stop holds it, but the record of one whose carrier is gone; or its state is left as it is. *)
Definition robotCleared (o : Obj Robot) : Prop :=
  exists zones configs, saw SZones (Some zones) /\ saw SConfigs (Some configs) /\
    ((exists x, x ∈ Holders (o_It o) zones configs /\ h_Orphaned x = false) \/ exists by_ ends s, saw (SClear (r_Name (o_It o)) by_ ends) (Ok s)).

Definition clearedAll (k : ObjKind) (o : Obj (ItOf k)) : Prop :=
  match k as k return Obj (ItOf k) -> Prop with
  | KZone => fun o => zoneCleared (zoneRef o)
  | KConfig => fun o => configCleared (configHold (o_It o))
  | KRobot => robotCleared
  end o.

(** No stop holds the robot, as it was listed or read: none but, on its own clear, one whose carrier is gone. *)
Definition mayClear (robot : string) : Prop :=
  exists zones configs, saw SZones (Some zones) /\ saw SConfigs (Some configs) /\
    ((exists robots r ref, saw SRobots (Some robots) /\ r ∈ robots /\ r_Name r = robot /\ StandingStop (withoutHold r ref) zones configs = None /\
        ((exists z, objSeen KZone z /\ zoneRef z = ref) \/ exists c, objSeen KConfig c /\ configHold (o_It c) = ref)) \/
     (exists o, objSeen KRobot o /\ r_Name (o_It o) = robot /\ forall x, x ∈ Holders (o_It o) zones configs -> h_Orphaned x = true)).

(** The namespace is going. *)
Definition namespaceGoing : Prop := saw SNamespaceDeleted (Ok true) \/ saw SNamespaceDeleted (Err NotFound).

(** No stop is on the object: no trigger and no marker, and on a robot none over it either. *)
Definition noStopOn (k : ObjKind) (o : Obj (ItOf k)) : Prop :=
  has (annotations o) annEstopTriggered = false /\ has (annotations o) annEstopProcessed = false /\
  match k as k return Obj (ItOf k) -> Prop with
  | KRobot => fun o => estopHoldsWork (o_It o) = false /\
      exists zones configs, saw SZones (Some zones) /\ saw SConfigs (Some configs) /\ stopNamesOf zones configs (o_It o) = Ok []
  | _ => fun _ => True
  end o.

(** The request was claimed by this pass, under the resourceVersion it was read at, and no stop stands. *)
Definition resumeClaimed (robot : string) : Prop :=
  exists (o n o' : Obj (ItOf KRobot)) request zones configs,
    saw (SLiveGet KRobot robot) (Ok o) /\ annotations o !! EstopResumeClaimedAnnotation = None /\ pendingEstopResume (annotations o) = Some request /\
    annotations n !! EstopResumeClaimedAnnotation = Some request /\ saw (SPatch KRobot true o n) (Ok o') /\
    saw SZones (Some zones) /\ saw SConfigs (Some configs) /\ StandingStop (o_It o') zones configs = None.

(** ** What is permitted *)

Definition markerSet {k : ObjKind} (base new : Obj (ItOf k)) : Prop :=
  annotations new !! annEstopProcessed <> None /\ annotations new !! annEstopProcessed <> annotations base !! annEstopProcessed.

Definition markerDropped {k : ObjKind} (base new : Obj (ItOf k)) : Prop :=
  annotations base !! annEstopProcessed <> None /\ annotations new !! annEstopProcessed = None.

Definition finalizerDropped {k : ObjKind} (base new : Obj (ItOf k)) : Prop := o_Finalizer base = true /\ o_Finalizer new = false.

Definition stopPermitted (e : StopEv) : Prop :=
  match e with
  | SPatch k _ base new =>
      (markerSet base new -> applied k base) /\
      (markerDropped base new -> clearedAll k base) /\
      (finalizerDropped base new -> namespaceGoing \/ clearedAll k base \/ noStopOn k base)
  | SClear robot _ _ => mayClear robot
  | SConfirm robot _ => resumeClaimed robot
  | _ => True
  end.
End Evidence.

(** ** What was seen stays seen *)

Section Stable.
Context (h h' : list SObs) (Hs : h ⊆ h').

Lemma objSeen_more k o : objSeen h k o -> objSeen h' k o.
Proof. unfold objSeen. naive_solver. Qed.

Lemma heldSeen_more ref robot : heldSeen h ref robot -> heldSeen h' ref robot.
Proof. unfold heldSeen. naive_solver. Qed.

Lemma stopAsked_more scope c robot : stopAsked h scope c robot -> stopAsked h' scope c robot.
Proof. unfold stopAsked. naive_solver. Qed.

Lemma reached_more ref scope robot : reached h ref scope robot -> reached h' ref scope robot.
Proof. intros [H1 H2]. split; [by apply stopAsked_more|by apply heldSeen_more]. Qed.

Lemma applied_more k o : applied h k o -> applied h' k o.
Proof.
  destruct k; simpl.
  - intros (z & robots & zs & H1 & H2 & H3 & H4 & H5). exists z, robots, zs. split_and!; [by apply objSeen_more|done|by apply Hs|by apply Hs|].
    intros r Hr Hin. by apply reached_more, H5.
  - intros (robots & H1 & H2). exists robots. split; [by apply Hs|]. intros r Hr. by apply reached_more, H2.
  - apply stopAsked_more.
Qed.

Lemma clearedOf_more ref zones configs r : clearedOf h ref zones configs r -> clearedOf h' ref zones configs r.
Proof. unfold clearedOf. naive_solver. Qed.

Lemma clearedAll_more k o : clearedAll h k o -> clearedAll h' k o.
Proof.
  destruct k; simpl.
  - intros (z & robots & all & zs & zones & configs & H1 & H2 & H3 & H4 & H5 & H6 & H7 & H8 & H9).
    exists z, robots, all, zs, zones, configs. split_and!; try (by apply Hs); [by apply objSeen_more|done| |].
    + intros r Hr Hin. by apply clearedOf_more, H8.
    + intros r Hr Hin. destruct (H9 r Hr Hin) as (r' & Hn & Hc). exists r'. split; [done|by apply clearedOf_more].
  - intros (robots & zones & configs & H1 & H2 & H3 & H4). exists robots, zones, configs. split_and!; try (by apply Hs).
    intros r Hr. by apply clearedOf_more, H4.
  - unfold robotCleared. naive_solver.
Qed.

Lemma mayClear_more robot : mayClear h robot -> mayClear h' robot.
Proof.
  intros (zones & configs & H1 & H2 & H3). exists zones, configs. split_and!; [by apply Hs|by apply Hs|].
  destruct H3 as [(robots & r & ref & H4 & H5 & H6 & H7 & H8)|(o & H4 & H5)].
  - left. exists robots, r, ref. split_and!; try done; [by apply Hs|]. destruct H8 as [(z & Hz & E)|(c & Hc & E)]; [left; exists z|right; exists c]; (split; [by apply objSeen_more|done]).
  - right. exists o. split; [by apply objSeen_more|done].
Qed.

Lemma noStopOn_more k o : noStopOn h k o -> noStopOn h' k o.
Proof. destruct k; simpl; unfold noStopOn; naive_solver. Qed.

Lemma resumeClaimed_more robot : resumeClaimed h robot -> resumeClaimed h' robot.
Proof. unfold resumeClaimed. naive_solver. Qed.
End Stable.

Lemma stopPermitted_stable e : stable (fun h => stopPermitted h e).
Proof.
  intros h h' Hs. destruct e; try done; simpl.
  - intros (H1 & H2 & H3). split_and!.
    + intros Hm. by eapply applied_more, H1.
    + intros Hm. by eapply clearedAll_more, H2.
    + intros Hm. destruct (H3 Hm) as [[Hn|Hn]|[Hn|Hn]].
      * left; left. by apply Hs.
      * left; right. by apply Hs.
      * right; left. by eapply clearedAll_more.
      * right; right. by eapply noStopOn_more.
  - by apply mayClear_more.
  - by apply resumeClaimed_more.
Qed.

(** ** The programs *)

Section Programs.
Context (ct : StopCtl).
Notation run := (along stopAnswered stopPermitted).
Notation any := (fun _ _ => True).
Notation Saw e a h := (@Seen StopEv stopResp e a ∈ h).

Lemma more_of (h h' : list SObs) : seenMore h h' -> h ⊆ h'.
Proof. intros [l ->] x Hx. apply elem_of_app. by left. Qed.

Lemma ctl_bind {A B : Type} (p : P A) (f : A -> P B) h Q R : run p h Q -> (forall h' a, h ⊆ h' -> Q h' a -> run (f a) h' R) -> run (pbind p f) h R.
Proof. intros Hp Hf. eapply along_bind; [exact (along_grows _ _ _ _ _ Hp)|]. intros h' a [Hm HQ]. apply Hf; [by apply more_of|done]. Qed.

Lemma ctl_call {A : Type} e (f : stopResp e -> P A) h Q : stopPermitted h e ->
  (forall a h', stopAnswered e a -> h ⊆ h' -> Saw e a h' -> run (f a) h' Q) -> run (pbind (call e) f) h Q.
Proof. intros He Hf. apply along_event; [done|]. intros a Ha. apply Hf; [done| |apply seen_last]. intros x Hx. apply elem_of_app. by left. Qed.

Lemma ctl_try {A B : Type} (p : P (result ctlError A)) (f : A -> P (result ctlError B)) h Q R :
  run p h (fun h' r => match r with Ok a => Q h' a | Err _ => True end) -> (forall h' a, h ⊆ h' -> Q h' a -> run (f a) h' R) -> (forall h' e, R h' (Err e)) ->
  run (tryBind p f) h R.
Proof. intros Hp Hf Hr. eapply ctl_bind; [exact Hp|]. intros h' [a|e] Hm Ha; [by apply Hf|apply Hr]. Qed.

Lemma ctl_weaken {A : Type} (p : P A) h Q R : run p h Q -> (forall h' a, Q h' a -> R h' a) -> run p h R.
Proof. intros Hp HQ. by eapply along_conseq. Qed.

Lemma ctl_any {A : Type} (p : P A) h Q : run p h Q -> run p h any.
Proof. intros Hp. by eapply ctl_weaken. Qed.

Lemma ctl_when b p h : run p h any -> run (when b p) h any.
Proof. by destruct b. Qed.

Lemma ctl_note on reason h : run (note ct on reason) h any.
Proof. by apply ctl_when. Qed.

Lemma ctl_seal e h : run (seal ct e) h any.
Proof. by apply ctl_when. Qed.

Lemma ctl_robots h : run listNamespaceRobots h (fun h' r => match r with Ok l => Saw SRobots (Some l) h' | Err _ => True end).
Proof. apply ctl_call; [done|]. intros [l|] h' _ _ Hs; done. Qed.

Lemma ctl_listZones h : run listZones h (fun h' r => match r with Ok l => Saw SZones (Some l) h' | Err _ => True end).
Proof. apply ctl_call; [done|]. intros [l|] h' _ _ Hs; done. Qed.

Lemma ctl_listConfigs h : run listConfigs h (fun h' r => match r with Ok l => Saw SConfigs (Some l) h' | Err _ => True end).
Proof. apply ctl_call; [done|]. intros [l|] h' _ _ Hs; done. Qed.

Lemma ctl_standing h : run readStandingStops h (fun h' r => match r with Ok (zs, cs) => Saw SZones (Some zs) h' /\ Saw SConfigs (Some cs) h' | Err _ => True end).
Proof.
  eapply ctl_try; [apply ctl_listZones| |done]. intros h1 zs _ Hz. eapply ctl_try; [apply ctl_listConfigs| |done]. intros h2 cs Hm Hc. split; [by apply Hm|done].
Qed.

(** *** The record *)

(** How a write of the record ended without an error. *)
Definition editDone (robot : string) (E : list EstopHold -> option (list EstopHold) -> Prop) (h : list SObs) : Prop :=
  Saw (SLiveGet KRobot robot) (Err NotFound) h \/
  (exists o, Saw (SLiveGet KRobot robot) (Ok o) h /\ E (r_EstopHeldBy (o_It o)) None) \/
  (exists o l, Saw (SHolds o l) None h /\ r_Name (o_It o) = robot /\ E (r_EstopHeldBy (o_It o)) (Some l)) \/
  (exists o l, Saw (SHolds o l) (Some PNotFound) h /\ r_Name (o_It o) = robot).

Lemma ctl_patchHolds n robot edit (E : list EstopHold -> option (list EstopHold) -> Prop) : (forall l h, run (edit l) h (fun _ r => E l r)) ->
  forall h, run (patchHoldsLoop n robot edit) h (fun h' r => r = None -> editDone robot E h').
Proof.
  intros He. induction n as [|n IH]; intros h; [done|]. cbn [patchHoldsLoop]. apply ctl_call; [done|].
  intros [cur|[]] h1 Hn _ Hs; [|intros _; by left|done]. eapply ctl_bind; [apply He|]. intros h2 [next|] Hm2 HE; [|intros _; right; left; exists cur; split; [by apply Hm2|done]].
  apply ctl_call; [done|]. intros [[]|] h3 _ Hm3 Hw; [apply IH| |done|].
  - intros _. right; right; right. by exists cur, next.
  - intros _. right; right; left. by exists cur, next.
Qed.

(** The carriers of a stop have a kind. *)
Definition kinded (ref : holdRef) : Prop := hf_kind ref <> "".

Lemma ctl_recordHold robot ref h : kinded ref -> run (recordHold robot ref) h (fun h' r => r = None -> heldSeen h' ref robot).
Proof.
  intros Hk. eapply ctl_weaken; [apply ctl_patchHolds with (E := fun l r => match r with None => existsb (namesHold ref) l = true | Some l' => existsb (namesHold ref) l' = true end)|].
  - intros l h1. destruct (existsb (namesHold ref) l) eqn:E; [done|]. apply ctl_call; [done|]. intros now h2 _ _ _. simpl.
    rewrite existsb_app. apply orb_true_iff. right. simpl. apply orb_true_iff. left. unfold namesHold. simpl.
    destruct (hf_kind ref =s "") eqn:Ek; [by str_bool|by rewrite !eqb_s_refl].
  - intros h' r Hr Hn. destruct (Hr Hn) as [?|[?|[?|?]]]; [by left|by right; left|by right; right; left|by right; right; right].
Qed.

Lemma filter_all {A : Type} (f : A -> bool) (l : list A) : length (List.filter f l) = length l -> forallb f l = true.
Proof.
  induction l as [|a l IH]; simpl; [done|]. destruct (f a) eqn:E; simpl; [intros H; apply IH; lia|]. intros H. pose proof (List.filter_length_le f l). lia.
Qed.

Lemma filter_negb_none {A : Type} (f : A -> bool) (l : list A) : existsb f (List.filter (fun a => negb (f a)) l) = false.
Proof. induction l as [|a l IH]; simpl; [done|]. destruct (f a) eqn:E; simpl; [done|by rewrite E]. Qed.

Lemma ctl_dropHolds robot drop h : run (dropHolds robot drop) h (fun h' r => r = None ->
  editDone robot (fun l r => existsb drop (match r with None => l | Some l' => l' end) = false) h').
Proof.
  apply ctl_patchHolds. intros l h1. simpl. destruct (_ =? _)%nat eqn:E; [|apply filter_negb_none].
  apply Nat.eqb_eq, filter_all in E. apply not_true_is_false. intros (e & He & Hd)%existsb_exists. rewrite forallb_forall in E. specialize (E e He). by rewrite Hd in E.
Qed.

(** A patch that leaves the marker and the finalizer alone. *)
Lemma quiet_patch h k lock (base new : Obj (ItOf k)) : annotations new !! annEstopProcessed = annotations base !! annEstopProcessed ->
  o_Finalizer new = o_Finalizer base -> stopPermitted h (SPatch k lock base new).
Proof.
  intros Ha Hf. simpl. split_and!.
  - intros [_ H]. by rewrite Ha in H.
  - intros [H1 H2]. by rewrite Ha in H2.
  - intros [H1 H2]. rewrite Hf in H2. congruence.
Qed.

Lemma ctl_withdraw n robot : forall h, run (withdrawLoop n robot) h any.
Proof.
  induction n as [|n IH]; intros h; [done|]. cbn [withdrawLoop]. apply ctl_call; [done|]. intros [rb|[]] h1 _ _ _; [|done..].
  destruct (negb _); [done|]. apply ctl_call.
  - apply quiet_patch; [|done]. unfold annotations, withAnns, withoutPendingFirmware. simpl. by rewrite !lookup_delete_ne by done.
  - intros [o|[]] h2 _ _ _; [done|apply IH|done..].
Qed.

Lemma ctl_recordFor ref robot h : kinded ref -> run (recordHoldAndWithdraw robot ref) h (fun h' r => r = None -> heldSeen h' ref robot).
Proof.
  intros Hk. eapply ctl_bind; [by apply ctl_recordHold|]. intros h1 [e|] _ Hh; [done|]. eapply ctl_weaken; [apply along_grows, ctl_withdraw|].
  intros h2 r [Hm _] _. eapply heldSeen_more; [by apply more_of|by apply Hh].
Qed.

(** *** The fan-out *)

(** What one goroutine's outcome means. *)
Definition fanned (ref : holdRef) (scope : EstopScope) (r : Robot) (h : list SObs) (o : estopOutcome) : Prop :=
  eo_robot o = r_Name r /\ (outcomeUnwritten o = false -> reached h ref scope (r_Name r)).

Lemma ctl_fanoutOne ref scope reason by_ r h : kinded ref ->
  run (fanoutOne reason by_ scope (carrierOf ref) (recordFor ref) r) h (fanned ref scope r).
Proof.
  intros Hk. unfold fanoutOne. apply ctl_call; [done|]. intros [res err] h1 _ _ Ht. eapply ctl_bind; [by apply ctl_recordFor|]. intros h2 recErr Hm Hr.
  split; [done|]. unfold outcomeUnwritten. simpl. intros [He Hrec]%orb_false_iff. split.
  - exists reason, by_, res, err. split; [by apply Hm|]. by destruct err.
  - apply Hr. by destruct recErr.
Qed.

Lemma ctl_fanout ref scope reason by_ robots h : kinded ref ->
  run (estopFanoutHeld robots reason by_ scope (carrierOf ref) (recordFor ref)) h (fun h' l => Forall2 (fun r o => fanned ref scope r h' o) robots l).
Proof.
  intros Hk. unfold estopFanoutHeld.
  apply (along_parAll SPick (fun b => b) stopAnswered stopPermitted stopPermitted_stable (fun _ => I)
    (fanoutOne reason by_ scope (carrierOf ref) (recordFor ref)) (fun r h o => fanned ref scope r h o)).
  - intros r o h1 h2 Hs [H1 H2]. split; [done|]. intros Hu. by eapply reached_more, H2.
  - intros r _. by apply ctl_fanoutOne.
Qed.

(** No outcome is unwritten: every robot is reached. *)
Lemma fanned_all ref scope robots l h : Forall2 (fun r o => fanned ref scope r h o) robots l -> (0 <? countOf outcomeUnwritten l) = false ->
  forall r, r ∈ robots -> reached h ref scope (r_Name r).
Proof.
  intros Hf Hu. apply Z.ltb_ge in Hu. unfold countOf in Hu. induction Hf as [|r o robots l [H1 H2] Hf IH]; intros x Hx; [by apply elem_of_nil in Hx|].
  simpl in Hu. destruct (outcomeUnwritten o) eqn:E; simpl in Hu; [lia|]. apply elem_of_cons in Hx as [->|Hx]; [by apply H2|by apply IH].
Qed.

(** *** The robots in a zone's scope *)

Lemma elem_maskOf {A B : Type} (l : list A) (zone : A -> B) (f : B -> bool * bool) x :
  x ∈ maskOf l (fst <$> (f <$> map zone l)) <-> x ∈ l /\ (f (zone x)).1 = true.
Proof.
  induction l as [|a l IH]; simpl; [by split; [intros ?%elem_of_nil|intros [?%elem_of_nil _]]|].
  destruct (f (zone a)).1 eqn:E; rewrite !elem_of_cons, IH || rewrite elem_of_cons, IH; split.
  - intros [->|[H1 H2]]; [split; [by left|done]|split; [by right|done]].
  - intros [[->|H1] H2]; [by left|by right].
  - intros [H1 H2]. split; [by right|done].
  - intros [[->|H1] H2]; [congruence|done].
Qed.

Definition inScope (zs : list FleetZone) (name : string) (down : bool) (r : Robot) : Prop := (fanOutOne (TreeOf zs) name down (zoneOf r)).1 = true.

Lemma ctl_scope name down h : run (robotsInEstopScope ct name down) h (fun h' r => match r with
  | Ok l => exists robots zs, Saw SRobots (Some robots) h' /\ Saw SZones (Some zs) h' /\ forall x, x ∈ l <-> x ∈ robots /\ inScope zs name down x
  | Err _ => True end).
Proof.
  unfold robotsInEstopScope. eapply ctl_try; [apply ctl_robots| |done]. intros h1 robots _ Hr. eapply ctl_try; [apply ctl_listZones| |done]. intros h2 zs Hm Hz.
  unfold FanOutScope. cbn beta iota zeta. eapply ctl_bind with (Q := any).
  - destruct (_ || _); [done|]. apply ctl_call; [done|]. by intros [o|] h3 _ _ _.
  - intros h3 _ Hm3 _. exists robots, zs. split_and!; [by apply Hm3, Hm|by apply Hm3|]. intros x. apply elem_maskOf.
Qed.

(** *** A stop in force *)

(** The Dispatcher was asked for the robot's stop in this pass, and it has the record; or it already stands on it. *)
Definition standsOn (ref : holdRef) (scope : EstopScope) (sent : gset string) (h : list SObs) (r : Robot) : Prop :=
  reached h ref scope (r_Name r) \/
  (recordsStop r ref = true \/ r_Name r ∈ sent) /\ inStopState r = true /\ (hasHold r ref = true \/ heldSeen h ref (r_Name r)).

Lemma ctl_recordEach ref robots : kinded ref -> forall h, run (recordEach ref robots) h (fun h' l => l = [] -> forall r, r ∈ robots -> heldSeen h' ref (r_Name r)).
Proof.
  intros Hk. induction robots as [|r robots IH]; intros h; [intros _ r ?%elem_of_nil; done|]. cbn [recordEach]. eapply ctl_bind; [by apply ctl_recordFor|].
  intros h1 err _ He. eapply ctl_bind; [apply IH|]. intros h2 errs Hm Hr. destruct err as [e|]; [done|]. intros -> x [->|Hx]%elem_of_cons; [|by apply Hr].
  eapply heldSeen_more; [exact Hm|by apply He].
Qed.

Lemma in_force_split ref scoped all sent late only : inForceTargets ref scoped all sent = (late, only) ->
  forall r, r ∈ all -> hasHold r ref = true \/ (exists s, s ∈ scoped /\ r_Name s = r_Name r) ->
  r ∈ late \/ (recordsStop r ref = true \/ r_Name r ∈ sent) /\ inStopState r = true /\ (hasHold r ref = true \/ r ∈ only).
Proof.
  intros [= <- <-] r Hr Hin. assert (Hinn : hasHold r ref || existsb (fun s => r_Name s =s r_Name r) scoped = true).
  { destruct Hin as [->|(s & Hs & Hn)]; [done|]. apply orb_true_iff. right. apply existsb_exists. exists s. split; [by apply list_elem_of_In|rewrite Hn; apply eqb_s_refl]. }
  destruct ((recordsStop r ref || bool_decide (r_Name r ∈ sent)) && inStopState r) eqn:E.
  - right. apply andb_true_iff in E as [E1 E2]. split_and!; [|done|].
    + apply orb_true_iff in E1 as [E1|E1%bool_decide_eq_true]; [by left|by right].
    + destruct (hasHold r ref) eqn:Eh; [by left|right]. apply list_elem_of_In, List.filter_In. split; [by apply list_elem_of_In|].
      rewrite Eh. by rewrite Hinn, E1, E2.
  - left. apply list_elem_of_In, List.filter_In. split; [by apply list_elem_of_In|]. by rewrite Hinn, E.
Qed.

Lemma joinErrs_none errs : joinErrs errs = None -> errs = [].
Proof. by destruct errs. Qed.

Lemma ctl_lateArrivals ref scope kind actor reason scoped all sent h : kinded ref ->
  run (lateArrivals ct ref scope kind actor reason scoped all sent) h (fun h' r => r = None ->
    forall x, x ∈ all -> hasHold x ref = true \/ (exists s, s ∈ scoped /\ r_Name s = r_Name x) -> standsOn ref scope sent h' x).
Proof.
  intros Hk. unfold lateArrivals. destruct (inForceTargets _ _ _ _) as [late only] eqn:E. eapply ctl_bind; [by apply ctl_recordEach|]. intros h1 errs _ Hrec.
  pose proof (in_force_split _ _ _ _ _ _ E) as Hsplit. case_bool_decide as El.
  - intros ->%joinErrs_none x Hx Hin. destruct (Hsplit x Hx Hin) as [Hl|(H1 & H2 & H3)]; [by rewrite El in Hl; apply elem_of_nil in Hl|].
    right. split_and!; [done|done|]. destruct H3 as [H3|H3]; [by left|right; by apply Hrec].
  - eapply ctl_bind; [by apply ctl_fanout|]. intros h2 outs Hm2 Hf. eapply ctl_bind; [apply ctl_seal|]. intros h3 _ Hm3 _.
    intros Hj%joinErrs_none x Hx Hin. apply app_eq_nil in Hj as [-> Hu].
    assert (Hu0 : (0 <? countOf outcomeUnwritten outs) = false) by (by destruct (0 <? _)).
    destruct (Hsplit x Hx Hin) as [Hl|(H1 & H2 & H3)].
    + left. eapply reached_more; [exact Hm3|]. exact (fanned_all _ _ _ _ _ Hf Hu0 x Hl).
    + right. split_and!; [done|done|]. destruct H3 as [H3|H3]; [by left|right]. eapply heldSeen_more; [exact Hm3|]. eapply heldSeen_more; [exact Hm2|]. by apply Hrec.
Qed.

Definition sentSeen (ref : holdRef) (sent : gset string) (h : list SObs) : Prop := sent = ∅ \/ Saw (SSent (carrierOf ref)) sent h.

Lemma ctl_sent ref h : run (sentUnrecorded ct ref) h (fun h' sent => sentSeen ref sent h').
Proof. unfold sentUnrecorded. destruct (ct_KeepsSent ct); [|by left]. split; [done|]. intros a _. right. apply seen_last. Qed.

(** Every robot of the namespace that is in the zone's scope, or records its stop, has the stop. *)
Definition zoneInForce (ref : holdRef) (down : bool) (h : list SObs) : Prop :=
  exists robots zs all sent, Saw SRobots (Some robots) h /\ Saw SZones (Some zs) h /\ Saw SRobots (Some all) h /\ sentSeen ref sent h /\
    forall r, r ∈ all -> hasHold r ref = true \/ (exists s, s ∈ robots /\ r_Name s = r_Name r /\ inScope zs (hf_name ref) down s) -> standsOn ref ScopeZone sent h r.

Definition configInForce (ref : holdRef) (h : list SObs) : Prop :=
  exists all sent, Saw SRobots (Some all) h /\ sentSeen ref sent h /\ forall r, r ∈ all -> standsOn ref ScopeNamespace sent h r.

Lemma sentSeen_more ref sent h h' : h ⊆ h' -> sentSeen ref sent h -> sentSeen ref sent h'.
Proof. intros Hs [H|H]; [by left|right; by apply Hs]. Qed.

Lemma ctl_zoneLate (zone : Obj (ItOf KZone)) trigger h :
  run (zoneLateArrivals ct zone trigger) h (fun h' r => r = None -> zoneInForce (zoneRef zone) (propagatesDown (zoneIn zone)) h').
Proof.
  unfold zoneLateArrivals. eapply ctl_bind; [apply ctl_sent|]. intros h1 sent _ Hsent. eapply ctl_bind; [apply ctl_scope|]. intros h2 [scoped|] Hm2 Hsc; [|done].
  destruct Hsc as (robots & zs & H1 & H2 & H3). eapply ctl_bind; [apply ctl_robots|]. intros h3 [all|] Hm3 Hall; [|done].
  eapply ctl_weaken; [apply along_grows, ctl_lateArrivals; done|]. intros h4 r [Hm4%more_of Hl] Hr. specialize (Hl Hr).
  exists robots, zs, all, sent. split_and!; [by apply Hm4, Hm3|by apply Hm4, Hm3|by apply Hm4|by eapply sentSeen_more, sentSeen_more, sentSeen_more|].
  intros x Hx Hin. apply Hl; [done|]. destruct Hin as [Hin|(s & Hs & Hn & Hsc)]; [by left|right]. exists s. split; [by apply H3|done].
Qed.

Lemma ctl_configLate ns (cfg : Obj SwarmadaConfig) trigger h :
  run (configLateArrivals ct ns cfg trigger) h (fun h' r => r = None -> configInForce (configHold (o_It cfg)) h').
Proof.
  unfold configLateArrivals. eapply ctl_bind; [apply ctl_sent|]. intros h1 sent _ Hsent. eapply ctl_bind; [apply ctl_robots|]. intros h2 [all|] Hm2 Hall; [|done].
  eapply ctl_weaken; [apply along_grows, ctl_lateArrivals; done|]. intros h3 r [Hm3%more_of Hl] Hr. specialize (Hl Hr).
  exists all, sent. split_and!; [by apply Hm3|by eapply sentSeen_more, sentSeen_more|]. intros x Hx. apply Hl; [done|]. right. by exists x.
Qed.

(** *** Writes of the carriers *)

Definition sameObject {k : ObjKind} (o o' : Obj (ItOf k)) : Prop := objName k (o_It o') = objName k (o_It o) /\ uidOf k (o_It o') = uidOf k (o_It o).

Lemma ctl_patchObj {k : ObjKind} what (base new : Obj (ItOf k)) h : stopPermitted h (SPatch k false base new) ->
  run (patchObj what base new) h (fun h' r => match r with Ok o => objSeen h' k o /\ sameObject base o | Err _ => True end).
Proof.
  intros Hp. apply ctl_call; [done|]. intros [o|e] h1 Ha _ Hs; [|done]. split; [|exact Ha]. right. by exists false, base, new.
Qed.

Lemma release_permitted h k lock (o : Obj (ItOf k)) b : (b = false -> o_Finalizer o = true -> namespaceGoing h \/ clearedAll h k o \/ noStopOn h k o) ->
  stopPermitted h (SPatch k lock o (withFinalizer o b)).
Proof.
  intros Hb. simpl. split_and!.
  - intros [_ H]. done.
  - intros [H1 H2]. done.
  - intros [H1 H2]. simpl in H2. by apply Hb.
Qed.

Lemma ctl_holdFinalizer {k : ObjKind} (obj : Obj (ItOf k)) hold h : objSeen h k obj -> (hold = false -> noStopOn h k obj) ->
  run (holdStopFinalizer obj hold) h (fun h' r => match r with Ok (_, o) => objSeen h' k o /\ sameObject obj o | Err _ => True end).
Proof.
  intros Ho Hn. unfold holdStopFinalizer. eapply ctl_try with (Q := fun h' t => t = true -> namespaceGoing h'); [| |done].
  - destruct (_ && _); [|done]. apply ctl_call; [done|]. intros [b|[]] h1 _ _ Hs; [|intros _; by right|done]. intros ->. by left.
  - intros h1 terminating Hm Ht. destruct terminating.
    { eapply ctl_try; [apply ctl_patchObj, release_permitted; intros _ _; left; by apply Ht| |done]. by intros h2 o _ [H1 H2]. }
    destruct (hold && _) eqn:E1; [|destruct (negb hold && _) eqn:E2].
    + eapply ctl_try; [by apply ctl_patchObj, release_permitted| |done]. by intros h2 o _ [H1 H2].
    + apply andb_true_iff in E2 as [E2%negb_true_iff E3]. eapply ctl_try; [apply ctl_patchObj, release_permitted; intros _ _; right; right; eapply noStopOn_more; [exact Hm|by apply Hn]| |done].
      by intros h2 o _ [H1 H2].
    + split; [by eapply objSeen_more|done].
Qed.

(** *** The clear of a carrier *)

Definition refSeen (ref : holdRef) (h : list SObs) : Prop :=
  (exists z, objSeen h KZone z /\ zoneRef z = ref) \/ exists c, objSeen h KConfig c /\ configHold (o_It c) = ref.

Definition listed (r : Robot) (h : list SObs) : Prop := exists l, Saw SRobots (Some l) h /\ r ∈ l.

Lemma refSeen_more ref h h' : h ⊆ h' -> refSeen ref h -> refSeen ref h'.
Proof. intros Hs [(z & Hz & E)|(c & Hc & E)]; [left; exists z|right; exists c]; (split; [by eapply objSeen_more|done]). Qed.

Lemma listed_more r h h' : h ⊆ h' -> listed r h -> listed r h'.
Proof. intros Hs (l & Hl & Hr). exists l. split; [by apply Hs|done]. Qed.

(** What the clear of the next robot leads to. *)
Lemma ctl_dropRef ref r h : run (dropHolds (r_Name r) (namesHold ref)) h (fun h' err => err = None ->
  Saw (SLiveGet KRobot (r_Name r)) (Err NotFound) h' \/
   (exists o, Saw (SLiveGet KRobot (r_Name r)) (Ok o) h' /\ hasHold (o_It o) ref = false) \/
   (exists o l, Saw (SHolds o l) None h' /\ r_Name (o_It o) = r_Name r /\ existsb (namesHold ref) l = false) \/
   (exists o l, Saw (SHolds o l) (Some PNotFound) h' /\ r_Name (o_It o) = r_Name r)).
Proof. eapply ctl_weaken; [apply ctl_dropHolds|]. intros h' err Hd He. exact (Hd He). Qed.

Lemma ctl_clearCarrier ref zones configs by_ robots : forall h cleared held errs,
  Saw SZones (Some zones) h -> Saw SConfigs (Some configs) h -> refSeen ref h -> (forall r, r ∈ robots -> listed r h) ->
  run (clearCarrier ct ref robots zones configs by_ cleared held errs) h (fun h' x => x.2 = None -> errs = [] /\ forall r, r ∈ robots -> clearedOf h' ref zones configs r).
Proof.
  induction robots as [|r robots IH]; intros h cleared held errs Hz Hc Href Hl; cbn [clearCarrier].
  { intros Hj. simpl in Hj. apply joinErrs_none in Hj. split; [done|]. by intros r ?%elem_of_nil. }
  (* the rest, once the robot is held by another stop or cleared *)
  assert (Hdrop : forall h1 c1 held1, h ⊆ h1 ->
    (StandingStop (withoutHold r ref) zones configs <> None \/ exists by_ ends s, Saw (SClear (r_Name r) by_ ends) (Ok s) h1) ->
    run (if hasHold r ref then
           let* err := dropHolds (r_Name r) (namesHold ref) in
           clearCarrier ct ref robots zones configs by_ c1 held1 (errs ++ match err with Some e => [e] | None => [] end)
         else clearCarrier ct ref robots zones configs by_ c1 held1 errs) h1
      (fun h' x => x.2 = None -> errs = [] /\ forall x, x ∈ r :: robots -> clearedOf h' ref zones configs x)).
  { intros h1 c1 held1 Hm Hone. destruct (hasHold r ref) eqn:Eh.
    - eapply ctl_bind; [apply ctl_dropRef|]. intros h2 err Hm2 Hd.
      eapply ctl_weaken; [apply along_grows, IH; [by apply Hm2, Hm|by apply Hm2, Hm|by eapply refSeen_more, refSeen_more|]|].
      { intros x Hx. eapply listed_more, listed_more, Hl; [exact Hm2|exact Hm|by right]. }
      intros h3 x [Hm3%more_of Hx] Hn. destruct (Hx Hn) as [He Hall]. apply app_eq_nil in He as [-> He]. assert (err = None) as -> by (by destruct err).
      split; [done|]. intros y [->|Hy]%elem_of_cons; [|by apply Hall]. eapply clearedOf_more; [exact Hm3|]. split; [|right; by apply Hd].
      destruct Hone as [Hs|(b & e & s & Hs)]; [by left|right; exists b, e, s; by apply Hm2].
    - eapply ctl_weaken; [apply along_grows, IH; [by apply Hm|by apply Hm|by eapply refSeen_more|]|].
      { intros x Hx. eapply listed_more, Hl; [exact Hm|by right]. }
      intros h2 x [Hm2%more_of Hx] Hn. destruct (Hx Hn) as [He Hall]. split; [done|]. intros y [->|Hy]%elem_of_cons; [|by apply Hall].
      eapply clearedOf_more; [exact Hm2|]. split; [done|by left]. }
  destruct (StandingStop (withoutHold r ref) zones configs) as [x|] eqn:Es.
  - eapply ctl_bind; [apply ctl_note|]. intros h1 _ Hm _. apply Hdrop; [done|by left].
  - apply ctl_call.
    + destruct (Hl r ltac:(by left)) as (l & Hl1 & Hl2). exists zones, configs. split_and!; [done|done|]. left. exists l, r, ref. by split_and!.
    + intros [s|] h1 _ Hm Hs.
      * apply Hdrop; [done|]. right. eauto.
      * eapply ctl_weaken; [apply IH; [by apply Hm|by apply Hm|by eapply refSeen_more|]|].
        { intros x Hx. eapply listed_more, Hl; [exact Hm|by right]. }
        intros h2 x Hx Hn. destruct (Hx Hn) as [He _]. by apply app_eq_nil in He as [_ He].
Qed.

(** *** The zone's pass *)

Lemma ctl_projectLoop triggered now names : forall zones h, run (projectLoop zones triggered now names) h any.
Proof.
  induction names as [|n names IH]; intros zones h; [done|]. cbn [projectLoop]. destruct (zones !! n) as [fz|]; [|apply IH].
  destruct (projected _ _ _ _) as [new|]; [|apply IH]. apply ctl_call; [done|]. intros [o|e] h1 _ _ _; [apply IH|done].
Qed.

Lemma ctl_project (zone : Obj (ItOf KZone)) stampAt h : run (projectEstopStatus zone stampAt) h any.
Proof.
  unfold projectEstopStatus. apply ctl_call; [done|]. intros [l|] h1 _ _ _; [|done]. apply ctl_call; [done|]. intros now h2 _ _ _. apply ctl_projectLoop.
Qed.

(** What a pass promises when it answers the resync of a stop in force. *)
Definition resyncs (T : list SObs -> Prop) (h : list SObs) (r : Res) : Prop := r = Ok (Some stopInForceResync) -> T h.

Lemma ctl_after T r p h : run p h any -> (r = Some stopInForceResync -> T h) -> (forall h h', h ⊆ h' -> T h -> T h') -> run (afterProjection r p) h (resyncs T).
Proof.
  intros Hp HT Hm. eapply ctl_bind; [exact Hp|]. intros h1 [e|] Hm1 _; [done|]. intros [= ->]. by eapply Hm, HT.
Qed.

Lemma ref_same (z z' : Obj (ItOf KZone)) : sameObject z z' -> zoneRef z' = zoneRef z.
Proof. unfold sameObject, zoneRef, zoneHold. simpl. intros [H1 H2]. unfold zoneIn. by rewrite H1, H2. Qed.

Lemma cref_same (c c' : Obj (ItOf KConfig)) : sameObject c c' -> configHold (o_It c') = configHold (o_It c).
Proof. unfold sameObject, configHold. simpl. intros [H1 H2]. by rewrite H1, H2. Qed.

(** The marker's own patches. *)
Lemma mark_permitted h k lock (o : Obj (ItOf k)) anns : annotations (withAnns o anns) = anns -> anns !! annEstopProcessed <> None -> applied h k o ->
  stopPermitted h (SPatch k lock o (withAnns o anns)).
Proof.
  intros Ha Hp Happ. simpl. split_and!; [done| |].
  - intros [_ H]. by rewrite Ha in H.
  - intros [H1 H2]. simpl in H2. congruence.
Qed.

Lemma clear_permitted h k lock (o new : Obj (ItOf k)) : annotations new !! annEstopProcessed = None -> clearedAll h k o -> stopPermitted h (SPatch k lock o new).
Proof. intros Ha Hc. simpl. split_and!; [|done|auto]. intros [H _]. by rewrite Ha in H. Qed.

Lemma annotations_with k (o : Obj (ItOf k)) m : annotations (withAnns o m) = m.
Proof. by destruct k. Qed.

Lemma marked_lookup anns v : markProcessed anns v !! annEstopProcessed = Some v.
Proof. unfold markProcessed, consumeEstopActor. rewrite lookup_delete_ne by done. by rewrite lookup_insert_eq. Qed.

Lemma dropped_lookup anns : dropProcessed anns !! annEstopProcessed = None.
Proof. unfold dropProcessed, consumeEstopActor. rewrite lookup_delete_ne by done. by rewrite lookup_delete_eq. Qed.

(** A pass's answer says nothing, unless it is the resync. *)
Definition quietly (r : Res) : Prop := r <> Ok (Some stopInForceResync).

Lemma ctl_fanOutZone (zone : Obj (ItOf KZone)) trigger h : objSeen h KZone zone -> run (fanOutZone ct zone trigger) h (fun _ r => quietly r).
Proof.
  intros Ho. unfold fanOutZone. eapply ctl_try; [apply ctl_scope| |done]. intros h1 robots Hm1 (all & zs & H1 & H2 & H3).
  eapply ctl_bind; [by apply ctl_fanout|]. intros h2 outs Hm2 Hf. eapply ctl_bind; [apply ctl_seal|]. intros h3 _ Hm3 _.
  destruct (0 <? _) eqn:Eu; [done|]. pose proof (fanned_all _ _ _ _ _ Hf Eu) as Hreach.
  eapply ctl_bind with (Q := any). { unfold notifyParent. destruct (_ && _); [|done]. apply ctl_call; [done|]. by intros [o|] h4 _ _ _. }
  intros h4 _ Hm4 _. apply ctl_call; [done|]. intros now h5 _ Hm5 _. apply ctl_call; [done|]. intros [z2|e] h6 Ha Hm6 _; [|done].
  assert (Hm : h2 ⊆ h6) by (by etrans; [exact Hm3|etrans; [exact Hm4|etrans; [exact Hm5|exact Hm6]]]).
  eapply ctl_try; [apply ctl_patchObj, mark_permitted| |done].
  - apply annotations_with.
  - by rewrite marked_lookup.
  - simpl. exists zone, all, zs. rewrite (ref_same zone z2 Ha). split_and!; [|done|by apply Hm, Hm2|by apply Hm, Hm2|].
    + eapply objSeen_more; [exact Hm|]. eapply objSeen_more; [exact Hm2|]. by eapply objSeen_more.
    + intros r Hr Hin. eapply reached_more; [exact Hm|]. apply Hreach, H3. by split.
  - intros h7 z3 _ _. eapply ctl_bind; [apply ctl_project|]. by intros h8 [e|] _ _.
Qed.

Lemma ctl_clearZone (zone : Obj (ItOf KZone)) h : objSeen h KZone zone -> run (clearZoneEstop ct zone) h (fun _ r => quietly r).
Proof.
  intros Ho. unfold clearZoneEstop. eapply ctl_try; [apply ctl_scope| |done]. intros h1 scoped Hm1 (robots & zs & H1 & H2 & H3).
  eapply ctl_try; [apply ctl_robots| |done]. intros h2 all Hm2 Hall. eapply ctl_try; [apply ctl_standing| |done]. intros h3 [zones configs] Hm3 [Hz Hc].
  assert (Hm : h ⊆ h3) by (by etrans; [exact Hm1|etrans; [exact Hm2|exact Hm3]]).
  eapply ctl_bind; [apply ctl_clearCarrier; [done|done| |]|].
  - left. exists zone. split; [by eapply objSeen_more|done].
  - intros r [Hr|Hr]%elem_of_app; [exists robots; split; [by apply Hm3, Hm2|by apply H3 in Hr as [Hr _]]|].
    apply list_elem_of_In, List.filter_In in Hr as [Hr%list_elem_of_In _]. exists all. split; [by apply Hm3|done].
  - intros h4 [[cleared held] err] Hm4 Hcl. eapply ctl_bind; [apply ctl_seal|]. intros h5 _ Hm5 _. destruct err as [e|]; [done|].
    destruct (Hcl eq_refl) as [_ Hall']. eapply ctl_try; [apply ctl_patchObj, clear_permitted| |done].
    + by apply dropped_lookup.
    + exists zone, robots, all, zs, zones, configs. assert (Hm35 : h3 ⊆ h5) by (by etrans). assert (Hm05 : h ⊆ h5) by (by etrans).
      split_and!; try (by apply Hm35); [by eapply objSeen_more|done|by apply Hm35, Hm3, Hm2|by apply Hm35, Hm3|by apply Hm35, Hm3, Hm2| |].
      * intros r Hr Hin. eapply clearedOf_more; [exact Hm5|]. apply Hall', elem_of_app. left. apply H3. by split.
      * intros r Hr Hh. destruct (existsb (fun s => r_Name s =s r_Name r) scoped) eqn:Es.
        -- apply existsb_exists in Es as (s & Hs%list_elem_of_In & En). str_bool. exists s. split; [done|]. eapply clearedOf_more; [exact Hm5|].
           apply Hall', elem_of_app. by left.
        -- exists r. split; [done|]. eapply clearedOf_more; [exact Hm5|]. apply Hall', elem_of_app. right. apply list_elem_of_In, List.filter_In.
           split; [by apply list_elem_of_In|]. by rewrite Es, Hh.
    + intros h6 z2 _ _. eapply ctl_bind; [apply ctl_project|]. by intros h7 [e|] _ _.
Qed.

(** The stop of the zone [name] is in force, and every robot under it has it. *)
Definition zoneHeld (name : string) (h : list SObs) : Prop :=
  exists z, objSeen h KZone z /\ fz_Name (zoneIn z) = name /\ zoneInForce (zoneRef z) (propagatesDown (zoneIn z)) h.

Lemma standsOn_more ref scope sent h h' r : h ⊆ h' -> standsOn ref scope sent h r -> standsOn ref scope sent h' r.
Proof.
  intros Hs [H|(H1 & H2 & H3)]; [left; by eapply reached_more|right]. split_and!; [done|done|]. destruct H3 as [H3|H3]; [by left|right; by eapply heldSeen_more].
Qed.

Lemma zoneHeld_more name h h' : h ⊆ h' -> zoneHeld name h -> zoneHeld name h'.
Proof.
  intros Hs (z & H1 & H2 & robots & zs & all & sent & H3 & H4 & H5 & H6 & H7). exists z. split_and!; [by eapply objSeen_more|done|].
  exists robots, zs, all, sent. split_and!; [by apply Hs|by apply Hs|by apply Hs|by eapply sentSeen_more|]. intros r Hr Hin. by eapply standsOn_more, H7.
Qed.

Lemma none_has (m : gmap string string) key : isSome (m !! key) = false -> has m key = false.
Proof. unfold has. by destruct (m !! key). Qed.

Lemma ctl_quiet T r : quietly r -> forall h, resyncs T h r.
Proof. intros Hq h Hr. by destruct Hq. Qed.

Lemma ctl_ZoneReconcile name h : run (ZoneReconcile ct name) h (resyncs (zoneHeld name)).
Proof.
  unfold ZoneReconcile. apply ctl_call; [done|]. intros [zone|[]] h1 Hn Hm1 Hs; [|done..]. destruct (negb _); [done|].
  assert (Ho : objSeen h1 KZone zone) by (left; by exists name).
  eapply ctl_try; [apply ctl_holdFinalizer; [done|]| |done].
  { intros [E1 E2]%orb_false_iff. unfold noStopOn, annotations. simpl. change (annsOf KZone (o_It zone)) with (fz_Annotations (zoneIn zone)).
    split; [by apply none_has|split; [by apply none_has|done]]. }
  intros h2 [over z] Hm2 [Ho2 Hsame]. destruct over; [done|].
  assert (Hfan : forall t h, objSeen h KZone z -> run (fanOutZone ct z t) h (resyncs (zoneHeld name))).
  { intros t h0 H0. eapply ctl_weaken; [by apply ctl_fanOutZone|]. intros h' r Hq. by apply ctl_quiet. }
  destruct (fz_Annotations (zoneIn zone) !! annEstopTriggered) as [t|], (fz_Annotations (zoneIn zone) !! annEstopProcessed) as [p|].
  - destruct (p =s t); [|by apply Hfan]. eapply ctl_bind; [apply ctl_zoneLate|]. intros h3 [e|] Hm3 Hz; [done|].
    apply ctl_after; [apply ctl_project| |by intros; eapply zoneHeld_more]. intros _. exists z. split_and!; [by eapply objSeen_more| |by apply Hz].
    destruct Hsame as [Hsn _]. simpl in Hsn, Hn. unfold zoneIn. congruence.
  - by apply Hfan.
  - eapply ctl_weaken; [by apply ctl_clearZone|]. intros h' r Hq. by apply ctl_quiet.
  - by apply ctl_after; [apply ctl_project| |by intros; eapply zoneHeld_more].
Qed.

(** *** The namespace's pass *)

Lemma ctl_fanOutNamespace ns (cfg : Obj (ItOf KConfig)) trigger h : run (fanOutNamespace ct ns cfg trigger) h (fun _ r => quietly r).
Proof.
  unfold fanOutNamespace. eapply ctl_try; [apply ctl_robots| |done]. intros h1 robots Hm1 Hr.
  eapply ctl_bind; [by apply ctl_fanout|]. intros h2 outs Hm2 Hf. eapply ctl_bind; [apply ctl_seal|]. intros h3 _ Hm3 _.
  destruct (0 <? _) eqn:Eu; [done|]. pose proof (fanned_all _ _ _ _ _ Hf Eu) as Hreach.
  eapply ctl_try; [apply ctl_patchObj, mark_permitted; [apply annotations_with|by rewrite marked_lookup|]| |done].
  - exists robots. split; [by apply Hm3, Hm2|]. intros r Hin. by eapply reached_more, Hreach.
  - by intros h4 o _ _.
Qed.

Lemma ctl_clearNamespace ns (cfg : Obj (ItOf KConfig)) h : objSeen h KConfig cfg -> run (clearNamespaceEstop ct ns cfg) h (fun _ r => quietly r).
Proof.
  intros Ho. unfold clearNamespaceEstop. eapply ctl_try; [apply ctl_robots| |done]. intros h1 robots Hm1 Hr.
  eapply ctl_try; [apply ctl_standing| |done]. intros h2 [zones configs] Hm2 [Hz Hc].
  eapply ctl_bind; [apply ctl_clearCarrier; [done|done| |]|].
  - right. exists cfg. split; [by eapply objSeen_more, objSeen_more|done].
  - intros r Hin. exists robots. split; [by apply Hm2|done].
  - intros h3 [[cleared held] err] Hm3 Hcl. eapply ctl_bind; [apply ctl_seal|]. intros h4 _ Hm4 _. destruct err as [e|]; [done|].
    destruct (Hcl eq_refl) as [_ Hall]. eapply ctl_try; [apply ctl_patchObj, clear_permitted; [by apply dropped_lookup|]| |done].
    + exists robots, zones, configs. split_and!; [by apply Hm4, Hm3, Hm2|by apply Hm4, Hm3|by apply Hm4, Hm3|]. intros r Hin. by eapply clearedOf_more, Hall.
    + by intros h5 o _ _.
Qed.

Definition configHeld (name : string) (h : list SObs) : Prop := exists c, objSeen h KConfig c /\ sc_Name (o_It c) = name /\ configInForce (configHold (o_It c)) h.

Lemma ctl_NamespaceReconcile ns name h : run (NamespaceReconcile ct ns name) h (resyncs (configHeld name)).
Proof.
  unfold NamespaceReconcile. apply ctl_call; [done|]. intros [cfg|[]] h1 Hn Hm1 Hs; [|done..]. destruct (negb _); [done|].
  assert (Ho : objSeen h1 KConfig cfg) by (left; by exists name).
  eapply ctl_try; [apply ctl_holdFinalizer; [done|]| |done].
  { intros [E1 E2]%orb_false_iff. unfold noStopOn, annotations. simpl. split; [by apply none_has|split; [by apply none_has|done]]. }
  intros h2 [over c] Hm2 [Ho2 Hsame]. destruct over; [done|].
  assert (Hfan : forall t h, run (fanOutNamespace ct ns c t) h (resyncs (configHeld name))).
  { intros t h0. eapply ctl_weaken; [by apply ctl_fanOutNamespace|]. intros h' r Hq. by apply ctl_quiet. }
  destruct (sc_Annotations (o_It cfg) !! annEstopTriggered) as [t|], (sc_Annotations (o_It cfg) !! annEstopProcessed) as [p|]; [|by apply Hfan| |done].
  - destruct (p =s t); [|by apply Hfan]. eapply ctl_bind; [apply ctl_configLate|]. intros h3 [e|] Hm3 Hz; [done|]. intros _. exists c.
    split_and!; [by eapply objSeen_more| |by apply Hz]. destruct Hsame as [Hsn _]. exact (eq_trans Hsn Hn).
  - eapply ctl_weaken; [by apply ctl_clearNamespace|]. intros h' r Hq. by apply ctl_quiet.
Qed.

(** *** The robot's pass *)

Lemma ctl_keeps robot h : run (robotKeepsStopFinalizer robot) h (fun h' r => match r with
  | Ok false => carriesOwnStop robot = false /\ estopHoldsWork robot = false /\
      exists zones configs, Saw SZones (Some zones) h' /\ Saw SConfigs (Some configs) h' /\ stopNamesOf zones configs robot = Ok []
  | _ => True end).
Proof.
  unfold robotKeepsStopFinalizer, KeepsStopFinalizer. destruct (_ || _) eqn:E; [done|]. apply orb_false_iff in E as [E1 E2].
  eapply ctl_try; [apply ctl_standing| |done]. intros h1 [zones configs] _ [Hz Hc]. destruct (stopNamesOf zones configs robot) as [stops|] eqn:Es; [|done]. simpl.
  case_bool_decide as El; simpl; [|done]. split_and!; [done|done|]. exists zones, configs. rewrite Es, El. done.
Qed.

Lemma ctl_issue (robot : Obj (ItOf KRobot)) trigger h : run (issueRobotEstop ct robot trigger) h any.
Proof.
  unfold issueRobotEstop. apply ctl_call; [done|]. intros sentAt h1 _ _ _. apply ctl_call; [done|]. intros [res err] h2 _ _ Ht.
  eapply ctl_bind; [apply ctl_seal|]. intros h3 _ Hm3 _.
  assert (Hw : match err with Some e => isStateUnwritten e = false | None => True end ->
    run (let*? _ := patchObj (k := KRobot) "recording robot estop processed" robot
           (withAnns (k := KRobot) robot (consumeEstopActor (withoutPendingFirmware (<[annEstopProcessed := trigger]> (r_Annotations (o_It robot)))))) in done) h3 any).
  { intros Hu. eapply ctl_try; [apply ctl_patchObj, mark_permitted; [apply annotations_with| |]| |done].
    - unfold consumeEstopActor, withoutPendingFirmware. rewrite !lookup_delete_ne by done. by rewrite lookup_insert_eq.
    - exists (estopReason trigger "robot emergency stop"), (estopActor (r_Annotations (o_It robot)) ("robot-estop:" +:+ r_Name (o_It robot))).2, res, err.
      split; [by apply Hm3|done].
    - by intros h4 o _ _. }
  destruct err as [e|]; [|by apply Hw]. destruct (isStateUnwritten e) eqn:Eu; [done|by apply Hw].
Qed.

Lemma ctl_clearRobot (robot : Obj (ItOf KRobot)) h : objSeen h KRobot robot -> run (clearRobotEstop ct robot) h any.
Proof.
  intros Ho. unfold clearRobotEstop. eapply ctl_try; [apply ctl_standing| |done]. intros h1 [zones configs] Hm1 [Hz Hc].
  set (holders := Holders (o_It robot) zones configs).
  eapply ctl_try with (Q := fun h' held => (exists x, x ∈ holders /\ h_Orphaned x = false) \/ exists by_ ends s, Saw (SClear (r_Name (o_It robot)) by_ ends) (Ok s) h'); [| |done].
  - match goal with |- context [match List.filter ?f ?l with _ => _ end] => destruct (List.filter f l) as [|x l'] eqn:Ef end.
    + apply ctl_call; [|intros [s|] h2 _ _ Hs; [right; eauto|done]]. exists zones, configs. split_and!; [done|done|]. right. exists robot. split_and!; [by eapply objSeen_more|done|].
      intros x Hx. destruct (h_Orphaned x) eqn:Eo; [done|]. exfalso. assert (Hin : x ∈ List.filter (fun x => negb (h_Orphaned x)) holders).
      { apply list_elem_of_In, List.filter_In. split; [by apply list_elem_of_In|by rewrite Eo]. } apply (elem_of_nil x). rewrite <- Ef. exact Hin.
    + eapply ctl_bind; [apply ctl_note|]. intros h2 _ _ _. left. exists x. assert (Hin : In x (x :: l')) by (by left). rewrite <- Ef in Hin.
      apply List.filter_In in Hin as [Hin%list_elem_of_In E]. split; [done|by apply negb_true_iff].
  - intros h2 held Hm2 Hcl. eapply ctl_bind; [eapply ctl_any, ctl_dropHolds|]. intros h3 [e|] Hm3 _; [done|]. eapply ctl_bind; [apply ctl_seal|]. intros h4 _ Hm4 _.
    eapply ctl_try; [eapply ctl_weaken; [apply ctl_keeps|]| |done]; [intros h' [b|] _; exact I|]. intros h5 keep Hm5 _.
    assert (Hrc : clearedAll h5 KRobot robot).
    { exists zones, configs. split_and!; [by apply Hm5, Hm4, Hm3, Hm2|by apply Hm5, Hm4, Hm3, Hm2|]. destruct Hcl as [Hcl|(b & e & s & Hs)]; [by left|right].
      exists b, e, s. by apply Hm5, Hm4, Hm3. }
    eapply ctl_try; [apply ctl_patchObj, clear_permitted; [|exact Hrc]| |done]; [by destruct keep; apply dropped_lookup|]. by intros h6 o _ _.
Qed.

(** *** Resume requests *)

Lemma ctl_closed robot request h : run (closed robot request) h any.
Proof.
  unfold closed, closeRequest. eapply ctl_bind with (Q := any); [|by intros h1 [e|] _ _]. destruct (_ <>s _); [done|]. apply ctl_call; [|by intros [o|[]] h1 _ _ _].
  apply quiet_patch; [|done]. rewrite annotations_with. rewrite lookup_delete_ne by done. by rewrite lookup_insert_ne by done.
Qed.

Lemma ctl_closeClaim name request h : run (closeClaim ct name request) h any.
Proof.
  unfold closeClaim. apply ctl_call; [done|]. intros [robot|[]] h1 _ _ _; [|done..]. destruct (_ <>s _); [done|]. apply ctl_call; [done|]. intros a h2 _ _ _.
  eapply ctl_bind; [apply ctl_when, ctl_note|]. intros h3 _ _ _. apply ctl_closed.
Qed.

Lemma ctl_handleResume name request h : run (handleResumeRequest ct name request) h any.
Proof.
  unfold handleResumeRequest. apply ctl_call; [done|]. intros [fresh|[]] h1 Hn _ Hs; [|done..].
  destruct (r_Annotations (o_It fresh) !! EstopResumeClaimedAnnotation) eqn:Ec; [apply ctl_closeClaim|]. case_bool_decide as Ep; cbn [negb]; [|done].
  set (new := withAnns (k := KRobot) fresh _).
  assert (Hnew : annotations (k := KRobot) new !! EstopResumeClaimedAnnotation = Some request).
  { unfold new. rewrite annotations_with. unfold consumeEstopActor. rewrite lookup_delete_ne by done. by rewrite lookup_insert_eq. }
  apply (ctl_call (SPatch KRobot true fresh new)).
  - apply quiet_patch; [|done]. unfold new. rewrite annotations_with. unfold consumeEstopActor. rewrite lookup_delete_ne by done. by rewrite lookup_insert_ne by done.
  - intros [robot|e] h2 Ha Hm2 Hp; [|done]. cbn beta iota. eapply ctl_bind with (Q := any).
    + unfold evaluateResume. eapply ctl_bind; [apply ctl_standing|]. intros h3 [[zones configs]|] Hm3 Hst; [|done]. destruct Hst as [Hz Hc].
      destruct (StandingStop _ _ _) eqn:Est; [done|]. destruct (ct_Resumer ct); [|done].
      apply ctl_call; [|by intros [[s w]|] h4 _ _ _]. assert (Hname : r_Name (o_It robot) = name) by exact (eq_trans (proj1 Ha) Hn). change (resumeClaimed h3 (r_Name (o_It robot))). rewrite Hname.
      exists fresh, new, robot, request, zones, configs. split_and!; try done; [by apply Hm3, Hm2|by apply Hm3].
    + intros h3 state _ _. eapply ctl_bind; [apply ctl_note|]. intros h4 _ _ _. eapply ctl_bind; [apply ctl_seal|]. intros h5 _ _ _.
      apply ctl_call; [done|]. intros u h6 _ _ _. apply ctl_closed.
Qed.

Lemma ctl_resumePass robot h : run (resumePass ct robot) h any.
Proof.
  unfold resumePass. destruct (_ !! _); [apply ctl_closeClaim|]. destruct (pendingEstopResume _); [apply ctl_handleResume|done].
Qed.

Lemma ctl_RobotReconcile name h : run (RobotReconcile ct name) h any.
Proof.
  unfold RobotReconcile. apply ctl_call; [done|]. intros [robot|[]] h1 Hn _ Hs; [|done..]. destruct (negb _); [apply ctl_resumePass|].
  eapply ctl_try; [apply ctl_keeps| |done]. intros h2 keep Hm2 Hk. assert (Ho : objSeen h2 KRobot robot) by (left; exists name; by apply Hm2).
  eapply ctl_try; [apply ctl_holdFinalizer; [done|]| |done].
  { intros ->. destruct Hk as (E1 & E2 & Hk). unfold carriesOwnStop in E1. apply orb_false_iff in E1 as [E3 E4]. split_and!; done. }
  intros h3 [over r] Hm3 [Ho3 _]. destruct over; [done|].
  destruct (r_Annotations (o_It robot) !! annEstopTriggered) as [t|], (r_Annotations (o_It robot) !! annEstopProcessed) as [p|];
    [destruct (p =s t); [apply ctl_resumePass|apply ctl_issue]|apply ctl_issue|by apply ctl_clearRobot|apply ctl_resumePass].
Qed.
End Programs.
