(* ===== verification/EstopControlTheorems.v ===== *)
(** What the stop controllers guarantee, whatever the API server, the Dispatcher, the clock and the order of
    the goroutines: a trigger is marked applied only when the Dispatcher was asked for every robot in its
    scope, a stop in force is put to who comes under it, a clear frees no robot another stop holds, and a resume request is put
    to the Dispatcher only once it is claimed. With the zone status projection, what wakes a zone's
    controller, and concrete passes that show each of these happens. *)

From S2P Require Import Prelude.
From S2P Require Import Types.
From S2P Require Import Contract.
From S2P Require Import Conc.
From S2P Require Import Along.
From S2P Require Import Par.
From S2P Require Import EstopScope.
From S2P Require Import EstopGuard.
From S2P Require Import ExecutorGuard.
From S2P Require Import SafetyData.
From S2P Require Import Safety.
From S2P Require Import ExecutorGate.
From S2P Require Import ActionData.
From S2P Require Import EstopControl.
From S2P Require Import EstopControlProps.

(** ** Passes *)

Inductive StopPass := PassZone (name : string) | PassNamespace (namespace name : string) | PassRobot (name : string).

Definition passProg (ct : StopCtl) (p : StopPass) : P Res :=
  match p with PassZone n => ZoneReconcile ct n | PassNamespace ns n => NamespaceReconcile ct ns n | PassRobot n => RobotReconcile ct n end.

(** The pass, with answers of the world, comes to the call [e] having seen [h]; it ends with [r]. *)
Definition passReaches (ct : StopCtl) (p : StopPass) (h : list SObs) (e : StopEv) : Prop := reaches stopAnswered (passProg ct p) [] h e.
Definition passEnds (ct : StopCtl) (p : StopPass) (h : list SObs) (r : Res) : Prop := returns stopAnswered (passProg ct p) [] h r.

Lemma pass_stopPermitted ct p h e : passReaches ct p h e -> stopPermitted h e.
Proof.
  unfold passReaches. intros Hr. destruct p as [n|ns n|n].
  - exact (along_reaches _ _ _ _ _ _ _ (ctl_ZoneReconcile ct n []) Hr).
  - exact (along_reaches _ _ _ _ _ _ _ (ctl_NamespaceReconcile ct ns n []) Hr).
  - exact (along_reaches _ _ _ _ _ _ _ (ctl_RobotReconcile ct n []) Hr).
Qed.

(** C18 A trigger is marked applied only when everyone was tried and recorded. When a pass is about to record
    on a zone, a namespace's config or a robot that its trigger is applied, then for a zone: for every robot
    the API server listed that is in the zone's scope, in any order the fan-out's goroutines ran, the
    Dispatcher was called in this pass for this zone's stop of this robot and answered otherwise than with an
    outcome it could not write, and the robot records the stop in status.estopHeldBy (or is gone); for a
    config the same of every robot of the namespace; for a robot the Dispatcher was called for its own stop
    and so answered. The answer may be an error before any send (lookup_failure_marks_trigger). *)
Theorem trigger_marked_when_reached ct p h k lock (base new : Obj (ItOf k)) (Hpass : passReaches ct p h (SPatch k lock base new)) (Hmark : markerSet base new) :
  applied h k base.
Proof. destruct (pass_stopPermitted _ _ _ _ Hpass) as (H & _). by apply H. Qed.

(** ** Which stops hold a robot *)

(** [x] is the last object listed under the name [n]. *)
Definition lastNamed {A : Type} (name : A -> string) (l : list A) (n : string) (x : A) : Prop :=
  exists l1 l2, l = l1 ++ x :: l2 /\ name x = n /\ forall y, y ∈ l2 -> name y <> n.

(** [z] is [k] parents above the zone [n], among the listed zones. *)
Inductive zoneUp (zones : list FleetZone) : nat -> string -> FleetZone -> Prop :=
| zone_self n z : n <> "" -> lastNamed fz_Name zones n z -> zoneUp zones O n z
| zone_above n p k z : n <> "" -> lastNamed fz_Name zones n p -> zoneUp zones k (parentOf p) z -> zoneUp zones (S k) n z.

Definition annotated (anns : gmap string string) (key : string) : Prop := is_Some (anns !! key).

(** The record's UID says the object was recreated. *)
Definition recreated (e : EstopHold) (uid : string) : Prop := eh_UID e <> "" /\ uid <> "" /\ eh_UID e <> uid.

(** What holds the robot, counting the records of its status that [counts] names: its own trigger; a recorded
    zone or config that exists, not recreated, and carries the trigger or the processed marker; a triggered zone
    it is in or, propagating down, within 64 parents above that one; a triggered config. *)
Inductive holdsOn (counts : EstopHold -> Prop) (zones : list FleetZone) (configs : list SwarmadaConfig) (r : Robot) : Prop :=
| holds_own : annotated (r_Annotations r) TriggerAnnotation -> holdsOn counts zones configs r
| holds_recorded_zone e z : e ∈ r_EstopHeldBy r -> counts e -> eh_Kind e <> EstopHoldSwarmadaConfig -> lastNamed fz_Name zones (eh_Name e) z ->
    ~ recreated e (fz_UID z) -> annotated (fz_Annotations z) TriggerAnnotation \/ annotated (fz_Annotations z) ProcessedAnnotation -> holdsOn counts zones configs r
| holds_recorded_config e c : e ∈ r_EstopHeldBy r -> counts e -> eh_Kind e = EstopHoldSwarmadaConfig -> lastNamed sc_Name configs (eh_Name e) c ->
    ~ recreated e (sc_UID c) -> annotated (sc_Annotations c) TriggerAnnotation \/ annotated (sc_Annotations c) ProcessedAnnotation -> holdsOn counts zones configs r
| holds_zone k z : zoneUp zones k (if decide (r_CurrentZone r = "") then r_Zone r else r_CurrentZone r) z -> (k <= 64)%nat ->
    annotated (fz_Annotations z) TriggerAnnotation -> k = O \/ propagatesDown z = true -> holdsOn counts zones configs r
| holds_config c : c ∈ configs -> annotated (sc_Annotations c) TriggerAnnotation -> holdsOn counts zones configs r.

(** A record whose carrier is not listed, or was recreated. *)
Definition orphanOn (counts : EstopHold -> Prop) (zones : list FleetZone) (configs : list SwarmadaConfig) (r : Robot) : Prop :=
  exists e, e ∈ r_EstopHeldBy r /\ counts e /\
    ((eh_Kind e <> EstopHoldSwarmadaConfig /\ forall z, lastNamed fz_Name zones (eh_Name e) z -> recreated e (fz_UID z)) \/
     (eh_Kind e = EstopHoldSwarmadaConfig /\ forall c, lastNamed sc_Name configs (eh_Name e) c -> recreated e (sc_UID c))).

(** The record is of another stop than the one of the carrier; a record without a kind is of a zone. *)
Definition ofOther (kind : EstopHoldKind) (name : string) (e : EstopHold) : Prop :=
  eh_Name e <> name \/ (eh_Kind e <> kind /\ (eh_Kind e = "" -> kind <> EstopHoldFleetZone)).

Lemma lastNamed_map {A : Type} (name : A -> string) l n x : forall m : gmap string A,
  fold_left (fun m x => <[name x := x]> m) l m !! n = Some x <-> lastNamed name l n x \/ (forall y, y ∈ l -> name y <> n) /\ m !! n = Some x.
Proof.
  induction l as [|y l IH] using rev_ind; intros m.
  - cbn [fold_left]. split; [intros H; right; split; [by intros y ?%elem_of_nil|done]|]. intros [(l1 & l2 & E & _)|[_ H]]; [by destruct l1|done].
  - rewrite fold_left_app. cbn [fold_left]. destruct (decide (name y = n)) as [<-|Hne].
    + rewrite lookup_insert_eq. split.
      * intros [= ->]. left. exists l, []. split_and!; [done|done|by intros z ?%elem_of_nil].
      * intros [(l1 & l2 & E & Hn & Hl)|[Hl _]]; [|by destruct (Hl y ltac:(apply elem_of_app; right; by left))].
        destruct l2 as [|z l2 _] using rev_ind; [by apply app_inj_tail in E as [_ ->]|]. rewrite app_comm_cons, app_assoc in E. apply app_inj_tail in E as [_ ->].
        by destruct (Hl z ltac:(apply elem_of_app; right; by left)).
    + rewrite lookup_insert_ne by done. rewrite IH. split.
      * intros [(l1 & l2 & -> & Hn & Hl)|[Hl Hm]].
        -- left. exists l1, (l2 ++ [y]). split_and!; [by rewrite <- app_assoc|done|]. intros z [Hz|Hz%list_elem_of_singleton]%elem_of_app; [by apply Hl|by subst].
        -- right. split; [|done]. intros z [Hz|Hz%list_elem_of_singleton]%elem_of_app; [by apply Hl|by subst].
      * intros [(l1 & l2 & E & Hn & Hl)|[Hl Hm]].
        -- left. destruct l2 as [|z l2 _] using rev_ind; [by apply app_inj_tail in E as [_ ->]|]. rewrite app_comm_cons, app_assoc in E. apply app_inj_tail in E as [-> ->].
           exists l1, l2. split_and!; [done|done|]. intros w Hw. apply Hl, elem_of_app. by left.
        -- right. split; [|done]. intros z Hz. apply Hl, elem_of_app. by left.
Qed.

Lemma TreeOf_named zones n z : TreeOf zones !! n = Some z <-> lastNamed fz_Name zones n z.
Proof. unfold TreeOf. rewrite lastNamed_map, lookup_empty. naive_solver. Qed.

Lemma configs_named (configs : list SwarmadaConfig) n c :
  (fold_left (fun m c => <[sc_Name c := c]> m) configs ∅ : gmap string SwarmadaConfig) !! n = Some c <-> lastNamed sc_Name configs n c.
Proof. rewrite lastNamed_map, lookup_empty. naive_solver. Qed.

Lemma has_annotated anns key : has anns key = true <-> annotated anns key.
Proof. unfold has, annotated. destruct (anns !! key); by split. Qed.

Lemma not_recreated e uid ann : ~ recreated e uid -> orphanedBy e (Some (uid, ann)) = false.
Proof.
  intros H. unfold orphanedBy, recreated in *. destruct (eh_UID e =s "") eqn:E1, (uid =s "") eqn:E2, (eh_UID e =s uid) eqn:E3; try done. str_bool. by destruct H.
Qed.

Lemma inForce_annotated ann : annotated ann TriggerAnnotation \/ annotated ann ProcessedAnnotation -> InForce ann = true.
Proof. unfold InForce. rewrite orb_true_iff, !has_annotated. done. Qed.

Lemma recorded_zone zones configs e z : eh_Kind e <> EstopHoldSwarmadaConfig -> lastNamed fz_Name zones (eh_Name e) z -> ~ recreated e (fz_UID z) ->
  annotated (fz_Annotations z) TriggerAnnotation \/ annotated (fz_Annotations z) ProcessedAnnotation -> is_Some (recordedInForce (TreeOf zones) configs e).
Proof.
  intros Hk Hz Hu Ha. unfold recordedInForce, EstopScope.carrierOf. apply eqb_s_false in Hk. rewrite Hk. apply TreeOf_named in Hz. rewrite Hz. simpl.
  change (is_Some (if orphanedBy e (Some (fz_UID z, fz_Annotations z)) then None else
    if InForce (fz_Annotations z) then Some (mkHolder (HoldKind (eh_Kind e)) (eh_Name e) (valueOf (fz_Annotations z) TriggerAnnotation) true (negb (has (fz_Annotations z) TriggerAnnotation)) false false) else None)).
  rewrite not_recreated by done. rewrite inForce_annotated by done. by eexists.
Qed.

Lemma recorded_config zones (configs : list SwarmadaConfig) e c : eh_Kind e = EstopHoldSwarmadaConfig -> lastNamed sc_Name configs (eh_Name e) c -> ~ recreated e (sc_UID c) ->
  annotated (sc_Annotations c) TriggerAnnotation \/ annotated (sc_Annotations c) ProcessedAnnotation -> is_Some (recordedInForce (TreeOf zones) configs e).
Proof.
  intros Hk Hz Hu Ha. unfold recordedInForce, EstopScope.carrierOf. rewrite Hk, eqb_s_refl. apply configs_named in Hz. rewrite Hz. simpl.
  change (is_Some (if orphanedBy e (Some (sc_UID c, sc_Annotations c)) then None else
    if InForce (sc_Annotations c) then Some (mkHolder (HoldKind EstopHoldSwarmadaConfig) (eh_Name e) (valueOf (sc_Annotations c) TriggerAnnotation) true (negb (has (sc_Annotations c) TriggerAnnotation)) false false) else None)).
  rewrite not_recreated by done. rewrite inForce_annotated by done. by eexists.
Qed.

Lemma standing_zone zones k : forall name z more own, zoneUp zones k name z -> (k < more)%nat -> annotated (fz_Annotations z) TriggerAnnotation ->
  (k = O /\ own = true) \/ propagatesDown z = true -> standingZones (TreeOf zones) more own name <> [].
Proof.
  induction k as [|k IH]; intros name z more own Hu Hk Ha Hd; inversion Hu; subst; (destruct more as [|more]; [lia|]); cbn [standingZones].
  - apply TreeOf_named in H0 as E. rewrite E. apply eqb_s_false in H. rewrite H. apply has_annotated in Ha. rewrite Ha.
    assert (own || propagatesDown z = true) as -> by (destruct Hd as [[_ ->]| ->]; [done|apply orb_true_r]). done.
  - apply TreeOf_named in H1 as E. rewrite E. apply eqb_s_false in H0. rewrite H0. intros [_ Hn]%app_eq_nil. destruct Hd as [[Hd _]|Hd]; [done|].
    apply (IH (parentOf p) z more false); [exact H2|lia|exact Ha|by right|exact Hn].
Qed.

Lemma addAll_prefix hs : forall out x, x ∈ out -> x ∈ addAll out hs.
Proof.
  induction hs as [|h hs IH]; intros out x Hx; [done|]. change (addAll out (h :: hs)) with (addAll (addHolder out h) hs). apply IH.
  unfold addHolder. destruct (existsb _ _); [done|]. apply elem_of_app. by left.
Qed.

Lemma addAll_first x hs : x ∈ addAll [] (x :: hs).
Proof. change (addAll [] (x :: hs)) with (addAll [x] hs). apply addAll_prefix. by left. Qed.

Lemma addAll_nil hs : addAll [] hs = [] -> hs = [].
Proof. destruct hs as [|x hs]; [done|]. intros E. pose proof (addAll_first x hs) as H. rewrite E in H. by apply elem_of_nil in H. Qed.

(** The blocks of Holders before the orphans. *)
Definition heldNow (r : Robot) (zones : list FleetZone) (configs : list SwarmadaConfig) : list Holder :=
  EstopScope.ownTrigger r false ++ omap (recordedInForce (TreeOf zones) configs) (r_EstopHeldBy r) ++ standingZones (TreeOf zones) (S walkCap) true (zoneOf r) ++ standingConfigs configs.

Lemma standing_not_orphaned r zones configs x : x ∈ heldNow r zones configs -> h_Orphaned x = false.
Proof.
  unfold heldNow. rewrite !elem_of_app. intros [H|[H|[H|H]]].
  - revert H. unfold EstopScope.ownTrigger. destruct (_ !! _); [|by intros ?%elem_of_nil]. by intros ->%list_elem_of_singleton.
  - apply list_elem_of_omap in H as (e & _ & H). unfold recordedInForce in H. repeat (case_match; try done). by simplify_eq/=.
  - revert H. generalize (S walkCap), true, (zoneOf r). intros n. induction n as [|n IH]; intros own name; cbn [standingZones]; [by intros ?%elem_of_nil|].
    destruct (_ =s _); [by intros ?%elem_of_nil|]. destruct (_ !! _); [|by intros ?%elem_of_nil]. intros [H|H]%elem_of_app; [|by eapply IH].
    destruct (_ && _); [by apply list_elem_of_singleton in H as ->|by apply elem_of_nil in H].
  - apply list_elem_of_omap in H as (c & _ & H). destruct (_ !! _); [|done]. by simplify_eq/=.
Qed.

(** Where every stop Holders lists is an orphan, none of the others holds. *)
Lemma orphans_only r zones configs : (forall x, x ∈ Holders r zones configs -> h_Orphaned x = true) -> heldNow r zones configs = [].
Proof.
  intros H. destruct (heldNow r zones configs) as [|x l] eqn:E; [done|]. assert (Hx : h_Orphaned x = false) by (eapply standing_not_orphaned; rewrite E; by left).
  rewrite H in Hx; [done|]. unfold Holders. cbn zeta.
  replace (EstopScope.ownTrigger r false ++ _) with (heldNow r zones configs ++ omap (recordedOrphan (TreeOf zones) configs) (r_EstopHeldBy r)) by (unfold heldNow; by rewrite <- !app_assoc).
  rewrite E. apply addAll_first.
Qed.

Lemma standing_free r zones configs : heldNow r zones configs = [] -> ~ holdsOn (fun _ => True) zones configs r.
Proof.
  unfold heldNow. intros (H1 & (H2 & (H3 & H4)%app_eq_nil)%app_eq_nil)%app_eq_nil. intros [[v Hv]|e z He _ Hk Hz Hu Ha|e c He _ Hk Hz Hu Ha|k z Hu Hk Ha Hd|c Hc [v Hv]].
  - unfold EstopScope.ownTrigger in H1. by rewrite Hv in H1.
  - destruct (recorded_zone zones configs e z Hk Hz Hu Ha) as [h Hh]. apply (elem_of_nil h). rewrite <- H2. apply list_elem_of_omap. eauto.
  - destruct (recorded_config zones configs e c Hk Hz Hu Ha) as [h Hh]. apply (elem_of_nil h). rewrite <- H2. apply list_elem_of_omap. eauto.
  - eapply standing_zone; [exact Hu| |exact Ha| |].
    + unfold walkCap. instantiate (1 := S walkCap). unfold walkCap. lia.
    + instantiate (1 := true). destruct Hd as [->|Hd]; [by left|by right].
    + rewrite <- H3. unfold zoneOf. destruct (decide _) as [->|Hn]; [done|]. apply eqb_s_false in Hn. by rewrite Hn.
  - unfold standingConfigs in H4. apply (elem_of_nil (mkHolder KindNamespace (sc_Name c) v false false false false)). rewrite <- H4. apply list_elem_of_omap. exists c. by rewrite Hv.
Qed.

Lemma other_kept ref r e : e ∈ r_EstopHeldBy r -> ofOther (hf_kind ref) (hf_name ref) e -> e ∈ r_EstopHeldBy (withoutHold r ref).
Proof.
  intros He Ho. cbn [withoutHold withHolds r_EstopHeldBy]. apply list_elem_of_In, List.filter_In. split; [by apply list_elem_of_In|]. apply negb_true_iff.
  unfold namesHold. apply andb_false_iff. destruct Ho as [Hn|[Hk Hz]]; [right; by apply eqb_s_false|left].
  destruct (eh_Kind e =s "") eqn:E; str_bool; apply eqb_s_false; [intros Hc; symmetry in Hc; by apply Hz|done].
Qed.

Lemma holdsOn_withoutHold ref zones configs r : holdsOn (ofOther (hf_kind ref) (hf_name ref)) zones configs r -> holdsOn (fun _ => True) zones configs (withoutHold r ref).
Proof.
  intros [?|e z He Ho ????|e c He Ho ????|k z ????|c ??].
  - by apply holds_own.
  - eapply holds_recorded_zone; [by apply other_kept|done..].
  - eapply holds_recorded_config; [by apply other_kept|done..].
  - by eapply holds_zone.
  - by eapply holds_config.
Qed.

Lemma orphan_listed ref zones configs r : orphanOn (ofOther (hf_kind ref) (hf_name ref)) zones configs r -> StandingStop (withoutHold r ref) zones configs <> None.
Proof.
  intros (e & He & Ho & Hor). assert (Hrec : is_Some (recordedOrphan (TreeOf zones) configs e)).
  { unfold recordedOrphan. assert (orphanedBy e (EstopScope.carrierOf (TreeOf zones) configs e) = true) as ->; [|by eexists].
    unfold EstopScope.carrierOf. destruct Hor as [[Hk Hor]|[Hk Hor]].
    - apply eqb_s_false in Hk. rewrite Hk. destruct (TreeOf zones !! eh_Name e) as [z|] eqn:Ez; [|done]. apply TreeOf_named, Hor in Ez as (H1 & H2 & H3). simpl.
      apply eqb_s_false in H1, H2, H3. by rewrite H1, H2, H3.
    - rewrite Hk, eqb_s_refl. destruct (_ !! eh_Name e) as [c|] eqn:Ez; [|done]. apply configs_named, Hor in Ez as (H1 & H2 & H3). simpl.
      apply eqb_s_false in H1, H2, H3. by rewrite H1, H2, H3. }
  destruct Hrec as [x Hx]. unfold StandingStop. destruct (Holders (withoutHold r ref) zones configs) as [|y l] eqn:E; [|done]. exfalso.
  unfold Holders in E. apply addAll_nil in E. rewrite !app_nil in E. destruct E as (_ & _ & _ & _ & E). apply (elem_of_nil x). rewrite <- E.
  apply list_elem_of_omap. exists e. split; [by apply other_kept|done].
Qed.

(** Nothing but the stop being cleared holds the robot: a carrier's, on the robot as listed, or the robot's own. *)
Definition freeToClear (h : list SObs) (robot : string) : Prop :=
  exists zones configs, Seen (resp := stopResp) SZones (Some zones) ∈ h /\ Seen (resp := stopResp) SConfigs (Some configs) ∈ h /\
    ((exists robots r kind name, Seen (resp := stopResp) SRobots (Some robots) ∈ h /\ r ∈ robots /\ r_Name r = robot /\
        ((exists z, objSeen h KZone z /\ kind = EstopHoldFleetZone /\ name = fz_Name (sz_Zone (o_It z))) \/
         (exists c, objSeen h KConfig c /\ kind = EstopHoldSwarmadaConfig /\ name = sc_Name (o_It c))) /\
        ~ holdsOn (ofOther kind name) zones configs r /\ ~ orphanOn (ofOther kind name) zones configs r) \/
     (exists o, objSeen h KRobot o /\ r_Name (o_It o) = robot /\ ~ holdsOn (fun _ => True) zones configs (o_It o))).

Lemma mayClear_free h robot : mayClear h robot -> freeToClear h robot.
Proof.
  intros (zones & configs & Hz & Hc & H). exists zones, configs. split_and!; [done|done|]. destruct H as [(robots & r & ref & Hl & Hr & Hn & Hs & Href)|(o & Ho & Hn & Hor)].
  - left. exists robots, r, (hf_kind ref), (hf_name ref). split_and!; [done|done|done| | |].
    + destruct Href as [(z & Hz' & <-)|(c & Hc' & <-)]; [left; by exists z|right; by exists c].
    + intros Hh%holdsOn_withoutHold. revert Hh. apply standing_free, orphans_only. unfold StandingStop in Hs. destruct (Holders _ _ _); [|done]. by intros x ?%elem_of_nil.
    + intros Hh%orphan_listed. done.
  - right. exists o. split_and!; [done|done|]. by apply standing_free, orphans_only.
Qed.

(** C20 A clear frees no robot another stop holds. When a pass asks the Dispatcher to clear a robot, it has
    listed the zones and the configs from the API server. For the stop of a zone or a config, the robot as
    listed from the API server has no trigger of its own, no other record in status.estopHeldBy than of this
    carrier unless the recorded carrier exists under its UID with neither trigger nor marker, no triggered zone
    it is in or, propagating down, within 64 parents above, and the namespace has no triggered config. For the
    robot's own stop the same of the Robot the pass has in hand, which it read from the cache or its write
    of the finalizer answered with, but a record whose carrier is gone or recreated does not keep the clear back. *)
Theorem clear_only_when_nothing_else_holds ct p h robot by_ ends (Hpass : passReaches ct p h (SClear robot by_ ends)) : freeToClear h robot.
Proof. exact (mayClear_free _ _ (pass_stopPermitted _ _ _ _ Hpass)). Qed.

(** A stop is let go only when its clear reached everyone. When a pass is about to drop the marker of a
    zone or a config, every robot in its scope and every robot that records its stop was cleared by the
    Dispatcher, or is held by another stop, and its record of this stop is gone; a robot's own marker is
    dropped when it was cleared or another stop holds it. The finalizer that keeps a stopped object is
    dropped only then, or with the whole namespace, or when no stop is on the object. *)
Theorem stop_let_go_when_cleared ct p h k lock (base new : Obj (ItOf k)) (Hpass : passReaches ct p h (SPatch k lock base new))
  (Hdrop : markerDropped base new \/ finalizerDropped base new) :
  clearedAll h k base \/ ~ markerDropped base new /\ (namespaceGoing h \/ noStopOn h k base).
Proof.
  destruct (pass_stopPermitted _ _ _ _ Hpass) as (_ & H1 & H2).
  destruct (decide (annotations base !! annEstopProcessed <> None /\ annotations new !! annEstopProcessed = None)) as [Hm|Hm]; [left; by apply H1|].
  destruct Hdrop as [Hd|Hd]; [done|]. destruct (H2 Hd) as [H|[H|H]]; auto.
Qed.


(** C21 A resume request is evaluated only when it is claimed. When a pass asks the Dispatcher to resume a
    robot, it has read the Robot from the API server with the request pending and no claim on it, and has
    stored its claim under that resourceVersion, so that no other pass claims the same request; and on the
    Robot the claim answered with, no stop stands. *)
Theorem resume_evaluated_once_claimed ct p h robot by_ (Hpass : passReaches ct p h (SConfirm robot by_)) : resumeClaimed h robot.
Proof. exact (pass_stopPermitted _ _ _ _ Hpass). Qed.

(** ** The zone status *)

(** The tree the projection reads. *)
Definition treeOf (zones : gmap string (Obj StopZone)) : Tree := zoneIn <$> zones.

Lemma above_climb zones zone k : forall seen name l, climb (treeOf zones) zone k seen name = Ok l ->
  aboveInForce zones k name = existsb (fun a => estopInForce a && propagatesDown a) l.
Proof.
  induction k as [|k IH]; intros seen name l; cbn [climb aboveInForce]; (destruct (name =s ""); [by intros [= <-]|]); [done|].
  case_bool_decide; [done|]. unfold treeOf. rewrite lookup_fmap. destruct (zones !! name) as [p|] eqn:E; simpl; [|by intros [= <-]].
  destruct (climb _ _ _ _ _) as [out|] eqn:Ec; simpl; [|done]. intros [= <-]. simpl. destruct (_ && _); [done|]. by eapply IH.
Qed.

Lemma filter_existsb {A : Type} (f : A -> bool) (l : list A) : List.filter f l <> [] <-> existsb f l = true.
Proof. induction l as [|a l IH]; simpl; [done|]. by destruct (f a). Qed.

(** The zone's status says what the stop guard says. For a zone of the projected map whose chain of
    parents can be walked, the projection reads Triggered exactly when the guard's walk (Reaching) finds a
    stop in force that reaches the zone: its own, or that of a zone above it that propagates down. *)
Theorem zone_status_agrees_with_guard zones name o names (Hzone : zones !! name = Some o)
  (Hreach : Reaching (treeOf zones) name estopInForce = Ok names) :
  derivedEstopStatus zones (zoneIn o) = ZoneEstopTriggered <-> names <> [].
Proof.
  assert (Hl : treeOf zones !! name = Some (zoneIn o)) by (unfold treeOf; by rewrite lookup_fmap, Hzone).
  revert Hreach. unfold Reaching, Ancestors. rewrite !Hl. destruct (climb _ _ _ _ _) as [l|] eqn:Ec; simpl; [|done]. intros [= <-].
  unfold derivedEstopStatus. unfold zoneEstopWalkCap. rewrite (above_climb _ _ _ _ _ _ Ec). destruct (estopInForce (zoneIn o)); [done|]. simpl.
  pose proof (filter_existsb (fun a => estopInForce a && propagatesDown a) l) as Hf.
  destruct (existsb (fun a => estopInForce a && propagatesDown a) l).
  - split; [|done]. intros _ E%fmap_nil_inv. by apply Hf.
  - split.
    + by destruct (existsb _ (map snd (map_to_list zones))).
    + intros Hn. exfalso. destruct (List.filter _ l); [done|]. destruct Hf as [Hf _]. by specialize (Hf ltac:(done)).
Qed.

(** ** What wakes a zone's controller *)

Lemma chain_climb (t : Tree) zone a : treeWf t -> forall k k' seen seen' name l, climb t zone k seen name = Ok l -> (k <= k')%nat -> seen' ⊆ seen -> a ∈ l ->
  fz_Name a ∈ zoneChainLoop (fun n => t !! n) k' seen' name.
Proof.
  intros Hwf. induction k as [|k IH]; intros k' seen seen' name l Hc Hk Hsub Ha; cbn [climb] in Hc; (destruct (name =s "") eqn:En; [injection Hc as <-; by apply elem_of_nil in Ha|]); [done|].
  case_bool_decide as Hs; [done|]. destruct k' as [|k']; [lia|]. cbn [zoneChainLoop]. rewrite En. rewrite bool_decide_eq_false_2 by set_solver. simpl.
  destruct (t !! name) as [p|] eqn:Ep; [|injection Hc as <-; by apply elem_of_nil in Ha].
  destruct (climb _ _ _ _ _) as [out|] eqn:Ec; simpl in Hc; [|done]. injection Hc as <-. apply elem_of_cons in Ha as [->|Ha].
  - destruct Hwf as [_ Hwf]. rewrite (Hwf _ _ Ep). by left.
  - right. eapply IH; [exact Ec|lia|set_solver|done].
Qed.

Lemma chainLoop_step get more start : start <> "" ->
  zoneChainLoop get (S more) ∅ start = start :: match get start with None => [] | Some fz => zoneChainLoop get more ({[start]} ∪ ∅) (parentOf fz) end.
Proof. intros Hs. cbn [zoneChainLoop]. apply eqb_s_false in Hs. rewrite Hs. by rewrite bool_decide_eq_false_2 by set_solver. Qed.

Lemma zoneChain_start get start : start <> "" -> start ∈ zoneChain get start.
Proof. intros Hs. unfold zoneChain. rewrite chainLoop_step by done. by left. Qed.

Lemma elem_addSeen l : forall seen x, x ∈ l -> x ∉ seen -> x ∈ (addSeen seen l).1.
Proof.
  induction l as [|n l IH]; intros seen x Hx Hs; [by apply elem_of_nil in Hx|]. cbn [addSeen]. case_bool_decide as Hn.
  - apply elem_of_cons in Hx as [->|Hx]; [done|by apply IH].
  - destruct (addSeen ({[n]} ∪ seen) l) as [out seen'] eqn:E. simpl. destruct (decide (x = n)) as [->|Hne]; [by left|right].
    apply elem_of_cons in Hx as [->|Hx]; [done|]. specialize (IH ({[n]} ∪ seen) x Hx ltac:(set_solver)). by rewrite E in IH.
Qed.

(** A robot's event wakes every stop over it: each zone in whose scope the robot stands, as the fan-out
    decides it on the zones the cache holds, and each zone whose stop it records, is reconciled. *)
Theorem robot_event_wakes_stops_over_it (t : Tree) (robot : Robot) carrier (Hwf : treeWf t)
  (Hover : fanOutOne t carrier true (zoneOf robot) = (true, false) \/ exists e, e ∈ r_EstopHeldBy robot /\ eh_Kind e = EstopHoldFleetZone /\ eh_Name e = carrier) :
  carrier ∈ zonesAboveRobot (fun n => t !! n) robot.
Proof.
  unfold zonesAboveRobot. apply elem_addSeen; [|set_solver]. destruct Hover as [Hover|(e & He & Hk & <-)].
  - assert (Hin : carrier ∈ zoneChain (fun n => t !! n) (zoneOf robot)).
    { unfold fanOutOne, Covers in Hover. destruct (zoneOf robot =s "") eqn:E0; [done|]. destruct (zoneOf robot =s carrier) eqn:E1; str_bool.
      - subst carrier. by apply zoneChain_start.
      - simpl in Hover. destruct (Ancestors t (zoneOf robot)) as [l|] eqn:Ea; simpl in Hover; [|done]. injection Hover as He.
        apply existsb_exists in He as (a & Ha%list_elem_of_In & En). str_bool. subst carrier. unfold Ancestors in Ea. unfold zoneChain. rewrite chainLoop_step by done.
        destruct (t !! zoneOf robot) as [z|] eqn:Ez; [|injection Ea as <-; by apply elem_of_nil in Ha].
        right. eapply chain_climb; [done|exact Ea|done|set_solver|done]. }
    unfold zoneOf in Hin. destruct (r_CurrentZone robot =s ""); apply elem_of_app; [right; apply elem_of_app|]; by left.
  - apply elem_of_app; right. apply elem_of_app; right. apply list_elem_of_In, in_map_iff. exists e. split; [done|]. apply List.filter_In. split; [by apply list_elem_of_In|].
    rewrite Hk. done.
Qed.

(** ** Concrete passes *)

Record ExStops := mkExStops {
  xs_zone : Obj StopZone;                          (* the zone, as the cache has it *)
  xs_config : Obj SwarmadaConfig;
  xs_robot : Obj Robot;                            (* the robot, as the cache has it *)
  xs_live : Obj Robot;                             (* the robot, as the API server has it *)
  xs_trigger : Result * option stopError           (* what TriggerEstop answers *)
}.

Definition exNamed {k : ObjKind} (n : string) (o : Obj (ItOf k)) : result readError (Obj (ItOf k)) := if decide (objName k (o_It o) = n) then Ok o else Err NotFound.

Definition exWrite {k : ObjKind} (base new : Obj (ItOf k)) : result patchError (Obj (ItOf k)) :=
  if decide (objName k (o_It new) = objName k (o_It base)) then
    if decide (uidOf k (o_It new) = uidOf k (o_It base)) then Ok new else Err PFailed
  else Err PFailed.

Definition exStopAnswer (w : ExStops) (h : list SObs) (e : StopEv) : stopResp e :=
  match e with
  | SGet k n => match k with KZone => exNamed (k := KZone) n (xs_zone w) | KConfig => exNamed (k := KConfig) n (xs_config w) | KRobot => exNamed (k := KRobot) n (xs_robot w) end
  | SLiveGet k n => match k with KZone => exNamed (k := KZone) n (xs_zone w) | KConfig => exNamed (k := KConfig) n (xs_config w) | KRobot => exNamed (k := KRobot) n (xs_live w) end
  | SRobots => Some [o_It (xs_live w)]
  | SZones => Some [sz_Zone (o_It (xs_zone w))]
  | SConfigs => Some [o_It (xs_config w)]
  | SCachedZones => Some [xs_zone w]
  | SNamespaceDeleted => Ok false
  | SPatch k _ base new => exWrite base new
  | SZoneStatus _ base new => exWrite (k := KZone) base new
  | SHolds _ _ => None
  | STrigger _ _ _ _ _ => xs_trigger w
  | SClear _ _ _ => Ok RobotEstopResuming
  | SSent _ => ∅
  | SConfirm _ _ => Ok (RobotEstopNormal, "")
  | SAnswered _ => None
  | SNow => 100 * Second
  | SPick => true
  | SStoreAnswered _ _ | SEvent _ _ | SAudit _ => tt
  end.

Lemma exNamed_named (k : ObjKind) n (o : Obj (ItOf k)) : match exNamed n o with Ok o => objName k (o_It o) = n | Err _ => True end.
Proof. unfold exNamed. by destruct (decide _). Qed.

Lemma exWrite_same (k : ObjKind) (base new : Obj (ItOf k)) : match exWrite base new with
  | Ok o => objName k (o_It o) = objName k (o_It base) /\ uidOf k (o_It o) = uidOf k (o_It base) | Err _ => True end.
Proof. unfold exWrite. destruct (decide _); [|done]. by destruct (decide _). Qed.

Lemma exStopAnswer_answered w h e : stopAnswered e (exStopAnswer w h e).
Proof.
  destruct e as [k n|k n| | | | | |k lock base new|lock base new| | | | | | | | | | |]; try done.
  - destruct k; apply exNamed_named.
  - destruct k; apply exNamed_named.
  - apply exWrite_same.
  - apply (exWrite_same KZone).
Qed.

(** The pass comes to a call of which [stop] holds. *)
Definition comes (w : ExStops) (p : StopPass) (stop : StopEv -> bool) : bool :=
  match runUntil (exStopAnswer w) (fun _ => stop) (passProg (mkStopCtl true true true true true (fun _ => "")) p) [] with Some (_, e) => stop e | None => false end.

Lemma comes_reaches w p stop : comes w p stop = true -> exists h e, passReaches (mkStopCtl true true true true true (fun _ => "")) p h e /\ stop e = true.
Proof.
  unfold comes. destruct (runUntil _ _ _ _) as [[h e]|] eqn:E; [|done]. intros Hs. exists h, e. split; [|done]. eapply runUntil_reaches; [|exact E]. apply exStopAnswer_answered.
Qed.

(** ** Objects *)

Definition exCarrierZone (anns : gmap string string) : Obj StopZone :=
  mkObj 5 true false (mkStopZone (mkFleetZone "dock" "ns" "u-dock" anns (mkFleetZoneSpec 2 [] "" None) (mkFleetZoneStatus [] [] 0)) "" None).

Definition exQuietConfig : Obj SwarmadaConfig := mkObj 6 false false (mkSwarmadaConfig "swarmada-config" "u-cfg" ∅).

Definition exHeldRobot (anns : gmap string string) (state : RobotEstopState) (held : list EstopHold) (stops : list RobotStop) : Obj Robot :=
  mkObj 7 true false (mkRobot "amr-1" "ns" "u1" anns None "dock" "" "Idle" "dock" None [] [] held "ad" state stops).

Definition exDockRecord : EstopHold := mkEstopHold EstopHoldFleetZone "dock" "u-dock" (50 * Second).
Definition exDockStop : RobotStop := mkRobotStop "s1" StopScopeZone (Some (mkStopCarrier StopCarrierFleetZone "dock" "u-dock")) (50 * Second) None None.

Definition exStopped : Result * option stopError := (mkResult true true RobotEstopStopped 1 false, None).

(** A triggered zone; one in force; one whose trigger was taken away; a robot that asks to be resumed. *)
Definition exFiring : ExStops :=
  let r := exHeldRobot ∅ RobotEstopNormal [] [] in mkExStops (exCarrierZone {[annEstopTriggered := "leak"]}) exQuietConfig r r exStopped.
Definition exStanding : ExStops :=
  let r := exHeldRobot ∅ RobotEstopStopped [exDockRecord] [exDockStop] in
  mkExStops (exCarrierZone {[annEstopTriggered := "leak"; annEstopProcessed := "leak"]}) exQuietConfig r r exStopped.
Definition exClearing : ExStops :=
  let r := exHeldRobot ∅ RobotEstopStopped [exDockRecord] [exDockStop] in mkExStops (exCarrierZone {[annEstopProcessed := "leak"]}) exQuietConfig r r exStopped.
Definition exAsking : ExStops :=
  let r := exHeldRobot {[EstopResumeAnnotation := "ok"]} RobotEstopResuming [] [] in mkExStops (exCarrierZone ∅) exQuietConfig r r exStopped.

Definition setsMarker (e : StopEv) : bool :=
  match e with SPatch k _ base new => isSome (annotations new !! annEstopProcessed) && negb (bool_decide (annotations new !! annEstopProcessed = annotations base !! annEstopProcessed)) | _ => false end.

Definition dropsMarker (e : StopEv) : bool :=
  match e with SPatch k _ base new => isSome (annotations base !! annEstopProcessed) && negb (isSome (annotations new !! annEstopProcessed)) | _ => false end.

(** ** Witnesses *)

Lemma trigger_marked_when_reached_witness : exists h k (base new : Obj (ItOf k)), markerSet base new /\ applied h k base.
Proof.
  assert (Hc : comes exFiring (PassZone "dock") setsMarker = true) by (vm_compute; reflexivity).
  destruct (comes_reaches _ _ _ Hc) as (h & e & Hp & He). destruct e; try done. apply andb_true_iff in He as [H1 H2%negb_true_iff%bool_decide_eq_false].
  assert (Hm : markerSet base new) by (split; [by destruct (annotations new !! annEstopProcessed)|done]).
  exists h, k, base, new. split; [done|]. exact (trigger_marked_when_reached _ _ h k lock base new Hp Hm).
Defined.

Lemma clear_only_when_nothing_else_holds_witness : exists h robot, robot = "amr-1" /\ freeToClear h robot.
Proof.
  assert (Hc : comes exClearing (PassZone "dock") (fun e => match e with SClear r _ _ => r =s "amr-1" | _ => false end) = true) by (vm_compute; reflexivity).
  destruct (comes_reaches _ _ _ Hc) as (h & e & Hp & He). destruct e; try done. str_bool. exists h, robot. split; [done|].
  exact (clear_only_when_nothing_else_holds _ _ h robot clearedBy ends Hp).
Defined.

Lemma stop_let_go_when_cleared_witness : exists h k (base new : Obj (ItOf k)), markerDropped base new /\
  (clearedAll h k base \/ ~ markerDropped base new /\ (namespaceGoing h \/ noStopOn h k base)).
Proof.
  assert (Hc : comes exClearing (PassZone "dock") dropsMarker = true) by (vm_compute; reflexivity).
  destruct (comes_reaches _ _ _ Hc) as (h & e & Hp & He). destruct e; try done. apply andb_true_iff in He as [H1 H2%negb_true_iff].
  assert (Hm : markerDropped base new) by (split; [by destruct (annotations base !! annEstopProcessed)|by destruct (annotations new !! annEstopProcessed)]).
  exists h, k, base, new. split; [done|]. exact (stop_let_go_when_cleared _ _ h k lock base new Hp (or_introl Hm)).
Defined.


Lemma resume_evaluated_once_claimed_witness : exists h, resumeClaimed h "amr-1".
Proof.
  assert (Hc : comes exAsking (PassRobot "amr-1") (fun e => match e with SConfirm r _ => r =s "amr-1" | _ => false end) = true) by (vm_compute; reflexivity).
  destruct (comes_reaches _ _ _ Hc) as (h & e & Hp & He). destruct e; try done. str_bool. subst robot. exists h.
  exact (resume_evaluated_once_claimed _ _ h "amr-1" confirmedBy Hp).
Defined.

Lemma zone_status_agrees_with_guard_witness :
  derivedEstopStatus {["dock" := exCarrierZone {[annEstopProcessed := "leak"]}]} (zoneIn (exCarrierZone {[annEstopProcessed := "leak"]})) = ZoneEstopTriggered <-> ["dock"] <> [].
Proof.
  apply (zone_status_agrees_with_guard {["dock" := exCarrierZone {[annEstopProcessed := "leak"]}]} "dock"); [by apply lookup_singleton_eq|vm_compute; reflexivity].
Defined.

Lemma robot_event_wakes_stops_over_it_witness : "dock" ∈ zonesAboveRobot (fun n => TreeOf [zoneIn (exCarrierZone ∅)] !! n) (o_It (exHeldRobot ∅ RobotEstopNormal [] [])).
Proof.
  apply robot_event_wakes_stops_over_it; [|left; vm_compute; reflexivity]. apply TreeOf_wf. intros z Hz%list_elem_of_singleton. by subst z.
Defined.

(** ** A clear that reads the robot from the cache *)

(** The robot as the cache has it, before the zone's record was written on it; its own trigger was taken away. *)
Definition exStaleClear : ExStops :=
  mkExStops (exCarrierZone {[annEstopTriggered := "leak"; annEstopProcessed := "leak"]}) exQuietConfig
    (exHeldRobot {[annEstopProcessed := "r"]} RobotEstopStopped [] []) (exHeldRobot {[annEstopProcessed := "r"]} RobotEstopStopped [exDockRecord] [exDockStop]) exStopped.

(** A robot's own clear can drop the record of a stop in force: it decides which records to keep on the
    cached Robot, and drops the others from the Robot it reads from the API server. Here the zone's stop is
    in force and recorded on the robot, the cached Robot does not show the record yet, and the pass writes
    the record away. *)
Theorem stale_clear_drops_record : exists h (base : Obj Robot) holds,
  passReaches (mkStopCtl true true true true true (fun _ => "")) (PassRobot "amr-1") h (SHolds base holds) /\
  r_EstopHeldBy (o_It base) = [exDockRecord] /\ holds = [] /\
  recordedInForce (TreeOf [zoneIn (xs_zone exStaleClear)]) [] exDockRecord <> None.
Proof.
  destruct (runUntil (exStopAnswer exStaleClear) (fun _ e => match e with SHolds _ _ => true | _ => false end)
    (passProg (mkStopCtl true true true true true (fun _ => "")) (PassRobot "amr-1")) []) as [[h e]|] eqn:E; [|vm_compute in E; discriminate E].
  assert (He : option_map snd (Some (h, e)) = Some (SHolds (xs_live exStaleClear) [])) by (rewrite <- E; vm_compute; reflexivity). injection He as ->.
  exists h, (xs_live exStaleClear), []. split_and!; [|done|done|by vm_compute]. eapply runUntil_reaches; [apply exStopAnswer_answered|exact E].
Qed.

(** ** A stop that was never sent *)

(** A robot with a trigger of its own, which the Dispatcher cannot read. *)
Definition exUnread : ExStops :=
  let r := exHeldRobot {[annEstopTriggered := "leak"]} RobotEstopNormal [] [] in
  mkExStops (exCarrierZone ∅) exQuietConfig r r (noResult, Some (ErrLookup Safety.NotFound)).

(** No call for a stop in [h] was answered otherwise than by a failed lookup. *)
Definition neverSent (h : list SObs) : bool :=
  forallb (fun o => match o with
    | @Seen _ _ e a => match e return stopResp e -> bool with
        | STrigger _ _ _ _ _ => fun a => match a.2 with Some (ErrLookup _) => true | _ => false end
        | _ => fun _ => true
        end a
    end) h.

(** A trigger whose stop was never sent is marked applied. TriggerEstop answers a failed lookup of the Robot
    with an error before any send, for the caller to try again; the caller tries again only on an outcome that
    is unwritten, and records the robot's trigger as processed. *)
Theorem lookup_failure_marks_trigger : exists h lock (base new : Obj (ItOf KRobot)),
  passReaches (mkStopCtl true true true true true (fun _ => "")) (PassRobot "amr-1") h (SPatch KRobot lock base new) /\
  annotations base !! annEstopTriggered = Some "leak" /\ annotations base !! annEstopProcessed = None /\ annotations new !! annEstopProcessed = Some "leak" /\
  neverSent h = true.
Proof.
  destruct (runUntil (exStopAnswer exUnread) (fun _ => setsMarker) (passProg (mkStopCtl true true true true true (fun _ => "")) (PassRobot "amr-1")) []) as [[h e]|] eqn:E;
    [|vm_compute in E; discriminate E].
  assert (He : option_map (fun x => (neverSent x.1, match x.2 with SPatch KRobot _ base new =>
      Some (annotations base !! annEstopTriggered, annotations base !! annEstopProcessed, annotations new !! annEstopProcessed) | _ => None end)) (Some (h, e)) =
    Some (true, Some (Some "leak", None, Some "leak"))) by (rewrite <- E; vm_compute; reflexivity).
  injection He as Hn He. apply runUntil_reaches with (ans := stopAnswered) in E; [|apply exStopAnswer_answered].
  destruct e as [| | | | | | |k lock base new| | | | | | | | | | | |]; try done. destruct k; try done. injection He as H1 H2 H3. exists h, lock, base, new. by split_and!.
Qed.
