(* ===== verification/DispatchFilters.v ===== *)
(** The candidate filters of a dispatch: src/internal/controller/adapter_readiness.go, dispatch_filters.go,
    dispatch_holds.go, dispatch_zone_restrictions.go and dispatch_operating_constraints.go. One call of
    filterDispatchEligible is a function of what its reads answer. The reason a robot or an action is withheld is
    a value that carries what its text formats; the no-candidate message is a text, because the action's status
    holds it and a later pass compares it. *)

From S2P Require Import Prelude.
From S2P Require Import Types.
From S2P Require Import Decimal.
From S2P Require Import Contract.
From S2P Require Import RobotId.
From S2P Require Import Scheduler.
From S2P Require Import EstopScope.
From S2P Require Import Conc.
From S2P Require Import Command.
From S2P Require Import ExecutorGate.
From S2P Require Import AdmissionGuards.
From S2P Require Import ActionData.
From S2P Require Import EstopControl.
From S2P Require Import ZoneRestrictions.

(** ** Objects *)

(** A Robot with the fields the filters read. *)
Record DispatchRobot := mkDispatchRobot {
  dr_Object : RobotObject;
  dr_RobotClass : string;                              (* spec, and so on below *)
  dr_MinBatteryPctForAction : option Z;                (* spec.constraints, nil when the block is *)
  dr_SpecModels : list (string * list string);         (* installedModels: name, grantsCapabilities *)
  dr_SpecCapabilities : list (string * string);        (* capabilities: name, providingModel *)
  dr_InstalledModels : list InstalledModelStatusEntry; (* status, and so on below *)
  dr_ModelGranted : list ModelGrantedCapabilityEntry;
  dr_ContainingZones : list string;
  dr_Honoured : list string                            (* honouredOperatingConstraints *)
}.

Definition dr_Robot (r : DispatchRobot) : Robot := ob_Robot (dr_Object r).
Definition dr_Name (r : DispatchRobot) : string := r_Name (dr_Robot r).

(** A FleetAction with spec.minBatteryPct. *)
Record DispatchAction := mkDispatchAction { da_Action : Action; da_MinBatteryPct : option Z }.
Definition da_Spec (a : DispatchAction) : FleetActionSpec := ac_Spec (da_Action a).
Definition da_Zone (a : DispatchAction) : string := ac_Zone (da_Action a).

Record FleetAdapter := mkFleetAdapter {
  fa_Phase : string;
  fa_Conformance : string;
  fa_ConformanceContractVersion : string;
  fa_NegotiatedContractVersion : string;
  fa_ServesRobotClasses : list string
}.
Definition FleetAdapterPhaseConnected : string := "Connected".
Definition ConformanceStatePassed : string := "Passed".

Record ZoneMaintenance := mkMaintenance { zm_Name : string; zm_Phase : string; zm_PausedRobots : list string; zm_WindingDownRobots : list string }.
Definition ZoneMaintenancePhaseActive : string := "Active".
Definition ModelStatusUpdating : string := "Updating".

(** What the reads of one call answer; [None] is an error. *)
Record FilterReads := mkFilterReads {
  fr_Zones : option (list RuledZone);
  fr_Windows : option (list ZoneMaintenance);
  fr_LiveRobots : option (list Robot);
  fr_LiveZones : option (list StopZone);
  fr_LiveConfigs : option (list SwarmadaConfig);
  fr_Adapter : string -> result readError FleetAdapter
}.

(** ** Filters and reasons *)

Definition filterZoneLeafSet : Z := 2.
Definition filterMinBattery : Z := 4.
Definition filterModelNotUpdating : Z := 7.
Definition filterZoneMaintenance : Z := 8.
Definition filterAdapterReady : Z := 9.
Definition filterEstop : Z := 10.
Definition filterResumeWindow : Z := 0.
Definition filterRobotIDConflict : Z := -3.

Inductive zoneStopWhy := EstopTriggered | EstopRequested | EstopClearPending.

Inductive unfitWhy := NotConnectedPassed (phase conformance : string) | ConformanceUnsupported (why : refusal)
| NoNegotiatedVersion | NegotiatedBelow (version : string).

Inductive withheldWhy :=
| WhyTerminating
| WhyRobotsUnread
| WhySharedID (id : string) (names : list string)
| WhyConfigsUnread
| WhyNamespaceStop (config : string)
| WhyZonesUnread
| WhyZoneTooDeep (zone : string)
| WhyZoneStop (zone holder : string) (how : zoneStopWhy)
| WhyEstop (state : RobotEstopState) (by_ : option Holder)
| WhyResuming
| WhyBatteryUnknown (floor : Z)
| WhyBatteryLow (battery floor : Z)
| WhyModelUpdating (models : list (string * string))
| WhyMaintenanceUnread
| WhyDrained (window : string)
| WhyNoZone
| WhyWrongZone (zone : string) (leaves : list string)
| WhyUnreadableContainment (zones : list string)
| WhyOperating (missing : list EffectiveZoneRestriction)
| WhyNoAdapter
| WhyAdapterMissing (name : string)
| WhyAdapterUnread (name : string)
| WhyAdapterUnfit (name : string) (why : unfitWhy)
| WhyClassNotServed (name class : string).

Record exclusion := mkExclusionWhy { xc_Robot : string; xc_Filter : Z; xc_Why : withheldWhy }.

(** ** The adapter (adapter_readiness.go) *)

Definition adapterDispatchReadiness (a : FleetAdapter) : option unfitWhy :=
  if (fa_Phase a <>s FleetAdapterPhaseConnected) || (fa_Conformance a <>s ConformanceStatePassed)
  then Some (NotConnectedPassed (fa_Phase a) (fa_Conformance a))
  else ConformanceUnsupported <$> Supports (fa_ConformanceContractVersion a).

Definition adapterDispatchReady (a : FleetAdapter) : bool := match adapterDispatchReadiness a with None => true | Some _ => false end.

Definition adapterListsClass (served : list string) (class : string) : bool :=
  match served with [] => true | _ => existsb (fun c => c =s class) served end.

Definition latchContractMin : string := "1.4.0".

Definition adapterLatchContract (a : FleetAdapter) : option unfitWhy :=
  match Below (fa_NegotiatedContractVersion a) latchContractMin with
  | None => Some NoNegotiatedVersion
  | Some true => Some (NegotiatedBelow (fa_NegotiatedContractVersion a))
  | Some false => None
  end.

(** ** The holds (dispatch_holds.go) *)

Definition wireIDHolders (robots : list Robot) : gmap string (list string) :=
  sort_Strings <$> fold_left (fun (m : gmap string (list string)) r => <[Wire r := default [] (m !! Wire r) ++ [r_Name r]]> m) robots ∅.

Definition zoneEstopInForce (z : StopZone) : option zoneStopWhy :=
  if sz_EstopStatus z =s ZoneEstopTriggered then Some EstopTriggered
  else if has (fz_Annotations (sz_Zone z)) annEstopTriggered then Some EstopRequested
  else if has (fz_Annotations (sz_Zone z)) annEstopProcessed then Some EstopClearPending
  else None.

Definition namespaceEstopInForce (c : SwarmadaConfig) : bool :=
  has (sc_Annotations c) annEstopTriggered || has (sc_Annotations c) annEstopProcessed.

Record dispatchHolds := mkHolds {
  dh_holders : option (gmap string (list string));
  dh_zones : option (gmap string StopZone);            (* the zones by name, and so the tree *)
  dh_nsStop : option (option string)                   (* the config whose stop holds the namespace *)
}.

Definition stopZonesByName (zones : list StopZone) : gmap string StopZone := fold_left (fun m z => <[fz_Name (sz_Zone z) := z]> m) zones ∅.

Definition newDispatchHolds (rd : FilterReads) : dispatchHolds :=
  mkHolds (wireIDHolders <$> fr_LiveRobots rd) (stopZonesByName <$> fr_LiveZones rd)
    ((fun cs => sc_Name <$> List.find namespaceEstopInForce cs) <$> fr_LiveConfigs rd).

Definition robotIDConflict (h : dispatchHolds) (robot : Robot) : option withheldWhy :=
  match dh_holders h with
  | None => Some WhyRobotsUnread
  | Some holders =>
      let names := default [] (holders !! Wire robot) in
      if (1 <? length names)%nat then Some (WhySharedID (Wire robot) names) else None
  end.

Definition namespaceStop (h : dispatchHolds) : option withheldWhy :=
  match dh_nsStop h with
  | None => Some WhyConfigsUnread
  | Some stop => WhyNamespaceStop <$> stop
  end.

Definition stopTree (zones : gmap string StopZone) : Tree := sz_Zone <$> zones.

(** One start of the walk: the zone and its ancestors. *)
Definition zoneStopAt (zones : gmap string StopZone) (start : string) : option withheldWhy :=
  if start =s "" then None
  else match Ancestors (stopTree zones) start with
       | Err _ => Some (WhyZoneTooDeep start)
       | Ok ancestors =>
           let stopOf n := z ← zones !! n; how ← zoneEstopInForce z; Some (WhyZoneStop start n how) in
           match stopOf start with
           | Some why => Some why
           | None => first_match (fun a => stopOf (fz_Name a)) ancestors
           end
       end.

Definition zoneStopOf (h : dispatchHolds) (robot : Robot) : option withheldWhy :=
  match dh_zones h with
  | None => Some WhyZonesUnread
  | Some zones =>
      match zoneStopAt zones (r_CurrentZone robot) with
      | Some why => Some why
      | None => zoneStopAt zones (r_Zone robot)
      end
  end.

(** ** Zones below the action's (dispatch_filters.go) *)

(** childrenOf of buildTree (zone_controller.go). *)
Definition zoneChildren (zones : list RuledZone) (name : string) : list string :=
  if (name <>s "") && existsb (fun z => rz_Name z =s name) zones
  then rz_Name <$> List.filter (fun z => rz_Parent z =s name) zones else [].

(** walk: the names seen and the leaves found so far. *)
Fixpoint leafWalk (fuel : nat) (zones : list RuledZone) (st : gset string * gset string) (name : string) : gset string * gset string :=
  match fuel with
  | O => st
  | S fuel =>
      let '(seen, leaves) := st in
      if bool_decide (name ∈ seen) then st
      else
        let seen := {[name]} ∪ seen in
        match zoneChildren zones name with
        | [] => (seen, {[name]} ∪ leaves)
        | kids => fold_left (leafWalk fuel zones) kids (seen, leaves)
        end
  end.

Definition resolveZoneLeaves (zone : string) (zones : list RuledZone) : gset string :=
  (leafWalk (S (S (length zones))) zones (∅, ∅) zone).2.

(** ** Filter 11 (dispatch_zone_restrictions.go) *)

Definition ActionFailureZoneEntryDenied : string := "ZoneEntryDenied".
Definition ActionFailureZoneCapabilityDenied : string := "ZoneCapabilityDenied".
Definition ActionFailureZoneRestrictionsUnresolved : string := "ZoneRestrictionsUnresolved".
Definition ActionFailureZoneUnknown : string := "ZoneUnknown".

(** [ve_leaves] is nil when the verdict narrows nothing. *)
Record zoneVerdict := mkZoneVerdict {
  ve_refuse : bool;
  ve_terminal : bool;
  ve_reason : string;
  ve_leaves : option (gset string);
  ve_narrowedOut : list string
}.

Definition findEffective (z : RuledZone) (axis : ZoneRestrictionAxis) (subject : string) : option EffectiveZoneRestriction :=
  List.find (fun e => (ez_Axis e =s axis) && (ez_Subject e =s subject)) (default [] (rz_Effective z)).

Definition deniedAt (z : RuledZone) (axis : ZoneRestrictionAxis) (subject : string) : bool :=
  match findEffective z axis subject with Some e => ez_Mode e =s ZoneRestrictionDenied | None => false end.

Definition namespaceUsesRestrictions (zones : list RuledZone) : bool :=
  existsb (fun z => match rz_Restrictions z with
                    | None => false
                    | Some r => match zx_Entry r with Some _ => true | None => false end ||
                                match zx_Capabilities r with [] => false | _ => true end || match zx_Operating r with [] => false | _ => true end
                    end) zones.

Definition isNone {A} (o : option A) : bool := match o with None => true | Some _ => false end.

Definition evaluateZoneRestrictions (action : DispatchAction) (zones : list RuledZone) : option zoneVerdict :=
  let target := da_Zone action in
  if target =s "" then None
  else if negb (namespaceUsesRestrictions zones) then None
  else
    let byName := zonesByName zones in
    Some match byName !! target with
    | None => mkZoneVerdict true true ActionFailureZoneUnknown None []
    | Some self =>
        if negb (isNone (unresolvedReason self)) then mkZoneVerdict true false ActionFailureZoneRestrictionsUnresolved None []
        else if deniedAt self ZoneAxisEntry "" then mkZoneVerdict true true ActionFailureZoneEntryDenied None []
        else if existsb (fun want => deniedAt self ZoneAxisCapability want) (fas_RequiredCapabilities (da_Spec action))
             then mkZoneVerdict true true ActionFailureZoneCapabilityDenied None []
        else
          let leaves := elements (resolveZoneLeaves target zones) in
          let unresolvedLeaf n := match byName !! n with Some z => negb (isNone (unresolvedReason z)) | None => false end in
          let deniedLeaf n := match byName !! n with Some z => isNone (unresolvedReason z) && deniedAt z ZoneAxisEntry "" | None => false end in
          let kept : gset string := list_to_set (List.filter (fun n => negb (unresolvedLeaf n) && negb (deniedLeaf n)) leaves) in
          let narrowedOut := sort_Strings (List.filter deniedLeaf leaves) in
          if existsb unresolvedLeaf leaves then mkZoneVerdict true false ActionFailureZoneRestrictionsUnresolved (Some kept) narrowedOut
          else if bool_decide (kept = ∅) then mkZoneVerdict true true ActionFailureZoneEntryDenied (Some kept) narrowedOut
          else mkZoneVerdict false false "" (Some kept) narrowedOut
    end.

(** ** Filter 12 (dispatch_operating_constraints.go) *)

Record operatingRuleSet := mkRuleSet {
  os_target : string;
  os_byZone : gmap string (list EffectiveZoneRestriction);
  os_zones : list RuledZone
}.

Definition isOperating (e : EffectiveZoneRestriction) : bool := ez_Axis e =s ZoneAxisOperating.

Definition effectiveOperatingRules (z : RuledZone) : list EffectiveZoneRestriction :=
  sliceStable (fun a b => ez_Subject a <s ez_Subject b) (List.filter isOperating (default [] (rz_Effective z))).

Definition operatingConstraintsInForce (action : DispatchAction) (zones : list RuledZone) (leaves : gset string) : option operatingRuleSet :=
  let target := da_Zone action in
  if target =s "" then None
  else if negb (namespaceUsesRestrictions zones) then None
  else
    let byName := zonesByName zones in
    match byName !! target with
    | None => None
    | Some self =>
        if negb (isNone (unresolvedReason self)) then None
        else
          let byZone := fold_left (fun m name =>
              if name =s target then m
              else match byName !! name with
                   | None => m
                   | Some leaf => if isNone (unresolvedReason leaf) then <[name := effectiveOperatingRules leaf]> m else m
                   end) (elements leaves) {[target := effectiveOperatingRules self]} in
          let set := mkRuleSet target byZone zones in
          if existsb (fun kv => (0 <? length kv.2)%nat) (map_to_list byZone) then Some set
          else if existsb (fun z => negb (isNone (unresolvedReason z)) || (0 <? length (effectiveOperatingRules z))%nat) zones then Some set
          else None
    end.

Definition ruleAt (s : option operatingRuleSet) (zone : string) : list EffectiveZoneRestriction :=
  match s with
  | None => []
  | Some s => match os_byZone s !! zone with Some rules => rules | None => default [] (os_byZone s !! os_target s) end
  end.

Definition forRobot (s : option operatingRuleSet) (robot : DispatchRobot) : list EffectiveZoneRestriction * list string :=
  match s with
  | None => ([], [])
  | Some s =>
      let current := r_CurrentZone (dr_Robot robot) in
      let leaf := match os_byZone s !! current with Some _ => current | None => os_target s end in
      match List.filter (fun z => z <>s leaf) (dr_ContainingZones robot) with
      | [] => (default [] (os_byZone s !! leaf), [])
      | others =>
          let '(folded, unresolved) := unionEffectiveRestrictionsWithUnresolved (os_zones s) (leaf :: others) in
          (List.filter isOperating folded, unresolved)
      end
  end.

Definition excludedByUnreadableContainment (unresolved : list string) : option (Z * withheldWhy) :=
  match unresolved with [] => None | _ => Some (filterOperatingConstraint, WhyUnreadableContainment unresolved) end.

Definition excludedByOperatingConstraint (robot : DispatchRobot) (inForce : list EffectiveZoneRestriction) : option (Z * withheldWhy) :=
  match List.filter (fun e => negb (existsb (String.eqb (ez_Subject e)) (dr_Honoured robot))) inForce with
  | [] => None
  | missing => Some (filterOperatingConstraint, WhyOperating missing)
  end.

(** ** Filters 2, 4, 7 and 8 (dispatch_filters.go) *)

Definition excludedByZone (robot : Robot) (leaves : gset string) : option (Z * withheldWhy) :=
  if r_CurrentZone robot =s "" then Some (filterZoneLeafSet, WhyNoZone)
  else if bool_decide (r_CurrentZone robot ∈ leaves) then None
  else Some (filterZoneLeafSet, WhyWrongZone (r_CurrentZone robot) (sort_Strings (elements leaves))).

Definition effectiveBatteryFloor (robot : DispatchRobot) (action : DispatchAction) : option Z :=
  match da_MinBatteryPct action, dr_MinBatteryPctForAction robot with
  | None, None => None
  | Some a, None => Some a
  | None, Some r => Some r
  | Some a, Some r => if r <=? a then Some a else Some r
  end.

Definition excludedByBatteryFloor (robot : DispatchRobot) (action : DispatchAction) : option (Z * withheldWhy) :=
  match effectiveBatteryFloor robot action with
  | None => None
  | Some floor =>
      match r_BatteryPercent (dr_Robot robot) with
      | None => Some (filterMinBattery, WhyBatteryUnknown floor)
      | Some b => if b <? floor then Some (filterMinBattery, WhyBatteryLow b floor) else None
      end
  end.

(** Every (model, capability) the three declarations grant, in the order they are read. *)
Definition grants (robot : DispatchRobot) : list (string * string) :=
  concat (map (fun m => map (pair m.1) m.2) (dr_SpecModels robot)) ++
  concat (map (fun m => map (pair (mg_ModelName m)) (mg_Capabilities m)) (dr_ModelGranted robot)) ++
  map (fun c => (c.2, c.1)) (List.filter (fun c => c.2 <>s "") (dr_SpecCapabilities robot)).

(** note: the first required capability found for each updating model; a model noted "" is noted again. *)
Definition noteOffender (updating required : gset string) (st : gmap string string * list string) (mc : string * string) : gmap string string * list string :=
  let '(note, offenders) := st in
  if negb (bool_decide (mc.2 ∈ required)) then st
  else if negb (bool_decide (mc.1 ∈ updating)) || (default "" (note !! mc.1) <>s "") then st
  else (<[mc.1 := mc.2]> note, offenders ++ [mc.1]).

Definition excludedByModelUpdate (robot : DispatchRobot) (action : DispatchAction) : option (Z * withheldWhy) :=
  let updating : gset string := list_to_set (mo_Name <$> List.filter (fun m => mo_Status m =s ModelStatusUpdating) (dr_InstalledModels robot)) in
  let required : gset string := list_to_set (fas_RequiredCapabilities (da_Spec action)) in
  match (fold_left (noteOffender updating required) (grants robot) (∅, [])) with
  | (_, []) => None
  | (note, offenders) => Some (filterModelNotUpdating, WhyModelUpdating ((fun m => (m, default "" (note !! m))) <$> sort_Strings offenders))
  end.

Definition drainClaim (suffix window : string) (out : gmap string string) (robot : string) : gmap string string :=
  match out !! robot with Some _ => out | None => <[robot := window +:+ suffix]> out end.

Definition drainedRobots (windows : list ZoneMaintenance) : gmap string string :=
  fold_left (fun out w => fold_left (drainClaim " (winding down)" (zm_Name w)) (zm_WindingDownRobots w)
                            (fold_left (drainClaim " (paused)" (zm_Name w)) (zm_PausedRobots w) out))
    (sliceStable (fun a b => zm_Name a <s zm_Name b) (List.filter (fun w => zm_Phase w =s ZoneMaintenancePhaseActive) windows)) ∅.

(** ** One call *)

Record dispatchFilterState := mkFilterState {
  st_zoneLeaves : option (gset string);
  st_drained : option (gmap string string);            (* [None]: maintenanceUnread *)
  st_operating : option operatingRuleSet
}.

Inductive degradedWhy := ZoneFilterNotApplied | MaintenanceUnread.

(** The verdict a failed list of the zones gives. *)
Definition unreadVerdict : zoneVerdict := mkZoneVerdict true false ActionFailureZoneRestrictionsUnresolved None [].

Definition refuses (v : option zoneVerdict) : bool := match v with Some v => ve_refuse v | None => false end.

Definition newDispatchFilterState (rd : FilterReads) (action : DispatchAction) : dispatchFilterState * list degradedWhy * option zoneVerdict :=
  let '(leaves, operating, degraded, restrictions) :=
    if da_Zone action =s "" then (None, None, [], None)
    else match fr_Zones rd with
         | None => (None, None, [ZoneFilterNotApplied], Some unreadVerdict)
         | Some zones =>
             let restrictions := evaluateZoneRestrictions action zones in
             let leaves := match restrictions with
                           | Some v => default (resolveZoneLeaves (da_Zone action) zones) (ve_leaves v)
                           | None => resolveZoneLeaves (da_Zone action) zones
                           end in
             (Some leaves, if refuses restrictions then None else operatingConstraintsInForce action zones leaves, [], restrictions)
         end in
  match fr_Windows rd with
  | None => (mkFilterState leaves None operating, degraded ++ [MaintenanceUnread], restrictions)
  | Some windows => (mkFilterState leaves (Some (drainedRobots windows)) operating, degraded, restrictions)
  end.

Definition pinned (robot : DispatchRobot) (action : DispatchAction) : bool :=
  (fas_RobotSelector (da_Spec action) <>s "") && (dr_Name robot =s fas_RobotSelector (da_Spec action)).

(** st.excludedBy *)
Definition excludedByState (st : dispatchFilterState) (robot : DispatchRobot) (action : DispatchAction) : option (Z * withheldWhy) :=
  match excludedByBatteryFloor robot action with
  | Some ex => Some ex
  | None =>
  match excludedByModelUpdate robot action with
  | Some ex => Some ex
  | None =>
  match st_drained st with
  | None => Some (filterZoneMaintenance, WhyMaintenanceUnread)
  | Some drained =>
  match drained !! dr_Name robot with
  | Some window => Some (filterZoneMaintenance, WhyDrained window)
  | None =>
  match match st_zoneLeaves st with
        | Some leaves => if pinned robot action then None else excludedByZone (dr_Robot robot) leaves
        | None => None
        end with
  | Some ex => Some ex
  | None =>
      let '(inForce, unresolved) := forRobot (st_operating st) robot in
      match excludedByUnreadableContainment unresolved with
      | Some ex => Some ex
      | None => excludedByOperatingConstraint robot inForce
      end
  end end end end end.

(** The memo of one call: an adapter read once. *)
Record adapterMemo := mkMemo { mm_ready : gmap string bool; mm_reason : gmap string withheldWhy; mm_served : gmap string (list string) }.

Definition readAdapter (latch : bool) (rd : FilterReads) (m : adapterMemo) (name : string) : adapterMemo :=
  match mm_ready m !! name with
  | Some _ => m
  | None =>
      match fr_Adapter rd name with
      | Err NotFound => mkMemo (<[name := false]> (mm_ready m)) (<[name := WhyAdapterMissing name]> (mm_reason m)) (mm_served m)
      | Err Unread => mkMemo (<[name := false]> (mm_ready m)) (<[name := WhyAdapterUnread name]> (mm_reason m)) (mm_served m)
      | Ok a =>
          match match adapterDispatchReadiness a with
                | None => if latch then adapterLatchContract a else None
                | Some why => Some why
                end with
          | Some why => mkMemo (<[name := false]> (mm_ready m)) (<[name := WhyAdapterUnfit name why]> (mm_reason m)) (mm_served m)
          | None => mkMemo (<[name := true]> (mm_ready m)) (mm_reason m) (<[name := fa_ServesRobotClasses a]> (mm_served m))
          end
      end
  end.

(** The checks of one robot before its adapter is read. *)
Definition heldBack (st : dispatchFilterState) (h : dispatchHolds) (action : DispatchAction) (robot : DispatchRobot) : option (Z * withheldWhy) :=
  let r := dr_Robot robot in
  match ExcludedAsTerminating r with
  | Some ex => Some (ex_Filter ex, WhyTerminating)
  | None =>
  match robotIDConflict h r with
  | Some why => Some (filterRobotIDConflict, why)
  | None =>
  match namespaceStop h with
  | Some why => Some (filterEstop, why)
  | None =>
  match zoneStopOf h r with
  | Some why => Some (filterEstop, why)
  | None =>
      if robotUnderEstop r then Some (filterEstop, WhyEstop (r_EstopState r) (HeldOnRecord r))
      else if r_EstopState r =s RobotEstopResuming then Some (filterResumeWindow, WhyResuming)
      else match excludedByState st robot action with
           | Some ex => Some ex
           | None => if r_Adapter r =s "" then Some (filterAdapterReady, WhyNoAdapter) else None
           end
  end end end end.

Definition filterOne (latch : bool) (rd : FilterReads) (st : dispatchFilterState) (h : dispatchHolds) (action : DispatchAction)
    (acc : adapterMemo * list DispatchRobot * list exclusion) (robot : DispatchRobot) : adapterMemo * list DispatchRobot * list exclusion :=
  let '(m, out, excluded) := acc in
  let withhold f why := excluded ++ [mkExclusionWhy (dr_Name robot) f why] in
  match heldBack st h action robot with
  | Some (f, why) => (m, out, withhold f why)
  | None =>
      let name := r_Adapter (dr_Robot robot) in
      let m := readAdapter latch rd m name in
      let ready := default false (mm_ready m !! name) in
      if ready && negb (adapterListsClass (default [] (mm_served m !! name)) (dr_RobotClass robot))
      then (m, out, withhold filterAdapterReady (WhyClassNotServed name (dr_RobotClass robot)))
      else if ready then (m, out ++ [robot], excluded)
      else (m, out, withhold filterAdapterReady (default WhyNoAdapter (mm_reason m !! name)))
  end.

Record filterAnswer := mkFilterAnswer {
  fl_eligible : list DispatchRobot;
  fl_withheld : list exclusion;
  fl_degraded : list degradedWhy;
  fl_restrictions : option zoneVerdict;
  fl_operating : option operatingRuleSet
}.

Definition filterDispatchEligible (latch : bool) (rd : FilterReads) (action : DispatchAction) (robots : list DispatchRobot) : filterAnswer :=
  let '(st, degraded, restrictions) := newDispatchFilterState rd action in
  match robots with
  | [] => mkFilterAnswer [] [] degraded restrictions (st_operating st)
  | _ =>
      let '(_, out, excluded) := fold_left (filterOne latch rd st (newDispatchHolds rd) action) robots (mkMemo ∅ ∅ ∅, [], []) in
      mkFilterAnswer out excluded degraded restrictions (st_operating st)
  end.

(** ** The rules on the wire (zone_operating_constraints_wire.go) *)

(** OperatingConstraintMode of the adapter contract. *)
Definition operatingConstraintModeOf (m : ZoneRestrictionMode) : Z :=
  if m =s ZoneRestrictionDenied then 1
  else if m =s ZoneRestrictionLimited then 2
  else if m =s ZoneRestrictionRequired then 3
  else 0.

Definition operatingConstraintsForWire (resolved : list EffectiveZoneRestriction) : list EffectiveOperatingConstraint :=
  map (fun r => mkConstraint (ez_Subject r) (operatingConstraintModeOf (ez_Mode r)) (ez_Max r) (default [] (ez_Allowed r)) (ez_Reason r) (ez_InheritedFrom r))
    (List.filter isOperating resolved).

(** ** The no-candidate message *)

Definition filterClass (f : Z) : option string :=
  if f =? FilterPhaseIdle then Some "not Idle"
  else if f =? filterZoneLeafSet then Some "not in the action's zone"
  else if f =? FilterRequiredCapability then Some "missing a required capability"
  else if f =? filterMinBattery then Some "below the action's battery floor"
  else if f =? FilterParametricConstr then Some "unable to meet a parametric constraint"
  else if f =? FilterRobotSelector then Some "not the robot the action pins"
  else if f =? filterModelNotUpdating then Some "mid model update"
  else if f =? filterZoneMaintenance then Some "held by an active maintenance window"
  else if f =? filterAdapterReady then Some "served by an adapter unfit for dispatch"
  else if f =? filterEstop then Some "under an active emergency stop"
  else if f =? filterOperatingConstraint then Some "served by an adapter that does not honour a zone operating rule"
  else if f =? filterResumeWindow then Some "in the post-clear estop resume window"
  else if f =? filterAdapterRefusedAction then Some "served by an adapter that refused this action as invalid"
  else if f =? FilterTerminating then Some "being deleted"
  else if f =? filterRobotIDConflict then Some "sharing its robot-id with another Robot"
  else None.

Definition messageRank (filter : Z) : Z := if filter <=? 0 then 99 - filter else filter.

(** counts: how many robots each filter withheld. *)
Definition countFilters (filters : list Z) : gmap Z nat :=
  fold_left (fun m f => <[f := S (default 0%nat (m !! f))]> m) filters ∅.

(** The filter of each survivor the pure filters exclude, and how many none excludes. *)
Definition survivorFilters (action : FleetActionSpec) (survivors : list Robot) (acceptDegraded : bool) : list Z :=
  omap (fun r => ex_Filter <$> ExcludedByForAssignment r action acceptDegraded) survivors.
Definition admittedCount (action : FleetActionSpec) (survivors : list Robot) (acceptDegraded : bool) : nat :=
  length (List.filter (fun r => isNone (ExcludedByForAssignment r action acceptDegraded)) survivors).

Definition showNat (n : nat) : string := showInt (Z.of_nat n).

Definition classPart (kc : Z * nat) : string :=
  match filterClass kc.1 with
  | None => showNat kc.2 +:+ " ineligible"
  | Some class => if kc.1 =? filterResumeWindow then showNat kc.2 +:+ " " +:+ class
                  else showNat kc.2 +:+ " " +:+ class +:+ " (filter " +:+ showInt kc.1 +:+ ")"
  end.

Definition noCandidateMessage (action : FleetActionSpec) (withheld : list Z) (survivors : list Robot) (acceptDegraded : bool) (degraded : list string) : string :=
  let total := (length withheld + length survivors)%nat in
  if (total =? 0)%nat then "no eligible robot: the namespace holds no Robot resources"
  else
    let counts := countFilters (withheld ++ survivorFilters action survivors acceptDegraded) in
    let admitted := admittedCount action survivors acceptDegraded in
    let parts := (classPart <$> sliceStable (fun a b => messageRank a.1 <? messageRank b.1) (map_to_list counts)) ++
                 (if (0 <? admitted)%nat then [showNat admitted +:+ " passed every filter but no adapter would serve this action instance"] else []) in
    "no eligible robot; of " +:+ showNat total +:+ " candidate robots: " +:+ String.concat ", " parts +:+
    match degraded with [] => "" | _ => " — " +:+ String.concat "; " (sort_Strings degraded) end.

Definition isRoutineExclusion (filter : Z) : bool :=
  (filter =? filterZoneLeafSet) || (filter =? filterMinBattery) || (filter =? filterModelNotUpdating) || (filter =? filterZoneMaintenance).
