(* ===== verification/DispatchFilterProps.v ===== *)
(** The candidate filters, proved: one call judges every robot on its own, its memo changes nothing, what it
    leaves is under no stop and fit for the action, and what it could not read withholds. *)

From S2P Require Import Prelude.
From S2P Require Import Types.
From S2P Require Import Contract.
From S2P Require Import RobotId.
From S2P Require Import Scheduler.
From S2P Require Import EstopScope.
From S2P Require Import EstopGuard.
From S2P Require Import Conc.
From S2P Require Import Along.
From S2P Require Import ExecutorGate.
From S2P Require Import AdmissionGuards.
From S2P Require Import Command.
From S2P Require Import ActionData.
From S2P Require Import ActionController.
From S2P Require Import ActionTable.
From S2P Require Import EstopControl.
From S2P Require Import ZoneRestrictions.
From S2P Require Import ZoneRestrictionProps.
From S2P Require Import ZoneProjection.
From S2P Require Import DispatchFilters.

(** ** One robot on its own *)

(** What one read of an adapter says: the classes it serves, or why it is given no work. *)
Definition adapterVerdict (latch : bool) (rd : FilterReads) (name : string) : result withheldWhy (list string) :=
  match fr_Adapter rd name with
  | Err NotFound => Err (WhyAdapterMissing name)
  | Err Unread => Err (WhyAdapterUnread name)
  | Ok a =>
      match match adapterDispatchReadiness a with None => if latch then adapterLatchContract a else None | Some why => Some why end with
      | Some why => Err (WhyAdapterUnfit name why)
      | None => Ok (fa_ServesRobotClasses a)
      end
  end.

Definition judge (latch : bool) (rd : FilterReads) (st : dispatchFilterState) (h : dispatchHolds) (action : DispatchAction) (robot : DispatchRobot)
    : option (Z * withheldWhy) :=
  match heldBack st h action robot with
  | Some ex => Some ex
  | None =>
      let name := r_Adapter (dr_Robot robot) in
      match adapterVerdict latch rd name with
      | Err why => Some (filterAdapterReady, why)
      | Ok served => if adapterListsClass served (dr_RobotClass robot) then None
                     else Some (filterAdapterReady, WhyClassNotServed name (dr_RobotClass robot))
      end
  end.

Section one.
Context (latch : bool) (rd : FilterReads) (st : dispatchFilterState) (h : dispatchHolds) (action : DispatchAction).

(** The memo holds what the reads said. *)
Definition memoSays (m : adapterMemo) : Prop :=
  forall name b, mm_ready m !! name = Some b ->
    match adapterVerdict latch rd name with
    | Ok served => b = true /\ mm_served m !! name = Some served
    | Err why => b = false /\ mm_reason m !! name = Some why
    end.

Lemma readAdapter_says m name : memoSays m -> memoSays (readAdapter latch rd m name) /\ is_Some (mm_ready (readAdapter latch rd m name) !! name).
Proof.
  intros Hm. unfold readAdapter. destruct (mm_ready m !! name) as [b|] eqn:Eb; [by rewrite Eb|].
  assert (Hne : forall n b, mm_ready m !! n = Some b -> n <> name) by (intros n b Hn ->; congruence).
  assert (Hgen : forall m', (forall n b, n <> name -> mm_ready m' !! n = Some b -> mm_ready m !! n = Some b) ->
            (forall n, n <> name -> mm_served m' !! n = mm_served m !! n /\ mm_reason m' !! n = mm_reason m !! n) ->
            match adapterVerdict latch rd name with
            | Ok served => mm_ready m' !! name = Some true /\ mm_served m' !! name = Some served
            | Err why => mm_ready m' !! name = Some false /\ mm_reason m' !! name = Some why
            end -> memoSays m' /\ is_Some (mm_ready m' !! name)).
  { intros m' Hr Hs Hv. split; [|destruct (adapterVerdict _ _ _); destruct Hv as [-> _]; eauto]. intros n b Hn. destruct (decide (n = name)) as [->|Hnn].
    - destruct (adapterVerdict latch rd name); destruct Hv as [Hv1 Hv2]; by rewrite Hv1 in Hn; injection Hn as <-.
    - specialize (Hm n b (Hr n b Hnn Hn)). destruct (Hs n Hnn) as [-> ->]. done. }
  unfold adapterVerdict in *.
  destruct (fr_Adapter rd name) as [a|[]]; [destruct (match adapterDispatchReadiness a with None => _ | Some _ => _ end)|..]; apply Hgen; simpl;
    rewrite ?lookup_insert_eq; try done; intros n; try (intros Hnn; by rewrite !lookup_insert_ne); intros b Hnn; by rewrite lookup_insert_ne.
Qed.

Definition excl (robot : DispatchRobot) (ex : Z * withheldWhy) : exclusion := mkExclusionWhy (dr_Name robot) ex.1 ex.2.

Lemma filterOne_judge m out excluded robot : memoSays m ->
  exists m', memoSays m' /\
  filterOne latch rd st h action (m, out, excluded) robot =
  match judge latch rd st h action robot with
  | None => (m', out ++ [robot], excluded)
  | Some ex => (m', out, excluded ++ [excl robot ex])
  end.
Proof.
  intros Hm. unfold filterOne, judge. destruct (heldBack st h action robot) as [[f why]|]; [by exists m|].
  destruct (readAdapter_says m (r_Adapter (dr_Robot robot)) Hm) as [Hm' [b Hb]]. exists (readAdapter latch rd m (r_Adapter (dr_Robot robot))). split; [done|].
  specialize (Hm' _ _ Hb). rewrite Hb. simpl. destruct (adapterVerdict latch rd _) as [served|why]; destruct Hm' as [-> Hs]; rewrite Hs; simpl; [|done].
  by destruct (adapterListsClass served _).
Qed.

Lemma filterAll_judge robots : forall m out excluded, memoSays m ->
  exists m', fold_left (filterOne latch rd st h action) robots (m, out, excluded) =
  (m', out ++ List.filter (fun r => isNone (judge latch rd st h action r)) robots,
   excluded ++ omap (fun r => excl r <$> judge latch rd st h action r) robots).
Proof.
  induction robots as [|r robots IH]; intros m out excluded Hm; cbn [fold_left List.filter omap list_omap]; [exists m; by rewrite !app_nil_r|].
  destruct (filterOne_judge m out excluded r Hm) as (m1 & Hm1 & ->). destruct (judge latch rd st h action r) as [ex|] eqn:Ej.
  - destruct (IH m1 out (excluded ++ [excl r ex]) Hm1) as (m2 & ->). exists m2. rewrite <- (assoc (++)). by rewrite ?Ej.
  - destruct (IH m1 (out ++ [r]) excluded Hm1) as (m2 & ->). exists m2. rewrite <- (assoc (++)). by rewrite ?Ej.
Qed.

End one.

Definition stateOf (rd : FilterReads) (action : DispatchAction) : dispatchFilterState := (newDispatchFilterState rd action).1.1.
Definition judgeOf (latch : bool) (rd : FilterReads) (action : DispatchAction) (robot : DispatchRobot) : option (Z * withheldWhy) :=
  judge latch rd (stateOf rd action) (newDispatchHolds rd) action robot.

Lemma filter_judged latch rd action robots :
  fl_eligible (filterDispatchEligible latch rd action robots) = List.filter (fun r => isNone (judgeOf latch rd action r)) robots /\
  fl_withheld (filterDispatchEligible latch rd action robots) = omap (fun r => excl r <$> judgeOf latch rd action r) robots.
Proof.
  unfold filterDispatchEligible, judgeOf, stateOf. destruct (newDispatchFilterState rd action) as [[st degraded] restrictions]. cbn [fst].
  destruct robots as [|r robots]; [done|].
  destruct (filterAll_judge latch rd st (newDispatchHolds rd) action (r :: robots) (mkMemo ∅ ∅ ∅) [] []) as (m & ->); [|done].
  intros name b Hn. simpl in Hn. by rewrite lookup_empty in Hn.
Qed.

Lemma eligible_judged latch rd action robots robot :
  robot ∈ fl_eligible (filterDispatchEligible latch rd action robots) <-> robot ∈ robots /\ judgeOf latch rd action robot = None.
Proof.
  rewrite (proj1 (filter_judged latch rd action robots)), !list_elem_of_In, filter_In. destruct (judgeOf latch rd action robot); naive_solver.
Qed.

Lemma judge_heldBack latch rd st h action robot : judge latch rd st h action robot = None -> heldBack st h action robot = None.
Proof. unfold judge. by destruct (heldBack st h action robot). Qed.

(** What a robot nothing holds back has passed. *)
Record passes (st : dispatchFilterState) (h : dispatchHolds) (action : DispatchAction) (robot : DispatchRobot) : Prop := mkPasses {
  ps_alive : r_DeletionTimestamp (dr_Robot robot) = None;
  ps_id : robotIDConflict h (dr_Robot robot) = None;
  ps_namespace : namespaceStop h = None;
  ps_zone : zoneStopOf h (dr_Robot robot) = None;
  ps_estop : robotUnderEstop (dr_Robot robot) = false;
  ps_resuming : r_EstopState (dr_Robot robot) <> RobotEstopResuming;
  ps_state : excludedByState st robot action = None;
  ps_adapter : r_Adapter (dr_Robot robot) <> ""
}.

Lemma heldBack_passes st h action robot : heldBack st h action robot = None -> passes st h action robot.
Proof.
  unfold heldBack, ExcludedAsTerminating. destruct (r_DeletionTimestamp _) eqn:E1; [done|]. destruct (robotIDConflict h _) eqn:E2; [done|].
  destruct (namespaceStop h) eqn:E3; [done|]. destruct (zoneStopOf h _) eqn:E4; [done|]. destruct (robotUnderEstop _) eqn:E5; [done|].
  destruct (_ =s RobotEstopResuming) eqn:E6; [done|]. destruct (excludedByState st robot action) eqn:E7; [done|].
  destruct (_ =s "") eqn:E8; [done|]. intros _. apply eqb_s_false in E6, E8. done.
Qed.

(** C15 The filters judge each robot on its own. What one call leaves, in the order given, are the robots that
    the checks made one by one leave, each with a read of its adapter of its own; every other robot is withheld
    once, with the filter and the reason of the first check it fails. So the memo of the adapters changes nothing,
    and every candidate is accounted for. *)
Theorem filters_judge_each_robot latch rd action robots :
  let a := filterDispatchEligible latch rd action robots in
  fl_eligible a = List.filter (fun r => isNone (judgeOf latch rd action r)) robots /\
  fl_withheld a = omap (fun r => excl r <$> judgeOf latch rd action r) robots /\
  (length (fl_eligible a) + length (fl_withheld a) = length robots)%nat.
Proof.
  simpl. destruct (filter_judged latch rd action robots) as [-> ->]. split; [done|]. split; [done|].
  induction robots as [|r robots IH]; [done|]. cbn [List.filter omap list_omap]. simpl. destruct (judgeOf latch rd action r); simpl; lia.
Qed.

(** ** Stops *)

Lemma stopZones_name zones n z : stopZonesByName zones !! n = Some z -> fz_Name (sz_Zone z) = n.
Proof.
  unfold stopZonesByName. induction zones as [|x zones IH] using rev_ind; [done|]. rewrite fold_left_app. simpl.
  destruct (decide (fz_Name (sz_Zone x) = n)) as [<-|Hne]; [rewrite lookup_insert_eq; by intros [= <-]|by rewrite lookup_insert_ne].
Qed.

Lemma stopTree_of zones : stopTree (stopZonesByName zones) = TreeOf (map sz_Zone zones).
Proof.
  unfold stopZonesByName, TreeOf, stopTree. induction zones as [|x zones IH] using rev_ind; [apply fmap_empty|].
  rewrite map_app, !fold_left_app. simpl. by rewrite fmap_insert, IH.
Qed.

Lemma climb_listed t zone k : forall seen name l, climb t zone k seen name = Ok l -> forall a, a ∈ l -> exists n, t !! n = Some a.
Proof.
  induction k as [|k IH]; intros seen name l; cbn [climb]; (destruct (name =s ""); [intros [= <-] a Ha; by apply not_elem_of_nil in Ha|]); [done|].
  case_match; [done|]. destruct (t !! name) as [p|] eqn:Ep; [|intros [= <-] a Ha; by apply not_elem_of_nil in Ha].
  destruct (climb t zone k _ (parentOf p)) as [out|] eqn:Ec; [|done]. simpl. intros [= <-] a [->|Ha]%elem_of_cons; [eauto|]. by eapply IH.
Qed.

Lemma Ancestors_listed t zone l a : Ancestors t zone = Ok l -> a ∈ l -> exists n, t !! n = Some a.
Proof. unfold Ancestors. destruct (t !! zone); [intros H; by apply (climb_listed _ _ _ _ _ _ H)|]. intros [= <-] Ha. by apply not_elem_of_nil in Ha. Qed.

Lemma not_in_force_carries z : zoneEstopInForce z = None -> Carries (sz_Zone z) = false.
Proof.
  unfold zoneEstopInForce, Carries, InForce, annEstopTriggered, annEstopProcessed.
  destruct (_ =s ZoneEstopTriggered); [done|]. destruct (has _ TriggerAnnotation); [done|]. by destruct (has _ ProcessedAnnotation).
Qed.

Lemma zoneStopAt_uncovered zones start : (forall n z, zones !! n = Some z -> fz_Name (sz_Zone z) = n) -> zoneStopAt zones start = None ->
  CoveringAt (stopTree zones) [] start = Ok [].
Proof.
  intros Hnames. unfold zoneStopAt, CoveringAt. destruct (start =s "") eqn:Es; [done|]. simpl.
  destruct (Ancestors (stopTree zones) start) as [l|] eqn:Ea; [|done].
  assert (Hfree : forall n z, zones !! n = Some z -> (s ← zones !! n; how ← zoneEstopInForce s; Some (WhyZoneStop start n how)) = None -> Carries (sz_Zone z) = false).
  { intros n z Hz Hn. rewrite Hz in Hn. simpl in Hn. apply not_in_force_carries. by destruct (zoneEstopInForce z). }
  intros Hn. unfold Reaching. rewrite Ea. destruct (stopTree zones !! start) as [z|] eqn:Ez; [|done].
  unfold stopTree in Ez. rewrite lookup_fmap in Ez. destruct (zones !! start) as [s|] eqn:Es'; [|done]. simpl in Ez. injection Ez as <-.
  simpl in Hn. destruct (zoneEstopInForce s) eqn:Ef; [done|]. simpl in Hn. rewrite (not_in_force_carries s Ef).
  assert (Hl : List.filter (fun a => Carries a && propagatesDown a) l = []).
  { destruct (List.filter _ l) as [|a r] eqn:El; [done|]. exfalso.
    assert (Hin : a ∈ List.filter (fun a => Carries a && propagatesDown a) l) by (rewrite El; by left).
    apply list_elem_of_In, filter_In in Hin as [Ha%list_elem_of_In Hc]. apply andb_true_iff in Hc as [Hc _].
    destruct (Ancestors_listed _ _ _ _ Ea Ha) as [n Hna]. unfold stopTree in Hna. rewrite lookup_fmap in Hna.
    destruct (zones !! n) as [s'|] eqn:Es2; [|done]. injection Hna as Hsa. pose proof (Hnames _ _ Es2) as Hnn.
    rewrite first_match_None in Hn. specialize (Hn a Ha). rewrite <- Hsa, Hnn in Hn. rewrite <- Hsa in Hc. by rewrite (Hfree n s' Es2 Hn) in Hc. }
  simpl. by rewrite Hl.
Qed.

Lemma HeldOnRecord_free robot : robotUnderEstop robot = false ->
  r_Annotations robot !! TriggerAnnotation = None /\ r_EstopHeldBy robot = [] /\
  r_EstopState robot ∉ [RobotEstopStopping; RobotEstopStopped; RobotEstopFailed].
Proof.
  unfold robotUnderEstop, HeldOnRecord. destruct (_ || _) eqn:E; [done|]. apply orb_false_iff in E as [[E1 E2]%orb_false_iff E3].
  apply eqb_s_false in E1, E2, E3. destruct (r_Annotations robot !! TriggerAnnotation); [done|]. destruct (r_EstopHeldBy robot); [|done].
  intros _. split; [done|]. split; [done|]. rewrite !elem_of_cons. intros [?|[?|[?|H]]]; try done. by apply not_elem_of_nil in H.
Qed.

Lemma holders_fold id robots : forall m : gmap string (list string),
  default [] (fold_left (fun (m : gmap string (list string)) r => <[Wire r := default [] (m !! Wire r) ++ [r_Name r]]> m) robots m !! id) =
  default [] (m !! id) ++ (r_Name <$> answering id robots).
Proof.
  induction robots as [|r robots IH]; intros m; [by rewrite app_nil_r|]. cbn [fold_left]. rewrite IH. unfold answering. cbn [List.filter].
  destruct (Wire r =s id) eqn:E.
  - apply eqb_s_true in E as <-. rewrite lookup_insert_eq, fmap_cons. simpl. by rewrite <- (assoc (++)).
  - apply eqb_s_false in E. by rewrite lookup_insert_ne.
Qed.

Lemma wireIDHolders_names id robots : default [] (wireIDHolders robots !! id) = sort_Strings (r_Name <$> answering id robots).
Proof.
  unfold wireIDHolders. rewrite lookup_fmap. pose proof (holders_fold id robots ∅) as H. rewrite lookup_empty in H. simpl in H.
  rewrite <- H. by destruct (fold_left _ robots ∅ !! id).
Qed.

(** C10 A robot the filters leave is under no stop. The three lists of the holds (Robots, zones, configs) were
    read; the stop guard's coverage of the robot, as it was given to the filters, over those zones and configs is
    empty (its zones, the namespace, its own trigger and its recorded holds); its state is none of Stopping,
    Stopped, Failed and Resuming; and at most one Robot of that list answers to its robot-id. *)
Theorem eligible_robot_under_no_stop latch rd action robots robot
  (Heligible : robot ∈ fl_eligible (filterDispatchEligible latch rd action robots)) :
  exists live zones configs, fr_LiveRobots rd = Some live /\ fr_LiveZones rd = Some zones /\ fr_LiveConfigs rd = Some configs /\
    CoverageOf (TreeOf (map sz_Zone zones)) configs (dr_Robot robot) = Ok [] /\
    r_EstopState (dr_Robot robot) ∉ [RobotEstopStopping; RobotEstopStopped; RobotEstopFailed; RobotEstopResuming] /\
    (length (answering (Wire (dr_Robot robot)) live) <= 1)%nat.
Proof.
  apply eligible_judged in Heligible as [_ Hj%judge_heldBack%heldBack_passes]. destruct Hj as [_ Hid Hns Hzone Hestop Hres _ _].
  unfold robotIDConflict, namespaceStop, zoneStopOf, newDispatchHolds in *. cbn [dh_holders dh_zones dh_nsStop] in *.
  destruct (fr_LiveRobots rd) as [live|]; [|done]. destruct (fr_LiveConfigs rd) as [configs|]; [|done]. destruct (fr_LiveZones rd) as [zones|]; [|done].
  simpl in *. exists live, zones, configs. do 3 (split; [done|]).
  destruct (HeldOnRecord_free _ Hestop) as (Hann & Hheld & Hst). split; [|split].
  - destruct (zoneStopAt _ (r_CurrentZone _)) eqn:Ez1; [done|]. apply zoneStopAt_uncovered in Ez1, Hzone; try apply stopZones_name.
    rewrite stopTree_of in *. unfold CoverageOf. rewrite Ez1, Hzone. simpl. unfold ownTrigger. rewrite Hann, Hheld. simpl. rewrite app_nil_r.
    unfold namespaceStops. assert (Hf : List.filter (fun c => InForce (sc_Annotations c)) configs = []).
    { destruct (List.find namespaceEstopInForce configs) eqn:Ef; [done|]. destruct (List.filter _ configs) as [|c r] eqn:El; [done|]. exfalso.
      assert (Hin : c ∈ List.filter (fun c => InForce (sc_Annotations c)) configs) by (rewrite El; by left).
      apply list_elem_of_In, filter_In in Hin as [Hin Hc]. pose proof (List.find_none _ _ Ef c Hin) as Hn. unfold namespaceEstopInForce in Hn.
      unfold InForce, annEstopTriggered, annEstopProcessed in *. by rewrite Hn in Hc. }
    by rewrite Hf.
  - rewrite !elem_of_cons in *. intros [?|[?|[?|[?|H]]]]; [tauto..|by apply not_elem_of_nil in H].
  - rewrite wireIDHolders_names in Hid. destruct (1 <? _)%nat eqn:El; [done|]. apply Nat.ltb_ge in El. by rewrite sort_Strings_perm, length_fmap in El.
Qed.

(** C16 What could not be read withholds. When the maintenance windows, the Robots, the zones or the configs could
    not be read, no robot is left; and when the zones of a zoned action could not be listed, the verdict refuses
    the action for unresolved restrictions, is not terminal (the action is held, not failed), and the answer notes
    that the zone filter was not applied. *)
Theorem unread_withholds latch rd action robots :
  (fr_Windows rd = None \/ fr_LiveRobots rd = None \/ fr_LiveZones rd = None \/ fr_LiveConfigs rd = None ->
   fl_eligible (filterDispatchEligible latch rd action robots) = []) /\
  (da_Zone action <> "" -> fr_Zones rd = None ->
   ZoneFilterNotApplied ∈ fl_degraded (filterDispatchEligible latch rd action robots) /\
   exists v, fl_restrictions (filterDispatchEligible latch rd action robots) = Some v /\
     ve_refuse v = true /\ ve_terminal v = false /\ ve_reason v = "ZoneRestrictionsUnresolved").
Proof.
  split.
  - intros Hun. destruct (fl_eligible _) as [|robot l] eqn:E; [done|]. exfalso.
    assert (He : robot ∈ fl_eligible (filterDispatchEligible latch rd action robots)) by (rewrite E; by left).
    apply eligible_judged in He as [_ Hj%judge_heldBack%heldBack_passes]. destruct Hj as [_ Hid Hns Hzone _ _ Hst _].
    unfold robotIDConflict, namespaceStop, zoneStopOf, newDispatchHolds in *. cbn [dh_holders dh_zones dh_nsStop] in *.
    destruct (fr_LiveRobots rd); [|done]. destruct (fr_LiveConfigs rd); [|done]. destruct (fr_LiveZones rd); [|done].
    destruct Hun as [Hw|[?|[?|?]]]; try done. unfold excludedByState in Hst. destruct (excludedByBatteryFloor _ _); [done|].
    destruct (excludedByModelUpdate _ _); [done|]. unfold stateOf, newDispatchFilterState in Hst. rewrite Hw in Hst.
    destruct (if da_Zone action =s "" then _ else _) as [[[? ?] ?] ?]. done.
  - intros Hz Hr.
    assert (Ha : fl_restrictions (filterDispatchEligible latch rd action robots) = Some unreadVerdict /\
      ZoneFilterNotApplied ∈ fl_degraded (filterDispatchEligible latch rd action robots)).
    { unfold filterDispatchEligible, newDispatchFilterState. rewrite (proj2 (eqb_s_false _ _) Hz), Hr.
      destruct (fr_Windows rd); destruct robots; try (split; [done|by left]);
        destruct (fold_left _ _ _) as [[? ?] ?]; (split; [done|by left]). }
    destruct Ha as [Hv Hd]. split; [done|]. by exists unreadVerdict.
Qed.

(** ** The leaves at or below a zone *)

Section leaves.
Context (zones : list RuledZone).

Definition below_ : string -> string -> Prop := rtc (fun x y => y ∈ zoneChildren zones x).

Lemma zoneChildren_listed x y : y ∈ zoneChildren zones x -> y ∈ rz_Name <$> zones.
Proof.
  unfold zoneChildren. case_match; [|intros H'; by apply not_elem_of_nil in H']. rewrite !list_elem_of_fmap.
  intros (z & -> & Hz). apply list_elem_of_In, filter_In in Hz as [Hz _]. exists z. by rewrite list_elem_of_In.
Qed.

Context (start : string).
Definition universe : gset string := {[start]} ∪ list_to_set (rz_Name <$> zones).

(** What a walk has added: zones below where it started, with their children; and its leaves. *)
Record walked (from : list string) (seen leaves seen' leaves' : gset string) : Prop := mkWalked {
  wk_mono : seen ⊆ seen';
  wk_in : seen' ⊆ universe;
  wk_from : forall x, x ∈ from -> x ∈ seen';
  wk_new : forall x, x ∈ seen' -> x ∉ seen -> (exists s, s ∈ from /\ below_ s x) /\ forall y, y ∈ zoneChildren zones x -> y ∈ seen';
  wk_leaves : forall x, x ∈ leaves' <-> x ∈ leaves \/ x ∈ seen' /\ x ∉ seen /\ zoneChildren zones x = []
}.

Lemma walked_nil seen leaves : seen ⊆ universe -> walked [] seen leaves seen leaves.
Proof. intros H. split; try done. - intros x Hx. by apply not_elem_of_nil in Hx. - intros x. split; [by left|]. by intros [?|(? & ? & _)]. Qed.

Lemma walked_app l k s0 v0 s1 v1 s2 v2 : walked l s0 v0 s1 v1 -> walked k s1 v1 s2 v2 -> walked (l ++ k) s0 v0 s2 v2.
Proof.
  intros [M1 I1 F1 N1 L1] [M2 I2 F2 N2 L2]. split.
  - set_solver.
  - done.
  - intros x [Hx|Hx]%elem_of_app; eauto.
  - intros x Hx Hn. destruct (decide (x ∈ s1)) as [H1|H1].
    + destruct (N1 x H1 Hn) as [(s & Hs & Hb) Hc]. split; [exists s; rewrite elem_of_app; eauto|]. intros y Hy. by apply M2, Hc.
    + destruct (N2 x Hx H1) as [(s & Hs & Hb) Hc]. split; [exists s; rewrite elem_of_app; eauto|done].
  - intros x. rewrite L2, L1. destruct (decide (x ∈ s1)); naive_solver.
Qed.

Lemma leafWalk_walked fuel : forall seen leaves name, name ∈ universe -> seen ⊆ universe -> (size (universe ∖ seen) < fuel)%nat ->
  walked [name] seen leaves (leafWalk fuel zones (seen, leaves) name).1 (leafWalk fuel zones (seen, leaves) name).2.
Proof.
  induction fuel as [|fuel IH]; intros seen leaves name Hname Hseen Hsize; [lia|]. cbn [leafWalk].
  destruct (bool_decide (name ∈ seen)) eqn:Es.
  { apply bool_decide_eq_true in Es. split; try done.
    - intros x ->%list_elem_of_singleton. done.
    - intros x. split; [by left|]. by intros [?|(? & ? & _)]. }
  apply bool_decide_eq_false in Es. set (seen1 := {[name]} ∪ seen).
  assert (Hs1 : seen1 ⊆ universe) by set_solver.
  assert (Hz1 : (size (universe ∖ seen1) < fuel)%nat).
  { assert (size (universe ∖ seen1) < size (universe ∖ seen))%nat; [|lia]. apply subset_size. set_solver. }
  assert (Hkids : forall l s v, (forall k, k ∈ l -> k ∈ universe) -> seen1 ⊆ s -> s ⊆ universe ->
    walked l s v (fold_left (leafWalk fuel zones) l (s, v)).1 (fold_left (leafWalk fuel zones) l (s, v)).2).
  { induction l as [|k l IHl]; intros s v Hl Hs Hu; [by apply walked_nil|]. cbn [fold_left].
    assert (Hk : walked [k] s v (leafWalk fuel zones (s, v) k).1 (leafWalk fuel zones (s, v) k).2).
    { apply IH; [apply Hl; by left|done|]. eapply Nat.le_lt_trans; [|exact Hz1]. apply subseteq_size. set_solver. }
    destruct (leafWalk fuel zones (s, v) k) as [s' v']. simpl in Hk. apply (walked_app [k] l s v s' v'); [done|]. destruct Hk as [M I _ _ _].
    apply IHl; [intros x Hx; apply Hl; by right| |done]. set_solver. }
  destruct (zoneChildren zones name) as [|k kids] eqn:Ek.
  - assert (Hone : forall x, x ∈ seen1 -> x ∉ seen -> x = name) by (intros x [->%elem_of_singleton|?]%elem_of_union ?; done).
    split; simpl; [unfold seen1; apply union_subseteq_r|done|intros x ->%list_elem_of_singleton; unfold seen1; by apply elem_of_union_l, elem_of_singleton|..].
    + intros x Hx Hn. rewrite (Hone x Hx Hn). split; [exists name; split; [by left|apply rtc_refl]|]. rewrite Ek. intros y Hy. by apply not_elem_of_nil in Hy.
    + intros x. rewrite elem_of_union, elem_of_singleton. split.
      * intros [->|?]; [right|by left]. split; [unfold seen1; by apply elem_of_union_l, elem_of_singleton|done].
      * intros [?|(Hx & Hn & _)]; [by right|left; by apply Hone].
  - specialize (Hkids (k :: kids) seen1 leaves). destruct (fold_left _ _ _) as [s' v']. simpl in *. destruct Hkids as [M I F N L]; [|done|done|].
    { intros x Hx. apply elem_of_union. right. apply elem_of_list_to_set, (zoneChildren_listed name). by rewrite Ek. }
    assert (Hin : forall x, x ∈ seen1 <-> x = name \/ x ∈ seen) by (intros x; unfold seen1; by rewrite elem_of_union, elem_of_singleton).
    split; [intros x Hx; apply M, Hin; by right|done|intros x ->%list_elem_of_singleton; apply M, Hin; by left|..].
    + intros x Hx Hn. destruct (decide (x = name)) as [->|Hne].
      * split; [exists name; split; [by left|apply rtc_refl]|]. rewrite Ek. intros y Hy. by apply F.
      * destruct (N x Hx) as [(s & Hs & Hb) Hc]; [rewrite Hin; tauto|]. split; [|done]. exists name. split; [by left|]. eapply rtc_l; [|done]. by rewrite Ek.
    + intros x. rewrite L, Hin. split; [intros [?|(? & ? & ?)]; [by left|right; tauto]|]. intros [?|(Hx & Hn & Hc)]; [by left|]. right. split; [done|]. split; [|done].
      assert (x <> name) by (intros ->; congruence). tauto.
Qed.

Lemma resolveZoneLeaves_spec x : x ∈ resolveZoneLeaves start zones <-> below_ start x /\ zoneChildren zones x = [].
Proof.
  assert (Hsz : (size (universe ∖ ∅) < S (S (length zones)))%nat).
  { rewrite difference_empty_L. unfold universe. rewrite size_union_alt.
    pose proof (size_list_to_set_le (rz_Name <$> zones)) as Hs. rewrite length_fmap in Hs.
    pose proof (subseteq_size (C := gset string) (list_to_set (rz_Name <$> zones) ∖ {[start]}) (list_to_set (rz_Name <$> zones)) ltac:(set_solver)) as Hd.
    rewrite size_singleton. lia. }
  pose proof (leafWalk_walked (S (S (length zones))) ∅ ∅ start ltac:(set_solver) ltac:(set_solver) Hsz) as [M I F N L].
  unfold resolveZoneLeaves. rewrite L. set (seen := (leafWalk _ zones (∅, ∅) start).1) in *. split.
  - intros [?|(Hx & Hn & Hc)]; [set_solver|]. destruct (N x Hx Hn) as [(s & ->%list_elem_of_singleton & Hb) _]. done.
  - intros [Hb Hc]. right. split; [|split; [set_solver|done]].
    assert (Hclosed : forall a b, below_ a b -> a ∈ seen -> b ∈ seen).
    { intros a b Hab. induction Hab as [|a b c Hstep _ IH]; [done|]. intros Ha. apply IH. by apply (N a Ha (not_elem_of_empty a)). }
    apply (Hclosed start); [done|]. apply F. by left.
Qed.

End leaves.

(** Filter 2's leaf set is exact: a zone is in it exactly when it is at or below the action's zone, by any
    number of parentZone steps, and no zone names it as its parent. The walk ends on any listing, a cyclic one
    included. *)
Theorem zone_leaves_exact zone zones x :
  x ∈ resolveZoneLeaves zone zones <-> below_ zones zone x /\ zoneChildren zones x = [].
Proof. apply resolveZoneLeaves_spec. Qed.

(** ** Fit for the work *)

Lemma drainClaim_fold suffix window l : forall out n, fold_left (drainClaim suffix window) l out !! n = None -> out !! n = None /\ n ∉ l.
Proof.
  induction l as [|x l IH]; intros out n; cbn [fold_left]; [intros H; split; [done|by apply not_elem_of_nil]|].
  intros [H Hl]%IH. unfold drainClaim in H. destruct (out !! x) as [w|] eqn:Ex.
  - split; [done|]. rewrite elem_of_cons. intros [->|?]; [congruence|done].
  - destruct (decide (x = n)) as [->|Hne]; [by rewrite lookup_insert_eq in H|]. rewrite lookup_insert_ne in H by done. split; [done|].
    rewrite elem_of_cons. intros [->|?]; done.
Qed.

Lemma drainedRobots_free windows n : drainedRobots windows !! n = None ->
  forall w, w ∈ windows -> zm_Phase w = ZoneMaintenancePhaseActive -> n ∉ zm_PausedRobots w ++ zm_WindingDownRobots w.
Proof.
  unfold drainedRobots. set (active := sliceStable _ _). intros Hn w Hw Hp.
  assert (Hin : w ∈ active). { unfold active. rewrite sliceStable_elem, list_elem_of_In, filter_In, <- list_elem_of_In. split; [done|by apply eqb_s_true]. }
  clearbody active. revert Hn. generalize (∅ : gmap string string). induction active as [|x active IH]; intros m; [by apply not_elem_of_nil in Hin|].
  cbn [fold_left]. apply elem_of_cons in Hin as [<-|Hin]; [|by apply IH]. clear IH. intros Hn.
  assert (Hm : fold_left (drainClaim " (winding down)" (zm_Name w)) (zm_WindingDownRobots w) (fold_left (drainClaim " (paused)" (zm_Name w)) (zm_PausedRobots w) m) !! n = None).
  { revert Hn. generalize (fold_left (drainClaim " (winding down)" (zm_Name w)) (zm_WindingDownRobots w) (fold_left (drainClaim " (paused)" (zm_Name w)) (zm_PausedRobots w) m)).
    induction active as [|y active IH]; intros m'; [done|]. cbn [fold_left]. intros [[H _]%drainClaim_fold _]%IH%drainClaim_fold. done. }
  apply drainClaim_fold in Hm as [[_ H1]%drainClaim_fold H2]. rewrite elem_of_app. tauto.
Qed.

Section models.
Context (updating required : gset string).

Lemma noteOffender_fold l : forall note off,
  (note = ∅ \/ off <> []) -> (fold_left (noteOffender updating required) l (note, off)).2 = [] ->
  off = [] /\ forall m c, (m, c) ∈ l -> m ∈ updating -> c ∈ required -> False.
Proof.
  induction l as [|[m c] l IH]; intros note off Hinv; cbn [fold_left]; [intros H; split; [done|]; intros ? ? H'; by apply not_elem_of_nil in H'|].
  unfold noteOffender at 2. cbn [fst snd]. destruct (bool_decide (c ∈ required)) eqn:Ec; simpl.
  - apply bool_decide_eq_true in Ec. destruct (bool_decide (m ∈ updating)) eqn:Em; simpl.
    + apply bool_decide_eq_true in Em. destruct (default "" (note !! m) =s "") eqn:En; simpl.
      * intros [H _]%IH; [by destruct off|right; by destruct off].
      * intros [-> _]%IH; [|done]. destruct Hinv as [->|?]; [|done]. by rewrite lookup_empty in En.
    + apply bool_decide_eq_false in Em. intros [-> H]%IH; [|done]. split; [done|]. intros m' c' [[= -> ->]|Hl]%elem_of_cons; [done|by apply H].
  - apply bool_decide_eq_false in Ec. intros [-> H]%IH; [|done]. split; [done|]. intros m' c' [[= -> ->]|Hl]%elem_of_cons; [done|by apply H].
Qed.

End models.

Lemma state_drained rd action drained : st_drained (stateOf rd action) = Some drained -> exists windows, fr_Windows rd = Some windows /\ drained = drainedRobots windows.
Proof.
  unfold stateOf, newDispatchFilterState. destruct (if da_Zone action =s "" then _ else _) as [[[? ?] ?] ?]. destruct (fr_Windows rd); [|done]. intros [= <-]. eauto.
Qed.

(** C14 A robot the filters leave is fit for the action: for each battery floor that is set, the action's and the
    robot's own, its battery is known and at or above it (with no floor an unreported battery is no bar); no model
    that grants a required capability is being updated, no active maintenance window holds it, and its adapter was
    read as Connected and conformance-Passed at a contract version this build supports, with the stop latch's
    version when that is required, and serves its class. *)
Theorem eligible_robot_fit latch rd action robots robot
  (Heligible : robot ∈ fl_eligible (filterDispatchEligible latch rd action robots)) :
  (forall floor, da_MinBatteryPct action = Some floor \/ dr_MinBatteryPctForAction robot = Some floor ->
     exists b, r_BatteryPercent (dr_Robot robot) = Some b /\ floor <= b) /\
  (forall model c, model ∈ dr_InstalledModels robot -> mo_Status model = ModelStatusUpdating -> (mo_Name model, c) ∈ grants robot ->
     c ∉ fas_RequiredCapabilities (da_Spec action)) /\
  (exists windows, fr_Windows rd = Some windows /\ forall w, w ∈ windows -> zm_Phase w = ZoneMaintenancePhaseActive ->
     dr_Name robot ∉ zm_PausedRobots w ++ zm_WindingDownRobots w) /\
  (exists a, fr_Adapter rd (r_Adapter (dr_Robot robot)) = Ok a /\ fa_Phase a = FleetAdapterPhaseConnected /\ fa_Conformance a = ConformanceStatePassed /\
     Supports (fa_ConformanceContractVersion a) = None /\ (latch = true -> Below (fa_NegotiatedContractVersion a) latchContractMin = Some false) /\
     (fa_ServesRobotClasses a = [] \/ dr_RobotClass robot ∈ fa_ServesRobotClasses a)).
Proof.
  apply eligible_judged in Heligible as [_ Hj]. pose proof (heldBack_passes _ _ _ _ (judge_heldBack _ _ _ _ _ _ Hj)) as [_ _ _ _ _ _ Hst _].
  unfold excludedByState in Hst. destruct (excludedByBatteryFloor _ _) eqn:E4; [done|]. destruct (excludedByModelUpdate _ _) eqn:E7; [done|].
  destruct (st_drained _) as [drained|] eqn:E8; [|done]. destruct (drained !! dr_Name robot) eqn:E8'; [done|]. split; [|split; [|split]].
  - unfold excludedByBatteryFloor, effectiveBatteryFloor in E4. intros floor Hf.
    destruct (da_MinBatteryPct action) as [a|], (dr_MinBatteryPctForAction robot) as [b|]; destruct (r_BatteryPercent _) as [p|];
      repeat case_match; try done; destruct Hf as [Hf|Hf]; simplify_eq; exists p; (split; [done|lia]).
  - unfold excludedByModelUpdate in E7. destruct (fold_left _ _ _) as [note [|o off]] eqn:Ef; [|done]. intros model c Hm Hu Hg Hc.
    pose proof (noteOffender_fold _ _ (grants robot) ∅ [] (or_introl eq_refl) (f_equal snd Ef)) as [_ H].
    apply (H (mo_Name model) c Hg); apply elem_of_list_to_set; [|done]. apply list_elem_of_fmap. exists model. split; [done|].
    apply list_elem_of_In, filter_In. split; [by apply list_elem_of_In|by apply eqb_s_true].
  - apply state_drained in E8 as (windows & Hw & ->). exists windows. split; [done|]. by apply drainedRobots_free.
  - unfold judgeOf, judge in Hj. rewrite (judge_heldBack _ _ _ _ _ _ Hj) in Hj. unfold adapterVerdict in Hj.
    destruct (fr_Adapter rd _) as [a|[]]; [|done..]. exists a. split; [done|]. unfold adapterDispatchReadiness in Hj.
    destruct (_ || _) eqn:Eo; [done|]. apply orb_false_iff in Eo as [Ep%negb_false_iff%eqb_s_true Ec%negb_false_iff%eqb_s_true].
    destruct (Supports _) eqn:Es; [done|]. simpl in Hj. split; [done|]. split; [done|]. split; [done|]. split.
    + intros ->. unfold adapterLatchContract in Hj. by destruct (Below _ _) as [[]|].
    + destruct (if latch then _ else _); [done|]. unfold adapterListsClass in Hj. destruct (fa_ServesRobotClasses a) as [|c cs]; [by left|right].
      destruct (existsb _ _) eqn:Ex; [|done]. apply existsb_exists in Ex as (y & Hy & <-%eqb_s_true). by apply list_elem_of_In.
Qed.

(** ** Permitted by the zones *)

Lemma zonesByName_some zones n : n ∈ rz_Name <$> zones -> is_Some (zonesByName zones !! n).
Proof.
  unfold zonesByName. induction zones as [|z zones IH] using rev_ind; [intros H; by apply not_elem_of_nil in H|].
  rewrite fmap_app, elem_of_app, fold_left_app. simpl. destruct (decide (rz_Name z = n)) as [<-|Hne]; [rewrite lookup_insert_eq; eauto|].
  rewrite lookup_insert_ne by done. intros [H|H%list_elem_of_singleton]; [by apply IH|done].
Qed.

Lemma below_listed zones s x : below_ zones s x -> is_Some (zonesByName zones !! s) -> is_Some (zonesByName zones !! x).
Proof. induction 1 as [|a b c Hab _ IH]; [done|]. intros _. apply IH. by apply zonesByName_some, (zoneChildren_listed zones a). Qed.

Definition knownAxis (a : ZoneRestrictionAxis) : Prop := a ∈ [ZoneAxisEntry; ZoneAxisCapability; ZoneAxisOperating].

Lemma key_known a s a' s' : knownAxis a -> knownAxis a' -> restrictionKey a s = restrictionKey a' s' -> a = a' /\ s = s'.
Proof.
  unfold knownAxis, restrictionKey. rewrite !elem_of_cons, !elem_of_nil. intros Ha Ha' H.
  apply (split_at (Ascii.ascii_of_nat 47) a a' s s'); [destruct Ha as [->|[->|[->|[]]]]; reflexivity|destruct Ha' as [->|[->|[->|[]]]]; reflexivity|exact H].
Qed.

(** The rules every zone of a listing publishes are ones the schema admits. *)
Definition admissible (zones : list RuledZone) : Prop :=
  forall z r, z ∈ zones -> r ∈ publishedRules z -> plainMax (ez_Max r) /\ knownAxis (ez_Axis r).

(** The robot's adapter declares every operating subject the zone rules. *)
Definition honours (robot : DispatchRobot) (z : RuledZone) : Prop :=
  forall e, e ∈ default [] (rz_Effective z) -> isOperating e = true -> ez_Subject e ∈ dr_Honoured robot.

Lemma honoured robot inForce : excludedByOperatingConstraint robot inForce = None -> forall e, e ∈ inForce -> ez_Subject e ∈ dr_Honoured robot.
Proof.
  unfold excludedByOperatingConstraint. destruct (List.filter _ inForce) as [|x l] eqn:E; [|done]. intros _ e He.
  destruct (existsb (String.eqb (ez_Subject e)) (dr_Honoured robot)) eqn:Ex; [by apply existsb_eqb|]. exfalso.
  assert (H : e ∈ List.filter (fun e => negb (existsb (String.eqb (ez_Subject e)) (dr_Honoured robot))) inForce).
  { apply list_elem_of_In, filter_In. split; [by apply list_elem_of_In|by rewrite Ex]. }
  rewrite E in H. by apply not_elem_of_nil in H.
Qed.

(** A robot that honours what the union puts in force honours each zone of it. *)
Lemma union_honoured zones containing robot : admissible zones ->
  (forall e, e ∈ List.filter isOperating (unionEffectiveRestrictions zones containing) -> ez_Subject e ∈ dr_Honoured robot) ->
  forall n z, n ∈ containing -> readable (zonesByName zones) n = Some z -> honours robot z.
Proof.
  intros Hadm Hall n z Hn Hz e He Hop.
  assert (Hin : forall r, r ∈ unionRules zones containing -> plainMax (ez_Max r) /\ knownAxis (ez_Axis r)).
  { intros r Hr. unfold unionRules in Hr. apply list_elem_of_In, in_concat in Hr as (rs & Hrs & Hr). apply list_elem_of_In, list_elem_of_fmap in Hrs as (m & -> & _).
    destruct (readable (zonesByName zones) m) as [x|] eqn:Ex; [|by destruct Hr]. apply list_elem_of_In in Hr. apply (Hadm x); [|done].
    unfold readable in Ex. destruct (zonesByName zones !! m) as [y|] eqn:Ey; [|done]. simpl in Ex. destruct (unresolvedReason y); [done|]. injection Ex as <-.
    by apply (zonesByName_elem zones m). }
  set (p := setBounds e (ez_Max e) (copyStrings (default [] (ez_Allowed e)))).
  assert (Hp : p ∈ unionRules zones containing).
  { unfold unionRules. apply list_elem_of_In, in_concat. exists (publishedRules z). split; apply list_elem_of_In.
    - apply list_elem_of_fmap. exists n. rewrite Hz. split; [done|]. by apply elem_of_sort_Strings.
    - unfold publishedRules. apply list_elem_of_fmap. by exists e. }
  destruct (emitted_summary unionSuffix (unionRules zones containing)) as (_ & H2 & _); [intros r Hr; by apply Hin|].
  destruct (H2 p Hp) as (f & Hf & Hk). destruct (emitted_origin _ _ _ Hf) as (r & Hr & Ha & Hs). unfold keyOf in Hk.
  apply key_known in Hk as [Hka Hks]; [|rewrite Ha; by apply Hin|by apply (Hin p Hp)]. cbn [p setBounds ez_Axis ez_Subject] in Hka, Hks.
  rewrite <- Hks. apply Hall. apply list_elem_of_In, filter_In. split; [by apply list_elem_of_In, union_emitted|]. unfold isOperating in *. by rewrite Hka.
Qed.

Section byZone.
Context (byName : gmap string RuledZone) (target : string).
Definition addLeaf (m : gmap string (list EffectiveZoneRestriction)) (name : string) : gmap string (list EffectiveZoneRestriction) :=
  if name =s target then m
  else match byName !! name with
       | None => m
       | Some leaf => if isNone (unresolvedReason leaf) then <[name := effectiveOperatingRules leaf]> m else m
       end.

Lemma addLeaf_fold l : forall m n, n <> target ->
  fold_left addLeaf l m !! n =
  match byName !! n with
  | Some z => if isNone (unresolvedReason z) && existsb (String.eqb n) l then Some (effectiveOperatingRules z) else m !! n
  | None => m !! n
  end.
Proof.
  induction l as [|x l IH]; intros m n Hn; cbn [fold_left existsb]; [destruct (byName !! n); [|done]; by rewrite andb_false_r|].
  rewrite IH by done. unfold addLeaf. destruct (String.eqb n x) eqn:E.
  - apply String.eqb_eq in E as <-. rewrite (proj2 (eqb_s_false _ _) Hn). destruct (byName !! n) as [z|]; [|done].
    destruct (isNone (unresolvedReason z)); simpl; [|done]. rewrite lookup_insert_eq. by destruct (existsb _ l).
  - apply String.eqb_neq in E. simpl. assert (Hsame : (if x =s target then m else match byName !! x with
        | Some leaf => if isNone (unresolvedReason leaf) then <[x:=effectiveOperatingRules leaf]> m else m | None => m end) !! n = m !! n).
    { repeat case_match; try done; by rewrite lookup_insert_ne. }
    by rewrite Hsame.
Qed.

Lemma addLeaf_target l : forall m, fold_left addLeaf l m !! target = m !! target.
Proof.
  induction l as [|x l IH]; intros m; [done|]. cbn [fold_left]. rewrite IH. unfold addLeaf. destruct (x =s target) eqn:E; [done|]. apply eqb_s_false in E.
  repeat case_match; try done. by rewrite lookup_insert_ne.
Qed.
End byZone.

Lemma effectiveOperatingRules_elem z e : e ∈ effectiveOperatingRules z <-> e ∈ default [] (rz_Effective z) /\ isOperating e = true.
Proof. unfold effectiveOperatingRules. rewrite sliceStable_elem, list_elem_of_In, filter_In, <- list_elem_of_In. done. Qed.

(** What filter 11 admits. *)
Lemma evaluate_admits action zones : da_Zone action <> "" -> namespaceUsesRestrictions zones = true ->
  refuses (evaluateZoneRestrictions action zones) = false ->
  exists self v kept, evaluateZoneRestrictions action zones = Some v /\ ve_leaves v = Some kept /\ zonesByName zones !! da_Zone action = Some self /\
    unresolvedReason self = None /\ deniedAt self ZoneAxisEntry "" = false /\
    (forall c, c ∈ fas_RequiredCapabilities (da_Spec action) -> deniedAt self ZoneAxisCapability c = false) /\
    (forall n, n ∈ kept <-> n ∈ resolveZoneLeaves (da_Zone action) zones /\
       forall z, zonesByName zones !! n = Some z -> unresolvedReason z = None /\ deniedAt z ZoneAxisEntry "" = false).
Proof.
  intros Hz Hu. unfold evaluateZoneRestrictions. rewrite (proj2 (eqb_s_false _ _) Hz), Hu. simpl.
  destruct (zonesByName zones !! da_Zone action) as [self|] eqn:Es; [|done]. destruct (unresolvedReason self) eqn:Er; [done|]. simpl.
  destruct (deniedAt self ZoneAxisEntry "") eqn:Ed; [done|]. destruct (existsb _ (fas_RequiredCapabilities _)) eqn:Ec; [done|].
  set (leaves := elements (resolveZoneLeaves _ zones)). destruct (existsb _ leaves) eqn:Eu; [done|]. case_match; [done|]. intros _.
  eexists self, _, _. split; [reflexivity|]. split; [reflexivity|]. do 3 (split; [done|]). split.
  - intros c Hc. apply not_true_is_false. intros Hd. apply not_true_iff_false in Ec. apply Ec, existsb_exists. exists c. by rewrite <- list_elem_of_In.
  - intros n. rewrite elem_of_list_to_set, list_elem_of_In, filter_In, <- list_elem_of_In. unfold leaves. rewrite elem_of_elements.
    assert (Hnu : n ∈ resolveZoneLeaves (da_Zone action) zones -> forall z, zonesByName zones !! n = Some z -> unresolvedReason z = None).
    { intros Hn z Hzn. destruct (unresolvedReason z) eqn:Ezr; [|done]. apply not_true_iff_false in Eu. exfalso. apply Eu, existsb_exists. exists n.
      rewrite <- list_elem_of_In, Hzn, Ezr. split; [|done]. by apply elem_of_elements. }
    destruct (zonesByName zones !! n) as [z|] eqn:Ezn.
    + split.
      * intros [Hn Hb]. split; [done|]. intros z' [= <-]. specialize (Hnu Hn z eq_refl). rewrite Hnu in *. simpl in Hb. by destruct (deniedAt z ZoneAxisEntry "").
      * intros [Hn Ha]. destruct (Ha z eq_refl) as [-> ->]. done.
    + split; [intros [Hn _]; by split|]. by intros [Hn _].
Qed.

(** What the rule set filter 12 builds holds for a leaf. *)
Lemma operating_leaf action zones leaves s n z : operatingConstraintsInForce action zones leaves = Some s -> zonesByName zones !! n = Some z ->
  unresolvedReason z = None -> n ∈ leaves \/ n = da_Zone action -> os_byZone s !! n = Some (effectiveOperatingRules z) /\ os_zones s = zones.
Proof.
  unfold operatingConstraintsInForce. destruct (da_Zone action =s ""); [done|]. destruct (namespaceUsesRestrictions zones); [|done]. simpl.
  destruct (zonesByName zones !! da_Zone action) as [self|] eqn:Es; [|done]. destruct (unresolvedReason self); [done|]. simpl.
  fold (addLeaf (zonesByName zones) (da_Zone action)). set (byZone := fold_left _ (elements leaves) _). intros H Hz Hr Hn.
  assert (Hs : s = mkRuleSet (da_Zone action) byZone zones) by (repeat case_match; congruence). rewrite Hs. cbn [os_byZone os_zones]. split; [|done].
  destruct (decide (n = da_Zone action)) as [->|Hne].
  - unfold byZone. rewrite addLeaf_target, lookup_singleton_eq. congruence.
  - destruct Hn as [Hn|?]; [|done]. unfold byZone. rewrite addLeaf_fold by done. rewrite Hz, Hr. simpl.
    assert (existsb (String.eqb n) (elements leaves) = true) as -> by (by apply existsb_eqb, elem_of_elements). done.
Qed.

Lemma operating_none action zones leaves self : da_Zone action <> "" -> namespaceUsesRestrictions zones = true -> zonesByName zones !! da_Zone action = Some self ->
  unresolvedReason self = None -> operatingConstraintsInForce action zones leaves = None ->
  forall z, z ∈ zones -> unresolvedReason z = None /\ effectiveOperatingRules z = [].
Proof.
  intros Hz Hu Hs Hr. unfold operatingConstraintsInForce. rewrite (proj2 (eqb_s_false _ _) Hz), Hu, Hs, Hr. simpl. case_match; [done|].
  destruct (existsb _ zones) eqn:Ex; [done|]. intros _ z Hin. apply not_true_iff_false in Ex.
  destruct (negb (isNone (unresolvedReason z)) || (0 <? length (effectiveOperatingRules z))%nat) eqn:Eb.
  - exfalso. apply Ex, existsb_exists. exists z. by rewrite <- list_elem_of_In.
  - apply orb_false_iff in Eb as [E1 E2]. destruct (unresolvedReason z); [done|]. split; [done|]. by destruct (effectiveOperatingRules z).
Qed.

(** Filter 12 of one robot: it honours the zone it is judged at and every zone that contains it. *)
Lemma forRobot_honours s robot zones leafZone : os_zones s = zones -> admissible zones ->
  let current := r_CurrentZone (dr_Robot robot) in
  let leaf := match os_byZone s !! current with Some _ => current | None => os_target s end in
  zonesByName zones !! leaf = Some leafZone -> unresolvedReason leafZone = None -> os_byZone s !! leaf = Some (effectiveOperatingRules leafZone) ->
  (let '(inForce, unresolved) := forRobot (Some s) robot in
   match excludedByUnreadableContainment unresolved with Some ex => Some ex | None => excludedByOperatingConstraint robot inForce end) = None ->
  honours robot leafZone /\ forall n z, n ∈ dr_ContainingZones robot -> zonesByName zones !! n = Some z -> unresolvedReason z = None /\ honours robot z.
Proof.
  intros Hzs Hadm current leaf Hl Hr Hb. unfold forRobot. fold current. fold leaf.
  assert (Hin : forall n, n ∈ dr_ContainingZones robot -> n = leaf \/ n ∈ List.filter (fun z => z <>s leaf) (dr_ContainingZones robot)).
  { intros n Hn. destruct (decide (n = leaf)) as [->|Hne]; [by left|right]. apply list_elem_of_In, filter_In. split; [by apply list_elem_of_In|].
    by apply negb_true_iff, eqb_s_false. }
  destruct (List.filter _ (dr_ContainingZones robot)) as [|o others] eqn:Eo.
  - cbn. rewrite Hb. simpl. intros H. assert (Hh : honours robot leafZone).
    { intros e He Hop. apply (honoured _ _ H). by apply effectiveOperatingRules_elem. }
    split; [done|]. intros n z Hn Hz. destruct (Hin n Hn) as [->|Hno]; [by simplify_eq|by apply not_elem_of_nil in Hno].
  - destruct (unionEffectiveRestrictionsWithUnresolved (os_zones s) (leaf :: o :: others)) as [folded unresolved] eqn:Eu.
    destruct unresolved as [|u us]; [|done]. cbn. intros H. rewrite Hzs in Eu.
    assert (Hread : forall n, n ∈ leaf :: o :: others -> exists z, readable (zonesByName zones) n = Some z).
    { intros n Hn. pose proof (union_unresolved zones (leaf :: o :: others) n) as Hun. rewrite Eu in Hun. simpl in Hun.
      destruct (readable (zonesByName zones) n) as [z|]; [eauto|]. exfalso. apply (not_elem_of_nil n). by apply Hun. }
    assert (Hall : forall n z, n ∈ leaf :: o :: others -> zonesByName zones !! n = Some z -> unresolvedReason z = None /\ honours robot z).
    { intros n z Hn Hz. destruct (Hread n Hn) as [z' Hz']. assert (Hzr := Hz'). unfold readable in Hzr. rewrite Hz in Hzr. simpl in Hzr.
      destruct (unresolvedReason z) eqn:Ezr; [done|]. injection Hzr as <-. split; [done|].
      apply (union_honoured zones (leaf :: o :: others) robot Hadm) with (n := n); [|done|done].
      unfold unionEffectiveRestrictions. rewrite Eu. by apply honoured. }
    split; [by apply (Hall leaf leafZone); [left|]|]. intros n z Hn Hz. apply (Hall n z); [|done]. destruct (Hin n Hn) as [->|?]; [by left|by right].
Qed.

Lemma operating_key action zones leaves s n rules : operatingConstraintsInForce action zones leaves = Some s -> os_byZone s !! n = Some rules ->
  os_target s = da_Zone action /\ exists z, zonesByName zones !! n = Some z /\ unresolvedReason z = None /\ rules = effectiveOperatingRules z.
Proof.
  unfold operatingConstraintsInForce. destruct (da_Zone action =s ""); [done|]. destruct (namespaceUsesRestrictions zones); [|done]. simpl.
  destruct (zonesByName zones !! da_Zone action) as [self|] eqn:Es; [|done]. destruct (unresolvedReason self) eqn:Er; [done|]. simpl.
  fold (addLeaf (zonesByName zones) (da_Zone action)). set (byZone := fold_left _ (elements leaves) _). intros H.
  assert (Hs : s = mkRuleSet (da_Zone action) byZone zones) by (repeat case_match; congruence). rewrite Hs. cbn [os_byZone os_target]. intros Hn. split; [done|].
  destruct (decide (n = da_Zone action)) as [->|Hne].
  - unfold byZone in Hn. rewrite addLeaf_target, lookup_singleton_eq in Hn. injection Hn as <-. eauto.
  - unfold byZone in Hn. rewrite addLeaf_fold in Hn by done. destruct (zonesByName zones !! n) as [z|]; [|by rewrite lookup_singleton_ne in Hn].
    destruct (unresolvedReason z) eqn:Ez; simpl in Hn; [by rewrite lookup_singleton_ne in Hn|].
    destruct (existsb (String.eqb n) (elements leaves)); [|by rewrite lookup_singleton_ne in Hn]. injection Hn as <-. eauto.
Qed.

Lemma operating_target action zones leaves s : operatingConstraintsInForce action zones leaves = Some s -> os_target s = da_Zone action.
Proof.
  unfold operatingConstraintsInForce. destruct (da_Zone action =s ""); [done|]. destruct (namespaceUsesRestrictions zones); [|done]. simpl.
  destruct (zonesByName zones !! da_Zone action) as [self|]; [|done]. destruct (unresolvedReason self); [done|]. simpl. repeat case_match; intros [= <-]; done.
Qed.

Lemma stateOf_zoned rd action zones : da_Zone action <> "" -> fr_Zones rd = Some zones ->
  forall latch robots, fl_restrictions (filterDispatchEligible latch rd action robots) = evaluateZoneRestrictions action zones /\
  (refuses (evaluateZoneRestrictions action zones) = false -> forall v kept, evaluateZoneRestrictions action zones = Some v -> ve_leaves v = Some kept ->
     st_zoneLeaves (stateOf rd action) = Some kept /\ st_operating (stateOf rd action) = operatingConstraintsInForce action zones kept).
Proof.
  intros Hz Hr latch robots. unfold filterDispatchEligible, stateOf, newDispatchFilterState. rewrite (proj2 (eqb_s_false _ _) Hz), Hr. split.
  - destruct (fr_Windows rd); destruct robots; try done; by destruct (fold_left _ _ _) as [[? ?] ?].
  - intros Hok v kept Hv Hk. rewrite Hok, Hv, Hk. by destruct (fr_Windows rd).
Qed.


(** ** The FleetAction controller's view *)

Section answer.
(** The texts of the reasons, which the controller only stores. *)
Context (whyTextOf : withheldWhy -> string) (degradedText : degradedWhy -> string) (verdictText : zoneVerdict -> string).

(** The answer of one call as the controller's pass reads it. *)
Definition asFiltered (robots : list DispatchRobot) (a : filterAnswer) : Filtered :=
  mkFiltered (map dr_Object (fl_eligible a)) (map (fun x => mkExclusionOf (xc_Robot x) (xc_Filter x) (whyTextOf (xc_Why x))) (fl_withheld a))
    (map degradedText (fl_degraded a))
    ((fun v => mkVerdict (ve_refuse v) (ve_terminal v) (ve_reason v) (verdictText v) (ve_narrowedOut v)
        (fun name => match List.find (fun r => dr_Name r =s name) robots with
                     | Some r => operatingConstraintsForWire (forRobot (fl_operating a) r).1
                     | None => []
                     end)) <$> fl_restrictions a).

(** The filters keep the promise the controller's proofs rest on: they leave only robots they were given. *)
Lemma filter_discharges latch rd action robots :
  actAnswered (AFilter (da_Action action) (map dr_Object robots)) (asFiltered robots (filterDispatchEligible latch rd action robots)).
Proof.
  simpl. intros o Ho. apply list_elem_of_In, in_map_iff in Ho as (r & <- & Hr). apply list_elem_of_In, in_map. apply list_elem_of_In in Hr.
  apply eligible_judged in Hr as [Hr _]. by apply list_elem_of_In.
Qed.

End answer.

(** ** The message accounts for every candidate *)

Lemma countFilters_count l : forall (m : gmap Z nat) f, default 0%nat (fold_left (fun (m : gmap Z nat) f => <[f := S (default 0%nat (m !! f))]> m) l m !! f) =
  (default 0%nat (m !! f) + length (List.filter (Z.eqb f) l))%nat.
Proof.
  induction l as [|x l IH]; intros m f; cbn [fold_left List.filter]; [simpl; lia|]. rewrite IH. destruct (f =? x) eqn:E.
  - apply Z.eqb_eq in E as <-. rewrite lookup_insert_eq. simpl. lia.
  - apply Z.eqb_neq in E. rewrite lookup_insert_ne by done. done.
Qed.

Lemma countFilters_dom l f : is_Some (countFilters l !! f) <-> f ∈ l.
Proof.
  unfold countFilters. assert (H : forall m : gmap Z nat, is_Some (fold_left (fun (m : gmap Z nat) f => <[f := S (default 0%nat (m !! f))]> m) l m !! f) <-> is_Some (m !! f) \/ f ∈ l).
  { induction l as [|x l IH]; intros m; cbn [fold_left]; [split; [by left|intros [?|H]; [done|by apply not_elem_of_nil in H]]|].
    rewrite IH, elem_of_cons. destruct (decide (f = x)) as [->|Hne]; [rewrite lookup_insert_eq; naive_solver|]. rewrite lookup_insert_ne by done. naive_solver. }
  rewrite H, lookup_empty. split; [by intros [[]|?]|by right].
Qed.

Lemma countFilters_perm l k : l ≡ₚ k -> countFilters l = countFilters k.
Proof.
  intros Hp. apply map_eq. intros f. pose proof (countFilters_count l ∅ f) as Hl. pose proof (countFilters_count k ∅ f) as Hk.
  fold (countFilters l) in Hl. fold (countFilters k) in Hk. rewrite lookup_empty in Hl, Hk.
  assert (Hlen : length (List.filter (Z.eqb f) l) = length (List.filter (Z.eqb f) k)).
  { clear -Hp. induction Hp as [|x l k _ IH|x y l|l k j _ IH1 _ IH2]; simpl; repeat case_match; simpl; congruence. }
  assert (Dl : is_Some (countFilters l !! f) <-> is_Some (countFilters k !! f)) by (rewrite !countFilters_dom; by rewrite Hp).
  rewrite Hlen, <- Hk in Hl. destruct (countFilters l !! f) as [a|], (countFilters k !! f) as [b|]; simpl in Hl; [by rewrite Hl|..|done].
  - by destruct (proj1 Dl (mk_is_Some _ _ eq_refl)).
  - by destruct (proj2 Dl (mk_is_Some _ _ eq_refl)).
Qed.

(** An unchanged fleet gives the same message, in whatever order its robots are listed. *)
Theorem message_order_free action withheld withheld' survivors survivors' acceptDegraded degraded degraded'
  (Hw : withheld ≡ₚ withheld') (Hs : survivors ≡ₚ survivors') (Hd : degraded ≡ₚ degraded') :
  noCandidateMessage action withheld survivors acceptDegraded degraded = noCandidateMessage action withheld' survivors' acceptDegraded degraded'.
Proof.
  unfold noCandidateMessage. rewrite (Permutation_length Hw), (Permutation_length Hs).
  assert (Hf : survivorFilters action survivors acceptDegraded ≡ₚ survivorFilters action survivors' acceptDegraded) by (unfold survivorFilters; by rewrite Hs).
  rewrite (countFilters_perm (withheld ++ survivorFilters action survivors acceptDegraded) (withheld' ++ survivorFilters action survivors' acceptDegraded)) by (by rewrite Hw, Hf).
  assert (Ha : admittedCount action survivors acceptDegraded = admittedCount action survivors' acceptDegraded).
  { unfold admittedCount. clear -Hs. induction Hs as [|x l k _ IH|x y l|l k j _ IH1 _ IH2]; simpl; repeat case_match; simpl; congruence. }
  rewrite Ha, (sort_Strings_unique degraded degraded' Hd). destruct degraded, degraded'; try done; [by apply Permutation_nil_cons in Hd|symmetry in Hd; by apply Permutation_nil_cons in Hd].
Qed.
