(* ===== verification/DispatchFilterScenario.v ===== *)
(** The candidate filters evaluated on a small hospital: a ward with an intensive-care bay that forbids cameras,
    a closet that forbids entry and a store that forbids mopping. *)

From S2P Require Import Prelude.
From S2P Require Import Types.
From S2P Require Import Contract.
From S2P Require Import RobotId.
From S2P Require Import Scheduler.
From S2P Require Import EstopScope.
From S2P Require Import Conc.
From S2P Require Import Command.
From S2P Require Import ExecutorGate.
From S2P Require Import AdmissionGuards.
From S2P Require Import ActionData.
From S2P Require Import EstopControl.
From S2P Require Import ZoneRestrictions.
From S2P Require Import ZoneRestrictionProps.
From S2P Require Import DispatchFilters.
From S2P Require Import DispatchFilterProps.

Definition exEntry : EffectiveZoneRestriction := mkEffective ZoneAxisEntry "" ZoneRestrictionDenied "" None "closed" "closet".
Definition exCamera : EffectiveZoneRestriction := mkEffective ZoneAxisOperating "camera" ZoneRestrictionDenied "" None "patients" "icu".
Definition exNoMop : EffectiveZoneRestriction := mkEffective ZoneAxisCapability "mop" ZoneRestrictionDenied "" None "paper" "store".

Definition exWard : list RuledZone :=
  [exRuled "ward" "" 1 None (Some []);
   exRuled "icu" "ward" 1 (exOperating "camera" ZoneRestrictionDenied "" []) (Some [exCamera]);
   exRuled "closet" "ward" 1 (Some (mkZoneRestrictions (Some (mkEntryRule ZoneRestrictionDenied "closed")) [] [])) (Some [exEntry]);
   exRuled "store" "ward" 1 (Some (mkZoneRestrictions None [mkCapabilityRule "mop" ZoneRestrictionDenied "paper"] [])) (Some [exNoMop])].

Definition exCandidateIn (name zone estop : string) (honoured : list string) : DispatchRobot :=
  mkDispatchRobot
    (mkRobotObject 1 (mkRobot name "plant" ("u-" +:+ name) ∅ None zone "acme" RobotPhaseIdle zone (Some 70)
       [mkCapability "mop" CapabilityStatusActive ∅ false false] [] [] "adapter" estop []) "")
    "cleaner" (Some 20) [("vision", ["mop"])] [] [mkModel "vision" "Ready" ""] [] [zone] honoured.

Definition exJob (selector : string) (caps : list string) : DispatchAction :=
  mkDispatchAction
    (mkAction 1 "clean" "plant" "u-clean" ∅ false 0 false (mkFleetActionSpec "Clean" None selector caps ∅ None "" "" DesiredStateRunning)
       "ward" ActionPriorityNormal None None "" None "" None
       (mkActionStatus ActionPhasePending "" 0 None None None None "" 0 None None None None "" 0 "" "" [])) (Some 30).

Definition exStopZone (name parent : string) (stopped : bool) : StopZone :=
  mkStopZone (mkFleetZone name "plant" ("u-" +:+ name) (if stopped then {[TriggerAnnotation := "now"]} else ∅)
                (mkFleetZoneSpec 4 [] parent None) (mkFleetZoneStatus [] [] 0)) ZoneEstopClear None.

Definition exAdapter : FleetAdapter := mkFleetAdapter FleetAdapterPhaseConnected ConformanceStatePassed "1.4.0" "1.4.0" ["cleaner"].

Definition exReads (robots : list DispatchRobot) (stopped : bool) : FilterReads :=
  mkFilterReads (Some exWard) (Some [mkMaintenance "lift" ZoneMaintenancePhaseActive ["amr-9"] []]) (Some (map dr_Robot robots))
    (Some [exStopZone "ward" "" stopped; exStopZone "icu" "ward" false; exStopZone "closet" "ward" false; exStopZone "store" "ward" false]) (Some [])
    (fun n => if n =s "adapter" then Ok exAdapter else Err NotFound).

Definition exFleet : list DispatchRobot :=
  [exCandidateIn "amr-1" "icu" RobotEstopNormal ["camera"]; exCandidateIn "amr-2" "icu" RobotEstopNormal [];
   exCandidateIn "amr-3" "closet" RobotEstopNormal ["camera"]; exCandidateIn "amr-4" "store" RobotEstopStopped []].

(** Who is left, and which filter withheld the rest. *)
Definition outcome (a : filterAnswer) : list string * list (string * Z) :=
  (map dr_Name (fl_eligible a), map (fun x => (xc_Robot x, xc_Filter x)) (fl_withheld a)).

Definition exAnswerOf : filterAnswer := filterDispatchEligible true (exReads exFleet false) (exJob "" ["vacuum"]) exFleet.

Lemma exAnswer_outcome : outcome exAnswerOf = (["amr-1"], [("amr-2", 12); ("amr-3", 2); ("amr-4", 10)]).
Proof. vm_compute. reflexivity. Qed.

Lemma exEligible : exCandidateIn "amr-1" "icu" RobotEstopNormal ["camera"] ∈ fl_eligible exAnswerOf.
Proof. vm_compute. by left. Qed.

Lemma eligible_robot_under_no_stop_witness :
  exists live zones configs, fr_LiveRobots (exReads exFleet false) = Some live /\ fr_LiveZones (exReads exFleet false) = Some zones /\
    fr_LiveConfigs (exReads exFleet false) = Some configs /\
    CoverageOf (TreeOf (map sz_Zone zones)) configs (dr_Robot (exCandidateIn "amr-1" "icu" RobotEstopNormal ["camera"])) = Ok [] /\
    r_EstopState (dr_Robot (exCandidateIn "amr-1" "icu" RobotEstopNormal ["camera"])) ∉ [RobotEstopStopping; RobotEstopStopped; RobotEstopFailed; RobotEstopResuming] /\
    (length (answering (Wire (dr_Robot (exCandidateIn "amr-1" "icu" RobotEstopNormal ["camera"]))) live) <= 1)%nat.
Proof. apply (eligible_robot_under_no_stop true (exReads exFleet false) (exJob "" ["vacuum"]) exFleet). exact exEligible. Defined.

Lemma eligible_robot_fit_witness :
  exists a, fr_Adapter (exReads exFleet false) "adapter" = Ok a /\ fa_Phase a = FleetAdapterPhaseConnected /\ fa_Conformance a = ConformanceStatePassed /\
    Supports (fa_ConformanceContractVersion a) = None /\ (true = true -> Below (fa_NegotiatedContractVersion a) latchContractMin = Some false) /\
    (fa_ServesRobotClasses a = [] \/ "cleaner" ∈ fa_ServesRobotClasses a).
Proof. apply (eligible_robot_fit true (exReads exFleet false) (exJob "" ["vacuum"]) exFleet (exCandidateIn "amr-1" "icu" RobotEstopNormal ["camera"])). exact exEligible. Defined.


Lemma unread_withholds_witness : fl_eligible (filterDispatchEligible true
    (mkFilterReads (Some exWard) (Some []) (Some (map dr_Robot exFleet)) None (Some []) (fun _ => Ok exAdapter)) (exJob "" []) exFleet) = [].
Proof. apply unread_withholds. right. right. left. reflexivity. Defined.

(** A stop on the ward withholds the robots below it at once, whatever their own state says. *)
Example stopped_ward_withholds : outcome (filterDispatchEligible true (exReads exFleet true) (exJob "" ["vacuum"]) exFleet) =
  ([], [("amr-1", 10); ("amr-2", 10); ("amr-3", 10); ("amr-4", 10)]).
Proof. vm_compute. reflexivity. Qed.

(** Two Robots for one machine receive nothing, though one of them looks free. *)
Example twin_withheld :
  let twins := [exCandidateIn "amr-1" "icu" RobotEstopNormal ["camera"]; exCandidateIn "amr-1" "store" RobotEstopStopped []] in
  outcome (filterDispatchEligible true (exReads twins false) (exJob "" []) twins) = ([], [("amr-1", -3); ("amr-1", -3)]).
Proof. vm_compute. reflexivity. Qed.

(** Narrowing over the subtree removes leaves whose entry is denied, not leaves that deny a capability the action
    requires: mopping the ward is admitted, and the robot that stands in the store is left for it. *)
Theorem capability_denied_leaf_kept :
  let fleet := [exCandidateIn "amr-5" "store" RobotEstopNormal []] in
  let a := filterDispatchEligible true (exReads fleet false) (exJob "" ["mop"]) fleet in
  refuses (fl_restrictions a) = false /\ outcome a = (["amr-5"], []) /\
  option_map (fun z => deniedAt z ZoneAxisCapability "mop") (zonesByName exWard !! "store") = Some true.
Proof. vm_compute. auto. Qed.

(** The rules an assignment carries are those of every zone that contains the robot, not of its current zone alone. *)
Theorem assignment_carries_containing_rules :
  let robot := exCandidateIn "amr-6" "store" RobotEstopNormal ["camera"] in
  let both := mkDispatchRobot (dr_Object robot) "cleaner" None [] [] [] [] ["icu"; "store"] ["camera"] in
  let set := fl_operating (filterDispatchEligible true (exReads [both] false) (exJob "" []) [both]) in
  map eoc_Subject (operatingConstraintsForWire (forRobot set both).1) = ["camera"] /\
  ruleAt set (r_CurrentZone (dr_Robot both)) = [].
Proof. vm_compute. auto. Qed.

Example message_text :
  noCandidateMessage (da_Spec (exJob "" ["vacuum"])) (map xc_Filter (fl_withheld exAnswerOf)) (map dr_Robot (fl_eligible exAnswerOf)) false [] =
  "no eligible robot; of 4 candidate robots: 1 not in the action's zone (filter 2), 1 missing a required capability (filter 3), 1 under an active emergency stop (filter 10), 1 served by an adapter that does not honour a zone operating rule (filter 12)".
Proof. vm_compute. reflexivity. Qed.
